(* ===== verification/_CoqProject ===== *)
-Q . S2P
Prelude.v
BTree.v
Types.v
Error.v
Decimal.v
Number.v
Ast.v
Tokenizer.v
ParserCommon.v
ConditionParser.v
UpdateParser.v
Resolver.v
Evaluator.v
UpdateEvaluator.v
Projection.v
KeyCondition.v
KeyResolve.v
ItemSize.v
Storage.v
UpdateKeys.v
ReadPage.v
StartKey.v
StorageKey.v
IndexKeys.v
Wire.v
NumberKey.v
KeyOrder.v
SqlSelect.v
SqliteQuery.v
SqlWrite.v
SqliteIndex.v
SqliteQueue.v
SqliteStore.v
StoreRefine.v
SqliteWorker.v
StoreModel.v
Transact.v
TransactRefine.v
KeyRange.v
Arn.v
Manifest.v
PolicyMatcher.v
SqliteFragment.v
TableRead.v
SqliteStream.v
StreamReplay.v
StoreSample.v
PolicyVariables.v
PolicyCondition.v
PolicyParser.v
PolicyEvaluator.v
CaseFold.v
PolicyContext.v
PrincipalId.v
TrustPolicy.v
SwrCache.v
ExpressionHelpers.v
LegacyFilter.v
QueryHandler.v
ScanHandler.v
LeadingKeys.v
LeadingNumber.v
Fence.v
FencedQuery.v
FenceSample.v
ScanClient.v
ScanSample.v
