(* ===== verification/Prelude.v ===== *)
(** * ExtendDB: verification of the data model, expressions, storage, backups and policies

    ExtendDB serves the DynamoDB API over exchangeable storage backends.  A
    request passes through four layers: the HTTP server ([crates/server], with
    [crates/auth] deciding who may do what), the request engine
    ([crates/engine]), the core library ([crates/core]) and one of the storage
    backends ([crates/storage-*]).  The core library holds the meaning of the
    API: what an item is, which numbers are valid, how the expressions of a
    request parse, and what they do to an item.  The engine and the backends
    call it at each step: an expression is tokenized and parsed, its
    placeholders are checked against the request's maps, and it is evaluated
    against an item, applied to it or turned into the key range of a query.
    Around it stand the texts under which the backends store keys, the order and
    the checks of backup files, and the policies that decide on a request.  This
    development models the core, those encodings and checks, the policies, the
    stale-while-revalidate cache, the handlers of Query and Scan, with the
    authorization of the keys a Query reads, and one backend as a whole: the SQLite
    backend from a write, through its indexes, their queue and the worker that applies
    it, to paged reads, streams and transactions.

    ** Files and the code they model

    Paths are below [crates/core/src] unless they name another crate.
    Definitions keep the source's names.

    - [Prelude]: the [result] type with [let?] for [?], the faults of a run
      ([Fail] for a returned error, [Panic] for a Rust panic, [OutOfFuel] for a
      model that was given too little fuel), bytes, ASCII classes, decimal
      printing, and the list lemmas, tactics and hints the other files share.
    - [BTree]: [BTreeMap] and [BTreeSet] as lists in key order, with the
      invariant that they are sorted and the lookup and insert laws.
    - [Types]: [types/attribute_value.rs] and [types/key_schema.rs]: attribute
      values, items, key schemas, their invariant [av_wf] and decidable equality.
    - [Error]: [error/mod.rs]: error variants, HTTP status, wire type.
    - [Decimal]: the decimal arithmetic the source takes from the [bigdecimal]
      crate, as a class of operations with a class of their documented laws, and
      an instance of both on a pair of coefficient and scale.
    - [Number]: [validation/number.rs]: parsing, range checks and normal form of
      numbers.
    - [Ast]: [expression/ast.rs] and [expression/kind.rs].
    - [Tokenizer]: [expression/tokenizer.rs].
    - [ParserCommon], [ConditionParser], [UpdateParser]:
      [expression/parser_common.rs], [expression/parser.rs] and
      [expression/update_parser.rs].
    - [Resolver]: [expression/resolver.rs]: placeholder maps with their cache of
      parsed numbers, paths in documents, and the checks a request passes before
      evaluation.
    - [Evaluator]: [expression/evaluator.rs]: conditions on an item.
    - [UpdateEvaluator]: [expression/update_evaluator.rs]: SET, REMOVE, ADD and
      DELETE.
    - [Projection]: [expression/projection.rs]: parser, overlap check and the
      trie that selects parts of an item.
    - [KeyCondition], [KeyResolve]: [expression/key_condition.rs]: the parser,
      and the assignment of clauses to the attributes of a key schema.
    - [ItemSize]: [types/item.rs] and the item checks of [validation/mod.rs] with
      the constants of [limits/mod.rs].
    - [Wire]: the JSON form of attribute values, [Serialize] and [Deserialize] of
      [types/attribute_value.rs].
    - [StorageKey]: [crates/storage/src/util/key.rs] and the tables of
      [crates/storage-sqlite]: partition key texts, sort key columns, base64.
    - [NumberKey]: [crates/storage-sqlite/src/number_key.rs]: numbers as texts
      whose byte order is their order.
    - [Storage]: what the handlers share about storage: errors and their mapping,
      message templates, index descriptions.
    - [ReadPage], [StartKey], [UpdateKeys]: [read_helpers.rs], [start_key.rs] and the
      key checks of [update_item.rs] in [crates/engine/src]: the page of a Query or
      Scan, its start key, and updates that may not touch the key.
    - [IndexKeys]: the checks of index key attributes of [validation/mod.rs].
    - [SqlSelect], [SqlWrite]: the SQL statements the SQLite backend writes, with the
      documented meaning of their clauses as laws of a parameter.
    - [SqliteQuery], [SqliteFragment], [TableRead]: [data/query.rs] and
      [data/query_scan.rs] of [crates/storage-sqlite/src]: the statement of a Query
      or Scan, what its conditions select, and reading a table page by page.
    - [SqliteIndex], [SqliteQueue], [SqliteWorker]: [data/index.rs] and
      [workers.rs]: the rows of an index, the queue of changes not yet applied, and
      the worker that applies them.
    - [SqliteStore], [StoreRefine], [StoreModel]: GetItem, PutItem, DeleteItem and
      UpdateItem of [data/], the invariant of the database, and the map from keys to
      items that it refines.
    - [Transact], [TransactRefine]: [data/transactions.rs] with its tokens and
      cancellation reasons, and its specification.
    - [SqliteStream], [StreamReplay]: [stream.rs] and [crates/engine/src/streams.rs]:
      shards, iterators and records, and what a stream tells of its table.
    - [StoreSample]: a concrete database on which the theorems of this group apply.
    - [KeyOrder], [KeyRange], [Manifest]: [backup_format/key_order.rs] and
      [backup_format/manifest.rs]: the order of keys in a backup, the key range a
      writer records and a reader checks, and the checks of a manifest.
    - [Arn]: [arn.rs] and [backup_format/layout.rs]: names of tables, streams and
      backups, and the keys of backup files.
    - [PolicyMatcher], [PolicyVariables], [PolicyCondition], [PolicyEvaluator]:
      [crates/auth/src/policy/matcher.rs], [variables.rs], [condition.rs] and
      [evaluator.rs]: wildcards, ARNs and address ranges, variables in patterns,
      condition operators, and the decision.
    - [PolicyParser]: [document.rs] of the same directory: from JSON to a document,
      with the checks at write, and the loading of documents in
      [crates/server/src/authz_cache.rs].
    - [CaseFold], [PolicyContext], [PrincipalId]: [casefold.rs], [context.rs] with
      [context/request_tags.rs], and [principal_id.rs]: what a request answers
      when a policy asks for a condition key.
    - [TrustPolicy]: [crates/server/src/management/assume_role.rs]: who may assume a
      role, and which trust policies may be written.
    - [SwrCache]: [crates/cache/src/swr.rs] and [entry.rs]: lookups, shared loads,
      background refreshes and invalidations as a machine of interleaved steps.
    - [ExpressionHelpers]: [serde_helpers.rs], [expression/reserved_words.rs] and
      [crates/engine/src/expression_helpers.rs]: the placeholder maps of a request and
      the parsing of its expressions under the limits.
    - [LegacyFilter]: [crates/engine/src/legacy_filter.rs]: [KeyConditions] and filters
      from before expressions.
    - [QueryHandler]: [crates/engine/src/query.rs]: from the JSON body of a Query to its
      page, with the decoding that [serde] derives.
    - [ScanHandler], [ScanClient], [ScanSample]: [crates/engine/src/scan.rs], a client
      that follows the pages of its answers, and a concrete table.
    - [LeadingKeys], [LeadingNumber]: [crates/server/src/leading_keys.rs]: the partition
      keys that authorization reads from a body, and the texts of numeric ones.
    - [Fence], [FencedQuery], [FenceSample]: the agreement of the two readings of a
      body, the composition of policies, handler and SQLite, and a concrete table.

    The parts meet at interfaces.  [Serves] of [ReadPage] says what a backend promises
    to the engine's reader; [SqliteQuery] discharges it.  [store_ok] of [StoreRefine]
    is what the write path keeps and what reads, the worker, transactions and streams
    are proved from.  Elsewhere they meet at the types: [Types] under everything, [KeyOrder] between the
    stored keys and the backup files, and the record [ConditionContext] between
    the policies, which are proved for every context, and the two contexts of
    [PolicyContext].

    ** How data and effects are represented

    A Rust [String] is a [string] of its UTF-8 bytes, and code that scans bytes
    works on [list ascii].  A slice of a string off a character boundary is a
    [Panic], as are an index out of range and an [unwrap] that fails.  A
    [BTreeMap] is a key-sorted list, since the order of its iteration shows in
    results; a [HashMap] is a [gmap], and where the code visits its entries a
    theorem says that their order does not matter.  A JSON object is the list of
    its entries.  An [f64] is a value of the standard library's [SpecFloat].
    Integers are [N], [nat] or [Z]; where the source has a machine integer whose
    width shows (indexes, exponents, list positions), the bound is written out.
    A [&mut] argument is passed in and returned.  The nesting depth a parser
    keeps in a field is threaded through its calls.

    ** What the theorems show

    - Numbers: a valid number keeps its value when it is normalised, its normal
      form is unique per value and stable, and every text is classified as valid,
      malformed or out of range exactly as the format and the limits say.
    - Tokenizer: the tokens spell the text they were read from, a printed token
      list reads back, and no input makes the scanner panic.
    - Parsers: each of the four expression languages has a grammar as an
      inductive relation on tokens; a parser returns a tree exactly when the
      grammar derives it, and it always returns, with a tree or an error.
    - Request checks: unused and undefined placeholders are reported exactly.
    - Conditions: comparisons agree with a total order per type, BETWEEN and the
      functions mean what they say, and evaluation reads nothing but the
      attributes the expression names and does not depend on the cache.
    - Updates: SET clauses read the item as it was, a value set at a path is the
      value read back there and nothing else changes, REMOVE, ADD and DELETE do
      what their specifications say, the invariant of items is kept, and an
      update that passed the parser never panics.
    - Projections: what is returned is exactly the part of the item below the
      selected paths.
    - Key conditions: each clause ends at the key attribute it names, in schema
      order, and every incomplete or ambiguous set of clauses is refused.
    - Sizes: the size of a number is that of its value and not of its spelling,
      item sizes add up, nesting depth and number checks see every nested value.
    - Wire format: what is read is well formed at every depth, and it is written
      as a document that reads back as the same value.
    - Stored keys: different partition keys have different texts, and the byte
      order of the stored texts is the order of the keys, numbers included.
    - Writes: for every interleaving of requests with batches of the worker the
      SQLite backend answers as a map that is written one operation at a time; when
      the due rows are drained every index is exactly the image of the table.
    - Transactions: all members are written as decided on the tables before the
      transaction, in tables, indexes, queue and streams, or nothing is.
    - Reads: a page is the reference page, within its limit and byte budget; a client
      that follows the keys of the pages gets every item of the table, of a segment or
      of a key range once and in order.  For Scan this is shown from the JSON bodies on:
      each request that carries the key of a page is accepted by the handler.
    - Streams: replaying the records of a stream gives the table; a consumer that
      follows the iterators gets each record once; an iterator starts where its type
      says.
    - Backups: the order of keys is total; a writer records the range of what it
      wrote and a reader accepts exactly that; across the files of an accepted
      manifest the restored keys ascend.
    - Names: the parsers of ARNs accept the grammar and nothing else, and names
      print back; no name leads outside its prefix of the store.
    - Policies: the wildcard loop agrees with the definition of a match; the value
      of a variable never acts as a pattern; the decision is allow exactly when no
      statement denies and every layer allows; and hiding what a policy cannot
      resolve never turns a denial into an allow.
    - Policy documents: the parser keeps every condition that is written, and only
      networks stand in address conditions of an accepted document.
    - Contexts: a request tag has a value only when all its spellings agree, and
      a request gains nothing by spelling a tag in several ways; case folding is
      idempotent; principals have distinct hash inputs.
    - Fences: the leading key that a policy sees is the partition that storage looks
      up, for expressions and for legacy conditions, and a policy that allows only some
      leading keys lets a Query return items of those partitions only.  [FenceSample]
      has the requests for which this fails, each outside of a hypothesis.  The text of
      a numeric leading key keeps the coefficient and the scale of the number.
    - Cache: a value that was loaded before an invalidation does not stay, except in a
      window that the theorem names, and one refresh runs for a key at a time.
    - Trust policies: a role is assumed exactly when every action of the call is
      allowed and no Deny can apply, one that cannot be evaluated included; what is
      accepted at write is what the evaluation understands.

    ** Fuel

    The parsers recurse on the position in a token list, which is not structural.
    They take fuel, computed from the length of the token list ([cond_fuel],
    [operand_fuel] and the like).  The theorems named [..._returns] and
    [..._no_panic] prove that this fuel is never used up: the result is a tree or
    an error of the source.  The wildcard loop's fuel is the product of the
    lengths it moves over ([PolicyMatcher]), which its theorem shows is enough, and
    the base32 loop emits at most three characters per byte ([PrincipalId]).  A page
    of a read evaluates at least a byte in each round, so [page_fuel], one more than
    the byte budget, is enough; the worker's [drain_due] and a
    client's [walk] take a number of rounds, and the theorems say how many suffice.

    ** Parameters

    Code of other packages is a class of operations with, where a theorem needs
    one, a class of their documented laws; witnesses use an instance.

    - [BigDecimal], [BigDecimalParts] with their laws: the [bigdecimal] crate;
      instances on [dec].
    - [Base64], [Base64Decode] with [Base64Laws], [Base64RoundTrip] and
      [Base64Canonical]: the encoder and the decoder; instances by RFC 4648.
    - [Rendering], [FloatRendering]: texts of values in messages.
    - [SerdeErrors], [SerdeText], [JsonText]: the error texts of [serde_json] and its
      text parser and printer.
    - [QueryCatalog]: the descriptions of tables and indexes that the handlers ask for.
    - [Moka] with its laws: the concurrent map under the cache; an instance on maps.
    - [Sqlite], [SqliteDml], [SqliteErrors], [Returning] with their laws: SQLite's
      SELECT, its writing statements, the text of one error and the order of the rows
      of RETURNING; instances on lists.
    - [Timestamps], [Crc32]: the text of a time, the checksum that assigns a shard.
    - [Rfc3339]: the parser of dates; [Sha256]: the hash, whose digest has 32
      bytes; [CatalogStore]: what the catalog says of a caller.

    ** What is not modelled

    - The request and response structures, other than those of Query and Scan, which are data
      with derived conversions, and the JSON forms of manifests and table definitions.
    - The engine's other handlers, which decode a request and call what is modelled, and
      the consumed capacity that a Query or a Scan reports.
    - The loading of policies, of principals and of table descriptions around the
      decision: calls of the catalog through the cache.
    - Of SQLite: the catalog, expiry of items, vector indexes, and faults of single
      statements other than those the worker meets.  A transaction that fails keeps
      nothing of it: that is SQLite's.
    - Vector attributes and search, and the validation of tables, indexes and tags.
    - The backends on PostgreSQL, MongoDB and Cassandra: statements and commands of
      servers whose meaning would be a parameter as a whole.
    - Request signatures, backup jobs, gzip and digests of backup files, the HTTP
      server, the command line: calls of libraries and I/O. *)

From Stdlib Require Export Ascii String NArith ZArith Lia.
From stdpp Require Export base list strings gmap numbers.

Close Scope Z_scope.
Open Scope string_scope.
Open Scope list_scope.
Open Scope nat_scope.

(** ** Results

    A Rust [Result<A, E>].  The early return of [?] is the match that
    [let?] unfolds to. *)

Inductive result (E A : Type) : Type :=
  | Ok (a : A)
  | Err (e : E).
Arguments Ok {E A} a.
Arguments Err {E A} e.

Declare Scope result_scope.
Delimit Scope result_scope with result.
Open Scope result_scope.

Notation "'let?' p := m 'in' k" :=
  (match m with Ok p => k | Err e => Err e end)
  (at level 10, p pattern, m at level 200, k at level 200,
   format "'[v' 'let?'  p  :=  m  'in' '/' k ']'") : result_scope.

Definition map_err {E F A : Type} (f : E -> F) (r : result E A) : result F A :=
  match r with
  | Ok a => Ok a
  | Err e => Err (f e)
  end.

Definition ok_or_else {E A : Type} (o : option A) (e : E) : result E A :=
  match o with
  | Some a => Ok a
  | None => Err e
  end.

Definition is_ok {E A : Type} (r : result E A) : bool :=
  match r with
  | Ok _ => true
  | Err _ => false
  end.

Section Collect.
Context {E A B : Type} (f : A -> result E B).

(** [iter.map(f).collect::<Result<Vec<_>, _>>()]: the first error wins. *)
Fixpoint collect_results (l : list A) : result E (list B) :=
  match l with
  | [] => Ok []
  | x :: l' =>
      let? y := f x in
      let? ys := collect_results l' in
      Ok (y :: ys)
  end.
End Collect.

(** [for x in l { f(x)?; }]: stop at the first error. *)
Fixpoint for_each {E A : Type} (f : A -> result E unit) (l : list A)
    : result E unit :=
  match l with
  | [] => Ok tt
  | x :: l' => let? _ := f x in for_each f l'
  end.

(** ** Orders

    The [Ord] of a Rust key type, as a three-way comparison with the laws that
    [BTreeMap] and [BTreeSet] rely on. *)

Class Ord (A : Type) : Type := cmp : A -> A -> comparison.

Class OrdLaws (A : Type) `{Ord A} : Prop := {
  cmp_eq_iff : forall x y : A, cmp x y = Eq <-> x = y;
  cmp_antisym : forall x y : A, cmp y x = CompOpp (cmp x y);
  cmp_lt_trans : forall x y z : A, cmp x y = Lt -> cmp y z = Lt -> cmp x z = Lt
}.

#[export] Instance N_ord : Ord N := N.compare.
#[export] Instance ascii_ord : Ord ascii :=
  fun a b => N.compare (N_of_ascii a) (N_of_ascii b).

(** Slices compare lexicographically, a proper prefix first. *)
Fixpoint list_cmp {A : Type} `{Ord A} (l1 l2 : list A) : comparison :=
  match l1, l2 with
  | [], [] => Eq
  | [], _ :: _ => Lt
  | _ :: _, [] => Gt
  | x :: l1', y :: l2' =>
      match cmp x y with
      | Eq => list_cmp l1' l2'
      | c => c
      end
  end.
#[export] Instance list_ord {A : Type} `{Ord A} : Ord (list A) := list_cmp.

(** ** Strings

    A Rust [String] is its UTF-8 bytes: each [ascii] is one byte.  Code that
    scans a string by byte index works on the byte list. *)

Definition as_bytes (s : string) : list ascii := list_ascii_of_string s.
Definition of_bytes (l : list ascii) : string := string_of_list_ascii l.

(** [str] compares by its UTF-8 bytes. *)
#[export] Instance string_ord : Ord string :=
  fun s t => cmp (as_bytes s) (as_bytes t).

Definition byte (c : ascii) : N := N_of_ascii c.

Definition in_range (lo hi : N) (c : ascii) : bool :=
  (lo <=? byte c)%N && (byte c <=? hi)%N.

(** [u8::is_ascii_digit], [is_ascii_uppercase], [is_ascii_lowercase],
    [is_ascii_alphabetic], [is_ascii_alphanumeric]. *)
Definition is_digit (c : ascii) : bool := in_range 48 57 c.
Definition is_upper (c : ascii) : bool := in_range 65 90 c.
Definition is_lower (c : ascii) : bool := in_range 97 122 c.
Definition is_alpha (c : ascii) : bool := is_upper c || is_lower c.
Definition is_alnum (c : ascii) : bool := is_alpha c || is_digit c.

Definition to_upper (c : ascii) : ascii :=
  if is_lower c then ascii_of_N (byte c - 32) else c.
Definition to_lower (c : ascii) : ascii :=
  if is_upper c then ascii_of_N (byte c + 32) else c.

Fixpoint string_map (f : ascii -> ascii) (s : string) : string :=
  match s with
  | EmptyString => EmptyString
  | String c s' => String (f c) (string_map f s')
  end.

(** [str::to_ascii_uppercase], [to_ascii_lowercase], [eq_ignore_ascii_case]. *)
Definition to_ascii_uppercase (s : string) : string := string_map to_upper s.
Definition to_ascii_lowercase (s : string) : string := string_map to_lower s.
Definition eq_ignore_ascii_case (s t : string) : bool :=
  String.eqb (to_ascii_lowercase s) (to_ascii_lowercase t).

(** The double quote character as a string. *)
Definition dquote : string := String (ascii_of_N 34) EmptyString.

Definition is_empty (s : string) : bool :=
  match s with
  | EmptyString => true
  | _ => false
  end.

(** [str::strip_prefix] with a one-byte pattern. *)
Definition strip_prefix_char (c : ascii) (s : string) : option string :=
  match s with
  | String d s' => if Ascii.eqb c d then Some s' else None
  | EmptyString => None
  end.

(** [Option::is_some]. *)
Definition is_some {A : Type} (o : option A) : bool :=
  match o with Some _ => true | None => false end.

(** [str::starts_with]. *)
Definition starts_with (s p : string) : bool := String.prefix p s.

(** [slice::starts_with], and [str::contains] / [windows(n).any(..)]: some
    suffix starts with the pattern. *)
Fixpoint list_starts_with {A : Type} `{EqDecision A} (l p : list A) : bool :=
  match p, l with
  | [], _ => true
  | x :: p', y :: l' => bool_decide (x = y) && list_starts_with l' p'
  | _ :: _, [] => false
  end.

Fixpoint list_contains_sub {A : Type} `{EqDecision A} (l p : list A) : bool :=
  list_starts_with l p ||
  match l with
  | [] => false
  | _ :: l' => list_contains_sub l' p
  end.

(** [s.find(t)]: byte offset of the first occurrence. *)
Fixpoint list_find_sub {A : Type} `{EqDecision A} (l p : list A) : option nat :=
  if list_starts_with l p then Some 0
  else match l with
       | [] => None
       | _ :: l' => S <$> list_find_sub l' p
       end.

(** [iter.take_while(p)], and [skip_while]. *)
Fixpoint take_while {A : Type} (p : A -> bool) (l : list A) : list A :=
  match l with
  | [] => []
  | x :: l' => if p x then x :: take_while p l' else []
  end.

Fixpoint drop_while {A : Type} (p : A -> bool) (l : list A) : list A :=
  match l with
  | [] => []
  | x :: l' => if p x then drop_while p l' else l
  end.

(** [str::split_once] with a one-byte pattern: at the first match. *)
Fixpoint split_once {A : Type} (p : A -> bool) (l : list A) : option (list A * list A) :=
  match l with
  | [] => None
  | x :: l' =>
      if p x then Some ([], l')
      else match split_once p l' with
           | Some (a, b) => Some (x :: a, b)
           | None => None
           end
  end.

(** [s.find(p)] and [s.rfind(p)] for a predicate: the first and the last
    position it holds at. *)
Fixpoint list_find {A : Type} (p : A -> bool) (l : list A) : option nat :=
  match l with
  | [] => None
  | x :: l' => if p x then Some 0 else S <$> list_find p l'
  end.

Fixpoint list_rfind {A : Type} (p : A -> bool) (l : list A) : option nat :=
  match l with
  | [] => None
  | x :: l' =>
      match list_rfind p l' with
      | Some i => Some (S i)
      | None => if p x then Some 0 else None
      end
  end.

(** [Vec<String>::join]. *)
Definition join (sep : string) (l : list string) : string := String.concat sep l.

(** ** Integers *)

Definition usize_max : N := 18446744073709551615.
Definition i32_min : Z := (-2147483648)%Z.
Definition i32_max : Z := 2147483647%Z.
Definition i64_min : Z := (-9223372036854775808)%Z.
Definition i64_max : Z := 9223372036854775807%Z.

Definition digit_val (c : ascii) : N := (byte c - 48)%N.
Definition digit_char (d : N) : ascii := ascii_of_N (d + 48).

(** The value of a string of decimal digits, most significant first. *)
Definition digits_val (l : list ascii) : N :=
  fold_left (fun acc c => (acc * 10 + digit_val c)%N) l 0%N.

(** [<u64 as ToString>::to_string]: decimal digits without leading zeros. *)
Fixpoint digits_of_fuel (fuel : nat) (n : N) (acc : list ascii) : list ascii :=
  match fuel with
  | O => acc
  | S f =>
      let acc' := digit_char (n mod 10) :: acc in
      if (n <? 10)%N then acc' else digits_of_fuel f (n / 10) acc'
  end.

Definition N_to_bytes (n : N) : list ascii :=
  digits_of_fuel (S (N.to_nat (N.log2 n))) n [].
Definition N_to_string (n : N) : string := of_bytes (N_to_bytes n).
Definition nat_to_string (n : nat) : string := N_to_string (N.of_nat n).

(** [str::parse::<usize>()]: an optional [+], at least one digit, no
    overflow of 64 bits. *)
Definition parse_usize (s : string) : option N :=
  let l := as_bytes s in
  let ds := match l with
            | c :: l' => if Ascii.eqb c "+" then l' else l
            | [] => l
            end in
  if bool_decide (ds = []) then None
  else if forallb is_digit ds then
    let n := digits_val ds in
    if (n <=? usize_max)%N then Some n else None
  else None.

(** [str::parse::<i32>()]: an optional sign, at least one digit, no overflow of
    32 bits. *)
Definition parse_i32 (l : list ascii) : option Z :=
  let '(neg, ds) := match l with
            | c :: l' => if Ascii.eqb c "+" then (false, l')
                         else if Ascii.eqb c "-" then (true, l')
                         else (false, l)
            | [] => (false, l)
            end in
  if bool_decide (ds = []) then None
  else if forallb is_digit ds then
    let n := Z.of_N (digits_val ds) in
    let z := if neg : bool then (- n)%Z else n in
    if (i32_min <=? z)%Z && (z <=? i32_max)%Z then Some z else None
  else None.

(** [i64::saturating_add], [i64::saturating_sub] and
    [i64::try_from(len).unwrap_or(i64::MAX)]. *)
Definition sat_i64 (z : Z) : Z := Z.max i64_min (Z.min i64_max z).
Definition sat_add_i64 (a b : Z) : Z := sat_i64 (a + b).
Definition sat_sub_i64 (a b : Z) : Z := sat_i64 (a - b).

(** [i32::try_from]. *)
Definition i32_try_from (z : Z) : option Z :=
  if (i32_min <=? z)%Z && (z <=? i32_max)%Z then Some z else None.

(** [slice.last()]. *)
Fixpoint last_error {A : Type} (l : list A) : option A :=
  match l with
  | [] => None
  | [x] => Some x
  | _ :: l' => last_error l'
  end.

(** [slice.get(i)] for a [usize] index: no element past the end. *)
Definition get_N {A : Type} (l : list A) (i : N) : option A :=
  if (i <? N.of_nat (length l))%N then l !! N.to_nat i else None.

(** ** Tactics and hints *)

Create HintDb edb.

(** Split the matches of a computation that is known to have succeeded. *)
Ltac inv_ok :=
  repeat match goal with
  | H : Ok _ = Ok _ |- _ => injection H as H; try subst
  | H : Err _ = Err _ |- _ => injection H as H; try subst
  | H : Ok _ = Err _ |- _ => discriminate H
  | H : Err _ = Ok _ |- _ => discriminate H
  | H : Some _ = Some _ |- _ => injection H as H; try subst
  | H : Some _ = None |- _ => discriminate H
  | H : None = Some _ |- _ => discriminate H
  end.

Ltac case_bind H :=
  match type of H with
  | context [match ?m with Ok _ => _ | Err _ => _ end] =>
      let E := fresh "E" in destruct m eqn:E; try discriminate H
  end.

Lemma for_each_Ok {E A : Type} (f : A -> result E unit) l :
  for_each f l = Ok tt <-> forall x, In x l -> f x = Ok tt.
Proof.
  induction l as [|x l IH]; simpl; [naive_solver|].
  destruct (f x) as [[]|] eqn:E1; [rewrite IH; naive_solver|].
  split; [done|]. intros H. specialize (H x (or_introl eq_refl)). congruence.
Qed.

Lemma collect_results_In {E A B : Type} (f : A -> result E B) l k y :
  collect_results f l = Ok k -> In y k <-> exists x, In x l /\ f x = Ok y.
Proof.
  revert k. induction l as [|x l IH]; simpl; intros k Hk; [injection Hk as <-; naive_solver|].
  destruct (f x) as [z|] eqn:Ex; [|done]. destruct (collect_results f l) as [zs|]; [|done].
  injection Hk as <-. simpl. rewrite (IH zs eq_refl). split.
  - intros [<-|(x' & ? & ?)]; eauto.
  - intros (x' & [<-|?] & Hx'); [left; congruence|right; eauto].
Qed.

Lemma str_app_inj (a b c : string) : a +:+ b = a +:+ c -> b = c.
Proof. induction a as [|x a IH]; [done|]. intros E. apply IH. by injection E. Qed.

Lemma collect_results_length {E A B : Type} (f : A -> result E B) l k :
  collect_results f l = Ok k -> length k = length l.
Proof.
  revert k. induction l as [|x l IH]; simpl; [by intros ? [= <-]|].
  destruct (f x); [|done]. destruct (collect_results f l) as [ys|]; [|done].
  intros ? [= <-]. simpl. by rewrite (IH ys).
Qed.

Lemma collect_results_Ok {E A B : Type} (f : A -> result E B) l k x :
  collect_results f l = Ok k -> In x l -> exists y, f x = Ok y /\ In y k.
Proof.
  revert k. induction l as [|x' l IH]; simpl; intros k Hk; [done|].
  destruct (f x') as [z|] eqn:Ex; [|done]. destruct (collect_results f l) as [zs|]; [|done].
  injection Hk as <-. intros [->|Hx]; [exists z; split; [done|by left]|].
  destruct (IH zs eq_refl Hx) as (y & ? & ?). exists y. split; [done|by right].
Qed.

(** A boolean conjunction that holds, split into its conjuncts. *)
Ltac bool_split :=
  repeat match goal with
  | H : (_ && _)%bool = true |- _ =>
      apply andb_prop in H; let H1 := fresh H in let H2 := fresh H in
      destruct H as [H1 H2]
  end.

(** ** Order laws *)

#[export] Instance N_ord_laws : OrdLaws N.
Proof.
  split; unfold cmp, N_ord; intros.
  - apply N.compare_eq_iff.
  - apply N.compare_antisym.
  - rewrite N.compare_lt_iff in *. lia.
Qed.

Lemma byte_inj (a b : ascii) : byte a = byte b -> a = b.
Proof.
  unfold byte. intros H. rewrite <- (ascii_N_embedding a), <- (ascii_N_embedding b).
  by rewrite H.
Qed.

Lemma byte_bound (a : ascii) : (byte a < 256)%N.
Proof. apply N_ascii_bounded. Qed.

#[export] Instance ascii_ord_laws : OrdLaws ascii.
Proof.
  split; unfold cmp, ascii_ord; intros.
  - rewrite N.compare_eq_iff. split; [apply byte_inj | by intros ->].
  - apply N.compare_antisym.
  - rewrite N.compare_lt_iff in *. lia.
Qed.

Lemma cmp_refl {A : Type} `{OrdLaws A} (x : A) : cmp x x = Eq.
Proof. by apply cmp_eq_iff. Qed.

Lemma cmp_gt_lt {A : Type} `{OrdLaws A} (x y : A) : cmp x y = Gt -> cmp y x = Lt.
Proof. intros E. rewrite cmp_antisym, E. reflexivity. Qed.

Lemma cmp_lt_gt {A : Type} `{OrdLaws A} (x y : A) : cmp x y = Lt -> cmp y x = Gt.
Proof. intros E. rewrite cmp_antisym, E. reflexivity. Qed.

Lemma cmp_lt_neq {A : Type} `{OrdLaws A} (x y : A) : cmp x y = Lt -> x <> y.
Proof. intros E ->. rewrite cmp_refl in E. discriminate. Qed.

#[export] Hint Resolve cmp_refl cmp_gt_lt cmp_lt_gt cmp_lt_trans : edb.

Lemma list_cmp_eq_iff {A : Type} `{OrdLaws A} (l1 l2 : list A) :
  list_cmp l1 l2 = Eq <-> l1 = l2.
Proof.
  revert l2. induction l1 as [|x l1 IH]; intros [|y l2]; simpl; try done.
  destruct (cmp x y) eqn:E.
  - apply cmp_eq_iff in E as ->. rewrite IH. naive_solver.
  - split; [done|]. intros [= -> ->]. by rewrite cmp_refl in E.
  - split; [done|]. intros [= -> ->]. by rewrite cmp_refl in E.
Qed.

Lemma list_cmp_antisym {A : Type} `{OrdLaws A} (l1 l2 : list A) :
  list_cmp l2 l1 = CompOpp (list_cmp l1 l2).
Proof.
  revert l2. induction l1 as [|x l1 IH]; intros [|y l2]; simpl; try done.
  rewrite (cmp_antisym x y). destruct (cmp x y); simpl; auto.
Qed.

Lemma list_cmp_lt_trans {A : Type} `{OrdLaws A} (l1 l2 l3 : list A) :
  list_cmp l1 l2 = Lt -> list_cmp l2 l3 = Lt -> list_cmp l1 l3 = Lt.
Proof.
  revert l2 l3. induction l1 as [|x l1 IH]; intros [|y l2] [|z l3]; simpl; try done.
  destruct (cmp x y) eqn:E1; try done.
  - apply cmp_eq_iff in E1 as ->. destruct (cmp y z); eauto.
  - destruct (cmp y z) eqn:E2; try done.
    + apply cmp_eq_iff in E2 as ->. by rewrite E1.
    + by rewrite (cmp_lt_trans _ _ _ E1 E2).
Qed.

#[export] Instance list_ord_laws {A : Type} `{OrdLaws A} : OrdLaws (list A).
Proof.
  split; unfold cmp, list_ord;
    eauto using list_cmp_eq_iff, list_cmp_antisym, list_cmp_lt_trans.
Qed.

Lemma of_bytes_as_bytes (s : string) : of_bytes (as_bytes s) = s.
Proof. apply string_of_list_ascii_of_string. Qed.

Lemma as_bytes_of_bytes (l : list ascii) : as_bytes (of_bytes l) = l.
Proof. apply list_ascii_of_string_of_list_ascii. Qed.

Lemma as_bytes_inj (s t : string) : as_bytes s = as_bytes t -> s = t.
Proof. intros H. by rewrite <- (of_bytes_as_bytes s), H, of_bytes_as_bytes. Qed.

Lemma of_bytes_inj (k l : list ascii) : of_bytes k = of_bytes l -> k = l.
Proof. intros H. by rewrite <- (as_bytes_of_bytes k), H, as_bytes_of_bytes. Qed.

#[export] Instance string_ord_laws : OrdLaws string.
Proof.
  split; unfold cmp, string_ord; intros.
  - rewrite cmp_eq_iff. split; [apply as_bytes_inj | by intros ->].
  - apply cmp_antisym.
  - eapply cmp_lt_trans; eauto.
Qed.

(** ** Strings as byte lists *)

Lemma as_bytes_app (s t : string) : as_bytes (s +:+ t) = as_bytes s ++ as_bytes t.
Proof.
  induction s as [|c s IH]; [done|].
  change (c :: as_bytes (s +:+ t) = c :: (as_bytes s ++ as_bytes t)). by rewrite IH.
Qed.

Lemma of_bytes_app (k l : list ascii) : of_bytes (k ++ l) = of_bytes k +:+ of_bytes l.
Proof.
  induction k as [|c k IH]; [done|].
  change (String c (of_bytes (k ++ l)) = String c (of_bytes k +:+ of_bytes l)).
  by rewrite IH.
Qed.

Lemma length_as_bytes (s : string) : length (as_bytes s) = String.length s.
Proof.
  induction s as [|c s IH]; [done|].
  change (S (length (as_bytes s)) = S (String.length s)). by rewrite IH.
Qed.

#[export] Hint Rewrite of_bytes_as_bytes as_bytes_of_bytes as_bytes_app
  of_bytes_app : edb.

(** ** Searching byte lists *)

Lemma split_once_Some {A : Type} (p : A -> bool) l a b :
  split_once p l = Some (a, b) <->
  exists x, l = a ++ x :: b /\ p x = true /\ forallb (fun y => negb (p y)) a = true.
Proof.
  revert a b. induction l as [|y l IH]; intros a b; simpl.
  { split; [done|]. by intros (x & Hl & _); destruct a. }
  destruct (p y) eqn:Ey.
  - split.
    + intros [= <- <-]. by exists y.
    + intros (x & Hl & Hx & Ha). destruct a as [|z a]; simpl in *.
      * by injection Hl as -> ->.
      * injection Hl as -> ->. by rewrite Ey in Ha.
  - destruct (split_once p l) as [[a' b']|] eqn:E.
    + split.
      * intros [= <- <-]. destruct (proj1 (IH a' b') eq_refl) as (x & -> & Hx & Ha).
        exists x. simpl. by rewrite Ey, Ha.
      * intros (x & Hl & Hx & Ha). destruct a as [|z a]; simpl in *.
        { injection Hl as -> ->. congruence. }
        injection Hl as -> ->. bool_split.
        assert (Some (a', b') = Some (a, b)) as [= -> ->]; [|done].
        apply IH. by exists x.
    + split; [done|]. intros (x & Hl & Hx & Ha). destruct a as [|z a]; simpl in *.
      { injection Hl as -> ->. congruence. }
      injection Hl as -> ->. bool_split.
      assert (None = Some (a, b)); [|done]. apply IH. by exists x.
Qed.

Lemma split_once_None {A : Type} (p : A -> bool) l :
  split_once p l = None <-> forallb (fun y => negb (p y)) l = true.
Proof.
  induction l as [|y l IH]; simpl; [done|].
  destruct (p y); simpl; [done|].
  destruct (split_once p l) as [[a b]|]; naive_solver.
Qed.

Lemma forallb_impl {A : Type} (p q : A -> bool) l :
  (forall x, p x = true -> q x = true) -> forallb p l = true -> forallb q l = true.
Proof. intros Hpq. rewrite !forallb_forall. auto. Qed.

(** The leading elements that satisfy [p], and the rest. *)
Lemma list_find_drop {A : Type} (p : A -> bool) l :
  drop (default (length l) (list_find p l)) l = drop_while (fun x => negb (p x)) l.
Proof.
  induction l as [|x l IH]; simpl; [done|].
  destruct (p x); simpl; [done|].
  destruct (list_find p l); simpl in *; done.
Qed.

Lemma drop_while_spec {A : Type} (p : A -> bool) l :
  exists l1, l = l1 ++ drop_while p l /\ forallb p l1 = true /\
    (forall x l2, drop_while p l = x :: l2 -> p x = false).
Proof.
  induction l as [|x l IH]; simpl.
  { exists []. naive_solver. }
  destruct (p x) eqn:E.
  - destruct IH as (l1 & Hl & Hp & Hd). exists (x :: l1). simpl.
    rewrite E. split; [by f_equal|]. by split.
  - exists []. naive_solver.
Qed.

Lemma list_rfind_spec {A : Type} (p : A -> bool) l :
  match list_rfind p l with
  | Some i => exists l1 x l2, l = l1 ++ x :: l2 /\ length l1 = i /\ p x = true /\
                forallb (fun y => negb (p y)) l2 = true
  | None => forallb (fun y => negb (p y)) l = true
  end.
Proof.
  induction l as [|x l IH]; simpl; [done|].
  destruct (list_rfind p l) as [i|].
  - destruct IH as (l1 & y & l2 & -> & <- & Hy & H2). by exists (x :: l1), y, l2.
  - destruct (p x) eqn:E; simpl; [|done]. by exists [], x, l.
Qed.

(** ** Decimal digits *)

Lemma is_digit_bound c : is_digit c = true <-> (48 <= byte c <= 57)%N.
Proof. unfold is_digit, in_range. rewrite andb_true_iff, !N.leb_le. lia. Qed.

Lemma digit_val_lt c : is_digit c = true -> (digit_val c < 10)%N.
Proof. rewrite is_digit_bound. unfold digit_val. lia. Qed.

Lemma digit_val_inj c d :
  is_digit c = true -> is_digit d = true -> digit_val c = digit_val d -> c = d.
Proof. rewrite !is_digit_bound. unfold digit_val. intros. apply byte_inj. lia. Qed.

Lemma digits_val_snoc l c : digits_val (l ++ [c]) = (digits_val l * 10 + digit_val c)%N.
Proof. unfold digits_val. by rewrite fold_left_app. Qed.

Lemma digits_val_app l k :
  digits_val (l ++ k) = (digits_val l * 10 ^ N.of_nat (length k) + digits_val k)%N.
Proof.
  induction k as [|c k IH] using rev_ind.
  { rewrite app_nil_r. simpl. unfold digits_val at 3. simpl. lia. }
  rewrite app_assoc, !digits_val_snoc, IH, length_app. simpl.
  replace (N.of_nat (length k + 1)) with (N.succ (N.of_nat (length k))) by lia.
  rewrite N.pow_succ_r'. lia.
Qed.

Lemma digits_val_lt l : forallb is_digit l = true -> (digits_val l < 10 ^ N.of_nat (length l))%N.
Proof.
  induction l as [|c l IH] using rev_ind; [by unfold digits_val|].
  rewrite forallb_app, andb_true_iff. simpl. intros [Hl Hc]. rewrite andb_true_r in Hc.
  apply digit_val_lt in Hc. specialize (IH Hl).
  rewrite digits_val_snoc, length_app. simpl.
  replace (N.of_nat (length l + 1)) with (N.succ (N.of_nat (length l))) by lia.
  rewrite N.pow_succ_r'. lia.
Qed.

Lemma digits_val_zeros l :
  forallb (fun c => Ascii.eqb c "0") l = true -> digits_val l = 0%N.
Proof.
  induction l as [|c l IH] using rev_ind; [done|].
  rewrite forallb_app, andb_true_iff. simpl. intros [Hl Hc]. rewrite andb_true_r in Hc.
  apply Ascii.eqb_eq in Hc as ->. rewrite digits_val_snoc, IH by done. done.
Qed.

Lemma digits_val_zeros_app z l :
  forallb (fun c => Ascii.eqb c "0") z = true -> digits_val (z ++ l) = digits_val l.
Proof. intros Hz. by rewrite digits_val_app, digits_val_zeros. Qed.

(** A digit string whose first digit is not zero. *)
Definition no_leading_zero (l : list ascii) : bool :=
  match l with
  | [] => true
  | c :: _ => negb (Ascii.eqb c "0")
  end.

Lemma digits_val_pos c l :
  is_digit c = true -> c <> "0"%char -> (0 < digits_val (c :: l))%N.
Proof.
  intros Hc Hne. change (c :: l) with ([c] ++ l). rewrite digits_val_app.
  assert (digit_val c <> 0%N).
  { intros E. apply Hne. apply digit_val_inj; [done|done|]. by rewrite E. }
  assert (0 < 10 ^ N.of_nat (length l))%N by (apply N.neq_0_lt_0, N.pow_nonzero; done).
  unfold digits_val at 1. simpl. nia.
Qed.

Lemma digits_val_inj l k :
  forallb is_digit l = true -> forallb is_digit k = true ->
  no_leading_zero l = true -> no_leading_zero k = true ->
  digits_val l = digits_val k -> l = k.
Proof.
  assert (forall c l, forallb is_digit (c :: l) = true -> no_leading_zero (c :: l) = true ->
    digits_val (c :: l) <> 0%N) as Hpos.
  { simpl. intros c l' Hd Hn. bool_split. apply negb_true_iff, Ascii.eqb_neq in Hn.
    pose proof (digits_val_pos c l'). naive_solver lia. }
  revert k. induction l as [|c l IH] using rev_ind; intros k Hl Hk Nl Nk Hv.
  { destruct k; [done|]. exfalso. by eapply Hpos. }
  destruct k as [|d k _] using rev_ind.
  { exfalso. destruct l; by eapply Hpos. }
  rewrite !digits_val_snoc in Hv. rewrite forallb_app, andb_true_iff in Hl, Hk.
  destruct Hl as [Hl Hc], Hk as [Hk Hd]. simpl in Hc, Hd. rewrite andb_true_r in Hc, Hd.
  pose proof (digit_val_lt _ Hc). pose proof (digit_val_lt _ Hd).
  assert (c = d) as -> by (apply digit_val_inj; [done|done|lia]).
  f_equal. apply IH; [done|done| | |lia].
  - by destruct l.
  - by destruct k.
Qed.

(** ** Printing and reading integers *)

Lemma digit_char_digit d : (d < 10)%N -> is_digit (digit_char d) = true /\ digit_val (digit_char d) = d.
Proof.
  intros Hd. unfold digit_char, digit_val. rewrite is_digit_bound. unfold byte.
  rewrite N_ascii_embedding by lia. lia.
Qed.

Lemma digits_of_fuel_spec fuel n acc :
  (n < 10 ^ N.of_nat fuel)%N ->
  exists ds, digits_of_fuel fuel n acc = ds ++ acc /\ forallb is_digit ds = true /\
    digits_val ds = n /\ (fuel <> 0 -> ds <> []).
Proof.
  revert n acc. induction fuel as [|fuel IH]; intros n acc Hn.
  { exists []. simpl in *. assert (n = 0%N) as -> by lia. done. }
  replace (N.of_nat (S fuel)) with (N.succ (N.of_nat fuel)) in Hn by lia.
  rewrite N.pow_succ_r' in Hn.
  assert (n mod 10 < 10)%N as Hm by (apply N.mod_lt; lia).
  destruct (digit_char_digit _ Hm) as [Hd Hv]. simpl.
  destruct (N.ltb_spec n 10).
  - exists [digit_char (n mod 10)]. simpl. rewrite Hd. repeat split; [|done].
    unfold digits_val. simpl. rewrite Hv. rewrite N.mod_small by done. lia.
  - destruct (IH (n / 10)%N (digit_char (n mod 10) :: acc)) as (ds & -> & Hds & Hdv & _).
    { apply N.Div0.div_lt_upper_bound. lia. }
    exists (ds ++ [digit_char (n mod 10)]). rewrite <- app_assoc, forallb_app, Hds.
    simpl. rewrite Hd, digits_val_snoc, Hdv, Hv. repeat split; [|by destruct ds].
    rewrite (N.div_mod n 10) at 3 by lia. lia.
Qed.

Lemma N_to_bytes_spec n :
  forallb is_digit (N_to_bytes n) = true /\ digits_val (N_to_bytes n) = n /\ N_to_bytes n <> [].
Proof.
  unfold N_to_bytes.
  destruct (digits_of_fuel_spec (S (N.to_nat (N.log2 n))) n []) as (ds & -> & Hd & Hv & Hne).
  - destruct (N.eq_dec n 0%N) as [->|Hn]; [done|].
    replace (N.of_nat (S (N.to_nat (N.log2 n)))) with (N.succ (N.log2 n)) by lia.
    pose proof (N.log2_spec n ltac:(lia)) as [_ Hlt].
    eapply N.lt_le_trans; [exact Hlt|]. apply N.pow_le_mono_l. lia.
  - rewrite app_nil_r. auto.
Qed.

(** [usize::to_string] then [str::parse::<usize>]. *)
Lemma parse_usize_N_to_string n : (n <= usize_max)%N -> parse_usize (N_to_string n) = Some n.
Proof.
  intros Hn. unfold parse_usize, N_to_string. rewrite as_bytes_of_bytes.
  destruct (N_to_bytes_spec n) as (Hd & Hv & Hne).
  destruct (N_to_bytes n) as [|c l] eqn:E; [done|].
  assert (Ascii.eqb c "+" = false) as ->.
  { apply Ascii.eqb_neq. intros ->. simpl in Hd. done. }
  rewrite bool_decide_eq_false_2, Hd by done. rewrite Hv.
  by rewrite (proj2 (N.leb_le _ _) Hn).
Qed.
