(* ===== verification/BTree.v ===== *)
(** * Ordered maps and sets

    Rust's [BTreeMap] and [BTreeSet], which the data model uses for items, map
    attributes and set attributes, as key-sorted lists without duplicates.  The
    list is the iteration order of the Rust container.  Operations are those of
    the standard library that the modelled code calls; the lemmas state that
    they preserve sortedness and how lookups see them. *)

From S2P Require Import Prelude.

Section BTreeMap.
Context {K V : Type} `{OrdLaws K}.
Implicit Types (k : K) (v : V) (m : list (K * V)).

(** [BTreeMap::get]. *)
Fixpoint bt_get k m : option V :=
  match m with
  | [] => None
  | (k', v') :: m' =>
      match cmp k k' with
      | Eq => Some v'
      | _ => bt_get k m'
      end
  end.

(** [BTreeMap::insert]: replace the value under an equal key, or keep order. *)
Fixpoint bt_insert k v m : list (K * V) :=
  match m with
  | [] => [(k, v)]
  | (k', v') :: m' =>
      match cmp k k' with
      | Lt => (k, v) :: m
      | Eq => (k', v) :: m'
      | Gt => (k', v') :: bt_insert k v m'
      end
  end.

(** [BTreeMap::remove]. *)
Fixpoint bt_remove k m : list (K * V) :=
  match m with
  | [] => []
  | (k', v') :: m' =>
      match cmp k k' with
      | Eq => m'
      | _ => (k', v') :: bt_remove k m'
      end
  end.

(** [iter.collect::<BTreeMap<_, _>>()]: a later entry replaces an earlier one. *)
Definition bt_extend m (l : list (K * V)) : list (K * V) :=
  fold_left (fun acc kv => bt_insert kv.1 kv.2 acc) l m.
Definition bt_of_list (l : list (K * V)) : list (K * V) := bt_extend [] l.

(** [BTreeMap::contains_key]. *)
Definition bt_contains_key k m : bool :=
  match bt_get k m with
  | Some _ => true
  | None => false
  end.

(** Strictly ascending keys. *)
Fixpoint keys_above (k : K) m : bool :=
  match m with
  | [] => true
  | (k', _) :: m' => match cmp k k' with Lt => keys_above k' m' | _ => false end
  end.

Definition bt_sorted m : bool :=
  match m with
  | [] => true
  | (k, _) :: m' => keys_above k m'
  end.

Lemma bt_sorted_cons k v m : bt_sorted ((k, v) :: m) = keys_above k m.
Proof. done. Qed.

Lemma keys_above_sorted k m : keys_above k m = true -> bt_sorted m = true.
Proof. destruct m as [|[k' v'] m]; simpl; [done|]. by destruct (cmp k k'). Qed.

Lemma keys_above_weaken k k' m :
  cmp k k' = Lt -> keys_above k' m = true -> keys_above k m = true.
Proof.
  destruct m as [|[k2 v2] m]; simpl; [done|]. intros E.
  destruct (cmp k' k2) eqn:E2; try done. by rewrite (cmp_lt_trans _ _ _ E E2).
Qed.

Lemma keys_above_get k k' m :
  keys_above k m = true -> cmp k' k <> Gt -> bt_get k' m = None.
Proof.
  revert k. induction m as [|[k2 v2] m IH]; intros k Hab Hk; simpl in *; [done|].
  destruct (cmp k k2) eqn:E; try done.
  assert (cmp k' k2 = Lt) as ->.
  { destruct (cmp k' k) eqn:E'; [apply cmp_eq_iff in E' as ->; done| |done].
    eapply cmp_lt_trans; eauto. }
  apply (IH k2); [done|]. destruct (cmp k' k) eqn:E'; [| |done].
  - apply cmp_eq_iff in E' as ->. by rewrite E.
  - by rewrite (cmp_lt_trans _ _ _ E' E).
Qed.

Lemma keys_above_insert k k' v m :
  keys_above k m = true -> cmp k k' = Lt -> keys_above k (bt_insert k' v m) = true.
Proof.
  revert k. induction m as [|[k2 v2] m IH]; intros k Hab Hlt; simpl in *.
  { by rewrite Hlt. }
  destruct (cmp k k2) eqn:E; try done.
  destruct (cmp k' k2) eqn:E2; simpl.
  - by rewrite E.
  - by rewrite Hlt, E2.
  - rewrite E. apply IH; [done|]. by apply cmp_gt_lt.
Qed.

Lemma bt_insert_sorted k v m : bt_sorted m = true -> bt_sorted (bt_insert k v m) = true.
Proof.
  destruct m as [|[k' v'] m]; simpl; [done|]. intros Hs.
  destruct (cmp k k') eqn:E; simpl; [done|by rewrite E|].
  apply keys_above_insert; [done|]. by apply cmp_gt_lt.
Qed.

Lemma keys_above_remove k k' m :
  keys_above k m = true -> keys_above k (bt_remove k' m) = true.
Proof.
  revert k. induction m as [|[k2 v2] m IH]; intros k Hab; simpl in *; [done|].
  destruct (cmp k k2) eqn:E; try done.
  destruct (cmp k' k2) eqn:E2; simpl; rewrite ?E; auto.
  by eapply keys_above_weaken.
Qed.

Lemma bt_remove_sorted k m : bt_sorted m = true -> bt_sorted (bt_remove k m) = true.
Proof.
  destruct m as [|[k' v'] m]; simpl; [done|]. intros Hs.
  destruct (cmp k k') eqn:E; simpl; eauto using keys_above_remove, keys_above_sorted.
Qed.

Lemma bt_get_insert_eq k v m : bt_get k (bt_insert k v m) = Some v.
Proof.
  induction m as [|[k' v'] m IH]; simpl; [by rewrite cmp_refl|].
  destruct (cmp k k') eqn:E; simpl; rewrite ?cmp_refl, ?E; done.
Qed.

Lemma bt_get_insert_ne k k' v m : k <> k' -> bt_get k (bt_insert k' v m) = bt_get k m.
Proof.
  intros Hne. induction m as [|[k2 v2] m IH]; simpl.
  { destruct (cmp k k') eqn:E; try done. by apply cmp_eq_iff in E. }
  destruct (cmp k' k2) eqn:E2; simpl.
  - apply cmp_eq_iff in E2 as ->.
    destruct (cmp k k2) eqn:E; try done. by apply cmp_eq_iff in E.
  - destruct (cmp k k') eqn:E; try done. by apply cmp_eq_iff in E.
  - by rewrite IH.
Qed.

Lemma bt_get_remove_eq k m : bt_sorted m = true -> bt_get k (bt_remove k m) = None.
Proof.
  intros Hs. induction m as [|[k' v'] m IH]; simpl; [done|].
  destruct (cmp k k') eqn:E; simpl; rewrite ?E.
  - apply cmp_eq_iff in E as ->. eapply keys_above_get; [exact Hs|]. by rewrite cmp_refl.
  - apply IH. by eapply keys_above_sorted.
  - apply IH. by eapply keys_above_sorted.
Qed.

Lemma bt_get_remove_ne k k' m : k <> k' -> bt_get k (bt_remove k' m) = bt_get k m.
Proof.
  intros Hne. induction m as [|[k2 v2] m IH]; simpl; [done|].
  destruct (cmp k' k2) eqn:E2; simpl; rewrite ?IH; try done.
  apply cmp_eq_iff in E2 as ->.
  destruct (cmp k k2) eqn:E; try done. by apply cmp_eq_iff in E.
Qed.

Lemma bt_get_In k v m : bt_get k m = Some v -> In (k, v) m.
Proof.
  induction m as [|[k' v'] m IH]; simpl; [done|].
  destruct (cmp k k') eqn:E; auto. apply cmp_eq_iff in E as ->. intros [= ->]. by left.
Qed.

Lemma In_bt_get k v m : bt_sorted m = true -> In (k, v) m -> bt_get k m = Some v.
Proof.
  induction m as [|[k' v'] m IH]; intros Hs Hin; simpl in *; [done|].
  destruct Hin as [[= -> ->]|Hin]; [by rewrite cmp_refl|].
  assert (bt_sorted m = true) by (by eapply keys_above_sorted).
  destruct (cmp k k') eqn:E; auto.
  apply cmp_eq_iff in E as ->.
  assert (bt_get k' m = None) as Hn by
    (eapply keys_above_get; [exact Hs|]; by rewrite cmp_refl).
  rewrite IH in Hn; done.
Qed.

Lemma In_bt_insert k v k' v' m :
  In (k', v') (bt_insert k v m) -> (k', v') = (k, v) \/ In (k', v') m.
Proof.
  induction m as [|[k2 v2] m IH]; simpl; [naive_solver|].
  destruct (cmp k k2) eqn:E; simpl.
  - apply cmp_eq_iff in E as ->. naive_solver.
  - naive_solver.
  - naive_solver.
Qed.

Lemma In_bt_remove k k' v' m : In (k', v') (bt_remove k m) -> In (k', v') m.
Proof.
  induction m as [|[k2 v2] m IH]; simpl; [done|].
  destruct (cmp k k2); simpl; naive_solver.
Qed.

(** Sorted maps with the same lookups are the same list. *)
Lemma bt_ext m1 m2 :
  bt_sorted m1 = true -> bt_sorted m2 = true ->
  (forall k, bt_get k m1 = bt_get k m2) -> m1 = m2.
Proof.
  revert m2. induction m1 as [|[k1 v1] m1 IH]; intros [|[k2 v2] m2] H1 H2 Heq.
  - done.
  - specialize (Heq k2). simpl in Heq. by rewrite cmp_refl in Heq.
  - specialize (Heq k1). simpl in Heq. by rewrite cmp_refl in Heq.
  - assert (cmp k1 k2 = Eq) as E.
    { destruct (cmp k1 k2) eqn:E; [done| |].
      - specialize (Heq k1). simpl in Heq. rewrite cmp_refl, E in Heq.
        rewrite (keys_above_get k2 k1 m2) in Heq; [done|done|by rewrite E].
      - specialize (Heq k2). simpl in Heq. apply cmp_gt_lt in E.
        rewrite cmp_refl, E in Heq.
        rewrite (keys_above_get k1 k2 m1) in Heq; [done|done|by rewrite E]. }
    apply cmp_eq_iff in E as ->.
    assert (v1 = v2) as ->.
    { specialize (Heq k2). simpl in Heq. rewrite cmp_refl in Heq. by injection Heq. }
    f_equal. apply IH; [by eapply keys_above_sorted|by eapply keys_above_sorted|].
    intros k. specialize (Heq k). simpl in Heq.
    destruct (cmp k k2) eqn:E; try done. apply cmp_eq_iff in E as ->.
    rewrite (keys_above_get k2 k2 m1), (keys_above_get k2 k2 m2);
      rewrite ?cmp_refl; done.
Qed.

Lemma bt_insert_insert_eq k v v' m :
  bt_sorted m = true -> bt_insert k v (bt_insert k v' m) = bt_insert k v m.
Proof.
  intros Hs. apply bt_ext; auto using bt_insert_sorted.
  intros k'. destruct (cmp k' k) eqn:E.
  - apply cmp_eq_iff in E as ->. by rewrite !bt_get_insert_eq.
  - apply cmp_lt_neq in E. by rewrite !bt_get_insert_ne.
  - assert (k' <> k) by (intros ->; by rewrite cmp_refl in E).
    by rewrite !bt_get_insert_ne.
Qed.

Lemma bt_insert_same k v m : bt_sorted m = true -> bt_get k m = Some v -> bt_insert k v m = m.
Proof.
  intros Hs Hg. apply bt_ext; auto using bt_insert_sorted.
  intros k'. destruct (cmp k' k) eqn:E.
  - apply cmp_eq_iff in E as ->. by rewrite bt_get_insert_eq.
  - apply cmp_lt_neq in E. by rewrite bt_get_insert_ne.
  - assert (k' <> k) by (intros ->; by rewrite cmp_refl in E). by rewrite bt_get_insert_ne.
Qed.

Lemma bt_extend_sorted l m : bt_sorted m = true -> bt_sorted (bt_extend m l) = true.
Proof. revert m. induction l; intros m Hm; simpl; [done|]. by apply IHl, bt_insert_sorted. Qed.

Lemma In_bt_extend k v l m : In (k, v) (bt_extend m l) -> In (k, v) m \/ In (k, v) l.
Proof.
  revert m. induction l as [|[k' v'] l IH]; intros m; simpl; [tauto|].
  intros [[[= -> ->]|]%In_bt_insert|]%IH; auto.
Qed.

Lemma bt_get_extend k l m :
  bt_sorted l = true ->
  bt_get k (bt_extend m l) = match bt_get k l with Some v => Some v | None => bt_get k m end.
Proof.
  revert m. induction l as [|[k' v'] l IH]; intros m Hl; [done|]. rewrite bt_sorted_cons in Hl.
  simpl. rewrite IH by eauto using keys_above_sorted. destruct (cmp k k') eqn:E.
  - apply cmp_eq_iff in E as ->. rewrite (keys_above_get _ _ _ Hl), bt_get_insert_eq; [done|].
    by rewrite cmp_refl.
  - rewrite bt_get_insert_ne; [done|]. by apply cmp_lt_neq in E.
  - rewrite bt_get_insert_ne; [done|]. intros ->. by rewrite cmp_refl in E.
Qed.

(** Collecting the entries of a sorted map gives the map. *)
Lemma bt_of_list_sorted m : bt_sorted m = true -> bt_of_list m = m.
Proof.
  intros Hm. apply bt_ext; [by apply bt_extend_sorted|done|].
  intros k. unfold bt_of_list. rewrite bt_get_extend by done. by destruct (bt_get k m).
Qed.

End BTreeMap.

#[export] Hint Resolve bt_insert_sorted bt_remove_sorted keys_above_sorted : edb.

Section BTreeSet.
Context {K : Type} `{OrdLaws K}.
Implicit Types (k : K) (s : list K).

(** [BTreeSet::insert] and [BTreeSet::contains]. *)
Fixpoint set_insert k s : list K :=
  match s with
  | [] => [k]
  | k' :: s' =>
      match cmp k k' with
      | Lt => k :: s
      | Eq => s
      | Gt => k' :: set_insert k s'
      end
  end.

Fixpoint set_contains k s : bool :=
  match s with
  | [] => false
  | k' :: s' => match cmp k k' with Eq => true | _ => set_contains k s' end
  end.

(** [set.extend(iter)], and [iter.collect::<BTreeSet<_>>()]. *)
Definition set_extend s (l : list K) : list K :=
  fold_left (fun acc k => set_insert k acc) l s.
Definition set_of_list (l : list K) : list K := set_extend [] l.

(** [a.difference(&b).cloned().collect()]. *)
Definition set_difference s1 s2 : list K :=
  List.filter (fun k => negb (set_contains k s2)) s1.

(** [a.union(&b)] of sets, as [extend] computes it. *)
Definition set_union s1 s2 : list K := set_extend s1 s2.

Fixpoint set_above k s : bool :=
  match s with
  | [] => true
  | k' :: s' => match cmp k k' with Lt => set_above k' s' | _ => false end
  end.

Definition set_sorted s : bool :=
  match s with
  | [] => true
  | k :: s' => set_above k s'
  end.

Lemma set_contains_In k s : set_contains k s = true <-> In k s.
Proof.
  induction s as [|k' s IH]; simpl; [done|].
  destruct (cmp k k') eqn:E.
  - apply cmp_eq_iff in E as ->. naive_solver.
  - rewrite IH. apply cmp_lt_neq in E. naive_solver.
  - rewrite IH. assert (k <> k') by (intros ->; by rewrite cmp_refl in E). naive_solver.
Qed.

Lemma set_above_insert k k' s :
  set_above k s = true -> cmp k k' = Lt -> set_above k (set_insert k' s) = true.
Proof.
  revert k. induction s as [|k2 s IH]; intros k Hab Hlt; simpl in *; [by rewrite Hlt|].
  destruct (cmp k k2) eqn:E; try done.
  destruct (cmp k' k2) eqn:E2; simpl.
  - by rewrite E.
  - by rewrite Hlt, E2.
  - rewrite E. apply IH; [done|]. by apply cmp_gt_lt.
Qed.

Lemma set_insert_sorted k s : set_sorted s = true -> set_sorted (set_insert k s) = true.
Proof.
  destruct s as [|k' s]; simpl; [done|]. intros Hs.
  destruct (cmp k k') eqn:E; simpl; [done|by rewrite E|].
  apply set_above_insert; [done|]. by apply cmp_gt_lt.
Qed.

Lemma In_set_insert k k' s : In k' (set_insert k s) <-> k' = k \/ In k' s.
Proof.
  induction s as [|k2 s IH]; simpl; [naive_solver|].
  destruct (cmp k k2) eqn:E; simpl; [|naive_solver|rewrite IH; naive_solver].
  apply cmp_eq_iff in E as ->. naive_solver.
Qed.

Lemma set_extend_sorted l s : set_sorted s = true -> set_sorted (set_extend s l) = true.
Proof.
  revert s. induction l as [|k l IH]; intros s Hs; simpl; [done|].
  apply IH. by apply set_insert_sorted.
Qed.

Lemma In_set_extend k l s : In k (set_extend s l) <-> In k s \/ In k l.
Proof.
  revert s. induction l as [|k' l IH]; intros s; simpl; [naive_solver|].
  unfold set_extend in *. simpl. rewrite IH, In_set_insert. naive_solver.
Qed.

Lemma set_above_weaken k k' s :
  cmp k k' = Lt -> set_above k' s = true -> set_above k s = true.
Proof.
  destruct s as [|k2 s]; simpl; [done|]. intros E.
  destruct (cmp k' k2) eqn:E2; try done. by rewrite (cmp_lt_trans _ _ _ E E2).
Qed.

Lemma set_above_sorted k s : set_above k s = true -> set_sorted s = true.
Proof. destruct s as [|k' s]; simpl; [done|]. by destruct (cmp k k'). Qed.

Lemma set_above_filter k f s : set_above k s = true -> set_above k (List.filter f s) = true.
Proof.
  revert k. induction s as [|k2 s IH]; intros k Hab; simpl in *; [done|].
  destruct (cmp k k2) eqn:E; try done.
  destruct (f k2); simpl; [rewrite E; auto|].
  apply IH. by eapply set_above_weaken.
Qed.

Lemma set_difference_sorted s1 s2 :
  set_sorted s1 = true -> set_sorted (set_difference s1 s2) = true.
Proof.
  destruct s1 as [|k s1]; simpl; [done|]. intros Hs.
  unfold set_difference. simpl. destruct (negb _); simpl.
  - by apply set_above_filter.
  - eapply set_above_sorted. by apply set_above_filter.
Qed.

Lemma In_set_difference k s1 s2 :
  In k (set_difference s1 s2) <-> In k s1 /\ ~ In k s2.
Proof.
  unfold set_difference. rewrite filter_In, negb_true_iff.
  pose proof (set_contains_In k s2) as Hc.
  destruct (set_contains k s2); intuition congruence.
Qed.

Lemma set_above_not_In k k' s : set_above k s = true -> cmp k' k <> Gt -> ~ In k' s.
Proof.
  revert k. induction s as [|k2 s IH]; intros k Hab Hk Hin; simpl in *; [done|].
  destruct (cmp k k2) eqn:E; try done.
  assert (cmp k' k2 = Lt) as Hlt.
  { destruct (cmp k' k) eqn:E'; [apply cmp_eq_iff in E' as ->; done| |done].
    eapply cmp_lt_trans; eauto. }
  destruct Hin as [->|Hin]; [by rewrite cmp_refl in Hlt|].
  eapply (IH k2); eauto. by rewrite Hlt.
Qed.

Lemma set_sorted_NoDup s : set_sorted s = true -> NoDup s.
Proof.
  induction s as [|k s IH]; intros Hs; constructor.
  - rewrite list_elem_of_In. eapply set_above_not_In; [exact Hs|]. by rewrite cmp_refl.
  - apply IH. by eapply set_above_sorted.
Qed.

(** Sorted sets with the same members are the same list. *)
Lemma set_ext s1 s2 :
  set_sorted s1 = true -> set_sorted s2 = true ->
  (forall k, In k s1 <-> In k s2) -> s1 = s2.
Proof.
  revert s2. induction s1 as [|k1 s1 IH]; intros [|k2 s2] H1 H2 Heq.
  - done.
  - exfalso. apply (Heq k2). by left.
  - exfalso. apply (Heq k1). by left.
  - assert (cmp k1 k2 = Eq) as E.
    { destruct (cmp k1 k2) eqn:E; [done| |].
      - destruct (proj1 (Heq k1) (or_introl eq_refl)) as [->|Hin];
          [by rewrite cmp_refl in E|].
        exfalso. eapply (set_above_not_In k2 k1 s2); eauto. by rewrite E.
      - apply cmp_gt_lt in E.
        destruct (proj2 (Heq k2) (or_introl eq_refl)) as [->|Hin];
          [by rewrite cmp_refl in E|].
        exfalso. eapply (set_above_not_In k1 k2 s1); eauto. by rewrite E. }
    apply cmp_eq_iff in E as ->. f_equal.
    apply IH; [by eapply set_above_sorted|by eapply set_above_sorted|].
    assert (forall s, set_above k2 s = true -> ~ In k2 s) as Hni.
    { intros s Hs. eapply set_above_not_In; [exact Hs|]. by rewrite cmp_refl. }
    intros k. specialize (Heq k). simpl in Heq.
    pose proof (Hni _ H1). pose proof (Hni _ H2). naive_solver.
Qed.

(** Collecting the elements of a sorted set gives the set. *)
Lemma set_of_list_sorted s : set_sorted s = true -> set_of_list s = s.
Proof.
  intros Hs. apply set_ext; [by apply set_extend_sorted|done|].
  intros k. unfold set_of_list. rewrite In_set_extend. simpl. tauto.
Qed.

(** A collected set is as long as the list exactly when the list has no duplicate. *)
Lemma set_of_list_length l : length (set_of_list l) = length l <-> NoDup l.
Proof.
  assert (forall k, In k (set_of_list l) <-> In k l) as Hin
    by (intros k; unfold set_of_list; rewrite In_set_extend; simpl; tauto).
  assert (NoDup (set_of_list l)) as Hnd by (by apply set_sorted_NoDup, set_extend_sorted).
  rewrite NoDup_ListNoDup in *. split; intros Hl.
  - eapply NoDup_incl_NoDup; [exact Hnd|lia|]. intros k. apply Hin.
  - apply Permutation_length, Permutation.NoDup_Permutation; done.
Qed.

End BTreeSet.

#[export] Hint Resolve set_insert_sorted set_extend_sorted set_difference_sorted : edb.
