(* ===== verification/Types.v ===== *)
(** * The data model

    [crates/core/src/types]: attribute values, items and key schemas.  A number attribute keeps its text;
    map and set attributes are the sorted lists of [BTree].  [av_wf] is the
    representation invariant: every map and set, at any depth, is strictly
    sorted, which is what a Rust [BTreeMap] or [BTreeSet] guarantees. *)

From S2P Require Import Prelude BTree.

(** ** Attribute values *)

(** A [Vec<u8>]. *)
Definition bytes : Type := list ascii.

Unset Elimination Schemes.
Inductive AttributeValue : Type :=
  | AV_S (s : string)
  | AV_N (n : string)
  | AV_B (b : bytes)
  | AV_SS (s : list string)
  | AV_NS (s : list string)
  | AV_BS (s : list bytes)
  | AV_Bool (b : bool)
  | AV_Null
  | AV_L (l : list AttributeValue)
  | AV_M (m : list (string * AttributeValue)).
Set Elimination Schemes.

Section AttributeValue_ind.
Variable P : AttributeValue -> Prop.
Hypothesis HS : forall s, P (AV_S s).
Hypothesis HN : forall n, P (AV_N n).
Hypothesis HB : forall b, P (AV_B b).
Hypothesis HSS : forall s, P (AV_SS s).
Hypothesis HNS : forall s, P (AV_NS s).
Hypothesis HBS : forall s, P (AV_BS s).
Hypothesis HBool : forall b, P (AV_Bool b).
Hypothesis HNull : P AV_Null.
Hypothesis HL : forall l, Forall P l -> P (AV_L l).
Hypothesis HM : forall m, Forall (fun kv => P (snd kv)) m -> P (AV_M m).

Fixpoint AttributeValue_ind (v : AttributeValue) : P v :=
  match v with
  | AV_S s => HS s
  | AV_N n => HN n
  | AV_B b => HB b
  | AV_SS s => HSS s
  | AV_NS s => HNS s
  | AV_BS s => HBS s
  | AV_Bool b => HBool b
  | AV_Null => HNull
  | AV_L l =>
      HL l ((fix go l : Forall P l :=
               match l with
               | [] => Forall_nil_2 P
               | x :: l' => Forall_cons_2 P x l' (AttributeValue_ind x) (go l')
               end) l)
  | AV_M m =>
      HM m ((fix go m : Forall (fun kv => P (snd kv)) m :=
               match m with
               | [] => Forall_nil_2 _
               | kv :: m' => Forall_cons_2 _ kv m' (AttributeValue_ind (snd kv)) (go m')
               end) m)
  end.
End AttributeValue_ind.

(** An item: [BTreeMap<String, AttributeValue>]. *)
Definition Item : Type := list (string * AttributeValue).

(** The derived [PartialEq]: structural equality. *)
Fixpoint av_eqb (a b : AttributeValue) : bool :=
  match a, b with
  | AV_S s, AV_S t => String.eqb s t
  | AV_N s, AV_N t => String.eqb s t
  | AV_B s, AV_B t => bool_decide (s = t)
  | AV_SS s, AV_SS t => bool_decide (s = t)
  | AV_NS s, AV_NS t => bool_decide (s = t)
  | AV_BS s, AV_BS t => bool_decide (s = t)
  | AV_Bool x, AV_Bool y => Bool.eqb x y
  | AV_Null, AV_Null => true
  | AV_L l, AV_L k =>
      (fix go l k : bool :=
         match l, k with
         | [], [] => true
         | x :: l', y :: k' => av_eqb x y && go l' k'
         | _, _ => false
         end) l k
  | AV_M l, AV_M k =>
      (fix go l k : bool :=
         match l, k with
         | [], [] => true
         | (kx, x) :: l', (ky, y) :: k' => String.eqb kx ky && av_eqb x y && go l' k'
         | _, _ => false
         end) l k
  | _, _ => false
  end.

Lemma av_eqb_eq a b : av_eqb a b = true <-> a = b.
Proof.
  revert b. induction a as [s|s|s|s|s|s|x| |l IH|m IH] using AttributeValue_ind;
    intros []; simpl; try (split; [discriminate|intros [=]]); try done.
  - rewrite String.eqb_eq. naive_solver.
  - rewrite String.eqb_eq. naive_solver.
  - rewrite bool_decide_eq_true. naive_solver.
  - rewrite bool_decide_eq_true. naive_solver.
  - rewrite bool_decide_eq_true. naive_solver.
  - rewrite bool_decide_eq_true. naive_solver.
  - rewrite Bool.eqb_true_iff. naive_solver.
  - rename l0 into k. revert k. induction IH as [|x l Hx _ IHl]; intros [|y k]; try done.
    rewrite andb_true_iff, Hx, IHl. naive_solver.
  - rename m0 into k. revert k.
    induction IH as [|[kx x] m Hx _ IHm]; intros [|[ky y] k]; try done.
    simpl in Hx. rewrite !andb_true_iff, Hx, IHm, String.eqb_eq. naive_solver.
Qed.

#[export] Instance AttributeValue_eq_dec : EqDecision AttributeValue.
Proof.
  intros a b. destruct (av_eqb a b) eqn:E.
  - left. by apply av_eqb_eq.
  - right. intros ->. assert (av_eqb b b = true) by (by apply av_eqb_eq). congruence.
Defined.

(** ** The representation invariant *)

Fixpoint av_wf (v : AttributeValue) : bool :=
  match v with
  | AV_SS s | AV_NS s => set_sorted s
  | AV_BS s => set_sorted s
  | AV_L l => forallb av_wf l
  | AV_M m => bt_sorted m && forallb (fun kv => av_wf (snd kv)) m
  | _ => true
  end.

Definition item_wf (i : Item) : bool :=
  bt_sorted i && forallb (fun kv => av_wf (snd kv)) i.

Lemma item_wf_get (i : Item) k v : item_wf i = true -> bt_get k i = Some v -> av_wf v = true.
Proof.
  unfold item_wf. rewrite andb_true_iff, forallb_forall. intros [_ Hv] Hg.
  apply bt_get_In in Hg. by apply (Hv (k, v)).
Qed.

Lemma item_wf_insert (i : Item) k v :
  item_wf i = true -> av_wf v = true -> item_wf (bt_insert k v i) = true.
Proof.
  unfold item_wf. rewrite !andb_true_iff, !forallb_forall. intros [Hs Hi] Hv. split.
  - by apply bt_insert_sorted.
  - intros [k' v'] [[= -> ->]|Hin]%In_bt_insert; [done|]. by apply (Hi (k', v')).
Qed.

Lemma item_wf_remove (i : Item) k : item_wf i = true -> item_wf (bt_remove k i) = true.
Proof.
  unfold item_wf. rewrite !andb_true_iff, !forallb_forall. intros [Hs Hi]. split.
  - by apply bt_remove_sorted.
  - intros [k' v'] Hin%In_bt_remove. by apply (Hi (k', v')).
Qed.

#[export] Hint Resolve item_wf_get item_wf_insert item_wf_remove : edb.

Lemma av_wf_M m : av_wf (AV_M m) = item_wf m.
Proof. done. Qed.

(** ** Key schemas *)

Inductive KeyType : Type := Hash | Range.
Inductive ScalarAttributeType : Type := Scalar_S | Scalar_N | Scalar_B.

#[export] Instance KeyType_eq_dec : EqDecision KeyType.
Proof. solve_decision. Defined.
#[export] Instance ScalarAttributeType_eq_dec : EqDecision ScalarAttributeType.
Proof. solve_decision. Defined.

Record KeySchemaElement : Type := {
  ks_attribute_name : string;
  ks_key_type : KeyType
}.

Record AttributeDefinition : Type := {
  ad_attribute_name : string;
  ad_attribute_type : ScalarAttributeType
}.

Definition hash_key_elements (key_schema : list KeySchemaElement) : list KeySchemaElement :=
  List.filter (fun ks => bool_decide (ks_key_type ks = Hash)) key_schema.

Definition range_key_elements (key_schema : list KeySchemaElement) : list KeySchemaElement :=
  List.filter (fun ks => bool_decide (ks_key_type ks = Range)) key_schema.

Definition is_multipart_key_schema (key_schema : list KeySchemaElement) : bool :=
  let hash_count := length (hash_key_elements key_schema) in
  let range_count := length (range_key_elements key_schema) in
  (1 <? hash_count) || (1 <? range_count).
