(* ===== verification/Error.v ===== *)
(** * Errors

    [crates/core/src/error]: the error type that every operation returns, with
    its HTTP status and wire names, and the outcome type of the modelled
    functions. *)

From S2P Require Import Prelude BTree Types.

(** ** The error type *)

Record CancellationReason : Type := {
  cr_code : string;
  cr_message : option string;
  cr_item : option Item
}.

Inductive DynamoDbError : Type :=
  | ValidationException (m : string)
  | ResourceNotFoundException (m : string)
  | BackupNotFoundException (m : string)
  | BackupInUseException (m : string)
  | ResourceInUseException (m : string)
  | TableAlreadyExistsException (m : string)
  | TableInUseException (m : string)
  | TableNotFoundException (m : string)
  | LimitExceededException (m : string)
  | ConditionalCheckFailedException (m : string) (item : option Item)
  | TransactionCanceledException (message : string) (reasons : list CancellationReason)
  | IdempotentParameterMismatchException (m : string)
  | SerializationException (m : string)
  | UnknownOperationException (m : string)
  | InternalServerError (m : string)
  | AccessDeniedException (m : string)
  | MissingAuthenticationToken (m : string)
  | IncompleteSignature (m : string)
  | UnrecognizedClientException (m : string)
  | ExpiredTokenException (m : string)
  | ExpiredIteratorException (m : string)
  | ContinuousBackupsUnavailableException (m : string)
  | PointInTimeRecoveryUnavailableException (m : string)
  | ServiceUnavailable (m : string)
  | TransactionConflictException (m : string)
  | ProvisionedThroughputExceededException (m : string)
  | ThrottlingException (m : string)
  | RequestLimitExceeded (m : string)
  | RequestEntityTooLargeException (m : string)
  | MalformedHttpRequestException (m : string)
  | TransactionInProgressException (m : string)
  | ItemCollectionSizeLimitExceededException (m : string)
  | RequestTimeoutException (m : string)
  | InvalidSignatureException (m : string).

Definition status_code (e : DynamoDbError) : N :=
  match e with
  | ValidationException _ | ResourceNotFoundException _
  | BackupNotFoundException _ | BackupInUseException _
  | ResourceInUseException _ | TableAlreadyExistsException _
  | TableInUseException _ | TableNotFoundException _
  | LimitExceededException _ | ConditionalCheckFailedException _ _
  | TransactionCanceledException _ _ | IdempotentParameterMismatchException _
  | SerializationException _ | UnknownOperationException _
  | AccessDeniedException _ | MissingAuthenticationToken _
  | IncompleteSignature _ | UnrecognizedClientException _
  | ExpiredTokenException _ | ExpiredIteratorException _
  | ContinuousBackupsUnavailableException _
  | PointInTimeRecoveryUnavailableException _
  | TransactionConflictException _ | ProvisionedThroughputExceededException _
  | ThrottlingException _ | RequestLimitExceeded _
  | MalformedHttpRequestException _ | TransactionInProgressException _
  | ItemCollectionSizeLimitExceededException _ | InvalidSignatureException _ => 400
  | RequestTimeoutException _ => 408
  | RequestEntityTooLargeException _ => 413
  | InternalServerError _ => 500
  | ServiceUnavailable _ => 503
  end.

Definition error_type (e : DynamoDbError) : string :=
  match e with
  | ValidationException _ => "ValidationException"
  | ResourceNotFoundException _ => "ResourceNotFoundException"
  | BackupNotFoundException _ => "BackupNotFoundException"
  | BackupInUseException _ => "BackupInUseException"
  | ResourceInUseException _ => "ResourceInUseException"
  | TableAlreadyExistsException _ => "TableAlreadyExistsException"
  | TableInUseException _ => "TableInUseException"
  | TableNotFoundException _ => "TableNotFoundException"
  | LimitExceededException _ => "LimitExceededException"
  | ConditionalCheckFailedException _ _ => "ConditionalCheckFailedException"
  | TransactionCanceledException _ _ => "TransactionCanceledException"
  | IdempotentParameterMismatchException _ => "IdempotentParameterMismatchException"
  | SerializationException _ => "SerializationException"
  | UnknownOperationException _ => "UnknownOperationException"
  | InternalServerError _ => "InternalServerError"
  | AccessDeniedException _ => "AccessDeniedException"
  | MissingAuthenticationToken _ => "MissingAuthenticationToken"
  | IncompleteSignature _ => "IncompleteSignature"
  | UnrecognizedClientException _ => "UnrecognizedClientException"
  | ExpiredTokenException _ => "ExpiredTokenException"
  | ExpiredIteratorException _ => "ExpiredIteratorException"
  | ContinuousBackupsUnavailableException _ => "ContinuousBackupsUnavailableException"
  | PointInTimeRecoveryUnavailableException _ => "PointInTimeRecoveryUnavailableException"
  | ServiceUnavailable _ => "ServiceUnavailable"
  | TransactionConflictException _ => "TransactionConflictException"
  | ProvisionedThroughputExceededException _ => "ProvisionedThroughputExceededException"
  | ThrottlingException _ => "ThrottlingException"
  | RequestLimitExceeded _ => "RequestLimitExceeded"
  | RequestEntityTooLargeException _ => "RequestEntityTooLargeException"
  | MalformedHttpRequestException _ => "MalformedHttpRequestException"
  | TransactionInProgressException _ => "TransactionInProgressException"
  | ItemCollectionSizeLimitExceededException _ => "ItemCollectionSizeLimitExceededException"
  | RequestTimeoutException _ => "RequestTimeoutException"
  | InvalidSignatureException _ => "InvalidSignatureException"
  end.

Definition full_error_type (e : DynamoDbError) : string :=
  let prefix :=
    match e with
    | ValidationException _ => "com.amazon.coral.validate#"
    | SerializationException _
    | UnknownOperationException _
    | MissingAuthenticationToken _
    | IncompleteSignature _
    | InvalidSignatureException _ => "com.amazon.coral.service#"
    | _ => "com.amazonaws.dynamodb.v20120810#"
    end in
  prefix +:+ error_type e.

Definition cancellation_reasons (e : DynamoDbError) : option (list CancellationReason) :=
  match e with
  | TransactionCanceledException _ reasons => Some reasons
  | _ => None
  end.

Definition condition_check_item (e : DynamoDbError) : option Item :=
  match e with
  | ConditionalCheckFailedException _ item => item
  | _ => None
  end.

(** [DynamoDbError::message]: the inner string. *)
Definition error_message (e : DynamoDbError) : string :=
  match e with
  | ConditionalCheckFailedException m _ => m
  | TransactionCanceledException message _ => message
  | ValidationException m | ResourceNotFoundException m | BackupNotFoundException m
  | BackupInUseException m | ResourceInUseException m | TableAlreadyExistsException m
  | TableInUseException m | TableNotFoundException m | LimitExceededException m
  | IdempotentParameterMismatchException m | SerializationException m
  | UnknownOperationException m | InternalServerError m | AccessDeniedException m
  | MissingAuthenticationToken m | IncompleteSignature m | UnrecognizedClientException m
  | ExpiredTokenException m | ExpiredIteratorException m
  | ContinuousBackupsUnavailableException m | PointInTimeRecoveryUnavailableException m
  | ServiceUnavailable m | TransactionConflictException m
  | ProvisionedThroughputExceededException m | ThrottlingException m
  | RequestLimitExceeded m | RequestEntityTooLargeException m
  | MalformedHttpRequestException m | TransactionInProgressException m
  | ItemCollectionSizeLimitExceededException m | RequestTimeoutException m
  | InvalidSignatureException m => m
  end.

(** ** Outcomes of a modelled function

    A Rust function that returns [Result<A, DynamoDbError>] returns, panics, or
    (in the model only) runs out of the fuel that bounds a loop.  Theorems
    about the functions rule the last two out. *)

Inductive fault : Type :=
  | Fail (e : DynamoDbError)
  | Panic
  | OutOfFuel.

Definition res (A : Type) : Type := result fault A.

(** [Err(DynamoDbError::ValidationException(msg))]. *)
Definition fail {A : Type} (msg : string) : res A := Err (Fail (ValidationException msg)).

(** A computation that neither panics nor runs out of fuel. *)
Definition returns {A : Type} (r : res A) : Prop :=
  match r with
  | Ok _ | Err (Fail _) => True
  | Err Panic | Err OutOfFuel => False
  end.

Lemma returns_fail {A : Type} (m : string) : returns (@fail A m).
Proof. done. Qed.

Lemma returns_bind {A B : Type} (r : res A) (f : A -> res B) :
  returns r -> (forall a, r = Ok a -> returns (f a)) ->
  returns (let? a := r in f a).
Proof. destruct r as [a|e]; simpl; auto. Qed.

#[export] Hint Resolve returns_fail : edb.
