(* ===== verification/Decimal.v ===== *)
(** * Decimal values

    The mathematical side of number attributes: a decimal value is a mantissa
    and a power of ten, compared by the number it denotes; a numeral is the
    text of one.  [BigDecimal] is the interface of the [bigdecimal] crate that
    the evaluators call, with the documented behaviour they rely on as its
    laws, and [dec] itself as an instance. *)

From S2P Require Import Prelude.

Local Open Scope Z_scope.

(** ** Values *)

(** [(m, e)] denotes [m * 10 ^ e]. *)
Definition dec : Type := Z * Z.

(** The mantissa of the value at exponent [e], for [e] at most its own. *)
Definition dec_at (e : Z) (d : dec) : Z := d.1 * 10 ^ (d.2 - e).

Definition dec_cmp (a b : dec) : comparison :=
  let e := Z.min a.2 b.2 in
  Z.compare (dec_at e a) (dec_at e b).

Definition dec_eq (a b : dec) : Prop := dec_cmp a b = Eq.

Definition dec_add (a b : dec) : dec :=
  let e := Z.min a.2 b.2 in (dec_at e a + dec_at e b, e).
Definition dec_sub (a b : dec) : dec :=
  let e := Z.min a.2 b.2 in (dec_at e a - dec_at e b, e).

Lemma dec_at_shift e e' d : e' <= e -> e <= d.2 -> dec_at e' d = dec_at e d * 10 ^ (e - e').
Proof.
  intros H1 H2. unfold dec_at. rewrite <- Z.mul_assoc, <- Z.pow_add_r by lia.
  do 2 f_equal. lia.
Qed.

Lemma dec_cmp_at e a b :
  e <= a.2 -> e <= b.2 -> dec_cmp a b = Z.compare (dec_at e a) (dec_at e b).
Proof.
  intros Ha Hb. unfold dec_cmp. set (m := Z.min a.2 b.2).
  rewrite (dec_at_shift m e a), (dec_at_shift m e b) by lia.
  assert (0 < 10 ^ (m - e)) by (apply Z.pow_pos_nonneg; lia).
  apply Zmult_compare_compat_r. lia.
Qed.

Lemma dec_eq_at e a b : e <= a.2 -> e <= b.2 -> dec_eq a b <-> dec_at e a = dec_at e b.
Proof. intros. unfold dec_eq. by rewrite (dec_cmp_at e), Z.compare_eq_iff. Qed.

#[export] Instance dec_eq_equiv : Equivalence dec_eq.
Proof.
  split.
  - intros a. by apply (dec_eq_at (a.2)).
  - intros a b. rewrite !(dec_eq_at (Z.min a.2 b.2)) by lia. done.
  - intros a b c. set (e := Z.min (a.2) (Z.min b.2 c.2)).
    rewrite !(dec_eq_at e) by lia. congruence.
Qed.

#[export] Instance dec_cmp_proper : Proper (dec_eq ==> dec_eq ==> eq) dec_cmp.
Proof.
  intros a a' Ha b b' Hb.
  set (e := Z.min (Z.min a.2 a'.2) (Z.min b.2 b'.2)).
  rewrite (dec_eq_at e) in Ha, Hb by lia. rewrite !(dec_cmp_at e) by lia. congruence.
Qed.

Lemma dec_cmp_antisym a b : dec_cmp b a = CompOpp (dec_cmp a b).
Proof.
  rewrite !(dec_cmp_at (Z.min a.2 b.2)) by lia. apply Z.compare_antisym.
Qed.

Lemma dec_cmp_lt_trans a b c : dec_cmp a b = Lt -> dec_cmp b c = Lt -> dec_cmp a c = Lt.
Proof.
  set (e := Z.min (a.2) (Z.min b.2 c.2)).
  rewrite !(dec_cmp_at e) by lia. rewrite !Z.compare_lt_iff. lia.
Qed.

Lemma dec_at_add e a b :
  e <= a.2 -> e <= b.2 -> dec_at e (dec_add a b) = dec_at e a + dec_at e b.
Proof.
  intros Ha Hb. unfold dec_add. set (m := Z.min a.2 b.2).
  rewrite (dec_at_shift m e a), (dec_at_shift m e b) by lia.
  unfold dec_at at 1. simpl. lia.
Qed.

Lemma dec_at_sub e a b :
  e <= a.2 -> e <= b.2 -> dec_at e (dec_sub a b) = dec_at e a - dec_at e b.
Proof.
  intros Ha Hb. unfold dec_sub. set (m := Z.min a.2 b.2).
  rewrite (dec_at_shift m e a), (dec_at_shift m e b) by lia.
  unfold dec_at at 1. simpl. lia.
Qed.

#[export] Instance dec_add_proper : Proper (dec_eq ==> dec_eq ==> dec_eq) dec_add.
Proof.
  intros a a' Ha b b' Hb.
  set (e := Z.min (Z.min a.2 a'.2) (Z.min b.2 b'.2)).
  rewrite (dec_eq_at e) in Ha, Hb by lia.
  rewrite (dec_eq_at e) by (simpl; lia). rewrite !dec_at_add by lia. congruence.
Qed.

#[export] Instance dec_sub_proper : Proper (dec_eq ==> dec_eq ==> dec_eq) dec_sub.
Proof.
  intros a a' Ha b b' Hb.
  set (e := Z.min (Z.min a.2 a'.2) (Z.min b.2 b'.2)).
  rewrite (dec_eq_at e) in Ha, Hb by lia.
  rewrite (dec_eq_at e) by (simpl; lia). rewrite !dec_at_sub by lia. congruence.
Qed.

Lemma dec_add_comm a b : dec_eq (dec_add a b) (dec_add b a).
Proof.
  rewrite (dec_eq_at (Z.min a.2 b.2)) by (simpl; lia). rewrite !dec_at_add by lia. lia.
Qed.

Lemma dec_add_sub a b : dec_eq (dec_sub (dec_add a b) b) a.
Proof.
  rewrite (dec_eq_at (Z.min a.2 b.2)) by (simpl; lia).
  rewrite dec_at_sub, dec_at_add by (simpl; lia). lia.
Qed.

(** ** Numerals *)

Definition is_exp_char (c : ascii) : bool := Ascii.eqb c "e" || Ascii.eqb c "E".
Definition is_point (c : ascii) : bool := Ascii.eqb c ".".

(** [l] is an optional sign, digits with at most one point and at least one
    digit, and an optional exponent that fits [i32]. *)
Definition numeral (l : list ascii) (neg : bool) (int frac : list ascii) (e : Z) : Prop :=
  exists sign mant ex,
    l = sign ++ mant ++ ex /\
    ((sign = ["-"%char] /\ neg = true) \/ (sign = [] /\ neg = false) \/
     (sign = ["+"%char] /\ neg = false)) /\
    ((mant = int /\ frac = []) \/ mant = int ++ "."%char :: frac) /\
    forallb is_digit int = true /\ forallb is_digit frac = true /\ int ++ frac <> [] /\
    ((ex = [] /\ e = 0) \/
     (exists c t, ex = c :: t /\ is_exp_char c = true /\ parse_i32 t = Some e)).

Definition signed (neg : bool) (n : N) : Z := if neg then - Z.of_N n else Z.of_N n.

Definition numeral_value (neg : bool) (int frac : list ascii) (e : Z) : dec :=
  (signed neg (digits_val (int ++ frac)), e - Z.of_nat (length frac)).

(** [s] is the text of a numeral with value [d]. *)
Definition denotes (s : string) (d : dec) : Prop :=
  exists neg int frac e, numeral (as_bytes s) neg int frac e /\
    d = numeral_value neg int frac e.

(** The reader of numerals. *)
Definition read_sign (l : list ascii) : bool * list ascii :=
  match l with
  | c :: r => if Ascii.eqb c "-" then (true, r)
              else if Ascii.eqb c "+" then (false, r) else (false, l)
  | [] => (false, l)
  end.

Definition read_exp (l : list ascii) : option (list ascii * Z) :=
  match split_once is_exp_char l with
  | Some (m, e) => match parse_i32 e with Some z => Some (m, z) | None => None end
  | None => Some (l, 0)
  end.

Definition read_mantissa (m : list ascii) : option (list ascii * list ascii) :=
  let '(i, f) := match split_once is_point m with
                 | Some (i, f) => (i, f)
                 | None => (m, [])
                 end in
  if forallb is_digit i && forallb is_digit f && negb (bool_decide (i ++ f = []))
  then Some (i, f) else None.

Definition read_numeral (l : list ascii) : option (bool * list ascii * list ascii * Z) :=
  let '(neg, rest) := read_sign l in
  match read_exp rest with
  | Some (m, e) =>
      match read_mantissa m with
      | Some (i, f) => Some (neg, i, f, e)
      | None => None
      end
  | None => None
  end.

Lemma digit_not_exp c : is_digit c = true -> negb (is_exp_char c) = true.
Proof.
  rewrite is_digit_bound. intros Hb. apply negb_true_iff.
  unfold is_exp_char. apply orb_false_iff. rewrite !Ascii.eqb_neq.
  split; intros ->; vm_compute in Hb; destruct Hb as [Hb1 Hb2]; by apply Hb2.
Qed.

Lemma digit_not_point c : is_digit c = true -> negb (is_point c) = true.
Proof.
  rewrite is_digit_bound. intros Hb. apply negb_true_iff.
  unfold is_point. rewrite Ascii.eqb_neq.
  intros ->; vm_compute in Hb; destruct Hb as [Hb1 Hb2]; by apply Hb1.
Qed.

Lemma digit_not_sign c :
  is_digit c = true \/ c = "."%char -> Ascii.eqb c "-" = false /\ Ascii.eqb c "+" = false.
Proof.
  rewrite is_digit_bound, !Ascii.eqb_neq. intros [Hb | ->]; [|done].
  split; intros ->; vm_compute in Hb; destruct Hb as [Hb1 Hb2]; by apply Hb1.
Qed.

Lemma read_mantissa_Some m i f :
  read_mantissa m = Some (i, f) <->
  ((m = i /\ f = []) \/ m = i ++ "."%char :: f) /\
  forallb is_digit i = true /\ forallb is_digit f = true /\ i ++ f <> [].
Proof.
  unfold read_mantissa. destruct (split_once is_point m) as [[i' f']|] eqn:E.
  - apply split_once_Some in E as (x & -> & Hx & Hi'). apply Ascii.eqb_eq in Hx as ->.
    split.
    + destruct (_ && _) eqn:Ec; [|done]. intros [= -> ->]. bool_split.
      apply negb_true_iff, bool_decide_eq_false in Ec1. auto.
    + intros ([[Hm ->]|Hm] & Hi & Hf & Hne).
      * exfalso. rewrite <- Hm, forallb_app in Hi. bool_split. simpl in Hi1. done.
      * assert (split_once is_point (i ++ "."%char :: f) = Some (i, f)) as E1.
        { apply split_once_Some. exists "."%char. split; [done|]. split; [done|].
          eapply forallb_impl, Hi. apply digit_not_point. }
        assert (split_once is_point (i' ++ "."%char :: f') = Some (i', f')) as E2.
        { apply split_once_Some. by exists "."%char. }
        rewrite Hm, E1 in E2. injection E2 as -> ->.
        rewrite Hi, Hf. rewrite bool_decide_eq_false_2 by done. done.
  - rewrite split_once_None in E. split.
    + destruct (_ && _) eqn:Ec; [|done]. intros [= -> <-]. bool_split.
      apply negb_true_iff, bool_decide_eq_false in Ec1. auto.
    + intros ([[-> ->]|Hm] & Hi & Hf & Hne).
      * rewrite Hi. rewrite bool_decide_eq_false_2 by done. done.
      * exfalso. subst m. rewrite forallb_app in E. bool_split. done.
Qed.

Lemma mantissa_chars m i f :
  read_mantissa m = Some (i, f) ->
  forallb (fun c => is_digit c || is_point c) m = true /\ m <> [].
Proof.
  intros ([[-> ->]| ->] & Hi & Hf & Hne)%read_mantissa_Some.
  - split; [|by rewrite app_nil_r in Hne]. eapply forallb_impl, Hi. by intros x ->.
  - split; [|by destruct i]. rewrite forallb_app. simpl.
    apply andb_true_iff; split; (eapply forallb_impl; [|eassumption]); by intros x ->.
Qed.

Lemma mantissa_no_exp m i f :
  read_mantissa m = Some (i, f) -> forallb (fun c => negb (is_exp_char c)) m = true.
Proof.
  intros [Hm _]%mantissa_chars. eapply forallb_impl, Hm.
  intros x [Hd| ->%Ascii.eqb_eq]%orb_true_iff; [by apply digit_not_exp|done].
Qed.

Lemma mantissa_no_sign m i f ex :
  read_mantissa m = Some (i, f) -> read_sign (m ++ ex) = (false, m ++ ex).
Proof.
  intros [Hm Hne]%mantissa_chars. destruct m as [|c m]; [done|]. simpl in *.
  destruct (digit_not_sign c) as [-> ->]; [|done].
  apply andb_true_iff in Hm as [[Hd|Hp]%orb_true_iff _]; [by left|].
  right. by apply Ascii.eqb_eq.
Qed.

Lemma read_numeral_iff l neg i f e :
  read_numeral l = Some (neg, i, f, e) <-> numeral l neg i f e.
Proof.
  split.
  - unfold read_numeral. destruct (read_sign l) as [neg' rest] eqn:Es.
    destruct (read_exp rest) as [[m e']|] eqn:Ee; [|done].
    destruct (read_mantissa m) as [[i' f']|] eqn:Em; [|done].
    intros [= -> -> -> ->]. apply read_mantissa_Some in Em.
    assert (exists sign, l = sign ++ rest /\
      ((sign = ["-"%char] /\ neg = true) \/ (sign = [] /\ neg = false) \/
       (sign = ["+"%char] /\ neg = false))) as (sign & -> & Hs).
    { destruct l as [|c l]; simpl in Es; [by injection Es as <- <-; exists []; auto|].
      destruct (Ascii.eqb c "-") eqn:E1.
      { apply Ascii.eqb_eq in E1 as ->. injection Es as <- <-. eexists [_]. eauto. }
      destruct (Ascii.eqb c "+") eqn:E2; injection Es as <- <-.
      { apply Ascii.eqb_eq in E2 as ->. eexists [_]. eauto. }
      exists []. auto. }
    unfold read_exp in Ee. destruct (split_once is_exp_char rest) as [[m' t]|] eqn:Ex.
    + apply split_once_Some in Ex as (c & -> & Hc & _).
      destruct (parse_i32 t) eqn:Ep; [|done]. injection Ee as -> ->.
      exists sign, m, (c :: t). naive_solver.
    + injection Ee as -> <-. exists sign, m, []. rewrite app_nil_r. naive_solver.
  - intros (sign & m & ex & -> & Hs & Hm & Hi & Hf & Hne & Hex).
    assert (read_mantissa m = Some (i, f)) as Em by (by apply read_mantissa_Some).
    assert (read_sign (sign ++ m ++ ex) = (neg, m ++ ex)) as Es.
    { destruct Hs as [[-> ->]|[[-> ->]|[-> ->]]]; try done. simpl.
      by eapply mantissa_no_sign. }
    assert (read_exp (m ++ ex) = Some (m, e)) as Ee.
    { unfold read_exp. destruct Hex as [[-> ->]|(c & t & -> & Hc & Hp)].
      - rewrite app_nil_r. apply mantissa_no_exp in Em.
        apply split_once_None in Em. by rewrite Em.
      - assert (split_once is_exp_char (m ++ c :: t) = Some (m, t)) as ->.
        { apply split_once_Some. exists c. eauto using mantissa_no_exp. }
        by rewrite Hp. }
    unfold read_numeral. by rewrite Es, Ee, Em.
Qed.

(** A text has one reading. *)
Lemma numeral_unique l neg i f e neg' i' f' e' :
  numeral l neg i f e -> numeral l neg' i' f' e' -> (neg, i, f, e) = (neg', i', f', e').
Proof. rewrite <- !read_numeral_iff. congruence. Qed.

Definition read_dec (s : string) : option dec :=
  match read_numeral (as_bytes s) with
  | Some (neg, i, f, e) => Some (numeral_value neg i f e)
  | None => None
  end.

Lemma read_dec_iff s d : read_dec s = Some d <-> denotes s d.
Proof.
  unfold read_dec, denotes. destruct (read_numeral _) as [[[[neg i] f] e]|] eqn:E; split.
  - intros [= <-]. apply read_numeral_iff in E. eauto 10.
  - intros (neg' & i' & f' & e' & Hn & ->). apply read_numeral_iff in Hn. congruence.
  - done.
  - intros (neg' & i' & f' & e' & Hn & ->). apply read_numeral_iff in Hn. congruence.
Qed.

Lemma denotes_unique s d d' : denotes s d -> denotes s d' -> d = d'.
Proof. rewrite <- !read_dec_iff. congruence. Qed.

(** ** The [bigdecimal] crate *)

(** What the evaluators call: [str::parse], [cmp], [+], [-] and [to_string]. *)
Class BigDecimal (D : Type) : Type := {
  bd_parse : string -> option D;
  bd_cmp : D -> D -> comparison;
  bd_add : D -> D -> D;
  bd_sub : D -> D -> D;
  bd_to_string : D -> string
}.

(** The documented behaviour: a [BigDecimal] is an exact decimal value. *)
Class BigDecimalLaws (D : Type) `{BigDecimal D} : Type := {
  bd_value : D -> dec;
  bd_parse_value : forall s d, denotes s d ->
    exists x, bd_parse s = Some x /\ dec_eq (bd_value x) d;
  bd_cmp_value : forall x y, bd_cmp x y = dec_cmp (bd_value x) (bd_value y);
  bd_add_value : forall x y, dec_eq (bd_value (bd_add x y)) (dec_add (bd_value x) (bd_value y));
  bd_sub_value : forall x y, dec_eq (bd_value (bd_sub x y)) (dec_sub (bd_value x) (bd_value y));
  bd_to_string_value : forall x d, denotes (bd_to_string x) d -> dec_eq d (bd_value x)
}.

(** The instance of exact values: print the mantissa and the exponent. *)
Definition sign_bytes (z : Z) : list ascii := if (z <? 0)%Z then ["-"%char] else [].

Definition dec_to_string (d : dec) : string :=
  of_bytes (sign_bytes d.1 ++ N_to_bytes (Z.to_N (Z.abs d.1)) ++ "e"%char ::
            sign_bytes d.2 ++ N_to_bytes (Z.to_N (Z.abs d.2))).

#[export] Instance dec_bigdecimal : BigDecimal dec := {
  bd_parse := read_dec;
  bd_cmp := dec_cmp;
  bd_add := dec_add;
  bd_sub := dec_sub;
  bd_to_string := dec_to_string
}.

Lemma parse_i32_sign_bytes z t :
  parse_i32 (sign_bytes z ++ N_to_bytes (Z.to_N (Z.abs z))) = Some t -> t = z.
Proof.
  unfold parse_i32, sign_bytes. destruct (N_to_bytes_spec (Z.to_N (Z.abs z))) as (Hd & Hv & Hne).
  set (ds := N_to_bytes _) in *. destruct (Z.ltb_spec z 0).
  - simpl. rewrite bool_decide_eq_false_2, Hd by done.
    destruct (_ && _); [|done]. intros [= <-]. rewrite Hv. lia.
  - simpl. destruct ds as [|c l] eqn:Eds; [done|].
    assert (Ascii.eqb c "+" = false /\ Ascii.eqb c "-" = false) as [-> ->].
    { simpl in Hd. apply andb_true_iff in Hd as [Hc _].
      split; apply Ascii.eqb_neq; intros ->; done. }
    rewrite bool_decide_eq_false_2, Hd by done.
    destruct (_ && _); [|done]. intros [= <-]. rewrite Hv. lia.
Qed.

Lemma dec_to_string_denotes d d' : denotes (dec_to_string d) d' -> d' = d.
Proof.
  intros Hden. apply read_dec_iff in Hden. unfold read_dec, dec_to_string in Hden.
  rewrite as_bytes_of_bytes in Hden.
  set (M := N_to_bytes (Z.to_N (Z.abs d.1))) in *.
  set (X := sign_bytes d.2 ++ N_to_bytes (Z.to_N (Z.abs d.2))) in *.
  destruct (N_to_bytes_spec (Z.to_N (Z.abs d.1))) as (Hd & Hv & Hne). fold M in Hd, Hv, Hne.
  assert (read_mantissa M = Some (M, [])) as HM.
  { apply read_mantissa_Some. rewrite app_nil_r. auto. }
  assert (read_sign (sign_bytes d.1 ++ M ++ "e"%char :: X) = (d.1 <? 0, M ++ "e"%char :: X)) as Hs.
  { unfold sign_bytes. destruct (d.1 <? 0); [done|]. exact (mantissa_no_sign _ _ _ _ HM). }
  assert (split_once is_exp_char (M ++ "e"%char :: X) = Some (M, X)) as Hx.
  { apply split_once_Some. exists "e"%char. eauto using mantissa_no_exp. }
  unfold read_numeral, read_exp in Hden. rewrite Hs, Hx in Hden.
  destruct (parse_i32 X) as [z|] eqn:Ez; [|done]. apply parse_i32_sign_bytes in Ez as ->.
  rewrite HM in Hden. injection Hden as <-. unfold numeral_value, signed.
  rewrite app_nil_r, Hv. destruct d as [m e]. simpl.
  destruct (Z.ltb_spec m 0); f_equal; lia.
Qed.

#[export] Instance dec_bigdecimal_laws : BigDecimalLaws dec.
Proof.
  refine {| bd_value := fun d => d |}.
  - intros s d Hd. exists d. split; [by apply read_dec_iff|done].
  - done.
  - done.
  - done.
  - intros x d ->%dec_to_string_denotes. done.
Defined.
