(* ===== verification/Number.v ===== *)
(** * Number strings

    [crates/core/src/validation/number.rs]: the validation and normalisation of
    a number attribute.  The theorems relate it to decimal numerals: which
    texts are accepted, that the value is preserved, that the result is a
    normal form, and which error the other texts get. *)

From S2P Require Import Prelude BTree Types Error Decimal.

(** ** The code *)

Definition MAX_SIGNIFICANT_DIGITS : nat := 38.
Definition MAX_EXPONENT : Z := 125%Z.
Definition MIN_EXPONENT : Z := (-130)%Z.

Definition empty_numeric_err : DynamoDbError :=
  ValidationException "The parameter cannot be converted to a numeric value".

Definition too_many_digits_err : DynamoDbError :=
  ValidationException "Attempting to store more than 38 significant digits in a Number".

Definition overflow_err : DynamoDbError :=
  ValidationException
    "Number overflow. Attempting to store a number with magnitude larger than supported range".

Definition underflow_err : DynamoDbError :=
  ValidationException
    "Number underflow. Attempting to store a number with magnitude smaller than supported range".

Definition numeric_value_err (s : string) : DynamoDbError :=
  ValidationException ("The parameter cannot be converted to a numeric value: " +:+ s).

Definition len_i64 (len : nat) : Z := Z.min i64_max (Z.of_nat len).

Definition is_zero_char (c : ascii) : bool := Ascii.eqb c "0".

(** The [i32] arithmetic does not overflow on the calls of
    [validate_and_normalize_number]; see [format_plain_in_range]. *)
Definition format_plain (negative : bool) (digits : list ascii) (exp : Z) : list ascii :=
  let sign := if negative then ["-"%char] else [] in
  let num_digits := Z.of_nat (length digits) in
  let decimal_pos := (num_digits + exp)%Z in
  if (decimal_pos <=? 0)%Z then
    sign ++ ["0"%char; "."%char] ++ replicate (Z.to_nat (- decimal_pos)) "0"%char ++ digits
  else if (num_digits <=? decimal_pos)%Z then
    sign ++ digits ++ replicate (Z.to_nat (decimal_pos - num_digits)) "0"%char
  else
    let at_ := Z.to_nat decimal_pos in
    sign ++ take at_ digits ++ ["."%char] ++ drop at_ digits.

Definition validate_and_normalize_number (s : string) : res string :=
  if is_empty s then Err (Fail empty_numeric_err)
  else
    let '(negative, rest) :=
      match strip_prefix_char "-" s with
      | Some r => (true, r)
      | None => (false, default s (strip_prefix_char "+" s))
      end in
    let? (mantissa_str, explicit_exp) :=
      match split_once is_exp_char (as_bytes rest) with
      | Some (m, e) =>
          match parse_i32 e with
          | Some z => Ok (m, z)
          | None => Err (Fail (numeric_value_err s))
          end
      | None => Ok (as_bytes rest, 0%Z)
      end in
    if bool_decide (mantissa_str = [])
       || negb (forallb (fun c => is_digit c || is_point c) mantissa_str)
    then Err (Fail (numeric_value_err s))
    else if negb (existsb is_digit mantissa_str)
    then Err (Fail (numeric_value_err s))
    else
      let '(int_part, frac_part) :=
        match split_once is_point mantissa_str with
        | Some (i, f) => (if bool_decide (i = []) then ["0"%char] else i, f)
        | None => (mantissa_str, [])
        end in
      if negb (forallb is_digit int_part) || negb (forallb is_digit frac_part)
      then Err (Fail (numeric_value_err s))
      else
        let all_digits := int_part ++ frac_part in
        let point_offset := sat_sub_i64 explicit_exp (len_i64 (length frac_part)) in
        let sig_start :=
          default (length all_digits) (list_find (fun c => negb (is_zero_char c)) all_digits) in
        let significant := drop sig_start all_digits in
        if bool_decide (significant = []) then Ok "0"
        else
          let sig_end :=
            match list_rfind (fun c => negb (is_zero_char c)) significant with
            | Some i => i + 1
            | None => 0
            end in
          let sig_trimmed := take sig_end significant in
          if bool_decide (sig_trimmed = []) then Ok "0"
          else if MAX_SIGNIFICANT_DIGITS <? length sig_trimmed
          then Err (Fail too_many_digits_err)
          else
            let trailing_zeros := length significant - sig_end in
            let exp := sat_add_i64 point_offset (len_i64 trailing_zeros) in
            let magnitude_exp := sat_add_i64 (len_i64 (length sig_trimmed) - 1) exp in
            if (MAX_EXPONENT <? magnitude_exp)%Z then Err (Fail overflow_err)
            else if (magnitude_exp <? MIN_EXPONENT)%Z then Err (Fail underflow_err)
            else
              match i32_try_from exp with
              | None => Err (Fail overflow_err)
              | Some exp =>
                  let result := of_bytes (format_plain negative sig_trimmed exp) in
                  if negative && String.eqb result "-0" then Ok "0" else Ok result
              end.

(** ** Reading

    The checks of the first half accept exactly the numerals. *)

Local Open Scope Z_scope.

(** The second half of [validate_and_normalize_number], from the point where
    the digits and their decimal offset are known. *)
Definition normalize_digits (negative : bool) (all_digits : list ascii) (point_offset : Z)
    : res string :=
  let sig_start :=
    default (length all_digits) (list_find (fun c => negb (is_zero_char c)) all_digits) in
  let significant := drop sig_start all_digits in
  if bool_decide (significant = []) then Ok "0"
  else
    let sig_end :=
      match list_rfind (fun c => negb (is_zero_char c)) significant with
      | Some i => (i + 1)%nat
      | None => 0%nat
      end in
    let sig_trimmed := take sig_end significant in
    if bool_decide (sig_trimmed = []) then Ok "0"
    else if (MAX_SIGNIFICANT_DIGITS <? length sig_trimmed)%nat
    then Err (Fail too_many_digits_err)
    else
      let trailing_zeros := (length significant - sig_end)%nat in
      let exp := sat_add_i64 point_offset (len_i64 trailing_zeros) in
      let magnitude_exp := sat_add_i64 (len_i64 (length sig_trimmed) - 1) exp in
      if (MAX_EXPONENT <? magnitude_exp) then Err (Fail overflow_err)
      else if (magnitude_exp <? MIN_EXPONENT) then Err (Fail underflow_err)
      else
        match i32_try_from exp with
        | None => Err (Fail overflow_err)
        | Some exp =>
            let result := of_bytes (format_plain negative sig_trimmed exp) in
            if negative && String.eqb result "-0" then Ok "0" else Ok result
        end.

Definition int_or_zero (i : list ascii) : list ascii :=
  if bool_decide (i = []) then ["0"%char] else i.

Lemma read_sign_strip s :
  match strip_prefix_char "-" s with
  | Some r => (true, as_bytes r)
  | None => (false, as_bytes (default s (strip_prefix_char "+" s)))
  end = read_sign (as_bytes s).
Proof.
  destruct s as [|c s]; [done|].
  change (as_bytes (String c s)) with (c :: as_bytes s). unfold strip_prefix_char, read_sign.
  rewrite (Ascii.eqb_sym "-"), (Ascii.eqb_sym "+").
  destruct (Ascii.eqb c "-"); [done|]. by destruct (Ascii.eqb c "+").
Qed.

(** The character checks on a mantissa, against its reading. *)
Lemma mantissa_checks {A : Type} m (err : A) (k : list ascii -> list ascii -> A) :
  (if bool_decide (m = []) || negb (forallb (fun c => is_digit c || is_point c) m)
   then err
   else if negb (existsb is_digit m) then err
   else
     let '(int_part, frac_part) :=
       match split_once is_point m with
       | Some (i, f) => (if bool_decide (i = []) then ["0"%char] else i, f)
       | None => (m, [])
       end in
     if negb (forallb is_digit int_part) || negb (forallb is_digit frac_part) then err
     else k int_part frac_part)
  = match read_mantissa m with
    | Some (i, f) => k (int_or_zero i) f
    | None => err
    end.
Proof.
  destruct (read_mantissa m) as [[i f]|] eqn:Em.
  - pose proof (mantissa_chars _ _ _ Em) as [Hc Hne].
    rewrite bool_decide_eq_false_2, Hc by done. simpl.
    apply read_mantissa_Some in Em as (Hm & Hi & Hf & Hif).
    assert (existsb is_digit m = true) as ->.
    { apply existsb_exists. destruct (i ++ f) as [|c l] eqn:E; [done|]. exists c.
      assert (In c (i ++ f)) as Hin%in_app_iff by (rewrite E; by left).
      rewrite forallb_forall in Hi, Hf. split.
      - destruct Hm as [[-> ->]| ->]; [naive_solver|]. apply in_app_iff. naive_solver.
      - naive_solver. }
    simpl. destruct Hm as [[-> ->]| ->].
    + assert (split_once is_point i = None) as ->.
      { apply split_once_None. eapply forallb_impl, Hi. apply digit_not_point. }
      rewrite Hi. simpl. unfold int_or_zero. by rewrite bool_decide_eq_false_2.
    + assert (split_once is_point (i ++ "."%char :: f) = Some (i, f)) as ->.
      { apply split_once_Some. exists "."%char. repeat split; [done..|].
        eapply forallb_impl, Hi. apply digit_not_point. }
      fold (int_or_zero i). assert (forallb is_digit (int_or_zero i) = true) as ->.
      { unfold int_or_zero. by case_bool_decide. }
      by rewrite Hf.
  - case_bool_decide; simpl; [done|]. destruct (forallb _ m) eqn:Hc; [simpl|done].
    destruct (existsb is_digit m) eqn:He; [simpl|done].
    unfold read_mantissa in Em. destruct (split_once is_point m) as [[i f]|] eqn:Es.
    + destruct (forallb is_digit f) eqn:Hf; [|by rewrite orb_true_r].
      destruct (forallb is_digit i) eqn:Hi; simpl in Em.
      * case_bool_decide as Hb; [|done]. apply app_nil in Hb as [-> ->].
        apply split_once_Some in Es as (x & -> & Hx & _). apply Ascii.eqb_eq in Hx as ->.
        done.
      * case_bool_decide; [by subst i|]. by rewrite Hi.
    + destruct (forallb is_digit m) eqn:Hm; [|done]. simpl in Em.
      rewrite app_nil_r in Em. by rewrite bool_decide_eq_false_2 in Em.
Qed.

Lemma validate_read s :
  s <> "" ->
  validate_and_normalize_number s =
  match read_numeral (as_bytes s) with
  | Some (neg, i, f, e) =>
      normalize_digits neg (int_or_zero i ++ f) (sat_sub_i64 e (len_i64 (length f)))
  | None => Err (Fail (numeric_value_err s))
  end.
Proof.
  intros Hne. unfold validate_and_normalize_number.
  assert (is_empty s = false) as -> by (by destruct s).
  unfold read_numeral. pose proof (read_sign_strip s) as Hs.
  assert (exists neg rest, read_sign (as_bytes s) = (neg, as_bytes rest) /\
    match strip_prefix_char "-" s with
    | Some r => (true, r)
    | None => (false, default s (strip_prefix_char "+" s))
    end = (neg, rest)) as (neg & rest & -> & ->).
  { rewrite <- Hs. destruct (strip_prefix_char "-" s); eauto. }
  unfold read_exp. destruct (split_once is_exp_char (as_bytes rest)) as [[m t]|].
  - destruct (parse_i32 t) as [z|]; [|done].
    rewrite (mantissa_checks m). by destruct (read_mantissa m) as [[i f]|].
  - rewrite (mantissa_checks (as_bytes rest)). by destruct (read_mantissa _) as [[i f]|].
Qed.

(** ** Normalising

    The second half, on the canonical digits of a value: digits that neither
    start nor end with a zero. *)

Definition zeros (l : list ascii) : bool := forallb is_zero_char l.

Definition canonical (sig : list ascii) : Prop :=
  forallb is_digit sig = true /\ sig <> [] /\
  no_leading_zero sig = true /\ no_leading_zero (reverse sig) = true.

(** The result for canonical digits [sig] and exponent [x]. *)
Definition finish (neg : bool) (sig : list ascii) (x : Z) : res string :=
  let magnitude := Z.of_nat (length sig) - 1 + x in
  if (38 <? length sig)%nat then Err (Fail too_many_digits_err)
  else if 125 <? magnitude then Err (Fail overflow_err)
  else if magnitude <? -130 then Err (Fail underflow_err)
  else Ok (of_bytes (format_plain neg sig x)).

(** Every digit string is all zeros, or canonical digits between zeros. *)
Lemma digits_split l :
  forallb is_digit l = true ->
  zeros l = true \/
  exists z1 sig z2, l = z1 ++ sig ++ z2 /\ zeros z1 = true /\ zeros z2 = true /\ canonical sig.
Proof.
  intros Hd. destruct (drop_while_spec is_zero_char l) as (z1 & Hl & Hz1 & Hfst).
  destruct (drop_while is_zero_char l) as [|c r] eqn:Er.
  { left. by rewrite Hl, app_nil_r. }
  right. pose proof (list_rfind_spec (fun c => negb (is_zero_char c)) (c :: r)) as Hr.
  specialize (Hfst c r eq_refl). assert (Hlz : no_leading_zero (c :: r) = true).
  { simpl. unfold is_zero_char in Hfst. by rewrite Hfst. }
  destruct (list_rfind _ (c :: r)) as [i|]; [|simpl in Hr; by rewrite Hfst in Hr].
  destruct Hr as (l1 & x & z2 & Hcr & _ & Hx & Hz2). rewrite Hcr in *. subst l.
  exists z1, (l1 ++ [x]), z2. rewrite !forallb_app in Hd. simpl in Hd.
  rewrite !andb_true_iff in Hd. destruct Hd as (_ & Hd1 & Hdx & _).
  split; [by rewrite <- app_assoc|]. split; [done|]. split.
  { eapply forallb_impl, Hz2. intros y Hy. cbv beta in Hy. by rewrite negb_involutive in Hy. }
  split; [by rewrite forallb_app; simpl; rewrite Hd1, Hdx|]. split; [by destruct l1|]. split.
  - by destruct l1.
  - by rewrite reverse_snoc.
Qed.

Lemma canonical_val_pos sig : canonical sig -> (0 < digits_val sig)%N.
Proof.
  intros (Hd & Hne & Hl & _). destruct sig as [|c sig]; [done|]. simpl in *. bool_split.
  apply negb_true_iff, Ascii.eqb_neq in Hl. by apply digits_val_pos.
Qed.

Lemma canonical_mod sig : canonical sig -> (digits_val sig mod 10 <> 0)%N.
Proof.
  intros (Hd & Hne & _ & Hl). destruct sig as [|c sig _] using rev_ind; [done|].
  rewrite reverse_snoc in Hl. simpl in Hl. apply negb_true_iff, Ascii.eqb_neq in Hl.
  rewrite forallb_app in Hd. simpl in Hd.
  rewrite !andb_true_iff in Hd. destruct Hd as (_ & Hdc & _).
  rewrite digits_val_snoc, N.add_comm, N.Div0.mod_add.
  pose proof (digit_val_lt _ Hdc). rewrite N.mod_small by done.
  intros E. apply Hl, digit_val_inj; [done|done|]. by rewrite E.
Qed.

Lemma drop_while_zeros z sig r :
  zeros z = true -> canonical sig -> drop_while is_zero_char (z ++ sig ++ r) = sig ++ r.
Proof.
  intros Hz Hs. induction z as [|c z IH]; simpl in *.
  - destruct Hs as (_ & Hne & Hl & _). destruct sig as [|c sig]; [done|]. simpl in *.
    apply negb_true_iff in Hl. unfold is_zero_char. by rewrite Hl.
  - bool_split. rewrite Hz0. auto.
Qed.

Lemma rfind_canonical sig z :
  canonical sig -> zeros z = true ->
  list_rfind (fun c => negb (is_zero_char c)) (sig ++ z) = Some (length sig - 1)%nat.
Proof.
  intros (_ & Hne & _ & Hl) Hz. destruct sig as [|c sig _] using rev_ind; [done|].
  rewrite reverse_snoc in Hl. simpl in Hl. rewrite length_app. simpl.
  replace (length sig + 1 - 1)%nat with (length sig) by lia.
  induction sig as [|d sig IH]; simpl.
  - assert (list_rfind (fun c => negb (is_zero_char c)) z = None) as ->.
    { clear -Hz. induction z as [|y z IH]; simpl in *; [done|]. bool_split.
      rewrite IH, Hz0; done. }
    unfold is_zero_char. by rewrite Hl.
  - rewrite IH; [done|]. by destruct sig.
Qed.

Lemma negb_negb_drop_while l :
  drop_while (fun c => negb (negb (is_zero_char c))) l = drop_while is_zero_char l.
Proof. induction l as [|c l IH]; simpl; [done|]. by rewrite negb_involutive, IH. Qed.

Lemma format_plain_not_neg_zero sig x :
  canonical sig -> String.eqb (of_bytes (format_plain true sig x)) "-0" = false.
Proof.
  intros (_ & Hne & Hl & _). apply String.eqb_neq.
  change "-0" with (of_bytes ["-"%char; "0"%char]). intros E%of_bytes_inj.
  destruct sig as [|c sig]; [done|]. simpl in Hl.
  unfold format_plain in E. destruct (Z.leb _ 0) eqn:E1; [done|].
  destruct (Z.of_nat _ <=? _) eqn:E2; simpl in E.
  - injection E as -> _. done.
  - apply Z.leb_gt in E1, E2. apply (f_equal length) in E. simpl length in *.
    rewrite length_app in E. simpl in E. rewrite length_drop, length_take in E.
    simpl in E. lia.
Qed.

Lemma normalize_zeros neg l off : zeros l = true -> normalize_digits neg l off = Ok "0".
Proof.
  intros Hz. unfold normalize_digits. rewrite list_find_drop, negb_negb_drop_while.
  assert (drop_while is_zero_char l = []) as ->; [|done].
  induction l as [|c l IH]; simpl in *; [done|]. apply andb_true_iff in Hz as [-> Hz]. auto.
Qed.

Lemma normalize_canonical neg z1 sig z2 off :
  zeros z1 = true -> zeros z2 = true -> canonical sig ->
  Z.abs off + Z.of_nat (length z2) + Z.of_nat (length sig) < 2 ^ 63 ->
  normalize_digits neg (z1 ++ sig ++ z2) off = finish neg sig (off + Z.of_nat (length z2)).
Proof.
  intros Hz1 Hz2 Hs Hlen. unfold normalize_digits.
  rewrite list_find_drop, negb_negb_drop_while, drop_while_zeros, rfind_canonical by done.
  assert (length sig <> 0)%nat as Hl.
  { destruct Hs as (_ & Hne & _). by destruct sig. }
  replace (length sig - 1 + 1)%nat with (length sig) by lia.
  rewrite take_app_length, bool_decide_eq_false_2 by (by destruct sig).
  rewrite bool_decide_eq_false_2 by (by destruct sig).
  rewrite length_app. replace (length sig + length z2 - length sig)%nat with (length z2) by lia.
  unfold finish, MAX_SIGNIFICANT_DIGITS, MAX_EXPONENT, MIN_EXPONENT.
  destruct (38 <? length sig)%nat eqn:E38; [done|]. apply Nat.ltb_ge in E38.
  assert (sat_add_i64 off (len_i64 (length z2)) = off + Z.of_nat (length z2)) as ->.
  { unfold sat_add_i64, sat_i64, len_i64, i64_min, i64_max. lia. }
  set (x := off + Z.of_nat (length z2)).
  assert (sat_add_i64 (len_i64 (length sig) - 1) x = Z.of_nat (length sig) - 1 + x) as ->.
  { unfold sat_add_i64, sat_i64, len_i64, i64_min, i64_max. lia. }
  destruct (125 <? _) eqn:E1; [done|]. destruct (_ <? -130) eqn:E2; [done|].
  assert (i32_try_from x = Some x) as ->.
  { apply Z.ltb_ge in E1, E2. unfold i32_try_from, i32_min, i32_max.
    rewrite !(proj2 (Z.leb_le _ _)) by lia. done. }
  destruct neg; simpl; [|done]. by rewrite format_plain_not_neg_zero.
Qed.

Lemma signed_mul neg n k : signed neg n * Z.of_N k = signed neg (n * k).
Proof. unfold signed. destruct neg; lia. Qed.

(** Shifting the point by zeros appended to the digits. *)
Lemma dec_eq_shift neg n k x :
  dec_eq (signed neg (n * 10 ^ N.of_nat k), x) (signed neg n, x + Z.of_nat k).
Proof.
  rewrite (dec_eq_at x) by (simpl; lia). unfold dec_at. simpl.
  replace (x - x) with 0 by lia. replace (x + Z.of_nat k - x) with (Z.of_nat k) by lia.
  rewrite <- signed_mul. rewrite N2Z.inj_pow, nat_N_Z. lia.
Qed.

Lemma dec_eq_zeros neg z1 sig z2 x :
  zeros z1 = true -> zeros z2 = true ->
  dec_eq (signed neg (digits_val (z1 ++ sig ++ z2)), x)
         (signed neg (digits_val sig), x + Z.of_nat (length z2)).
Proof.
  intros Hz1 Hz2. rewrite digits_val_zeros_app by done.
  rewrite digits_val_app, (digits_val_zeros z2) by done. rewrite N.add_0_r.
  apply dec_eq_shift.
Qed.

(** A value has one canonical form. *)
Lemma canonical_unique neg sig x neg' sig' x' :
  canonical sig -> canonical sig' ->
  dec_eq (signed neg (digits_val sig), x) (signed neg' (digits_val sig'), x') ->
  (neg, sig, x) = (neg', sig', x').
Proof.
  intros Hc Hc' Heq.
  assert (forall neg sig x neg' sig' x', canonical sig -> canonical sig' -> x <= x' ->
    dec_eq (signed neg (digits_val sig), x) (signed neg' (digits_val sig'), x') ->
    (neg, sig, x) = (neg', sig', x')) as Hle.
  { clear. intros neg sig x neg' sig' x' Hc Hc' Hx Heq.
    rewrite (dec_eq_at x) in Heq by (simpl; lia). unfold dec_at in Heq. simpl in Heq.
    replace (x - x) with 0 in Heq by lia. rewrite Z.mul_1_r in Heq.
    pose proof (canonical_val_pos _ Hc). pose proof (canonical_val_pos _ Hc').
    assert (0 < 10 ^ (x' - x)) by (apply Z.pow_pos_nonneg; lia).
    assert (neg = neg') as <- by (unfold signed in Heq; destruct neg, neg'; nia || done).
    assert (Z.of_N (digits_val sig) = Z.of_N (digits_val sig') * 10 ^ (x' - x)) as Hv
      by (unfold signed in Heq; destruct neg; lia).
    assert (x' = x) as ->.
    { destruct (Z.eq_dec x' x); [done|]. exfalso. apply (canonical_mod _ Hc).
      apply N2Z.inj. rewrite N2Z.inj_mod, Hv.
      replace (x' - x) with (Z.succ (x' - x - 1)) by lia. rewrite Z.pow_succ_r by lia.
      rewrite (Z.mul_comm 10), Z.mul_assoc. apply Z.mod_mul. lia. }
    replace (x - x) with 0 in Hv by lia.
    destruct Hc as (Hd & _ & Hl & _), Hc' as (Hd' & _ & Hl' & _).
    do 2 f_equal. apply digits_val_inj; auto. lia. }
  destruct (Z.le_ge_cases x x') as [Hx|Hx]; [by apply Hle|].
  symmetry. apply Hle; [done..|]. by symmetry.
Qed.

Lemma zeros_replicate n : zeros (replicate n "0"%char) = true.
Proof. induction n; simpl; auto. Qed.

Lemma digits_replicate n : forallb is_digit (replicate n "0"%char) = true.
Proof. induction n; simpl; auto. Qed.

Lemma numeral_plain (neg : bool) mant i f :
  (mant = i /\ f = []) \/ mant = i ++ "."%char :: f ->
  forallb is_digit i = true -> forallb is_digit f = true -> i ++ f <> [] ->
  numeral ((if neg then ["-"%char] else []) ++ mant) neg i f 0.
Proof.
  intros Hm Hi Hf Hne. exists (if neg then ["-"%char] else []), mant, [].
  rewrite app_nil_r. destruct neg; auto 10.
Qed.

(** The text that [format_plain] writes denotes the digits at their exponent. *)
Lemma format_plain_value neg sig x :
  forallb is_digit sig = true -> sig <> [] ->
  exists i f, numeral (format_plain neg sig x) neg i f 0 /\
    dec_eq (numeral_value neg i f 0) (signed neg (digits_val sig), x).
Proof.
  intros Hd Hne. unfold format_plain.
  set (n := Z.of_nat (length sig)).
  assert (0 < n) by (unfold n; destruct sig; [done|simpl; lia]).
  destruct (Z.leb_spec (n + x) 0) as [H1|H1]; [|destruct (Z.leb_spec n (n + x)) as [H2|H2]].
  - exists ["0"%char], (replicate (Z.to_nat (- (n + x))) "0"%char ++ sig). split.
    + apply numeral_plain; [by right|done| |done].
      by rewrite forallb_app, digits_replicate, Hd.
    + unfold numeral_value. rewrite app_assoc, digits_val_zeros_app.
      2: { change (zeros (["0"%char] ++ replicate (Z.to_nat (- (n + x))) "0"%char) = true).
           unfold zeros. rewrite forallb_app. apply zeros_replicate. }
      rewrite length_app, length_replicate.
      replace (0 - Z.of_nat (Z.to_nat (- (n + x)) + length sig)) with x by lia. done.
  - exists (sig ++ replicate (Z.to_nat (n + x - n)) "0"%char), []. split.
    + apply numeral_plain; [by left| |done|].
      * by rewrite forallb_app, digits_replicate, Hd.
      * rewrite app_nil_r. by destruct sig.
    + unfold numeral_value. rewrite app_nil_r. simpl length.
      set (z := replicate _ _). rewrite <- (app_nil_l (sig ++ z)).
      rewrite dec_eq_zeros by (done || apply zeros_replicate).
      unfold z. rewrite length_replicate.
      replace (0 - Z.of_nat 0 + Z.of_nat (Z.to_nat (n + x - n))) with x by lia. done.
  - exists (take (Z.to_nat (n + x)) sig), (drop (Z.to_nat (n + x)) sig).
    rewrite <- (take_drop (Z.to_nat (n + x)) sig), forallb_app, andb_true_iff in Hd.
    destruct Hd as [Hd1 Hd2]. split.
    + apply numeral_plain; [by right|done|done|]. by rewrite take_drop.
    + unfold numeral_value. rewrite take_drop, length_drop.
      replace (0 - Z.of_nat (length sig - Z.to_nat (n + x))) with x by lia. done.
Qed.

(** ** Theorems *)

(** Texts whose length is within the [i64] arithmetic of the exponent; a Rust
    string of [2^61] bytes does not fit in memory. *)
Definition short (s : string) : Prop := Z.of_nat (String.length s) < 2 ^ 61.

Lemma digits_length_le l neg i f e :
  numeral l neg i f e -> (length i + length f <= length l)%nat.
Proof.
  intros (sign & mant & ex & -> & _ & Hm & _). rewrite !length_app.
  destruct Hm as [[-> ->]| ->]; [simpl; lia|]. rewrite length_app. simpl. lia.
Qed.

Lemma parse_i32_bound t z : parse_i32 t = Some z -> i32_min <= z <= i32_max.
Proof.
  unfold parse_i32. destruct (match t with [] => _ | (c :: l')%list => _ end) as [neg ds].
  case_bool_decide; [done|]. destruct (forallb is_digit ds); [|done].
  destruct (_ && _) eqn:E; [|done]. intros [= <-].
  apply andb_true_iff in E as [E1%Z.leb_le E2%Z.leb_le]. lia.
Qed.

Lemma numeral_exp_bound l neg i f e : numeral l neg i f e -> i32_min <= e <= i32_max.
Proof.
  intros (sign & mant & ex & _ & _ & _ & _ & _ & _ & Hex).
  destruct Hex as [[_ ->]|(c & t & _ & _ & Hp)]; [by unfold i32_min, i32_max|].
  by eapply parse_i32_bound.
Qed.

Lemma numeral_digits l neg i f e :
  numeral l neg i f e -> forallb is_digit i = true /\ forallb is_digit f = true.
Proof. by intros (sign & mant & ex & _ & _ & _ & Hi & Hf & _). Qed.

Lemma int_or_zero_val i f : digits_val (int_or_zero i ++ f) = digits_val (i ++ f).
Proof. unfold int_or_zero. by case_bool_decide; [subst; rewrite digits_val_zeros_app|]. Qed.

(** The outcome on a numeral, by its value: zero, or the canonical form. *)
Lemma validate_numeral s neg i f e :
  short s -> numeral (as_bytes s) neg i f e ->
  (digits_val (i ++ f) = 0%N /\ validate_and_normalize_number s = Ok "0") \/
  (exists sig x, canonical sig /\
     dec_eq (numeral_value neg i f e) (signed neg (digits_val sig), x) /\
     validate_and_normalize_number s = finish neg sig x).
Proof.
  intros Hshort Hn. pose proof (digits_length_le _ _ _ _ _ Hn) as Hlen.
  pose proof (numeral_exp_bound _ _ _ _ _ Hn) as He.
  pose proof (numeral_digits _ _ _ _ _ Hn) as [Hi Hf].
  rewrite length_as_bytes in Hlen. unfold short in Hshort. unfold i32_min, i32_max in He.
  assert (s <> "") as Hne.
  { intros ->. by apply read_numeral_iff in Hn. }
  pose proof (validate_read s Hne) as Hv. rewrite (proj2 (read_numeral_iff _ _ _ _ _) Hn) in Hv.
  assert (sat_sub_i64 e (len_i64 (length f)) = e - Z.of_nat (length f)) as Hoff.
  { unfold sat_sub_i64, sat_i64, len_i64, i64_min, i64_max. lia. }
  rewrite Hoff in Hv. clear Hoff.
  destruct (digits_split (int_or_zero i ++ f)) as [Hz|(z1 & sig & z2 & Hl & Hz1 & Hz2 & Hc)].
  - rewrite forallb_app, Hf. unfold int_or_zero. by case_bool_decide; rewrite ?Hi.
  - left. rewrite <- int_or_zero_val, digits_val_zeros by done. by rewrite Hv, normalize_zeros.
  - right. exists sig, (e - Z.of_nat (length f) + Z.of_nat (length z2)).
    split; [done|]. unfold numeral_value. rewrite <- int_or_zero_val, Hl. split.
    + by apply dec_eq_zeros.
    + rewrite Hv, Hl. apply normalize_canonical; [done..|].
      assert (length (int_or_zero i ++ f) <= S (length i + length f))%nat as Hl2.
      { rewrite length_app. unfold int_or_zero. case_bool_decide; subst; simpl; lia. }
      rewrite Hl, !length_app in Hl2. lia.
Qed.

Lemma dec_eq_zero_iff d x : dec_eq d (0, x) <-> d.1 = 0.
Proof.
  destruct d as [m y]. rewrite (dec_eq_at (Z.min y x)) by (simpl; lia). unfold dec_at. simpl.
  assert (0 < 10 ^ (y - Z.min y x)) by (apply Z.pow_pos_nonneg; lia). nia.
Qed.

Lemma signed_zero_iff neg n : signed neg n = 0 <-> n = 0%N.
Proof. unfold signed. destruct neg; lia. Qed.

Lemma canonical_nonzero neg sig x d :
  canonical sig -> dec_eq d (signed neg (digits_val sig), x) -> d.1 <> 0.
Proof.
  intros Hc%canonical_val_pos Hd H0. apply (dec_eq_zero_iff d x) in H0.
  rewrite H0 in Hd. symmetry in Hd. apply dec_eq_zero_iff in Hd. simpl in Hd.
  apply signed_zero_iff in Hd. lia.
Qed.

(** Within the bounds the exponent arithmetic of [format_plain] stays within
    [-167, 126], far from the ends of [i32]. *)
Lemma format_plain_in_range neg sig x o :
  sig <> [] -> finish neg sig x = Ok o ->
  (length sig <= 38)%nat /\ -167 <= x <= 125 /\ -129 <= Z.of_nat (length sig) + x <= 126.
Proof.
  intros Hne. unfold finish.
  destruct (Nat.ltb_spec 38 (length sig)); [done|].
  destruct (Z.ltb_spec 125 (Z.of_nat (length sig) - 1 + x)); [done|].
  destruct (Z.ltb_spec (Z.of_nat (length sig) - 1 + x) (-130)); [done|]. intros _.
  assert (length sig <> 0)%nat by (by destruct sig). lia.
Qed.

Lemma finish_length neg sig x o :
  sig <> [] -> finish neg sig x = Ok o -> (String.length o <= 170)%nat.
Proof.
  intros Hne Hf. pose proof (format_plain_in_range _ _ _ _ Hne Hf) as (H1 & H2 & H3).
  unfold finish in Hf. destruct (_ <? _)%nat; [done|]. destruct (_ <? _); [done|].
  destruct (_ <? _); [done|]. injection Hf as <-.
  rewrite <- length_as_bytes, as_bytes_of_bytes. unfold format_plain.
  assert (length (if neg then ["-"%char] else []) <= 1)%nat by (destruct neg; simpl; lia).
  destruct (Z.leb_spec (Z.of_nat (length sig) + x) 0);
    [|destruct (Z.leb_spec (Z.of_nat (length sig)) (Z.of_nat (length sig) + x))];
    rewrite !length_app, ?length_replicate, ?length_take, ?length_drop; simpl; lia.
Qed.

Lemma finish_Ok neg sig x o :
  finish neg sig x = Ok o -> o = of_bytes (format_plain neg sig x).
Proof.
  unfold finish. destruct (_ <? _)%nat; [done|]. destruct (_ <? _); [done|].
  destruct (_ <? _); [done|]. by intros [= <-].
Qed.

(** Any numeral whose value has the canonical form [sig], [x] gets the same
    outcome. *)
Lemma validate_by_value s d neg sig x :
  short s -> denotes s d -> canonical sig ->
  dec_eq d (signed neg (digits_val sig), x) ->
  validate_and_normalize_number s = finish neg sig x.
Proof.
  intros Hs (neg' & i & f & e & Hn & ->) Hc Hd.
  destruct (validate_numeral _ _ _ _ _ Hs Hn) as [[H0 _]|(sig' & x' & Hc' & Hd' & ->)].
  - exfalso. eapply canonical_nonzero; [exact Hc|exact Hd|]. by apply signed_zero_iff.
  - rewrite Hd in Hd'. by injection (canonical_unique _ _ _ _ _ _ Hc Hc' Hd') as -> -> ->.
Qed.

Lemma validate_zero s d :
  short s -> denotes s d -> d.1 = 0 -> validate_and_normalize_number s = Ok "0".
Proof.
  intros Hs (neg' & i & f & e & Hn & ->) H0.
  destruct (validate_numeral _ _ _ _ _ Hs Hn) as [[_ ?]|(sig' & x' & Hc' & Hd' & _)]; [done|].
  exfalso. by eapply canonical_nonzero.
Qed.

Lemma denotes_zero : denotes "0" (0, 0).
Proof. by apply read_dec_iff. Qed.

Lemma validate_Ok_numeral s o :
  validate_and_normalize_number s = Ok o -> exists neg i f e, numeral (as_bytes s) neg i f e.
Proof.
  destruct (decide (s = "")) as [->|Hne]; [done|]. rewrite validate_read by done.
  destruct (read_numeral _) as [[[[neg i] f] e]|] eqn:E; [|done].
  intros _. apply read_numeral_iff in E. eauto.
Qed.

(** An accepted text is zero, or has a canonical form that its output prints. *)
Lemma validate_Ok_cases s o :
  short s -> validate_and_normalize_number s = Ok o ->
  exists d, denotes s d /\
    ((d.1 = 0 /\ o = "0") \/
     (exists neg sig x, canonical sig /\ dec_eq d (signed neg (digits_val sig), x) /\
        finish neg sig x = Ok o)).
Proof.
  intros Hs Ho. destruct (validate_Ok_numeral _ _ Ho) as (neg & i & f & e & Hn).
  exists (numeral_value neg i f e). split; [by exists neg, i, f, e|].
  destruct (validate_numeral _ _ _ _ _ Hs Hn) as [[H0 Hv]|(sig & x & Hc & Hd & Hv)].
  - left. rewrite Hv in Ho. injection Ho as <-. split; [by apply signed_zero_iff|done].
  - right. exists neg, sig, x. by rewrite <- Hv.
Qed.

Lemma finish_denotes neg sig x o :
  canonical sig -> finish neg sig x = Ok o ->
  exists d, denotes o d /\ dec_eq d (signed neg (digits_val sig), x).
Proof.
  intros (Hd & Hne & _) Ho%finish_Ok.
  destruct (format_plain_value neg sig x Hd Hne) as (i & f & Hn & Heq).
  exists (numeral_value neg i f 0). split; [|done].
  exists neg, i, f, 0. split; [|done]. by rewrite Ho, as_bytes_of_bytes.
Qed.

Lemma number_value_preserved_aux s o :
  short s -> validate_and_normalize_number s = Ok o ->
  exists d d', denotes s d /\ denotes o d' /\ dec_eq d d'.
Proof.
  intros Hs Ho. destruct (validate_Ok_cases _ _ Hs Ho) as (d & Hd & [[H0 ->]|Hc]).
  - exists d, (0, 0). split; [done|]. split; [apply denotes_zero|]. by apply dec_eq_zero_iff.
  - destruct Hc as (neg & sig & x & Hc & Heq & Hf).
    destruct (finish_denotes _ _ _ _ Hc Hf) as (d' & Hd' & Heq').
    exists d, d'. split; [done|]. split; [done|]. by rewrite Heq, Heq'.
Qed.

(** C18. An accepted number string is a decimal numeral, and the string it is
    normalised to is a numeral of the same value. *)
Theorem number_value_preserved s o :
  short s -> validate_and_normalize_number s = Ok o ->
  exists d d', denotes s d /\ denotes o d' /\ dec_eq d d'.
Proof. apply number_value_preserved_aux. Qed.

Lemma number_value_preserved_witness :
  short "-0012.340e1" /\ exists d d', denotes "-0012.340e1" d /\ denotes "-123.4" d' /\ dec_eq d d'.
Proof.
  split; [vm_compute; reflexivity|].
  apply (number_value_preserved "-0012.340e1" "-123.4"); vm_compute; reflexivity.
Defined.

Lemma number_normal_form_aux s t d d' :
  short s -> short t -> denotes s d -> denotes t d' ->
  (dec_eq d d' -> validate_and_normalize_number s = validate_and_normalize_number t) /\
  (forall o, validate_and_normalize_number s = Ok o ->
     validate_and_normalize_number t = Ok o -> dec_eq d d').
Proof.
  intros Hs Ht Hd Hd'. split.
  - intros Heq. destruct (decide (d.1 = 0)) as [H0|H0].
    + assert (d'.1 = 0) by (apply (dec_eq_zero_iff d' 0); rewrite <- Heq; by apply dec_eq_zero_iff).
      by rewrite (validate_zero s d), (validate_zero t d').
    + pose proof Hd as (neg & i & f & e & Hn & ->).
      destruct (validate_numeral _ _ _ _ _ Hs Hn) as [[Hz _]|(sig & x & Hc & Hdx & ->)].
      { exfalso. by apply H0, signed_zero_iff. }
      symmetry. eapply validate_by_value; eauto. by rewrite <- Heq.
  - intros o Hso Hto.
    destruct (number_value_preserved_aux s o Hs Hso) as (ds & do & Hds & Hdo & E1).
    destruct (number_value_preserved_aux t o Ht Hto) as (dt & do' & Hdt & Hdo' & E2).
    rewrite (denotes_unique _ _ _ Hd Hds), (denotes_unique _ _ _ Hd' Hdt), E1, E2.
    by rewrite (denotes_unique _ _ _ Hdo Hdo').
Qed.

(** Normalisation decides numeric equality: two numerals of equal value get
    the same outcome, an error included, and two numerals with the same
    normalised string have equal values. *)
Theorem number_normal_form s t d d' :
  short s -> short t -> denotes s d -> denotes t d' ->
  (dec_eq d d' -> validate_and_normalize_number s = validate_and_normalize_number t) /\
  (forall o, validate_and_normalize_number s = Ok o ->
     validate_and_normalize_number t = Ok o -> dec_eq d d').
Proof. apply number_normal_form_aux. Qed.

Lemma number_normal_form_witness :
  validate_and_normalize_number "1e2" = validate_and_normalize_number "100.0".
Proof.
  apply (number_normal_form "1e2" "100.0" (1, 2) (1000, -1)).
  - vm_compute. reflexivity.
  - vm_compute. reflexivity.
  - apply read_dec_iff. vm_compute. reflexivity.
  - apply read_dec_iff. vm_compute. reflexivity.
  - vm_compute. reflexivity.
Defined.

(** Normalising is idempotent: a normalised string is accepted and is its own
    normal form. *)
Theorem number_idempotent s o :
  short s -> validate_and_normalize_number s = Ok o -> validate_and_normalize_number o = Ok o.
Proof.
  intros Hs Ho. destruct (validate_Ok_cases _ _ Hs Ho) as (d & Hd & [[H0 ->]|Hc]); [done|].
  destruct Hc as (neg & sig & x & Hc & Heq & Hf).
  destruct (finish_denotes _ _ _ _ Hc Hf) as (d' & Hd' & Heq').
  rewrite (validate_by_value o d' neg sig x); [done| |done..].
  apply finish_length in Hf; [|by destruct Hc as (_ & ? & _)].
  unfold short. assert (170 < 2 ^ 61) by done. lia.
Qed.

Lemma number_idempotent_witness : validate_and_normalize_number "0.05" = Ok "0.05".
Proof. apply (number_idempotent "5E-2" "0.05"); vm_compute; reflexivity. Defined.

(** The error of every text: the empty string and the texts that are not
    numerals have their own messages; a zero is accepted as [0]; any other
    numeral is judged by the canonical digits and exponent of its value, at
    most 38 digits, then magnitude at most 125, then magnitude at least -130. *)
Theorem number_classification s :
  short s ->
  (s = "" -> validate_and_normalize_number s = Err (Fail empty_numeric_err)) /\
  (s <> "" -> (forall d, ~ denotes s d) ->
     validate_and_normalize_number s = Err (Fail (numeric_value_err s))) /\
  (forall d, denotes s d -> d.1 = 0 -> validate_and_normalize_number s = Ok "0") /\
  (forall d neg sig x, denotes s d -> canonical sig ->
     dec_eq d (signed neg (digits_val sig), x) ->
     validate_and_normalize_number s =
       if (38 <? length sig)%nat then Err (Fail too_many_digits_err)
       else if 125 <? Z.of_nat (length sig) - 1 + x then Err (Fail overflow_err)
       else if Z.of_nat (length sig) - 1 + x <? -130 then Err (Fail underflow_err)
       else Ok (of_bytes (format_plain neg sig x))).
Proof.
  intros Hs. split; [by intros ->|]. split.
  - intros Hne Hno. rewrite validate_read by done.
    destruct (read_numeral _) as [[[[neg i] f] e]|] eqn:E; [|done].
    apply read_numeral_iff in E. exfalso. eapply Hno. by exists neg, i, f, e.
  - split; [intros d; by apply validate_zero|].
    intros d neg sig x. by apply (validate_by_value s d).
Qed.

Lemma number_classification_witness :
  validate_and_normalize_number "1e2147483647" = Err (Fail overflow_err).
Proof.
  assert (short "1e2147483647") as Hs by (vm_compute; reflexivity).
  assert (canonical ["1"%char]) as Hc by (by repeat split).
  pose proof (proj2 (proj2 (proj2 (number_classification "1e2147483647" Hs)))
    (1, 2147483647) false ["1"%char] 2147483647) as H.
  rewrite H; [vm_compute; reflexivity| |exact Hc|vm_compute; reflexivity].
  apply read_dec_iff. vm_compute. reflexivity.
Defined.

(** A normalised number has at most 38 significant digits and 170 bytes. *)
Theorem number_length_bound s o :
  short s -> validate_and_normalize_number s = Ok o -> (String.length o <= 170)%nat.
Proof.
  intros Hs Ho. destruct (validate_Ok_cases _ _ Hs Ho) as (d & Hd & [[H0 ->]|Hc]);
    [simpl; lia|].
  destruct Hc as (neg & sig & x & (_ & Hne & _) & _ & Hf). by eapply finish_length.
Qed.

Lemma number_length_bound_witness : (String.length "0.05" <= 170)%nat.
Proof. apply (number_length_bound "5E-2" "0.05"); vm_compute; reflexivity. Defined.
