(* ===== verification/Ast.v ===== *)
(** * Expression syntax trees and tokens

    [crates/core/src/expression/ast.rs], [kind.rs] and the token type of
    [tokenizer.rs]. *)

From S2P Require Import Prelude.

(** ** Document paths *)

Inductive PathElement : Type :=
  | PAttr (name : string)
  | PIndex (idx : N).

Inductive CompareOp : Type := CEq | CNe | CLt | CLe | CGt | CGe.
Inductive ArithOp : Type := AAdd | ASub.

#[export] Instance PathElement_eq_dec : EqDecision PathElement.
Proof. solve_decision. Defined.
#[export] Instance CompareOp_eq_dec : EqDecision CompareOp.
Proof. solve_decision. Defined.
#[export] Instance ArithOp_eq_dec : EqDecision ArithOp.
Proof. solve_decision. Defined.

(** ** Expressions *)

Unset Elimination Schemes.
Inductive Expr : Type :=
  | EPath (path : list PathElement)
  | EPlaceholder (name : string)
  | ECompare (left : Expr) (op : CompareOp) (right : Expr)
  | EAnd (left right : Expr)
  | EOr (left right : Expr)
  | ENot (inner : Expr)
  | EFunction (name : string) (args : list Expr)
  | EArithmetic (left : Expr) (op : ArithOp) (right : Expr)
  | EBetween (operand low high : Expr)
  | EIn (operand : Expr) (items : list Expr).
Set Elimination Schemes.

Section Expr_ind.
Variable P : Expr -> Prop.
Hypothesis HPath : forall p, P (EPath p).
Hypothesis HPlaceholder : forall n, P (EPlaceholder n).
Hypothesis HCompare : forall l op r, P l -> P r -> P (ECompare l op r).
Hypothesis HAnd : forall l r, P l -> P r -> P (EAnd l r).
Hypothesis HOr : forall l r, P l -> P r -> P (EOr l r).
Hypothesis HNot : forall e, P e -> P (ENot e).
Hypothesis HFunction : forall n args, Forall P args -> P (EFunction n args).
Hypothesis HArithmetic : forall l op r, P l -> P r -> P (EArithmetic l op r).
Hypothesis HBetween : forall e lo hi, P e -> P lo -> P hi -> P (EBetween e lo hi).
Hypothesis HIn : forall e items, P e -> Forall P items -> P (EIn e items).

Fixpoint Expr_ind (e : Expr) : P e :=
  let fix go l : Forall P l :=
    match l with
    | [] => Forall_nil_2 P
    | x :: l' => Forall_cons_2 P x l' (Expr_ind x) (go l')
    end in
  match e with
  | EPath p => HPath p
  | EPlaceholder n => HPlaceholder n
  | ECompare l op r => HCompare l op r (Expr_ind l) (Expr_ind r)
  | EAnd l r => HAnd l r (Expr_ind l) (Expr_ind r)
  | EOr l r => HOr l r (Expr_ind l) (Expr_ind r)
  | ENot e' => HNot e' (Expr_ind e')
  | EFunction n args => HFunction n args (go args)
  | EArithmetic l op r => HArithmetic l op r (Expr_ind l) (Expr_ind r)
  | EBetween e' lo hi => HBetween e' lo hi (Expr_ind e') (Expr_ind lo) (Expr_ind hi)
  | EIn e' items => HIn e' items (Expr_ind e') (go items)
  end.
End Expr_ind.

(** The derived [PartialEq]. *)
Fixpoint expr_eqb (a b : Expr) : bool :=
  let fix go l k : bool :=
    match l, k with
    | [], [] => true
    | x :: l', y :: k' => expr_eqb x y && go l' k'
    | _, _ => false
    end in
  match a, b with
  | EPath p, EPath q => bool_decide (p = q)
  | EPlaceholder m, EPlaceholder n => String.eqb m n
  | ECompare l o r, ECompare l' o' r' =>
      expr_eqb l l' && bool_decide (o = o') && expr_eqb r r'
  | EAnd l r, EAnd l' r' => expr_eqb l l' && expr_eqb r r'
  | EOr l r, EOr l' r' => expr_eqb l l' && expr_eqb r r'
  | ENot x, ENot y => expr_eqb x y
  | EFunction m xs, EFunction n ys => String.eqb m n && go xs ys
  | EArithmetic l o r, EArithmetic l' o' r' =>
      expr_eqb l l' && bool_decide (o = o') && expr_eqb r r'
  | EBetween x l h, EBetween x' l' h' => expr_eqb x x' && expr_eqb l l' && expr_eqb h h'
  | EIn x xs, EIn y ys => expr_eqb x y && go xs ys
  | _, _ => false
  end.

Lemma expr_eqb_eq a b : expr_eqb a b = true <-> a = b.
Proof.
  assert (forall l, Forall (fun x => forall b, expr_eqb x b = true <-> x = b) l ->
    forall k, (fix go l k : bool :=
      match l, k with
      | [], [] => true
      | x :: l', y :: k' => expr_eqb x y && go l' k'
      | _, _ => false
      end) l k = true <-> l = k) as Hlist.
  { induction 1 as [|x l Hx _ IH]; intros [|y k]; try done.
    rewrite andb_true_iff, Hx, IH. naive_solver. }
  revert b. induction a using Expr_ind; intros []; simpl;
    try (split; [discriminate|intros [=]]);
    rewrite ?andb_true_iff, ?String.eqb_eq, ?bool_decide_eq_true;
    try rewrite Hlist by done;
    repeat match goal with IH : forall b, expr_eqb _ b = true <-> _ |- _ => rewrite IH; clear IH end;
    intuition congruence.
Qed.

(** ** Update actions *)

Inductive UpdateAction : Type :=
  | USet (path : list PathElement) (value : Expr)
  | URemove (path : list PathElement)
  | UAdd (path : list PathElement) (value : Expr)
  | UDelete (path : list PathElement) (value : Expr).

(** [UpdateAction::removes_only]. *)
Definition action_removes_only (a : UpdateAction) : bool :=
  match a with
  | URemove _ | UDelete _ _ => true
  | USet _ _ | UAdd _ _ => false
  end.

Definition removes_only (actions : list UpdateAction) : bool :=
  match actions with
  | [] => false
  | _ => forallb action_removes_only actions
  end.

(** ** Expression parameters *)

Inductive ExpressionKind : Type :=
  | KProjection | KCondition | KFilter | KKeyCondition | KUpdate.

(** [ExpressionKind::as_str]. *)
Definition kind_as_str (k : ExpressionKind) : string :=
  match k with
  | KProjection => "ProjectionExpression"
  | KCondition => "ConditionExpression"
  | KFilter => "FilterExpression"
  | KKeyCondition => "KeyConditionExpression"
  | KUpdate => "UpdateExpression"
  end.

Definition size_error_includes_length (k : ExpressionKind) : bool :=
  match k with
  | KFilter | KCondition => true
  | _ => false
  end.

(** ** Tokens *)

Inductive Token : Type :=
  | TokIdent (s : string)
  | TokNameRef (s : string)
  | TokPlaceholder (s : string)
  | TokEq | TokNe | TokLt | TokLe | TokGt | TokGe
  | TokPlus | TokMinus | TokComma | TokDot
  | TokLBracket | TokRBracket | TokLParen | TokRParen
  | TokAnd | TokOr | TokNot | TokBetween | TokIn
  | TokSet | TokRemove | TokAdd | TokDelete.

#[export] Instance Token_eq_dec : EqDecision Token.
Proof. solve_decision. Defined.
