(* ===== verification/Tokenizer.v ===== *)
(** * The expression tokenizer

    [crates/core/src/expression/tokenizer.rs].  The scanner walks the bytes of
    the expression by index; [tokenize_with_limit] and [tokenize_for] are the
    same scan with different error messages, so the scan takes the three error
    branches as arguments.  Slicing a [str] off a character boundary panics, so
    slices are partial here, and the theorems show the scan never makes one on
    valid UTF-8. *)

From S2P Require Import Prelude BTree Types Error Ast.

(** ** [str] slices *)

(** A UTF-8 continuation byte. *)
Definition is_cont (c : ascii) : bool := in_range 128 191 c.

(** [str::is_char_boundary]. *)
Definition is_char_boundary (input : list ascii) (i : nat) : bool :=
  (i =? 0) || (i =? length input) ||
  match input !! i with
  | Some c => negb (is_cont c)
  | None => false
  end.

(** [input[a..b]]. *)
Definition str_slice (input : list ascii) (a b : nat) : res (list ascii) :=
  if (a <=? b) && is_char_boundary input a && is_char_boundary input b
  then Ok (take (b - a) (drop a input))
  else Err Panic.

(** [char::len_utf8] of the character that starts with byte [c]. *)
Definition char_width (c : ascii) : nat :=
  if (byte c <? 192)%N then 1
  else if (byte c <? 224)%N then 2
  else if (byte c <? 240)%N then 3
  else 4.

(** The text of [rest.chars().next()]. *)
Definition first_char (rest : list ascii) : list ascii :=
  match rest with
  | c :: _ => take (char_width c) rest
  | [] => []
  end.

(** [b as char], as UTF-8 text. *)
Definition byte_as_char (c : ascii) : list ascii :=
  if (byte c <? 128)%N then [c]
  else [ascii_of_N (192 + byte c / 64); ascii_of_N (128 + byte c mod 64)].

(** [while !input.is_char_boundary(n) { n -= 1 }], and [+= 1]. *)
Fixpoint boundary_down (input : list ascii) (n : nat) : nat :=
  if is_char_boundary input n then n
  else match n with
       | O => O
       | S n' => boundary_down input n'
       end.

Fixpoint boundary_up (input : list ascii) (fuel n : nat) : nat :=
  if is_char_boundary input n then n
  else match fuel with
       | O => n
       | S f => boundary_up input f (S n)
       end.

(** ** Lexical classes *)

Definition is_space (c : ascii) : bool :=
  (byte c =? 32)%N || (byte c =? 9)%N || (byte c =? 10)%N || (byte c =? 13)%N.

Definition is_ident_start (c : ascii) : bool := is_alpha c || Ascii.eqb c "_".
Definition is_ident_char (c : ascii) : bool := is_alnum c || Ascii.eqb c "_".

Definition keyword_or_ident (word : string) : Token :=
  let upper := to_ascii_uppercase word in
  if String.eqb upper "AND" then TokAnd
  else if String.eqb upper "OR" then TokOr
  else if String.eqb upper "NOT" then TokNot
  else if String.eqb upper "SET" then TokSet
  else if String.eqb upper "REMOVE" then TokRemove
  else if String.eqb upper "BETWEEN" then TokBetween
  else if String.eqb upper "IN" then TokIn
  else if String.eqb upper "ADD" then TokAdd
  else if String.eqb upper "DELETE" then TokDelete
  else TokIdent word.

(** ** The scan *)

Definition push_token (tokens : list Token) (token : Token) (max_tokens : N)
    : res (list Token) :=
  if (max_tokens <=? N.of_nat (length tokens))%N
  then fail ("Expression exceeds maximum token count (" +:+ N_to_string max_tokens +:+ ")")
  else Ok (tokens ++ [token]).

Section Scan.
Variable bytes : list ascii.
Variable max_tokens : N.
(** The errors for [#] or [:] without a name and for any other byte. *)
Variables name_err placeholder_err : fault.
Variable other_err : nat -> ascii -> fault.

(** [while i < bytes.len() && p(bytes[i]) { i += 1 }]. *)
Definition scan_while (p : ascii -> bool) (i : nat) : nat :=
  i + length (take_while p (drop i bytes)).

(** [i + 1 < bytes.len() && bytes[i + 1] == c]. *)
Definition next_is (i : nat) (c : ascii) : bool :=
  match bytes !! (i + 1) with
  | Some d => Ascii.eqb d c
  | None => false
  end.

(** Push a token and continue at [i]. *)
Definition emit (tokens : list Token) (t : Token) (i : nat) : res (nat * list Token) :=
  let? tokens := push_token tokens t max_tokens in
  Ok (i, tokens).

(** Push the token that [mk] makes of [input[start..i]]. *)
Definition emit_word (tokens : list Token) (mk : string -> Token) (start i : nat)
    : res (nat * list Token) :=
  let? word := str_slice bytes start i in
  emit tokens (mk (of_bytes word)) i.

(** One iteration of the loop at index [i], where the byte is [c]. *)
Definition scan_step (i : nat) (c : ascii) (tokens : list Token) : res (nat * list Token) :=
  if is_space c then Ok (i + 1, tokens)
  else if Ascii.eqb c "(" then emit tokens TokLParen (i + 1)
  else if Ascii.eqb c ")" then emit tokens TokRParen (i + 1)
  else if Ascii.eqb c "[" then emit tokens TokLBracket (i + 1)
  else if Ascii.eqb c "]" then emit tokens TokRBracket (i + 1)
  else if Ascii.eqb c "," then emit tokens TokComma (i + 1)
  else if Ascii.eqb c "." then emit tokens TokDot (i + 1)
  else if Ascii.eqb c "+" then emit tokens TokPlus (i + 1)
  else if Ascii.eqb c "-" then emit tokens TokMinus (i + 1)
  else if Ascii.eqb c "=" then emit tokens TokEq (i + 1)
  else if Ascii.eqb c "<" then
    if next_is i ">" then emit tokens TokNe (i + 2)
    else if next_is i "=" then emit tokens TokLe (i + 2)
    else emit tokens TokLt (i + 1)
  else if Ascii.eqb c ">" then
    if next_is i "=" then emit tokens TokGe (i + 2)
    else emit tokens TokGt (i + 1)
  else if Ascii.eqb c "#" then
    let start := i + 1 in
    let i := scan_while is_ident_char start in
    if i =? start then Err name_err
    else emit_word tokens TokNameRef start i
  else if Ascii.eqb c ":" then
    let start := i + 1 in
    let i := scan_while is_ident_char start in
    if i =? start then Err placeholder_err
    else emit_word tokens TokPlaceholder start i
  else if is_ident_start c then
    emit_word tokens keyword_or_ident i (scan_while is_ident_char i)
  else if is_digit c then
    emit_word tokens TokIdent i (scan_while is_digit i)
  else Err (other_err i c).

(** [while i < bytes.len()]; each iteration advances, so the length of the
    input is fuel enough. *)
Fixpoint scan_loop (fuel : nat) (i : nat) (tokens : list Token) : res (list Token) :=
  match bytes !! i with
  | None => Ok tokens
  | Some c =>
      match fuel with
      | O => Err OutOfFuel
      | S fuel =>
          let? (i, tokens) := scan_step i c tokens in
          scan_loop fuel i tokens
      end
  end.

End Scan.

Definition quoted (l : list ascii) : string := dquote +:+ of_bytes l +:+ dquote.

Definition syntax_error (prefix : string) (ch near : list ascii) : fault :=
  Fail (ValidationException
    (prefix +:+ "Syntax error; token: " +:+ quoted ch +:+ ", near: " +:+ quoted near)).

Definition tokenize_with_limit (input : string) (max_tokens : N) : res (list Token) :=
  let bytes := as_bytes input in
  let name_err :=
    Fail (ValidationException "Invalid expression: empty name reference '#'") in
  let placeholder_err :=
    Fail (ValidationException "Invalid expression: empty value placeholder ':'") in
  let other_err i other :=
    let ch := if is_char_boundary bytes i then first_char (drop i bytes)
              else byte_as_char other in
    let near_start := boundary_down bytes (i - 5) in
    let near_end := boundary_up bytes (length bytes) (min (i + 5) (length bytes)) in
    match str_slice bytes near_start near_end with
    | Ok near => syntax_error "" ch near
    | Err e => e
    end in
  scan_loop bytes max_tokens name_err placeholder_err other_err (length bytes) 0 [].

Definition tokenize (input : string) : res (list Token) := tokenize_with_limit input 4096.

Definition tokenize_for (input : string) (max_tokens : N) (kind : ExpressionKind)
    : res (list Token) :=
  let prefix := "Invalid " +:+ kind_as_str kind +:+ ": " in
  if is_empty input then fail (prefix +:+ "The expression can not be empty;")
  else
    let bytes := as_bytes input in
    let name_err := syntax_error prefix ["#"%char] ["#"%char] in
    let placeholder_err := syntax_error prefix [":"%char] [":"%char] in
    let other_err i other :=
      match str_slice bytes i (length bytes) with
      | Err e => e
      | Ok rest =>
          let ch := match rest with [] => ["?"%char] | _ => first_char rest end in
          let near_end := min (i + length ch + 1) (length bytes) in
          let near_end := boundary_up bytes (length bytes) near_end in
          match str_slice bytes i near_end with
          | Ok near => syntax_error prefix ch near
          | Err e => e
          end
      end in
    scan_loop bytes max_tokens name_err placeholder_err other_err (length bytes) 0 [].

(** [token_display_text] of [update_parser.rs]. *)
Definition token_display_text (token : Token) : string :=
  match token with
  | TokIdent s => s
  | TokNameRef s => "#" +:+ s
  | TokPlaceholder s => ":" +:+ s
  | TokEq => "="
  | TokNe => "<>"
  | TokLt => "<"
  | TokLe => "<="
  | TokGt => ">"
  | TokGe => ">="
  | TokPlus => "+"
  | TokMinus => "-"
  | TokComma => ","
  | TokDot => "."
  | TokLBracket => "["
  | TokRBracket => "]"
  | TokLParen => "("
  | TokRParen => ")"
  | TokAnd => "AND"
  | TokOr => "OR"
  | TokNot => "NOT"
  | TokBetween => "BETWEEN"
  | TokIn => "IN"
  | TokSet => "SET"
  | TokRemove => "REMOVE"
  | TokAdd => "ADD"
  | TokDelete => "DELETE"
  end.

(** ** Facts on characters and words *)

Definition is_ascii (c : ascii) : bool := (byte c <? 128)%N.

(** A [str] is a sequence of characters, each a byte that starts one followed
    by the continuation bytes it announces. *)
Inductive utf8 : list ascii -> Prop :=
  | utf8_nil : utf8 []
  | utf8_char c cs l :
      is_cont c = false -> length cs = char_width c - 1 ->
      forallb is_cont cs = true -> utf8 l -> utf8 (c :: cs ++ l).

(** The tokens a scan can make. *)
Definition is_word (p : ascii -> bool) (s : string) : bool :=
  negb (is_empty s) && forallb p (as_bytes s).

Definition token_wf (t : Token) : bool :=
  match t with
  | TokIdent s =>
      is_word is_digit s ||
      (is_word is_ident_char s &&
       match s with String c _ => is_ident_start c | EmptyString => false end &&
       bool_decide (keyword_or_ident s = TokIdent s))
  | TokNameRef s | TokPlaceholder s => is_word is_ident_char s
  | _ => true
  end.

Lemma take_while_forallb {A : Type} (p : A -> bool) l : forallb p (take_while p l) = true.
Proof.
  induction l as [|x l IH]; simpl; [done|]. destruct (p x) eqn:E; simpl; by rewrite ?E.
Qed.

Lemma take_while_prefix {A : Type} (p : A -> bool) l :
  l = take_while p l ++ drop (length (take_while p l)) l.
Proof.
  induction l as [|x l IH]; simpl; [done|]. destruct (p x); simpl; [by f_equal|done].
Qed.

Lemma take_while_app {A : Type} (p : A -> bool) l k :
  forallb p l = true -> (match k with x :: _ => p x = false | [] => True end) ->
  take_while p (l ++ k) = l.
Proof.
  intros Hl Hk. induction l as [|x l IH]; simpl in *.
  - destruct k as [|x k]; simpl; [done|]. by rewrite Hk.
  - apply andb_true_iff in Hl as [-> Hl]. by rewrite IH.
Qed.

Lemma is_ascii_char_width c : is_ascii c = true -> char_width c = 1.
Proof.
  unfold is_ascii, char_width. rewrite N.ltb_lt. intros H.
  by rewrite (proj2 (N.ltb_lt _ _)) by lia.
Qed.

Lemma in_range_bound lo hi c : in_range lo hi c = true -> (lo <= byte c <= hi)%N.
Proof. unfold in_range. rewrite andb_true_iff, !N.leb_le. done. Qed.

Lemma eqb_ascii c d : Ascii.eqb c d = true -> is_ascii d = true -> is_ascii c = true.
Proof. by intros ->%Ascii.eqb_eq. Qed.

Lemma ident_char_ascii c : is_ident_char c = true -> is_ascii c = true.
Proof.
  unfold is_ident_char, is_alnum, is_alpha, is_upper, is_lower, is_digit, is_ascii.
  rewrite !orb_true_iff, N.ltb_lt.
  intros [[[H|H]|H]|H]; try (apply in_range_bound in H; lia).
  apply Ascii.eqb_eq in H as ->. done.
Qed.

Lemma digit_ident_char c : is_digit c = true -> is_ident_char c = true.
Proof. unfold is_ident_char, is_alnum. intros ->. by rewrite orb_true_r. Qed.

Lemma ident_start_char c : is_ident_start c = true -> is_ident_char c = true.
Proof.
  unfold is_ident_start, is_ident_char, is_alnum. rewrite !orb_true_iff. naive_solver.
Qed.

Lemma space_ascii c : is_space c = true -> is_ascii c = true.
Proof.
  unfold is_space, is_ascii. rewrite !orb_true_iff, !N.eqb_eq, N.ltb_lt. lia.
Qed.

Lemma utf8_head c l : utf8 (c :: l) -> is_cont c = false.
Proof. by inversion 1. Qed.

(** Positions reached by reading ASCII only are character boundaries. *)
Lemma utf8_ascii_boundary l i :
  utf8 l -> i <= length l -> forallb is_ascii (take i l) = true ->
  is_char_boundary l i = true.
Proof.
  intros Hu. revert i. induction Hu as [|c cs l Hc Hlen Hcs Hu IH]; intros i Hi Ha.
  { assert (i = 0) as -> by (simpl in Hi; lia). done. }
  destruct i as [|i]; [done|]. simpl in Ha. apply andb_true_iff in Ha as [Hac Ha].
  rewrite is_ascii_char_width in Hlen by done. destruct cs; [|simpl in Hlen; lia].
  simpl in *. specialize (IH i ltac:(lia) Ha). unfold is_char_boundary in *. simpl.
  destruct i as [|i]; [|exact IH]. destruct l as [|d l]; [done|]. simpl.
  by rewrite (utf8_head _ _ Hu).
Qed.

Lemma boundary_down_spec l n :
  is_char_boundary l (boundary_down l n) = true /\ boundary_down l n <= n.
Proof.
  induction n as [|n IH]; simpl; [done|].
  destruct (is_char_boundary l (S n)) eqn:E; [auto|]. destruct IH; auto.
Qed.

Lemma boundary_length l : is_char_boundary l (length l) = true.
Proof. unfold is_char_boundary. by rewrite Nat.eqb_refl, orb_true_r. Qed.

Lemma boundary_up_spec l fuel n :
  n <= length l -> length l <= n + fuel ->
  is_char_boundary l (boundary_up l fuel n) = true /\ n <= boundary_up l fuel n.
Proof.
  revert n. induction fuel as [|fuel IH]; intros n Hn Hf; simpl;
    (destruct (is_char_boundary l n) eqn:E; [auto|]).
  - exfalso. assert (n = length l) as -> by lia. by rewrite boundary_length in E.
  - assert (n <> length l) by (intros ->; by rewrite boundary_length in E).
    destruct (IH (S n)); [lia|lia|]. split; [done|lia].
Qed.

Lemma str_slice_Ok l a b :
  a <= b -> is_char_boundary l a = true -> is_char_boundary l b = true ->
  str_slice l a b = Ok (take (b - a) (drop a l)).
Proof. intros Hab Ha Hb. unfold str_slice. apply Nat.leb_le in Hab. by rewrite Hab, Ha, Hb. Qed.

(** ** What one iteration does *)

Section ScanFacts.
Variable bytes : list ascii.
Variable max_tokens : N.
Variables name_err placeholder_err : fault.
Variable other_err : nat -> ascii -> fault.

Notation step := (scan_step bytes max_tokens name_err placeholder_err other_err).
Notation loop := (scan_loop bytes max_tokens name_err placeholder_err other_err).

(** From index [i] to [i'], at least one byte is read, and only ASCII. *)
Definition consumes (i i' : nat) : Prop :=
  i < i' <= length bytes /\ forallb is_ascii (take (i' - i) (drop i bytes)) = true.

Definition pushes (tokens tokens' : list Token) : Prop :=
  tokens' = tokens \/
  exists t, token_wf t = true /\ tokens' = tokens ++ [t] /\
    (N.of_nat (length tokens) < max_tokens)%N.

Lemma emit_Ok tokens t i i' tokens' :
  emit max_tokens tokens t i = Ok (i', tokens') ->
  i' = i /\ tokens' = tokens ++ [t] /\ (N.of_nat (length tokens) < max_tokens)%N.
Proof.
  unfold emit, push_token. destruct (N.leb_spec max_tokens (N.of_nat (length tokens))); [done|].
  intros [= <- <-]. done.
Qed.

Lemma emit_returns tokens t i : returns (emit max_tokens tokens t i).
Proof. unfold emit, push_token. by destruct (_ <=? _)%N. Qed.

Lemma consumes_one i c : bytes !! i = Some c -> is_ascii c = true -> consumes i (i + 1).
Proof.
  intros Hi Hc. pose proof (lookup_lt_Some _ _ _ Hi). split; [lia|].
  replace (i + 1 - i) with 1 by lia. rewrite (drop_S _ _ _ Hi). simpl. by rewrite Hc.
Qed.

Lemma consumes_two i c d :
  bytes !! i = Some c -> is_ascii c = true -> next_is bytes i d = true -> is_ascii d = true ->
  consumes i (i + 2).
Proof.
  unfold next_is. intros Hi Hc Hn Hd. rewrite Nat.add_1_r in Hn.
  destruct (bytes !! S i) as [e|] eqn:He; [|done]. apply Ascii.eqb_eq in Hn as ->.
  pose proof (lookup_lt_Some _ _ _ He). split; [lia|].
  replace (i + 2 - i) with 2 by lia. rewrite (drop_S _ _ _ Hi), (drop_S _ _ _ He). simpl.
  by rewrite Hc, Hd.
Qed.

Lemma scan_while_le p i : i <= length bytes -> i <= scan_while bytes p i <= length bytes.
Proof.
  intros Hi. unfold scan_while. pose proof (take_while_prefix p (drop i bytes)) as E.
  apply (f_equal length) in E. rewrite length_app, !length_drop in E. lia.
Qed.

Lemma scan_while_slice p i :
  take (scan_while bytes p i - i) (drop i bytes) = take_while p (drop i bytes).
Proof.
  unfold scan_while. replace (_ + _ - i) with (length (take_while p (drop i bytes))) by lia.
  rewrite (take_while_prefix p (drop i bytes)) at 2. by rewrite take_app_length.
Qed.

Lemma scan_while_ascii p i :
  (forall c, p c = true -> is_ascii c = true) ->
  forallb is_ascii (take (scan_while bytes p i - i) (drop i bytes)) = true.
Proof.
  intros Hp. rewrite scan_while_slice. eapply forallb_impl, take_while_forallb. exact Hp.
Qed.

Lemma ascii_split i j k :
  i <= j <= k -> forallb is_ascii (take (j - i) (drop i bytes)) = true ->
  forallb is_ascii (take (k - j) (drop j bytes)) = true ->
  forallb is_ascii (take (k - i) (drop i bytes)) = true.
Proof.
  intros Hijk H1 H2.
  assert (take (k - i) (drop i bytes)
          = take (j - i) (drop i bytes) ++ take (k - j) (drop j bytes)) as ->.
  { replace (k - i) with ((j - i) + (k - j)) by lia. rewrite <- take_take_drop.
    rewrite drop_drop. do 3 f_equal. lia. }
  by rewrite forallb_app, H1, H2.
Qed.

Lemma emit_word_Ok tokens mk p start i' tokens' :
  emit_word bytes max_tokens tokens mk start (scan_while bytes p start) = Ok (i', tokens') ->
  i' = scan_while bytes p start /\
  tokens' = tokens ++ [mk (of_bytes (take_while p (drop start bytes)))] /\
  (N.of_nat (length tokens) < max_tokens)%N.
Proof.
  unfold emit_word, str_slice. destruct (_ && _); [|done].
  rewrite scan_while_slice. apply emit_Ok.
Qed.

Lemma word_nonempty p start :
  scan_while bytes p start <> start ->
  is_word p (of_bytes (take_while p (drop start bytes))) = true.
Proof.
  unfold scan_while, is_word. intros Hne. rewrite as_bytes_of_bytes, take_while_forallb.
  by destruct (take_while p (drop start bytes)); [simpl in Hne; lia|].
Qed.

Lemma scan_while_start p i c :
  bytes !! i = Some c -> p c = true -> scan_while bytes p i <> i.
Proof.
  intros Hi Hp. unfold scan_while. rewrite (drop_S _ _ _ Hi). simpl. rewrite Hp. simpl. lia.
Qed.

Lemma keyword_wf s :
  is_word is_ident_char s = true ->
  match s with String c _ => is_ident_start c | EmptyString => false end = true ->
  token_wf (keyword_or_ident s) = true.
Proof.
  intros Hw Hs. destruct (keyword_or_ident s) eqn:E; try done;
    unfold keyword_or_ident in E;
    repeat match type of E with context [if ?b then _ else _] => destruct b eqn:? end;
    try done.
  injection E as <-. unfold token_wf. rewrite Hw, Hs. simpl.
  apply orb_true_iff. right. apply bool_decide_eq_true_2. unfold keyword_or_ident.
  repeat match goal with H : String.eqb _ _ = false |- _ => rewrite H; clear H end. done.
Qed.

Lemma scan_step_Ok i c tokens i' tokens' :
  bytes !! i = Some c -> step i c tokens = Ok (i', tokens') ->
  consumes i i' /\ pushes tokens tokens'.
Proof.
  intros Hi. pose proof (lookup_lt_Some _ _ _ Hi) as Hlt. unfold scan_step.
  destruct (is_space c) eqn:Es.
  { intros [= <- <-]. split; [|by left]. eapply consumes_one, space_ascii; eauto. }
  assert (forall t j, token_wf t = true -> consumes i j ->
    emit max_tokens tokens t j = Ok (i', tokens') -> consumes i i' /\ pushes tokens tokens')
    as Hemit.
  { intros t j Ht Hj (-> & -> & Hm)%emit_Ok. split; [done|]. right. by exists t. }
  repeat lazymatch goal with
  | |- (if Ascii.eqb c ?d then emit _ _ _ _ else _) = _ -> _ =>
      let E := fresh in destruct (Ascii.eqb c d) eqn:E;
      [apply Hemit; [done|]; eapply consumes_one, eqb_ascii; eauto|]
  end.
  destruct (Ascii.eqb c "<") eqn:E1.
  { pose proof (eqb_ascii _ _ E1 eq_refl).
    destruct (next_is bytes i ">") eqn:E2; [|destruct (next_is bytes i "=") eqn:E3];
      apply Hemit; eauto using consumes_one, consumes_two. }
  destruct (Ascii.eqb c ">") eqn:E2.
  { pose proof (eqb_ascii _ _ E2 eq_refl).
    destruct (next_is bytes i "=") eqn:E3; apply Hemit; eauto using consumes_one, consumes_two. }
  assert (forall mk, is_ascii c = true -> 
    (forall s, is_word is_ident_char s = true -> token_wf (mk s) = true) ->
    scan_while bytes is_ident_char (i + 1) <> i + 1 ->
    emit_word bytes max_tokens tokens mk (i + 1) (scan_while bytes is_ident_char (i + 1))
      = Ok (i', tokens') -> consumes i i' /\ pushes tokens tokens') as Href.
  { intros mk Hc Hmk Hne (-> & -> & Hm)%emit_word_Ok. split.
    - destruct (scan_while_le is_ident_char (i + 1) ltac:(lia)). split; [lia|].
      eapply (ascii_split i (i + 1)); [lia| |apply scan_while_ascii, ident_char_ascii].
      by eapply consumes_one.
    - right. eexists. split; [|done]. apply Hmk. by apply word_nonempty. }
  destruct (Ascii.eqb c "#") eqn:E3.
  { destruct (Nat.eqb_spec (scan_while bytes is_ident_char (i + 1)) (i + 1)); [done|].
    apply Href; eauto using eqb_ascii. }
  destruct (Ascii.eqb c ":") eqn:E4.
  { destruct (Nat.eqb_spec (scan_while bytes is_ident_char (i + 1)) (i + 1)); [done|].
    apply Href; eauto using eqb_ascii. }
  assert (forall p, (forall d, p d = true -> is_ascii d = true) -> p c = true ->
    consumes i (scan_while bytes p i)) as Hcons.
  { intros p Hp Hpc. pose proof (scan_while_start p i c Hi Hpc).
    destruct (scan_while_le p i ltac:(lia)). split; [lia|]. by apply scan_while_ascii. }
  destruct (is_ident_start c) eqn:E5; [|destruct (is_digit c) eqn:E6; [|done]];
    intros (-> & -> & Hm)%emit_word_Ok.
  - split; [eauto using ident_char_ascii, ident_start_char|]. right. eexists. split; [|done].
    apply keyword_wf.
    + eapply word_nonempty, scan_while_start; eauto using ident_start_char.
    + rewrite (drop_S _ _ _ Hi). simpl. by rewrite (ident_start_char _ E5).
  - split; [eauto using ident_char_ascii, digit_ident_char|]. right. eexists. split; [|done].
    simpl. rewrite word_nonempty; [done|]. by eapply scan_while_start.
Qed.

(** The bytes before [i] are ASCII. *)
Definition read_ascii (i : nat) : Prop :=
  i <= length bytes /\ forallb is_ascii (take i bytes) = true.

Lemma read_ascii_consumes i i' : read_ascii i -> consumes i i' -> read_ascii i'.
Proof.
  intros [Hi Ha] [Hc Hca]. split; [lia|].
  pose proof (ascii_split 0 i i' ltac:(lia)) as H. rewrite !Nat.sub_0_r, drop_0 in H. auto.
Qed.

Lemma scan_loop_Ok fuel i tokens ts :
  loop fuel i tokens = Ok ts -> read_ascii i ->
  Forall (fun t => token_wf t = true) tokens -> (N.of_nat (length tokens) <= max_tokens)%N ->
  forallb is_ascii bytes = true /\ Forall (fun t => token_wf t = true) ts /\
  (N.of_nat (length ts) <= max_tokens)%N.
Proof.
  revert i tokens. induction fuel as [|fuel IH]; intros i tokens; simpl;
    (destruct (bytes !! i) as [c|] eqn:Hi; [|intros [= <-] [_ Ha] Hw Hl;
       apply lookup_ge_None in Hi; by rewrite take_ge in Ha]); [done|].
  destruct (step i c tokens) as [[i' tokens']|] eqn:Es; [|done].
  intros Hloop Hr Hw Hl. destruct (scan_step_Ok _ _ _ _ _ Hi Es) as [Hc Hp].
  apply (IH _ _ Hloop); [by eapply read_ascii_consumes|..];
    destruct Hp as [->|(t & Ht & -> & Hlt)]; try done.
  - apply Forall_app_2; [done|]. by constructor.
  - rewrite length_app. simpl. lia.
Qed.

Hypothesis Hutf8 : utf8 bytes.
Hypothesis Hname : @returns unit (Err name_err).
Hypothesis Hplaceholder : @returns unit (Err placeholder_err).
Hypothesis Hother : forall i c,
  bytes !! i = Some c -> read_ascii i -> @returns unit (Err (other_err i c)).

Lemma emit_word_returns tokens mk p start :
  read_ascii start -> (forall c, p c = true -> is_ascii c = true) ->
  returns (emit_word bytes max_tokens tokens mk start (scan_while bytes p start)).
Proof.
  intros Hr Hp. unfold emit_word. destruct (scan_while_le p start (proj1 Hr)).
  rewrite str_slice_Ok; [apply emit_returns|lia| |].
  - apply utf8_ascii_boundary; [done|apply Hr..].
  - destruct (decide (scan_while bytes p start = start)) as [->|Hne].
    + apply utf8_ascii_boundary; [done|apply Hr..].
    + assert (consumes start (scan_while bytes p start)) as Hc.
      { split; [lia|]. by apply scan_while_ascii. }
      apply utf8_ascii_boundary; [done|by apply (read_ascii_consumes start)..].
Qed.

Lemma scan_step_returns i c tokens :
  bytes !! i = Some c -> read_ascii i -> returns (step i c tokens).
Proof.
  intros Hi Hr. unfold scan_step. destruct (is_space c); [done|].
  assert (is_ascii c = true -> read_ascii (i + 1)) as Hr1.
  { intros Hc. eapply read_ascii_consumes, consumes_one; eauto. }
  repeat lazymatch goal with
  | |- returns (if Ascii.eqb c ?d then emit _ _ _ _ else _) =>
      destruct (Ascii.eqb c d); [apply emit_returns|]
  end.
  destruct (Ascii.eqb c "<").
  { destruct (next_is bytes i ">"); [|destruct (next_is bytes i "=")]; apply emit_returns. }
  destruct (Ascii.eqb c ">").
  { destruct (next_is bytes i "="); apply emit_returns. }
  destruct (Ascii.eqb c "#") eqn:E1.
  { destruct (_ =? _); [exact Hname|].
    apply emit_word_returns; eauto using eqb_ascii, ident_char_ascii. }
  destruct (Ascii.eqb c ":") eqn:E2.
  { destruct (_ =? _); [exact Hplaceholder|].
    apply emit_word_returns; eauto using eqb_ascii, ident_char_ascii. }
  destruct (is_ident_start c).
  { apply emit_word_returns; eauto using ident_char_ascii. }
  destruct (is_digit c).
  { apply emit_word_returns; eauto using ident_char_ascii, digit_ident_char. }
  by apply Hother.
Qed.

(** The loop ends within [length bytes] iterations, without a panic. *)
Lemma scan_loop_returns fuel i tokens :
  read_ascii i -> length bytes <= i + fuel -> returns (loop fuel i tokens).
Proof.
  revert i tokens. induction fuel as [|fuel IH]; intros i tokens Hr Hf; simpl;
    (destruct (bytes !! i) as [c|] eqn:Hi; [|done]).
  { apply lookup_lt_Some in Hi. lia. }
  pose proof (scan_step_returns i c tokens Hi Hr) as Hs.
  destruct (step i c tokens) as [[i' tokens']|e] eqn:Es; [|by destruct e].
  destruct (scan_step_Ok _ _ _ _ _ Hi Es) as [Hc _].
  apply IH; [by eapply read_ascii_consumes|]. destruct Hc. lia.
Qed.

End ScanFacts.

Lemma syntax_error_returns prefix ch near : @returns unit (Err (syntax_error prefix ch near)).
Proof. done. Qed.

Lemma read_ascii_0 bytes : read_ascii bytes 0.
Proof. split; [lia|done]. Qed.

Lemma tokenize_with_limit_returns input max_tokens :
  utf8 (as_bytes input) -> returns (tokenize_with_limit input max_tokens).
Proof.
  intros Hu. unfold tokenize_with_limit. apply scan_loop_returns; [done..| |apply read_ascii_0|lia].
  intros i c Hi [Hl Ha].
  destruct (boundary_down_spec (as_bytes input) (i - 5)) as [Hb1 Hb2].
  destruct (boundary_up_spec (as_bytes input) (length (as_bytes input))
    (min (i + 5) (length (as_bytes input)))) as [Hb3 Hb4]; [lia|lia|].
  rewrite str_slice_Ok by (done || lia). done.
Qed.

Lemma tokenize_for_returns input max_tokens kind :
  utf8 (as_bytes input) -> returns (tokenize_for input max_tokens kind).
Proof.
  intros Hu. unfold tokenize_for. destruct (is_empty input); [done|].
  apply scan_loop_returns; [done..| |apply read_ascii_0|lia].
  intros i c Hi [Hl Ha].
  assert (is_char_boundary (as_bytes input) i = true) as Hb by (by apply utf8_ascii_boundary).
  rewrite str_slice_Ok by (done || apply boundary_length).
  set (ch := match take _ _ with [] => _ | _ => _ end).
  destruct (boundary_up_spec (as_bytes input) (length (as_bytes input))
    (min (i + length ch + 1) (length (as_bytes input)))) as [Hb3 Hb4]; [lia|lia|].
  rewrite str_slice_Ok by (done || lia). done.
Qed.

(** ** Printing tokens and reading them back *)

Definition print_tokens (ts : list Token) : string := join " " (map token_display_text ts).

Definition token_bytes (t : Token) : list ascii := as_bytes (token_display_text t).

Lemma print_tokens_cons t ts :
  as_bytes (print_tokens (t :: ts)) =
  token_bytes t ++ match ts with [] => [] | _ => " "%char :: as_bytes (print_tokens ts) end.
Proof.
  unfold print_tokens, token_bytes. destruct ts as [|t' ts].
  - simpl. by rewrite app_nil_r.
  - change (join " " (map token_display_text (t :: t' :: ts)))
      with (token_display_text t +:+ " " +:+ join " " (map token_display_text (t' :: ts))).
    by rewrite !as_bytes_app.
Qed.

Lemma ascii_utf8 l : forallb is_ascii l = true -> utf8 l.
Proof.
  induction l as [|c l IH]; simpl; [constructor|]. rewrite andb_true_iff. intros [Hc Hl].
  apply (utf8_char c [] l); auto.
  - unfold is_ascii in Hc. apply N.ltb_lt in Hc. unfold is_cont, in_range.
    destruct (N.leb_spec 128 (byte c)); [lia|done].
  - by rewrite is_ascii_char_width.
Qed.

Lemma is_word_spec p s : is_word p s = true -> as_bytes s <> [] /\ forallb p (as_bytes s) = true.
Proof. unfold is_word. rewrite andb_true_iff. by destruct s; intros []. Qed.

Lemma word_ascii p s :
  (forall c, p c = true -> is_ascii c = true) -> is_word p s = true ->
  forallb is_ascii (as_bytes s) = true.
Proof. intros Hp [_ Hs]%is_word_spec. by eapply forallb_impl. Qed.

Lemma token_bytes_ascii t : token_wf t = true -> forallb is_ascii (token_bytes t) = true.
Proof.
  unfold token_bytes. destruct t; try (intros; reflexivity); simpl token_wf.
  - rewrite orb_true_iff, !andb_true_iff. intros [Hw|[[Hw _] _]];
      (eapply word_ascii; [|exact Hw]); eauto using digit_ident_char, ident_char_ascii.
  - intros Hw. change (forallb is_ascii (as_bytes s) = true).
    eapply word_ascii; [apply ident_char_ascii|exact Hw].
  - intros Hw. change (forallb is_ascii (as_bytes s) = true).
    eapply word_ascii; [apply ident_char_ascii|exact Hw].
Qed.

Lemma print_tokens_ascii ts :
  Forall (fun t => token_wf t = true) ts -> forallb is_ascii (as_bytes (print_tokens ts)) = true.
Proof.
  induction 1 as [|t ts Ht Hts IH]; [done|].
  rewrite print_tokens_cons, forallb_app, token_bytes_ascii by done.
  destruct ts; [done|exact IH].
Qed.

(** What may follow a token: the end of the input or a space. *)
Definition ends (suf : list ascii) : Prop :=
  match suf with
  | [] => True
  | c :: _ => c = " "%char
  end.

Section ScanTokens.
Variable bytes : list ascii.
Variable max_tokens : N.
Variables name_err placeholder_err : fault.
Variable other_err : nat -> ascii -> fault.
Hypothesis Hascii : forallb is_ascii bytes = true.

Notation step := (scan_step bytes max_tokens name_err placeholder_err other_err).
Notation loop := (scan_loop bytes max_tokens name_err placeholder_err other_err).

Lemma all_read_ascii i : i <= length bytes -> read_ascii bytes i.
Proof.
  intros Hi. split; [done|]. rewrite <- (take_drop i bytes), forallb_app in Hascii.
  by apply andb_true_iff in Hascii as [? _].
Qed.

Lemma emit_Ok_iff tokens t i :
  (N.of_nat (length tokens) < max_tokens)%N ->
  emit max_tokens tokens t i = Ok (i, tokens ++ [t]).
Proof. intros H. unfold emit, push_token. by rewrite (proj2 (N.leb_gt _ _)) by lia. Qed.

(** A word [w] of the class [p] between [pre] and the end or a space. *)
Lemma emit_word_eq tokens mk p pre w suf :
  bytes = pre ++ w ++ suf -> forallb p w = true -> ends suf ->
  p " "%char = false -> (forall c, p c = true -> is_ascii c = true) ->
  (N.of_nat (length tokens) < max_tokens)%N ->
  scan_while bytes p (length pre) = length pre + length w /\
  emit_word bytes max_tokens tokens mk (length pre) (scan_while bytes p (length pre))
  = Ok (length pre + length w, tokens ++ [mk (of_bytes w)]).
Proof.
  intros Hb Hw Hsuf Hsp Hp Hlt.
  assert (take_while p (drop (length pre) bytes) = w) as Ht.
  { rewrite Hb, drop_app_length. apply take_while_app; [done|].
    destruct suf; simpl in Hsuf; by subst. }
  assert (scan_while bytes p (length pre) = length pre + length w) as Hs.
  { unfold scan_while. by rewrite Ht. }
  assert (length pre <= length bytes) by (rewrite Hb, length_app; lia).
  pose proof (emit_word_returns bytes max_tokens (ascii_utf8 _ Hascii) tokens mk p
    (length pre) (all_read_ascii _ H) Hp) as Hr.
  split; [done|]. unfold emit_word in *.
  destruct (str_slice _ _ _) as [word|[]] eqn:Esl; try done.
  - unfold str_slice in Esl. destruct (_ && _); [|done]. injection Esl as <-.
    rewrite scan_while_slice, Ht, Hs. by apply emit_Ok_iff.
  - unfold str_slice in Esl. by destruct (_ && _).
Qed.

Lemma lookup_pre pre c rest : bytes = pre ++ c :: rest -> bytes !! length pre = Some c.
Proof. intros ->. by rewrite lookup_app_r, Nat.sub_diag by lia. Qed.

Lemma next_is_pre pre c rest d :
  bytes = pre ++ c :: rest ->
  next_is bytes (length pre) d = match rest with e :: _ => Ascii.eqb e d | [] => false end.
Proof.
  intros ->. unfold next_is. rewrite lookup_app_r by lia.
  replace (length pre + 1 - length pre) with 1 by lia. simpl. by destruct rest.
Qed.

Lemma not_punct c :
  is_ident_char c = true ->
  is_space c = false /\
  forallb (fun d => negb (Ascii.eqb c d))
    ["("; ")"; "["; "]"; ","; "."; "+"; "-"; "="; "<"; ">"; "#"; ":"]%char = true.
Proof. destruct c as [[] [] [] [] [] [] [] []]; vm_compute; by intros. Qed.

(** Evaluate the tests of [scan_step] on a known byte. *)
Ltac eval_tests :=
  unfold scan_step;
  repeat match goal with
  | |- context [is_space ?a] =>
      let v := eval vm_compute in (is_space a) in change (is_space a) with v
  | |- context [Ascii.eqb ?a ?b] =>
      let v := eval vm_compute in (Ascii.eqb a b) in
      match v with true => idtac | false => idtac end; change (Ascii.eqb a b) with v
  | |- context [is_ident_start ?a] =>
      let v := eval vm_compute in (is_ident_start a) in
      match v with true => idtac | false => idtac end; change (is_ident_start a) with v
  end; cbv iota beta zeta.

Lemma ident_char_space : is_ident_char " "%char = false.
Proof. done. Qed.

(** The scan of a word that starts with an identifier character. *)
Lemma scan_step_word tokens c p pre w suf t :
  bytes = pre ++ w ++ suf -> w = c :: tail w -> ends suf -> forallb p w = true ->
  (forall d, p d = true -> is_ident_char d = true) ->
  (N.of_nat (length tokens) < max_tokens)%N ->
  (is_ident_start c = true /\ p = is_ident_char /\ t = keyword_or_ident (of_bytes w)) \/
  (is_ident_start c = false /\ p = is_digit /\ t = TokIdent (of_bytes w)) ->
  step (length pre) c tokens = Ok (length pre + length w, tokens ++ [t]).
Proof.
  intros Hb Hc Hsuf Hw Hp Hlt Ht.
  assert (p c = true) as Hpc by (rewrite Hc in Hw; simpl in Hw; by apply andb_true_iff in Hw as [? _]).
  destruct (not_punct c (Hp _ Hpc)) as [Hsp Hpun]. simpl in Hpun.
  rewrite !andb_true_iff, !negb_true_iff in Hpun.
  destruct Hpun as (H1 & H2 & H3 & H4 & H5 & H6 & H7 & H8 & H9 & H10 & H11 & H12 & H13 & _).
  unfold scan_step. rewrite Hsp, H1, H2, H3, H4, H5, H6, H7, H8, H9, H10, H11, H12, H13.
  assert (p " "%char = false) as Hps.
  { destruct (p " "%char) eqn:E; [|done]. apply Hp in E. by rewrite ident_char_space in E. }
  assert (forall mk, emit_word bytes max_tokens tokens mk (length pre)
    (scan_while bytes p (length pre)) = Ok (length pre + length w, tokens ++ [mk (of_bytes w)]))
    as He.
  { intros mk. eapply emit_word_eq; eauto using ident_char_ascii. }
  destruct Ht as [(-> & -> & ->)|(-> & -> & ->)]; [apply He|]. rewrite Hpc. apply He.
Qed.

(** The scan of [#name] or [:name]. *)
Lemma scan_step_ref tokens c mk pre w suf :
  (c = "#"%char /\ mk = TokNameRef) \/ (c = ":"%char /\ mk = TokPlaceholder) ->
  bytes = pre ++ (c :: w) ++ suf -> w <> [] -> ends suf -> forallb is_ident_char w = true ->
  (N.of_nat (length tokens) < max_tokens)%N ->
  step (length pre) c tokens = Ok (length pre + S (length w), tokens ++ [mk (of_bytes w)]).
Proof.
  intros Hc Hb Hne Hsuf Hw Hlt.
  destruct (emit_word_eq tokens mk is_ident_char (pre ++ [c]) w suf) as [Hs He];
    eauto using ident_char_ascii, ident_char_space.
  { rewrite Hb, <- app_assoc. done. }
  rewrite length_app in Hs, He. simpl in Hs, He.
  assert ((length pre + 1 + length w =? length pre + 1) = false) as Hneq.
  { apply Nat.eqb_neq. destruct w; [done|simpl; lia]. }
  destruct Hc as [[-> ->]|[-> ->]]; eval_tests; rewrite He, Hs, Hneq; do 2 f_equal; lia.
Qed.

Lemma ident_token_cases s :
  token_wf (TokIdent s) = true ->
  exists c p, as_bytes s = c :: tail (as_bytes s) /\ forallb p (as_bytes s) = true /\
    (forall d, p d = true -> is_ident_char d = true) /\
    ((is_ident_start c = true /\ p = is_ident_char /\ TokIdent s = keyword_or_ident s) \/
     (is_ident_start c = false /\ p = is_digit /\ TokIdent s = TokIdent s)).
Proof.
  simpl. rewrite orb_true_iff, !andb_true_iff, bool_decide_eq_true.
  destruct s as [|c s]; [by intros [H|[[H _] _]]|]. intros [Hw|[[Hw Hs] Hk]].
  - apply is_word_spec in Hw as [_ Hw]. exists c, is_digit. split; [done|]. split; [done|].
    split; [apply digit_ident_char|]. right. split; [|done].
    apply andb_true_iff in Hw as [Hc _]. apply is_digit_bound in Hc.
    unfold is_ident_start, is_alpha, is_upper, is_lower, in_range.
    destruct (Ascii.eqb_spec c "_") as [->|_]; [vm_compute in Hc; by destruct Hc|].
    destruct (N.leb_spec 65 (byte c)), (N.leb_spec 97 (byte c)); simpl; lia || done.
  - apply is_word_spec in Hw as [_ Hw]. exists c, is_ident_char. auto 10.
Qed.

(** A keyword is the word of its text. *)
Lemma scan_step_keyword tokens t pre suf :
  keyword_or_ident (token_display_text t) = t ->
  is_word is_ident_char (token_display_text t) = true ->
  match token_bytes t with c :: _ => is_ident_start c | [] => false end = true ->
  bytes = pre ++ token_bytes t ++ suf -> ends suf -> (N.of_nat (length tokens) < max_tokens)%N ->
  exists c, bytes !! length pre = Some c /\
    step (length pre) c tokens = Ok (length pre + length (token_bytes t), tokens ++ [t]).
Proof.
  intros Hk Hw Hc Hb Hsuf Hlt. apply is_word_spec in Hw as [_ Hw]. fold (token_bytes t) in Hw.
  destruct (token_bytes t) as [|c w] eqn:E; [done|]. exists c. split.
  - by eapply (lookup_pre pre c (w ++ suf)).
  - eapply (scan_step_word _ _ is_ident_char); eauto.
    left. split; [done|]. split; [done|]. unfold token_bytes in E. by rewrite <- E, of_bytes_as_bytes.
Qed.

Lemma scan_step_token tokens t pre suf :
  token_wf t = true -> bytes = pre ++ token_bytes t ++ suf -> ends suf ->
  (N.of_nat (length tokens) < max_tokens)%N ->
  exists c, bytes !! length pre = Some c /\
    step (length pre) c tokens = Ok (length pre + length (token_bytes t), tokens ++ [t]).
Proof.
  intros Hwf Hb Hsuf Hlt.
  assert (forall c w, token_bytes t = c :: w -> bytes !! length pre = Some c) as Hl.
  { intros c w E. rewrite E in Hb. by eapply (lookup_pre pre c (w ++ suf)). }
  assert (forall c w d, token_bytes t = c :: w -> next_is bytes (length pre) d =
    match w ++ suf with e :: _ => Ascii.eqb e d | [] => false end) as Hn.
  { intros c w d E. rewrite E in Hb. by eapply (next_is_pre pre c (w ++ suf)). }
  assert (forall d, Ascii.eqb " " d = false ->
    match suf with e :: _ => Ascii.eqb e d | [] => false end = false) as Hend.
  { intros d Hd. destruct suf as [|e suf]; [done|]. simpl in Hsuf. by subst. }
  destruct t;
    try (eapply scan_step_keyword;
         [reflexivity|reflexivity|reflexivity|exact Hb|exact Hsuf|exact Hlt]);
    try (eexists; split; [by eapply Hl|]; eval_tests; rewrite ?(Hn _ _ _ eq_refl); simpl;
         rewrite ?Hend by done; by apply emit_Ok_iff).
  - destruct (ident_token_cases s Hwf) as (c & p & Hc & Hp & Hpi & Hcase).
    exists c. split; [by eapply Hl|]. eapply scan_step_word; eauto.
    change (token_bytes (TokIdent s)) with (as_bytes s). by rewrite of_bytes_as_bytes.
  - apply is_word_spec in Hwf as [Hne Hw]. exists "#"%char. split; [by eapply Hl|].
    rewrite <- (of_bytes_as_bytes s) at 2. eapply scan_step_ref; eauto.
  - apply is_word_spec in Hwf as [Hne Hw]. exists ":"%char. split; [by eapply Hl|].
    rewrite <- (of_bytes_as_bytes s) at 2. eapply scan_step_ref; eauto.
Qed.

Lemma scan_step_space tokens i :
  step i " "%char tokens = Ok (i + 1, tokens).
Proof. done. Qed.

Lemma loop_end fuel tokens : loop fuel (length bytes) tokens = Ok tokens.
Proof. destruct fuel; simpl; by rewrite lookup_ge_None_2. Qed.

Lemma scan_loop_tokens fuel pre tokens ts :
  Forall (fun t => token_wf t = true) ts ->
  bytes = pre ++ as_bytes (print_tokens ts) ->
  (N.of_nat (length tokens + length ts) <= max_tokens)%N ->
  2 * length ts <= S fuel ->
  loop fuel (length pre) tokens = Ok (tokens ++ ts).
Proof.
  intros Hts. revert fuel pre tokens.
  induction Hts as [|t ts Ht Hts IH]; intros fuel pre tokens Hb Hm Hf.
  { rewrite app_nil_r in Hb. rewrite <- Hb, app_nil_r. apply loop_end. }
  destruct fuel as [|fuel]; [simpl in Hf; lia|]. rewrite print_tokens_cons in Hb.
  simpl length in *.
  edestruct (scan_step_token tokens t pre) as (c & Hc & Hs); [done|exact Hb| |lia|].
  { by destruct ts. }
  simpl. rewrite Hc, Hs. destruct ts as [|t' ts].
  - rewrite app_nil_r in Hb. rewrite <- length_app, <- Hb. apply loop_end.
  - destruct fuel as [|fuel]; [simpl in Hf; lia|]. simpl.
    set (rest := as_bytes (print_tokens (t' :: ts))) in *.
    assert (bytes !! (length pre + length (token_bytes t)) = Some " "%char) as ->.
    { rewrite Hb, app_assoc, <- length_app. by apply list_lookup_middle. }
    rewrite scan_step_space.
    replace (length pre + length (token_bytes t) + 1)
      with (length (pre ++ token_bytes t ++ [" "%char])) by (rewrite !length_app; simpl; lia).
    rewrite IH; [by rewrite <- app_assoc| | |simpl in *; lia].
    + rewrite Hb. by rewrite <- !app_assoc.
    + rewrite length_app. simpl in *. lia.
Qed.
End ScanTokens.

Lemma print_tokens_length ts :
  Forall (fun t => token_wf t = true) ts ->
  2 * length ts <= S (length (as_bytes (print_tokens ts))).
Proof.
  induction 1 as [|t ts Ht Hts IH]; [simpl; lia|].
  assert (1 <= length (token_bytes t)).
  { unfold token_bytes. rewrite length_as_bytes.
    destruct t as [[]| | | | | | | | | | | | | | | | | | | | | | | | |]; try done; simpl; lia. }
  rewrite print_tokens_cons, length_app. destruct ts; simpl in *; lia.
Qed.

(** ** Theorems *)

Lemma scan_print_tokens name_err placeholder_err other_err max_tokens ts :
  Forall (fun t => token_wf t = true) ts -> (N.of_nat (length ts) <= max_tokens)%N ->
  let bytes := as_bytes (print_tokens ts) in
  scan_loop bytes max_tokens name_err placeholder_err other_err (length bytes) 0 [] = Ok ts.
Proof.
  intros Hts Hlen bytes.
  apply (scan_loop_tokens bytes max_tokens name_err placeholder_err other_err
    (print_tokens_ascii _ Hts) (length bytes) [] [] ts); [done|done|done|].
  by apply print_tokens_length.
Qed.

Lemma tokenize_with_limit_Ok input max_tokens ts :
  tokenize_with_limit input max_tokens = Ok ts ->
  forallb is_ascii (as_bytes input) = true /\ Forall (fun t => token_wf t = true) ts /\
  (N.of_nat (length ts) <= max_tokens)%N.
Proof.
  intros H. eapply scan_loop_Ok; [exact H|apply read_ascii_0|done|simpl; lia].
Qed.

Lemma tokenize_for_Ok input max_tokens kind ts :
  tokenize_for input max_tokens kind = Ok ts ->
  forallb is_ascii (as_bytes input) = true /\ Forall (fun t => token_wf t = true) ts /\
  (N.of_nat (length ts) <= max_tokens)%N.
Proof.
  unfold tokenize_for. destruct (is_empty input); [done|].
  intros H. eapply scan_loop_Ok; [exact H|apply read_ascii_0|done|simpl; lia].
Qed.

(** Tokenizing a Rust string always returns: no slice is taken off a character
    boundary and the loop ends, with either set of error messages. *)
Theorem tokenize_no_panic input max_tokens kind :
  utf8 (as_bytes input) ->
  returns (tokenize_with_limit input max_tokens) /\ returns (tokenize_for input max_tokens kind).
Proof. intros H. split; [by apply tokenize_with_limit_returns|by apply tokenize_for_returns]. Qed.

Lemma tokenize_no_panic_witness :
  returns (tokenize_with_limit (of_bytes ["a"; " "; "195"; "169"]%char) 4096).
Proof.
  apply (tokenize_no_panic (of_bytes ["a"; " "; "195"; "169"]%char) 4096 KFilter).
  rewrite as_bytes_of_bytes. apply (utf8_char "a" [] [" "; "195"; "169"]%char); try done.
  apply (utf8_char " " [] ["195"; "169"]%char); try done.
  apply (utf8_char "195" ["169"%char] []); try done. constructor.
Defined.

(** What a successful scan returns: the input was ASCII, every token is one the
    grammar can spell, there are at most [max_tokens] of them, and printing them
    separated by spaces and scanning again gives the same tokens. *)
Theorem tokenize_sound input max_tokens kind ts :
  tokenize_for input max_tokens kind = Ok ts ->
  forallb is_ascii (as_bytes input) = true /\ Forall (fun t => token_wf t = true) ts /\
  (N.of_nat (length ts) <= max_tokens)%N /\
  tokenize_with_limit (print_tokens ts) max_tokens = Ok ts.
Proof.
  intros (Ha & Hw & Hl)%tokenize_for_Ok. repeat split; [done..|].
  unfold tokenize_with_limit. by apply scan_print_tokens.
Qed.

Lemma tokenize_sound_witness :
  tokenize_with_limit "a <= :v" 4096 = Ok [TokIdent "a"; TokLe; TokPlaceholder "v"].
Proof.
  apply (tokenize_sound "a<=:v" 4096 KCondition [TokIdent "a"; TokLe; TokPlaceholder "v"]).
  vm_compute. reflexivity.
Defined.

(** Printing then scanning: any sequence of well-formed tokens within the limit
    is what the scan of its text returns. *)
Theorem tokenize_print ts max_tokens :
  Forall (fun t => token_wf t = true) ts -> (N.of_nat (length ts) <= max_tokens)%N ->
  tokenize_with_limit (print_tokens ts) max_tokens = Ok ts.
Proof. intros Hw Hl. unfold tokenize_with_limit. by apply scan_print_tokens. Qed.

Lemma tokenize_print_witness :
  tokenize_with_limit "SET a [ 0 ] = :v" 7 = Ok
    [TokSet; TokIdent "a"; TokLBracket; TokIdent "0"; TokRBracket; TokEq; TokPlaceholder "v"].
Proof.
  apply (tokenize_print
    [TokSet; TokIdent "a"; TokLBracket; TokIdent "0"; TokRBracket; TokEq; TokPlaceholder "v"] 7).
  - repeat constructor.
  - vm_compute. discriminate.
Defined.

(** ** The two tokenizers *)

(** The errors of a scan do not change what it reads. *)
Lemma scan_loop_errors bytes max n1 p1 o1 n2 p2 o2 fuel : forall i tokens ts,
  scan_loop bytes max n1 p1 o1 fuel i tokens = Ok ts -> scan_loop bytes max n2 p2 o2 fuel i tokens = Ok ts.
Proof.
  induction fuel as [|fuel IH]; intros i tokens ts; simpl; destruct (bytes !! i) as [c|]; try done.
  assert (forall r, scan_step bytes max n1 p1 o1 i c tokens = Ok r -> scan_step bytes max n2 p2 o2 i c tokens = Ok r)
    as Hstep.
  { intros r. unfold scan_step. repeat (case_match; try done). }
  destruct (scan_step bytes max n1 p1 o1 i c tokens) as [[i' tokens']|] eqn:E; [|done].
  rewrite (Hstep _ eq_refl). apply IH.
Qed.

Lemma tokenizers_agree input max_tokens kind ts :
  tokenize_for input max_tokens kind = Ok ts -> tokenize_with_limit input max_tokens = Ok ts.
Proof. unfold tokenize_for. destruct (is_empty input); [done|]. apply scan_loop_errors. Qed.
