(* ===== verification/ParserCommon.v ===== *)
(** * Shared parsing utilities

    [crates/core/src/expression/parser_common.rs].  The parsers of the
    expression language walk the token slice by a position they pass by mutable
    reference; here a parser takes the position and returns the new one. *)

From S2P Require Import Prelude BTree Types Error Ast Tokenizer.

Section Tokens.
Variable tokens : list Token.

(** [parser_common::validation_err]. *)
Definition path_err {A : Type} (msg : string) : res A := fail ("Invalid expression: " +:+ msg).

Definition expect_token (pos : nat) (expected : Token) (label context : string) : res nat :=
  match tokens !! pos with
  | Some t =>
      if bool_decide (t = expected) then Ok (pos + 1)
      else fail ("Invalid " +:+ context +:+ ": expected '" +:+ label +:+ "'")
  | None => fail ("Invalid " +:+ context +:+ ": expected '" +:+ label +:+ "'")
  end.

(** [pos < tokens.len() && tokens[pos] == t]. *)
Definition at_token (pos : nat) (t : Token) : bool := bool_decide (tokens !! pos = Some t).

(** The loop of [parse_path]. *)
Fixpoint path_loop (fuel : nat) (elements : list PathElement) (pos : nat)
    : res (list PathElement * nat) :=
  match fuel with
  | O => Err OutOfFuel
  | S fuel =>
      match tokens !! pos with
      | Some TokDot =>
          match tokens !! (pos + 1) with
          | Some (TokIdent name) => path_loop fuel (elements ++ [PAttr name]) (pos + 2)
          | Some (TokNameRef name) =>
              path_loop fuel (elements ++ [PAttr ("#" +:+ name)]) (pos + 2)
          | _ => path_err "expected attribute name after '.'"
          end
      | Some TokLBracket =>
          match tokens !! (pos + 1) with
          | Some (TokIdent idx_str) =>
              match parse_usize idx_str with
              | Some idx =>
                  let? pos := expect_token (pos + 2) TokRBracket "]" "expression" in
                  path_loop fuel (elements ++ [PIndex idx]) pos
              | None => path_err "expected numeric index in brackets"
              end
          | _ => path_err "expected numeric index in brackets"
          end
      | _ => Ok (elements, pos)
      end
  end.

(** Every iteration consumes two tokens or more. *)
Definition parse_path (pos : nat) : res (list PathElement * nat) :=
  match tokens !! pos with
  | Some (TokIdent name) => path_loop (length tokens) [PAttr name] (pos + 1)
  | Some (TokNameRef name) => path_loop (length tokens) [PAttr ("#" +:+ name)] (pos + 1)
  | _ => path_err "expected attribute name"
  end.

(** [while pos < tokens.len() && tokens[pos] == Comma { pos += 1; acc.push(p(..)?) }],
    the tail of every comma-separated list. *)
Fixpoint comma_loop {A : Type} (p : nat -> res (A * nat)) (fuel : nat) (acc : list A) (pos : nat)
    : res (list A * nat) :=
  match fuel with
  | O => Err OutOfFuel
  | S fuel =>
      if at_token pos TokComma then
        let? (x, pos) := p (pos + 1) in
        comma_loop p fuel (acc ++ [x]) pos
      else Ok (acc, pos)
  end.

End Tokens.

(** ** Redundant parentheses *)

(** The loop of [check_redundant_parens]: [stack] has the flag of each open
    parenthesis, the innermost first, and [prev] is the token before. *)
Fixpoint redundant_loop (stack : list bool) (prev : option Token) (tokens : list Token)
    : result string unit :=
  match tokens with
  | [] => Ok tt
  | token :: rest =>
      match token with
      | TokLParen =>
          redundant_loop (bool_decide (prev = Some TokLParen) :: stack) (Some token) rest
      | TokRParen =>
          let '(popped, stack) :=
            match stack with
            | b :: stack' => (Some b, stack')
            | [] => (None, [])
            end in
          if bool_decide (popped = Some true) && bool_decide (head rest = Some TokRParen)
          then Err "The expression has redundant parentheses;"
          else redundant_loop stack (Some token) rest
      | _ => redundant_loop stack (Some token) rest
      end
  end.

Definition check_redundant_parens (tokens : list Token) : result string unit :=
  redundant_loop [] None tokens.

(** ** What [check_redundant_parens] decides *)

Definition is_paren (t : Token) : bool :=
  match t with
  | TokLParen | TokRParen => true
  | _ => false
  end.

Inductive balanced : list Token -> Prop :=
  | balanced_nil : balanced []
  | balanced_tok t l : is_paren t = false -> balanced l -> balanced (t :: l)
  | balanced_group l k : balanced l -> balanced k ->
      balanced (TokLParen :: l ++ TokRParen :: k).

(** A parenthesised group whose entire content is a parenthesised group. *)
Definition redundant (tokens : list Token) : Prop :=
  exists pre g post, balanced g /\
    tokens = pre ++ TokLParen :: TokLParen :: g ++ TokRParen :: TokRParen :: post.

Lemma balanced_app l k : balanced l -> balanced k -> balanced (l ++ k).
Proof.
  intros Hl Hk. induction Hl as [|t l Ht Hl IH|l m Hl IHl Hm IHm]; simpl; [done|..].
  - by constructor.
  - rewrite <- app_assoc. simpl. by constructor.
Qed.

(** The stack after reading [l]: one more token on the right. *)
Definition stack_step (prev : option Token) (stack : list bool) (t : Token) : list bool :=
  match t with
  | TokLParen => bool_decide (prev = Some TokLParen) :: stack
  | TokRParen => tail stack
  | _ => stack
  end.

Fixpoint stack_run (prev : option Token) (stack : list bool) (l : list Token) : list bool :=
  match l with
  | [] => stack
  | t :: l' => stack_run (Some t) (stack_step prev stack t) l'
  end.

Fixpoint last_or (prev : option Token) (l : list Token) : option Token :=
  match l with
  | [] => prev
  | t :: l' => last_or (Some t) l'
  end.

Lemma last_or_snoc prev l t : last_or prev (l ++ [t]) = Some t.
Proof. revert prev. induction l; intros prev; simpl; auto. Qed.

Lemma stack_run_app prev stack l k :
  stack_run prev stack (l ++ k) = stack_run (last_or prev l) (stack_run prev stack l) k.
Proof.
  revert prev stack. induction l as [|t l IH]; intros prev stack; [done|]. simpl. by rewrite IH.
Qed.

Lemma stack_step_tok prev stack t : is_paren t = false -> stack_step prev stack t = stack.
Proof. by destruct t. Qed.

Lemma stack_run_balanced prev stack g : balanced g -> stack_run prev stack g = stack.
Proof.
  intros Hg. revert prev stack.
  induction Hg as [|t l Ht Hl IH|l k Hl IHl Hk IHk]; intros prev stack; [done|..]; simpl.
  - by rewrite IH, stack_step_tok.
  - rewrite stack_run_app, IHl. simpl. apply IHk.
Qed.

(** The flag on top of the stack belongs to the innermost open parenthesis. *)
Lemma stack_run_top l b s :
  stack_run None [] l = b :: s ->
  exists p g, l = p ++ TokLParen :: g /\ balanced g /\
    b = bool_decide (last_or None p = Some TokLParen) /\ stack_run None [] p = s.
Proof.
  remember (length l) as n eqn:Hn. revert l Hn b s.
  induction (lt_wf n) as [n _ IH]. intros l -> b s.
  destruct l as [|t l _] using rev_ind; [done|].
  rewrite stack_run_app. simpl. destruct (is_paren t) eqn:Et.
  - destruct t; try discriminate Et; simpl; intros E.
    + injection E as <- <-. exists l, []. repeat split. constructor.
    + destruct (stack_run None [] l) as [|b' s'] eqn:El; [done|]. simpl in E. subst s'.
      destruct (IH (length l) ltac:(rewrite length_app; simpl; lia) l eq_refl _ _ El)
        as (p & g & -> & Hg & _ & Hp).
      destruct (IH (length p) ltac:(rewrite !length_app; simpl; lia) p eq_refl _ _ Hp)
        as (p2 & g2 & -> & Hg2 & Hb & Hp2).
      exists p2, (g2 ++ TokLParen :: g ++ [TokRParen]). repeat split; [|..|done|done].
      * by rewrite <- !app_assoc.
      * apply balanced_app; [done|]. apply balanced_group; [done|constructor].
  - intros E. rewrite stack_step_tok in E by done.
    destruct (IH (length l) ltac:(rewrite length_app; simpl; lia) l eq_refl _ _ E)
      as (p & g & -> & Hg & Hb & Hp).
    exists p, (g ++ [t]). repeat split; [|..|done|done].
    + by rewrite <- app_assoc.
    + apply balanced_app; [done|]. constructor; [done|constructor].
Qed.

Lemma redundant_loop_step prev stack t rest :
  redundant_loop stack prev (t :: rest) =
  if bool_decide (t = TokRParen) && bool_decide (head stack = Some true)
     && bool_decide (head rest = Some TokRParen)
  then Err "The expression has redundant parentheses;"
  else redundant_loop (stack_step prev stack t) (Some t) rest.
Proof. destruct t; try done. by destruct stack as [|[] stack]. Qed.

Lemma redundant_loop_spec l : forall pre,
  redundant_loop (stack_run None [] pre) (last_or None pre) l = Ok tt <->
  forall p q, l = p ++ TokRParen :: TokRParen :: q ->
    head (stack_run None [] (pre ++ p)) <> Some true.
Proof.
  induction l as [|t l IH]; intros pre.
  { split; [|done]. intros _ p q E. by destruct p. }
  rewrite redundant_loop_step.
  assert (stack_step (last_or None pre) (stack_run None [] pre) t
          = stack_run None [] (pre ++ [t])) as -> by (by rewrite stack_run_app).
  rewrite <- (last_or_snoc None pre t).
  case_bool_decide as H1; [case_bool_decide as H2; [case_bool_decide as H3|]|]; simpl.
  - split; [done|]. intros H. destruct l as [|t' l]; [done|]. injection H3 as ->. subst t.
    exfalso. apply (H [] l eq_refl). by rewrite app_nil_r.
  - rewrite IH. split; intros H p q E.
    + destruct p as [|t' p]; injection E as Et E.
      * by rewrite E in H3.
      * subst t'. specialize (H p q E). by rewrite <- app_assoc in H.
    + rewrite <- app_assoc. apply (H (t :: p) q). by rewrite E.
  - rewrite IH. split; intros H p q E.
    + destruct p as [|t' p]; [by rewrite app_nil_r|]. injection E as <- E.
      specialize (H p q E). by rewrite <- app_assoc in H.
    + rewrite <- app_assoc. apply (H (t :: p) q). by rewrite E.
  - rewrite IH. split; intros H p q E.
    + destruct p as [|t' p]; injection E as Et E; [done|]. subst t'.
      specialize (H p q E). by rewrite <- app_assoc in H.
    + rewrite <- app_assoc. apply (H (t :: p) q). by rewrite E.
Qed.

Lemma check_redundant_parens_iff tokens :
  check_redundant_parens tokens = Ok tt <-> ~ redundant tokens.
Proof.
  unfold check_redundant_parens. rewrite (redundant_loop_spec tokens []). split.
  - intros H (pre & g & post & Hg & ->).
    apply (H (pre ++ TokLParen :: TokLParen :: g) post).
    + by rewrite <- app_assoc.
    + simpl. rewrite stack_run_app. simpl. rewrite (stack_run_balanced _ _ g) by done. done.
  - intros H p q -> E. simpl in E.
    destruct (stack_run None [] p) as [|b s] eqn:Ep; [done|]. injection E as ->.
    destruct (stack_run_top _ _ _ Ep) as (p' & g & -> & Hg & Hb & _).
    symmetry in Hb. apply bool_decide_eq_true in Hb.
    destruct p' as [|t p' _] using rev_ind; [done|]. rewrite last_or_snoc in Hb.
    injection Hb as ->. apply H. exists p', g, q. split; [done|]. by rewrite <- !app_assoc.
Qed.

(** The single-pass stack check decides the declarative notion: it refuses a
    token sequence exactly when some parenthesised group has a single
    parenthesised group as its entire content. *)
Theorem check_redundant_parens_spec tokens :
  check_redundant_parens tokens = Ok tt <-> ~ redundant tokens.
Proof. apply check_redundant_parens_iff. Qed.

(** ** Paths against their grammar *)

Inductive g_attr : Token -> string -> Prop :=
  | g_ident name : g_attr (TokIdent name) name
  | g_name_ref name : g_attr (TokNameRef name) ("#" +:+ name).

Inductive g_steps : list Token -> list PathElement -> Prop :=
  | g_steps_nil : g_steps [] []
  | g_steps_dot t name ts p :
      g_attr t name -> g_steps ts p -> g_steps (TokDot :: t :: ts) (PAttr name :: p)
  | g_steps_index s i ts p :
      parse_usize s = Some i -> g_steps ts p ->
      g_steps (TokLBracket :: TokIdent s :: TokRBracket :: ts) (PIndex i :: p).

Inductive g_path : list Token -> list PathElement -> Prop :=
  | g_path_intro t name ts p : g_attr t name -> g_steps ts p -> g_path (t :: ts) (PAttr name :: p).

(** No path goes on with this token. *)
Definition path_stop (o : option Token) : bool :=
  match o with
  | Some TokDot | Some TokLBracket => false
  | _ => true
  end.

Section Spans.
Variable tokens : list Token.

(** The tokens from [pos] up to [pos'] are [ts]. *)
Definition span (pos pos' : nat) (ts : list Token) : Prop :=
  drop pos tokens = ts ++ drop pos' tokens /\ pos' = pos + length ts.

Lemma span_nil pos : span pos pos [].
Proof. split; [done|simpl; lia]. Qed.

Lemma span_cons pos pos' t ts :
  span pos pos' (t :: ts) <-> tokens !! pos = Some t /\ span (pos + 1) pos' ts.
Proof.
  rewrite Nat.add_1_r. split.
  - intros [Hd ->]. simpl in *.
    assert (tokens !! pos = Some t) as Ht.
    { rewrite <- (Nat.add_0_r pos), <- lookup_drop, Hd. done. }
    split; [done|]. split; [|simpl; lia]. rewrite (drop_S _ _ _ Ht) in Hd. by injection Hd.
  - intros [Ht [Hd ->]]. split; [|simpl; lia]. rewrite (drop_S _ _ _ Ht), Hd. done.
Qed.

Lemma span_nil_inv pos pos' : span pos pos' [] -> pos' = pos.
Proof. intros [_ ->]. simpl. lia. Qed.

Lemma span_app pos pos' ts1 ts2 :
  span pos pos' (ts1 ++ ts2) <-> exists m, span pos m ts1 /\ span m pos' ts2.
Proof.
  revert pos. induction ts1 as [|t ts1 IH]; intros pos; simpl.
  - split; [intros H; exists pos; split; [apply span_nil|done]|].
    by intros (m & ->%span_nil_inv & H).
  - setoid_rewrite span_cons. rewrite IH. naive_solver.
Qed.

Lemma span_one pos t : tokens !! pos = Some t -> span pos (pos + 1) [t].
Proof. intros H. apply span_cons. split; [done|apply span_nil]. Qed.

Lemma span_length pos pos' ts : span pos pos' ts -> pos' = pos + length ts.
Proof. by intros [_ ->]. Qed.

Lemma span_le pos pos' ts : span pos pos' ts -> pos <= length tokens -> pos' <= length tokens.
Proof.
  intros [Hd ->] Hp. apply (f_equal length) in Hd. rewrite length_app, !length_drop in Hd. lia.
Qed.

Lemma span_all ts : span 0 (length tokens) ts <-> ts = tokens.
Proof.
  split.
  - intros [Hd _]. rewrite drop_0, drop_all, app_nil_r in Hd. done.
  - intros ->. split; [|done]. by rewrite drop_0, drop_all, app_nil_r.
Qed.

Lemma at_token_true pos t : at_token tokens pos t = true <-> tokens !! pos = Some t.
Proof. apply bool_decide_eq_true. Qed.

Lemma at_token_false pos t : at_token tokens pos t = false <-> tokens !! pos <> Some t.
Proof. apply bool_decide_eq_false. Qed.

Lemma expect_token_Ok pos t label ctx pos' :
  expect_token tokens pos t label ctx = Ok pos' <-> tokens !! pos = Some t /\ pos' = pos + 1.
Proof.
  unfold expect_token. destruct (tokens !! pos) as [u|]; [case_bool_decide|]; naive_solver.
Qed.

Lemma expect_token_returns pos t label ctx : returns (expect_token tokens pos t label ctx).
Proof. unfold expect_token. destruct (tokens !! pos); [case_bool_decide|]; done. Qed.

Lemma path_loop_sound fuel elements pos p pos' :
  path_loop tokens fuel elements pos = Ok (p, pos') ->
  exists ts q, p = elements ++ q /\ span pos pos' ts /\ g_steps ts q /\
    path_stop (tokens !! pos') = true.
Proof.
  revert elements pos. induction fuel as [|fuel IH]; intros elements pos; [done|]. simpl.
  assert (path_stop (tokens !! pos) = true -> Ok (elements, pos) = Ok (E := fault) (p, pos') ->
    exists ts q, p = elements ++ q /\ span pos pos' ts /\ g_steps ts q /\
      path_stop (tokens !! pos') = true) as Hend.
  { intros Hs [= <- <-]. exists [], []. rewrite app_nil_r.
    split; [done|]. split; [apply span_nil|]. split; [constructor|done]. }
  assert (forall x rest ts1, span pos rest ts1 ->
    (forall ts q, g_steps ts q -> g_steps (ts1 ++ ts) (x :: q)) ->
    path_loop tokens fuel (elements ++ [x]) rest = Ok (p, pos') ->
    exists ts q, p = elements ++ q /\ span pos pos' ts /\ g_steps ts q /\
      path_stop (tokens !! pos') = true) as Hgo.
  { intros x rest ts1 Hs Hg (ts & q & -> & Hts & Hq & Hstop)%IH.
    exists (ts1 ++ ts), (x :: q). rewrite <- app_assoc. split; [done|].
    split; [apply span_app; eauto|]. auto. }
  destruct (tokens !! pos) as [[]|] eqn:Ht; try (by apply Hend).
  - destruct (tokens !! (pos + 1)) as [[]|] eqn:Ht1; try done;
      replace (pos + 2) with (pos + 1 + 1) by lia;
      (eapply Hgo; [apply span_cons; split; [exact Ht|]; by apply span_one|]);
      intros; by repeat constructor.
  - destruct (tokens !! (pos + 1)) as [[]|] eqn:Ht1; try done.
    destruct (parse_usize s) as [idx|] eqn:Ei; [|done].
    destruct (expect_token _ _ _ _ _) as [pos2|] eqn:Ee; [|done].
    apply expect_token_Ok in Ee as [Ht2 ->]. replace (pos + 2) with (pos + 1 + 1) in * by lia.
    eapply Hgo; [apply span_cons; split; [exact Ht|]; apply span_cons; split; [exact Ht1|];
      by apply span_one|]. intros. by constructor.
Qed.

Lemma path_loop_returns fuel elements pos :
  pos <= length tokens -> length tokens < pos + 2 * fuel ->
  returns (path_loop tokens fuel elements pos).
Proof.
  revert elements pos. induction fuel as [|fuel IH]; intros elements pos Hp Hf; [lia|].
  simpl. destruct (tokens !! pos) as [[]|] eqn:Ht; try done.
  - destruct (tokens !! (pos + 1)) as [[]|] eqn:Ht1; try done;
      apply lookup_lt_Some in Ht1; apply IH; lia.
  - destruct (tokens !! (pos + 1)) as [[]|] eqn:Ht1; try done.
    destruct (parse_usize s) as [idx|]; [|done].
    pose proof (expect_token_returns (pos + 2) TokRBracket "]" "expression") as Hr.
    destruct (expect_token _ _ _ _ _) as [pos2|[]] eqn:Ee; try done.
    apply expect_token_Ok in Ee as [Ht2%lookup_lt_Some ->]. apply IH; lia.
Qed.

Lemma path_loop_complete fuel elements pos pos' ts q :
  span pos pos' ts -> g_steps ts q -> path_stop (tokens !! pos') = true -> length ts < 2 * fuel ->
  path_loop tokens fuel elements pos = Ok (elements ++ q, pos').
Proof.
  intros Hs Hg Hstop. revert fuel elements pos Hs.
  induction Hg as [|t name ts p Ha Hg IH|s i ts p Hi Hg IH]; intros fuel elements pos Hs Hf;
    (destruct fuel as [|fuel]; [simpl in Hf; lia|]); simpl.
  - apply span_nil_inv in Hs as ->. rewrite app_nil_r.
    by destruct (tokens !! pos) as [[]|].
  - apply span_cons in Hs as [-> Hs]. apply span_cons in Hs as [Ht Hs]. rewrite Ht.
    replace (pos + 1 + 1) with (pos + 2) in Hs by lia. simpl in Hf.
    destruct Ha; (rewrite IH; [by rewrite <- app_assoc|done|lia]).
  - apply span_cons in Hs as [-> Hs]. apply span_cons in Hs as [-> Hs]. rewrite Hi.
    apply span_cons in Hs as [Ht Hs]. replace (pos + 1 + 1) with (pos + 2) in * by lia.
    rewrite (proj2 (expect_token_Ok _ _ _ _ _) (conj Ht eq_refl)). simpl in Hf.
    rewrite IH; [by rewrite <- app_assoc|done|lia].
Qed.

Lemma parse_path_sound pos p pos' :
  parse_path tokens pos = Ok (p, pos') ->
  exists ts, span pos pos' ts /\ g_path ts p /\ path_stop (tokens !! pos') = true.
Proof.
  unfold parse_path. destruct (tokens !! pos) as [[]|] eqn:Ht; try done;
    intros (ts & q & -> & Hs & Hg & Hstop)%path_loop_sound; eexists (_ :: ts);
    (split; [by apply span_cons|]); (split; [|done]); by repeat constructor.
Qed.

Lemma parse_path_complete pos pos' ts p :
  span pos pos' ts -> g_path ts p -> path_stop (tokens !! pos') = true ->
  parse_path tokens pos = Ok (p, pos').
Proof.
  intros Hs Hg Hstop. destruct Hg as [t name ts p Ha Hg].
  apply span_cons in Hs as [Ht Hs]. unfold parse_path. rewrite Ht.
  pose proof (lookup_lt_Some _ _ _ Ht). pose proof (span_le _ _ _ Hs ltac:(lia)).
  pose proof (span_length _ _ _ Hs).
  destruct Ha; (erewrite path_loop_complete; [done|exact Hs|exact Hg|done|lia]).
Qed.

Lemma parse_path_returns pos : returns (parse_path tokens pos).
Proof.
  unfold parse_path. destruct (tokens !! pos) as [[]|] eqn:Ht; try done;
    apply lookup_lt_Some in Ht; apply path_loop_returns; lia.
Qed.

(** A path takes at least one token. *)
Lemma parse_path_advances pos p pos' : parse_path tokens pos = Ok (p, pos') -> pos < pos'.
Proof.
  intros (ts & Hs & Hg & _)%parse_path_sound. destruct Hg.
  apply span_length in Hs. simpl in Hs. lia.
Qed.
End Spans.

(** ** Comma-separated lists *)

(** The tail of a list of [R]: a comma before each element. *)
Inductive g_commas {A : Type} (R : list Token -> A -> Prop) : list Token -> list A -> Prop :=
  | g_commas_nil : g_commas R [] []
  | g_commas_cons t x ts xs :
      R t x -> g_commas R ts xs -> g_commas R (TokComma :: t ++ ts) (x :: xs).

Definition g_list {A : Type} (R : list Token -> A -> Prop) (ts : list Token) (xs : list A) : Prop :=
  exists t x ts' xs', ts = t ++ ts' /\ xs = x :: xs' /\ R t x /\ g_commas R ts' xs'.

Section CommaLoop.
Context {A : Type}.
Variable tokens : list Token.
Variable p : nat -> res (A * nat).
Variable R : list Token -> A -> Prop.

Lemma comma_loop_sound fuel acc pos l pos' :
  (forall pos x pos', p pos = Ok (x, pos') -> exists ts, span tokens pos pos' ts /\ R ts x) ->
  comma_loop tokens p fuel acc pos = Ok (l, pos') ->
  exists ts xs, l = acc ++ xs /\ span tokens pos pos' ts /\ g_commas R ts xs.
Proof.
  intros Hp. revert acc pos. induction fuel as [|fuel IH]; intros acc pos; [done|]. simpl.
  destruct (at_token tokens pos TokComma) eqn:Hc.
  - apply at_token_true in Hc. destruct (p (pos + 1)) as [[x pos1]|] eqn:Ep; [|done].
    intros (ts & xs & -> & Hs & Hg)%IH. apply Hp in Ep as (t & Ht & Hx).
    exists (TokComma :: t ++ ts), (x :: xs). rewrite <- app_assoc. split; [done|].
    split; [|by constructor]. apply span_cons. split; [done|]. apply span_app. eauto.
  - intros [= <- <-]. exists [], []. rewrite app_nil_r.
    split; [done|]. split; [apply span_nil|constructor].
Qed.

Lemma comma_loop_complete n stop fuel acc pos pos' ts xs :
  (forall t x pos pos', length t <= n -> R t x -> span tokens pos pos' t ->
     stop (tokens !! pos') = true -> p pos = Ok (x, pos')) ->
  stop (Some TokComma) = true -> stop (tokens !! pos') = true ->
  tokens !! pos' <> Some TokComma ->
  g_commas R ts xs -> span tokens pos pos' ts -> length ts <= n -> length ts < fuel ->
  comma_loop tokens p fuel acc pos = Ok (acc ++ xs, pos').
Proof.
  intros Hp Hsc Hs Hnc Hg. revert fuel acc pos.
  induction Hg as [|t x ts xs Hx Hg IH]; intros fuel acc pos Hspan Hn Hf;
    (destruct fuel as [|fuel]; [lia|]); simpl.
  - apply span_nil_inv in Hspan as ->. rewrite app_nil_r.
    by rewrite (proj2 (at_token_false _ _ _)).
  - apply span_cons in Hspan as [Hc Hspan]. rewrite (proj2 (at_token_true _ _ _) Hc).
    apply span_app in Hspan as (m & Hm & Hspan).
    simpl in Hn, Hf. rewrite length_app in Hn, Hf.
    assert (stop (tokens !! m) = true) as Hsm.
    { destruct Hg; [by apply span_nil_inv in Hspan as ->|].
      by apply span_cons in Hspan as [-> _]. }
    rewrite (Hp t x _ _ ltac:(lia) Hx Hm Hsm).
    rewrite IH; [by rewrite <- app_assoc|done|lia|lia].
Qed.

Lemma comma_loop_returns fuel acc pos :
  (forall pos', pos < pos' -> returns (p pos')) ->
  (forall pos x pos', p pos = Ok (x, pos') -> pos < pos') ->
  0 < fuel -> length tokens < pos + fuel -> returns (comma_loop tokens p fuel acc pos).
Proof.
  intros Hr Ha. revert acc pos Hr. induction fuel as [|fuel IH]; intros acc pos Hr Hf Hl; [lia|].
  simpl. destruct (at_token tokens pos TokComma) eqn:Hc; [|done].
  apply at_token_true, lookup_lt_Some in Hc.
  pose proof (Hr (pos + 1) ltac:(lia)) as H1.
  destruct (p (pos + 1)) as [[x pos1]|[]] eqn:Ep; try done.
  apply Ha in Ep. apply IH; [|lia|lia]. intros pos' Hlt. apply Hr. lia.
Qed.

Lemma comma_loop_advances fuel acc pos l pos' :
  (forall pos x pos', p pos = Ok (x, pos') -> pos < pos') ->
  comma_loop tokens p fuel acc pos = Ok (l, pos') -> pos <= pos'.
Proof.
  intros Ha. revert acc pos. induction fuel as [|fuel IH]; intros acc pos; [done|]. simpl.
  destruct (at_token tokens pos TokComma); [|by intros [= _ <-]].
  destruct (p (pos + 1)) as [[x pos1]|] eqn:Ep; [|done].
  intros H1%IH. apply Ha in Ep. lia.
Qed.
End CommaLoop.

#[global] Arguments comma_loop : simpl never.
