(* ===== verification/ConditionParser.v ===== *)
(** * The condition parser

    [crates/core/src/expression/parser.rs]: a recursive-descent parser with a
    nesting limit.  The Rust functions recurse through each other and through
    loops, so the model carries fuel; [cond_fuel] is enough for any input.  The
    theorems compare the parser with the grammar of its header comment. *)

From S2P Require Import Prelude BTree Types Error Ast Tokenizer ParserCommon.

Definition try_comparator (token : Token) : option CompareOp :=
  match token with
  | TokEq => Some CEq
  | TokNe => Some CNe
  | TokLt => Some CLt
  | TokLe => Some CLe
  | TokGt => Some CGt
  | TokGe => Some CGe
  | _ => None
  end.

Definition is_function_name (name : string) : bool :=
  String.eqb name "attribute_exists" || String.eqb name "attribute_not_exists" ||
  String.eqb name "attribute_type" || String.eqb name "begins_with" ||
  String.eqb name "contains".

Section Parser.
Variable tokens : list Token.

Fixpoint parse_operand (fuel : nat) (pos : nat) : res (Expr * nat) :=
  match fuel with
  | O => Err OutOfFuel
  | S fuel =>
      match tokens !! pos with
      | None => fail "Invalid ConditionExpression: expected operand"
      | Some (TokPlaceholder name) => Ok (EPlaceholder name, pos + 1)
      | Some (TokIdent name) =>
          if eq_ignore_ascii_case name "size" && at_token tokens (pos + 1) TokLParen
          then parse_function_call fuel pos
          else
            let? (elements, pos) := parse_path tokens pos in
            Ok (EPath elements, pos)
      | Some (TokNameRef _) =>
          let? (elements, pos) := parse_path tokens pos in
          Ok (EPath elements, pos)
      | Some _ =>
          fail "Invalid ConditionExpression: expected attribute path or value placeholder"
      end
  end

with parse_function_call (fuel : nat) (pos : nat) : res (Expr * nat) :=
  match fuel with
  | O => Err OutOfFuel
  | S fuel =>
      match tokens !! pos with
      | None => Err Panic
      | Some (TokIdent n) =>
          let name := to_ascii_lowercase n in
          let? pos := expect_token tokens (pos + 1) TokLParen "(" "ConditionExpression" in
          let? (args, pos) :=
            if (pos <? length tokens) && negb (at_token tokens pos TokRParen) then
              let? (arg, pos) := parse_operand fuel pos in
              comma_loop tokens (parse_operand fuel) (S (length tokens)) [arg] pos
            else Ok ([], pos) in
          let? pos := expect_token tokens pos TokRParen ")" "ConditionExpression" in
          Ok (EFunction name args, pos)
      | Some _ => fail "Invalid ConditionExpression: expected function name"
      end
  end.

Definition depth_exceeded {A : Type} : res A :=
  fail "Invalid ConditionExpression: expression nesting depth exceeded".

(** Operand calls get [S (length tokens)] fuel: each nested call is at a later
    token. *)
Definition operand_fuel : nat := S (length tokens).

(** The part of [parse_primary] after the operand on the left. *)
Definition parse_comparison (lhs : Expr) (pos : nat) : res (Expr * nat) :=
  match tokens !! pos with
  | Some t =>
      match try_comparator t with
      | Some op =>
          let? (rhs, pos) := parse_operand operand_fuel (pos + 1) in
          Ok (ECompare lhs op rhs, pos)
      | None =>
          if bool_decide (t = TokBetween) then
            let? (low, pos) := parse_operand operand_fuel (pos + 1) in
            let? pos := expect_token tokens pos TokAnd "AND" "ConditionExpression" in
            let? (high, pos) := parse_operand operand_fuel pos in
            Ok (EBetween lhs low high, pos)
          else if bool_decide (t = TokIn) then
            let? pos := expect_token tokens (pos + 1) TokLParen "(" "ConditionExpression" in
            let? (item, pos) := parse_operand operand_fuel pos in
            let? (items, pos) :=
              comma_loop tokens (parse_operand operand_fuel) (S (length tokens)) [item] pos in
            let? pos := expect_token tokens pos TokRParen ")" "ConditionExpression" in
            Ok (EIn lhs items, pos)
          else
            fail "Invalid ConditionExpression: expected comparison operator or function call"
      end
  | None => fail "Invalid ConditionExpression: expected comparison operator or function call"
  end.

(** [Token::Ident(name)] of a condition function followed by a parenthesis. *)
Definition at_function (pos : nat) : bool :=
  match tokens !! pos with
  | Some (TokIdent name) =>
      is_function_name (to_ascii_lowercase name) && at_token tokens (pos + 1) TokLParen
  | _ => false
  end.

Section Depth.
Variable max_depth : nat.

Fixpoint parse_or (fuel : nat) (pos depth : nat) : res (Expr * nat * nat) :=
  match fuel with
  | O => Err OutOfFuel
  | S fuel =>
      let? (lhs, pos, depth) := parse_and fuel pos depth in
      or_loop fuel lhs pos depth
  end

with or_loop (fuel : nat) (lhs : Expr) (pos depth : nat) : res (Expr * nat * nat) :=
  match fuel with
  | O => Err OutOfFuel
  | S fuel =>
      if at_token tokens pos TokOr then
        let? (rhs, pos, depth) := parse_and fuel (pos + 1) depth in
        or_loop fuel (EOr lhs rhs) pos depth
      else Ok (lhs, pos, depth)
  end

with parse_and (fuel : nat) (pos depth : nat) : res (Expr * nat * nat) :=
  match fuel with
  | O => Err OutOfFuel
  | S fuel =>
      let? (lhs, pos, depth) := parse_not fuel pos depth in
      and_loop fuel lhs pos depth
  end

with and_loop (fuel : nat) (lhs : Expr) (pos depth : nat) : res (Expr * nat * nat) :=
  match fuel with
  | O => Err OutOfFuel
  | S fuel =>
      if at_token tokens pos TokAnd then
        let? (rhs, pos, depth) := parse_not fuel (pos + 1) depth in
        and_loop fuel (EAnd lhs rhs) pos depth
      else Ok (lhs, pos, depth)
  end

with parse_not (fuel : nat) (pos depth : nat) : res (Expr * nat * nat) :=
  match fuel with
  | O => Err OutOfFuel
  | S fuel =>
      if at_token tokens pos TokNot then
        let pos := pos + 1 in
        let depth := depth + 1 in
        if max_depth <? depth then depth_exceeded
        else
          let? (expr, pos, depth) := parse_not fuel pos depth in
          Ok (ENot expr, pos, depth - 1)
      else parse_primary fuel pos depth
  end

with parse_primary (fuel : nat) (pos depth : nat) : res (Expr * nat * nat) :=
  match fuel with
  | O => Err OutOfFuel
  | S fuel =>
      if length tokens <=? pos then
        fail "Invalid ConditionExpression: unexpected end of expression"
      else if at_token tokens pos TokLParen then
        let pos := pos + 1 in
        let depth := depth + 1 in
        if max_depth <? depth then depth_exceeded
        else
          let? (expr, pos, depth) := parse_or fuel pos depth in
          let depth := depth - 1 in
          let? pos := expect_token tokens pos TokRParen ")" "ConditionExpression" in
          Ok (expr, pos, depth)
      else if at_function pos then
        let? (expr, pos) := parse_function_call operand_fuel pos in
        Ok (expr, pos, depth)
      else
        let? (lhs, pos) := parse_operand operand_fuel pos in
        let? (expr, pos) := parse_comparison lhs pos in
        Ok (expr, pos, depth)
  end.
End Depth.

Definition cond_fuel : nat := 4 * length tokens + 4.

Definition parse_condition_with_depth_limit (max_depth : nat) : res Expr :=
  match check_redundant_parens tokens with
  | Err body => fail ("Invalid ConditionExpression: " +:+ body)
  | Ok _ =>
      let? (expr, pos, _) := parse_or max_depth cond_fuel 0 0 in
      if pos <? length tokens then
        fail ("Invalid ConditionExpression: unexpected token at position " +:+ nat_to_string pos)
      else Ok expr
  end.

Definition parse_condition : res Expr := parse_condition_with_depth_limit 150.
End Parser.

(** ** The grammar *)

(** Operands: placeholders, paths and [size(..)]. *)
Inductive g_operand : list Token -> Expr -> Prop :=
  | g_op_placeholder n : g_operand [TokPlaceholder n] (EPlaceholder n)
  | g_op_path ts p : g_path ts p -> g_operand ts (EPath p)
  | g_op_size n ts args :
      eq_ignore_ascii_case n "size" = true -> g_args ts args ->
      g_operand (TokIdent n :: TokLParen :: ts ++ [TokRParen])
                (EFunction (to_ascii_lowercase n) args)

with g_args : list Token -> list Expr -> Prop :=
  | g_args_nil : g_args [] []
  | g_args_cons t x ts xs :
      g_operand t x -> g_commas g_operand ts xs -> g_args (t ++ ts) (x :: xs).

Inductive g_comparison : list Token -> Expr -> Prop :=
  | g_compare tl l t op tr r :
      g_operand tl l -> try_comparator t = Some op -> g_operand tr r ->
      g_comparison (tl ++ t :: tr) (ECompare l op r)
  | g_between tl l tlo lo thi hi :
      g_operand tl l -> g_operand tlo lo -> g_operand thi hi ->
      g_comparison (tl ++ TokBetween :: tlo ++ TokAnd :: thi) (EBetween l lo hi)
  | g_in tl l ts xs :
      g_operand tl l -> g_list g_operand ts xs ->
      g_comparison (tl ++ TokIn :: TokLParen :: ts ++ [TokRParen]) (EIn l xs).

(** The conditions that nest at most [d] parentheses and negations. *)
Inductive g_or : nat -> list Token -> Expr -> Prop :=
  | g_or_intro d t l ts e : g_and d t l -> g_or_tail d l ts e -> g_or d (t ++ ts) e

with g_or_tail : nat -> Expr -> list Token -> Expr -> Prop :=
  | g_or_nil d l : g_or_tail d l [] l
  | g_or_cons d l t r ts e :
      g_and d t r -> g_or_tail d (EOr l r) ts e -> g_or_tail d l (TokOr :: t ++ ts) e

with g_and : nat -> list Token -> Expr -> Prop :=
  | g_and_intro d t l ts e : g_not d t l -> g_and_tail d l ts e -> g_and d (t ++ ts) e

with g_and_tail : nat -> Expr -> list Token -> Expr -> Prop :=
  | g_and_nil d l : g_and_tail d l [] l
  | g_and_cons d l t r ts e :
      g_not d t r -> g_and_tail d (EAnd l r) ts e -> g_and_tail d l (TokAnd :: t ++ ts) e

with g_not : nat -> list Token -> Expr -> Prop :=
  | g_not_not d ts e : g_not d ts e -> g_not (S d) (TokNot :: ts) (ENot e)
  | g_not_primary d ts e : g_primary d ts e -> g_not d ts e

with g_primary : nat -> list Token -> Expr -> Prop :=
  | g_paren d ts e : g_or d ts e -> g_primary (S d) (TokLParen :: ts ++ [TokRParen]) e
  | g_function d n ts args :
      is_function_name (to_ascii_lowercase n) = true -> g_args ts args ->
      g_primary d (TokIdent n :: TokLParen :: ts ++ [TokRParen])
                  (EFunction (to_ascii_lowercase n) args)
  | g_prim_comparison d ts e : g_comparison ts e -> g_primary d ts e.

Scheme g_or_mut := Induction for g_or Sort Prop
  with g_or_tail_mut := Induction for g_or_tail Sort Prop
  with g_and_mut := Induction for g_and Sort Prop
  with g_and_tail_mut := Induction for g_and_tail Sort Prop
  with g_not_mut := Induction for g_not Sort Prop
  with g_primary_mut := Induction for g_primary Sort Prop.

(** The token after an operand, and after each kind of condition. *)
Definition operand_stop (o : option Token) : bool :=
  match o with
  | Some TokDot | Some TokLBracket | Some TokLParen => false
  | _ => true
  end.

Definition and_stop (o : option Token) : bool :=
  operand_stop o && negb (bool_decide (o = Some TokAnd)).

Definition or_stop (o : option Token) : bool :=
  and_stop o && negb (bool_decide (o = Some TokOr)).

Section Operands.
Variable tokens : list Token.

Lemma operand_path_stop o : operand_stop o = true -> path_stop o = true.
Proof. by destruct o as [[]|]. Qed.

Lemma g_operand_nonempty ts e : g_operand ts e -> ts <> [].
Proof. by intros [n|ts' p []|n ts' args]. Qed.

(** The shape of a call: name, parenthesis, arguments, parenthesis. *)
Lemma parse_function_call_Ok fuel pos e pos' :
  (forall pos x pos', parse_operand tokens fuel pos = Ok (x, pos') ->
     exists ts, span tokens pos pos' ts /\ g_operand ts x) ->
  parse_function_call tokens (S fuel) pos = Ok (e, pos') ->
  exists n ts args, span tokens pos pos' (TokIdent n :: TokLParen :: ts ++ [TokRParen]) /\
    g_args ts args /\ e = EFunction (to_ascii_lowercase n) args.
Proof.
  intros Hop. simpl. destruct (tokens !! pos) as [[n| | | | | | | | | | | | | | | | | | | | | | | | |]|] eqn:Ht;
    try done.
  destruct (expect_token _ _ _ _ _) as [pos1|] eqn:E1; [|done].
  apply expect_token_Ok in E1 as [Hl ->].
  destruct (if _ && _ then _ else _) as [[args pos2]|] eqn:Ea; [|done].
  destruct (expect_token _ pos2 _ _ _) as [pos3|] eqn:E3; [|done].
  apply expect_token_Ok in E3 as [Hr ->]. intros [= <- <-].
  assert (exists ts, span tokens (pos + 1 + 1) pos2 ts /\ g_args ts args) as (ts & Hts & Hargs).
  { destruct (_ && _) in Ea.
    - destruct (parse_operand tokens fuel _) as [[x pos4]|] eqn:Ex; [|done].
      apply Hop in Ex as (t & Hspan & Hx).
      apply (comma_loop_sound _ _ g_operand) in Ea as (ts & xs & -> & Hs & Hg); [|done].
      exists (t ++ ts). split; [apply span_app; eauto|]. by constructor.
    - injection Ea as <- <-. exists []. split; [apply span_nil|constructor]. }
  exists n, ts, args. split; [|done]. apply span_cons. split; [done|].
  apply span_cons. split; [done|]. apply span_app. exists pos2. split; [done|]. by apply span_one.
Qed.

Lemma parse_operand_sound fuel : forall pos e pos',
  parse_operand tokens fuel pos = Ok (e, pos') ->
  exists ts, span tokens pos pos' ts /\ g_operand ts e.
Proof.
  induction (lt_wf fuel) as [fuel _ IH]. intros pos e pos'. destruct fuel as [|fuel]; [done|].
  simpl. destruct (tokens !! pos) as [t|] eqn:Ht; [|done].
  destruct t; try done.
  - destruct (_ && _) eqn:Es.
    + apply andb_true_iff in Es as [Hsize Hpar]. destruct fuel as [|fuel]; [done|].
      intros (n & ts & args & Hs & Hargs & ->)%parse_function_call_Ok; [|apply IH; lia].
      eexists. split; [exact Hs|]. constructor; [|done].
      apply span_cons in Hs as [Ht' _]. congruence.
    + destruct (parse_path tokens pos) as [[p pos1]|] eqn:Ep; [|done]. intros [= <- <-].
      apply parse_path_sound in Ep as (ts & Hs & Hg & _). eauto using g_op_path.
  - destruct (parse_path tokens pos) as [[p pos1]|] eqn:Ep; [|done]. intros [= <- <-].
    apply parse_path_sound in Ep as (ts & Hs & Hg & _). eauto using g_op_path.
  - intros [= <- <-]. eexists. split; [by apply span_one|]. constructor.
Qed.

Lemma parse_call_sound fuel pos e pos' :
  parse_function_call tokens fuel pos = Ok (e, pos') ->
  exists n ts args, span tokens pos pos' (TokIdent n :: TokLParen :: ts ++ [TokRParen]) /\
    g_args ts args /\ e = EFunction (to_ascii_lowercase n) args.
Proof.
  destruct fuel as [|fuel]; [done|]. apply parse_function_call_Ok, parse_operand_sound.
Qed.

Lemma span_nonempty pos pos' ts : span tokens pos pos' ts -> ts <> [] -> pos < pos'.
Proof. intros ->%span_length. destruct ts; simpl; [done|lia]. Qed.

Lemma parse_operand_advances fuel pos e pos' :
  parse_operand tokens fuel pos = Ok (e, pos') -> pos < pos'.
Proof.
  intros (ts & Hs & Hg)%parse_operand_sound. eapply span_nonempty; [exact Hs|].
  by eapply g_operand_nonempty.
Qed.

Lemma operand_not_rparen t x ts : g_operand t x -> head (t ++ ts) <> Some TokRParen.
Proof. by intros [n|ts' p [t' name ts'' p' []]|n ts' args]. Qed.

(** A call whose arguments the operand parser reads. *)
Lemma parse_function_call_complete fuel pos pos' n ts args :
  (forall t x pos pos', length t <= length ts -> g_operand t x -> span tokens pos pos' t ->
     operand_stop (tokens !! pos') = true -> parse_operand tokens fuel pos = Ok (x, pos')) ->
  g_args ts args -> span tokens pos pos' (TokIdent n :: TokLParen :: ts ++ [TokRParen]) ->
  parse_function_call tokens (S fuel) pos = Ok (EFunction (to_ascii_lowercase n) args, pos').
Proof.
  intros Hop Hargs Hs. simpl. apply span_cons in Hs as [-> Hs].
  apply span_cons in Hs as [Hl Hs]. apply span_app in Hs as (m & Hts & Hs).
  apply span_cons in Hs as [Hr ->%span_nil_inv].
  rewrite (proj2 (expect_token_Ok _ _ _ _ _ _) (conj Hl eq_refl)).
  assert (operand_stop (tokens !! m) = true) as Hstop by (by rewrite Hr).
  pose proof (lookup_lt_Some _ _ _ Hr) as Hm. pose proof (span_length _ _ _ _ Hts) as Hlen.
  rewrite (proj2 (Nat.ltb_lt _ _)) by lia. simpl.
  destruct Hargs as [|t x ts xs Hx Hxs].
  - apply span_nil_inv in Hts as ->. rewrite (proj2 (at_token_true _ _ _) Hr). simpl.
    by rewrite (proj2 (expect_token_Ok _ _ _ _ _ _) (conj Hr eq_refl)).
  - rewrite length_app in *.
    assert (at_token tokens (pos + 1 + 1) TokRParen = false) as ->.
    { apply at_token_false. intros E. apply (operand_not_rparen t x ts Hx).
      destruct (t ++ ts) as [|u us] eqn:E2; [by apply g_operand_nonempty in Hx; destruct t|].
      apply span_cons in Hts as [Hu _]. simpl. congruence. }
    simpl. apply span_app in Hts as (m1 & Ht & Hts).
    assert (operand_stop (tokens !! m1) = true) as Hstop1.
    { destruct Hxs; [by apply span_nil_inv in Hts as ->|]. by apply span_cons in Hts as [-> _]. }
    rewrite (Hop t x _ _ ltac:(lia) Hx Ht Hstop1).
    pose proof (span_length _ _ _ _ Hts) as Hlen2.
    rewrite (comma_loop_complete tokens _ g_operand (length ts) operand_stop _ [x] m1 m ts xs);
      try done.
    + simpl. by rewrite (proj2 (expect_token_Ok _ _ _ _ _ _) (conj Hr eq_refl)).
    + intros t' x' p1 p2 Hle. apply Hop. lia.
    + by rewrite Hr.
    + lia.
Qed.

Lemma parse_operand_complete fuel : forall ts e pos pos',
  g_operand ts e -> span tokens pos pos' ts -> operand_stop (tokens !! pos') = true ->
  length ts < fuel -> parse_operand tokens fuel pos = Ok (e, pos').
Proof.
  induction (lt_wf fuel) as [fuel _ IH]. intros ts e pos pos' Hg Hs Hstop Hf.
  destruct fuel as [|fuel]; [lia|].
  assert (forall p, g_path ts p ->
    (let? (elements, pos) := parse_path tokens pos in Ok (EPath elements, pos))
    = Ok (E := fault) (EPath p, pos')) as Hpath.
  { intros p Hp. rewrite (parse_path_complete _ _ _ _ _ Hs Hp) by (by apply operand_path_stop).
    done. }
  destruct Hg as [n|ts p Hp|n ts args Hsize Hargs]; simpl.
  - by apply span_cons in Hs as [-> ->%span_nil_inv].
  - specialize (Hpath p Hp). destruct Hp as [t name ts p Ha Hp].
    apply span_cons in Hs as [-> Hs]. destruct Ha; [|done].
    assert (at_token tokens (pos + 1) TokLParen = false) as ->.
    { apply at_token_false. intros E. destruct Hp.
      - apply span_nil_inv in Hs as ->. by rewrite E in Hstop.
      - apply span_cons in Hs as [Hd _]. congruence.
      - apply span_cons in Hs as [Hd _]. congruence. }
    by rewrite andb_false_r.
  - pose proof Hs as Hs'. apply span_cons in Hs' as [-> Hs'].
    apply span_cons in Hs' as [Hl Hs']. rewrite Hsize, (proj2 (at_token_true _ _ _) Hl). simpl.
    destruct fuel as [|fuel]; [simpl in Hf; lia|].
    simpl in Hf. rewrite length_app in Hf. simpl in Hf.
    eapply (parse_function_call_complete fuel); [|exact Hargs|exact Hs].
    intros t x p1 p2 Hle Ht Hsp Hst. eapply IH; eauto; lia.
Qed.

Lemma parse_call_complete fuel pos pos' n ts args :
  g_args ts args -> span tokens pos pos' (TokIdent n :: TokLParen :: ts ++ [TokRParen]) ->
  length ts + 1 < fuel ->
  parse_function_call tokens fuel pos = Ok (EFunction (to_ascii_lowercase n) args, pos').
Proof.
  intros Hargs Hs Hf. destruct fuel as [|fuel]; [lia|].
  eapply parse_function_call_complete; [|exact Hargs|exact Hs].
  intros t x p1 p2 Hle Ht Hsp Hst. eapply parse_operand_complete; eauto. lia.
Qed.

Lemma parse_operand_returns fuel : forall pos,
  (0 < fuel -> length tokens < pos + fuel -> returns (parse_operand tokens fuel pos)) /\
  (0 < fuel -> pos < length tokens -> length tokens <= pos + fuel ->
     returns (parse_function_call tokens fuel pos)).
Proof.
  induction fuel as [|fuel IH]; intros pos; (split; [intros Hf|intros Hf Hp]; try lia); intros Hl; simpl.
  - destruct (tokens !! pos) as [t|] eqn:Ht; [|done]. pose proof (lookup_lt_Some _ _ _ Ht).
    pose proof (parse_path_returns tokens pos) as Hpath.
    destruct t; try done; [destruct (_ && _)|].
    + apply IH; lia.
    + by destruct (parse_path tokens pos) as [[]|[]].
    + by destruct (parse_path tokens pos) as [[]|[]].
  - destruct (lookup_lt_is_Some_2 tokens pos Hp) as [t ->]. destruct t; try done.
    pose proof (expect_token_returns tokens (pos + 1) TokLParen "(" "ConditionExpression").
    destruct (expect_token _ _ _ _ _) as [pos1|[]] eqn:E1; try done.
    apply expect_token_Ok in E1 as [Hpar%lookup_lt_Some ->].
    assert (returns (if (pos + 1 + 1 <? length tokens) && negb (at_token tokens (pos + 1 + 1) TokRParen)
      then let? (arg, pos) := parse_operand tokens fuel (pos + 1 + 1) in
           comma_loop tokens (parse_operand tokens fuel) (S (length tokens)) [arg] pos
      else Ok ([], pos + 1 + 1))) as Hargs.
    { destruct (_ && _) eqn:Ec; [|done]. apply andb_true_iff in Ec as [Hlt%Nat.ltb_lt _].
      assert (forall pos', pos + 1 < pos' -> returns (parse_operand tokens fuel pos')) as Hr
        by (intros pos' Hp'; apply IH; lia).
      pose proof (Hr (pos + 1 + 1) ltac:(lia)) as H1.
      destruct (parse_operand tokens fuel _) as [[x pos2]|[]] eqn:Ex; try done.
      apply parse_operand_advances in Ex.
      apply comma_loop_returns; [|apply parse_operand_advances|lia|lia].
      intros pos' Hp'. apply Hr. lia. }
    destruct (if _ && _ then _ else _) as [[args pos2]|[]]; try done.
    pose proof (expect_token_returns tokens pos2 TokRParen ")" "ConditionExpression").
    by destruct (expect_token _ pos2 _ _ _) as [|[]].
Qed.
End Operands.

#[local] Arguments parse_operand : simpl never.
#[local] Arguments parse_function_call : simpl never.

Section Conditions.
Variable tokens : list Token.
Variable max_depth : nat.

Notation parse_or := (parse_or tokens max_depth).
Notation or_loop := (or_loop tokens max_depth).
Notation parse_and := (parse_and tokens max_depth).
Notation and_loop := (and_loop tokens max_depth).
Notation parse_not := (parse_not tokens max_depth).
Notation parse_primary := (parse_primary tokens max_depth).

Lemma parse_comparison_sound tl lhs pos0 pos e pos' :
  span tokens pos0 pos tl -> g_operand tl lhs ->
  parse_comparison tokens lhs pos = Ok (e, pos') ->
  exists ts, span tokens pos0 pos' ts /\ g_comparison ts e.
Proof.
  intros Hsl Hl. unfold parse_comparison. destruct (tokens !! pos) as [t|] eqn:Ht; [|done].
  destruct (try_comparator t) as [op|] eqn:Eop.
  { destruct (parse_operand tokens _ _) as [[r pos1]|] eqn:Er; [|done]. intros [= <- <-].
    apply parse_operand_sound in Er as (tr & Hsr & Hr). exists (tl ++ t :: tr).
    split; [|by constructor]. apply span_app. exists pos. split; [done|]. by apply span_cons. }
  case_bool_decide as Hb; [|case_bool_decide as Hi; [|done]]; subst t.
  - destruct (parse_operand tokens _ _) as [[lo pos1]|] eqn:Elo; [|done].
    destruct (expect_token _ _ _ _ _) as [pos2|] eqn:Ea; [|done].
    apply expect_token_Ok in Ea as [Ha ->].
    destruct (parse_operand tokens _ (pos1 + 1)) as [[hi pos3]|] eqn:Ehi; [|done].
    intros [= <- <-]. apply parse_operand_sound in Elo as (tlo & Hslo & Hlo).
    apply parse_operand_sound in Ehi as (thi & Hshi & Hhi).
    exists (tl ++ TokBetween :: tlo ++ TokAnd :: thi). split; [|by constructor].
    apply span_app. exists pos. split; [done|]. apply span_cons. split; [done|].
    apply span_app. exists pos1. split; [done|]. by apply span_cons.
  - destruct (expect_token _ (pos + 1) _ _ _) as [pos1|] eqn:Ea; [|done].
    apply expect_token_Ok in Ea as [Ha ->].
    destruct (parse_operand tokens _ _) as [[x pos2]|] eqn:Ex; [|done].
    destruct (comma_loop _ _ _ _ _) as [[items pos3]|] eqn:Ec; [|done].
    destruct (expect_token _ pos3 _ _ _) as [pos4|] eqn:Er; [|done].
    apply expect_token_Ok in Er as [Hr ->]. intros [= <- <-].
    apply parse_operand_sound in Ex as (t & Hst & Hx).
    apply (comma_loop_sound _ _ g_operand) in Ec as (ts & xs & -> & Hs & Hg);
      [|apply parse_operand_sound].
    exists (tl ++ TokIn :: TokLParen :: (t ++ ts) ++ [TokRParen]).
    split; [|constructor; [done|by exists t, x, ts, xs]].
    apply span_app. exists pos. split; [done|]. apply span_cons. split; [done|].
    apply span_cons. split; [done|]. apply span_app. exists pos3.
    split; [apply span_app; eauto|]. by apply span_one.
Qed.

(** What each function returns is in its grammar, with the nesting budget that
    was left, and the depth counter is back where it was. *)
Definition sound (f : nat -> nat -> res (Expr * nat * nat))
    (G : nat -> list Token -> Expr -> Prop) : Prop :=
  forall pos depth e pos' depth', depth <= max_depth ->
    f pos depth = Ok (e, pos', depth') ->
    depth' = depth /\ exists ts, span tokens pos pos' ts /\ G (max_depth - depth) ts e.

Lemma parse_or_sound fuel :
  sound (parse_and fuel) g_and -> (forall lhs, sound (or_loop fuel lhs) (fun d => g_or_tail d lhs)) ->
  sound (parse_or (S fuel)) g_or.
Proof.
  intros IHand IHloop pos depth e pos' depth' Hd. simpl.
  destruct (parse_and fuel pos depth) as [[[l p1] d1]|] eqn:E1; [|done].
  apply IHand in E1 as (-> & t & Ht & Hg); [|done].
  intros (-> & ts & Hs & Hgs)%IHloop; [|done]. split; [done|].
  exists (t ++ ts). split; [apply span_app; eauto|]. by econstructor.
Qed.

Lemma or_loop_sound fuel lhs :
  sound (parse_and fuel) g_and -> (forall lhs, sound (or_loop fuel lhs) (fun d => g_or_tail d lhs)) ->
  sound (or_loop (S fuel) lhs) (fun d => g_or_tail d lhs).
Proof.
  intros IHand IHloop pos depth e pos' depth' Hd. simpl.
  destruct (at_token tokens pos TokOr) eqn:Eo.
  - apply at_token_true in Eo.
    destruct (parse_and fuel (pos + 1) depth) as [[[r p1] d1]|] eqn:E1; [|done].
    apply IHand in E1 as (-> & t & Ht & Hg); [|done].
    intros (-> & ts & Hs & Hgs)%IHloop; [|done]. split; [done|].
    exists (TokOr :: t ++ ts). split; [apply span_cons; split; [done|apply span_app; eauto]|].
    by econstructor.
  - intros [= <- <- <-]. split; [done|]. exists []. split; [apply span_nil|constructor].
Qed.

Lemma parse_and_sound fuel :
  sound (parse_not fuel) g_not -> (forall lhs, sound (and_loop fuel lhs) (fun d => g_and_tail d lhs)) ->
  sound (parse_and (S fuel)) g_and.
Proof.
  intros IHnot IHloop pos depth e pos' depth' Hd. simpl.
  destruct (parse_not fuel pos depth) as [[[l p1] d1]|] eqn:E1; [|done].
  apply IHnot in E1 as (-> & t & Ht & Hg); [|done].
  intros (-> & ts & Hs & Hgs)%IHloop; [|done]. split; [done|].
  exists (t ++ ts). split; [apply span_app; eauto|]. by econstructor.
Qed.

Lemma and_loop_sound fuel lhs :
  sound (parse_not fuel) g_not -> (forall lhs, sound (and_loop fuel lhs) (fun d => g_and_tail d lhs)) ->
  sound (and_loop (S fuel) lhs) (fun d => g_and_tail d lhs).
Proof.
  intros IHnot IHloop pos depth e pos' depth' Hd. simpl.
  destruct (at_token tokens pos TokAnd) eqn:Eo.
  - apply at_token_true in Eo.
    destruct (parse_not fuel (pos + 1) depth) as [[[r p1] d1]|] eqn:E1; [|done].
    apply IHnot in E1 as (-> & t & Ht & Hg); [|done].
    intros (-> & ts & Hs & Hgs)%IHloop; [|done]. split; [done|].
    exists (TokAnd :: t ++ ts). split; [apply span_cons; split; [done|apply span_app; eauto]|].
    by econstructor.
  - intros [= <- <- <-]. split; [done|]. exists []. split; [apply span_nil|constructor].
Qed.

Lemma parse_not_sound fuel :
  sound (parse_not fuel) g_not -> sound (parse_primary fuel) g_primary ->
  sound (parse_not (S fuel)) g_not.
Proof.
  intros IHnot IHprim pos depth e pos' depth' Hd. simpl.
  destruct (at_token tokens pos TokNot) eqn:Eo.
  - apply at_token_true in Eo. destruct (Nat.ltb_spec max_depth (depth + 1)); [done|].
    destruct (parse_not fuel (pos + 1) (depth + 1)) as [[[x p1] d1]|] eqn:E1; [|done].
    apply IHnot in E1 as (-> & t & Ht & Hg); [|lia]. intros [= <- <- <-].
    split; [lia|]. exists (TokNot :: t). split; [by apply span_cons|].
    replace (max_depth - depth) with (S (max_depth - (depth + 1))) by lia. by constructor.
  - intros (-> & ts & Hs & Hg)%IHprim; [|done]. split; [done|]. exists ts. split; [done|].
    by constructor.
Qed.

Lemma parse_primary_sound fuel :
  sound (parse_or fuel) g_or -> sound (parse_primary (S fuel)) g_primary.
Proof.
  intros IHor pos depth e pos' depth' Hd. simpl.
  destruct (length tokens <=? pos); [done|]. destruct (at_token tokens pos TokLParen) eqn:Eo.
  { apply at_token_true in Eo. destruct (Nat.ltb_spec max_depth (depth + 1)); [done|].
    destruct (parse_or fuel (pos + 1) (depth + 1)) as [[[x p1] d1]|] eqn:E1; [|done].
    apply IHor in E1 as (-> & t & Ht & Hg); [|lia].
    destruct (expect_token _ _ _ _ _) as [p2|] eqn:E2; [|done].
    apply expect_token_Ok in E2 as [Hr ->]. intros [= <- <- <-].
    split; [lia|]. exists (TokLParen :: t ++ [TokRParen]). split.
    - apply span_cons. split; [done|]. apply span_app. exists p1. split; [done|].
      by apply span_one.
    - replace (max_depth - depth) with (S (max_depth - (depth + 1))) by lia. by constructor. }
  destruct (at_function tokens pos) eqn:Ef.
  - destruct (parse_function_call _ _ _) as [[x p1]|] eqn:E1; [|done]. intros [= <- <- <-].
    apply parse_call_sound in E1 as (n & ts & args & Hs & Hargs & ->). split; [done|].
    eexists. split; [exact Hs|]. constructor; [|done]. unfold at_function in Ef.
    apply span_cons in Hs as [Hn _]. rewrite Hn in Ef. by apply andb_true_iff in Ef as [? _].
  - destruct (parse_operand _ _ _) as [[x p1]|] eqn:E1; [|done].
    destruct (parse_comparison _ _ _) as [[y p2]|] eqn:E2; [|done]. intros [= <- <- <-].
    apply parse_operand_sound in E1 as (tl & Hsl & Hl).
    eapply parse_comparison_sound in E2 as (ts & Hs & Hg); [|exact Hsl|exact Hl].
    split; [done|]. exists ts. split; [done|]. by constructor.
Qed.

Lemma parsers_sound fuel :
  sound (parse_or fuel) g_or /\
  (forall lhs, sound (or_loop fuel lhs) (fun d => g_or_tail d lhs)) /\
  sound (parse_and fuel) g_and /\
  (forall lhs, sound (and_loop fuel lhs) (fun d => g_and_tail d lhs)) /\
  sound (parse_not fuel) g_not /\
  sound (parse_primary fuel) g_primary.
Proof.
  induction fuel as [|fuel (IHor & IHorl & IHand & IHandl & IHnot & IHprim)].
  { by unfold sound; repeat split. }
  auto 10 using parse_or_sound, or_loop_sound, parse_and_sound, and_loop_sound,
    parse_not_sound, parse_primary_sound.
Qed.

(** An operand followed by anything but a parenthesis does not look like a call
    of a condition function. *)
Lemma operand_head tl l t pos m :
  g_operand tl l -> span tokens pos m tl -> tokens !! m = Some t -> t <> TokLParen ->
  at_token tokens pos TokNot = false /\ at_token tokens pos TokLParen = false /\
  at_function tokens pos = false.
Proof.
  intros Hl Hs Ht Hne. unfold at_function.
  rewrite !at_token_false.
  destruct Hl as [n|ts p [t0 name ts' p' Ha Hp]|n ts args Hsize Hargs];
    apply span_cons in Hs as [Hh Hs]; rewrite Hh; [done| |].
  - destruct Ha; [|done]. split; [done|]. split; [done|].
    apply andb_false_iff. right. apply at_token_false. intros E. destruct Hp.
    + apply span_nil_inv in Hs as ->. congruence.
    + apply span_cons in Hs as [Hd _]. congruence.
    + apply span_cons in Hs as [Hd _]. congruence.
  - split; [done|]. split; [done|]. apply andb_false_iff. left.
    unfold eq_ignore_ascii_case in Hsize. by apply String.eqb_eq in Hsize as ->.
Qed.

Lemma operand_lt tl l pos m : g_operand tl l -> span tokens pos m tl -> pos < length tokens.
Proof.
  intros Hl Hs. destruct tl as [|t tl]; [by apply g_operand_nonempty in Hl|].
  apply span_cons in Hs as [Ht _]. by apply lookup_lt_Some in Ht.
Qed.

Lemma operand_fuel_enough ts pos pos' :
  span tokens pos pos' ts -> pos <= length tokens -> length ts < operand_fuel tokens.
Proof. intros Hs Hp. pose proof (span_le _ _ _ _ Hs Hp). apply span_length in Hs. unfold operand_fuel. lia. Qed.

Lemma parse_operand_at ts e pos pos' :
  g_operand ts e -> span tokens pos pos' ts -> operand_stop (tokens !! pos') = true ->
  parse_operand tokens (operand_fuel tokens) pos = Ok (e, pos').
Proof.
  intros Hg Hs Hstop. eapply parse_operand_complete; eauto.
  eapply operand_fuel_enough; [exact Hs|]. pose proof (operand_lt _ _ _ _ Hg Hs). lia.
Qed.

Lemma comparator_stop t op :
  try_comparator t = Some op -> operand_stop (Some t) = true /\ t <> TokLParen.
Proof. by destruct t. Qed.

(** A comparison is read as an operand and the rest. *)
Lemma parse_comparison_complete ts e pos pos' :
  g_comparison ts e -> span tokens pos pos' ts -> operand_stop (tokens !! pos') = true ->
  exists l m t, parse_operand tokens (operand_fuel tokens) pos = Ok (l, m) /\
    parse_comparison tokens l m = Ok (e, pos') /\
    tokens !! m = Some t /\ t <> TokLParen /\ exists tl, g_operand tl l /\ span tokens pos m tl.
Proof.
  intros Hg Hs Hstop. destruct Hg as [tl l t op tr r Hl Hop Hr|tl l tlo lo thi hi Hl Hlo Hhi|tl l ts xs Hl Hts];
    apply span_app in Hs as (m & Hsl & Hs); apply span_cons in Hs as [Ht Hs]; exists l, m; eexists.
  - destruct (comparator_stop _ _ Hop) as [Hst Hne].
    rewrite (parse_operand_at tl l pos m) by (done || by rewrite Ht).
    split; [done|]. split; [|by eauto 10]. unfold parse_comparison. rewrite Ht, Hop.
    by rewrite (parse_operand_at tr r _ pos').
  - rewrite (parse_operand_at tl l pos m) by (done || by rewrite Ht).
    split; [done|]. split; [|by eauto 10]. unfold parse_comparison. rewrite Ht. simpl.
    apply span_app in Hs as (m1 & Hslo & Hs). apply span_cons in Hs as [Ha Hs].
    rewrite (parse_operand_at tlo lo _ m1) by (done || by rewrite Ha).
    rewrite (proj2 (expect_token_Ok _ _ _ _ _ _) (conj Ha eq_refl)).
    by rewrite (parse_operand_at thi hi _ pos').
  - rewrite (parse_operand_at tl l pos m) by (done || by rewrite Ht).
    split; [done|]. split; [|by eauto 10]. unfold parse_comparison. rewrite Ht. simpl.
    apply span_cons in Hs as [Hp Hs]. apply span_app in Hs as (m1 & Hsx & Hs).
    apply span_cons in Hs as [Hr ->%span_nil_inv].
    destruct Hts as (t & x & ts' & xs' & -> & -> & Hx & Hxs).
    apply span_app in Hsx as (m2 & Hst & Hsts).
    rewrite (proj2 (expect_token_Ok _ _ _ _ _ _) (conj Hp eq_refl)).
    assert (operand_stop (tokens !! m2) = true) as Hm2.
    { destruct Hxs; [apply span_nil_inv in Hsts as ->; by rewrite Hr|].
      by apply span_cons in Hsts as [-> _]. }
    rewrite (parse_operand_at t x _ m2) by done.
    assert (m2 <= length tokens) by
      (eapply span_le; [exact Hst|]; pose proof (lookup_lt_Some _ _ _ Hp); lia).
    rewrite (comma_loop_complete tokens _ g_operand (length ts') operand_stop _ [x] m2 m1 ts' xs');
      try done.
    + simpl. by rewrite (proj2 (expect_token_Ok _ _ _ _ _ _) (conj Hr eq_refl)).
    + intros t' x' p1 p2 Hle Hg' Hs' Hst'. by eapply parse_operand_at.
    + by rewrite Hr.
    + by rewrite Hr.
    + pose proof (operand_fuel_enough _ _ _ Hsts ltac:(lia)). done.
Qed.

(** [f] reads [ts] as [e] when the budget, the fuel and the next token allow. *)
Definition reads (f : nat -> nat -> nat -> res (Expr * nat * nat)) (c : nat)
    (stop : option Token -> bool) (d : nat) (ts : list Token) (e : Expr) : Prop :=
  forall fuel pos pos' depth, depth + d <= max_depth -> span tokens pos pos' ts ->
    stop (tokens !! pos') = true -> 4 * length ts + c <= fuel ->
    f fuel pos depth = Ok (e, pos', depth).

Lemma and_stop_split o : and_stop o = true -> operand_stop o = true /\ o <> Some TokAnd.
Proof. unfold and_stop. rewrite andb_true_iff, negb_true_iff, bool_decide_eq_false. done. Qed.

Lemma or_stop_split o : or_stop o = true -> and_stop o = true /\ o <> Some TokOr.
Proof. unfold or_stop. rewrite andb_true_iff, negb_true_iff, bool_decide_eq_false. done. Qed.

Lemma g_or_tail_next d l ts e pos pos' :
  g_or_tail d l ts e -> span tokens pos pos' ts -> or_stop (tokens !! pos') = true ->
  and_stop (tokens !! pos) = true.
Proof.
  intros Hg Hs Hstop. destruct Hg.
  - apply span_nil_inv in Hs as ->. by apply or_stop_split in Hstop as [? _].
  - by apply span_cons in Hs as [-> _].
Qed.

Lemma g_and_tail_next d l ts e pos pos' :
  g_and_tail d l ts e -> span tokens pos pos' ts -> and_stop (tokens !! pos') = true ->
  operand_stop (tokens !! pos) = true.
Proof.
  intros Hg Hs Hstop. destruct Hg.
  - apply span_nil_inv in Hs as ->. by apply and_stop_split in Hstop as [? _].
  - by apply span_cons in Hs as [-> _].
Qed.

Lemma reads_primary_not d ts e :
  g_primary d ts e -> reads parse_primary 0 operand_stop d ts e ->
  reads parse_not 1 operand_stop d ts e.
Proof.
  intros Hg Hr [|fuel] pos pos' depth Hd Hs Hstop Hf; [lia|]. simpl.
  assert (at_token tokens pos TokNot = false) as ->; [|apply Hr; auto; lia].
  destruct Hg as [d ts e Hg|d n ts args Hn Hargs|d ts e Hg].
  - apply span_cons in Hs as [Ht _]. by apply at_token_false; rewrite Ht.
  - apply span_cons in Hs as [Ht _]. by apply at_token_false; rewrite Ht.
  - destruct (parse_comparison_complete _ _ _ _ Hg Hs Hstop)
      as (l & m & t & _ & _ & Ht & Hne & tl & Hl & Hsl).
    by destruct (operand_head _ _ _ _ _ Hl Hsl Ht Hne) as [? _].
Qed.

Lemma reads_paren d ts e :
  reads parse_or 3 or_stop d ts e ->
  reads parse_primary 0 operand_stop (S d) (TokLParen :: ts ++ [TokRParen]) e.
Proof.
  intros Hr [|fuel] pos pos' depth Hd Hs Hstop Hf; [simpl in Hf; lia|]. simpl.
  apply span_cons in Hs as [Ht Hs]. apply span_app in Hs as (m & Hs & Hm).
  apply span_cons in Hm as [Hp ->%span_nil_inv].
  rewrite (proj2 (Nat.leb_gt _ _) (lookup_lt_Some _ _ _ Ht)).
  rewrite (proj2 (at_token_true _ _ _) Ht), (proj2 (Nat.ltb_ge _ _)) by lia.
  simpl in Hf. rewrite length_app in Hf. simpl in Hf.
  rewrite (Hr fuel _ m (depth + 1)) by (done || lia || by rewrite Hp).
  rewrite (proj2 (expect_token_Ok _ _ _ _ _ _) (conj Hp eq_refl)). do 2 f_equal. lia.
Qed.

Lemma reads_function d n ts args :
  is_function_name (to_ascii_lowercase n) = true -> g_args ts args ->
  reads parse_primary 0 operand_stop d (TokIdent n :: TokLParen :: ts ++ [TokRParen])
    (EFunction (to_ascii_lowercase n) args).
Proof.
  intros Hn Hargs [|fuel] pos pos' depth Hd Hs Hstop Hf; [simpl in Hf; lia|]. simpl.
  pose proof Hs as Hs'. apply span_cons in Hs' as [Ht Hs']. apply span_cons in Hs' as [Hp _].
  pose proof (lookup_lt_Some _ _ _ Ht) as Hlt.
  rewrite (proj2 (Nat.leb_gt _ _) Hlt).
  rewrite (proj2 (at_token_false _ _ _)) by (by rewrite Ht).
  unfold at_function. rewrite Ht, Hn, (proj2 (at_token_true _ _ _) Hp). simpl.
  rewrite (parse_call_complete _ _ _ _ _ _ _ Hargs Hs); [done|].
  pose proof (operand_fuel_enough _ _ _ Hs ltac:(lia)) as H. simpl in H.
  rewrite length_app in H. simpl in H. lia.
Qed.

Lemma g_comparison_nonempty ts e : g_comparison ts e -> ts <> [].
Proof. intros [tl|tl|tl]; by destruct tl. Qed.

Lemma reads_comparison d ts e :
  g_comparison ts e -> reads parse_primary 0 operand_stop d ts e.
Proof.
  intros Hg fuel pos pos' depth Hd Hs Hstop Hf.
  destruct (parse_comparison_complete _ _ _ _ Hg Hs Hstop)
    as (l & m & t & Hop & Hcmp & Ht & Hne & tl & Hl & Hsl).
  destruct (operand_head _ _ _ _ _ Hl Hsl Ht Hne) as (_ & H2 & H3).
  pose proof (operand_lt _ _ _ _ Hl Hsl) as Hlt.
  destruct fuel as [|fuel].
  { apply g_comparison_nonempty in Hg. destruct ts; [done|simpl in Hf; lia]. }
  simpl. rewrite (proj2 (Nat.leb_gt _ _) Hlt), H2, H3, Hop, Hcmp. done.
Qed.

Lemma reads_or d t l ts e :
  reads parse_and 2 and_stop d t l -> g_or_tail d l ts e ->
  reads (fun f => or_loop f l) 1 or_stop d ts e -> reads parse_or 3 or_stop d (t ++ ts) e.
Proof.
  intros Hand Hg Hloop [|fuel] pos pos' depth Hd Hs Hstop Hf; rewrite length_app in Hf; [lia|].
  apply span_app in Hs as (m & Ht & Hts). simpl.
  rewrite (Hand fuel _ m) by (done || lia || by eapply g_or_tail_next).
  apply (Hloop fuel); auto; lia.
Qed.

Lemma reads_or_cons d l t r ts e :
  reads parse_and 2 and_stop d t r -> g_or_tail d (EOr l r) ts e ->
  reads (fun f => or_loop f (EOr l r)) 1 or_stop d ts e ->
  reads (fun f => or_loop f l) 1 or_stop d (TokOr :: t ++ ts) e.
Proof.
  intros Hand Hg Hloop [|fuel] pos pos' depth Hd Hs Hstop Hf;
    simpl in Hf; rewrite length_app in Hf; [lia|].
  apply span_cons in Hs as [Ho Hs]. apply span_app in Hs as (m & Ht & Hts). simpl.
  rewrite (proj2 (at_token_true _ _ _) Ho).
  rewrite (Hand fuel _ m) by (done || lia || by eapply g_or_tail_next).
  apply (Hloop fuel); auto; lia.
Qed.

Lemma reads_and d t l ts e :
  reads parse_not 1 operand_stop d t l -> g_and_tail d l ts e ->
  reads (fun f => and_loop f l) 1 and_stop d ts e -> reads parse_and 2 and_stop d (t ++ ts) e.
Proof.
  intros Hnot Hg Hloop [|fuel] pos pos' depth Hd Hs Hstop Hf; rewrite length_app in Hf; [lia|].
  apply span_app in Hs as (m & Ht & Hts). simpl.
  rewrite (Hnot fuel _ m) by (done || lia || by eapply g_and_tail_next).
  apply (Hloop fuel); auto; lia.
Qed.

Lemma reads_and_cons d l t r ts e :
  reads parse_not 1 operand_stop d t r -> g_and_tail d (EAnd l r) ts e ->
  reads (fun f => and_loop f (EAnd l r)) 1 and_stop d ts e ->
  reads (fun f => and_loop f l) 1 and_stop d (TokAnd :: t ++ ts) e.
Proof.
  intros Hnot Hg Hloop [|fuel] pos pos' depth Hd Hs Hstop Hf;
    simpl in Hf; rewrite length_app in Hf; [lia|].
  apply span_cons in Hs as [Ho Hs]. apply span_app in Hs as (m & Ht & Hts). simpl.
  rewrite (proj2 (at_token_true _ _ _) Ho).
  rewrite (Hnot fuel _ m) by (done || lia || by eapply g_and_tail_next).
  apply (Hloop fuel); auto; lia.
Qed.

Lemma reads_or_nil d l : reads (fun f => or_loop f l) 1 or_stop d [] l.
Proof.
  intros [|fuel] pos pos' depth Hd ->%span_nil_inv Hstop Hf; [simpl in Hf; lia|]. simpl.
  apply or_stop_split in Hstop as [_ Hn]. by rewrite (proj2 (at_token_false _ _ _) Hn).
Qed.

Lemma reads_and_nil d l : reads (fun f => and_loop f l) 1 and_stop d [] l.
Proof.
  intros [|fuel] pos pos' depth Hd ->%span_nil_inv Hstop Hf; [simpl in Hf; lia|]. simpl.
  apply and_stop_split in Hstop as [_ Hn]. by rewrite (proj2 (at_token_false _ _ _) Hn).
Qed.

Lemma reads_not d ts e :
  reads parse_not 1 operand_stop d ts e ->
  reads parse_not 1 operand_stop (S d) (TokNot :: ts) (ENot e).
Proof.
  intros Hnot [|fuel] pos pos' depth Hd Hs Hstop Hf; simpl in Hf; [lia|].
  apply span_cons in Hs as [Ho Hs]. simpl.
  rewrite (proj2 (at_token_true _ _ _) Ho), (proj2 (Nat.ltb_ge _ _)) by lia.
  rewrite (Hnot fuel _ pos' (depth + 1)) by (done || lia). do 2 f_equal. lia.
Qed.

Lemma g_or_reads d ts e : g_or d ts e -> reads parse_or 3 or_stop d ts e.
Proof.
  intros Hg.
  induction Hg using g_or_mut with
    (P0 := fun d l ts e _ => reads (fun f => or_loop f l) 1 or_stop d ts e)
    (P1 := fun d ts e _ => reads parse_and 2 and_stop d ts e)
    (P2 := fun d l ts e _ => reads (fun f => and_loop f l) 1 and_stop d ts e)
    (P3 := fun d ts e _ => reads parse_not 1 operand_stop d ts e)
    (P4 := fun d ts e _ => reads parse_primary 0 operand_stop d ts e);
    eauto using reads_or, reads_or_nil, reads_or_cons, reads_and, reads_and_nil, reads_and_cons,
      reads_not, reads_primary_not, reads_paren, reads_function, reads_comparison.
Qed.

Lemma g_primary_nonempty d ts e : g_primary d ts e -> ts <> [].
Proof. intros [| |d' ts' e' Hg]; [done|done|]. by eapply g_comparison_nonempty. Qed.

Lemma g_not_nonempty d ts e : g_not d ts e -> ts <> [].
Proof. intros [|d' ts' e' Hg]; [done|]. by eapply g_primary_nonempty. Qed.

Lemma g_and_nonempty d ts e : g_and d ts e -> ts <> [].
Proof. intros [d' t l ts' e' Hg _]. apply g_not_nonempty in Hg. by destruct t. Qed.

Lemma parse_not_advances fuel pos depth e pos' depth' :
  depth <= max_depth -> parse_not fuel pos depth = Ok (e, pos', depth') ->
  depth' = depth /\ pos < pos'.
Proof.
  intros Hd E. apply parsers_sound in E as (-> & ts & Hs & Hg); [|done]. split; [done|].
  eapply span_nonempty; [exact Hs|by eapply g_not_nonempty].
Qed.

Lemma parse_and_advances fuel pos depth e pos' depth' :
  depth <= max_depth -> parse_and fuel pos depth = Ok (e, pos', depth') ->
  depth' = depth /\ pos < pos'.
Proof.
  intros Hd E. apply parsers_sound in E as (-> & ts & Hs & Hg); [|done]. split; [done|].
  eapply span_nonempty; [exact Hs|by eapply g_and_nonempty].
Qed.

Lemma parse_comparison_returns lhs pos : returns (parse_comparison tokens lhs pos).
Proof.
  unfold parse_comparison. destruct (tokens !! pos) as [t|]; [|done].
  assert (forall p, returns (parse_operand tokens (operand_fuel tokens) p)) as Hop.
  { intros p. apply parse_operand_returns; unfold operand_fuel; lia. }
  destruct (try_comparator t).
  { pose proof (Hop (pos + 1)). by destruct (parse_operand _ _ _) as [[]|[]]. }
  case_bool_decide; [|case_bool_decide; [|done]].
  - apply returns_bind; [apply Hop|]. intros [low p1] _.
    apply returns_bind; [apply expect_token_returns|]. intros p2 _.
    apply returns_bind; [apply Hop|]. by intros [].
  - apply returns_bind; [apply expect_token_returns|]. intros p1 _.
    apply returns_bind; [apply Hop|]. intros [x p2] _.
    apply returns_bind.
    { apply comma_loop_returns; [auto|apply parse_operand_advances|lia|lia]. }
    intros [xs p3] _. apply returns_bind; [apply expect_token_returns|]. done.
Qed.

(** Enough fuel for [c] more calls than four per remaining token. *)
Definition fuelled (f : nat -> nat -> nat -> res (Expr * nat * nat)) (c fuel : nat) : Prop :=
  forall pos depth, depth <= max_depth -> pos <= length tokens ->
    4 * (length tokens - pos) + c <= fuel -> returns (f fuel pos depth).

Lemma sound_le f G pos depth e pos' depth' :
  sound f G -> depth <= max_depth -> pos <= length tokens ->
  f pos depth = Ok (e, pos', depth') -> depth' = depth /\ pos <= pos' <= length tokens.
Proof.
  intros Hs Hd Hp (-> & ts & Hspan & _)%Hs; [|done]. split; [done|].
  pose proof (span_le _ _ _ _ Hspan Hp). apply span_length in Hspan. lia.
Qed.

Lemma parsers_return fuel :
  fuelled parse_or 4 fuel /\ (forall l, fuelled (fun f => or_loop f l) 1 fuel) /\
  fuelled parse_and 3 fuel /\ (forall l, fuelled (fun f => and_loop f l) 1 fuel) /\
  fuelled parse_not 2 fuel /\ fuelled parse_primary 1 fuel.
Proof.
  induction fuel as [|fuel (IHor & IHorl & IHand & IHandl & IHnot & IHprim)].
  { unfold fuelled. repeat split; intros; lia. }
  destruct (parsers_sound fuel) as (Sor & _ & Sand & _ & Snot & _).
  repeat split; try (intros pos depth Hd Hp Hf; simpl; match type of Hd with _ <= _ => idtac end);
    try (intros l0 pos depth Hd Hp Hf; simpl).
  - apply returns_bind; [apply IHand; lia|]. intros [[l p1] d1] E.
    pose proof (sound_le _ _ _ _ _ _ _ Sand Hd Hp E) as [_ Hle].
    apply parse_and_advances in E as [-> Hadv]; [|done]. apply IHorl; lia.
  - destruct (at_token _ _ _) eqn:Eo; [|done]. apply at_token_true, lookup_lt_Some in Eo.
    apply returns_bind; [apply IHand; lia|]. intros [[r p1] d1] E.
    pose proof (sound_le _ _ (pos + 1) _ _ _ _ Sand Hd ltac:(lia) E) as [_ Hle].
    apply parse_and_advances in E as [-> Hadv]; [|done]. apply IHorl; lia.
  - apply returns_bind; [apply IHnot; lia|]. intros [[l p1] d1] E.
    pose proof (sound_le _ _ _ _ _ _ _ Snot Hd Hp E) as [_ Hle].
    apply parse_not_advances in E as [-> Hadv]; [|done]. apply IHandl; lia.
  - destruct (at_token _ _ _) eqn:Eo; [|done]. apply at_token_true, lookup_lt_Some in Eo.
    apply returns_bind; [apply IHnot; lia|]. intros [[r p1] d1] E.
    pose proof (sound_le _ _ (pos + 1) _ _ _ _ Snot Hd ltac:(lia) E) as [_ Hle].
    apply parse_not_advances in E as [-> Hadv]; [|done]. apply IHandl; lia.
  - destruct (at_token _ _ _) eqn:Eo; [|apply IHprim; lia].
    apply at_token_true, lookup_lt_Some in Eo.
    destruct (Nat.ltb_spec max_depth (depth + 1)); [done|].
    apply returns_bind; [apply IHnot; lia|]. by intros [[]].
  - destruct (Nat.leb_spec (length tokens) pos); [done|].
    destruct (at_token _ _ _) eqn:Eo.
    { destruct (Nat.ltb_spec max_depth (depth + 1)); [done|].
      apply returns_bind; [apply IHor; lia|]. intros [[x p1] d1] _.
      apply returns_bind; [apply expect_token_returns|done]. }
    destruct (at_function tokens pos).
    { apply returns_bind; [|by intros []].
      apply parse_operand_returns; unfold operand_fuel; lia. }
    apply returns_bind; [apply parse_operand_returns; unfold operand_fuel; lia|].
    intros [x p1] _. apply returns_bind; [apply parse_comparison_returns|]. by intros [].
Qed.
End Conditions.

(** ** Theorems *)

(** C3. The condition parser decides its grammar.  With nesting limit [max_depth], a
    token sequence is parsed to [e] exactly when it has no redundant
    parentheses and the grammar derives [e] from the whole of it with at most
    [max_depth] nested parentheses and negations: AND binds tighter than OR,
    both associate to the left, and NOT binds tighter than AND. *)
Theorem parse_condition_grammar tokens max_depth e :
  parse_condition_with_depth_limit tokens max_depth = Ok e <->
  ~ redundant tokens /\ g_or max_depth tokens e.
Proof.
  unfold parse_condition_with_depth_limit. split.
  - destruct (check_redundant_parens tokens) as [[]|] eqn:Ec; [|done].
    destruct (parse_or _ _ _ _ _) as [[[x pos] d]|] eqn:Ep; [|done].
    destruct (Nat.ltb_spec pos (length tokens)); [done|]. intros [= <-].
    apply parsers_sound in Ep as (-> & ts & Hs & Hg); [|lia].
    split; [by apply check_redundant_parens_iff|]. rewrite Nat.sub_0_r in Hg.
    pose proof (span_le _ _ _ _ Hs ltac:(lia)). assert (pos = length tokens) as -> by lia.
    by apply span_all in Hs as <-.
  - intros [Hr Hg]. rewrite (proj2 (check_redundant_parens_iff tokens) Hr).
    assert (span tokens 0 (length tokens) tokens) as Hs by (by apply span_all).
    rewrite (g_or_reads tokens max_depth _ _ _ Hg (cond_fuel tokens) 0 (length tokens) 0);
      [|lia|done| |unfold cond_fuel; lia].
    + by rewrite Nat.ltb_irrefl.
    + by rewrite lookup_ge_None_2.
Qed.

(** Parsing a condition always returns an expression or an error: the recursion
    ends, whatever the tokens and the nesting limit, and no index is out of
    range. *)
Theorem parse_condition_returns tokens max_depth :
  returns (parse_condition_with_depth_limit tokens max_depth).
Proof.
  unfold parse_condition_with_depth_limit.
  destruct (check_redundant_parens tokens) as [[]|]; [|done].
  apply returns_bind.
  - apply (parsers_return tokens max_depth (cond_fuel tokens)); [lia|lia|].
    unfold cond_fuel. lia.
  - intros [[x pos] d] _. by destruct (pos <? length tokens).
Qed.
