(* ===== verification/UpdateParser.v ===== *)
(** * The update parser

    [crates/core/src/expression/update_parser.rs]: [SET], [REMOVE], [ADD] and
    [DELETE] clauses.  As in [ConditionParser], positions are passed and
    returned, and [update_fuel] bounds the recursion.  [parse_update] and
    [parse_update_from] differ in one error message. *)

From S2P Require Import Prelude BTree Types Error Ast Tokenizer ParserCommon.

Definition is_set_function (name : string) : bool :=
  String.eqb name "if_not_exists" || String.eqb name "list_append".

(** [str::trim_end] on ASCII text: the white space of Unicode that is ASCII. *)
Definition is_trim_space (c : ascii) : bool :=
  (byte c =? 32)%N || ((9 <=? byte c) && (byte c <=? 13))%N.

Definition trim_end (l : list ascii) : list ascii :=
  reverse (drop_while is_trim_space (reverse l)).

Definition build_near_context (source token_text : string) : res string :=
  if is_empty source then Ok token_text
  else
    match list_find_sub (as_bytes source) (as_bytes token_text) with
    | Some start =>
        let end_ := min (start + String.length token_text + 7) (String.length source) in
        let? near := str_slice (as_bytes source) start end_ in
        Ok (of_bytes (trim_end near))
    | None => Ok token_text
    end.

Section Parser.
Variable tokens : list Token.

(** ** Values of [SET] *)

Fixpoint parse_value_expr (fuel : nat) (pos : nat) : res (Expr * nat) :=
  match fuel with
  | O => Err OutOfFuel
  | S fuel =>
      let? (lhs, pos) := parse_set_operand fuel pos in
      let arith_op :=
        match tokens !! pos with
        | Some TokPlus => Some AAdd
        | Some TokMinus => Some ASub
        | _ => None
        end in
      match arith_op with
      | Some op =>
          let? (rhs, pos) := parse_set_operand fuel (pos + 1) in
          Ok (EArithmetic lhs op rhs, pos)
      | None => Ok (lhs, pos)
      end
  end

with parse_set_operand (fuel : nat) (pos : nat) : res (Expr * nat) :=
  match fuel with
  | O => Err OutOfFuel
  | S fuel =>
      match tokens !! pos with
      | None => fail "Invalid UpdateExpression: expected operand"
      | Some (TokPlaceholder name) => Ok (EPlaceholder name, pos + 1)
      | Some (TokIdent name) =>
          if is_set_function (to_ascii_lowercase name) && at_token tokens (pos + 1) TokLParen
          then parse_set_function_call fuel pos
          else
            let? (elements, pos) := parse_path tokens pos in
            Ok (EPath elements, pos)
      | Some (TokNameRef _) =>
          let? (elements, pos) := parse_path tokens pos in
          Ok (EPath elements, pos)
      | Some TokLParen =>
          let? (expr, pos) := parse_value_expr fuel (pos + 1) in
          if at_token tokens pos TokRParen then Ok (expr, pos + 1)
          else fail "Invalid UpdateExpression: expected closing ')'"
      | Some _ => fail "Invalid UpdateExpression: expected path, placeholder, or function"
      end
  end

with parse_set_function_call (fuel : nat) (pos : nat) : res (Expr * nat) :=
  match fuel with
  | O => Err OutOfFuel
  | S fuel =>
      match tokens !! pos with
      | None => Err Panic
      | Some (TokIdent n) =>
          let name := to_ascii_lowercase n in
          let? pos := expect_token tokens (pos + 1) TokLParen "(" "UpdateExpression" in
          let? (args, pos) :=
            if (pos <? length tokens) && negb (at_token tokens pos TokRParen) then
              let? (arg, pos) := parse_set_operand fuel pos in
              comma_loop tokens (parse_set_operand fuel) (S (length tokens)) [arg] pos
            else Ok ([], pos) in
          let? pos := expect_token tokens pos TokRParen ")" "UpdateExpression" in
          Ok (EFunction name args, pos)
      | Some _ => fail "Invalid UpdateExpression: expected function name"
      end
  end.

Definition update_fuel : nat := 2 * length tokens + 2.

Definition parse_add_delete_value (pos : nat) : res (Expr * nat) :=
  match tokens !! pos with
  | None => fail "Invalid UpdateExpression: expected value for ADD/DELETE action"
  | Some (TokPlaceholder name) => Ok (EPlaceholder name, pos + 1)
  | Some _ => fail "Invalid UpdateExpression: ADD/DELETE value must be a placeholder"
  end.

(** ** Clauses *)

(** One action of each clause. *)
Definition parse_set_action (pos : nat) : res (UpdateAction * nat) :=
  let? (path, pos) := parse_path tokens pos in
  let? pos := expect_token tokens pos TokEq "=" "UpdateExpression" in
  let? (value, pos) := parse_value_expr update_fuel pos in
  Ok (USet path value, pos).

Definition parse_remove_action (pos : nat) : res (UpdateAction * nat) :=
  let? (path, pos) := parse_path tokens pos in
  Ok (URemove path, pos).

Definition parse_add_action (pos : nat) : res (UpdateAction * nat) :=
  let? (path, pos) := parse_path tokens pos in
  let? (value, pos) := parse_add_delete_value pos in
  Ok (UAdd path value, pos).

Definition parse_delete_action (pos : nat) : res (UpdateAction * nat) :=
  let? (path, pos) := parse_path tokens pos in
  let? (value, pos) := parse_add_delete_value pos in
  Ok (UDelete path value, pos).

(** The [loop] of [parse_set_actions] and its siblings: an action, and another
    after each comma.  Actions are pushed on the common list. *)
Definition parse_actions (parse_action : nat -> res (UpdateAction * nat))
    (pos : nat) (actions : list UpdateAction) : res (list UpdateAction * nat) :=
  let? (action, pos) := parse_action pos in
  comma_loop tokens parse_action (S (length tokens)) (actions ++ [action]) pos.

Definition parse_set_actions := parse_actions parse_set_action.
Definition parse_remove_actions := parse_actions parse_remove_action.
Definition parse_add_actions := parse_actions parse_add_action.
Definition parse_delete_actions := parse_actions parse_delete_action.

(** The loop over clauses; [other] is the error for a token that starts none. *)
Fixpoint clause_loop (other : Token -> fault) (fuel : nat) (pos : nat)
    (actions : list UpdateAction) : res (list UpdateAction) :=
  match fuel with
  | O => Err OutOfFuel
  | S fuel =>
      match tokens !! pos with
      | None => Ok actions
      | Some TokSet =>
          let? (actions, pos) := parse_set_actions (pos + 1) actions in
          clause_loop other fuel pos actions
      | Some TokRemove =>
          let? (actions, pos) := parse_remove_actions (pos + 1) actions in
          clause_loop other fuel pos actions
      | Some TokAdd =>
          let? (actions, pos) := parse_add_actions (pos + 1) actions in
          clause_loop other fuel pos actions
      | Some TokDelete =>
          let? (actions, pos) := parse_delete_actions (pos + 1) actions in
          clause_loop other fuel pos actions
      | Some t => Err (other t)
      end
  end.

(** The body shared by [parse_update] and [parse_update_from]. *)
Definition parse_update_body (other : Token -> fault) : res (list UpdateAction) :=
  match check_redundant_parens tokens with
  | Err msg => fail ("Invalid UpdateExpression: " +:+ msg)
  | Ok _ =>
      let? actions := clause_loop other (S (length tokens)) 0 [] in
      if bool_decide (actions = []) then
        fail "Invalid UpdateExpression: expression must contain at least one action"
      else Ok actions
  end.

Definition parse_update : res (list UpdateAction) :=
  parse_update_body (fun _ =>
    Fail (ValidationException "Invalid UpdateExpression: expected SET, REMOVE, ADD, or DELETE")).

Definition parse_update_from (source : string) : res (list UpdateAction) :=
  parse_update_body (fun token =>
    let token_text := token_display_text token in
    match build_near_context source token_text with
    | Ok near =>
        syntax_error "Invalid UpdateExpression: " (as_bytes token_text) (as_bytes near)
    | Err e => e
    end).
End Parser.

(** ** The grammar *)

Definition arith_token (t : Token) : option ArithOp :=
  match t with
  | TokPlus => Some AAdd
  | TokMinus => Some ASub
  | _ => None
  end.

Inductive g_value : list Token -> Expr -> Prop :=
  | g_val_operand ts e : g_set_operand ts e -> g_value ts e
  | g_val_arith tl l t op tr r :
      g_set_operand tl l -> arith_token t = Some op -> g_set_operand tr r ->
      g_value (tl ++ t :: tr) (EArithmetic l op r)

with g_set_operand : list Token -> Expr -> Prop :=
  | g_set_placeholder n : g_set_operand [TokPlaceholder n] (EPlaceholder n)
  | g_set_path ts p : g_path ts p -> g_set_operand ts (EPath p)
  | g_set_paren ts e : g_value ts e -> g_set_operand (TokLParen :: ts ++ [TokRParen]) e
  | g_set_call n ts args :
      is_set_function (to_ascii_lowercase n) = true -> g_set_args ts args ->
      g_set_operand (TokIdent n :: TokLParen :: ts ++ [TokRParen])
                    (EFunction (to_ascii_lowercase n) args)

with g_set_args : list Token -> list Expr -> Prop :=
  | g_set_args_nil : g_set_args [] []
  | g_set_args_cons t x ts xs :
      g_set_operand t x -> g_commas g_set_operand ts xs -> g_set_args (t ++ ts) (x :: xs).

(** One action of the clause that starts with the keyword. *)
Inductive g_action : Token -> list Token -> UpdateAction -> Prop :=
  | g_action_set tp p tv v :
      g_path tp p -> g_value tv v -> g_action TokSet (tp ++ TokEq :: tv) (USet p v)
  | g_action_remove tp p : g_path tp p -> g_action TokRemove tp (URemove p)
  | g_action_add tp p n :
      g_path tp p -> g_action TokAdd (tp ++ [TokPlaceholder n]) (UAdd p (EPlaceholder n))
  | g_action_delete tp p n :
      g_path tp p -> g_action TokDelete (tp ++ [TokPlaceholder n]) (UDelete p (EPlaceholder n)).

(** A sequence of clauses, the actions in order. *)
Inductive g_clauses : list Token -> list UpdateAction -> Prop :=
  | g_clauses_nil : g_clauses [] []
  | g_clauses_cons k ts xs rest ys :
      g_list (g_action k) ts xs -> g_clauses rest ys -> g_clauses (k :: ts ++ rest) (xs ++ ys).

Definition set_operand_stop (o : option Token) : bool :=
  match o with
  | Some TokDot | Some TokLBracket | Some TokLParen => false
  | _ => true
  end.

Definition value_stop (o : option Token) : bool :=
  match o with
  | Some TokPlus | Some TokMinus => false
  | _ => set_operand_stop o
  end.

Section Values.
Variable tokens : list Token.

Lemma set_operand_path_stop o : set_operand_stop o = true -> path_stop o = true.
Proof. by destruct o as [[]|]. Qed.

Lemma value_operand_stop o : value_stop o = true -> set_operand_stop o = true.
Proof. by destruct o as [[]|]. Qed.

Lemma g_set_operand_nonempty ts e : g_set_operand ts e -> ts <> [].
Proof. by intros [n|ts' p []|ts' e'|n ts' args]. Qed.

Lemma g_value_nonempty ts e : g_value ts e -> ts <> [].
Proof. intros [ts' e' H%g_set_operand_nonempty|tl]; [done|by destruct tl]. Qed.

Definition reads_as (f : nat -> res (Expr * nat)) (G : list Token -> Expr -> Prop) : Prop :=
  forall pos e pos', f pos = Ok (e, pos') -> exists ts, span tokens pos pos' ts /\ G ts e.

Lemma set_call_sound fuel pos e pos' :
  reads_as (parse_set_operand tokens fuel) g_set_operand ->
  parse_set_function_call tokens (S fuel) pos = Ok (e, pos') ->
  exists n ts args, span tokens pos pos' (TokIdent n :: TokLParen :: ts ++ [TokRParen]) /\
    g_set_args ts args /\ e = EFunction (to_ascii_lowercase n) args.
Proof.
  intros Hop. simpl.
  destruct (tokens !! pos) as [[n| | | | | | | | | | | | | | | | | | | | | | | | |]|] eqn:Ht; try done.
  destruct (expect_token _ _ _ _ _) as [pos1|] eqn:E1; [|done].
  apply expect_token_Ok in E1 as [Hl ->].
  destruct (if _ && _ then _ else _) as [[args pos2]|] eqn:Ea; [|done].
  destruct (expect_token _ pos2 _ _ _) as [pos3|] eqn:E3; [|done].
  apply expect_token_Ok in E3 as [Hr ->]. intros [= <- <-].
  assert (exists ts, span tokens (pos + 1 + 1) pos2 ts /\ g_set_args ts args) as (ts & Hts & Hargs).
  { destruct (_ && _) in Ea.
    - destruct (parse_set_operand tokens fuel _) as [[x pos4]|] eqn:Ex; [|done].
      apply Hop in Ex as (t & Hspan & Hx).
      apply (comma_loop_sound _ _ g_set_operand) in Ea as (ts & xs & -> & Hs & Hg); [|done].
      exists (t ++ ts). split; [apply span_app; eauto|]. by constructor.
    - injection Ea as <- <-. exists []. split; [apply span_nil|constructor]. }
  exists n, ts, args. split; [|done]. apply span_cons. split; [done|].
  apply span_cons. split; [done|]. apply span_app. exists pos2. split; [done|]. by apply span_one.
Qed.

Lemma value_sound fuel :
  reads_as (parse_set_operand tokens fuel) g_set_operand ->
  reads_as (parse_value_expr tokens (S fuel)) g_value.
Proof.
  intros Hop pos e pos'. simpl.
  destruct (parse_set_operand tokens fuel pos) as [[l p1]|] eqn:El; [|done].
  apply Hop in El as (tl & Hsl & Hl).
  assert (Ok (l, p1) = Ok (E := fault) (e, pos') -> exists ts, span tokens pos pos' ts /\ g_value ts e)
    as Hone.
  { intros [= <- <-]. exists tl. split; [done|by constructor]. }
  assert (forall t op, tokens !! p1 = Some t -> arith_token t = Some op ->
    (let? (rhs, pos0) := parse_set_operand tokens fuel (p1 + 1) in
     Ok (EArithmetic l op rhs, pos0)) = Ok (e, pos') ->
    exists ts, span tokens pos pos' ts /\ g_value ts e) as Htwo.
  { intros t op Ht Hop2. destruct (parse_set_operand tokens fuel _) as [[r p2]|] eqn:Er; [|done].
    intros [= <- <-]. apply Hop in Er as (tr & Hsr & Hr). exists (tl ++ t :: tr).
    split; [|by constructor]. apply span_app. exists p1. split; [done|]. by apply span_cons. }
  destruct (tokens !! p1) as [[]|] eqn:Ht; try exact Hone; by eapply Htwo.
Qed.

Lemma set_operand_sound fuel : reads_as (parse_set_operand tokens fuel) g_set_operand.
Proof.
  induction (lt_wf fuel) as [fuel _ IH]. intros pos e pos'. destruct fuel as [|fuel]; [done|].
  simpl. destruct (tokens !! pos) as [t|] eqn:Ht; [|done].
  assert ((let? (elements, pos) := parse_path tokens pos in Ok (EPath elements, pos)) = Ok (e, pos') ->
    exists ts, span tokens pos pos' ts /\ g_set_operand ts e) as Hpath.
  { destruct (parse_path tokens pos) as [[p pos1]|] eqn:Ep; [|done]. intros [= <- <-].
    apply parse_path_sound in Ep as (ts & Hs & Hg & _). eauto using g_set_path. }
  destruct t; try done.
  - destruct (_ && _) eqn:Es; [|exact Hpath].
    apply andb_true_iff in Es as [Hf Hpar]. destruct fuel as [|fuel]; [done|].
    intros (n & ts & args & Hs & Hargs & ->)%set_call_sound; [|apply IH; lia].
    eexists. split; [exact Hs|]. constructor; [|done]. apply span_cons in Hs as [Ht' _]. congruence.
  - intros [= <- <-]. eexists. split; [by apply span_one|]. constructor.
  - destruct fuel as [|fuel]; [done|].
    destruct (parse_value_expr tokens (S fuel) (pos + 1)) as [[x p1]|] eqn:Ev; [|done].
    destruct (at_token tokens p1 TokRParen) eqn:Er; [|done]. intros [= <- <-].
    apply value_sound in Ev as (ts & Hs & Hg); [|apply IH; lia].
    exists (TokLParen :: ts ++ [TokRParen]). split; [|by constructor].
    apply span_cons. split; [done|]. apply span_app. exists p1. split; [done|].
    by apply span_one, at_token_true.
Qed.

Lemma value_expr_sound fuel : reads_as (parse_value_expr tokens fuel) g_value.
Proof. destruct fuel; [by intros ?|]. apply value_sound, set_operand_sound. Qed.

Lemma set_operand_advances fuel pos e pos' :
  parse_set_operand tokens fuel pos = Ok (e, pos') -> pos < pos'.
Proof.
  intros (ts & ->%span_length & Hg)%set_operand_sound.
  apply g_set_operand_nonempty in Hg. destruct ts; simpl; [done|lia].
Qed.

Lemma set_operand_not_rparen t x ts : g_set_operand t x -> head (t ++ ts) <> Some TokRParen.
Proof. by intros [n|ts' p [t' name ts'' p' []]|ts' e|n ts' args]. Qed.

(** [f] reads what [G] derives within [n] tokens, if nothing in [stop] follows. *)
Definition reads_all (f : nat -> res (Expr * nat)) (G : list Token -> Expr -> Prop)
    (stop : option Token -> bool) (n : nat) : Prop :=
  forall ts e pos pos', length ts <= n -> G ts e -> span tokens pos pos' ts ->
    stop (tokens !! pos') = true -> f pos = Ok (e, pos').

Lemma set_call_complete fuel pos pos' n ts args :
  reads_all (parse_set_operand tokens fuel) g_set_operand set_operand_stop (length ts) ->
  g_set_args ts args -> span tokens pos pos' (TokIdent n :: TokLParen :: ts ++ [TokRParen]) ->
  parse_set_function_call tokens (S fuel) pos = Ok (EFunction (to_ascii_lowercase n) args, pos').
Proof.
  intros Hop Hargs Hs. simpl. apply span_cons in Hs as [-> Hs].
  apply span_cons in Hs as [Hl Hs]. apply span_app in Hs as (m & Hts & Hs).
  apply span_cons in Hs as [Hr ->%span_nil_inv].
  rewrite (proj2 (expect_token_Ok _ _ _ _ _ _) (conj Hl eq_refl)).
  assert (set_operand_stop (tokens !! m) = true) as Hstop by (by rewrite Hr).
  pose proof (lookup_lt_Some _ _ _ Hr) as Hm. pose proof (span_length _ _ _ _ Hts) as Hlen.
  rewrite (proj2 (Nat.ltb_lt _ _)) by lia. simpl.
  destruct Hargs as [|t x ts xs Hx Hxs].
  - apply span_nil_inv in Hts as ->. rewrite (proj2 (at_token_true _ _ _) Hr). simpl.
    by rewrite (proj2 (expect_token_Ok _ _ _ _ _ _) (conj Hr eq_refl)).
  - unfold reads_all in Hop. rewrite length_app in *.
    assert (at_token tokens (pos + 1 + 1) TokRParen = false) as ->.
    { apply at_token_false. intros E. apply (set_operand_not_rparen t x ts Hx).
      destruct (t ++ ts) as [|u us] eqn:E2; [by apply g_set_operand_nonempty in Hx; destruct t|].
      apply span_cons in Hts as [Hu _]. simpl. congruence. }
    simpl. apply span_app in Hts as (m1 & Ht & Hts).
    assert (set_operand_stop (tokens !! m1) = true) as Hstop1.
    { destruct Hxs; [by apply span_nil_inv in Hts as ->|]. by apply span_cons in Hts as [-> _]. }
    rewrite (Hop t x _ _ ltac:(lia) Hx Ht Hstop1).
    pose proof (span_length _ _ _ _ Hts) as Hlen2.
    rewrite (comma_loop_complete tokens _ g_set_operand (length ts) set_operand_stop _ [x] m1 m ts xs);
      try done.
    + simpl. by rewrite (proj2 (expect_token_Ok _ _ _ _ _ _) (conj Hr eq_refl)).
    + intros t' x' p1 p2 Hle. apply Hop. lia.
    + by rewrite Hr.
    + lia.
Qed.

Lemma arith_token_stop t op : arith_token t = Some op -> set_operand_stop (Some t) = true.
Proof. by destruct t. Qed.

Lemma value_complete fuel n :
  reads_all (parse_set_operand tokens fuel) g_set_operand set_operand_stop n ->
  reads_all (parse_value_expr tokens (S fuel)) g_value value_stop n.
Proof.
  intros Hop ts e pos pos' Hn Hg Hs Hstop. pose proof (value_operand_stop _ Hstop) as Hstop2.
  simpl. destruct Hg as [ts e Hg|tl l t op tr r Hl Ht Hr].
  - rewrite (Hop ts e pos pos') by done. by destruct (tokens !! pos') as [[]|].
  - rewrite length_app in Hn. simpl in Hn. apply span_app in Hs as (m & Hsl & Hs).
    apply span_cons in Hs as [Hm Hs].
    rewrite (Hop tl l pos m) by (done || lia || (rewrite Hm; by eapply arith_token_stop)).
    rewrite Hm, (Hop tr r (m + 1) pos') by (done || lia). destruct t; try discriminate Ht; by injection Ht as <-.
Qed.

Lemma set_operand_complete fuel n :
  2 * n <= fuel -> reads_all (parse_set_operand tokens fuel) g_set_operand set_operand_stop n.
Proof.
  revert n. induction (lt_wf fuel) as [fuel _ IH]. intros n Hf ts e pos pos' Hn Hg Hs Hstop.
  pose proof (g_set_operand_nonempty _ _ Hg) as Hne.
  assert (length ts <> 0) by (by destruct ts). destruct fuel as [|fuel]; [lia|]. simpl.
  destruct Hg as [m|ts p Hp|ts e Hg|m ts args Hm Hargs].
  - by apply span_cons in Hs as [-> ->%span_nil_inv].
  - rewrite (parse_path_complete _ _ _ _ _ Hs Hp) by (by apply set_operand_path_stop).
    destruct Hp as [t name ts p Ha Hp].
    apply span_cons in Hs as [-> Hs]. destruct Ha; [|done].
    assert (at_token tokens (pos + 1) TokLParen = false) as ->; [|by rewrite andb_false_r].
    apply at_token_false. intros E. destruct Hp.
    + apply span_nil_inv in Hs as ->. by rewrite E in Hstop.
    + apply span_cons in Hs as [Hd _]. congruence.
    + apply span_cons in Hs as [Hd _]. congruence.
  - apply span_cons in Hs as [-> Hs]. apply span_app in Hs as (m & Hs & Hr).
    apply span_cons in Hr as [Hr ->%span_nil_inv].
    simpl in Hn. rewrite length_app in Hn. simpl in Hn.
    destruct fuel as [|fuel]; [lia|].
    rewrite (value_complete fuel (n - 2) ltac:(apply IH; lia) ts e (pos + 1) m)
      by (done || lia || by rewrite Hr).
    by rewrite (proj2 (at_token_true _ _ _) Hr).
  - pose proof Hs as Hs'. apply span_cons in Hs' as [-> Hs']. apply span_cons in Hs' as [Hl _].
    rewrite Hm, (proj2 (at_token_true _ _ _) Hl). simpl.
    simpl in Hn. rewrite length_app in Hn. simpl in Hn. destruct fuel as [|fuel]; [lia|].
    eapply set_call_complete; [|exact Hargs|exact Hs]. apply IH; lia.
Qed.

Lemma value_expr_complete fuel n :
  2 * n + 1 <= fuel -> reads_all (parse_value_expr tokens fuel) g_value value_stop n.
Proof. intros Hf. destruct fuel as [|fuel]; [lia|]. apply value_complete, set_operand_complete. lia. Qed.

Lemma set_parsers_return fuel : forall pos, pos <= length tokens ->
  (2 * (length tokens - pos) + 2 <= fuel -> returns (parse_value_expr tokens fuel pos)) /\
  (2 * (length tokens - pos) + 1 <= fuel -> returns (parse_set_operand tokens fuel pos)) /\
  (pos < length tokens -> 2 * (length tokens - pos) <= fuel ->
     returns (parse_set_function_call tokens fuel pos)).
Proof.
  assert (forall fuel pos x pos', pos <= length tokens ->
    parse_set_operand tokens fuel pos = Ok (x, pos') -> pos < pos' <= length tokens) as Hadv.
  { intros f p x p' Hp E. pose proof (set_operand_advances _ _ _ _ E).
    apply set_operand_sound in E as (ts & Hs & _). apply span_le in Hs; [lia|done]. }
  induction fuel as [|fuel IH]; intros pos Hp; [repeat split; intros; lia|].
  split; [|split]; simpl.
  - intros Hf. apply returns_bind; [apply IH; lia|]. intros [l p1] E%Hadv; [|done].
    assert (forall op, returns (let? (rhs, pos0) := parse_set_operand tokens fuel (p1 + 1) in
      Ok (EArithmetic l op rhs, pos0)) \/ length tokens <= p1) as H.
    { intros op. destruct (decide (p1 < length tokens)); [left|lia].
      apply returns_bind; [apply IH; lia|by intros []]. }
    destruct (tokens !! p1) as [[]|] eqn:Ht; try done; apply lookup_lt_Some in Ht;
      [destruct (H AAdd)|destruct (H ASub)]; done || lia.
  - intros Hf. destruct (tokens !! pos) as [t|] eqn:Ht; [|done].
    apply lookup_lt_Some in Ht. pose proof (parse_path_returns tokens pos) as Hpath.
    destruct t; try done.
    + destruct (_ && _); [apply IH; lia|]. by destruct (parse_path tokens pos) as [[]|[]].
    + by destruct (parse_path tokens pos) as [[]|[]].
    + apply returns_bind; [apply IH; lia|]. intros [x p1] _. by destruct (at_token _ _ _).
  - intros Hlt Hf. destruct (lookup_lt_is_Some_2 tokens pos Hlt) as [t ->]. destruct t; try done.
    apply returns_bind; [apply expect_token_returns|]. intros p1 E1.
    apply expect_token_Ok in E1 as [Hpar%lookup_lt_Some ->].
    apply returns_bind.
    + destruct (_ && _) eqn:Ec; [|done]. apply andb_true_iff in Ec as [Hl2%Nat.ltb_lt _].
      assert (forall p, pos + 1 < p -> returns (parse_set_operand tokens fuel p)) as Hr.
      { intros p Hpp. destruct (decide (p <= length tokens)); [apply IH; lia|].
        destruct fuel; [lia|]. simpl. by rewrite lookup_ge_None_2 by lia. }
      apply returns_bind; [apply Hr; lia|]. intros [x p2] Ex%Hadv; [|lia].
      apply comma_loop_returns; [|apply set_operand_advances|lia|lia].
      intros p3 Hp3. apply Hr. lia.
    + intros [args p2] _. apply returns_bind; [apply expect_token_returns|done].
Qed.
End Values.

#[local] Arguments parse_value_expr : simpl never.
#[local] Arguments parse_set_operand : simpl never.

Section Clauses.
Variable tokens : list Token.

(** The parser of one action of the clause that a keyword starts. *)
Definition action_parser (k : Token) : option (nat -> res (UpdateAction * nat)) :=
  match k with
  | TokSet => Some (parse_set_action tokens)
  | TokRemove => Some (parse_remove_action tokens)
  | TokAdd => Some (parse_add_action tokens)
  | TokDelete => Some (parse_delete_action tokens)
  | _ => None
  end.

Lemma clause_loop_step other fuel pos actions :
  clause_loop tokens other (S fuel) pos actions =
  match tokens !! pos with
  | None => Ok actions
  | Some k =>
      match action_parser k with
      | Some p =>
          let? (actions, pos) := parse_actions tokens p (pos + 1) actions in
          clause_loop tokens other fuel pos actions
      | None => Err (other k)
      end
  end.
Proof. simpl. by destruct (tokens !! pos) as [[]|]. Qed.

Lemma add_delete_value_Ok pos e pos' :
  parse_add_delete_value tokens pos = Ok (e, pos') ->
  exists n, e = EPlaceholder n /\ span tokens pos pos' [TokPlaceholder n].
Proof.
  unfold parse_add_delete_value. destruct (tokens !! pos) as [[]|] eqn:Ht; try done.
  intros [= <- <-]. eauto using span_one.
Qed.

Lemma action_sound k p pos a pos' :
  action_parser k = Some p -> p pos = Ok (a, pos') ->
  exists ts, span tokens pos pos' ts /\ g_action k ts a.
Proof.
  assert (forall k mk, (forall tp q n, g_path tp q ->
      g_action k (tp ++ [TokPlaceholder n]) (mk q (EPlaceholder n))) ->
    (let? (path, pos) := parse_path tokens pos in
     let? (value, pos) := parse_add_delete_value tokens pos in
     Ok (mk path value, pos)) = Ok (a, pos') ->
    exists ts, span tokens pos pos' ts /\ g_action k ts a) as Hpv.
  { intros k' mk Hmk. destruct (parse_path tokens pos) as [[q p1]|] eqn:Ep; [|done].
    apply parse_path_sound in Ep as (tp & Hsp & Hq & _).
    destruct (parse_add_delete_value tokens p1) as [[v p2]|] eqn:Ev; [|done].
    intros [= <- <-]. apply add_delete_value_Ok in Ev as (n & -> & Hn).
    eexists. split; [apply span_app; eauto|]. by apply Hmk. }
  destruct k; intros Ek; try discriminate Ek; injection Ek as <-.
  - unfold parse_set_action. destruct (parse_path tokens pos) as [[q p1]|] eqn:Ep; [|done].
    apply parse_path_sound in Ep as (tp & Hsp & Hq & _).
    destruct (expect_token _ _ _ _ _) as [p2|] eqn:Ee; [|done].
    apply expect_token_Ok in Ee as [He ->].
    destruct (parse_value_expr _ _ _) as [[v p3]|] eqn:Ev; [|done]. intros [= <- <-].
    apply value_expr_sound in Ev as (tv & Hsv & Hv).
    exists (tp ++ TokEq :: tv). split; [|by constructor]. apply span_app. exists p1.
    split; [done|]. by apply span_cons.
  - unfold parse_remove_action. destruct (parse_path tokens pos) as [[q p1]|] eqn:Ep; [|done].
    intros [= <- <-]. apply parse_path_sound in Ep as (tp & Hsp & Hq & _).
    exists tp. split; [done|by constructor].
  - apply Hpv. by constructor.
  - apply Hpv. by constructor.
Qed.

Lemma value_path_stop o : value_stop o = true -> path_stop o = true.
Proof. by destruct o as [[]|]. Qed.

Lemma action_complete k p ts a pos pos' :
  action_parser k = Some p -> g_action k ts a -> span tokens pos pos' ts ->
  value_stop (tokens !! pos') = true -> p pos = Ok (a, pos').
Proof.
  intros Ek Hg Hs Hstop.
  destruct Hg as [tp q tv v Hq Hv|tp q Hq|tp q n Hq|tp q n Hq]; injection Ek as <-.
  - unfold parse_set_action. apply span_app in Hs as (m & Hsp & Hs).
    apply span_cons in Hs as [He Hs].
    rewrite (parse_path_complete _ _ _ _ _ Hsp Hq) by (by rewrite He).
    rewrite (proj2 (expect_token_Ok _ _ _ _ _ _) (conj He eq_refl)).
    pose proof (lookup_lt_Some _ _ _ He). pose proof (span_le _ _ _ _ Hs ltac:(lia)).
    pose proof (span_length _ _ _ _ Hs).
    by rewrite (value_expr_complete tokens (update_fuel tokens) (length tokens)
      ltac:(unfold update_fuel; lia) tv v (m + 1) pos') by (done || lia).
  - unfold parse_remove_action.
    by rewrite (parse_path_complete _ _ _ _ _ Hs Hq) by (by apply value_path_stop).
  - unfold parse_add_action. apply span_app in Hs as (m & Hsp & Hs).
    apply span_cons in Hs as [Hn ->%span_nil_inv].
    rewrite (parse_path_complete _ _ _ _ _ Hsp Hq) by (by rewrite Hn).
    unfold parse_add_delete_value. by rewrite Hn.
  - unfold parse_delete_action. apply span_app in Hs as (m & Hsp & Hs).
    apply span_cons in Hs as [Hn ->%span_nil_inv].
    rewrite (parse_path_complete _ _ _ _ _ Hsp Hq) by (by rewrite Hn).
    unfold parse_add_delete_value. by rewrite Hn.
Qed.

Lemma g_path_nonempty ts q : g_path ts q -> ts <> [].
Proof. by intros []. Qed.

Lemma g_action_nonempty k ts a : g_action k ts a -> ts <> [].
Proof. intros [tp q tv v H|tp q H|tp q n H|tp q n H]; apply g_path_nonempty in H; by destruct tp. Qed.

Lemma action_advances k p pos a pos' :
  action_parser k = Some p -> p pos = Ok (a, pos') -> pos < pos'.
Proof.
  intros Hk (ts & ->%span_length & Hg%g_action_nonempty)%(action_sound k); [|done].
  destruct ts; simpl; [done|lia].
Qed.

Lemma action_returns k p pos :
  action_parser k = Some p -> returns (p pos).
Proof.
  assert (forall pos, returns (parse_add_delete_value tokens pos)) as Hv.
  { intros q. unfold parse_add_delete_value. by destruct (tokens !! q) as [[]|]. }
  pose proof (parse_path_returns tokens pos) as Hpath.
  intros Ek. destruct k; try discriminate Ek; injection Ek as <-;
    (apply returns_bind; [done|]); intros [q p1] _.
  - apply returns_bind; [apply expect_token_returns|]. intros p2 [He ->]%expect_token_Ok.
    apply lookup_lt_Some in He. apply returns_bind; [|by intros []].
    apply set_parsers_return; unfold update_fuel; lia.
  - done.
  - apply returns_bind; [done|by intros []].
  - apply returns_bind; [done|by intros []].
Qed.

Lemma actions_sound k p pos actions res pos' :
  action_parser k = Some p -> parse_actions tokens p pos actions = Ok (res, pos') ->
  exists ts xs, res = actions ++ xs /\ span tokens pos pos' ts /\ g_list (g_action k) ts xs.
Proof.
  intros Hk. unfold parse_actions. destruct (p pos) as [[a p1]|] eqn:Ep; [|done].
  apply (action_sound k) in Ep as (t & Ht & Ha); [|done].
  intros (ts & xs & -> & Hs & Hg)%(comma_loop_sound _ _ (g_action k));
    [|intros q x q' Hq; by eapply action_sound].
  exists (t ++ ts), (a :: xs). rewrite <- app_assoc. split; [done|].
  split; [apply span_app; eauto|]. by exists t, a, ts, xs.
Qed.

Lemma actions_complete k p pos pos' actions ts xs :
  action_parser k = Some p -> g_list (g_action k) ts xs -> span tokens pos pos' ts ->
  value_stop (tokens !! pos') = true -> tokens !! pos' <> Some TokComma ->
  parse_actions tokens p pos actions = Ok (actions ++ xs, pos').
Proof.
  intros Hk (t & x & ts' & xs' & -> & -> & Hx & Hxs) Hs Hstop Hnc.
  apply span_app in Hs as (m & Ht & Hs). unfold parse_actions.
  assert (value_stop (tokens !! m) = true) as Hm.
  { destruct Hxs; [by apply span_nil_inv in Hs as ->|]. by apply span_cons in Hs as [-> _]. }
  rewrite (action_complete k p t x pos m) by done.
  assert (length ts' <= length tokens).
  { destruct Hs as [Hd _]. apply (f_equal length) in Hd. rewrite length_app, !length_drop in Hd. lia. }
  rewrite (comma_loop_complete tokens p (g_action k) (length ts') value_stop _ _ m pos' ts' xs');
    try done; [by rewrite <- app_assoc| |lia].
  intros t' x' p1 p2 _ Hg' Hs' Hst'. by eapply action_complete.
Qed.

Lemma actions_return k p pos actions :
  action_parser k = Some p -> returns (parse_actions tokens p pos actions).
Proof.
  intros Hk. unfold parse_actions. apply returns_bind; [by eapply action_returns|].
  intros [a p1] _. apply comma_loop_returns; [|intros q x q' Hq; by eapply (action_advances k p)|lia|lia].
  intros p2 _. by eapply action_returns.
Qed.

Lemma clause_loop_sound other fuel pos actions res :
  pos <= length tokens -> clause_loop tokens other fuel pos actions = Ok res ->
  exists ts ys, res = actions ++ ys /\ span tokens pos (length tokens) ts /\ g_clauses ts ys.
Proof.
  revert pos actions. induction fuel as [|fuel IH]; intros pos actions Hp; [done|].
  rewrite clause_loop_step. destruct (tokens !! pos) as [k|] eqn:Hk.
  - destruct (action_parser k) as [p|] eqn:Ek; [|done].
    destruct (parse_actions _ _ _ _) as [[acts p1]|] eqn:Ea; [|done].
    apply (actions_sound k) in Ea as (ts & xs & -> & Hs & Hg); [|done].
    intros (rest & ys & -> & Hr & Hgr)%IH.
    + exists (k :: ts ++ rest), (xs ++ ys). rewrite <- app_assoc. split; [done|].
      split; [|by constructor]. apply span_cons. split; [done|]. apply span_app. eauto.
    + apply span_le in Hs; [done|]. apply lookup_lt_Some in Hk. lia.
  - intros [= <-]. apply lookup_ge_None in Hk. assert (pos = length tokens) as -> by lia.
    exists [], []. rewrite app_nil_r. split; [done|]. split; [apply span_nil|constructor].
Qed.

Lemma g_list_action_parser k ts xs : g_list (g_action k) ts xs -> is_Some (action_parser k).
Proof. intros (t & x & ts' & xs' & _ & _ & Hx & _). by destruct Hx; eexists. Qed.

Lemma g_clauses_next ts ys pos :
  g_clauses ts ys -> span tokens pos (length tokens) ts ->
  value_stop (tokens !! pos) = true /\ tokens !! pos <> Some TokComma.
Proof.
  intros Hg Hs. destruct Hg as [|k ts xs rest ys Hl Hg].
  - apply span_nil_inv in Hs as <-. by rewrite lookup_ge_None_2.
  - apply span_cons in Hs as [-> _]. apply g_list_action_parser in Hl as [p Hp]. by destruct k.
Qed.

Lemma clause_loop_complete other fuel pos actions ts ys :
  g_clauses ts ys -> span tokens pos (length tokens) ts -> length ts < fuel ->
  clause_loop tokens other fuel pos actions = Ok (actions ++ ys).
Proof.
  intros Hg. revert fuel pos actions.
  induction Hg as [|k ts xs rest ys Hl Hg IH]; intros [|fuel] pos actions Hs Hf; try lia;
    rewrite clause_loop_step.
  - apply span_nil_inv in Hs as <-. by rewrite lookup_ge_None_2, app_nil_r.
  - apply span_cons in Hs as [Hk Hs]. rewrite Hk.
    destruct (g_list_action_parser _ _ _ Hl) as [p Hp]. rewrite Hp.
    apply span_app in Hs as (m & Hs & Hr). destruct (g_clauses_next _ _ _ Hg Hr) as [Hst Hnc].
    rewrite (actions_complete k p _ m _ ts xs) by done. rewrite app_assoc. apply IH; [done|].
    simpl in Hf. rewrite length_app in Hf. lia.
Qed.

Lemma clause_loop_returns other fuel pos actions :
  (forall t, In t tokens -> @returns unit (Err (other t))) ->
  pos <= length tokens -> length tokens < pos + fuel ->
  returns (clause_loop tokens other fuel pos actions).
Proof.
  intros Ho. revert pos actions. induction fuel as [|fuel IH]; intros pos actions Hp Hf; [lia|].
  rewrite clause_loop_step. destruct (tokens !! pos) as [k|] eqn:Hk; [|done].
  destruct (action_parser k) as [p|] eqn:Ek.
  - apply returns_bind; [by eapply actions_return|]. intros [acts p1] E.
    apply (actions_sound k) in E as (ts & xs & _ & Hs & _); [|done].
    apply lookup_lt_Some in Hk. pose proof (span_le _ _ _ _ Hs ltac:(lia)).
    apply span_length in Hs. apply IH; lia.
  - apply Ho. apply list_elem_of_In. by eapply list_elem_of_lookup_2.
Qed.
End Clauses.

(** ** Theorems *)

Lemma parse_update_body_iff tokens other actions :
  parse_update_body tokens other = Ok actions <->
  ~ redundant tokens /\ g_clauses tokens actions /\ actions <> [].
Proof.
  unfold parse_update_body. rewrite <- check_redundant_parens_iff. split.
  - destruct (check_redundant_parens tokens) as [[]|]; [|done].
    destruct (clause_loop _ _ _ _ _) as [acts|] eqn:E; [|done].
    case_bool_decide; [done|]. intros [= <-].
    apply clause_loop_sound in E as (ts & ys & -> & Hs & Hg); [|lia].
    by apply span_all in Hs as ->.
  - intros (-> & Hg & Hne).
    rewrite (clause_loop_complete tokens other _ 0 [] tokens actions Hg); [|by apply span_all|lia].
    simpl. by rewrite bool_decide_eq_false_2.
Qed.

Lemma parse_update_body_returns tokens other :
  (forall t, In t tokens -> @returns unit (Err (other t))) ->
  returns (parse_update_body tokens other).
Proof.
  intros Ho. unfold parse_update_body. destruct (check_redundant_parens tokens); [|done].
  apply returns_bind; [by apply clause_loop_returns; [|lia..]|].
  intros acts _. by case_bool_decide.
Qed.

Lemma ascii_boundary l i :
  forallb is_ascii l = true -> i <= length l -> is_char_boundary l i = true.
Proof.
  intros Ha Hi. apply utf8_ascii_boundary; [by apply ascii_utf8|done|].
  rewrite <- (take_drop i l), forallb_app in Ha. by apply andb_true_iff in Ha as [? _].
Qed.

Lemma list_find_sub_le (l p : list ascii) i : list_find_sub l p = Some i -> i <= length l.
Proof.
  revert i. induction l as [|c l IH]; intros i.
  - destruct p; simpl; [|done]. intros [= <-]. lia.
  - change (list_find_sub (c :: l) p)
      with (if list_starts_with (c :: l) p then Some 0 else S <$> list_find_sub l p).
    destruct (list_starts_with (c :: l) p); [intros [= <-]; lia|].
    destruct (list_find_sub l p) as [j|]; [|done]. intros [= <-].
    specialize (IH j eq_refl). simpl. lia.
Qed.

Lemma build_near_context_returns source t :
  forallb is_ascii (as_bytes source) = true -> exists near, build_near_context source t = Ok near.
Proof.
  intros Ha. unfold build_near_context. destruct (is_empty source); [eauto|].
  destruct (list_find_sub _ _) as [start|] eqn:E; [|eauto].
  apply list_find_sub_le in E. rewrite <- !length_as_bytes.
  rewrite str_slice_Ok; [eauto|lia|apply ascii_boundary; [done|lia]..].
Qed.

(** C38. The update parser decides its grammar, with either set of error messages: it
    returns the actions exactly when the tokens have no redundant parentheses
    and are a non-empty sequence of SET, REMOVE, ADD and DELETE clauses that
    spells those actions in that order. *)
Theorem parse_update_grammar tokens source actions :
  let derived := ~ redundant tokens /\ g_clauses tokens actions /\ actions <> [] in
  (parse_update tokens = Ok actions <-> derived) /\
  (parse_update_from tokens source = Ok actions <-> derived).
Proof. split; apply parse_update_body_iff. Qed.

(** Parsing an update returns an expression or an error: the recursion ends for
    any tokens, and when the tokens are those of the source text the error
    message is cut out of it on character boundaries, so nothing panics. *)
Theorem parse_update_no_panic tokens source max_tokens kind :
  returns (parse_update tokens) /\
  (tokenize_for source max_tokens kind = Ok tokens -> returns (parse_update_from tokens source)).
Proof.
  split; [by apply parse_update_body_returns|].
  intros (Ha & _ & _)%tokenize_for_Ok. apply parse_update_body_returns. intros t _.
  destruct (build_near_context_returns source (token_display_text t) Ha) as [near E].
  cbv zeta. by rewrite E.
Qed.

Lemma parse_update_no_panic_witness :
  returns (parse_update_from [TokIdent "FOO"; TokIdent "a"] "FOO a").
Proof.
  apply (parse_update_no_panic [TokIdent "FOO"; TokIdent "a"] "FOO a" 4096 KUpdate).
  vm_compute. reflexivity.
Defined.

(** A parsed update has at least one action, every ADD and DELETE operand is a
    placeholder, and the update is classified as removing only exactly when it
    has neither SET nor ADD actions. *)
Theorem parse_update_actions tokens actions :
  parse_update tokens = Ok actions ->
  actions <> [] /\
  (forall path value, In (UAdd path value) actions \/ In (UDelete path value) actions ->
     exists name, value = EPlaceholder name) /\
  (removes_only actions = false <->
     exists path value, In (USet path value) actions \/ In (UAdd path value) actions).
Proof.
  intros (_ & Hg & Hne)%parse_update_body_iff. split; [done|]. split.
  - intros path value. clear Hne. induction Hg as [|k ts xs rest ys Hl Hg IH]; [intros [[]|[]]|].
    rewrite !in_app_iff. intros Hin.
    assert (In (UAdd path value) xs \/ In (UDelete path value) xs \/
      (In (UAdd path value) ys \/ In (UDelete path value) ys)) as [Hx|[Hx|Hy]] by tauto; [..|auto];
      destruct Hl as (t & x & ts' & xs' & -> & -> & Hx0 & Hxs);
      (assert (forall a, In a (x :: xs') -> exists t, g_action k t a) as Hall
        by (intros a [<-|Ha]; [eauto|]; clear -Hxs Ha; induction Hxs; naive_solver));
      apply Hall in Hx as [t' Ht']; inversion Ht'; eauto.
  - assert (removes_only actions = forallb action_removes_only actions) as ->
      by (by destruct actions).
    rewrite <- not_true_iff_false, forallb_forall. split.
    + intros Hn. destruct (existsb (fun a => negb (action_removes_only a)) actions) eqn:Ex.
      * apply existsb_exists in Ex as ([p v|p|p v|p v] & Hin & Ha); try done; eauto.
      * exfalso. apply Hn. intros a Hin. destruct (action_removes_only a) eqn:Ea; [done|].
        assert (existsb (fun a => negb (action_removes_only a)) actions = true); [|congruence].
        apply existsb_exists. exists a. by rewrite Ea.
    + intros (p & v & [Hin|Hin]) Hall; by apply Hall in Hin.
Qed.

Lemma parse_update_actions_witness :
  removes_only [UAdd [PAttr "n"] (EPlaceholder "v")] = false.
Proof.
  apply (parse_update_actions [TokAdd; TokIdent "n"; TokPlaceholder "v"]
    [UAdd [PAttr "n"] (EPlaceholder "v")]).
  - vm_compute. reflexivity.
  - exists [PAttr "n"], (EPlaceholder "v"). right. left. reflexivity.
Defined.
