(* ===== verification/Resolver.v ===== *)
(** * Names and values of expressions

    [crates/core/src/expression/resolver.rs]: the attribute names and values a
    request supplies, document paths resolved against an item, and the checks
    that run over a parsed expression before it is evaluated.  A Rust [HashMap]
    is a [gmap]; where the code walks the keys in hash order the model takes
    the order as an argument. *)

From S2P Require Import Prelude BTree Types Error Decimal Ast.

(** ** Expression maps *)

Record ExpressionMaps (D : Type) : Type := {
  em_names : gmap string string;
  em_values : gmap string AttributeValue;
  em_legacy_attribute_updates : bool;
  em_parsed_numerics : gmap string D
}.
Arguments em_names {D} _.
Arguments em_values {D} _.
Arguments em_legacy_attribute_updates {D} _.
Arguments em_parsed_numerics {D} _.

Section Maps.
Context {D : Type} `{BigDecimal D}.
Implicit Type maps : ExpressionMaps D.

(** The numeric value that [pre_parse_numerics] stores for a placeholder. *)
Definition parse_numeric (v : AttributeValue) : option D :=
  match v with
  | AV_N n => bd_parse n
  | _ => None
  end.

(** Each parsed value is inserted over what the map had. *)
Definition pre_parse_numerics maps : ExpressionMaps D :=
  {| em_names := em_names maps;
     em_values := em_values maps;
     em_legacy_attribute_updates := em_legacy_attribute_updates maps;
     em_parsed_numerics := omap parse_numeric (em_values maps) ∪ em_parsed_numerics maps |}.

(** [ExpressionMaps::new]. *)
Definition maps_new (names : gmap string string) (values : gmap string AttributeValue)
    : ExpressionMaps D :=
  pre_parse_numerics
    {| em_names := names; em_values := values; em_legacy_attribute_updates := false;
       em_parsed_numerics := ∅ |}.

Definition get_parsed_numeric maps (placeholder : string) : option D :=
  em_parsed_numerics maps !! placeholder.

Definition resolve_name maps (name_ref : string) : res string :=
  match em_names maps !! name_ref with
  | Some n => Ok n
  | None =>
      fail ("An expression attribute name used in the document path is not defined; attribute name: #"
            +:+ name_ref)
  end.

Definition resolve_value maps (placeholder : string) : res AttributeValue :=
  match em_values maps !! placeholder with
  | Some v => Ok v
  | None =>
      fail ("An expression attribute value used in expression is not defined; attribute value: :"
            +:+ placeholder)
  end.

Definition resolve_value_for maps (placeholder expr_type : string) : res AttributeValue :=
  match em_values maps !! placeholder with
  | Some v => Ok v
  | None =>
      fail ("Invalid " +:+ expr_type +:+
            ": An expression attribute value used in expression is not defined; attribute value: :"
            +:+ placeholder)
  end.

(** ** Document paths *)

Definition resolve_name_ref (name : string) maps : res string :=
  match strip_prefix_char "#" name with
  | Some ref_name => resolve_name maps ref_name
  | None => Ok name
  end.

Definition resolve_element_name (element : PathElement) maps : res string :=
  match element with
  | PAttr name => resolve_name_ref name maps
  | PIndex _ => fail "Invalid expression: path cannot start with an index"
  end.

(** The loop of [resolve_path]. *)
Fixpoint resolve_steps (elements : list PathElement) (current : AttributeValue) maps
    : res (option AttributeValue) :=
  match elements with
  | [] => Ok (Some current)
  | PAttr name :: rest =>
      let? resolved := resolve_name_ref name maps in
      match current with
      | AV_M map =>
          match bt_get resolved map with
          | Some v => resolve_steps rest v maps
          | None => Ok None
          end
      | _ => Ok None
      end
  | PIndex idx :: rest =>
      match current with
      | AV_L list =>
          match get_N list idx with
          | Some v => resolve_steps rest v maps
          | None => Ok None
          end
      | _ => Ok None
      end
  end.

Definition resolve_path (elements : list PathElement) (item : Item) maps
    : res (option AttributeValue) :=
  match elements with
  | [] => Ok None
  | first :: rest =>
      let? first_name := resolve_element_name first maps in
      match bt_get first_name item with
      | Some current => resolve_steps rest current maps
      | None => Ok None
      end
  end.

(** ** Checks before evaluation *)

(** [attribute_type_code]. *)
Definition attribute_type_code (val : AttributeValue) : string :=
  match val with
  | AV_S _ => "S"
  | AV_N _ => "N"
  | AV_B _ => "B"
  | AV_Bool _ => "BOOL"
  | AV_Null => "NULL"
  | AV_L _ => "L"
  | AV_M _ => "M"
  | AV_SS _ => "SS"
  | AV_NS _ => "NS"
  | AV_BS _ => "BS"
  end.

Definition incorrect_operand {A : Type} (op_label type_code : string) : res A :=
  fail ("Incorrect operand type for operator or function; operator or function: " +:+ op_label
        +:+ ", operand type: " +:+ type_code).

Fixpoint validate_begins_with_operands (expr : Expr) maps : res unit :=
  match expr with
  | EFunction name args =>
      if String.eqb name "begins_with" then
        match args with
        | [_; EPlaceholder placeholder] =>
            match em_values maps !! placeholder with
            | Some (AV_S _) | Some (AV_B _) | None => Ok tt
            | Some val => incorrect_operand "begins_with" (attribute_type_code val)
            end
        | _ => Ok tt
        end
      else Ok tt
  | EAnd l r | EOr l r =>
      let? _ := validate_begins_with_operands l maps in
      validate_begins_with_operands r maps
  | ENot inner => validate_begins_with_operands inner maps
  | _ => Ok tt
  end.

Definition ordering_op_symbol (op : CompareOp) : option string :=
  match op with
  | CLt => Some "<"
  | CLe => Some "<="
  | CGt => Some ">"
  | CGe => Some ">="
  | CEq | CNe => None
  end.

Definition reject_non_orderable_literal (operand : Expr) maps (op_label : string) : res unit :=
  match operand with
  | EPlaceholder placeholder =>
      match em_values maps !! placeholder with
      | Some (AV_S _) | Some (AV_N _) | Some (AV_B _) | None => Ok tt
      | Some val => incorrect_operand op_label (attribute_type_code val)
      end
  | _ => Ok tt
  end.

Fixpoint validate_ordering_operand_types (expr : Expr) maps : res unit :=
  match expr with
  | ECompare l op r =>
      match ordering_op_symbol op with
      | Some symbol =>
          let? _ := reject_non_orderable_literal l maps symbol in
          reject_non_orderable_literal r maps symbol
      | None => Ok tt
      end
  | EBetween operand low high =>
      let? _ := reject_non_orderable_literal operand maps "BETWEEN" in
      let? _ := reject_non_orderable_literal low maps "BETWEEN" in
      reject_non_orderable_literal high maps "BETWEEN"
  | EAnd l r | EOr l r =>
      let? _ := validate_ordering_operand_types l maps in
      validate_ordering_operand_types r maps
  | ENot inner => validate_ordering_operand_types inner maps
  | _ => Ok tt
  end.
End Maps.

(** ** References *)

Definition refs : Type := gset string * gset string.

Definition collect_path_refs (elements : list PathElement) (names : gset string) : gset string :=
  fold_left (fun names el =>
    match el with
    | PAttr name =>
        match strip_prefix_char "#" name with
        | Some ref_name => {[ ref_name ]} ∪ names
        | None => names
        end
    | PIndex _ => names
    end) elements names.

Fixpoint collect_expr_refs (expr : Expr) (r : refs) : refs :=
  match expr with
  | EPath elements => (collect_path_refs elements (fst r), snd r)
  | EPlaceholder name => (fst r, {[ name ]} ∪ snd r)
  | ECompare l _ h | EArithmetic l _ h | EAnd l h | EOr l h =>
      collect_expr_refs h (collect_expr_refs l r)
  | ENot inner => collect_expr_refs inner r
  | EFunction _ args => fold_left (fun r arg => collect_expr_refs arg r) args r
  | EBetween operand low high =>
      collect_expr_refs high (collect_expr_refs low (collect_expr_refs operand r))
  | EIn operand items =>
      fold_left (fun r item => collect_expr_refs item r) items (collect_expr_refs operand r)
  end.

Definition collect_action_refs (action : UpdateAction) (r : refs) : refs :=
  match action with
  | USet path value | UAdd path value | UDelete path value =>
      collect_expr_refs value (collect_path_refs path (fst r), snd r)
  | URemove path => (collect_path_refs path (fst r), snd r)
  end.

Fixpoint collect_value_placeholders (expr : Expr) (out : list string) : list string :=
  match expr with
  | EPlaceholder name => out ++ [name]
  | EPath _ => out
  | ECompare l _ r | EArithmetic l _ r | EAnd l r | EOr l r =>
      collect_value_placeholders r (collect_value_placeholders l out)
  | ENot inner => collect_value_placeholders inner out
  | EFunction _ args => fold_left (fun out a => collect_value_placeholders a out) args out
  | EBetween operand low high =>
      collect_value_placeholders high
        (collect_value_placeholders low (collect_value_placeholders operand out))
  | EIn operand items =>
      fold_left (fun out i => collect_value_placeholders i out) items
        (collect_value_placeholders operand out)
  end.

Definition display_key (prefix : ascii) (key : string) : string :=
  match strip_prefix_char prefix key with
  | Some _ => key
  | None => String prefix key
  end.

(** The first key of [keys] that is not used, in the order of the map. *)
Definition check_keys_used (prefix : ascii) (label : string) (keys : list string)
    (used : gset string) : res unit :=
  for_each (fun key =>
    if bool_decide (default key (strip_prefix_char prefix key) ∈ used) then Ok tt
    else fail ("Value provided in " +:+ label +:+ " unused in expressions: keys: {"
               +:+ display_key prefix key +:+ "}")) keys.

(** [names_order] and [values_order] are the keys of the maps in hash order. *)
Definition validate_unused_attributes (names_order values_order : list string)
    (exprs : list Expr) (update_actions : list UpdateAction)
    (key_condition_names key_condition_values : gset string) : res unit :=
  let r := fold_left (fun r e => collect_expr_refs e r) exprs
             (key_condition_names, key_condition_values) in
  let r := fold_left (fun r a => collect_action_refs a r) update_actions r in
  let? _ := check_keys_used "#" "ExpressionAttributeNames" names_order (fst r) in
  check_keys_used ":" "ExpressionAttributeValues" values_order (snd r).

Definition validate_expression_param_usage (names : option (gmap string string))
    (name_expr_present : bool) (values : option (gmap string AttributeValue))
    (value_expr_present : bool) (value_expr_params : list ExpressionKind) : res unit :=
  if negb name_expr_present && match names with Some m => negb (bool_decide (m = ∅)) | None => false end
  then fail "ExpressionAttributeNames can only be specified when using expressions"
  else if negb value_expr_present
          && match values with Some m => negb (bool_decide (m = ∅)) | None => false end
  then
    let base := "ExpressionAttributeValues can only be specified when using expressions" in
    let msg :=
      match value_expr_params with
      | [] => base
      | [one] => base +:+ ": " +:+ kind_as_str one +:+ " is null"
      | many => base +:+ ": " +:+ join " and " (map kind_as_str many) +:+ " are null"
      end in
    fail msg
  else Ok tt.

(** ** Paths as lookups *)

(** A step into a document: a map entry or a list element. *)
Inductive Step : Type :=
  | Key (name : string)
  | Pos (idx : N).

#[export] Instance Step_eq_dec : EqDecision Step.
Proof. solve_decision. Defined.

Definition step_in (s : Step) (v : AttributeValue) : option AttributeValue :=
  match s, v with
  | Key name, AV_M m => bt_get name m
  | Pos idx, AV_L l => get_N l idx
  | _, _ => None
  end.

Fixpoint get_in (steps : list Step) (v : AttributeValue) : option AttributeValue :=
  match steps with
  | [] => Some v
  | s :: rest =>
      match step_in s v with
      | Some w => get_in rest w
      | None => None
      end
  end.

(** The step a path element stands for, when its name is defined. *)
Definition element_step {D : Type} (maps : ExpressionMaps D) (e : PathElement) : option Step :=
  match e with
  | PAttr name =>
      match strip_prefix_char "#" name with
      | Some ref_name => Key <$> em_names maps !! ref_name
      | None => Some (Key name)
      end
  | PIndex i => Some (Pos i)
  end.

Definition path_steps {D : Type} (maps : ExpressionMaps D) (path : list PathElement)
    : option (list Step) := mapM (element_step maps) path.

Lemma resolve_name_ref_step {D : Type} (maps : ExpressionMaps D) name s :
  element_step maps (PAttr name) = Some s ->
  exists n, resolve_name_ref name maps = Ok n /\ s = Key n.
Proof.
  unfold resolve_name_ref, resolve_name. simpl.
  destruct (strip_prefix_char "#" name) as [r|].
  - destruct (em_names maps !! r) as [n|]; [|done]. intros [= <-]. eauto.
  - intros [= <-]. eauto.
Qed.

Lemma resolve_steps_get_in {D : Type} (maps : ExpressionMaps D) path steps v :
  path_steps maps path = Some steps -> resolve_steps path v maps = Ok (get_in steps v).
Proof.
  unfold path_steps. rewrite mapM_Some. intros Hs. revert v.
  induction Hs as [|e s path steps He Hs IH]; intros v; [done|]. destruct e as [name|idx]; simpl.
  - destruct (resolve_name_ref_step _ _ _ He) as (n & -> & ->). simpl.
    destruct v; try done. by destruct (bt_get n m).
  - injection He as <-. simpl. destruct v; try done. by destruct (get_N l idx).
Qed.

Lemma resolve_path_get_in {D : Type} (maps : ExpressionMaps D) name path steps item :
  path_steps maps (PAttr name :: path) = Some steps ->
  resolve_path (PAttr name :: path) item maps = Ok (get_in steps (AV_M item)).
Proof.
  intros Hs. pose proof Hs as Hs'. unfold path_steps in Hs'. rewrite mapM_Some in Hs'.
  inversion Hs' as [|? s ? steps' He Hp]; subst. rewrite <- mapM_Some in Hp.
  destruct (resolve_name_ref_step _ _ _ He) as (n & Hn & ->).
  unfold resolve_path. simpl. rewrite Hn. destruct (bt_get n item); [|done].
  by apply resolve_steps_get_in.
Qed.

Lemma get_in_app s1 s2 v :
  get_in (s1 ++ s2) v = match get_in s1 v with Some w => get_in s2 w | None => None end.
Proof.
  revert v. induction s1 as [|s s1 IH]; intros v; [done|]. simpl.
  by destruct (step_in s v).
Qed.

(** Path resolution is document lookup: when every [#name] of a path that starts
    with an attribute is defined, resolving the path never fails and finds the
    value reached by the map entries and list positions the path names, if any. *)
Theorem resolve_path_lookup {D : Type} (maps : ExpressionMaps D) name path steps item :
  path_steps maps (PAttr name :: path) = Some steps ->
  resolve_path (PAttr name :: path) item maps = Ok (get_in steps (AV_M item)).
Proof. apply resolve_path_get_in. Qed.

Lemma resolve_path_lookup_witness :
  let maps := {| em_names := {["n" := "a"]}; em_values := ∅;
                 em_legacy_attribute_updates := false; em_parsed_numerics := (∅ : gmap string dec) |} in
  resolve_path [PAttr "#n"; PIndex 1] [("a", AV_L [AV_Null; AV_Bool true])] maps
  = Ok (Some (AV_Bool true)).
Proof.
  intros maps.
  rewrite (resolve_path_lookup maps "#n" [PIndex 1] [Key "a"; Pos 1]); [reflexivity|].
  vm_compute. reflexivity.
Defined.

(** ** Occurrences *)

(** [e] is [e'] or a part of it. *)
Inductive subexpr (e : Expr) : Expr -> Prop :=
  | sub_refl : subexpr e e
  | sub_compare_l l o r : subexpr e l -> subexpr e (ECompare l o r)
  | sub_compare_r l o r : subexpr e r -> subexpr e (ECompare l o r)
  | sub_and_l l r : subexpr e l -> subexpr e (EAnd l r)
  | sub_and_r l r : subexpr e r -> subexpr e (EAnd l r)
  | sub_or_l l r : subexpr e l -> subexpr e (EOr l r)
  | sub_or_r l r : subexpr e r -> subexpr e (EOr l r)
  | sub_not x : subexpr e x -> subexpr e (ENot x)
  | sub_function n args x : In x args -> subexpr e x -> subexpr e (EFunction n args)
  | sub_arith_l l o r : subexpr e l -> subexpr e (EArithmetic l o r)
  | sub_arith_r l o r : subexpr e r -> subexpr e (EArithmetic l o r)
  | sub_between_o x l h : subexpr e x -> subexpr e (EBetween x l h)
  | sub_between_l x l h : subexpr e l -> subexpr e (EBetween x l h)
  | sub_between_h x l h : subexpr e h -> subexpr e (EBetween x l h)
  | sub_in_o x items : subexpr e x -> subexpr e (EIn x items)
  | sub_in_item x items i : In i items -> subexpr e i -> subexpr e (EIn x items).

#[export] Hint Constructors subexpr : edb.

(** The path mentions [#n]; the expression mentions [#n] or [:n]. *)
Definition path_name (path : list PathElement) (n : string) : Prop :=
  exists s, In (PAttr s) path /\ strip_prefix_char "#" s = Some n.
Definition expr_name (e : Expr) (n : string) : Prop :=
  exists path, subexpr (EPath path) e /\ path_name path n.
Definition expr_value (e : Expr) (n : string) : Prop := subexpr (EPlaceholder n) e.

Lemma collect_path_refs_spec path names n :
  n ∈ collect_path_refs path names <-> n ∈ names \/ path_name path n.
Proof.
  unfold collect_path_refs, path_name. revert names.
  induction path as [|el path IH]; intros names; simpl; [naive_solver|].
  rewrite IH. destruct el as [s|i]; [|naive_solver].
  destruct (strip_prefix_char "#" s) eqn:E; [|naive_solver]. set_solver.
Qed.

Lemma fold_refs_spec (f : Expr -> refs -> refs) (P Q : Expr -> string -> Prop) l r :
  Forall (fun e => forall r n, (n ∈ fst (f e r) <-> n ∈ fst r \/ P e n) /\
                               (n ∈ snd (f e r) <-> n ∈ snd r \/ Q e n)) l ->
  forall n, (n ∈ fst (fold_left (fun r e => f e r) l r) <->
               n ∈ fst r \/ exists e, In e l /\ P e n) /\
            (n ∈ snd (fold_left (fun r e => f e r) l r) <->
               n ∈ snd r \/ exists e, In e l /\ Q e n).
Proof.
  intros Hl. revert r. induction Hl as [|e l He Hl IH]; intros r n; simpl; [naive_solver|].
  destruct (IH (f e r) n) as [-> ->]. destruct (He r n) as [-> ->]. naive_solver.
Qed.

(** The references of an expression, by its parts. *)

Lemma expr_name_path p n : expr_name (EPath p) n <-> path_name p n.
Proof.
  unfold expr_name. split; [|eauto with edb].
  intros (q & Hs & Hq). inversion Hs; by subst.
Qed.

Lemma expr_name_placeholder m n : ~ expr_name (EPlaceholder m) n.
Proof. intros (p & Hs & _). inversion Hs. Qed.

Lemma expr_value_path p n : ~ expr_value (EPath p) n.
Proof. intros Hs. inversion Hs. Qed.

Lemma expr_value_placeholder m n : expr_value (EPlaceholder m) n <-> n = m.
Proof. unfold expr_value. split; [by inversion 1|intros ->; constructor]. Qed.

(** The parts of an expression. *)
Definition parts (e : Expr) : list Expr :=
  match e with
  | EPath _ | EPlaceholder _ => []
  | ECompare l _ r | EArithmetic l _ r | EAnd l r | EOr l r => [l; r]
  | ENot x => [x]
  | EFunction _ args => args
  | EBetween x l h => [x; l; h]
  | EIn x items => x :: items
  end.

Lemma subexpr_parts e e' : subexpr e e' <-> e = e' \/ exists x, In x (parts e') /\ subexpr e x.
Proof.
  split.
  - inversion 1; subst; [by left|right..]; simpl; eauto 10.
  - intros [->|(x & Hin & Hs)]; [constructor|].
    destruct e'; simpl in Hin; try done; destruct_or? Hin; subst; try done; eauto with edb.
Qed.

Lemma expr_name_parts e n : match e with EPath _ => False | _ => True end ->
  expr_name e n <-> exists x, In x (parts e) /\ expr_name x n.
Proof.
  intros He. unfold expr_name. setoid_rewrite (subexpr_parts (EPath _) e). split.
  - intros (p & [<-|(x & Hin & Hs)] & Hn); [done|]. eauto.
  - intros (x & Hin & p & Hs & Hn). eauto 10.
Qed.

Lemma expr_value_parts e n : match e with EPlaceholder _ => False | _ => True end ->
  expr_value e n <-> exists x, In x (parts e) /\ expr_value x n.
Proof.
  intros He. unfold expr_value. rewrite (subexpr_parts (EPlaceholder n) e). split; [|eauto].
  intros [<-|?]; [done|eauto].
Qed.

Lemma collect_expr_refs_parts e r :
  match e with EPath _ | EPlaceholder _ => False | _ => True end ->
  collect_expr_refs e r = fold_left (fun r x => collect_expr_refs x r) (parts e) r.
Proof. by destruct e. Qed.

Lemma collect_value_placeholders_parts e out :
  match e with EPath _ | EPlaceholder _ => False | _ => True end ->
  collect_value_placeholders e out
  = fold_left (fun out x => collect_value_placeholders x out) (parts e) out.
Proof. by destruct e. Qed.

Lemma parts_ind (P : Expr -> Prop) :
  (forall p, P (EPath p)) -> (forall n, P (EPlaceholder n)) ->
  (forall e, match e with EPath _ | EPlaceholder _ => False | _ => True end ->
     Forall P (parts e) -> P e) -> forall e, P e.
Proof.
  intros Hp Hv Hparts e. induction e using Expr_ind; auto; apply Hparts; simpl; auto.
Qed.

Lemma collect_expr_refs_spec e : forall r n,
  (n ∈ fst (collect_expr_refs e r) <-> n ∈ fst r \/ expr_name e n) /\
  (n ∈ snd (collect_expr_refs e r) <-> n ∈ snd r \/ expr_value e n).
Proof.
  induction e as [p|m|e He IH] using parts_ind; intros r n.
  - simpl. rewrite collect_path_refs_spec, expr_name_path.
    split; [done|]. pose proof (expr_value_path p n). naive_solver.
  - simpl. rewrite expr_value_placeholder. pose proof (expr_name_placeholder m n). set_solver.
  - rewrite collect_expr_refs_parts by done.
    rewrite (expr_name_parts e), (expr_value_parts e) by (by destruct e).
    by apply (fold_refs_spec collect_expr_refs expr_name expr_value).
Qed.

Lemma collect_value_placeholders_spec e : forall out n,
  In n (collect_value_placeholders e out) <-> In n out \/ expr_value e n.
Proof.
  induction e as [p|m|e He IH] using parts_ind; intros out n.
  - simpl. pose proof (expr_value_path p n). naive_solver.
  - simpl. rewrite expr_value_placeholder, in_app_iff. simpl. naive_solver.
  - rewrite collect_value_placeholders_parts by done.
    rewrite (expr_value_parts e) by (by destruct e).
    revert out. induction IH as [|x l Hx IH IHl]; intros out; simpl; [naive_solver|].
    rewrite IHl, Hx. naive_solver.
Qed.

(** What an update action mentions. *)
Definition action_name (a : UpdateAction) (n : string) : Prop :=
  match a with
  | USet path v | UAdd path v | UDelete path v => path_name path n \/ expr_name v n
  | URemove path => path_name path n
  end.
Definition action_value (a : UpdateAction) (n : string) : Prop :=
  match a with
  | USet _ v | UAdd _ v | UDelete _ v => expr_value v n
  | URemove _ => False
  end.

Lemma collect_action_refs_spec a r n :
  (n ∈ fst (collect_action_refs a r) <-> n ∈ fst r \/ action_name a n) /\
  (n ∈ snd (collect_action_refs a r) <-> n ∈ snd r \/ action_value a n).
Proof.
  assert (forall p v, (n ∈ fst (collect_expr_refs v (collect_path_refs p (fst r), snd r)) <->
      n ∈ fst r \/ path_name p n \/ expr_name v n) /\
    (n ∈ snd (collect_expr_refs v (collect_path_refs p (fst r), snd r)) <->
      n ∈ snd r \/ expr_value v n)) as H.
  { intros p v. destruct (collect_expr_refs_spec v (collect_path_refs p (fst r), snd r) n) as [-> ->].
    simpl. rewrite collect_path_refs_spec. naive_solver. }
  destruct a as [p v|p|p v|p v]; simpl; [apply H| |apply H..].
  rewrite collect_path_refs_spec. naive_solver.
Qed.

Lemma fold_actions_spec l r n :
  (n ∈ fst (fold_left (fun r a => collect_action_refs a r) l r) <->
     n ∈ fst r \/ exists a, In a l /\ action_name a n) /\
  (n ∈ snd (fold_left (fun r a => collect_action_refs a r) l r) <->
     n ∈ snd r \/ exists a, In a l /\ action_value a n).
Proof.
  revert r. induction l as [|a l IH]; intros r; simpl; [naive_solver|].
  destruct (IH (collect_action_refs a r)) as [-> ->].
  destruct (collect_action_refs_spec a r n) as [-> ->]. naive_solver.
Qed.

Lemma fold_exprs_spec l r n :
  (n ∈ fst (fold_left (fun r e => collect_expr_refs e r) l r) <->
     n ∈ fst r \/ exists e, In e l /\ expr_name e n) /\
  (n ∈ snd (fold_left (fun r e => collect_expr_refs e r) l r) <->
     n ∈ snd r \/ exists e, In e l /\ expr_value e n).
Proof.
  apply (fold_refs_spec collect_expr_refs expr_name expr_value).
  apply Forall_forall. intros e _. apply collect_expr_refs_spec.
Qed.

Lemma check_keys_used_Ok prefix label keys used :
  check_keys_used prefix label keys used = Ok tt <->
  forall k, In k keys -> default k (strip_prefix_char prefix k) ∈ used.
Proof.
  unfold check_keys_used. etransitivity; [apply for_each_Ok|].
  split; intros H k Hk; specialize (H k Hk); revert H; by case_bool_decide.
Qed.

(** Unused names and values: the check passes exactly when every key of both
    maps, without its sigil, is mentioned by an expression, an update action or
    the key condition; so whether it passes does not depend on the hash order. *)
Theorem validate_unused_attributes_spec names_order values_order exprs actions kn kv :
  validate_unused_attributes names_order values_order exprs actions kn kv = Ok tt <->
  (forall k, In k names_order -> let n := default k (strip_prefix_char "#" k) in
     n ∈ kn \/ (exists e, In e exprs /\ expr_name e n) \/ (exists a, In a actions /\ action_name a n)) /\
  (forall k, In k values_order -> let n := default k (strip_prefix_char ":" k) in
     n ∈ kv \/ (exists e, In e exprs /\ expr_value e n) \/ (exists a, In a actions /\ action_value a n)).
Proof.
  unfold validate_unused_attributes.
  set (r := fold_left _ actions _).
  assert (forall n, (n ∈ fst r <-> n ∈ kn \/ (exists e, In e exprs /\ expr_name e n) \/
      (exists a, In a actions /\ action_name a n)) /\
    (n ∈ snd r <-> n ∈ kv \/ (exists e, In e exprs /\ expr_value e n) \/
      (exists a, In a actions /\ action_value a n))) as Hr.
  { intros n. unfold r. destruct (fold_actions_spec actions
      (fold_left (fun r e => collect_expr_refs e r) exprs (kn, kv)) n) as [-> ->].
    destruct (fold_exprs_spec exprs (kn, kv) n) as [-> ->]. simpl. tauto. }
  destruct (check_keys_used "#" _ names_order (fst r)) as [[]|e] eqn:E.
  - rewrite check_keys_used_Ok in *.
    assert (forall A B C : Prop, C -> (A <-> B) -> (A <-> C /\ B)) as Htriv by tauto.
    apply Htriv.
    + intros k Hk. by apply Hr, E.
    + split; intros H k Hk; by apply Hr, H.
  - split; [done|]. intros [H _].
    assert (check_keys_used "#" "ExpressionAttributeNames" names_order (fst r) = Ok tt);
      [|congruence].
    apply check_keys_used_Ok. intros k Hk. by apply Hr, H.
Qed.

(** The two walks over an expression agree: the placeholders collected for the
    depth check of an update are the values its reference walk collects. *)
Theorem collect_placeholders_agree e n :
  In n (collect_value_placeholders e []) <-> n ∈ snd (collect_expr_refs e (∅, ∅)).
Proof.
  rewrite collect_value_placeholders_spec.
  destruct (collect_expr_refs_spec e (∅, ∅) n) as [_ ->]. simpl. set_solver.
Qed.
