(* ===== verification/Evaluator.v ===== *)
(** * The condition evaluator

    [crates/core/src/expression/evaluator.rs], against the [BigDecimal]
    interface of [Decimal]. *)

From S2P Require Import Prelude BTree Types Error Decimal Ast Tokenizer Resolver.

Definition apply_op (ordering : comparison) (op : CompareOp) : bool :=
  match op with
  | CEq => bool_decide (ordering = Eq)
  | CNe => negb (bool_decide (ordering = Eq))
  | CLt => bool_decide (ordering = Lt)
  | CLe => negb (bool_decide (ordering = Gt))
  | CGt => bool_decide (ordering = Gt)
  | CGe => negb (bool_decide (ordering = Lt))
  end.

(** [s.encode_utf16().count()]: two units for the characters of four bytes. *)
Definition utf16_count (s : string) : nat :=
  list_sum (map (fun c => if is_cont c then 0 else if (240 <=? byte c)%N then 2 else 1) (as_bytes s)).

Definition format_attribute_value (val : AttributeValue) : string :=
  match val with
  | AV_S s => "S:" +:+ s
  | AV_N n => "N:" +:+ n
  | AV_B _ => "B:<binary>"
  | _ => attribute_type_code val +:+ ":<value>"
  end.

Definition contains_check (container operand : AttributeValue) : bool :=
  match container, operand with
  | AV_S s, AV_S sub => list_contains_sub (as_bytes s) (as_bytes sub)
  | AV_B bytes, AV_B sub => list_contains_sub bytes sub
  | AV_SS set, AV_S val => set_contains val set
  | AV_NS set, AV_N val => set_contains val set
  | AV_BS set, AV_B val => set_contains val set
  | AV_L list, val => existsb (fun x => av_eqb x val) list
  | _, _ => false
  end.

Section Evaluator.
Context {D : Type} `{BigDecimal D}.
Implicit Type maps : ExpressionMaps D.

Definition compare_values (l r : AttributeValue) (op : CompareOp)
    (left_parsed right_parsed : option D) : bool :=
  match l, r with
  | AV_S l, AV_S r => apply_op (cmp l r) op
  | AV_N l, AV_N r =>
      match (match left_parsed with Some d => Some d | None => bd_parse l end) with
      | None => false
      | Some ld =>
          match (match right_parsed with Some d => Some d | None => bd_parse r end) with
          | None => false
          | Some rd => apply_op (bd_cmp ld rd) op
          end
      end
  | AV_B l, AV_B r => apply_op (cmp l r) op
  | l, r =>
      if av_eqb l r
      then match op with CEq | CLe | CGe => true | _ => false end
      else match op with CNe => true | _ => false end
  end.

Definition placeholder_numeric (expr : Expr) maps : option D :=
  match expr with
  | EPlaceholder name => get_parsed_numeric maps name
  | _ => None
  end.

(** The size that [evaluate_size] gives a value, if its type has one. *)
Definition value_size (v : AttributeValue) : option nat :=
  match v with
  | AV_S s => Some (utf16_count s)
  | AV_B b => Some (length b)
  | AV_L l => Some (length l)
  | AV_M m => Some (length m)
  | AV_SS s | AV_NS s => Some (length s)
  | AV_BS s => Some (length s)
  | AV_N _ | AV_Bool _ | AV_Null => None
  end.

(** [resolve_to_value], with [evaluate_size] as its case for [size]. *)
Fixpoint resolve_to_value (expr : Expr) (item : Item) maps : res (option AttributeValue) :=
  match expr with
  | EPath elements => resolve_path elements item maps
  | EPlaceholder name =>
      let? v := resolve_value maps name in
      Ok (Some v)
  | EFunction name args =>
      if String.eqb name "size" then
        match args with
        | [arg] =>
            let? val := resolve_to_value arg item maps in
            match val with
            | None => Ok None
            | Some v =>
                match value_size v with
                | Some sz => Ok (Some (AV_N (nat_to_string sz)))
                | None => Ok None
                end
            end
        | _ => fail "Invalid ConditionExpression: size requires exactly one argument"
        end
      else fail "Invalid ConditionExpression: expected path or value"
  | _ => fail "Invalid ConditionExpression: expected path or value"
  end.

(** The first operand in the error of [contains] with equal operands. *)
Definition contains_operand_text (expr : Expr) maps : string :=
  match expr with
  | EPath p =>
      let parts :=
        map (fun e =>
          match e with
          | PAttr a =>
              match strip_prefix_char "#" a with
              | Some ref_name => default a (em_names maps !! ref_name)
              | None => a
              end
          | PIndex i => "[" +:+ N_to_string i +:+ "]"
          end) p in
      "[" +:+ join "." parts +:+ "]"
  | _ => ""
  end.

Definition evaluate_function (name : string) (args : list Expr) (item : Item) maps : res bool :=
  if String.eqb name "attribute_exists" then
    match args with
    | [arg] =>
        let? val := resolve_to_value arg item maps in
        Ok (match val with Some _ => true | None => false end)
    | _ => fail "Invalid ConditionExpression: attribute_exists requires exactly one argument"
    end
  else if String.eqb name "attribute_not_exists" then
    match args with
    | [arg] =>
        let? val := resolve_to_value arg item maps in
        Ok (match val with Some _ => false | None => true end)
    | _ => fail "Invalid ConditionExpression: attribute_not_exists requires exactly one argument"
    end
  else if String.eqb name "attribute_type" then
    match args with
    | [arg; type_arg] =>
        let? val := resolve_to_value arg item maps in
        let? type_val := resolve_to_value type_arg item maps in
        match val with
        | None => Ok false
        | Some v =>
            match type_val with
            | Some (AV_S type_str) => Ok (String.eqb (attribute_type_code v) type_str)
            | _ =>
                fail "Invalid ConditionExpression: attribute_type second argument must be a string"
            end
        end
    | _ => fail "Invalid ConditionExpression: attribute_type requires exactly two arguments"
    end
  else if String.eqb name "begins_with" then
    match args with
    | [arg; prefix_arg] =>
        let? val := resolve_to_value arg item maps in
        let? prefix := resolve_to_value prefix_arg item maps in
        match prefix with
        | Some (AV_S _) | Some (AV_B _) | None =>
            match val, prefix with
            | Some (AV_S s), Some (AV_S p) => Ok (list_starts_with (as_bytes s) (as_bytes p))
            | Some (AV_B s), Some (AV_B p) => Ok (list_starts_with s p)
            | _, _ => Ok false
            end
        | Some p =>
            fail ("Invalid ConditionExpression: Incorrect operand type for operator or function; operator or function: begins_with, operand type: "
                  +:+ attribute_type_code p)
        end
    | _ => fail "Invalid ConditionExpression: begins_with requires exactly two arguments"
    end
  else if String.eqb name "contains" then
    match args with
    | [arg0; arg1] =>
        if expr_eqb arg0 arg1 then
          fail ("Invalid ConditionExpression: The first operand must be distinct from the remaining operands for this operator or function; operator: contains, first operand: "
                +:+ contains_operand_text arg0 maps)
        else
          let? val := resolve_to_value arg0 item maps in
          let? operand := resolve_to_value arg1 item maps in
          match val, operand with
          | Some v, Some o => Ok (contains_check v o)
          | _, _ => Ok false
          end
    | _ => fail "Invalid ConditionExpression: contains requires exactly two arguments"
    end
  else if String.eqb name "size" then
    fail "Invalid ConditionExpression: size function must be used in a comparison"
  else fail ("Invalid ConditionExpression: unknown function '" +:+ name +:+ "'").

Definition is_placeholder (e : Expr) : bool :=
  match e with
  | EPlaceholder _ => true
  | _ => false
  end.

(** The check of literal bounds in [BETWEEN]. *)
Definition between_bounds_check (low high : Expr) (lo hi : option AttributeValue) maps : res unit :=
  if is_placeholder low && is_placeholder high then
    match lo, hi with
    | Some l, Some h =>
        let bounds :=
          "lower bound operand: AttributeValue: {" +:+ format_attribute_value l
          +:+ "}, upper bound operand: AttributeValue: {" +:+ format_attribute_value h +:+ "}" in
        if negb (String.eqb (attribute_type_code l) (attribute_type_code h)) then
          fail ("Invalid ConditionExpression: The BETWEEN operator requires same data type for lower and upper bounds; "
                +:+ bounds)
        else if compare_values l h CGt (placeholder_numeric low maps) (placeholder_numeric high maps)
        then
          fail ("Invalid ConditionExpression: The BETWEEN operator requires upper bound to be greater than or equal to lower bound; "
                +:+ bounds)
        else Ok tt
    | _, _ => Ok tt
    end
  else Ok tt.

(** The loop over the candidates of [IN]. *)
Fixpoint in_loop (v : AttributeValue) (vpn : option D) (items : list Expr) (item : Item) maps
    : res bool :=
  match items with
  | [] => Ok false
  | candidate :: rest =>
      let? cv := resolve_to_value candidate item maps in
      match cv with
      | Some c =>
          if compare_values v c CEq vpn (placeholder_numeric candidate maps) then Ok true
          else in_loop v vpn rest item maps
      | None => in_loop v vpn rest item maps
      end
  end.

Fixpoint evaluate_condition (expr : Expr) (item : Item) maps : res bool :=
  match expr with
  | ECompare l op r =>
      let? lv := resolve_to_value l item maps in
      let? rv := resolve_to_value r item maps in
      match lv, rv with
      | Some lv, Some rv =>
          Ok (compare_values lv rv op (placeholder_numeric l maps) (placeholder_numeric r maps))
      | _, _ => Ok (bool_decide (op = CNe))
      end
  | EAnd l r =>
      let? b := evaluate_condition l item maps in
      if b then evaluate_condition r item maps else Ok false
  | EOr l r =>
      let? b := evaluate_condition l item maps in
      if b then Ok true else evaluate_condition r item maps
  | ENot inner =>
      let? b := evaluate_condition inner item maps in
      Ok (negb b)
  | EFunction name args => evaluate_function name args item maps
  | EBetween operand low high =>
      let? val := resolve_to_value operand item maps in
      let? lo := resolve_to_value low item maps in
      let? hi := resolve_to_value high item maps in
      let? _ := between_bounds_check low high lo hi maps in
      match val, lo, hi with
      | Some v, Some l, Some h =>
          let vpn := placeholder_numeric operand maps in
          Ok (compare_values v l CGe vpn (placeholder_numeric low maps)
              && compare_values v h CLe vpn (placeholder_numeric high maps))
      | _, _, _ => Ok false
      end
  | EIn operand items =>
      let? val := resolve_to_value operand item maps in
      match val with
      | None => Ok false
      | Some v => in_loop v (placeholder_numeric operand maps) items item maps
      end
  | _ => fail "Invalid ConditionExpression: unexpected expression type"
  end.
End Evaluator.

(** ** Comparisons *)

(** The operator that holds exactly when [op] does not, and the operator with
    its operands exchanged. *)
Definition complement (op : CompareOp) : CompareOp :=
  match op with
  | CEq => CNe | CNe => CEq
  | CLt => CGe | CGe => CLt
  | CGt => CLe | CLe => CGt
  end.

Definition converse (op : CompareOp) : CompareOp :=
  match op with
  | CEq => CEq | CNe => CNe
  | CLt => CGt | CGt => CLt
  | CLe => CGe | CGe => CLe
  end.

Lemma apply_op_complement c op : apply_op c (complement op) = negb (apply_op c op).
Proof. by destruct c, op. Qed.

Lemma apply_op_converse c op : apply_op (CompOpp c) (converse op) = apply_op c op.
Proof. by destruct c, op. Qed.

Section Comparisons.
Context {D : Type} `{BigDecimalLaws D}.
Implicit Type maps : ExpressionMaps D.

(** The numeric value known for an operand is the one its text denotes. *)
Definition parsed_ok (v : AttributeValue) (p : option D) : Prop :=
  match p with
  | Some d => exists n, v = AV_N n /\ bd_parse n = Some d
  | None => True
  end.

Lemma compare_values_number l r op lp rp dl dr :
  denotes l dl -> denotes r dr -> parsed_ok (AV_N l) lp -> parsed_ok (AV_N r) rp ->
  compare_values (AV_N l) (AV_N r) op lp rp = apply_op (dec_cmp dl dr) op.
Proof.
  intros Hl Hr Hlp Hrp. simpl.
  destruct (bd_parse_value _ _ Hl) as (xl & El & Hxl).
  destruct (bd_parse_value _ _ Hr) as (xr & Er & Hxr).
  assert (match lp with Some d => Some d | None => bd_parse l end = Some xl) as ->.
  { destruct lp as [d|]; [|done]. destruct Hlp as (n & [= <-] & Hd). congruence. }
  assert (match rp with Some d => Some d | None => bd_parse r end = Some xr) as ->.
  { destruct rp as [d|]; [|done]. destruct Hrp as (n & [= <-] & Hd). congruence. }
  by rewrite bd_cmp_value, Hxl, Hxr.
Qed.

(** Two values that an ordering operator can compare. *)
Inductive comparable : AttributeValue -> AttributeValue -> Prop :=
  | comparable_S s t : comparable (AV_S s) (AV_S t)
  | comparable_B s t : comparable (AV_B s) (AV_B t)
  | comparable_N m n dm dn : denotes m dm -> denotes n dn -> comparable (AV_N m) (AV_N n).

(** The six comparison operators on two strings, two binaries or two valid
    numbers are one total order: exactly one of less, equal and greater holds,
    each operator is the negation of its complement and the converse of the
    operator with the operands exchanged, and numbers compare by value. *)
Theorem compare_total_order l r op lp rp :
  comparable l r -> parsed_ok l lp -> parsed_ok r rp ->
  compare_values l r op lp rp = negb (compare_values l r (complement op) lp rp) /\
  compare_values l r op lp rp = compare_values r l (converse op) rp lp /\
  (forall m n dm dn, l = AV_N m -> r = AV_N n -> denotes m dm -> denotes n dn ->
     compare_values l r op lp rp = apply_op (dec_cmp dm dn) op).
Proof.
  intros Hc Hl Hr. split; [|split].
  - destruct Hc as [s t|s t|m n dm dn Hm Hn].
    + simpl. by rewrite apply_op_complement, negb_involutive.
    + simpl. by rewrite apply_op_complement, negb_involutive.
    + rewrite !(compare_values_number m n _ _ _ dm dn) by done.
      by rewrite apply_op_complement, negb_involutive.
  - destruct Hc as [s t|s t|m n dm dn Hm Hn].
    + simpl. by rewrite (cmp_antisym s t), apply_op_converse.
    + simpl. by rewrite (cmp_antisym s t), apply_op_converse.
    + rewrite (compare_values_number m n _ _ _ dm dn), (compare_values_number n m _ _ _ dn dm) by done.
      by rewrite (dec_cmp_antisym dm dn), apply_op_converse.
  - intros m n dm dn -> -> Hm Hn. by apply compare_values_number.
Qed.
End Comparisons.

Lemma compare_total_order_witness :
  compare_values (D := dec) (AV_N "1.50") (AV_N "15e-1") CEq None (Some (15, -1)%Z) = true.
Proof.
  assert (denotes "1.50" (150, -2)%Z) as H1 by (apply read_dec_iff; vm_compute; reflexivity).
  assert (denotes "15e-1" (15, -1)%Z) as H2 by (apply read_dec_iff; vm_compute; reflexivity).
  destruct (compare_total_order (D := dec) (AV_N "1.50") (AV_N "15e-1") CEq None (Some (15, -1)%Z))
    as (_ & _ & H).
  - exact (comparable_N _ _ _ _ H1 H2).
  - exact I.
  - exists "15e-1". split; [reflexivity|]. vm_compute. reflexivity.
  - rewrite (H "1.50" "15e-1" (150, -2)%Z (15, -1)%Z eq_refl eq_refl H1 H2).
    vm_compute. reflexivity.
Defined.

(** ** The numeric cache *)

Section Cache.
Context {D : Type} `{BigDecimal D}.
Implicit Type maps : ExpressionMaps D.

(** Every cached number is the parse of the value under its key. *)
Definition maps_ok maps : Prop :=
  forall k d, em_parsed_numerics maps !! k = Some d ->
    exists n, em_values maps !! k = Some (AV_N n) /\ bd_parse n = Some d.

(** The same maps without the cache. *)
Definition uncached maps : ExpressionMaps D :=
  {| em_names := em_names maps; em_values := em_values maps;
     em_legacy_attribute_updates := em_legacy_attribute_updates maps;
     em_parsed_numerics := ∅ |}.

Lemma pre_parse_ok maps : maps_ok maps -> maps_ok (pre_parse_numerics maps).
Proof.
  intros Hok k d. simpl. rewrite lookup_union_Some_raw, lookup_omap.
  intros [Hk|[_ Hk]]; [|by apply Hok].
  destruct (em_values maps !! k) as [v|]; [|done]. simpl in Hk.
  destruct v; try done. simpl in Hk. eauto.
Qed.

Lemma maps_new_ok names values : maps_ok (maps_new (D := D) names values).
Proof. apply pre_parse_ok. intros k d. simpl. by rewrite lookup_empty. Qed.

Lemma resolve_steps_uncached path v maps : resolve_steps path v (uncached maps) = resolve_steps path v maps.
Proof.
  revert v. induction path as [|[name|idx] path IH]; intros v; [done|..]; simpl.
  - destruct (resolve_name_ref name maps) as [n|] eqn:E; (change (resolve_name_ref name (uncached maps))
      with (resolve_name_ref name maps)); rewrite E; [|done].
    destruct v; try done. by destruct (bt_get n m).
  - destruct v; try done. by destruct (get_N l idx).
Qed.

Lemma resolve_path_uncached path item maps :
  resolve_path path item (uncached maps) = resolve_path path item maps.
Proof.
  destruct path as [|e path]; [done|]. simpl.
  change (resolve_element_name e (uncached maps)) with (resolve_element_name e maps).
  destruct (resolve_element_name e maps); [|done].
  destruct (bt_get a item); [apply resolve_steps_uncached|done].
Qed.

Lemma resolve_to_value_uncached e item maps :
  resolve_to_value e item (uncached maps) = resolve_to_value e item maps.
Proof.
  induction e as [p|n|l o r IHl IHr|l r IHl IHr|l r IHl IHr|e IHe|n args IHargs|l o r IHl IHr
    |e lo hi IHe IHlo IHhi|e items IHe IHitems] using Expr_ind; try done.
  - apply resolve_path_uncached.
  - simpl. destruct (String.eqb n "size"); [|done].
    destruct IHargs as [|a args Ha Hargs]; [done|]. destruct args; [|done]. by rewrite Ha.
Qed.

(** A cached operand compares as if parsed again. *)
Lemma compare_cached maps e1 e2 v1 v2 item op :
  maps_ok maps -> resolve_to_value e1 item maps = Ok (Some v1) ->
  resolve_to_value e2 item maps = Ok (Some v2) ->
  compare_values v1 v2 op (placeholder_numeric e1 maps) (placeholder_numeric e2 maps)
  = compare_values v1 v2 op None None.
Proof.
  intros Hok H1 H2.
  assert (forall e v, resolve_to_value e item maps = Ok (Some v) ->
    match v with
    | AV_N n => match placeholder_numeric e maps with Some d => Some d | None => bd_parse n end
                = bd_parse n
    | _ => True
    end) as Hone.
  { intros e v Hv. destruct v; try done. destruct (placeholder_numeric e maps) as [d|] eqn:Ed; [|done].
    destruct e; try discriminate Ed. apply Hok in Ed as (m & Hm & Hd).
    simpl in Hv. unfold resolve_value in Hv. rewrite Hm in Hv. injection Hv as ->. done. }
  pose proof (Hone _ _ H1) as E1. pose proof (Hone _ _ H2) as E2.
  destruct v1, v2; try done. simpl in *. by rewrite E1, E2.
Qed.
End Cache.

Section CacheTheorem.
Context {D : Type} `{BigDecimal D}.
Implicit Type maps : ExpressionMaps D.

Lemma between_check_cached low high lo hi item maps :
  maps_ok maps -> resolve_to_value low item maps = Ok lo -> resolve_to_value high item maps = Ok hi ->
  between_bounds_check low high lo hi (uncached maps) = between_bounds_check low high lo hi maps.
Proof.
  intros Hok Hlo Hhi. unfold between_bounds_check.
  destruct (is_placeholder low && is_placeholder high); [|done].
  destruct lo as [l|], hi as [h|]; try done.
  rewrite (compare_cached maps low high l h item) by done.
  by rewrite (compare_cached (uncached maps) low high l h item)
    by (rewrite ?resolve_to_value_uncached; done).
Qed.

Lemma in_loop_uncached e v items item maps :
  maps_ok maps -> resolve_to_value e item maps = Ok (Some v) ->
  in_loop v (placeholder_numeric e (uncached maps)) items item (uncached maps)
  = in_loop v (placeholder_numeric e maps) items item maps.
Proof.
  intros Hok Hv. induction items as [|c items IH]; [done|]. simpl.
  rewrite resolve_to_value_uncached.
  destruct (resolve_to_value c item maps) as [[cv|]|] eqn:Ec; [|done|done].
  rewrite (compare_cached maps e c v cv item) by done.
  rewrite (compare_cached (uncached maps) e c v cv item)
    by (rewrite ?resolve_to_value_uncached; done).
  by rewrite IH.
Qed.

Lemma evaluate_function_uncached name args item maps :
  evaluate_function name args item (uncached maps) = evaluate_function name args item maps.
Proof.
  unfold evaluate_function.
  destruct args as [|a [|b [|c args]]]; rewrite ?resolve_to_value_uncached; done.
Qed.

(** Pre-parsing numeric placeholders is transparent: on maps built by [new] a
    condition evaluates, errors included, exactly as when every number is
    parsed again at each comparison. *)
Theorem evaluate_cache_transparent names values expr item :
  let maps := maps_new (D := D) names values in
  evaluate_condition expr item maps = evaluate_condition expr item (uncached maps).
Proof.
  intros maps. pose proof (maps_new_ok (D := D) names values) as Hok. fold maps in Hok.
  induction expr as [p|n|l o r _ _|l r IHl IHr|l r IHl IHr|e IHe|n args _|l o r _ _
    |e lo hi _ _ _|e items _ _] using Expr_ind; simpl; rewrite ?resolve_to_value_uncached; try done.
  - destruct (resolve_to_value l item maps) as [[lv|]|] eqn:El; try done.
    rewrite ?resolve_to_value_uncached.
    destruct (resolve_to_value r item maps) as [[rv|]|] eqn:Er; try done.
    rewrite (compare_cached maps l r lv rv item) by done.
    by rewrite (compare_cached (uncached maps) l r lv rv item)
      by (rewrite ?resolve_to_value_uncached; done).
  - rewrite <- IHl. destruct (evaluate_condition l item maps) as [[]|]; done.
  - rewrite <- IHl. destruct (evaluate_condition l item maps) as [[]|]; done.
  - by rewrite <- IHe.
  - symmetry. apply evaluate_function_uncached.
  - destruct (resolve_to_value e item maps) as [v|] eqn:Ev; [|done].
    destruct (resolve_to_value lo item maps) as [l|] eqn:El; [|done].
    destruct (resolve_to_value hi item maps) as [h|] eqn:Eh; [|done].
    rewrite (between_check_cached _ _ _ _ item) by done.
    destruct (between_bounds_check lo hi l h maps); [|done].
    destruct v as [v|], l as [l|], h as [h|]; try done.
    rewrite (compare_cached maps e lo v l item), (compare_cached maps e hi v h item) by done.
    by rewrite (compare_cached (uncached maps) e lo v l item),
      (compare_cached (uncached maps) e hi v h item) by (rewrite ?resolve_to_value_uncached; done).
  - destruct (resolve_to_value e item maps) as [[v|]|] eqn:Ev; try done.
    symmetry. by apply in_loop_uncached.
Qed.
End CacheTheorem.

(** ** Derived forms *)

Section Derived.
Context {D : Type} `{BigDecimal D}.
Implicit Type maps : ExpressionMaps D.

(** BETWEEN is the conjunction of two comparisons: whenever it evaluates, the
    conjunction of [operand >= low] and [operand <= high] evaluates to the same
    truth value, missing attributes included. *)
Theorem between_as_comparisons operand low high item maps b :
  evaluate_condition (EBetween operand low high) item maps = Ok b ->
  evaluate_condition (EAnd (ECompare operand CGe low) (ECompare operand CLe high)) item maps = Ok b.
Proof.
  simpl. destruct (resolve_to_value operand item maps) as [v|]; [|done].
  destruct (resolve_to_value low item maps) as [l|]; [|done].
  destruct (resolve_to_value high item maps) as [h|]; [|done].
  destruct (between_bounds_check low high l h maps); [|done].
  destruct v as [v|], l as [l|], h as [h|]; intros [= <-]; try done.
  - by destruct (compare_values v l CGe _ _).
  - by destruct (compare_values v l CGe _ _).
Qed.

(** The disjunction of [operand = candidate] over the candidates. *)
Definition or_chain (operand : Expr) (first : Expr) (rest : list Expr) : Expr :=
  fold_left (fun acc c => EOr acc (ECompare operand CEq c)) rest (ECompare operand CEq first).

(** Some candidate is equal, tried in order. *)
Fixpoint any_equal (operand : Expr) (items : list Expr) (item : Item) maps : res bool :=
  match items with
  | [] => Ok false
  | c :: rest =>
      let? b := evaluate_condition (ECompare operand CEq c) item maps in
      if b then Ok true else any_equal operand rest item maps
  end.

Lemma evaluate_or_chain operand rest item maps acc :
  evaluate_condition (fold_left (fun acc c => EOr acc (ECompare operand CEq c)) rest acc) item maps
  = let? b := evaluate_condition acc item maps in
    if b then Ok true else any_equal operand rest item maps.
Proof.
  revert acc. induction rest as [|c rest IH]; intros acc; cbn [fold_left any_equal].
  - destruct (evaluate_condition acc item maps) as [[]|]; done.
  - rewrite IH. cbn [evaluate_condition].
    destruct (evaluate_condition acc item maps) as [[]|]; done.
Qed.

Lemma in_loop_any_equal operand v items item maps :
  resolve_to_value operand item maps = Ok (Some v) ->
  in_loop v (placeholder_numeric operand maps) items item maps = any_equal operand items item maps.
Proof.
  intros Hv. induction items as [|c items IH]; [done|].
  cbn [any_equal in_loop evaluate_condition]. rewrite Hv.
  destruct (resolve_to_value c item maps) as [[cv|]|]; [|done|done].
  by destruct (compare_values v cv CEq _ _).
Qed.

(** IN is the disjunction of equalities, in order, with the same errors, when its
    operand is present; when the operand is missing it is false. *)
Theorem in_as_equalities operand first rest item maps :
  (forall v, resolve_to_value operand item maps = Ok (Some v) ->
     evaluate_condition (EIn operand (first :: rest)) item maps
     = evaluate_condition (or_chain operand first rest) item maps) /\
  (resolve_to_value operand item maps = Ok None ->
     evaluate_condition (EIn operand (first :: rest)) item maps = Ok false).
Proof.
  split; [|intros Hn; simpl; by rewrite Hn].
  intros v Hv. unfold or_chain. rewrite evaluate_or_chain. cbn [evaluate_condition]. rewrite Hv.
  rewrite (in_loop_any_equal _ _ (first :: rest)) by done. cbn [any_equal evaluate_condition].
  by rewrite Hv.
Qed.

(** Negation is pushed inwards without changing the outcome: De Morgan's laws
    and double negation hold as equalities of outcomes, so short-circuiting
    and errors are preserved too. *)
Theorem negation_laws l r item maps :
  evaluate_condition (ENot (EAnd l r)) item maps
  = evaluate_condition (EOr (ENot l) (ENot r)) item maps /\
  evaluate_condition (ENot (EOr l r)) item maps
  = evaluate_condition (EAnd (ENot l) (ENot r)) item maps /\
  evaluate_condition (ENot (ENot l)) item maps = evaluate_condition l item maps.
Proof.
  simpl. destruct (evaluate_condition l item maps) as [[]|];
    destruct (evaluate_condition r item maps) as [[]|]; done.
Qed.

(** ** The attributes a condition reads *)

(** [item1] and [item2] have the same value for the attribute that each path of
    the expression starts with. *)
Definition agree_on (e : Expr) (item1 item2 : Item) maps : Prop :=
  forall first rest n, subexpr (EPath (first :: rest)) e ->
    resolve_element_name first maps = Ok n -> bt_get n item1 = bt_get n item2.

Lemma agree_on_part e x item1 item2 maps :
  agree_on e item1 item2 maps -> In x (parts e) -> agree_on x item1 item2 maps.
Proof.
  intros Ha Hin first rest n Hs. apply (Ha first rest). apply subexpr_parts. right. eauto.
Qed.

Lemma resolve_path_agree path item1 item2 maps :
  agree_on (EPath path) item1 item2 maps ->
  resolve_path path item1 maps = resolve_path path item2 maps.
Proof.
  intros Ha. destruct path as [|first rest]; [done|]. simpl.
  destruct (resolve_element_name first maps) as [n|] eqn:E; [|done].
  by rewrite (Ha first rest n (sub_refl _) E).
Qed.

Lemma resolve_to_value_agree e item1 item2 maps :
  agree_on e item1 item2 maps ->
  resolve_to_value e item1 maps = resolve_to_value e item2 maps.
Proof.
  induction e as [p|n|l o r IHl IHr|l r IHl IHr|l r IHl IHr|e IHe|n args IHargs|l o r IHl IHr
    |e lo hi IHe IHlo IHhi|e items IHe IHitems] using Expr_ind; intros Ha; try done.
  - by apply resolve_path_agree.
  - simpl. destruct (String.eqb n "size"); [|done].
    destruct args as [|a [|b args]]; try done. inversion_clear IHargs as [|? ? Hx _].
    rewrite Hx; [done|]. eapply agree_on_part; [exact Ha|]. by left.
Qed.

Lemma evaluate_function_agree name args item1 item2 maps :
  (forall a, In a args -> agree_on a item1 item2 maps) ->
  evaluate_function name args item1 maps = evaluate_function name args item2 maps.
Proof.
  intros Ha. unfold evaluate_function.
  destruct args as [|a [|b [|c args]]]; try done;
    rewrite ?(resolve_to_value_agree a item1 item2) by (apply Ha; simpl; auto);
    try done;
    rewrite ?(resolve_to_value_agree b item1 item2) by (apply Ha; simpl; auto);
    done.
Qed.

Lemma in_loop_agree v vpn items item1 item2 maps :
  (forall a, In a items -> agree_on a item1 item2 maps) ->
  in_loop v vpn items item1 maps = in_loop v vpn items item2 maps.
Proof.
  induction items as [|c items IH]; intros Ha; [done|]. simpl.
  rewrite (resolve_to_value_agree c item1 item2) by (apply Ha; by left).
  destruct (resolve_to_value c item2 maps) as [[cv|]|]; [|apply IH; simpl in Ha; auto|done].
  destruct (compare_values _ _ _ _ _); [done|]. apply IH. simpl in Ha. auto.
Qed.

(** A condition reads only the attributes its paths start with: two items that
    agree on those give the same outcome. *)
Theorem evaluate_frame e item1 item2 maps :
  agree_on e item1 item2 maps ->
  evaluate_condition e item1 maps = evaluate_condition e item2 maps.
Proof.
  induction e as [p|n|l o r IHl IHr|l r IHl IHr|l r IHl IHr|e IHe|n args IHargs|l o r IHl IHr
    |e lo hi IHe IHlo IHhi|e items IHe IHitems] using Expr_ind; intros Ha; try done;
    assert (forall x, In x (parts _) -> agree_on x item1 item2 maps) as Hp
      by (intros x Hx; eapply agree_on_part; [exact Ha|exact Hx]); simpl in Hp; simpl.
  - rewrite (resolve_to_value_agree l item1 item2), (resolve_to_value_agree r item1 item2)
      by auto. done.
  - rewrite IHl, IHr by auto. done.
  - rewrite IHl, IHr by auto. done.
  - rewrite IHe by auto. done.
  - apply evaluate_function_agree. auto.
  - rewrite (resolve_to_value_agree e item1 item2), (resolve_to_value_agree lo item1 item2),
      (resolve_to_value_agree hi item1 item2) by auto. done.
  - rewrite (resolve_to_value_agree e item1 item2) by auto.
    destruct (resolve_to_value e item2 maps) as [[v|]|]; try done.
    apply in_loop_agree. auto.
Qed.
End Derived.

Definition maps0 : ExpressionMaps dec :=
  maps_new ∅ (<["lo" := AV_N "1"]> (<["hi" := AV_N "10"]> ∅)).

Lemma between_as_comparisons_witness :
  evaluate_condition (EAnd (ECompare (EPath [PAttr "n"]) CGe (EPlaceholder "lo"))
                           (ECompare (EPath [PAttr "n"]) CLe (EPlaceholder "hi")))
    [("n", AV_N "5.0")] maps0 = Ok true.
Proof.
  apply (between_as_comparisons (EPath [PAttr "n"]) (EPlaceholder "lo") (EPlaceholder "hi")).
  vm_compute. reflexivity.
Defined.

Lemma in_as_equalities_witness :
  evaluate_condition (EIn (EPath [PAttr "n"]) [EPlaceholder "lo"; EPlaceholder "hi"])
    [("n", AV_N "10")] maps0
  = evaluate_condition (or_chain (EPath [PAttr "n"]) (EPlaceholder "lo") [EPlaceholder "hi"])
    [("n", AV_N "10")] maps0.
Proof.
  apply (in_as_equalities (EPath [PAttr "n"]) (EPlaceholder "lo") [EPlaceholder "hi"]
    [("n", AV_N "10")] maps0) with (v := AV_N "10").
  vm_compute. reflexivity.
Defined.

Lemma evaluate_frame_witness :
  evaluate_condition (ECompare (EPath [PAttr "n"]) CGe (EPlaceholder "lo"))
    [("m", AV_Null); ("n", AV_N "5")] maps0
  = evaluate_condition (ECompare (EPath [PAttr "n"]) CGe (EPlaceholder "lo"))
    [("n", AV_N "5")] maps0.
Proof.
  apply evaluate_frame. intros first rest n Hs Hn. apply subexpr_parts in Hs as [E|(x & Hin & Hs)].
  { discriminate E. }
  simpl in Hin. destruct Hin as [<-|[<-|[]]]; inversion Hs; subst.
  vm_compute in Hn. injection Hn as <-. vm_compute. reflexivity.
Defined.

(** ** String and collection predicates *)

Lemma list_starts_with_iff {A : Type} `{EqDecision A} (l p : list A) :
  list_starts_with l p = true <-> exists k, l = p ++ k.
Proof.
  revert l. induction p as [|x p IH]; intros l.
  { destruct l; simpl; split; eauto. }
  destruct l as [|y l]; simpl; [by split; [|intros []]|].
  rewrite andb_true_iff, bool_decide_eq_true, IH. naive_solver.
Qed.

Lemma list_contains_sub_iff {A : Type} `{EqDecision A} (l p : list A) :
  list_contains_sub l p = true <-> exists k1 k2, l = k1 ++ p ++ k2.
Proof.
  induction l as [|y l IH].
  - change (list_contains_sub [] p) with (list_starts_with [] p || false).
    rewrite orb_false_r, list_starts_with_iff. split.
    + intros [k Hk]. exists [], k. done.
    + intros (k1 & k2 & E). destruct k1; [|done]. eauto.
  - change (list_contains_sub (y :: l) p)
      with (list_starts_with (y :: l) p || list_contains_sub l p).
    rewrite orb_true_iff, list_starts_with_iff, IH. split.
    + intros [[k ->]|(k1 & k2 & ->)]; [exists [], k|exists (y :: k1), k2]; reflexivity.
    + intros ([|z k1] & k2 & E); [left; eauto|]. injection E as -> ->. right. eauto.
Qed.

Section Predicates.
Context {D : Type} `{BigDecimal D}.
Implicit Type maps : ExpressionMaps D.

(** The membership functions mean what they say: [contains] on a string or
    binary is having the operand as a contiguous part, on a set or a list it is
    having it as a member; and [begins_with] is having it as a prefix, which on
    strings implies [contains]. *)
Theorem contains_begins_with_spec a b item maps v w :
  resolve_to_value a item maps = Ok (Some v) -> resolve_to_value b item maps = Ok (Some w) ->
  expr_eqb a b = false ->
  (evaluate_function "contains" [a; b] item maps = Ok true <->
   match v, w with
   | AV_S s, AV_S t => exists k1 k2, as_bytes s = k1 ++ as_bytes t ++ k2
   | AV_B s, AV_B t => exists k1 k2, s = k1 ++ t ++ k2
   | AV_SS xs, AV_S x | AV_NS xs, AV_N x => In x xs
   | AV_BS xs, AV_B x => In x xs
   | AV_L xs, x => In x xs
   | _, _ => False
   end) /\
  (evaluate_function "begins_with" [a; b] item maps = Ok true <->
   match v, w with
   | AV_S s, AV_S t => exists k, as_bytes s = as_bytes t ++ k
   | AV_B s, AV_B t => exists k, s = t ++ k
   | _, _ => False
   end).
Proof.
  intros Ha Hb Hne. unfold evaluate_function. simpl. rewrite Ha, Hb, Hne.
  assert (forall x : bool, Ok (E := fault) x = Ok true <-> x = true) as Hok
    by (intros x; split; [by intros [= ->]|by intros ->]).
  assert (forall x xs, existsb (fun y => av_eqb y x) xs = true <-> In x xs) as Hex.
  { intros x xs. rewrite existsb_exists. split.
    - intros (y & Hy & ->%av_eqb_eq). done.
    - intros Hx. exists x. split; [done|]. by apply av_eqb_eq. }
  split.
  - rewrite Hok. unfold contains_check.
    destruct v; try apply Hex; destruct w; try done;
      try apply list_contains_sub_iff; apply set_contains_In.
  - destruct v, w; try done; (etransitivity; [apply Hok|apply list_starts_with_iff]).
Qed.
End Predicates.

Lemma contains_begins_with_spec_witness :
  evaluate_function "begins_with" [EPath [PAttr "s"]; EPlaceholder "p"] [("s", AV_S "abc")]
    (maps_new (D := dec) ∅ {["p" := AV_S "ab"]}) = Ok true.
Proof.
  apply (contains_begins_with_spec (EPath [PAttr "s"]) (EPlaceholder "p") [("s", AV_S "abc")]
    (maps_new (D := dec) ∅ {["p" := AV_S "ab"]}) (AV_S "abc") (AV_S "ab"));
    [vm_compute; reflexivity..|].
  exists ["c"%char]. reflexivity.
Defined.

(** ** Missing operands

    A comparison with an operand that has no value is false, except [<>], which
    is true; [size] of a missing attribute has no value. *)

(** A comparison with a missing operand, such as the [size] of an attribute that
    does not exist or of a number, is true exactly when the operator is [<>]. *)
Theorem size_missing_compare {D : Type} `{BigDecimal D} path arg op item (maps : ExpressionMaps D) v :
  arg = EPath path ->
  resolve_path path item maps = Ok None \/
    (exists w, resolve_path path item maps = Ok (Some w) /\ value_size w = None) ->
  em_values maps !! v <> None ->
  evaluate_condition (ECompare (EFunction "size" [arg]) op (EPlaceholder v)) item maps
  = Ok (bool_decide (op = CNe)).
Proof.
  intros -> Hp Hv. simpl. unfold resolve_value.
  destruct (em_values maps !! v); [|done].
  destruct Hp as [->|(w & -> & Hw)]; [done|]. by rewrite Hw.
Qed.

Lemma size_missing_compare_witness :
  evaluate_condition (ECompare (EFunction "size" [EPath [PAttr "x"]]) CNe (EPlaceholder "lo"))
    [] maps0 = Ok true.
Proof.
  apply (size_missing_compare [PAttr "x"] (EPath [PAttr "x"]) CNe [] maps0 "lo").
  - reflexivity.
  - left. reflexivity.
  - vm_compute. discriminate.
Defined.

(** Two equal values of a type without an order satisfy [<=] and [>=], and two
    different ones satisfy neither; [<] and [>] never hold. *)
Theorem unordered_compare {D : Type} `{BigDecimal D} l r op lp rp :
  match l with AV_S _ | AV_N _ | AV_B _ => False | _ => True end ->
  compare_values (D := D) l r op lp rp =
  if av_eqb l r then match op with CEq | CLe | CGe => true | _ => false end
  else bool_decide (op = CNe).
Proof. intros Hl. unfold compare_values. by destruct l, r, op. Qed.

Lemma unordered_compare_witness :
  compare_values (D := dec) (AV_Bool true) (AV_Bool true) CLe None None = true.
Proof. rewrite unordered_compare; [reflexivity|exact I]. Defined.

(** ** Evaluation always returns *)

Section Returning.
Context {D : Type} `{BigDecimal D}.
Implicit Type maps : ExpressionMaps D.

(** Split a computation into the computations it is made of. *)
Local Ltac returning :=
  repeat first
    [ done | assumption | apply returns_fail
    | match goal with
      | |- returns (match ?r with Ok _ => _ | Err _ => _ end) =>
          apply returns_bind; [|intros ? _]
      | |- returns (match ?x with _ => _ end) => destruct x
      end ].

Lemma path_returns elements item maps : returns (resolve_path elements item maps).
Proof.
  assert (Hn : forall name, returns (resolve_name_ref name maps)).
  { intros name. unfold resolve_name_ref, resolve_name. returning. }
  assert (Hs : forall rest v, returns (resolve_steps rest v maps)).
  { induction rest as [|[nm|i] rest IH]; intros v; simpl; returning; auto. }
  destruct elements as [|e rest]; [done|]. simpl.
  apply returns_bind; [destruct e; [apply Hn|done]|]. intros n _. returning.
Qed.

Lemma value_returns name maps : returns (resolve_value maps name).
Proof. unfold resolve_value. returning. Qed.

Lemma operand_returns expr item maps : returns (resolve_to_value expr item maps).
Proof.
  induction expr as [p|n|l op r _ _|l r _ _|l r _ _|e _|n args IH|l op r _ _|e lo hi _ _ _|e items _ _]
    using Expr_ind; simpl; try done.
  - apply path_returns.
  - apply returns_bind; [apply value_returns|done].
  - inversion IH as [|a l Ha Hl]; subst; returning.
Qed.

Lemma function_returns name args item maps : returns (evaluate_function name args item maps).
Proof.
  pose proof (fun e => operand_returns e item maps) as Ho. unfold evaluate_function.
  returning.
Qed.

Lemma between_returns low high lo hi maps : returns (between_bounds_check low high lo hi maps).
Proof. unfold between_bounds_check. returning. Qed.

Lemma evaluate_condition_returns expr item maps : returns (evaluate_condition expr item maps).
Proof.
  pose proof (fun e => operand_returns e item maps) as Ho.
  induction expr as [p|n|l op r _ _|l r IHl IHr|l r IHl IHr|e IH|n args _|l op r _ _|e lo hi _ _ _|e items _ _]
    using Expr_ind; simpl; try done; try (by returning).
  - apply function_returns.
  - returning. apply between_returns.
  - apply returns_bind; [apply Ho|]. intros [v|] _; [|done].
    generalize (placeholder_numeric e maps) as vpn. intros vpn.
    induction items as [|c items IH]; [done|]. simpl. apply returns_bind; [apply Ho|].
    intros [c'|] _; [|done]. by destruct (compare_values _ _ _ _ _).
Qed.
End Returning.
