(* ===== verification/UpdateEvaluator.v ===== *)
(** * The update evaluator

    [crates/core/src/expression/update_evaluator.rs].  The Rust functions
    mutate the item in place; here each returns the new item.  A function that
    walks to a nested map and returns a mutable reference to it takes what its
    caller does with the reference as an argument.  After an error the callers
    discard the item, so an error carries none. *)

From S2P Require Import Prelude BTree Types Error Decimal Number Ast Resolver.

Definition invalid_path {A : Type} : res A :=
  fail "The document path provided in the update expression is invalid for update".
Definition no_such_attribute {A : Type} : res A :=
  fail "The provided expression refers to an attribute that does not exist in the item".
Definition incorrect_type {A : Type} : res A :=
  fail "An operand in the update expression has an incorrect data type".

(** [list[idx] = v] and [list.remove(idx)], for an index in range. *)
Definition list_set {A : Type} (l : list A) (idx : N) (v : A) : list A := <[N.to_nat idx := v]> l.
Definition list_remove {A : Type} (l : list A) (idx : N) : list A := delete (N.to_nat idx) l.

Section Update.
Context {D : Type} `{BigDecimal D}.
Implicit Type maps : ExpressionMaps D.

Definition resolve_attr_name (element : PathElement) maps : res string :=
  resolve_element_name element maps.

Definition resolve_path_to_value (elements : list PathElement) (item : Item) maps
    : res (option AttributeValue) := resolve_path elements item maps.

(** ** Values of SET *)

(** The sum or difference as the code stores it: the text of the [BigDecimal],
    once it is known to be within range. *)
Definition store_number (result : D) : res AttributeValue :=
  let result_str := bd_to_string result in
  match validate_and_normalize_number result_str with
  | Ok _ => Ok (AV_N result_str)
  | Err (Fail _) =>
      fail "Number overflow. Attempting to store a number with magnitude larger than supported range"
  | Err e => Err e
  end.

Definition parse_operand_number (n : string) : res D :=
  match bd_parse n with
  | Some d => Ok d
  | None => fail "Invalid numeric value in expression"
  end.

Definition evaluate_arithmetic (l r : AttributeValue) (op : ArithOp) : res AttributeValue :=
  match l, r with
  | AV_N l, AV_N r =>
      let? ld := parse_operand_number l in
      let? rd := parse_operand_number r in
      store_number (match op with AAdd => bd_add ld rd | ASub => bd_sub ld rd end)
  | _, _ => incorrect_type
  end.

(** [evaluate_set_value], with [evaluate_set_function] as its case for calls. *)
Fixpoint evaluate_set_value (expr : Expr) (item : Item) maps : res AttributeValue :=
  match expr with
  | EPlaceholder name => resolve_value_for maps name "UpdateExpression"
  | EPath elements =>
      let? v := resolve_path_to_value elements item maps in
      match v with
      | Some v => Ok v
      | None => no_such_attribute
      end
  | EArithmetic l op r =>
      let? lv := evaluate_set_value l item maps in
      let? rv := evaluate_set_value r item maps in
      evaluate_arithmetic lv rv op
  | EFunction name args =>
      if String.eqb name "if_not_exists" then
        match args with
        | [arg0; arg1] =>
            match arg0 with
            | EPath elements =>
                let? existing := resolve_path_to_value elements item maps in
                match existing with
                | Some v => Ok v
                | None => evaluate_set_value arg1 item maps
                end
            | _ => evaluate_set_value arg1 item maps
            end
        | _ => fail "Invalid UpdateExpression: if_not_exists requires exactly two arguments"
        end
      else if String.eqb name "list_append" then
        match args with
        | [arg0; arg1] =>
            let? a := evaluate_set_value arg0 item maps in
            let? b := evaluate_set_value arg1 item maps in
            match a, b with
            | AV_L a, AV_L b => Ok (AV_L (a ++ b))
            | _, _ => incorrect_type
            end
        | _ => fail "Invalid UpdateExpression: list_append requires exactly two arguments"
        end
      else fail ("Invalid UpdateExpression: unknown function '" +:+ name +:+ "'")
  | _ => fail "Invalid UpdateExpression: unsupported value expression"
  end.

(** ** SET *)

Fixpoint set_nested (current : AttributeValue) (path : list PathElement) (value : AttributeValue)
    maps : res AttributeValue :=
  match path with
  | [] => Err Panic
  | [element] =>
      match element, current with
      | PAttr _, AV_M map =>
          let? name := resolve_attr_name element maps in
          Ok (AV_M (bt_insert name value map))
      | PIndex idx, AV_L list =>
          if (idx <? N.of_nat (length list))%N then Ok (AV_L (list_set list idx value))
          else Ok (AV_L (list ++ [value]))
      | _, _ => invalid_path
      end
  | element :: rest =>
      match element, current with
      | PAttr _, AV_M map =>
          let? name := resolve_attr_name element maps in
          match bt_get name map with
          | Some entry =>
              let? entry := set_nested entry rest value maps in
              Ok (AV_M (bt_insert name entry map))
          | None => invalid_path
          end
      | PIndex idx, AV_L list =>
          match get_N list idx with
          | Some entry =>
              let? entry := set_nested entry rest value maps in
              Ok (AV_L (list_set list idx entry))
          | None => no_such_attribute
          end
      | _, _ => invalid_path
      end
  end.

Definition set_path (item : Item) (path : list PathElement) (value : AttributeValue) maps : res Item :=
  match path with
  | [] => fail "Invalid UpdateExpression: empty path"
  | first :: rest =>
      let? first_name := resolve_attr_name first maps in
      match rest with
      | [] => Ok (bt_insert first_name value item)
      | _ =>
          match bt_get first_name item with
          | None => invalid_path
          | Some current =>
              let? current := set_nested current rest value maps in
              Ok (bt_insert first_name current item)
          end
      end
  end.

(** ** REMOVE *)

Fixpoint remove_nested (current : AttributeValue) (path : list PathElement) maps
    : res AttributeValue :=
  match path with
  | [] => Err Panic
  | [element] =>
      match element, current with
      | PAttr _, AV_M map =>
          let? name := resolve_attr_name element maps in
          Ok (AV_M (bt_remove name map))
      | PIndex idx, AV_L list =>
          if (idx <? N.of_nat (length list))%N then Ok (AV_L (list_remove list idx))
          else Ok current
      | _, _ => Ok current
      end
  | element :: rest =>
      match element, current with
      | PAttr _, AV_M map =>
          let? name := resolve_attr_name element maps in
          match bt_get name map with
          | Some next =>
              let? next := remove_nested next rest maps in
              Ok (AV_M (bt_insert name next map))
          | None => Ok current
          end
      | PIndex idx, AV_L list =>
          match get_N list idx with
          | Some next =>
              let? next := remove_nested next rest maps in
              Ok (AV_L (list_set list idx next))
          | None => Ok current
          end
      | _, _ => Ok current
      end
  end.

Definition remove_path (item : Item) (path : list PathElement) maps : res Item :=
  match path with
  | [] => Ok item
  | first :: rest =>
      let? first_name := resolve_attr_name first maps in
      match rest with
      | [] => Ok (bt_remove first_name item)
      | _ =>
          match bt_get first_name item with
          | None => Ok item
          | Some current =>
              let? current := remove_nested current rest maps in
              Ok (bt_insert first_name current item)
          end
      end
  end.

(** ** ADD *)

(** The loop of [navigate_to_parent_map_or_create] from [current] through the
    elements before the last, then [f] on the map it ends at. *)
Fixpoint create_nested (current : AttributeValue) (middle : list PathElement) maps
    (f : Item -> res Item) : res AttributeValue :=
  match middle with
  | [] =>
      match current with
      | AV_M map =>
          let? map := f map in
          Ok (AV_M map)
      | _ => invalid_path
      end
  | element :: rest =>
      match element with
      | PAttr _ =>
          let? name := resolve_attr_name element maps in
          match current with
          | AV_M map =>
              let entry := default (AV_M []) (bt_get name map) in
              let? entry := create_nested entry rest maps f in
              Ok (AV_M (bt_insert name entry map))
          | _ => invalid_path
          end
      | PIndex idx =>
          match current with
          | AV_L list =>
              match get_N list idx with
              | Some entry =>
                  let? entry := create_nested entry rest maps f in
                  Ok (AV_L (list_set list idx entry))
              | None => no_such_attribute
              end
          | _ => invalid_path
          end
      end
  end.

Definition navigate_to_parent_map_or_create (item : Item) (path : list PathElement) maps
    (f : Item -> res Item) : res Item :=
  match path with
  | [] | [_] => f item
  | first :: rest =>
      let? first_name := resolve_attr_name first maps in
      let current := default (AV_M []) (bt_get first_name item) in
      let? current := create_nested current (removelast rest) maps f in
      Ok (bt_insert first_name current item)
  end.

(** The value that ADD stores over [existing]. *)
Definition add_value (existing : option AttributeValue) (value : AttributeValue)
    : res AttributeValue :=
  match existing, value with
  | None, (AV_N _ | AV_SS _ | AV_NS _ | AV_BS _) => Ok value
  | Some (AV_N existing_n), AV_N add_n =>
      let? ed := parse_operand_number existing_n in
      let? ad := parse_operand_number add_n in
      store_number (bd_add ed ad)
  | Some (AV_SS existing_set), AV_SS add_set => Ok (AV_SS (set_extend existing_set add_set))
  | Some (AV_NS existing_set), AV_NS add_set => Ok (AV_NS (set_extend existing_set add_set))
  | Some (AV_BS existing_set), AV_BS add_set => Ok (AV_BS (set_extend existing_set add_set))
  | _, _ => incorrect_type
  end.

Definition apply_add (item : Item) (path : list PathElement) (value : AttributeValue) maps : res Item :=
  navigate_to_parent_map_or_create item path maps (fun target =>
    match last_error path with
    | None => fail "Empty path in ADD"
    | Some leaf =>
        let? attr_name := resolve_attr_name leaf maps in
        let? new_value := add_value (bt_get attr_name target) value in
        Ok (bt_insert attr_name new_value target)
    end).

(** ** DELETE *)

(** [navigate_to_parent_map]: where it returns [None] the item is unchanged. *)
Fixpoint walk_nested (current : AttributeValue) (middle : list PathElement) maps
    (f : Item -> res Item) : res AttributeValue :=
  match middle with
  | [] =>
      match current with
      | AV_M map =>
          let? map := f map in
          Ok (AV_M map)
      | _ => Ok current
      end
  | element :: rest =>
      match element with
      | PAttr _ =>
          let? name := resolve_attr_name element maps in
          match current with
          | AV_M map =>
              match bt_get name map with
              | Some next =>
                  let? next := walk_nested next rest maps f in
                  Ok (AV_M (bt_insert name next map))
              | None => Ok current
              end
          | _ => Ok current
          end
      | PIndex idx =>
          match current with
          | AV_L list =>
              match get_N list idx with
              | Some next =>
                  let? next := walk_nested next rest maps f in
                  Ok (AV_L (list_set list idx next))
              | None => Ok current
              end
          | _ => Ok current
          end
      end
  end.

Definition navigate_to_parent_map (item : Item) (path : list PathElement) maps
    (f : Item -> res Item) : res Item :=
  match path with
  | [] | [_] => f item
  | first :: rest =>
      let? first_name := resolve_attr_name first maps in
      match bt_get first_name item with
      | None => Ok item
      | Some current =>
          let? current := walk_nested current (removelast rest) maps f in
          Ok (bt_insert first_name current item)
      end
  end.

(** What DELETE leaves of [existing]: nothing when the set becomes empty. *)
Definition delete_value (existing value : AttributeValue) : res (option AttributeValue) :=
  match existing, value with
  | AV_SS existing_set, AV_SS remove_set =>
      let remaining := set_difference existing_set remove_set in
      Ok (if bool_decide (remaining = []) then None else Some (AV_SS remaining))
  | AV_NS existing_set, AV_NS remove_set =>
      let remaining := set_difference existing_set remove_set in
      Ok (if bool_decide (remaining = []) then None else Some (AV_NS remaining))
  | AV_BS existing_set, AV_BS remove_set =>
      let remaining := set_difference existing_set remove_set in
      Ok (if bool_decide (remaining = []) then None else Some (AV_BS remaining))
  | _, _ => incorrect_type
  end.

Definition apply_delete (item : Item) (path : list PathElement) (value : AttributeValue) maps
    : res Item :=
  navigate_to_parent_map item path maps (fun target =>
    match last_error path with
    | None => fail "Empty path in DELETE"
    | Some leaf =>
        let? attr_name := resolve_attr_name leaf maps in
        match bt_get attr_name target with
        | None => Ok target
        | Some existing =>
            let? new_value := delete_value existing value in
            match new_value with
            | Some v => Ok (bt_insert attr_name v target)
            | None => Ok (bt_remove attr_name target)
            end
        end
    end).

(** ** The whole update *)

(** [for action in actions { .. }]: the item after every action that [f]
    applies to. *)
Fixpoint for_actions (f : UpdateAction -> Item -> res Item) (actions : list UpdateAction)
    (item : Item) : res Item :=
  match actions with
  | [] => Ok item
  | action :: rest =>
      let? item := f action item in
      for_actions f rest item
  end.

Definition set_action (snapshot : Item) maps (action : UpdateAction) (item : Item) : res Item :=
  match action with
  | USet path value =>
      let? resolved_value := evaluate_set_value value snapshot maps in
      set_path item path resolved_value maps
  | _ => Ok item
  end.

Definition remove_action maps (action : UpdateAction) (item : Item) : res Item :=
  match action with
  | URemove path => remove_path item path maps
  | _ => Ok item
  end.

Definition add_action maps (action : UpdateAction) (item : Item) : res Item :=
  match action with
  | UAdd path value =>
      let? resolved_value := evaluate_set_value value item maps in
      apply_add item path resolved_value maps
  | _ => Ok item
  end.

Definition delete_action maps (action : UpdateAction) (item : Item) : res Item :=
  match action with
  | UDelete path value =>
      let? resolved_value := evaluate_set_value value item maps in
      apply_delete item path resolved_value maps
  | _ => Ok item
  end.

Definition apply_update (actions : list UpdateAction) (item : Item) maps : res Item :=
  let snapshot := item in
  let? item := for_actions (set_action snapshot maps) actions item in
  let? item := for_actions (remove_action maps) actions item in
  let? item := for_actions (add_action maps) actions item in
  for_actions (delete_action maps) actions item.
End Update.

(** ** Well-formedness *)

Lemma forallb_list_set {A : Type} (p : A -> bool) l idx v :
  forallb p l = true -> p v = true -> forallb p (list_set l idx v) = true.
Proof.
  intros Hl Hv. unfold list_set. generalize (N.to_nat idx). clear idx.
  induction l as [|x l IH]; intros [|i]; simpl in *; try done;
    apply andb_true_iff in Hl as [Hx Hl]; apply andb_true_iff; auto.
Qed.

Lemma forallb_list_remove {A : Type} (p : A -> bool) l idx :
  forallb p l = true -> forallb p (list_remove l idx) = true.
Proof.
  intros Hl. unfold list_remove. generalize (N.to_nat idx). clear idx.
  induction l as [|x l IH]; intros [|i]; simpl in *; try done;
    apply andb_true_iff in Hl as [Hx Hl]; [done|]. apply andb_true_iff. auto.
Qed.

Lemma get_N_In {A : Type} (l : list A) i x : get_N l i = Some x -> In x l.
Proof.
  unfold get_N. destruct (i <? _)%N; [|done]. intros H.
  apply list_elem_of_In. by eapply list_elem_of_lookup_2.
Qed.

Lemma forallb_get_N {A : Type} (p : A -> bool) l i x :
  forallb p l = true -> get_N l i = Some x -> p x = true.
Proof. rewrite forallb_forall. intros Hl Hx%get_N_In. auto. Qed.

#[export] Hint Resolve forallb_list_set forallb_list_remove forallb_get_N : edb.

Section WellFormed.
Context {D : Type} `{BigDecimal D}.
Implicit Type maps : ExpressionMaps D.

(** The values a request supplies are well formed, as the deserializer makes
    them. *)
Definition values_wf maps : Prop :=
  forall k v, em_values maps !! k = Some v -> av_wf v = true.

Lemma resolve_steps_wf path v w maps :
  av_wf v = true -> resolve_steps path v maps = Ok (Some w) -> av_wf w = true.
Proof.
  revert v. induction path as [|[name|idx] path IH]; intros v Hv; simpl.
  - by intros [= <-].
  - destruct (resolve_name_ref name maps) as [n|]; [|done]. destruct v; try done.
    destruct (bt_get n m) eqn:E; [|done]. apply IH. rewrite av_wf_M in Hv. eauto with edb.
  - destruct v; try done. destruct (get_N l idx) eqn:E; [|done]. apply IH.
    simpl in Hv. eauto with edb.
Qed.

Lemma resolve_path_wf path item w maps :
  item_wf item = true -> resolve_path path item maps = Ok (Some w) -> av_wf w = true.
Proof.
  intros Hi. destruct path as [|e path]; [done|]. simpl.
  destruct (resolve_element_name e maps) as [n|]; [|done].
  destruct (bt_get n item) eqn:E; [|done]. apply resolve_steps_wf. eauto with edb.
Qed.

Lemma store_number_wf (d : D) v : store_number d = Ok v -> av_wf v = true.
Proof.
  unfold store_number. destruct (validate_and_normalize_number _) as [|[]]; try done.
  by intros [= <-].
Qed.

Lemma evaluate_set_value_wf e item v maps :
  item_wf item = true -> values_wf maps ->
  evaluate_set_value e item maps = Ok v -> av_wf v = true.
Proof.
  intros Hi Hm. revert v.
  induction e as [p|n|l o r IHl IHr|l r IHl IHr|l r IHl IHr|e IHe|n args IHargs|l o r IHl IHr
    |e lo hi IHe IHlo IHhi|e items IHe IHitems] using Expr_ind; intros v; simpl; try done.
  - unfold resolve_path_to_value. destruct (resolve_path p item maps) as [[w|]|] eqn:E; try done.
    intros [= <-]. by eapply resolve_path_wf.
  - unfold resolve_value_for. destruct (em_values maps !! n) eqn:E; [|done].
    intros [= <-]. by eapply Hm.
  - destruct args as [|a [|b [|c args]]]; try (by repeat destruct (String.eqb _ _)).
    inversion_clear IHargs as [|? ? Ha Hrest]. inversion_clear Hrest as [|? ? Hb _].
    destruct (String.eqb n "if_not_exists").
    + unfold resolve_path_to_value. destruct a; auto.
      destruct (resolve_path _ item maps) as [[w|]|] eqn:E; try done; [|auto].
      intros [= <-]. by eapply resolve_path_wf.
    + destruct (String.eqb n "list_append"); [|done].
      destruct (evaluate_set_value a item maps) as [av|] eqn:Ea; [|done].
      destruct (evaluate_set_value b item maps) as [bv|] eqn:Eb; [|done].
      destruct av; try done. destruct bv; try done. intros [= <-].
      specialize (Ha _ eq_refl). specialize (Hb _ eq_refl). simpl in *.
      by rewrite forallb_app, Ha, Hb.
  - destruct (evaluate_set_value l item maps) as [lv|]; [|done].
    destruct (evaluate_set_value r item maps) as [rv|]; [|done].
    unfold evaluate_arithmetic. destruct lv; try done. destruct rv; try done.
    destruct (parse_operand_number n); [|done]. destruct (parse_operand_number n0); [|done].
    apply store_number_wf.
Qed.

Lemma set_nested_wf current path value maps v :
  av_wf current = true -> av_wf value = true ->
  set_nested current path value maps = Ok v -> av_wf v = true.
Proof.
  revert current v. induction path as [|e rest IH]; intros current v Hc Hv; [done|].
  cbn [set_nested]. destruct rest as [|e' rest'].
  - destruct e, current; try done.
    + unfold resolve_attr_name. destruct (resolve_element_name _ maps); [|done]. intros [= <-].
      rewrite av_wf_M in *. auto with edb.
    + simpl in Hc. destruct (idx <? _)%N; intros [= <-]; simpl; [auto with edb|].
      by rewrite forallb_app, Hc; simpl; rewrite Hv.
  - set (rest := e' :: rest') in *. destruct e, current; try done.
    + unfold resolve_attr_name. destruct (resolve_element_name _ maps) as [n|]; [|done].
      destruct (bt_get n m) eqn:E; [|done].
      destruct (set_nested a rest value maps) eqn:Es; [|done]. intros [= <-].
      rewrite av_wf_M in *. eauto with edb.
    + destruct (get_N l idx) eqn:E; [|done].
      destruct (set_nested a rest value maps) eqn:Es; [|done]. intros [= <-].
      simpl in *. eauto with edb.
Qed.

Lemma set_path_wf item path value maps item' :
  item_wf item = true -> av_wf value = true ->
  set_path item path value maps = Ok item' -> item_wf item' = true.
Proof.
  intros Hi Hv. destruct path as [|e rest]; [done|]. unfold set_path, resolve_attr_name.
  destruct (resolve_element_name e maps) as [n|]; [|done]. destruct rest as [|e' rest'].
  - intros [= <-]. auto with edb.
  - destruct (bt_get n item) eqn:E; [|done].
    destruct (set_nested _ _ _ _) eqn:Es; [|done]. intros [= <-].
    apply item_wf_insert; [done|]. eapply set_nested_wf; [|exact Hv|exact Es]. eauto with edb.
Qed.

Lemma remove_nested_wf current path maps v :
  av_wf current = true -> remove_nested current path maps = Ok v -> av_wf v = true.
Proof.
  revert current v. induction path as [|e rest IH]; intros current v Hc; [done|].
  cbn [remove_nested]. destruct rest as [|e' rest'].
  - destruct e, current; try (by intros [= <-]).
    + unfold resolve_attr_name. destruct (resolve_element_name _ maps); [|done]. intros [= <-].
      rewrite av_wf_M in *. auto with edb.
    + destruct (idx <? _)%N; intros [= <-]; [|done]. simpl in *. auto with edb.
  - set (rest := e' :: rest') in *. destruct e, current; try (by intros [= <-]).
    + unfold resolve_attr_name. destruct (resolve_element_name _ maps) as [n|]; [|done].
      destruct (bt_get n m) eqn:E; [|by intros [= <-]].
      destruct (remove_nested a rest maps) eqn:Es; [|done]. intros [= <-].
      rewrite av_wf_M in *. eauto with edb.
    + destruct (get_N l idx) eqn:E; [|by intros [= <-]].
      destruct (remove_nested a rest maps) eqn:Es; [|done]. intros [= <-].
      simpl in *. eauto with edb.
Qed.

Lemma remove_path_wf item path maps item' :
  item_wf item = true -> remove_path item path maps = Ok item' -> item_wf item' = true.
Proof.
  intros Hi. destruct path as [|e rest]; [by intros [= <-]|]. unfold remove_path, resolve_attr_name.
  destruct (resolve_element_name e maps) as [n|]; [|done]. destruct rest as [|e' rest'].
  - intros [= <-]. auto with edb.
  - destruct (bt_get n item) eqn:E; [|by intros [= <-]].
    destruct (remove_nested _ _ _) eqn:Es; [|done]. intros [= <-].
    apply item_wf_insert; [done|]. eapply remove_nested_wf; [|exact Es]. eauto with edb.
Qed.

(** [f] keeps items well formed. *)
Definition keeps_wf (f : Item -> res Item) : Prop :=
  forall i i', item_wf i = true -> f i = Ok i' -> item_wf i' = true.

Lemma create_nested_wf middle maps f : keeps_wf f -> forall current v,
  av_wf current = true -> create_nested current middle maps f = Ok v -> av_wf v = true.
Proof.
  intros Hf. induction middle as [|[name|idx] rest IH]; intros current v Hc; cbn [create_nested].
  - destruct current; try done. destruct (f m) eqn:E; [|done]. intros [= <-].
    rewrite av_wf_M in *. eauto.
  - unfold resolve_attr_name. destruct (resolve_element_name _ maps) as [n|]; [|done].
    destruct current; try done. destruct (create_nested _ rest maps f) eqn:Es; [|done].
    intros [= <-]. rewrite av_wf_M in *. apply item_wf_insert; [done|].
    eapply IH; [|exact Es]. destruct (bt_get n m) eqn:E; simpl; eauto with edb.
  - destruct current; try done. destruct (get_N l idx) eqn:E; [|done].
    destruct (create_nested _ rest maps f) eqn:Es; [|done]. intros [= <-].
    simpl in *. eauto with edb.
Qed.

Lemma walk_nested_wf middle maps f : keeps_wf f -> forall current v,
  av_wf current = true -> walk_nested current middle maps f = Ok v -> av_wf v = true.
Proof.
  intros Hf. induction middle as [|[name|idx] rest IH]; intros current v Hc; cbn [walk_nested].
  - destruct current; try (by intros [= <-]). destruct (f m) eqn:E; [|done]. intros [= <-].
    rewrite av_wf_M in *. eauto.
  - unfold resolve_attr_name. destruct (resolve_element_name _ maps) as [n|]; [|done].
    destruct current; try (by intros [= <-]). destruct (bt_get n m) eqn:E; [|by intros [= <-]].
    destruct (walk_nested _ rest maps f) eqn:Es; [|done].
    intros [= <-]. rewrite av_wf_M in *. eauto with edb.
  - destruct current; try (by intros [= <-]). destruct (get_N l idx) eqn:E; [|by intros [= <-]].
    destruct (walk_nested _ rest maps f) eqn:Es; [|done]. intros [= <-].
    simpl in *. eauto with edb.
Qed.

Lemma add_value_wf existing value v :
  match existing with Some x => av_wf x = true | None => True end -> av_wf value = true ->
  add_value (D := D) existing value = Ok v -> av_wf v = true.
Proof.
  intros He Hv. unfold add_value.
  destruct existing as [[]|]; destruct value; try done; try (by intros [= <-]);
    try (intros [= <-]; by apply set_extend_sorted).
  destruct (parse_operand_number n); [|done]. destruct (parse_operand_number n0); [|done].
  apply store_number_wf.
Qed.

Lemma apply_add_wf item path value maps item' :
  item_wf item = true -> av_wf value = true ->
  apply_add item path value maps = Ok item' -> item_wf item' = true.
Proof.
  intros Hi Hv. unfold apply_add. set (f := fun target => _).
  assert (keeps_wf f) as Hf.
  { intros t t' Ht. unfold f. destruct (last_error path) as [leaf|]; [|done].
    unfold resolve_attr_name. destruct (resolve_element_name leaf maps) as [n|]; [|done].
    destruct (add_value _ _) eqn:Ea; [|done]. intros [= <-]. apply item_wf_insert; [done|].
    eapply add_value_wf; [|exact Hv|exact Ea]. destruct (bt_get n t) eqn:E; eauto with edb. }
  destruct path as [|e [|e' rest]]; unfold navigate_to_parent_map_or_create; eauto.
  unfold resolve_attr_name. destruct (resolve_element_name e maps) as [n|]; [|done].
  destruct (create_nested _ _ _ _) eqn:Ec; [|done]. intros [= <-]. apply item_wf_insert; [done|].
  eapply create_nested_wf; [exact Hf| |exact Ec].
  destruct (bt_get n item) eqn:E; simpl; eauto with edb.
Qed.

Lemma delete_value_wf existing value v :
  av_wf existing = true -> delete_value existing value = Ok (Some v) -> av_wf v = true.
Proof.
  intros He. unfold delete_value. destruct existing, value; try done;
    case_bool_decide; intros [= <-]; by apply set_difference_sorted.
Qed.

Lemma apply_delete_wf item path value maps item' :
  item_wf item = true -> apply_delete item path value maps = Ok item' -> item_wf item' = true.
Proof.
  intros Hi. unfold apply_delete. set (f := fun target => _).
  assert (keeps_wf f) as Hf.
  { intros t t' Ht. unfold f. destruct (last_error path) as [leaf|]; [|done].
    unfold resolve_attr_name. destruct (resolve_element_name leaf maps) as [n|]; [|done].
    destruct (bt_get n t) as [x|] eqn:E; [|by intros [= <-]].
    destruct (delete_value x value) as [[v|]|] eqn:Ed; [| |done]; intros [= <-];
      eauto using delete_value_wf with edb. }
  destruct path as [|e [|e' rest]]; unfold navigate_to_parent_map; eauto.
  unfold resolve_attr_name. destruct (resolve_element_name e maps) as [n|]; [|done].
  destruct (bt_get n item) eqn:E; [|by intros [= <-]].
  destruct (walk_nested _ _ _ _) eqn:Ec; [|done]. intros [= <-]. apply item_wf_insert; [done|].
  eapply walk_nested_wf; [exact Hf| |exact Ec]. eauto with edb.
Qed.

Lemma for_actions_wf f actions :
  (forall a, keeps_wf (f a)) -> keeps_wf (for_actions f actions).
Proof.
  intros Hf. induction actions as [|a actions IH]; intros i i' Hi; simpl; [by intros [= <-]|].
  destruct (f a i) eqn:E; [|done]. apply IH. by eapply Hf.
Qed.

End WellFormed.


(** ** Where SET writes *)

(** The steps at which a SET of [steps] stores its value: a last list position
    past the end of the list is the end of the list. *)
Fixpoint landing (steps : list Step) (v : AttributeValue) : list Step :=
  match steps with
  | [] => []
  | [Pos i] =>
      match v with
      | AV_L l => [Pos (N.min i (N.of_nat (length l)))]
      | _ => steps
      end
  | s :: rest =>
      s :: match step_in s v with
           | Some w => landing rest w
           | None => rest
           end
  end.

(** Two paths that part at some step: neither is a prefix of the other. *)
Inductive diverge : list Step -> list Step -> Prop :=
  | diverge_here a b l k : a <> b -> diverge (a :: l) (b :: k)
  | diverge_later a l k : diverge l k -> diverge (a :: l) (a :: k).

Lemma get_N_list_set_eq {A : Type} (l : list A) i x y :
  get_N l i = Some y -> get_N (list_set l i x) i = Some x.
Proof.
  unfold get_N, list_set. rewrite length_insert. destruct (N.ltb_spec i (N.of_nat (length l))); [|done].
  intros _. apply list_lookup_insert_eq. lia.
Qed.

Lemma get_N_list_set_ne {A : Type} (l : list A) i j x :
  i <> j -> get_N (list_set l i x) j = get_N l j.
Proof.
  intros Hne. unfold get_N, list_set. rewrite length_insert. destruct (_ <? _)%N; [|done].
  apply list_lookup_insert_ne. lia.
Qed.

Lemma get_N_snoc_ne {A : Type} (l : list A) x i :
  i <> N.of_nat (length l) -> get_N (l ++ [x]) i = get_N l i.
Proof.
  intros Hne. unfold get_N. rewrite length_app. simpl.
  destruct (N.ltb_spec i (N.of_nat (length l))).
  - rewrite (proj2 (N.ltb_lt _ _)) by lia. apply lookup_app_l. lia.
  - rewrite (proj2 (N.ltb_ge _ _)) by lia. done.
Qed.

Lemma get_N_snoc {A : Type} (l : list A) x : get_N (l ++ [x]) (N.of_nat (length l)) = Some x.
Proof.
  unfold get_N. rewrite length_app. simpl. rewrite (proj2 (N.ltb_lt _ _)) by lia.
  rewrite Nat2N.id. by apply list_lookup_middle.
Qed.

Lemma get_N_lt {A : Type} (l : list A) i : (i < N.of_nat (length l))%N -> is_Some (get_N l i).
Proof.
  intros Hi. unfold get_N. rewrite (proj2 (N.ltb_lt _ _) Hi).
  apply lookup_lt_is_Some_2. lia.
Qed.

Section SetPath.
Context {D : Type} `{BigDecimal D}.
Implicit Type maps : ExpressionMaps D.

Lemma path_steps_cons maps e path steps :
  path_steps maps (e :: path) = Some steps ->
  exists s rest, steps = s :: rest /\ element_step maps e = Some s /\ path_steps maps path = Some rest.
Proof.
  unfold path_steps. rewrite mapM_Some. inversion 1 as [|? s ? rest He Hr]; subst.
  exists s, rest. by rewrite mapM_Some.
Qed.

Lemma resolve_attr_step maps name s :
  element_step maps (PAttr name) = Some s ->
  exists n, resolve_attr_name (PAttr name) maps = Ok n /\ s = Key n.
Proof. apply resolve_name_ref_step. Qed.

(** What a nested SET writes, one level at a time. *)
Lemma set_nested_one maps e s current value v :
  element_step maps e = Some s -> set_nested current [e] value maps = Ok v ->
  match s, current with
  | Key n, AV_M m => v = AV_M (bt_insert n value m)
  | Pos i, AV_L l =>
      v = AV_L (if (i <? N.of_nat (length l))%N then list_set l i value else l ++ [value])
  | _, _ => False
  end.
Proof.
  intros He. cbn [set_nested]. destruct e as [name|idx].
  - destruct (resolve_attr_step _ _ _ He) as (n & Hn & ->). destruct current; try done.
    rewrite Hn. by intros [= <-].
  - injection He as <-. destruct current; try done. destruct (idx <? _)%N; by intros [= <-].
Qed.

Lemma set_nested_cons maps e e' path s current value v :
  element_step maps e = Some s -> set_nested current (e :: e' :: path) value maps = Ok v ->
  exists entry entry', step_in s current = Some entry /\
    set_nested entry (e' :: path) value maps = Ok entry' /\
    match s, current with
    | Key n, AV_M m => v = AV_M (bt_insert n entry' m)
    | Pos i, AV_L l => v = AV_L (list_set l i entry')
    | _, _ => False
    end.
Proof.
  intros He. cbn [set_nested]. destruct e as [name|idx].
  - destruct (resolve_attr_step _ _ _ He) as (n & Hn & ->). destruct current; try done.
    rewrite Hn. simpl. destruct (bt_get n m) as [entry|]; [|done].
    match goal with |- context [let? _ := ?r in _] => destruct r as [entry'|] eqn:E end; [|done].
    intros [= <-]. eauto.
  - injection He as <-. destruct current; try done. simpl.
    destruct (get_N l idx) as [entry|]; [|done].
    match goal with |- context [let? _ := ?r in _] => destruct r as [entry'|] eqn:E end; [|done].
    intros [= <-]. eauto.
Qed.

Lemma landing_cons s s' rest v w :
  step_in s v = Some w -> landing (s :: s' :: rest) v = s :: landing (s' :: rest) w.
Proof. intros E. destruct s; cbn [landing]; by rewrite E. Qed.

Lemma landing_key n v : landing [Key n] v = [Key n].
Proof. cbn [landing]. by destruct (step_in (Key n) v). Qed.

Lemma diverge_one s other : diverge [s] other -> exists b k, other = b :: k /\ s <> b.
Proof. inversion 1 as [? b ? k Hne|? ? ? Hd]; subst; [eauto|inversion Hd]. Qed.

Lemma get_in_M_insert_ne n m w b k :
  Key n <> b -> get_in (b :: k) (AV_M (bt_insert n w m)) = get_in (b :: k) (AV_M m).
Proof.
  intros Hne. destruct b as [n'|]; [|done]. cbn [get_in step_in].
  rewrite bt_get_insert_ne; [done|congruence].
Qed.

Lemma get_in_L_set_ne i l w b k :
  Pos i <> b -> get_in (b :: k) (AV_L (list_set l i w)) = get_in (b :: k) (AV_L l).
Proof.
  intros Hne. destruct b as [|j]; [done|]. cbn [get_in step_in].
  rewrite get_N_list_set_ne; [done|congruence].
Qed.

Lemma set_nested_spec maps path : forall steps current value v,
  path_steps maps path = Some steps -> set_nested current path value maps = Ok v ->
  get_in (landing steps current) v = Some value /\
  (forall other, diverge (landing steps current) other -> get_in other v = get_in other current).
Proof.
  induction path as [|e path IH]; intros steps current value v Hsteps Hset; [done|].
  destruct (path_steps_cons _ _ _ _ Hsteps) as (s & rest & -> & He & Hrest).
  destruct path as [|e' path].
  - injection Hrest as <-. pose proof (set_nested_one _ _ _ _ _ _ He Hset) as Hv.
    destruct s as [n|i], current; try done; subst v.
    + rewrite landing_key. split; [simpl; by rewrite bt_get_insert_eq|].
      intros other (b & k & -> & Hne)%diverge_one. by apply get_in_M_insert_ne.
    + cbn [landing]. destruct (N.ltb_spec i (N.of_nat (length l))) as [Hi|Hi].
      * rewrite N.min_l by lia. destruct (get_N_lt l i Hi) as [y Hy].
        split; [simpl; by rewrite (get_N_list_set_eq _ _ _ _ Hy)|].
        intros other (b & k & -> & Hne)%diverge_one. by apply get_in_L_set_ne.
      * rewrite N.min_r by lia. split; [simpl; by rewrite get_N_snoc|].
        intros other ([n|j] & k & -> & Hne)%diverge_one; [done|]. cbn [get_in step_in].
        rewrite get_N_snoc_ne; [done|congruence].
  - destruct (set_nested_cons _ _ _ _ _ _ _ _ He Hset) as (entry & entry' & Hin & Hset' & Hv).
    destruct (IH _ _ _ _ Hrest Hset') as [Hget Hframe].
    destruct (path_steps_cons _ _ _ _ Hrest) as (s' & rest' & -> & _).
    rewrite (landing_cons _ _ _ _ _ Hin).
    destruct s as [n|i], current; try done; subst v; simpl in Hin.
    + split; [cbn [get_in step_in]; by rewrite bt_get_insert_eq|].
      intros other Hd. inversion Hd as [? b ? k Hne|? ? k Hd']; subst.
      * by apply get_in_M_insert_ne.
      * cbn [get_in step_in]. rewrite bt_get_insert_eq, Hin. by apply Hframe.
    + split; [cbn [get_in step_in]; by rewrite (get_N_list_set_eq _ _ _ _ Hin)|].
      intros other Hd. inversion Hd as [? b ? k Hne|? ? k Hd']; subst.
      * by apply get_in_L_set_ne.
      * cbn [get_in step_in]. rewrite (get_N_list_set_eq _ _ _ _ Hin), Hin. by apply Hframe.
Qed.

(** A top-level SET is a nested one in the map that the item is. *)
Lemma set_path_nested item e rest value maps item' name :
  element_step maps e = Some (Key name) ->
  set_path item (e :: rest) value maps = Ok item' ->
  set_nested (AV_M item) (e :: rest) value maps = Ok (AV_M item').
Proof.
  destruct e as [n|i]; [|done]. unfold set_path. cbn [set_nested].
  destruct (resolve_attr_name (PAttr n) maps) as [nm|]; [|done]. simpl.
  destruct rest as [|e' rest]; [by intros _ [= <-]|].
  destruct (bt_get nm item); [|done]. intros _.
  destruct (set_nested a (e' :: rest) value maps); [|done]. by intros [= <-].
Qed.

(** SET writes its value at its path and nothing else.  After a SET that
    succeeds the value is at the path's steps (a list position past the end of its
    list is where the list ended), and whatever is read at a path that parts from
    it reads as before. *)
Theorem set_path_get_put item path value maps item' steps :
  path_steps maps path = Some steps -> set_path item path value maps = Ok item' ->
  get_in (landing steps (AV_M item)) (AV_M item') = Some value /\
  (forall other, diverge (landing steps (AV_M item)) other ->
     get_in other (AV_M item') = get_in other (AV_M item)).
Proof.
  intros Hsteps Hset. eapply set_nested_spec; [exact Hsteps|].
  destruct path as [|e rest]; [done|].
  destruct (path_steps_cons _ _ _ _ Hsteps) as ([name|i] & rest' & -> & He & _).
  - by eapply set_path_nested.
  - destruct e; [|done]. apply resolve_name_ref_step in He as (? & _ & [=]).
Qed.
End SetPath.

Lemma set_path_get_put_witness :
  get_in [Key "l"; Pos 1] (AV_M [("k", AV_Bool true); ("l", AV_L [AV_S "x"; AV_S "new"])])
    = Some (AV_S "new").
Proof.
  eapply (set_path_get_put (D := dec) [("k", AV_Bool true); ("l", AV_L [AV_S "x"])]
    [PAttr "l"; PIndex 7] (AV_S "new") (maps_new ∅ ∅) _ [Key "l"; Pos 7]);
    vm_compute; reflexivity.
Defined.

(** ** SET clauses take effect together *)

Section Simultaneous.
Context {D : Type} `{BigDecimal D}.
Implicit Type maps : ExpressionMaps D.

(** The clause [SET name = value] of one attribute. *)
Definition set_clause (c : string * Expr) : UpdateAction := USet [PAttr c.1] c.2.

Lemma for_actions_skip f actions item :
  (forall a i, In a actions -> f a i = Ok i) -> for_actions f actions item = Ok item.
Proof.
  intros Hf. induction actions as [|a actions IH]; simpl; [done|].
  rewrite Hf by (by left). apply IH. intros b i Hb. apply Hf. by right.
Qed.

Lemma apply_update_sets maps clauses item :
  apply_update (map set_clause clauses) item maps =
  for_actions (set_action item maps) (map set_clause clauses) item.
Proof.
  unfold apply_update. destruct (for_actions (set_action _ _) _ _) as [i|]; [|done]. simpl.
  rewrite !for_actions_skip; [done| | |];
    intros a j (c & <- & _)%in_map_iff; reflexivity.
Qed.

Lemma set_clause_ok maps snapshot c item item' :
  set_action snapshot maps (set_clause c) item = Ok item' <->
  exists n v, resolve_name_ref c.1 maps = Ok n /\ evaluate_set_value c.2 snapshot maps = Ok v /\
    item' = bt_insert n v item.
Proof.
  destruct c as [name e]. unfold set_clause, set_action. simpl.
  destruct (evaluate_set_value e snapshot maps) as [v|]; simpl; [|naive_solver].
  unfold resolve_attr_name. simpl. destruct (resolve_name_ref name maps); simpl; naive_solver.
Qed.

(** A clause's name and value, the value over the item before the update. *)
Definition clause_means maps (snapshot : Item) (c : string * Expr) (nv : string * AttributeValue) : Prop :=
  resolve_name_ref c.1 maps = Ok nv.1 /\ evaluate_set_value c.2 snapshot maps = Ok nv.2.

Lemma set_clauses_ok maps snapshot clauses : forall item item',
  for_actions (set_action snapshot maps) (map set_clause clauses) item = Ok item' <->
  exists nvs, Forall2 (clause_means maps snapshot) clauses nvs /\
    item' = fold_left (fun i nv => bt_insert nv.1 nv.2 i) nvs item.
Proof.
  induction clauses as [|c clauses IH]; intros item item'; cbn [map for_actions].
  - split; [intros [= <-]; by exists []|]. intros (nvs & Hf & ->). by inversion Hf.
  - destruct (set_action snapshot maps (set_clause c) item) as [i|] eqn:E; simpl.
    + apply set_clause_ok in E as (n & v & Hn & Hv & ->). rewrite IH. split.
      * intros (nvs & Hf & ->). exists ((n, v) :: nvs). by repeat constructor.
      * intros (nvs & Hf & ->). inversion Hf as [|? [n' v'] ? nvs' [Hn' Hv'] Hf']; subst. simpl in *.
        exists nvs'. split; [done|]. congruence.
    + split; [done|]. intros (nvs & Hf & ->).
      inversion Hf as [|? [n' v'] ? nvs' [Hn' Hv'] Hf']; subst. simpl in Hn', Hv'.
      assert (set_action snapshot maps (set_clause c) item = Ok (bt_insert n' v' item)) as E'.
      { apply set_clause_ok. eauto. }
      congruence.
Qed.

Lemma fold_insert_get_notin nvs : forall (item : Item) k,
  ~ In k (map fst nvs) ->
  bt_get k (fold_left (fun i nv => bt_insert nv.1 nv.2 i) nvs item) = bt_get k item.
Proof.
  induction nvs as [|[n v] nvs IH]; intros item k Hk; simpl in *; [done|].
  rewrite IH by naive_solver. apply bt_get_insert_ne. naive_solver.
Qed.

Lemma fold_insert_get nvs : forall (item : Item) k v,
  List.NoDup (map fst nvs) -> In (k, v) nvs ->
  bt_get k (fold_left (fun i nv => bt_insert nv.1 nv.2 i) nvs item) = Some v.
Proof.
  induction nvs as [|[n w] nvs IH]; intros item k v Hnd Hin; simpl in *; [done|].
  inversion Hnd as [|? ? Hn Hnd']; subst. destruct Hin as [[= -> ->]|Hin]; [|by apply IH].
  rewrite fold_insert_get_notin by done. apply bt_get_insert_eq.
Qed.

(** C11. The SET clauses of one expression take effect together.  For attributes
    with distinct names, the update succeeds when every name resolves and every value
    evaluates over the item as it was before the update; then each attribute has its
    value so computed and every other attribute is as it was. *)
Theorem set_clauses_simultaneous maps clauses item item' :
  apply_update (map set_clause clauses) item maps = Ok item' <->
  exists nvs, Forall2 (clause_means maps item) clauses nvs /\
    item' = fold_left (fun i nv => bt_insert nv.1 nv.2 i) nvs item /\
    (List.NoDup (map fst nvs) -> forall k v, In (k, v) nvs -> bt_get k item' = Some v) /\
    (forall k, ~ In k (map fst nvs) -> bt_get k item' = bt_get k item).
Proof.
  rewrite apply_update_sets, set_clauses_ok. split.
  - intros (nvs & Hf & ->). exists nvs.
    split_and!; auto using fold_insert_get, fold_insert_get_notin.
  - intros (nvs & Hf & -> & _). eauto.
Qed.

(** ** Updates that only remove *)

Lemma remove_path_empty path maps item' : remove_path [] path maps = Ok item' -> item' = [].
Proof.
  destruct path as [|e [|e' rest]]; simpl; [by intros [= <-]| |];
    destruct (resolve_attr_name _ maps); simpl; naive_solver.
Qed.

Lemma apply_delete_empty path value maps item' : apply_delete [] path value maps = Ok item' -> item' = [].
Proof.
  unfold apply_delete, navigate_to_parent_map. destruct path as [|e [|e' rest]]; simpl; [done| |];
    destruct (resolve_attr_name _ maps); simpl; naive_solver.
Qed.

Lemma for_actions_empty f actions item' :
  (forall a i, In a actions -> f a [] = Ok i -> i = []) -> for_actions f actions [] = Ok item' -> item' = [].
Proof.
  intros Hf. induction actions as [|a actions IH]; simpl; [by intros [= <-]|].
  destruct (f a []) as [i|] eqn:E; [|done]. rewrite (Hf a i) by first [done | by left].
  apply IH. intros b j Hb. apply Hf. by right.
Qed.

(** An update of REMOVE and DELETE clauses only makes nothing: over the empty
    item, which is what an update of an absent key starts from, it leaves the empty
    item. *)
Theorem removes_only_empty actions maps item' :
  removes_only actions = true -> apply_update actions [] maps = Ok item' -> item' = [].
Proof.
  intros Hr. assert (forall a, In a actions -> action_removes_only a = true) as Ha.
  { apply forallb_forall. by destruct actions. }
  unfold apply_update.
  rewrite (for_actions_skip (set_action [] maps)) by (intros [] i Hin; by try discriminate (Ha _ Hin)).
  simpl. destruct (for_actions (remove_action maps) actions []) as [i|] eqn:E1; [|done].
  apply for_actions_empty in E1 as ->.
  2: { intros [] i' _; simpl; try (by intros [= <-]). apply remove_path_empty. }
  simpl. rewrite (for_actions_skip (add_action maps)) by (intros [] i Hin; by try discriminate (Ha _ Hin)).
  simpl. apply for_actions_empty. intros [] i' _; simpl; try (by intros [= <-]).
  destruct (evaluate_set_value value [] maps); [|done]. apply apply_delete_empty.
Qed.
End Simultaneous.

Lemma removes_only_empty_witness : ([] : Item) = [].
Proof.
  apply (removes_only_empty (D := dec)
    [URemove [PAttr "a"]; UDelete [PAttr "b"; PAttr "c"] (EPlaceholder "v")]
    (maps_new ∅ {["v" := AV_SS ["y"]]})); vm_compute; reflexivity.
Defined.

(** ** What REMOVE leaves *)

(** Where a value that is at [other] after the removal of [steps] was before it:
    nowhere if it is the removed entry of a map or within it, one position further
    on if it is in the list an element left, at or after that element. *)
Fixpoint before_removal (steps other : list Step) : option (list Step) :=
  match steps, other with
  | [Key n], Key n' :: _ => if decide (n = n') then None else Some other
  | [Pos i], Pos j :: k => Some (if (j <? i)%N then other else Pos (j + 1) :: k)
  | s :: (_ :: _) as rest, o :: k =>
      if decide (s = o) then cons o <$> before_removal rest k else Some other
  | _, _ => Some other
  end.

Lemma get_N_list_remove {A : Type} (l : list A) i j :
  get_N (list_remove l i) j = if (j <? i)%N then get_N l j else get_N l (j + 1)%N.
Proof.
  assert (forall (k : list A) n, get_N k n = k !! N.to_nat n) as Hget.
  { intros k n. unfold get_N. destruct (N.ltb_spec n (N.of_nat (length k))); [done|].
    symmetry. apply lookup_ge_None. lia. }
  rewrite !Hget. unfold list_remove. destruct (N.ltb_spec j i).
  - apply list_lookup_delete_lt. lia.
  - rewrite list_lookup_delete_ge by lia. f_equal. lia.
Qed.

Section RemovePath.
Context {D : Type} `{BigDecimal D}.
Implicit Type maps : ExpressionMaps D.

(** What is read at a path that [before_removal] maps, in the value as it was. *)
Definition read_before (steps other : list Step) (v : AttributeValue) : option AttributeValue :=
  match before_removal steps other with
  | Some o => get_in o v
  | None => None
  end.

Lemma read_cons o x v :
  match cons o <$> x with Some p => get_in p v | None => None end =
  match step_in o v with
  | Some w => match x with Some p => get_in p w | None => None end
  | None => None
  end.
Proof. destruct x; simpl; by destruct (step_in o v). Qed.

Lemma read_before_cons s s' rest o k v :
  read_before (s :: s' :: rest) (o :: k) v =
  if decide (s = o) then
    match step_in s v with Some w => read_before (s' :: rest) k w | None => None end
  else get_in (o :: k) v.
Proof.
  unfold read_before. destruct s; cbn [before_removal];
    (destruct (decide _) as [<-|]; [apply read_cons|done]).
Qed.

Lemma remove_nested_one maps e s current v : forall o k,
  av_wf current = true ->
  element_step maps e = Some s -> remove_nested current [e] maps = Ok v ->
  get_in (o :: k) v = read_before [s] (o :: k) current.
Proof.
  intros o k Hwf He. cbn [remove_nested]. unfold read_before. destruct e as [name|idx].
  - destruct (resolve_attr_step _ _ _ He) as (n & Hn & ->). cbn [before_removal].
    destruct current; try (intros [= <-]; destruct o as [n'|]; try done; by destruct (decide _)).
    rewrite Hn. intros [= <-]. destruct o as [n'|]; [|done]. cbn [get_in step_in].
    rewrite av_wf_M in Hwf. destruct (decide (n = n')) as [<-|].
    + rewrite bt_get_remove_eq; [done|]. by apply andb_true_iff in Hwf as [Hs _].
    + cbn [get_in step_in]. by rewrite bt_get_remove_ne by congruence.
  - injection He as <-. cbn [before_removal].
    destruct current; try (intros [= <-]; destruct o as [|j]; try done; by destruct (_ <? _)%N).
    destruct (N.ltb_spec idx (N.of_nat (length l))) as [Hi|Hi]; intros [= <-];
      (destruct o as [|j]; [done|]); cbn [get_in step_in].
    + rewrite get_N_list_remove. by destruct (j <? idx)%N.
    + destruct (N.ltb_spec j idx); [done|]. cbn [get_in step_in].
      unfold get_N. by rewrite !(proj2 (N.ltb_ge _ _)) by lia.
Qed.
Lemma remove_nested_cons maps e e' path s current v :
  element_step maps e = Some s -> remove_nested current (e :: e' :: path) maps = Ok v ->
  (step_in s current = None /\ v = current) \/
  exists next next', step_in s current = Some next /\
    remove_nested next (e' :: path) maps = Ok next' /\
    step_in s v = Some next' /\
    (forall o k, s <> o -> get_in (o :: k) v = get_in (o :: k) current).
Proof.
  intros He. cbn [remove_nested]. destruct e as [name|idx].
  - destruct (resolve_attr_step _ _ _ He) as (n & Hn & ->).
    destruct current; try (by intros [= <-]; left). rewrite Hn. simpl.
    destruct (bt_get n m) as [next|] eqn:Eg; [|by intros [= <-]; left].
    match goal with |- context [let? _ := ?r in _] => destruct r as [next'|] eqn:E end; [|done].
    intros [= <-]. right. exists next, next'. split_and!; auto.
    + simpl. apply bt_get_insert_eq.
    + intros o k Hne. by apply get_in_M_insert_ne.
  - injection He as <-. destruct current; try (by intros [= <-]; left). simpl.
    destruct (get_N l idx) as [next|] eqn:Eg; [|by intros [= <-]; left].
    match goal with |- context [let? _ := ?r in _] => destruct r as [next'|] eqn:E end; [|done].
    intros [= <-]. right. exists next, next'. split_and!; auto.
    + simpl. by eapply get_N_list_set_eq.
    + intros o k Hne. by apply get_in_L_set_ne.
Qed.

Lemma step_in_wf s v w : av_wf v = true -> step_in s v = Some w -> av_wf w = true.
Proof.
  intros Hv. destruct s, v; try done; simpl.
  - rewrite av_wf_M in Hv. eauto with edb.
  - simpl in Hv. eauto with edb.
Qed.

Lemma remove_nested_spec maps path : forall steps current v other,
  av_wf current = true -> path_steps maps path = Some steps ->
  remove_nested current path maps = Ok v -> ~ prefix other (removelast steps) ->
  get_in other v = read_before steps other current.
Proof.
  induction path as [|e path IH]; intros steps current v other Hwf Hsteps Hrem Hpre; [done|].
  destruct (path_steps_cons _ _ _ _ Hsteps) as (s & rest & -> & He & Hrest).
  destruct other as [|o k]; [exfalso; apply Hpre, prefix_nil|].
  destruct path as [|e' path].
  - injection Hrest as <-. by eapply remove_nested_one.
  - destruct (path_steps_cons _ _ _ _ Hrest) as (s' & rest' & -> & _).
    rewrite read_before_cons.
    destruct (remove_nested_cons _ _ _ _ _ _ _ He Hrem)
      as [[Hs ->]|(next & next' & Hs & Hrem' & Hs' & Hframe)].
    + destruct (decide (s = o)) as [<-|]; [|done]. cbn [get_in]. by rewrite Hs.
    + destruct (decide (s = o)) as [<-|]; [|by apply Hframe].
      cbn [get_in]. rewrite Hs, Hs'. apply (IH _ _ _ _ (step_in_wf _ _ _ Hwf Hs) Hrest Hrem').
      intros Hk. apply Hpre. cbn [removelast]. by apply prefix_cons.
Qed.

Lemma remove_path_nested item e rest maps item' name :
  element_step maps e = Some (Key name) ->
  remove_path item (e :: rest) maps = Ok item' ->
  remove_nested (AV_M item) (e :: rest) maps = Ok (AV_M item').
Proof.
  destruct e as [n|i]; [|done]. unfold remove_path. cbn [remove_nested].
  destruct (resolve_attr_name (PAttr n) maps) as [nm|]; [|done]. simpl.
  destruct rest as [|e' rest]; [by intros _ [= <-]|].
  destruct (bt_get nm item); [|by intros _ [= <-]]. intros _.
  destruct (remove_nested a (e' :: rest) maps); [|done]. by intros [= <-].
Qed.

(** REMOVE takes away what is at its path and moves nothing but the elements
    after a removed list element, by one place: at every path that is not a proper
    prefix of the removed one, what is read afterwards is what was at
    [before_removal] of it before, and the removed map entry is gone. *)
Theorem remove_path_spec item path maps item' steps other :
  item_wf item = true -> path_steps maps path = Some steps ->
  remove_path item path maps = Ok item' -> ~ prefix other (removelast steps) ->
  get_in other (AV_M item') =
  match before_removal steps other with
  | Some o => get_in o (AV_M item)
  | None => None
  end.
Proof.
  intros Hwf Hsteps Hrem Hpre. fold (read_before steps other (AV_M item)).
  destruct path as [|e rest].
  - injection Hsteps as <-. injection Hrem as <-. done.
  - eapply (remove_nested_spec maps (e :: rest)); rewrite ?av_wf_M; try done.
    destruct (path_steps_cons _ _ _ _ Hsteps) as ([name|i] & rest' & -> & He & _).
    + by eapply remove_path_nested.
    + destruct e; [|done]. apply resolve_name_ref_step in He as (? & _ & [=]).
Qed.
End RemovePath.

Lemma remove_path_spec_witness :
  get_in [Key "l"; Pos 1] (AV_M [("l", AV_L [AV_S "x"; AV_S "z"])]) = Some (AV_S "z").
Proof.
  etransitivity.
  - eapply (remove_path_spec (D := dec) [("l", AV_L [AV_S "x"; AV_S "y"; AV_S "z"])]
      [PAttr "l"; PIndex 1] (maps_new ∅ ∅) _ [Key "l"; Pos 1]); [reflexivity..|].
    intros [k Hk]. discriminate Hk.
  - vm_compute. reflexivity.
Defined.

(** ** What ADD and DELETE compute *)

Section AddDelete.
Context {D : Type} `{BigDecimal D}.
Context {L : BigDecimalLaws D}.
Implicit Type maps : ExpressionMaps D.

Lemma store_number_ok (x : D) v :
  store_number x = Ok v ->
  exists s d, v = AV_N s /\ denotes s d /\ dec_eq d (bd_value x).
Proof.
  unfold store_number. destruct (validate_and_normalize_number (bd_to_string x)) as [t|[]] eqn:E;
    try done. intros [= <-]. destruct (validate_Ok_numeral _ _ E) as (neg & i & f & e & Hn).
  assert (denotes (bd_to_string x) (numeral_value neg i f e)) as Hd by (by exists neg, i, f, e).
  eauto 6 using bd_to_string_value.
Qed.

Lemma parse_operand_denotes n (x : D) d :
  parse_operand_number n = Ok x -> denotes n d -> dec_eq (bd_value x) d.
Proof.
  intros Hp (y & Hy & Hd)%bd_parse_value. unfold parse_operand_number in Hp.
  rewrite Hy in Hp. by injection Hp as <-.
Qed.

(** Arithmetic in SET is exact: the sum or difference of two numbers is stored
    as a numeral of exactly that value, whatever the exponents. *)
Theorem arithmetic_exact a b op v da db :
  evaluate_arithmetic (D := D) (AV_N a) (AV_N b) op = Ok v -> denotes a da -> denotes b db ->
  exists s d, v = AV_N s /\ denotes s d /\
    dec_eq d (match op with AAdd => dec_add da db | ASub => dec_sub da db end).
Proof.
  unfold evaluate_arithmetic. destruct (parse_operand_number a) as [x|] eqn:Ea; [|done]. simpl.
  destruct (parse_operand_number b) as [y|] eqn:Eb; [|done]. simpl.
  intros (s & d & -> & Hd & Heq)%store_number_ok Ha Hb. exists s, d. split_and!; try done.
  pose proof (parse_operand_denotes _ _ _ Ea Ha) as Hx.
  pose proof (parse_operand_denotes _ _ _ Eb Hb) as Hy.
  rewrite Heq. destruct op; [rewrite bd_add_value|rewrite bd_sub_value]; by rewrite Hx, Hy.
Qed.

(** What ADD of [value] makes of the [existing] value of the attribute. *)
Definition add_means (existing : option AttributeValue) (value new : AttributeValue) : Prop :=
  match existing, value with
  | None, _ => new = value
  | Some (AV_N a), AV_N b =>
      exists s, new = AV_N s /\ forall da db, denotes a da -> denotes b db ->
        exists d, denotes s d /\ dec_eq d (dec_add da db)
  | Some (AV_SS a), AV_SS b => exists c, new = AV_SS c /\ forall x, In x c <-> In x a \/ In x b
  | Some (AV_NS a), AV_NS b => exists c, new = AV_NS c /\ forall x, In x c <-> In x a \/ In x b
  | Some (AV_BS a), AV_BS b => exists c, new = AV_BS c /\ forall x, In x c <-> In x a \/ In x b
  | _, _ => False
  end.

Lemma add_value_means existing value new :
  add_value (D := D) existing value = Ok new -> add_means existing value new.
Proof.
  unfold add_value, add_means. destruct existing as [[]|], value; try done;
    try (intros [= <-]; eexists; split; [reflexivity|]; intros x; apply In_set_extend);
    try (by intros [= <-]).
  destruct (parse_operand_number n) as [x|] eqn:Ea; [|done]. simpl.
  destruct (parse_operand_number n0) as [y|] eqn:Eb; [|done]. simpl.
  intros (s & d & -> & Hd & Heq)%store_number_ok. exists s. split; [done|].
  intros da db Ha Hb. exists d. split; [done|].
  rewrite Heq, bd_add_value, (parse_operand_denotes _ _ _ Ea Ha).
  by rewrite (parse_operand_denotes _ _ _ Eb Hb).
Qed.

(** [f] replaces the entry [n] of a map by one that [R] relates to it. *)
Definition replaces (R : option AttributeValue -> AttributeValue -> Prop) (n : string)
    (f : Item -> res Item) : Prop :=
  forall m m', f m = Ok m' -> exists v, R (bt_get n m) v /\ m' = bt_insert n v m.

Lemma replaces_in_map R n f m m' :
  replaces R n f -> f m = Ok m' ->
  exists v, R (get_in [Key n] (AV_M m)) v /\ get_in [Key n] (AV_M m') = Some v /\
    forall other, diverge [Key n] other -> get_in other (AV_M m') = get_in other (AV_M m).
Proof.
  intros Hf (v & HR & ->)%Hf. exists v. cbn [get_in step_in]. rewrite bt_get_insert_eq.
  split_and!; [by destruct (bt_get n m)|done|].
  intros other (b & k & -> & Hne)%diverge_one. by apply get_in_M_insert_ne.
Qed.

Lemma get_in_absent s k v : step_in s v = None -> get_in (s :: k) v = None.
Proof. intros E. cbn [get_in]. by rewrite E. Qed.

Lemma create_nested_spec maps R n f middle : replaces R n f -> forall ms current v,
  path_steps maps middle = Some ms -> create_nested current middle maps f = Ok v ->
  exists new, R (get_in (ms ++ [Key n]) current) new /\ get_in (ms ++ [Key n]) v = Some new /\
    forall other, diverge (ms ++ [Key n]) other -> get_in other v = get_in other current.
Proof.
  intros Hf. induction middle as [|e rest IH]; intros ms current v Hms; cbn [create_nested].
  - injection Hms as <-. destruct current; try done. destruct (f m) as [m'|] eqn:E; [|done].
    intros [= <-]. by eapply replaces_in_map.
  - destruct (path_steps_cons _ _ _ _ Hms) as (s & ms' & -> & He & Hms'). destruct e as [name|i].
    + destruct (resolve_attr_step _ _ _ He) as (nm & Hn & ->). rewrite Hn. simpl.
      destruct current; try done. destruct (create_nested _ rest maps f) as [entry|] eqn:E; [|done].
      intros [= <-]. destruct (IH _ _ _ Hms' E) as (new & HR & Hget & Hframe).
      exists new. cbn [app get_in step_in]. rewrite bt_get_insert_eq. split_and!; [|done|].
      * destruct (bt_get nm m); [done|]. simpl in HR. by destruct ms' as [|[] ?].
      * intros other Hd. inversion Hd as [? b ? k Hne|? ? k Hd']; subst.
        -- by apply get_in_M_insert_ne.
        -- cbn [get_in step_in]. rewrite bt_get_insert_eq, (Hframe _ Hd').
           destruct (bt_get nm m); [done|]. simpl. inversion Hd' as [? [] ? ?|[] ? ?]; subst; try done.
    + injection He as <-. destruct current; try done.
      destruct (get_N l i) as [w|] eqn:Eg; [|done].
      destruct (create_nested w rest maps f) as [entry|] eqn:E; [|done].
      intros [= <-]. destruct (IH _ _ _ Hms' E) as (new & HR & Hget & Hframe).
      exists new. cbn [app get_in step_in]. rewrite (get_N_list_set_eq _ _ _ _ Eg), Eg.
      split_and!; [done|done|].
      intros other Hd. inversion Hd as [? b ? k Hne|? ? k Hd']; subst.
      * by apply get_in_L_set_ne.
      * cbn [get_in step_in]. rewrite (get_N_list_set_eq _ _ _ _ Eg), Eg. by apply Hframe.
Qed.
Lemma path_steps_app maps l k steps :
  path_steps maps (l ++ k) = Some steps ->
  exists ls ks, steps = ls ++ ks /\ path_steps maps l = Some ls /\ path_steps maps k = Some ks.
Proof.
  revert steps. induction l as [|e l IH]; intros steps Hs; [by exists [], steps|].
  destruct (path_steps_cons _ _ _ _ Hs) as (s & rest & -> & He & Hrest).
  destruct (IH _ Hrest) as (ls & ks & -> & Hl & Hk). exists (s :: ls), ks.
  split_and!; [done| |done]. unfold path_steps in *. cbn [mapM]. simpl. by rewrite He, Hl.
Qed.

(** The map at the end of a path's parent, as a walk from the item. *)
Lemma path_last {A : Type} (path : list A) :
  path <> [] -> exists leaf, path = removelast path ++ [leaf] /\ last_error path = Some leaf.
Proof.
  intros Hne. destruct (exists_last Hne) as (pre & leaf & ->). exists leaf.
  rewrite removelast_last. split; [done|]. unfold last_error.
  induction pre as [|x pre IH]; [done|]. simpl. destruct (pre ++ [leaf]) eqn:E; [by destruct pre|].
  apply IH. by destruct pre.
Qed.

Lemma navigate_or_create_nested item path maps f item' :
  path <> [] -> navigate_to_parent_map_or_create item path maps f = Ok item' ->
  create_nested (AV_M item) (removelast path) maps f = Ok (AV_M item').
Proof.
  destruct path as [|e [|e' rest]]; [done| |]; intros _; cbn [removelast navigate_to_parent_map_or_create].
  - simpl. intros ->. done.
  - set (middle := removelast (e' :: rest)). destruct e as [n|i]; [|done]. cbn [create_nested].
    destruct (resolve_attr_name (PAttr n) maps) as [nm|]; [|done]. simpl.
    unfold middle. destruct (create_nested _ _ maps f); [|done]. by intros [= <-].
Qed.

(** ADD puts a number or a set where there is none, adds to a number exactly, and
    extends a set by the members of the other; nothing else that parts from its path
    changes, also when it makes the maps on the way. *)
Theorem apply_add_spec item path value maps item' steps :
  path_steps maps path = Some steps -> apply_add item path value maps = Ok item' ->
  exists new, add_means (get_in steps (AV_M item)) value new /\
    get_in steps (AV_M item') = Some new /\
    forall other, diverge steps other -> get_in other (AV_M item') = get_in other (AV_M item).
Proof.
  intros Hsteps Hadd. unfold apply_add in Hadd.
  destruct (decide (path = [])) as [->|Hne]; [done|].
  destruct (path_last path Hne) as (leaf & Hpath & Hleaf). rewrite Hleaf in Hadd.
  apply navigate_or_create_nested in Hadd; [|done].
  rewrite Hpath in Hsteps. destruct (path_steps_app _ _ _ _ Hsteps) as (ms & ks & -> & Hms & Hks).
  destruct (path_steps_cons _ _ _ _ Hks) as (s & ? & -> & He & [= <-]).
  destruct leaf as [name|i].
  - destruct (resolve_attr_step _ _ _ He) as (n & Hn & ->).
    apply (create_nested_spec maps (fun old => add_means old value) n _ _) with (2 := Hms) (3 := Hadd).
    intros m m'. rewrite Hn. simpl.
    destruct (add_value (bt_get n m) value) as [v|] eqn:E; [|done]. intros [= <-].
    eauto using add_value_means.
  - exfalso. eapply (create_nested_spec maps (fun _ _ => False) "") in Hadd as (new & [] & _);
      [done|exact Hms].
Qed.

(** ** What DELETE leaves *)

(** What DELETE of [value] leaves of the [existing] set: the attribute goes with its
    last member. *)
Definition delete_means (existing value : AttributeValue) (new : option AttributeValue) : Prop :=
  match existing, value with
  | AV_SS a, AV_SS b =>
      match new with
      | Some v => exists c, v = AV_SS c /\ c <> [] /\ forall x, In x c <-> In x a /\ ~ In x b
      | None => forall x, In x a -> In x b
      end
  | AV_NS a, AV_NS b =>
      match new with
      | Some v => exists c, v = AV_NS c /\ c <> [] /\ forall x, In x c <-> In x a /\ ~ In x b
      | None => forall x, In x a -> In x b
      end
  | AV_BS a, AV_BS b =>
      match new with
      | Some v => exists c, v = AV_BS c /\ c <> [] /\ forall x, In x c <-> In x a /\ ~ In x b
      | None => forall x, In x a -> In x b
      end
  | _, _ => False
  end.

Lemma set_difference_empty {K : Type} `{OrdLaws K} (a b : list K) :
  set_difference a b = [] -> forall x, In x a -> In x b.
Proof.
  intros E x Hx. destruct (set_contains x b) eqn:Ec; [by apply set_contains_In|].
  assert (In x (set_difference a b)) as Hd.
  { apply In_set_difference. split; [done|]. rewrite <- set_contains_In. congruence. }
  by rewrite E in Hd.
Qed.

Lemma delete_value_means existing value new :
  delete_value existing value = Ok new -> delete_means existing value new.
Proof.
  unfold delete_value, delete_means. destruct existing, value; try done;
    case_bool_decide as E; intros [= <-];
    try (by apply set_difference_empty); eexists; split_and!; try done;
    intros x; apply In_set_difference.
Qed.
(** The outcome of a DELETE below a value: nothing at the path and no change, or the
    set at the path replaced by what is left of it and nothing else changed. *)
Definition deleted (steps : list Step) (value before after : AttributeValue) : Prop :=
  (get_in steps before = None /\ after = before) \/
  (exists existing new, get_in steps before = Some existing /\
     delete_means existing value new /\ get_in steps after = new /\
     forall other, diverge steps other -> get_in other after = get_in other before).

Lemma deleted_leaf n value f m m' :
  item_wf m = true ->
  (forall t, f t = match bt_get n t with
                   | None => Ok t
                   | Some existing =>
                       let? new := delete_value existing value in
                       match new with
                       | Some v => Ok (bt_insert n v t)
                       | None => Ok (bt_remove n t)
                       end
                   end) ->
  f m = Ok m' -> deleted [Key n] value (AV_M m) (AV_M m').
Proof.
  intros Hwf Hf. rewrite Hf. unfold deleted. cbn [get_in step_in].
  destruct (bt_get n m) as [x|] eqn:E; [|intros [= <-]; by left].
  destruct (delete_value x value) as [new|] eqn:Ed; [|done]. cbn match.
  intros Hm. right. exists x, new. split_and!; [done|by apply delete_value_means| |].
  - destruct new; injection Hm as <-; [by rewrite bt_get_insert_eq|].
    apply andb_true_iff in Hwf as [Hs _]. by rewrite bt_get_remove_eq.
  - intros other (b & k & -> & Hne)%diverge_one.
    destruct new; injection Hm as <-; [by apply get_in_M_insert_ne|].
    destruct b as [n'|]; [|done]. cbn [get_in step_in]. by rewrite bt_get_remove_ne by congruence.
Qed.

Lemma deleted_M nm ms value m w w' :
  item_wf m = true -> bt_get nm m = Some w -> deleted ms value w w' ->
  deleted (Key nm :: ms) value (AV_M m) (AV_M (bt_insert nm w' m)).
Proof.
  intros Hwf Hg [[Hn ->]|(x & new & Hx & Hd & Hnew & Hframe)]; unfold deleted; cbn [get_in step_in].
  - left. rewrite Hg, bt_insert_same; [done| |done]. by apply andb_true_iff in Hwf as [Hs _].
  - right. exists x, new. rewrite Hg, bt_get_insert_eq. split_and!; try done.
    intros other Ho. inversion Ho as [? b ? k Hne|? ? k Ho']; subst.
    + by apply get_in_M_insert_ne.
    + cbn [get_in step_in]. rewrite Hg, bt_get_insert_eq. by apply Hframe.
Qed.

Lemma deleted_L i ms value l w w' :
  get_N l i = Some w -> deleted ms value w w' ->
  deleted (Pos i :: ms) value (AV_L l) (AV_L (list_set l i w')).
Proof.
  intros Hg [[Hn ->]|(x & new & Hx & Hd & Hnew & Hframe)]; unfold deleted; cbn [get_in step_in].
  - left. rewrite Hg. split; [done|]. unfold list_set. rewrite list_insert_id; [done|].
    unfold get_N in Hg. by destruct (_ <? _)%N.
  - right. exists x, new. rewrite Hg, (get_N_list_set_eq _ _ _ _ Hg). split_and!; try done.
    intros other Ho. inversion Ho as [? b ? k Hne|? ? k Ho']; subst.
    + by apply get_in_L_set_ne.
    + cbn [get_in step_in]. rewrite Hg, (get_N_list_set_eq _ _ _ _ Hg). by apply Hframe.
Qed.

Lemma deleted_absent s ms value v : step_in s v = None -> deleted (s :: ms) value v v.
Proof. intros E. left. by rewrite get_in_absent. Qed.

Lemma walk_nested_spec maps n value f middle :
  (forall m m', item_wf m = true -> f m = Ok m' -> deleted [Key n] value (AV_M m) (AV_M m')) ->
  forall ms current v, av_wf current = true -> path_steps maps middle = Some ms ->
  walk_nested current middle maps f = Ok v -> deleted (ms ++ [Key n]) value current v.
Proof.
  intros Hf. induction middle as [|e rest IH]; intros ms current v Hwf Hms; cbn [walk_nested].
  - injection Hms as <-. destruct current; try (intros [= <-]; by apply deleted_absent).
    rewrite av_wf_M in Hwf. destruct (f m) as [m'|] eqn:E; [|done]. intros [= <-]. by apply Hf.
  - destruct (path_steps_cons _ _ _ _ Hms) as (s & ms' & -> & He & Hms'). destruct e as [name|i].
    + destruct (resolve_attr_step _ _ _ He) as (nm & Hn & ->). rewrite Hn. cbn match; cbn [app].
      destruct current; try (intros [= <-]; by apply deleted_absent).
      destruct (bt_get nm m) as [w|] eqn:Eg; [|intros [= <-]; by apply deleted_absent].
      destruct (walk_nested w rest maps f) as [w'|] eqn:E; [|done]. intros [= <-].
      rewrite av_wf_M in Hwf. apply deleted_M with w; eauto with edb.
    + injection He as <-. cbn [app].
      destruct current; try (intros [= <-]; by apply deleted_absent).
      destruct (get_N l i) as [w|] eqn:Eg; [|intros [= <-]; by apply deleted_absent].
      destruct (walk_nested w rest maps f) as [w'|] eqn:E; [|done]. intros [= <-].
      apply deleted_L with w; [done|]. simpl in Hwf. eauto with edb.
Qed.
Lemma navigate_walk_nested item path maps f item' :
  path <> [] -> navigate_to_parent_map item path maps f = Ok item' ->
  walk_nested (AV_M item) (removelast path) maps f = Ok (AV_M item').
Proof.
  destruct path as [|e [|e' rest]]; [done| |]; intros _; cbn [removelast navigate_to_parent_map].
  - simpl. intros ->. done.
  - set (middle := removelast (e' :: rest)). destruct e as [n|i]; [|done]. cbn [walk_nested].
    destruct (resolve_attr_name (PAttr n) maps) as [nm|]; [|done]. simpl.
    destruct (bt_get nm item) as [w|]; [|by intros [= <-]].
    unfold middle. destruct (walk_nested _ _ maps f); [|done]. by intros [= <-].
Qed.

(** DELETE takes the given members out of the set at its path, and the attribute
    with the last of them; where there is nothing at the path the item stays exactly as
    it is, and nothing that parts from the path changes. *)
Theorem apply_delete_spec item path name value maps item' steps :
  item_wf item = true -> last_error path = Some (PAttr name) ->
  path_steps maps path = Some steps -> apply_delete item path value maps = Ok item' ->
  deleted steps value (AV_M item) (AV_M item').
Proof.
  intros Hwf Hleaf Hsteps Hdel. unfold apply_delete in Hdel. rewrite Hleaf in Hdel.
  assert (path <> []) as Hne by (by intros ->).
  destruct (path_last path Hne) as (leaf & Hpath & Hleaf'). rewrite Hleaf in Hleaf'.
  injection Hleaf' as <-. apply navigate_walk_nested in Hdel; [|done].
  rewrite Hpath in Hsteps. destruct (path_steps_app _ _ _ _ Hsteps) as (ms & ks & -> & Hms & Hks).
  destruct (path_steps_cons _ _ _ _ Hks) as (s & ? & -> & He & [= <-]).
  destruct (resolve_attr_step _ _ _ He) as (n & Hn & ->).
  eapply walk_nested_spec; [|by rewrite av_wf_M|exact Hms|exact Hdel].
  intros m m' Hm. eapply deleted_leaf; [done|]. intros t. by rewrite Hn.
Qed.
End AddDelete.

Lemma arithmetic_exact_witness :
  exists s d, AV_N "15e-1" = AV_N s /\ denotes s d /\ dec_eq d (dec_add (1, 0)%Z (5, -1)%Z).
Proof.
  apply (arithmetic_exact (D := dec) "1" "0.5" AAdd); [vm_compute; reflexivity|..];
    apply read_dec_iff; vm_compute; reflexivity.
Defined.

Lemma apply_add_spec_witness :
  exists new, add_means (Some (AV_SS ["b"])) (AV_SS ["a"]) new.
Proof.
  edestruct (apply_add_spec (D := dec) [("m", AV_M [("s", AV_SS ["b"])])]
    [PAttr "m"; PAttr "s"] (AV_SS ["a"]) (maps_new ∅ ∅) [("m", AV_M [("s", AV_SS ["a"; "b"])])]
    [Key "m"; Key "s"]) as (new & Hnew & _); [vm_compute; reflexivity..|].
  exists new. exact Hnew.
Defined.

Lemma apply_delete_spec_witness :
  deleted [Key "s"] (AV_SS ["a"; "b"]) (AV_M [("k", AV_Null); ("s", AV_SS ["a"])])
    (AV_M [("k", AV_Null)]).
Proof.
  apply (apply_delete_spec (D := dec) [("k", AV_Null); ("s", AV_SS ["a"])] [PAttr "s"] "s"
    (AV_SS ["a"; "b"]) (maps_new ∅ ∅)); vm_compute; reflexivity.
Defined.

(** ** Updates return *)

Section Returns.
Context {D : Type} `{BigDecimal D}.
Implicit Type maps : ExpressionMaps D.

(** Case analysis of a computation down to calls whose lemmas are hints. *)
Ltac returns_cases :=
  repeat match goal with
  | |- returns (fail _) => apply returns_fail
  | |- returns (Ok _) => exact I
  | |- returns (Err (Fail _)) => exact I
  | |- returns invalid_path => apply returns_fail
  | |- returns no_such_attribute => apply returns_fail
  | |- returns incorrect_type => apply returns_fail
  | |- returns (match ?r with Ok _ => _ | Err _ => _ end) =>
      apply returns_bind; [solve [auto with returns] | intros ? ?]
  | |- returns (match ?x with _ => _ end) => destruct x
  end; auto with returns.

Create HintDb returns.

Lemma resolve_attr_name_returns e maps : returns (resolve_attr_name e maps).
Proof.
  unfold resolve_attr_name, resolve_element_name, resolve_name_ref, resolve_name. returns_cases.
Qed.
#[local] Hint Resolve resolve_attr_name_returns : returns.

Lemma resolve_path_returns elements item maps : returns (resolve_path_to_value elements item maps).
Proof.
  unfold resolve_path_to_value, resolve_path. destruct elements as [|e rest]; [done|].
  apply returns_bind; [apply resolve_attr_name_returns|]. intros n _.
  destruct (bt_get n item) as [v|]; [|done]. revert v.
  induction rest as [|e' rest IH]; intros v; [done|]. cbn [resolve_steps].
  destruct e'; [|destruct v; try done; destruct (get_N l idx); [apply IH|done]].
  apply returns_bind; [apply (resolve_attr_name_returns (PAttr name))|].
  intros nm _. destruct v; try done. destruct (bt_get nm m); [apply IH|done].
Qed.
#[local] Hint Resolve resolve_path_returns : returns.

Lemma validate_number_returns s : returns (validate_and_normalize_number s).
Proof.
  destruct (decide (s = "")) as [->|Hne]; [done|]. rewrite validate_read by done.
  destruct (read_numeral _) as [[[[neg i] f] e]|]; [|done]. unfold normalize_digits. returns_cases.
Qed.

Lemma store_number_returns (x : D) : returns (store_number x).
Proof.
  unfold store_number. pose proof (validate_number_returns (bd_to_string x)) as Hv.
  by destruct (validate_and_normalize_number _) as [|[]].
Qed.
#[local] Hint Resolve store_number_returns : returns.

Lemma parse_operand_number_returns n : returns (parse_operand_number (D := D) n).
Proof. unfold parse_operand_number. returns_cases. Qed.
#[local] Hint Resolve parse_operand_number_returns : returns.

Lemma resolve_value_for_returns maps name ctx : returns (resolve_value_for maps name ctx).
Proof. unfold resolve_value_for. returns_cases. Qed.
#[local] Hint Resolve resolve_value_for_returns : returns.

Lemma evaluate_set_value_returns item maps e : returns (evaluate_set_value e item maps).
Proof.
  induction e using Expr_ind; cbn [evaluate_set_value]; auto with returns; try (by apply returns_fail).
  - returns_cases.
  - match goal with Hargs : Forall _ args |- _ => rename Hargs into IH end.
    destruct args as [|a [|b [|]]]; try (returns_cases; fail).
    rewrite !List.Forall_cons_iff in IH. destruct IH as (Ha & Hb & _). returns_cases.
  - apply returns_bind; [done|]. intros. apply returns_bind; [done|]. intros.
    unfold evaluate_arithmetic. returns_cases.
Qed.
#[local] Hint Resolve evaluate_set_value_returns : returns.
Lemma set_nested_returns maps value path : forall current,
  path <> [] -> returns (set_nested current path value maps).
Proof.
  induction path as [|e rest IH]; intros current Hne; [done|]. cbn [set_nested].
  destruct rest as [|e' rest']; [returns_cases|].
  set (rest := e' :: rest') in *. assert (rest <> []) as Hrest by done.
  destruct e, current; returns_cases; apply returns_bind; auto; done.
Qed.

Lemma remove_nested_returns maps path : forall current,
  path <> [] -> returns (remove_nested current path maps).
Proof.
  induction path as [|e rest IH]; intros current Hne; [done|]. cbn [remove_nested].
  destruct rest as [|e' rest']; [returns_cases|].
  set (rest := e' :: rest') in *. assert (rest <> []) as Hrest by done.
  destruct e, current; returns_cases; apply returns_bind; auto; done.
Qed.
#[local] Hint Resolve set_nested_returns remove_nested_returns : returns.

Lemma create_nested_returns maps f middle : (forall m, returns (f m)) -> forall current,
  returns (create_nested current middle maps f).
Proof.
  intros Hf. induction middle as [|e rest IH]; intros current; cbn [create_nested].
  - destruct current; returns_cases.
  - destruct e, current; returns_cases; by apply returns_bind.
Qed.

Lemma walk_nested_returns maps f middle : (forall m, returns (f m)) -> forall current,
  returns (walk_nested current middle maps f).
Proof.
  intros Hf. induction middle as [|e rest IH]; intros current; cbn [walk_nested].
  - destruct current; returns_cases.
  - destruct e, current; returns_cases; by apply returns_bind.
Qed.

#[local] Hint Resolve create_nested_returns walk_nested_returns : returns.

Lemma for_actions_returns f actions : (forall a i, returns (f a i)) -> forall item,
  returns (for_actions f actions item).
Proof.
  intros Hf. induction actions as [|a actions IH]; intros item; [done|]. by apply returns_bind.
Qed.

Lemma set_path_returns item path value maps : returns (set_path item path value maps).
Proof.
  unfold set_path. destruct path as [|e [|e' rest]]; returns_cases.
Qed.

Lemma remove_path_returns item path maps : returns (remove_path item path maps).
Proof.
  unfold remove_path. destruct path as [|e [|e' rest]]; returns_cases.
Qed.

Lemma add_value_returns existing value : returns (add_value (D := D) existing value).
Proof. unfold add_value. returns_cases. Qed.

Lemma delete_value_returns existing value : returns (delete_value existing value).
Proof. unfold delete_value. returns_cases. Qed.
#[local] Hint Resolve add_value_returns delete_value_returns : returns.

Lemma apply_add_returns item path value maps : returns (apply_add item path value maps).
Proof.
  unfold apply_add. set (f := fun target => _).
  assert (forall m, returns (f m)) as Hf.
  { intros m. unfold f. returns_cases. }
  unfold navigate_to_parent_map_or_create. destruct path as [|e [|e' rest]]; returns_cases.
Qed.

Lemma apply_delete_returns item path value maps : returns (apply_delete item path value maps).
Proof.
  unfold apply_delete. set (f := fun target => _).
  assert (forall m, returns (f m)) as Hf.
  { intros m. unfold f. returns_cases. }
  unfold navigate_to_parent_map. destruct path as [|e [|e' rest]]; returns_cases.
Qed.
#[local] Hint Resolve set_path_returns remove_path_returns apply_add_returns apply_delete_returns : returns.

(** An update ends in an item or an error of the API, never in a panic: no
    index into a path is out of range, whatever the actions, the item and the request's
    names and values. *)
Theorem apply_update_returns actions item maps : returns (apply_update actions item maps).
Proof.
  unfold apply_update.
  repeat (apply returns_bind; [|intros ? _]);
    apply for_actions_returns; intros [] i; simpl; returns_cases.
Qed.
End Returns.
