(* ===== verification/Projection.v ===== *)
(** * ProjectionExpression

    [crates/core/src/expression/projection.rs]: the parser, the trie a
    projection compiles to and its application to an item, against a reference
    that keeps the parts of an item that the paths select without a trie. *)

From S2P Require Import Prelude BTree Types Error Decimal Ast ParserCommon Resolver.

(** ** Parsing *)

(** The [while pos < tokens.len()] loop of [parse_projection]. *)
Fixpoint projection_loop (tokens : list Token) (fuel : nat) (paths : list (list PathElement))
    (pos : nat) : res (list (list PathElement)) :=
  match fuel with
  | O => Err OutOfFuel
  | S fuel =>
      if pos <? length tokens then
        if at_token tokens pos TokComma then
          let? (path, pos) := parse_path tokens (pos + 1) in
          projection_loop tokens fuel (paths ++ [path]) pos
        else
          fail ("Invalid ProjectionExpression: unexpected token at position " +:+
                N_to_string (N.of_nat pos))
      else Ok paths
  end.

Definition parse_projection (tokens : list Token) : res (list (list PathElement)) :=
  match tokens with
  | [] => Ok []
  | _ =>
      let? (path, pos) := parse_path tokens 0 in
      projection_loop tokens (S (length tokens)) [path] pos
  end.

(** ** The trie *)

Unset Elimination Schemes.
Inductive ProjNode : Type :=
  | mkProjNode (terminal : bool) (attrs : list (string * ProjNode)) (indices : list (N * ProjNode)).
Set Elimination Schemes.

Definition terminal (n : ProjNode) : bool := let 'mkProjNode t _ _ := n in t.
Definition attrs (n : ProjNode) : list (string * ProjNode) := let 'mkProjNode _ a _ := n in a.
Definition indices (n : ProjNode) : list (N * ProjNode) := let 'mkProjNode _ _ i := n in i.

(** [ProjNode::default()]. *)
Definition default_node : ProjNode := mkProjNode false [] [].

(** [ResolvedElement::Attr] is [Key] and [ResolvedElement::Index] is [Pos]. *)
Definition ResolvedElement : Type := Step.

(** The elements of one path, [i] the index of the first of them. *)
Fixpoint resolve_elements {D : Type} (i : nat) (path : list PathElement) (maps : ExpressionMaps D)
    : res (list ResolvedElement) :=
  match path with
  | [] => Ok []
  | PAttr raw :: rest =>
      let? name := resolve_name_ref raw maps in
      let? elems := resolve_elements (S i) rest maps in
      Ok (Key name :: elems)
  | PIndex idx :: rest =>
      if i =? 0 then fail "Invalid expression: path cannot start with an index"
      else
        let? elems := resolve_elements (S i) rest maps in
        Ok (Pos idx :: elems)
  end.

Fixpoint resolve_paths {D : Type} (paths : list (list PathElement)) (maps : ExpressionMaps D)
    : res (list (list ResolvedElement)) :=
  match paths with
  | [] => Ok []
  | [] :: rest => resolve_paths rest maps
  | path :: rest =>
      let? elems := resolve_elements 0 path maps in
      let? resolved := resolve_paths rest maps in
      Ok (elems :: resolved)
  end.

Definition prefix_projection_error (err : DynamoDbError) : DynamoDbError :=
  match err with
  | ValidationException msg =>
      if starts_with msg "Invalid " then err
      else ValidationException ("Invalid ProjectionExpression: " +:+ msg)
  | other => other
  end.

Definition is_prefix (a b : list ResolvedElement) : bool :=
  (length a <=? length b) && bool_decide (a = take (length a) b).

Definition render_element (el : ResolvedElement) : string :=
  match el with
  | Key name => name
  | Pos idx => "[" +:+ N_to_string idx +:+ "]"
  end.

Definition render_path (path : list ResolvedElement) : string :=
  "[" +:+ join ", " (map render_element path) +:+ "]".

Definition overlap_err (a b : list ResolvedElement) : res unit :=
  fail ("Invalid ProjectionExpression: Two document paths overlap with each other; " +:+
        "must remove or rewrite one of these paths; path one: " +:+ render_path a +:+
        ", path two: " +:+ render_path b).

(** The loops over [i] and over [j > i]: the rest of the list after [i]. *)
Fixpoint check_overlap (resolved : list (list ResolvedElement)) : res unit :=
  match resolved with
  | [] => Ok tt
  | a :: rest =>
      let? _ := for_each (fun b => if is_prefix a b || is_prefix b a then overlap_err a b else Ok tt) rest in
      check_overlap rest
  end.

(** The inner loop of [build_trie]: go to the node of the path, creating nodes on the
    way, and mark it. *)
Fixpoint insert_path (path : list ResolvedElement) (node : ProjNode) : ProjNode :=
  let 'mkProjNode t a i := node in
  match path with
  | [] => mkProjNode true a i
  | Key name :: rest =>
      mkProjNode t (bt_insert name (insert_path rest (default default_node (bt_get name a))) a) i
  | Pos idx :: rest =>
      mkProjNode t a (bt_insert idx (insert_path rest (default default_node (bt_get idx i))) i)
  end.

Definition build_trie (resolved : list (list ResolvedElement)) : ProjNode :=
  fold_left (fun root path => insert_path path root) resolved default_node.

Fixpoint project_value (value : AttributeValue) (node : ProjNode) {struct node}
    : option AttributeValue :=
  let 'mkProjNode t a i := node in
  if t then Some value
  else if negb (bool_decide (length a = 0)) then
    match value with
    | AV_M map =>
        let out := fold_left (fun out nc =>
          match bt_get nc.1 map with
          | Some child_val =>
              match project_value child_val nc.2 with
              | Some projected => bt_insert nc.1 projected out
              | None => out
              end
          | None => out
          end) a [] in
        if bool_decide (out = []) then None else Some (AV_M out)
    | _ => None
    end
  else if negb (bool_decide (length i = 0)) then
    match value with
    | AV_L list =>
        let out := fold_left (fun out nc =>
          match get_N list nc.1 with
          | Some element =>
              match project_value element nc.2 with
              | Some projected => out ++ [projected]
              | None => out
              end
          | None => out
          end) i [] in
        if bool_decide (out = []) then None else Some (AV_L out)
    | _ => None
    end
  else None.

Definition compile {D : Type} (paths : list (list PathElement)) (maps : ExpressionMaps D)
    (reject_overlap : bool) : res ProjNode :=
  let? resolved :=
    match resolve_paths paths maps with
    | Err (Fail e) => Err (Fail (prefix_projection_error e))
    | r => r
    end in
  let? _ := if reject_overlap then check_overlap resolved else Ok tt in
  Ok (build_trie resolved).

Definition apply (root : ProjNode) (item : Item) : Item :=
  fold_left (fun result nc =>
    match bt_get nc.1 item with
    | Some val =>
        match project_value val nc.2 with
        | Some projected => bt_insert nc.1 projected result
        | None => result
        end
    | None => result
    end) (attrs root) [].

(** ** The grammar *)

Lemma comma_loop_S {A : Type} tokens (p : nat -> res (A * nat)) fuel acc pos :
  comma_loop tokens p (S fuel) acc pos =
  if at_token tokens pos TokComma then
    let? (x, pos) := p (pos + 1) in
    comma_loop tokens p fuel (acc ++ [x]) pos
  else Ok (acc, pos).
Proof. reflexivity. Qed.

(** The loop is the one of comma-separated lists, run to the end of the tokens. *)
Lemma projection_loop_commas tokens fuel : forall paths pos,
  projection_loop tokens fuel paths pos =
  match comma_loop tokens (parse_path tokens) fuel paths pos with
  | Ok (l, pos') =>
      if pos' <? length tokens then
        fail ("Invalid ProjectionExpression: unexpected token at position " +:+
              N_to_string (N.of_nat pos'))
      else Ok l
  | Err e => Err e
  end.
Proof.
  induction fuel as [|fuel IH]; intros paths pos; [done|]. rewrite comma_loop_S. cbn [projection_loop].
  destruct (at_token tokens pos TokComma) eqn:Hc.
  - pose proof (proj1 (at_token_true _ _ _) Hc) as Hlt%lookup_lt_Some.
    rewrite (proj2 (Nat.ltb_lt _ _) Hlt). destruct (parse_path tokens (pos + 1)) as [[p pos1]|]; [apply IH|done].
  - by destruct (pos <? length tokens).
Qed.

Lemma parse_path_span tokens pos p pos' :
  parse_path tokens pos = Ok (p, pos') -> exists ts, span tokens pos pos' ts /\ g_path ts p.
Proof. intros (ts & Hs & Hg & _)%parse_path_sound. eauto. Qed.

Lemma g_commas_stop {A : Type} (R : list Token -> A -> Prop) tokens pos ts xs :
  span tokens pos (length tokens) ts -> g_commas R ts xs -> path_stop (tokens !! pos) = true.
Proof.
  intros Hs Hg. destruct Hg.
  - apply span_nil_inv in Hs as <-. by rewrite lookup_ge_None_2.
  - by apply span_cons in Hs as [-> _].
Qed.

(** The projection parser accepts exactly the comma-separated lists of document
    paths, and the empty token list as no paths. *)
Theorem parse_projection_grammar tokens paths :
  parse_projection tokens = Ok paths <->
  (tokens = [] /\ paths = []) \/ g_list g_path tokens paths.
Proof.
  unfold parse_projection. destruct tokens as [|tok rest].
  { split; [intros [= <-]; by left|]. intros [[_ ->]|(t & x & ts & xs & Ht & _ & Hg & _)]; [done|].
    by destruct Hg. }
  set (tokens := tok :: rest). split.
  - destruct (parse_path tokens 0) as [[p pos]|] eqn:Ep; [|done]. rewrite projection_loop_commas.
    destruct (comma_loop _ _ _ _ _) as [[l pos']|] eqn:Ec; [|done].
    destruct (Nat.ltb_spec pos' (length tokens)) as [|Hend]; [done|]. intros [= <-]. right.
    destruct (parse_path_span _ _ _ _ Ep) as (t & Ht & Hg).
    destruct (comma_loop_sound _ _ g_path _ _ _ _ _ (parse_path_span tokens) Ec)
      as (ts & xs & -> & Hs & Hgs).
    exists t, p, ts, xs. split_and!; try done. symmetry.
    assert (span tokens 0 pos' (t ++ ts)) as Hall by (apply span_app; eauto).
    pose proof (span_le _ _ _ _ Hall ltac:(lia)).
    replace pos' with (length tokens) in Hall by lia. by apply span_all.
  - intros [[[=] _]|(t & p & ts & xs & Htok & -> & Hg & Hgs)].
    assert (span tokens 0 (length tokens) (t ++ ts)) as Hall by (by apply span_all).
    pose proof (span_length _ _ _ _ Hall) as Hlen. rewrite length_app in Hlen.
    apply span_app in Hall as (m & Ht & Hts).
    rewrite (parse_path_complete _ _ _ _ _ Ht Hg (g_commas_stop _ _ _ _ _ Hts Hgs)).
    rewrite projection_loop_commas.
    rewrite (comma_loop_complete tokens (parse_path tokens) g_path (length tokens) path_stop
      _ _ _ (length tokens) ts xs); try done; try lia.
    + by rewrite Nat.ltb_irrefl.
    + intros ? ? ? ? _ Hx Hsp Hst. by eapply parse_path_complete.
    + by rewrite lookup_ge_None_2.
    + by rewrite lookup_ge_None_2.
Qed.

(** ** Overlap *)

Lemma is_prefix_iff a b : is_prefix a b = true <-> a `prefix_of` b.
Proof.
  unfold is_prefix. rewrite andb_true_iff, Nat.leb_le, bool_decide_eq_true. split.
  - intros [_ Ha]. exists (drop (length a) b). rewrite Ha at 1. by rewrite take_drop.
  - intros [k ->]. rewrite length_app, take_app_length. split; [lia|done].
Qed.

Definition apart (a b : list ResolvedElement) : Prop := ~ a `prefix_of` b /\ ~ b `prefix_of` a.

Lemma overlap_false a b : is_prefix a b || is_prefix b a = false <-> apart a b.
Proof.
  unfold apart. rewrite orb_false_iff, <- !is_prefix_iff, !not_true_iff_false. done.
Qed.

Lemma for_each_overlap a l :
  for_each (fun b => if is_prefix a b || is_prefix b a then overlap_err a b else Ok tt) l = Ok tt <->
  Forall (apart a) l.
Proof.
  induction l as [|b l IH]; simpl; [split; constructor|]. rewrite Forall_cons_iff.
  destruct (is_prefix a b || is_prefix b a) eqn:E.
  - split; [done|]. intros [Hb _]. apply overlap_false in Hb. congruence.
  - rewrite IH. apply overlap_false in E. naive_solver.
Qed.

Lemma check_overlap_iff resolved :
  check_overlap resolved = Ok tt <-> ForallOrdPairs apart resolved.
Proof.
  induction resolved as [|a rest IH]; simpl; [split; constructor|].
  pose proof (for_each_overlap a rest) as Ha.
  destruct (for_each _ rest) as [[]|e] eqn:E.
  - rewrite IH. split; [intros Hr; constructor; [by apply Ha|done]|by inversion 1].
  - split; [done|]. inversion 1 as [|? ? Hf]; subst. apply Ha in Hf. done.
Qed.

(** The overlap check of a projection accepts a list of paths exactly when no
    path is a prefix of another, equal paths included. *)
Theorem check_overlap_spec resolved :
  check_overlap resolved = Ok tt <-> ForallOrdPairs apart resolved.
Proof. apply check_overlap_iff. Qed.

(** ** The reference: what the paths select *)

(** What is left of the paths that start with the step [s], after it. *)
Definition tails (s : Step) (ps : list (list Step)) : list (list Step) :=
  omap (fun p => match p with
                 | s' :: rest => if decide (s = s') then Some rest else None
                 | [] => None
                 end) ps.

Definition selected (ps : list (list Step)) : bool := bool_decide ([] ∈ ps).

Definition some_unless_empty {A B : Type} (f : list A -> B) (l : list A) : option B :=
  match l with
  | [] => None
  | _ => Some (f l)
  end.

(** The part of [v] that the paths select: all of it under the empty path, else the
    map entries and list elements of which some part is selected, in their order. *)
Fixpoint keep (ps : list (list Step)) (v : AttributeValue) : option AttributeValue :=
  if selected ps then Some v
  else
    match v with
    | AV_M m =>
        some_unless_empty AV_M
          (omap (fun kv => (fun w => (kv.1, w)) <$> keep (tails (Key kv.1) ps) kv.2) m)
    | AV_L l =>
        some_unless_empty AV_L
          ((fix go (i : N) (l : list AttributeValue) : list AttributeValue :=
              match l with
              | [] => []
              | x :: l' =>
                  match keep (tails (Pos i) ps) x with
                  | Some w => w :: go (i + 1)%N l'
                  | None => go (i + 1)%N l'
                  end
              end) 0%N l)
    | _ => None
    end.

Definition keep_item (ps : list (list Step)) (item : Item) : Item :=
  omap (fun kv => (fun w => (kv.1, w)) <$> keep (tails (Key kv.1) ps) kv.2) item.

(** No two paths part at an attribute of a map on one side and an index of a list
    on the other: such paths cannot both be in one document. *)
Definition coherent (ps : list (list Step)) : Prop :=
  forall pre a k i k', pre ++ Key a :: k ∈ ps -> pre ++ Pos i :: k' ∈ ps -> False.

Lemma elem_of_tails s r ps : r ∈ tails s ps <-> s :: r ∈ ps.
Proof.
  unfold tails. rewrite list_elem_of_omap. split.
  - intros ([|s' p] & Hp & E); [done|]. destruct (decide (s = s')) as [<-|]; [|done].
    by injection E as <-.
  - intros Hr. exists (s :: r). split; [done|]. by rewrite decide_True.
Qed.

Lemma coherent_tails s ps : coherent ps -> coherent (tails s ps).
Proof.
  intros Hc pre a k i k' Ha Hi. rewrite elem_of_tails in Ha, Hi.
  by apply (Hc (s :: pre) a k i k').
Qed.

(** ** The trie of a list of paths *)

Lemma tails_snoc s ps p :
  tails s (ps ++ [p]) =
  tails s ps ++ match p with
                | s' :: rest => if decide (s = s') then [rest] else []
                | [] => []
                end.
Proof.
  unfold tails. rewrite omap_app. f_equal. destruct p as [|s' rest]; [done|].
  simpl. by destruct (decide (s = s')).
Qed.

Lemma build_trie_snoc ps p : build_trie (ps ++ [p]) = insert_path p (build_trie ps).
Proof. unfold build_trie. by rewrite fold_left_app. Qed.

(** The subtrie of a step, when some path takes it. *)
Definition subtrie (s : Step) (ps : list (list Step)) : option ProjNode :=
  match tails s ps with
  | [] => None
  | rest => Some (build_trie rest)
  end.

Definition node_sorted (n : ProjNode) : bool := bt_sorted (attrs n) && bt_sorted (indices n).

Lemma subtrie_snoc_same s ps rest :
  Some (insert_path rest (default default_node (subtrie s ps))) = subtrie s (ps ++ [s :: rest]).
Proof.
  unfold subtrie. rewrite tails_snoc, decide_True by done.
  destruct (tails s ps) as [|p tl] eqn:E; [done|]. simpl default. cbn [app].
  rewrite <- build_trie_snoc. done.
Qed.

Lemma subtrie_snoc_other s ps p :
  (forall rest, p <> s :: rest) -> subtrie s (ps ++ [p]) = subtrie s ps.
Proof.
  intros Hp. unfold subtrie. rewrite tails_snoc. destruct p as [|s' rest].
  - by rewrite app_nil_r.
  - destruct (decide (s = s')) as [->|]; [by destruct (Hp rest)|]. by rewrite app_nil_r.
Qed.

(** The trie's nodes, as [project_value] reads them. *)
Lemma build_trie_spec ps :
  terminal (build_trie ps) = selected ps /\
  node_sorted (build_trie ps) = true /\
  (forall a, bt_get a (attrs (build_trie ps)) = subtrie (Key a) ps) /\
  (forall i, bt_get i (indices (build_trie ps)) = subtrie (Pos i) ps).
Proof.
  induction ps as [|p ps IH] using rev_ind.
  - split_and!; try done.
  - rewrite build_trie_snoc. destruct IH as (Ht & Hs & Ha & Hi).
    destruct (build_trie ps) as [t a i]. unfold node_sorted in *. cbn [terminal attrs indices] in *.
    apply andb_true_iff in Hs as [Hsa Hsi].
    assert (selected (ps ++ [p]) = selected ps || bool_decide (p = [])) as Hsel.
    { unfold selected. rewrite <- bool_decide_or. apply bool_decide_ext.
      rewrite elem_of_app, list_elem_of_singleton. naive_solver. }
    rewrite Hsel. destruct p as [|[name|idx] rest]; cbn [insert_path terminal attrs indices].
    + rewrite orb_true_r, Hsa, Hsi. split_and!; try done; intros x; rewrite subtrie_snoc_other; done.
    + rewrite orb_false_r, Hsi, bt_insert_sorted by done. split_and!; try done.
      * intros b. destruct (decide (b = name)) as [->|Hne].
        -- by rewrite bt_get_insert_eq, Ha, subtrie_snoc_same.
        -- rewrite bt_get_insert_ne, Ha, subtrie_snoc_other by congruence. done.
      * intros j. rewrite subtrie_snoc_other; done.
    + rewrite orb_false_r, Hsa, bt_insert_sorted by done. split_and!; try done.
      * intros b. rewrite subtrie_snoc_other; done.
      * intros j. destruct (decide (j = idx)) as [->|Hne].
        -- by rewrite bt_get_insert_eq, Hi, subtrie_snoc_same.
        -- rewrite bt_get_insert_ne, Hi, subtrie_snoc_other by congruence. done.
Qed.

(** ** Maps with some entries kept *)

Section Kept.
Context {K V W : Type} `{OrdLaws K}.

(** The entries of [m] that [h] keeps, with what it makes of them. *)
Definition kept (h : K * V -> option W) (m : list (K * V)) : list (K * W) :=
  omap (fun kv => (fun w => (kv.1, w)) <$> h kv) m.

Lemma kept_cons h k v m :
  kept h ((k, v) :: m) =
  match h (k, v) with Some w => (k, w) :: kept h m | None => kept h m end.
Proof. unfold kept. simpl. by destruct (h (k, v)). Qed.

Lemma kept_above h k m : keys_above k m = true -> keys_above k (kept h m) = true.
Proof.
  revert k. induction m as [|[k' v] m IH]; intros k Ha; [done|]. rewrite kept_cons.
  simpl in Ha. destruct (cmp k k') eqn:E; try done.
  destruct (h (k', v)); simpl; [rewrite E; by apply IH|].
  eapply keys_above_weaken; [exact E|]. by apply IH.
Qed.

Lemma kept_sorted h m : bt_sorted m = true -> bt_sorted (kept h m) = true.
Proof.
  destruct m as [|[k v] m]; [done|]. rewrite bt_sorted_cons, kept_cons. intros Ha%(kept_above h).
  destruct (h (k, v)); [by rewrite bt_sorted_cons|]. by eapply keys_above_sorted.
Qed.

Lemma kept_get h m k : bt_sorted m = true ->
  bt_get k (kept h m) = match bt_get k m with Some v => h (k, v) | None => None end.
Proof.
  induction m as [|[k' v] m IH]; intros Hs; [done|]. rewrite kept_cons.
  rewrite bt_sorted_cons in Hs. specialize (IH (keys_above_sorted _ _ Hs)). simpl.
  destruct (cmp k k') eqn:E.
  - apply cmp_eq_iff in E as ->. destruct (h (k', v)); simpl; [by rewrite cmp_refl|].
    by apply keys_above_get with k'; [apply kept_above|rewrite cmp_refl].
  - destruct (h (k', v)); simpl; rewrite ?E, IH;
      by rewrite (keys_above_get k' k m) by (done || by rewrite E).
  - destruct (h (k', v)); simpl; by rewrite ?E, IH.
Qed.

(** A loop that inserts what [h] makes of each entry. *)
Lemma fold_kept f h m : (forall out kv, f out kv = match h kv with
                                                   | Some w => bt_insert kv.1 w out
                                                   | None => out
                                                   end) ->
  bt_sorted m = true -> fold_left f m [] = kept h m.
Proof.
  intros Hf Hs.
  assert (forall acc, bt_sorted acc = true ->
    bt_sorted (fold_left f m acc) = true /\
    forall k, bt_get k (fold_left f m acc) =
      match bt_get k (kept h m) with Some w => Some w | None => bt_get k acc end) as Hfold.
  { induction m as [|[k' v] m IH]; intros acc Hacc; [done|].
    rewrite bt_sorted_cons in Hs. specialize (IH (keys_above_sorted _ _ Hs)).
    simpl fold_left. rewrite Hf, kept_cons.
    destruct (h (k', v)) as [w|]; cbn [fst]; [|by apply IH].
    destruct (IH (bt_insert k' w acc) (bt_insert_sorted _ _ _ Hacc)) as [Hs' Hg].
    split; [done|]. intros k. rewrite Hg. simpl. destruct (cmp k k') eqn:E.
    - apply cmp_eq_iff in E as ->. rewrite (keys_above_get k' k' (kept h m)); [|by apply kept_above|by rewrite cmp_refl].
      by rewrite bt_get_insert_eq.
    - rewrite bt_get_insert_ne by (intros ->; by rewrite cmp_refl in E).
      by rewrite (keys_above_get k' k (kept h m)); [|by apply kept_above|by rewrite E].
    - by rewrite bt_get_insert_ne by (intros ->; by rewrite cmp_refl in E). }
  destruct (Hfold [] eq_refl) as [Hsf Hgf].
  apply bt_ext; [done|by apply kept_sorted|]. intros k. rewrite Hgf. by destruct (bt_get k (kept h m)).
Qed.

Lemma fold_append_kept f h m : forall out,
  (forall out kv, f out kv = match h kv with Some w => out ++ [w] | None => out end) ->
  fold_left f m out = out ++ map snd (kept h m).
Proof.
  induction m as [|[k v] m IH]; intros out Hf; simpl fold_left; [by rewrite app_nil_r|].
  rewrite IH by done. rewrite Hf, kept_cons. destruct (h (k, v)); [|done].
  by rewrite <- app_assoc.
Qed.
End Kept.

(** A list as the map from its positions. *)
Fixpoint enum {A : Type} (i : N) (l : list A) : list (N * A) :=
  match l with
  | [] => []
  | x :: l' => (i, x) :: enum (i + 1) l'
  end.

Lemma enum_above {A : Type} (l : list A) : forall i j, (j < i)%N -> keys_above j (enum i l) = true.
Proof.
  induction l as [|x l IH]; intros i j Hlt; [done|]. cbn [enum keys_above].
  destruct (cmp j i) eqn:E; unfold cmp, N_ord in E.
  - apply N.compare_eq_iff in E. lia.
  - apply IH. lia.
  - apply N.compare_gt_iff in E. lia.
Qed.

Lemma enum_sorted {A : Type} (l : list A) i : bt_sorted (enum i l) = true.
Proof. destruct l; [done|]. simpl enum. rewrite bt_sorted_cons. apply enum_above. lia. Qed.

Lemma enum_get {A : Type} (l : list A) : forall i j,
  bt_get j (enum i l) = if (i <=? j)%N then l !! N.to_nat (j - i) else None.
Proof.
  induction l as [|x l IH]; intros i j; cbn [enum bt_get]; [by destruct (_ <=? _)%N|].
  rewrite IH. destruct (cmp j i) eqn:E.
  - apply cmp_eq_iff in E as ->. by rewrite N.leb_refl, N.sub_diag.
  - apply (proj1 (N.compare_lt_iff _ _)) in E.
    by destruct (N.leb_spec (i + 1) j), (N.leb_spec i j); try lia.
  - apply (proj1 (N.compare_gt_iff _ _)) in E. destruct (N.leb_spec (i + 1) j), (N.leb_spec i j); try lia.
    replace (N.to_nat (j - i)) with (S (N.to_nat (j - (i + 1)))) by lia. done.
Qed.

Lemma enum_get_0 {A : Type} (l : list A) j : bt_get j (enum 0 l) = get_N l j.
Proof.
  rewrite enum_get, N.sub_0_r, (proj2 (N.leb_le _ _)) by lia. unfold get_N.
  destruct (N.ltb_spec j (N.of_nat (length l))); [done|]. apply lookup_ge_None. lia.
Qed.

Lemma In_enum {A : Type} (l : list A) : forall i j x, In (j, x) (enum i l) -> In x l.
Proof.
  induction l as [|y l IH]; intros i j x Hin; simpl in *; [done|].
  destruct Hin as [[= _ ->]|Hin]; eauto.
Qed.

(** ** The trie selects what the reference keeps *)

Lemma keep_M ps m : selected ps = false ->
  keep ps (AV_M m) = some_unless_empty AV_M (kept (fun kv => keep (tails (Key kv.1) ps) kv.2) m).
Proof. intros E. cbn [keep]. by rewrite E. Qed.

Lemma keep_L ps l : selected ps = false ->
  keep ps (AV_L l) =
  some_unless_empty AV_L (map snd (kept (fun iv => keep (tails (Pos iv.1) ps) iv.2) (enum 0 l))).
Proof.
  intros E. cbn [keep]. rewrite E. f_equal. generalize 0%N.
  induction l as [|x l IH]; intros i; [done|]. simpl enum. rewrite kept_cons. cbn [fst snd].
  destruct (keep (tails (Pos i) ps) x); simpl; by rewrite IH.
Qed.

Lemma kept_none {K V W : Type} (h : K * V -> option W) m : (forall kv, In kv m -> h kv = None) -> kept h m = [].
Proof.
  intros Hh. induction m as [|[k v] m IH]; [done|]. rewrite kept_cons, Hh by (by left).
  apply IH. intros kv Hkv. apply Hh. by right.
Qed.

Lemma Forall_In {A : Type} (P : A -> Prop) l x : Forall P l -> In x l -> P x.
Proof. intros Hf. by apply (proj1 (List.Forall_forall P l) Hf). Qed.

Lemma keep_nil v : keep [] v = None.
Proof.
  induction v as [| | | | | | | |l IH|m IH]; try done.
  - rewrite keep_L by done. rewrite kept_none; [done|]. intros [i x] Hin%In_enum.
    by apply (Forall_In _ _ _ IH).
  - rewrite keep_M by done. rewrite kept_none; [done|]. intros kv Hin.
    by apply (Forall_In _ _ _ IH).
Qed.

Lemma subtrie_None s ps : subtrie s ps = None <-> tails s ps = [].
Proof. unfold subtrie. by destruct (tails s ps). Qed.

Lemma subtrie_Some s ps n : subtrie s ps = Some n -> n = build_trie (tails s ps).
Proof. unfold subtrie. destruct (tails s ps); [done|]. by intros [= <-]. Qed.

Lemma bt_no_keys {K V : Type} `{OrdLaws K} (m : list (K * V)) :
  (forall k, bt_get k m = None) <-> length m = 0.
Proof.
  split; [|by destruct m]. intros Hm. destruct m as [|[k v] m]; [done|].
  specialize (Hm k). simpl in Hm. by rewrite cmp_refl in Hm.
Qed.

Lemma some_unless_decide {A B : Type} (f : list A -> B) (l : list A) `{Decision (l = [])} :
  (if bool_decide (l = []) then None else Some (f l)) = some_unless_empty f l.
Proof. case_bool_decide; subst; [done|]. by destruct l. Qed.

(** A map's projection, when its entries project as they are kept. *)
Lemma project_entries ps m a :
  bt_sorted m = true -> bt_sorted a = true ->
  (forall k, bt_get k a = subtrie (Key k) ps) ->
  (forall k v, bt_get k m = Some v ->
     project_value v (build_trie (tails (Key k) ps)) = keep (tails (Key k) ps) v) ->
  kept (fun nc => match bt_get nc.1 m with Some v => project_value v nc.2 | None => None end) a =
  kept (fun kv => keep (tails (Key kv.1) ps) kv.2) m.
Proof.
  intros Hm Hsa Ha IH. apply bt_ext; [by apply kept_sorted..|]. intros k.
  rewrite !kept_get, Ha by done. cbn [fst snd].
  destruct (subtrie (Key k) ps) as [c|] eqn:E.
  - apply subtrie_Some in E as ->. destruct (bt_get k m) as [v|] eqn:Ev; [|done]. by apply IH.
  - apply subtrie_None in E as ->. destruct (bt_get k m); [|done]. by rewrite keep_nil.
Qed.

Lemma project_elements ps l i :
  bt_sorted i = true -> (forall j, bt_get j i = subtrie (Pos j) ps) ->
  (forall j v, get_N l j = Some v ->
     project_value v (build_trie (tails (Pos j) ps)) = keep (tails (Pos j) ps) v) ->
  kept (fun nc => match get_N l nc.1 with Some v => project_value v nc.2 | None => None end) i =
  kept (fun iv => keep (tails (Pos iv.1) ps) iv.2) (enum 0 l).
Proof.
  intros Hsi Hi IH. apply bt_ext; [apply kept_sorted; auto using enum_sorted..|]. intros j.
  rewrite !kept_get, Hi, enum_get_0 by auto using enum_sorted. cbn [fst snd].
  destruct (subtrie (Pos j) ps) as [c|] eqn:E.
  - apply subtrie_Some in E as ->. destruct (get_N l j) as [v|] eqn:Ev; [|done]. by apply IH.
  - apply subtrie_None in E as ->. destruct (get_N l j); [|done]. by rewrite keep_nil.
Qed.

Lemma kept_no_tails_M ps m : (forall k, subtrie (Key k) ps = None) ->
  kept (fun kv => keep (tails (Key kv.1) ps) kv.2) m = [].
Proof.
  intros Hk. apply kept_none. intros [k v] _. cbn [fst snd].
  rewrite (proj1 (subtrie_None _ _) (Hk k)). apply keep_nil.
Qed.

Lemma kept_no_tails_L ps l : (forall j, subtrie (Pos j) ps = None) ->
  kept (fun iv => keep (tails (Pos iv.1) ps) iv.2) (enum 0 l) = [].
Proof.
  intros Hk. apply kept_none. intros [j v] _. cbn [fst snd].
  rewrite (proj1 (subtrie_None _ _) (Hk j)). apply keep_nil.
Qed.

Lemma coherent_no_index ps k : coherent ps -> subtrie (Key k) ps <> None ->
  forall j, subtrie (Pos j) ps = None.
Proof.
  intros Hc Hk j. apply subtrie_None. destruct (tails (Pos j) ps) as [|r tl] eqn:Ej; [done|].
  rewrite subtrie_None in Hk. destruct (tails (Key k) ps) as [|q tl'] eqn:Ek; [done|]. exfalso.
  apply (Hc [] k q j r); simpl; apply elem_of_tails; rewrite ?Ek, ?Ej; apply list_elem_of_here.
Qed.

Lemma project_value_keep v : forall ps, av_wf v = true -> coherent ps ->
  project_value v (build_trie ps) = keep ps v.
Proof.
  induction v as [| | | | | | | |l IH|m IH]; intros ps Hwf Hc;
    destruct (build_trie_spec ps) as (Ht & Hs & Ha & Hi);
    destruct (build_trie ps) as [t a i]; unfold node_sorted in Hs; cbn [terminal attrs indices] in *;
    apply andb_true_iff in Hs as [Hsa Hsi]; cbn [project_value]; rewrite Ht;
    destruct (selected ps) eqn:Hsel;
    try (by cbn [keep]; rewrite Hsel; repeat case_bool_decide).
  - rewrite keep_L by done. case_bool_decide as Ea; cbn [negb].
    + case_bool_decide as Ei; cbn [negb].
      * rewrite kept_no_tails_L; [done|]. intros j. rewrite <- Hi. by apply bt_no_keys.
      * rewrite some_unless_decide. f_equal.
        erewrite (fold_append_kept _ (fun nc => match get_N l nc.1 with
          | Some v => project_value v nc.2 | None => None end)) by (intros; by destruct (get_N l _)).
        rewrite (project_elements ps); [done|done|done|].
        intros j v Hv. assert (In v l) as Hin.
        { unfold get_N in Hv. destruct (_ <? _)%N; [|done].
          by apply list_elem_of_lookup_2, list_elem_of_In in Hv. }
        apply (Forall_In _ _ _ IH Hin); [|by apply coherent_tails].
        simpl in Hwf. rewrite forallb_forall in Hwf. auto.
    + rewrite kept_no_tails_L; [done|]. destruct a as [|[k c] a']; [done|].
      apply (coherent_no_index ps k Hc). rewrite <- Ha. simpl. by rewrite cmp_refl.
  - rewrite keep_M by done. case_bool_decide as Ea; cbn [negb].
    + rewrite kept_no_tails_M; [by case_bool_decide|]. intros k. rewrite <- Ha. by apply bt_no_keys.
    + rewrite some_unless_decide. f_equal. rewrite av_wf_M in Hwf.
      erewrite (fold_kept _ (fun nc => match bt_get nc.1 m with
        | Some v => project_value v nc.2 | None => None end)) by (done || intros; by destruct (bt_get _ m)).
      apply andb_true_iff in Hwf as [Hsm Hvs]. apply project_entries; try done.
      intros k v Hv. pose proof (bt_get_In _ _ _ Hv) as Hin.
      apply (Forall_In _ _ _ IH Hin); [|by apply coherent_tails].
      rewrite forallb_forall in Hvs. by apply (Hvs (k, v)).
Qed.

Lemma apply_keep ps item : item_wf item = true -> coherent ps ->
  apply (build_trie ps) item = keep_item ps item.
Proof.
  intros Hwf Hc. destruct (build_trie_spec ps) as (_ & Hs & Ha & _).
  unfold node_sorted in Hs. apply andb_true_iff in Hs as [Hsa _]. unfold apply.
  erewrite (fold_kept _ (fun nc => match bt_get nc.1 item with
    | Some v => project_value v nc.2 | None => None end)) by (done || intros; by destruct (bt_get _ item)).
  apply project_entries; [by apply andb_true_iff in Hwf as [? _]|done|done|].
  intros k v Hv. apply project_value_keep; [|by apply coherent_tails]. by eapply item_wf_get.
Qed.

Lemma resolve_elements_steps {D : Type} (maps : ExpressionMaps D) path : forall i elems,
  resolve_elements i path maps = Ok elems -> path_steps maps path = Some elems.
Proof.
  unfold path_steps. induction path as [|[raw|idx] rest IH]; intros i elems; cbn [resolve_elements].
  - by intros [= <-].
  - destruct (resolve_name_ref raw maps) as [name|] eqn:En; [|done]. simpl.
    destruct (resolve_elements (S i) rest maps) as [es|] eqn:Er; [|done]. intros [= <-].
    assert (element_step maps (PAttr raw) = Some (Key name)) as He.
    { revert En. unfold resolve_name_ref, resolve_name. simpl.
      destruct (strip_prefix_char "#" raw); [|by intros [= <-]].
      destruct (em_names maps !! _); [|done]. by intros [= <-]. }
    simpl in He |- *. rewrite He. simpl. by rewrite (IH _ _ Er).
  - destruct (i =? 0); [done|]. destruct (resolve_elements (S i) rest maps) as [es|] eqn:Er; [|done].
    intros [= <-]. simpl. by rewrite (IH _ _ Er).
Qed.

(** The paths of an expression that are not empty, which are all that a parser makes. *)
Definition nonempty_paths (paths : list (list PathElement)) : list (list PathElement) :=
  List.filter (fun p => negb (bool_decide (p = []))) paths.

Lemma resolve_paths_steps {D : Type} (maps : ExpressionMaps D) paths : forall ps,
  resolve_paths paths maps = Ok ps ->
  Forall2 (fun p s => path_steps maps p = Some s) (nonempty_paths paths) ps.
Proof.
  induction paths as [|[|e path] rest IH]; intros ps; cbn [resolve_paths].
  - intros [= <-]. constructor.
  - apply IH.
  - set (p := e :: path). destruct (resolve_elements 0 p maps) as [es|] eqn:E; [|done]. simpl.
    destruct (resolve_paths rest maps) as [rs|]; [|done]. intros [= <-].
    unfold nonempty_paths. simpl. constructor; [by eapply resolve_elements_steps|]. by apply IH.
Qed.

(** C19. A compiled projection selects what its paths select.  When [compile] succeeds
    every path resolves and, if overlaps are rejected, no path is a prefix of another;
    for paths that can all be in one document, applying the trie to an item gives the
    part of the item that the paths keep, with list elements compacted in their order. *)
Theorem projection_selects {D : Type} paths (maps : ExpressionMaps D) reject_overlap root item :
  item_wf item = true -> compile paths maps reject_overlap = Ok root ->
  exists ps, Forall2 (fun p s => path_steps maps p = Some s) (nonempty_paths paths) ps /\
    (reject_overlap = true -> ForallOrdPairs apart ps) /\
    (coherent ps -> apply root item = keep_item ps item).
Proof.
  intros Hwf. unfold compile. destruct (resolve_paths paths maps) as [ps|[]] eqn:E; try done.
  destruct (if reject_overlap then _ else _) as [[]|] eqn:Eo; [|done]. intros [= <-].
  exists ps. split_and!; [by apply resolve_paths_steps| |by apply apply_keep].
  intros ->. by apply check_overlap_iff.
Qed.

(** ** Lookups in a projection *)

Definition is_key (s : Step) : bool := match s with Key _ => true | Pos _ => false end.

Definition bind_get (q : list Step) (o : option AttributeValue) : option AttributeValue :=
  match o with Some v => get_in q v | None => None end.

Lemma bind_get_M q k (m : list (string * AttributeValue)) :
  bind_get (Key k :: q) (some_unless_empty AV_M m) = bind_get q (bt_get k m).
Proof. destruct m; [done|]. simpl. by destruct (bt_get k _). Qed.

Lemma bind_get_L q k (l : list AttributeValue) :
  bind_get (Key k :: q) (some_unless_empty AV_L l) = None.
Proof. by destruct l. Qed.

Lemma keep_lookup q : forall ps v, forallb is_key q = true -> av_wf v = true ->
  ((exists p, p ∈ ps /\ p `prefix_of` q) -> bind_get q (keep ps v) = get_in q v) /\
  ((forall p, p ∈ ps -> apart p q) -> bind_get q (keep ps v) = None).
Proof.
  induction q as [|[k|] q IH]; intros ps v Hq Hwf; [| |done].
  - split.
    + intros (p & Hp & ->%prefix_nil_inv). assert (selected ps = true) as Hs by (by apply bool_decide_eq_true).
      destruct v; cbn [keep]; by rewrite Hs.
    + intros Hps. destruct ps as [|p ps]; [by rewrite keep_nil|]. exfalso.
      apply (Hps p (list_elem_of_here _ _)), prefix_nil.
  - destruct (selected ps) eqn:Hs.
    { assert (keep ps v = Some v) as -> by (destruct v; cbn [keep]; by rewrite Hs).
      split; [done|]. intros Hps. exfalso. apply bool_decide_eq_true in Hs.
      destruct (Hps [] Hs) as [Hn _]. apply Hn, prefix_nil. }
    destruct v; try (cbn [keep]; rewrite Hs; done).
    { rewrite keep_L, bind_get_L by done. done. }
    rewrite keep_M, bind_get_M by done. rewrite av_wf_M in Hwf.
    pose proof (proj1 (proj1 (andb_true_iff _ _) Hwf)) as Hsm. rewrite kept_get by done. cbn [fst snd].
    cbn [get_in step_in]. destruct (bt_get k m) as [x|] eqn:Ex; [|done].
    destruct (IH (tails (Key k) ps) x Hq (item_wf_get _ _ _ Hwf Ex)) as [IH1 IH2]. split.
    + intros (p & Hp & Hpre). apply IH1. destruct p as [|s p].
      { apply bool_decide_eq_false in Hs. done. }
      pose proof (prefix_cons_inv_1 _ _ _ _ Hpre) as ->. exists p.
      split; [by apply elem_of_tails|]. by eapply prefix_cons_inv_2.
    + intros Hps. apply IH2. intros p [Ha Hb]%elem_of_tails%Hps.
      split; intros Hpre; [apply Ha|apply Hb]; by apply prefix_cons.
Qed.

(** What a projection returns, by path: at a path of attribute names that one of the
    projection's paths selects, or leads to, the projected item reads as the item does;
    at a path that parts from all of them it has nothing. *)
Theorem projection_lookup ps item k q :
  item_wf item = true -> coherent ps -> forallb is_key q = true -> [] ∉ ps ->
  ((exists p, p ∈ ps /\ p `prefix_of` Key k :: q) ->
     get_in (Key k :: q) (AV_M (apply (build_trie ps) item)) = get_in (Key k :: q) (AV_M item)) /\
  ((forall p, p ∈ ps -> apart p (Key k :: q)) ->
     get_in (Key k :: q) (AV_M (apply (build_trie ps) item)) = None).
Proof.
  intros Hwf Hc Hq Hnil. rewrite apply_keep by done.
  assert (selected ps = false) as Hs by (by apply bool_decide_eq_false).
  destruct (keep_lookup (Key k :: q) ps (AV_M item)) as [H1 H2]; [done|by rewrite av_wf_M|].
  rewrite keep_M in H1, H2 by done. rewrite bind_get_M in H1, H2.
  change (kept _ item) with (keep_item ps item) in H1, H2. cbn [get_in step_in] in *.
  by destruct (bt_get k (keep_item ps item)).
Qed.

(** Paths that are not coherent: for [a.b, a[0]] and a list [a], nothing of [a] is
    returned, though the path [a[0]] is in the item. *)
Theorem incoherent_projection :
  check_overlap [[Key "a"; Key "b"]; [Key "a"; Pos 0]] = Ok tt /\
  apply (build_trie [[Key "a"; Key "b"]; [Key "a"; Pos 0]]) [("a", AV_L [AV_S "x"])] = [] /\
  apply (build_trie [[Key "a"; Pos 0]]) [("a", AV_L [AV_S "x"])] = [("a", AV_L [AV_S "x"])].
Proof. vm_compute. done. Qed.

Lemma projection_selects_witness :
  exists ps, coherent ps -> [("l", AV_L [AV_S "y"; AV_S "z"])] =
    keep_item ps [("k", AV_Null); ("l", AV_L [AV_S "x"; AV_S "y"; AV_S "z"])].
Proof.
  edestruct (projection_selects (D := dec) [[PAttr "l"; PIndex 2]; [PAttr "l"; PIndex 1]]
    (maps_new ∅ ∅) true (build_trie [[Key "l"; Pos 2]; [Key "l"; Pos 1]])
    [("k", AV_Null); ("l", AV_L [AV_S "x"; AV_S "y"; AV_S "z"])])
    as (ps & _ & _ & Hp); [vm_compute; reflexivity..|].
  exists ps. intros Hc. rewrite <- (Hp Hc). vm_compute. reflexivity.
Defined.

Lemma projection_lookup_witness :
  get_in [Key "m"; Key "a"] (AV_M (apply (build_trie [[Key "m"; Key "a"]])
    [("k", AV_Null); ("m", AV_M [("a", AV_S "x"); ("b", AV_Null)])])) = Some (AV_S "x").
Proof.
  destruct (projection_lookup [[Key "m"; Key "a"]]
    [("k", AV_Null); ("m", AV_M [("a", AV_S "x"); ("b", AV_Null)])] "m" [Key "a"]) as [H1 _].
  - reflexivity.
  - intros pre a k i k' _ Hi%list_elem_of_singleton.
    destruct pre as [|? [|? [|]]]; discriminate Hi.
  - reflexivity.
  - intros Hn%list_elem_of_singleton. discriminate Hn.
  - rewrite H1; [reflexivity|]. exists [Key "m"; Key "a"]. split; [by apply list_elem_of_singleton|done].
Defined.
