(* ===== verification/KeyCondition.v ===== *)
(** * KeyConditionExpression: the parser

    The parser of [crates/core/src/expression/key_condition.rs]: clauses joined
    by AND, each an equality, a comparison, a BETWEEN or a begins_with on a top-level
    attribute, and their first classification into a partition key equality and a
    sort key condition, which [KeyResolve] corrects by the key schema. *)

From S2P Require Import Prelude BTree Types Error Decimal Ast ParserCommon Resolver.

Inductive SortKeyCondition : Type :=
  | SKCompare (path : list PathElement) (op : CompareOp) (value : Expr)
  | SKBetween (path : list PathElement) (low high : Expr)
  | SKBeginsWith (path : list PathElement) (prefix : Expr).

(** [SortKeyCondition::path]. *)
Definition sk_path (c : SortKeyCondition) : list PathElement :=
  match c with
  | SKCompare path _ _ | SKBetween path _ _ | SKBeginsWith path _ => path
  end.

Record KeyCondition : Type := {
  pk_path : list PathElement;
  pk_value : Expr;
  extra_pk_conditions : list (list PathElement * Expr);
  sk_condition : option SortKeyCondition;
  extra_sk_conditions : list (list PathElement * Expr)
}.

Inductive RawClause : Type :=
  | RawEq (path : list PathElement) (value : Expr)
  | RawCompare (path : list PathElement) (op : CompareOp) (value : Expr)
  | RawBetween (path : list PathElement) (low high : Expr)
  | RawBeginsWith (path : list PathElement) (prefix : Expr).

Inductive KeyOperand : Type :=
  | OperandPath (path : list PathElement)
  | OperandValue (value : Expr).

Definition raw_clause_path (clause : RawClause) : list PathElement :=
  match clause with
  | RawEq path _ | RawCompare path _ _ | RawBetween path _ _ | RawBeginsWith path _ => path
  end.

Definition kc_err {A : Type} (msg : string) : res A := fail ("Invalid KeyConditionExpression: " +:+ msg).

Definition reverse_comparator (op : CompareOp) : CompareOp :=
  match op with
  | CEq => CEq
  | CNe => CNe
  | CLt => CGt
  | CLe => CGe
  | CGt => CLt
  | CGe => CLe
  end.

Definition key_comparator (token : Token) : option CompareOp :=
  match token with
  | TokEq => Some CEq
  | TokNe => Some CNe
  | TokLt => Some CLt
  | TokLe => Some CLe
  | TokGt => Some CGt
  | TokGe => Some CGe
  | _ => None
  end.

(** The loop of [outer_parens_match] over the tokens after [i], [last] being
    [tokens.len() - 1]. *)
Fixpoint outer_loop (last i : nat) (depth : Z) (tokens : list Token) : bool :=
  match tokens with
  | [] => (depth =? 0)%Z
  | token :: rest =>
      match token with
      | TokLParen => outer_loop last (S i) (depth + 1)%Z rest
      | TokRParen =>
          if (depth - 1 =? 0)%Z && (i <? last) then false
          else outer_loop last (S i) (depth - 1)%Z rest
      | _ => outer_loop last (S i) depth rest
      end
  end.

Definition outer_parens_match (tokens : list Token) : bool :=
  outer_loop (length tokens - 1) 0 0 tokens.

Section Parser.
Variable tokens : list Token.

Definition parse_key_value (pos : nat) : res (Expr * nat) :=
  match tokens !! pos with
  | None => kc_err "expected value"
  | Some (TokPlaceholder name) => Ok (EPlaceholder name, pos + 1)
  | Some _ => kc_err "key condition values must be expression attribute value placeholders"
  end.

Definition parse_key_operand_path (pos : nat) : res (list PathElement * nat) :=
  match tokens !! pos with
  | Some (TokIdent _) | Some (TokNameRef _) => parse_path tokens pos
  | _ => kc_err "expected attribute path"
  end.

Definition parse_key_operand (pos : nat) : res (KeyOperand * nat) :=
  match tokens !! pos with
  | None => kc_err "unexpected end of expression"
  | Some (TokIdent _) | Some (TokNameRef _) =>
      let? (path, pos) := parse_path tokens pos in
      Ok (OperandPath path, pos)
  | Some (TokPlaceholder _) =>
      let? (value, pos) := parse_key_value pos in
      Ok (OperandValue value, pos)
  | Some _ => kc_err "expected attribute path or value placeholder"
  end.

Definition raw_comparison (path : list PathElement) (op : CompareOp) (value : Expr) : RawClause :=
  if bool_decide (op = CEq) then RawEq path value else RawCompare path op value.

(** The operator of a comparison at [pos]: one that is not [<>]. *)
Definition parse_key_op (pos : nat) : res (CompareOp * nat) :=
  match tokens !! pos with
  | Some t =>
      match key_comparator t with
      | None => kc_err "expected comparison operator"
      | Some op =>
          if bool_decide (op = CNe) then kc_err "Unsupported operator on KeyCondition: NE"
          else Ok (op, pos + 1)
      end
  | None => Err Panic
  end.

(** The case of [begins_with(path, :val)], from its name at [pos]. *)
Definition parse_begins_with (pos : nat) : res (RawClause * nat) :=
  let? pos := expect_token tokens (pos + 1) TokLParen "(" "KeyConditionExpression" in
  let? (path, pos) := parse_key_operand_path pos in
  let? pos := expect_token tokens pos TokComma "," "KeyConditionExpression" in
  let? (prefix, pos) := parse_key_value pos in
  let? pos := expect_token tokens pos TokRParen ")" "KeyConditionExpression" in
  Ok (RawBeginsWith path prefix, pos).

Definition at_begins_with (pos : nat) : bool :=
  match tokens !! pos with
  | Some (TokIdent name) =>
      eq_ignore_ascii_case name "begins_with" && at_token tokens (pos + 1) TokLParen
  | _ => false
  end.

Definition parse_key_clause_inner (pos : nat) : res (RawClause * nat) :=
  if length tokens <=? pos then kc_err "unexpected end of expression"
  else if at_begins_with pos then parse_begins_with pos
  else
    let? (left_operand, pos) := parse_key_operand pos in
    if length tokens <=? pos then kc_err "expected operator after operand"
    else
      match left_operand with
      | OperandValue value =>
          let? (op, pos) := parse_key_op pos in
          let? (path, pos) := parse_key_operand_path pos in
          Ok (raw_comparison path (reverse_comparator op) value, pos)
      | OperandPath path =>
          if at_token tokens pos TokBetween then
            let? (low, pos) := parse_key_value (pos + 1) in
            let? pos := expect_token tokens pos TokAnd "AND" "KeyConditionExpression" in
            let? (high, pos) := parse_key_value pos in
            Ok (RawBetween path low high, pos)
          else
            let? (op, pos) := parse_key_op pos in
            let? (value, pos) := parse_key_value pos in
            Ok (raw_comparison path op value, pos)
      end.

Definition parse_key_clause (pos : nat) : res (RawClause * nat) :=
  if length tokens <=? pos then kc_err "unexpected end of expression"
  else if at_token tokens pos TokLParen then
    let? (clause, pos) := parse_key_clause_inner (pos + 1) in
    if at_token tokens pos TokRParen then Ok (clause, pos + 1)
    else kc_err "expected ')'"
  else parse_key_clause_inner pos.

(** The [while pos < tokens.len()] loop of [parse_clauses]. *)
Fixpoint clauses_loop (fuel : nat) (clauses : list RawClause) (pos : nat) : res (list RawClause) :=
  match fuel with
  | O => Err OutOfFuel
  | S fuel =>
      if pos <? length tokens then
        if at_token tokens pos TokAnd then
          let? (clause, pos) := parse_key_clause (pos + 1) in
          clauses_loop fuel (clauses ++ [clause]) pos
        else kc_err "only AND is supported between key conditions"
      else Ok clauses
  end.
End Parser.

Definition reject_nested_key_path (path : list PathElement) : res unit :=
  match path with
  | [PAttr _] => Ok tt
  | _ => kc_err "KeyConditionExpressions cannot have conditions on nested attributes"
  end.

(** The tokens without an outer pair of parentheses. *)
Definition strip_outer (tokens : list Token) : list Token :=
  if (2 <=? length tokens) && at_token tokens 0 TokLParen
     && at_token tokens (length tokens - 1) TokRParen && outer_parens_match tokens
  then take (length tokens - 2) (drop 1 tokens)
  else tokens.

(** After the loop [pos] is the end of the tokens, so the check that follows it in the
    source never fails. *)
Definition parse_clauses (tokens : list Token) : res (list RawClause) :=
  match check_redundant_parens tokens with
  | Err body => kc_err body
  | Ok _ =>
      let tokens := strip_outer tokens in
      let? (clause, pos) := parse_key_clause tokens 0 in
      let? clauses := clauses_loop tokens (S (length tokens)) [clause] pos in
      let? _ := for_each (fun clause => reject_nested_key_path (raw_clause_path clause)) clauses in
      Ok clauses
  end.

Definition raw_to_sk (clause : RawClause) : SortKeyCondition :=
  match clause with
  | RawEq path value => SKCompare path CEq value
  | RawCompare path op value => SKCompare path op value
  | RawBetween path low high => SKBetween path low high
  | RawBeginsWith path prefix => SKBeginsWith path prefix
  end.

Definition classify_single (clause : RawClause) : res KeyCondition :=
  match clause with
  | RawEq path value =>
      Ok {| pk_path := path; pk_value := value; extra_pk_conditions := [];
            sk_condition := None; extra_sk_conditions := [] |}
  | _ => kc_err "partition key condition must use equality (=)"
  end.

Definition pair_condition (pk_path : list PathElement) (pk_value : Expr) (sk : RawClause) : KeyCondition :=
  {| pk_path := pk_path; pk_value := pk_value; extra_pk_conditions := [];
     sk_condition := Some (raw_to_sk sk); extra_sk_conditions := [] |}.

Definition classify_pair (a b : RawClause) : res KeyCondition :=
  match a, b with
  | RawEq pk_path pk_value, sk => Ok (pair_condition pk_path pk_value sk)
  | sk, RawEq pk_path pk_value => Ok (pair_condition pk_path pk_value sk)
  | _, _ => kc_err "one condition must be an equality on the partition key"
  end.

(** The loop of [classify_multi] over the clauses. *)
Fixpoint multi_loop (eq_clauses : list (list PathElement * Expr)) (non_eq : option SortKeyCondition)
    (clauses : list RawClause) : res (list (list PathElement * Expr) * option SortKeyCondition) :=
  match clauses with
  | [] => Ok (eq_clauses, non_eq)
  | RawEq path value :: rest => multi_loop (eq_clauses ++ [(path, value)]) non_eq rest
  | other :: rest =>
      match non_eq with
      | Some _ => kc_err "at most one non-equality condition is allowed"
      | None => multi_loop eq_clauses (Some (raw_to_sk other)) rest
      end
  end.

Definition classify_multi (clauses : list RawClause) : res KeyCondition :=
  let? (eq_clauses, non_eq) := multi_loop [] None clauses in
  match eq_clauses with
  | [] => kc_err "at least one equality condition on a partition key attribute is required"
  | (pk_path, pk_value) :: eq_clauses =>
      let '(eq_clauses, sk_condition) :=
        match non_eq with
        | Some sk => (eq_clauses, Some sk)
        | None =>
            match last_error eq_clauses with
            | Some (path, value) => (removelast eq_clauses, Some (SKCompare path CEq value))
            | None => (eq_clauses, None)
            end
        end in
      Ok {| pk_path := pk_path; pk_value := pk_value; extra_pk_conditions := eq_clauses;
            sk_condition := sk_condition; extra_sk_conditions := [] |}
  end.

Definition parse_key_condition (tokens : list Token) : res KeyCondition :=
  let? clauses := parse_clauses tokens in
  match clauses with
  | [a] => classify_single a
  | [a; b] => classify_pair a b
  | _ => classify_multi clauses
  end.

Record KeyClauseOperand : Type := {
  kco_path : list PathElement;
  kco_value : Expr;
  kco_equality : bool
}.

Definition clause_operand (clause : RawClause) : option KeyClauseOperand :=
  match clause with
  | RawEq path value => Some {| kco_path := path; kco_value := value; kco_equality := true |}
  | RawCompare path _ value | RawBeginsWith path value =>
      Some {| kco_path := path; kco_value := value; kco_equality := false |}
  | RawBetween _ _ _ => None
  end.

Definition key_condition_clause_operands (tokens : list Token) : res (list KeyClauseOperand) :=
  let? clauses := parse_clauses tokens in
  Ok (omap clause_operand clauses).

(** [resolver::collect_key_condition_refs]. *)
Definition collect_pairs_refs (l : list (list PathElement * Expr)) (r : refs) : refs :=
  fold_left (fun r pe => collect_expr_refs (snd pe) (collect_path_refs (fst pe) (fst r), snd r)) l r.

Definition collect_key_condition_refs (kc : KeyCondition) : refs :=
  let r := collect_pairs_refs [(pk_path kc, pk_value kc)] (∅, ∅) in
  let r :=
    match sk_condition kc with
    | Some (SKCompare path _ value) => collect_pairs_refs [(path, value)] r
    | Some (SKBetween path low high) => collect_expr_refs high (collect_pairs_refs [(path, low)] r)
    | Some (SKBeginsWith path prefix) => collect_pairs_refs [(path, prefix)] r
    | None => r
    end in
  collect_pairs_refs (extra_sk_conditions kc) (collect_pairs_refs (extra_pk_conditions kc) r).

(** ** The grammar *)

(** A clause without parentheses. *)
Inductive g_key_atom : list Token -> RawClause -> Prop :=
  | g_begins_with f tp path v :
      eq_ignore_ascii_case f "begins_with" = true -> g_path tp path ->
      g_key_atom (TokIdent f :: TokLParen :: tp ++ [TokComma; TokPlaceholder v; TokRParen])
        (RawBeginsWith path (EPlaceholder v))
  | g_path_op tp path t op v :
      g_path tp path -> key_comparator t = Some op -> op <> CNe ->
      g_key_atom (tp ++ [t; TokPlaceholder v]) (raw_comparison path op (EPlaceholder v))
  | g_op_path v t op tp path :
      key_comparator t = Some op -> op <> CNe -> g_path tp path ->
      g_key_atom (TokPlaceholder v :: t :: tp)
        (raw_comparison path (reverse_comparator op) (EPlaceholder v))
  | g_key_between tp path lo hi :
      g_path tp path ->
      g_key_atom (tp ++ [TokBetween; TokPlaceholder lo; TokAnd; TokPlaceholder hi])
        (RawBetween path (EPlaceholder lo) (EPlaceholder hi)).

Inductive g_key_clause : list Token -> RawClause -> Prop :=
  | g_clause_bare ts c : g_key_atom ts c -> g_key_clause ts c
  | g_clause_parens ts c : g_key_atom ts c -> g_key_clause (TokLParen :: ts ++ [TokRParen]) c.

Inductive g_ands : list Token -> list RawClause -> Prop :=
  | g_ands_nil : g_ands [] []
  | g_ands_cons t c ts cs :
      g_key_clause t c -> g_ands ts cs -> g_ands (TokAnd :: t ++ ts) (c :: cs).

(** Clauses joined by AND. *)
Definition g_conjunction (ts : list Token) (cs : list RawClause) : Prop :=
  exists t c ts' cs', ts = t ++ ts' /\ cs = c :: cs' /\ g_key_clause t c /\ g_ands ts' cs'.

Section Grammar.
Variable tokens : list Token.

Lemma parse_key_value_iff pos v pos' :
  parse_key_value tokens pos = Ok (v, pos') <->
  exists name, tokens !! pos = Some (TokPlaceholder name) /\ v = EPlaceholder name /\ pos' = pos + 1.
Proof.
  unfold parse_key_value. destruct (tokens !! pos) as [[]|]; naive_solver.
Qed.

Lemma parse_key_op_iff pos op pos' :
  parse_key_op tokens pos = Ok (op, pos') <->
  exists t, tokens !! pos = Some t /\ key_comparator t = Some op /\ op <> CNe /\ pos' = pos + 1.
Proof.
  unfold parse_key_op. destruct (tokens !! pos) as [t|]; [|naive_solver].
  destruct (key_comparator t) as [o|] eqn:E.
  - case_bool_decide as Ho; split; [done| |intros [= <- <-]; eauto|];
      intros (t' & [= <-] & Et & Hne & ->); congruence.
  - split; [done|]. intros (t' & [= <-] & Et & _). congruence.
Qed.

Lemma g_path_head ts p : g_path ts p ->
  exists t rest, ts = t :: rest /\ match t with TokIdent _ | TokNameRef _ => True | _ => False end.
Proof. destruct 1 as [t name rest p Ha _]. exists t, rest. split; [done|]. by destruct Ha. Qed.

Lemma parse_key_operand_path_sound pos p pos' :
  parse_key_operand_path tokens pos = Ok (p, pos') -> exists ts, span tokens pos pos' ts /\ g_path ts p.
Proof.
  unfold parse_key_operand_path. destruct (tokens !! pos) as [[]|]; try done;
    intros (ts & Hs & Hg & _)%parse_path_sound; eauto.
Qed.

Lemma parse_key_operand_path_complete pos pos' ts p :
  span tokens pos pos' ts -> g_path ts p -> path_stop (tokens !! pos') = true ->
  parse_key_operand_path tokens pos = Ok (p, pos').
Proof.
  intros Hs Hg Hstop. unfold parse_key_operand_path.
  destruct (g_path_head _ _ Hg) as (t & rest & -> & Ht).
  pose proof (proj1 (proj1 (span_cons _ _ _ _ _) Hs)) as ->.
  destruct t; try done; by eapply parse_path_complete.
Qed.

Lemma parse_begins_with_sound pos c pos' f :
  tokens !! pos = Some (TokIdent f) -> eq_ignore_ascii_case f "begins_with" = true ->
  parse_begins_with tokens pos = Ok (c, pos') ->
  exists ts, span tokens pos pos' ts /\ g_key_atom ts c.
Proof.
  intros Hpos Hf. unfold parse_begins_with.
  destruct (expect_token tokens (pos + 1) _ _ _) as [p1|] eqn:E1; [|done].
  apply expect_token_Ok in E1 as [E1 ->].
  destruct (parse_key_operand_path tokens _) as [[path p2]|] eqn:E2; [|done].
  destruct (expect_token tokens p2 _ _ _) as [p3|] eqn:E3; [|done].
  apply expect_token_Ok in E3 as [E3 ->].
  destruct (parse_key_value tokens _) as [[v p4]|] eqn:E4; [|done].
  apply parse_key_value_iff in E4 as (name & E4 & -> & ->).
  destruct (expect_token tokens (p2 + 1 + 1) _ _ _) as [p5|] eqn:E5; [|done].
  apply expect_token_Ok in E5 as [E5 ->]. intros [= <- <-].
  apply parse_key_operand_path_sound in E2 as (tp & Hs & Hg).
  exists (TokIdent f :: TokLParen :: tp ++ [TokComma; TokPlaceholder name; TokRParen]).
  split; [|by constructor]. rewrite !span_cons, span_app. split_and!; try done.
  exists p2. rewrite !span_cons. split_and!; try done.
Qed.
Lemma parse_key_operand_sound pos o pos' :
  parse_key_operand tokens pos = Ok (o, pos') ->
  match o with
  | OperandPath p => exists ts, span tokens pos pos' ts /\ g_path ts p
  | OperandValue v => exists name, tokens !! pos = Some (TokPlaceholder name) /\ v = EPlaceholder name /\
                        pos' = pos + 1
  end.
Proof.
  unfold parse_key_operand. destruct (tokens !! pos) as [[]|] eqn:E; try done.
  - destruct (parse_path tokens pos) as [[p q]|] eqn:Ep; [|done]. intros [= <- <-].
    apply parse_path_sound in Ep as (ts & Hs & Hg & _). eauto.
  - destruct (parse_path tokens pos) as [[p q]|] eqn:Ep; [|done]. intros [= <- <-].
    apply parse_path_sound in Ep as (ts & Hs & Hg & _). eauto.
  - destruct (parse_key_value tokens pos) as [[v q]|] eqn:Ep; [|done]. intros [= <- <-].
    apply parse_key_value_iff in Ep as (name & Hn & -> & ->). rewrite E in Hn. eauto.
Qed.

Lemma parse_key_clause_inner_sound pos c pos' :
  parse_key_clause_inner tokens pos = Ok (c, pos') ->
  exists ts, span tokens pos pos' ts /\ g_key_atom ts c.
Proof.
  unfold parse_key_clause_inner. destruct (length tokens <=? pos); [done|].
  destruct (at_begins_with tokens pos) eqn:Eb.
  { unfold at_begins_with in Eb. destruct (tokens !! pos) as [[]|] eqn:Et; try done.
    apply andb_true_iff in Eb as [Hf _]. by eapply parse_begins_with_sound. }
  destruct (parse_key_operand tokens pos) as [[o p1]|] eqn:Eo; [|done].
  apply parse_key_operand_sound in Eo. destruct (length tokens <=? p1); [done|].
  destruct o as [path|v].
  - destruct Eo as (tp & Hs & Hg). destruct (at_token tokens p1 TokBetween) eqn:Ebt.
    + apply at_token_true in Ebt. destruct (parse_key_value tokens (p1 + 1)) as [[lo p2]|] eqn:E2; [|done].
      apply parse_key_value_iff in E2 as (nlo & E2 & -> & ->).
      destruct (expect_token tokens _ _ _ _) as [p3|] eqn:E3; [|done].
      apply expect_token_Ok in E3 as [E3 ->].
      destruct (parse_key_value tokens _) as [[hi p4]|] eqn:E4; [|done].
      apply parse_key_value_iff in E4 as (nhi & E4 & -> & ->). intros [= <- <-].
      eexists. split; [|by apply g_key_between]. rewrite span_app. exists p1.
      rewrite !span_cons. by split_and!.
    + destruct (parse_key_op tokens p1) as [[op p2]|] eqn:E2; [|done].
      apply parse_key_op_iff in E2 as (t & E2 & Hop & Hne & ->).
      destruct (parse_key_value tokens _) as [[v p4]|] eqn:E4; [|done].
      apply parse_key_value_iff in E4 as (n & E4 & -> & ->). intros [= <- <-].
      eexists. split; [|by apply g_path_op]. rewrite span_app. exists p1.
      rewrite !span_cons. by split_and!.
  - destruct Eo as (n & En & -> & ->).
    destruct (parse_key_op tokens (pos + 1)) as [[op p2]|] eqn:E2; [|done].
    apply parse_key_op_iff in E2 as (t & E2 & Hop & Hne & ->).
    destruct (parse_key_operand_path tokens _) as [[path p3]|] eqn:E3; [|done].
    apply parse_key_operand_path_sound in E3 as (tp & Hs & Hg). intros [= <- <-].
    eexists. split; [|by apply g_op_path]. rewrite !span_cons. by split_and!.
Qed.
Lemma g_steps_next pos m ts p :
  span tokens pos m ts -> g_steps ts p -> tokens !! m <> Some TokLParen ->
  tokens !! pos <> Some TokLParen.
Proof.
  intros Hs Hg Hm. destruct Hg.
  - by apply span_nil_inv in Hs as ->.
  - apply span_cons in Hs as [-> _]. done.
  - apply span_cons in Hs as [-> _]. done.
Qed.

Lemma path_operand_complete pos m tp p :
  span tokens pos m tp -> g_path tp p -> path_stop (tokens !! m) = true ->
  tokens !! m <> Some TokLParen ->
  at_begins_with tokens pos = false /\ parse_key_operand tokens pos = Ok (OperandPath p, m).
Proof.
  intros Hs Hg Hstop Hlp. pose proof (parse_path_complete _ _ _ _ _ Hs Hg Hstop) as Hp.
  unfold at_begins_with, parse_key_operand. destruct Hg as [t name rest p Ha Hst].
  apply span_cons in Hs as [Ht Hs]. rewrite Ht, Hp.
  assert (at_token tokens (pos + 1) TokLParen = false) as Hn.
  { apply at_token_false. by eapply g_steps_next. }
  destruct Ha; [|done]. by rewrite Hn, andb_false_r.
Qed.

Lemma key_comparator_stop t op :
  key_comparator t = Some op ->
  path_stop (Some t) = true /\ Some t <> Some TokLParen /\ Some t <> Some TokBetween.
Proof. by destruct t. Qed.

Lemma span_inside pos pos' t ts : span tokens pos pos' (t :: ts) -> (length tokens <=? pos) = false.
Proof.
  intros [Ht _]%span_cons. apply lookup_lt_Some in Ht. apply Nat.leb_gt. done.
Qed.

Lemma parse_key_clause_inner_complete pos pos' ts c :
  span tokens pos pos' ts -> g_key_atom ts c -> path_stop (tokens !! pos') = true ->
  parse_key_clause_inner tokens pos = Ok (c, pos').
Proof.
  intros Hs Hg Hstop. unfold parse_key_clause_inner.
  destruct Hg as [f tp path v Hf Hg|tp path t op v Hg Hop Hne|v t op tp path Hop Hne Hg|tp path lo hi Hg].
  - rewrite (span_inside _ _ _ _ Hs). rewrite !span_cons, span_app in Hs.
    destruct Hs as (H1 & H2 & m & Hm & Hs). rewrite !span_cons in Hs.
    destruct Hs as (H3 & H4 & H5 & ->%span_nil_inv).
    unfold at_begins_with, parse_begins_with. rewrite H1, Hf, (proj2 (at_token_true _ _ _) H2). cbn [andb].
    rewrite (proj2 (expect_token_Ok _ _ _ _ _ _) (conj H2 eq_refl)).
    rewrite (parse_key_operand_path_complete _ _ _ _ Hm Hg) by (by rewrite H3).
    rewrite (proj2 (expect_token_Ok _ _ _ _ _ _) (conj H3 eq_refl)).
    unfold parse_key_value. rewrite H4.
    by rewrite (proj2 (expect_token_Ok _ _ _ _ _ _) (conj H5 eq_refl)).
  - destruct (g_path_head _ _ Hg) as (t0 & rest & Etp & _).
    pose proof Hs as Hin. rewrite Etp in Hin. rewrite (span_inside _ _ _ _ Hin). clear Hin.
    rewrite span_app in Hs. destruct Hs as (m & Hm & Hs). pose proof (span_inside _ _ _ _ Hs) as Hin.
    rewrite !span_cons in Hs. destruct Hs as (H1 & H2 & ->%span_nil_inv).
    destruct (key_comparator_stop _ _ Hop) as (Hps & Hlp & Hbt). rewrite <- H1 in Hps, Hlp, Hbt.
    destruct (path_operand_complete _ _ _ _ Hm Hg Hps Hlp) as [-> ->]. rewrite Hin.
    rewrite (proj2 (at_token_false _ _ _) Hbt).
    rewrite (proj2 (parse_key_op_iff m op (m + 1))) by eauto.
    unfold parse_key_value. by rewrite H2.
  - rewrite (span_inside _ _ _ _ Hs). apply span_cons in Hs as [H1 Hs].
    pose proof (span_inside _ _ _ _ Hs) as Hin. apply span_cons in Hs as [H2 Hs].
    unfold at_begins_with, parse_key_operand, parse_key_value. rewrite H1, Hin.
    rewrite (proj2 (parse_key_op_iff _ op _) (ex_intro _ t (conj H2 (conj Hop (conj Hne eq_refl))))).
    by rewrite (parse_key_operand_path_complete _ _ _ _ Hs Hg Hstop).
  - destruct (g_path_head _ _ Hg) as (t0 & rest & Etp & _).
    pose proof Hs as Hin. rewrite Etp in Hin. rewrite (span_inside _ _ _ _ Hin). clear Hin.
    rewrite span_app in Hs. destruct Hs as (m & Hm & Hs). pose proof (span_inside _ _ _ _ Hs) as Hin.
    rewrite !span_cons in Hs. destruct Hs as (H1 & H2 & H3 & H4 & ->%span_nil_inv).
    destruct (path_operand_complete _ _ _ _ Hm Hg) as [-> ->]; [by rewrite H1..|].
    rewrite Hin, (proj2 (at_token_true _ _ _) H1). unfold parse_key_value. rewrite H2.
    rewrite (proj2 (expect_token_Ok _ _ _ _ _ _) (conj H3 eq_refl)). by rewrite H4.
Qed.

Lemma g_key_atom_head ts c : g_key_atom ts c ->
  exists t rest, ts = t :: rest /\ t <> TokLParen.
Proof.
  destruct 1; eauto; destruct (g_path_head _ _ ltac:(eassumption)) as (t0 & rest & -> & Ht);
    exists t0; eexists; (split; [reflexivity|]); by destruct t0.
Qed.

Lemma parse_key_clause_sound pos c pos' :
  parse_key_clause tokens pos = Ok (c, pos') -> exists ts, span tokens pos pos' ts /\ g_key_clause ts c.
Proof.
  unfold parse_key_clause. destruct (length tokens <=? pos); [done|].
  destruct (at_token tokens pos TokLParen) eqn:El.
  - apply at_token_true in El.
    destruct (parse_key_clause_inner tokens (pos + 1)) as [[c' p1]|] eqn:E; [|done].
    destruct (at_token tokens p1 TokRParen) eqn:Er; [|done]. apply at_token_true in Er.
    intros [= <- <-]. apply parse_key_clause_inner_sound in E as (ts & Hs & Hg).
    exists (TokLParen :: ts ++ [TokRParen]). split; [|by constructor].
    rewrite span_cons, span_app. split; [done|]. exists p1. split; [done|]. by apply span_one.
  - intros (ts & Hs & Hg)%parse_key_clause_inner_sound. exists ts. split; [done|]. by constructor.
Qed.

Lemma parse_key_clause_complete pos pos' ts c :
  span tokens pos pos' ts -> g_key_clause ts c -> path_stop (tokens !! pos') = true ->
  parse_key_clause tokens pos = Ok (c, pos').
Proof.
  intros Hs Hg Hstop. unfold parse_key_clause. destruct Hg as [ts c Hg|ts c Hg].
  - destruct (g_key_atom_head _ _ Hg) as (t & rest & -> & Hne).
    rewrite (span_inside _ _ _ _ Hs). pose proof (proj1 (proj1 (span_cons _ _ _ _ _) Hs)) as Ht.
    rewrite (proj2 (at_token_false _ _ _)) by congruence. by eapply parse_key_clause_inner_complete.
  - rewrite (span_inside _ _ _ _ Hs). rewrite span_cons, span_app in Hs.
    destruct Hs as (H1 & m & Hm & Hr). rewrite span_cons in Hr. destruct Hr as (H2 & ->%span_nil_inv).
    rewrite (proj2 (at_token_true _ _ _) H1).
    rewrite (parse_key_clause_inner_complete _ _ _ _ Hm Hg) by (by rewrite H2).
    by rewrite (proj2 (at_token_true _ _ _) H2).
Qed.
Lemma clauses_loop_sound fuel : forall acc pos l,
  pos <= length tokens -> clauses_loop tokens fuel acc pos = Ok l ->
  exists ts cs, l = acc ++ cs /\ span tokens pos (length tokens) ts /\ g_ands ts cs.
Proof.
  induction fuel as [|fuel IH]; intros acc pos l Hpos; cbn [clauses_loop]; [done|].
  destruct (Nat.ltb_spec pos (length tokens)) as [Hlt|Hge].
  - destruct (at_token tokens pos TokAnd) eqn:Ea; [|done]. apply at_token_true in Ea.
    destruct (parse_key_clause tokens (pos + 1)) as [[c p1]|] eqn:Ec; [|done].
    apply parse_key_clause_sound in Ec as (t & Hs & Hg). intros Hl.
    apply IH in Hl as (ts & cs & -> & Hs' & Hgs); [|eapply span_le; [exact Hs|lia]].
    exists (TokAnd :: t ++ ts), (c :: cs). rewrite <- app_assoc. split_and!; [done| |by constructor].
    rewrite span_cons, span_app. eauto.
  - intros [= <-]. exists [], []. rewrite app_nil_r. replace pos with (length tokens) by lia.
    split_and!; [done|apply span_nil|constructor].
Qed.

Lemma g_ands_stop pos ts cs :
  span tokens pos (length tokens) ts -> g_ands ts cs -> path_stop (tokens !! pos) = true.
Proof.
  intros Hs Hg. destruct Hg.
  - apply span_nil_inv in Hs as <-. by rewrite lookup_ge_None_2.
  - by apply span_cons in Hs as [-> _].
Qed.

Lemma clauses_loop_complete ts cs : g_ands ts cs -> forall fuel acc pos,
  span tokens pos (length tokens) ts -> length ts < fuel ->
  clauses_loop tokens fuel acc pos = Ok (acc ++ cs).
Proof.
  induction 1 as [|t c ts cs Ht Hg IH]; intros fuel acc pos Hs Hf;
    (destruct fuel as [|fuel]; [lia|]); cbn [clauses_loop].
  - apply span_nil_inv in Hs as <-. by rewrite Nat.ltb_irrefl, app_nil_r.
  - pose proof (span_inside _ _ _ _ Hs) as Hin. apply span_cons in Hs as [Ha Hs].
    rewrite Nat.ltb_antisym, Hin, (proj2 (at_token_true _ _ _) Ha). cbn [negb].
    apply span_app in Hs as (m & Hm & Hs). simpl in Hf. rewrite length_app in Hf.
    rewrite (parse_key_clause_complete _ _ _ _ Hm Ht (g_ands_stop _ _ _ Hs Hg)).
    rewrite IH; [by rewrite <- app_assoc|done|lia].
Qed.

Lemma conjunction_iff cs :
  match parse_key_clause tokens 0 with
  | Ok (c, pos) => clauses_loop tokens (S (length tokens)) [c] pos
  | Err e => Err e
  end = Ok cs <-> g_conjunction tokens cs.
Proof.
  split.
  - destruct (parse_key_clause tokens 0) as [[c pos]|] eqn:Ec; [|done].
    apply parse_key_clause_sound in Ec as (t & Hs & Hg). intros Hl.
    apply clauses_loop_sound in Hl as (ts & cs' & -> & Hs' & Hgs);
      [|eapply span_le; [exact Hs|lia]].
    exists t, c, ts, cs'. split_and!; try done. symmetry. apply span_all, span_app. eauto.
  - intros (t & c & ts & cs' & Htok & -> & Hg & Hgs).
    assert (span tokens 0 (length tokens) (t ++ ts)) as Hall by (by apply span_all).
    pose proof (span_length _ _ _ _ Hall) as Hlen. rewrite length_app in Hlen.
    apply span_app in Hall as (m & Ht & Hts).
    rewrite (parse_key_clause_complete _ _ _ _ Ht Hg (g_ands_stop _ _ _ Hts Hgs)).
    rewrite (clauses_loop_complete _ _ Hgs) by (done || lia). done.
Qed.
End Grammar.

(** ** The outer parentheses *)

Lemma outer_loop_balanced g : balanced g -> forall last i depth rest, (0 < depth)%Z ->
  outer_loop last i depth (g ++ rest) = outer_loop last (i + length g) depth rest.
Proof.
  induction 1 as [|t l Ht Hl IH|l k Hl IHl Hk IHk]; intros last i depth rest Hd.
  - by rewrite Nat.add_0_r.
  - cbn [app length]. rewrite Nat.add_succ_r, <- Nat.add_succ_l, <- IH by done.
    by destruct t.
  - cbn [app length]. cbn [outer_loop]. rewrite <- app_assoc, IHl by lia. cbn [app outer_loop].
    rewrite (proj2 (Z.eqb_neq _ _)) by lia. cbn [andb].
    replace (depth + 1 - 1)%Z with depth by lia. rewrite IHk by done.
    f_equal. rewrite length_app. simpl. lia.
Qed.

Lemma outer_match_group body : balanced body ->
  outer_parens_match (TokLParen :: body ++ [TokRParen]) = true.
Proof.
  intros Hb. unfold outer_parens_match. cbn [outer_loop]. rewrite outer_loop_balanced by (done || lia).
  cbn [outer_loop length]. rewrite length_app. simpl length.
  by rewrite (proj2 (Nat.ltb_ge _ _)) by lia.
Qed.

Lemma outer_match_prefix body rest : balanced body -> rest <> [] ->
  outer_parens_match (TokLParen :: body ++ TokRParen :: rest) = false.
Proof.
  intros Hb Hr. unfold outer_parens_match. cbn [outer_loop]. rewrite outer_loop_balanced by (done || lia).
  cbn [outer_loop length]. rewrite length_app. destruct rest; [done|]. simpl length.
  by rewrite (proj2 (Nat.ltb_lt _ _)) by lia.
Qed.

Lemma strip_outer_group body : balanced body ->
  strip_outer (TokLParen :: body ++ [TokRParen]) = body.
Proof.
  intros Hb. unfold strip_outer. rewrite outer_match_group by done.
  assert ((TokLParen :: body ++ [TokRParen]) !! (length (TokLParen :: body ++ [TokRParen]) - 1)
            = Some TokRParen) as Hl.
  { simpl. rewrite length_app. simpl. rewrite Nat.add_1_r, Nat.sub_0_r. simpl.
    by apply list_lookup_middle. }
  rewrite (proj2 (at_token_true _ _ _) Hl), (proj2 (at_token_true _ 0 TokLParen)) by done.
  simpl. rewrite length_app. simpl. rewrite Nat.add_1_r. simpl. rewrite Nat.sub_0_r.
  by rewrite drop_0, take_app_length.
Qed.

Lemma strip_outer_cases tokens :
  strip_outer tokens = tokens \/
  exists body, tokens = TokLParen :: body ++ [TokRParen] /\ outer_parens_match tokens = true /\
    strip_outer tokens = body.
Proof.
  unfold strip_outer. destruct (_ && _) eqn:E; [right|by left].
  rewrite !andb_true_iff in E. destruct E as (((Hlen & Hl) & Hr) & Hm).
  apply Nat.leb_le in Hlen. apply at_token_true in Hl, Hr.
  destruct tokens as [|t tokens]; [done|]. injection Hl as ->. simpl in Hlen, Hr.
  destruct (exists_last (l := tokens)) as (body & r & ->); [by destruct tokens; [simpl in Hlen; lia|]|].
  rewrite length_app, Nat.sub_0_r in Hr. simpl in Hr. rewrite Nat.add_1_r in Hr. simpl in Hr.
  rewrite list_lookup_middle in Hr by done. injection Hr as ->.
  exists body. split_and!; try done. simpl. rewrite length_app. simpl.
  rewrite Nat.add_1_r. simpl. by rewrite Nat.sub_0_r, drop_0, take_app_length.
Qed.

(** ** Clauses are balanced *)

Lemma g_path_balanced ts p : g_path ts p -> balanced ts.
Proof.
  destruct 1 as [t name rest q Ha Hs]. constructor; [by destruct Ha|]. clear Ha.
  induction Hs as [|t' n ts p Ha Hs IH|s i ts p Hi Hs IH]; repeat constructor; try done.
  by destruct Ha.
Qed.

Lemma comparator_not_paren t op : key_comparator t = Some op -> is_paren t = false.
Proof. by destruct t. Qed.

Lemma g_key_atom_balanced ts c : g_key_atom ts c -> balanced ts.
Proof.
  destruct 1 as [f tp path v Hf Hg|tp path t op v Hg Hop Hne|v t op tp path Hop Hne Hg|tp path lo hi Hg];
    apply g_path_balanced in Hg.
  - constructor; [done|].
    replace (tp ++ [TokComma; TokPlaceholder v; TokRParen])
      with ((tp ++ [TokComma; TokPlaceholder v]) ++ [TokRParen]) by (by rewrite <- app_assoc).
    apply balanced_group; [|constructor]. apply balanced_app; [done|]. by repeat constructor.
  - apply balanced_app; [done|]. apply comparator_not_paren in Hop. by repeat constructor.
  - apply comparator_not_paren in Hop. by repeat constructor.
  - apply balanced_app; [done|]. by repeat constructor.
Qed.

Lemma g_key_clause_balanced ts c : g_key_clause ts c -> balanced ts.
Proof.
  destruct 1 as [ts c Hg|ts c Hg]; apply g_key_atom_balanced in Hg; [done|].
  apply balanced_group; [done|constructor].
Qed.

Lemma g_conjunction_balanced ts cs : g_conjunction ts cs -> balanced ts.
Proof.
  intros (t & c & ts' & cs' & -> & -> & Hg & Hgs). apply balanced_app; [by eapply g_key_clause_balanced|].
  clear Hg. induction Hgs as [|t' c' ts cs Ht Hg IH]; constructor; [done|].
  apply balanced_app; [by eapply g_key_clause_balanced|done].
Qed.

(** A conjunction that is one parenthesised group is one clause in parentheses. *)
Lemma g_conjunction_group body cs :
  outer_parens_match (TokLParen :: body ++ [TokRParen]) = true ->
  g_conjunction (TokLParen :: body ++ [TokRParen]) cs -> g_conjunction body cs.
Proof.
  intros Hm (t & c & ts & cs' & Htok & -> & Hg & Hgs). destruct Hg as [t c Hg|t c Hg].
  { destruct (g_key_atom_head _ _ Hg) as (t0 & rest & -> & Hne). by injection Htok as <-. }
  simpl in Htok. injection Htok as Htok. rewrite <- app_assoc in Htok. cbn [app] in Htok.
  destruct Hgs as [|t' c' ts cs Ht Hg'].
  - apply app_inj_tail in Htok as [-> _]. exists t, c, [], []. rewrite app_nil_r.
    split_and!; try done; by constructor.
  - rewrite Htok, outer_match_prefix in Hm; [done|by eapply g_key_atom_balanced|done].
Qed.

(** The clauses a key condition's tokens derive. *)
Definition derives (tokens : list Token) (cs : list RawClause) : Prop :=
  ~ redundant tokens /\
  (g_conjunction tokens cs \/
   exists body, tokens = TokLParen :: body ++ [TokRParen] /\ g_conjunction body cs) /\
  Forall (fun c => exists name, raw_clause_path c = [PAttr name]) cs.

Lemma for_each_top_level cs :
  for_each (fun c => reject_nested_key_path (raw_clause_path c)) cs = Ok tt <->
  Forall (fun c => exists name, raw_clause_path c = [PAttr name]) cs.
Proof.
  induction cs as [|c cs IH]; simpl; [split; constructor|]. rewrite Forall_cons_iff, <- IH.
  unfold reject_nested_key_path. destruct (raw_clause_path c) as [|[n|i] [|]]; try (split; naive_solver).
Qed.

Lemma strip_outer_conjunction tokens cs :
  g_conjunction (strip_outer tokens) cs <->
  g_conjunction tokens cs \/
  exists body, tokens = TokLParen :: body ++ [TokRParen] /\ g_conjunction body cs.
Proof.
  split.
  - destruct (strip_outer_cases tokens) as [->|(body & Ht & _ & ->)]; [by left|]. right. eauto.
  - intros [Hg|(body & -> & Hg)].
    + destruct (strip_outer_cases tokens) as [->|(body & Ht & Hm & ->)]; [done|].
      subst tokens. by apply g_conjunction_group.
    + by rewrite strip_outer_group by (by eapply g_conjunction_balanced).
Qed.

Lemma parse_clauses_iff tokens cs : parse_clauses tokens = Ok cs <-> derives tokens cs.
Proof.
  unfold parse_clauses, derives. rewrite <- check_redundant_parens_iff, <- strip_outer_conjunction.
  rewrite <- conjunction_iff, <- for_each_top_level.
  destruct (check_redundant_parens tokens) as [[]|]; [|split; [done|by intros [? _]]].
  destruct (parse_key_clause (strip_outer tokens) 0) as [[c pos]|]; [|split; [done|by intros (_ & ? & _)]].
  destruct (clauses_loop _ _ [c] pos) as [l|]; [|split; [done|by intros (_ & ? & _)]]. split.
  - destruct (for_each _ l) as [[]|] eqn:E; [|done]. intros [= <-]. done.
  - intros (_ & [= <-] & ->). done.
Qed.

(** ** Classification *)

Definition is_eq (c : RawClause) : bool := match c with RawEq _ _ => true | _ => false end.

Definition eq_clause (pe : list PathElement * Expr) : SortKeyCondition := SKCompare pe.1 CEq pe.2.

(** Every clause of a key condition, whatever field holds it. *)
Definition kc_clauses (kc : KeyCondition) : list SortKeyCondition :=
  eq_clause (pk_path kc, pk_value kc) :: map eq_clause (extra_pk_conditions kc) ++
  option_list (sk_condition kc) ++ map eq_clause (extra_sk_conditions kc).

Definition classify (cs : list RawClause) : res KeyCondition :=
  match cs with
  | [a] => classify_single a
  | [a; b] => classify_pair a b
  | _ => classify_multi cs
  end.

Definition others (cs : list RawClause) : list RawClause := List.filter (fun c => negb (is_eq c)) cs.

(** At least one equality, at most one other condition. *)
Definition classifiable (cs : list RawClause) : Prop :=
  existsb is_eq cs = true /\ length (others cs) <= 1.

Lemma multi_loop_spec cs : forall eqs non_eq,
  match multi_loop eqs non_eq cs with
  | Ok (eqs', non_eq') =>
      length (option_list non_eq) + length (others cs) <= 1 /\
      length eqs' = length eqs + length (List.filter is_eq cs) /\
      Permutation (map eq_clause eqs' ++ option_list non_eq')
        (map eq_clause eqs ++ option_list non_eq ++ map raw_to_sk cs)
  | Err e => 1 < length (option_list non_eq) + length (others cs) /\ exists m, e = Fail m
  end.
Proof.
  induction cs as [|c cs IH]; intros eqs non_eq; cbn [multi_loop].
  - rewrite app_nil_r. simpl. split_and!; [by destruct non_eq; simpl; lia|lia|done].
  - assert (forall o, is_eq c = false -> match non_eq with
        | Some _ => kc_err "at most one non-equality condition is allowed"
        | None => multi_loop eqs (Some (raw_to_sk c)) cs
        end = o ->
      match o with
      | Ok (eqs', non_eq') =>
          length (option_list non_eq) + length (others (c :: cs)) <= 1 /\
          length eqs' = length eqs + length (List.filter is_eq (c :: cs)) /\
          Permutation (map eq_clause eqs' ++ option_list non_eq')
            (map eq_clause eqs ++ option_list non_eq ++ map raw_to_sk (c :: cs))
      | Err e => 1 < length (option_list non_eq) + length (others (c :: cs)) /\ exists m, e = Fail m
      end) as Hother.
    { intros o Hc <-. unfold others. simpl. rewrite Hc. simpl. destruct non_eq as [sk|].
      - simpl. split; [lia|eauto].
      - specialize (IH eqs (Some (raw_to_sk c))). simpl in IH. exact IH. }
    destruct c as [path value|path op value|path lo hi|path pre];
      try (by apply (Hother _ eq_refl eq_refl)). clear Hother.
    specialize (IH (eqs ++ [(path, value)]) non_eq). unfold others in *. simpl.
    destruct (multi_loop _ non_eq cs) as [[eqs' non_eq']|e]; [|done].
    destruct IH as (H1 & H2 & H3). split_and!; [done|rewrite H2, length_app; simpl; lia|].
    rewrite H3, map_app, <- app_assoc. simpl. apply Permutation_app_head.
    apply Permutation_middle.
Qed.

Lemma existsb_filter cs : existsb is_eq cs = true <-> 0 < length (List.filter is_eq cs).
Proof.
  induction cs as [|c cs IH]; simpl; [lia|]. destruct (is_eq c); simpl; [|done]. split; [lia|done].
Qed.

Lemma removelast_last_error {A : Type} (l : list A) x :
  last_error l = Some x -> l = removelast l ++ [x].
Proof.
  induction l as [|y l IH]; [done|]. destruct l as [|z l]; [by intros [= ->]|].
  intros Hl. cbn [removelast app]. f_equal. by apply IH.
Qed.

(** What classification makes of the clauses: all of them, if they can be classified. *)
Definition classified (cs : list RawClause) (r : res KeyCondition) : Prop :=
  match r with
  | Ok kc => classifiable cs /\ Permutation (kc_clauses kc) (map raw_to_sk cs)
  | Err e => ~ classifiable cs /\ exists m, e = Fail m
  end.

Lemma classify_multi_spec cs : classified cs (classify_multi cs).
Proof.
  unfold classified, classify_multi, classifiable. pose proof (existsb_filter cs) as He.
  pose proof (multi_loop_spec cs [] None) as Hl.
  destruct (multi_loop [] None cs) as [[eqs non_eq]|e]; simpl in Hl; [|split; [intros [_ ?]; lia|naive_solver]].
  destruct Hl as (H1 & H2 & H3). destruct eqs as [|[p v] eqs]; simpl in H2.
  { split; [intros [?%He _]; lia|eauto]. }
  destruct non_eq as [sk|]; [|destruct (last_error eqs) as [[p' v']|] eqn:El];
    (split; [rewrite He; lia|]); rewrite <- H3; unfold kc_clauses; simpl; apply perm_skip;
    rewrite ?app_nil_r; try done.
  rewrite (removelast_last_error _ _ El) at 2. by rewrite map_app.
Qed.

Lemma classify_spec cs : classified cs (classify cs).
Proof.
  destruct cs as [|a [|b [|c cs]]]; try apply classify_multi_spec.
  - destruct a; unfold classified, classifiable; simpl; naive_solver.
  - destruct a, b; unfold classified, classifiable; simpl; try naive_solver lia.
    all: (split; [split; [done|lia]|]); try done; apply perm_swap.
Qed.

(** C34. The key condition parser accepts exactly the conjunctions of clauses on
    top-level attributes, with no redundant parentheses, that have an equality and at
    most one other condition; and the key condition has every clause of the
    expression, once, in one of its fields. *)
Theorem parse_key_condition_grammar tokens :
  (forall kc, parse_key_condition tokens = Ok kc ->
     exists cs, derives tokens cs /\ classifiable cs /\
       Permutation (kc_clauses kc) (map raw_to_sk cs)) /\
  (forall cs, derives tokens cs -> classifiable cs ->
     exists kc, parse_key_condition tokens = Ok kc).
Proof.
  unfold parse_key_condition. split.
  - intros kc. destruct (parse_clauses tokens) as [cs|] eqn:E; [|done].
    apply parse_clauses_iff in E. change (classify cs = Ok kc -> exists cs, derives tokens cs /\
      classifiable cs /\ Permutation (kc_clauses kc) (map raw_to_sk cs)). intros Hc.
    pose proof (classify_spec cs) as Hs. rewrite Hc in Hs. destruct Hs. eauto.
  - intros cs Hd Hc. apply parse_clauses_iff in Hd. rewrite Hd.
    pose proof (classify_spec cs) as Hs.
    change (exists kc, classify cs = Ok kc). unfold classified in Hs.
    destruct (classify cs) as [kc|e]; [eauto|]. by destruct Hs.
Qed.

(** ** The parser returns *)

Section KeyReturns.
Variable tokens : list Token.

Lemma parse_key_value_returns pos : returns (parse_key_value tokens pos).
Proof. unfold parse_key_value. by destruct (tokens !! pos) as [[]|]. Qed.

Lemma parse_key_operand_path_returns pos : returns (parse_key_operand_path tokens pos).
Proof.
  unfold parse_key_operand_path. destruct (tokens !! pos) as [[]|]; try done; apply parse_path_returns.
Qed.

Lemma parse_key_operand_returns pos : returns (parse_key_operand tokens pos).
Proof.
  unfold parse_key_operand. destruct (tokens !! pos) as [[]|]; try done;
    apply returns_bind; auto using parse_path_returns, parse_key_value_returns; by intros [].
Qed.

Lemma parse_key_op_returns pos : (length tokens <=? pos) = false -> returns (parse_key_op tokens pos).
Proof.
  intros Hin%Nat.leb_gt. unfold parse_key_op.
  destruct (lookup_lt_is_Some_2 tokens pos Hin) as [t ->].
  destruct (key_comparator t) as [op|]; [|done]. by case_bool_decide.
Qed.

Lemma parse_key_clause_inner_returns pos : returns (parse_key_clause_inner tokens pos).
Proof.
  unfold parse_key_clause_inner. destruct (length tokens <=? pos); [done|].
  destruct (at_begins_with tokens pos).
  - unfold parse_begins_with. apply returns_bind; [apply expect_token_returns|]. intros p1 _.
    apply returns_bind; [apply parse_key_operand_path_returns|]. intros [path p2] _.
    apply returns_bind; [apply expect_token_returns|]. intros p3 _.
    apply returns_bind; [apply parse_key_value_returns|]. intros [v p4] _.
    by apply returns_bind; [apply expect_token_returns|].
  - apply returns_bind; [apply parse_key_operand_returns|]. intros [o p1] _.
    destruct (length tokens <=? p1) eqn:Hin; [done|]. destruct o as [path|v].
    + destruct (at_token tokens p1 TokBetween).
      * apply returns_bind; [apply parse_key_value_returns|]. intros [lo p2] _.
        apply returns_bind; [apply expect_token_returns|]. intros p3 _.
        apply returns_bind; [apply parse_key_value_returns|]. by intros [].
      * apply returns_bind; [by apply parse_key_op_returns|]. intros [op p2] _.
        apply returns_bind; [apply parse_key_value_returns|]. by intros [].
    + apply returns_bind; [by apply parse_key_op_returns|]. intros [op p2] _.
      apply returns_bind; [apply parse_key_operand_path_returns|]. by intros [].
Qed.

Lemma parse_key_clause_returns pos : returns (parse_key_clause tokens pos).
Proof.
  unfold parse_key_clause. destruct (length tokens <=? pos); [done|].
  destruct (at_token tokens pos TokLParen); [|apply parse_key_clause_inner_returns].
  apply returns_bind; [apply parse_key_clause_inner_returns|]. intros [c p] _.
  by destruct (at_token tokens p TokRParen).
Qed.

Lemma parse_key_clause_advances pos c pos' : parse_key_clause tokens pos = Ok (c, pos') -> pos < pos'.
Proof.
  intros (ts & Hs & Hg)%parse_key_clause_sound. apply span_length in Hs.
  assert (ts <> []) as Hne.
  { destruct Hg as [ts c Hg|]; [|done]. by destruct (g_key_atom_head _ _ Hg) as (t & rest & -> & _). }
  destruct ts; [done|]. simpl in Hs. lia.
Qed.

Lemma clauses_loop_returns fuel : forall acc pos,
  0 < fuel -> length tokens < pos + fuel -> returns (clauses_loop tokens fuel acc pos).
Proof.
  induction fuel as [|fuel IH]; intros acc pos Hf Hl; [lia|]. cbn [clauses_loop].
  destruct (Nat.ltb_spec pos (length tokens)); [|done].
  destruct (at_token tokens pos TokAnd); [|done].
  apply returns_bind; [apply parse_key_clause_returns|].
  intros [c p1] Hc%parse_key_clause_advances. apply IH; lia.
Qed.
End KeyReturns.

(** The key condition parser returns on every token list: the loop's bound is never
    reached and no token index is out of range. *)
Theorem parse_key_condition_returns tokens : returns (parse_key_condition tokens).
Proof.
  apply returns_bind.
  - unfold parse_clauses. destruct (check_redundant_parens tokens); [|done].
    apply returns_bind; [apply parse_key_clause_returns|].
    intros [c pos] Hc%parse_key_clause_advances.
    apply returns_bind; [apply clauses_loop_returns; lia|]. intros cs _.
    apply returns_bind; [|done]. clear. induction cs as [|c cs IH]; [done|].
    apply returns_bind; [|done]. by destruct c as [[|[] []]|[|[] []]|[|[] []]|[|[] []]].
  - intros cs _. change (returns (classify cs)). pose proof (classify_spec cs) as Hs.
    unfold classified in Hs. destruct (classify cs) as [|e]; [done|].
    by destruct Hs as [_ [m ->]].
Qed.

(** ** Equalities *)

(** A comparison for equality is an equality clause. *)
Definition proper (c : RawClause) : Prop := match c with RawCompare _ op _ => op <> CEq | _ => True end.

Lemma raw_comparison_proper path op value : proper (raw_comparison path op value).
Proof. unfold raw_comparison. by case_bool_decide. Qed.

Lemma g_key_clause_proper ts c : g_key_clause ts c -> proper c.
Proof. destruct 1 as [ts c Ha|ts c Ha]; destruct Ha; simpl; try done; apply raw_comparison_proper. Qed.

Lemma g_conjunction_proper ts cs : g_conjunction ts cs -> Forall proper cs.
Proof.
  intros (t & c & ts' & cs' & _ & -> & Hc & Hs). constructor; [by eapply g_key_clause_proper|].
  induction Hs; constructor; [by eapply g_key_clause_proper|done].
Qed.

Lemma parse_clauses_proper tokens cs : parse_clauses tokens = Ok cs -> Forall proper cs.
Proof. intros (_ & [Hg|(body & _ & Hg)] & _)%parse_clauses_iff; by eapply g_conjunction_proper. Qed.

(** The equalities of a parsed key condition are equality clauses of the text. *)
Lemma parsed_equality tokens kc path value : parse_key_condition tokens = Ok kc ->
  In (SKCompare path CEq value) (kc_clauses kc) ->
  exists cs, parse_clauses tokens = Ok cs /\ In (RawEq path value) cs.
Proof.
  unfold parse_key_condition. destruct (parse_clauses tokens) as [cs|] eqn:Ep; [|done].
  intros Hk Hin. exists cs. split; [done|]. pose proof (classify_spec cs) as Hc.
  assert (classify cs = Ok kc) as E by exact Hk. rewrite E in Hc. destruct Hc as [_ Hp].
  rewrite Hp in Hin. apply in_map_iff in Hin as (c & Ec & Hc).
  apply parse_clauses_proper in Ep. rewrite List.Forall_forall in Ep. specialize (Ep c Hc).
  destruct c; simpl in *; simplify_eq; done.
Qed.

(** A clause of a parsed key condition is on a top-level attribute. *)
Lemma parsed_path tokens kc sk : parse_key_condition tokens = Ok kc -> In sk (kc_clauses kc) ->
  exists name, sk_path sk = [PAttr name].
Proof.
  unfold parse_key_condition. destruct (parse_clauses tokens) as [cs|] eqn:Ep; [|done].
  intros Hk Hin. pose proof (classify_spec cs) as Hc.
  assert (classify cs = Ok kc) as E by exact Hk. rewrite E in Hc. destruct Hc as [_ Hp].
  rewrite Hp in Hin. apply in_map_iff in Hin as (c & <- & Hc).
  apply parse_clauses_iff in Ep as (_ & _ & Ht). rewrite List.Forall_forall in Ht.
  destruct (Ht c Hc) as [name Hn]. exists name. by destruct c.
Qed.
