(* ===== verification/KeyResolve.v ===== *)
(** * KeyConditionExpression: clauses by key schema

    The methods of [KeyCondition] in [crates/core/src/expression/key_condition.rs]
    that assign each clause to a key attribute once the key schema is known.  The
    check of a clause's value is an argument, as in the source. *)

From S2P Require Import Prelude BTree Types Error Decimal Ast Resolver KeyCondition.

Definition set_sk (kc : KeyCondition) (path : list PathElement) (value : Expr)
    (sk : option SortKeyCondition) : KeyCondition :=
  {| pk_path := path; pk_value := value; extra_pk_conditions := extra_pk_conditions kc;
     sk_condition := sk; extra_sk_conditions := extra_sk_conditions kc |}.

Definition undefined_name {A : Type} (ref_name : string) : res A :=
  kc_err ("An expression attribute name used in the document path is not defined; attribute name: #"
          +:+ ref_name).

Definition resolve_path_attr (path : list PathElement) (names : gmap string string) : res string :=
  match path with
  | PAttr name :: _ =>
      match strip_prefix_char "#" name with
      | Some ref_name =>
          match names !! ref_name with
          | Some n => Ok n
          | None => undefined_name ref_name
          end
      | None => Ok name
      end
  | _ => fail "Invalid key condition path"
  end.

Definition resolve_pk_sk (kc : KeyCondition) (pk_attr : string) (names : gmap string string)
    : res KeyCondition :=
  match sk_condition kc with
  | Some (SKCompare sk_path CEq sk_value) =>
      match pk_path kc with
      | PAttr name :: _ =>
          let? pk_name :=
            match strip_prefix_char "#" name with
            | Some ref_name =>
                match names !! ref_name with
                | Some n => Ok n
                | None => undefined_name ref_name
                end
            | None => Ok name
            end in
          if String.eqb pk_name pk_attr then Ok kc
          else Ok (set_sk kc sk_path sk_value (Some (SKCompare (pk_path kc) CEq (pk_value kc))))
      | _ => Ok kc
      end
  | _ => Ok kc
  end.

(** [iter().position(|a| *a == name)]. *)
Fixpoint position (name : string) (attrs : list string) : option nat :=
  match attrs with
  | [] => None
  | a :: rest => if String.eqb a name then Some 0 else S <$> position name rest
  end.

(** A clause with the position of its attribute among the key attributes. *)
Definition Placed : Type := nat * (list PathElement * Expr).

(** [sort_by_key(|(pos, _, _)| *pos)], a stable sort. *)
Fixpoint insert_placed (x : Placed) (l : list Placed) : list Placed :=
  match l with
  | [] => [x]
  | y :: l' => if x.1 <=? y.1 then x :: l else y :: insert_placed x l'
  end.

Fixpoint sort_placed (l : list Placed) : list Placed :=
  match l with
  | [] => []
  | x :: l' => insert_placed x (sort_placed l')
  end.

(** [windows(2).any(|w| w[0].0 == w[1].0)]. *)
Fixpoint adjacent_equal (l : list Placed) : bool :=
  match l with
  | x :: ((y :: _) as l') => (x.1 =? y.1) || adjacent_equal l'
  | _ => false
  end.

(** [iter().any(|(p, _, _)| *p == pos)]. *)
Definition placed_at (pos : nat) (l : list Placed) : bool := existsb (fun x => x.1 =? pos) l.

(** The names of [attrs], from position [pos] on, that have no clause in [l]. *)
Fixpoint unplaced (pos : nat) (attrs : list string) (l : list Placed) : list string :=
  match attrs with
  | [] => []
  | a :: rest => if placed_at pos l then unplaced (S pos) rest l else a :: unplaced (S pos) rest l
  end.

(** The loop that gives every equality its attribute. *)
Fixpoint place_loop (hash_attrs range_attrs : list string) (names : gmap string string)
    (hash_eqs range_eqs : list Placed) (other_eqs all_eq : list (list PathElement * Expr))
    : res (list Placed * list Placed * list (list PathElement * Expr)) :=
  match all_eq with
  | [] => Ok (hash_eqs, range_eqs, other_eqs)
  | (path, value) :: rest =>
      let? attr_name := resolve_path_attr path names in
      match position attr_name hash_attrs with
      | Some pos =>
          place_loop hash_attrs range_attrs names (hash_eqs ++ [(pos, (path, value))]) range_eqs
            other_eqs rest
      | None =>
          match position attr_name range_attrs with
          | Some pos =>
              place_loop hash_attrs range_attrs names hash_eqs (range_eqs ++ [(pos, (path, value))])
                other_eqs rest
          | None =>
              place_loop hash_attrs range_attrs names hash_eqs range_eqs
                (other_eqs ++ [(path, value)]) rest
          end
      end
  end.

Definition is_some_and {A : Type} (o : option A) (p : A -> bool) : bool :=
  match o with
  | Some a => p a
  | None => false
  end.

(** [iter().max()] of positions. *)
Definition max_position (l : list nat) : option nat :=
  match l with
  | [] => None
  | x :: l' => Some (fold_left Nat.max l' x)
  end.

(** The first RANGE attribute without a condition, from position [pos] on. *)
Fixpoint first_missing (pos : nat) (attrs : list string) (range_eqs : list Placed)
    (non_eq_pos : option nat) : option string :=
  match attrs with
  | [] => None
  | a :: rest =>
      if negb (placed_at pos range_eqs) && negb (bool_decide (non_eq_pos = Some pos)) then Some a
      else first_missing (S pos) rest range_eqs non_eq_pos
  end.

Definition N_of_nat_string (n : nat) : string := N_to_string (N.of_nat n).

Definition duplicate_condition {A : Type} : res A :=
  kc_err "KeyConditionExpressions must only contain one condition per key".

Section ValueCheck.
Variable value_check : list PathElement -> Expr -> res unit.

Definition check_pairs (l : list (list PathElement * Expr)) : res unit :=
  for_each (fun pv => value_check pv.1 pv.2) l.

Definition check_sk (sk : option SortKeyCondition) : res unit :=
  match sk with
  | Some (SKCompare path _ value) => value_check path value
  | Some (SKBetween path low high) =>
      let? _ := value_check path low in
      value_check path high
  | Some (SKBeginsWith path prefix) => value_check path prefix
  | None => Ok tt
  end.

Definition for_each_clause (kc : KeyCondition) : res unit :=
  let? _ := value_check (pk_path kc) (pk_value kc) in
  let? _ := check_pairs (extra_pk_conditions kc) in
  let? _ := check_pairs (extra_sk_conditions kc) in
  check_sk (sk_condition kc).

(** The equality clauses of a key condition and the one that is not an equality. *)
Definition split_clauses (kc : KeyCondition)
    : list (list PathElement * Expr) * option SortKeyCondition :=
  let all_eq := (pk_path kc, pk_value kc) :: extra_pk_conditions kc ++ extra_sk_conditions kc in
  match sk_condition kc with
  | Some (SKCompare path CEq value) => (all_eq ++ [(path, value)], None)
  | Some other => (all_eq, Some other)
  | None => (all_eq, None)
  end.

(** The checks on the placed clauses, in the order of the source. *)
Definition check_placed (hash_attrs range_attrs : list string) (hash_eqs range_eqs : list Placed)
    (other_eqs : list (list PathElement * Expr)) (non_eq : option SortKeyCondition)
    (non_eq_pos non_eq_hash_pos : option nat) : res unit :=
  if adjacent_equal hash_eqs || adjacent_equal range_eqs
     || is_some_and non_eq_pos (fun p => placed_at p range_eqs)
     || is_some_and non_eq_hash_pos (fun p => placed_at p hash_eqs)
  then duplicate_condition
  else
    let condition_count :=
      length hash_eqs + length range_eqs + length other_eqs + length (option_list non_eq) in
    let key_attribute_count := length hash_attrs + length range_attrs in
    if key_attribute_count <? condition_count then
      fail ("The number of query conditions (" +:+ N_of_nat_string condition_count +:+
            ") exceeds the number of key attributes defined in the schema (" +:+
            N_of_nat_string key_attribute_count +:+ ")")
    else
      match unplaced 0 hash_attrs hash_eqs with
      | _ :: _ as missing_hash =>
          fail ("HASH key attributes " +:+ join ", " missing_hash +:+
                " must have equality conditions specified in the query")
      | [] =>
          let? _ :=
            match max_position (map fst range_eqs ++ option_list non_eq_pos) with
            | Some last_pos =>
                match unplaced 0 (take last_pos range_attrs) range_eqs with
                | _ :: _ as without_eq =>
                    fail ("RANGE key attributes " +:+ join ", " without_eq +:+
                          " must have equality conditions specified in the query because a condition is present on key attribute "
                          +:+ default "" (range_attrs !! last_pos))
                | [] => Ok tt
                end
            | None => Ok tt
            end in
          let? _ := check_pairs (map snd (hash_eqs ++ range_eqs)) in
          let? _ := check_pairs other_eqs in
          let? _ := check_sk non_eq in
          if negb (bool_decide (length other_eqs = 0))
             || (bool_decide (length (option_list non_eq) = 1) && bool_decide (non_eq_pos = None)
                 && bool_decide (non_eq_hash_pos = None))
          then
            match hash_attrs with
            | [] => Err Panic
            | first :: _ =>
                fail ("Query condition missed key schema element: " +:+
                      default first (first_missing 0 range_attrs range_eqs non_eq_pos))
            end
          else Ok tt
      end.

Definition resolve_multipart_with (kc : KeyCondition) (hash_attrs range_attrs : list string)
    (names : gmap string string) : res KeyCondition :=
  if (length hash_attrs <=? 1) && (length range_attrs <=? 1) then Ok kc
  else
    let '(all_eq, non_eq) := split_clauses kc in
    let? (hash_eqs, range_eqs, other_eqs) :=
      place_loop hash_attrs range_attrs names [] [] [] all_eq in
    let? non_eq_attr :=
      match non_eq with
      | Some cond => let? a := resolve_path_attr (sk_path cond) names in Ok (Some a)
      | None => Ok None
      end in
    let non_eq_pos := match non_eq_attr with Some a => position a range_attrs | None => None end in
    let non_eq_hash_pos := match non_eq_attr with Some a => position a hash_attrs | None => None end in
    let hash_eqs := sort_placed hash_eqs in
    let range_eqs := sort_placed range_eqs in
    let? _ := check_placed hash_attrs range_attrs hash_eqs range_eqs other_eqs non_eq
                non_eq_pos non_eq_hash_pos in
    let '(path, value, extra_pk) :=
      match map snd hash_eqs with
      | (path, value) :: rest => (path, value, rest)
      | [] => (pk_path kc, pk_value kc, [])
      end in
    let '(sk, extra_sk) :=
      match non_eq, map snd range_eqs with
      | Some cond, rest => (Some cond, rest)
      | None, [] => (None, [])
      | None, (path, value) :: rest => (Some (SKCompare path CEq value), rest)
      end in
    Ok {| pk_path := path; pk_value := value; extra_pk_conditions := extra_pk;
          sk_condition := sk; extra_sk_conditions := extra_sk |}.

Definition resolve_key_schema_with (kc : KeyCondition) (key_schema : list KeySchemaElement)
    (names : gmap string string) : res KeyCondition :=
  if is_multipart_key_schema key_schema then
    resolve_multipart_with kc (map ks_attribute_name (hash_key_elements key_schema))
      (map ks_attribute_name (range_key_elements key_schema)) names
  else
    let? _ := for_each_clause kc in
    match List.find (fun ks => bool_decide (ks_key_type ks = Hash)) key_schema with
    | Some hash => resolve_pk_sk kc (ks_attribute_name hash) names
    | None => Ok kc
    end.
End ValueCheck.

Definition resolve_multipart (kc : KeyCondition) (hash_attrs range_attrs : list string)
    (names : gmap string string) : res KeyCondition :=
  resolve_multipart_with (fun _ _ => Ok tt) kc hash_attrs range_attrs names.

Definition resolve_key_schema (kc : KeyCondition) (key_schema : list KeySchemaElement)
    (names : gmap string string) : res KeyCondition :=
  resolve_key_schema_with (fun _ _ => Ok tt) kc key_schema names.

(** ** Positions *)

Lemma position_Some name attrs p : position name attrs = Some p -> attrs !! p = Some name.
Proof.
  revert p. induction attrs as [|a attrs IH]; intros p; simpl; [done|].
  destruct (String.eqb_spec a name) as [->|]; [by intros [= <-]|].
  destruct (position name attrs) as [q|]; [|done]. intros [= <-]. simpl. by apply IH.
Qed.

(** The clauses of [l] are on the attributes of [attrs] at their positions. *)
Definition placed_on (names : gmap string string) (attrs : list string) (l : list Placed) : Prop :=
  Forall (fun x => exists a, resolve_path_attr x.2.1 names = Ok a /\ attrs !! x.1 = Some a) l.

Lemma place_loop_spec hash_attrs range_attrs names all_eq : forall he re oe he' re' oe',
  place_loop hash_attrs range_attrs names he re oe all_eq = Ok (he', re', oe') ->
  placed_on names hash_attrs he -> placed_on names range_attrs re ->
  placed_on names hash_attrs he' /\ placed_on names range_attrs re' /\
  Permutation (map snd he' ++ map snd re' ++ oe') (map snd he ++ map snd re ++ oe ++ all_eq).
Proof.
  induction all_eq as [|[path value] rest IH]; intros he re oe he' re' oe'; cbn [place_loop].
  - intros [= <- <- <-]. by rewrite app_nil_r.
  - destruct (resolve_path_attr path names) as [a|] eqn:Ea; [|done].
    destruct (position a hash_attrs) as [p|] eqn:Ep;
      [|destruct (position a range_attrs) as [q|] eqn:Eq]; intros Hl Hh Hr.
    + apply position_Some in Ep. apply IH in Hl as (H1 & H2 & H3); [|apply Forall_app; eauto 6|done].
      split_and!; [done..|]. rewrite H3, map_app. simpl. rewrite <- !app_assoc. simpl.
      apply Permutation_app_head. rewrite !app_assoc. apply Permutation_middle.
    + apply position_Some in Eq. apply IH in Hl as (H1 & H2 & H3); [|done|apply Forall_app; eauto 6].
      split_and!; [done..|]. rewrite H3, map_app. simpl. rewrite <- !app_assoc. simpl.
      do 2 apply Permutation_app_head. apply Permutation_middle.
    + apply IH in Hl as (H1 & H2 & H3); [|done..]. split_and!; [done..|].
      by rewrite H3, <- !app_assoc.
Qed.

Lemma insert_placed_perm x l : Permutation (insert_placed x l) (x :: l).
Proof.
  induction l as [|y l IH]; simpl; [done|]. destruct (x.1 <=? y.1); [done|].
  rewrite IH. apply perm_swap.
Qed.

Lemma sort_placed_perm l : Permutation (sort_placed l) l.
Proof. induction l as [|x l IH]; simpl; [done|]. by rewrite insert_placed_perm, IH. Qed.

(** Positions in order, from [m] on, and strictly so. *)
Fixpoint ascending (m : nat) (l : list Placed) : Prop :=
  match l with
  | [] => True
  | x :: l' => m <= x.1 /\ ascending x.1 l'
  end.

Fixpoint increasing (m : nat) (l : list nat) : Prop :=
  match l with
  | [] => True
  | x :: l' => m <= x /\ increasing (S x) l'
  end.

Lemma insert_placed_ascending x l : forall m,
  ascending m l -> m <= x.1 -> ascending m (insert_placed x l).
Proof.
  induction l as [|y l IH]; intros m Hs Hm; simpl; [done|]. destruct Hs as [Hy Hs].
  destruct (Nat.leb_spec x.1 y.1); simpl; [done|]. split; [done|]. apply IH; [done|lia].
Qed.

Lemma sort_placed_ascending l : ascending 0 (sort_placed l).
Proof. induction l; simpl; [done|]. apply insert_placed_ascending; [done|lia]. Qed.

Lemma ascending_increasing l : forall m,
  ascending m l -> adjacent_equal l = false -> increasing m (map fst l).
Proof.
  induction l as [|x l IH]; intros m Hs Ha; simpl; [done|]. destruct Hs as [Hm Hs].
  split; [done|]. destruct l as [|y l]; [done|].
  cbn [adjacent_equal] in Ha. apply orb_false_iff in Ha as [Hne Ha]. apply Nat.eqb_neq in Hne.
  apply IH; [|done]. simpl in *. split; [lia|]. tauto.
Qed.

Lemma increasing_ge m l p : increasing m l -> In p l -> m <= p.
Proof.
  revert m. induction l as [|x l IH]; intros m; simpl; [done|].
  intros [Hx Hl] [->|Hp]; [done|]. specialize (IH _ Hl Hp). lia.
Qed.

Lemma increasing_seq l : forall m n,
  increasing m l -> (forall p, In p l <-> m <= p < n) -> l = seq m (n - m).
Proof.
  induction l as [|x l IH]; intros m n Hi Hin.
  - destruct (Nat.le_gt_cases n m) as [|Hlt].
    + by replace (n - m) with 0 by lia.
    + exfalso. apply (Hin m). lia.
  - destruct Hi as [Hx Hi]. pose proof (proj1 (Hin x) (or_introl eq_refl)) as Hxn.
    assert (x = m) as ->.
    { destruct (proj2 (Hin m)) as [|Hm]; [lia|done|]. pose proof (increasing_ge _ _ _ Hi Hm). lia. }
    replace (n - m) with (S (n - S m)) by lia. simpl. f_equal. apply IH; [done|].
    intros p. split.
    + intros Hp. pose proof (increasing_ge _ _ _ Hi Hp). pose proof (proj1 (Hin p) (or_intror Hp)). lia.
    + intros Hp. destruct (proj2 (Hin p)) as [|]; [lia|lia|done].
Qed.

Lemma placed_at_In p l : placed_at p l = true <-> In p (map fst l).
Proof.
  unfold placed_at. rewrite existsb_exists, in_map_iff. setoid_rewrite Nat.eqb_eq. naive_solver.
Qed.

Lemma unplaced_nil pos attrs l :
  unplaced pos attrs l = [] -> forall i, i < length attrs -> In (pos + i) (map fst l).
Proof.
  revert pos. induction attrs as [|a attrs IH]; intros pos; simpl; [lia|].
  destruct (placed_at pos l) eqn:E; [|done]. intros Hu [|i] Hi.
  - rewrite Nat.add_0_r. by apply placed_at_In.
  - rewrite Nat.add_succ_r, <- Nat.add_succ_l. apply IH; [done|lia].
Qed.

Lemma placed_on_lt names attrs l p : placed_on names attrs l -> In p (map fst l) -> p < length attrs.
Proof.
  intros Hl (x & <- & Hx)%in_map_iff. unfold placed_on in Hl. rewrite List.Forall_forall in Hl.
  destruct (Hl x Hx) as (a & _ & Ha). by apply lookup_lt_Some in Ha.
Qed.

Lemma placed_on_perm names attrs l l' :
  Permutation l l' -> placed_on names attrs l -> placed_on names attrs l'.
Proof. intros Hp. unfold placed_on. by rewrite Hp. Qed.

(** Clauses at the positions [m, m + 1, ...] are on the attributes from [m] on. *)
Lemma placed_on_seq names attrs l : forall m,
  placed_on names attrs l -> map fst l = seq m (length l) ->
  Forall2 (fun c a => resolve_path_attr c.1 names = Ok a) (map snd l) (take (length l) (drop m attrs)).
Proof.
  induction l as [|x l IH]; intros m Hl Hp; simpl; [constructor|].
  unfold placed_on in Hl. rewrite Forall_cons_iff in Hl. destruct Hl as [(a & Ha & Hm) Hl].
  simpl in Hp. injection Hp as Hx Hp. rewrite Hx in Hm. rewrite (drop_S _ _ _ Hm). simpl.
  constructor; [done|]. by apply IH.
Qed.

(** ** What the checks ensure *)

Lemma max_position_Some l m : max_position l = Some m -> In m l /\ forall x, In x l -> x <= m.
Proof.
  destruct l as [|x l]; [done|]. simpl. intros [= <-]. revert x.
  induction l as [|y l IH]; intros x; simpl; [split; [by left|]; intros ? [->|[]]; lia|].
  destruct (IH (Nat.max x y)) as [Hin Hmax]. split.
  - destruct Hin as [<-|Hin]; [|auto]. destruct (Nat.max_spec x y) as [[_ ->]|[_ ->]]; auto.
  - intros z [->|[->|Hz]].
    + pose proof (Hmax (Nat.max z y) (or_introl eq_refl)). lia.
    + pose proof (Hmax (Nat.max x z) (or_introl eq_refl)). lia.
    + apply Hmax. by right.
Qed.

Lemma max_position_None l : max_position l = None -> l = [].
Proof. by destruct l. Qed.

Section Checks.
Context (value_check : list PathElement -> Expr -> res unit).
Context (names : gmap string string) (hash_attrs range_attrs : list string).
Context (hash_eqs range_eqs : list Placed).
Context (other_eqs : list (list PathElement * Expr)) (non_eq : option SortKeyCondition).
Context (non_eq_pos non_eq_hash_pos : option nat).

Lemma check_placed_facts :
  check_placed value_check hash_attrs range_attrs hash_eqs range_eqs other_eqs non_eq
    non_eq_pos non_eq_hash_pos = Ok tt ->
  (adjacent_equal hash_eqs = false /\ adjacent_equal range_eqs = false) /\
  (forall p, non_eq_pos = Some p -> ~ In p (map fst range_eqs)) /\
  (forall p, non_eq_hash_pos = Some p -> ~ In p (map fst hash_eqs)) /\
  unplaced 0 hash_attrs hash_eqs = [] /\
  (forall m, max_position (map fst range_eqs ++ option_list non_eq_pos) = Some m ->
     unplaced 0 (take m range_attrs) range_eqs = []) /\
  other_eqs = [] /\
  (non_eq = None \/ non_eq_pos <> None \/ non_eq_hash_pos <> None).
Proof.
  unfold check_placed. destruct (_ || _) eqn:Hdup; [done|]. rewrite !orb_false_iff in Hdup.
  destruct Hdup as (((H1 & H2) & H3) & H4). destruct (_ <? _); [done|].
  destruct (unplaced 0 hash_attrs hash_eqs) eqn:Hu; [|done]. intros Hk.
  assert (forall m, max_position (map fst range_eqs ++ option_list non_eq_pos) = Some m ->
     unplaced 0 (take m range_attrs) range_eqs = []) as Hr.
  { intros m Hm. rewrite Hm in Hk. by destruct (unplaced 0 (take m range_attrs) range_eqs). }
  do 4 match type of Hk with
  | match ?r with Ok _ => _ | Err _ => _ end = _ => destruct r as [_|]; [|done]
  end.
  destruct (_ || _) eqn:Ho; [by destruct hash_attrs|]. apply orb_false_iff in Ho as [Ho Hne].
  split_and!; try done.
  - intros p ->. simpl in H3. rewrite <- placed_at_In. by rewrite H3.
  - intros p ->. simpl in H4. rewrite <- placed_at_In. by rewrite H4.
  - apply negb_false_iff, bool_decide_eq_true in Ho. by destruct other_eqs.
  - destruct non_eq; [|by left]. right. rewrite !andb_false_iff, !bool_decide_eq_false in Hne.
    simpl in Hne. tauto.
Qed.

Hypothesis Hhash : placed_on names hash_attrs hash_eqs.
Hypothesis Hrange : placed_on names range_attrs range_eqs.

Lemma hash_positions :
  increasing 0 (map fst hash_eqs) -> unplaced 0 hash_attrs hash_eqs = [] ->
  map fst hash_eqs = seq 0 (length hash_attrs).
Proof.
  intros Hi Hu. rewrite <- (Nat.sub_0_r (length hash_attrs)). apply increasing_seq; [done|].
  intros p. split.
  - intros Hp. split; [lia|]. by eapply placed_on_lt.
  - intros [_ Hp]. by apply (unplaced_nil 0 _ _ Hu).
Qed.

Lemma range_positions :
  increasing 0 (map fst range_eqs) ->
  (forall p, non_eq_pos = Some p -> p < length range_attrs /\ ~ In p (map fst range_eqs)) ->
  (forall m, max_position (map fst range_eqs ++ option_list non_eq_pos) = Some m ->
     unplaced 0 (take m range_attrs) range_eqs = []) ->
  exists n, map fst range_eqs = seq 0 n /\ forall p, non_eq_pos = Some p -> p = n.
Proof.
  intros Hi Hne Hmax. destruct (max_position _) as [m|] eqn:Em.
  2: { apply max_position_None, app_nil in Em as [E1 E2]. exists 0. rewrite E1. split; [done|].
       by intros p ->. }
  apply max_position_Some in Em as [Hin Hge]. specialize (Hmax m eq_refl).
  assert (m < length range_attrs) as Hm.
  { apply in_app_iff in Hin as [Hin|Hin]; [by eapply placed_on_lt|].
    destruct non_eq_pos as [p|]; [|done]. destruct Hin as [->|[]]. by apply Hne. }
  assert (forall i, i < m -> In i (map fst range_eqs)) as Hbelow.
  { intros i Hlt. apply (unplaced_nil 0 _ _ Hmax). rewrite length_take. lia. }
  setoid_rewrite in_app_iff in Hge. apply in_app_iff in Hin. destruct non_eq_pos as [p|]; simpl in *.
  - destruct (Hne p eq_refl) as [_ Hnot]. pose proof (Hge p ltac:(auto)) as Hpm.
    assert (m = p) as ->.
    { destruct (decide (p = m)); [done|]. destruct Hnot. apply Hbelow. lia. }
    exists p. split; [|by intros ? [= <-]]. rewrite <- (Nat.sub_0_r p). apply increasing_seq; [done|].
    intros q. split; [|intros [_ Hq]; auto]. intros Hq. specialize (Hge q ltac:(auto)).
    assert (q <> p) by (by intros ->). lia.
  - exists (S m). split; [|done]. rewrite <- (Nat.sub_0_r (S m)). apply increasing_seq; [done|].
    destruct Hin as [Hin|[]]. intros q. split.
    + intros Hq. specialize (Hge q ltac:(auto)). lia.
    + intros Hq. destruct (decide (q = m)) as [->|]; [done|]. apply Hbelow. lia.
Qed.
End Checks.

(** ** The fields after resolution *)

(** The RANGE equalities of a resolved condition, and its condition that is not one. *)
Definition range_equalities (kc : KeyCondition) : list (list PathElement * Expr) :=
  match sk_condition kc with
  | Some (SKCompare path CEq value) => (path, value) :: extra_sk_conditions kc
  | _ => extra_sk_conditions kc
  end.

Definition hash_equalities (kc : KeyCondition) : list (list PathElement * Expr) :=
  (pk_path kc, pk_value kc) :: extra_pk_conditions kc.

Definition range_tail (kc : KeyCondition) : option SortKeyCondition :=
  match sk_condition kc with
  | Some (SKCompare _ CEq _) | None => None
  | Some other => Some other
  end.

Lemma split_clauses_spec kc all_eq non_eq :
  split_clauses kc = (all_eq, non_eq) ->
  non_eq = range_tail kc /\
  Permutation (map eq_clause all_eq ++ option_list non_eq) (kc_clauses kc).
Proof.
  unfold split_clauses, range_tail, kc_clauses.
  destruct (sk_condition kc) as [[p [] v|p lo hi|p pre]|]; intros [= <- <-]; (split; [done|]);
    simpl; apply perm_skip; rewrite ?map_app, ?app_nil_r, <- ?app_assoc; simpl; try done;
    apply Permutation_app_head; rewrite ?(Permutation_app_comm _ [_]); done.
Qed.

Section Multipart.
Context (value_check : list PathElement -> Expr -> res unit).
Context (names : gmap string string) (hash_attrs range_attrs : list string).

(** The condition built from the placed clauses. *)
Definition rebuilt (kc : KeyCondition) (hash_eqs range_eqs : list (list PathElement * Expr))
    (non_eq : option SortKeyCondition) : KeyCondition :=
  let '(path, value, extra_pk) :=
    match hash_eqs with
    | (path, value) :: rest => (path, value, rest)
    | [] => (pk_path kc, pk_value kc, [])
    end in
  let '(sk, extra_sk) :=
    match non_eq, range_eqs with
    | Some cond, rest => (Some cond, rest)
    | None, [] => (None, [])
    | None, (path, value) :: rest => (Some (SKCompare path CEq value), rest)
    end in
  {| pk_path := path; pk_value := value; extra_pk_conditions := extra_pk;
     sk_condition := sk; extra_sk_conditions := extra_sk |}.

Lemma resolve_multipart_inv kc kc' all_eq non_eq :
  1 < length hash_attrs \/ 1 < length range_attrs ->
  split_clauses kc = (all_eq, non_eq) ->
  resolve_multipart_with value_check kc hash_attrs range_attrs names = Ok kc' ->
  exists he re oe attr,
    place_loop hash_attrs range_attrs names [] [] [] all_eq = Ok (he, re, oe) /\
    match non_eq with
    | Some c => exists a, resolve_path_attr (sk_path c) names = Ok a /\ attr = Some a
    | None => attr = None
    end /\
    check_placed value_check hash_attrs range_attrs (sort_placed he) (sort_placed re) oe non_eq
      (match attr with Some a => position a range_attrs | None => None end)
      (match attr with Some a => position a hash_attrs | None => None end) = Ok tt /\
    kc' = rebuilt kc (map snd (sort_placed he)) (map snd (sort_placed re)) non_eq.
Proof.
  intros Hmulti Hsplit. unfold resolve_multipart_with. rewrite Hsplit.
  destruct (_ && _) eqn:E.
  { apply andb_true_iff in E as [E1%Nat.leb_le E2%Nat.leb_le]. lia. }
  destruct (place_loop _ _ _ _ _ _ all_eq) as [[[he re] oe]|] eqn:Ep; [|done].
  destruct (match non_eq with Some _ => _ | None => _ end) as [attr|] eqn:Ea; [|done].
  destruct (check_placed _ _ _ _ _ _ _ _ _) as [[]|] eqn:Ec; [|done]. intros Hk.
  exists he, re, oe, attr. split_and!; [done| |done|].
  - destruct non_eq as [c|]; [|by injection Ea as <-].
    destruct (resolve_path_attr (sk_path c) names) as [a|]; [|done]. injection Ea as <-. eauto.
  - unfold rebuilt. destruct (map snd (sort_placed he)) as [|[p v] rest], non_eq as [c|],
      (map snd (sort_placed re)) as [|[p' v'] rest']; by injection Hk as <-.
Qed.

Lemma rebuilt_fields kc he re non_eq :
  he <> [] -> (forall p v, non_eq <> Some (SKCompare p CEq v)) ->
  hash_equalities (rebuilt kc he re non_eq) = he /\
  range_equalities (rebuilt kc he re non_eq) = re /\
  range_tail (rebuilt kc he re non_eq) = non_eq /\
  Permutation (kc_clauses (rebuilt kc he re non_eq))
    (map eq_clause (he ++ re) ++ option_list non_eq).
Proof.
  intros Hne Hnon. destruct he as [|[p v] he]; [done|].
  destruct non_eq as [c|]; [|destruct re as [|[p' v'] re]];
    unfold hash_equalities, range_equalities, range_tail, kc_clauses; simpl.
  - assert (forall (A : Type) (y : A) (f : list PathElement -> Expr -> A),
      match c with SKCompare p CEq v => f p v | _ => y end = y) as Hc.
    { intros A y f. destruct c as [q [] w| |]; try done. by destruct (Hnon q w). }
    split_and!; [done|by apply Hc| |].
    + destruct c as [q [] w| |]; try done. by destruct (Hnon q w).
    + apply perm_skip. rewrite map_app, <- app_assoc. apply Permutation_app_head.
      rewrite (Permutation_app_comm _ [c]). done.
  - split_and!; try done. by rewrite !app_nil_r.
  - split_and!; try done. apply perm_skip. by rewrite map_app, app_nil_r.
Qed.
Lemma range_tail_not_eq kc p v : range_tail kc <> Some (SKCompare p CEq v).
Proof. unfold range_tail. by destruct (sk_condition kc) as [[? [] ?| |]|]. Qed.

Lemma placed_length (l : list Placed) : length (map fst l) = length l.
Proof. apply length_map. Qed.

(** What resolution by a multi-attribute key schema makes of the clauses. *)
Lemma multipart_resolved kc kc' :
  hash_attrs <> [] -> 1 < length hash_attrs \/ 1 < length range_attrs ->
  resolve_multipart_with value_check kc hash_attrs range_attrs names = Ok kc' ->
  Permutation (kc_clauses kc') (kc_clauses kc) /\
  Forall2 (fun c a => resolve_path_attr c.1 names = Ok a) (hash_equalities kc') hash_attrs /\
  exists n,
    Forall2 (fun c a => resolve_path_attr c.1 names = Ok a) (range_equalities kc') (take n range_attrs) /\
    match range_tail kc' with
    | Some cond => exists a, resolve_path_attr (sk_path cond) names = Ok a /\ range_attrs !! n = Some a
    | None => True
    end.
Proof.
  intros Hne Hmulti Hres. destruct (split_clauses kc) as [all_eq non_eq] eqn:Hsplit.
  destruct (split_clauses_spec _ _ _ Hsplit) as [Htail Hperm].
  destruct (resolve_multipart_inv _ _ _ _ Hmulti Hsplit Hres) as (he & re & oe & attr & Hpl & Hattr & Hck & ->).
  apply place_loop_spec in Hpl as (Hh & Hr & Hall); [|constructor..]. simpl in Hall.
  apply check_placed_facts in Hck as ((Ha1 & Ha2) & Hnp & Hnh & Hu & Hmax & -> & Hkey).
  pose proof (placed_on_perm _ _ _ _ (symmetry (sort_placed_perm he)) Hh) as Hh'.
  pose proof (placed_on_perm _ _ _ _ (symmetry (sort_placed_perm re)) Hr) as Hr'.
  pose proof (ascending_increasing _ _ (sort_placed_ascending he) Ha1) as Hih.
  pose proof (ascending_increasing _ _ (sort_placed_ascending re) Ha2) as Hir.
  pose proof (hash_positions _ _ _ Hh' Hih Hu) as Hhp.
  assert (length (sort_placed he) = length hash_attrs) as Hlen.
  { rewrite <- placed_length, Hhp. apply length_seq. }
  destruct (range_positions names range_attrs (sort_placed re)
    (match attr with Some a => position a range_attrs | None => None end)) as (n & Hrp & Hn); try done.
  { intros p Hp. split; [|by apply Hnp]. destruct attr as [a|]; [|done].
    by apply position_Some, lookup_lt_Some in Hp. }
  destruct (rebuilt_fields kc (map snd (sort_placed he)) (map snd (sort_placed re)) non_eq)
    as (-> & -> & -> & Hrb).
  { intros E%map_eq_nil. rewrite E in Hlen. by destruct hash_attrs. }
  { intros p v. rewrite Htail. apply range_tail_not_eq. }
  split_and!.
  - rewrite Hrb, <- Hperm. apply Permutation_app_tail, Permutation_map.
    rewrite app_nil_r in Hall. by rewrite <- Hall, !sort_placed_perm.
  - pose proof (placed_on_seq _ _ _ 0 Hh' ltac:(by rewrite Hlen)) as Hf.
    by rewrite Hlen, drop_0, take_ge in Hf.
  - assert (length (sort_placed re) = n) as Hlr by (by rewrite <- placed_length, Hrp, length_seq).
    exists n. split.
    + pose proof (placed_on_seq _ _ _ 0 Hr' ltac:(by rewrite Hlr)) as Hf.
      by rewrite Hlr, drop_0 in Hf.
    + destruct non_eq as [cond|]; [|done]. destruct Hattr as (a & Ha & ->). exists a. split; [done|].
      destruct (position a range_attrs) as [p|] eqn:Ep.
      * rewrite <- (Hn p eq_refl). by apply position_Some.
      * destruct Hkey as [|[|Hk]]; [done|done|]. destruct (position a hash_attrs) as [q|] eqn:Eq; [|done].
        destruct (Hnh q eq_refl). rewrite Hhp. apply in_seq.
        apply position_Some, lookup_lt_Some in Eq. lia.
Qed.

(** C22. Resolution by a multi-attribute key schema, when it succeeds, gives every HASH
    attribute exactly one equality, in key-schema order, and covers a leading run of the
    RANGE attributes: an equality on each of them in order, and at most one further
    condition on the attribute right after the run.  No clause is lost or duplicated. *)
Theorem resolve_multipart_spec kc kc' :
  hash_attrs <> [] -> 1 < length hash_attrs \/ 1 < length range_attrs ->
  resolve_multipart_with value_check kc hash_attrs range_attrs names = Ok kc' ->
  Permutation (kc_clauses kc') (kc_clauses kc) /\
  Forall2 (fun c a => resolve_path_attr c.1 names = Ok a) (hash_equalities kc') hash_attrs /\
  exists n,
    Forall2 (fun c a => resolve_path_attr c.1 names = Ok a) (range_equalities kc') (take n range_attrs) /\
    match range_tail kc' with
    | Some cond => exists a, resolve_path_attr (sk_path cond) names = Ok a /\ range_attrs !! n = Some a
    | None => True
    end.
Proof. apply multipart_resolved. Qed.
End Multipart.

Lemma resolve_multipart_spec_witness :
  exists n, Forall2 (fun c a => resolve_path_attr c.1 ∅ = Ok a)
    (range_equalities {| pk_path := [PAttr "h1"]; pk_value := EPlaceholder "b";
       extra_pk_conditions := [([PAttr "h2"], EPlaceholder "a")];
       sk_condition := Some (SKCompare [PAttr "r2"] CGt (EPlaceholder "c"));
       extra_sk_conditions := [([PAttr "r1"], EPlaceholder "d")] |}) (take n ["r1"; "r2"; "r3"]).
Proof.
  destruct (resolve_multipart_spec (fun _ _ => Ok tt) ∅ ["h1"; "h2"] ["r1"; "r2"; "r3"]
    {| pk_path := [PAttr "h2"]; pk_value := EPlaceholder "a";
       extra_pk_conditions := [([PAttr "r1"], EPlaceholder "d"); ([PAttr "h1"], EPlaceholder "b")];
       sk_condition := Some (SKCompare [PAttr "r2"] CGt (EPlaceholder "c"));
       extra_sk_conditions := [] |}
    {| pk_path := [PAttr "h1"]; pk_value := EPlaceholder "b";
       extra_pk_conditions := [([PAttr "h2"], EPlaceholder "a")];
       sk_condition := Some (SKCompare [PAttr "r2"] CGt (EPlaceholder "c"));
       extra_sk_conditions := [([PAttr "r1"], EPlaceholder "d")] |}) as (_ & _ & n & Hn & _).
  - discriminate.
  - left. simpl. lia.
  - vm_compute. reflexivity.
  - exists n. exact Hn.
Defined.

(** ** One HASH and at most one RANGE attribute *)

(** The clause [c] is an equality on the attribute [attr]. *)
Definition equates (names : gmap string string) (attr : string) (c : SortKeyCondition) : Prop :=
  match c with
  | SKCompare path CEq _ => resolve_path_attr path names = Ok attr
  | _ => False
  end.

(** Resolution by a key schema of single attributes keeps every clause, and makes the
    equality on the partition key the partition key clause wherever the parser put it. *)
Theorem resolve_pk_sk_spec kc kc' pk_attr names name rest :
  pk_path kc = PAttr name :: rest -> resolve_pk_sk kc pk_attr names = Ok kc' ->
  Permutation (kc_clauses kc') (kc_clauses kc) /\
  (equates names pk_attr (eq_clause (pk_path kc, pk_value kc)) \/
   (exists sk, sk_condition kc = Some sk /\ equates names pk_attr sk) ->
   equates names pk_attr (eq_clause (pk_path kc', pk_value kc'))).
Proof.
  intros Hpk. unfold resolve_pk_sk. rewrite Hpk.
  destruct (sk_condition kc) as [[sp [] sv|p lo hi|p pre]|] eqn:Esk;
    try (intros [= <-]; split; [done|]; rewrite Hpk; intros [?|(sk & Hsk & He)]; [done|];
         try discriminate Hsk; injection Hsk as <-; destruct He; fail).
  change (match strip_prefix_char "#" name with Some _ => _ | None => _ end)
    with (resolve_path_attr (PAttr name :: rest) names). rewrite <- Hpk.
  destruct (resolve_path_attr (pk_path kc) names) as [n|] eqn:Er; [|done].
  destruct (String.eqb_spec n pk_attr) as [->|Hne]; intros [= <-]; [done|]. split.
  - unfold kc_clauses, set_sk. simpl. rewrite Esk. simpl.
    rewrite <- !Permutation_middle. apply perm_swap.
  - simpl. intros [He|(sk & [= <-] & He)]; congruence.
Qed.

Lemma resolve_pk_sk_spec_witness :
  equates {["p" := "pk"]} "pk" (eq_clause ([PAttr "#p"], EPlaceholder "b")).
Proof.
  eapply (resolve_pk_sk_spec
    {| pk_path := [PAttr "sk"]; pk_value := EPlaceholder "a"; extra_pk_conditions := [];
       sk_condition := Some (SKCompare [PAttr "#p"] CEq (EPlaceholder "b"));
       extra_sk_conditions := [] |}
    {| pk_path := [PAttr "#p"]; pk_value := EPlaceholder "b"; extra_pk_conditions := [];
       sk_condition := Some (SKCompare [PAttr "sk"] CEq (EPlaceholder "a"));
       extra_sk_conditions := [] |} "pk" {["p" := "pk"]} "sk" []).
  - reflexivity.
  - vm_compute. reflexivity.
  - right. eexists. split; [reflexivity|]. vm_compute. reflexivity.
Defined.

(** ** Without the check of values *)

Lemma check_pairs_unit l : check_pairs (fun _ _ => Ok tt) l = Ok tt.
Proof. by apply for_each_Ok. Qed.

Lemma check_sk_unit sk : check_sk (fun _ _ => Ok tt) sk = Ok tt.
Proof. by destruct sk as [[]|]. Qed.

Lemma check_placed_unit value_check hash_attrs range_attrs he re oe non_eq np nh :
  check_placed value_check hash_attrs range_attrs he re oe non_eq np nh = Ok tt ->
  check_placed (fun _ _ => Ok tt) hash_attrs range_attrs he re oe non_eq np nh = Ok tt.
Proof.
  unfold check_placed. destruct (_ || _); [done|]. destruct (_ <? _); [done|].
  destruct (unplaced 0 hash_attrs he); [|done].
  destruct (match max_position _ with Some _ => _ | None => _ end) as [[]|]; [|done].
  rewrite !check_pairs_unit, check_sk_unit. destruct (check_pairs _ _) as [[]|]; [|done].
  destruct (check_pairs _ oe) as [[]|]; [|done]. by destruct (check_sk _ non_eq) as [[]|].
Qed.

(** The check of values refuses and does not change what a clause is assigned to. *)
Lemma resolve_key_schema_unit value_check kc key_schema names kc' :
  resolve_key_schema_with value_check kc key_schema names = Ok kc' ->
  resolve_key_schema kc key_schema names = Ok kc'.
Proof.
  unfold resolve_key_schema, resolve_key_schema_with. destruct (is_multipart_key_schema key_schema).
  - unfold resolve_multipart_with. destruct (_ && _); [done|]. destruct (split_clauses kc) as [all_eq non_eq].
    destruct (place_loop _ _ _ _ _ _ _) as [[[he re] oe]|]; [|done].
    destruct (match non_eq with Some _ => _ | None => _ end) as [attr|]; [|done].
    destruct (check_placed value_check _ _ _ _ _ _ _ _) as [[]|] eqn:E; [|done].
    by rewrite (check_placed_unit _ _ _ _ _ _ _ _ _ E).
  - destruct (for_each_clause value_check kc) as [[]|]; [|done].
    assert (for_each_clause (fun _ _ => Ok tt) kc = Ok tt) as ->; [|done].
    unfold for_each_clause. by rewrite !check_pairs_unit, check_sk_unit.
Qed.
