(* ===== verification/ItemSize.v ===== *)
(** * Item sizes, nesting and numbers

    [extract_key], [item_size_bytes] and what they call in
    [crates/core/src/types/item.rs], and the checks of sizes, nesting depth and
    numbers in [crates/core/src/validation/mod.rs].  The size of a number is refined
    to a function of its value, so that the size of an item whose numbers are
    accepted does not depend on how they are written. *)

From S2P Require Import Prelude BTree Types Error Decimal Number Ast Tokenizer Resolver.

Local Open Scope N_scope.

(** ** Keys *)

Definition extract_key (item : Item) (key_schema : list KeySchemaElement) : Item :=
  fold_left (fun key ks =>
    match bt_get (ks_attribute_name ks) item with
    | Some val => bt_insert (ks_attribute_name ks) val key
    | None => key
    end) key_schema [].

(** ** Numbers *)

Definition len {A : Type} (l : list A) : N := N.of_nat (length l).
Definition str_len (s : string) : N := N.of_nat (String.length s).

(** [str::parse::<i64>]. *)
Definition parse_i64 (l : list ascii) : option Z :=
  let '(neg, ds) := match l with
            | c :: l' => if Ascii.eqb c "+" then (false, l')
                         else if Ascii.eqb c "-" then (true, l')
                         else (false, l)
            | [] => (false, l)
            end in
  if bool_decide (ds = []) then None
  else if forallb is_digit ds then
    let n := Z.of_N (digits_val ds) in
    let z := if neg : bool then (- n)%Z else n in
    if (i64_min <=? z)%Z && (z <=? i64_max)%Z then Some z else None
  else None.

(** [-z] of an [i64], which wraps at the least value. *)
Definition neg_i64 (z : Z) : Z := if (z =? i64_min)%Z then i64_min else (- z)%Z.

(** [usize::try_from(z).unwrap_or(0)]. *)
Definition usize_or_0 (z : Z) : nat := Z.to_nat z.

Definition trim_start_zeros (l : list ascii) : list ascii := drop_while is_zero_char l.
Definition trim_end_zeros (l : list ascii) : list ascii :=
  reverse (drop_while is_zero_char (reverse l)).

Definition div_ceil_2 (n : N) : N := (n + 1) / 2.

(** The digits before and after the point, when it is at [point].  Slicing off a
    character boundary panics. *)
Definition split_at_point (digits : list ascii) (point : Z) : res (list ascii * list ascii) :=
  let length_i64 := len_i64 (length digits) in
  if (point <=? 0)%Z then Ok ([], replicate (usize_or_0 (neg_i64 point)) "0"%char ++ digits)
  else if (length_i64 <=? point)%Z then
    Ok (digits ++ replicate (usize_or_0 (point - length_i64)) "0"%char, [])
  else
    let split := usize_or_0 point in
    if is_char_boundary digits split then Ok (take split digits, drop split digits)
    else Err Panic.

Definition significant_size (negative : bool) (int_part frac_part : list ascii) : N :=
  let int_part := trim_start_zeros int_part in
  let frac_part := trim_end_zeros frac_part in
  let int_significant :=
    match frac_part with
    | [] => len (trim_end_zeros int_part)
    | _ => len int_part
    end in
  let frac_significant :=
    match int_part with
    | [] => len (trim_start_zeros frac_part)
    | _ => len frac_part
    end in
  N.min 21 (1 + div_ceil_2 int_significant + div_ceil_2 frac_significant
            + (if negative then 1 else 0)).

Definition dynamodb_number_size (n : string) : res N :=
  let '(negative, body) :=
    match strip_prefix_char "-" n with
    | Some rest => (true, as_bytes rest)
    | None => (false, as_bytes (default n (strip_prefix_char "+" n)))
    end in
  let '(mantissa, exponent) :=
    match split_once is_exp_char body with
    | Some (m, e) => (m, default 0%Z (parse_i64 e))
    | None => (body, 0%Z)
    end in
  let '(int_text, frac_text) :=
    match split_once is_point mantissa with
    | Some (i, f) => (i, f)
    | None => (mantissa, [])
    end in
  let digits := int_text ++ frac_text in
  if negb (existsb (in_range 49 57) digits) then Ok 1
  else
    let point := sat_add_i64 (len_i64 (length int_text)) exponent in
    let? (int_part, frac_part) := split_at_point digits point in
    Ok (significant_size negative int_part frac_part).

(** ** Items *)

(** [iter().map(f).sum::<usize>()], where [f] can panic. *)
Fixpoint sum_results {A : Type} (f : A -> res N) (l : list A) : res N :=
  match l with
  | [] => Ok 0
  | x :: l' =>
      let? a := f x in
      let? b := sum_results f l' in
      Ok (a + b)
  end.

Fixpoint attribute_value_size (value : AttributeValue) : res N :=
  match value with
  | AV_S s => Ok (str_len s)
  | AV_N n => dynamodb_number_size n
  | AV_B b => Ok (len b)
  | AV_Bool _ | AV_Null => Ok 1
  | AV_L list =>
      let? total := sum_results (fun v => let? s := attribute_value_size v in Ok (s + 1)) list in
      Ok (3 + total)
  | AV_M map =>
      let? total := sum_results (fun kv =>
        let? s := attribute_value_size kv.2 in Ok (str_len kv.1 + s + 1)) map in
      Ok (3 + total)
  | AV_SS set => sum_results (fun s => Ok (str_len s)) set
  | AV_NS set => sum_results dynamodb_number_size set
  | AV_BS set => sum_results (fun b => Ok (len b)) set
  end.

Definition item_size_bytes (item : Item) : res N :=
  sum_results (fun kv => let? s := attribute_value_size kv.2 in Ok (str_len kv.1 + s)) item.

(** ** Checks *)

(** The limits of [LimitsConfig] that the checks read. *)
Record LimitsConfig : Type := {
  max_item_size_bytes : N;
  max_partition_key_size_bytes : N;
  max_sort_key_size_bytes : N
}.

Definition validate_no_empty_key_value (attr_name : string) (value : AttributeValue) : res unit :=
  let kind :=
    match value with
    | AV_S s => if is_empty s then Some "string" else None
    | AV_B b => match b with [] => Some "binary" | _ => None end
    | _ => None
    end in
  match kind with
  | Some kind =>
      fail ("One or more parameter values are not valid. The AttributeValue for a key attribute cannot contain an empty "
            +:+ kind +:+ " value. Key: " +:+ attr_name)
  | None => Ok tt
  end.

Definition key_value_byte_size (value : AttributeValue) : N :=
  match value with
  | AV_S s => str_len s
  | AV_N n => str_len n
  | AV_B b => len b
  | _ => 0
  end.

Definition check_key_size (ks : KeySchemaElement) (value : AttributeValue) (limits : LimitsConfig)
    : res unit :=
  let size := key_value_byte_size value in
  let max_size :=
    match ks_key_type ks with
    | Hash => max_partition_key_size_bytes limits
    | Range => max_sort_key_size_bytes limits
    end in
  if max_size <? size then
    fail ("One or more parameter values were invalid: " +:+
      match ks_key_type ks with
      | Hash => "Size of hashkey has exceeded the maximum size limit of" +:+ N_to_string max_size +:+ " bytes"
      | Range => "Aggregated size of all range keys has exceeded the size limit of " +:+
                 N_to_string max_size +:+ " bytes"
      end)
  else Ok tt.

Definition for_each_key (item : Item) (key_schema : list KeySchemaElement)
    (f : KeySchemaElement -> AttributeValue -> res unit) : res unit :=
  for_each (fun ks =>
    match bt_get (ks_attribute_name ks) item with
    | Some value => f ks value
    | None => Ok tt
    end) key_schema.

Definition validate_key_sizes (item : Item) (key_schema : list KeySchemaElement)
    (limits : LimitsConfig) : res unit :=
  for_each_key item key_schema (fun ks value =>
    let? _ := validate_no_empty_key_value (ks_attribute_name ks) value in
    check_key_size ks value limits).

Definition validate_key_size_limits (item : Item) (key_schema : list KeySchemaElement)
    (limits : LimitsConfig) : res unit :=
  for_each_key item key_schema (fun ks value => check_key_size ks value limits).

Definition validate_key_not_empty (item : Item) (key_schema : list KeySchemaElement) : res unit :=
  for_each_key item key_schema (fun ks value =>
    validate_no_empty_key_value (ks_attribute_name ks) value).

Definition validate_item_size (item : Item) (max_bytes : N) : res unit :=
  let? size := item_size_bytes item in
  if max_bytes <? size then fail "Item size has exceeded the maximum allowed size" else Ok tt.

Definition ITEM_SIZE_TO_UPDATE_EXCEEDED : string :=
  "Item size to update has exceeded the maximum allowed size".

Definition validate_transact_update_item_size (finished : Item) (max_bytes : N) : res unit :=
  let? size := item_size_bytes finished in
  if max_bytes <? size then fail ITEM_SIZE_TO_UPDATE_EXCEEDED else Ok tt.

Fixpoint validate_attribute_number (value : AttributeValue) : res unit :=
  match value with
  | AV_N n => let? _ := validate_and_normalize_number n in Ok tt
  | AV_NS set => for_each (fun n => let? _ := validate_and_normalize_number n in Ok tt) set
  | AV_L list => for_each validate_attribute_number list
  | AV_M map => for_each (fun kv => validate_attribute_number kv.2) map
  | _ => Ok tt
  end.

Definition validate_item_numbers (item : Item) : res unit :=
  for_each (fun kv => validate_attribute_number kv.2) item.

Definition MAX_ITEM_NESTING_DEPTH : nat := 32.

Definition nesting_depth_error : res unit :=
  fail "Nesting Levels have exceeded supported limits: Attributes in the item have nested levels beyond supported limit".

Fixpoint check_attribute_value_depth (value : AttributeValue) (current_depth : nat) : res unit :=
  match value with
  | AV_M map =>
      let next := (current_depth + 1)%nat in
      if (MAX_ITEM_NESTING_DEPTH <=? next)%nat then nesting_depth_error
      else for_each (fun kv => check_attribute_value_depth kv.2 next) map
  | AV_L list =>
      let next := (current_depth + 1)%nat in
      if (MAX_ITEM_NESTING_DEPTH <=? next)%nat then nesting_depth_error
      else for_each (fun v => check_attribute_value_depth v next) list
  | _ => Ok tt
  end.

Definition validate_item_nesting_depth (item : Item) : res unit :=
  for_each (fun kv => check_attribute_value_depth kv.2 0) item.

Definition validate_attribute_values_nesting_depth (values : list AttributeValue) : res unit :=
  for_each (fun v => check_attribute_value_depth v 0) values.

(** ** The size of an update statement *)

Definition UPDATE_STATEMENT_BASE_COST : N := 3.
Definition UPDATE_SET_CLAUSE_COST : N := 18.
Definition UPDATE_FUNCTION_COST : N := 26.
Definition UPDATE_ADDITION_COST : N := 34.
Definition UPDATE_SUBTRACTION_COST : N := 37.
Definition UPDATE_PATH_OPERAND_FIRST_COST : N := 15.
Definition UPDATE_PATH_OPERAND_NESTED_COST : N := 14.
Definition UPDATE_PATH_OPERAND_INDEX_COST : N := 15.
Definition UPDATE_LIST_INDEX_TARGET_COST : N := 1.

Unset Elimination Schemes.
Inductive WrittenNode : Type :=
  | mkWrittenNode (leaf_bytes : N) (entries : list (string * WrittenNode))
      (elements : list (N * WrittenNode)).
Set Elimination Schemes.

Definition default_written : WrittenNode := mkWrittenNode 0 [] [].

Fixpoint written_node_size (node : WrittenNode) : N :=
  let 'mkWrittenNode leaf_bytes entries elements := node in
  let maps :=
    match entries with
    | [] => 0
    | _ => 3 + fold_left (fun acc nc => acc + (str_len nc.1 + written_node_size nc.2 + 1)) entries 0
    end in
  let lists :=
    match elements with
    | [] => 0
    | _ => 3 + fold_left (fun acc nc => acc + (written_node_size nc.2 + 1)) elements 0
    end in
  leaf_bytes + maps + lists.

Section UpdateSize.
Context {D : Type} `{BigDecimal D}.
Implicit Type maps : ExpressionMaps D.

(** The elements of a path operand, [i] the index of the first of them. *)
Fixpoint path_operand_size (i : nat) (elements : list PathElement) maps : res N :=
  match elements with
  | [] => Ok 0
  | element :: rest =>
      let? bytes :=
        match element with
        | PIndex _ => Ok UPDATE_PATH_OPERAND_INDEX_COST
        | PAttr _ =>
            let? name := resolve_element_name element maps in
            Ok (str_len name + (if (i =? 0)%nat then UPDATE_PATH_OPERAND_FIRST_COST
                                else UPDATE_PATH_OPERAND_NESTED_COST))
        end in
      let? others := path_operand_size (S i) rest maps in
      Ok (bytes + others)
  end.

Fixpoint update_operand_size (expr : Expr) maps : res N :=
  match expr with
  | EPlaceholder name =>
      match em_values maps !! name with
      | Some v => attribute_value_size v
      | None => Ok 0
      end
  | EPath elements => path_operand_size 0 elements maps
  | EFunction name args =>
      let? total := sum_results (fun arg => update_operand_size arg maps) args in
      Ok (UPDATE_FUNCTION_COST + str_len name + total)
  | EArithmetic l op r =>
      let operator := match op with AAdd => UPDATE_ADDITION_COST | ASub => UPDATE_SUBTRACTION_COST end in
      let? left_size := update_operand_size l maps in
      let? right_size := update_operand_size r maps in
      Ok (operator + left_size + right_size)
  | _ => Ok 0
  end.

(** The walk to the node of a path, which gets the leaf's bytes. *)
Fixpoint write_path (path : list PathElement) (leaf : N) maps (node : WrittenNode) : res WrittenNode :=
  let 'mkWrittenNode leaf_bytes entries elements := node in
  match path with
  | [] => Ok (mkWrittenNode (leaf_bytes + leaf) entries elements)
  | PIndex i :: rest =>
      let? child := write_path rest leaf maps (default default_written (bt_get i elements)) in
      Ok (mkWrittenNode leaf_bytes entries (bt_insert i child elements))
  | (PAttr _ as element) :: rest =>
      let? name := resolve_element_name element maps in
      let? child := write_path rest leaf maps (default default_written (bt_get name entries)) in
      Ok (mkWrittenNode leaf_bytes (bt_insert name child entries) elements)
  end.

Definition ends_in_index (path : list PathElement) : bool :=
  match last_error path with
  | Some (PIndex _) => true
  | _ => false
  end.

(** The loop over the actions, from the bytes and the tree so far. *)
Fixpoint statement_loop (actions : list UpdateAction) maps (bytes : N) (root : WrittenNode)
    : res (N * WrittenNode) :=
  match actions with
  | [] => Ok (bytes, root)
  | action :: rest =>
      let? (bytes, path, leaf) :=
        match action with
        | USet path value | UAdd path value =>
            let? leaf := update_operand_size value maps in
            Ok (bytes + UPDATE_SET_CLAUSE_COST, path, leaf)
        | URemove path | UDelete path _ => Ok (bytes, path, 0)
        end in
      let bytes := if ends_in_index path then bytes + UPDATE_LIST_INDEX_TARGET_COST else bytes in
      let? root := write_path path leaf maps root in
      statement_loop rest maps bytes root
  end.

Definition update_statement_size (actions : list UpdateAction) maps : res N :=
  let? (bytes, root) := statement_loop actions maps UPDATE_STATEMENT_BASE_COST default_written in
  Ok (bytes + (written_node_size root - 3)).

Definition action_path (action : UpdateAction) : list PathElement :=
  match action with
  | USet path _ | UAdd path _ | URemove path | UDelete path _ => path
  end.

(** The names of the attributes the actions start at, each once. *)
Fixpoint legacy_names (actions : list UpdateAction) maps (names : list string) : res (list string) :=
  match actions with
  | [] => Ok names
  | action :: rest =>
      match action_path action with
      | [] => legacy_names rest maps names
      | first :: _ =>
          let? name := resolve_element_name first maps in
          legacy_names rest maps (if existsb (String.eqb name) names then names else names ++ [name])
      end
  end.

Definition legacy_update_statement_size (finished : Item) (actions : list UpdateAction) maps : res N :=
  let? names := legacy_names actions maps [] in
  let? total := sum_results (fun name =>
    match bt_get name finished with
    | Some value => let? s := attribute_value_size value in Ok (str_len name + s)
    | None => Ok 0
    end) names in
  Ok (UPDATE_STATEMENT_BASE_COST + total).

Definition validate_update_item_size (finished : Item) (actions : list UpdateAction) maps
    (max_bytes : N) : res unit :=
  let? statement :=
    if em_legacy_attribute_updates maps then legacy_update_statement_size finished actions maps
    else update_statement_size actions maps in
  if max_bytes <? statement then fail ITEM_SIZE_TO_UPDATE_EXCEEDED
  else
    let? size := item_size_bytes finished in
    if max_bytes <? size then fail ITEM_SIZE_TO_UPDATE_EXCEEDED else Ok tt.
End UpdateSize.

(** ** The size of a number, by its value *)

(** The size of [sig_len] significant digits, the last of them at ten to the [x]. *)
Definition number_size_of (neg : bool) (sig_len : nat) (x : Z) : N :=
  let before := Z.to_N (Z.of_nat sig_len + x) in
  let '(int_significant, frac_significant) :=
    if (0 <=? x)%Z then (N.of_nat sig_len, 0)
    else if (Z.of_nat sig_len + x <=? 0)%Z then (0, N.of_nat sig_len)
    else (before, Z.to_N (- x)) in
  N.min 21 (1 + div_ceil_2 int_significant + div_ceil_2 frac_significant + (if neg then 1 else 0)).

Lemma trim_start_all z : zeros z = true -> trim_start_zeros z = [].
Proof.
  unfold trim_start_zeros. induction z as [|c z IH]; simpl; [done|].
  rewrite andb_true_iff. intros [-> Hz]. auto.
Qed.

Lemma trim_start_app z l :
  zeros z = true -> l <> [] -> no_leading_zero l = true -> trim_start_zeros (z ++ l) = l.
Proof.
  unfold trim_start_zeros. intros Hz Hne Hl. induction z as [|c z IH]; simpl in *.
  - destruct l as [|c l]; [done|]. simpl in *. apply negb_true_iff in Hl.
    unfold is_zero_char. by rewrite Hl.
  - apply andb_true_iff in Hz as [-> Hz]. auto.
Qed.

Lemma zeros_reverse z : zeros (reverse z) = zeros z.
Proof.
  unfold zeros. induction z as [|c z IH]; [done|]. rewrite reverse_cons, forallb_app, IH. simpl.
  rewrite andb_true_r. apply andb_comm.
Qed.

Lemma trim_end_all z : zeros z = true -> trim_end_zeros z = [].
Proof.
  intros Hz. unfold trim_end_zeros. fold (trim_start_zeros (reverse z)).
  rewrite trim_start_all; [done|]. by rewrite zeros_reverse.
Qed.

Lemma trim_end_app z l :
  zeros z = true -> l <> [] -> no_leading_zero (reverse l) = true -> trim_end_zeros (l ++ z) = l.
Proof.
  intros Hz Hne Hl. unfold trim_end_zeros. fold (trim_start_zeros (reverse (l ++ z))).
  rewrite reverse_app, trim_start_app; [by rewrite reverse_involutive|by rewrite zeros_reverse| |done].
  intros E. apply Hne. rewrite <- (reverse_involutive l), E. done.
Qed.

Lemma zeros_app z z' : zeros (z ++ z') = zeros z && zeros z'.
Proof. apply forallb_app. Qed.

(** All the digits after the point, all before it, and some on either side. *)
Lemma significant_frac neg z0 z sig z' :
  zeros z0 = true -> zeros z = true -> zeros z' = true -> canonical sig ->
  significant_size neg z0 (z ++ sig ++ z') =
  N.min 21 (1 + div_ceil_2 0 + div_ceil_2 (len sig) + (if neg then 1 else 0)).
Proof.
  intros H0 Hz Hz' (_ & Hne & Hl & Hr). unfold significant_size. rewrite trim_start_all by done.
  rewrite app_assoc, trim_end_app; [|done|by destruct z|].
  - destruct (z ++ sig) as [|c l] eqn:E; [by destruct z|]. rewrite <- E, trim_start_app by done. done.
  - rewrite reverse_app. destruct (reverse sig) as [|c l] eqn:E; [|done].
    exfalso. apply Hne. by rewrite <- (reverse_involutive sig), E.
Qed.

Lemma significant_int neg z sig z' z0 :
  zeros z0 = true -> zeros z = true -> zeros z' = true -> canonical sig ->
  significant_size neg (z ++ sig ++ z') z0 =
  N.min 21 (1 + div_ceil_2 (len sig) + div_ceil_2 0 + (if neg then 1 else 0)).
Proof.
  intros H0 Hz Hz' (_ & Hne & Hl & Hr). unfold significant_size. rewrite (trim_end_all z0) by done.
  rewrite trim_start_app; [|done|by destruct sig|by destruct sig].
  rewrite trim_end_app by done. by destruct sig.
Qed.

Lemma significant_both neg z s1 s2 z' :
  zeros z = true -> zeros z' = true -> s1 <> [] -> s2 <> [] ->
  no_leading_zero s1 = true -> no_leading_zero (reverse s2) = true ->
  significant_size neg (z ++ s1) (s2 ++ z') =
  N.min 21 (1 + div_ceil_2 (len s1) + div_ceil_2 (len s2) + (if neg then 1 else 0)).
Proof.
  intros Hz Hz' H1 H2 Hl Hr. unfold significant_size.
  rewrite trim_start_app, trim_end_app by done. by destruct s1, s2.
Qed.

Lemma digit_boundary l i : forallb is_digit l = true -> (i <= length l)%nat -> is_char_boundary l i = true.
Proof.
  intros Hd Hi. unfold is_char_boundary. destruct (Nat.eqb_spec i (length l)); [by rewrite orb_true_r|].
  destruct (lookup_lt_is_Some_2 l i) as [c Hc]; [lia|]. rewrite Hc.
  apply list_elem_of_lookup_2, list_elem_of_In in Hc. rewrite forallb_forall in Hd.
  specialize (Hd c Hc). unfold is_cont. unfold is_digit in Hd. unfold in_range in *.
  apply andb_true_iff in Hd as [_ Hc9]. apply N.leb_le in Hc9.
  rewrite (proj2 (N.leb_gt _ _)) by lia. by rewrite !orb_true_r.
Qed.

Lemma zeros_take z n : zeros z = true -> zeros (take n z) = true.
Proof.
  intros Hz. rewrite <- (take_drop n z), zeros_app in Hz. by apply andb_true_iff in Hz as [? _].
Qed.

Lemma zeros_drop z n : zeros z = true -> zeros (drop n z) = true.
Proof.
  intros Hz. rewrite <- (take_drop n z), zeros_app in Hz. by apply andb_true_iff in Hz as [_ ?].
Qed.

Lemma reverse_drop_head n (l : list ascii) :
  (n < length l)%nat -> no_leading_zero (reverse l) = true ->
  no_leading_zero (reverse (drop n l)) = true.
Proof.
  intros Hn Hl. rewrite <- (take_drop n l), reverse_app in Hl.
  destruct (reverse (drop n l)) as [|c k]; done.
Qed.

Lemma split_at_point_size neg z1 sig z2 x :
  zeros z1 = true -> zeros z2 = true -> canonical sig ->
  let digits := z1 ++ sig ++ z2 in
  let point := (Z.of_nat (length z1) + Z.of_nat (length sig) + x)%Z in
  (Z.of_nat (length digits) < 2 ^ 62)%Z -> (i64_min < point)%Z ->
  forallb is_digit digits = true ->
  exists ip fp, split_at_point digits point = Ok (ip, fp) /\
    significant_size neg ip fp = number_size_of neg (length sig) x.
Proof.
  intros Hz1 Hz2 Hc digits point Hlen Hmin Hd.
  assert (len_i64 (length digits) = Z.of_nat (length digits)) as Hl.
  { unfold len_i64, i64_max. lia. }
  assert (length digits = length z1 + length sig + length z2)%nat as Hn.
  { unfold digits. rewrite !length_app. lia. }
  assert (0 < length sig)%nat as Hsig by (destruct Hc as (_ & Hne & _); destruct sig; [done|simpl; lia]).
  unfold split_at_point, number_size_of. rewrite Hl. destruct (Z.leb_spec point 0) as [Hp|Hp].
  { eexists _, _. split; [reflexivity|]. unfold digits. rewrite app_assoc.
    rewrite significant_frac; [|done|by rewrite zeros_app, zeros_replicate, Hz1|done|done].
    rewrite (proj2 (Z.leb_gt _ _)), (proj2 (Z.leb_le _ _)) by (unfold point in *; lia). done. }
  destruct (Z.leb_spec (Z.of_nat (length digits)) point) as [Hq|Hq].
  { eexists _, _. split; [reflexivity|]. unfold digits. rewrite <- !app_assoc.
    rewrite significant_int; [|done|done|by rewrite zeros_app, zeros_replicate, Hz2|done].
    rewrite (proj2 (Z.leb_le 0 x)) by (unfold point in *; lia). done. }
  unfold usize_or_0. rewrite digit_boundary; [|done|lia]. eexists _, _. split; [reflexivity|].
  destruct (Z.leb_spec point (Z.of_nat (length z1))) as [H1|H1];
    [|destruct (Z.leb_spec 0 x) as [H2|H2]].
  - unfold digits. rewrite take_app_le, drop_app_le by lia.
    rewrite significant_frac; auto using zeros_take, zeros_drop.
    rewrite (proj2 (Z.leb_gt 0 x)), (proj2 (Z.leb_le _ _)) by (unfold point in *; lia). done.
  - unfold digits. rewrite !take_app_ge, !drop_app_ge by (unfold point in *; lia).
    rewrite significant_int; auto using zeros_take, zeros_drop.
  - assert (Z.to_nat point - length z1 < length sig)%nat as Hk by (unfold point in *; lia).
    assert (0 < Z.to_nat point - length z1)%nat as Hk' by lia.
    unfold digits. rewrite take_app_ge, drop_app_ge by lia. rewrite take_app_le, drop_app_le by lia.
    rewrite (proj2 (Z.leb_gt _ _)) by (unfold point in *; lia).
    destruct Hc as (_ & _ & Hlead & Hrev).
    rewrite significant_both; try done.
    + unfold len. rewrite length_take, length_drop. repeat f_equal; unfold point in *; lia.
    + intros E%(f_equal length). rewrite length_take in E. simpl in E. lia.
    + intros E%(f_equal length). rewrite length_drop in E. simpl in E. lia.
    + destruct sig; [simpl in Hsig; lia|]. destruct (Z.to_nat point - length z1)%nat; [lia|done].
    + by apply reverse_drop_head.
Qed.

Lemma parse_i32_i64 l z : parse_i32 l = Some z -> parse_i64 l = Some z.
Proof.
  unfold parse_i32, parse_i64. destruct (match l with [] => _ | _ :: _ => _ end) as [neg ds].
  case_bool_decide; [done|]. destruct (forallb is_digit ds); [|done].
  set (v := if neg then _ else _). destruct (_ && _) eqn:E; [|done]. intros [= <-].
  apply andb_true_iff in E as [E1%Z.leb_le E2%Z.leb_le]. unfold i32_min, i32_max in *.
  unfold i64_min, i64_max. by rewrite !(proj2 (Z.leb_le _ _)) by lia.
Qed.

(** The size of a numeral, from its parts. *)
Lemma number_size_read s neg i f e :
  numeral (as_bytes s) neg i f e ->
  dynamodb_number_size s =
  if negb (existsb (in_range 49 57) (i ++ f)) then Ok 1
  else
    let? (int_part, frac_part) :=
      split_at_point (i ++ f) (sat_add_i64 (len_i64 (length i)) e) in
    Ok (significant_size neg int_part frac_part).
Proof.
  intros Hn. apply read_numeral_iff in Hn. unfold read_numeral in Hn. rewrite <- read_sign_strip in Hn.
  unfold dynamodb_number_size. destruct (match strip_prefix_char "-" s with Some _ => _ | None => _ end) as [neg' body].
  unfold read_exp in Hn.
  assert (exists m, match split_once is_exp_char body with
      | Some (m, e) => (m, default 0%Z (parse_i64 e))
      | None => (body, 0%Z)
      end = (m, e) /\ read_mantissa m = Some (i, f) /\ neg' = neg) as (m & -> & Hm & ->).
  { destruct (split_once is_exp_char body) as [[m t]|].
    - destruct (parse_i32 t) as [z|] eqn:Ez; [|done]. exists m. rewrite (parse_i32_i64 _ _ Ez).
      destruct (read_mantissa m) as [[i' f']|]; [|done]. by injection Hn as -> -> -> ->.
    - exists body. destruct (read_mantissa body) as [[i' f']|]; [|done]. by injection Hn as -> -> -> <-. }
  unfold read_mantissa in Hm. destruct (match split_once is_point m with Some _ => _ | None => _ end) as [i' f'].
  destruct (_ && _); [|done]. by injection Hm as -> ->.
Qed.

Lemma nonzero_digit c : is_digit c = true -> in_range 49 57 c = negb (is_zero_char c).
Proof. by destruct c as [[] [] [] [] [] [] [] []]. Qed.

Lemma nonzero_digits l : forallb is_digit l = true -> existsb (in_range 49 57) l = negb (zeros l).
Proof.
  induction l as [|c l IH]; simpl; [done|]. rewrite andb_true_iff. intros [Hc Hl].
  rewrite (nonzero_digit _ Hc), (IH Hl). by destruct (is_zero_char c).
Qed.

Lemma canonical_not_zeros z1 sig z2 : canonical sig -> zeros (z1 ++ sig ++ z2) = false.
Proof.
  intros (_ & Hne & Hl & _). rewrite !zeros_app. destruct sig as [|c sig]; [done|]. simpl in *.
  apply negb_true_iff in Hl. unfold is_zero_char. rewrite Hl. simpl. by rewrite andb_false_r.
Qed.

Lemma numeral_size s neg i f e :
  short s -> numeral (as_bytes s) neg i f e ->
  (digits_val (i ++ f) = 0 /\ dynamodb_number_size s = Ok 1) \/
  (exists sig x, canonical sig /\
     dec_eq (numeral_value neg i f e) (signed neg (digits_val sig), x) /\
     dynamodb_number_size s = Ok (number_size_of neg (length sig) x)).
Proof.
  intros Hshort Hn. pose proof (digits_length_le _ _ _ _ _ Hn) as Hlen.
  pose proof (numeral_exp_bound _ _ _ _ _ Hn) as He.
  pose proof (numeral_digits _ _ _ _ _ Hn) as [Hi Hf].
  rewrite length_as_bytes in Hlen. unfold short in Hshort. unfold i32_min, i32_max in He.
  assert (forallb is_digit (i ++ f) = true) as Hd by (by rewrite forallb_app, Hi, Hf).
  rewrite (number_size_read _ _ _ _ _ Hn), (nonzero_digits _ Hd), negb_involutive.
  destruct (digits_split (i ++ f) Hd) as [Hz|(z1 & sig & z2 & Hl & Hz1 & Hz2 & Hc)].
  - left. rewrite Hz. split; [by apply digits_val_zeros|done].
  - right. exists sig, (e - Z.of_nat (length f) + Z.of_nat (length z2))%Z. split; [done|].
    assert (length (i ++ f) = length z1 + length sig + length z2)%nat as Hsum.
    { rewrite Hl, !length_app. lia. }
    rewrite length_app in Hsum.
    assert (sat_add_i64 (len_i64 (length i)) e =
      Z.of_nat (length z1) + Z.of_nat (length sig) + (e - Z.of_nat (length f) + Z.of_nat (length z2)))%Z as ->.
    { unfold sat_add_i64, sat_i64, len_i64, i64_min, i64_max. lia. }
    unfold numeral_value. rewrite Hl. split; [by apply dec_eq_zeros|].
    rewrite canonical_not_zeros by done.
    destruct (split_at_point_size neg z1 sig z2 (e - Z.of_nat (length f) + Z.of_nat (length z2)))
      as (ip & fp & Hsp & Hsz); [done|done|done| | |by rewrite <- Hl|].
    + rewrite <- Hl, length_app. lia.
    + unfold i64_min. lia.
    + by rewrite Hsp, Hsz.
Qed.

(** The size of the number of value [d]. *)
Definition sized (d : dec) (n : N) : Prop :=
  (d.1 = 0%Z /\ n = 1) \/
  exists neg sig x, canonical sig /\ dec_eq d (signed neg (digits_val sig), x) /\
    n = number_size_of neg (length sig) x.

Lemma sized_unique d d' n n' : sized d n -> sized d' n' -> dec_eq d d' -> n = n'.
Proof.
  intros [[H1 ->]|(neg & sig & x & Hc & Hd & ->)] [[H2 ->]|(neg' & sig' & x' & Hc' & Hd' & ->)] Heq.
  - done.
  - exfalso. apply (canonical_nonzero neg' sig' x' d Hc'); [by etransitivity|done].
  - exfalso. apply (canonical_nonzero neg sig x d' Hc); [|done].
    by etransitivity; [symmetry; exact Heq|].
  - rewrite Hd, Hd' in Heq. by injection (canonical_unique _ _ _ _ _ _ Hc Hc' Heq) as -> -> ->.
Qed.

Lemma number_size_sized s d :
  short s -> denotes s d -> exists n, dynamodb_number_size s = Ok n /\ sized d n.
Proof.
  intros Hs (neg & i & f & e & Hn & ->).
  destruct (numeral_size _ _ _ _ _ Hs Hn) as [[H0 Hsz]|(sig & x & Hc & Hd & Hsz)].
  - exists 1. split; [done|]. left. split; [by apply signed_zero_iff|done].
  - eexists. split; [exact Hsz|]. right. eauto 6.
Qed.

(** The size of a number depends on its value only: two numerals of one value have
    the same size however they are written, so normalising a number keeps the size of
    the item that holds it. *)
Theorem number_size_by_value s t d d' :
  short s -> short t -> denotes s d -> denotes t d' -> dec_eq d d' ->
  exists n, dynamodb_number_size s = Ok n /\ dynamodb_number_size t = Ok n /\ 1 <= n <= 21.
Proof.
  intros Hs Ht Hd Hd' Heq. destruct (number_size_sized _ _ Hs Hd) as (n & En & Hn).
  destruct (number_size_sized _ _ Ht Hd') as (n' & En' & Hn').
  rewrite <- (sized_unique _ _ _ _ Hn Hn' Heq) in En'. exists n. split_and!; try done;
    destruct Hn as [[_ ->]|(neg & sig & x & _ & _ & ->)]; try lia;
    unfold number_size_of; repeat case_match; lia.
Qed.

Lemma number_size_by_value_witness :
  exists n, dynamodb_number_size "-0012.50e1" = Ok n /\ dynamodb_number_size "-125" = Ok n /\ 1 <= n <= 21.
Proof.
  eapply (number_size_by_value "-0012.50e1" "-125" (-1250, -1)%Z (-125, 0)%Z).
  - reflexivity.
  - reflexivity.
  - apply read_dec_iff. vm_compute. reflexivity.
  - apply read_dec_iff. vm_compute. reflexivity.
  - reflexivity.
Defined.

(** ** What the checks accept *)

Lemma for_each_Forall {A : Type} (f : A -> res unit) l :
  for_each f l = Ok tt <-> Forall (fun x => f x = Ok tt) l.
Proof.
  induction l as [|x l IH]; simpl; [split; constructor|]. rewrite Forall_cons_iff, <- IH.
  destruct (f x) as [[]|]; split; naive_solver.
Qed.

Lemma Forall_max {A : Type} (f : A -> nat) n l :
  (fold_right (fun x acc => Nat.max (f x) acc) 0%nat l <= n)%nat <-> Forall (fun x => (f x <= n)%nat) l.
Proof.
  induction l as [|x l IH]; simpl; [split; [constructor|lia]|]. rewrite Forall_cons_iff, <- IH. lia.
Qed.

Lemma Forall_iff_In {A : Type} (P Q : A -> Prop) l :
  (forall x, In x l -> P x <-> Q x) -> Forall P l <-> Forall Q l.
Proof.
  intros HPQ. rewrite !List.Forall_forall. split; intros H x Hx; apply HPQ; auto.
Qed.

(** The maps and lists on the deepest way into a value. *)
Fixpoint wrappers (v : AttributeValue) : nat :=
  match v with
  | AV_L l => S (fold_right (fun x acc => Nat.max (wrappers x) acc) 0%nat l)
  | AV_M m => S (fold_right (fun kv acc => Nat.max (wrappers kv.2) acc) 0%nat m)
  | _ => 0%nat
  end.

Lemma depth_iff v : forall d, (d < 32)%nat ->
  check_attribute_value_depth v d = Ok tt <-> (d + wrappers v < 32)%nat.
Proof.
  induction v as [| | | | | | | |l IH|m IH]; intros d Hd; cbn [check_attribute_value_depth wrappers];
    try (split; [lia|done]).
  - unfold MAX_ITEM_NESTING_DEPTH. destruct (Nat.leb_spec 32 (d + 1)); [split; [done|lia]|].
    rewrite for_each_Forall.
    transitivity (Forall (fun x => (wrappers x <= 30 - d)%nat) l); [|rewrite <- Forall_max; lia].
    apply Forall_iff_In. intros x Hx.
    etransitivity; [apply (proj1 (List.Forall_forall _ _) IH x Hx)|]; lia.
  - unfold MAX_ITEM_NESTING_DEPTH. destruct (Nat.leb_spec 32 (d + 1)); [split; [done|lia]|].
    rewrite for_each_Forall.
    transitivity (Forall (fun kv : string * AttributeValue => (wrappers kv.2 <= 30 - d)%nat) m);
      [|rewrite <- (Forall_max (fun kv => wrappers kv.2)); lia].
    apply Forall_iff_In. intros x Hx.
    etransitivity; [apply (proj1 (List.Forall_forall _ _) IH x Hx)|]; lia.
Qed.

(** The nesting check accepts an item exactly when no value of it has more than 32
    levels, the maps and lists around a leaf and the leaf. *)
Theorem nesting_depth_spec item :
  validate_item_nesting_depth item = Ok tt <->
  Forall (fun kv => (wrappers kv.2 + 1 <= MAX_ITEM_NESTING_DEPTH)%nat) item.
Proof.
  unfold validate_item_nesting_depth. rewrite for_each_Forall. apply Forall_iff_In.
  intros [k v] _. cbn [snd]. rewrite depth_iff by lia. unfold MAX_ITEM_NESTING_DEPTH. lia.
Qed.

(** A number anywhere in a value: itself, a member of a set, or in a list or map. *)
Inductive number_in : string -> AttributeValue -> Prop :=
  | number_here n : number_in n (AV_N n)
  | number_member n s : In n s -> number_in n (AV_NS s)
  | number_element n v l : In v l -> number_in n v -> number_in n (AV_L l)
  | number_entry n k v m : In (k, v) m -> number_in n v -> number_in n (AV_M m).

Definition accepted (n : string) : Prop := exists o, validate_and_normalize_number n = Ok o.

Lemma accepted_iff n : (let? _ := validate_and_normalize_number n in Ok tt) = Ok tt <-> accepted n.
Proof. unfold accepted. destruct (validate_and_normalize_number n); naive_solver. Qed.

Lemma number_check_iff v :
  validate_attribute_number v = Ok tt <-> forall n, number_in n v -> accepted n.
Proof.
  induction v as [|n| | |s| | | |l IH|m IH]; cbn [validate_attribute_number];
    try (split; [inversion 2|done]).
  - rewrite accepted_iff. split; [by inversion 2; subst|]. intros Hn. apply Hn. constructor.
  - rewrite for_each_Forall, List.Forall_forall. setoid_rewrite accepted_iff. split.
    + intros Hs n. inversion 1; subst. auto.
    + intros Hs n Hn. apply Hs. by constructor.
  - rewrite for_each_Forall, List.Forall_forall. rewrite List.Forall_forall in IH. split.
    + intros Hl n. inversion 1; subst. eapply IH; eauto.
    + intros Hl v Hv. apply IH; [done|]. intros n Hn. apply Hl. by econstructor.
  - rewrite for_each_Forall, List.Forall_forall. rewrite List.Forall_forall in IH. split.
    + intros Hm n. inversion 1; subst. eapply (IH (k, v)); eauto.
    + intros Hm [k v] Hv. apply (IH (k, v)); [done|]. intros n Hn. apply Hm. by econstructor.
Qed.

(** The number check accepts an item exactly when every number in it, at any depth and
    in every number set, is one that normalises. *)
Theorem item_numbers_spec item :
  validate_item_numbers item = Ok tt <->
  forall k v n, In (k, v) item -> number_in n v -> accepted n.
Proof.
  unfold validate_item_numbers. rewrite for_each_Forall, List.Forall_forall. split.
  - intros Hi k v n Hv. apply number_check_iff. by apply (Hi (k, v)).
  - intros Hi [k v] Hv. apply number_check_iff. eauto.
Qed.

(** ** Sizes are defined and add up *)

Lemma sum_results_Ok {A : Type} (f : A -> res N) l :
  Forall (fun x => exists n, f x = Ok n) l -> exists n, sum_results f l = Ok n.
Proof.
  induction 1 as [|x l [n Hn] Hl [m Hm]]; simpl; [eauto|]. rewrite Hn, Hm. eauto.
Qed.

Lemma sum_results_perm {A : Type} (f : A -> res N) l k n :
  Permutation l k -> sum_results f l = Ok n -> sum_results f k = Ok n.
Proof.
  intros Hp. revert n. induction Hp as [|x l k Hp IH|x y l|l k j Hp IH Hp' IH']; intros n; simpl; auto.
  - destruct (f x) as [a|]; [|done]. destruct (sum_results f l) as [b|]; [|done].
    rewrite (IH b) by done. auto.
  - destruct (f x) as [a|]; [|by destruct (f y)]. destruct (f y) as [b|]; [|done].
    destruct (sum_results f l) as [c|]; [|done]. intros [= <-]. f_equal. lia.
Qed.

Lemma number_size_defined n : short n -> accepted n -> exists m, dynamodb_number_size n = Ok m.
Proof.
  intros Hs (o & (neg & i & f & e & Hn)%validate_Ok_numeral).
  destruct (number_size_sized n (numeral_value neg i f e) Hs) as (m & Hm & _); [|eauto].
  by exists neg, i, f, e.
Qed.

(** Every number in the value is accepted and not absurdly long. *)
Definition sizeable (v : AttributeValue) : Prop := forall n, number_in n v -> short n /\ accepted n.

Lemma attribute_value_size_defined v : sizeable v -> exists n, attribute_value_size v = Ok n.
Proof.
  induction v as [|n| |s|s|s| | |l IH|m IH]; intros Hv; cbn [attribute_value_size]; eauto.
  - destruct (Hv n); [constructor|]. by apply number_size_defined.
  - apply sum_results_Ok, List.Forall_forall. eauto.
  - apply sum_results_Ok, List.Forall_forall. intros n Hn.
    destruct (Hv n); [by constructor|]. by apply number_size_defined.
  - apply sum_results_Ok, List.Forall_forall. eauto.
  - destruct (sum_results_Ok (fun v => let? s := attribute_value_size v in Ok (s + 1)) l) as [n ->]; [|eauto].
    rewrite List.Forall_forall in IH |- *. intros v Hin.
    destruct (IH v Hin) as [k ->]; [|eauto]. intros n Hn. apply Hv. by econstructor.
  - destruct (sum_results_Ok (fun kv : string * AttributeValue =>
      let? s := attribute_value_size kv.2 in Ok (str_len kv.1 + s + 1)) m) as [n ->]; [|eauto].
    rewrite List.Forall_forall in IH |- *. intros [k v] Hin.
    destruct (IH (k, v) Hin) as [j Hj]; [|cbn [snd] in *; rewrite Hj; eauto].
    intros n Hn. apply Hv. by econstructor.
Qed.

Lemma bt_remove_above {V : Type} k k' (m : list (string * V)) :
  keys_above k' m = true -> cmp k k' <> Gt -> bt_remove k m = m.
Proof.
  revert k'. induction m as [|[j v] m IH]; intros k' Hab Hk; simpl in *; [done|].
  destruct (cmp k' j) eqn:E; try done.
  assert (cmp k j = Lt) as Hlt.
  { destruct (cmp k k') eqn:E'; [apply cmp_eq_iff in E' as ->; done| |done]. by eapply cmp_lt_trans. }
  rewrite Hlt. f_equal. apply (IH j); [done|]. by rewrite Hlt.
Qed.

Lemma bt_insert_remove_perm {V : Type} k v (m : list (string * V)) :
  bt_sorted m = true -> Permutation (bt_insert k v m) ((k, v) :: bt_remove k m).
Proof.
  induction m as [|[j w] m IH]; intros Hs; simpl; [done|]. rewrite bt_sorted_cons in Hs.
  destruct (cmp k j) eqn:E.
  - by apply cmp_eq_iff in E as ->.
  - rewrite (bt_remove_above k j); [done|done|by rewrite E].
  - rewrite IH by (by eapply keys_above_sorted). apply perm_swap.
Qed.

(** Sizes are defined and add up: the size of an item whose numbers are accepted is
    computed without a panic, and putting an attribute into an item adds the length of
    its name and the size of its value to the size of the rest. *)
Theorem item_size_accounting item k v :
  bt_sorted item = true -> sizeable v -> (forall k' v', In (k', v') item -> sizeable v') ->
  exists rest s, item_size_bytes (bt_remove k item) = Ok rest /\ attribute_value_size v = Ok s /\
    item_size_bytes (bt_insert k v item) = Ok (str_len k + s + rest).
Proof.
  intros Hs Hv Hi. destruct (attribute_value_size_defined v Hv) as [s Es].
  assert (exists rest, item_size_bytes (bt_remove k item) = Ok rest) as [rest Er].
  { apply sum_results_Ok, List.Forall_forall. intros [k' v'] Hin%In_bt_remove.
    destruct (attribute_value_size_defined v' (Hi _ _ Hin)) as [n Hn]. cbn [snd]. rewrite Hn. eauto. }
  exists rest, s. split_and!; [done|done|]. unfold item_size_bytes.
  eapply sum_results_perm; [symmetry; by apply bt_insert_remove_perm|]. simpl.
  rewrite Es. unfold item_size_bytes in Er. by rewrite Er.
Qed.

Lemma item_size_accounting_witness :
  exists rest s, item_size_bytes [("b", AV_N "1.5")] = Ok rest /\ attribute_value_size (AV_S "xyz") = Ok s /\
    item_size_bytes [("a", AV_S "xyz"); ("b", AV_N "1.5")] = Ok (str_len "a" + s + rest).
Proof.
  apply (item_size_accounting [("a", AV_Null); ("b", AV_N "1.5")] "a" (AV_S "xyz")).
  - reflexivity.
  - intros n Hn. inversion Hn.
  - intros k' v' [[= <- <-]|[[= <- <-]|[]]] n Hn; inversion Hn; subst.
    split; [reflexivity|]. exists "1.5". vm_compute. reflexivity.
Defined.

(** ** The size of a statement of SET clauses *)

Fixpoint sum_of {A : Type} (f : A -> N) (l : list A) : N :=
  match l with
  | [] => 0
  | x :: l' => f x + sum_of f l'
  end.

Lemma fold_left_sum {A : Type} (f : A -> N) l : forall a,
  fold_left (fun acc x => acc + f x) l a = a + sum_of f l.
Proof. induction l as [|x l IH]; intros a; simpl; [lia|]. rewrite IH. lia. Qed.

Lemma sum_of_perm {A : Type} (f : A -> N) l k : Permutation l k -> sum_of f l = sum_of f k.
Proof. induction 1; simpl; lia. Qed.

(** A tree of whole attributes. *)
Definition flat (entries : list (string * N)) : WrittenNode :=
  mkWrittenNode 0 (map (fun ns => (ns.1, mkWrittenNode ns.2 [] [])) entries) [].

Lemma flat_size entries : written_node_size (flat entries) - 3 = sum_of (fun ns => str_len ns.1 + ns.2 + 1) entries.
Proof.
  unfold flat. cbn [written_node_size].
  assert (forall l, sum_of (fun nc : string * WrittenNode => str_len nc.1 + written_node_size nc.2 + 1)
    (map (fun ns : string * N => (ns.1, mkWrittenNode ns.2 [] [])) l) =
    sum_of (fun ns => str_len ns.1 + ns.2 + 1) l) as Hsum.
  { induction l as [|[n s] l IH]; simpl; [done|]. rewrite IH. simpl. lia. }
  destruct entries as [|ns entries]; [done|]. cbn [map]. rewrite fold_left_sum.
  change (?x :: map ?f entries) with (map f (ns :: entries)). rewrite Hsum. simpl. lia.
Qed.

Lemma bt_get_map {V W : Type} (f : V -> W) k (m : list (string * V)) :
  bt_get k (map (fun kv => (kv.1, f kv.2)) m) = f <$> bt_get k m.
Proof. induction m as [|[j v] m IH]; simpl; [done|]. by destruct (cmp k j). Qed.

Lemma bt_insert_map {V W : Type} (f : V -> W) k v (m : list (string * V)) :
  bt_insert k (f v) (map (fun kv => (kv.1, f kv.2)) m) = map (fun kv => (kv.1, f kv.2)) (bt_insert k v m).
Proof.
  induction m as [|[j w] m IH]; simpl; [done|]. destruct (cmp k j); simpl; [done|done|by rewrite IH].
Qed.

Lemma bt_remove_absent {V : Type} k (m : list (string * V)) : bt_get k m = None -> bt_remove k m = m.
Proof.
  induction m as [|[j v] m IH]; simpl; [done|]. destruct (cmp k j); [done| |]; intros Hm; by rewrite IH.
Qed.

Section StatementSize.
Context {D : Type} `{BigDecimal D}.
Implicit Type maps : ExpressionMaps D.

(** A clause's attribute name and the bytes of its operand. *)
Definition clause_bytes maps (c : string * Expr) (ns : string * N) : Prop :=
  resolve_name_ref c.1 maps = Ok ns.1 /\ update_operand_size c.2 maps = Ok ns.2.

Lemma write_flat maps name n leaf entries :
  resolve_name_ref name maps = Ok n -> bt_get n entries = None ->
  write_path [PAttr name] leaf maps (flat entries) = Ok (flat (bt_insert n leaf entries)).
Proof.
  intros Hn Hg. unfold flat. cbn [write_path resolve_element_name]. rewrite Hn.
  rewrite (bt_get_map (fun s => mkWrittenNode s [] [])), Hg. simpl. rewrite N.add_0_l.
  by rewrite (bt_insert_map (fun s => mkWrittenNode s [] [])).
Qed.

Lemma statement_loop_sets maps clauses nss : Forall2 (clause_bytes maps) clauses nss ->
  forall bytes entries, List.NoDup (map fst nss) -> bt_sorted entries = true ->
  (forall n, In n (map fst nss) -> bt_get n entries = None) ->
  exists entries',
    statement_loop (map (fun c => USet [PAttr c.1] c.2) clauses) maps bytes (flat entries) =
      Ok (bytes + 18 * len nss, flat entries') /\
    sum_of (fun ns => str_len ns.1 + ns.2 + 1) entries' =
      sum_of (fun ns => str_len ns.1 + ns.2 + 1) nss + sum_of (fun ns => str_len ns.1 + ns.2 + 1) entries.
Proof.
  induction 1 as [|[name e] [n s] clauses nss [Hn Hs] Hf IH]; intros bytes entries Hnd Hso Hfree.
  { exists entries. simpl. split; [|lia]. f_equal. f_equal. unfold len. cbn [length]. lia. }
  simpl in Hn, Hs, Hnd. inversion Hnd as [|? ? Hnot Hnd']; subst.
  cbn [map statement_loop fst snd]. rewrite Hs. cbn [ends_in_index last_error].
  rewrite (write_flat _ _ _ _ _ Hn) by (apply Hfree; by left).
  destruct (IH (bytes + UPDATE_SET_CLAUSE_COST) (bt_insert n s entries)) as (entries' & -> & Hsum);
    [done|by apply bt_insert_sorted| |].
  { intros k Hk. rewrite bt_get_insert_ne; [apply Hfree; by right|]. by intros ->. }
  exists entries'. split.
  - f_equal. f_equal. unfold len, UPDATE_SET_CLAUSE_COST. cbn [length]. lia.
  - rewrite Hsum, (sum_of_perm _ _ _ (bt_insert_remove_perm n s entries Hso)). simpl.
    rewrite (bt_remove_absent n entries) by (apply Hfree; by left). lia.
Qed.

(** A statement of SET clauses on distinct attributes is charged 3, and for each
    clause 18, the attribute's name and one byte, and the bytes of its operand. *)
Theorem statement_size_sets maps clauses nss :
  Forall2 (clause_bytes maps) clauses nss -> List.NoDup (map fst nss) ->
  update_statement_size (map (fun c => USet [PAttr c.1] c.2) clauses) maps =
  Ok (3 + sum_of (fun ns => 18 + (str_len ns.1 + 1) + ns.2) nss).
Proof.
  intros Hf Hnd. unfold update_statement_size. change default_written with (flat []).
  destruct (statement_loop_sets _ _ _ Hf UPDATE_STATEMENT_BASE_COST []) as (entries & -> & Hsum); try done.
  rewrite flat_size, Hsum. f_equal. unfold UPDATE_STATEMENT_BASE_COST.
  assert (forall l : list (string * N), sum_of (fun ns => 18 + (str_len ns.1 + 1) + ns.2) l =
    18 * len l + sum_of (fun ns => str_len ns.1 + ns.2 + 1) l) as ->; [|simpl; lia].
  unfold len. induction l as [|ns l IH]; cbn [sum_of length]; [done|]. rewrite IH. lia.
Qed.
End StatementSize.

Lemma statement_size_sets_witness :
  update_statement_size (D := dec) [USet [PAttr "ab"] (EPlaceholder "v")]
    (maps_new ∅ {["v" := AV_S "xyz"]}) = Ok (3 + (18 + (2 + 1) + 3 + 0)).
Proof.
  apply (statement_size_sets (D := dec) (maps_new ∅ {["v" := AV_S "xyz"]})
    [("ab", EPlaceholder "v")] [("ab", 3)]).
  - constructor; [|constructor]. split; vm_compute; reflexivity.
  - simpl. constructor; [intros []|constructor].
Defined.

(** Text that is no number can make the size panic: the slice at the point is not on a
    character boundary. *)
Theorem number_size_panics :
  dynamodb_number_size (of_bytes (["195"%char; "169"%char] ++ as_bytes "1e-2")) = Err Panic.
Proof. vm_compute. reflexivity. Qed.
