(* ===== verification/Storage.v ===== *)
(** * The storage boundary

    What the request handlers share about storage: the errors of
    [crates/storage/src/error.rs] and how [crates/engine/src/create_table.rs] maps
    them to wire errors, the message templates of
    [crates/core/src/error/messages.rs], the index descriptions of
    [crates/core/src/types] and the index helpers of
    [crates/engine/src/index_helpers.rs]. *)

From S2P Require Import Prelude BTree Types Error ItemSize.

(** ** Message templates *)

Definition validation_error (value field constraint : string) : string :=
  "1 validation error detected: Value '" +:+ value +:+ "' at '" +:+ field
  +:+ "' failed to satisfy constraint: " +:+ constraint.

Definition validation_errors (errors : list (string * string * string)) : string :=
  let count := length errors in
  let details := map (fun '(value, field, constraint) =>
    "Value '" +:+ value +:+ "' at '" +:+ field +:+ "' failed to satisfy constraint: "
    +:+ constraint) errors in
  nat_to_string count +:+ " validation error" +:+ (if count =? 1 then "" else "s")
  +:+ " detected: " +:+ join "; " details.

Inductive ErrorMessageKey : Type :=
  | TableNameTooShort | TableNameTooLong | TableNameNull | TableNameEmpty
  | TableNameInvalidChars | MsgTableNotFound | MsgTableAlreadyExists | TableInUse
  | MissingKeySchema | KeySchemaTooMany | KeySchemaFirstNotHash | AttrDefNotInKey.

(** [error_message]; [None] is the panic of [args[0]] on an empty slice. *)
Definition template_message (key : ErrorMessageKey) (args : list string) : option string :=
  match key with
  | TableNameTooShort =>
      a ← head args; Some ("1 validation error detected: Value '" +:+ a
        +:+ "' at 'tableName' failed to satisfy constraint: Member must have length greater than or equal to 3")
  | TableNameTooLong =>
      a ← head args; Some ("1 validation error detected: Value '" +:+ a
        +:+ "' at 'tableName' failed to satisfy constraint: Member must have length less than or equal to 255")
  | TableNameNull =>
      Some "1 validation error detected: Value null at 'tableName' failed to satisfy constraint: Member must not be null"
  | TableNameEmpty =>
      Some "1 validation error detected: Value '' at 'tableName' failed to satisfy constraint: Member must have length greater than or equal to 1"
  | TableNameInvalidChars =>
      a ← head args; Some ("1 validation error detected: Value '" +:+ a
        +:+ "' at 'tableName' failed to satisfy constraint: Member must satisfy regular expression pattern: [a-zA-Z0-9_.-]+")
  | MsgTableNotFound => Some "Requested resource not found"
  | MsgTableAlreadyExists => a ← head args; Some ("Table already exists: " +:+ a)
  | TableInUse => a ← head args; Some ("Table is being created, updated, or deleted: " +:+ a)
  | MissingKeySchema =>
      Some "1 validation error detected: Value null at 'keySchema' failed to satisfy constraint: Member must not be null"
  | KeySchemaTooMany => Some "Too many KeySchema attributes defined for table"
  | KeySchemaFirstNotHash => Some "First KeySchemaElement is not a HASH type"
  | AttrDefNotInKey =>
      a ← head args; Some ("Number of attributes in KeySchema does not exactly match number of attributes defined in AttributeDefinitions: " +:+ a)
  end.

(** The templates as the callers use them: with their argument. *)
Definition message_for (key : ErrorMessageKey) (name : string) : string :=
  default "" (template_message key [name]).

(** ** Storage errors *)

Inductive StorageError : Type :=
  | SE_TableNotFound (name : string)
  | SE_TableAlreadyExists (name : string)
  | SE_TableNotActive (name : string)
  | SE_TableBeingRestored (table_name backup_arn : string)
  | SE_IndexNotFound (name : string)
  | SE_IndexAlreadyExists (name : string)
  | SE_IndexesInUse (msg : string)
  | SE_DeletionProtected (arn : string)
  | SE_ConditionFailed (item : option Item)
  | SE_TransactionCanceled (reasons : list CancellationReason)
  | SE_IdempotentReplay
  | SE_IdempotentMismatch
  | SE_TransactionConflict (msg : string)
  | SE_NoOpUpdate (msg : string)
  | SE_Validation (msg : string)
  | SE_LimitExceeded (msg : string)
  | SE_BackupInUse (msg : string)
  | SE_AlreadyExists (msg : string)
  | SE_Transient (msg : string)
  | SE_SnapshotExpired (msg : string)
  | SE_Connection (msg : string)
  | SE_Unsupported (msg : string)
  | SE_Internal (msg : string).

Definition storage_err_to_dynamo (e : StorageError) : DynamoDbError :=
  match e with
  | SE_TableNotFound name => ResourceNotFoundException (message_for MsgTableNotFound name)
  | SE_TableAlreadyExists name => ResourceInUseException (message_for MsgTableAlreadyExists name)
  | SE_TableNotActive name => ResourceInUseException (message_for TableInUse name)
  | SE_TableBeingRestored table_name _ =>
      ResourceInUseException (message_for MsgTableAlreadyExists table_name)
  | SE_IndexNotFound name =>
      ValidationException ("The table does not have the specified index: " +:+ name)
  | SE_IndexAlreadyExists name =>
      ValidationException ("One or more parameter values were invalid: Index already exists: " +:+ name)
  | SE_AlreadyExists _ => InternalServerError "Internal server error"
  | SE_IndexesInUse msg => ResourceInUseException msg
  | SE_BackupInUse msg => BackupInUseException msg
  | SE_LimitExceeded msg => LimitExceededException msg
  | SE_Transient _ | SE_SnapshotExpired _ =>
      ServiceUnavailable "Service is temporarily unavailable"
  | SE_DeletionProtected arn =>
      ValidationException ("Resource '" +:+ arn +:+ "' cannot be deleted as it is currently protected against deletion. Disable deletion protection first then try again.")
  | SE_Connection _ => ServiceUnavailable "Service is temporarily unavailable"
  | SE_Unsupported msg => ValidationException msg
  | SE_ConditionFailed _ =>
      ConditionalCheckFailedException "The conditional request failed" None
  | SE_TransactionCanceled reasons =>
      TransactionCanceledException
        ("Transaction cancelled, please refer cancellation reasons for specific reasons ["
         +:+ join ", " (map cr_code reasons) +:+ "]")
        reasons
  | SE_Validation msg => ValidationException msg
  | SE_NoOpUpdate msg => ValidationException msg
  | SE_IdempotentReplay | SE_IdempotentMismatch => InternalServerError "Internal server error"
  | SE_TransactionConflict msg => TransactionConflictException msg
  | SE_Internal _ => InternalServerError "Internal server error"
  end.

Inductive ReturnValuesOnConditionCheckFailure : Type := RVNone | RVAllOld.

Definition storage_err_to_dynamo_with_ccf (e : StorageError)
    (ccf : ReturnValuesOnConditionCheckFailure) : DynamoDbError :=
  match e with
  | SE_ConditionFailed item =>
      ConditionalCheckFailedException "The conditional request failed"
        (match ccf with RVAllOld => item | RVNone => None end)
  | other => storage_err_to_dynamo other
  end.

(** ** Indexes *)

Inductive ProjectionType : Type := ProjAll | ProjKeysOnly | ProjInclude.
Inductive IndexType : Type := Gsi | Lsi | Vector.
Inductive Select : Type :=
  | AllAttributes | AllProjectedAttributes | Count | SpecificAttributes.

#[export] Instance ProjectionType_eq_dec : EqDecision ProjectionType.
Proof. solve_decision. Defined.
#[export] Instance IndexType_eq_dec : EqDecision IndexType.
Proof. solve_decision. Defined.
#[export] Instance Select_eq_dec : EqDecision Select.
Proof. solve_decision. Defined.

(** [types::Projection]: what an index copies. *)
Record IndexProjection : Type := {
  projection_type : ProjectionType;
  non_key_attributes : option (list string)
}.

Record IndexInfo : Type := {
  index_name : string;
  index_id : string;
  index_type : IndexType;
  idx_key_schema : list KeySchemaElement;
  idx_projection : IndexProjection
}.

(** The fields of [TableKeyInfo] that the read path uses. *)
Record TableKeyInfo : Type := {
  tki_table_id : string;
  tki_key_schema : list KeySchemaElement;
  tki_base_key_schema : list KeySchemaElement;
  tki_attribute_definitions : list AttributeDefinition
}.

Definition combined_lek_key_schema (base_key_schema : list KeySchemaElement)
    (index_info : option IndexInfo) : list KeySchemaElement :=
  match index_info with
  | None => base_key_schema
  | Some idx =>
      fold_left (fun combined ks =>
        if existsb (fun k => String.eqb (ks_attribute_name k) (ks_attribute_name ks)) combined
        then combined else combined ++ [ks])
        (idx_key_schema idx) base_key_schema
  end.

Definition apply_index_projection (item : Item) (index_info : IndexInfo)
    (base_key_schema : list KeySchemaElement) : Item :=
  match projection_type (idx_projection index_info) with
  | ProjAll => item
  | ProjKeysOnly | ProjInclude =>
      let allowed := fold_left (fun s ks => set_insert (ks_attribute_name ks) s) base_key_schema [] in
      let allowed := fold_left (fun s ks => set_insert (ks_attribute_name ks) s)
                       (idx_key_schema index_info) allowed in
      let allowed :=
        match non_key_attributes (idx_projection index_info) with
        | Some non_key => fold_left (fun s attr => set_insert attr s) non_key allowed
        | None => allowed
        end in
      bt_of_list (List.filter (fun kv => set_contains kv.1 allowed) item)
  end.

Definition validate_all_attributes_index_support (select : option Select)
    (is_gsi projects_all : bool) (index_name : string) : res unit :=
  if bool_decide (select = Some AllAttributes) && is_gsi && negb projects_all
  then fail ("One or more parameter values were invalid: Select type ALL_ATTRIBUTES is not supported for global secondary index " +:+ index_name +:+ " because its projection type is not ALL")
  else Ok tt.

Definition validate_query_select_index_support (select : option Select)
    (index_info : option IndexInfo) : res unit :=
  match index_info with
  | None => Ok tt
  | Some idx =>
      validate_all_attributes_index_support select
        (bool_decide (index_type idx = Gsi))
        (bool_decide (projection_type (idx_projection idx) = ProjAll))
        (index_name idx)
  end.

(** ** Request parameters *)

Definition validate_select_projection (select : option Select)
    (has_projection has_attributes_to_get has_index_name is_query : bool) : res unit :=
  let envelope (body : string) :=
    if is_query then "1 validation error detected: " +:+ body else body in
  let incompatible :=
    match select with
    | Some AllAttributes => Some "ALL_ATTRIBUTES"
    | Some AllProjectedAttributes => Some "ALL_PROJECTED_ATTRIBUTES"
    | Some Count => Some "only the Count"
    | _ => None
    end in
  let? _ :=
    if has_projection then
      match incompatible with
      | Some what =>
          fail (envelope ("Cannot specify the ProjectionExpression when choosing to get " +:+ what))
      | None => Ok tt
      end
    else Ok tt in
  if bool_decide (select = Some SpecificAttributes) && negb has_projection
     && negb has_attributes_to_get
  then fail (envelope "Must specify the AttributesToGet or ProjectionExpression when choosing to get SPECIFIC_ATTRIBUTES")
  else if bool_decide (select = Some AllProjectedAttributes) && negb has_index_name
  then fail "ALL_PROJECTED_ATTRIBUTES can be used only when Querying using an IndexName"
  else Ok tt.

Definition present_names (params : list (string * bool)) : string :=
  join ", " (map fst (List.filter snd params)).

Definition validate_no_expression_param_mixing (non_expression expression : list (string * bool))
    : res unit :=
  if negb (existsb snd non_expression) || negb (existsb snd expression) then Ok tt
  else fail ("Can not use both expression and non-expression parameters in the same request: Non-expression parameters: {"
             +:+ present_names non_expression +:+ "} Expression parameters: {"
             +:+ present_names expression +:+ "}").

Definition validate_conditional_operator_usage (conditional_operator_present : bool)
    (condition_count : nat) : res unit :=
  if negb conditional_operator_present then Ok tt
  else match condition_count with
       | 0 => fail "ConditionalOperator cannot be used without Filter or Expected"
       | 1 => fail "ConditionalOperator can only be used when Filter or Expected has two or more elements"
       | _ => Ok tt
       end.

(** ** Keys of an item *)

Definition key_names (key_schema : list KeySchemaElement) : list string :=
  map ks_attribute_name key_schema.

Lemma extract_key_fold (item : Item) ks (key : Item) k :
  bt_sorted key = true ->
  bt_sorted (fold_left (fun key ks => match bt_get (ks_attribute_name ks) item with
    | Some val => bt_insert (ks_attribute_name ks) val key | None => key end) ks key) = true
  /\ bt_get k (fold_left (fun key ks => match bt_get (ks_attribute_name ks) item with
    | Some val => bt_insert (ks_attribute_name ks) val key | None => key end) ks key)
  = if bool_decide (k ∈ key_names ks) then match bt_get k item with
      | Some v => Some v | None => bt_get k key end else bt_get k key.
Proof.
  revert key. induction ks as [|e ks IH]; intros key Hs; simpl.
  { done. }
  assert (Hs' : bt_sorted match bt_get (ks_attribute_name e) item with
    | Some val => bt_insert (ks_attribute_name e) val key | None => key end = true).
  { destruct (bt_get (ks_attribute_name e) item); [by apply bt_insert_sorted|done]. }
  destruct (IH _ Hs') as [H1 H2]. split; [done|]. rewrite H2. clear H1 H2.
  destruct (decide (k = ks_attribute_name e)) as [->|Hne].
  - rewrite (bool_decide_eq_true_2 (_ ∈ _ :: _)) by set_solver.
    destruct (bt_get (ks_attribute_name e) item) as [v|]; case_bool_decide;
      rewrite ?bt_get_insert_eq; done.
  - destruct (bt_get (ks_attribute_name e) item) as [v|];
      rewrite ?(bt_get_insert_ne k) by done;
      (destruct (decide (k ∈ key_names ks)) as [Hin|Hin];
       [rewrite !bool_decide_eq_true_2 by set_solver; done
       |rewrite !bool_decide_eq_false_2 by set_solver; done]).
Qed.

(** [extract_key] keeps exactly the key attributes the item has. *)
Lemma extract_key_get item ks k :
  bt_get k (extract_key item ks) = if bool_decide (k ∈ key_names ks) then bt_get k item else None.
Proof.
  unfold extract_key. rewrite (proj2 (extract_key_fold item ks [] k eq_refl)). simpl.
  case_bool_decide; [by destruct (bt_get k item)|done].
Qed.

Lemma extract_key_sorted item ks : bt_sorted (extract_key item ks) = true.
Proof. exact (proj1 (extract_key_fold item ks [] "" eq_refl)). Qed.

(** The key of an index page names the attributes of both keys, once each. *)
Lemma combined_lek_names base idx k :
  k ∈ key_names (combined_lek_key_schema base idx)
  <-> k ∈ key_names base \/ exists i, idx = Some i /\ k ∈ key_names (idx_key_schema i).
Proof.
  destruct idx as [i|]; simpl; [|naive_solver].
  transitivity (k ∈ key_names base \/ k ∈ key_names (idx_key_schema i)); [|naive_solver].
  generalize (idx_key_schema i) as l. intros l. revert base.
  induction l as [|e l IH]; intros base; simpl; [set_solver|].
  rewrite IH. destruct (existsb _ base) eqn:E.
  - apply existsb_exists in E as (x & Hx & Ex%String.eqb_eq).
    assert (ks_attribute_name e ∈ key_names base).
    { rewrite <- Ex. apply list_elem_of_In, in_map_iff. eauto. }
    set_solver.
  - unfold key_names. rewrite map_app. set_solver.
Qed.

Lemma combined_lek_NoDup base idx :
  NoDup (key_names base) -> NoDup (key_names (combined_lek_key_schema base idx)).
Proof.
  destruct idx as [i|]; simpl; [|done]. generalize (idx_key_schema i) as l. intros l. revert base.
  induction l as [|e l IH]; intros base Hn; simpl; [done|]. apply IH.
  destruct (existsb _ base) eqn:E; [done|]. unfold key_names. rewrite map_app.
  apply list.NoDup_app. split; [done|]. split; [|by apply NoDup_singleton].
  intros x Hx. simpl. rewrite list_elem_of_singleton. intros ->.
  apply list_elem_of_In, in_map_iff in Hx as (y & Ey & Hy).
  assert (existsb (fun k => String.eqb (ks_attribute_name k) (ks_attribute_name e)) base = true); [|congruence].
  apply existsb_exists. exists y. split; [done|]. by apply String.eqb_eq.
Qed.
