(* ===== verification/UpdateKeys.v ===== *)
(** * Updates and the key

    [crates/engine/src/update_item.rs]: the refusal of updates that target a key
    attribute, and what that guarantees of the updates that pass. *)

From S2P Require Import Prelude BTree Types Error Decimal Number Ast Tokenizer Resolver Evaluator.
From S2P Require Import UpdateEvaluator ItemSize Storage.

Section UpdateKeys.
Context {D : Type} `{BigDecimal D}.
Implicit Type maps : ExpressionMaps D.

(** The loop over the key schema. *)
Definition check_not_key (key_schema : list KeySchemaElement) (resolved : string) : res unit :=
  for_each (fun ks =>
    if String.eqb (ks_attribute_name ks) resolved
    then fail ("One or more parameter values were invalid: Cannot update attribute "
               +:+ ks_attribute_name ks +:+ ". This attribute is part of the key")
    else Ok tt) key_schema.

Definition validate_no_key_updates (actions : list UpdateAction) (key_info : TableKeyInfo) maps : res unit :=
  for_each (fun action =>
    match action_path action with
    | PAttr name :: _ =>
        let? resolved :=
          match strip_prefix_char "#" name with
          | Some ref_name => resolve_name maps ref_name
          | None => Ok name
          end in
        check_not_key (tki_key_schema key_info) resolved
    | _ => Ok tt
    end) actions.

(** ** What an update leaves alone *)

(** The path does not begin at the attribute [n]. *)
Definition off_path (n : string) (path : list PathElement) maps : Prop :=
  forall e rest name, path = e :: rest -> resolve_attr_name e maps = Ok name -> name <> n.

Lemma set_path_frame n item path value maps item' : off_path n path maps ->
  set_path item path value maps = Ok item' -> bt_get n item' = bt_get n item.
Proof.
  intros Hn. unfold set_path. destruct path as [|e rest]; [done|].
  destruct (resolve_attr_name e maps) as [name|] eqn:E; [|done]. specialize (Hn e rest name eq_refl E).
  destruct rest as [|e' rest].
  - intros [= <-]. apply bt_get_insert_ne. congruence.
  - destruct (bt_get name item); [|done]. destruct (set_nested _ _ _ _); [|done]. intros [= <-].
    apply bt_get_insert_ne. congruence.
Qed.

Lemma remove_path_frame n item path maps item' : off_path n path maps ->
  remove_path item path maps = Ok item' -> bt_get n item' = bt_get n item.
Proof.
  intros Hn. unfold remove_path. destruct path as [|e rest]; [by intros [= ->]|].
  destruct (resolve_attr_name e maps) as [name|] eqn:E; [|done]. specialize (Hn e rest name eq_refl E).
  destruct rest as [|e' rest].
  - intros [= <-]. apply bt_get_remove_ne. congruence.
  - destruct (bt_get name item); [|by intros [= ->]]. destruct (remove_nested _ _ _); [|done]. intros [= <-].
    apply bt_get_insert_ne. congruence.
Qed.

Lemma apply_add_frame n item path value maps item' : off_path n path maps ->
  apply_add item path value maps = Ok item' -> bt_get n item' = bt_get n item.
Proof.
  intros Hn. unfold apply_add, navigate_to_parent_map_or_create. destruct path as [|e [|e' rest]]; [done| |].
  - simpl. destruct (resolve_attr_name e maps) as [name|] eqn:E; [|done]. specialize (Hn e [] name eq_refl E).
    destruct (add_value _ _); [|done]. intros [= <-]. apply bt_get_insert_ne. congruence.
  - destruct (resolve_attr_name e maps) as [name|] eqn:E; [|done].
    specialize (Hn e (e' :: rest) name eq_refl E). destruct (create_nested _ _ _ _); [|done]. intros [= <-].
    apply bt_get_insert_ne. congruence.
Qed.

Lemma apply_delete_frame n item path value maps item' : off_path n path maps ->
  apply_delete item path value maps = Ok item' -> bt_get n item' = bt_get n item.
Proof.
  intros Hn. unfold apply_delete, navigate_to_parent_map. destruct path as [|e [|e' rest]]; [done| |].
  - simpl. destruct (resolve_attr_name e maps) as [name|] eqn:E; [|done]. specialize (Hn e [] name eq_refl E).
    destruct (bt_get name item); [|by intros [= ->]]. destruct (delete_value _ _) as [[]|]; [| |done]; intros [= <-].
    + apply bt_get_insert_ne. congruence.
    + apply bt_get_remove_ne. congruence.
  - destruct (resolve_attr_name e maps) as [name|] eqn:E; [|done].
    specialize (Hn e (e' :: rest) name eq_refl E). destruct (bt_get name item); [|by intros [= ->]].
    destruct (walk_nested _ _ _ _); [|done]. intros [= <-]. apply bt_get_insert_ne. congruence.
Qed.

Lemma for_actions_frame n f actions :
  (forall a i i', In a actions -> f a i = Ok i' -> bt_get n i' = bt_get n i) ->
  forall item item', for_actions f actions item = Ok item' -> bt_get n item' = bt_get n item.
Proof.
  induction actions as [|a actions IH]; intros Hf item item'; simpl; [by intros [= ->]|].
  destruct (f a item) as [i|] eqn:E; [|done]. intros E'.
  rewrite (IH (fun b i i' Hb => Hf b i i' (or_intror Hb)) i item' E'). eapply Hf; [by left|done].
Qed.

Lemma apply_update_frame n actions item maps item' :
  (forall a, In a actions -> off_path n (action_path a) maps) ->
  apply_update actions item maps = Ok item' -> bt_get n item' = bt_get n item.
Proof.
  intros Hn. unfold apply_update.
  assert (Hset : forall a i i', In a actions -> set_action item maps a i = Ok i' -> bt_get n i' = bt_get n i).
  { intros a i i' Ha. specialize (Hn a Ha). destruct a; simpl in *; try (by intros [= ->]).
    destruct (evaluate_set_value _ _ _); [|done]. by apply set_path_frame. }
  assert (Hrem : forall a i i', In a actions -> remove_action maps a i = Ok i' -> bt_get n i' = bt_get n i).
  { intros a i i' Ha. specialize (Hn a Ha). destruct a; simpl in *; try (by intros [= ->]).
    by apply remove_path_frame. }
  assert (Hadd : forall a i i', In a actions -> add_action maps a i = Ok i' -> bt_get n i' = bt_get n i).
  { intros a i i' Ha. specialize (Hn a Ha). destruct a; simpl in *; try (by intros [= ->]).
    destruct (evaluate_set_value _ _ _); [|done]. by apply apply_add_frame. }
  assert (Hdel : forall a i i', In a actions -> delete_action maps a i = Ok i' -> bt_get n i' = bt_get n i).
  { intros a i i' Ha. specialize (Hn a Ha). destruct a; simpl in *; try (by intros [= ->]).
    destruct (evaluate_set_value _ _ _); [|done]. by apply apply_delete_frame. }
  destruct (for_actions _ actions item) as [i1|] eqn:E1; [|done].
  destruct (for_actions _ actions i1) as [i2|] eqn:E2; [|done].
  destruct (for_actions _ actions i2) as [i3|] eqn:E3; [|done]. intros E4.
  rewrite (for_actions_frame n _ _ Hdel _ _ E4), (for_actions_frame n _ _ Hadd _ _ E3),
    (for_actions_frame n _ _ Hrem _ _ E2). by apply (for_actions_frame n _ _ Hset).
Qed.

Lemma key_updates_off_path actions key_info maps : validate_no_key_updates actions key_info maps = Ok tt ->
  forall ks a, In ks (tki_key_schema key_info) -> In a actions ->
    off_path (ks_attribute_name ks) (action_path a) maps.
Proof.
  intros Hv ks a Hk Ha e rest name Ep Er En. apply (proj1 (for_each_Ok _ _) Hv) in Ha. rewrite Ep in Ha.
  destruct e as [raw|i]; [|done]. unfold resolve_attr_name, resolve_element_name, resolve_name_ref in Er.
  rewrite Er in Ha. apply (proj1 (for_each_Ok _ _) Ha) in Hk. subst name. by rewrite String.eqb_refl in Hk.
Qed.

(** An update that passes the check of key attributes cannot change the key: when
    it applies, every key attribute of the item is as it was. *)
Theorem updates_keep_key actions key_info maps item item' ks :
  validate_no_key_updates actions key_info maps = Ok tt ->
  apply_update actions item maps = Ok item' -> In ks (tki_key_schema key_info) ->
  bt_get (ks_attribute_name ks) item' = bt_get (ks_attribute_name ks) item.
Proof.
  intros Hv Ha Hk. eapply apply_update_frame; [|exact Ha]. intros a Hin. by eapply key_updates_off_path.
Qed.
End UpdateKeys.

Lemma updates_keep_key_witness :
  bt_get "k" [("a", AV_N "1"); ("k", AV_S "x")] = bt_get "k" [("k", AV_S "x")].
Proof.
  apply (updates_keep_key (D := dec) [USet [PAttr "a"] (EPlaceholder "v")]
    {| tki_table_id := "t"; tki_key_schema := [{| ks_attribute_name := "k"; ks_key_type := Hash |}];
       tki_base_key_schema := []; tki_attribute_definitions := [] |}
    (maps_new ∅ {["v" := AV_N "1"]}) [("k", AV_S "x")] _ {| ks_attribute_name := "k"; ks_key_type := Hash |}).
  - vm_compute. reflexivity.
  - vm_compute. reflexivity.
  - left. reflexivity.
Defined.
