(* ===== verification/ReadPage.v ===== *)
(** * Reading a page of a Query or Scan

    [crates/engine/src/read_helpers.rs]: the accumulator that filters, projects and
    meters items one at a time, and [read_page], which fetches chunks from storage
    until the page is full.  Storage is an interface: a stateful [fetch], and the
    laws of a backend that serves a fixed sequence of items.  Against the laws the
    chunked read is refined to a reference page that never mentions chunks, and the
    pages of a client that follows [LastEvaluatedKey] are shown to cover the
    sequence once. *)

From S2P Require Import Prelude BTree Types Error Decimal Ast Resolver Evaluator Projection ItemSize Storage.

Definition PAGE_BYTE_BUDGET : N := 1048576.
Definition FIRST_CHUNK : Z := 128.
Definition MIN_CHUNK : Z := 32.
Definition MAX_CHUNK : Z := 1024.

(** ** The accumulator *)

Record PostRead (D : Type) : Type := {
  pr_filter : option Expr;
  pr_projection : option ProjNode;
  pr_maps : ExpressionMaps D;
  pr_lek_key_schema : list KeySchemaElement;
  pr_select : option Select;
  pr_index_proj : option IndexInfo;
  pr_base_key_schema : list KeySchemaElement
}.
Arguments pr_filter {D} _.
Arguments pr_projection {D} _.
Arguments pr_maps {D} _.
Arguments pr_lek_key_schema {D} _.
Arguments pr_select {D} _.
Arguments pr_index_proj {D} _.
Arguments pr_base_key_schema {D} _.

(** [PageReadResult], with the fields of its [PostReadResult]. *)
Record PageReadResult : Type := {
  pg_items : option (list Item);
  pg_count : Z;
  pg_scanned_count : Z;
  pg_last_evaluated_key : option Item;
  pg_evaluated_bytes : N
}.

Record PostReadAccumulator : Type := {
  acc_scanned_count : Z;
  acc_filtered_count : Z;
  acc_evaluated_bytes : N;
  acc_result_items : list Item;
  acc_last_processed_key : option Item
}.

Definition acc_new : PostReadAccumulator :=
  {| acc_scanned_count := 0; acc_filtered_count := 0; acc_evaluated_bytes := 0;
     acc_result_items := []; acc_last_processed_key := None |}.

(** [Pushed], with the accumulator as [&mut self] leaves it. *)
Inductive Pushed : Type :=
  | Evaluated (acc : PostReadAccumulator)
  | PageFull.

(** [QueryResult]. *)
Definition QueryResult : Type := result StorageError (list Item * option Item).

Section ReadPage.
Context {D : Type} `{BigDecimal D}.
Implicit Types (post : PostRead D) (acc : PostReadAccumulator).

Definition is_count post : bool := bool_decide (pr_select post = Some Count).

(** The error of a filter, labelled. *)
Definition filter_error (e : DynamoDbError) : DynamoDbError :=
  let msg := error_message e in
  if starts_with msg "Invalid " then ValidationException msg
  else ValidationException ("Invalid FilterExpression: " +:+ msg).

(** Whether the item passes the filter. *)
Definition passes post (item : Item) : res bool :=
  match pr_filter post with
  | None => Ok true
  | Some filter_expr =>
      match evaluate_condition filter_expr item (pr_maps post) with
      | Err (Fail e) => Err (Fail (filter_error e))
      | r => r
      end
  end.

Definition projected post (item : Item) : Item :=
  match pr_projection post with
  | Some proj => apply proj item
  | None =>
      match pr_index_proj post with
      | Some idx => apply_index_projection item idx (pr_base_key_schema post)
      | None => item
      end
  end.

Definition push post acc (item : Item) : res Pushed :=
  let? item_bytes := item_size_bytes item in
  if ((0 <? acc_scanned_count acc)%Z
      && (PAGE_BYTE_BUDGET <? acc_evaluated_bytes acc + item_bytes)%N)
  then Ok PageFull
  else
    let acc := {| acc_scanned_count := acc_scanned_count acc + 1;
                  acc_filtered_count := acc_filtered_count acc;
                  acc_evaluated_bytes := acc_evaluated_bytes acc + item_bytes;
                  acc_result_items := acc_result_items acc;
                  acc_last_processed_key := Some (extract_key item (pr_lek_key_schema post)) |} in
    let? passed := passes post item in
    if passed : bool then
      Ok (Evaluated
        {| acc_scanned_count := acc_scanned_count acc;
           acc_filtered_count := acc_filtered_count acc + 1;
           acc_evaluated_bytes := acc_evaluated_bytes acc;
           acc_result_items :=
             if is_count post then acc_result_items acc
             else acc_result_items acc ++ [projected post item];
           acc_last_processed_key := acc_last_processed_key acc |})
    else Ok (Evaluated acc).

Definition next_chunk acc : Z :=
  if (acc_scanned_count acc =? 0)%Z then FIRST_CHUNK
  else
    let avg := N.max (acc_evaluated_bytes acc / Z.to_N (acc_scanned_count acc)) 1 in
    let remaining := (PAGE_BYTE_BUDGET - acc_evaluated_bytes acc)%N in
    let want := (remaining / avg + 1)%N in
    Z.min MAX_CHUNK (Z.max MIN_CHUNK (Z.of_N (want + want / 8))).

Definition finish post acc (more : bool) : PageReadResult :=
  {| pg_items := if is_count post then None else Some (acc_result_items acc);
     pg_count := if is_count post then acc_filtered_count acc
                 else Z.of_nat (length (acc_result_items acc));
     pg_scanned_count := acc_scanned_count acc;
     pg_last_evaluated_key := if more then acc_last_processed_key acc else None;
     pg_evaluated_bytes := acc_evaluated_bytes acc |}.

(** ** The loop *)

Definition limit_reached (limit : option Z) acc : bool :=
  match limit with
  | Some l => (l <=? acc_scanned_count acc)%Z
  | None => false
  end.

(** The items of one chunk: a finished page, or the accumulator after all of them. *)
Fixpoint push_items (limit : option Z) post acc (items : list Item)
    : res (PageReadResult + PostReadAccumulator) :=
  match items with
  | [] => Ok (inr acc)
  | item :: rest =>
      if limit_reached limit acc then Ok (inl (finish post acc true))
      else
        let? p := push post acc item in
        match p with
        | Evaluated acc => push_items limit post acc rest
        | PageFull => Ok (inl (finish post acc true))
        end
  end.

Definition chunk_want (limit : option Z) acc : Z :=
  match limit with
  | Some l => Z.max 1 (Z.min (next_chunk acc) (l - acc_scanned_count acc))
  | None => next_chunk acc
  end.

Context {W : Type} (fetch : option Item -> Z -> W -> QueryResult * W).

(** The loop of [read_page]; [fetch] is the storage read, with the state of
    storage threaded through its calls. *)
Fixpoint read_loop (fuel : nat) (limit : option Z) post (cursor : option Item) acc (w : W)
    : res PageReadResult :=
  match fuel with
  | O => Err OutOfFuel
  | S fuel =>
      match fetch cursor (chunk_want limit acc) w with
      | (Err e, _) => Err (Fail (storage_err_to_dynamo e))
      | (Ok (items, storage_lek), w) =>
          let? pushed := push_items limit post acc items in
          match pushed with
          | inl page => Ok page
          | inr acc =>
              if limit_reached limit acc then Ok (finish post acc true)
              else if (PAGE_BYTE_BUDGET <=? acc_evaluated_bytes acc)%N
              then Ok (finish post acc (is_some storage_lek))
              else if negb (is_some storage_lek) then Ok (finish post acc false)
              else
                let next := (fun item => extract_key item (pr_lek_key_schema post)) <$> last_error items in
                if negb (is_some next) || bool_decide (next = cursor)
                then Err (Fail (InternalServerError "storage returned a page that did not advance the read cursor"))
                else read_loop fuel limit post next acc w
          end
      end
  end.

Definition read_page (fuel : nat) (limit : option Z) (exclusive_start_key : option Item) post (w : W)
    : res PageReadResult :=
  read_loop fuel limit post exclusive_start_key acc_new w.
End ReadPage.

(** A page evaluates at most a byte an iteration, so the budget bounds the loop. *)
Definition page_fuel : nat := S (N.to_nat PAGE_BYTE_BUDGET).

(** ** Bounds *)

Section Bounds.
Context {D : Type} `{BigDecimal D}.
Implicit Types (post : PostRead D) (acc : PostReadAccumulator).

(** What every accumulator of a page satisfies. *)
Record acc_ok (limit : option Z) post acc : Prop := {
  ok_scanned : (0 <= acc_scanned_count acc)%Z;
  ok_limit : forall l, limit = Some l -> (acc_scanned_count acc <= Z.max l 0)%Z;
  ok_filtered : (0 <= acc_filtered_count acc <= acc_scanned_count acc)%Z;
  ok_bytes : (acc_evaluated_bytes acc <= PAGE_BYTE_BUDGET)%N \/ acc_scanned_count acc = 1%Z;
  ok_start : acc_scanned_count acc = 0%Z ->
    acc_evaluated_bytes acc = 0%N /\ acc_last_processed_key acc = None;
  ok_key : (0 < acc_scanned_count acc)%Z -> is_some (acc_last_processed_key acc) = true;
  ok_items : is_count post = false ->
    Z.of_nat (length (acc_result_items acc)) = acc_filtered_count acc
}.

(** And every page. *)
Record page_ok (limit : option Z) post (r : PageReadResult) : Prop := {
  page_scanned : (0 <= pg_scanned_count r)%Z;
  page_limit : forall l, limit = Some l -> (pg_scanned_count r <= Z.max l 0)%Z;
  page_count : (0 <= pg_count r <= pg_scanned_count r)%Z;
  page_bytes : (pg_evaluated_bytes r <= PAGE_BYTE_BUDGET)%N \/ pg_scanned_count r = 1%Z;
  page_key : is_some (pg_last_evaluated_key r) = true -> (0 < pg_scanned_count r)%Z;
  page_items : pg_items r = None /\ is_count post = true
    \/ exists items, pg_items r = Some items /\ is_count post = false
         /\ Z.of_nat (length items) = pg_count r
}.

Lemma acc_new_ok limit post : acc_ok limit post acc_new.
Proof. split; simpl; try lia; try done. Qed.

Lemma finish_ok limit post acc more : acc_ok limit post acc -> page_ok limit post (finish post acc more).
Proof.
  intros [H1 H2 H3 H4 H5 H6 H7]. split; simpl; try done.
  - destruct (is_count post); [done|]. rewrite H7 by done. done.
  - destruct more; [|done]. intros Hk.
    destruct (Z.eq_dec (acc_scanned_count acc) 0%Z) as [E|E]; [|lia].
    destruct (H5 E) as [_ E']. by rewrite E' in Hk.
  - destruct (is_count post) eqn:E; [by left|]. right. eauto.
Qed.

Lemma push_ok limit post acc item acc' :
  acc_ok limit post acc -> limit_reached limit acc = false ->
  push post acc item = Ok (Evaluated acc') -> acc_ok limit post acc'.
Proof.
  intros [H1 H2 H3 H4 H5 H6 H7] Hl. unfold push.
  destruct (item_size_bytes item) as [n|] eqn:En; [|done].
  destruct (_ && _) eqn:Ef; [done|].
  assert (Hb : ((acc_evaluated_bytes acc + n <= PAGE_BYTE_BUDGET)%N
                \/ acc_scanned_count acc + 1 = 1)%Z).
  { apply andb_false_iff in Ef as [Ef|Ef]; [apply Z.ltb_ge in Ef; right; lia|].
    apply N.ltb_ge in Ef. by left. }
  assert (Hm : forall l, limit = Some l -> (acc_scanned_count acc + 1 <= Z.max l 0)%Z).
  { intros l ->. simpl in Hl. lia. }
  destruct (passes post item) as [[]|] eqn:Ep; [| |done]; intros [= <-]; split; simpl;
    try done; try lia.
  intros Hc. rewrite Hc, length_app, Nat2Z.inj_add, H7 by done. simpl. lia.
Qed.

Lemma push_items_ok limit post items : forall acc,
  acc_ok limit post acc ->
  match push_items limit post acc items with
  | Ok (inl page) => page_ok limit post page
  | Ok (inr acc) => acc_ok limit post acc
  | Err _ => True
  end.
Proof.
  induction items as [|item items IH]; intros acc Hacc; simpl; [done|].
  destruct (limit_reached limit acc) eqn:El; [by apply finish_ok|].
  destruct (push post acc item) as [[acc'|]|] eqn:Ep; simpl; [|by apply finish_ok|done].
  apply IH. by eapply push_ok.
Qed.

(** Storage is asked for between one and [MAX_CHUNK] items, and for no more than
    the limit leaves. *)
Lemma chunk_want_bounds limit acc :
  (1 <= chunk_want limit acc <= MAX_CHUNK)%Z
  /\ forall l, limit = Some l -> (chunk_want limit acc <= Z.max 1 (l - acc_scanned_count acc))%Z.
Proof.
  assert (Hn : (1 <= next_chunk acc <= MAX_CHUNK)%Z).
  { unfold next_chunk. destruct (_ =? _)%Z; [by vm_compute|].
    unfold MAX_CHUNK, MIN_CHUNK. lia. }
  unfold chunk_want, MAX_CHUNK in *. destruct limit as [l|]; split; try lia; [|done].
  intros l' [= <-]. lia.
Qed.

Context {W : Type} (fetch : option Item -> Z -> W -> QueryResult * W).

Lemma read_loop_ok limit post fuel : forall cursor acc w r,
  acc_ok limit post acc -> read_loop fetch fuel limit post cursor acc w = Ok r ->
  page_ok limit post r.
Proof.
  induction fuel as [|fuel IH]; intros cursor acc w r Hacc; simpl; [done|].
  destruct (fetch _ _ w) as [[[items lek]|] w']; [|done].
  pose proof (push_items_ok limit post items acc Hacc) as Hp.
  destruct (push_items _ _ _ _) as [[page|acc']|]; [by intros [= <-]| |done].
  repeat case_match; try done; try (intros [= <-]; by apply finish_ok).
  by apply IH.
Qed.

(** C25. Whatever storage answers, a page evaluates no more items than [Limit],
    counts at most the items it evaluated, and stays within the megabyte budget
    unless its one item is larger than that; a page that carries a
    [LastEvaluatedKey] evaluated at least one item; and the items returned are as
    many as [Count]. *)
Theorem read_page_bounds fuel limit start post w r :
  read_page fetch fuel limit start post w = Ok r -> page_ok limit post r.
Proof. apply read_loop_ok, acc_new_ok. Qed.

(** ** Termination *)

(** An item of a known size of at least a byte, as every stored item is: it has
    its key attributes. *)
Definition metered (item : Item) : Prop :=
  exists n, item_size_bytes item = Ok n /\ (1 <= n)%N.

Lemma passes_returns post item : returns (passes post item).
Proof.
  unfold passes. destruct (pr_filter post) as [e|]; [|done].
  pose proof (evaluate_condition_returns e item (pr_maps post)) as Hr.
  destruct (evaluate_condition _ _ _) as [|[]]; done.
Qed.

Lemma push_metered post acc item : metered item ->
  returns (push post acc item)
  /\ forall acc', push post acc item = Ok (Evaluated acc') ->
       (acc_evaluated_bytes acc < acc_evaluated_bytes acc')%N.
Proof.
  intros (n & En & Hn). unfold push. rewrite En. destruct (_ && _); [done|].
  pose proof (passes_returns post item) as Hp.
  destruct (passes post item) as [[]|]; (split; [done|]); intros acc' [= <-]; simpl; lia.
Qed.

Lemma push_items_metered limit post items : forall acc, Forall metered items ->
  returns (push_items limit post acc items)
  /\ forall acc', push_items limit post acc items = Ok (inr acc') ->
       (acc_evaluated_bytes acc + N.of_nat (length items) <= acc_evaluated_bytes acc')%N.
Proof.
  induction items as [|item items IH]; intros acc Hm; simpl.
  { split; [done|]. intros acc' [= <-]. lia. }
  inversion Hm as [|? ? Hi Hm']; subst. destruct (limit_reached limit acc); [done|].
  destruct (push_metered post acc item Hi) as [Hr Hb].
  destruct (push post acc item) as [[acc1|]|] eqn:Ep; [|done|done].
  destruct (IH acc1 Hm') as [Hr' Hb']. split; [done|]. intros acc' E.
  specialize (Hb' acc' E). specialize (Hb acc1 eq_refl). lia.
Qed.

Definition answers_metered : Prop :=
  forall cursor n w items lek w', (1 <= n)%Z ->
    fetch cursor n w = (Ok (items, lek), w') -> Forall metered items.

Lemma read_loop_returns limit post fuel : answers_metered -> forall cursor acc w,
  (PAGE_BYTE_BUDGET < acc_evaluated_bytes acc + N.of_nat fuel)%N ->
  (acc_evaluated_bytes acc < PAGE_BYTE_BUDGET)%N ->
  returns (read_loop fetch fuel limit post cursor acc w).
Proof.
  intros Hf. induction fuel as [|fuel IH]; intros cursor acc w Hfuel Hacc; [lia|]. simpl.
  destruct (fetch cursor _ w) as [[[items lek]|e] w'] eqn:Ef; [|done].
  destruct (push_items_metered limit post items acc (Hf _ _ _ _ _ _ (proj1 (proj1 (chunk_want_bounds limit acc))) Ef)) as [Hr Hb].
  destruct (push_items _ _ _ _) as [[page|acc']|]; [done| |done].
  specialize (Hb acc' eq_refl). destruct (limit_reached limit acc'); [done|].
  destruct (_ <=? _)%N eqn:El; [done|]. apply N.leb_gt in El.
  destruct (negb (is_some lek)); [done|]. destruct items as [|item items]; [done|].
  destruct (negb _ || _); [done|]. apply IH; simpl in *; lia.
Qed.

Lemma read_page_returns limit start post w :
  answers_metered -> returns (read_page fetch page_fuel limit start post w).
Proof.
  intros Hf. apply read_loop_returns; [done| |done]. unfold page_fuel.
  rewrite Nat2N.inj_succ, N2Nat.id. simpl acc_evaluated_bytes. lia.
Qed.

End Bounds.

(** ** The reference page *)

Section Reference.
Context {D : Type} `{BigDecimal D}.
Implicit Types (post : PostRead D) (acc : PostReadAccumulator).

(** A page over a sequence of items, with no chunks: it ends at the limit, at the
    first item that does not fit, or at the end of the sequence. *)
Fixpoint page_of (limit : option Z) post acc (items : list Item) : res PageReadResult :=
  if limit_reached limit acc then Ok (finish post acc true)
  else
    match items with
    | [] => Ok (finish post acc false)
    | item :: rest =>
        let? p := push post acc item in
        match p with
        | Evaluated acc => page_of limit post acc rest
        | PageFull => Ok (finish post acc true)
        end
    end.
End Reference.

(** A backend that serves a fixed sequence: [after cursor] are the items after a
    key, and [fetch] answers with the next of them and says whether there are
    more.  It answers the start of the sequence and the keys of its items. *)
Class Serves {W : Type} (fetch : option Item -> Z -> W -> QueryResult * W)
    (key : Item -> Item) (valid : option Item -> Prop) (after : option Item -> list Item) : Prop := {
  serves_fetch cursor n w : valid cursor -> (1 <= n)%Z ->
    exists lek w', fetch cursor n w = (Ok (take (Z.to_nat n) (after cursor), lek), w')
      /\ is_some lek = (Z.to_nat n <? length (after cursor));
  serves_after cursor before item rest : valid cursor ->
    after cursor = before ++ item :: rest ->
    valid (Some (key item)) /\ after (Some (key item)) = rest
}.

Section Refinement.
Context {D : Type} `{BigDecimal D}.
Implicit Types (post : PostRead D) (acc : PostReadAccumulator).

(** Reading a chunk and then the rest is reading the page. *)
Lemma push_items_page limit post chunk rest : forall acc,
  page_of limit post acc (chunk ++ rest)
  = let? pushed := push_items limit post acc chunk in
    match pushed with
    | inl page => Ok page
    | inr acc => page_of limit post acc rest
    end.
Proof.
  induction chunk as [|item chunk IH]; intros acc; [done|]. simpl.
  destruct (limit_reached limit acc); [done|].
  destruct (push post acc item) as [[acc'|]|]; [apply IH|done|done].
Qed.

(** With the budget spent, what follows is not evaluated. *)
Lemma page_of_spent limit post acc rest :
  (PAGE_BYTE_BUDGET <= acc_evaluated_bytes acc)%N -> (0 < acc_scanned_count acc)%Z ->
  limit_reached limit acc = false -> Forall metered rest ->
  page_of limit post acc rest = Ok (finish post acc (0 <? length rest)).
Proof.
  intros Hb Hs Hl Hm. destruct rest as [|item rest]; simpl; rewrite Hl; [done|].
  inversion Hm as [|? ? (n & En & Hn) _]; subst. unfold push. rewrite En.
  rewrite (proj2 (Z.ltb_lt _ _) Hs), (proj2 (N.ltb_lt _ _)) by lia. done.
Qed.

Lemma last_error_split {A : Type} (l : list A) x : last_error l = Some x -> exists k, l = k ++ [x].
Proof.
  induction l as [|y l IH]; [done|]. destruct l as [|z l].
  - intros [= <-]. by exists [].
  - intros Hx. destruct (IH Hx) as [k ->]. by exists (y :: k).
Qed.

Lemma last_error_None {A : Type} (l : list A) : last_error l = None -> l = [].
Proof. induction l as [|x l IH]; [done|]. destruct l; [done|]. intros E. by apply IH in E. Qed.

Lemma push_items_scanned limit post items : forall acc acc',
  push_items limit post acc items = Ok (inr acc') ->
  acc_scanned_count acc' = (acc_scanned_count acc + Z.of_nat (length items))%Z.
Proof.
  induction items as [|item items IH]; intros acc acc'; simpl; [intros [= <-]; lia|].
  destruct (limit_reached limit acc); [done|]. unfold push.
  destruct (item_size_bytes item) as [n|]; [|done]. destruct (_ && _); [done|].
  destruct (passes post item) as [[]|]; [| |done]; intros ->%IH; simpl; lia.
Qed.
End Refinement.

Section Served.
Context {D : Type} `{BigDecimal D} {W : Type} (fetch : option Item -> Z -> W -> QueryResult * W).
Context (post : PostRead D) (valid : option Item -> Prop) (after : option Item -> list Item).
Context {serves : Serves fetch (fun item => extract_key item (pr_lek_key_schema post)) valid after}.
Hypothesis after_metered : forall cursor, valid cursor -> Forall metered (after cursor).

(** The cursor of the next chunk addresses the items the chunk left. *)
Lemma serves_next cursor n : valid cursor -> n < length (after cursor) -> 1 <= n ->
  exists item, last_error (take n (after cursor)) = Some item
    /\ valid (Some (extract_key item (pr_lek_key_schema post)))
    /\ after (Some (extract_key item (pr_lek_key_schema post))) = drop n (after cursor)
    /\ cursor <> Some (extract_key item (pr_lek_key_schema post)).
Proof.
  intros Hv Hn H1. destruct (last_error (take n (after cursor))) as [item|] eqn:El.
  2:{ destruct n as [|n]; [lia|]. destruct (after cursor) as [|x l]; [simpl in Hn; lia|].
      by apply last_error_None in El. }
  exists item. destruct (last_error_split _ _ El) as [k Ek].
  destruct (serves_after cursor k item (drop n (after cursor)) Hv) as [Hv' Ha].
  { rewrite <- (take_drop n (after cursor)) at 1. rewrite Ek, <- app_assoc. done. }
  repeat split; [done|done|]. intros E. rewrite <- E in Ha.
  apply (f_equal length) in Ha. rewrite length_drop in Ha. lia.
Qed.

Lemma read_loop_page limit fuel : forall cursor acc w, valid cursor ->
  (PAGE_BYTE_BUDGET < acc_evaluated_bytes acc + N.of_nat fuel)%N ->
  (acc_evaluated_bytes acc < PAGE_BYTE_BUDGET)%N -> (0 <= acc_scanned_count acc)%Z ->
  read_loop fetch fuel limit post cursor acc w = page_of limit post acc (after cursor).
Proof.
  induction fuel as [|fuel IH]; intros cursor acc w Hv Hf Hb Hs; [lia|]. simpl.
  pose proof (proj1 (proj1 (chunk_want_bounds limit acc))) as Hw.
  destruct (serves_fetch cursor _ w Hv Hw) as (lek & w' & -> & Hlek).
  set (n := Z.to_nat (chunk_want limit acc)) in *.
  rewrite <- (take_drop n (after cursor)) at 2. rewrite push_items_page.
  destruct (push_items _ _ _ _) as [[page|acc']|] eqn:Ep; [done| |done].
  destruct (limit_reached limit acc') eqn:El; [by destruct (drop n _); simpl; rewrite El|].
  pose proof (push_items_scanned _ _ _ _ _ Ep) as Hs'.
  pose proof (push_items_metered limit post _ acc (Forall_take _ n _ (after_metered cursor Hv))) as [_ Hm].
  specialize (Hm _ Ep). assert (Hlr : is_some lek = (0 <? length (drop n (after cursor)))).
  { rewrite Hlek, length_drop. destruct (Nat.ltb_spec n (length (after cursor))),
      (Nat.ltb_spec 0 (length (after cursor) - n)); lia || done. }
  destruct (_ <=? _)%N eqn:Ebud.
  { apply N.leb_le in Ebud. rewrite Hlr. symmetry. apply page_of_spent; try done.
    - destruct (take n (after cursor)); simpl in *; [injection Ep as ->; lia|lia].
    - apply Forall_drop. by apply after_metered. }
  apply N.leb_gt in Ebud. destruct (is_some lek) eqn:Ek; simpl.
  2:{ symmetry in Hlr. apply Nat.ltb_ge in Hlr.
      destruct (drop n (after cursor)); [|simpl in Hlr; lia]. simpl. by rewrite El. }
  assert (Hn : n < length (after cursor)) by (by apply Nat.ltb_lt).
  destruct (serves_next cursor n) as (item & Hlast & Hv' & Ha & Hc); [done|done|lia|].
  rewrite Hlast. simpl. rewrite bool_decide_eq_false_2 by (intros E; by apply Hc).
  rewrite <- Ha. apply IH; try done; [|lia]. rewrite length_take in Hm. lia.
Qed.

Lemma read_page_page_of limit start w : valid start ->
  read_page fetch page_fuel limit start post w = page_of limit post acc_new (after start).
Proof.
  intros Hv. apply read_loop_page; [done| |done|done]. unfold page_fuel.
  rewrite Nat2N.inj_succ, N2Nat.id. simpl acc_evaluated_bytes. lia.
Qed.

(** C13. Reading in chunks is invisible: against a backend that serves a fixed
    sequence of items, [read_page] returns exactly the page that a single pass over
    the items after the start key returns, for every limit, filter and projection.
    The estimate of the chunk sizes decides only how storage is asked. *)
Theorem read_page_refines limit start w : valid start ->
  read_page fetch page_fuel limit start post w = page_of limit post acc_new (after start).
Proof. apply read_page_page_of. Qed.
End Served.

(** ** Following the pages *)

Section Delivered.
Context {D : Type} `{BigDecimal D}.
Implicit Types (post : PostRead D) (acc : PostReadAccumulator).

(** The items a read over a sequence returns: those that pass, projected. *)
Definition passing post (items : list Item) : list Item :=
  List.filter (fun item => match passes post item with Ok b => b | Err _ => false end) items.

Definition delivered post (items : list Item) : list Item := map (projected post) (passing post items).

(** The requests a client makes: each page's [LastEvaluatedKey] is the next start
    key. *)
Fixpoint walk {W : Type} (fetch : option Item -> Z -> W -> QueryResult * W) (requests : nat)
    (limit : option Z) post (start : option Item) (w : W) : res (list PageReadResult) :=
  match requests with
  | O => Err OutOfFuel
  | S requests =>
      let? page := read_page fetch page_fuel limit start post w in
      match pg_last_evaluated_key page with
      | None => Ok [page]
      | Some k =>
          let? pages := walk fetch requests limit post (Some k) w in
          Ok (page :: pages)
      end
  end.

Definition sum_Z (l : list Z) : Z := fold_right Z.add 0%Z l.

(** What a page of a sequence holds: the items up to where it stopped. *)
Record page_holds post acc (items rest : list Item) (r : PageReadResult) : Prop := {
  holds_scanned : pg_scanned_count r = (acc_scanned_count acc + Z.of_nat (length items))%Z;
  holds_count : pg_count r = (acc_filtered_count acc + Z.of_nat (length (passing post items)))%Z;
  holds_items : is_count post = false ->
    pg_items r = Some (acc_result_items acc ++ delivered post items);
  holds_key :
    pg_last_evaluated_key r = None /\ rest = []
    \/ (forall item, last_error items = Some item ->
          pg_last_evaluated_key r = Some (extract_key item (pr_lek_key_schema post)))
       /\ (items = [] -> pg_last_evaluated_key r = acc_last_processed_key acc)
}.

Lemma finish_holds limit post acc more rest :
  acc_ok limit post acc -> (more = false -> rest = []) ->
  page_holds post acc [] rest (finish post acc more).
Proof.
  intros Hacc Hr. split; simpl.
  - lia.
  - destruct (is_count post) eqn:E; [lia|]. rewrite (ok_items _ _ _ Hacc E). lia.
  - intros ->. by rewrite app_nil_r.
  - destruct more; [by right|left; auto].
Qed.

(** An evaluated item adds itself to the page. *)
Lemma push_holds post acc acc' item items rest r :
  push post acc item = Ok (Evaluated acc') ->
  page_holds post acc' items rest r -> page_holds post acc (item :: items) rest r.
Proof.
  unfold push. destruct (item_size_bytes item) as [n|]; [|done]. destruct (_ && _); [done|].
  destruct (passes post item) as [b|] eqn:Ep; [|done]. intros E [H1 H2 H3 H4].
  assert (acc_scanned_count acc' = acc_scanned_count acc + 1
    /\ acc_filtered_count acc' = acc_filtered_count acc + (if b then 1 else 0)
    /\ acc_last_processed_key acc' = Some (extract_key item (pr_lek_key_schema post)))%Z as (E1 & E2 & E3).
  { destruct b; injection E as <-; simpl; repeat split; lia. }
  split.
  - rewrite H1, E1. simpl. lia.
  - rewrite H2, E2. unfold passing. simpl. rewrite Ep. destruct b; simpl; lia.
  - intros Hc. rewrite (H3 Hc). f_equal. unfold delivered, passing. simpl. rewrite Ep.
    destruct b; injection E as <-; simpl; rewrite ?Hc; [by rewrite <- app_assoc|done].
  - destruct H4 as [H4|[H4 H5]]; [by left|]. right. split; [|done]. intros x.
    destruct items as [|y items]; simpl; [intros [= <-]; by rewrite H5|apply H4].
Qed.

Lemma page_of_holds limit post items : forall acc r, acc_ok limit post acc ->
  page_of limit post acc items = Ok r ->
  exists taken rest, items = taken ++ rest /\ page_holds post acc taken rest r.
Proof.
  induction items as [|item items IH]; intros acc r Hacc; simpl.
  { intros E. exists [], []. split; [done|].
    destruct (limit_reached limit acc); injection E as <-; by apply (finish_holds limit). }
  destruct (limit_reached limit acc) eqn:El.
  { intros [= <-]. exists [], (item :: items). split; [done|]. by apply (finish_holds limit). }
  destruct (push post acc item) as [[acc'|]|] eqn:Ep; simpl; [| |done].
  - intros E. destruct (IH acc' r) as (taken & rest & -> & Hh); [by eapply push_ok|done|].
    exists (item :: taken), rest. split; [done|]. by eapply push_holds.
  - intros [= <-]. exists [], (item :: items). split; [done|]. by apply (finish_holds limit).
Qed.

(** The first item is always evaluated, so a page over a sequence makes progress. *)
Lemma page_of_progress limit post item items r :
  (forall l, limit = Some l -> (1 <= l)%Z) ->
  page_of limit post acc_new (item :: items) = Ok r ->
  exists taken rest, item :: items = (item :: taken) ++ rest
    /\ page_holds post acc_new (item :: taken) rest r.
Proof.
  intros Hl. simpl. destruct (limit_reached limit acc_new) eqn:El.
  { destruct limit as [l|]; [|done]. simpl in El. specialize (Hl l eq_refl). lia. }
  destruct (push post acc_new item) as [[acc'|]|] eqn:Ep; simpl; [| |done].
  - intros E. destruct (page_of_holds limit post items acc' r) as (taken & rest & -> & Hh);
      [eapply push_ok; eauto using acc_new_ok|done|].
    exists taken, rest. split; [done|]. by eapply push_holds.
  - unfold push in Ep. destruct (item_size_bytes item); [|done]. simpl in Ep. by repeat case_match.
Qed.

Lemma page_of_total limit post items : forall acc,
  Forall metered items -> (forall item, In item items -> exists b, passes post item = Ok b) ->
  exists r, page_of limit post acc items = Ok r.
Proof.
  induction items as [|item items IH]; intros acc Hm Hp; simpl.
  { destruct (limit_reached limit acc); eauto. }
  destruct (limit_reached limit acc); [eauto|].
  inversion Hm as [|? ? (n & En & _) Hm']; subst.
  unfold push. rewrite En. destruct (_ && _); [eauto|].
  destruct (Hp item (or_introl eq_refl)) as [b ->].
  destruct b; apply IH; try done; intros; apply Hp; by right.
Qed.
End Delivered.

Section Walk.
Context {D : Type} `{BigDecimal D} {W : Type} (fetch : option Item -> Z -> W -> QueryResult * W).
Context (post : PostRead D) (valid : option Item -> Prop) (after : option Item -> list Item).
Context {serves : Serves fetch (fun item => extract_key item (pr_lek_key_schema post)) valid after}.

(** What the pages of a walk over a sequence add up to. *)
Definition covers (items : list Item) (pages : list PageReadResult) : Prop :=
  sum_Z (map pg_scanned_count pages) = Z.of_nat (length items)
  /\ sum_Z (map pg_count pages) = Z.of_nat (length (passing post items))
  /\ (is_count post = false ->
       concat (map (fun r => default [] (pg_items r)) pages) = delivered post items).

Lemma covers_cons taken rest r pages :
  page_holds post acc_new taken rest r -> covers rest pages -> covers (taken ++ rest) (r :: pages).
Proof.
  intros [H1 H2 H3 _] (C1 & C2 & C3). unfold covers, delivered, passing in *. simpl in *.
  rewrite List.filter_app, map_app, !length_app, !Nat2Z.inj_add, H1, H2, C1, C2.
  repeat split; try lia. intros Hc. by rewrite (H3 Hc), (C3 Hc).
Qed.

Lemma covers_last taken r : page_holds post acc_new taken [] r -> covers taken [r].
Proof. intros Hh. rewrite <- (app_nil_r taken). by apply covers_cons. Qed.

(** The next start key addresses what the page left. *)
Lemma page_holds_next start item taken rest r : valid start ->
  after start = (item :: taken) ++ rest -> page_holds post acc_new (item :: taken) rest r ->
  pg_last_evaluated_key r = None /\ rest = []
  \/ exists k, pg_last_evaluated_key r = Some k /\ valid (Some k) /\ after (Some k) = rest.
Proof.
  intros Hv Ea Hh. destruct (holds_key _ _ _ _ _ Hh) as [?|[Hk _]]; [by left|right].
  destruct (last_error (item :: taken)) as [x|] eqn:Ex; [|by apply last_error_None in Ex].
  exists (extract_key x (pr_lek_key_schema post)). split; [by apply Hk|].
  destruct (last_error_split _ _ Ex) as [k Ek]. rewrite Ek, <- app_assoc in Ea.
  exact (serves_after start k x rest Hv Ea).
Qed.

(** Pagination is live and exact: a client that follows [LastEvaluatedKey] gets
    its last page within as many requests as there are items and one more; the
    pages, one after the other, hold every item that passes the filter, projected,
    in order and once; and they scanned every item once. *)
Theorem walk_covers limit start w requests :
  valid start ->
  (forall cursor, valid cursor -> Forall metered (after cursor)) ->
  (forall l, limit = Some l -> (1 <= l)%Z) ->
  (forall item, In item (after start) -> exists b, passes post item = Ok b) ->
  length (after start) < requests ->
  exists pages, walk fetch requests limit post start w = Ok pages /\ covers (after start) pages.
Proof.
  intros Hv Hm Hl. revert start Hv. induction requests as [|requests IH]; intros start Hv Hp Hn; [lia|].
  cbn [walk]. rewrite (read_page_page_of fetch post valid after Hm) by done.
  destruct (page_of_total limit post (after start) acc_new (Hm start Hv) Hp) as [r Er]. rewrite Er.
  destruct (after start) as [|item items] eqn:Ea.
  - destruct (page_of_holds limit post [] acc_new r (acc_new_ok _ _) Er) as (t & u & E & Hh).
    symmetry in E. apply app_eq_nil in E as [-> ->].
    assert (pg_last_evaluated_key r = None) as ->
      by (destruct (holds_key _ _ _ _ _ Hh) as [[-> _]|[_ ->]]; done).
    exists [r]. split; [done|]. by apply covers_last.
  - destruct (page_of_progress limit post item items r Hl Er) as (taken & rest & E & Hh).
    rewrite E in *. destruct (page_holds_next start item taken rest r Hv Ea Hh) as [[-> ->]|(k & -> & Hk & Ek)].
    + exists [r]. split; [done|]. rewrite app_nil_r. by apply covers_last.
    + destruct (IH (Some k) Hk) as (pages & -> & Hc); rewrite ?Ek.
      * intros x Hx. apply Hp, in_or_app. by right.
      * rewrite length_app in Hn. simpl in Hn. lia.
      * exists (r :: pages). split; [done|]. rewrite Ek in Hc. by apply covers_cons.
Qed.
End Walk.

(** ** A backend that is a list *)

Section ListBackend.
Context (key : Item -> Item) (items : list Item).

(** The items after the first one with the key. *)
Fixpoint drop_to (k : Item) (l : list Item) : list Item :=
  match l with
  | [] => []
  | x :: l => if bool_decide (key x = k) then l else drop_to k l
  end.

Definition list_after (cursor : option Item) : list Item :=
  match cursor with Some k => drop_to k items | None => items end.

Definition list_valid (cursor : option Item) : Prop :=
  match cursor with Some k => k ∈ map key items | None => True end.

Definition list_fetch (cursor : option Item) (n : Z) (w : unit) : QueryResult * unit :=
  (Ok (take (Z.to_nat n) (list_after cursor),
       if Z.to_nat n <? length (list_after cursor)
       then key <$> last_error (take (Z.to_nat n) (list_after cursor)) else None), w).

Lemma drop_to_app before x rest :
  NoDup (map key (before ++ x :: rest)) -> drop_to (key x) (before ++ x :: rest) = rest.
Proof.
  induction before as [|y before IH]; simpl; intros Hn.
  { by rewrite bool_decide_eq_true_2. }
  inversion Hn as [|? ? Hy Hn']; subst. rewrite bool_decide_eq_false_2; [by apply IH|].
  intros E. apply Hy. rewrite E, map_app. apply elem_of_app. right. simpl. by left.
Qed.

Lemma drop_to_suffix k l : exists before, l = before ++ drop_to k l.
Proof.
  induction l as [|x l [b E]]; [by exists []|]. simpl. case_bool_decide; [by exists [x]|].
  exists (x :: b). simpl. by f_equal.
Qed.

Lemma list_serves : NoDup (map key items) -> Serves list_fetch key list_valid list_after.
Proof.
  intros Hn. split.
  - intros cursor n w _ H1. do 2 eexists. split; [done|].
    destruct (Nat.ltb_spec (Z.to_nat n) (length (list_after cursor))); [|done].
    destruct (last_error _) eqn:E; [done|]. apply last_error_None in E.
    apply (f_equal length) in E. rewrite length_take in E. simpl in E. lia.
  - intros cursor before x rest _ E.
    assert (exists b, items = b ++ x :: rest) as [b Eb].
    { destruct cursor as [k|]; [|eauto]. destruct (drop_to_suffix k items) as [b Eb].
      simpl in E. rewrite E, app_assoc in Eb. eauto. }
    simpl. rewrite Eb in *. split; [|by apply drop_to_app].
    rewrite map_app. apply elem_of_app. right. simpl. by left.
Qed.
End ListBackend.

(** Three items of a table keyed by [k], a filter that the second fails, two items a
    page. *)
Definition sample_items : list Item :=
  [[("k", AV_S "a")]; [("k", AV_S "b"); ("v", AV_Null)]; [("k", AV_S "c")]].

Definition sample_post : PostRead dec :=
  {| pr_filter := Some (EFunction "attribute_not_exists" [EPath [PAttr "v"]]);
     pr_projection := None; pr_maps := maps_new ∅ ∅;
     pr_lek_key_schema := [{| ks_attribute_name := "k"; ks_key_type := Hash |}];
     pr_select := None; pr_index_proj := None; pr_base_key_schema := [] |}.

Definition sample_key (item : Item) : Item := extract_key item (pr_lek_key_schema sample_post).

Lemma sample_serves :
  Serves (list_fetch sample_key sample_items) sample_key (list_valid sample_key sample_items)
    (list_after sample_key sample_items).
Proof. apply list_serves. apply (bool_decide_unpack _). by vm_compute. Qed.

Lemma sample_metered cursor : Forall metered (list_after sample_key sample_items cursor).
Proof.
  assert (Forall metered sample_items) as Hm.
  { repeat constructor; eexists; (split; [vm_compute; reflexivity|done]). }
  destruct cursor as [k|]; [|done]. simpl.
  destruct (drop_to_suffix sample_key k sample_items) as [b E]. rewrite E in Hm.
  by apply Forall_app in Hm as [_ Hm].
Qed.

Lemma read_page_bounds_witness :
  page_ok (Some 2%Z) sample_post
    {| pg_items := Some [[("k", AV_S "a")]]; pg_count := 1; pg_scanned_count := 2;
       pg_last_evaluated_key := Some [("k", AV_S "b")]; pg_evaluated_bytes := 6 |}.
Proof.
  apply (read_page_bounds (D := dec) (list_fetch sample_key sample_items) 3 (Some 2%Z) None sample_post tt).
  vm_compute. reflexivity.
Defined.


Lemma read_page_refines_witness :
  read_page (D := dec) (list_fetch sample_key sample_items) page_fuel None
    (Some [("k", AV_S "a")]) sample_post tt
  = Ok {| pg_items := Some [[("k", AV_S "c")]]; pg_count := 1; pg_scanned_count := 2;
          pg_last_evaluated_key := None; pg_evaluated_bytes := 6 |}.
Proof.
  etransitivity.
  - apply (read_page_refines (D := dec) (list_fetch sample_key sample_items) sample_post
      (list_valid sample_key sample_items) (list_after sample_key sample_items) (serves := sample_serves)).
    + intros cursor _. apply sample_metered.
    + apply list_elem_of_In. left. vm_compute. reflexivity.
  - vm_compute. reflexivity.
Defined.

Lemma walk_covers_witness :
  exists pages,
    walk (D := dec) (list_fetch sample_key sample_items) 4 (Some 2%Z) sample_post None tt = Ok pages
    /\ covers sample_post sample_items pages.
Proof.
  apply (walk_covers (D := dec) (list_fetch sample_key sample_items) sample_post
    (list_valid sample_key sample_items) (list_after sample_key sample_items) (serves := sample_serves)
    (Some 2%Z) None tt 4).
  - exact I.
  - intros cursor _. apply sample_metered.
  - intros l [= <-]. lia.
  - intros item [<-|[<-|[<-|[]]]]; eexists; vm_compute; reflexivity.
  - simpl. lia.
Defined.
