(* ===== verification/StartKey.v ===== *)
(** * ExclusiveStartKey

    [crates/engine/src/start_key.rs]: the schema checks of a start key for Query and
    Scan, the measured rules for a start key outside the range of a key condition, and
    the rule by which a page drops the key that those checks would refuse. *)

From S2P Require Import Prelude BTree Types Error Decimal Ast Resolver Evaluator KeyCondition ItemSize.
From S2P Require Import Storage.

Definition QUERY_INVALID_START_KEY_MSG : string := "The provided starting key is invalid".
Definition QUERY_START_KEY_OUTSIDE_BOUNDARIES_MSG : string :=
  "The provided starting key is outside query boundaries based on provided conditions".
Definition QUERY_EXCLUSIVE_START_KEY_INVALID_MSG : string :=
  "The provided exclusive start key is invalid".
Definition QUERY_START_KEY_RANGE_PREDICATE_MSG : string :=
  "The provided starting key does not match the range key predicate".
Definition QUERY_AT_MOST_ONE_ROW_MSG : string :=
  "The query can return at most one row and cannot be restarted".
Definition SCAN_INVALID_START_KEY_MSG_BASE : string :=
  "The provided starting key is invalid: The provided key element does not match the schema".
Definition SCAN_INVALID_START_KEY_MSG_INDEX : string := "The provided starting key is invalid".

(** ** The schema checks *)

Definition attr_value_matches_scalar (value : AttributeValue) (scalar : ScalarAttributeType) : bool :=
  match value, scalar with
  | AV_S _, Scalar_S | AV_N _, Scalar_N | AV_B _, Scalar_B => true
  | _, _ => false
  end.

Definition find_definition (name : string) (defs : list AttributeDefinition) : option AttributeDefinition :=
  List.find (fun ad => String.eqb (ad_attribute_name ad) name) defs.

Definition check_exclusive_start_key (start_key : Item) (required : list KeySchemaElement)
    (attribute_definitions : list AttributeDefinition) (error_message : string) : res unit :=
  let? _ := for_each (fun ks =>
    if bt_contains_key (ks_attribute_name ks) start_key then Ok tt else fail error_message) required in
  if negb (length start_key =? length required) then fail error_message
  else
    for_each (fun ks =>
      match find_definition (ks_attribute_name ks) attribute_definitions with
      | None => fail error_message
      | Some declared =>
          match bt_get (ks_attribute_name ks) start_key with
          | None => fail error_message
          | Some supplied =>
              if attr_value_matches_scalar supplied (ad_attribute_type declared) then Ok tt
              else fail error_message
          end
      end) required.

Definition scan_invalid_start_key_message (index_info : option IndexInfo) : string :=
  if is_some index_info then SCAN_INVALID_START_KEY_MSG_INDEX else SCAN_INVALID_START_KEY_MSG_BASE.

Definition validate_scan_exclusive_start_key (start_key : Item) (key_info : TableKeyInfo)
    (index_info : option IndexInfo) : res unit :=
  check_exclusive_start_key start_key
    (combined_lek_key_schema (tki_key_schema key_info) index_info)
    (tki_attribute_definitions key_info) (scan_invalid_start_key_message index_info).

Definition validate_query_exclusive_start_key (start_key : Item) (key_info : TableKeyInfo)
    (index_info : option IndexInfo) : res unit :=
  check_exclusive_start_key start_key
    (combined_lek_key_schema (tki_key_schema key_info) index_info)
    (tki_attribute_definitions key_info) QUERY_INVALID_START_KEY_MSG.

(** ** The bounds of a Query *)

Record QueryReadShape : Type := {
  qs_key_schema : list KeySchemaElement;
  qs_on_index : bool;
  qs_forward : bool
}.

Definition is_hash_only_table (shape : QueryReadShape) : bool :=
  negb (qs_on_index shape)
  && negb (existsb (fun k => bool_decide (ks_key_type k = Range)) (qs_key_schema shape)).

Inductive Partition : Type := Same | Differs | Unknown.
Inductive FarEnd : Type := FarEquality | FarReversePrefix | FarBound.

#[export] Instance Partition_eq_dec : EqDecision Partition.
Proof. solve_decision. Defined.
#[export] Instance FarEnd_eq_dec : EqDecision FarEnd.
Proof. solve_decision. Defined.

(** [std::mem::discriminant(a) == std::mem::discriminant(b)]. *)
Definition same_discriminant (a b : AttributeValue) : bool :=
  match a, b with
  | AV_S _, AV_S _ | AV_N _, AV_N _ | AV_B _, AV_B _ | AV_SS _, AV_SS _ | AV_NS _, AV_NS _
  | AV_BS _, AV_BS _ | AV_Bool _, AV_Bool _ | AV_Null, AV_Null | AV_L _, AV_L _
  | AV_M _, AV_M _ => true
  | _, _ => false
  end.

Section StartKey.
Context {D : Type} `{BigDecimal D}.
Implicit Type maps : ExpressionMaps D.

Definition condition_attribute_name (path : list PathElement) maps : option string :=
  match path with
  | PAttr name :: _ =>
      match strip_prefix_char "#" name with
      | Some reference => em_names maps !! reference
      | None => Some name
      end
  | _ => None
  end.

(** [maps.resolve_value(name).ok()]. *)
Definition value_ok maps (name : string) : option AttributeValue :=
  match resolve_value maps name with Ok v => Some v | Err _ => None end.

(** The value a clause wants and the one the start key has. *)
Definition wanted_and_supplied (start_key : Item) maps (path : list PathElement) (value : Expr)
    : option (AttributeValue * AttributeValue) :=
  name ← condition_attribute_name path maps;
  wanted ← match value with EPlaceholder placeholder => value_ok maps placeholder | _ => None end;
  supplied ← bt_get name start_key;
  Some (wanted, supplied).

Fixpoint partition_loop (start_key : Item) maps (clauses : list (list PathElement * Expr)) (unknown : bool)
    : Partition :=
  match clauses with
  | [] => if unknown then Unknown else Same
  | (path, value) :: rest =>
      match wanted_and_supplied start_key maps path value with
      | Some (wanted, supplied) =>
          if same_discriminant supplied wanted then
            if av_eqb supplied wanted then partition_loop start_key maps rest unknown else Differs
          else partition_loop start_key maps rest true
      | None => partition_loop start_key maps rest true
      end
  end.

Definition partition_state (start_key : Item) (kc : KeyCondition) maps : Partition :=
  partition_loop start_key maps ((pk_path kc, pk_value kc) :: extra_pk_conditions kc) false.

Definition sort_key_predicate (sk : SortKeyCondition) : Expr :=
  match sk with
  | SKCompare path op value => ECompare (EPath path) op value
  | SKBetween path low high => EBetween (EPath path) low high
  | SKBeginsWith path prefix => EFunction "begins_with" [EPath path; prefix]
  end.

Definition far_end_bound (sk : SortKeyCondition) (forward : bool) : option (Expr * FarEnd) :=
  match sk, forward with
  | SKCompare _ CEq value, _ => Some (value, FarEquality)
  | SKCompare _ CLe value, true | SKCompare _ CGe value, false => Some (value, FarBound)
  | SKBetween _ _ high, true => Some (high, FarBound)
  | SKBetween _ low _, false => Some (low, FarBound)
  | SKBeginsWith _ prefix, false => Some (prefix, FarReversePrefix)
  | _, _ => None
  end.

Definition sk_bounds (sk : SortKeyCondition) : list Expr :=
  match sk with
  | SKCompare _ _ value => [value]
  | SKBetween _ low high => [low; high]
  | SKBeginsWith _ prefix => [prefix]
  end.

Definition sort_key_is_evaluable (sk : SortKeyCondition) (start_key : Item) maps : bool :=
  match (name ← condition_attribute_name (sk_path sk) maps; bt_get name start_key) with
  | None => false
  | Some supplied =>
      forallb (fun bound =>
        match bound with
        | EPlaceholder name =>
            match resolve_value maps name with
            | Ok v => same_discriminant v supplied
            | Err _ => false
            end
        | _ => false
        end) (sk_bounds sk)
  end.

(** The sort key condition, when it can be evaluated on a key. *)
Definition evaluable_sk (kc : KeyCondition) (key : Item) maps : option SortKeyCondition :=
  sk ← sk_condition kc; if sort_key_is_evaluable sk key maps then Some sk else None.

(** [evaluate_condition(..).ok() == Some(b)]. *)
Definition evaluates_to (b : bool) (e : Expr) (item : Item) maps : bool :=
  match evaluate_condition e item maps with Ok b' => Bool.eqb b' b | Err _ => false end.

Definition far_end (key : Item) (kc : KeyCondition) maps (shape : QueryReadShape) : option FarEnd :=
  if qs_on_index shape then None
  else
    sk ← evaluable_sk kc key maps;
    '(bound, kind) ← far_end_bound sk (qs_forward shape);
    if evaluates_to true (ECompare (EPath (sk_path sk)) CEq bound) key maps then Some kind else None.

Definition validate_query_start_key_bounds (start_key : Item) (kc : KeyCondition) maps
    (shape : QueryReadShape) : res unit :=
  let? _ :=
    match evaluable_sk kc start_key maps with
    | Some sk =>
        if evaluates_to false (sort_key_predicate sk) start_key maps
        then fail QUERY_START_KEY_RANGE_PREDICATE_MSG else Ok tt
    | None => Ok tt
    end in
  let partition := partition_state start_key kc maps in
  let? _ :=
    match far_end start_key kc maps shape with
    | Some FarBound => fail QUERY_START_KEY_RANGE_PREDICATE_MSG
    | Some FarEquality =>
        if bool_decide (partition = Same) then fail QUERY_EXCLUSIVE_START_KEY_INVALID_MSG else Ok tt
    | Some FarReversePrefix =>
        if bool_decide (partition = Same) then fail QUERY_START_KEY_OUTSIDE_BOUNDARIES_MSG else Ok tt
    | None => Ok tt
    end in
  if is_hash_only_table shape && negb (bool_decide (partition = Unknown))
  then fail QUERY_EXCLUSIVE_START_KEY_INVALID_MSG
  else if bool_decide (partition = Differs)
  then fail (if is_some (sk_condition kc) then QUERY_AT_MOST_ONE_ROW_MSG
             else QUERY_START_KEY_OUTSIDE_BOUNDARIES_MSG)
  else Ok tt.

Definition page_ends_at_far_end (last_key : Item) (kc : KeyCondition) maps (shape : QueryReadShape) : bool :=
  is_hash_only_table shape || is_some (far_end last_key kc maps shape).
End StartKey.

(** ** The order of key values *)

Lemma cmp_lt_le_trans {A : Type} `{OrdLaws A} (x y z : A) :
  cmp x y = Lt -> cmp y z <> Gt -> cmp x z = Lt.
Proof.
  intros H1 H2. destruct (cmp y z) eqn:E; [|by eapply cmp_lt_trans|done].
  by apply cmp_eq_iff in E as <-.
Qed.

Lemma cmp_le_lt_trans {A : Type} `{OrdLaws A} (x y z : A) :
  cmp x y <> Gt -> cmp y z = Lt -> cmp x z = Lt.
Proof.
  intros H1 H2. destruct (cmp x y) eqn:E; [|by eapply cmp_lt_trans|done].
  by apply cmp_eq_iff in E as ->.
Qed.

Lemma dec_cmp_lt_le_trans a b c : dec_cmp a b = Lt -> dec_cmp b c <> Gt -> dec_cmp a c = Lt.
Proof.
  set (e := Z.min a.2 (Z.min b.2 c.2)). rewrite !(dec_cmp_at e) by lia.
  rewrite !Z.compare_lt_iff, Z.compare_le_iff. lia.
Qed.

Lemma dec_cmp_le_lt_trans a b c : dec_cmp a b <> Gt -> dec_cmp b c = Lt -> dec_cmp a c = Lt.
Proof.
  set (e := Z.min a.2 (Z.min b.2 c.2)). rewrite !(dec_cmp_at e) by lia.
  rewrite !Z.compare_lt_iff, Z.compare_le_iff. lia.
Qed.

Section KeyValues.
Context {D : Type} `{HD : BigDecimal D}.

(** A value a key attribute can have. *)
Definition key_value (v : AttributeValue) : Prop :=
  match v with
  | AV_S _ | AV_B _ => True
  | AV_N n => exists d : D, bd_parse n = Some d
  | _ => False
  end.

Definition val_cmp (v w : AttributeValue) : comparison :=
  match v, w with
  | AV_S s, AV_S t => cmp s t
  | AV_B s, AV_B t => cmp s t
  | AV_N m, AV_N n =>
      match (bd_parse m : option D), (bd_parse n : option D) with
      | Some x, Some y => bd_cmp x y
      | _, _ => Eq
      end
  | _, _ => Eq
  end.

Lemma compare_values_key v w op : key_value v -> key_value w -> same_discriminant v w = true ->
  compare_values (D := D) v w op None None = apply_op (val_cmp v w) op.
Proof.
  destruct v, w; try done. intros [x Hx] [y Hy] _. simpl. by rewrite Hx, Hy.
Qed.

Context `{HDL : !BigDecimalLaws D}.

Lemma val_cmp_antisym v w : val_cmp w v = CompOpp (val_cmp v w).
Proof.
  destruct v, w; try done; simpl; try apply cmp_antisym.
  destruct (bd_parse n), (bd_parse n0); try done. rewrite !bd_cmp_value. apply dec_cmp_antisym.
Qed.

Lemma val_cmp_lt_le u v w :
  key_value u -> key_value v -> key_value w -> same_discriminant u v = true ->
  same_discriminant v w = true -> val_cmp u v = Lt -> val_cmp v w <> Gt -> val_cmp u w = Lt.
Proof.
  destruct u, v, w; try done; simpl; intros Hu Hv Hw _ _.
  - apply cmp_lt_le_trans.
  - destruct Hu as [x ->], Hv as [y ->], Hw as [z ->]. rewrite !bd_cmp_value. apply dec_cmp_lt_le_trans.
  - apply cmp_lt_le_trans.
Qed.

Lemma val_cmp_le_lt u v w :
  key_value u -> key_value v -> key_value w -> same_discriminant u v = true ->
  same_discriminant v w = true -> val_cmp u v <> Gt -> val_cmp v w = Lt -> val_cmp u w = Lt.
Proof.
  destruct u, v, w; try done; simpl; intros Hu Hv Hw _ _.
  - apply cmp_le_lt_trans.
  - destruct Hu as [x ->], Hv as [y ->], Hw as [z ->]. rewrite !bd_cmp_value. apply dec_cmp_le_lt_trans.
  - apply cmp_le_lt_trans.
Qed.
End KeyValues.

(** ** What the predicate says of a key value *)

Section Predicate.
Context {D : Type} `{HD : BigDecimal D} `{HDL : !BigDecimalLaws D}.
Implicit Type maps : ExpressionMaps D.

(** A path of one attribute, and the name it stands for. *)
Definition key_path (path : list PathElement) (name : string) maps : Prop :=
  length path = 1 /\ condition_attribute_name path maps = Some name.

Definition bound_value maps (e : Expr) : option AttributeValue :=
  match e with EPlaceholder n => value_ok maps n | _ => None end.

(** Every bound of the condition is a key value of the type of [v]. *)
Definition bounds_typed maps (sk : SortKeyCondition) (v : AttributeValue) : Prop :=
  Forall (fun e => exists w, bound_value maps e = Some w /\ key_value (D := D) w
                             /\ same_discriminant w v = true) (sk_bounds sk).

Definition starts_with_value (v p : AttributeValue) : bool :=
  match v, p with
  | AV_S s, AV_S t => list_starts_with (as_bytes s) (as_bytes t)
  | AV_B s, AV_B t => list_starts_with s t
  | _, _ => false
  end.

(** The condition, of the value of the sort key. *)
Definition sk_holds maps (sk : SortKeyCondition) (v : AttributeValue) : bool :=
  match sk with
  | SKCompare _ op e =>
      match bound_value maps e with Some w => apply_op (val_cmp (D := D) v w) op | None => false end
  | SKBetween _ low high =>
      match bound_value maps low, bound_value maps high with
      | Some l, Some h =>
          apply_op (val_cmp (D := D) v l) CGe && apply_op (val_cmp (D := D) v h) CLe
      | _, _ => false
      end
  | SKBeginsWith _ e =>
      match bound_value maps e with Some p => starts_with_value v p | None => false end
  end.

Lemma resolve_key_path path name item maps : key_path path name maps ->
  resolve_to_value (EPath path) item maps = Ok (bt_get name item).
Proof.
  intros [Hl Hn]. destruct path as [|[a|i] [|]]; try done. simpl in *.
  unfold resolve_name_ref, resolve_name. destruct (strip_prefix_char "#" a) as [r|].
  - rewrite Hn. by destruct (bt_get name item).
  - injection Hn as ->. by destruct (bt_get name item).
Qed.

Lemma bound_value_Some maps e w : bound_value maps e = Some w ->
  exists n, e = EPlaceholder n /\ forall item, resolve_to_value e item maps = Ok (Some w).
Proof.
  destruct e; try done. simpl. unfold value_ok. destruct (resolve_value maps name) eqn:E; [|done].
  intros [= ->]. exists name. split; [done|]. done.
Qed.

Lemma same_discriminant_sym v w : same_discriminant v w = same_discriminant w v.
Proof. by destruct v, w. Qed.

Lemma same_discriminant_trans u v w :
  same_discriminant u v = true -> same_discriminant v w = true -> same_discriminant u w = true.
Proof. by destruct u, v, w. Qed.

Lemma same_discriminant_code v w :
  same_discriminant v w = true -> attribute_type_code v = attribute_type_code w.
Proof. by destruct v, w. Qed.

(** A comparison of the sort key with a bound. *)
Lemma eval_bound path name item maps e v w op :
  maps_ok maps -> key_path path name maps -> bt_get name item = Some v ->
  bound_value maps e = Some w -> key_value (D := D) v -> key_value (D := D) w ->
  same_discriminant w v = true ->
  compare_values v w op (placeholder_numeric (EPath path) maps) (placeholder_numeric e maps)
  = apply_op (val_cmp (D := D) v w) op.
Proof.
  intros Hok Hp Hv Hw Kv Kw Hd. destruct (bound_value_Some _ _ _ Hw) as (n & _ & Hr).
  rewrite (compare_cached maps (EPath path) e v w item); [|done| |by apply Hr].
  - apply compare_values_key; [done|done|by rewrite same_discriminant_sym].
  - rewrite (resolve_key_path path name) by done. by rewrite Hv.
Qed.

Lemma sk_predicate_holds sk name item maps v :
  maps_ok maps -> key_path (sk_path sk) name maps -> bt_get name item = Some v ->
  key_value (D := D) v -> bounds_typed maps sk v ->
  (evaluate_condition (sort_key_predicate sk) item maps = Ok true <-> sk_holds maps sk v = true)
  /\ (evaluate_condition (sort_key_predicate sk) item maps = Ok false -> sk_holds maps sk v = false).
Proof.
  intros Hok Hp Hv Kv Hb. unfold bounds_typed in Hb.
  destruct sk as [path op e|path low high|path e]; cbn [sk_bounds sk_path sort_key_predicate] in *;
    rewrite ?Forall_cons_iff in Hb.
  - destruct Hb as [(w & Hw & Kw & Dw) _]. destruct (bound_value_Some _ _ _ Hw) as (n & _ & Hr).
    cbn [evaluate_condition]. rewrite (resolve_key_path _ _ _ _ Hp), Hv, Hr.
    rewrite (eval_bound path name item maps e v w op) by done. unfold sk_holds. rewrite Hw.
    destruct (apply_op _ op); (split; [split|]); congruence.
  - destruct Hb as [(l & Hl & Kl & Dl) [(h & Hh & Kh & Dh) _]].
    destruct (bound_value_Some _ _ _ Hl) as (nl & El & Hrl), (bound_value_Some _ _ _ Hh) as (nh & Eh & Hrh).
    cbn [evaluate_condition]. rewrite (resolve_key_path _ _ _ _ Hp), Hv, Hrl, Hrh.
    unfold between_bounds_check. rewrite El, Eh. cbn [is_placeholder andb].
    assert (same_discriminant l h = true) as Dlh
      by (eapply same_discriminant_trans; [exact Dl|by rewrite same_discriminant_sym]).
    rewrite (same_discriminant_code l h Dlh), String.eqb_refl. cbn [negb].
    rewrite <- El, <- Eh, (compare_cached maps low high l h item) by done.
    rewrite compare_values_key by done.
    destruct (apply_op (val_cmp l h) CGt) eqn:Egt.
    + unfold sk_holds. rewrite Hl, Hh. split; [split; [done|]|done].
      intros [E1 E2]%andb_true_iff. exfalso. simpl in *.
      assert (val_cmp (D := D) l v <> Gt) as Hlv.
      { rewrite val_cmp_antisym. by destruct (val_cmp v l). }
      assert (val_cmp (D := D) h l = Lt) as Hhl.
      { rewrite val_cmp_antisym. by destruct (val_cmp l h). }
      assert (val_cmp (D := D) h v = Lt) as Hhv.
      { eapply val_cmp_lt_le; [exact Kh|exact Kl|exact Kv|by rewrite same_discriminant_sym|done|done|done]. }
      rewrite val_cmp_antisym in Hhv. by destruct (val_cmp v h).
    + rewrite !(eval_bound path name item maps) by done. unfold sk_holds. rewrite Hl, Hh.
      destruct (_ && _); (split; [split|]); congruence.
  - destruct Hb as [(p & Hp' & Kp & Dp) _]. destruct (bound_value_Some _ _ _ Hp') as (n & _ & Hr).
    unfold evaluate_condition, evaluate_function. simpl String.eqb. cbv iota.
    rewrite (resolve_key_path _ _ _ _ Hp), Hv, Hr. unfold sk_holds. rewrite Hp'.
    destruct p, v; try done; simpl; try (split; [split|]; congruence).
Qed.
End Predicate.

(** ** The schema of a start key *)

Lemma find_definition_name name defs d : find_definition name defs = Some d -> ad_attribute_name d = name.
Proof. intros [_ E%String.eqb_eq]%find_some. done. Qed.

(** A key with exactly the attributes of a schema, each of its declared type. *)
Definition key_of_schema (required : list KeySchemaElement) (defs : list AttributeDefinition) (key : Item) : Prop :=
  (forall name, is_Some (bt_get name key) <-> name ∈ key_names required)
  /\ forall ks v, In ks required -> bt_get (ks_attribute_name ks) key = Some v ->
       exists d, find_definition (ks_attribute_name ks) defs = Some d
         /\ attr_value_matches_scalar v (ad_attribute_type d) = true.

Lemma bt_sorted_NoDup (m : Item) : bt_sorted m = true -> NoDup m.*1.
Proof.
  intros Hs. induction m as [|[k v] m IH]; [constructor|]. rewrite bt_sorted_cons in Hs. simpl.
  constructor; [|by eapply IH, keys_above_sorted]. intros ([k' v'] & -> & Hin)%list_elem_of_fmap. simpl in Hs.
  apply list_elem_of_In in Hin.
  pose proof (keys_above_get k' k' m Hs) as Hg. rewrite cmp_refl in Hg.
  rewrite (In_bt_get k' v' m) in Hg; [|by eapply keys_above_sorted|done]. by discriminate Hg.
Qed.

Lemma bt_get_fst (m : Item) name : bt_sorted m = true -> is_Some (bt_get name m) <-> name ∈ m.*1.
Proof.
  intros Hs. split.
  - intros [v Hv%bt_get_In]. apply list_elem_of_fmap. exists (name, v). split; [done|]. by apply list_elem_of_In.
  - intros ([k v] & -> & Hin)%list_elem_of_fmap. exists v. apply In_bt_get; [done|]. by apply list_elem_of_In.
Qed.

(** The length check and the presence check together mean the names are the
    schema's. *)
Lemma key_names_exact (key : Item) (names : list string) :
  bt_sorted key = true -> NoDup names -> (forall n, n ∈ names -> is_Some (bt_get n key)) ->
  length key = length names <-> (forall n, is_Some (bt_get n key) <-> n ∈ names).
Proof.
  intros Hs Hn Hin. assert (Hsub : names ⊆ key.*1).
  { intros n Hn'. apply bt_get_fst; [done|]. by apply Hin. }
  split.
  - intros Hl n. split; [|apply Hin]. rewrite bt_get_fst by done. intros Hk.
    assert (Hp : names ≡ₚ key.*1).
    { apply submseteq_length_Permutation; [by apply NoDup_submseteq|]. rewrite length_fmap. lia. }
    by rewrite Hp.
  - intros Hiff. rewrite <- (length_fmap fst key). apply Permutation_length.
    apply NoDup_Permutation; [by apply bt_sorted_NoDup|done|]. intros n.
    rewrite <- Hiff. symmetry. by apply bt_get_fst.
Qed.

Lemma for_each_total {A : Type} (f : A -> res unit) msg l :
  (forall x, f x = Ok tt \/ f x = fail msg) -> for_each f l = Ok tt \/ for_each f l = fail msg.
Proof.
  intros Hf. induction l as [|x l IH]; simpl; [by left|]. by destruct (Hf x) as [-> | ->]; [|right].
Qed.

Lemma check_start_key_Ok start_key required defs msg :
  bt_sorted start_key = true -> NoDup (key_names required) ->
  check_exclusive_start_key start_key required defs msg = Ok tt <-> key_of_schema required defs start_key.
Proof.
  intros Hs Hn. unfold check_exclusive_start_key. destruct (for_each _ required) as [[]|f] eqn:E1.
  - rewrite for_each_Ok in E1.
    assert (Hin : forall n, n ∈ key_names required -> is_Some (bt_get n start_key)).
    { intros n Hn'. apply list_elem_of_In, in_map_iff in Hn' as (ks & <- & Hks). specialize (E1 ks Hks).
      unfold bt_contains_key in E1. destruct (bt_get _ start_key); [eauto|done]. }
    pose proof (key_names_exact start_key (key_names required) Hs Hn Hin) as Hx.
    unfold key_names in Hx at 1. rewrite length_map in Hx.
    destruct (Nat.eqb_spec (length start_key) (length required)) as [El|El]; cbn [negb].
    + etransitivity; [apply for_each_Ok|]. unfold key_of_schema. split.
      * intros Hf. split; [by apply Hx|]. intros ks v Hks Hv. specialize (Hf ks Hks). rewrite Hv in Hf.
        destruct (find_definition _ defs) as [d|]; [|done]. exists d. split; [done|].
        by destruct (attr_value_matches_scalar _ _).
      * intros [_ Ht] ks Hks. destruct (Hin (ks_attribute_name ks)) as [v Hv];
          [by apply list_elem_of_In, in_map|]. destruct (Ht ks v Hks Hv) as (d & -> & Hm). by rewrite Hv, Hm.
    + split; [done|]. intros [Hiff _]. by apply Hx in Hiff.
  - split; [done|]. intros [Hiff _]. enough (Ok tt = Err f) by done. rewrite <- E1. symmetry.
    apply for_each_Ok. intros ks Hks. unfold bt_contains_key.
    destruct (proj2 (Hiff (ks_attribute_name ks))) as [v ->]; [by apply list_elem_of_In, in_map|done].
Qed.

(** A start key is accepted exactly when it has the key attributes of what is
    read and nothing else, each with its declared type; otherwise the request is
    refused with the one message of its operation. *)
Theorem start_key_schema_spec start_key required defs msg :
  bt_sorted start_key = true -> NoDup (key_names required) ->
  (check_exclusive_start_key start_key required defs msg = Ok tt <-> key_of_schema required defs start_key)
  /\ (check_exclusive_start_key start_key required defs msg = Ok tt
      \/ check_exclusive_start_key start_key required defs msg = fail msg).
Proof.
  intros Hs Hn. split; [by apply check_start_key_Ok|]. unfold check_exclusive_start_key.
  match goal with |- context [match for_each ?f required with _ => _ end] =>
    destruct (for_each_total f msg required) as [-> | ->]; [|destruct (negb _); [by right|apply for_each_total]|by right]
  end.
  - intros ks. simpl. destruct (bt_contains_key _ _); auto.
  - intros ks. destruct (find_definition _ _); [|by right]. destruct (bt_get _ _); [|by right].
    destruct (attr_value_matches_scalar _ _); auto.
Qed.

(** ** Keys at the far end *)

Section FarEnd.
Context {D : Type} `{HD : BigDecimal D} `{HDL : !BigDecimalLaws D}.
Implicit Type maps : ExpressionMaps D.

Lemma starts_with_le (l p : list ascii) : list_starts_with l p = true -> list_cmp l p <> Lt.
Proof.
  intros (k & ->)%list_starts_with_iff. induction p as [|c p IH]; simpl; [by destruct k|].
  rewrite cmp_refl. done.
Qed.

Lemma bounds_typed_change maps sk v v' :
  same_discriminant v v' = true -> bounds_typed maps sk v -> bounds_typed maps sk v'.
Proof.
  intros Hd. unfold bounds_typed. rewrite !List.Forall_forall. intros Hb e He.
  destruct (Hb e He) as (w & H1 & H2 & H3). exists w. repeat split; [done|done|].
  by eapply same_discriminant_trans.
Qed.

(** The far end, of the values: nothing beyond a value at the bound matches. *)
Lemma far_end_bound_last maps sk forward e kind v v' w :
  far_end_bound sk forward = Some (e, kind) -> bound_value maps e = Some w ->
  bounds_typed maps sk v -> key_value (D := D) v -> key_value (D := D) v' -> same_discriminant v v' = true ->
  val_cmp (D := D) v w = Eq -> val_cmp (D := D) v' v = (if forward then Gt else Lt) ->
  sk_holds maps sk v' = false.
Proof.
  intros Hf Hw Hb Kv Kv' Hd He Hc.
  assert (In e (sk_bounds sk)) as Hin.
  { destruct sk as [? []|?|?], forward; simpl in *; try done; injection Hf as <- _; auto. }
  unfold bounds_typed in Hb. rewrite List.Forall_forall in Hb.
  destruct (Hb e Hin) as (w' & Hw' & Kw & Dw). assert (w' = w) as -> by congruence.
  assert (Hcw : val_cmp (D := D) v' w = (if forward then Gt else Lt)).
  { destruct forward.
    - rewrite val_cmp_antisym. replace Gt with (CompOpp Lt) by done. f_equal.
      eapply (val_cmp_le_lt w v v'); [done|done|done|done|done| |].
      + rewrite val_cmp_antisym, He. done.
      + by rewrite val_cmp_antisym, Hc.
    - eapply (val_cmp_lt_le v' v w); [done|done|done| | |done|by rewrite He];
        by rewrite same_discriminant_sym. }
  destruct sk as [? op ?|? lo hi|? p]; unfold sk_holds.
  - assert (e = value) as -> by (destruct op, forward; simpl in Hf; congruence).
    rewrite Hw, Hcw. by destruct op, forward.
  - destruct forward; injection Hf as <- _; rewrite Hw, ?Hcw.
    + destruct (bound_value maps lo); [|done]. apply andb_false_r.
    + by destruct (bound_value maps hi).
  - destruct forward; [done|]. injection Hf as <- _. rewrite Hw.
    destruct v', w; try done; simpl in *; destruct (list_starts_with _ _) eqn:Es; try done;
      by apply starts_with_le in Es.
Qed.

Lemma evaluates_to_true e item maps : evaluates_to true e item maps = true ->
  evaluate_condition e item maps = Ok true.
Proof. unfold evaluates_to. destruct (evaluate_condition e item maps) as [[]|]; done. Qed.

Lemma far_end_Some key kc maps shape kind : far_end key kc maps shape = Some kind ->
  exists sk e, qs_on_index shape = false /\ sk_condition kc = Some sk /\ sort_key_is_evaluable sk key maps = true
    /\ far_end_bound sk (qs_forward shape) = Some (e, kind)
    /\ evaluate_condition (ECompare (EPath (sk_path sk)) CEq e) key maps = Ok true.
Proof.
  unfold far_end, evaluable_sk. destruct (qs_on_index shape); [done|].
  destruct (sk_condition kc) as [sk|]; [|done]. simpl. destruct (sort_key_is_evaluable sk key maps) eqn:Ee; [|done].
  simpl. destruct (far_end_bound sk _) as [[e k]|] eqn:Ef; [|done]. simpl.
  destruct (evaluates_to true _ key maps) eqn:Ev; [|done]. intros [= <-].
  exists sk, e. do 4 (split; [done|]). exact (evaluates_to_true _ _ _ Ev).
Qed.

(** Dropping the key of a page at the far end loses nothing: when the key's sort
    value is at the inclusive bound where the read ends, no item that comes after it
    in the direction of the read satisfies the sort key condition. *)
Theorem far_end_is_last key item kc maps shape kind sk name v v' :
  maps_ok maps -> sk_condition kc = Some sk -> key_path (sk_path sk) name maps ->
  bt_get name key = Some v -> bt_get name item = Some v' ->
  key_value (D := D) v -> key_value (D := D) v' -> same_discriminant v v' = true ->
  bounds_typed maps sk v -> far_end key kc maps shape = Some kind ->
  val_cmp (D := D) v' v = (if qs_forward shape then Gt else Lt) ->
  evaluate_condition (sort_key_predicate sk) item maps <> Ok true.
Proof.
  intros Hok Hsk Hp Hv Hv' Kv Kv' Hd Hb Hf Hc.
  destruct (far_end_Some _ _ _ _ _ Hf) as (sk' & e & _ & Hsk' & _ & Hfb & He).
  assert (sk' = sk) as -> by congruence.
  assert (In e (sk_bounds sk)) as Hin.
  { destruct sk as [? []|?|?], (qs_forward shape); simpl in *; try done; injection Hfb as <- _; auto. }
  pose proof Hb as Hb'. unfold bounds_typed in Hb'. rewrite List.Forall_forall in Hb'.
  destruct (Hb' e Hin) as (w & Hw & Kw & Dw).
  assert (Heq : val_cmp (D := D) v w = Eq).
  { destruct (bound_value_Some _ _ _ Hw) as (n & _ & Hr). cbn [evaluate_condition] in He.
    rewrite (resolve_key_path _ _ _ _ Hp), Hv, Hr in He.
    rewrite (eval_bound (sk_path sk) name key maps e v w CEq) in He by done. simpl in He.
    injection He as He. by apply bool_decide_eq_true in He. }
  rewrite (proj1 (sk_predicate_holds sk name item maps v' Hok Hp Hv' Kv' (bounds_typed_change _ _ _ _ Hd Hb))).
  by rewrite (far_end_bound_last maps sk (qs_forward shape) e kind v v' w).
Qed.

(** ** Keys of a page *)

(** The item is one the key condition selects, as far as its key attributes say. *)
Record selected_by (item : Item) (kc : KeyCondition) maps : Prop := {
  sel_partition : forall path value, In (path, value) ((pk_path kc, pk_value kc) :: extra_pk_conditions kc) ->
    forall name w v, condition_attribute_name path maps = Some name -> bound_value maps value = Some w ->
      bt_get name item = Some v -> v = w;
  sel_sort : forall sk, sk_condition kc = Some sk ->
    evaluate_condition (sort_key_predicate sk) item maps <> Ok false
}.

Lemma partition_not_differs key maps clauses unknown :
  (forall path value, In (path, value) clauses ->
    forall name w v, condition_attribute_name path maps = Some name -> bound_value maps value = Some w ->
      bt_get name key = Some v -> v = w) ->
  partition_loop key maps clauses unknown <> Differs.
Proof.
  revert unknown. induction clauses as [|[path value] clauses IH]; intros unknown Hc; simpl.
  { by destruct unknown. }
  assert (Hrest : forall u, partition_loop key maps clauses u <> Differs).
  { intros u. apply IH. intros p e Hin. apply Hc. by right. }
  unfold wanted_and_supplied. destruct (condition_attribute_name path maps) as [name|] eqn:En; simpl; [|done].
  fold (bound_value maps value). destruct (bound_value maps value) as [w|] eqn:Ew; simpl; [|done].
  destruct (bt_get name key) as [v|] eqn:Ev; simpl; [|done].
  rewrite (Hc path value (or_introl eq_refl) name w v En Ew Ev).
  assert (av_eqb w w = true) as -> by (by apply av_eqb_eq). by destruct (same_discriminant w w).
Qed.

(** Evaluating on the key is evaluating on the item it is the key of. *)
Lemma evaluate_on_key item required maps sk name :
  key_path (sk_path sk) name maps -> name ∈ key_names required ->
  Forall (fun e => is_placeholder e = true) (sk_bounds sk) ->
  evaluate_condition (sort_key_predicate sk) (extract_key item required) maps
  = evaluate_condition (sort_key_predicate sk) item maps.
Proof.
  intros Hp Hn Hb. apply evaluate_frame. intros first rest n Hs Hr.
  assert (n = name) as ->.
  { assert (Hpath : first :: rest = sk_path sk).
    { apply subexpr_parts in Hs as [E|(x & Hx & Hs)]; [by destruct sk|].
      assert (x = EPath (sk_path sk) \/ In x (sk_bounds sk)) as [->|Hin].
      { destruct sk; simpl in *; naive_solver. }
      - apply subexpr_parts in Hs as [E|(? & [] & _)]. by injection E.
      - rewrite List.Forall_forall in Hb. specialize (Hb x Hin). destruct x; try done.
        apply subexpr_parts in Hs as [E|(? & [] & _)]. done. }
    destruct Hp as [_ Hp]. rewrite <- Hpath in Hp. destruct first as [a|i]; [|done]. simpl in *.
    unfold resolve_name_ref, resolve_name in Hr. destruct (strip_prefix_char "#" a); [|congruence].
    rewrite Hp in Hr. congruence. }
  rewrite extract_key_get. by rewrite bool_decide_eq_true_2.
Qed.

(** C36. A page's [LastEvaluatedKey] restarts the read: the key of an item that the key
    condition selects, which the page kept because it is not at the far end, passes
    both checks of the next request's start key. *)
Theorem page_key_restarts item kc maps key_info index_info shape :
  NoDup (key_names (combined_lek_key_schema (tki_key_schema key_info) index_info)) ->
  key_of_schema (combined_lek_key_schema (tki_key_schema key_info) index_info)
    (tki_attribute_definitions key_info)
    (extract_key item (combined_lek_key_schema (tki_key_schema key_info) index_info)) ->
  selected_by item kc maps ->
  (forall sk, sk_condition kc = Some sk -> exists name, key_path (sk_path sk) name maps
     /\ name ∈ key_names (combined_lek_key_schema (tki_key_schema key_info) index_info)
     /\ Forall (fun e => is_placeholder e = true) (sk_bounds sk)) ->
  let key := extract_key item (combined_lek_key_schema (tki_key_schema key_info) index_info) in
  page_ends_at_far_end key kc maps shape = false ->
  validate_query_exclusive_start_key key key_info index_info = Ok tt
  /\ validate_query_start_key_bounds key kc maps shape = Ok tt.
Proof.
  intros Hn Hk [Hpart Hsort] Hsk key Hfar. split.
  { apply check_start_key_Ok; [apply extract_key_sorted|done|done]. }
  unfold page_ends_at_far_end in Hfar. apply orb_false_iff in Hfar as [Hh Hf].
  unfold validate_query_start_key_bounds.
  assert (partition_state key kc maps <> Differs) as Hd.
  { apply partition_not_differs. intros path value Hin name w v Ha Hb Hg. eapply Hpart; eauto.
    subst key. rewrite extract_key_get in Hg. by case_bool_decide. }
  assert (match evaluable_sk kc key maps with
          | Some sk => if evaluates_to false (sort_key_predicate sk) key maps
                       then fail QUERY_START_KEY_RANGE_PREDICATE_MSG else Ok tt
          | None => Ok tt end = Ok tt) as ->.
  { unfold evaluable_sk. destruct (sk_condition kc) as [sk|] eqn:Es; [|done]. simpl.
    destruct (sort_key_is_evaluable sk key maps); [|done]. destruct (Hsk sk eq_refl) as (name & Hp & Hin & Hb).
    unfold evaluates_to. subst key. rewrite (evaluate_on_key item _ maps sk name) by done.
    specialize (Hsort sk eq_refl). destruct (evaluate_condition _ item maps) as [[]|]; done. }
  destruct (far_end key kc maps shape); [done|]. simpl. rewrite Hh. simpl.
  by rewrite bool_decide_eq_false_2.
Qed.
End FarEnd.

(** ** Samples *)

Definition sample_key_schema : list KeySchemaElement :=
  [{| ks_attribute_name := "p"; ks_key_type := Hash |}; {| ks_attribute_name := "s"; ks_key_type := Range |}].

Definition sample_key_info : TableKeyInfo :=
  {| tki_table_id := "t"; tki_key_schema := sample_key_schema; tki_base_key_schema := sample_key_schema;
     tki_attribute_definitions :=
       [{| ad_attribute_name := "p"; ad_attribute_type := Scalar_S |};
        {| ad_attribute_name := "s"; ad_attribute_type := Scalar_N |}] |}.

Definition sample_start : Item := [("p", AV_S "x"); ("s", AV_N "7")].

(** [p = :p AND s <= :hi] *)
Definition sample_kc : KeyCondition :=
  {| pk_path := [PAttr "p"]; pk_value := EPlaceholder "p"; extra_pk_conditions := [];
     sk_condition := Some (SKCompare [PAttr "s"] CLe (EPlaceholder "hi")); extra_sk_conditions := [] |}.

Definition sample_maps (hi : string) : ExpressionMaps dec :=
  maps_new ∅ {["p" := AV_S "x"; "hi" := AV_N hi]}.

Definition sample_shape : QueryReadShape :=
  {| qs_key_schema := sample_key_schema; qs_on_index := false; qs_forward := true |}.

Lemma sample_start_key : key_of_schema sample_key_schema (tki_attribute_definitions sample_key_info) sample_start.
Proof.
  apply (check_start_key_Ok sample_start _ _ "m"); [done| |by vm_compute].
  apply (bool_decide_unpack _). by vm_compute.
Qed.

Lemma start_key_schema_spec_witness :
  check_exclusive_start_key sample_start sample_key_schema (tki_attribute_definitions sample_key_info) "m" = Ok tt.
Proof.
  apply (start_key_schema_spec sample_start sample_key_schema (tki_attribute_definitions sample_key_info) "m").
  - reflexivity.
  - apply (bool_decide_unpack _). vm_compute. exact I.
  - exact sample_start_key.
Defined.

Lemma far_end_is_last_witness :
  evaluate_condition (sort_key_predicate (SKCompare [PAttr "s"] CLe (EPlaceholder "hi")))
    [("p", AV_S "x"); ("s", AV_N "7.5")] (sample_maps "7.0") <> Ok true.
Proof.
  apply (far_end_is_last (D := dec) sample_start [("p", AV_S "x"); ("s", AV_N "7.5")] sample_kc
    (sample_maps "7.0") sample_shape FarBound (SKCompare [PAttr "s"] CLe (EPlaceholder "hi")) "s"
    (AV_N "7") (AV_N "7.5")); try reflexivity.
  - apply maps_new_ok.
  - split; reflexivity.
  - eexists. vm_compute. reflexivity.
  - eexists. vm_compute. reflexivity.
  - constructor; [|constructor]. eexists.
    split; [vm_compute; reflexivity|]. split; [eexists; vm_compute; reflexivity|reflexivity].
Defined.

Lemma page_key_restarts_witness :
  validate_query_exclusive_start_key sample_start sample_key_info None = Ok tt
  /\ validate_query_start_key_bounds sample_start sample_kc (sample_maps "9") sample_shape = Ok tt.
Proof.
  apply (page_key_restarts (D := dec) (("a", AV_Null) :: sample_start) sample_kc (sample_maps "9")
    sample_key_info None sample_shape).
  - apply (bool_decide_unpack _). vm_compute. exact I.
  - exact sample_start_key.
  - split.
    + intros path value [E|[]] name w v Hn Hw Hv. injection E as <- <-.
      vm_compute in Hn, Hw. injection Hn as <-. vm_compute in Hv. congruence.
    + intros sk [= <-]. vm_compute. discriminate.
  - intros sk [= <-]. exists "s". split; [split; reflexivity|]. split.
    + apply list_elem_of_In. right. left. reflexivity.
    + repeat constructor.
  - vm_compute. reflexivity.
Defined.
