(* ===== verification/StorageKey.v ===== *)
(** * Row keys of the storage backends

    [crates/storage/src/util/key.rs]: the text of a partition key, the typed sort
    key, the names of the key columns, and the attribute definitions a table
    keeps; with [hash_key_text] of [crates/core/src/backup_format/key_order.rs].
    Base64 is an external encoder and decoder with their documented injectivity and
    round trip; RFC 4648 is an instance of both. *)

From S2P Require Import Prelude BTree Types Error Decimal Ast Resolver KeyCondition KeyResolve Storage.

(** ** Base64 *)

Class Base64 : Type := b64_encode : bytes -> string.
Class Base64Decode : Type := b64_decode : string -> result string bytes.
Class Base64Laws `{Base64} : Prop := b64_encode_inj : Inj (=) (=) b64_encode.
Class Base64RoundTrip `{Base64} `{Base64Decode} : Prop :=
  b64_decode_encode : forall b, b64_decode (b64_encode b) = Ok b.

(** ** Values *)

Inductive SortKeyValue (D : Type) : Type :=
  | SK_S (s : string)
  | SK_N (d : D)
  | SK_B (b : bytes).
Arguments SK_S {D} s.
Arguments SK_N {D} d.
Arguments SK_B {D} b.

Definition hash_key_text `{Base64} (value : AttributeValue) : option string :=
  match value with
  | AV_S s => Some s
  | AV_N n => Some n
  | AV_B b => Some (b64_encode b)
  | _ => None
  end.

Definition pk_to_text `{Base64} (value : AttributeValue) : result StorageError string :=
  ok_or_else (hash_key_text value) (SE_Internal "partition key must be S, N, or B").

(** [out.push_str] and [out.push] of one part. *)
Definition push_netstring (out p : string) : string :=
  out +:+ nat_to_string (String.length p) +:+ ":" +:+ p +:+ ",".

Definition encode_netstring_composite (parts : list string) : string :=
  fold_left push_netstring parts "".

Definition hash_part `{Base64} (item : Item) (ks : KeySchemaElement) : result StorageError string :=
  let? val := ok_or_else (bt_get (ks_attribute_name ks) item)
    (SE_Internal ("missing partition key attribute " +:+ ks_attribute_name ks)) in
  pk_to_text val.

Definition composite_pk_to_text `{Base64} (item : Item) (key_schema : list KeySchemaElement)
    : result StorageError string :=
  match hash_key_elements key_schema with
  | [ks] =>
      let? val := ok_or_else (bt_get (ks_attribute_name ks) item)
        (SE_Internal "missing partition key") in
      pk_to_text val
  | hash_elements =>
      let? parts := collect_results (hash_part item) hash_elements in
      Ok (encode_netstring_composite parts)
  end.

(** [parse_error] is the text of the decimal parser's error. *)
Definition parse_sk {D : Type} `{BigDecimal D} (parse_error : string -> string)
    (value : AttributeValue) (sk_type : ScalarAttributeType)
    : result StorageError (SortKeyValue D) :=
  match sk_type, value with
  | Scalar_S, AV_S s => Ok (SK_S s)
  | Scalar_N, AV_N n =>
      let? d := ok_or_else (bd_parse n)
        (SE_Internal ("invalid numeric sort key: " +:+ parse_error n)) in
      Ok (SK_N d)
  | Scalar_B, AV_B b => Ok (SK_B b)
  | _, _ => Err (SE_Internal "sort key type mismatch")
  end.

(** ** Columns and attribute definitions *)

Definition sk_column (attr_type : ScalarAttributeType) : string :=
  match attr_type with
  | Scalar_S => "sk_s"
  | Scalar_N => "sk_n"
  | Scalar_B => "sk_b"
  end.

Definition type_suffix (attr_type : ScalarAttributeType) : string :=
  match attr_type with
  | Scalar_S => "s"
  | Scalar_N => "n"
  | Scalar_B => "b"
  end.

Definition sk_column_n (index : nat) (attr_type : ScalarAttributeType) : string :=
  if index =? 0 then "sk_" +:+ type_suffix attr_type
  else "sk" +:+ nat_to_string (index + 1) +:+ "_" +:+ type_suffix attr_type.

(** [iter().find(|ad| ad.attribute_name == name)]. *)
Definition find_def (name : string) (defs : list AttributeDefinition) : option AttributeDefinition :=
  List.find (fun ad => String.eqb (ad_attribute_name ad) name) defs.

(** [iter().any(|ad| ad.attribute_name == name)]. *)
Definition is_defined (name : string) (defs : list AttributeDefinition) : bool :=
  existsb (fun ad => String.eqb (ad_attribute_name ad) name) defs.

Definition sk_info (key_schema : list KeySchemaElement) (attr_defs : list AttributeDefinition)
    : option (string * ScalarAttributeType) :=
  match List.find (fun ks => bool_decide (ks_key_type ks = Range)) key_schema with
  | Some sk_element =>
      match find_def (ks_attribute_name sk_element) attr_defs with
      | Some attr_def => Some (ks_attribute_name sk_element, ad_attribute_type attr_def)
      | None => None
      end
  | None => None
  end.

Definition merge_attribute_definitions (existing incoming : list AttributeDefinition)
    : list AttributeDefinition :=
  fold_left (fun merged new_def =>
    if is_defined (ad_attribute_name new_def) merged then merged else merged ++ [new_def])
    incoming existing.

Definition effective_attribute_definitions (stored requested : list AttributeDefinition)
    (table_key_schema : list KeySchemaElement)
    (surviving_index_key_schemas : list (list KeySchemaElement)) : list AttributeDefinition :=
  let referenced := map ks_attribute_name table_key_schema in
  let referenced := fold_left (fun referenced ks => referenced ++ map ks_attribute_name ks)
    surviving_index_key_schemas referenced in
  List.filter (fun def => existsb (String.eqb (ad_attribute_name def)) referenced)
    (merge_attribute_definitions stored requested).

(** The loop of [recover_sort_key_definitions], from position [position] on. *)
Fixpoint recover_loop (attr_defs : list AttributeDefinition) (primary_key_columns : list string)
    (position : nat) (range_elements : list KeySchemaElement) (recovered : list AttributeDefinition)
    : list AttributeDefinition :=
  match range_elements with
  | [] => recovered
  | element :: rest =>
      if is_defined (ks_attribute_name element) attr_defs then
        recover_loop attr_defs primary_key_columns (S position) rest recovered
      else
        let attr_type := List.find (fun candidate =>
          existsb (fun c => String.eqb c (sk_column_n position candidate)) primary_key_columns)
          [Scalar_S; Scalar_N; Scalar_B] in
        let recovered :=
          match attr_type with
          | Some attr_type =>
              recovered ++ [{| ad_attribute_name := ks_attribute_name element;
                               ad_attribute_type := attr_type |}]
          | None => recovered
          end in
        recover_loop attr_defs primary_key_columns (S position) rest recovered
  end.

Definition recover_sort_key_definitions (base_key_schema : list KeySchemaElement)
    (attr_defs : list AttributeDefinition) (primary_key_columns : list string)
    : list AttributeDefinition :=
  recover_loop attr_defs primary_key_columns 0 (range_key_elements base_key_schema) [].

Definition attr_of (names : gmap string string) (path : list PathElement) : option string :=
  match path with
  | PAttr name :: _ =>
      match strip_prefix_char "#" name with
      | Some r => names !! r
      | None => Some name
      end
  | _ => None
  end.

(** [Iterator::min] of pairs of a position and a name. *)
Definition pair_min (a b : nat * string) : nat * string :=
  match Nat.compare b.1 a.1, cmp b.2 a.2 with
  | Lt, _ | Eq, Lt => b
  | _, _ => a
  end.

Definition iter_min (l : list (nat * string)) : option (nat * string) :=
  match l with
  | [] => None
  | x :: l' => Some (fold_left pair_min l' x)
  end.

(** The attributes with a condition, in whichever slot it is. *)
Definition conditioned (key_condition : KeyCondition) (names : gmap string string) : list string :=
  omap (fun pv => attr_of names pv.1) (extra_sk_conditions key_condition) ++
  match sk_condition key_condition with
  | Some sk =>
      match attr_of names (sk_path sk) with
      | Some attr => [attr]
      | None => []
      end
  | None => []
  end.

Definition refuse_conditions_beyond_first_range (key_condition : KeyCondition)
    (key_schema : list KeySchemaElement) (names : gmap string string) (backend : string)
    : result StorageError unit :=
  let range_attrs := map ks_attribute_name (range_key_elements key_schema) in
  let beyond := iter_min (omap (fun attr =>
    match position attr range_attrs with
    | Some pos => if 0 <? pos then Some (pos, attr) else None
    | None => None
    end) (conditioned key_condition names)) in
  match beyond with
  | Some (_, attr) =>
      Err (SE_Validation ("Key condition on " +:+ attr +:+ ": the " +:+ backend +:+
        " backend applies a key condition to the first RANGE attribute of a multi-attribute index only"))
  | None => Ok tt
  end.

(** ** Base64 by RFC 4648 *)

Definition b64_char (n : N) : ascii :=
  if (n <? 26)%N then ascii_of_N (65 + n)
  else if (n <? 52)%N then ascii_of_N (97 + (n - 26))
  else if (n <? 62)%N then ascii_of_N (48 + (n - 52))
  else if (n =? 62)%N then "+"%char else "/"%char.

Fixpoint rfc4648 (b : list ascii) : list ascii :=
  match b with
  | x :: y :: z :: rest =>
      b64_char (byte x / 4) :: b64_char (byte x mod 4 * 16 + byte y / 16) ::
      b64_char (byte y mod 16 * 4 + byte z / 64) :: b64_char (byte z mod 64) :: rfc4648 rest
  | [x; y] =>
      [b64_char (byte x / 4); b64_char (byte x mod 4 * 16 + byte y / 16);
       b64_char (byte y mod 16 * 4); "="%char]
  | [x] => [b64_char (byte x / 4); b64_char (byte x mod 4 * 16); "="%char; "="%char]
  | [] => []
  end.

Definition rfc4648_base64 : Base64 := fun b => of_bytes (rfc4648 b).

Definition all_lt (n : nat) (p : N -> bool) : bool := forallb p (map N.of_nat (seq 0 n)).

Lemma all_lt_spec n p m : all_lt n p = true -> (m < N.of_nat n)%N -> p m = true.
Proof.
  unfold all_lt. rewrite forallb_forall. intros H Hm. apply H, in_map_iff.
  exists (N.to_nat m). split; [lia|]. apply in_seq. lia.
Qed.

(** The position of a character in the alphabet. *)
Definition b64_index (c : ascii) : option N :=
  List.find (fun n => Ascii.eqb (b64_char n) c) (map N.of_nat (seq 0 64)).

Lemma b64_index_char n : (n < 64)%N -> b64_index (b64_char n) = Some n.
Proof.
  assert (all_lt 64 (fun n => bool_decide (b64_index (b64_char n) = Some n)) = true) as H
    by (vm_compute; reflexivity).
  intros Hn. apply (all_lt_spec _ _ n H), bool_decide_eq_true in Hn. done.
Qed.

Lemma b64_char_pad n : (n < 64)%N -> b64_char n <> "="%char.
Proof. intros Hn E. apply b64_index_char in Hn. rewrite E in Hn. vm_compute in Hn. done. Qed.

Lemma unsplit k a b : (b < k)%N -> ((a * k + b) / k = a)%N /\ ((a * k + b) mod k = b)%N.
Proof.
  intros Hb. rewrite (N.mul_comm a k). split; symmetry.
  - by apply (N.div_unique _ _ _ b).
  - by apply (N.mod_unique _ _ a).
Qed.

(** The sextets of two bytes, as the encoder cuts them. *)
Lemma byte_cut x k m : (m <> 0)%N -> (256 <= k * m)%N -> (byte x / m < k)%N.
Proof. intros Hm Hk. pose proof (byte_bound x). apply N.Div0.div_lt_upper_bound. lia. Qed.

Lemma sextet_bounds x y :
  (byte x / 4 < 64)%N /\ (byte x mod 4 * 16 < 64)%N /\
  (byte x mod 4 * 16 + byte y / 16 < 64)%N /\ (byte x mod 16 * 4 < 64)%N /\
  (byte x mod 16 * 4 + byte y / 64 < 64)%N /\ (byte x mod 64 < 64)%N.
Proof.
  pose proof (byte_cut x 64 4 ltac:(done) ltac:(done)).
  pose proof (byte_cut y 16 16 ltac:(done) ltac:(done)).
  pose proof (byte_cut y 4 64 ltac:(done) ltac:(done)).
  pose proof (N.mod_lt (byte x) 4 ltac:(done)). pose proof (N.mod_lt (byte x) 16 ltac:(done)).
  pose proof (N.mod_lt (byte x) 64 ltac:(done)). lia.
Qed.

(** The decoder: the last group may end in one or two pad characters. *)
Fixpoint rfc4648_groups (s : list ascii) : option (list ascii) :=
  match s with
  | [] => Some []
  | a :: b :: c :: d :: rest =>
      a ← b64_index a; b ← b64_index b;
      let x := ascii_of_N (a * 4 + b / 16) in
      if Ascii.eqb c "=" then if bool_decide (d = "="%char /\ rest = []) then Some [x] else None
      else
        c ← b64_index c;
        let y := ascii_of_N (b mod 16 * 16 + c / 4) in
        if Ascii.eqb d "=" then if bool_decide (rest = []) then Some [x; y] else None
        else
          d ← b64_index d;
          l ← rfc4648_groups rest;
          Some (x :: y :: ascii_of_N (c mod 4 * 64 + d) :: l)
  | _ => None
  end%N.

Definition rfc4648_decode : Base64Decode :=
  fun s => ok_or_else (rfc4648_groups (as_bytes s)) "Invalid padding".

Lemma b64_char_eqb_pad n : (n < 64)%N -> Ascii.eqb (b64_char n) "=" = false.
Proof. intros Hn. apply Ascii.eqb_neq. by apply b64_char_pad. Qed.

Lemma rejoin x k : ascii_of_N (byte x / k * k + byte x mod k)%N = x.
Proof.
  rewrite N.mul_comm, <- N.Div0.div_mod. apply ascii_N_embedding.
Qed.

Lemma rfc4648_groups_encode b : rfc4648_groups (rfc4648 b) = Some b.
Proof.
  assert (forall n b, length b <= n -> rfc4648_groups (rfc4648 b) = Some b) as Hn;
    [|by apply (Hn (length b))].
  clear b. induction n as [n IH] using lt_wf_ind.
  intros [|x [|y [|z l]]] Hl; simpl in Hl; cbn [rfc4648 rfc4648_groups]; [done|..].
  all: rewrite ?b64_index_char by (apply sextet_bounds; exact x); simpl.
  all: rewrite ?b64_char_eqb_pad by (apply sextet_bounds; exact x); simpl.
  all: rewrite ?b64_index_char by (apply sextet_bounds; exact x); simpl.
  - by rewrite N.div_mul, rejoin.
  - destruct (unsplit 16 (byte x mod 4) (byte y / 16)) as [-> ->]; [by apply byte_cut|].
    by rewrite N.div_mul, !rejoin.
  - destruct (unsplit 16 (byte x mod 4) (byte y / 16)) as [-> ->]; [by apply byte_cut|].
    destruct (unsplit 4 (byte y mod 16) (byte z / 64)) as [-> ->]; [by apply byte_cut|].
    rewrite (IH (length l)) by lia. simpl. by rewrite !rejoin.
Qed.

Lemma rfc4648_inj : Inj (=) (=) rfc4648.
Proof.
  intros a b E. apply (f_equal rfc4648_groups) in E. rewrite !rfc4648_groups_encode in E. congruence.
Qed.

#[export] Instance rfc4648_laws : @Base64Laws rfc4648_base64.
Proof. intros a b E. by apply of_bytes_inj, rfc4648_inj in E. Qed.

#[export] Instance rfc4648_round_trip : @Base64RoundTrip rfc4648_base64 rfc4648_decode.
Proof.
  intros b. unfold b64_decode, b64_encode, rfc4648_decode, rfc4648_base64.
  by rewrite as_bytes_of_bytes, rfc4648_groups_encode.
Qed.

(** ** Partition keys *)

Lemma N_to_bytes_inj m n : N_to_bytes m = N_to_bytes n -> m = n.
Proof.
  intros E. destruct (N_to_bytes_spec m) as (_ & Hm & _), (N_to_bytes_spec n) as (_ & Hn & _).
  congruence.
Qed.

Definition netstring (p : string) : list ascii :=
  N_to_bytes (N.of_nat (String.length p)) ++ ":"%char :: as_bytes p ++ [","%char].

Lemma as_bytes_netstrings parts :
  as_bytes (encode_netstring_composite parts) = concat (map netstring parts).
Proof.
  unfold encode_netstring_composite.
  assert (forall out, as_bytes (fold_left push_netstring parts out) =
    as_bytes out ++ concat (map netstring parts)) as H; [|by rewrite H].
  induction parts as [|p parts IH]; intros out; simpl; [by rewrite app_nil_r|].
  rewrite IH. unfold push_netstring, netstring, nat_to_string, N_to_string.
  rewrite !as_bytes_app, as_bytes_of_bytes. simpl. by rewrite <- !app_assoc; simpl; rewrite <- app_assoc.
Qed.

(** The length and the colon delimit the first part, whatever follows. *)
Lemma netstring_inj p q r r' : netstring p ++ r = netstring q ++ r' -> p = q /\ r = r'.
Proof.
  unfold netstring. rewrite <- !app_assoc. simpl. rewrite <- !app_assoc. simpl. intros E.
  assert (forall n l, split_once (fun c => Ascii.eqb c ":") (N_to_bytes n ++ ":"%char :: l) =
    Some (N_to_bytes n, l)) as Hs.
  { intros n l. apply split_once_Some. exists ":"%char. split; [done|]. split; [done|].
    destruct (N_to_bytes_spec n) as (Hd & _). eapply forallb_impl, Hd. intros c Hc.
    apply negb_true_iff, Ascii.eqb_neq. intros ->. done. }
  pose proof (f_equal (split_once (fun c => Ascii.eqb c ":")) E) as E'. rewrite !Hs in E'.
  injection E' as Hn Hl. apply N_to_bytes_inj in Hn.
  apply app_inj_1 in Hl as [Hp Hr].
  - injection Hr as ->. split; [|done]. by apply as_bytes_inj.
  - rewrite !length_as_bytes. lia.
Qed.

Lemma netstrings_inj ps qs :
  encode_netstring_composite ps = encode_netstring_composite qs -> ps = qs.
Proof.
  intros E%(f_equal as_bytes). rewrite !as_bytes_netstrings in E. revert qs E.
  assert (forall p r, netstring p ++ r <> []) as Hne.
  { intros p r. unfold netstring. destruct (N_to_bytes _); done. }
  induction ps as [|p ps IH]; intros [|q qs] E; simpl in E; [done| | |].
  - symmetry in E. by apply Hne in E.
  - by apply Hne in E.
  - apply netstring_inj in E as [-> E]. f_equal. by apply IH.
Qed.

Definition scalar_type (value : AttributeValue) : option ScalarAttributeType :=
  match value with
  | AV_S _ => Some Scalar_S
  | AV_N _ => Some Scalar_N
  | AV_B _ => Some Scalar_B
  | _ => None
  end.

(** At each HASH attribute the values of the two items have the same type. *)
Definition same_hash_types (key_schema : list KeySchemaElement) (i j : Item) : Prop :=
  forall ks v w, In ks (hash_key_elements key_schema) ->
    bt_get (ks_attribute_name ks) i = Some v -> bt_get (ks_attribute_name ks) j = Some w ->
    scalar_type v = scalar_type w.

Section PartitionKeys.
Context `{HB : Base64} `{HBL : !Base64Laws}.

Lemma pk_to_text_inj v w t :
  scalar_type v = scalar_type w -> pk_to_text v = Ok t -> pk_to_text w = Ok t -> v = w.
Proof.
  unfold pk_to_text. destruct v, w; simpl; intros Ht Hv Hw; try discriminate;
    inv_ok; try congruence. f_equal. by apply b64_encode_inj.
Qed.

Lemma pk_part_inj i j name e e' t :
  (forall v w, bt_get name i = Some v -> bt_get name j = Some w -> scalar_type v = scalar_type w) ->
  (let? val := ok_or_else (bt_get name i) e in pk_to_text val) = Ok t ->
  (let? val := ok_or_else (bt_get name j) e' in pk_to_text val) = Ok t ->
  bt_get name i = bt_get name j.
Proof.
  intros Ht. destruct (bt_get name i) as [v|], (bt_get name j) as [w|]; simpl; try done.
  intros Hv Hw. f_equal. by eapply pk_to_text_inj; eauto.
Qed.

Lemma hash_parts_inj elements i j ps :
  (forall ks v w, In ks elements -> bt_get (ks_attribute_name ks) i = Some v ->
     bt_get (ks_attribute_name ks) j = Some w -> scalar_type v = scalar_type w) ->
  collect_results (hash_part i) elements = Ok ps -> collect_results (hash_part j) elements = Ok ps ->
  forall ks, In ks elements -> bt_get (ks_attribute_name ks) i = bt_get (ks_attribute_name ks) j.
Proof.
  revert ps. induction elements as [|e elements IH]; intros ps Ht Hi Hj ks Hin; [done|].
  simpl in Hi, Hj. destruct (hash_part i e) as [p|] eqn:Ei; [|done].
  destruct (hash_part j e) as [q|] eqn:Ej; [|done].
  destruct (collect_results (hash_part i) elements) as [ps'|] eqn:Ci; [|done].
  destruct (collect_results (hash_part j) elements) as [qs|] eqn:Cj; [|done].
  rewrite <- Hj in Hi. injection Hi as -> ->. destruct Hin as [<-|Hin].
  - eapply pk_part_inj; [|exact Ei|exact Ej]. intros v w. apply Ht. by left.
  - eapply IH; eauto. intros ks' v w Hks. apply Ht. by right.
Qed.

Lemma composite_pk_agree key_schema i j :
  (forall ks, In ks (hash_key_elements key_schema) ->
     bt_get (ks_attribute_name ks) i = bt_get (ks_attribute_name ks) j) ->
  composite_pk_to_text i key_schema = composite_pk_to_text j key_schema.
Proof.
  intros Hag. unfold composite_pk_to_text.
  assert (collect_results (hash_part i) (hash_key_elements key_schema) =
          collect_results (hash_part j) (hash_key_elements key_schema)) as Hc.
  { revert Hag. generalize (hash_key_elements key_schema). intros l Hag.
    induction l as [|ks l IH]; [done|]. simpl. rewrite IH by (intros; apply Hag; by right).
    unfold hash_part. by rewrite (Hag ks (or_introl eq_refl)). }
  destruct (hash_key_elements key_schema) as [|ks [|]]; [done| |by rewrite Hc].
  by rewrite (Hag ks (or_introl eq_refl)).
Qed.

(** C35. The partition key text of an item identifies the values of its HASH
    attributes: with values of the declared types, two items have the same text
    exactly when they agree on every HASH attribute, also when several values are
    joined into one text. *)
Theorem composite_pk_injective key_schema i j t u :
  same_hash_types key_schema i j ->
  composite_pk_to_text i key_schema = Ok t -> composite_pk_to_text j key_schema = Ok u ->
  t = u <->
  (forall ks, In ks (hash_key_elements key_schema) ->
     bt_get (ks_attribute_name ks) i = bt_get (ks_attribute_name ks) j).
Proof.
  intros Ht Hi Hj. split; [|intros Hag; rewrite (composite_pk_agree _ _ _ Hag) in Hi; congruence].
  intros <-. unfold composite_pk_to_text in Hi, Hj. unfold same_hash_types in Ht.
  destruct (hash_key_elements key_schema) as [|ks [|ks' l]] eqn:E; [done| |].
  - intros k [<-|[]]. eapply pk_part_inj; [|exact Hi|exact Hj]. intros v w. apply Ht. by left.
  - destruct (collect_results (hash_part i) _) as [ps|] eqn:Ci; [|done].
    destruct (collect_results (hash_part j) _) as [qs|] eqn:Cj; [|done].
    injection Hi as <-. injection Hj as Hj. apply netstrings_inj in Hj as ->.
    by eapply hash_parts_inj.
Qed.
End PartitionKeys.

Definition pair_schema : list KeySchemaElement :=
  [{| ks_attribute_name := "a"; ks_key_type := Hash |};
   {| ks_attribute_name := "b"; ks_key_type := Hash |}].

Lemma composite_pk_injective_witness :
  "4:1:x,,1:y," = "1:1,4:x,1:," <->
   (forall ks, In ks (hash_key_elements pair_schema) ->
      bt_get (ks_attribute_name ks) [("a", AV_S "1:x,"); ("b", AV_S "y")] =
      bt_get (ks_attribute_name ks) [("a", AV_S "1"); ("b", AV_S "x,1:")]).
Proof.
  apply (composite_pk_injective (HB := rfc4648_base64) (HBL := rfc4648_laws)).
  - intros ks v w Hin. simpl in Hin. destruct Hin as [<-|[<-|[]]]; vm_compute; by intros [= <-] [= <-].
  - vm_compute. reflexivity.
  - vm_compute. reflexivity.
Defined.

(** ** Attribute definitions *)

Lemma find_def_app name a b :
  find_def name (a ++ b) = match find_def name a with Some d => Some d | None => find_def name b end.
Proof.
  unfold find_def. induction a as [|d a IH]; simpl; [done|]. by destruct (String.eqb _ name).
Qed.

Lemma is_defined_find name defs :
  is_defined name defs = match find_def name defs with Some _ => true | None => false end.
Proof.
  unfold is_defined, find_def. induction defs as [|d defs IH]; simpl; [done|].
  by destruct (String.eqb _ name).
Qed.

Lemma find_def_name name defs d : find_def name defs = Some d -> ad_attribute_name d = name.
Proof. unfold find_def. intros [_ H]%find_some. by apply String.eqb_eq. Qed.

(** The stored definition of a name wins over a requested one. *)
Lemma find_def_merge name existing incoming :
  find_def name (merge_attribute_definitions existing incoming) =
    match find_def name existing with Some d => Some d | None => find_def name incoming end.
Proof.
  unfold merge_attribute_definitions. revert existing.
  induction incoming as [|d incoming IH]; intros existing; simpl; [by destruct (find_def name existing)|].
  rewrite IH, is_defined_find.
  destruct (find_def (ad_attribute_name d) existing) as [d'|] eqn:E.
  - destruct (find_def name existing) eqn:En; [done|].
    change (find_def name (d :: incoming)) with
      (if String.eqb (ad_attribute_name d) name then Some d else find_def name incoming).
    destruct (String.eqb_spec (ad_attribute_name d) name); [congruence|done].
  - rewrite find_def_app. destruct (find_def name existing); [done|].
    unfold find_def. simpl. by destruct (String.eqb _ name).
Qed.

Lemma find_def_filter name (p : string -> bool) defs :
  find_def name (List.filter (fun d => p (ad_attribute_name d)) defs) =
    if p name then find_def name defs else None.
Proof.
  unfold find_def. induction defs as [|d defs IH]; simpl; [by destruct (p name)|].
  destruct (String.eqb_spec (ad_attribute_name d) name) as [E|Hne].
  - rewrite E. destruct (p name) eqn:Ep; simpl; [by rewrite E, String.eqb_refl|done].
  - destruct (p (ad_attribute_name d)); simpl; [|done].
    by apply String.eqb_neq in Hne as ->.
Qed.

(** The names a table's key schema or a surviving index refers to. *)
Definition referenced_by (table_key_schema : list KeySchemaElement)
    (indexes : list (list KeySchemaElement)) (name : string) : bool :=
  existsb (existsb (fun ks => String.eqb name (ks_attribute_name ks))) (table_key_schema :: indexes).

Lemma existsb_map {A B : Type} (p : B -> bool) (f : A -> B) l :
  existsb p (map f l) = existsb (fun x => p (f x)) l.
Proof. induction l as [|x l IH]; simpl; [done|]. by rewrite IH. Qed.

Lemma referenced_fold name indexes names :
  existsb (String.eqb name)
    (fold_left (fun referenced ks => referenced ++ map ks_attribute_name ks) indexes names) =
  existsb (String.eqb name) names ||
  existsb (existsb (fun ks => String.eqb name (ks_attribute_name ks))) indexes.
Proof.
  revert names. induction indexes as [|ks indexes IH]; intros names; simpl.
  - by rewrite orb_false_r.
  - by rewrite IH, existsb_app, existsb_map, orb_assoc.
Qed.

Lemma find_def_effective stored requested schema indexes name :
  find_def name (effective_attribute_definitions stored requested schema indexes) =
    if referenced_by schema indexes name then
      match find_def name stored with
      | Some d => Some d
      | None => find_def name requested
      end
    else None.
Proof.
  unfold effective_attribute_definitions.
  rewrite (find_def_filter name (fun n => existsb (String.eqb n) _)), find_def_merge.
  rewrite referenced_fold. unfold referenced_by. simpl.
  by rewrite existsb_map.
Qed.

(** After an UpdateTable, an attribute has a definition exactly when it is
    referenced by the table's key or a surviving index and was defined before or
    by the request; a stored definition is kept as it is, so a request can not
    change or lose the type of a key attribute. *)
Theorem effective_definitions_spec stored requested schema indexes name :
  find_def name (effective_attribute_definitions stored requested schema indexes) =
    if referenced_by schema indexes name then
      match find_def name stored with
      | Some d => Some d
      | None => find_def name requested
      end
    else None.
Proof. apply find_def_effective. Qed.

(** The sort key a table reads by survives every UpdateTable. *)
Lemma sk_info_preserved stored requested schema indexes info :
  sk_info schema stored = Some info ->
  sk_info schema (effective_attribute_definitions stored requested schema indexes) = Some info.
Proof.
  unfold sk_info. destruct (List.find _ schema) as [e|] eqn:Ee; [|done].
  apply find_some in Ee as [Hin _].
  rewrite find_def_effective.
  assert (referenced_by schema indexes (ks_attribute_name e) = true) as ->;
    [|by destruct (find_def _ stored)].
  apply orb_true_iff. left. apply existsb_exists. exists e. by rewrite String.eqb_refl.
Qed.

(** ** Recovery of sort key definitions *)

(** [all_sort_key_info] of [crates/storage-sqlite/src/data/mod.rs]. *)
Definition all_sort_key_info (key_schema : list KeySchemaElement)
    (attr_defs : list AttributeDefinition) : list (string * ScalarAttributeType) :=
  omap (fun ks =>
    match find_def (ks_attribute_name ks) attr_defs with
    | Some ad => Some (ks_attribute_name ks, ad_attribute_type ad)
    | None => None
    end) (range_key_elements key_schema).

(** The primary key columns [create_data_table] gives a table. *)
Definition create_pk_cols (key_schema : list KeySchemaElement)
    (attr_defs : list AttributeDefinition) : list string :=
  "pk" :: imap (fun i info => sk_column_n i info.2) (all_sort_key_info key_schema attr_defs).

(** The part of a column name between [sk] and the underscore. *)
Definition column_index (i : nat) : list ascii :=
  if i =? 0 then [] else N_to_bytes (N.of_nat (i + 1)).

Lemma sk_column_n_bytes i t :
  as_bytes (sk_column_n i t) =
    "s"%char :: "k"%char :: column_index i ++ "_"%char :: as_bytes (type_suffix t).
Proof.
  unfold sk_column_n, column_index. destruct (i =? 0); [done|].
  rewrite !as_bytes_app. unfold nat_to_string, N_to_string. by rewrite as_bytes_of_bytes.
Qed.

Lemma sk_column_n_inj i t j u : sk_column_n i t = sk_column_n j u -> i = j /\ t = u.
Proof.
  intros E%(f_equal as_bytes). rewrite !sk_column_n_bytes in E. injection E as E.
  assert (forall k l, split_once (fun c => Ascii.eqb c "_") (column_index k ++ "_"%char :: l) =
    Some (column_index k, l)) as Hs.
  { intros k l. apply split_once_Some. exists "_"%char. split; [done|]. split; [done|].
    unfold column_index. destruct (k =? 0); [done|].
    destruct (N_to_bytes_spec (N.of_nat (k + 1))) as (Hd & _). eapply forallb_impl, Hd.
    intros c Hc. apply negb_true_iff, Ascii.eqb_neq. intros ->. done. }
  pose proof (f_equal (split_once (fun c => Ascii.eqb c "_")) E) as E'. rewrite !Hs in E'.
  injection E' as Hi Ht%as_bytes_inj. split.
  - unfold column_index in Hi. destruct (N_to_bytes_spec (N.of_nat (i + 1))) as (_ & _ & Hni).
    destruct (N_to_bytes_spec (N.of_nat (j + 1))) as (_ & _ & Hnj).
    destruct (Nat.eqb_spec i 0), (Nat.eqb_spec j 0); try congruence.
    apply N_to_bytes_inj in Hi. lia.
  - by destruct t, u.
Qed.

Lemma sk_column_n_pk i t : sk_column_n i t <> "pk".
Proof. intros E%(f_equal as_bytes). by rewrite sk_column_n_bytes in E. Qed.

Lemma sort_key_info_lookup schema defs k e d :
  (forall ks, In ks (range_key_elements schema) -> is_defined (ks_attribute_name ks) defs = true) ->
  range_key_elements schema !! k = Some e -> find_def (ks_attribute_name e) defs = Some d ->
  all_sort_key_info schema defs !! k = Some (ks_attribute_name e, ad_attribute_type d).
Proof.
  unfold all_sort_key_info. generalize (range_key_elements schema). intros l.
  revert k. induction l as [|x l IH]; intros k Hall Hk Hd; [done|]. simpl.
  pose proof (Hall x (or_introl eq_refl)) as Hx. rewrite is_defined_find in Hx.
  destruct (find_def (ks_attribute_name x) defs) as [dx|] eqn:Ex; [|done].
  destruct k as [|k]; simpl in *.
  - injection Hk as ->. congruence.
  - apply IH; [|done..]. intros ks Hks. apply Hall. by right.
Qed.

(** A typed column is in the primary key exactly when its position has that type. *)
Lemma create_pk_cols_spec schema defs k e d t :
  (forall ks, In ks (range_key_elements schema) -> is_defined (ks_attribute_name ks) defs = true) ->
  range_key_elements schema !! k = Some e -> find_def (ks_attribute_name e) defs = Some d ->
  existsb (fun c => String.eqb c (sk_column_n k t)) (create_pk_cols schema defs) =
    bool_decide (t = ad_attribute_type d).
Proof.
  intros Hall Hk Hd. pose proof (sort_key_info_lookup _ _ _ _ _ Hall Hk Hd) as Hi.
  apply eq_true_iff_eq. rewrite bool_decide_eq_true, existsb_exists. split.
  - intros (c & [<-|Hin] & Hc%String.eqb_eq); [by apply eq_sym, sk_column_n_pk in Hc|].
    apply list_elem_of_In, list_elem_of_lookup in Hin as [j Hj].
    rewrite list_lookup_imap, fmap_Some in Hj. destruct Hj as ([n u] & Hj & ->).
    apply sk_column_n_inj in Hc as [-> <-]. simpl. congruence.
  - intros ->. exists (sk_column_n k (ad_attribute_type d)). split; [|apply String.eqb_refl].
    right. apply list_elem_of_In, list_elem_of_lookup. exists k.
    by rewrite list_lookup_imap, Hi.
Qed.

Lemma recover_loop_find name defs damaged cols elements pos acc :
  (forall k e, elements !! k = Some e -> exists d, find_def (ks_attribute_name e) defs = Some d /\
     forall t, existsb (fun c => String.eqb c (sk_column_n (pos + k) t)) cols =
       bool_decide (t = ad_attribute_type d)) ->
  is_defined name damaged = false ->
  find_def name (recover_loop damaged cols pos elements acc) =
    match find_def name acc with
    | Some d => Some d
    | None => if existsb (fun e => String.eqb (ks_attribute_name e) name) elements
              then find_def name defs else None
    end.
Proof.
  intros Hcols Hname. revert pos acc Hcols. induction elements as [|e elements IH]; intros pos acc Hcols.
  { simpl. by destruct (find_def name acc). }
  assert (forall k e', elements !! k = Some e' -> exists d, find_def (ks_attribute_name e') defs = Some d /\
     forall t, existsb (fun c => String.eqb c (sk_column_n (S pos + k) t)) cols =
       bool_decide (t = ad_attribute_type d)) as Hrest.
  { intros k e' Hk. replace (S pos + k) with (pos + S k) by lia. by apply Hcols. }
  destruct (Hcols 0 e eq_refl) as (d & Hd & Ht). rewrite Nat.add_0_r in Ht.
  cbn [recover_loop existsb]. destruct (is_defined (ks_attribute_name e) damaged) eqn:Ee.
  - rewrite IH by done. destruct (String.eqb_spec (ks_attribute_name e) name); [congruence|done].
  - cbn [List.find]. rewrite !Ht.
    assert (d = {| ad_attribute_name := ks_attribute_name e;
                   ad_attribute_type := ad_attribute_type d |}) as Ed.
    { rewrite <- (find_def_name _ _ _ Hd). by destruct d. }
    destruct (ad_attribute_type d); repeat (case_bool_decide; [|try done]); try done.
    all: rewrite IH, find_def_app by done; destruct (find_def name acc); [done|];
      unfold find_def at 1; simpl; destruct (String.eqb_spec (ks_attribute_name e) name) as [En|En];
      [|done]; simpl; rewrite <- En, Hd; by rewrite <- Ed.
Qed.

(** Definitions lost from a table's metadata are recovered from its primary
    key columns: for a table whose columns were created from complete definitions,
    the definitions that are left together with the recovered ones give every
    RANGE attribute the definition it was created with. *)
Theorem recover_roundtrip schema defs damaged ks :
  (forall ks, In ks (range_key_elements schema) -> is_defined (ks_attribute_name ks) defs = true) ->
  (forall name d, find_def name damaged = Some d -> find_def name defs = Some d) ->
  In ks (range_key_elements schema) ->
  find_def (ks_attribute_name ks)
    (damaged ++ recover_sort_key_definitions schema damaged (create_pk_cols schema defs)) =
  find_def (ks_attribute_name ks) defs.
Proof.
  intros Hall Hsub Hin. rewrite find_def_app.
  destruct (find_def (ks_attribute_name ks) damaged) as [d|] eqn:Ed; [by rewrite (Hsub _ _ Ed)|].
  unfold recover_sort_key_definitions. rewrite (recover_loop_find _ defs).
  - simpl. rewrite (proj2 (existsb_exists _ _)); [done|]. exists ks. by rewrite String.eqb_refl.
  - intros k e Hk.
    pose proof (Hall e (proj1 (list_elem_of_In _ _) (list_elem_of_lookup_2 _ _ _ Hk))) as He.
    rewrite is_defined_find in He. destruct (find_def (ks_attribute_name e) defs) as [d|] eqn:Ee; [|done].
    exists d. split; [done|]. intros t. by eapply create_pk_cols_spec.
  - by rewrite is_defined_find, Ed.
Qed.

Definition sorted_schema : list KeySchemaElement :=
  [{| ks_attribute_name := "p"; ks_key_type := Hash |};
   {| ks_attribute_name := "q"; ks_key_type := Range |};
   {| ks_attribute_name := "r"; ks_key_type := Range |}].

Definition sorted_defs : list AttributeDefinition :=
  [{| ad_attribute_name := "p"; ad_attribute_type := Scalar_S |};
   {| ad_attribute_name := "q"; ad_attribute_type := Scalar_S |};
   {| ad_attribute_name := "r"; ad_attribute_type := Scalar_N |}].

Lemma recover_roundtrip_witness :
  find_def "r" (take 2 sorted_defs ++
    recover_sort_key_definitions sorted_schema (take 2 sorted_defs)
      (create_pk_cols sorted_schema sorted_defs)) = find_def "r" sorted_defs.
Proof.
  apply (recover_roundtrip sorted_schema sorted_defs (take 2 sorted_defs)
    {| ks_attribute_name := "r"; ks_key_type := Range |}).
  - intros ks Hin. vm_compute in Hin. by destruct Hin as [<-|[<-|[]]].
  - intros name d H. rewrite <- (take_drop 2 sorted_defs), find_def_app. by rewrite H.
  - vm_compute. auto.
Defined.

(** ** Conditions a backend can not apply *)

Lemma pair_min_spec a b : (pair_min a b = a \/ pair_min a b = b) /\ (pair_min a b).1 <= a.1 /\
  (pair_min a b).1 <= b.1.
Proof.
  unfold pair_min. destruct (Nat.compare_spec b.1 a.1); [destruct (cmp b.2 a.2)|..]; auto with lia.
Qed.

Lemma iter_min_spec l x :
  iter_min l = Some x -> In x l /\ forall y, In y l -> x.1 <= y.1.
Proof.
  destruct l as [|a l]; [done|]. simpl. intros [= <-]. revert a.
  induction l as [|b l IH]; intros a; simpl.
  - split; [by left|]. intros y [->|[]]. done.
  - destruct (IH (pair_min a b)) as [Hin Hle], (pair_min_spec a b) as (Hm & Ha & Hb). split.
    + destruct Hin as [Hin|Hin]; [|by auto]. rewrite <- Hin. destruct Hm as [-> | ->]; auto.
    + pose proof (Hle _ (or_introl eq_refl)). intros y [<-|[<-|Hy]]; [lia|lia|auto].
Qed.

(** A key condition passes exactly when no RANGE attribute after the first has a
    condition; otherwise the refusal names the one that comes first in the schema. *)
Theorem refuse_conditions_spec kc schema names backend :
  let later attr pos := In attr (conditioned kc names) /\ 0 < pos /\
    position attr (map ks_attribute_name (range_key_elements schema)) = Some pos in
  match refuse_conditions_beyond_first_range kc schema names backend with
  | Ok _ => forall attr pos, ~ later attr pos
  | Err e => exists attr pos, later attr pos /\ (forall attr' pos', later attr' pos' -> pos <= pos') /\
      e = SE_Validation ("Key condition on " +:+ attr +:+ ": the " +:+ backend +:+
        " backend applies a key condition to the first RANGE attribute of a multi-attribute index only")
  end.
Proof.
  intros later. unfold refuse_conditions_beyond_first_range.
  set (f := fun attr => _). set (l := omap f (conditioned kc names)).
  assert (forall attr pos, later attr pos <-> In (pos, attr) l) as Hl.
  { intros attr pos. rewrite <- list_elem_of_In. unfold l. rewrite list_elem_of_omap.
    setoid_rewrite list_elem_of_In. unfold later, f. split.
    - intros (Hin & Hp & Hpos). exists attr. rewrite Hpos. destruct (Nat.ltb_spec 0 pos); [done|lia].
    - intros (a & Hin & Ha). destruct (position a _) as [p|] eqn:Ep; [|done].
      destruct (Nat.ltb_spec 0 p); [|done]. injection Ha as -> ->. auto. }
  destruct (iter_min l) as [[pos attr]|] eqn:E.
  - apply iter_min_spec in E as [Hin Hle]. exists attr, pos. split; [by apply Hl|]. split; [|done].
    intros attr' pos' H'%Hl. by apply Hle in H'.
  - intros attr pos H%Hl. by destruct l.
Qed.
