(* ===== verification/IndexKeys.v ===== *)
(** * Secondary index keys

    [crates/core/src/validation/mod.rs]: the checks of the attributes that key a
    table's secondary indexes, on a written item, on the item an update made, and on
    the literal operands of an update before it is applied. *)

From S2P Require Import Prelude BTree Types Error Decimal Number Ast Tokenizer Resolver Evaluator.
From S2P Require Import UpdateEvaluator StorageKey.

Record IndexKeyRef : Type := {
  ikr_index_name : string;
  ikr_key_schema : list KeySchemaElement
}.

Definition attribute_value_type_tag (v : AttributeValue) : string :=
  match v with
  | AV_S _ => "S"
  | AV_N _ => "N"
  | AV_B _ => "B"
  | AV_SS _ => "SS"
  | AV_NS _ => "NS"
  | AV_BS _ => "BS"
  | AV_Bool _ => "BOOL"
  | AV_Null => "NULL"
  | AV_L _ => "L"
  | AV_M _ => "M"
  end.

Definition scalar_type_tag (t : ScalarAttributeType) : string :=
  match t with
  | Scalar_S => "S"
  | Scalar_N => "N"
  | Scalar_B => "B"
  end.

Inductive SecondaryIndexEmptyContext : Type := EmptyItem | EmptyUpdateExpression.

(** [sort_by] on the names, which keeps the order of equal names. *)
Fixpoint insert_by_name (x : IndexKeyRef) (l : list IndexKeyRef) : list IndexKeyRef :=
  match l with
  | [] => [x]
  | y :: l' =>
      match cmp (ikr_index_name x) (ikr_index_name y) with
      | Gt => y :: insert_by_name x l'
      | _ => x :: l
      end
  end.

Definition ordered_indexes (indexes : list IndexKeyRef) : list IndexKeyRef :=
  foldr insert_by_name [] indexes.

(** [matches!((expected, value), ..)]. *)
Definition scalar_matches (expected : ScalarAttributeType) (value : AttributeValue) : bool :=
  match expected, value with
  | Scalar_S, AV_S _ | Scalar_N, AV_N _ | Scalar_B, AV_B _ => true
  | _, _ => false
  end.

Definition type_mismatch (attr expected actual index_name : string) : string :=
  "One or more parameter values were invalid: Type mismatch for Index Key " +:+ attr
  +:+ " Expected: " +:+ expected +:+ " Actual: " +:+ actual +:+ " IndexName: " +:+ index_name.

(** The body of the loop over a key schema. *)
Definition check_key_type (item : Item) (attr_defs : list AttributeDefinition) (idx : IndexKeyRef)
    (ks : KeySchemaElement) : res unit :=
  match bt_get (ks_attribute_name ks) item, find_def (ks_attribute_name ks) attr_defs with
  | Some value, Some ad =>
      if scalar_matches (ad_attribute_type ad) value then Ok tt
      else fail (type_mismatch (ks_attribute_name ks) (scalar_type_tag (ad_attribute_type ad))
                   (attribute_value_type_tag value) (ikr_index_name idx))
  | _, _ => Ok tt
  end.

Definition validate_index_key_types (item : Item) (indexes : list IndexKeyRef)
    (attr_defs : list AttributeDefinition) : res unit :=
  for_each (fun idx => for_each (check_key_type item attr_defs idx) (ikr_key_schema idx))
    (ordered_indexes indexes).

Definition validate_index_key_types_after_update (item : Item) (indexes : list IndexKeyRef)
    (attr_defs : list AttributeDefinition) : res unit :=
  match validate_index_key_types item indexes attr_defs with
  | Err (Fail _) =>
      fail "The update expression attempted to update the secondary index key to unsupported type"
  | r => r
  end.

(** The kind of an empty value. *)
Definition empty_kind (value : AttributeValue) : option string :=
  match value with
  | AV_S s => if String.eqb s "" then Some "string" else None
  | AV_B b => match b with [] => Some "binary" | _ => None end
  | _ => None
  end.

Definition check_key_not_empty (item : Item) (ctx : SecondaryIndexEmptyContext) (idx : IndexKeyRef)
    (ks : KeySchemaElement) : res unit :=
  match bt_get (ks_attribute_name ks) item ≫= empty_kind with
  | Some kind =>
      fail match ctx with
           | EmptyItem =>
               "One or more parameter values are not valid. A value specified for a secondary index key is not supported. The AttributeValue for a key attribute cannot contain an empty "
               +:+ kind +:+ " value. IndexName: " +:+ ikr_index_name idx +:+ ", IndexKey: " +:+ ks_attribute_name ks
           | EmptyUpdateExpression =>
               "One or more parameter values are not valid. The update expression attempted to update a secondary index key to a value that is not supported. The AttributeValue for a key attribute cannot contain an empty "
               +:+ kind +:+ " value."
           end
  | None => Ok tt
  end.

Definition validate_index_key_not_empty (item : Item) (indexes : list IndexKeyRef)
    (ctx : SecondaryIndexEmptyContext) : res unit :=
  for_each (fun idx => for_each (check_key_not_empty item ctx idx) (ikr_key_schema idx))
    (ordered_indexes indexes).

Definition validate_index_keys (item : Item) (indexes : list IndexKeyRef)
    (attr_defs : list AttributeDefinition) : res unit :=
  let? _ := validate_index_key_types item indexes attr_defs in
  validate_index_key_not_empty item indexes EmptyItem.

(** ** Literal operands *)

Section Literals.
Context {D : Type} `{BigDecimal D}.
Implicit Type maps : ExpressionMaps D.

Fixpoint literal_operand_type (expr : Expr) maps : option string :=
  match expr with
  | EPlaceholder name => attribute_value_type_tag <$> em_values maps !! name
  | EFunction name args =>
      if eq_ignore_ascii_case name "list_append" then
        if forallb (fun a => is_some (literal_operand_type a maps)) args then Some "L" else None
      else None
  | EArithmetic l _ r =>
      if is_some (literal_operand_type l maps) && is_some (literal_operand_type r maps)
      then Some "N" else None
  | _ => None
  end.

(** Whether an operand of type [actual] can be written to a key of type [expected]. *)
Definition operand_ok (is_set : bool) (expected : ScalarAttributeType) (actual : string) : bool :=
  if is_set then String.eqb (scalar_type_tag expected) actual
  else if String.eqb actual "N" then bool_decide (expected = Scalar_N)
  else negb (String.eqb actual "SS" || String.eqb actual "NS" || String.eqb actual "BS").

Definition check_literal_key (attr_defs : list AttributeDefinition) (attr actual : string) (is_set : bool)
    (idx : IndexKeyRef) (ks : KeySchemaElement) : res unit :=
  if negb (String.eqb (ks_attribute_name ks) attr) then Ok tt
  else
    match find_def attr attr_defs with
    | None => Ok tt
    | Some ad =>
        if operand_ok is_set (ad_attribute_type ad) actual then Ok tt
        else fail (type_mismatch attr (scalar_type_tag (ad_attribute_type ad)) actual (ikr_index_name idx))
    end.

(** The target and operand of an action that writes a value. *)
Definition written_operand (action : UpdateAction) : option (list PathElement * Expr * bool) :=
  match action with
  | USet path value => Some (path, value, true)
  | UAdd path value | UDelete path value => Some (path, value, false)
  | URemove _ => None
  end.

Definition check_literal_action (ordered : list IndexKeyRef) (attr_defs : list AttributeDefinition) maps
    (action : UpdateAction) : res unit :=
  match written_operand action with
  | Some ([PAttr raw], operand, is_set) =>
      let? attr := match strip_prefix_char "#" raw with
                   | Some alias => resolve_name maps alias
                   | None => Ok raw
                   end in
      match literal_operand_type operand maps with
      | None => Ok tt
      | Some actual =>
          for_each (fun idx => for_each (check_literal_key attr_defs attr actual is_set idx) (ikr_key_schema idx))
            ordered
      end
  | _ => Ok tt
  end.

Definition validate_index_key_literal_operands (actions : list UpdateAction) (indexes : list IndexKeyRef)
    (attr_defs : list AttributeDefinition) maps : res unit :=
  match indexes with
  | [] => Ok tt
  | _ => for_each (check_literal_action (ordered_indexes indexes) attr_defs maps) actions
  end.
End Literals.

(** ** The order of the indexes *)

Lemma insert_by_name_elem x l y : y ∈ insert_by_name x l <-> y = x \/ y ∈ l.
Proof.
  induction l as [|z l IH]; simpl; [by rewrite list_elem_of_singleton, elem_of_nil; tauto|].
  destruct (cmp _ _); rewrite ?elem_of_cons, ?IH; tauto.
Qed.

Lemma ordered_indexes_elem indexes idx : idx ∈ ordered_indexes indexes <-> idx ∈ indexes.
Proof.
  induction indexes as [|x l IH]; simpl; [done|]. rewrite insert_by_name_elem, elem_of_cons. by rewrite IH.
Qed.

(** No index of the list has a smaller name than [x]. *)
Definition name_first (x : IndexKeyRef) (l : list IndexKeyRef) : Prop :=
  forall y, y ∈ l -> cmp (ikr_index_name y) (ikr_index_name x) <> Lt.

Inductive name_sorted : list IndexKeyRef -> Prop :=
  | name_sorted_nil : name_sorted []
  | name_sorted_cons x l : name_first x l -> name_sorted l -> name_sorted (x :: l).

Lemma insert_by_name_sorted x l : name_sorted l -> name_sorted (insert_by_name x l).
Proof.
  induction 1 as [|y l Hf Hs IH]; simpl; [constructor; [|constructor]; by intros z ?%elem_of_nil|].
  assert (Hg : cmp (ikr_index_name x) (ikr_index_name y) <> Gt ->
    name_sorted (x :: y :: l)).
  { intros Hle. constructor; [|by constructor]. intros z Hz Hlt.
    assert (cmp (ikr_index_name z) (ikr_index_name y) = Lt) as E.
    { destruct (cmp (ikr_index_name x) (ikr_index_name y)) eqn:E; [|by eapply cmp_lt_trans|done].
      by apply cmp_eq_iff in E as <-. }
    apply elem_of_cons in Hz as [->|Hz]; [by rewrite cmp_refl in E|by apply (Hf z)]. }
  destruct (cmp _ _) eqn:E; [by apply Hg|by apply Hg|].
  constructor; [|done]. intros z [->|Hz]%insert_by_name_elem; [by rewrite E|by apply Hf].
Qed.

Lemma ordered_indexes_sorted indexes : name_sorted (ordered_indexes indexes).
Proof. induction indexes as [|x l IH]; simpl; [constructor|by apply insert_by_name_sorted]. Qed.

(** The first failure of a loop in order of name is of a first index. *)
Lemma for_each_first_name (f : IndexKeyRef -> res unit) l e :
  name_sorted l -> for_each f l = Err e ->
  exists idx, idx ∈ l /\ f idx = Err e
    /\ forall idx', idx' ∈ l -> f idx' <> Ok tt -> cmp (ikr_index_name idx') (ikr_index_name idx) <> Lt.
Proof.
  induction 1 as [|x l Hf Hs IH]; simpl; [done|]. destruct (f x) as [[]|e'] eqn:E; [|intros [= ->]].
  - intros (idx & Hi & He & Hm)%IH. exists idx. split; [by right|]. split; [done|].
    intros idx' [->|Hi']%elem_of_cons Hn; [done|by apply Hm].
  - exists x. split; [by left|]. split; [done|]. intros idx' [->|Hi']%elem_of_cons _; [by rewrite cmp_refl|by apply Hf].
Qed.

Lemma for_each_Err {A : Type} (f : A -> res unit) l e : for_each f l = Err e ->
  exists x, In x l /\ f x = Err e.
Proof.
  induction l as [|x l IH]; simpl; [done|]. destruct (f x) as [[]|] eqn:E; [|intros [= ->]; eauto].
  intros (y & Hy & He)%IH. eauto.
Qed.

Lemma for_each_indexes (f : IndexKeyRef -> res unit) indexes :
  for_each f (ordered_indexes indexes) = Ok tt <-> forall idx, In idx indexes -> f idx = Ok tt.
Proof.
  rewrite for_each_Ok. setoid_rewrite <- list_elem_of_In. by setoid_rewrite ordered_indexes_elem.
Qed.

(** The same for a loop over the keys of each. *)
Lemma for_each_indexes2 (f : IndexKeyRef -> KeySchemaElement -> res unit) indexes :
  for_each (fun idx => for_each (f idx) (ikr_key_schema idx)) (ordered_indexes indexes) = Ok tt
  <-> forall idx ks, In idx indexes -> In ks (ikr_key_schema idx) -> f idx ks = Ok tt.
Proof.
  etransitivity; [apply for_each_indexes|]. split; intros Hf idx.
  - intros ks Hi. by apply for_each_Ok, Hf.
  - intros Hi. apply for_each_Ok. intros ks. by apply Hf.
Qed.

(** ** What the checks accept *)

(** A value a secondary index can be keyed by, as far as the definitions say. *)
Definition index_key_value (attr_defs : list AttributeDefinition) (name : string) (v : AttributeValue) : Prop :=
  (forall ad, find_def name attr_defs = Some ad -> scalar_matches (ad_attribute_type ad) v = true)
  /\ empty_kind v = None.

Lemma index_key_types_Ok item indexes attr_defs :
  validate_index_key_types item indexes attr_defs = Ok tt <->
  forall idx ks v ad, In idx indexes -> In ks (ikr_key_schema idx) ->
    bt_get (ks_attribute_name ks) item = Some v -> find_def (ks_attribute_name ks) attr_defs = Some ad ->
    scalar_matches (ad_attribute_type ad) v = true.
Proof.
  etransitivity; [apply for_each_indexes2|]. unfold check_key_type. split; intros Hf idx ks.
  - intros v ad Hi Hk Hv Ha. specialize (Hf idx ks Hi Hk). rewrite Hv, Ha in Hf. by destruct (scalar_matches _ _).
  - intros Hi Hk. destruct (bt_get _ item) as [v|] eqn:Ev; [|done]. destruct (find_def _ _) as [ad|] eqn:Ea; [|done].
    by rewrite (Hf idx ks v ad).
Qed.

Lemma index_key_not_empty_Ok item indexes ctx :
  validate_index_key_not_empty item indexes ctx = Ok tt <->
  forall idx ks v, In idx indexes -> In ks (ikr_key_schema idx) ->
    bt_get (ks_attribute_name ks) item = Some v -> empty_kind v = None.
Proof.
  etransitivity; [apply for_each_indexes2|]. unfold check_key_not_empty. split; intros Hf idx ks.
  - intros v Hi Hk Hv. specialize (Hf idx ks Hi Hk). rewrite Hv in Hf. simpl in Hf. by destruct (empty_kind v).
  - intros Hi Hk. destruct (bt_get _ item) as [v|] eqn:Ev; [|done]. simpl. by rewrite (Hf idx ks v).
Qed.

Lemma index_keys_Ok item indexes attr_defs :
  validate_index_keys item indexes attr_defs = Ok tt <->
  forall idx ks v, In idx indexes -> In ks (ikr_key_schema idx) ->
    bt_get (ks_attribute_name ks) item = Some v -> index_key_value attr_defs (ks_attribute_name ks) v.
Proof.
  transitivity (validate_index_key_types item indexes attr_defs = Ok tt
    /\ validate_index_key_not_empty item indexes EmptyItem = Ok tt).
  { unfold validate_index_keys. destruct (validate_index_key_types item indexes attr_defs) as [[]|]; naive_solver. }
  rewrite index_key_types_Ok, index_key_not_empty_Ok. unfold index_key_value. naive_solver.
Qed.

(** C37. An item is accepted exactly when every attribute it has that keys a secondary
    index is of its declared type and not empty; and a type error names an index that
    no other offending index precedes in the order of names, with the attribute, its
    declared type and the type it has. *)
Theorem index_keys_spec item indexes attr_defs :
  (validate_index_keys item indexes attr_defs = Ok tt <->
   forall idx ks v, In idx indexes -> In ks (ikr_key_schema idx) ->
     bt_get (ks_attribute_name ks) item = Some v -> index_key_value attr_defs (ks_attribute_name ks) v)
  /\ forall e, validate_index_key_types item indexes attr_defs = Err e ->
     exists idx ks v ad, In idx indexes /\ In ks (ikr_key_schema idx)
       /\ bt_get (ks_attribute_name ks) item = Some v
       /\ find_def (ks_attribute_name ks) attr_defs = Some ad
       /\ scalar_matches (ad_attribute_type ad) v = false
       /\ e = Fail (ValidationException (type_mismatch (ks_attribute_name ks)
                (scalar_type_tag (ad_attribute_type ad)) (attribute_value_type_tag v) (ikr_index_name idx)))
       /\ forall idx', In idx' indexes ->
            for_each (check_key_type item attr_defs idx') (ikr_key_schema idx') <> Ok tt ->
            cmp (ikr_index_name idx') (ikr_index_name idx) <> Lt.
Proof.
  split; [apply index_keys_Ok|]. intros e He.
  destruct (for_each_first_name _ _ _ (ordered_indexes_sorted indexes) He) as (idx & Hi & Hf & Hm).
  destruct (for_each_Err _ _ _ Hf) as (ks & Hk & Hc). unfold check_key_type in Hc.
  destruct (bt_get _ item) as [v|] eqn:Ev; [|done]. destruct (find_def _ _) as [ad|] eqn:Ed; [|done].
  destruct (scalar_matches _ _) eqn:Es; [done|]. injection Hc as <-.
  exists idx, ks, v, ad. rewrite <- list_elem_of_In, <- ordered_indexes_elem. repeat split; try done.
  intros idx' Hi'. apply Hm. by apply ordered_indexes_elem, list_elem_of_In.
Qed.

(** ** The types of literals *)

Section LiteralTypes.
Context {D : Type} `{BigDecimal D}.
Implicit Type maps : ExpressionMaps D.

Lemma evaluate_arithmetic_N l r op v : evaluate_arithmetic (D := D) l r op = Ok v -> exists n, v = AV_N n.
Proof.
  unfold evaluate_arithmetic, store_number. repeat (case_match; try done); by intros [= <-]; eauto.
Qed.

Lemma literal_type_value expr maps t item v :
  literal_operand_type expr maps = Some t -> evaluate_set_value expr item maps = Ok v ->
  attribute_value_type_tag v = t.
Proof.
  destruct expr; simpl; try done.
  - unfold resolve_value_for. destruct (em_values maps !! name) as [w|]; [|done].
    intros [= <-] [= ->]. done.
  - destruct (eq_ignore_ascii_case _ _) eqn:Ei; [|done]. destruct (forallb _ _); [|done]. intros [= <-].
    destruct (String.eqb_spec name "if_not_exists") as [->|_]; [done|].
    destruct (String.eqb name "list_append"); [|done]. repeat (case_match; try done). by intros [= <-].
  - destruct (_ && _); [|done]. intros [= <-]. destruct (evaluate_set_value expr1 item maps) as [a|]; [|done].
    destruct (evaluate_set_value expr2 item maps) as [b|]; [|done]. by intros [n ->]%evaluate_arithmetic_N.
Qed.

(** The check of literal operands is sound: when it accepts an update, every SET
    of an index key attribute to an operand without references to the item computes,
    on whatever item, a value of the declared type or fails by itself. *)
Theorem literal_operands_sound actions indexes attr_defs maps raw attr operand idx ks ad t :
  validate_index_key_literal_operands actions indexes attr_defs maps = Ok tt ->
  In (USet [PAttr raw] operand) actions -> resolve_name_ref raw maps = Ok attr ->
  In idx indexes -> In ks (ikr_key_schema idx) -> ks_attribute_name ks = attr ->
  find_def attr attr_defs = Some ad -> literal_operand_type operand maps = Some t ->
  forall item v, evaluate_set_value operand item maps = Ok v -> scalar_matches (ad_attribute_type ad) v = true.
Proof.
  intros Hv Ha Hr Hi Hk <- Hd Ht item v He. apply (literal_type_value _ _ _ _ _ Ht) in He.
  assert (for_each (check_literal_action (ordered_indexes indexes) attr_defs maps) actions = Ok tt) as Hv'.
  { by destruct indexes. }
  apply (proj1 (for_each_Ok _ _)) with (x := USet [PAttr raw] operand) in Hv'; [|done].
  unfold check_literal_action in Hv'. simpl in Hv'.
  unfold resolve_name_ref in Hr. rewrite Hr, Ht in Hv'. simpl in Hv'.
  apply (proj1 (for_each_indexes2 _ _)) with (idx := idx) (ks := ks) in Hv'; [|done|done].
  unfold check_literal_key in Hv'.
  rewrite String.eqb_refl, Hd in Hv'. simpl in Hv'.
  destruct (String.eqb_spec (scalar_type_tag (ad_attribute_type ad)) t) as [<-|]; [|done].
  destruct (ad_attribute_type ad), v; done.
Qed.
End LiteralTypes.

Definition sample_index : IndexKeyRef :=
  {| ikr_index_name := "by-age"; ikr_key_schema := [{| ks_attribute_name := "age"; ks_key_type := Hash |}] |}.

Lemma literal_operands_sound_witness :
  scalar_matches Scalar_N (AV_N "3") = true.
Proof.
  apply (literal_operands_sound (D := dec)
    [USet [PAttr "#a"] (EPlaceholder "x")] [sample_index]
    [{| ad_attribute_name := "age"; ad_attribute_type := Scalar_N |}]
    (maps_new {["a" := "age"]} {["x" := AV_N "3"]}) "#a" "age" (EPlaceholder "x") sample_index
    {| ks_attribute_name := "age"; ks_key_type := Hash |}
    {| ad_attribute_name := "age"; ad_attribute_type := Scalar_N |} "N") with (item := []);
    try (vm_compute; reflexivity); left; reflexivity.
Defined.
