(* ===== verification/Wire.v ===== *)
(** * The wire format of attribute values

    The [Serialize] and [Deserialize] of [AttributeValue]
    ([crates/core/src/types/attribute_value.rs]), between attribute values and JSON
    values.  The texts of [serde_json]'s own errors and the base64 decoder are
    parameters. *)

From S2P Require Import Prelude BTree Types Error Number StorageKey.

(** ** JSON *)

(** [serde_json::Value]; an object is its entries in iteration order, and a number
    is its text. *)
Unset Elimination Schemes.
Inductive Value : Type :=
  | VNull
  | VBool (b : bool)
  | VNumber (text : string)
  | VString (s : string)
  | VArray (l : list Value)
  | VObject (o : list (string * Value)).
Set Elimination Schemes.

(** [rendered_per_level] and the error of [from_value] on a value that is no object. *)
Class SerdeErrors : Type := {
  rendered_per_level : string -> string;
  invalid_type : Value -> string
}.

Definition EMPTY_ATTRIBUTE_VALUE : string :=
  "Supplied AttributeValue is empty, must contain exactly one of the supported datatypes".
Definition MULTI_ATTRIBUTE_VALUE : string :=
  "Supplied AttributeValue has more than one datatypes set, must contain exactly one of the supported datatypes".

(** ** Writing *)

Fixpoint to_value `{Base64} (self : AttributeValue) : Value :=
  match self with
  | AV_S v => VObject [("S", VString v)]
  | AV_N v => VObject [("N", VString v)]
  | AV_B v => VObject [("B", VString (b64_encode v))]
  | AV_SS v => VObject [("SS", VArray (map VString v))]
  | AV_NS v => VObject [("NS", VArray (map VString v))]
  | AV_BS v => VObject [("BS", VArray (map (fun b => VString (b64_encode b)) v))]
  | AV_Bool v => VObject [("BOOL", VBool v)]
  | AV_Null => VObject [("NULL", VBool true)]
  | AV_L v => VObject [("L", VArray (map to_value v))]
  | AV_M v => VObject [("M", VObject (map (fun kv => (kv.1, to_value kv.2)) v))]
  end.

(** ** Reading *)

Definition as_str (v : Value) : option string := match v with VString s => Some s | _ => None end.

(** [value.get(key)]. *)
Definition json_get (value : Value) (key : string) : option Value :=
  match value with
  | VObject o => snd <$> List.find (fun kv => String.eqb kv.1 key) o
  | _ => None
  end.

(** [validate_and_normalize_number(&n).unwrap_or(n)]; it does not panic on a text
    under 2^61 bytes. *)
Definition number_as_read (n : string) : string :=
  match validate_and_normalize_number n with Ok o => o | Err _ => n end.

Definition duplicates (arr : list Value) (tail : string) : string :=
  "One or more parameter values were invalid: Input collection [" +:+
  join ", " (omap as_str arr) +:+ "]" +:+ tail.

Definition string_set (value : Value) : result string AttributeValue :=
  match value with
  | VArray arr =>
      if bool_decide (arr = []) then
        Err "One or more parameter values were invalid: An string set  may not be empty"
      else
        let? set := collect_results (fun v => ok_or_else (as_str v)
          "One or more parameter values were invalid: An string set may not have a null string as a member") arr in
        let set := set_of_list set in
        if negb (length (omap as_str arr) =? length set) then Err (duplicates arr " contains duplicates.")
        else Ok (AV_SS set)
  | _ => Err "SS value must be an array"
  end.

Definition number_set (value : Value) : result string AttributeValue :=
  match value with
  | VArray arr =>
      if bool_decide (arr = []) then
        Err "One or more parameter values were invalid: An number set  may not be empty"
      else
        let? set := collect_results (fun v =>
          let? s := ok_or_else (as_str v) EMPTY_ATTRIBUTE_VALUE in Ok (number_as_read s)) arr in
        let set := set_of_list set in
        if negb (length set =? length arr) then Err (duplicates arr " contains duplicates.")
        else Ok (AV_NS set)
  | _ => Err "NS value must be an array"
  end.

Section Reader.
Context `{HD : Base64Decode} `{HE : SerdeErrors}.

Definition decode_base64 (s : string) : result string bytes :=
  map_err (fun e => "invalid base64: " +:+ e) (b64_decode s).

Definition binary_set (value : Value) : result string AttributeValue :=
  match value with
  | VArray arr =>
      if bool_decide (arr = []) then
        Err "One or more parameter values were invalid: Binary sets should not be empty"
      else
        let? set := collect_results (fun v =>
          let? s := ok_or_else (as_str v) EMPTY_ATTRIBUTE_VALUE in decode_base64 s) arr in
        let set := set_of_list set in
        if negb (length set =? length arr) then Err (duplicates arr "of type BS contains duplicates.")
        else Ok (AV_BS set)
  | _ => Err "BS value must be an array"
  end.

(** [from_nested] in terms of the reader of a descriptor. *)
Definition nested_with (descriptor : string -> Value -> result string AttributeValue) (value : Value)
    : result string AttributeValue :=
  match value with
  | VObject object =>
      map_err rendered_per_level
        match object with
        | [] => Err EMPTY_ATTRIBUTE_VALUE
        | [(key, value)] => descriptor key value
        | _ :: _ :: _ => Err MULTI_ATTRIBUTE_VALUE
        end
  | _ => Err (invalid_type value)
  end.

Fixpoint from_descriptor (key : string) (value : Value) {struct value} : result string AttributeValue :=
  if String.eqb key "S" then
    match value with
    | VString s => Ok (AV_S s)
    | _ => Err "S value must be a string"
    end
  else if String.eqb key "N" then
    match value with
    | VString n => Ok (AV_N (number_as_read n))
    | _ => Err "N value must be a string"
    end
  else if String.eqb key "B" then
    let? b64 := ok_or_else (as_str value) "B value must be a base64 string" in
    let? bytes := decode_base64 b64 in
    Ok (AV_B bytes)
  else if String.eqb key "SS" then string_set value
  else if String.eqb key "NS" then number_set value
  else if String.eqb key "BS" then binary_set value
  else if String.eqb key "BOOL" then
    match value with
    | VBool b => Ok (AV_Bool b)
    | _ => Err "BOOL value must be a boolean"
    end
  else if String.eqb key "NULL" then
    match value with
    | VBool true => Ok AV_Null
    | VBool false =>
        Err "One or more parameter values were invalid: Null attribute value types must have the value of true"
    | _ => Err "NULL value must be a boolean"
    end
  else if String.eqb key "L" then
    match value with
    | VArray arr =>
        let? l := collect_results (nested_with from_descriptor) arr in
        Ok (AV_L l)
    | _ => Err "L value must be an array"
    end
  else if String.eqb key "M" then
    match value with
    | VObject obj =>
        let? m := collect_results (fun kv =>
          let? av := nested_with from_descriptor kv.2 in Ok (kv.1, av)) obj in
        Ok (AV_M (bt_of_list m))
    | _ => Err "M value must be an object"
    end
  else Err ("unknown AttributeValue type descriptor: " +:+ key).

Definition from_nested : Value -> result string AttributeValue := nested_with from_descriptor.

(** [visit_map], on the entries of the outermost object as the text has them, a
    repeated key included. *)
Definition visit_map (entries : list (string * Value)) : result string AttributeValue :=
  match entries with
  | [] => Err EMPTY_ATTRIBUTE_VALUE
  | [(key, value)] => from_descriptor key value
  | _ :: _ :: _ => Err MULTI_ATTRIBUTE_VALUE
  end.
End Reader.

(** ** What the reader returns *)

Definition number_normal (n : string) : bool := String.eqb (number_as_read n) n.

(** No set is empty and every number is the text the reader keeps for it. *)
Fixpoint wire_normal (v : AttributeValue) : bool :=
  match v with
  | AV_N n => number_normal n
  | AV_SS s => negb (bool_decide (s = []))
  | AV_NS s => negb (bool_decide (s = [])) && forallb number_normal s
  | AV_BS s => negb (bool_decide (s = []))
  | AV_L l => forallb wire_normal l
  | AV_M m => forallb (fun kv => wire_normal kv.2) m
  | _ => true
  end.

Definition wire_wf (v : AttributeValue) : bool := av_wf v && wire_normal v.

(** Every text of the document is under 2^61 bytes. *)
Fixpoint json_short (v : Value) : bool :=
  match v with
  | VString s => (Z.of_nat (String.length s) <? 2 ^ 61)%Z
  | VArray l => forallb json_short l
  | VObject o => forallb (fun kv => json_short kv.2) o
  | _ => true
  end.

Section Value_ind.
Variable P : Value -> Prop.
Hypothesis Hnull : P VNull.
Hypothesis Hbool : forall b, P (VBool b).
Hypothesis Hnumber : forall t, P (VNumber t).
Hypothesis Hstring : forall s, P (VString s).
Hypothesis Harray : forall l, Forall P l -> P (VArray l).
Hypothesis Hobject : forall o, Forall (fun kv => P kv.2) o -> P (VObject o).

Fixpoint Value_ind (v : Value) : P v :=
  match v with
  | VNull => Hnull
  | VBool b => Hbool b
  | VNumber t => Hnumber t
  | VString s => Hstring s
  | VArray l =>
      Harray l ((fix go l : Forall P l :=
        match l with
        | [] => Forall_nil_2 P
        | x :: l' => Forall_cons_2 P x l' (Value_ind x) (go l')
        end) l)
  | VObject o =>
      Hobject o ((fix go o : Forall (fun kv => P kv.2) o :=
        match o with
        | [] => Forall_nil_2 _
        | kv :: o' => Forall_cons_2 _ kv o' (Value_ind kv.2) (go o')
        end) o)
  end.
End Value_ind.

Lemma number_as_read_normal s :
  json_short (VString s) = true -> number_normal (number_as_read s) = true.
Proof.
  unfold number_normal. intros Hs. apply String.eqb_eq. unfold number_as_read at 2 3.
  destruct (validate_and_normalize_number s) as [o|] eqn:E; unfold number_as_read.
  - apply number_idempotent in E as ->; [done|]. unfold short. simpl in Hs. lia.
  - by rewrite E.
Qed.

Lemma set_of_list_nil {K} `{OrdLaws K} (l : list K) : set_of_list l = [] -> l = [].
Proof.
  intros E. destruct l as [|k l]; [done|].
  assert (In k (set_of_list (k :: l))) as Hk by (apply In_set_extend; right; by left).
  by rewrite E in Hk.
Qed.

Lemma collected_set_nonempty {E A K} `{OrdLaws K} (f : A -> result E K) l k :
  l <> [] -> collect_results f l = Ok k -> set_of_list k <> [].
Proof.
  intros Hl Hk ->%set_of_list_nil. apply collect_results_length in Hk. by destruct l.
Qed.

Lemma collected_forall {E A B} (f : A -> result E B) (P : A -> bool) (Q : B -> bool) l k :
  (forall x y, P x = true -> f x = Ok y -> Q y = true) ->
  forallb P l = true -> collect_results f l = Ok k -> forallb Q k = true.
Proof.
  intros Hf. revert k. induction l as [|x l IH]; simpl; intros k Hl Hk; [by simplify_eq|].
  apply andb_true_iff in Hl as [Hx Hl]. destruct (f x) as [y|] eqn:Ey; [|done].
  destruct (collect_results f l) as [ys|]; [|done]. simplify_eq. simpl.
  rewrite (Hf _ _ Hx Ey). by apply IH.
Qed.

Lemma forallb_set_of_list {K} `{OrdLaws K} (p : K -> bool) l :
  forallb p l = true -> forallb p (set_of_list l) = true.
Proof.
  rewrite !forallb_forall. intros Hp x [[]|Hx]%In_set_extend. by apply Hp.
Qed.

Section ReaderFacts.
Context `{HD : Base64Decode} `{HE : SerdeErrors}.

Lemma as_str_short v s : json_short v = true -> as_str v = Some s -> json_short (VString s) = true.
Proof. by destruct v; intros Hs [= ->]. Qed.

Lemma string_set_wf value v : string_set value = Ok v -> wire_wf v = true.
Proof.
  unfold string_set. destruct value as [| | | |arr|]; try done.
  destruct (bool_decide_reflect (arr = [])) as [|Hne]; [done|]. intros Hv. case_bind Hv.
  destruct (negb _); [done|]. inv_ok. unfold wire_wf. simpl.
  rewrite bool_decide_false by (eapply collected_set_nonempty; eassumption).
  by rewrite andb_true_r; apply set_extend_sorted.
Qed.

Lemma binary_set_wf value v : binary_set value = Ok v -> wire_wf v = true.
Proof.
  unfold binary_set. destruct value as [| | | |arr|]; try done.
  destruct (bool_decide_reflect (arr = [])) as [|Hne]; [done|]. intros Hv. case_bind Hv.
  destruct (negb _); [done|]. inv_ok. unfold wire_wf. simpl.
  rewrite bool_decide_false by (eapply collected_set_nonempty; eassumption).
  by rewrite andb_true_r; apply set_extend_sorted.
Qed.

Lemma number_set_wf value v :
  json_short value = true -> number_set value = Ok v -> wire_wf v = true.
Proof.
  unfold number_set. destruct value as [| | | |arr|]; try done. intros Hs.
  destruct (bool_decide_reflect (arr = [])) as [|Hne]; [done|]. intros Hv. case_bind Hv.
  destruct (negb _); [done|]. inv_ok. unfold wire_wf. simpl.
  rewrite bool_decide_false by (eapply collected_set_nonempty; eassumption).
  rewrite (forallb_set_of_list number_normal); [by rewrite andb_true_r; apply set_extend_sorted|].
  refine (collected_forall _ json_short _ _ _ _ Hs E).
  intros x y Hx. destruct (as_str x) as [t|] eqn:Et; simpl; intros Hy; inv_ok.
  by apply number_as_read_normal, (as_str_short x).
Qed.

(** A nested value is read well formed. *)
Definition nested_wf (x : Value) : Prop :=
  json_short x = true -> forall v, from_nested x = Ok v -> wire_wf v = true.

Lemma list_wf arr l :
  Forall nested_wf arr -> forallb json_short arr = true ->
  collect_results from_nested arr = Ok l -> wire_wf (AV_L l) = true.
Proof.
  intros HF. revert l. unfold wire_wf. induction HF as [|x arr Hx _ IH]; simpl; intros l Hs Hl; [by inv_ok|].
  bool_split. case_bind Hl. case_bind Hl. inv_ok. apply Hx in E; [|done].
  apply andb_true_iff in E as [Hw Hn]. simpl. rewrite Hw, Hn. by apply (IH _ Hs1).
Qed.

Lemma entries_wf (obj : list (string * Value)) m :
  Forall (fun kv => nested_wf kv.2) obj -> forallb (fun kv => json_short kv.2) obj = true ->
  collect_results (fun kv => let? av := from_nested kv.2 in Ok (kv.1, av)) obj = Ok m ->
  forallb (fun kv : string * _ => wire_wf kv.2) m = true.
Proof.
  intros HF. revert m. induction HF as [|[k x] obj Hx _ IH]; simpl; intros m Hs Hm; [by inv_ok|].
  bool_split. case_bind Hm. case_bind Hm. case_bind E. inv_ok. simpl.
  rewrite (Hx Hs0 _ E1). by apply IH.
Qed.

Lemma map_wf (m : Item) : forallb (fun kv => wire_wf kv.2) m = true -> wire_wf (AV_M (bt_of_list m)) = true.
Proof.
  rewrite forallb_forall. intros Hm. unfold wire_wf. simpl. unfold bt_of_list.
  rewrite bt_extend_sorted by done. simpl.
  apply andb_true_iff; split; apply forallb_forall; intros [k v] [[]|Hv]%In_bt_extend;
    apply Hm, andb_true_iff in Hv as [? ?]; done.
Qed.

Lemma descriptor_wf key value v :
  (forall arr, value = VArray arr -> Forall nested_wf arr) ->
  (forall obj, value = VObject obj -> Forall (fun kv => nested_wf kv.2) obj) ->
  json_short value = true -> from_descriptor key value = Ok v -> wire_wf v = true.
Proof.
  intros Ha Ho Hs. destruct value as [|b|t|s|arr|obj]; cbn [from_descriptor];
    repeat (destruct (String.eqb key _));
    try done; try (by intros [= <-]);
    eauto using string_set_wf, number_set_wf, binary_set_wf.
  all: intros Hv; try (by case_bind Hv; case_bind Hv; inv_ok).
  - by destruct b; inv_ok.
  - inv_ok. unfold wire_wf. simpl. by apply number_as_read_normal.
  - case_bind Hv. inv_ok. by eapply list_wf; [apply Ha| |].
  - case_bind Hv. inv_ok. by eapply map_wf, entries_wf; [apply Ho| |].
Qed.

Lemma value_wf value :
  nested_wf value /\
  (forall key v, json_short value = true -> from_descriptor key value = Ok v -> wire_wf v = true).
Proof.
  induction value as [| | | |arr IH|obj IH]; (split; [try (intros ? ? [=]; fail)|intros key v]).
  all: try (by apply descriptor_wf; intros ? [=]).
  - apply descriptor_wf; intros ? [= <-]. eapply Forall_impl; [|exact IH]. naive_solver.
  - intros Hs v. unfold from_nested, nested_with.
    destruct IH as [|[k x] obj [_ Hx] [|]]; simpl; [done| |done]. intros Hv.
    destruct (from_descriptor k x) eqn:E; [|done]. simpl in *. inv_ok.
    apply (Hx k); [|done]. by bool_split.
  - apply descriptor_wf; intros ? [= <-]. eapply Forall_impl; [|exact IH]. naive_solver.
Qed.
End ReaderFacts.

(** ** The round trip *)

Section RoundTrip.
Context `{HB : Base64} `{HD : Base64Decode} `{HR : !Base64RoundTrip} `{HE : SerdeErrors}.

(** The entries of the object an attribute value is written as. *)
Definition entries (v : Value) : list (string * Value) :=
  match v with VObject o => o | _ => [] end.

Lemma collect_results_map {E A B C} (g : A -> B) (f : B -> result E C) (h : A -> C) l :
  Forall (fun x => f (g x) = Ok (h x)) l -> collect_results f (map g l) = Ok (map h l).
Proof. induction 1 as [|x l Hx _ IH]; simpl; [done|]. by rewrite Hx, IH. Qed.

Lemma omap_as_str (l : list string) : omap as_str (map VString l) = l.
Proof.
  induction l as [|s l IH]; [done|].
  change (s :: omap as_str (map VString l) = s :: l). by rewrite IH.
Qed.

Lemma map_nonempty {A B} (f : A -> B) l : l <> [] -> map f l <> [].
Proof. by destruct l. Qed.

Lemma forallb_Forall {A} (p : A -> bool) l : forallb p l = true -> Forall (fun x => p x = true) l.
Proof. intros Hp. apply List.Forall_forall. by apply forallb_forall. Qed.

Lemma nonempty_iff {K} `{OrdLaws K} `{EqDecision K} (s : list K) :
  negb (bool_decide (s = [])) = true -> s <> [].
Proof. intros Hs. by apply negb_true_iff, bool_decide_eq_false in Hs. Qed.

Lemma number_normal_eq n : number_normal n = true -> number_as_read n = n.
Proof. apply String.eqb_eq. Qed.

Lemma string_set_roundtrip s :
  wire_wf (AV_SS s) = true -> string_set (VArray (map VString s)) = Ok (AV_SS s).
Proof.
  unfold wire_wf. simpl. intros [Hs Hne%nonempty_iff]%andb_true_iff. unfold string_set.
  rewrite bool_decide_false by (by apply map_nonempty).
  rewrite (collect_results_map _ _ id), map_id, omap_as_str, set_of_list_sorted, Nat.eqb_refl;
    [done|done|]. by apply List.Forall_forall.
Qed.

Lemma number_set_roundtrip s :
  wire_wf (AV_NS s) = true -> number_set (VArray (map VString s)) = Ok (AV_NS s).
Proof.
  unfold wire_wf. simpl. intros [Hs [Hne%nonempty_iff Hn]%andb_true_iff]%andb_true_iff.
  unfold number_set. rewrite bool_decide_false by (by apply map_nonempty).
  rewrite (collect_results_map _ _ id), map_id, set_of_list_sorted, length_map, Nat.eqb_refl;
    [done|done|].
  eapply Forall_impl; [|apply forallb_Forall, Hn]. simpl. by intros n ->%number_normal_eq.
Qed.

Lemma decode_encode b : decode_base64 (b64_encode b) = Ok b.
Proof. unfold decode_base64. by rewrite b64_decode_encode. Qed.

Lemma binary_set_roundtrip s :
  wire_wf (AV_BS s) = true -> binary_set (VArray (map (fun b => VString (b64_encode b)) s)) = Ok (AV_BS s).
Proof.
  unfold wire_wf. simpl. intros [Hs Hne%nonempty_iff]%andb_true_iff.
  unfold binary_set. rewrite bool_decide_false by (by apply map_nonempty).
  rewrite (collect_results_map _ _ id), map_id, set_of_list_sorted, length_map, Nat.eqb_refl;
    [done|done|].
  apply List.Forall_forall. intros b _. apply decode_encode.
Qed.

(** One descriptor under which the value is written. *)
Lemma to_value_object v : exists key value, to_value v = VObject [(key, value)].
Proof. destruct v; simpl; eauto. Qed.

Lemma nested_entries v : visit_map (entries (to_value v)) = Ok v -> from_nested (to_value v) = Ok v.
Proof.
  destruct (to_value_object v) as (key & value & ->). simpl. unfold from_nested. simpl.
  by intros ->.
Qed.

Lemma wire_wf_L l : wire_wf (AV_L l) = true -> Forall (fun x => wire_wf x = true) l.
Proof.
  unfold wire_wf. simpl. rewrite andb_true_iff, !forallb_forall. intros [Hw Hn].
  apply List.Forall_forall. intros x Hx. by rewrite Hw, Hn.
Qed.

Lemma wire_wf_M m :
  wire_wf (AV_M m) = true -> bt_sorted m = true /\ Forall (fun kv => wire_wf kv.2 = true) m.
Proof.
  unfold wire_wf. simpl. rewrite !andb_true_iff, !forallb_forall. intros [[Hs Hw] Hn].
  split; [done|]. apply List.Forall_forall. intros x Hx. by rewrite Hw, Hn.
Qed.

Lemma written_reads v : wire_wf v = true -> visit_map (entries (to_value v)) = Ok v.
Proof.
  induction v as [s|n|b|s|s|s|b| |l IH|m IH] using AttributeValue_ind; intros Hv;
    cbn [to_value entries visit_map]; try done.
  - simpl. by rewrite number_normal_eq.
  - simpl. by rewrite decode_encode.
  - by apply string_set_roundtrip.
  - by apply number_set_roundtrip.
  - by apply binary_set_roundtrip.
  - simpl. rewrite (collect_results_map _ _ id), map_id; [done|].
    apply wire_wf_L in Hv. apply List.Forall_forall. intros x Hx.
    rewrite List.Forall_forall in IH, Hv. by apply nested_entries, IH, Hv.
  - simpl. apply wire_wf_M in Hv as [Hm Hv]. rewrite (collect_results_map _ _ id), map_id.
    + by rewrite bt_of_list_sorted.
    + apply List.Forall_forall. intros [k x] Hx. rewrite List.Forall_forall in IH, Hv.
      assert (from_nested (to_value x) = Ok x) as E
        by (by apply nested_entries, (IH (k, x)), (Hv (k, x))).
      cbn [fst snd]. change (nested_with from_descriptor) with from_nested. by rewrite E.
Qed.
End RoundTrip.

(** What the reader returns is well formed: sets and maps are sorted without
    duplicates, no set is empty at any depth, and every number is the text the
    reader keeps for it, which reading again would not change. *)
Theorem read_value_wf `{HD : Base64Decode} `{HE : SerdeErrors} o v :
  json_short (VObject o) = true -> visit_map o = Ok v -> wire_wf v = true.
Proof.
  destruct o as [|[key value] [|]]; [done| |done]. simpl. intros Hs. apply value_wf. by bool_split.
Qed.

Lemma collect_strings {E A : Type} (e : E) (g : string -> A) arr k :
  collect_results (fun v => let? s := ok_or_else (as_str v) e in Ok (g s)) arr = Ok k <->
  exists texts, arr = map VString texts /\ k = map g texts.
Proof.
  split.
  - revert k. induction arr as [|x arr IH]; simpl; intros k Hk; [inv_ok; by exists []|].
    destruct x; try done. simpl in Hk. case_bind Hk. inv_ok.
    destruct (IH _ eq_refl) as (texts & -> & ->). by exists (s :: texts).
  - intros (texts & -> & ->). apply collect_results_map. by apply List.Forall_forall.
Qed.

(** A number set is read exactly from a non-empty array of strings whose
    normalised texts are pairwise distinct, and it is the set of those texts. *)
Theorem number_set_spec arr v :
  number_set (VArray arr) = Ok v <->
  exists texts, arr = map VString texts /\ texts <> [] /\ NoDup (map number_as_read texts) /\
    v = AV_NS (set_of_list (map number_as_read texts)).
Proof.
  unfold number_set. destruct (bool_decide_reflect (arr = [])) as [->|Hne].
  { split; [done|]. intros (texts & E & Ht & _). by destruct texts. }
  split.
  - intros Hv. case_bind Hv. apply collect_strings in E as (texts & -> & ->).
    destruct (Nat.eqb_spec (length (set_of_list (map number_as_read texts))) (length (map VString texts)))
      as [Hl|]; [|done]. simpl in Hv. inv_ok. exists texts. split; [done|].
    split; [by intros ->|]. split; [|done]. apply set_of_list_length. by rewrite Hl, !length_map.
  - intros (texts & -> & Ht & Hnd & ->).
    rewrite (proj2 (collect_strings _ _ _ _)) by eauto.
    apply set_of_list_length in Hnd. by rewrite Hnd, !length_map, Nat.eqb_refl.
Qed.

(** C17. A value the reader returned is written as a document that it reads as the
    same value. *)
Theorem wire_roundtrip `{HB : Base64} `{HD : Base64Decode} `{HR : !Base64RoundTrip} `{HE : SerdeErrors} o v :
  json_short (VObject o) = true -> visit_map o = Ok v -> visit_map (entries (to_value v)) = Ok v.
Proof.
  intros Hs Hv. apply written_reads. destruct o as [|[key value] [|]]; [done| |done].
  simpl in Hs. bool_split. by eapply value_wf.
Qed.

#[local] Existing Instance rfc4648_base64.
#[local] Existing Instance rfc4648_decode.
#[local] Instance plain_errors : SerdeErrors := {|
  rendered_per_level := fun m => m;
  invalid_type := fun _ => "invalid type"
|}.

(** A map whose list holds a number set; the entries are not in key order. *)
Definition document : list (string * Value) :=
  [("M", VObject
      [("z", VObject [("L", VArray [VObject [("NS", VArray [VString "1.50"; VString "007"])];
                                    VObject [("NULL", VBool true)]])]);
       ("a", VObject [("B", VString "Zm9v")])])].

Definition document_value : AttributeValue :=
  AV_M [("a", AV_B (as_bytes "foo")); ("z", AV_L [AV_NS ["1.5"; "7"]; AV_Null])].

Lemma read_value_wf_witness : visit_map document = Ok document_value /\ wire_wf document_value = true.
Proof.
  assert (visit_map document = Ok document_value) as Hd by (vm_compute; reflexivity).
  split; [exact Hd|]. apply (read_value_wf document document_value); [vm_compute; reflexivity|exact Hd].
Defined.

Lemma wire_roundtrip_witness : visit_map (entries (to_value document_value)) = Ok document_value.
Proof. apply (wire_roundtrip document document_value); vm_compute; reflexivity. Defined.
