(* ===== verification/NumberKey.v ===== *)
(** * Order-preserving number keys

    [crates/storage-sqlite/src/number_key.rs]: the text a numeric sort key is
    stored as, so that the byte order of the texts is the order of the numbers.
    The operations of the [bigdecimal] crate it calls, besides those of
    [Decimal], are a class of their own with their documented behaviour. *)

From S2P Require Import Prelude Types Error Decimal Number StorageKey.

Local Open Scope Z_scope.

(** ** The parts of a decimal *)

(** [is_zero], [zero], [abs], [normalized] and [as_bigint_and_exponent]. *)
Class BigDecimalParts (D : Type) : Type := {
  bd_is_zero : D -> bool;
  bd_zero : D;
  bd_abs : D -> D;
  bd_normalized : D -> D;
  bd_as_bigint_and_exponent : D -> Z * Z
}.

Definition dec_abs (d : dec) : dec := (Z.abs d.1, d.2).

(** [normalized] keeps the value and leaves no trailing zero; the two parts
    [(m, s)] stand for [m * 10 ^ (- s)]. *)
Class BigDecimalPartsLaws (D : Type) `{BigDecimalLaws D} `{BigDecimalParts D} : Type := {
  bd_is_zero_value : forall x, bd_is_zero x = true <-> dec_eq (bd_value x) (0, 0);
  bd_zero_value : dec_eq (bd_value bd_zero) (0, 0);
  bd_abs_value : forall x, dec_eq (bd_value (bd_abs x)) (dec_abs (bd_value x));
  bd_normalized_value : forall x, dec_eq (bd_value (bd_normalized x)) (bd_value x);
  bd_normalized_minimal : forall x m s,
    bd_as_bigint_and_exponent (bd_normalized x) = (m, s) -> m <> 0 -> m mod 10 <> 0;
  bd_parts_value : forall x m s,
    bd_as_bigint_and_exponent x = (m, s) -> dec_eq (bd_value x) (m, - s)
}.

(** ** The encoder *)

Definition EXP_BIAS : Z := 100000.
Definition EXP_WIDTH : nat := 6.
Definition NEG_TERMINATOR : ascii := ":".

(** [to_string] of an integer. *)
Definition Z_to_bytes (z : Z) : list ascii := sign_bytes z ++ N_to_bytes (Z.to_N (Z.abs z)).
Definition Z_to_string (z : Z) : string := of_bytes (Z_to_bytes z).

(** [format!] with a width and the [0] flag: zeros between sign and digits. *)
Definition format_width (width : nat) (z : Z) : list ascii :=
  sign_bytes z ++
  replicate (width - length (Z_to_bytes z)) "0"%char ++ N_to_bytes (Z.to_N (Z.abs z)).

(** [char::from(b'9' - (b - b'0'))]. *)
Definition complement (b : ascii) : ascii := ascii_of_N (57 - (byte b - 48)).

Definition encode_orderable_number {D : Type} `{BigDecimal D} `{BigDecimalParts D} (value : D)
    : string :=
  if bd_is_zero value then "1"
  else
    let negative := bool_decide (bd_cmp value bd_zero = Lt) in
    let magnitude := bd_normalized (bd_abs value) in
    let '(mantissa_int, scale) := bd_as_bigint_and_exponent magnitude in
    let digits := Z_to_bytes mantissa_int in
    let exponent := Z.of_nat (length digits) - scale in
    if negative then
      let exp_code := format_width EXP_WIDTH (EXP_BIAS - exponent) in
      let complemented := map complement digits in
      of_bytes ("0"%char :: exp_code ++ complemented ++ [NEG_TERMINATOR])
    else
      let exp_code := format_width EXP_WIDTH (EXP_BIAS + exponent) in
      of_bytes ("2"%char :: exp_code ++ digits).

(** [BoundValue] and [sk_bound] of [crates/storage-sqlite/src/data/mod.rs]: the
    value a sort key is bound to in its column. *)
Inductive BoundValue : Type :=
  | BoundText (s : string)
  | BoundBlob (b : bytes).

Definition sk_bound {D : Type} `{BigDecimal D} `{BigDecimalParts D} (sk : SortKeyValue D)
    : BoundValue :=
  match sk with
  | SK_S s => BoundText s
  | SK_N n => BoundText (encode_orderable_number n)
  | SK_B b => BoundBlob b
  end.

(** ** Lexicographic order of digit strings *)

Lemma list_cmp_app (a a' b b' : list ascii) :
  length a = length a' ->
  list_cmp (a ++ b) (a' ++ b') =
    match list_cmp a a' with Eq => list_cmp b b' | c => c end.
Proof.
  revert a'. induction a as [|x a IH]; intros [|y a'] Hl; try done. simpl.
  destruct (cmp x y); [|done|done]. apply IH. by injection Hl.
Qed.

Lemma digits_val_cons c l :
  digits_val (c :: l) = (digit_val c * 10 ^ N.of_nat (length l) + digits_val l)%N.
Proof. change (c :: l) with ([c] ++ l). by rewrite digits_val_app. Qed.

Lemma digit_cmp c d :
  is_digit c = true -> is_digit d = true -> cmp c d = N.compare (digit_val c) (digit_val d).
Proof.
  rewrite !is_digit_bound. intros Hc Hd. unfold cmp, ascii_ord, digit_val, byte in *.
  destruct (N.compare_spec (N_of_ascii c) (N_of_ascii d)) as [E|E|E]; symmetry.
  - apply N.compare_eq_iff. lia.
  - apply N.compare_lt_iff. lia.
  - apply N.compare_gt_iff. lia.
Qed.

(** Two numbers that agree in their last digit or are led by different ones. *)
Lemma lead_compare a b p u v :
  (u < p)%N -> (v < p)%N ->
  N.compare (a * p + u) (b * p + v) =
    match N.compare a b with Eq => N.compare u v | c => c end.
Proof.
  intros Hu Hv. destruct (N.compare_spec a b) as [->|Hlt|Hgt].
  - destruct (N.compare_spec u v) as [->|E|E];
      [apply N.compare_eq_iff | apply N.compare_lt_iff | apply N.compare_gt_iff]; lia.
  - apply N.compare_lt_iff. nia.
  - apply N.compare_gt_iff. nia.
Qed.

Lemma digits_cmp_length l k :
  forallb is_digit l = true -> forallb is_digit k = true -> length l = length k ->
  list_cmp l k = N.compare (digits_val l) (digits_val k).
Proof.
  revert k. induction l as [|c l IH]; intros [|d k] Hl Hk Hlen; try done.
  simpl in Hl, Hk, Hlen. bool_split. injection Hlen as Hlen.
  rewrite !digits_val_cons, Hlen. simpl.
  rewrite lead_compare, digit_cmp, IH by (try apply digits_val_lt; auto; rewrite <- Hlen; by apply digits_val_lt).
  done.
Qed.

Lemma compare_mul_r a b p : (0 < p)%N -> N.compare (a * p) (b * p) = N.compare a b.
Proof.
  intros Hp. destruct (N.compare_spec a b) as [->|E|E];
    [apply N.compare_eq_iff; done | apply N.compare_lt_iff; nia | apply N.compare_gt_iff; nia].
Qed.

(** The last digit of [l], if any, is not zero. *)
Definition no_trailing_zero (l : list ascii) : bool := no_leading_zero (reverse l).

Lemma no_trailing_zero_cons c l : no_trailing_zero (c :: l) = true -> no_trailing_zero l = true.
Proof.
  unfold no_trailing_zero. rewrite reverse_cons. by destruct (reverse l).
Qed.

Lemma no_trailing_zero_pos l :
  forallb is_digit l = true -> no_trailing_zero l = true -> l <> [] -> (0 < digits_val l)%N.
Proof.
  destruct l as [|c l _] using rev_ind; [done|]. unfold no_trailing_zero.
  rewrite forallb_app, reverse_snoc, digits_val_snoc. simpl. intros Hd Hz _. bool_split.
  apply negb_true_iff, Ascii.eqb_neq in Hz. assert (digit_val c <> 0%N); [|lia].
  intros E. apply Hz, digit_val_inj; [done|done|]. by rewrite E.
Qed.

(** Digit strings without trailing zeros compare as the fractions [0.l] and [0.k]. *)
Lemma digits_cmp_fraction l k :
  forallb is_digit l = true -> forallb is_digit k = true ->
  no_trailing_zero l = true -> no_trailing_zero k = true ->
  list_cmp l k = N.compare (digits_val l * 10 ^ N.of_nat (length k))
                           (digits_val k * 10 ^ N.of_nat (length l)).
Proof.
  revert k. induction l as [|c l IH]; intros [|d k] Hl Hk Zl Zk; [done| | |].
  - symmetry. apply N.compare_lt_iff. pose proof (no_trailing_zero_pos _ Hk Zk ltac:(done)).
    change (digits_val []) with 0%N. simpl. lia.
  - symmetry. apply N.compare_gt_iff. pose proof (no_trailing_zero_pos _ Hl Zl ltac:(done)).
    change (digits_val []) with 0%N. simpl. lia.
  - pose proof (no_trailing_zero_cons _ _ Zl). pose proof (no_trailing_zero_cons _ _ Zk).
    simpl in Hl, Hk. bool_split. rewrite !digits_val_cons. cbn [length list_cmp].
    rewrite !Nat2N.inj_succ, !N.pow_succ_r'. specialize (IH k ltac:(done) ltac:(done) ltac:(done) ltac:(done)).
    pose proof (digits_val_lt l ltac:(done)) as Bl. pose proof (digits_val_lt k ltac:(done)) as Bk.
    set (p := (10 ^ N.of_nat (length l))%N) in *. set (q := (10 ^ N.of_nat (length k))%N) in *.
    set (u := digits_val l) in *. set (v := digits_val k) in *.
    replace ((digit_val c * p + u) * (10 * q))%N with ((digit_val c * (p * q) + u * q) * 10)%N by lia.
    replace ((digit_val d * q + v) * (10 * p))%N with ((digit_val d * (p * q) + v * p) * 10)%N by lia.
    rewrite compare_mul_r, lead_compare, digit_cmp, IH by (lia || nia || done). done.
Qed.

(** Complementing the digits and closing with a high byte reverses the order. *)
Lemma complement_byte c : is_digit c = true -> byte (complement c) = (105 - byte c)%N.
Proof.
  rewrite is_digit_bound. intros Hc. unfold complement, byte in *.
  rewrite N_ascii_embedding; lia.
Qed.

Lemma complement_cmp l k :
  forallb is_digit l = true -> forallb is_digit k = true ->
  list_cmp (map complement l ++ [NEG_TERMINATOR]) (map complement k ++ [NEG_TERMINATOR]) =
    list_cmp k l.
Proof.
  assert (forall c, is_digit c = true -> (byte (complement c) < 58)%N) as Hb.
  { intros c Hc. rewrite complement_byte by done. apply is_digit_bound in Hc. lia. }
  revert k. induction l as [|c l IH]; intros [|d k] Hl Hk; [done| | |].
  - simpl in *. bool_split. unfold cmp at 1, ascii_ord.
    rewrite (proj2 (N.compare_gt_iff _ _)); [done|]. by apply Hb.
  - simpl in *. bool_split. unfold cmp at 1, ascii_ord.
    rewrite (proj2 (N.compare_lt_iff _ _)); [done|]. by apply Hb.
  - simpl in *. bool_split.
    assert (cmp (complement c) (complement d) = cmp d c) as ->.
    { unfold cmp, ascii_ord. change N_of_ascii with byte. rewrite !complement_byte by done.
      rewrite is_digit_bound in *.
      destruct (N.compare_spec (byte d) (byte c));
        [apply N.compare_eq_iff | apply N.compare_lt_iff | apply N.compare_gt_iff]; lia. }
    by rewrite IH.
Qed.

(** ** The order of canonical decimals *)

Lemma digits_val_ge sig : canonical sig -> (10 ^ (Z.of_nat (length sig) - 1) <= Z.of_N (digits_val sig)).
Proof.
  intros (Hd & Hne & Hl & _). destruct sig as [|c l]; [done|]. simpl in Hd, Hl. bool_split.
  apply negb_true_iff, Ascii.eqb_neq in Hl. rewrite digits_val_cons.
  assert (digit_val c <> 0%N).
  { intros E. apply Hl, digit_val_inj; [done|done|]. by rewrite E. }
  replace (Z.of_nat (length (c :: l)) - 1) with (Z.of_N (N.of_nat (length l))) by (simpl; lia).
  rewrite <- (N2Z.inj_pow 10). nia.
Qed.

Lemma digits_val_lt_Z l :
  forallb is_digit l = true -> Z.of_N (digits_val l) < 10 ^ Z.of_nat (length l).
Proof.
  intros Hd%digits_val_lt. rewrite <- nat_N_Z, <- (N2Z.inj_pow 10). lia.
Qed.

Lemma canonical_lt sig x sig' x' :
  canonical sig -> canonical sig' ->
  Z.of_nat (length sig) + x < Z.of_nat (length sig') + x' ->
  dec_cmp (Z.of_N (digits_val sig), x) (Z.of_N (digits_val sig'), x') = Lt.
Proof.
  intros Hc Hc' Hlt. set (e := Z.min x x').
  rewrite (dec_cmp_at e) by (simpl; lia). apply Z.compare_lt_iff. unfold dec_at. simpl.
  pose proof (digits_val_lt_Z sig (proj1 Hc)). pose proof (digits_val_ge sig' Hc').
  assert (0 < 10 ^ (x - e)) by (apply Z.pow_pos_nonneg; lia).
  assert (0 < 10 ^ (x' - e)) by (apply Z.pow_pos_nonneg; lia).
  assert (1 <= Z.of_nat (length sig')) by (destruct Hc' as (_ & ? & _), sig'; simpl; [done|lia]).
  apply Z.lt_le_trans with (10 ^ (Z.of_nat (length sig) + (x - e))).
  - rewrite Z.pow_add_r by lia. nia.
  - apply Z.le_trans with (10 ^ (Z.of_nat (length sig') - 1 + (x' - e))).
    + apply Z.pow_le_mono_r; lia.
    + rewrite Z.pow_add_r by lia. nia.
Qed.

(** Canonical decimals [0.sig * 10 ^ E] compare by [E] first, then by digits. *)
Lemma canonical_cmp sig x sig' x' :
  canonical sig -> canonical sig' ->
  dec_cmp (Z.of_N (digits_val sig), x) (Z.of_N (digits_val sig'), x') =
    match Z.compare (Z.of_nat (length sig) + x) (Z.of_nat (length sig') + x') with
    | Eq => list_cmp sig sig'
    | c => c
    end.
Proof.
  intros Hc Hc'. destruct (Z.compare_spec (Z.of_nat (length sig) + x) (Z.of_nat (length sig') + x'))
    as [E|E|E].
  - destruct Hc as (Hd & _ & _ & Hz), Hc' as (Hd' & _ & _ & Hz').
    rewrite digits_cmp_fraction by done.
    rewrite (dec_cmp_at (x - Z.of_nat (length sig'))) by (simpl; lia). unfold dec_at. simpl.
    rewrite <- (N2Z.inj_compare). rewrite !N2Z.inj_mul, !N2Z.inj_pow, !nat_N_Z.
    f_equal; do 2 f_equal; lia.
  - by apply canonical_lt.
  - rewrite dec_cmp_antisym, canonical_lt by done. done.
Qed.

(** ** Printed integers *)

Lemma digits_of_fuel_lead fuel n acc :
  (0 < n < 10 ^ N.of_nat fuel)%N -> no_leading_zero (digits_of_fuel fuel n acc) = true.
Proof.
  revert n acc. induction fuel as [|fuel IH]; intros n acc Hn; [simpl in Hn; lia|].
  rewrite Nat2N.inj_succ, N.pow_succ_r' in Hn. simpl. destruct (N.ltb_spec n 10).
  - simpl. apply negb_true_iff, Ascii.eqb_neq. intros E.
    destruct (digit_char_digit n) as [_ Hv]; [done|].
    rewrite N.mod_small in E by done. rewrite E in Hv. vm_compute in Hv. lia.
  - apply IH. split; [apply N.div_str_pos; lia|]. apply N.Div0.div_lt_upper_bound. lia.
Qed.

Lemma N_to_bytes_lead n : (0 < n)%N -> no_leading_zero (N_to_bytes n) = true.
Proof.
  intros Hn. unfold N_to_bytes. apply digits_of_fuel_lead. split; [done|].
  replace (N.of_nat (S (N.to_nat (N.log2 n)))) with (N.succ (N.log2 n)) by lia.
  destruct (N.log2_spec n Hn) as [_ Hlt]. eapply N.lt_le_trans; [exact Hlt|].
  apply N.pow_le_mono_l. lia.
Qed.

Lemma N_to_bytes_canonical n : (0 < n)%N -> (n mod 10 <> 0)%N -> canonical (N_to_bytes n).
Proof.
  intros Hn Hm. destruct (N_to_bytes_spec n) as (Hd & Hv & Hne).
  split; [done|]. split; [done|]. split; [by apply N_to_bytes_lead|].
  revert Hd Hv Hne. generalize (N_to_bytes n). intros l.
  destruct l as [|c l _] using rev_ind; [done|]. intros _ Hv _. rewrite reverse_snoc. simpl.
  apply negb_true_iff, Ascii.eqb_neq. intros ->. apply Hm. rewrite <- Hv, digits_val_snoc.
  change (digit_val "0") with 0%N. rewrite N.add_0_r. apply N.Div0.mod_mul.
Qed.

Lemma N_to_bytes_length n k :
  (0 < k)%nat -> (n < 10 ^ N.of_nat k)%N -> (length (N_to_bytes n) <= k)%nat.
Proof.
  intros Hk Hn. destruct (N.eq_dec n 0%N) as [->|H0]; [simpl; lia|].
  destruct (N_to_bytes_spec n) as (Hd & Hv & Hne).
  pose proof (N_to_bytes_lead n ltac:(lia)) as Hl.
  destruct (N_to_bytes n) as [|c l]; [done|]. simpl in Hd, Hl. bool_split.
  apply negb_true_iff, Ascii.eqb_neq in Hl. rewrite digits_val_cons in Hv.
  assert (digit_val c <> 0%N).
  { intros E. apply Hl, digit_val_inj; [done|done|]. by rewrite E. }
  assert (10 ^ N.of_nat (length l) < 10 ^ N.of_nat k)%N as Hlt by nia.
  apply N.pow_lt_mono_r_iff in Hlt; simpl; lia.
Qed.

Lemma format_width_spec z :
  0 <= z < 1000000 ->
  forallb is_digit (format_width EXP_WIDTH z) = true /\
  length (format_width EXP_WIDTH z) = 6%nat /\
  Z.of_N (digits_val (format_width EXP_WIDTH z)) = z.
Proof.
  intros Hz. destruct (N_to_bytes_spec (Z.to_N (Z.abs z))) as (Hd & Hv & _).
  pose proof (N_to_bytes_length (Z.to_N (Z.abs z)) 6 ltac:(lia) ltac:(simpl; lia)) as Hlen.
  unfold format_width, Z_to_bytes, sign_bytes. rewrite (proj2 (Z.ltb_ge z 0)) by lia. simpl.
  rewrite forallb_app, length_app, length_replicate, digits_replicate, Hd.
  rewrite digits_val_zeros_app, Hv by apply zeros_replicate. unfold EXP_WIDTH. lia.
Qed.

Lemma format_width_cmp y z :
  0 <= y < 1000000 -> 0 <= z < 1000000 ->
  list_cmp (format_width EXP_WIDTH y) (format_width EXP_WIDTH z) = Z.compare y z.
Proof.
  intros (Hd & Hl & Hv)%format_width_spec (Hd' & Hl' & Hv')%format_width_spec.
  rewrite digits_cmp_length by (done || congruence). by rewrite <- N2Z.inj_compare, Hv, Hv'.
Qed.

(** ** The text of a canonical decimal *)

Definition encoded (neg : bool) (sig : list ascii) (E : Z) : list ascii :=
  if neg then "0"%char :: format_width EXP_WIDTH (EXP_BIAS - E) ++
                map complement sig ++ [NEG_TERMINATOR]
  else "2"%char :: format_width EXP_WIDTH (EXP_BIAS + E) ++ sig.

Lemma dec_cmp_sign a b : (a.1 < 0 <= b.1 \/ a.1 <= 0 < b.1) -> dec_cmp a b = Lt.
Proof.
  intros Hs. unfold dec_cmp. apply Z.compare_lt_iff. unfold dec_at.
  assert (0 < 10 ^ (a.2 - Z.min a.2 b.2)) by (apply Z.pow_pos_nonneg; lia).
  assert (0 < 10 ^ (b.2 - Z.min a.2 b.2)) by (apply Z.pow_pos_nonneg; lia). nia.
Qed.

Lemma dec_cmp_opp m e m' e' : dec_cmp (- m, e) (- m', e') = dec_cmp (m', e') (m, e).
Proof.
  unfold dec_cmp. simpl. rewrite (Z.min_comm e' e). unfold dec_at. simpl.
  rewrite !Z.mul_opp_l. apply Z.compare_opp.
Qed.

Lemma bias_sub_compare a b c : Z.compare (a - b) (a - c) = Z.compare c b.
Proof.
  destruct (Z.compare_spec c b);
    [apply Z.compare_eq_iff | apply Z.compare_lt_iff | apply Z.compare_gt_iff]; lia.
Qed.

(** The texts of canonical decimals are ordered as the decimals. *)
Lemma encoded_cmp neg sig e neg' sig' e' :
  canonical sig -> canonical sig' ->
  -100000 <= Z.of_nat (length sig) + e <= 100000 ->
  -100000 <= Z.of_nat (length sig') + e' <= 100000 ->
  list_cmp (encoded neg sig (Z.of_nat (length sig) + e))
           (encoded neg' sig' (Z.of_nat (length sig') + e')) =
    dec_cmp (signed neg (digits_val sig), e) (signed neg' (digits_val sig'), e').
Proof.
  intros Hc Hc' HE HE'. pose proof (canonical_val_pos _ Hc). pose proof (canonical_val_pos _ Hc').
  assert (forall z, -100000 <= z <= 100000 -> length (format_width EXP_WIDTH (EXP_BIAS + z)) = 6%nat
    /\ length (format_width EXP_WIDTH (EXP_BIAS - z)) = 6%nat) as Hlen.
  { intros z Hz. unfold EXP_BIAS. split; apply format_width_spec; lia. }
  destruct (Hlen _ HE) as [L1 L2], (Hlen _ HE') as [L1' L2'].
  destruct neg, neg'; unfold encoded; cbn [list_cmp].
  - rewrite (cmp_refl "0"%char), list_cmp_app, format_width_cmp, complement_cmp
      by (unfold EXP_BIAS in *; apply Hc || apply Hc' || lia).
    unfold signed. rewrite dec_cmp_opp, canonical_cmp by done.
    by rewrite bias_sub_compare.
  - rewrite dec_cmp_sign by (simpl; lia). done.
  - rewrite dec_cmp_antisym, dec_cmp_sign by (simpl; lia). done.
  - rewrite (cmp_refl "2"%char), list_cmp_app, format_width_cmp by (unfold EXP_BIAS in *; lia).
    unfold signed. rewrite canonical_cmp by done.
    by rewrite Z.add_compare_mono_l.
Qed.

(** The decimals the encoder is made for: zero, and those whose exponent fits
    its field of six digits on either side of the bias. *)
Definition orderable (d : dec) : Prop :=
  d.1 = 0 \/
  exists neg sig e, canonical sig /\ dec_eq d (signed neg (digits_val sig), e) /\
    -100000 <= Z.of_nat (length sig) + e <= 100000.

Section Encoder.
Context {D : Type} `{HB : BigDecimal D} `{HL : !BigDecimalLaws D}
  `{HP : BigDecimalParts D} `{HPL : !BigDecimalPartsLaws D}.

Lemma encode_zero x : (bd_value x).1 = 0 -> encode_orderable_number x = "1".
Proof.
  intros H0%(dec_eq_zero_iff _ 0). apply bd_is_zero_value in H0.
  unfold encode_orderable_number. by rewrite H0.
Qed.

#[local] Instance dec_abs_proper : Proper (dec_eq ==> dec_eq) dec_abs.
Proof.
  intros a b Hab. rewrite (dec_eq_at (Z.min a.2 b.2)) in Hab |- * by (simpl; lia).
  unfold dec_at, dec_abs in *. simpl.
  assert (0 < 10 ^ (a.2 - Z.min a.2 b.2)) by (apply Z.pow_pos_nonneg; lia).
  assert (0 < 10 ^ (b.2 - Z.min a.2 b.2)) by (apply Z.pow_pos_nonneg; lia).
  rewrite <- (Z.abs_eq (10 ^ (a.2 - _))), <- (Z.abs_eq (10 ^ (b.2 - _))), <- !Z.abs_mul by lia.
  by rewrite Hab.
Qed.

Lemma negative_spec x neg sig e :
  canonical sig -> dec_eq (bd_value x) (signed neg (digits_val sig), e) ->
  bool_decide (bd_cmp x bd_zero = Lt) = neg.
Proof.
  intros Hc Hx. apply canonical_val_pos in Hc.
  rewrite bd_cmp_value, (dec_cmp_proper _ _ Hx _ _ bd_zero_value).
  rewrite (dec_cmp_at (Z.min e 0)) by (simpl; lia). unfold dec_at. simpl.
  assert (0 < 10 ^ (e - Z.min e 0)) by (apply Z.pow_pos_nonneg; lia).
  destruct neg; simpl.
  - apply bool_decide_eq_true. apply Z.compare_lt_iff. nia.
  - apply bool_decide_eq_false. rewrite Z.compare_lt_iff. nia.
Qed.

(** The mantissa and scale of the normalized magnitude. *)
Lemma parts_canonical x neg sig e m s :
  canonical sig -> dec_eq (bd_value x) (signed neg (digits_val sig), e) ->
  bd_as_bigint_and_exponent (bd_normalized (bd_abs x)) = (m, s) ->
  Z_to_bytes m = sig /\ s = - e.
Proof.
  intros Hc Hx Hp. pose proof (bd_parts_value _ _ _ Hp) as Hv.
  rewrite bd_normalized_value, bd_abs_value, Hx in Hv. unfold dec_abs in Hv. simpl in Hv.
  assert (Z.abs (signed neg (digits_val sig)) = Z.of_N (digits_val sig)) as Ha
    by (destruct neg; simpl; lia).
  rewrite Ha in Hv. pose proof (canonical_val_pos _ Hc).
  assert (0 < m) as Hm.
  { rewrite (dec_eq_at (Z.min e (- s))) in Hv by (simpl; lia). unfold dec_at in Hv. simpl in Hv.
    assert (0 < 10 ^ (e - Z.min e (- s))) by (apply Z.pow_pos_nonneg; lia).
    assert (0 < 10 ^ (- s - Z.min e (- s))) by (apply Z.pow_pos_nonneg; lia). nia. }
  assert (canonical (N_to_bytes (Z.to_N m))) as Hc'.
  { apply N_to_bytes_canonical; [lia|]. intros E. apply (bd_normalized_minimal _ _ _ Hp); [lia|].
    apply (f_equal Z.of_N) in E. rewrite N2Z.inj_mod, Z2N.id in E by lia. done. }
  destruct (N_to_bytes_spec (Z.to_N m)) as (_ & Hdv & _).
  assert ((false, sig, e) = (false, N_to_bytes (Z.to_N m), - s)) as [= Hs He].
  { apply canonical_unique; [done|done|]. simpl. by rewrite Hdv, Z2N.id by lia. }
  rewrite Hs.
  unfold Z_to_bytes, sign_bytes. rewrite (proj2 (Z.ltb_ge m 0)), Z.abs_eq by lia.
  split; [done|lia].
Qed.

Lemma encode_canonical x neg sig e :
  canonical sig -> dec_eq (bd_value x) (signed neg (digits_val sig), e) ->
  as_bytes (encode_orderable_number x) = encoded neg sig (Z.of_nat (length sig) + e).
Proof.
  intros Hc Hx. unfold encode_orderable_number. destruct (bd_is_zero x) eqn:Ez.
  { exfalso. apply bd_is_zero_value, dec_eq_zero_iff in Ez.
    exact (canonical_nonzero _ _ _ _ Hc Hx Ez). }
  rewrite (negative_spec x neg sig e Hc Hx).
  destruct (bd_as_bigint_and_exponent _) as [m s] eqn:Hp.
  destruct (parts_canonical _ _ _ _ _ _ Hc Hx Hp) as [-> ->]. unfold encoded.
  rewrite Z.sub_opp_r. destruct neg; apply as_bytes_of_bytes.
Qed.

Lemma encode_order x y :
  orderable (bd_value x) -> orderable (bd_value y) ->
  cmp (encode_orderable_number x) (encode_orderable_number y) = dec_cmp (bd_value x) (bd_value y).
Proof.
  assert (forall x y, (bd_value x).1 = 0 -> (exists neg sig e, canonical sig /\
      dec_eq (bd_value y) (signed neg (digits_val sig), e)) ->
    cmp (encode_orderable_number x) (encode_orderable_number y) =
      dec_cmp (bd_value x) (bd_value y)) as Hzero.
  { intros a b H0 (neg & sig & e & Hc & Hy). rewrite (encode_zero a H0).
    unfold cmp, string_ord, cmp, list_ord. rewrite (encode_canonical _ _ _ _ Hc Hy), Hy.
    apply canonical_val_pos in Hc. destruct neg; unfold encoded; simpl.
    - rewrite dec_cmp_antisym, dec_cmp_sign by (simpl; lia). done.
    - rewrite dec_cmp_sign by (simpl; lia). done. }
  intros [H0|(neg & sig & e & Hc & Hx & HE)] [H0'|(neg' & sig' & e' & Hc' & Hy & HE')].
  - rewrite !encode_zero by done. rewrite cmp_refl. symmetry.
    apply (dec_eq_zero_iff _ 0) in H0, H0'. change (dec_eq (bd_value x) (bd_value y)). by rewrite H0, H0'.
  - apply Hzero; [done|]. by exists neg', sig', e'.
  - rewrite cmp_antisym, dec_cmp_antisym, Hzero; [done|done|]. by exists neg, sig, e.
  - unfold cmp, string_ord, cmp, list_ord.
    rewrite (encode_canonical _ _ _ _ Hc Hx), (encode_canonical _ _ _ _ Hc' Hy), Hx, Hy.
    by apply encoded_cmp.
Qed.
End Encoder.

(** Valid numbers are orderable. *)
Lemma valid_orderable s o d :
  short s -> validate_and_normalize_number s = Ok o -> denotes s d -> orderable d.
Proof.
  intros Hs Ho Hd. destruct (validate_Ok_cases _ _ Hs Ho) as (d' & Hd' & Hcase).
  rewrite (denotes_unique _ _ _ Hd Hd'). destruct Hcase as [[H0 _]|(neg & sig & x & Hc & He & Hf)].
  { by left. }
  right. exists neg, sig, x. split; [done|]. split; [done|]. unfold finish in Hf.
  destruct (38 <? length sig)%nat; [done|].
  destruct (Z.ltb_spec 125 (Z.of_nat (length sig) - 1 + x)); [done|].
  destruct (Z.ltb_spec (Z.of_nat (length sig) - 1 + x) (-130)); [done|]. lia.
Qed.

#[export] Instance orderable_proper : Proper (dec_eq ==> iff) orderable.
Proof.
  assert (forall a b, dec_eq a b -> orderable a -> orderable b) as Himp.
  { intros a b Hab [H0|(neg & sig & e & Hc & He & HE)].
    - left. apply (dec_eq_zero_iff b 0). rewrite <- Hab. by apply dec_eq_zero_iff.
    - right. exists neg, sig, e. by rewrite <- Hab. }
  intros a b Hab. split; apply Himp; [done|by symmetry].
Qed.

(** The value the decimal parser reads from a normalised number. *)
Lemma parsed_value {D : Type} `{HB : BigDecimal D} `{HL : !BigDecimalLaws D} s s' (x : D) d :
  short s -> validate_and_normalize_number s = Ok s' -> bd_parse s' = Some x -> denotes s d ->
  dec_eq (bd_value x) d.
Proof.
  intros Hs Vs Px Hd. destruct (number_value_preserved_aux _ _ Hs Vs) as (d1 & d2 & H1 & H2 & E).
  rewrite (denotes_unique _ _ _ Hd H1), E. destruct (bd_parse_value _ _ H2) as (z & Hz & Ez).
  by simplify_eq.
Qed.

Lemma valid_parsed_orderable {D : Type} `{HB : BigDecimal D} `{HL : !BigDecimalLaws D} s s' (x : D) d :
  short s -> validate_and_normalize_number s = Ok s' -> bd_parse s' = Some x -> denotes s d ->
  orderable (bd_value x).
Proof.
  intros Hs Vs Px Hd. rewrite (parsed_value s s' x d) by done. by eapply valid_orderable.
Qed.

(** ** The instance of exact values *)

Fixpoint strip_zeros (fuel : nat) (m e : Z) : dec :=
  match fuel with
  | O => (m, e)
  | S f => if m mod 10 =? 0 then strip_zeros f (m / 10) (e + 1) else (m, e)
  end.

Definition dec_normalized (d : dec) : dec :=
  if d.1 =? 0 then (0, 0) else strip_zeros (S (Z.to_nat (Z.log2 (Z.abs d.1)))) d.1 d.2.

#[export] Instance dec_parts : BigDecimalParts dec := {
  bd_is_zero := fun d => d.1 =? 0;
  bd_zero := (0, 0);
  bd_abs := dec_abs;
  bd_normalized := dec_normalized;
  bd_as_bigint_and_exponent := fun d => (d.1, - d.2)
}.

Lemma strip_zeros_spec fuel m e :
  0 < Z.abs m < 2 ^ Z.of_nat fuel ->
  dec_eq (strip_zeros fuel m e) (m, e) /\ (strip_zeros fuel m e).1 mod 10 <> 0.
Proof.
  revert m e. induction fuel as [|fuel IH]; intros m e Hm; [simpl in Hm; lia|]. cbn [strip_zeros].
  destruct (Z.eqb_spec (m mod 10) 0) as [E|E]; [|done].
  pose proof (Z.div_mod m 10 ltac:(lia)) as Hdm.
  rewrite Nat2Z.inj_succ, Z.pow_succ_r in Hm by lia.
  destruct (IH (m / 10) (e + 1)) as [Heq Hmod]; [lia|]. split; [|done].
  rewrite Heq. rewrite (dec_eq_at e) by (simpl; lia). unfold dec_at. simpl.
  replace (e + 1 - e) with 1 by lia. rewrite Z.sub_diag. lia.
Qed.

#[export] Instance dec_parts_laws : BigDecimalPartsLaws dec.
Proof.
  assert (forall d, d.1 <> 0 -> dec_eq (dec_normalized d) d /\ (dec_normalized d).1 mod 10 <> 0) as Hn.
  { intros [m e] Hm. simpl in Hm. unfold dec_normalized. cbn [fst snd]. rewrite (proj2 (Z.eqb_neq m 0)) by done.
    apply strip_zeros_spec. split; [lia|].
    destruct (Z.log2_spec (Z.abs m)) as [_ Hlt]; [lia|].
    rewrite Nat2Z.inj_succ, Z2Nat.id by apply Z.log2_nonneg. done. }
  split.
  - intros x. simpl. rewrite Z.eqb_eq. symmetry. apply dec_eq_zero_iff.
  - done.
  - done.
  - intros x. simpl. destruct (Z.eq_dec x.1 0) as [E|E]; [|by apply Hn].
    unfold dec_normalized. rewrite (proj2 (Z.eqb_eq _ _) E). symmetry. by apply dec_eq_zero_iff.
  - intros x m s. simpl. intros [= <- _] Hm. apply Hn. intros E. apply Hm.
    unfold dec_normalized. by rewrite (proj2 (Z.eqb_eq _ _) E).
  - intros [m' e] m s. simpl. intros [= <- <-]. by rewrite Z.opp_involutive.
Qed.

(** C23. The text a valid number is stored under in a sort key column orders by
    bytes as the numbers do by value: it is smaller, equal or greater exactly when
    the number is, whatever the sign, the magnitude and the number of digits. *)
Theorem number_key_order {D : Type} `{HB : BigDecimal D} `{HL : !BigDecimalLaws D}
    `{HP : BigDecimalParts D} `{HPL : !BigDecimalPartsLaws D}
    (s t s' t' : string) (x y : D) (d e : dec) :
  short s -> short t ->
  validate_and_normalize_number s = Ok s' -> validate_and_normalize_number t = Ok t' ->
  bd_parse s' = Some x -> bd_parse t' = Some y -> denotes s d -> denotes t e ->
  cmp (encode_orderable_number x) (encode_orderable_number y) = dec_cmp d e.
Proof.
  intros Hs Ht Vs Vt Px Py Hd He.
  rewrite (encode_order x y)
    by (exact (valid_parsed_orderable s s' x d Hs Vs Px Hd) ||
        exact (valid_parsed_orderable t t' y e Ht Vt Py He)).
  by rewrite (parsed_value s s' x d), (parsed_value t t' y e) by done.
Qed.

Lemma number_key_order_witness :
  cmp (encode_orderable_number (D := dec) (-125, -1)) (encode_orderable_number (D := dec) (-12, 0)) =
    dec_cmp (-125, -1) (-12, 0).
Proof.
  apply (number_key_order "-12.5" "-12" "-12.5" "-12"); [vm_compute; reflexivity..| |].
  - apply read_dec_iff. vm_compute. reflexivity.
  - apply read_dec_iff. vm_compute. reflexivity.
Defined.
