(* ===== verification/KeyOrder.v ===== *)
(** * The key order of backups

    [crates/core/src/backup_format/key_order.rs]: the order of items by their keys
    that a key-ordered backup promises, the checks a key passes before it is
    recorded, and the two views of a key (borrowed and held) that the writer and
    the reader of data files compare.  How messages render text ([truncated],
    [Debug], the JSON of a key) is a parameter. *)

From S2P Require Import Prelude BTree Types Error Decimal Number Storage StorageKey NumberKey.

(** ** Messages *)

(** [truncated], [format!] with [{:?}] of a text, [serde_json::to_string] of a key
    item, and the text of the decimal parser's error. *)
Class Rendering : Type := {
  truncated : string -> string;
  debug : string -> string;
  key_json : Item -> string;
  parse_error : string -> string
}.

(** [FormatError]; a JSON error is its message. *)
Inductive FormatError : Type :=
  | UnsupportedFormatVersion (found supported : N)
  | ChecksumMismatch (subject expected computed : string)
  | ItemCountMismatch (expected actual : N)
  | ByteCountMismatch (expected actual : N)
  | CompressedSizeMismatch (expected actual : N)
  | InvalidArn (reason : string)
  | Json (message : string)
  | LineTooLong (cap : N)
  | InvalidDataFileKey (key reason : string)
  | InvalidDataFileEntry (key reason : string)
  | KeyOrderViolation (reason : string)
  | Encode (reason : string)
  | Decode (reason : string)
  | UnorderableKeySchema (reason : string)
  | InvalidKey (reason : string)
  | InvalidManifest (reason : string).

(** A function returns an error or reaches an [expect] or [unreachable!] that fails. *)
Inductive format_fault : Type :=
  | Refused (e : FormatError)
  | Panicked.

Definition fres (A : Type) : Type := result format_fault A.

Definition invalid_key {A : Type} (reason : string) : fres A := Err (Refused (InvalidKey reason)).
Definition unorderable {A : Type} (reason : string) : fres A :=
  Err (Refused (UnorderableKeySchema reason)).

(** [{:?}] of a [ScalarAttributeType]. *)
Definition type_name (ty : ScalarAttributeType) : string :=
  match ty with
  | Scalar_S => "S"
  | Scalar_N => "N"
  | Scalar_B => "B"
  end.

(** [str::strip_suffix]. *)
Definition strip_suffix (suffix s : string) : option string :=
  let n := String.length s - String.length suffix in
  if (String.length suffix <=? String.length s) && String.eqb (substring n (String.length suffix) s) suffix
  then Some (substring 0 n s) else None.

Section Order.
Context `{HR : Rendering} `{HB : Base64} {D : Type} `{HD : BigDecimal D}.

(** [shown()]: an untrusted text in a message. *)
Definition shown (s : string) : string := debug (truncated s).

(** ** The key shape of a table *)

Record KeyOrder : Type := {
  ko_hash : string * ScalarAttributeType;
  ko_range : option (string * ScalarAttributeType)
}.

Definition type_of (attribute_definitions : list AttributeDefinition) (name : string)
    : fres ScalarAttributeType :=
  match List.filter (fun d => String.eqb (ad_attribute_name d) name) attribute_definitions with
  | [] => unorderable ("key attribute " +:+ shown name +:+ " has no attribute definition")
  | [d] => Ok (ad_attribute_type d)
  | _ => unorderable ("key attribute " +:+ shown name +:+ " has more than one attribute definition")
  end.

Fixpoint resolve_loop (defs : list AttributeDefinition)
    (hash range : option (string * ScalarAttributeType)) (key_schema : list KeySchemaElement)
    : fres (option (string * ScalarAttributeType) * option (string * ScalarAttributeType)) :=
  match key_schema with
  | [] => Ok (hash, range)
  | element :: rest =>
      if bool_decide (ks_key_type element = Range) && bool_decide (hash = None) then
        unorderable "the range key is listed before the hash key"
      else
        let slot := match ks_key_type element with Hash => hash | Range => range end in
        if negb (bool_decide (slot = None)) then
          unorderable "multi-part keys have no format-defined order"
        else
          let? ty := type_of defs (ks_attribute_name element) in
          match ks_key_type element with
          | Hash => resolve_loop defs (Some (ks_attribute_name element, ty)) range rest
          | Range => resolve_loop defs hash (Some (ks_attribute_name element, ty)) rest
          end
  end.

Definition resolve (key_schema : list KeySchemaElement)
    (attribute_definitions : list AttributeDefinition) : fres KeyOrder :=
  let? (hash, range) := resolve_loop attribute_definitions None None key_schema in
  match hash with
  | None => unorderable "key schema has no hash key"
  | Some hash =>
      match range with
      | Some (name, _) =>
          if String.eqb name hash.1 then
            unorderable ("the range key and the hash key are both " +:+ shown hash.1)
          else Ok {| ko_hash := hash; ko_range := range |}
      | None => Ok {| ko_hash := hash; ko_range := range |}
      end
  end.

(** [attribute_names], with the types: the hash key, then the range key. *)
Definition key_attributes (order : KeyOrder) : list (string * ScalarAttributeType) :=
  ko_hash order :: match ko_range order with Some r => [r] | None => [] end.

(** ** Values of keys *)

Definition number_reason (n : string) (e : DynamoDbError) : string :=
  let reason := error_message e in
  match strip_suffix n reason with
  | Some rest => default rest (strip_suffix ": " rest)
  | None => reason
  end.

Definition check_key_value (name : string) (ty : ScalarAttributeType) (value : AttributeValue)
    : fres unit :=
  let empty := match value with
               | AV_S s => bool_decide (s = "")
               | AV_B b => bool_decide (b = [])
               | _ => false
               end in
  if empty then invalid_key ("key attribute " +:+ shown name +:+ " is empty")
  else
    match scalar_type value with
    | None => invalid_key ("key attribute " +:+ shown name +:+ " is not a scalar S, N or B")
    | Some actual =>
        if bool_decide (actual <> ty) then
          invalid_key ("key attribute " +:+ shown name +:+ " is " +:+ type_name actual +:+
            ", the schema declares " +:+ type_name ty)
        else
          match value with
          | AV_N n =>
              match validate_and_normalize_number n with
              | Err (Fail e) =>
                  invalid_key ("key attribute " +:+ shown name +:+ " value " +:+ shown n +:+
                    " is not a valid number: " +:+ number_reason n e)
              | Err _ => Err Panicked
              | Ok normalized =>
                  if String.eqb normalized n then Ok tt
                  else invalid_key ("key attribute " +:+ shown name +:+ " value " +:+ shown n +:+
                    " is not in normalized form (" +:+ shown normalized +:+ ")")
              end
          | _ => Ok tt
          end
    end.

(** An [N] range key value as a decimal, for comparison. *)
Definition parse_number (name n : string) : fres D :=
  match bd_parse n with
  | Some d => Ok d
  | None => invalid_key ("range key " +:+ shown name +:+ " value " +:+ shown n +:+ ": " +:+
      truncated (parse_error n))
  end.

Definition hash_text (item : Item) (hash : string * ScalarAttributeType) : fres string :=
  let '(name, ty) := hash in
  match bt_get name item with
  | None => invalid_key ("hash key " +:+ shown name +:+ " missing")
  | Some value =>
      match scalar_type value with
      | None => invalid_key ("hash key " +:+ shown name +:+ " is not a scalar S, N or B")
      | Some actual =>
          if bool_decide (actual <> ty) then
            invalid_key ("hash key " +:+ shown name +:+ " is " +:+ type_name actual +:+
              ", the schema declares " +:+ type_name ty)
          else match hash_key_text value with Some t => Ok t | None => Err Panicked end
      end
  end.

(** ** Keys of items *)

(** [validate_key_item]: exactly the key attributes, each with a valid value. *)
Definition validate_key_item (order : KeyOrder) (key : Item) : fres unit :=
  let expected := length (key_attributes order) in
  if negb (length key =? expected) then
    invalid_key ("key has " +:+ nat_to_string (length key) +:+
      " attributes, the key schema has " +:+ nat_to_string expected)
  else
    for_each (fun attr =>
      match bt_get attr.1 key with
      | None => invalid_key ("key attribute " +:+ shown attr.1 +:+ " missing")
      | Some value => check_key_value attr.1 attr.2 value
      end) (key_attributes order).

Definition key_item (order : KeyOrder) (hash : AttributeValue) (range : option AttributeValue) : Item :=
  let key := bt_insert (ko_hash order).1 hash [] in
  match ko_range order, range with
  | Some (name, _), Some value => bt_insert name value key
  | _, _ => key
  end.

Definition value_of (item : Item) (name : string) : fres AttributeValue :=
  match bt_get name item with
  | Some value => Ok value
  | None => invalid_key ("item has no key attribute " +:+ shown name)
  end.

Definition range_value_of (order : KeyOrder) (item : Item) : fres (option AttributeValue) :=
  match ko_range order with
  | Some (name, _) => let? value := value_of item name in Ok (Some value)
  | None => Ok None
  end.

Definition key_values (order : KeyOrder) (item : Item)
    : fres (AttributeValue * option AttributeValue) :=
  let? hash := value_of item (ko_hash order).1 in
  let? range := range_value_of order item in
  let checked :=
    let? _ := check_key_value (ko_hash order).1 (ko_hash order).2 hash in
    match ko_range order, range with
    | Some (name, ty), Some value => check_key_value name ty value
    | _, _ => Ok tt
    end in
  match checked with
  | Ok _ => Ok (hash, range)
  | Err (Refused (InvalidKey reason)) =>
      invalid_key ("item key " +:+ truncated (key_json (key_item order hash range)) +:+
        " cannot be a key_range endpoint: " +:+ reason)
  | Err other => Err other
  end.

Definition endpoint_key (order : KeyOrder) (item : Item) : fres Item :=
  let? (hash, range) := key_values order item in
  Ok (key_item order hash range).

(** [KeyOrder::compare]. *)
Definition compare (order : KeyOrder) (a b : Item) : fres comparison :=
  let? ha := hash_text a (ko_hash order) in
  let? hb := hash_text b (ko_hash order) in
  match cmp ha hb with
  | Eq =>
      match ko_range order with
      | None => Ok Eq
      | Some (name, ty) =>
          let missing := "range key " +:+ shown name +:+ " missing" in
          match bt_get name a, bt_get name b with
          | None, _ | _, None => invalid_key missing
          | Some ra, Some rb =>
              match ty, ra, rb with
              | Scalar_S, AV_S x, AV_S y => Ok (cmp x y)
              | Scalar_B, AV_B x, AV_B y => Ok (cmp x y)
              | Scalar_N, AV_N x, AV_N y =>
                  let? x := parse_number name x in
                  let? y := parse_number name y in
                  Ok (bd_cmp x y)
              | _, _, _ => invalid_key ("range key " +:+ shown name +:+
                  " does not match its declared type " +:+ type_name ty)
              end
          end
      end
  | other => Ok other
  end.

(** ** Checked and held keys *)

Inductive RangeKey : Type :=
  | RK_S (s : string)
  | RK_B (b : bytes)
  | RK_N (n : string) (d : D).

Record CheckedKey : Type := {
  ck_hash : AttributeValue;
  ck_hash_text : string;
  ck_range : option RangeKey
}.

Definition checked_range (order : KeyOrder) (range : option AttributeValue)
    : fres (option RangeKey) :=
  match ko_range order, range with
  | Some (name, _), Some value =>
      match value with
      | AV_S s => Ok (Some (RK_S s))
      | AV_B b => Ok (Some (RK_B b))
      | AV_N n => let? d := parse_number name n in Ok (Some (RK_N n d))
      | _ => Err Panicked
      end
  | _, _ => Ok None
  end.

Definition checked_key (order : KeyOrder) (item : Item) : fres CheckedKey :=
  let? (hash, range) := key_values order item in
  let? range := checked_range order range in
  match hash_key_text hash with
  | Some text => Ok {| ck_hash := hash; ck_hash_text := text; ck_range := range |}
  | None => Err Panicked
  end.

Definition bool_cmp (a b : bool) : comparison :=
  match a, b with
  | false, true => Lt
  | true, false => Gt
  | _, _ => Eq
  end.

Definition range_cmp (x y : option RangeKey) : comparison :=
  match x, y with
  | Some (RK_S x), Some (RK_S y) => cmp x y
  | Some (RK_B x), Some (RK_B y) => cmp x y
  | Some (RK_N _ x), Some (RK_N _ y) => bd_cmp x y
  | x, y => bool_cmp (is_some x) (is_some y)
  end.

(** [CheckedKey::cmp]. *)
Definition checked_cmp (k l : CheckedKey) : comparison :=
  match cmp (ck_hash_text k) (ck_hash_text l) with
  | Eq => range_cmp (ck_range k) (ck_range l)
  | c => c
  end.

Inductive HeldRange : Type :=
  | HR_S (s : string)
  | HR_B (b : bytes)
  | HR_N (n : string) (d : D).

Record HeldKey : Type := {
  hk_hash : AttributeValue;
  hk_hash_b64 : option string;
  hk_range : option HeldRange
}.

Definition held_range_new (range : RangeKey) : HeldRange :=
  match range with
  | RK_S s => HR_S s
  | RK_B b => HR_B b
  | RK_N n d => HR_N n d
  end.

Definition is_binary (value : AttributeValue) : bool :=
  match value with AV_B _ => true | _ => false end.

Definition held_key_new (key : CheckedKey) : HeldKey :=
  {| hk_hash := ck_hash key;
     hk_hash_b64 := if is_binary (ck_hash key) then Some (ck_hash_text key) else None;
     hk_range := held_range_new <$> ck_range key |}.

(** [HeldKey::assign], each place overwritten as the source does. *)
Definition held_key_assign (self : HeldKey) (key : CheckedKey) : HeldKey :=
  {| hk_hash :=
       match hk_hash self, ck_hash key with
       | AV_S _, AV_S src => AV_S src
       | AV_N _, AV_N src => AV_N src
       | AV_B _, AV_B src => AV_B src
       | _, src => src
       end;
     hk_hash_b64 :=
       match hk_hash_b64 self, is_binary (ck_hash key) with
       | Some _, true => Some (ck_hash_text key)
       | _, binary => if binary then Some (ck_hash_text key) else None
       end;
     hk_range :=
       match hk_range self, ck_range key with
       | Some (HR_S _), Some (RK_S src) => Some (HR_S src)
       | Some (HR_B _), Some (RK_B src) => Some (HR_B src)
       | Some (HR_N _ _), Some (RK_N src parsed) => Some (HR_N src parsed)
       | _, src => held_range_new <$> src
       end |}.

Definition range_as_checked (r : HeldRange) : RangeKey :=
  match r with
  | HR_S s => RK_S s
  | HR_B b => RK_B b
  | HR_N n d => RK_N n d
  end.

Definition as_checked (self : HeldKey) : CheckedKey :=
  {| ck_hash := hk_hash self;
     ck_hash_text :=
       match hk_hash_b64 self, hk_hash self with
       | Some text, _ => text
       | None, AV_S s | None, AV_N s => s
       | None, _ => ""
       end;
     ck_range := range_as_checked <$> hk_range self |}.

Definition held_value (range : HeldRange) : AttributeValue :=
  match range with
  | HR_S s => AV_S s
  | HR_B b => AV_B b
  | HR_N n _ => AV_N n
  end.

Definition held_to_item (self : HeldKey) (order : KeyOrder) : Item :=
  let key := bt_insert (ko_hash order).1 (hk_hash self) [] in
  match ko_range order, hk_range self with
  | Some (name, _), Some range => bt_insert name (held_value range) key
  | _, _ => key
  end.
End Order.

Arguments RangeKey D : clear implicits.
Arguments CheckedKey D : clear implicits.
Arguments HeldRange D : clear implicits.
Arguments HeldKey D : clear implicits.

(** ** What a checked key is *)

Section CheckedKeys.
Context `{HR : Rendering} `{HB : Base64} {D : Type} `{HD : BigDecimal D}.

Lemma check_key_value_Ok name ty value :
  check_key_value name ty value = Ok tt ->
  scalar_type value = Some ty /\ (forall n, value = AV_N n -> validate_and_normalize_number n = Ok n).
Proof.
  unfold check_key_value, invalid_key. destruct (match value with AV_S _ => _ | _ => _ end); [done|].
  destruct (scalar_type value) as [actual|] eqn:Es; [|done].
  case_bool_decide as Hty; [done|]. subst actual. intros Hv. split; [done|].
  intros n ->. destruct (validate_and_normalize_number n) as [o|[]]; try done.
  destruct (String.eqb_spec o n); [congruence|done].
Qed.

(** A range value and the checked form of it. *)
Inductive range_view : AttributeValue -> RangeKey D -> Prop :=
  | view_S s : range_view (AV_S s) (RK_S s)
  | view_B b : range_view (AV_B b) (RK_B b)
  | view_N n d : bd_parse n = Some d -> range_view (AV_N n) (RK_N n d).

(** [k] is the checked key of an item with hash value [hv] and range value [rv]. *)
Definition key_view (order : KeyOrder) (item : Item) (k : CheckedKey D) (rv : option AttributeValue)
    : Prop :=
  bt_get (ko_hash order).1 item = Some (ck_hash k) /\
  check_key_value (ko_hash order).1 (ko_hash order).2 (ck_hash k) = Ok tt /\
  hash_key_text (ck_hash k) = Some (ck_hash_text k) /\
  match ko_range order with
  | None => rv = None /\ ck_range k = None
  | Some (name, ty) => exists v r, rv = Some v /\ ck_range k = Some r /\
      bt_get name item = Some v /\ check_key_value name ty v = Ok tt /\ range_view v r
  end.

Lemma key_values_Ok order item hv rv :
  key_values order item = Ok (hv, rv) ->
  bt_get (ko_hash order).1 item = Some hv /\
  check_key_value (ko_hash order).1 (ko_hash order).2 hv = Ok tt /\
  match ko_range order with
  | None => rv = None
  | Some (name, ty) => exists v, rv = Some v /\ bt_get name item = Some v /\
      check_key_value name ty v = Ok tt
  end.
Proof.
  unfold key_values, range_value_of, value_of, invalid_key.
  destruct (bt_get (ko_hash order).1 item) as [h|]; [|done].
  destruct (ko_range order) as [[name ty]|].
  - destruct (bt_get name item) as [v|]; [|done]. cbn.
    destruct (check_key_value _ _ h) as [[]|[[]|]] eqn:E1; try done.
    destruct (check_key_value name ty v) as [[]|[[]|]] eqn:E2; try done.
    intros [= <- <-]. eauto 10.
  - cbn. destruct (check_key_value _ _ h) as [[]|[[]|]] eqn:E1; try done. intros [= <- <-]. auto.
Qed.

Lemma checked_key_view order item k :
  checked_key order item = Ok k -> exists rv, key_values order item = Ok (ck_hash k, rv) /\
    key_view order item k rv.
Proof.
  unfold checked_key. destruct (key_values order item) as [[hv rv]|] eqn:E; [|done].
  pose proof (key_values_Ok _ _ _ _ E) as (Hh & Hc & Hr). unfold checked_range, parse_number, invalid_key.
  destruct (ko_range order) as [[name ty]|] eqn:Er.
  - destruct Hr as (v & -> & Hv & Hcv).
    destruct (check_key_value_Ok _ _ _ Hcv) as [Hs _].
    destruct v; try done; cbn.
    all: try destruct (bd_parse n) eqn:Ep; cbn; try done.
    all: destruct (hash_key_text hv) as [t|] eqn:Et; [|done]; intros [= <-]; simpl;
      eexists; split; [done|]; unfold key_view; simpl; rewrite Er;
      repeat split; try done; repeat eexists; eauto using range_view.
  - subst rv. cbn. destruct (hash_key_text hv) as [t|] eqn:Et; [|done]. intros [= <-].
    exists None. split; [done|]. unfold key_view. simpl. by rewrite Er.
Qed.

(** [endpoint_key] keeps the values the checked key holds. *)
Lemma endpoint_key_view order item k :
  checked_key order item = Ok k -> exists rv, endpoint_key order item = Ok (key_item order (ck_hash k) rv) /\
    key_view order item k rv.
Proof.
  intros (rv & Hk & Hv)%checked_key_view. exists rv. split; [|done]. unfold endpoint_key. by rewrite Hk.
Qed.

Lemma hash_key_text_scalar v t : hash_key_text v = Some t -> scalar_type v <> None.
Proof. by destruct v. Qed.

Lemma hash_text_view order item k rv :
  key_view order item k rv -> hash_text item (ko_hash order) = Ok (ck_hash_text k).
Proof.
  intros (Hh & Hc & Ht & _). unfold hash_text. destruct (ko_hash order) as [name ty]. simpl in *.
  rewrite Hh. destruct (check_key_value_Ok _ _ _ Hc) as [-> _].
  rewrite bool_decide_eq_false_2 by naive_solver. by rewrite Ht.
Qed.

(** The compare that a caller asks for with items is the compare of their checked
    keys. *)
Lemma compare_checked order a b ka kb :
  checked_key order a = Ok ka -> checked_key order b = Ok kb ->
  compare order a b = Ok (checked_cmp ka kb).
Proof.
  intros (ra & _ & Va)%checked_key_view (rb & _ & Vb)%checked_key_view.
  unfold compare, checked_cmp. rewrite (hash_text_view _ _ _ _ Va), (hash_text_view _ _ _ _ Vb).
  destruct (cmp (ck_hash_text ka) (ck_hash_text kb)); try done.
  destruct Va as (_ & _ & _ & Ra), Vb as (_ & _ & _ & Rb).
  destruct (ko_range order) as [[name ty]|].
  - destruct Ra as (va & xa & _ & -> & -> & Ca & Wa), Rb as (vb & xb & _ & -> & -> & Cb & Wb).
    apply check_key_value_Ok in Ca as [Sa _], Cb as [Sb _]. unfold parse_number.
    destruct Wa as [| |n d Hd], Wb as [| |n' d' Hd']; simpl in Sa, Sb; simplify_eq; try done.
    by rewrite Hd, Hd'.
  - by destruct Ra as [_ ->], Rb as [_ ->].
Qed.
End CheckedKeys.

(** ** The order on keys *)

Definition shape {D : Type} (r : option (RangeKey D)) : option ScalarAttributeType :=
  match r with
  | None => None
  | Some (RK_S _) => Some Scalar_S
  | Some (RK_B _) => Some Scalar_B
  | Some (RK_N _ _) => Some Scalar_N
  end.

(** The number texts of an item are shorter than any memory. *)
Definition short_numbers (item : Item) : Prop :=
  forall name n, bt_get name item = Some (AV_N n) -> short n.

Section OrderLaws.
Context `{HR : Rendering} `{HB : Base64} `{HBL : !Base64Laws}
  {D : Type} `{HD : BigDecimal D} `{HDL : !BigDecimalLaws D}.

Lemma resolve_loop_hash defs hash range schema hash' range' :
  resolve_loop defs hash range schema = Ok (hash', range') -> hash <> None -> hash' <> None.
Proof.
  revert hash range. induction schema as [|e schema IH]; intros hash range; simpl; [congruence|].
  destruct (_ && _); [done|]. destruct (negb _); [done|].
  destruct (type_of defs _) as [ty|]; [|done]. destruct (ks_key_type e); intros H Hne; eapply IH; eauto.
Qed.

Lemma resolve_distinct schema defs order name ty :
  resolve schema defs = Ok order -> ko_range order = Some (name, ty) -> name <> (ko_hash order).1.
Proof.
  unfold resolve. destruct (resolve_loop _ _ _ _) as [[[h|] [[n t]|]]|]; try done.
  - destruct (String.eqb_spec n h.1); [done|]. intros [= <-]. simpl. by intros [= <- <-].
  - intros [= <-]. done.
Qed.

Lemma view_shape order item (k : CheckedKey D) rv :
  key_view order item k rv -> shape (ck_range k) = snd <$> ko_range order.
Proof.
  intros (_ & _ & _ & Hr). destruct (ko_range order) as [[name ty]|]; simpl.
  - destruct Hr as (v & r & _ & -> & _ & Hc & Hw). apply check_key_value_Ok in Hc as [Hs _].
    destruct Hw; simpl in *; congruence.
  - by destruct Hr as [_ ->].
Qed.

Lemma bd_cmp_antisym (x y : D) : bd_cmp y x = CompOpp (bd_cmp x y).
Proof. rewrite !bd_cmp_value. apply dec_cmp_antisym. Qed.

Lemma range_cmp_antisym (x y : option (RangeKey D)) :
  shape x = shape y -> range_cmp y x = CompOpp (range_cmp x y).
Proof.
  destruct x as [[| |]|], y as [[| |]|]; simpl; try done; intros _.
  - apply cmp_antisym.
  - apply cmp_antisym.
  - apply bd_cmp_antisym.
Qed.

Lemma range_cmp_trans (x y z : option (RangeKey D)) :
  shape x = shape y -> shape y = shape z ->
  range_cmp x y = Lt -> range_cmp y z = Lt -> range_cmp x z = Lt.
Proof.
  destruct x as [[| |]|], y as [[| |]|], z as [[| |]|]; simpl; try done; intros _ _.
  - apply cmp_lt_trans.
  - apply cmp_lt_trans.
  - rewrite !bd_cmp_value. apply dec_cmp_lt_trans.
Qed.

Lemma checked_cmp_antisym (k l : CheckedKey D) :
  shape (ck_range k) = shape (ck_range l) -> checked_cmp l k = CompOpp (checked_cmp k l).
Proof.
  intros Hs. unfold checked_cmp. rewrite (cmp_antisym (ck_hash_text k)).
  destruct (cmp (ck_hash_text k) _); simpl; [|done|done]. by apply range_cmp_antisym.
Qed.

Lemma checked_cmp_trans (k l m : CheckedKey D) :
  shape (ck_range k) = shape (ck_range l) -> shape (ck_range l) = shape (ck_range m) ->
  checked_cmp k l = Lt -> checked_cmp l m = Lt -> checked_cmp k m = Lt.
Proof.
  intros Hkl Hlm. unfold checked_cmp.
  destruct (cmp (ck_hash_text k) (ck_hash_text l)) eqn:E1; try done.
  - apply cmp_eq_iff in E1 as ->. destruct (cmp (ck_hash_text l) _); try done.
    by apply range_cmp_trans.
  - intros _. destruct (cmp (ck_hash_text l) (ck_hash_text m)) eqn:E2; try done; intros _.
    + apply cmp_eq_iff in E2 as <-. by rewrite E1.
    + by rewrite (cmp_lt_trans _ _ _ E1 E2).
Qed.

(** Normalised numbers of equal value are the same text. *)
Lemma normalized_number_eq n m (x y : D) :
  short n -> short m ->
  validate_and_normalize_number n = Ok n -> validate_and_normalize_number m = Ok m ->
  bd_parse n = Some x -> bd_parse m = Some y -> bd_cmp x y = Eq -> n = m.
Proof.
  intros Hn Hm Vn Vm Px Py Hc. rewrite bd_cmp_value in Hc.
  destruct (validate_Ok_cases _ _ Hn Vn) as (d & Hd & _).
  destruct (validate_Ok_cases _ _ Hm Vm) as (e & He & _).
  assert (dec_eq d e) as Heq.
  { rewrite <- (parsed_value n n x d), <- (parsed_value m m y e) by done. exact Hc. }
  apply (proj1 (number_normal_form_aux n m d e Hn Hm Hd He)) in Heq. congruence.
Qed.

Lemma range_view_eq v w (r s : RangeKey D) name ty :
  check_key_value name ty v = Ok tt -> check_key_value name ty w = Ok tt ->
  (forall n, v = AV_N n -> short n) -> (forall n, w = AV_N n -> short n) ->
  range_view v r -> range_view w s -> range_cmp (Some r) (Some s) = Eq <-> v = w.
Proof.
  intros [Sv Nv]%check_key_value_Ok [Sw Nw]%check_key_value_Ok Hv Hw Vr Vs.
  destruct Vr as [a|a|a x Hx], Vs as [b|b|b y Hy]; simpl in *; simplify_eq; try congruence.
  - rewrite cmp_eq_iff. naive_solver.
  - rewrite cmp_eq_iff. naive_solver.
  - split.
    + intros Hc. f_equal. by eapply (normalized_number_eq a b x y); auto.
    + intros [= ->]. assert (x = y) as -> by congruence. rewrite bd_cmp_value.
      by change (dec_eq (bd_value y) (bd_value y)).
Qed.

Lemma hash_key_text_inj v w t :
  scalar_type v = scalar_type w -> hash_key_text v = Some t -> hash_key_text w = Some t -> v = w.
Proof. intros Hs Hv Hw. apply (pk_to_text_inj v w t); [done|..]; unfold pk_to_text; by rewrite ?Hv, ?Hw. Qed.

(** Two keys compare equal exactly when they hold the same values. *)
Lemma checked_cmp_eq order a b (ka kb : CheckedKey D) ra rb :
  short_numbers a -> short_numbers b -> key_view order a ka ra -> key_view order b kb rb ->
  checked_cmp ka kb = Eq <-> ck_hash ka = ck_hash kb /\ ra = rb.
Proof.
  intros Sa Sb (Ha & Ca & Ta & Ra) (Hb & Cb & Tb & Rb). unfold checked_cmp.
  apply check_key_value_Ok in Ca as [Ca _], Cb as [Cb _].
  assert (cmp (ck_hash_text ka) (ck_hash_text kb) = Eq <-> ck_hash ka = ck_hash kb) as Hh.
  { rewrite cmp_eq_iff. split; [|intros E; congruence].
    intros E. eapply hash_key_text_inj; [congruence|exact Ta|congruence]. }
  assert (range_cmp (ck_range ka) (ck_range kb) = Eq <-> ra = rb) as Hr.
  { destruct (ko_range order) as [[name ty]|].
    - destruct Ra as (v & r & -> & -> & Gv & Cv & Vv), Rb as (w & s & -> & -> & Gw & Cw & Vw).
      rewrite (range_view_eq v w r s name ty); [naive_solver|done..| | |done|done].
      + intros n ->. by eapply Sa.
      + intros n ->. by eapply Sb.
    - by destruct Ra as [-> ->], Rb as [-> ->]. }
  destruct (cmp (ck_hash_text ka) (ck_hash_text kb)) eqn:E; rewrite <- ?Hr; naive_solver.
Qed.

Lemma key_item_inj schema defs order hv hw (rv rw : option AttributeValue) :
  resolve schema defs = Ok order ->
  (is_some rv = is_some (ko_range order)) -> (is_some rw = is_some (ko_range order)) ->
  key_item order hv rv = key_item order hw rw -> hv = hw /\ rv = rw.
Proof.
  intros Hres Hv Hw E. pose proof (fun n t => resolve_distinct _ _ _ n t Hres) as Hd. unfold key_item in E.
  destruct (ko_range order) as [[name ty]|], rv as [v|], rw as [w|]; try done.
  - specialize (Hd name ty eq_refl).
    pose proof (f_equal (bt_get name) E) as E1. rewrite !bt_get_insert_eq in E1.
    pose proof (f_equal (bt_get (ko_hash order).1) E) as E2.
    rewrite !(bt_get_insert_ne (ko_hash order).1 name), !bt_get_insert_eq in E2 by done. naive_solver.
  - pose proof (f_equal (bt_get (ko_hash order).1) E) as E2. rewrite !bt_get_insert_eq in E2. naive_solver.
Qed.

Lemma view_is_some order item (k : CheckedKey D) rv :
  key_view order item k rv -> is_some rv = is_some (ko_range order).
Proof.
  intros (_ & _ & _ & Hr). destruct (ko_range order) as [[name ty]|].
  - by destruct Hr as (v & r & -> & _).
  - by destruct Hr as [-> _].
Qed.

(** On items whose keys pass the checks, [compare] never fails and is a total
    order: it is antisymmetric and transitive, and two items compare equal exactly
    when their key attributes are the same, numbers included. *)
Theorem key_order_total schema defs order a b c (ka kb kc : CheckedKey D) :
  resolve schema defs = Ok order ->
  short_numbers a -> short_numbers b ->
  checked_key order a = Ok ka -> checked_key order b = Ok kb -> checked_key order c = Ok kc ->
  exists r, compare order a b = Ok r /\ compare order b a = Ok (CompOpp r) /\
    (r = Eq <-> endpoint_key order a = endpoint_key order b) /\
    (r = Lt -> compare order b c = Ok Lt -> compare order a c = Ok Lt).
Proof.
  intros Hres Sa Sb Ka Kb Kc. exists (checked_cmp ka kb).
  destruct (endpoint_key_view _ _ _ Ka) as (ra & Ea & Va), (endpoint_key_view _ _ _ Kb) as (rb & Eb & Vb).
  destruct (endpoint_key_view _ _ _ Kc) as (rc & _ & Vc).
  pose proof (view_shape _ _ _ _ Va) as Ha. pose proof (view_shape _ _ _ _ Vb) as Hb.
  pose proof (view_shape _ _ _ _ Vc) as Hc.
  rewrite !(compare_checked order _ _ _ _ Ka Kb), !(compare_checked order _ _ _ _ Kb Ka).
  rewrite (compare_checked order _ _ _ _ Kb Kc), (compare_checked order _ _ _ _ Ka Kc).
  split; [done|]. split; [f_equal; apply checked_cmp_antisym; congruence|]. split.
  - rewrite (checked_cmp_eq order a b _ _ ra rb), Ea, Eb by done. split; [by intros [-> ->]|].
    intros [= E]. by eapply key_item_inj; eauto using view_is_some.
  - intros H1 [= H2]. f_equal. apply (checked_cmp_trans ka kb kc); congruence.
Qed.

(** ** Held keys *)

(** Overwriting a held key leaves nothing of what it held. *)
Lemma held_key_assign_new (h : HeldKey D) k : held_key_assign h k = held_key_new k.
Proof.
  unfold held_key_assign, held_key_new. f_equal.
  - by destruct (hk_hash h), (ck_hash k).
  - by destruct (hk_hash_b64 h), (is_binary (ck_hash k)).
  - by destruct (hk_range h) as [[]|], (ck_range k) as [[]|].
Qed.

Lemma as_checked_new (k : CheckedKey D) :
  hash_key_text (ck_hash k) = Some (ck_hash_text k) -> as_checked (held_key_new k) = k.
Proof.
  destruct k as [h t r]. unfold as_checked, held_key_new. simpl. intros Ht. f_equal.
  - by destruct h; simpl in *; simplify_eq.
  - by destruct r as [[]|].
Qed.

Lemma held_to_item_new order item (k : CheckedKey D) rv :
  key_view order item k rv -> held_to_item (held_key_new k) order = key_item order (ck_hash k) rv.
Proof.
  intros (_ & _ & _ & Hr). unfold held_to_item, key_item, held_key_new. simpl.
  destruct (ko_range order) as [[name ty]|]; [|done].
  destruct Hr as (v & r & -> & -> & _ & _ & Vv). simpl. by destruct Vv.
Qed.
End OrderLaws.

(** ** The order of stored rows *)

Section Rows.
Context `{HR : Rendering} `{HB : Base64} `{HBL : !Base64Laws}
  {D : Type} `{HD : BigDecimal D} `{HDL : !BigDecimalLaws D}
  `{HP : BigDecimalParts D} `{HPL : !BigDecimalPartsLaws D}.

(** The partition key text and the bound sort key SQLite stores for an item. *)
Definition sqlite_row (key_schema : list KeySchemaElement) (attr_defs : list AttributeDefinition)
    (item : Item) : result StorageError (string * option BoundValue) :=
  let? pk := composite_pk_to_text item key_schema in
  match sk_info key_schema attr_defs with
  | None => Ok (pk, None)
  | Some (name, ty) =>
      let? v := ok_or_else (bt_get name item) (SE_Internal "missing sort key") in
      let? sk := parse_sk (D := D) parse_error v ty in
      Ok (pk, Some (sk_bound sk))
  end.

(** [ORDER BY pk, sk] with the BINARY collation: bytes, column by column. *)
Definition bound_cmp (x y : BoundValue) : comparison :=
  match x, y with
  | BoundText s, BoundText t => cmp s t
  | BoundBlob b, BoundBlob c => cmp b c
  | BoundText _, BoundBlob _ => Lt
  | BoundBlob _, BoundText _ => Gt
  end.

Definition row_cmp (r s : string * option BoundValue) : comparison :=
  match cmp r.1 s.1 with
  | Eq =>
      match r.2, s.2 with
      | Some x, Some y => bound_cmp x y
      | x, y => bool_cmp (is_some x) (is_some y)
      end
  | c => c
  end.

Lemma type_of_find defs name ty :
  type_of defs name = Ok ty -> exists d, find_def name defs = Some d /\ ad_attribute_type d = ty.
Proof.
  unfold type_of, unorderable, find_def.
  destruct (List.filter _ defs) as [|d [|]] eqn:E; try done. intros [= <-]. exists d. split; [|done].
  induction defs as [|x defs IH]; simpl in *; [done|].
  destruct (String.eqb (ad_attribute_name x) name); [congruence|auto].
Qed.

(** An order resolves for one HASH attribute, alone or followed by one RANGE. *)
Lemma resolve_schema schema defs order :
  resolve schema defs = Ok order ->
  (exists h, hash_key_elements schema = [h] /\ ks_attribute_name h = (ko_hash order).1) /\
  sk_info schema defs = ko_range order.
Proof.
  unfold resolve, unorderable. destruct (resolve_loop defs None None schema) as [[hash range]|] eqn:E; [|done].
  destruct schema as [|[n1 []] schema]; simpl in E; [by injection E as <- <-| |done].
  destruct (type_of defs n1) as [t1|] eqn:T1; [|done].
  destruct schema as [|[n2 []] schema]; simpl in E; [|done|].
  - injection E as <- <-. intros [= <-]. split; [by eexists|done].
  - destruct (type_of defs n2) as [t2|] eqn:T2; [|done].
    destruct schema as [|[n3 []] schema]; simpl in E; [|done|done].
    injection E as <- <-. simpl. destruct (String.eqb n2 n1); [done|]. intros [= <-]. simpl.
    split; [by eexists|]. apply type_of_find in T2 as (d & Hd & <-).
    unfold sk_info. simpl. by rewrite Hd.
Qed.

Lemma valid_orderable_parsed n (d : D) :
  short n -> validate_and_normalize_number n = Ok n -> bd_parse n = Some d -> orderable (bd_value d).
Proof.
  intros Hs Hv Hp. destruct (validate_Ok_cases _ _ Hs Hv) as (x & Hx & _).
  by eapply valid_parsed_orderable.
Qed.

(** The range part of a key and the value its column holds. *)
Lemma range_bound name ty v (r : RangeKey D) :
  check_key_value name ty v = Ok tt -> range_view v r ->
  exists sk, parse_sk (D := D) parse_error v ty = Ok sk /\
    match sk, r with
    | SK_S s, RK_S s' => s = s'
    | SK_B b, RK_B b' => b = b'
    | SK_N x, RK_N n x' => x = x' /\ v = AV_N n /\ validate_and_normalize_number n = Ok n
    | _, _ => False
    end.
Proof.
  intros [Hs Hn]%check_key_value_Ok Hr. destruct Hr as [s|b|n d Hd]; simpl in Hs; injection Hs as <-; simpl.
  - by exists (SK_S s).
  - by exists (SK_B b).
  - rewrite Hd. exists (SK_N d). split; [done|]. split; [done|]. split; [done|]. by apply Hn.
Qed.

Lemma sqlite_row_view schema defs order item (k : CheckedKey D) rv :
  resolve schema defs = Ok order -> key_view order item k rv ->
  sqlite_row schema defs item =
    match ko_range order, rv with
    | Some (_, ty), Some v =>
        let? sk := parse_sk (D := D) parse_error v ty in Ok (ck_hash_text k, Some (sk_bound sk))
    | _, _ => Ok (ck_hash_text k, None)
    end.
Proof.
  intros Hres (Hh & _ & Ht & Hr). destruct (resolve_schema _ _ _ Hres) as [(h & Eh & En) Ei].
  unfold sqlite_row, composite_pk_to_text. rewrite Eh, En, Hh. simpl. unfold pk_to_text.
  rewrite Ht, Ei. simpl. destruct (ko_range order) as [[name ty]|]; [|done].
  destruct Hr as (v & r & -> & _ & Hv & _). by rewrite Hv.
Qed.

(** C20. A backup written by reading a table in the order of its row keys is in the
    order the format promises: for items with valid keys, the bytes of the partition
    key text and of the sort key column compare as the items do under [compare]. *)
Theorem sqlite_order_matches schema defs order a b (ka kb : CheckedKey D) :
  resolve schema defs = Ok order -> short_numbers a -> short_numbers b ->
  checked_key order a = Ok ka -> checked_key order b = Ok kb ->
  exists ra rb, sqlite_row schema defs a = Ok ra /\ sqlite_row schema defs b = Ok rb /\
    compare order a b = Ok (row_cmp ra rb).
Proof.
  intros Hres Sa Sb Ka Kb. rewrite (compare_checked _ _ _ _ _ Ka Kb).
  apply checked_key_view in Ka as (va & _ & Va), Kb as (vb & _ & Vb).
  rewrite (sqlite_row_view _ _ _ _ _ _ Hres Va), (sqlite_row_view _ _ _ _ _ _ Hres Vb).
  destruct Va as (_ & _ & _ & Ra), Vb as (_ & _ & _ & Rb). unfold checked_cmp.
  destruct (ko_range order) as [[name ty]|].
  - destruct Ra as (v & r & -> & -> & Gv & Cv & Vv), Rb as (w & s & -> & -> & Gw & Cw & Vw).
    pose proof (proj1 (check_key_value_Ok _ _ _ Cv)) as Tv.
    pose proof (proj1 (check_key_value_Ok _ _ _ Cw)) as Tw.
    destruct (range_bound _ _ _ _ Cv Vv) as (x & -> & Hx), (range_bound _ _ _ _ Cw Vw) as (y & -> & Hy).
    do 2 eexists. split; [done|]. split; [done|]. f_equal. unfold row_cmp. cbn [fst snd].
    destruct (cmp (ck_hash_text ka) (ck_hash_text kb)); try done.
    destruct Vv as [p|p|p d Pd], Vw as [q|q|q e Pe]; simpl in Tv, Tw; try congruence;
      destruct x, y; try done; simpl; try congruence.
    destruct Hx as (-> & _ & Nx), Hy as (-> & _ & Ny). rewrite bd_cmp_value. symmetry.
    apply encode_order.
    + exact (valid_orderable_parsed p d (Sa _ _ Gv) Nx Pd).
    + exact (valid_orderable_parsed q e (Sb _ _ Gw) Ny Pe).
  - destruct Ra as [-> ->], Rb as [-> ->]. do 2 eexists. split; [done|]. split; [done|]. done.
Qed.
End Rows.

(** ** Witnesses *)

#[local] Instance plain_rendering : Rendering := {
  truncated := fun s => s;
  debug := fun s => s;
  key_json := fun _ => "";
  parse_error := fun s => s
}.

Definition order_schema : list KeySchemaElement :=
  [{| ks_attribute_name := "pk"; ks_key_type := Hash |};
   {| ks_attribute_name := "sk"; ks_key_type := Range |}].
Definition order_defs : list AttributeDefinition :=
  [{| ad_attribute_name := "pk"; ad_attribute_type := Scalar_S |};
   {| ad_attribute_name := "sk"; ad_attribute_type := Scalar_N |}].
Definition order_key : KeyOrder :=
  {| ko_hash := ("pk", Scalar_S); ko_range := Some ("sk", Scalar_N) |}.
Definition order_item (n : string) : Item := [("pk", AV_S "p"); ("sk", AV_N n)].

Lemma order_item_short n : short n -> short_numbers (order_item n).
Proof.
  intros Hn name m H%bt_get_In. destruct H as [E|[E|[]]]; [done|]. by injection E as _ <-.
Qed.

Lemma key_order_total_witness :
  exists r, compare (D := dec) (HB := rfc4648_base64) order_key (order_item "9") (order_item "10") = Ok r /\
    compare (D := dec) (HB := rfc4648_base64) order_key (order_item "10") (order_item "9") = Ok (CompOpp r) /\
    (r = Eq <-> endpoint_key order_key (order_item "9") = endpoint_key order_key (order_item "10")) /\
    (r = Lt -> compare (D := dec) (HB := rfc4648_base64) order_key (order_item "10") (order_item "10.5") = Ok Lt ->
     compare (D := dec) (HB := rfc4648_base64) order_key (order_item "9") (order_item "10.5") = Ok Lt).
Proof.
  eapply (key_order_total (D := dec) (HBL := rfc4648_laws) order_schema order_defs order_key).
  - vm_compute. reflexivity.
  - apply order_item_short. vm_compute. reflexivity.
  - apply order_item_short. vm_compute. reflexivity.
  - vm_compute. reflexivity.
  - vm_compute. reflexivity.
  - vm_compute. reflexivity.
Defined.

Lemma sqlite_order_matches_witness :
  exists ra rb, sqlite_row (D := dec) (HB := rfc4648_base64) order_schema order_defs (order_item "-9") = Ok ra /\
    sqlite_row (D := dec) (HB := rfc4648_base64) order_schema order_defs (order_item "-10") = Ok rb /\
    compare (D := dec) (HB := rfc4648_base64) order_key (order_item "-9") (order_item "-10") = Ok (row_cmp ra rb).
Proof.
  eapply (sqlite_order_matches (D := dec) order_schema order_defs order_key).
  - vm_compute. reflexivity.
  - apply order_item_short. vm_compute. reflexivity.
  - apply order_item_short. vm_compute. reflexivity.
  - vm_compute. reflexivity.
  - vm_compute. reflexivity.
Defined.
