(* ===== verification/SqlSelect.v ===== *)
(** * SELECT statements of the SQLite backend

    The statements that [crates/storage-sqlite/src/data/query_scan.rs] writes, as the
    clauses they are made of, and what SQLite documents about running them: rows for
    which every condition is true (a comparison with NULL is not), in the order of
    the ORDER BY columns under the BINARY collation, cut at LIMIT.  SQLite itself is
    a parameter with that law; sorting is an instance. *)

From Stdlib Require Import Sorted.
From stdpp Require Import sorting.
From S2P Require Import Prelude BTree Types Error Decimal Ast Evaluator StorageKey NumberKey KeyOrder.

(** ** Orders *)

#[export] Instance BoundValue_eq_dec : EqDecision BoundValue.
Proof. solve_decision. Defined.

#[export] Instance BoundValue_ord : Ord BoundValue := bound_cmp.

#[export] Instance BoundValue_ord_laws : OrdLaws BoundValue.
Proof.
  split; unfold cmp, BoundValue_ord.
  - intros [s|b] [t|c]; simpl; rewrite ?cmp_eq_iff; naive_solver.
  - intros [s|b] [t|c]; [exact (cmp_antisym s t)|done|done|exact (cmp_antisym b c)].
  - intros [s|b] [t|c] [u|d]; try done; [exact (cmp_lt_trans s t u)|exact (cmp_lt_trans b c d)].
Qed.

(** NULL sorts before every value. *)
#[export] Instance option_ord {A : Type} `{Ord A} : Ord (option A) := fun x y =>
  match x, y with
  | None, None => Eq
  | None, Some _ => Lt
  | Some _, None => Gt
  | Some a, Some b => cmp a b
  end.

#[export] Instance option_ord_laws {A : Type} `{OrdLaws A} : OrdLaws (option A).
Proof.
  split; unfold cmp, option_ord.
  - intros [a|] [b|]; rewrite ?cmp_eq_iff; naive_solver.
  - intros [a|] [b|]; [exact (cmp_antisym a b)|done|done|done].
  - intros [a|] [b|] [c|]; try done. exact (cmp_lt_trans a b c).
Qed.

(** ** Rows and statements *)

(** A row of a data table: its [rowid], its key columns (an absent one is NULL) and
    the item of its [item_data], whose JSON is [Wire]'s. *)
Record Row : Type := {
  row_id : Z;
  row_cols : gmap string BoundValue;
  row_item : Item
}.

Inductive Cond : Type :=
  | CCmp (col : string) (op : CompareOp) (v : BoundValue)       (* col op ? *)
  | CBetween (col : string) (low high : BoundValue)             (* col BETWEEN ? AND ? *)
  | CBelowMax (col : string) (prefix : string)                  (* col < (? || char(1114111)) *)
  | CRow (greater : bool) (cols : list string) (vs : list BoundValue)  (* (cols) > (?, ..) *)
  | CRowid (total seg : Z).                                     (* (rowid % total) = seg *)

Record Statement : Type := {
  st_where : list Cond;
  st_order : list string;
  st_forward : bool;
  st_limit : Z
}.

(** [char(1114111)]: U+10FFFF in UTF-8. *)
Definition max_char : string := of_bytes [ascii_of_N 244; ascii_of_N 143; ascii_of_N 191; ascii_of_N 191].

(** A row comparison goes from left to right and is NULL when it needs a NULL. *)
Fixpoint row_value_cmp (cols : list (option BoundValue)) (vs : list BoundValue) : option comparison :=
  match cols, vs with
  | [], [] => Some Eq
  | Some x :: cols, y :: vs =>
      match bound_cmp x y with
      | Eq => row_value_cmp cols vs
      | c => Some c
      end
  | _, _ => None
  end.

Definition col_values (cols : list string) (r : Row) : list (option BoundValue) :=
  map (fun c => row_cols r !! c) cols.

(** A condition is true of a row. *)
Definition cond_true (r : Row) (c : Cond) : bool :=
  match c with
  | CCmp col op v =>
      match row_cols r !! col with Some x => apply_op (bound_cmp x v) op | None => false end
  | CBetween col low high =>
      match row_cols r !! col with
      | Some x => apply_op (bound_cmp x low) CGe && apply_op (bound_cmp x high) CLe
      | None => false
      end
  | CBelowMax col prefix =>
      match row_cols r !! col with
      | Some x => apply_op (bound_cmp x (BoundText (prefix +:+ max_char))) CLt
      | None => false
      end
  | CRow greater cols vs =>
      bool_decide (row_value_cmp (col_values cols r) vs = Some (if greater then Gt else Lt))
  | CRowid total seg => (Z.rem (row_id r) total =? seg)%Z
  end.

Definition where_true (cs : list Cond) (r : Row) : bool := forallb (cond_true r) cs.

(** Rows in ORDER BY order. *)
Definition row_le (cols : list string) (forward : bool) (r s : Row) : Prop :=
  cmp (col_values cols r) (col_values cols s) <> (if forward then Gt else Lt).

Class Sqlite : Type := sqlite_select : list Row -> Statement -> list Row.

Class SqliteLaws `{Sqlite} : Prop :=
  sqlite_select_spec rows st : (0 <= st_limit st)%Z ->
    exists l, Permutation l (List.filter (where_true (st_where st)) rows)
      /\ StronglySorted (row_le (st_order st) (st_forward st)) l
      /\ sqlite_select rows st = take (Z.to_nat (st_limit st)) l.

(** ** An instance *)

#[export] Instance row_le_dec cols forward r s : Decision (row_le cols forward r s).
Proof. unfold row_le. apply _. Defined.

Lemma row_le_total cols forward : Total (row_le cols forward).
Proof.
  intros r s. unfold row_le. rewrite (cmp_antisym (col_values cols s)).
  destruct (cmp (col_values cols s) _), forward; simpl; auto; left || right; done.
Qed.

Lemma cmp_le_trans {A : Type} `{OrdLaws A} (x y z : A) : cmp x y <> Gt -> cmp y z <> Gt -> cmp x z <> Gt.
Proof.
  intros H1 H2. destruct (cmp x y) eqn:E1; [apply cmp_eq_iff in E1 as ->; done| |done].
  destruct (cmp y z) eqn:E2; [apply cmp_eq_iff in E2 as <-; by rewrite E1| |done].
  by rewrite (cmp_lt_trans _ _ _ E1 E2).
Qed.

#[export] Instance row_le_trans cols forward : Transitive (row_le cols forward).
Proof.
  intros r s t. unfold row_le. destruct forward; [apply cmp_le_trans|].
  rewrite (cmp_antisym (col_values cols s) (col_values cols r)),
    (cmp_antisym (col_values cols t) (col_values cols s)),
    (cmp_antisym (col_values cols t) (col_values cols r)).
  pose proof (cmp_le_trans (col_values cols t) (col_values cols s) (col_values cols r)) as Ht.
  destruct (cmp (col_values cols t) (col_values cols s)), (cmp (col_values cols s) (col_values cols r)),
    (cmp (col_values cols t) (col_values cols r)); simpl in *; intros; try done; exfalso; by apply Ht.
Qed.

Definition sorting_sqlite : Sqlite := fun rows st =>
  take (Z.to_nat (st_limit st))
    (merge_sort (row_le (st_order st) (st_forward st)) (List.filter (where_true (st_where st)) rows)).

Lemma sorting_sqlite_laws : @SqliteLaws sorting_sqlite.
Proof.
  intros rows st _. exists (merge_sort (row_le (st_order st) (st_forward st)) (List.filter (where_true (st_where st)) rows)).
  split; [apply merge_sort_Permutation|]. split; [|done].
  apply StronglySorted_merge_sort; [apply _|apply row_le_total].
Qed.
