(* ===== verification/SqliteQuery.v ===== *)
(** * Query and Scan on SQLite

    [crates/storage-sqlite/src/data/query_scan.rs] and the key condition fragments of
    [crates/storage-sqlite/src/data/query.rs]: the statement a Query or a Scan runs, the
    cursor it resumes from, and the page it makes of the rows.  The table of the
    statement is an argument, as is whether an index is read and which kind; the
    JSON of [item_data] is [Wire]'s. *)

From Stdlib Require Import Sorted.
From stdpp Require Import sorting.
From S2P Require Import Prelude BTree Types Error Decimal Number Ast Resolver Evaluator KeyCondition.
From S2P Require Import KeyResolve ItemSize Storage StorageKey NumberKey KeyOrder SqlSelect Projection.
From S2P Require Import ReadPage.

(** ** Binary prefixes *)

(** The loop of [binary_prefix_upper_bound], on the bytes from the last. *)
Fixpoint bump_last (rev_bytes : list ascii) : option (list ascii) :=
  match rev_bytes with
  | [] => None
  | last :: rest =>
      if (byte last <? 255)%N then Some (ascii_of_N (byte last + 1) :: rest) else bump_last rest
  end.

Definition binary_prefix_upper_bound (prefix : bytes) : option bytes :=
  (fun l => rev l) <$> bump_last (rev prefix).

Section Query.
Context `{HR : Rendering} `{HB : Base64} {D : Type} `{HD : BigDecimal D} `{HP : !BigDecimalParts D}
  `{HS : Sqlite}.
Implicit Type maps : ExpressionMaps D.

Definition resolve_expr_to_av (expr : Expr) maps : result StorageError AttributeValue :=
  match expr with
  | EPlaceholder name =>
      match resolve_value maps name with
      | Ok v => Ok v
      | Err (Fail e) => Err (SE_Validation (error_message e))
      | Err _ => Err (SE_Internal "")
      end
  | _ => Err (SE_Internal "expected placeholder in key condition")
  end.

(** The value of a bound, as the column stores it. *)
Definition bound_of (value : AttributeValue) (sk_type : ScalarAttributeType)
    : result StorageError BoundValue :=
  let? sk := parse_sk (D := D) parse_error value sk_type in Ok (sk_bound sk).

Definition resolved_bound (expr : Expr) (sk_type : ScalarAttributeType) maps
    : result StorageError BoundValue :=
  let? v := resolve_expr_to_av expr maps in bound_of v sk_type.

(** The fragment and its values, together. *)
Definition build_sk_sql_and_binds (sk_cond : SortKeyCondition) (sk_col : string)
    (sk_type : ScalarAttributeType) maps : result StorageError (list Cond) :=
  match sk_cond with
  | SKCompare _ op value =>
      let? v := resolved_bound value sk_type maps in
      Ok [CCmp sk_col op v]
  | SKBetween _ low high =>
      let? lo := resolved_bound low sk_type maps in
      let? hi := resolved_bound high sk_type maps in
      Ok [CBetween sk_col lo hi]
  | SKBeginsWith _ prefix =>
      let? v := resolve_expr_to_av prefix maps in
      let? sk := parse_sk (D := D) parse_error v sk_type in
      match sk with
      | SK_B b =>
          match binary_prefix_upper_bound b with
          | Some upper => Ok [CCmp sk_col CGe (BoundBlob b); CCmp sk_col CLt (BoundBlob upper)]
          | None => Ok [CCmp sk_col CGe (BoundBlob b)]
          end
      | SK_S s => Ok [CCmp sk_col CGe (BoundText s); CBelowMax sk_col s]
      | SK_N _ => Err (SE_Validation "begins_with is not supported on numeric sort keys")
      end
  end.

(** ** Columns and cursors *)

Definition query_attr_name (path : list PathElement) maps : option string :=
  match path with
  | PAttr name :: _ =>
      match strip_prefix_char "#" name with
      | Some reference => em_names maps !! reference
      | None => Some name
      end
  | _ => None
  end.

Definition range_column (all_sks : list (string * ScalarAttributeType)) (path : list PathElement) maps
    : option (nat * ScalarAttributeType) :=
  name ← query_attr_name path maps;
  pos ← position name (map fst all_sks);
  sk ← all_sks !! pos;
  Some (pos, sk.2).

Definition base_column (t : ScalarAttributeType) : string := "base_" +:+ sk_column t.

Definition option_list {A : Type} (o : option A) : list A :=
  match o with Some x => [x] | None => [] end.

Definition query_order_columns (range_keys : list (string * ScalarAttributeType))
    (base_sk_info : option (string * ScalarAttributeType)) (is_index is_lsi : bool) : list string :=
  let base_sk := option_list ((fun i => base_column i.2) <$> base_sk_info) in
  match range_keys with
  | [] => if is_index then "base_pk" :: base_sk else []
  | _ =>
      let cols := imap (fun i sk => sk_column_n i sk.2) range_keys in
      if negb is_index then cols
      else cols ++ (if is_lsi then [] else ["base_pk"]) ++ base_sk
  end.

Definition base_pk_from_start_key (start_key : Item) (key_info : TableKeyInfo)
    : result StorageError string :=
  match tki_base_key_schema key_info with
  | [] => Err (SE_Internal "")
  | base :: _ =>
      match bt_get (ks_attribute_name base) start_key with
      | Some v => pk_to_text v
      | None => Err (SE_Validation "The provided starting key is invalid: missing base table partition key")
      end
  end.

(** A missing sort key binds as the empty text. *)
Definition sk_bind (start_key : Item) (sk : string * ScalarAttributeType) : result StorageError BoundValue :=
  match bt_get sk.1 start_key with
  | Some v => bound_of v sk.2
  | None => Ok (BoundText "")
  end.

Definition base_sk_bind (start_key : Item) (base_sk_info : option (string * ScalarAttributeType))
    : result StorageError (list BoundValue) :=
  match base_sk_info with
  | Some sk => let? v := sk_bind start_key sk in Ok [v]
  | None => Ok []
  end.

Definition base_pk_bind (start_key : Item) (key_info : TableKeyInfo) : result StorageError BoundValue :=
  let? t := base_pk_from_start_key start_key key_info in Ok (BoundText t).

(** The values of the cursor, in the order of the columns. *)
Definition cursor_binds (start_key : Item) (range_keys : list (string * ScalarAttributeType))
    (base_sk_info : option (string * ScalarAttributeType)) (key_info : TableKeyInfo)
    (is_index is_lsi : bool) : result StorageError (list BoundValue) :=
  match range_keys with
  | [] =>
      let? bpk := base_pk_bind start_key key_info in
      let? bsk := base_sk_bind start_key base_sk_info in
      Ok (bpk :: bsk)
  | _ =>
      let? sks := collect_results (sk_bind start_key) range_keys in
      if negb is_index then Ok sks
      else
        let? bpk :=
          if is_lsi then Ok []
          else let? v := base_pk_bind start_key key_info in Ok [v] in
        let? bsk := base_sk_bind start_key base_sk_info in
        Ok (sks ++ bpk ++ bsk)
  end.

Definition append_query_pagination (start_key : Item)
    (range_keys : list (string * ScalarAttributeType))
    (base_sk_info : option (string * ScalarAttributeType)) (key_info : TableKeyInfo)
    (is_index is_lsi forward : bool) : result StorageError (list Cond) :=
  match query_order_columns range_keys base_sk_info is_index is_lsi with
  | [] => Ok []
  | cols =>
      let? cursor := cursor_binds start_key range_keys base_sk_info key_info is_index is_lsi in
      match cols, cursor with
      | [col], [v] => Ok [CCmp col (if forward then CGt else CLt) v]
      | _, _ => Ok [CRow forward cols cursor]
      end
  end.

(** ** Query *)

Definition finalize (rows : list Row) (limit : option Z) (key_schema : list KeySchemaElement)
    : list Item * option Item :=
  let actual_limit := Z.to_nat (match limit with Some l => Z.max l 0 | None => 1000000 end) in
  let items := map row_item (take actual_limit rows) in
  (items,
   if actual_limit <? length rows
   then (fun item => extract_key item key_schema) <$> last_error items
   else None).

Definition query_pk_text (kc : KeyCondition) maps : result StorageError string :=
  let text expr := let? v := resolve_expr_to_av expr maps in pk_to_text v in
  match extra_pk_conditions kc with
  | [] => text (pk_value kc)
  | extra =>
      let? first := text (pk_value kc) in
      let? rest := collect_results (fun pv => text pv.2) extra in
      Ok (encode_netstring_composite (first :: rest))
  end.

(** The conditions of the key condition. *)
Definition query_conditions (key_info : TableKeyInfo) (kc : KeyCondition) maps
    : result StorageError (list Cond) :=
  let all_sks := all_sort_key_info (tki_key_schema key_info) (tki_attribute_definitions key_info) in
  let sk_info_val := sk_info (tki_key_schema key_info) (tki_attribute_definitions key_info) in
  let? pk_text := query_pk_text kc maps in
  let? sk_conds :=
    match sk_condition kc with
    | None => Ok []
    | Some sk_cond =>
        let column :=
          match range_column all_sks (sk_path sk_cond) maps with
          | Some c => Some c
          | None => (fun i => (0, i.2)) <$> sk_info_val
          end in
        match column with
        | Some (pos, sk_type) => build_sk_sql_and_binds sk_cond (sk_column_n pos sk_type) sk_type maps
        | None => Ok []
        end
    end in
  let? extra :=
    collect_results (fun pv =>
      match range_column all_sks pv.1 maps with
      | Some (pos, sk_type) =>
          let? v := resolved_bound pv.2 sk_type maps in
          Ok [CCmp (sk_column_n pos sk_type) CEq v]
      | None => Ok []
      end) (extra_sk_conditions kc) in
  Ok (CCmp "pk" CEq (BoundText pk_text) :: sk_conds ++ concat extra).

(** [query_impl] over the rows of its table; [index] is whether an index is named,
    and whether it is local. *)
Definition query_impl (rows : list Row) (key_info : TableKeyInfo) (kc : KeyCondition) maps
    (forward : bool) (limit : option Z) (exclusive_start_key : option Item) (index : option bool)
    : result StorageError (list Item * option Item) :=
  let is_index := is_some index in
  let is_lsi := default false index in
  let all_sks := all_sort_key_info (tki_key_schema key_info) (tki_attribute_definitions key_info) in
  let sk_info_val := sk_info (tki_key_schema key_info) (tki_attribute_definitions key_info) in
  let base_sk_info :=
    if is_index then sk_info (tki_base_key_schema key_info) (tki_attribute_definitions key_info)
    else None in
  let? conds := query_conditions key_info kc maps in
  if is_some exclusive_start_key && negb (is_some sk_info_val) && negb is_index then Ok ([], None)
  else
    let? cursor :=
      match exclusive_start_key with
      | Some start_key =>
          append_query_pagination start_key all_sks base_sk_info key_info is_index is_lsi forward
      | None => Ok []
      end in
    let fetch_limit := match limit with Some l => (l + 1)%Z | None => 1000001%Z end in
    let selected := sqlite_select rows
      {| st_where := conds ++ cursor;
         st_order := query_order_columns all_sks base_sk_info is_index is_lsi;
         st_forward := forward;
         st_limit := fetch_limit |} in
    Ok (finalize selected limit (tki_key_schema key_info)).

(** ** Scan *)

(** The columns of a Scan's order and cursor. *)
Definition scan_columns (sk_info_val base_sk_info : option (string * ScalarAttributeType))
    (is_index : bool) : list string :=
  "pk" :: option_list ((fun i => sk_column i.2) <$> sk_info_val)
  ++ (if is_index then "base_pk" :: option_list ((fun i => base_column i.2) <$> base_sk_info) else []).

Definition scan_binds (start_key : Item) (sk_info_val base_sk_info : option (string * ScalarAttributeType))
    (key_info : TableKeyInfo) (is_index : bool) : result StorageError (list BoundValue) :=
  match tki_key_schema key_info with
  | [] => Err (SE_Internal "")
  | hash :: _ =>
      match bt_get (ks_attribute_name hash) start_key with
      | None =>
          Err (SE_Validation "The provided starting key is invalid: The provided key element does not match the schema")
      | Some pk_value =>
          let? pk_text := pk_to_text pk_value in
          let? sk := base_sk_bind start_key sk_info_val in
          let? base :=
            if is_index then
              let? bpk := base_pk_bind start_key key_info in
              let? bsk := base_sk_bind start_key base_sk_info in
              Ok (bpk :: bsk)
            else Ok [] in
          Ok (BoundText pk_text :: sk ++ base)
      end
  end.

(** [scan_impl] over the rows of its table. *)
Definition scan_impl (rows : list Row) (key_info : TableKeyInfo) (limit : option Z)
    (exclusive_start_key : option Item) (segment total_segments : option Z) (is_index : bool)
    : result StorageError (list Item * option Item) :=
  let sk_info_val := sk_info (tki_key_schema key_info) (tki_attribute_definitions key_info) in
  let base_sk_info :=
    if is_index then sk_info (tki_base_key_schema key_info) (tki_attribute_definitions key_info)
    else None in
  let segments :=
    match segment, total_segments with
    | Some seg, Some total => [CRowid total seg]
    | _, _ => []
    end in
  let cols := scan_columns sk_info_val base_sk_info is_index in
  let? cursor :=
    match exclusive_start_key with
    | Some start_key =>
        let? vs := scan_binds start_key sk_info_val base_sk_info key_info is_index in
        Ok [CRow true cols vs]
    | None => Ok []
    end in
  let fetch_limit := match limit with Some l => (l + 1)%Z | None => 1000001%Z end in
  let selected := sqlite_select rows
    {| st_where := segments ++ cursor; st_order := cols; st_forward := true; st_limit := fetch_limit |} in
  Ok (finalize selected limit (tki_key_schema key_info)).

(** [scan_key_in_segment_impl]: the row a key addresses, if it still exists. *)
Definition scan_key_in_segment_impl (rows : list Row) (key_info : TableKeyInfo) (key : Item)
    (segment total_segments : Z) (is_index : bool) : result StorageError bool :=
  match tki_key_schema key_info with
  | [] => Err (SE_Internal "")
  | hash :: _ =>
      match bt_get (ks_attribute_name hash) key with
      | None => Ok false
      | Some pk_value =>
          let eq_sk col (sk : string * ScalarAttributeType) :=
            match bt_get sk.1 key with
            | Some v => let? b := bound_of v sk.2 in Ok [CCmp col CEq b]
            | None => Ok []
            end in
          let? pk_text := pk_to_text pk_value in
          let? sk :=
            match sk_info (tki_key_schema key_info) (tki_attribute_definitions key_info) with
            | Some sk => eq_sk (sk_column sk.2) sk
            | None => Ok []
            end in
          let? base :=
            if is_index then
              let? bpk := base_pk_bind key key_info in
              let? bsk :=
                match sk_info (tki_base_key_schema key_info) (tki_attribute_definitions key_info) with
                | Some sk => eq_sk (base_column sk.2) sk
                | None => Ok []
                end in
              Ok (CCmp "base_pk" CEq bpk :: bsk)
            else Ok [] in
          match List.find (where_true (CCmp "pk" CEq (BoundText pk_text) :: sk ++ base)) rows with
          | Some r => Ok (Z.modulo (row_id r) total_segments =? segment)%Z
          | None => Ok true
          end
      end
  end.
End Query.

(** ** Rows in order *)

(** A row comes after given column values, in the direction of the statement. *)
Definition comes_after (cols : list string) (forward : bool) (vs : list (option BoundValue)) (r : Row)
    : bool :=
  bool_decide (cmp (col_values cols r) vs = if forward then Gt else Lt).

Lemma comes_after_trans cols forward vs r s :
  comes_after cols forward vs r = true -> comes_after cols forward (col_values cols r) s = true ->
  comes_after cols forward vs s = true.
Proof.
  unfold comes_after. rewrite !bool_decide_eq_true. destruct forward.
  - intros H1%cmp_gt_lt H2%cmp_gt_lt. apply cmp_lt_gt. by eapply cmp_lt_trans.
  - intros H1 H2. by eapply cmp_lt_trans.
Qed.

Lemma comes_after_le cols forward r s :
  row_le cols forward r s -> col_values cols r <> col_values cols s ->
  comes_after cols forward (col_values cols r) s = true
  /\ comes_after cols forward (col_values cols s) r = false.
Proof.
  unfold row_le, comes_after. intros Hle Hne.
  rewrite bool_decide_eq_true, bool_decide_eq_false, (cmp_antisym (col_values cols r) (col_values cols s)).
  destruct (cmp (col_values cols r) (col_values cols s)) eqn:E; [by apply cmp_eq_iff in E| |];
    destruct forward; done.
Qed.

Lemma comes_after_self cols forward r : comes_after cols forward (col_values cols r) r = false.
Proof. unfold comes_after. rewrite cmp_refl. by destruct forward. Qed.

Lemma filter_all {A : Type} (f : A -> bool) l : (forall x, In x l -> f x = true) -> List.filter f l = l.
Proof.
  induction l as [|x l IH]; intros Hf; simpl; [done|]. rewrite (Hf x (or_introl eq_refl)), IH; [done|].
  intros y Hy. apply Hf. by right.
Qed.

Lemma filter_none {A : Type} (f : A -> bool) l : (forall x, In x l -> f x = false) -> List.filter f l = [].
Proof.
  induction l as [|x l IH]; intros Hf; simpl; [done|]. rewrite (Hf x (or_introl eq_refl)). apply IH.
  intros y Hy. apply Hf. by right.
Qed.

Lemma filter_filter {A : Type} (f g : A -> bool) l :
  List.filter f (List.filter g l) = List.filter (fun x => g x && f x) l.
Proof.
  induction l as [|x l IH]; simpl; [done|]. destruct (g x); simpl; [|done].
  destruct (f x); by rewrite IH.
Qed.

Lemma filter_ext_In {A : Type} (f g : A -> bool) l :
  (forall x, In x l -> f x = g x) -> List.filter f l = List.filter g l.
Proof.
  induction l as [|x l IH]; intros Hf; simpl; [done|].
  rewrite (Hf x (or_introl eq_refl)), IH; [done|]. intros y Hy. apply Hf. by right.
Qed.

Lemma StronglySorted_List_filter {A : Type} (R : A -> A -> Prop) f l :
  StronglySorted R l -> StronglySorted R (List.filter f l).
Proof.
  induction 1 as [|x l Hs IH Hx]; simpl; [constructor|]. destruct (f x); [|done].
  constructor; [done|]. rewrite List.Forall_forall in *. intros y [Hy _]%filter_In. auto.
Qed.

Lemma Permutation_List_filter {A : Type} (f : A -> bool) l k :
  Permutation l k -> Permutation (List.filter f l) (List.filter f k).
Proof.
  induction 1 as [|x l k _ IH|x y l|l k m _ IH1 _ IH2]; simpl; [done| | |by rewrite IH1].
  - destruct (f x); by rewrite ?IH.
  - destruct (f x), (f y); try done. constructor.
Qed.

(** The rows after one of a sorted sequence are the rest of it. *)
Lemma rows_after cols forward before r rest :
  StronglySorted (row_le cols forward) (before ++ r :: rest) ->
  List.NoDup (map (col_values cols) (before ++ r :: rest)) ->
  List.filter (comes_after cols forward (col_values cols r)) (before ++ r :: rest) = rest.
Proof.
  rewrite map_app. intros Hs Hn. apply List.NoDup_remove_2 in Hn as Hr. rewrite in_app_iff in Hr.
  rewrite List.filter_app. simpl. rewrite comes_after_self.
  assert (Hne : forall s, In s before \/ In s rest -> col_values cols s <> col_values cols r).
  { intros s Hin E. apply Hr. rewrite <- E. destruct Hin; [left|right]; by apply in_map. }
  rewrite filter_none, filter_all; [done| |].
  - intros s Hin. apply comes_after_le; [|intros E; symmetry in E; revert E; apply Hne; by right].
    clear -Hs Hin. induction before as [|x before IH]; [|inversion Hs; by apply IH].
    inversion Hs as [|? ? _ Hf]; subst. rewrite List.Forall_forall in Hf. auto.
  - intros s Hin. apply (comes_after_le cols forward s r); [|apply Hne; by left].
    clear -Hs Hin. induction before as [|x before IH]; [done|].
    inversion Hs as [|? ? Hs' Hf]; subst. destruct Hin as [->|Hin]; [|by apply IH].
    rewrite List.Forall_forall in Hf. apply Hf, in_or_app. right. by left.
Qed.

(** ** Paging through rows *)

Lemma filter_length_le {A : Type} (f : A -> bool) l : length (List.filter f l) <= length l.
Proof. induction l as [|x l IH]; simpl; [done|]. destruct (f x); simpl; lia. Qed.

Lemma row_value_cmp_map rs vs : length rs = length vs ->
  row_value_cmp (map Some rs) vs = Some (cmp (map Some rs) (map Some vs)).
Proof.
  revert vs. induction rs as [|r rs IH]; intros [|v vs] Hl; try done. simpl.
  unfold cmp, list_ord. simpl. unfold cmp, option_ord at 1, cmp, BoundValue_ord.
  destruct (bound_cmp r v); try done. rewrite IH by (by injection Hl). done.
Qed.

(** A row comparison is being after the values. *)
Lemma row_condition cols forward vs r :
  length vs = length cols -> (exists ws, col_values cols r = map Some ws) ->
  cond_true r (CRow forward cols vs) = comes_after cols forward (map Some vs) r.
Proof.
  intros Hl [ws E]. cbn [cond_true]. unfold comes_after. rewrite E, row_value_cmp_map.
  - apply bool_decide_ext. destruct forward; split; congruence.
  - apply (f_equal length) in E. unfold col_values in E. rewrite !length_map in E. lia.
Qed.

(** [finalize] keeps the rows asked for, and reports whether there was one more. *)
Lemma finalize_spec l n key_schema : (1 <= n)%Z ->
  exists lek, finalize (take (S (Z.to_nat n)) l) (Some n) key_schema
    = (take (Z.to_nat n) (map row_item l), lek)
    /\ is_some lek = (Z.to_nat n <? length (map row_item l)).
Proof.
  intros Hn. unfold finalize. rewrite Z.max_l, take_take, Nat.min_l, <- firstn_map by lia.
  rewrite length_take. eexists. split; [done|]. rewrite length_map.
  destruct (Nat.ltb_spec (Z.to_nat n) (S (Z.to_nat n) `min` length l)),
    (Nat.ltb_spec (Z.to_nat n) (length l)); try lia; [|done].
  destruct (last_error _) eqn:E; [done|]. apply last_error_None in E.
  apply (f_equal length) in E. rewrite length_take, length_map in E. simpl in E. lia.
Qed.

Section Paged.
Context `{HS : Sqlite} `{HSL : !SqliteLaws}.
Context (rows : list Row) (conds : list Cond) (cols : list string) (forward : bool)
  (binds : Item -> result StorageError (list BoundValue)) (key : Item -> Item).

(** A row whose columns are what its item's key binds. *)
Definition row_addressed (r : Row) : Prop :=
  exists vs, binds (key (row_item r)) = Ok vs /\ col_values cols r = map Some vs.

(** The selected rows, addressed and told apart by the columns of the order. *)
Record pageable : Prop := {
  pa_addressed : forall r, In r (List.filter (where_true conds) rows) -> row_addressed r;
  pa_distinct : List.NoDup (map (col_values cols) (List.filter (where_true conds) rows))
}.

(** All of them, in the order of the statement. *)
Definition paged_rows : list Row :=
  sqlite_select rows
    {| st_where := conds; st_order := cols; st_forward := forward;
       st_limit := Z.of_nat (length rows) |}.

Definition paged_valid (cursor : option Item) : Prop :=
  match cursor with
  | None => True
  | Some k => exists vs, binds k = Ok vs /\ length vs = length cols
  end.

(** The rows the cursor leaves. *)
Definition paged_filter (cursor : option Item) (r : Row) : bool :=
  match cursor with
  | None => true
  | Some k =>
      match binds k with
      | Ok vs => comes_after cols forward (map Some vs) r
      | Err _ => false
      end
  end.

Definition paged_after (cursor : option Item) : list Item :=
  map row_item (List.filter (paged_filter cursor) paged_rows).

Lemma paged_rows_spec :
  Permutation paged_rows (List.filter (where_true conds) rows)
  /\ StronglySorted (row_le cols forward) paged_rows.
Proof.
  unfold paged_rows. destruct (sqlite_select_spec rows {| st_where := conds; st_order := cols;
    st_forward := forward; st_limit := Z.of_nat (length rows) |}) as (l & Hp & Hs & ->);
    [simpl; lia|]. simpl in *. rewrite Nat2Z.id, take_ge; [done|].
  rewrite Hp. apply filter_length_le.
Qed.

Context (Hpa : pageable).

Lemma paged_rows_In r : In r paged_rows <-> In r (List.filter (where_true conds) rows).
Proof. by rewrite (proj1 paged_rows_spec). Qed.

Lemma paged_rows_addressed r : In r paged_rows -> row_addressed r.
Proof. rewrite paged_rows_In. apply (pa_addressed Hpa). Qed.

Lemma paged_rows_distinct : List.NoDup (map (col_values cols) paged_rows).
Proof.
  eapply Permutation_NoDup; [|exact (pa_distinct Hpa)].
  apply Permutation_map. symmetry. apply paged_rows_spec.
Qed.

Lemma NoDup_map_In {A B : Type} (f : A -> B) l x y :
  List.NoDup (map f l) -> In x l -> In y l -> f x = f y -> x = y.
Proof.
  induction l as [|z l IH]; simpl; [done|]. intros Hn Hx Hy E. inversion Hn as [|? ? Hz Hn']; subst.
  destruct Hx as [->|Hx], Hy as [->|Hy]; [done| | |by apply IH];
    exfalso; apply Hz; [rewrite E|rewrite <- E]; by apply in_map.
Qed.

(** A statement with more conditions selects the rows they hold of. *)
Lemma select_filters cs n : (0 <= n)%Z ->
  sqlite_select rows {| st_where := conds ++ cs; st_order := cols; st_forward := forward; st_limit := n |}
  = take (Z.to_nat n) (List.filter (where_true cs) paged_rows).
Proof.
  intros Hn. destruct (sqlite_select_spec rows {| st_where := conds ++ cs; st_order := cols;
    st_forward := forward; st_limit := n |}) as (l & Hp & Hs & ->); [done|]. simpl in *. f_equal.
  destruct paged_rows_spec as [Hp0 Hs0].
  assert (Hpl : Permutation l (List.filter (where_true cs) paged_rows)).
  { rewrite Hp. rewrite (Permutation_List_filter _ _ _ Hp0), filter_filter.
    erewrite filter_ext_In; [done|]. intros r _. apply forallb_app. }
  eapply (StronglySorted_unique_strong (row_le cols forward)); [|done| |done].
  - intros r s Hr Hs' H1 H2. rewrite Hpl in Hr. apply list_elem_of_In, filter_In in Hr as [Hr _].
    apply list_elem_of_In, filter_In in Hs' as [Hs' _].
    apply (NoDup_map_In (col_values cols) paged_rows); [apply paged_rows_distinct|done|done|].
    unfold row_le in H1, H2. rewrite (cmp_antisym (col_values cols r)) in H2. apply cmp_eq_iff.
    destruct (cmp (col_values cols r) (col_values cols s)), forward; done.
  - by apply StronglySorted_List_filter.
Qed.

(** The page of a statement whose cursor conditions mean being after the cursor. *)
Lemma paged_fetch cursor cs n key_schema :
  (forall r, (exists ws, col_values cols r = map Some ws) -> where_true cs r = paged_filter cursor r) ->
  (1 <= n)%Z ->
  exists lek, finalize (sqlite_select rows {| st_where := conds ++ cs; st_order := cols;
      st_forward := forward; st_limit := n + 1 |}) (Some n) key_schema
    = (take (Z.to_nat n) (paged_after cursor), lek)
    /\ is_some lek = (Z.to_nat n <? length (paged_after cursor)).
Proof.
  intros Hcs Hn. rewrite select_filters by lia. replace (Z.to_nat (n + 1)) with (S (Z.to_nat n)) by lia.
  unfold paged_after. rewrite <- (filter_ext_In (where_true cs) (paged_filter cursor)).
  - by apply finalize_spec.
  - intros r Hr. apply Hcs. destruct (paged_rows_addressed r Hr) as (ws & _ & ->). eauto.
Qed.

(** The items after a cursor are addressed by their own keys. *)
Lemma paged_next cursor before item rest : paged_valid cursor ->
  paged_after cursor = before ++ item :: rest ->
  paged_valid (Some (key item)) /\ paged_after (Some (key item)) = rest.
Proof.
  intros Hv Ea. unfold paged_after in Ea. apply map_eq_app in Ea as (rb & rr' & Erows & <- & Err').
  apply map_eq_cons in Err' as (r & rr & -> & <- & <-).
  assert (Hin : In r (List.filter (paged_filter cursor) paged_rows))
    by (rewrite Erows; apply in_or_app; right; by left).
  apply filter_In in Hin as [Hr Hfr]. destruct (paged_rows_addressed r Hr) as (vs & Ev & Ecols).
  split.
  { exists vs. split; [done|]. apply (f_equal length) in Ecols. unfold col_values in Ecols.
    rewrite !length_map in Ecols. lia. }
  unfold paged_after at 1. f_equal.
  transitivity (List.filter (comes_after cols forward (col_values cols r)) (rb ++ r :: rr)).
  - rewrite <- Erows, filter_filter. apply filter_ext_In. intros s Hs. simpl. rewrite Ev, <- Ecols.
    destruct (comes_after _ _ _ s) eqn:Es; [|by rewrite andb_false_r]. rewrite andb_true_r. symmetry.
    unfold paged_filter in *. destruct cursor as [k|]; [|done]. destruct (binds k); [|done].
    by eapply comes_after_trans.
  - apply rows_after; rewrite <- Erows.
    + apply StronglySorted_List_filter, paged_rows_spec.
    + pose proof paged_rows_distinct as Hn. revert Hn. generalize paged_rows as l. clear. intros l.
      induction l as [|x l IH]; simpl; [done|].
      intros Hn. inversion Hn as [|? ? Hx Hn']; subst. destruct (paged_filter cursor x); [|by apply IH].
      simpl. constructor; [|by apply IH]. intros (y & Ey & Hy)%in_map_iff. apply Hx.
      rewrite <- Ey. apply in_map. by apply filter_In in Hy as [Hy _].
Qed.
End Paged.

(** ** Query and Scan serve their rows *)

Section Serving.
Context `{HR : Rendering} `{HB : Base64} {D : Type} `{HD : BigDecimal D} `{HP : !BigDecimalParts D}
  `{HS : Sqlite} `{HSL : !SqliteLaws}.
Context (rows : list Row) (key_info : TableKeyInfo) (lek_key_schema : list KeySchemaElement).

Definition query_cols (index : option bool) : list string :=
  query_order_columns (all_sort_key_info (tki_key_schema key_info) (tki_attribute_definitions key_info))
    (if is_some index then sk_info (tki_base_key_schema key_info) (tki_attribute_definitions key_info) else None)
    (is_some index) (default false index).

Definition query_binds (index : option bool) (key : Item) : result StorageError (list BoundValue) :=
  cursor_binds (D := D) key
    (all_sort_key_info (tki_key_schema key_info) (tki_attribute_definitions key_info))
    (if is_some index then sk_info (tki_base_key_schema key_info) (tki_attribute_definitions key_info) else None)
    key_info (is_some index) (default false index).

Notation lek_key := (fun item => extract_key item lek_key_schema).

(** A Query whose rows can be paged: an index, or a table with a sort key. *)
Record queryable (kc : KeyCondition) (maps : ExpressionMaps D) (index : option bool) (conds : list Cond)
    : Prop := {
  qa_conds : query_conditions key_info kc maps = Ok conds;
  qa_ordered : is_some (sk_info (tki_key_schema key_info) (tki_attribute_definitions key_info))
               || is_some index = true;
  qa_cols : query_cols index <> [];
  qa_pageable : pageable rows conds (query_cols index) (query_binds index) lek_key
}.

Lemma pagination_spec index forward k vs :
  query_cols index <> [] -> query_binds index k = Ok vs -> length vs = length (query_cols index) ->
  exists cs, append_query_pagination (D := D) k
      (all_sort_key_info (tki_key_schema key_info) (tki_attribute_definitions key_info))
      (if is_some index then sk_info (tki_base_key_schema key_info) (tki_attribute_definitions key_info) else None)
      key_info (is_some index) (default false index) forward = Ok cs
    /\ forall r, (exists ws, col_values (query_cols index) r = map Some ws) ->
         where_true cs r = comes_after (query_cols index) forward (map Some vs) r.
Proof.
  intros Hc Hb Hl. unfold append_query_pagination. fold (query_cols index). fold (query_binds index k).
  rewrite Hb. generalize dependent (query_cols index). clear. intros cols Hc Hl.
  destruct cols as [|c [|c' cs]]; [done| |].
  - destruct vs as [|v [|]]; simpl in Hl; try lia. eexists. split; [done|]. intros r Hr.
    rewrite <- row_condition by done. destruct Hr as [ws Ews]. simpl in *.
    destruct (row_cols r !! c) as [x|]; [|by destruct ws]. rewrite andb_true_r.
    destruct forward; simpl; by destruct (bound_cmp x v).
  - destruct vs as [|v vs]; simpl in Hl; [lia|]. eexists. split; [done|].
    intros r Hr. rewrite <- row_condition by done. simpl. by rewrite andb_true_r.
Qed.

(** The page reader's interface holds of [query_impl]. *)
Lemma query_serves kc maps forward index conds : queryable kc maps index conds ->
  Serves (fun cursor n (w : unit) => (query_impl rows key_info kc maps forward (Some n) cursor index, w))
    lek_key (paged_valid (query_cols index) (query_binds index))
    (paged_after rows conds (query_cols index) forward (query_binds index)).
Proof.
  intros [Hc Ho Hne Hpa]. split.
  - intros cursor n w Hv Hn. unfold query_impl. rewrite Hc. fold (query_cols index).
    assert (is_some cursor && negb (is_some (sk_info (tki_key_schema key_info)
      (tki_attribute_definitions key_info))) && negb (is_some index) = false) as ->.
    { apply orb_true_iff in Ho as [Ho|Ho]; rewrite Ho; simpl; by rewrite andb_false_r. }
    assert (exists cs, match cursor with Some start_key => append_query_pagination (D := D) start_key
        (all_sort_key_info (tki_key_schema key_info) (tki_attribute_definitions key_info))
        (if is_some index then sk_info (tki_base_key_schema key_info) (tki_attribute_definitions key_info) else None)
        key_info (is_some index) (default false index) forward | None => Ok [] end = Ok cs
      /\ forall r, (exists ws, col_values (query_cols index) r = map Some ws) ->
           where_true cs r = paged_filter (query_cols index) forward (query_binds index) cursor r)
      as (cs & -> & Hcs).
    { destruct cursor as [k|]; [|by exists []]. destruct Hv as (vs & Ev & Hl).
      destruct (pagination_spec index forward k vs Hne Ev Hl) as (cs & -> & Hcs).
      exists cs. split; [done|]. intros r Hr. simpl. rewrite Ev. by apply Hcs. }
    destruct (paged_fetch rows conds (query_cols index) forward (query_binds index) lek_key Hpa cursor cs n
      (tki_key_schema key_info) Hcs Hn) as (lek & -> & Hlek). eauto.
  - by apply paged_next.
Qed.

Definition scan_info : option (string * ScalarAttributeType) :=
  sk_info (tki_key_schema key_info) (tki_attribute_definitions key_info).
Definition scan_base_info (is_index : bool) : option (string * ScalarAttributeType) :=
  if is_index then sk_info (tki_base_key_schema key_info) (tki_attribute_definitions key_info) else None.

Definition segment_conds (segment total_segments : option Z) : list Cond :=
  match segment, total_segments with
  | Some seg, Some total => [CRowid total seg]
  | _, _ => []
  end.

(** And of [scan_impl], where the rows of the scan are addressed by its cursor. *)
Lemma scan_serves segment total_segments is_index :
  let cols := scan_columns scan_info (scan_base_info is_index) is_index in
  let binds := fun k => scan_binds (D := D) k scan_info (scan_base_info is_index) key_info is_index in
  pageable rows (segment_conds segment total_segments) cols binds lek_key ->
  Serves (fun cursor n (w : unit) => (scan_impl rows key_info (Some n) cursor segment total_segments is_index, w))
    lek_key (paged_valid cols binds)
    (paged_after rows (segment_conds segment total_segments) cols true binds).
Proof.
  intros cols binds Hpa. split.
  - intros cursor n w Hv Hn. unfold scan_impl. fold scan_info. fold (scan_base_info is_index).
    fold (segment_conds segment total_segments). fold cols.
    assert (exists cs, match cursor with Some start_key =>
        let? vs := scan_binds (D := D) start_key scan_info (scan_base_info is_index) key_info is_index in
        Ok [CRow true cols vs] | None => Ok [] end = Ok cs
      /\ forall r, (exists ws, col_values cols r = map Some ws) ->
           where_true cs r = paged_filter cols true binds cursor r) as (cs & -> & Hcs).
    { destruct cursor as [k|]; [|by exists []]. destruct Hv as (vs & Ev & Hl). fold (binds k). rewrite Ev.
      eexists. split; [done|]. intros r Hr. simpl paged_filter. rewrite Ev.
      rewrite <- row_condition by done. simpl. by rewrite andb_true_r. }
    destruct (paged_fetch rows (segment_conds segment total_segments) cols true binds lek_key Hpa cursor cs n
      (tki_key_schema key_info) Hcs Hn) as (lek & -> & Hlek). eauto.
  - by apply paged_next.
Qed.
End Serving.
