(* ===== verification/SqlWrite.v ===== *)
(** * Statements of the SQLite backend that write

    DELETE, INSERT .. ON CONFLICT DO UPDATE and INSERT OR REPLACE, as
    [crates/storage-sqlite/src/data] uses them, with what SQLite documents about each.
    SQLite is a parameter with these laws; lists are an instance.  What the laws mean
    for the rows of one key is the interface the write path is proved against. *)

From S2P Require Import Prelude BTree Types Error Decimal Ast Evaluator StorageKey NumberKey KeyOrder.
From S2P Require Import SqlSelect Projection ReadPage SqliteQuery.

Definition Columns : Type := gmap string BoundValue.

(** What a statement sees of a row: not its [rowid]. *)
Definition content (r : Row) : Columns * Item := (row_cols r, row_item r).

(** A UNIQUE constraint tells two rows apart unless all its columns are equal; NULLs
    are never equal. *)
Definition conflicts (key : list string) (cols : Columns) (r : Row) : bool :=
  forallb (fun c =>
    match row_cols r !! c, cols !! c with
    | Some x, Some y => bool_decide (x = y)
    | _, _ => false
    end) key.

Definition set_item (item : Item) (r : Row) : Row :=
  {| row_id := row_id r; row_cols := row_cols r; row_item := item |}.

(** The rows of a table before and after. *)
Class SqliteDml : Type := {
  sqlite_delete : list Row -> list Cond -> list Row;
  sqlite_upsert : list Row -> list string -> Columns -> Item -> list Row;
  sqlite_replace : list Row -> list string -> Columns -> Item -> list Row
}.

Class SqliteDmlLaws `{SqliteDml} : Prop := {
  sqlite_delete_spec rows cs :
    Permutation (sqlite_delete rows cs) (List.filter (fun r => negb (where_true cs r)) rows);
  sqlite_upsert_spec rows key cols item :
    exists id, id ∉ map row_id rows
      /\ Permutation (sqlite_upsert rows key cols item)
           (if existsb (conflicts key cols) rows
            then map (fun r => if conflicts key cols r then set_item item r else r) rows
            else {| row_id := id; row_cols := cols; row_item := item |} :: rows);
  sqlite_replace_spec rows key cols item :
    exists id, id ∉ map row_id (List.filter (fun r => negb (conflicts key cols r)) rows)
      /\ Permutation (sqlite_replace rows key cols item)
           ({| row_id := id; row_cols := cols; row_item := item |}
            :: List.filter (fun r => negb (conflicts key cols r)) rows)
}.

(** ** An instance *)

Definition next_rowid (rows : list Row) : Z := foldr (fun r m => Z.max (row_id r + 1) m) 1%Z rows.

Lemma next_rowid_fresh rows : next_rowid rows ∉ map row_id rows.
Proof.
  assert (forall r, In r rows -> (row_id r < next_rowid rows)%Z) as Hlt.
  { induction rows as [|s rows IH]; simpl; [done|]. intros r [->|Hr]; [lia|]. specialize (IH r Hr). lia. }
  intros (r & E & Hr)%list_elem_of_In%in_map_iff. specialize (Hlt r Hr). lia.
Qed.

Definition list_dml : SqliteDml := {|
  sqlite_delete rows cs := List.filter (fun r => negb (where_true cs r)) rows;
  sqlite_upsert rows key cols item :=
    if existsb (conflicts key cols) rows
    then map (fun r => if conflicts key cols r then set_item item r else r) rows
    else {| row_id := next_rowid rows; row_cols := cols; row_item := item |} :: rows;
  sqlite_replace rows key cols item :=
    let kept := List.filter (fun r => negb (conflicts key cols r)) rows in
    {| row_id := next_rowid kept; row_cols := cols; row_item := item |} :: kept
|}.

Lemma list_dml_laws : @SqliteDmlLaws list_dml.
Proof.
  split; [done| |]; intros rows key cols item.
  - exists (next_rowid rows). split; [apply next_rowid_fresh|done].
  - eexists. split; [apply next_rowid_fresh|done].
Qed.

(** ** The rows of a key *)

Definition has_key (cols : list string) (k : list BoundValue) (r : Row) : bool :=
  bool_decide (col_values cols r = map Some k).

(** What a table holds at the value [k] of the columns [cols]. *)
Definition at_key (cols : list string) (k : list BoundValue) (rows : list Row) : list (Columns * Item) :=
  map content (List.filter (has_key cols k) rows).

(** The condition [col = ? AND ..]. *)
Definition key_conds (cols : list string) (k : list BoundValue) : list Cond :=
  zip_with (fun c v => CCmp c CEq v) cols k.

(** Rows with a value in every column. *)
Definition keyed (cols : list string) (rows : list Row) : Prop :=
  forall r, In r rows -> exists k, length k = length cols /\ col_values cols r = map Some k.

Lemma key_conds_true cols k r : length k = length cols ->
  where_true (key_conds cols k) r = has_key cols k r.
Proof.
  unfold where_true, has_key, key_conds, col_values. revert k.
  induction cols as [|c cols IH]; intros [|v k] Hl; try done. injection Hl as Hl.
  cbn [zip_with forallb cond_true]. rewrite IH by done. simpl.
  destruct (row_cols r !! c) as [x|]; [|symmetry; by apply bool_decide_eq_false_2].
  cbn [apply_op]. apply eq_true_iff_eq.
  rewrite andb_true_iff, !bool_decide_eq_true. change (bound_cmp x v) with (cmp x v).
  rewrite cmp_eq_iff. split; [by intros [-> ->]|by intros [= -> ->]].
Qed.

Lemma conflicts_has_key key k cols r : map (fun c => cols !! c) key = map Some k ->
  conflicts key cols r = has_key key k r.
Proof.
  unfold conflicts, has_key, col_values. revert k. induction key as [|c key IH]; intros [|v k] E; try done.
  injection E as Ec E. cbn [forallb]. rewrite (IH k E), Ec. simpl.
  destruct (row_cols r !! c) as [x|]; [|symmetry; by apply bool_decide_eq_false_2].
  apply eq_true_iff_eq. rewrite andb_true_iff, !bool_decide_eq_true.
  split; [by intros [-> ->]|by intros [= -> ->]].
Qed.

Lemma at_key_perm cols k rows rows' : Permutation rows rows' ->
  Permutation (at_key cols k rows) (at_key cols k rows').
Proof. intros Hp. apply Permutation_map. by apply Permutation_List_filter. Qed.

(** At most one row, whatever the order. *)
Lemma at_key_perm_eq cols k rows rows' o : Permutation rows rows' ->
  at_key cols k rows' = option_list o -> at_key cols k rows = option_list o.
Proof.
  intros Hp E. apply (at_key_perm cols k) in Hp. rewrite E in Hp.
  destruct o; simpl in *; [by apply Permutation_length_1_inv|by apply Permutation_nil].
Qed.

Lemma keyed_perm cols rows rows' : Permutation rows rows' -> keyed cols rows' -> keyed cols rows.
Proof. intros Hp Hk r Hr. apply Hk. by rewrite <- Hp. Qed.

Lemma has_key_inj cols k k' r : has_key cols k r = true -> has_key cols k' r = true -> k = k'.
Proof.
  unfold has_key. rewrite !bool_decide_eq_true. intros -> E.
  by apply (inj (fmap Some : list BoundValue -> _)) in E.
Qed.

Lemma at_key_filter cols k (f : Row -> bool) rows :
  at_key cols k (List.filter f rows) = map content (List.filter (fun r => f r && has_key cols k r) rows).
Proof. unfold at_key. by rewrite filter_filter. Qed.

(** Removing the rows of a key. *)
Lemma at_key_filter_out cols k k' rows :
  at_key cols k' (List.filter (fun r => negb (has_key cols k r)) rows)
  = if bool_decide (k' = k) then [] else at_key cols k' rows.
Proof.
  rewrite at_key_filter. case_bool_decide as E; [subst k'|]; [rewrite filter_none; [done|]|unfold at_key; f_equal; apply filter_ext_In].
  - intros r _. by destruct (has_key cols k r).
  - intros r _. destruct (has_key cols k' r) eqn:E'; [|apply andb_false_r]. rewrite andb_true_r.
    apply negb_true_iff. destruct (has_key cols k r) eqn:E''; [|done]. by destruct (E (has_key_inj _ _ _ _ E' E'')).
Qed.

Lemma filter_negb_none {A : Type} (f : A -> bool) l :
  List.filter f l = [] -> List.filter (fun x => negb (f x)) l = l.
Proof.
  intros E. apply filter_all. intros x Hx. apply negb_true_iff. destruct (f x) eqn:Ef; [|done].
  assert (In x (List.filter f l)) as H by (by apply filter_In). by rewrite E in H.
Qed.

Lemma filter_map_swap {A B : Type} (f : B -> bool) (g : A -> B) l :
  List.filter f (map g l) = map g (List.filter (fun x => f (g x)) l).
Proof. induction l as [|x l IH]; simpl; [done|]. destruct (f (g x)); simpl; by rewrite IH. Qed.

(** The key of a row with given columns. *)
Lemma has_key_new cols k k' id new item : map (fun c => new !! c) cols = map Some k ->
  has_key cols k' {| row_id := id; row_cols := new; row_item := item |} = bool_decide (k' = k).
Proof.
  intros Hn. unfold has_key. apply bool_decide_ext. unfold col_values. cbn [row_cols]. rewrite Hn.
  split; [|by intros ->]. intros E. by apply (inj (fmap Some : list BoundValue -> _)) in E.
Qed.

Section Laws.
Context `{HM : SqliteDml} `{HML : !SqliteDmlLaws}.

Lemma delete_at_key cols k k' rows o : length k = length cols ->
  at_key cols k' rows = option_list o ->
  at_key cols k' (sqlite_delete rows (key_conds cols k))
  = option_list (if bool_decide (k' = k) then None else o).
Proof.
  intros Hl Ho. eapply at_key_perm_eq; [apply sqlite_delete_spec|].
  erewrite filter_ext_In; [|intros r _; by rewrite key_conds_true].
  rewrite at_key_filter_out, Ho. by case_bool_decide.
Qed.

Lemma delete_keyed cols cs rows : keyed cols rows -> keyed cols (sqlite_delete rows cs).
Proof.
  intros Hk. eapply keyed_perm; [apply sqlite_delete_spec|]. intros r [Hr _]%filter_In. by apply Hk.
Qed.

(** INSERT OR REPLACE, where no row has the base key [k] of the new one. *)
Lemma replace_at_key key cols k k' new item rows o :
  map (fun c => new !! c) cols = map Some k -> cols ⊆ key -> at_key cols k rows = [] ->
  at_key cols k' rows = option_list o ->
  at_key cols k' (sqlite_replace rows key new item)
  = option_list (if bool_decide (k' = k) then Some (new, item) else o).
Proof.
  intros Hn Hsub Hk Ho. destruct (sqlite_replace_spec rows key new item) as (id & _ & Hp).
  eapply at_key_perm_eq; [exact Hp|].
  assert (Hc : List.filter (conflicts key new) rows = []).
  { apply filter_none. intros r Hr. destruct (conflicts key new r) eqn:Ec; [|done].
    assert (conflicts cols new r = true) as Ec'.
    { unfold conflicts in *. rewrite forallb_forall in *. intros c Hc.
      apply Ec, list_elem_of_In, Hsub. by apply list_elem_of_In. }
    rewrite (conflicts_has_key _ k) in Ec' by done. unfold at_key in Hk. apply map_eq_nil in Hk.
    assert (In r (List.filter (has_key cols k) rows)) as Hin by (by apply filter_In). by rewrite Hk in Hin. }
  rewrite (filter_negb_none _ _ Hc). unfold at_key in *. cbn [List.filter].
  rewrite (has_key_new _ k) by done. case_bool_decide as E; [|done]. subst k'. cbn [map]. by rewrite Hk.
Qed.

Lemma replace_keyed key cols k new item rows :
  map (fun c => new !! c) cols = map Some k -> length k = length cols -> keyed cols rows ->
  keyed cols (sqlite_replace rows key new item).
Proof.
  intros Hn Hl Hk. destruct (sqlite_replace_spec rows key new item) as (id & _ & Hp).
  eapply keyed_perm; [exact Hp|]. intros r [<-|[Hr _]%filter_In]; [by exists k|by apply Hk].
Qed.

(** ON CONFLICT DO UPDATE, where the rows of the key have the columns of the new one. *)
Lemma upsert_at_key key k k' new item rows (get : list BoundValue -> option Item) cols_of :
  map (fun c => new !! c) key = map Some k -> cols_of k = new ->
  (forall k, at_key key k rows = option_list ((fun i => (cols_of k, i)) <$> get k)) ->
  at_key key k' (sqlite_upsert rows key new item)
  = option_list ((fun i => (cols_of k', i)) <$> (if bool_decide (k' = k) then Some item else get k')).
Proof.
  intros Hn Hc Hg. destruct (sqlite_upsert_spec rows key new item) as (id & _ & Hp).
  eapply at_key_perm_eq; [exact Hp|]. clear Hp.
  assert (He : existsb (conflicts key new) rows = is_some (get k)).
  { specialize (Hg k). unfold at_key in Hg. apply eq_true_iff_eq. rewrite existsb_exists. split.
    - intros (r & Hr & Er). rewrite (conflicts_has_key _ k) in Er by done.
      assert (In r (List.filter (has_key key k) rows)) as Hin by (by apply filter_In).
      destruct (get k); [done|]. simpl in Hg. by rewrite (map_eq_nil _ _ Hg) in Hin.
    - intros Hs. destruct (List.filter (has_key key k) rows) as [|r l] eqn:El; [by destruct (get k)|].
      assert (In r (List.filter (has_key key k) rows)) as [Hr Hk]%filter_In by (rewrite El; by left).
      exists r. split; [done|]. by rewrite (conflicts_has_key _ k). }
  rewrite He. destruct (get k) as [i|] eqn:Eg; simpl.
  - rewrite (map_ext _ (fun r => if has_key key k r then set_item item r else r)) by
      (intros r; by rewrite (conflicts_has_key _ k)).
    assert (Hhk : forall r, has_key key k' (if has_key key k r then set_item item r else r) = has_key key k' r).
    { intros r. by destruct (has_key key k r). }
    pose proof (Hg k') as Hg'. unfold at_key in *.
    rewrite filter_map_swap. erewrite filter_ext_In; [|intros r _; apply Hhk].
    destruct (decide (k' = k)) as [->|Hne].
    + rewrite bool_decide_eq_true_2 by done. rewrite Eg in Hg'.
      destruct (List.filter (has_key key k) rows) as [|r [|]] eqn:El; try done.
      assert (has_key key k r = true) as Hr.
      { assert (In r (List.filter (has_key key k) rows)) as [_ ?]%filter_In by (rewrite El; by left). done. }
      simpl. rewrite Hr. injection Hg' as Hr' _. unfold content. simpl. by rewrite Hr'.
    + rewrite bool_decide_eq_false_2 by done. rewrite <- Hg', map_map. apply map_ext_in.
      intros r [_ Hr]%filter_In. destruct (has_key key k r) eqn:E; [|done].
      by destruct (Hne (has_key_inj _ _ _ _ Hr E)).
  - specialize (Hg k') as Hg'. unfold at_key in *. cbn [List.filter]. rewrite (has_key_new _ k) by done.
    case_bool_decide as E; [|done]. subst k'. cbn [map]. rewrite Hg', Eg. simpl. by rewrite Hc.
Qed.

Lemma upsert_keyed key k new item rows :
  map (fun c => new !! c) key = map Some k -> length k = length key -> keyed key rows ->
  keyed key (sqlite_upsert rows key new item).
Proof.
  intros Hn Hl Hk. destruct (sqlite_upsert_spec rows key new item) as (id & _ & Hp).
  eapply keyed_perm; [exact Hp|]. destruct (existsb _ _).
  - intros r (s & <- & Hs)%in_map_iff. destruct (conflicts key new s); by apply (Hk s).
  - intros r [<-|Hr]; [by exists k|by apply Hk].
Qed.
End Laws.
