(* ===== verification/SqliteIndex.v ===== *)
(** * Index maintenance on SQLite

    [crates/storage-sqlite/src/data/index.rs] and the tables of
    [crates/storage-sqlite/src/data/ddl.rs]: the row an index keeps for an item, how a
    write replaces it, and how the propagation worker does the same later.  Data tables
    are found by name; a missing one is an error of SQLite, with SQLite's text. *)

From S2P Require Import Prelude BTree Types Error Decimal Ast Resolver Evaluator ItemSize Storage StorageKey.
From S2P Require Import NumberKey KeyOrder SqlSelect Projection ReadPage SqliteQuery SqlWrite IndexKeys.

Record Table : Type := {
  tbl_key : list string;   (* PRIMARY KEY *)
  tbl_rows : list Row
}.

Notation Tables := (gmap string Table).

(** The text of SQLite's error for a table that does not exist. *)
Class SqliteErrors : Type := no_such_table : string -> string.

(** [str::contains]. *)
Definition text_contains (s p : string) : bool := list_contains_sub (as_bytes s) (as_bytes p).

Class SqliteErrorsLaws `{SqliteErrors} : Prop :=
  no_such_table_text : forall table, text_contains (no_such_table table) "no such table" = true.

(** Names without their quotes. *)
Definition data_table_name (table_id : string) : string := "_ddb_" +:+ table_id.
Definition index_table_name (index_id : string) : string := "_ddb_" +:+ index_id.

Record IndexMeta : Type := {
  im_index_id : string;
  im_index_name : string;
  im_index_type : string;
  im_key_schema : list KeySchemaElement;
  im_projection : IndexProjection;
  im_propagation_delay_ms : option Z;
  im_attribute_definitions : list AttributeDefinition
}.

Record GsiIndexDef : Type := {
  gd_index_id : string;
  gd_key_schema : list KeySchemaElement;
  gd_projection : IndexProjection
}.

Record GsiApplyContext : Type := {
  gc_base_key_schema : list KeySchemaElement;
  gc_attribute_definitions : list AttributeDefinition;
  gc_index : GsiIndexDef
}.

Definition fresh_attr_defs (indexes : list IndexMeta) (cached : list AttributeDefinition)
    : list AttributeDefinition :=
  match indexes with
  | [] => cached
  | i :: _ => im_attribute_definitions i
  end.

Definition effective_delay (idx : IndexMeta) (system_default : N) : N :=
  match im_propagation_delay_ms idx with
  | Some ms => if (0 =? ms)%Z then 0%N else if (0 <? ms)%Z then Z.to_N ms else system_default
  | None => system_default
  end.

(** Whether an index is maintained in the transaction of the write. *)
Definition is_synchronous (idx : IndexMeta) (system_default : N) : bool :=
  String.eqb (im_index_type idx) "LSI" || (effective_delay idx system_default =? 0)%N.

(** [projected.insert] of what the item has. *)
Definition copy_attribute (item : Item) (projected : Item) (name : string) : Item :=
  match bt_get name item with
  | Some v => bt_insert name v projected
  | None => projected
  end.

Definition project_item_for_index (item : Item) (index_ks base_ks : list KeySchemaElement)
    (projection : IndexProjection) : Item :=
  match projection_type projection with
  | ProjAll => item
  | ProjKeysOnly => fold_left (copy_attribute item) (map ks_attribute_name (base_ks ++ index_ks)) []
  | ProjInclude =>
      fold_left (copy_attribute item)
        (map ks_attribute_name (base_ks ++ index_ks) ++ default [] (non_key_attributes projection)) []
  end.

Definition item_has_index_keys (item : Item) (index_ks : list KeySchemaElement) : bool :=
  forallb (fun ks => bt_contains_key (ks_attribute_name ks) item) index_ks.

Definition is_no_such_table (e : StorageError) : bool :=
  match e with
  | SE_Internal msg => text_contains msg "no such table"
  | _ => false
  end.

(** The columns of the base table's key in an index. *)
Definition base_columns (base_sks : list (string * ScalarAttributeType)) : list string :=
  "base_pk" :: imap (fun i sk => "base_" +:+ sk_column_n i sk.2) base_sks.

Section Tables.
Context `{HE : SqliteErrors}.

(** A statement on the rows of a table. *)
Definition execute (tables : Tables) (name : string) (f : Table -> list Row) : result StorageError Tables :=
  match tables !! name with
  | Some t => Ok (<[name := {| tbl_key := tbl_key t; tbl_rows := f t |}]> tables)
  | None => Err (SE_Internal (no_such_table name))
  end.

Definition create_data_table (tables : Tables) (table_id : string) (key_schema : list KeySchemaElement)
    (attr_defs : list AttributeDefinition) : Tables :=
  <[data_table_name table_id :=
      {| tbl_key := create_pk_cols key_schema attr_defs; tbl_rows := [] |}]> tables.

Definition create_index_data_table (tables : Tables) (index_id : string)
    (base_key_schema : list KeySchemaElement) (base_attr_defs : list AttributeDefinition) : Tables :=
  <[index_table_name index_id :=
      {| tbl_key := "pk" :: base_columns (all_sort_key_info base_key_schema base_attr_defs);
         tbl_rows := [] |}]> tables.

Definition drop_index_data_table (tables : Tables) (index_id : string) : Tables :=
  delete (index_table_name index_id) tables.
End Tables.

Section Index.
Context `{HR : Rendering} `{HB : Base64} {D : Type} `{HD : BigDecimal D} `{HP : !BigDecimalParts D}
  `{HM : SqliteDml} `{HE : SqliteErrors}.
Implicit Type item : Item.

(** ** One row *)

Definition sk_values item (sks : list (string * ScalarAttributeType)) : result StorageError (list BoundValue) :=
  collect_results (sk_bind (D := D) item) sks.

Definition delete_index_row_multi (tables : Tables) (idx_table : string) item
    (base_ks : list KeySchemaElement) (base_sks : list (string * ScalarAttributeType))
    : result StorageError Tables :=
  let? base_pk_text := composite_pk_to_text item base_ks in
  let? binds := sk_values item base_sks in
  execute tables idx_table (fun t =>
    sqlite_delete (tbl_rows t) (key_conds (base_columns base_sks) (BoundText base_pk_text :: binds))).

(** The columns and values of an index row, but for [item_data]. *)
Definition index_row item (index_ks base_ks : list KeySchemaElement)
    (idx_sks base_sks : list (string * ScalarAttributeType)) : result StorageError Columns :=
  let? idx_pk_text := composite_pk_to_text item index_ks in
  let? base_pk_text := composite_pk_to_text item base_ks in
  let? idx_values := sk_values item idx_sks in
  let? base_values := sk_values item base_sks in
  Ok (list_to_map (zip
    (("pk" :: imap (fun i sk => sk_column_n i sk.2) idx_sks) ++ base_columns base_sks)
    ((BoundText idx_pk_text :: idx_values) ++ BoundText base_pk_text :: base_values))).

Definition insert_index_row_multi (tables : Tables) (idx_table : string) item (projected : Item)
    (index_ks base_ks : list KeySchemaElement) (idx_sks base_sks : list (string * ScalarAttributeType))
    : result StorageError Tables :=
  let? row := index_row item index_ks base_ks idx_sks base_sks in
  execute tables idx_table (fun t => sqlite_replace (tbl_rows t) (tbl_key t) row projected).

(** ** One index *)

(** [or_else(|e| if tolerate(&e) { Ok(()) } else { Err(e) })]. *)
Definition tolerating (tolerate : StorageError -> bool) (tables : Tables) (r : result StorageError Tables)
    : result StorageError Tables :=
  match r with
  | Err e => if tolerate e then Ok tables else Err e
  | ok => ok
  end.

(** The body that [sync_indexes] and [apply_claimed_row] share. *)
Definition reconcile (tolerate : StorageError -> bool) (tables : Tables) (idx_table : string)
    (key_schema : list KeySchemaElement) (projection : IndexProjection)
    (base_ks : list KeySchemaElement) (idx_sks base_sks : list (string * ScalarAttributeType))
    (old_item new_item : option Item) : result StorageError Tables :=
  let? tables :=
    match old_item with
    | Some old =>
        if item_has_index_keys old key_schema then
          tolerating tolerate tables (delete_index_row_multi tables idx_table old base_ks base_sks)
        else Ok tables
    | None => Ok tables
    end in
  match new_item with
  | Some new =>
      if item_has_index_keys new key_schema then
        let projected := project_item_for_index new key_schema base_ks projection in
        tolerating tolerate tables
          (insert_index_row_multi tables idx_table new projected key_schema base_ks idx_sks base_sks)
      else Ok tables
  | None => Ok tables
  end.

(** The loop of [sync_indexes]. *)
Fixpoint sync_loop (tables : Tables) (base_key_schema : list KeySchemaElement)
    (base_sks : list (string * ScalarAttributeType)) (indexes : list IndexMeta)
    (old_item new_item : option Item) (system_default_delay : N) : result StorageError Tables :=
  match indexes with
  | [] => Ok tables
  | idx :: rest =>
      let? tables :=
        if negb (String.eqb (im_index_type idx) "LSI")
           && negb (effective_delay idx system_default_delay =? 0)%N
        then Ok tables
        else
          reconcile (fun _ => false) tables (index_table_name (im_index_id idx)) (im_key_schema idx)
            (im_projection idx) base_key_schema
            (all_sort_key_info (im_key_schema idx) (im_attribute_definitions idx)) base_sks
            old_item new_item in
      sync_loop tables base_key_schema base_sks rest old_item new_item system_default_delay
  end.

Definition sync_indexes (tables : Tables) (base_key_schema : list KeySchemaElement)
    (attr_defs : list AttributeDefinition) (indexes : list IndexMeta)
    (old_item new_item : option Item) (system_default_delay : N) : result StorageError Tables :=
  sync_loop tables base_key_schema (all_sort_key_info base_key_schema attr_defs) indexes
    old_item new_item system_default_delay.

Definition apply_claimed_row (tables : Tables) (old_item new_item : option Item) (context : GsiApplyContext)
    : result StorageError Tables :=
  let idx := gc_index context in
  reconcile is_no_such_table tables (index_table_name (gd_index_id idx)) (gd_key_schema idx)
    (gd_projection idx) (gc_base_key_schema context)
    (all_sort_key_info (gd_key_schema idx) (gc_attribute_definitions context))
    (all_sort_key_info (gc_base_key_schema context) (gc_attribute_definitions context))
    old_item new_item.
End Index.

(** ** The columns of an index row *)

(** The values of the last names of a row whose other names differ. *)
Lemma lookup_zip_last {A : Type} (l1 l2 : list string) (v1 v2 : list A) :
  length l1 = length v1 -> length l2 = length v2 -> NoDup l2 -> (forall c, c ∈ l1 -> c ∉ l2) ->
  map (fun c => (list_to_map (zip (l1 ++ l2) (v1 ++ v2)) : gmap string A) !! c) l2 = map Some v2.
Proof.
  intros H1 H2 Hn Hd. revert v1 H1. induction l1 as [|c l1 IH]; intros [|v v1] H1; try done.
  - clear H1 Hd. cbn [app]. revert v2 H2. induction l2 as [|c l2 IH2]; intros [|w v2] H2; try done.
    inversion Hn as [|? ? Hc Hn']; subst. injection H2 as H2. cbn [zip map]. simpl. f_equal.
    + apply lookup_insert_eq.
    + rewrite <- (IH2 Hn' v2 H2). apply map_ext_in. intros d Hd. apply lookup_insert_ne.
      intros ->. apply Hc. by apply list_elem_of_In.
  - injection H1 as H1. rewrite <- (IH (fun c' Hc' => Hd c' (list_elem_of_further _ _ _ Hc')) v1 H1).
    apply map_ext_in. intros d Hin. simpl. apply lookup_insert_ne. intros ->.
    apply (Hd d); [left|by apply list_elem_of_In].
Qed.

Lemma sk_column_n_head i t : exists s, sk_column_n i t = String "s" s.
Proof. unfold sk_column_n. destruct (i =? 0); eexists; reflexivity. Qed.

Lemma base_columns_head sks c : c ∈ base_columns sks -> exists s, c = String "b" s.
Proof.
  unfold base_columns. intros [->|(i & sk & -> & _)%elem_of_lookup_imap_1]%elem_of_cons;
    eexists; reflexivity.
Qed.

Lemma index_columns_apart (idx_sks base_sks : list (string * ScalarAttributeType)) c :
  c ∈ "pk" :: imap (fun i sk => sk_column_n i sk.2) idx_sks -> c ∉ base_columns base_sks.
Proof.
  intros Hc (s & ->)%base_columns_head. apply elem_of_cons in Hc as [?|Hc]; [done|].
  apply elem_of_lookup_imap_1 in Hc as (i & sk & E & _). by destruct (sk_column_n_head i sk.2) as [s' E'];
    rewrite E' in E.
Qed.

(** A base table has at most one sort key. *)
Lemma base_columns_NoDup sks : length sks <= 1 -> NoDup (base_columns sks).
Proof.
  intros Hl. destruct sks as [|[n t] [|]]; [| |simpl in Hl; lia].
  - apply (bool_decide_unpack _). by vm_compute.
  - destruct t; apply (bool_decide_unpack _); by vm_compute.
Qed.

(** ** Maintenance of one index *)

Section Maintenance.
Context `{HR : Rendering} `{HB : Base64} {D : Type} `{HD : BigDecimal D} `{HP : !BigDecimalParts D}
  `{HM : SqliteDml} `{HML : !SqliteDmlLaws} `{HE : SqliteErrors}.
Context (base_ks : list KeySchemaElement) (base_sks : list (string * ScalarAttributeType))
  (Hbase : length base_sks <= 1).

(** The key of an item in its table, as the columns store it. *)
Definition base_key (item : Item) : result StorageError (list BoundValue) :=
  let? t := composite_pk_to_text item base_ks in
  let? vs := sk_values (D := D) item base_sks in
  Ok (BoundText t :: vs).

Lemma base_key_length item k : base_key item = Ok k -> length k = length (base_columns base_sks).
Proof.
  unfold base_key. destruct (composite_pk_to_text item base_ks); [|done].
  destruct (sk_values item base_sks) as [vs|] eqn:E; [|done]. intros [= <-].
  unfold base_columns. simpl. rewrite length_imap. f_equal. by eapply collect_results_length.
Qed.

Lemma index_row_base item index_ks idx_sks row k :
  index_row (D := D) item index_ks base_ks idx_sks base_sks = Ok row -> base_key item = Ok k ->
  map (fun c => row !! c) (base_columns base_sks) = map Some k.
Proof.
  unfold index_row, base_key. destruct (composite_pk_to_text item index_ks) as [p|]; [|done].
  destruct (composite_pk_to_text item base_ks) as [t|]; [|done].
  destruct (sk_values item idx_sks) as [ivs|] eqn:Ei; [|done].
  destruct (sk_values item base_sks) as [bs|] eqn:Eb; [|done]. intros [= <-] [= <-].
  apply collect_results_length in Ei, Eb.
  apply (lookup_zip_last ("pk" :: imap (fun i sk => sk_column_n i sk.2) idx_sks) (base_columns base_sks)
    (BoundText p :: ivs) (BoundText t :: bs)).
  - simpl. rewrite length_imap. lia.
  - unfold base_columns. simpl. rewrite length_imap. lia.
  - by apply base_columns_NoDup.
  - apply index_columns_apart.
Qed.

(** An index: its key, the types of its sort keys, and what it copies. *)
Context (index_ks : list KeySchemaElement) (idx_sks : list (string * ScalarAttributeType))
  (projection : IndexProjection).

(** What the index keeps for an item. *)
Definition index_image (item : Item) : option (Columns * Item) :=
  if item_has_index_keys item index_ks then
    match index_row (D := D) item index_ks base_ks idx_sks base_sks with
    | Ok row => Some (row, project_item_for_index item index_ks base_ks projection)
    | Err _ => None
    end
  else None.

(** An item whose index keys can be stored, if it has them all. *)
Definition indexable (item : Item) : Prop :=
  item_has_index_keys item index_ks = true ->
  exists row, index_row (D := D) item index_ks base_ks idx_sks base_sks = Ok row.

(** The rows of an index: [f k] is the row for the item with base key [k]. *)
Record index_holds (t : Table) (f : list BoundValue -> option (Columns * Item)) : Prop := {
  ih_key : tbl_key t = "pk" :: base_columns base_sks;
  ih_keyed : keyed (base_columns base_sks) (tbl_rows t);
  ih_rows : forall k, at_key (base_columns base_sks) k (tbl_rows t) = option_list (f k)
}.

Definition set_at {A : Type} (k : list BoundValue) (o : option A) (f : list BoundValue -> option A)
    (k' : list BoundValue) : option A :=
  if bool_decide (k' = k) then o else f k'.

Lemma delete_row_holds tables name t f item k :
  tables !! name = Some t -> index_holds t f -> base_key item = Ok k ->
  exists t', delete_index_row_multi (D := D) tables name item base_ks base_sks = Ok (<[name := t']> tables)
    /\ index_holds t' (set_at k None f).
Proof.
  intros Ht [H1 H2 H3] Hk. pose proof (base_key_length _ _ Hk) as Hl.
  unfold delete_index_row_multi. unfold base_key in Hk.
  destruct (composite_pk_to_text item base_ks) as [pk|]; [|done].
  destruct (sk_values item base_sks) as [vs|]; [|done]. injection Hk as <-.
  unfold execute. rewrite Ht. eexists. split; [done|]. split; [done|by apply delete_keyed|].
  intros k'. cbn [tbl_rows]. by apply delete_at_key.
Qed.

Lemma insert_row_holds tables name t f item projected k row :
  tables !! name = Some t -> index_holds t f -> base_key item = Ok k -> f k = None ->
  index_row (D := D) item index_ks base_ks idx_sks base_sks = Ok row ->
  exists t', insert_index_row_multi (D := D) tables name item projected index_ks base_ks idx_sks base_sks
      = Ok (<[name := t']> tables)
    /\ index_holds t' (set_at k (Some (row, projected)) f).
Proof.
  intros Ht [H1 H2 H3] Hk Hf Hr. unfold insert_index_row_multi. rewrite Hr. unfold execute. rewrite Ht.
  pose proof (index_row_base _ _ _ _ _ Hr Hk) as Hb. pose proof (base_key_length _ _ Hk) as Hl.
  eexists. split; [done|]. split; [done|by eapply replace_keyed|]. intros k'. cbn [tbl_rows].
  eapply replace_at_key; [done| |by rewrite H3, Hf|by apply H3]. rewrite H1. intros c Hc. by right.
Qed.

Lemma set_at_twice {A : Type} k (o o' : option A) f k' : set_at k o (set_at k o' f) k' = set_at k o f k'.
Proof. unfold set_at. by case_bool_decide. Qed.

Lemma index_holds_ext t f g : (forall k, f k = g k) -> index_holds t f -> index_holds t g.
Proof. intros E [H1 H2 H3]. split; [done|done|]. intros k. by rewrite <- E. Qed.

Lemma set_at_same {A : Type} k (f : list BoundValue -> option A) k' : f k = None -> set_at k None f k' = f k'.
Proof. intros E. unfold set_at. case_bool_decide; by subst. Qed.

(** A change of the item with key [k] from [old] to [new], where the index holds what
    [old] left: the index then holds what [new] leaves, and the rest as it was. *)
Lemma reconcile_holds tolerate tables name t f old new k :
  tables !! name = Some t -> index_holds t f -> f k = old ≫= index_image ->
  (forall item, old = Some item \/ new = Some item -> base_key item = Ok k) ->
  (forall item, new = Some item -> indexable item) ->
  exists t', reconcile (D := D) tolerate tables name index_ks projection base_ks idx_sks base_sks old new
      = Ok (<[name := t']> tables)
    /\ index_holds t' (set_at k (new ≫= index_image) f).
Proof.
  intros Ht Hf Hk Hbk Hix. unfold reconcile.
  assert (exists t', match old with
    | Some o => if item_has_index_keys o index_ks then
        tolerating tolerate tables (delete_index_row_multi (D := D) tables name o base_ks base_sks)
        else Ok tables
    | None => Ok tables end = Ok (<[name := t']> tables) /\ index_holds t' (set_at k None f)) as (t1 & -> & H1).
  { destruct old as [o|]; simpl in Hk.
    - unfold index_image in Hk. destruct (item_has_index_keys o index_ks).
      + destruct (delete_row_holds tables name t f o k Ht Hf) as (t' & -> & Ht'); [auto|]. by exists t'.
      + exists t. rewrite insert_id by done. split; [done|].
        eapply index_holds_ext; [|done]. intros k'. symmetry. by apply set_at_same.
    - exists t. rewrite insert_id by done. split; [done|].
      eapply index_holds_ext; [|done]. intros k'. symmetry. by apply set_at_same. }
  destruct new as [n|]; simpl; [|by exists t1]. unfold index_image.
  destruct (item_has_index_keys n index_ks) eqn:Eh; [|by exists t1].
  destruct (Hix n eq_refl Eh) as [row Hrow]. rewrite Hrow.
  destruct (insert_row_holds (<[name := t1]> tables) name t1 (set_at k None f) n
    (project_item_for_index n index_ks base_ks projection) k row) as (t2 & -> & H2);
    [by rewrite lookup_insert_eq|done|auto|unfold set_at; by rewrite bool_decide_eq_true_2|done|].
  exists t2. rewrite insert_insert_eq. split; [done|].
  eapply index_holds_ext; [|exact H2]. intros k'. apply set_at_twice.
Qed.
End Maintenance.
