(* ===== verification/SqliteQueue.v ===== *)
(** * The propagation queue

    The [gsi_pending] table of the SQLite backend, from
    [crates/storage-sqlite/src/data/index.rs]: one row per asynchronous index of a
    write, routed by the hash of the base key, due at a time that never decreases
    within a partition.  The clock, the random draws and the text of a timestamp are
    the environment of a write. *)

From Stdlib Require Import Sorted.
From S2P Require Import Prelude BTree Types Error Decimal Ast Resolver Evaluator ItemSize Storage StorageKey.
From S2P Require Import NumberKey KeyOrder SqlSelect Projection ReadPage SqliteQuery SqlWrite IndexKeys.
From S2P Require Import SqliteIndex.

(** ** Rows *)

Record Pending : Type := {
  pn_id : Z;
  pn_table_id : string;
  pn_partition : Z;
  pn_old : option Item;
  pn_new : option Item;
  pn_context : GsiApplyContext;
  pn_ready_at : string
}.

(** The queue, with the last [id] it gave: [AUTOINCREMENT] never gives one twice. *)
Record Queue : Type := {
  q_rows : list Pending;
  q_seq : Z
}.

(** What a write reads of the world when it enqueues a row for the index with an id:
    the clock, in milliseconds, and a uniform draw from a range. *)
Record Env : Type := {
  env_now : string -> Z;
  env_random_range : string -> N -> N -> N
}.

(** The text of a time, in RFC 3339. *)
Class Timestamps : Type := format_timestamp : Z -> string.

Definition NUM_PARTITIONS : N := 16.

Definition fnv_step (hash : N) (c : ascii) : N :=
  ((N.lxor hash (byte c)) * 1099511628211) mod 2 ^ 64.

Definition partition_for (base_pk_text : string) : Z :=
  Z.of_N (fold_left fnv_step (as_bytes base_pk_text) 14695981039346656037%N mod NUM_PARTITIONS).

Definition jitter_delay_ms (env : Env) (index_id : string) (delay_ms : N) : N :=
  if (delay_ms <=? 1)%N then delay_ms else env_random_range env index_id (delay_ms / 2 + 1) delay_ms.

(** [a > b] of texts. *)
Definition text_gt (a b : string) : bool := bool_decide (cmp a b = Gt).

Definition text_max (a b : string) : string := if text_gt a b then a else b.

(** [SELECT MAX(ready_at) .. WHERE worker_partition = ?]. *)
Definition partition_max (rows : list Pending) (partition : Z) : option string :=
  match map pn_ready_at (List.filter (fun p => (pn_partition p =? partition)%Z) rows) with
  | [] => None
  | t :: ts => Some (fold_left text_max ts t)
  end.

Section Enqueue.
Context `{HB : Base64} `{HT : Timestamps}.

Definition enqueue_pending_row (env : Env) (q : Queue) (table_id : string)
    (old_item new_item : option Item) (delay_ms : N) (context : GsiApplyContext)
    : result StorageError Queue :=
  let? worker_partition :=
    match (match new_item with Some n => Some n | None => old_item end) with
    | Some item =>
        let? t := composite_pk_to_text item (gc_base_key_schema context) in Ok (partition_for t)
    | None => Ok 0%Z
    end in
  let index_id := gd_index_id (gc_index context) in
  let jittered := Z.min (Z.of_N (jitter_delay_ms env index_id delay_ms)) (2 ^ 63 - 1) in
  let candidate := format_timestamp (env_now env index_id + jittered) in
  let ready_at :=
    match partition_max (q_rows q) worker_partition with
    | Some prev => if text_gt prev candidate then prev else candidate
    | None => candidate
    end in
  Ok {| q_rows := q_rows q ++ [{| pn_id := q_seq q + 1; pn_table_id := table_id;
                                  pn_partition := worker_partition;
                                  pn_old := old_item; pn_new := new_item;
                                  pn_context := context; pn_ready_at := ready_at |}];
        q_seq := q_seq q + 1 |}.

Definition gsi_context (key_info : TableKeyInfo) (idx : IndexMeta) : GsiApplyContext :=
  {| gc_base_key_schema := tki_key_schema key_info;
     gc_attribute_definitions := im_attribute_definitions idx;
     gc_index := {| gd_index_id := im_index_id idx; gd_key_schema := im_key_schema idx;
                    gd_projection := im_projection idx |} |}.

(** The queue after it and the number of rows it has more. *)
Fixpoint enqueue_async_indexes (env : Env) (q : Queue) (key_info : TableKeyInfo)
    (indexes : list IndexMeta) (old_item new_item : option Item) (system_default_delay : N)
    (enqueued : nat) : result StorageError (Queue * nat) :=
  match indexes with
  | [] => Ok (q, enqueued)
  | idx :: rest =>
      if String.eqb (im_index_type idx) "LSI" then
        enqueue_async_indexes env q key_info rest old_item new_item system_default_delay enqueued
      else
        let delay := effective_delay idx system_default_delay in
        if (delay =? 0)%N then
          enqueue_async_indexes env q key_info rest old_item new_item system_default_delay enqueued
        else
          let? q := enqueue_pending_row env q (tki_table_id key_info) old_item new_item delay
                      (gsi_context key_info idx) in
          enqueue_async_indexes env q key_info rest old_item new_item system_default_delay (enqueued + 1)
  end.
End Enqueue.

(** ** Order *)

(** Ids ascend, and within a partition no row is due before an earlier one. *)
Definition queued_before (p p' : Pending) : Prop :=
  (pn_id p < pn_id p')%Z
  /\ (pn_partition p = pn_partition p' -> cmp (pn_ready_at p) (pn_ready_at p') <> Gt).

Record queue_ordered (q : Queue) : Prop := {
  qo_rows : StronglySorted queued_before (q_rows q);
  qo_seq : forall p, In p (q_rows q) -> (pn_id p <= q_seq q)%Z
}.

Lemma StronglySorted_snoc {A : Type} (R : A -> A -> Prop) l x :
  StronglySorted R l -> (forall y, In y l -> R y x) -> StronglySorted R (l ++ [x]).
Proof.
  induction 1 as [|y l Hs IH Hy]; intros Hx; simpl; [by repeat constructor|].
  constructor; [apply IH; intros z Hz; apply Hx; by right|].
  apply Forall_app. split; [done|]. constructor; [|done]. apply Hx. by left.
Qed.

Lemma text_max_le a b c : cmp c a <> Gt \/ cmp c b <> Gt -> cmp c (text_max a b) <> Gt.
Proof.
  unfold text_max, text_gt. intros [H|H]; case_bool_decide as E; try done.
  - eapply cmp_le_trans; [exact H|done].
  - eapply cmp_le_trans; [exact H|]. rewrite cmp_antisym, E. done.
Qed.

Lemma partition_max_le rows partition p : In p rows -> pn_partition p = partition ->
  exists t, partition_max rows partition = Some t /\ cmp (pn_ready_at p) t <> Gt.
Proof.
  intros Hp Hq. unfold partition_max.
  assert (In (pn_ready_at p) (map pn_ready_at (List.filter (fun p => (pn_partition p =? partition)%Z) rows))) as Hin.
  { apply in_map, filter_In. split; [done|]. by apply Z.eqb_eq. }
  destruct (map _ _) as [|t ts]; [done|]. eexists. split; [done|].
  assert (Hgen : forall ts t, cmp (pn_ready_at p) t <> Gt \/ In (pn_ready_at p) ts ->
    cmp (pn_ready_at p) (fold_left text_max ts t) <> Gt).
  { clear. intros ts. induction ts as [|u ts IH]; intros t [H|H]; simpl; try done.
    - apply IH. left. apply text_max_le. by left.
    - destruct H as [->|H]; apply IH; [left|by right]. apply text_max_le. right. by rewrite cmp_refl. }
  apply Hgen. destruct Hin as [->|Hin]; [left; by rewrite cmp_refl|by right].
Qed.

Section Ordered.
Context `{HB : Base64} `{HT : Timestamps}.

(** The row a write adds comes last, and is due no earlier than its partition. *)
Lemma enqueue_row env q table_id old new delay context q' :
  enqueue_pending_row env q table_id old new delay context = Ok q' -> queue_ordered q ->
  exists p, q_rows q' = q_rows q ++ [p] /\ q_seq q' = pn_id p /\ (q_seq q < pn_id p)%Z
    /\ pn_table_id p = table_id /\ pn_old p = old /\ pn_new p = new /\ pn_context p = context
    /\ (forall item, (match new with Some n => Some n | None => old end) = Some item ->
          exists t, composite_pk_to_text item (gc_base_key_schema context) = Ok t /\ pn_partition p = partition_for t)
    /\ queue_ordered q'.
Proof.
  unfold enqueue_pending_row. intros E [H1 H2].
  destruct (match (match new with Some n => Some n | None => old end) with
    | Some item => let? t := composite_pk_to_text item (gc_base_key_schema context) in Ok (partition_for t)
    | None => Ok 0%Z end) as [part|] eqn:Ep; [|done]. injection E as <-. cbn [q_rows q_seq].
  eexists. split; [done|]. do 6 (split; [simpl; done || lia|]). split.
  { intros item Hi. rewrite Hi in Ep. destruct (composite_pk_to_text item _) as [t|]; [|done].
    exists t. split; [done|]. by injection Ep as <-. }
  split; cbn [q_rows q_seq].
  - apply StronglySorted_snoc; [done|]. intros p Hp. split; simpl; [specialize (H2 p Hp); lia|].
    intros Hpp. destruct (partition_max_le _ _ _ Hp Hpp) as (t & -> & Ht). unfold text_gt.
    case_bool_decide as E; [done|]. by eapply cmp_le_trans.
  - intros p [Hp|[<-|[]]]%in_app_iff; [specialize (H2 p Hp); lia|simpl; lia].
Qed.
End Ordered.
