(* ===== verification/SqliteStore.v ===== *)
(** * Items on SQLite

    The write path of [crates/storage-sqlite/src/data]: the statements of
    [tx_helpers.rs], stream capture, and [put_item.rs], [delete_item.rs] and
    [update_item.rs] as transactions on the whole database.  A transaction that fails
    returns the error and no database: nothing of it is kept.  The catalog read of the
    indexes and of the propagation delay are arguments; tables are without vector
    indexes. *)

From S2P Require Import Prelude BTree Types Error Decimal Number Ast Tokenizer Resolver Evaluator.
From S2P Require Import UpdateEvaluator ItemSize Storage StorageKey NumberKey KeyOrder SqlSelect Projection.
From S2P Require Import ReadPage SqliteQuery SqlWrite IndexKeys UpdateKeys SqliteIndex SqliteQueue.

(** ** Streams *)

Inductive StreamViewType : Type := ViewKeysOnly | ViewNewImage | ViewOldImage | ViewNewAndOldImages.
Inductive StreamEventName : Type := EventInsert | EventModify | EventRemove.

#[export] Instance StreamViewType_eq_dec : EqDecision StreamViewType.
Proof. solve_decision. Defined.

Record UserIdentity : Type := {
  ui_identity_type : string;
  ui_principal_id : string
}.

Record StreamCapture : Type := {
  sc_view_type : StreamViewType;
  sc_user_identity : option UserIdentity;
  sc_region : string
}.

Record StreamRecordData : Type := {
  sd_approximate_creation_date_time : Z;
  sd_keys : Item;
  sd_new_image : option Item;
  sd_old_image : option Item;
  sd_sequence_number : string;
  sd_size_bytes : Z;
  sd_stream_view_type : StreamViewType
}.

Record StreamRecord : Type := {
  sr_event_id : string;
  sr_event_name : StreamEventName;
  sr_event_version : string;
  sr_event_source : string;
  sr_aws_region : string;
  sr_dynamodb : StreamRecordData;
  sr_user_identity : option UserIdentity
}.

(** A row of [stream_records]. *)
Record StreamRow : Type := {
  st_shard_id : string;
  st_sequence_number : string;
  st_table_id : string;
  st_record : StreamRecord;
  st_created_at_ms : Z
}.

(** The [stream] counter, the shards of each table in order, and the records. *)
Record Streams : Type := {
  str_seq : N;
  str_shards : gmap string (list string);
  str_records : list StreamRow
}.

Record Db : Type := {
  db_tables : Tables;
  db_queue : Queue;
  db_streams : Streams
}.

(** What a stream record reads of the world. *)
Record StreamEnv : Type := {
  se_event_id : string;
  se_now_ms : Z
}.

Class Crc32 : Type := crc32 : bytes -> N.

(** [format!("{:021}", n)]. *)
Definition pad21 (n : N) : string :=
  let s := N_to_string n in
  of_bytes (replicate (21 - String.length s) "0"%char) +:+ s.

Definition next_stream_seq (s : Streams) : Streams * N :=
  ({| str_seq := str_seq s + 1; str_shards := str_shards s; str_records := str_records s |},
   (str_seq s + 1)%N).

(** The text a partition key is hashed by. *)
Definition shard_text `{Base64} (v : option AttributeValue) : string :=
  match v with
  | Some (AV_S s) => s
  | Some (AV_N n) => n
  | Some (AV_B b) => b64_encode b
  | _ => ""
  end.

(** An error of the core crate, as storage reports it; a panic unwinds the
    transaction. *)
Definition validated {A : Type} (r : res A) : result StorageError A :=
  match r with
  | Ok x => Ok x
  | Err (Fail e) => Err (SE_Validation (error_message e))
  | Err _ => Err (SE_Internal "")
  end.

Definition write_stream_record_in_tx `{Base64} `{Crc32} (senv : StreamEnv) (s : Streams)
    (key_info : TableKeyInfo) (capture : StreamCapture) (old_item new_item : option Item)
    : result StorageError Streams :=
  match (match old_item, new_item with
         | None, Some n => Some (EventInsert, n)
         | Some _, Some n => Some (EventModify, n)
         | Some o, None => Some (EventRemove, o)
         | None, None => None
         end) with
  | None => Ok s
  | Some (event_name, source) =>
      let view := sc_view_type capture in
      let? size := validated (item_size_bytes source) in
      match str_shards s !! tki_table_id key_info with
      | None | Some [] => Ok s
      | Some shards =>
          let pk_str := shard_text (ks ← head (tki_key_schema key_info); bt_get (ks_attribute_name ks) source) in
          let idx := N.to_nat (crc32 (as_bytes pk_str) mod N.of_nat (length shards)) in
          match shards !! idx with
          | None => Err (SE_Internal "")
          | Some shard_id =>
              let (s, n) := next_stream_seq s in
              let record :=
                {| sr_event_id := se_event_id senv; sr_event_name := event_name;
                   sr_event_version := "1.1"; sr_event_source := "aws:dynamodb";
                   sr_aws_region := sc_region capture;
                   sr_dynamodb :=
                     {| sd_approximate_creation_date_time := se_now_ms senv / 1000;
                        sd_keys := extract_key source (tki_key_schema key_info);
                        sd_new_image :=
                          match view with ViewNewImage | ViewNewAndOldImages => new_item | _ => None end;
                        sd_old_image :=
                          match view with ViewOldImage | ViewNewAndOldImages => old_item | _ => None end;
                        sd_sequence_number := pad21 n;
                        sd_size_bytes := Z.min (Z.of_N size) (2 ^ 63 - 1);
                        sd_stream_view_type := view |};
                   sr_user_identity := sc_user_identity capture |} in
              Ok {| str_seq := str_seq s; str_shards := str_shards s;
                    str_records := str_records s ++
                      [{| st_shard_id := shard_id; st_sequence_number := pad21 n;
                          st_table_id := tki_table_id key_info; st_record := record;
                          st_created_at_ms := se_now_ms senv |}] |}
          end
      end
  end.

(** ** Statements on the data table *)

Section Store.
Context `{HR : Rendering} `{HB : Base64} {D : Type} `{HD : BigDecimal D} `{HP : !BigDecimalParts D}
  `{HS : Sqlite} `{HM : SqliteDml} `{HE : SqliteErrors} `{HT : Timestamps} `{HC : Crc32}.
Implicit Type maps : ExpressionMaps D.

(** The key columns of the table and their values in an item, as the statements bind
    them. *)
Definition table_key (key_info : TableKeyInfo) (key : Item)
    : result StorageError (list string * list BoundValue) :=
  match tki_key_schema key_info with
  | [] => Err (SE_Internal "")
  | hash :: _ =>
      let? pk_value := ok_or_else (bt_get (ks_attribute_name hash) key) (SE_Internal "missing partition key") in
      let? pk_text := pk_to_text pk_value in
      match sk_info (tki_key_schema key_info) (tki_attribute_definitions key_info) with
      | Some (sk_name, sk_type) =>
          let? sk_value := ok_or_else (bt_get sk_name key) (SE_Internal "missing sort key") in
          let? sk := bound_of (D := D) sk_value sk_type in
          Ok (["pk"; sk_column sk_type], [BoundText pk_text; sk])
      | None => Ok (["pk"], [BoundText pk_text])
      end
  end.

(** [SELECT item_data .. WHERE pk = ? AND sk = ?], and its first row. *)
Definition fetch_item_in_tx (tables : Tables) (key_info : TableKeyInfo) (key : Item)
    : result StorageError (option Item) :=
  let? ck := table_key key_info key in
  match tables !! data_table_name (tki_table_id key_info) with
  | None => Err (SE_Internal (no_such_table (data_table_name (tki_table_id key_info))))
  | Some t =>
      Ok (row_item <$> head (sqlite_select (tbl_rows t)
        {| st_where := key_conds ck.1 ck.2; st_order := []; st_forward := true;
           st_limit := Z.of_nat (length (tbl_rows t)) |}))
  end.

(** [INSERT .. ON CONFLICT (..) DO UPDATE]; SQLite refuses a conflict target that is
    not a key of the table. *)
Definition upsert_item_in_tx (tables : Tables) (key_info : TableKeyInfo) (item : Item)
    : result StorageError Tables :=
  let? ck := table_key key_info item in
  match tables !! data_table_name (tki_table_id key_info) with
  | Some t =>
      if bool_decide (tbl_key t = ck.1) then
        execute tables (data_table_name (tki_table_id key_info)) (fun t =>
          sqlite_upsert (tbl_rows t) ck.1 (list_to_map (zip ck.1 ck.2)) item)
      else Err (SE_Internal "")
  | None => Err (SE_Internal (no_such_table (data_table_name (tki_table_id key_info))))
  end.

Definition delete_item_in_tx (tables : Tables) (key_info : TableKeyInfo) (key : Item)
    : result StorageError Tables :=
  let? ck := table_key key_info key in
  execute tables (data_table_name (tki_table_id key_info)) (fun t =>
    sqlite_delete (tbl_rows t) (key_conds ck.1 ck.2)).

Definition check_condition (condition : option Expr) (item : Item) maps : result StorageError unit :=
  match condition with
  | None => Ok tt
  | Some cond =>
      let? passed := validated (evaluate_condition cond item maps) in
      if passed : bool then Ok tt else Err (SE_ConditionFailed None)
  end.

(** The condition on what was read: a failure carries the old item. *)
Definition check_old (condition : option Expr) (old : option Item) maps : result StorageError unit :=
  match check_condition condition (default [] old) maps with
  | Err (SE_ConditionFailed _) => Err (SE_ConditionFailed old)
  | r => r
  end.

Definition index_key_refs (indexes : list IndexMeta) : list IndexKeyRef :=
  map (fun idx => {| ikr_index_name := im_index_name idx; ikr_key_schema := im_key_schema idx |}) indexes.

(** [if !indexes.is_empty() { .. }]. *)
Definition unless_empty {A : Type} (indexes : list IndexMeta) (skip : A) (r : result StorageError A)
    : result StorageError A :=
  match indexes with [] => Ok skip | _ => r end.

(** What a write does after its base row: indexes, queue, stream.  The flag is whether
    the worker is notified. *)
Definition after_write (env : Env) (senv : StreamEnv) (db : Db) (tables : Tables) (key_info : TableKeyInfo)
    (indexes : list IndexMeta) (old new : option Item) (stream : option StreamCapture) (system_delay : N)
    : result StorageError (Db * bool) :=
  let? tables :=
    unless_empty indexes tables
      (sync_indexes (D := D) tables (tki_key_schema key_info) (tki_attribute_definitions key_info) indexes
         old new system_delay) in
  let? qn := enqueue_async_indexes env (db_queue db) key_info indexes old new system_delay 0 in
  let? streams :=
    match stream with
    | Some capture => write_stream_record_in_tx senv (db_streams db) key_info capture old new
    | None => Ok (db_streams db)
    end in
  Ok ({| db_tables := tables; db_queue := qn.1; db_streams := streams |}, 0 <? qn.2).

(** ** PutItem, GetItem *)

Definition put_item_impl (env : Env) (senv : StreamEnv) (db : Db) (key_info : TableKeyInfo)
    (indexes : list IndexMeta) (system_delay : N) (item : Item) (return_old : bool)
    (condition : option Expr) maps (stream : option StreamCapture)
    : result StorageError (Db * option Item * bool) :=
  let? _ :=
    unless_empty indexes tt
      (validated (validate_index_keys item (index_key_refs indexes)
        (fresh_attr_defs indexes (tki_attribute_definitions key_info)))) in
  let need_old := is_some condition || return_old || negb (bool_decide (indexes = [])) || is_some stream in
  let? old := if need_old then fetch_item_in_tx (db_tables db) key_info item else Ok None in
  let? _ := check_old condition old maps in
  let? tables := upsert_item_in_tx (db_tables db) key_info item in
  let? after := after_write env senv db tables key_info indexes old (Some item) stream system_delay in
  Ok (after.1, if return_old then old else None, after.2).

Definition get_item_impl (db : Db) (key_info : TableKeyInfo) (key : Item) : result StorageError (option Item) :=
  fetch_item_in_tx (db_tables db) key_info key.

(** ** DeleteItem *)

Definition delete_item_impl (env : Env) (senv : StreamEnv) (db : Db) (key_info : TableKeyInfo)
    (indexes : list IndexMeta) (system_delay : N) (key : Item) (return_old : bool)
    (condition : option Expr) maps (stream : option StreamCapture)
    : result StorageError (Db * option Item * bool) :=
  let? old := fetch_item_in_tx (db_tables db) key_info key in
  let? _ := check_old condition old maps in
  let? after :=
    match old with
    | Some _ =>
        let? tables := delete_item_in_tx (db_tables db) key_info key in
        after_write env senv db tables key_info indexes old None stream system_delay
    | None => Ok (db, false)
    end in
  Ok (after.1, if return_old then old else None, after.2).

(** ** UpdateItem *)

Definition update_item_impl (env : Env) (senv : StreamEnv) (db : Db) (key_info : TableKeyInfo)
    (indexes : list IndexMeta) (system_delay max_item_size_bytes : N) (key : Item)
    (actions : list UpdateAction) (return_old return_new : bool)
    (condition : option Expr) maps (stream : option StreamCapture)
    : result StorageError (Db * (option Item * option Item) * bool) :=
  let defs := fresh_attr_defs indexes (tki_attribute_definitions key_info) in
  let? _ :=
    unless_empty indexes tt
      (validated (validate_index_key_literal_operands actions (index_key_refs indexes) defs maps)) in
  let? old := fetch_item_in_tx (db_tables db) key_info key in
  let? _ := check_old condition old maps in
  let? item := validated (apply_update actions (default key old) maps) in
  let? _ := validated (validate_update_item_size item actions maps max_item_size_bytes) in
  let? _ :=
    unless_empty indexes tt
      (let? _ := validated (validate_index_key_types_after_update item (index_key_refs indexes) defs) in
       validated (validate_index_key_not_empty item (index_key_refs indexes) EmptyUpdateExpression)) in
  if negb (is_some old) && removes_only actions then Ok (db, (None, None), false)
  else
    let? tables := upsert_item_in_tx (db_tables db) key_info item in
    let? after := after_write env senv db tables key_info indexes old (Some item) stream system_delay in
    Ok (after.1, (if return_old then old else None, if return_new then Some item else None), after.2).
End Store.
