(* ===== verification/StoreRefine.v ===== *)
(** * The table as a map

    The refinement of the write path: a table of the SQLite backend, with its indexes
    and the queue of their changes, implements a map from keys to items.  The
    operations of [SqliteStore] are the operations of the map. *)

From S2P Require Import Prelude BTree Types Error Decimal Number Ast Tokenizer Resolver Evaluator.
From S2P Require Import UpdateEvaluator ItemSize Storage StorageKey NumberKey KeyOrder SqlSelect Projection.
From S2P Require Import ReadPage SqliteQuery SqlWrite IndexKeys UpdateKeys SqliteIndex SqliteQueue.
From S2P Require Import SqliteStore.

(** ** What a table promises

    A table is a map from keys to items; an index holds, for each key, the row of some
    earlier item with that key, from which the queued changes of the index lead to the
    item the table has. *)

Record schema_ok (key_info : TableKeyInfo) : Prop := {
  so_hash : exists h rest, tki_key_schema key_info = h :: rest /\ ks_key_type h = Hash
    /\ (rest = [] \/ exists r ad, rest = [r] /\ ks_key_type r = Range
          /\ find_def (ks_attribute_name r) (tki_attribute_definitions key_info) = Some ad)
}.

Section Refinement.
Context `{HR : Rendering} `{HB : Base64} {D : Type} `{HD : BigDecimal D} `{HP : !BigDecimalParts D}
  `{HS : Sqlite} `{HSL : !SqliteLaws} `{HM : SqliteDml} `{HML : !SqliteDmlLaws}
  `{HE : SqliteErrors} `{HT : Timestamps} `{HC : Crc32}.
Context (key_info : TableKeyInfo) (Hschema : schema_ok key_info) (indexes : list IndexMeta).
Implicit Types (maps : ExpressionMaps D) (items : list BoundValue -> option Item) (k : list BoundValue).

Notation base_ks := (tki_key_schema key_info).
Notation base_defs := (tki_attribute_definitions key_info).
Notation table_name := (data_table_name (tki_table_id key_info)).

Definition base_sks : list (string * ScalarAttributeType) := all_sort_key_info base_ks base_defs.
Definition key_columns : list string := create_pk_cols base_ks base_defs.
Definition item_key (item : Item) (k : list BoundValue) : Prop :=
  table_key (D := D) key_info item = Ok (key_columns, k).
Definition row_of (k : list BoundValue) : Columns := list_to_map (zip key_columns k).

Lemma base_sks_length : length base_sks <= 1.
Proof.
  destruct (so_hash _ Hschema) as (h & rest & E & Eh & Hr). unfold base_sks, all_sort_key_info, range_key_elements.
  rewrite E. simpl. rewrite bool_decide_eq_false_2 by (rewrite Eh; done).
  destruct Hr as [->|(r & ad & -> & Er & Ed)]; simpl; [lia|].
  rewrite bool_decide_eq_true_2 by done. simpl. rewrite Ed. simpl. lia.
Qed.

(** The statements and the indexes agree on the key of an item. *)
Lemma table_key_Ok item cols k : table_key (D := D) key_info item = Ok (cols, k) ->
  item_key item k /\ length k = length key_columns /\ base_key (D := D) base_ks base_sks item = Ok k.
Proof.
  destruct (so_hash _ Hschema) as (h & rest & E & Eh & Hr).
  unfold item_key, table_key, key_columns, create_pk_cols, base_key, base_sks, all_sort_key_info,
    composite_pk_to_text, range_key_elements, hash_key_elements, sk_info. rewrite E. cbn [List.find List.filter].
  rewrite !Eh. rewrite (bool_decide_eq_false_2 (Hash = Range)) by done. rewrite (bool_decide_eq_true_2 (Hash = Hash)) by done.
  destruct Hr as [->|(r & ad & -> & Er & Ed)]; cbn [List.find List.filter].
  - simpl. destruct (bt_get (ks_attribute_name h) item) as [v|]; [|done]. simpl.
    destruct (pk_to_text v) as [t|]; [|done]. intros [= <- <-]. done.
  - rewrite !Er. rewrite (bool_decide_eq_true_2 (Range = Range)) by done.
    rewrite (bool_decide_eq_false_2 (Range = Hash)) by done. rewrite Ed. cbn [omap list_omap]. rewrite Ed. simpl.
    destruct (bt_get (ks_attribute_name h) item) as [v|]; [|done]. simpl.
    destruct (pk_to_text v) as [t|]; [|done]. unfold sk_values. simpl. unfold sk_bind. simpl.
    destruct (bt_get (ks_attribute_name r) item) as [w|]; [|done]. simpl.
    destruct (bound_of w (ad_attribute_type ad)) as [b|]; [|done]. intros [= <- <-].
    split; [|done]. unfold sk_column_n. simpl. by destruct (ad_attribute_type ad).
Qed.

(** *** The data table *)

Record base_holds (t : Table) items : Prop := {
  bh_key : tbl_key t = key_columns;
  bh_keyed : keyed key_columns (tbl_rows t);
  bh_rows : forall k, at_key key_columns k (tbl_rows t) = option_list ((fun i => (row_of k, i)) <$> items k);
  bh_items : forall k i, items k = Some i -> item_key i k
}.

Lemma key_columns_NoDup : NoDup key_columns.
Proof.
  pose proof base_sks_length as Hl. unfold key_columns, create_pk_cols. fold base_sks.
  destruct base_sks as [|[n t] [|]]; [| |simpl in Hl; lia]; simpl.
  - apply (bool_decide_unpack _). by vm_compute.
  - destruct t; apply (bool_decide_unpack _); by vm_compute.
Qed.

Lemma row_of_key k : length k = length key_columns ->
  map (fun c => row_of k !! c) key_columns = map Some k.
Proof.
  intros Hl. apply (lookup_zip_last [] key_columns [] k); [done|done|apply key_columns_NoDup|].
  by intros c ?%elem_of_nil.
Qed.

(** A read by key finds the item of the key. *)
Lemma fetch_holds tables t items item k : tables !! table_name = Some t -> base_holds t items ->
  item_key item k -> fetch_item_in_tx (D := D) tables key_info item = Ok (items k).
Proof.
  intros Ht [_ _ Hr _] Hk. unfold fetch_item_in_tx. unfold item_key in Hk. rewrite Hk, Ht. cbn [fst snd]. f_equal.
  destruct (table_key_Ok _ _ _ Hk) as (_ & Hl & _).
  destruct (sqlite_select_spec (tbl_rows t) {| st_where := key_conds key_columns k; st_order := [];
    st_forward := true; st_limit := Z.of_nat (length (tbl_rows t)) |}) as (l & Hp & _ & ->); [simpl; lia|].
  cbn [st_where st_limit] in *. rewrite Nat2Z.id, take_ge by (rewrite Hp; apply filter_length_le).
  rewrite (filter_ext_In _ (has_key key_columns k)) in Hp by (intros r _; by apply key_conds_true). specialize (Hr k). unfold at_key in Hr.
  assert (Hm : map content l = option_list ((fun i => (row_of k, i)) <$> items k)).
  { apply (Permutation_map content) in Hp. rewrite Hr in Hp.
    destruct (items k); simpl in *; [by apply Permutation_length_1_inv|by apply Permutation_nil]. }
  destruct l as [|r l], (items k); simpl in *; try done. by injection Hm as _ -> _.
Qed.

Lemma upsert_holds tables t items item k : tables !! table_name = Some t -> base_holds t items ->
  item_key item k ->
  exists t', upsert_item_in_tx (D := D) tables key_info item = Ok (<[table_name := t']> tables)
    /\ base_holds t' (set_at k (Some item) items).
Proof.
  intros Ht [H1 H2 H3 H4] Hk. destruct (table_key_Ok _ _ _ Hk) as (_ & Hl & _). unfold upsert_item_in_tx.
  unfold item_key in Hk. rewrite Hk, Ht. simpl. rewrite bool_decide_eq_true_2 by done. unfold execute. rewrite Ht.
  eexists. split; [done|]. split; cbn [tbl_key tbl_rows].
  - done.
  - eapply upsert_keyed; [by apply row_of_key|done|done].
  - intros k'. eapply upsert_at_key; [by apply row_of_key|done|done].
  - intros k' i. unfold set_at. case_bool_decide as E; [|apply H4]. intros [= <-]. by subst.
Qed.

Lemma delete_holds tables t items item k : tables !! table_name = Some t -> base_holds t items ->
  item_key item k ->
  exists t', delete_item_in_tx (D := D) tables key_info item = Ok (<[table_name := t']> tables)
    /\ base_holds t' (set_at k None items).
Proof.
  intros Ht [H1 H2 H3 H4] Hk. destruct (table_key_Ok _ _ _ Hk) as (_ & Hl & _). unfold delete_item_in_tx.
  unfold item_key in Hk. rewrite Hk. simpl. unfold execute. rewrite Ht.
  eexists. split; [done|]. split; cbn [tbl_key tbl_rows].
  - done.
  - by apply delete_keyed.
  - intros k'. rewrite (delete_at_key key_columns k k' _ _ Hl (H3 k')). unfold set_at. by case_bool_decide.
  - intros k' i. unfold set_at. case_bool_decide as E; [done|apply H4].
Qed.

(** *** The indexes *)

(** The indexes of the table, as the catalog gives them: told apart by their ids, with
    the definitions of all their keys, the same in every index. *)
Record indexes_ok : Prop := {
  ixo_ids : NoDup (map im_index_id indexes);
  ixo_table : tki_table_id key_info ∉ map im_index_id indexes;
  ixo_base : forall idx, In idx indexes -> all_sort_key_info base_ks (im_attribute_definitions idx) = base_sks;
  ixo_defs : forall idx, In idx indexes -> im_attribute_definitions idx = fresh_attr_defs indexes base_defs;
  ixo_defined : forall idx ks, In idx indexes -> In ks (im_key_schema idx) ->
    exists ad, find_def (ks_attribute_name ks) (im_attribute_definitions idx) = Some ad
}.

Definition idx_sks (idx : IndexMeta) : list (string * ScalarAttributeType) :=
  all_sort_key_info (im_key_schema idx) (im_attribute_definitions idx).
Definition image (idx : IndexMeta) : Item -> option (Columns * Item) :=
  index_image (D := D) base_ks base_sks (im_key_schema idx) (idx_sks idx) (im_projection idx).
Definition storable (idx : IndexMeta) : Item -> Prop :=
  indexable (D := D) base_ks base_sks (im_key_schema idx) (idx_sks idx).

Definition index_holds_at (tables : Tables) (idx : IndexMeta)
    (f : list BoundValue -> option (Columns * Item)) : Prop :=
  exists t, tables !! index_table_name (im_index_id idx) = Some t /\ index_holds base_sks t f.

Lemma index_table_name_inj a b : index_table_name a = index_table_name b -> a = b.
Proof. apply str_app_inj. Qed.

(** The synchronous indexes follow a change of the item with key [k]; the other tables
    stay as they are. *)
Lemma sync_loop_holds delay old new k (f : IndexMeta -> list BoundValue -> option (Columns * Item)) l :
  forall tables, NoDup (map im_index_id l) ->
  (forall idx, In idx l -> is_synchronous idx delay = true ->
     index_holds_at tables idx (f idx) /\ f idx k = old ≫= image idx
     /\ forall item, new = Some item -> storable idx item) ->
  (forall item, old = Some item \/ new = Some item -> base_key (D := D) base_ks base_sks item = Ok k) ->
  exists tables', sync_loop (D := D) tables base_ks base_sks l old new delay = Ok tables'
    /\ (forall idx, In idx l -> is_synchronous idx delay = true ->
          index_holds_at tables' idx (set_at k (new ≫= image idx) (f idx)))
    /\ (forall name, (forall idx, In idx l -> is_synchronous idx delay = true ->
          name <> index_table_name (im_index_id idx)) -> tables' !! name = tables !! name).
Proof.
  induction l as [|idx l IH]; intros tables Hn Hf Hk; cbn [sync_loop].
  { exists tables. split; [done|]. split; done. }
  inversion Hn as [|? ? Hi Hn']; subst.
  assert (Hne : forall idx', In idx' l -> index_table_name (im_index_id idx') <> index_table_name (im_index_id idx)).
  { intros idx' Hin E%index_table_name_inj. apply Hi. rewrite <- E. by apply list_elem_of_In, in_map. }
  rewrite <- negb_orb. fold (is_synchronous idx delay) (idx_sks idx).
  destruct (is_synchronous idx delay) eqn:Es; cbn [negb].
  - destruct (Hf idx (or_introl eq_refl) Es) as ((t & Ht & Hh) & Hfk & Hst).
    destruct (reconcile_holds (D := D) base_ks base_sks base_sks_length (im_key_schema idx) (idx_sks idx)
      (im_projection idx) (fun _ => false) tables _ t (f idx) old new k Ht Hh Hfk Hk Hst) as (t' & -> & Ht').
    destruct (IH (<[index_table_name (im_index_id idx) := t']> tables) Hn') as (tables' & -> & H1 & H2);
      [|done|].
    + intros idx' Hin Es'. destruct (Hf idx' (or_intror Hin) Es') as ((u & Hu & Hh') & ? & ?).
      split; [|done]. exists u. split; [|done]. rewrite lookup_insert_ne; [done|]. by apply not_eq_sym, Hne.
    + exists tables'. split; [done|]. split.
      * intros idx' [<-|Hin] Es'; [|by apply H1]. exists t'. split; [|done].
        rewrite H2, lookup_insert_eq; [done|]. intros idx' Hin' _. by apply not_eq_sym, Hne.
      * intros name Hname. rewrite H2 by (intros idx' Hin' ?; apply Hname; [by right|done]).
        apply lookup_insert_ne, not_eq_sym, Hname; [by left|done].
  - destruct (IH tables Hn') as (tables' & -> & H1 & H2); [|done|].
    + intros idx' Hin. apply Hf. by right.
    + exists tables'. split; [done|]. split.
      * intros idx' [<-|Hin] Es'; [congruence|by apply H1].
      * intros name Hname. apply H2. intros idx' Hin'. apply Hname. by right.
Qed.

(** *** The queue *)

Definition changed (old new : option Item) : option Item :=
  match new with Some n => Some n | None => old end.

(** The key of the item a queued row is about. *)
Definition pending_key (p : Pending) : option (list BoundValue) :=
  match changed (pn_old p) (pn_new p) with
  | Some item => match table_key (D := D) key_info item with Ok ck => Some ck.2 | Err _ => None end
  | None => None
  end.

Definition row_for (idx : IndexMeta) (k : list BoundValue) (p : Pending) : bool :=
  String.eqb (gd_index_id (gc_index (pn_context p))) (im_index_id idx)
  && bool_decide (pending_key p = Some k).

(** Changes that lead from one item to another. *)
Fixpoint chain (start : option Item) (ps : list Pending) (final : option Item) : Prop :=
  match ps with
  | [] => start = final
  | p :: ps => pn_old p = start /\ chain (pn_new p) ps final
  end.

Lemma chain_snoc start ps mid p : chain start ps mid -> pn_old p = mid -> chain start (ps ++ [p]) (pn_new p).
Proof. revert start. induction ps as [|p' ps IH]; simpl; intros start; [by intros -> ->|]. intros [-> H] E. auto. Qed.

(** A row that a write to this table queued for an index of it. *)
Record row_ok (idx : IndexMeta) (p : Pending) : Prop := {
  ro_table : pn_table_id p = tki_table_id key_info;
  ro_context : pn_context p = gsi_context key_info idx;
  ro_new : forall item, pn_new p = Some item -> storable idx item;
  ro_key : exists k, pending_key p = Some k
    /\ (forall item, pn_old p = Some item \/ pn_new p = Some item -> item_key item k)
    /\ exists t, head k = Some (BoundText t) /\ pn_partition p = partition_for t
}.

Lemma item_key_inj item k k' : item_key item k -> item_key item k' -> k = k'.
Proof. unfold item_key. congruence. Qed.

Lemma item_key_text item k : item_key item k ->
  exists t, head k = Some (BoundText t) /\ composite_pk_to_text item base_ks = Ok t.
Proof.
  intros Hk. destruct (table_key_Ok _ _ _ Hk) as (_ & _ & Hb). unfold base_key in Hb.
  destruct (composite_pk_to_text item base_ks) as [t|]; [|done].
  destruct (sk_values item base_sks); [|done]. injection Hb as <-. by exists t.
Qed.

Lemma pending_key_item p item k : changed (pn_old p) (pn_new p) = Some item -> item_key item k ->
  pending_key p = Some k.
Proof. intros E Hk. unfold pending_key. unfold item_key in Hk. by rewrite E, Hk. Qed.

(** The rows [ps] that a change of the item with key [k] queues. *)
Record queued (l : list IndexMeta) (delay : N) (old new : option Item) k (ps : list Pending) : Prop := {
  qd_rows : forall p, In p ps -> exists idx, In idx l /\ is_synchronous idx delay = false /\ row_ok idx p
    /\ pn_old p = old /\ pn_new p = new;
  qd_one : forall idx, In idx l -> is_synchronous idx delay = false ->
    exists p, List.filter (row_for idx k) ps = [p]
}.

(** A write queues one row for each asynchronous index. *)
Lemma enqueue_holds env delay old new k l : forall q n,
  NoDup (map im_index_id l) -> queue_ordered q ->
  (forall item, old = Some item \/ new = Some item -> item_key item k) ->
  is_Some (changed old new) ->
  (forall idx item, In idx l -> new = Some item -> storable idx item) ->
  exists q' n' ps, enqueue_async_indexes env q key_info l old new delay n = Ok (q', n')
    /\ queue_ordered q' /\ q_rows q' = q_rows q ++ ps /\ queued l delay old new k ps.
Proof.
  induction l as [|idx l IH]; intros q n Hn Hq Hk Hc Hs; cbn [enqueue_async_indexes].
  { exists q, n, []. rewrite app_nil_r. by repeat (split; [done|]). }
  inversion Hn as [|? ? Hi Hn']; subst.
  assert (Hsync : is_synchronous idx delay
    = String.eqb (im_index_type idx) "LSI" || (effective_delay idx delay =? 0)%N) by done.
  destruct (is_synchronous idx delay) eqn:Es.
  - destruct (IH q n Hn' Hq Hk Hc) as (q' & n' & ps & He & H1 & H2 & [H3 H4]);
      [intros; eapply Hs; [by right|done]|].
    exists q', n', ps. split.
    { destruct (String.eqb (im_index_type idx) "LSI"); [done|]. simpl in Hsync. by rewrite <- Hsync. }
    split; [done|]. split; [done|]. split.
    + intros p Hp. destruct (H3 p Hp) as (idx' & ? & ?). exists idx'. split; [by right|done].
    + intros idx' [<-|Hin] Hs'; [congruence|by apply H4].
  - symmetry in Hsync. apply orb_false_iff in Hsync as [-> ->].
    destruct Hc as [item Hitem].
    assert (Hki : item_key item k) by (apply Hk; destruct new; simpl in Hitem; [right|left]; congruence).
    destruct (item_key_text item k Hki) as (t & Hhead & Ht).
    destruct (enqueue_pending_row env q (tki_table_id key_info) old new (effective_delay idx delay)
      (gsi_context key_info idx)) as [q1|] eqn:Eq.
    2:{ exfalso. unfold enqueue_pending_row in Eq. fold (changed old new) in Eq. rewrite Hitem in Eq.
        cbn [gc_base_key_schema gsi_context] in Eq. by rewrite Ht in Eq. }
    destruct (enqueue_row _ _ _ _ _ _ _ _ Eq Hq) as (p & Hrows & _ & _ & Hpt & Hpo & Hpn & Hpc & Hpp & Hq1).
    assert (Hrow : row_ok idx p).
    { split; [done|done| |].
      - rewrite Hpn. intros i Hi'. by apply (Hs idx i (or_introl eq_refl)).
      - exists k. split; [apply (pending_key_item p item); [by rewrite Hpo, Hpn|done]|].
        rewrite Hpo, Hpn. split; [done|]. exists t. split; [done|].
        destruct (Hpp item Hitem) as (t' & Ht' & Hpart). simpl in Ht'. congruence. }
    destruct (IH q1 (n + 1) Hn' Hq1 Hk (ex_intro _ _ Hitem)) as (q' & n' & ps & He & H1 & H2 & [H3 H4]);
      [intros; eapply Hs; [by right|done]|].
    exists q', n', (p :: ps). split; [done|]. split; [done|].
    assert (Hid : forall idx', In idx' l ->
      String.eqb (im_index_id idx) (im_index_id idx') = false).
    { intros idx' Hin. apply String.eqb_neq. intros E. apply Hi. rewrite E. by apply list_elem_of_In, in_map. }
    split; [rewrite H2, Hrows, <- app_assoc; done|]. split.
    + intros p' [<-|Hp']; [exists idx; split; [by left|]; done|].
      destruct (H3 p' Hp') as (idx' & ? & ?). exists idx'. split; [by right|done].
    + intros idx' [<-|Hin] Hs'.
      * exists p. cbn [List.filter]. unfold row_for at 1.
        destruct (ro_key _ _ Hrow) as (k' & Hk' & Hik & _).
        assert (k' = k) as ->.
        { eapply item_key_inj; [|exact Hki]. apply Hik. rewrite Hpo, Hpn.
          destruct new; simpl in Hitem; [right|left]; congruence. }
        rewrite Hk', bool_decide_eq_true_2, (ro_context _ _ Hrow) by done.
        cbn [gsi_context gc_index gd_index_id]. rewrite String.eqb_refl. cbn [andb]. f_equal.
        apply filter_none. intros p' Hp'. destruct (H3 p' Hp') as (idx' & Hin & _ & Hr' & _).
        unfold row_for. rewrite (ro_context _ _ Hr'). cbn [gsi_context gc_index gd_index_id].
        rewrite String.eqb_sym, (Hid idx' Hin). done.
      * destruct (H4 idx' Hin Hs') as (p' & Hp'). exists p'. cbn [List.filter]. unfold row_for at 1.
        rewrite (ro_context _ _ Hrow). cbn [gsi_context gc_index gd_index_id]. by rewrite (Hid idx' Hin).
Qed.

(** *** The whole *)

(** The database keeps [items] in the table.  Every index holds rows that the queue
    brings up to [items], and no index that [delay] makes synchronous has a queue. *)
Record store_ok (delay : N) (db : Db) items : Prop := {
  sto_base : exists t, db_tables db !! table_name = Some t /\ base_holds t items;
  sto_index : forall idx, In idx indexes -> exists f, index_holds_at (db_tables db) idx f
    /\ forall k, exists start, f k = start ≫= image idx
         /\ chain start (List.filter (row_for idx k) (q_rows (db_queue db))) (items k);
  sto_queue : queue_ordered (db_queue db);
  sto_rows : forall p idx, In p (q_rows (db_queue db)) -> In idx indexes ->
    gd_index_id (gc_index (pn_context p)) = im_index_id idx -> row_ok idx p /\ is_synchronous idx delay = false;
  sto_foreign : forall p, In p (q_rows (db_queue db)) ->
    gd_index_id (gc_index (pn_context p)) <> tki_table_id key_info
}.

(** An index without queued rows is what the items make it. *)
Definition settled (db : Db) items (idx : IndexMeta) : Prop :=
  index_holds_at (db_tables db) idx (fun k => items k ≫= image idx).

Lemma no_rows_settled delay db items idx : store_ok delay db items -> In idx indexes ->
  (forall p, In p (q_rows (db_queue db)) -> gd_index_id (gc_index (pn_context p)) <> im_index_id idx) ->
  settled db items idx.
Proof.
  intros Hs Hi Hn. destruct (sto_index _ _ _ Hs idx Hi) as (f & (t & Ht & Hh) & Hf).
  exists t. split; [done|]. eapply index_holds_ext; [|done]. intros k.
  destruct (Hf k) as (start & -> & Hc). rewrite filter_none in Hc; [by rewrite Hc|].
  intros p Hp. unfold row_for. apply andb_false_iff. left. apply String.eqb_neq. by apply Hn.
Qed.

Lemma synchronous_settled delay db items idx : store_ok delay db items -> In idx indexes ->
  is_synchronous idx delay = true -> settled db items idx.
Proof.
  intros Hs Hi Hsync. apply (no_rows_settled delay); [done|done|]. intros p Hp E.
  destruct (sto_rows _ _ _ Hs p idx Hp Hi E). congruence.
Qed.

Lemma table_name_apart idx : indexes_ok -> In idx indexes -> table_name <> index_table_name (im_index_id idx).
Proof.
  intros Hio Hi E. apply index_table_name_inj in E. apply (ixo_table Hio). rewrite E.
  by apply list_elem_of_In, in_map.
Qed.

Lemma index_ids_inj idx idx' : indexes_ok -> In idx indexes -> In idx' indexes ->
  im_index_id idx = im_index_id idx' -> idx = idx'.
Proof.
  intros Hio. pose proof (ixo_ids Hio) as Hn. apply NoDup_ListNoDup in Hn. by apply NoDup_map_In.
Qed.

(** The rows of an index that has them queued lead on to the new item. *)
Lemma queued_chain delay items k old new ps rows idx f :
  queued indexes delay old new k ps -> In idx indexes -> is_synchronous idx delay = false ->
  old = items k -> (forall item, old = Some item \/ new = Some item -> item_key item k) ->
  is_Some (changed old new) ->
  (forall k', exists start, f k' = start ≫= image idx /\ chain start (List.filter (row_for idx k') rows) (items k')) ->
  forall k', exists start, f k' = start ≫= image idx
    /\ chain start (List.filter (row_for idx k') (rows ++ ps)) (set_at k new items k').
Proof.
  intros [Hps Hone] Hi Esy Hold Hk Hc Hf k'. destruct (Hf k') as (start & Hstart & Hch).
  exists start. split; [done|]. rewrite List.filter_app. unfold set_at. case_bool_decide as E.
  - subst k'. destruct (Hone idx Hi Esy) as (p & Hp). rewrite Hp.
    assert (In p ps) as Hin.
    { assert (In p (List.filter (row_for idx k) ps)) as [? _]%filter_In by (rewrite Hp; by left). done. }
    destruct (Hps p Hin) as (_ & _ & _ & _ & Ho & <-). eapply chain_snoc; [done|]. by rewrite Ho.
  - rewrite (filter_none _ ps); [by rewrite app_nil_r|]. intros p Hp.
    destruct (Hps p Hp) as (idx' & _ & _ & Hr & Ho & Hn). unfold row_for. apply andb_false_iff. right.
    apply bool_decide_eq_false. intros Ek. apply E.
    destruct Hc as [item Hitem]. rewrite (pending_key_item p item k) in Ek; [congruence| |].
    + by rewrite Ho, Hn.
    + apply Hk. destruct new; simpl in Hitem; [right|left]; congruence.
Qed.

(** Rows of the queue and of a write, addressed to an index. *)
Lemma queued_rows_ok delay db items k old new ps p idx :
  indexes_ok -> store_ok delay db items -> queued indexes delay old new k ps ->
  In p (q_rows (db_queue db) ++ ps) -> In idx indexes ->
  gd_index_id (gc_index (pn_context p)) = im_index_id idx -> row_ok idx p /\ is_synchronous idx delay = false.
Proof.
  intros Hio Hs [Hps _] Hp Hi E. apply in_app_iff in Hp as [Hp|Hp]; [by apply (sto_rows _ _ _ Hs)|].
  destruct (Hps p Hp) as (idx' & Hi' & Hs' & Hr & _). rewrite (ro_context _ _ Hr) in E. simpl in E.
  by rewrite <- (index_ids_inj idx' idx Hio Hi' Hi E).
Qed.

(** A synchronous index follows the change at once; no other table does. *)
Lemma sync_write_holds delay tables t' items k old new :
  indexes_ok ->
  (forall idx, In idx indexes -> is_synchronous idx delay = true ->
     index_holds_at tables idx (fun k => items k ≫= image idx)) ->
  (indexes <> [] -> old = items k) ->
  (forall item, old = Some item \/ new = Some item -> item_key item k) ->
  (forall idx item, In idx indexes -> new = Some item -> storable idx item) ->
  exists tables', unless_empty indexes (<[table_name := t']> tables)
      (sync_indexes (D := D) (<[table_name := t']> tables) base_ks base_defs indexes old new delay)
      = Ok tables'
    /\ tables' !! table_name = Some t'
    /\ (forall idx, In idx indexes ->
         if is_synchronous idx delay
         then index_holds_at tables' idx (set_at k (new ≫= image idx) (fun k => items k ≫= image idx))
         else tables' !! index_table_name (im_index_id idx) = tables !! index_table_name (im_index_id idx))
    /\ forall name, name <> table_name -> (forall idx, In idx indexes -> name <> index_table_name (im_index_id idx)) ->
         tables' !! name = tables !! name.
Proof.
  intros Hio Hsettled Hold Hk Hst.
  assert (Hsync : forall idx, In idx indexes -> is_synchronous idx delay = true ->
    index_holds_at (<[table_name := t']> tables) idx (fun k => items k ≫= image idx)
    /\ items k ≫= image idx = old ≫= image idx /\ forall item, new = Some item -> storable idx item).
  { intros idx Hi Hsy. destruct (Hsettled idx Hi Hsy) as (u & Hu & Hh). split.
    - exists u. split; [|done]. rewrite lookup_insert_ne; [done|]. by apply table_name_apart.
    - split; [|intros item; by apply Hst]. rewrite Hold; [done|]. by destruct indexes. }
  destruct (sync_loop_holds delay old new k (fun idx k => items k ≫= image idx) indexes
    (<[table_name := t']> tables) (ixo_ids Hio) Hsync) as (tables' & Hl & HI & HO).
  { intros item Hi. by destruct (table_key_Ok _ _ _ (Hk item Hi)) as (_ & _ & ?). }
  exists tables'. split; [unfold sync_indexes; fold base_sks; rewrite <- Hl; by destruct indexes|]. split; [|split].
  - rewrite HO, lookup_insert_eq; [done|]. intros idx Hi _. by apply table_name_apart.
  - intros idx Hi. destruct (is_synchronous idx delay) eqn:Esy; [by apply HI|]. rewrite HO.
    + rewrite lookup_insert_ne; [done|]. by apply table_name_apart.
    + intros idx' Hi' Hsy' E. apply index_table_name_inj in E.
      rewrite (index_ids_inj idx idx' Hio Hi Hi' E) in Esy. congruence.
  - intros name Hname Hidx. rewrite HO by (intros idx Hi _; by apply Hidx). by apply lookup_insert_ne.
Qed.

(** The stream after a change. *)
Definition captured (senv : StreamEnv) (s : Streams) (stream : option StreamCapture) (old new : option Item)
    : result StorageError Streams :=
  match stream with
  | Some capture => write_stream_record_in_tx senv s key_info capture old new
  | None => Ok s
  end.

(** What follows the change of the base row keeps the indexes and the queue. *)
Lemma after_write_holds env senv delay db t' items k old new stream :
  indexes_ok -> store_ok delay db items -> base_holds t' (set_at k new items) ->
  (indexes <> [] -> old = items k) ->
  (forall item, old = Some item \/ new = Some item -> item_key item k) -> is_Some (changed old new) ->
  (forall idx item, In idx indexes -> new = Some item -> storable idx item) ->
  match after_write (D := D) env senv db (<[table_name := t']> (db_tables db)) key_info indexes old new
          stream delay, captured senv (db_streams db) stream old new with
  | Ok (db', _), Ok streams => store_ok delay db' (set_at k new items) /\ db_streams db' = streams
  | Err e, Err e' => e = e'
  | _, _ => False
  end.
Proof.
  intros Hio Hs Ht' Hold Hk Hc Hst. unfold after_write.
  destruct (sync_write_holds delay (db_tables db) t' items k old new Hio
    (fun idx Hi Hsy => synchronous_settled delay db items idx Hs Hi Hsy) Hold Hk Hst) as (tables' & -> & Hbase & Hix & _).
  destruct (enqueue_holds env delay old new k indexes (db_queue db) 0 (ixo_ids Hio) (sto_queue _ _ _ Hs) Hk Hc Hst)
    as (q' & n' & ps & -> & Hq' & Hrows & Hq).
  cbn [fst snd].
  fold (captured senv (db_streams db) stream old new).
  destruct (captured senv (db_streams db) stream old new) as [streams|e]; [|done]. split; [|done].
  split; cbn [db_tables db_queue]; rewrite ?Hrows.
  - by exists t'.
  - intros idx Hi. specialize (Hix idx Hi). destruct (is_synchronous idx delay) eqn:Esy.
    + eexists. split; [exact Hix|]. intros k'. exists (set_at k new items k').
      split; [unfold set_at; by case_bool_decide|]. rewrite filter_none; [done|].
      intros p Hp. unfold row_for. apply andb_false_iff. left. apply String.eqb_neq. intros E.
      destruct (queued_rows_ok delay db items k old new ps p idx Hio Hs Hq Hp Hi E). congruence.
    + destruct (sto_index _ _ _ Hs idx Hi) as (f & (u & Hu & Hh) & Hf). exists f.
      split; [exists u; by rewrite Hix|]. eapply queued_chain; try done. apply Hold. by destruct indexes.
  - done.
  - intros p idx Hp Hi E. by eapply queued_rows_ok.
  - intros p [Hp|Hp]%in_app_iff E; [by apply (sto_foreign _ _ _ Hs p)|].
    destruct (qd_rows _ _ _ _ _ _ Hq p Hp) as (idx' & Hi' & _ & Hr & _). rewrite (ro_context _ _ Hr) in E. simpl in E.
    apply (ixo_table Hio). rewrite <- E. by apply list_elem_of_In, in_map.
Qed.

(** *** Items that can be indexed *)

(** Every number of the item's attributes is a number. *)
Definition numbers_parse (item : Item) : Prop :=
  forall name n, bt_get name item = Some (AV_N n) -> exists d : D, bd_parse n = Some d.

Lemma collect_results_exists {A B : Type} (f : A -> result StorageError B) l :
  (forall x, In x l -> exists y, f x = Ok y) -> exists ys, collect_results f l = Ok ys.
Proof.
  induction l as [|x l IH]; intros Hf; simpl; [by exists []|].
  destruct (Hf x (or_introl eq_refl)) as [y ->]. destruct IH as [ys ->]; [|by exists (y :: ys)].
  intros z Hz. apply Hf. by right.
Qed.

Lemma scalar_pk_text ty v : scalar_matches ty v = true -> exists t, pk_to_text v = Ok t.
Proof. destruct ty, v; try done; intros _; by eexists. Qed.

Lemma scalar_bound item name ty v : numbers_parse item -> bt_get name item = Some v ->
  scalar_matches ty v = true -> exists b, bound_of (D := D) v ty = Ok b.
Proof.
  intros Hn Hv. unfold bound_of. destruct ty, v; try done; intros _; simpl; [by eexists| |by eexists].
  destruct (Hn _ _ Hv) as [d ->]. by eexists.
Qed.

(** An item whose index keys passed the check of types can be stored in every index. *)
Lemma typed_storable item k idx : indexes_ok -> numbers_parse item -> item_key item k ->
  validate_index_key_types item (index_key_refs indexes) (fresh_attr_defs indexes base_defs) = Ok tt ->
  In idx indexes -> storable idx item.
Proof.
  intros Hio Hn Hk Hv Hi Hh. rewrite index_key_types_Ok in Hv.
  assert (Hkey : forall ks, In ks (im_key_schema idx) -> exists v ad,
    bt_get (ks_attribute_name ks) item = Some v
    /\ find_def (ks_attribute_name ks) (im_attribute_definitions idx) = Some ad
    /\ scalar_matches (ad_attribute_type ad) v = true).
  { intros ks Hks. unfold item_has_index_keys in Hh. rewrite forallb_forall in Hh. specialize (Hh ks Hks).
    unfold bt_contains_key in Hh. destruct (bt_get (ks_attribute_name ks) item) as [v|] eqn:Ev; [|done].
    destruct (ixo_defined Hio idx ks Hi Hks) as [ad Had]. exists v, ad. split; [done|]. split; [done|].
    rewrite (ixo_defs Hio idx Hi) in Had.
    apply (Hv {| ikr_index_name := im_index_name idx; ikr_key_schema := im_key_schema idx |} ks); try done.
    unfold index_key_refs. apply in_map_iff. by exists idx. }
  destruct (table_key_Ok _ _ _ Hk) as (_ & _ & Hb). unfold base_key in Hb.
  destruct (composite_pk_to_text item base_ks) as [base_text|] eqn:Ebt; [|done].
  destruct (sk_values item base_sks) as [bv|] eqn:Ebv; [|done].
  unfold index_row. rewrite Ebt, Ebv.
  assert (exists t, composite_pk_to_text item (im_key_schema idx) = Ok t) as [t ->].
  { unfold composite_pk_to_text.
    assert (Hpart : forall ks, In ks (hash_key_elements (im_key_schema idx)) -> exists v t,
      bt_get (ks_attribute_name ks) item = Some v /\ pk_to_text v = Ok t).
    { intros ks [Hks _]%filter_In. destruct (Hkey ks Hks) as (v & ad & Ev & _ & Hs).
      destruct (scalar_pk_text _ _ Hs) as [t Ht]. eauto. }
    assert (exists parts, collect_results (hash_part item) (hash_key_elements (im_key_schema idx)) = Ok parts) as [parts Hparts].
    { apply collect_results_exists. intros ks Hks. destruct (Hpart ks Hks) as (v & t & Ev & Ht).
      unfold hash_part. rewrite Ev. simpl. eauto. }
    destruct (hash_key_elements _) as [|ks [|ks' l]] eqn:El; [by rewrite Hparts; eexists| |by rewrite Hparts; eexists].
    destruct (Hpart ks (or_introl eq_refl)) as (v & t & -> & Ht). simpl. eauto. }
  assert (exists vs, sk_values (D := D) item (idx_sks idx) = Ok vs) as [vs ->].
  { apply collect_results_exists. intros [name ty] Hsk. apply list_elem_of_In, list_elem_of_omap in Hsk as (ks & Hks & E).
    apply list_elem_of_In, filter_In in Hks as [Hks _].
    destruct (Hkey ks Hks) as (v & ad & Ev & Had & Hs). rewrite Had in E. injection E as <- <-.
    unfold sk_bind. simpl. rewrite Ev. by eapply scalar_bound. }
  by eexists.
Qed.

(** *** The operations *)

Lemma store_ok_ext delay db items items' : (forall k, items k = items' k) ->
  store_ok delay db items -> store_ok delay db items'.
Proof.
  intros E [(t & Ht & [B1 B2 B3 B4]) H2 H3 H4 H5]. split; [|intros idx Hi|done|done|done].
  - exists t. split; [done|]. split; [done|done| |]; intros k; [rewrite <- E; apply B3|].
    intros i. rewrite <- E. apply B4.
  - destruct (H2 idx Hi) as (f & Hf & Hc). exists f. split; [done|]. intros k. rewrite <- E. apply Hc.
Qed.

Lemma fetch_base tables t items item : tables !! table_name = Some t -> base_holds t items ->
  fetch_item_in_tx (D := D) tables key_info item
  = match table_key (D := D) key_info item with Ok ck => Ok (items ck.2) | Err e => Err e end.
Proof.
  intros Ht Hb. destruct (table_key key_info item) as [[cols k]|e] eqn:Ek.
  - destruct (table_key_Ok _ _ _ Ek) as (Hk & _). by apply (fetch_holds _ t).
  - unfold fetch_item_in_tx. by rewrite Ek.
Qed.

Lemma fetch_store_ok delay db items item : store_ok delay db items ->
  fetch_item_in_tx (D := D) (db_tables db) key_info item
  = match table_key (D := D) key_info item with Ok ck => Ok (items ck.2) | Err e => Err e end.
Proof. intros Hs. destruct (sto_base _ _ _ Hs) as (t & Ht & Hb). by apply (fetch_base _ t). Qed.

(** The index keys of an item that a write has checked. *)
Lemma checked_storable item k : indexes_ok -> numbers_parse item -> item_key item k ->
  unless_empty indexes tt (validated (validate_index_key_types item (index_key_refs indexes)
    (fresh_attr_defs indexes base_defs))) = Ok tt ->
  forall idx i, In idx indexes -> Some item = Some i -> storable idx i.
Proof.
  intros Hio Hn Hk Hv idx i Hi [= <-]. eapply typed_storable; [done|done|done| |done].
  destruct indexes; [done|]. simpl in Hv. by destruct (validate_index_key_types _ _ _) as [[]|[]].
Qed.

Lemma put_storable item k : indexes_ok -> numbers_parse item -> item_key item k ->
  unless_empty indexes tt (validated (validate_index_keys item (index_key_refs indexes)
    (fresh_attr_defs indexes base_defs))) = Ok tt ->
  forall idx i, In idx indexes -> Some item = Some i -> storable idx i.
Proof.
  intros Hio Hn Hk Hv. eapply checked_storable; [done|done|done|]. destruct indexes; [done|]. simpl in Hv |- *.
  unfold validate_index_keys in Hv. by destruct (validate_index_key_types _ _ _) as [[]|[]].
Qed.

(** PutItem reads the old item whenever something depends on it. *)
Lemma put_reads_old items k return_old condition maps (stream : option StreamCapture) :
  exists old, (if is_some condition || return_old || negb (bool_decide (indexes = [])) || is_some stream
               then Ok (items k) else Ok None) = (Ok old : result StorageError (option Item))
    /\ check_old condition old maps = check_old condition (items k) maps
    /\ (old = items k \/ old = None)
    /\ (return_old = true -> old = items k) /\ (indexes <> [] -> old = items k)
    /\ (forall capture, stream = Some capture -> old = items k).
Proof.
  destruct (_ || _ || _ || _) eqn:En; [by exists (items k); repeat (split; [by auto|])|]. exists None.
  destruct condition; [done|]. destruct return_old; [done|]. destruct (decide (indexes = [])) as [E|E];
    [|by rewrite bool_decide_eq_false_2 in En]. destruct stream; [by rewrite !orb_true_r in En|].
  by repeat (split; [by auto|]).
Qed.

Lemma item_key_ext i i' k :
  (forall ks, In ks base_ks -> bt_get (ks_attribute_name ks) i' = bt_get (ks_attribute_name ks) i) ->
  item_key i k -> item_key i' k.
Proof.
  unfold item_key, table_key, sk_info. intros E. destruct base_ks as [|h rest] eqn:Eb; [done|].
  rewrite (E h (or_introl eq_refl)). destruct (List.find _ _) as [r|] eqn:Ef; [|done].
  apply find_some in Ef as [Hr _]. destruct (find_def (ks_attribute_name r) _); [|done]. by rewrite (E r Hr).
Qed.

(** What UpdateItem makes of the item with key [k]. *)
Definition updated items (key : Item) k (actions : list UpdateAction) maps : res Item :=
  apply_update actions (default key (items k)) maps.

Lemma updated_base_key t items key k actions maps item : base_holds t items -> item_key key k ->
  validate_no_key_updates actions key_info maps = Ok tt -> updated items key k actions maps = Ok item ->
  item_key item k.
Proof.
  intros Hb Hk Hv Hu. eapply item_key_ext.
  - intros ks Hks. eapply apply_update_frame; [|exact Hu]. intros a Ha. by eapply key_updates_off_path.
  - destruct (items k) as [old|] eqn:E; simpl; [|done]. by apply (bh_items _ _ Hb).
Qed.

Lemma updated_key delay db items key k actions maps item : store_ok delay db items -> item_key key k ->
  validate_no_key_updates actions key_info maps = Ok tt -> updated items key k actions maps = Ok item ->
  item_key item k.
Proof. intros Hs. destruct (sto_base _ _ _ Hs) as (t & _ & Hb). by apply (updated_base_key t). Qed.

(** The checks of the index keys of the item an update made. *)
Definition written_keys (item : Item) : result StorageError unit :=
  unless_empty indexes tt
    (let? _ := validated (validate_index_key_types_after_update item (index_key_refs indexes)
       (fresh_attr_defs indexes base_defs)) in
     validated (validate_index_key_not_empty item (index_key_refs indexes) EmptyUpdateExpression)).

Lemma validated_Ok {A : Type} (r : res A) x : validated r = Ok x -> r = Ok x.
Proof. destruct r as [|[]]; simpl; congruence. Qed.

Lemma update_storable item k : indexes_ok -> numbers_parse item -> item_key item k ->
  written_keys item = Ok tt -> forall idx i, In idx indexes -> Some item = Some i -> storable idx i.
Proof.
  intros Hio Hn Hk Hv. eapply checked_storable; [done|done|done|]. unfold written_keys in Hv.
  destruct indexes; [done|]. simpl in Hv |- *.
  unfold validate_index_key_types_after_update in Hv. by destruct (validate_index_key_types _ _ _) as [[]|[]].
Qed.

(** *** The beginning *)

(** The data tables of a new table and its indexes, beside the others. *)
Definition created_tables (tables : Tables) : Tables :=
  fold_right (fun idx tables => create_index_data_table tables (im_index_id idx) base_ks base_defs)
    (create_data_table tables (tki_table_id key_info) base_ks base_defs) indexes.

Lemma created_index tables idx : In idx indexes ->
  created_tables tables !! index_table_name (im_index_id idx)
  = Some {| tbl_key := "pk" :: base_columns base_sks; tbl_rows := [] |}.
Proof.
  unfold created_tables. generalize (create_data_table tables (tki_table_id key_info) base_ks base_defs) as ts.
  intros ts. induction indexes as [|i l IH]; simpl; [done|].
  intros Hi. unfold create_index_data_table at 1.
  destruct (decide (im_index_id i = im_index_id idx)) as [->|Hne]; [by rewrite lookup_insert_eq|].
  rewrite lookup_insert_ne by (by intros E%index_table_name_inj). destruct Hi as [->|Hi]; [done|by apply IH].
Qed.

Lemma created_data tables : indexes_ok ->
  created_tables tables !! table_name = Some {| tbl_key := key_columns; tbl_rows := [] |}.
Proof.
  intros Hio. pose proof (fun idx => table_name_apart idx Hio) as Ha. clear Hio. revert Ha.
  unfold created_tables. induction indexes as [|i l IH]; simpl; intros Ha.
  - unfold create_data_table. by rewrite lookup_insert_eq.
  - unfold create_index_data_table at 1. rewrite lookup_insert_ne; [apply IH; intros; apply Ha; by right|].
    intros E. by apply (Ha i (or_introl eq_refl)).
Qed.

(** The rows of a queue are about other tables. *)
Definition queue_apart (q : Queue) : Prop :=
  forall p, In p (q_rows q) ->
    gd_index_id (gc_index (pn_context p)) ∉ tki_table_id key_info :: map im_index_id indexes.

(** A new table is empty, and so are its indexes. *)
Lemma created_store_ok delay tables q streams : indexes_ok -> queue_ordered q -> queue_apart q ->
  store_ok delay {| db_tables := created_tables tables; db_queue := q; db_streams := streams |} (fun _ => None).
Proof.
  intros Hio Hq Ha.
  assert (Hno : forall p idx, In p (q_rows q) -> In idx indexes ->
    gd_index_id (gc_index (pn_context p)) <> im_index_id idx).
  { intros p idx Hp Hi E. apply (Ha p Hp). rewrite E. right. by apply list_elem_of_In, in_map. }
  split; cbn [db_tables db_queue]; [| |done| |].
  - eexists. split; [by apply created_data|]. split; [done|by intros r|done|done].
  - intros idx Hi. exists (fun _ => None). split.
    + eexists. split; [by apply created_index|]. split; [done|by intros r|done].
    + intros k. exists None. split; [done|]. rewrite filter_none; [done|]. intros p Hp.
      unfold row_for. apply andb_false_iff. left. apply String.eqb_neq. by apply Hno.
  - intros p idx Hp Hi E. by destruct (Hno p idx Hp Hi).
  - intros p Hp E. apply (Ha p Hp). rewrite E. by left.
Qed.
End Refinement.
