(* ===== verification/SqliteWorker.v ===== *)
(** * The propagation worker

    [process_gsi_batch] of [crates/storage-sqlite/src/workers.rs] and the loop that
    drains what is due.  The order in which DELETE .. RETURNING answers is SQLite's, and
    so are the errors of its statements: an oracle says which rows meet one. *)

From Stdlib Require Import Sorted.
From stdpp Require Import sorting.
From S2P Require Import Prelude BTree Types Error Decimal Number Ast Tokenizer Resolver Evaluator.
From S2P Require Import UpdateEvaluator ItemSize Storage StorageKey NumberKey KeyOrder SqlSelect Projection.
From S2P Require Import ReadPage SqliteQuery SqlWrite IndexKeys UpdateKeys SqliteIndex SqliteQueue.
From S2P Require Import SqliteStore StoreRefine.

Definition GSI_BATCH : nat := 100.

(** The order of the rows that DELETE .. RETURNING answers with is undefined. *)
Class Returning : Type := returning : list Pending -> list Pending.
Class ReturningLaws `{Returning} : Prop := returning_perm : forall l, Permutation (returning l) l.

Fixpoint insert_by_id (p : Pending) (l : list Pending) : list Pending :=
  match l with
  | [] => [p]
  | p' :: l' => if (pn_id p <=? pn_id p')%Z then p :: l else p' :: insert_by_id p l'
  end.

Definition sort_by_id (l : list Pending) : list Pending := foldr insert_by_id [] l.

(** The WHERE of the subselect: [now] is its time, [creating] the tables with a vector
    index being built. *)
Definition is_due (now : string) (creating : list string) (p : Pending) : bool :=
  negb (text_gt (pn_ready_at p) now) && negb (existsb (String.eqb (pn_table_id p)) creating).

(** [SELECT id .. ORDER BY id LIMIT ?]. *)
Definition claim (now : string) (creating : list string) (rows : list Pending) : list Pending :=
  take GSI_BATCH (sort_by_id (List.filter (is_due now creating) rows)).

Definition claimed (claims : list Pending) (p : Pending) : bool :=
  existsb (fun c => (pn_id c =? pn_id p)%Z) claims.

Section Worker.
Context `{HR : Rendering} `{HB : Base64} {D : Type} `{HD : BigDecimal D} `{HP : !BigDecimalParts D}
  `{HM : SqliteDml} `{HE : SqliteErrors} `{HRet : Returning}.

(** [apply_pending_row] with the fault it meets, if any. *)
Definition apply_pending_row (fault : Pending -> option StorageError) (tables : Tables) (p : Pending)
    : result StorageError Tables :=
  match fault p with
  | Some e => Err e
  | None => apply_claimed_row (D := D) tables (pn_old p) (pn_new p) (pn_context p)
  end.

(** The rows of the batch, each in its savepoint: a transient error ends the batch,
    any other drops the row. *)
Fixpoint apply_batch (fault : Pending -> option StorageError) (tables : Tables) (rows : list Pending)
    : result StorageError Tables :=
  match rows with
  | [] => Ok tables
  | p :: rest =>
      match apply_pending_row fault tables p with
      | Ok tables => apply_batch fault tables rest
      | Err (SE_Transient m) => Err (SE_Transient m)
      | Err _ => apply_batch fault tables rest
      end
  end.

(** The database after the batch and the number of rows it took. *)
Definition process_gsi_batch (fault : Pending -> option StorageError) (now : string)
    (creating : list string) (db : Db) : result StorageError (Db * nat) :=
  let claims := claim now creating (q_rows (db_queue db)) in
  let rows := sort_by_id (returning claims) in
  let? tables := apply_batch fault (db_tables db) rows in
  Ok ({| db_tables := tables;
         db_queue := {| q_rows := List.filter (fun p => negb (claimed claims p)) (q_rows (db_queue db));
                        q_seq := q_seq (db_queue db) |};
         db_streams := db_streams db |}, length rows).

(** The inner loop of [gsi_propagation_worker]: batches until one is empty or fails,
    each at its own time. *)
Fixpoint drain_due (fuel : nat) (fault : nat -> Pending -> option StorageError) (now : nat -> string)
    (creating : nat -> list string) (db : Db) : option (Db * bool) :=
  match fuel with
  | O => None
  | S fuel =>
      match process_gsi_batch (fault fuel) (now fuel) (creating fuel) db with
      | Ok (db, n) =>
          if 0 <? n then drain_due fuel fault now creating db else Some (db, false)
      | Err _ => Some (db, true)
      end
  end.
End Worker.

(** ** Which rows a batch takes *)

Lemma StronglySorted_weaken {A : Type} (R S : A -> A -> Prop) l :
  (forall x y, R x y -> S x y) -> StronglySorted R l -> StronglySorted S l.
Proof.
  intros Hi. induction 1 as [|x l Hs IH Hx]; constructor; [done|]. by eapply List.Forall_impl; [|exact Hx]; auto.
Qed.

Lemma insert_by_id_perm p l : Permutation (insert_by_id p l) (p :: l).
Proof.
  induction l as [|p' l IH]; simpl; [done|]. destruct (_ <=? _)%Z; [done|]. rewrite IH. constructor.
Qed.

Lemma sort_by_id_perm l : Permutation (sort_by_id l) l.
Proof. induction l as [|p l IH]; simpl; [done|]. by rewrite insert_by_id_perm, IH. Qed.

Definition id_lt (p p' : Pending) : Prop := (pn_id p < pn_id p')%Z.

Lemma sort_by_id_sorted l : StronglySorted id_lt l -> sort_by_id l = l.
Proof.
  induction 1 as [|p l Hs IH Hp]; simpl; [done|]. rewrite IH. destruct l as [|p' l]; [done|]. simpl.
  inversion Hp as [|? ? Hlt _]; subst. unfold id_lt in Hlt. rewrite (proj2 (Z.leb_le _ _)) by lia. done.
Qed.

Lemma insert_by_id_le p l : StronglySorted (fun p p' => pn_id p <= pn_id p')%Z l ->
  StronglySorted (fun p p' => pn_id p <= pn_id p')%Z (insert_by_id p l).
Proof.
  induction 1 as [|p' l Hs IH Hp]; simpl; [by repeat constructor|].
  destruct (Z.leb_spec (pn_id p) (pn_id p')) as [Hle|Hlt].
  - constructor; [by constructor|]. constructor; [done|]. rewrite List.Forall_forall in *.
    intros x Hx. specialize (Hp x Hx). simpl in *. lia.
  - constructor; [done|]. rewrite List.Forall_forall in *. intros x Hx.
    rewrite insert_by_id_perm in Hx. destruct Hx as [<-|Hx]; [simpl; lia|by apply Hp].
Qed.

(** Sorting undoes any order of the answer. *)
Lemma sort_by_id_unique l k : StronglySorted id_lt l -> Permutation k l -> sort_by_id k = l.
Proof.
  intros Hl Hp. eapply (StronglySorted_unique_strong (fun p p' => pn_id p <= pn_id p')%Z).
  - intros p p' Hx Hy H1 H2. rewrite sort_by_id_perm, Hp in Hx. apply list_elem_of_In in Hx, Hy.
    assert (pn_id p = pn_id p') as E by lia. clear -Hl Hx Hy E.
    induction Hl as [|z l Hs IH Hz]; [done|]. rewrite List.Forall_forall in Hz.
    destruct Hx as [->|Hx], Hy as [->|Hy]; [done| | |by apply IH];
      [specialize (Hz _ Hy)|specialize (Hz _ Hx)]; unfold id_lt in Hz; lia.
  - clear. induction k as [|x k IH]; simpl; [constructor|by apply insert_by_id_le].
  - eapply StronglySorted_weaken; [|exact Hl]. unfold id_lt. intros; lia.
  - by rewrite sort_by_id_perm.
Qed.

Lemma In_take {A : Type} (x : A) n l : In x (take n l) -> In x l.
Proof. intros Hx. rewrite <- (take_drop n l). apply in_app_iff. by left. Qed.

Lemma take_sorted {A : Type} (R : A -> A -> Prop) n l : StronglySorted R l -> StronglySorted R (take n l).
Proof.
  revert n. induction l as [|x l IH]; intros n Hs; [by rewrite take_nil|]. destruct n; simpl; [constructor|].
  inversion Hs as [|? ? Hs' Hx]; subst. constructor; [by apply IH|]. by apply Forall_take.
Qed.

Lemma queue_ids q : queue_ordered q -> StronglySorted id_lt (q_rows q).
Proof. intros [H _]. eapply StronglySorted_weaken; [|exact H]. by intros p p' [? _]. Qed.

Section Claims.
Context (now : string) (creating : list string).

(** The rows of an ordered queue are claimed in its order. *)
Lemma claim_ordered rows : StronglySorted id_lt rows ->
  claim now creating rows = take GSI_BATCH (List.filter (is_due now creating) rows).
Proof. intros Hs. unfold claim. by rewrite sort_by_id_sorted by (by apply StronglySorted_List_filter). Qed.

Lemma claimed_In claims p : claimed claims p = true <-> exists c, In c claims /\ pn_id c = pn_id p.
Proof.
  unfold claimed. rewrite existsb_exists. split; intros (c & Hc & E); exists c; (split; [done|]);
    [by apply Z.eqb_eq|by apply Z.eqb_eq].
Qed.

Lemma ids_inj rows p p' : StronglySorted id_lt rows -> In p rows -> In p' rows -> pn_id p = pn_id p' -> p = p'.
Proof.
  induction 1 as [|z l Hs IH Hz]; [done|]. rewrite List.Forall_forall in Hz. intros [->|Hx] [->|Hy] E;
    [done| | |by apply IH]; [specialize (Hz _ Hy)|specialize (Hz _ Hx)]; unfold id_lt in Hz; lia.
Qed.

(** Taking the first of those that satisfy [f] is a filter, for some bound. *)
Lemma claim_filter rows n : StronglySorted id_lt rows ->
  List.filter (claimed (take n (List.filter (is_due now creating) rows))) rows
  = take n (List.filter (is_due now creating) rows).
Proof.
  intros Hs. revert n. induction Hs as [|p rows Hs IH Hp]; intros n; [by destruct n|].
  assert (Hne : forall m, claimed (take m (List.filter (is_due now creating) rows)) p = false).
  { intros m. apply not_true_is_false. intros (c & Hc & E)%claimed_In.
    apply In_take, filter_In in Hc as [Hc _].
    rewrite List.Forall_forall in Hp. specialize (Hp c Hc). unfold id_lt in Hp. lia. }
  cbn [List.filter]. destruct (is_due now creating p) eqn:Ed; [|by rewrite Hne, IH].
  destruct n as [|n]; [simpl; by apply filter_none|]. cbn [take].
  assert (claimed (p :: take n (List.filter (is_due now creating) rows)) p = true) as ->
    by (unfold claimed; simpl; by rewrite Z.eqb_refl).
  f_equal. etransitivity; [|apply (IH n)]. apply filter_ext_In. intros x Hx. unfold claimed. simpl.
  rewrite List.Forall_forall in Hp. specialize (Hp x Hx). unfold id_lt in Hp.
  destruct (Z.eqb_spec (pn_id p) (pn_id x)); [lia|done].
Qed.
End Claims.

(** Rows of which no later one is taken before an earlier one: those taken come first. *)
Lemma filter_taken_first {A : Type} (g c : A -> bool) l :
  StronglySorted (fun x y => g x = true -> g y = true -> c y = true -> c x = true) l ->
  List.filter g l = List.filter g (List.filter c l) ++ List.filter g (List.filter (fun x => negb (c x)) l).
Proof.
  induction 1 as [|x l Hs IH Hx]; [done|]. rewrite List.Forall_forall in Hx. cbn [List.filter].
  destruct (c x) eqn:Ec; cbn [negb List.filter]; destruct (g x) eqn:Eg; rewrite IH; try done.
  assert (List.filter g (List.filter c l) = []) as ->; [|done].
  rewrite filter_filter. apply filter_none. intros y Hy. destruct (c y) eqn:E1, (g y) eqn:E2; try done.
  by discriminate (Hx y Hy eq_refl E2 E1).
Qed.

Lemma StronglySorted_In {A : Type} (R S : A -> A -> Prop) l :
  (forall x y, In x l -> In y l -> R x y -> S x y) -> StronglySorted R l -> StronglySorted S l.
Proof.
  intros Hi Hs. induction Hs as [|x l Hs IH Hx]; constructor.
  - apply IH. intros y z Hy Hz. apply Hi; by right.
  - rewrite List.Forall_forall in *. intros y Hy. apply Hi; [by left|by right|by apply Hx].
Qed.

(** A prefix of a sorted sequence has what comes before its elements. *)
Lemma take_before {A : Type} (R : A -> A -> Prop) n l x y :
  (forall a, ~ R a a) -> (forall a b, R a b -> ~ R b a) -> StronglySorted R l ->
  In x l -> In y (take n l) -> R x y -> In x (take n l).
Proof.
  intros Hirr Hasym. revert n. induction l as [|z l IH]; intros n Hs Hx Hy Hr; [done|].
  destruct n as [|n]; [done|]. simpl in Hy |- *. inversion Hs as [|? ? Hs' Hz]; subst.
  destruct Hx as [->|Hx]; [by left|]. right. rewrite List.Forall_forall in Hz. specialize (Hz x Hx).
  destruct Hy as [->|Hy]; [by destruct (Hasym x y Hr)|by apply (IH n)].
Qed.

(** ** A batch keeps the table *)

Section Refines.
Context `{HR : Rendering} `{HB : Base64} {D : Type} `{HD : BigDecimal D} `{HP : !BigDecimalParts D}
  `{HM : SqliteDml} `{HML : !SqliteDmlLaws} `{HE : SqliteErrors}
  `{HRet : Returning} `{HRetL : !ReturningLaws}.
Context (key_info : TableKeyInfo) (Hschema : schema_ok key_info) (indexes : list IndexMeta).
Implicit Types (items : list BoundValue -> option Item) (k : list BoundValue).

Notation base_ks := (tki_key_schema key_info).
Notation table_name := (data_table_name (tki_table_id key_info)).
Notation index_id p := (gd_index_id (gc_index (pn_context p))).
Notation image := (image (D := D) key_info).
Notation row_for := (row_for (D := D) key_info).

Lemma execute_frame tables name f tables' n : execute tables name f = Ok tables' -> n <> name ->
  tables' !! n = tables !! n.
Proof.
  unfold execute. destruct (tables !! name); [|done]. intros [= <-] Hn. by apply lookup_insert_ne.
Qed.

(** A row changes the table of its index only. *)
Lemma apply_row_frame tables old new context tables' n :
  apply_claimed_row (D := D) tables old new context = Ok tables' ->
  n <> index_table_name (gd_index_id (gc_index context)) -> tables' !! n = tables !! n.
Proof.
  intros E Hn. unfold apply_claimed_row, reconcile in E.
  assert (Htol : forall ts r ts', tolerating is_no_such_table ts r = Ok ts' ->
    (forall ts', r = Ok ts' -> ts' !! n = ts !! n) -> ts' !! n = ts !! n).
  { intros ts [ts1|e] ts'; simpl; [intros [= <-]; auto|]. destruct (is_no_such_table e); [by intros [= <-]|done]. }
  destruct (match old with Some _ => _ | None => _ end) as [t1|] eqn:E1; [|done].
  transitivity (t1 !! n).
  - destruct new as [i|]; [|by injection E as <-]. destruct (item_has_index_keys i _); [|by injection E as <-].
    eapply Htol; [exact E|]. intros ts'. unfold insert_index_row_multi. destruct (index_row _ _ _ _ _); [|done].
    intros Hx. by eapply execute_frame.
  - destruct old as [o|]; [|by injection E1 as <-]. destruct (item_has_index_keys o _); [|by injection E1 as <-].
    eapply Htol; [exact E1|]. intros ts'. unfold delete_index_row_multi. destruct (composite_pk_to_text _ _); [|done].
    destruct (sk_values _ _); [|done]. intros Hx. by eapply execute_frame.
Qed.

(** Tables that the rows [todo] and then [left] bring up to [items]. *)
Record pending_to (tables : Tables) (todo left : list Pending) items : Prop := {
  pt_base : exists t, tables !! table_name = Some t /\ base_holds (D := D) key_info t items;
  pt_index : forall idx, In idx indexes -> exists f, index_holds_at key_info tables idx f
    /\ forall k, exists start, f k = start ≫= image idx
         /\ chain start (List.filter (row_for idx k) todo ++ List.filter (row_for idx k) left) (items k)
}.

(** Rows that are this table's, or touch none of its tables. *)
Definition rows_known (rows : list Pending) : Prop :=
  forall p, In p rows -> index_id p <> tki_table_id key_info
    /\ forall idx, In idx indexes -> index_id p = im_index_id idx -> row_ok (D := D) key_info idx p.

Lemma lookup_same_pending tables tables' p todo left items :
  pending_to tables (p :: todo) left items -> rows_known (p :: todo) ->
  (forall idx, In idx indexes -> index_id p <> im_index_id idx) ->
  (forall n, n <> index_table_name (index_id p) -> tables' !! n = tables !! n) ->
  pending_to tables' todo left items.
Proof.
  intros [(t & Ht & Hb) Hix] Hk Hno Hf. destruct (Hk p (or_introl eq_refl)) as [Ht' _]. split.
  - exists t. split; [|done]. rewrite Hf; [done|]. intros E%index_table_name_inj. by apply Ht'.
  - intros idx Hi. destruct (Hix idx Hi) as (f & (u & Hu & Hh) & Hc). exists f. split.
    + exists u. split; [|done]. rewrite Hf; [done|]. intros E%index_table_name_inj. by apply (Hno idx Hi).
    + intros k. destruct (Hc k) as (start & E & Hch). exists start. split; [done|].
      cbn [List.filter] in Hch. unfold row_for at 1 in Hch.
      rewrite (proj2 (String.eqb_neq _ _) (Hno idx Hi)) in Hch. done.
Qed.

(** A row of this table takes its index from the item before the change to the one
    after it. *)
Lemma apply_own_row tables p todo left items idx :
  indexes_ok key_info indexes -> pending_to tables (p :: todo) left items ->
  In idx indexes -> row_ok (D := D) key_info idx p ->
  exists tables', apply_claimed_row (D := D) tables (pn_old p) (pn_new p) (pn_context p) = Ok tables'
    /\ pending_to tables' todo left items.
Proof.
  intros Hio [(t & Ht & Hb) Hix] Hi Hr. destruct (ro_key _ _ _ Hr) as (k & Hpk & Hik & _).
  destruct (Hix idx Hi) as (f & (u & Hu & Hh) & Hc). destruct (Hc k) as (start & Hf & Hch).
  assert (Hrow : row_for idx k p = true).
  { unfold row_for. rewrite (ro_context _ _ _ Hr), Hpk, bool_decide_eq_true_2 by done. simpl.
    by rewrite String.eqb_refl. }
  cbn [List.filter] in Hch. rewrite Hrow in Hch. destruct Hch as [<- Hch].
  destruct (reconcile_holds (D := D) base_ks (base_sks key_info) (base_sks_length key_info Hschema)
    (im_key_schema idx) (idx_sks idx) (im_projection idx) is_no_such_table tables
    (index_table_name (im_index_id idx)) u f (pn_old p) (pn_new p) k Hu Hh Hf) as (u' & Ha & Hh').
  { intros item Hitem. by destruct (table_key_Ok key_info Hschema _ _ _ (Hik item Hitem)) as (_ & _ & ?). }
  { apply (ro_new _ _ _ Hr). }
  exists (<[index_table_name (im_index_id idx) := u']> tables). split.
  { unfold apply_claimed_row. rewrite (ro_context _ _ _ Hr). cbn [gsi_context gc_index gd_index_id gd_key_schema
      gd_projection gc_base_key_schema gc_attribute_definitions]. rewrite (ixo_base _ _ Hio idx Hi). exact Ha. }
  split.
  - exists t. split; [|done]. rewrite lookup_insert_ne; [done|]. apply not_eq_sym.
    by eapply table_name_apart.
  - intros idx' Hi'. destruct (decide (im_index_id idx' = im_index_id idx)) as [E|E].
    + apply (index_ids_inj key_info indexes) in E as ->; [|done|done|done].
      eexists. split; [exists u'; by rewrite lookup_insert_eq|]. intros k'. unfold set_at. case_bool_decide as Ek.
      * subst k'. by exists (pn_new p).
      * destruct (Hc k') as (start' & Hf' & Hch'). exists start'. split; [done|].
        cbn [List.filter] in Hch'. assert (row_for idx k' p = false) as Hr'; [|by rewrite Hr' in Hch'].
        unfold row_for. rewrite Hpk, bool_decide_eq_false_2; [apply andb_false_r|congruence].
    + destruct (Hix idx' Hi') as (f' & (v & Hv & Hh2) & Hc'). exists f'. split.
      * exists v. split; [|done]. rewrite lookup_insert_ne; [done|]. intros E'%index_table_name_inj. congruence.
      * intros k'. destruct (Hc' k') as (start' & Hf' & Hch'). exists start'. split; [done|].
        cbn [List.filter] in Hch'. assert (row_for idx' k' p = false) as Hr'; [|by rewrite Hr' in Hch'].
        unfold row_for. rewrite (ro_context _ _ _ Hr). simpl.
        by rewrite (proj2 (String.eqb_neq _ _) (not_eq_sym E)).
Qed.

(** Rows of this table meet transient errors at most. *)
Definition faults_transient (fault : Pending -> option StorageError) : Prop :=
  forall p e, fault p = Some e -> exists m, e = SE_Transient m.

Lemma apply_batch_holds fault items todo left : indexes_ok key_info indexes -> faults_transient fault ->
  forall tables, rows_known todo -> pending_to tables todo left items ->
  match apply_batch (D := D) fault tables todo with
  | Ok tables' => pending_to tables' [] left items
  | Err e => exists m, e = SE_Transient m
  end.
Proof.
  intros Hio Hft. induction todo as [|p todo IH]; intros tables Hk Hp; [done|]. cbn [apply_batch].
  assert (Hk' : rows_known todo) by (intros x Hx; apply Hk; by right).
  unfold apply_pending_row. destruct (fault p) as [e|] eqn:Ef; [destruct (Hft p e Ef) as [m ->]; by exists m|].
  destruct (decide (Exists (fun idx => index_id p = im_index_id idx) indexes)) as [Hex|Hno].
  - apply List.Exists_exists in Hex as (idx & Hi & E).
    destruct (apply_own_row tables p todo left items idx Hio Hp Hi) as (tables' & -> & Hp').
    + by apply (Hk p (or_introl eq_refl)).
    + by apply IH.
  - assert (Hne : forall idx, In idx indexes -> index_id p <> im_index_id idx).
    { intros idx Hi E. apply Hno, List.Exists_exists. eauto. }
    assert (Hsame : pending_to tables todo left items) by (by eapply lookup_same_pending).
    destruct (apply_claimed_row tables _ _ _) as [tables'|e] eqn:Ea.
    + apply IH; [done|]. eapply lookup_same_pending; [done|done|done|]. intros n Hn. by eapply apply_row_frame.
    + specialize (IH tables Hk' Hsame). destruct e; try done. by eexists.
Qed.

(** Rows of one item share a partition, so a batch takes the earliest of them. *)
Lemma claims_first now creating q idx k :
  queue_ordered q ->
  (forall p, In p (q_rows q) -> index_id p = im_index_id idx -> row_ok (D := D) key_info idx p) ->
  let claims := claim now creating (q_rows q) in
  List.filter (row_for idx k) (q_rows q)
  = List.filter (row_for idx k) claims
    ++ List.filter (row_for idx k) (List.filter (fun p => negb (claimed claims p)) (q_rows q)).
Proof.
  intros Hq Hok claims. pose proof (queue_ids q Hq) as Hids.
  assert (claims = take GSI_BATCH (List.filter (is_due now creating) (q_rows q))) as Ecl
    by (by apply claim_ordered).
  assert (List.filter (claimed claims) (q_rows q) = claims) as Efl by (rewrite Ecl; by apply claim_filter).
  rewrite <- Efl at 1. apply filter_taken_first.
  eapply StronglySorted_In; [|exact (qo_rows _ Hq)]. intros p p' Hp Hp' [Hid Hready] Hg Hg' Hc.
  unfold row_for in Hg, Hg'. apply andb_true_iff in Hg as [Hx%String.eqb_eq Hk%bool_decide_eq_true],
    Hg' as [Hx'%String.eqb_eq Hk'%bool_decide_eq_true].
  pose proof (Hok p Hp Hx) as Hr. pose proof (Hok p' Hp' Hx') as Hr'.
  apply claimed_In in Hc as (c & Hc & Ec). assert (c = p') as ->.
  { apply (ids_inj (q_rows q)); [done| |done|done]. rewrite Ecl in Hc. by apply In_take, filter_In in Hc as [? _]. }
  apply claimed_In. exists p. split; [|done]. rewrite Ecl in Hc |- *.
  pose proof (In_take _ _ _ Hc) as Hd. apply filter_In in Hd as [_ Hd].
  eapply (take_before id_lt); [unfold id_lt; lia|unfold id_lt; lia|by apply StronglySorted_List_filter| |exact Hc|done].
  apply filter_In. split; [done|]. unfold is_due in *. apply andb_true_iff in Hd as [Hd1 Hd2].
  rewrite (ro_table _ _ _ Hr), <- (ro_table _ _ _ Hr'), Hd2, andb_true_r.
  destruct (ro_key _ _ _ Hr) as (k1 & E1 & _ & t1 & Ht1 & Hp1), (ro_key _ _ _ Hr') as (k2 & E2 & _ & t2 & Ht2 & Hp2).
  assert (pn_partition p = pn_partition p') as Hpart by congruence. specialize (Hready Hpart).
  unfold text_gt in *. apply negb_true_iff, bool_decide_eq_false in Hd1.
  apply negb_true_iff, bool_decide_eq_false. by eapply cmp_le_trans.
Qed.

Lemma queue_filter q f : queue_ordered q ->
  queue_ordered {| q_rows := List.filter f (q_rows q); q_seq := q_seq q |}.
Proof.
  intros [H1 H2]. split; cbn [q_rows q_seq]; [by apply StronglySorted_List_filter|].
  intros p [Hp _]%filter_In. by apply H2.
Qed.

(** The rows of a batch, sorted again, are the claims. *)
Lemma batch_rows now creating q : queue_ordered q ->
  sort_by_id (returning (claim now creating (q_rows q))) = claim now creating (q_rows q).
Proof.
  intros Hq. apply sort_by_id_unique; [|apply returning_perm].
  rewrite claim_ordered by (by apply queue_ids). apply take_sorted, StronglySorted_List_filter. by apply queue_ids.
Qed.

Lemma batch_store_ok fault now creating delay db items :
  indexes_ok key_info indexes -> store_ok (D := D) key_info indexes delay db items -> faults_transient fault ->
  match process_gsi_batch (D := D) fault now creating db with
  | Ok (db', n) => store_ok (D := D) key_info indexes delay db' items
      /\ n = length (claim now creating (q_rows (db_queue db)))
      /\ q_rows (db_queue db')
         = List.filter (fun p => negb (claimed (claim now creating (q_rows (db_queue db))) p)) (q_rows (db_queue db))
  | Err e => exists m, e = SE_Transient m
  end.
Proof.
  intros Hio Hs Hft. unfold process_gsi_batch. pose proof (sto_queue _ _ _ _ _ Hs) as Hq.
  rewrite (batch_rows now creating _ Hq). set (claims := claim now creating (q_rows (db_queue db))).
  set (left := List.filter (fun p => negb (claimed claims p)) (q_rows (db_queue db))).
  assert (Hp : pending_to (db_tables db) claims left items).
  { split; [apply (sto_base _ _ _ _ _ Hs)|]. intros idx Hi.
    destruct (sto_index _ _ _ _ _ Hs idx Hi) as (f & Hf & Hc). exists f. split; [done|]. intros k.
    destruct (Hc k) as (start & E & Hch). exists start. split; [done|].
    unfold left, claims. rewrite <- claims_first; [done|done|].
    intros p Hp E'. by apply (sto_rows _ _ _ _ _ Hs p idx). }
  assert (Hk : rows_known claims).
  { intros p Hp'. assert (In p (q_rows (db_queue db))) as Hin.
    { unfold claims in Hp'. rewrite claim_ordered in Hp' by (by apply queue_ids).
      by apply In_take, filter_In in Hp' as [? _]. }
    split; [by apply (sto_foreign _ _ _ _ _ Hs)|]. intros idx Hi E. by apply (sto_rows _ _ _ _ _ Hs p idx). }
  pose proof (apply_batch_holds fault items claims left Hio Hft (db_tables db) Hk Hp) as Hb.
  destruct (apply_batch fault (db_tables db) claims) as [tables'|e]; [|done].
  split; [|done]. destruct Hb as [Hb Hix]. split; cbn [db_tables db_queue q_rows].
  - done.
  - done.
  - by apply queue_filter.
  - intros p idx [Hp' _]%filter_In. by apply (sto_rows _ _ _ _ _ Hs).
  - intros p [Hp' _]%filter_In. by apply (sto_foreign _ _ _ _ _ Hs).
Qed.

(** ** Convergence *)

(** A batch with a row that is due takes one. *)
Lemma claim_progress now creating q p rest : queue_ordered q -> q_rows q = p :: rest ->
  is_due now creating p = true ->
  0 < length (claim now creating (q_rows q))
  /\ length (List.filter (fun p => negb (claimed (claim now creating (q_rows q)) p)) (q_rows q)) < length (q_rows q).
Proof.
  intros Hq E Hd. rewrite (claim_ordered now creating _ (queue_ids q Hq)), E. cbn [List.filter]. rewrite Hd.
  unfold GSI_BATCH. cbn [take]. split; [simpl; lia|].
  assert (claimed (p :: take 99 (List.filter (is_due now creating) rest)) p = true) as ->
    by (unfold claimed; simpl; by rewrite Z.eqb_refl).
  cbn [negb]. pose proof (filter_length_le (fun p0 => negb (claimed (p :: take 99 (List.filter (is_due now creating) rest)) p0)) rest).
  cbn [length]. lia.
Qed.

(** The errors of the model's statements are internal. *)
Definition internal_errors {A : Type} (r : result StorageError A) : Prop :=
  forall e, r = Err e -> exists m, e = SE_Internal m.

Lemma internal_bind {A B : Type} (r : result StorageError A) (f : A -> result StorageError B) :
  internal_errors r -> (forall x, r = Ok x -> internal_errors (f x)) ->
  internal_errors (match r with Ok x => f x | Err e => Err e end).
Proof. intros Hr Hf e. destruct r; [by apply Hf|]. intros [= <-]. by apply Hr. Qed.

Lemma collect_internal {A B : Type} (f : A -> result StorageError B) l :
  (forall x, internal_errors (f x)) -> internal_errors (collect_results f l).
Proof.
  intros Hf. induction l as [|x l IH]; simpl; [done|]. apply internal_bind; [apply Hf|]. intros y _.
  by apply internal_bind.
Qed.

Lemma pk_text_internal v : internal_errors (pk_to_text v).
Proof. intros e. unfold pk_to_text, ok_or_else. destruct (hash_key_text v); [done|]. intros [= <-]. eauto. Qed.

Lemma composite_internal item ks : internal_errors (composite_pk_to_text item ks).
Proof.
  assert (Hg : forall name m, internal_errors (let? v := ok_or_else (bt_get name item) (SE_Internal m) in pk_to_text v)).
  { intros name m. apply internal_bind; [|intros v _; apply pk_text_internal]. unfold ok_or_else.
    intros e. destruct (bt_get name item); [done|]. intros [= <-]. eauto. }
  unfold composite_pk_to_text. destruct (hash_key_elements ks) as [|k1 [|k2 l]]; [done|apply Hg|].
  apply internal_bind; [|done]. apply collect_internal. intros x. apply Hg.
Qed.

Lemma sk_values_internal item sks : internal_errors (sk_values (D := D) item sks).
Proof.
  apply collect_internal. intros sk. unfold sk_bind. destruct (bt_get sk.1 item) as [v|]; [|done].
  apply internal_bind; [|done]. unfold parse_sk. intros e.
  destruct sk.2, v; simpl; try (intros [= <-]; by eauto). unfold ok_or_else. destruct (bd_parse n); [done|].
  intros [= <-]. eauto.
Qed.

Lemma execute_internal tables name f : internal_errors (execute tables name f).
Proof. unfold execute. intros e. destruct (tables !! name); [done|]. intros [= <-]. eauto. Qed.

Lemma claimed_row_internal tables old new context :
  internal_errors (apply_claimed_row (D := D) tables old new context).
Proof.
  assert (Htol : forall ts r, internal_errors r -> internal_errors (tolerating is_no_such_table ts r)).
  { intros ts [x|e'] Hr e; simpl; [done|]. destruct (is_no_such_table e'); [done|]. apply Hr. }
  unfold apply_claimed_row, reconcile. apply internal_bind.
  - destruct old as [o|]; [|done]. destruct (item_has_index_keys o _); [|done]. apply Htol.
    apply internal_bind; [apply composite_internal|]. intros t _.
    apply internal_bind; [apply sk_values_internal|]. intros vs _. apply execute_internal.
  - intros ts _. destruct new as [n|]; [|done]. destruct (item_has_index_keys n _); [|done]. apply Htol.
    apply internal_bind; [|intros row _; apply execute_internal]. unfold index_row.
    repeat (apply internal_bind; [apply composite_internal || apply sk_values_internal|intros ? _]). done.
Qed.

(** Without faults, a batch goes through. *)
Lemma apply_batch_Ok fault rows : (forall p, fault p = None) ->
  forall tables, exists tables', apply_batch (D := D) fault tables rows = Ok tables'.
Proof.
  intros Hnf. induction rows as [|p rows IH]; intros tables; cbn [apply_batch]; [by eexists|].
  unfold apply_pending_row. rewrite Hnf.
  destruct (apply_claimed_row tables _ _ _) as [ts|e] eqn:E; [apply IH|].
  destruct (claimed_row_internal _ _ _ _ e E) as [m ->]. apply IH.
Qed.

End Refines.
