(* ===== verification/StoreModel.v ===== *)
(** * The table as a sequential map

    The abstract specification of the write path, and the refinement: whatever writes,
    reads and propagation batches are interleaved, the SQLite backend answers as a map
    from keys to items answers that is written one operation at a time. *)

From S2P Require Import Prelude BTree Types Error Decimal Number Ast Tokenizer Resolver Evaluator.
From S2P Require Import UpdateEvaluator ItemSize Storage StorageKey NumberKey KeyOrder SqlSelect Projection.
From S2P Require Import ReadPage SqliteQuery SqlWrite IndexKeys UpdateKeys SqliteIndex SqliteQueue.
From S2P Require Import SqliteStore StoreRefine SqliteWorker.

Section Model.
Context `{HR : Rendering} `{HB : Base64} {D : Type} `{HD : BigDecimal D} `{HP : !BigDecimalParts D}
  `{HS : Sqlite} `{HSL : !SqliteLaws} `{HM : SqliteDml} `{HML : !SqliteDmlLaws}
  `{HE : SqliteErrors} `{HEL : !SqliteErrorsLaws} `{HT : Timestamps} `{HC : Crc32}
  `{HV : Returning} `{HVL : !ReturningLaws}.
Context (key_info : TableKeyInfo) (Hschema : schema_ok key_info) (indexes : list IndexMeta).
Implicit Types (maps : ExpressionMaps D) (items : list BoundValue -> option Item) (k : list BoundValue).

Notation base_defs := (tki_attribute_definitions key_info).
Notation fresh_defs := (fresh_attr_defs indexes base_defs).

(** ** The specification *)

(** The items by their keys, and the streams. *)
Definition Model : Type := (list BoundValue -> option Item) * Streams.
Implicit Type m : Model.

Definition put_spec (senv : StreamEnv) m (item : Item) (return_old : bool) (condition : option Expr) maps
    (stream : option StreamCapture) : result StorageError (Model * option Item) :=
  let? _ := unless_empty indexes tt (validated (validate_index_keys item (index_key_refs indexes) fresh_defs)) in
  let? ck := table_key (D := D) key_info item in
  let old := m.1 ck.2 in
  let? _ := check_old condition old maps in
  let? streams := captured key_info senv m.2 stream old (Some item) in
  Ok ((set_at ck.2 (Some item) m.1, streams), if return_old then old else None).

Definition get_spec m (key : Item) : result StorageError (option Item) :=
  let? ck := table_key (D := D) key_info key in Ok (m.1 ck.2).

Definition delete_spec (senv : StreamEnv) m (key : Item) (return_old : bool) (condition : option Expr) maps
    (stream : option StreamCapture) : result StorageError (Model * option Item) :=
  let? ck := table_key (D := D) key_info key in
  let old := m.1 ck.2 in
  let? _ := check_old condition old maps in
  match old with
  | None => Ok (m, None)
  | Some _ =>
      let? streams := captured key_info senv m.2 stream old None in
      Ok ((set_at ck.2 None m.1, streams), if return_old then old else None)
  end.

Definition update_spec (senv : StreamEnv) m (max_item_size_bytes : N) (key : Item) (actions : list UpdateAction)
    (return_old return_new : bool) (condition : option Expr) maps (stream : option StreamCapture)
    : result StorageError (Model * (option Item * option Item)) :=
  let? _ := unless_empty indexes tt
    (validated (validate_index_key_literal_operands actions (index_key_refs indexes) fresh_defs maps)) in
  let? ck := table_key (D := D) key_info key in
  let old := m.1 ck.2 in
  let? _ := check_old condition old maps in
  let? item := validated (apply_update actions (default key old) maps) in
  let? _ := validated (validate_update_item_size item actions maps max_item_size_bytes) in
  let? _ := written_keys key_info indexes item in
  if negb (is_some old) && removes_only actions then Ok (m, (None, None))
  else
    let? streams := captured key_info senv m.2 stream old (Some item) in
    Ok ((set_at ck.2 (Some item) m.1, streams),
        (if return_old then old else None, if return_new then Some item else None)).

(** ** The operations *)

Inductive Op : Type :=
  | OpGet (key : Item)
  | OpPut (item : Item) (return_old : bool) (condition : option Expr) (maps : ExpressionMaps D)
      (stream : option StreamCapture)
  | OpDelete (key : Item) (return_old : bool) (condition : option Expr) (maps : ExpressionMaps D)
      (stream : option StreamCapture)
  | OpUpdate (max_item_size_bytes : N) (key : Item) (actions : list UpdateAction)
      (return_old return_new : bool) (condition : option Expr) (maps : ExpressionMaps D)
      (stream : option StreamCapture).

(** The items an operation answers with. *)
Definition Answer : Type := option Item * option Item.

Definition run (env : Env) (senv : StreamEnv) (delay : N) (op : Op) (db : Db)
    : result StorageError (Db * Answer) :=
  match op with
  | OpGet key => let? item := get_item_impl (D := D) db key_info key in Ok (db, (item, None))
  | OpPut item return_old condition maps stream =>
      let? r := put_item_impl env senv db key_info indexes delay item return_old condition maps stream in
      Ok (r.1.1, (r.1.2, None))
  | OpDelete key return_old condition maps stream =>
      let? r := delete_item_impl env senv db key_info indexes delay key return_old condition maps stream in
      Ok (r.1.1, (r.1.2, None))
  | OpUpdate max key actions return_old return_new condition maps stream =>
      let? r := update_item_impl env senv db key_info indexes delay max key actions return_old return_new
        condition maps stream in
      Ok (r.1.1, r.1.2)
  end.

Definition spec (senv : StreamEnv) (op : Op) m : result StorageError (Model * Answer) :=
  match op with
  | OpGet key => let? item := get_spec m key in Ok (m, (item, None))
  | OpPut item return_old condition maps stream =>
      let? r := put_spec senv m item return_old condition maps stream in Ok (r.1, (r.2, None))
  | OpDelete key return_old condition maps stream =>
      let? r := delete_spec senv m key return_old condition maps stream in Ok (r.1, (r.2, None))
  | OpUpdate max key actions return_old return_new condition maps stream =>
      update_spec senv m max key actions return_old return_new condition maps stream
  end.

(** What the engine has checked of an operation: its numbers are numbers, and no update
    touches the key. *)
Definition admissible (op : Op) m : Prop :=
  match op with
  | OpGet _ | OpDelete _ _ _ _ _ => True
  | OpPut item _ _ _ _ => numbers_parse (D := D) item
  | OpUpdate _ key actions _ _ _ maps _ =>
      validate_no_key_updates actions key_info maps = Ok tt
      /\ forall k item, item_key (D := D) key_info key k ->
           apply_update actions (default key (m.1 k)) maps = Ok item -> numbers_parse (D := D) item
  end.

(** ** Refinement *)

Definition agrees (delay : N) (db : Db) m : Prop :=
  store_ok (D := D) key_info indexes delay db m.1 /\ db_streams db = m.2.

Definition simulated {A : Type} (delay : N) (r : result StorageError (Db * A))
    (r' : result StorageError (Model * A)) : Prop :=
  match r, r' with
  | Ok (db, x), Ok (m, y) => agrees delay db m /\ x = y
  | Err e, Err e' => e = e'
  | _, _ => False
  end.

Lemma get_simulates delay db m key : agrees delay db m ->
  get_item_impl (D := D) db key_info key = get_spec m key.
Proof.
  intros [Hs _]. unfold get_item_impl, get_spec. rewrite (fetch_store_ok key_info Hschema indexes delay db m.1) by done.
  by destruct (table_key key_info key).
Qed.

Lemma put_simulates env senv delay db m item return_old condition maps stream :
  indexes_ok key_info indexes -> agrees delay db m -> numbers_parse (D := D) item ->
  simulated delay
    (let? r := put_item_impl env senv db key_info indexes delay item return_old condition maps stream in
     Ok (r.1.1, (r.1.2, None : option Item)))
    (let? r := put_spec senv m item return_old condition maps stream in Ok (r.1, (r.2, None))).
Proof.
  intros Hio [Hs Hst] Hn. unfold put_item_impl, put_spec.
  destruct (unless_empty indexes tt _) as [[]|e] eqn:Ev; [|done].
  rewrite (fetch_store_ok key_info Hschema indexes delay db m.1 item Hs).
  destruct (table_key key_info item) as [[cols k]|e] eqn:Ek.
  2:{ unfold upsert_item_in_tx. rewrite Ek. destruct (_ || _) eqn:En; [done|]. by destruct condition. }
  destruct (table_key_Ok key_info Hschema _ _ _ Ek) as (Hk & _). cbn [fst snd].
  destruct (put_reads_old indexes m.1 k return_old condition maps stream)
    as (old & -> & Hc & Hin & Hret & Hold & Hstr).
  rewrite Hc. destruct (check_old condition (m.1 k) maps) as [[]|e] eqn:Ec; [|done].
  destruct (sto_base _ _ _ _ _ Hs) as (t & Ht & Hb).
  destruct (upsert_holds key_info Hschema _ t m.1 item k Ht Hb Hk) as (t' & -> & Ht').
  pose proof (after_write_holds key_info Hschema indexes env senv delay db t' m.1 k old (Some item) stream
    Hio Hs Ht' Hold) as Ha.
  assert (Hik : forall i, old = Some i \/ Some item = Some i -> item_key (D := D) key_info i k).
  { intros i [Hi|[= <-]]; [|done]. destruct Hin as [->| ->]; [by apply (bh_items _ _ _ Hb)|done]. }
  specialize (Ha Hik (ex_intro _ item eq_refl) (put_storable key_info Hschema indexes item k Hio Hn Hk Ev)).
  assert (captured key_info senv (db_streams db) stream old (Some item)
    = captured key_info senv m.2 stream (m.1 k) (Some item)) as Hcap
    by (rewrite Hst; destruct stream; [by rewrite (Hstr _ eq_refl)|done]).
  rewrite Hcap in Ha.
  destruct (after_write _ _ _ _ _ _ _ _ _ _) as [[db' n]|e], (captured _ _ _ _ _ _) as [s|e']; simpl in *; try done.
  split; [done|]. destruct return_old; [by rewrite Hret|done].
Qed.

Lemma delete_simulates env senv delay db m key return_old condition maps stream :
  indexes_ok key_info indexes -> agrees delay db m ->
  simulated delay
    (let? r := delete_item_impl env senv db key_info indexes delay key return_old condition maps stream in
     Ok (r.1.1, (r.1.2, None : option Item)))
    (let? r := delete_spec senv m key return_old condition maps stream in Ok (r.1, (r.2, None))).
Proof.
  intros Hio [Hs Hst]. unfold delete_item_impl, delete_spec.
  rewrite (fetch_store_ok key_info Hschema indexes delay db m.1 key Hs).
  destruct (table_key key_info key) as [[cols k]|e] eqn:Ek; [|done].
  destruct (table_key_Ok key_info Hschema _ _ _ Ek) as (Hk & _). cbn [fst snd].
  destruct (check_old condition (m.1 k) maps) as [[]|e] eqn:Ec; [|done].
  destruct (m.1 k) as [old|] eqn:Eold; [|by destruct return_old].
  destruct (sto_base _ _ _ _ _ Hs) as (t & Ht & Hb).
  destruct (delete_holds key_info Hschema _ t m.1 key k Ht Hb Hk) as (t' & -> & Ht').
  pose proof (after_write_holds key_info Hschema indexes env senv delay db t' m.1 k (Some old) None stream
    Hio Hs Ht' (fun _ => eq_sym Eold)) as Ha.
  assert (Hik : forall i, Some old = Some i \/ None = Some i -> item_key (D := D) key_info i k).
  { intros i [[= <-]|]; [|done]. by apply (bh_items _ _ _ Hb). }
  specialize (Ha Hik (ex_intro _ old eq_refl) ltac:(done)). rewrite Hst in Ha.
  by destruct (after_write _ _ _ _ _ _ _ _ _ _) as [[db' n]|e], (captured _ _ _ _ _ _) as [s|e'].
Qed.

Lemma update_simulates env senv delay db m max key actions return_old return_new condition maps stream :
  indexes_ok key_info indexes -> agrees delay db m ->
  admissible (OpUpdate max key actions return_old return_new condition maps stream) m ->
  simulated delay
    (let? r := update_item_impl env senv db key_info indexes delay max key actions return_old return_new
       condition maps stream in
     Ok (r.1.1, r.1.2))
    (update_spec senv m max key actions return_old return_new condition maps stream).
Proof.
  intros Hio [Hs Hst] [Hnk Hnum]. unfold update_item_impl, update_spec.
  destruct (unless_empty indexes tt (validated (validate_index_key_literal_operands (D := D) _ _ _ _)))
    as [[]|e]; [|done].
  rewrite (fetch_store_ok key_info Hschema indexes delay db m.1 key Hs).
  destruct (table_key key_info key) as [[cols k]|e] eqn:Ek; [|done].
  destruct (table_key_Ok key_info Hschema _ _ _ Ek) as (Hk & _). cbn [fst snd].
  destruct (check_old condition (m.1 k) maps) as [[]|e]; [|done].
  destruct (validated (apply_update actions (default key (m.1 k)) maps)) as [item|e] eqn:Eu; [|done].
  apply validated_Ok in Eu.
  destruct (validated (validate_update_item_size item actions maps max)) as [[]|e]; [|done].
  fold (written_keys key_info indexes item).
  destruct (written_keys key_info indexes item) as [[]|e] eqn:E2; [|done].
  pose proof (updated_key key_info indexes _ _ _ _ _ _ _ _ Hs Hk Hnk Eu) as Hk'.
  destruct (negb (is_some (m.1 k)) && removes_only actions); [done|].
  destruct (sto_base _ _ _ _ _ Hs) as (t & Ht & Hb).
  destruct (upsert_holds key_info Hschema _ t m.1 item k Ht Hb Hk') as (t' & -> & Ht').
  pose proof (after_write_holds key_info Hschema indexes env senv delay db t' m.1 k (m.1 k) (Some item) stream
    Hio Hs Ht' (fun _ => eq_refl)) as Ha.
  assert (Hik : forall i, m.1 k = Some i \/ Some item = Some i -> item_key (D := D) key_info i k).
  { intros i [Hi|[= <-]]; [by apply (bh_items _ _ _ Hb)|done]. }
  specialize (Ha Hik (ex_intro _ item eq_refl)
    (update_storable key_info Hschema indexes item k Hio (Hnum k item Hk Eu) Hk' E2)). rewrite Hst in Ha.
  by destruct (after_write _ _ _ _ _ _ _ _ _ _) as [[db' n]|e], (captured _ _ _ _ _ _) as [s|e'].
Qed.

Lemma run_simulates env senv delay op db m :
  indexes_ok key_info indexes -> agrees delay db m -> admissible op m ->
  simulated delay (run env senv delay op db) (spec senv op m).
Proof.
  intros Hio Ha Hop. destruct op; simpl.
  - rewrite (get_simulates delay db m) by done. by destruct (get_spec m key).
  - by apply put_simulates.
  - by apply delete_simulates.
  - by apply update_simulates.
Qed.

(** ** Histories *)

(** Requests, and the batches of the propagation worker between them. *)
Inductive Event : Type :=
  | Request (env : Env) (senv : StreamEnv) (op : Op)
  | Batch (fault : Pending -> option StorageError) (now : string) (creating : list string).

(** The database and the answers after a history; what fails leaves the database. *)
Fixpoint run_all (delay : N) (events : list Event) (db : Db) : Db * list (result StorageError Answer) :=
  match events with
  | [] => (db, [])
  | Request env senv op :: events =>
      match run env senv delay op db with
      | Ok (db, x) => let r := run_all delay events db in (r.1, Ok x :: r.2)
      | Err e => let r := run_all delay events db in (r.1, Err e :: r.2)
      end
  | Batch fault now creating :: events =>
      match process_gsi_batch (D := D) fault now creating db with
      | Ok (db, _) => run_all delay events db
      | Err _ => run_all delay events db
      end
  end.

(** The map and the answers after the requests of a history. *)
Fixpoint spec_all (events : list Event) m : Model * list (result StorageError Answer) :=
  match events with
  | [] => (m, [])
  | Request _ senv op :: events =>
      match spec senv op m with
      | Ok (m, x) => let r := spec_all events m in (r.1, Ok x :: r.2)
      | Err e => let r := spec_all events m in (r.1, Err e :: r.2)
      end
  | Batch _ _ _ :: events => spec_all events m
  end.

(** Every request admissible when it comes, and every failing statement of a batch
    transient. *)
Fixpoint admissible_all (events : list Event) m : Prop :=
  match events with
  | [] => True
  | Request _ senv op :: events =>
      admissible op m
      /\ admissible_all events (match spec senv op m with Ok (m, _) => m | Err _ => m end)
  | Batch fault _ _ :: events => faults_transient fault /\ admissible_all events m
  end.

Lemma batch_agrees fault now creating delay db m db' n :
  indexes_ok key_info indexes -> agrees delay db m -> faults_transient fault ->
  process_gsi_batch (D := D) fault now creating db = Ok (db', n) -> agrees delay db' m.
Proof.
  intros Hio [Hs Hst] Hf E.
  pose proof (batch_store_ok key_info Hschema indexes fault now creating delay db m.1 Hio Hs Hf) as Hb.
  rewrite E in Hb. split; [apply Hb|]. rewrite <- Hst. unfold process_gsi_batch in E.
  destruct (apply_batch _ _ _); [|done]. by injection E as <- _.
Qed.

Lemma run_all_refines delay events db m :
  indexes_ok key_info indexes -> agrees delay db m -> admissible_all events m ->
  agrees delay (run_all delay events db).1 (spec_all events m).1
  /\ (run_all delay events db).2 = (spec_all events m).2.
Proof.
  intros Hio. revert db m. induction events as [|[env senv op|fault now creating] events IH]; intros db m Ha Hev; [done| |].
  - destruct Hev as [Hop Hev]. pose proof (run_simulates env senv delay op db m Hio Ha Hop) as Hsim.
    cbn [run_all spec_all].
    destruct (run env senv delay op db) as [[db' x]|e], (spec senv op m) as [[m' y]|e']; simpl in Hsim; try done.
    + destruct Hsim as [Ha' ->]. destruct (IH db' m' Ha' Hev) as [H1 H2]. simpl. by rewrite H2.
    + subst. destruct (IH db m Ha Hev) as [H1 H2]. simpl. by rewrite H2.
  - destruct Hev as [Hf Hev]. cbn [run_all spec_all].
    destruct (process_gsi_batch fault now creating db) as [[db' n]|e] eqn:E; [|by apply IH].
    apply IH; [|done]. by eapply batch_agrees.
Qed.

(** A database with the new table. *)
Definition created_db (tables : Tables) (q : Queue) (streams : Streams) : Db :=
  {| db_tables := created_tables key_info indexes tables; db_queue := q; db_streams := streams |}.

Definition new_model (streams : Streams) : Model := (fun _ => None, streams).

Lemma created_agrees delay tables q streams :
  indexes_ok key_info indexes -> queue_ordered q -> queue_apart key_info indexes q ->
  agrees delay (created_db tables q streams) (new_model streams).
Proof. intros Hio Hq Ha. split; [|done]. by apply created_store_ok. Qed.

End Model.
