(* ===== verification/Transact.v ===== *)
(** * Transactions

    [crates/storage-sqlite/src/data/transactions.rs]: TransactGetItems and
    TransactWriteItems over any number of tables, with the idempotency tokens of
    [tx_helpers.rs], the key checks of [crates/core/src/validation/mod.rs] and the
    cancellation reasons of [crates/core/src/types/transaction.rs].  The indexes of each
    table are an argument; tables are without vector indexes. *)

From S2P Require Import Prelude BTree Types Error Decimal Number Ast Tokenizer Resolver Evaluator.
From S2P Require Import UpdateEvaluator ItemSize Storage StorageKey NumberKey KeyOrder SqlSelect Projection.
From S2P Require Import ReadPage SqliteQuery SqlWrite IndexKeys UpdateKeys SqliteIndex SqliteQueue.
From S2P Require Import SqliteStore.

(** ** Keys of a request *)

Definition missing_key_err (name : string) : string :=
  "One or more parameter values were invalid: Missing the key " +:+ name +:+ " in the item".

Definition validate_key_attribute_type (attr_name : string) (value : AttributeValue)
    (attr_defs : list AttributeDefinition) : res unit :=
  match find_def attr_name attr_defs with
  | None => Ok tt
  | Some ad =>
      match ad_attribute_type ad, value with
      | Scalar_S, AV_S _ | Scalar_N, AV_N _ | Scalar_B, AV_B _ => Ok tt
      | expected, _ =>
          fail ("One or more parameter values were invalid: Type mismatch for key " +:+ attr_name
            +:+ " expected: " +:+ scalar_type_tag expected +:+ " actual: " +:+ attribute_value_type_tag value)
      end
  end.

Definition validate_item_keys (item : Item) (key_schema : list KeySchemaElement)
    (attr_defs : list AttributeDefinition) : res unit :=
  for_each (fun ks =>
    match bt_get (ks_attribute_name ks) item with
    | None => fail (missing_key_err (ks_attribute_name ks))
    | Some value => validate_key_attribute_type (ks_attribute_name ks) value attr_defs
    end) key_schema.

Definition key_mismatch_err : string := "The provided key element does not match the schema".

Definition validate_key_only (key : Item) (key_schema : list KeySchemaElement)
    (attr_defs : list AttributeDefinition) : res unit :=
  if negb (length key =? length key_schema) then fail key_mismatch_err
  else
    for_each (fun ks =>
      match bt_get (ks_attribute_name ks) key with
      | None => fail (missing_key_err (ks_attribute_name ks))
      | Some value =>
          let? _ := validate_key_attribute_type (ks_attribute_name ks) value attr_defs in
          validate_no_empty_key_value (ks_attribute_name ks) value
      end) key_schema.

Definition remap_key_type_mismatch (e : DynamoDbError) : DynamoDbError :=
  match e with
  | ValidationException msg =>
      if text_contains msg "Type mismatch for key " then ValidationException key_mismatch_err else e
  | _ => e
  end.

Definition validate_batch_key_only (key : Item) (key_schema : list KeySchemaElement)
    (attr_defs : list AttributeDefinition) : res unit :=
  match validate_key_only key key_schema attr_defs with
  | Err (Fail e) => Err (Fail (remap_key_type_mismatch e))
  | r => r
  end.

(** ** Cancellation reasons *)

Definition KEY_TYPE_MISMATCH_CODE : string := "ExtendDbKeyTypeMismatch".
Definition INDEX_KEY_EMPTY_ABORT_CODE : string := "ExtendDbIndexKeyEmptyAbort".

Definition reason_none : CancellationReason := {| cr_code := "None"; cr_message := None; cr_item := None |}.

Definition condition_check_failed_with_item (item : option Item) : CancellationReason :=
  {| cr_code := "ConditionalCheckFailed"; cr_message := Some "The conditional request failed"; cr_item := item |}.

Definition validation_error_reason (msg : string) : CancellationReason :=
  {| cr_code := "ValidationError"; cr_message := Some msg; cr_item := None |}.

Definition key_type_mismatch (msg : string) : CancellationReason :=
  {| cr_code := KEY_TYPE_MISMATCH_CODE; cr_message := Some msg; cr_item := None |}.

Definition index_key_empty_abort (msg : string) : CancellationReason :=
  {| cr_code := INDEX_KEY_EMPTY_ABORT_CODE; cr_message := Some msg; cr_item := None |}.

Definition is_code (code : string) (r : CancellationReason) : bool := String.eqb (cr_code r) code.

Fixpoint first_position (p : CancellationReason -> bool) (l : list CancellationReason) : option nat :=
  match l with
  | [] => None
  | r :: l => if p r then Some 0 else S <$> first_position p l
  end.

(** The loop over the reasons, at position [i] on. *)
Fixpoint reason_loop (first : option nat) (i : nat) (l : list CancellationReason)
    : result string (list CancellationReason) :=
  match l with
  | [] => Ok []
  | reason :: l =>
      let? reason :=
        match first with
        | Some f =>
            if i =? f then Ok {| cr_code := "ValidationError"; cr_message := cr_message reason;
                                 cr_item := cr_item reason |}
            else Ok reason_none
        | None =>
            if is_code INDEX_KEY_EMPTY_ABORT_CODE reason then
              match cr_message reason with
              | Some message => Err message
              | None => Ok reason_none
              end
            else Ok reason
        end in
      let? rest := reason_loop first (S i) l in
      Ok (reason :: rest)
  end.

Definition resolve_key_faults (reasons : list CancellationReason) : result string (list CancellationReason) :=
  reason_loop (first_position (is_code KEY_TYPE_MISMATCH_CODE) reasons) 0 reasons.

(** The error of a transaction with these reasons. *)
Definition canceled (reasons : list CancellationReason) : StorageError :=
  match resolve_key_faults reasons with
  | Ok reasons => SE_TransactionCanceled reasons
  | Err message => SE_Validation message
  end.

(** ** Operations *)

Inductive ReturnOnFailure : Type := RvNone | RvAllOld.

Inductive TransactWriteOp (D : Type) : Type :=
  | TxPut (key_info : TableKeyInfo) (item : Item) (condition : option Expr) (maps : ExpressionMaps D)
      (rv : ReturnOnFailure) (stream : option StreamCapture)
  | TxDelete (key_info : TableKeyInfo) (key : Item) (condition : option Expr) (maps : ExpressionMaps D)
      (rv : ReturnOnFailure) (stream : option StreamCapture)
  | TxUpdate (key_info : TableKeyInfo) (key : Item) (actions : list UpdateAction) (condition : option Expr)
      (maps : ExpressionMaps D) (rv : ReturnOnFailure) (stream : option StreamCapture)
  | TxConditionCheck (key_info : TableKeyInfo) (key : Item) (condition : Expr) (maps : ExpressionMaps D)
      (rv : ReturnOnFailure).
Arguments TxPut {D} _ _ _ _ _ _.
Arguments TxDelete {D} _ _ _ _ _ _.
Arguments TxUpdate {D} _ _ _ _ _ _ _.
Arguments TxConditionCheck {D} _ _ _ _ _.

Inductive TxnOpError : Type := TxnCancel (r : CancellationReason) | TxnStorage (e : StorageError).

(** An error of the core crate becomes a reason; a panic unwinds the transaction. *)
Definition cancelling {A : Type} (reason : string -> CancellationReason) (r : res A) : result TxnOpError A :=
  match r with
  | Ok x => Ok x
  | Err (Fail e) => Err (TxnCancel (reason (error_message e)))
  | Err _ => Err (TxnStorage (SE_Internal ""))
  end.

Definition storing {A : Type} (r : result StorageError A) : result TxnOpError A :=
  match r with Ok x => Ok x | Err e => Err (TxnStorage e) end.

Section Transactions.
Context `{HR : Rendering} `{HB : Base64} {D : Type} `{HD : BigDecimal D} `{HP : !BigDecimalParts D}
  `{HS : Sqlite} `{HM : SqliteDml} `{HE : SqliteErrors} `{HT : Timestamps} `{HC : Crc32}.
Implicit Types (maps : ExpressionMaps D) (op : TransactWriteOp D).

Definition op_key_info op : TableKeyInfo :=
  match op with
  | TxPut key_info _ _ _ _ _ | TxDelete key_info _ _ _ _ _ | TxUpdate key_info _ _ _ _ _ _
  | TxConditionCheck key_info _ _ _ _ => key_info
  end.

Definition op_stream op : option StreamCapture :=
  match op with
  | TxPut _ _ _ _ _ stream | TxDelete _ _ _ _ _ stream | TxUpdate _ _ _ _ _ _ stream => stream
  | TxConditionCheck _ _ _ _ _ => None
  end.

Definition key_only (key_info : TableKeyInfo) (key : Item) : result TxnOpError unit :=
  cancelling key_type_mismatch
    (validate_batch_key_only key (tki_key_schema key_info) (tki_attribute_definitions key_info)).

Definition transact_op_key_checks op (indexes : list IndexMeta) : result TxnOpError unit :=
  match op with
  | TxPut key_info item _ _ _ _ =>
      let? _ := cancelling key_type_mismatch
        (validate_item_keys item (tki_key_schema key_info) (tki_attribute_definitions key_info)) in
      let? _ := cancelling key_type_mismatch
        (validate_index_key_types item (index_key_refs indexes)
          (fresh_attr_defs indexes (tki_attribute_definitions key_info))) in
      cancelling index_key_empty_abort
        (validate_index_key_not_empty item (index_key_refs indexes) EmptyItem)
  | TxUpdate key_info key actions _ maps _ _ =>
      let? _ := key_only key_info key in
      cancelling key_type_mismatch
        (validate_index_key_literal_operands actions (index_key_refs indexes)
          (fresh_attr_defs indexes (tki_attribute_definitions key_info)) maps)
  | TxDelete key_info key _ _ _ _ | TxConditionCheck key_info key _ _ _ => key_only key_info key
  end.

Definition eval_condition (condition : option Expr) (item : Item) maps (rv : ReturnOnFailure)
    (existing : option Item) : result TxnOpError unit :=
  match condition with
  | None => Ok tt
  | Some cond =>
      let? passed := cancelling validation_error_reason (evaluate_condition cond item maps) in
      if passed : bool then Ok tt
      else Err (TxnCancel (condition_check_failed_with_item
             (match rv with RvAllOld => existing | RvNone => None end)))
  end.

(** The written row and the synchronous indexes. *)
Definition sync_after (tables : Tables) (key_info : TableKeyInfo) (indexes : list IndexMeta)
    (old new : option Item) (system_delay : N) : result TxnOpError Tables :=
  storing (unless_empty indexes tables
    (sync_indexes (D := D) tables (tki_key_schema key_info) (tki_attribute_definitions key_info) indexes
       old new system_delay)).

(** The item that an update makes of what is there, checked. *)
Definition updated_item (key_info : TableKeyInfo) (indexes : list IndexMeta) (max_item_size_bytes : N)
    (key : Item) (actions : list UpdateAction) maps (existing : option Item) : result TxnOpError Item :=
  let? item := cancelling validation_error_reason (apply_update actions (default key existing) maps) in
  let? _ := cancelling validation_error_reason (validate_transact_update_item_size item max_item_size_bytes) in
  let? _ := cancelling key_type_mismatch
    (validate_index_key_types_after_update item (index_key_refs indexes)
      (fresh_attr_defs indexes (tki_attribute_definitions key_info))) in
  let? _ := cancelling index_key_empty_abort
    (validate_index_key_not_empty item (index_key_refs indexes) EmptyUpdateExpression) in
  Ok item.

Definition execute_transact_write_op (tables : Tables) op (indexes : list IndexMeta)
    (max_item_size_bytes system_delay : N) : result TxnOpError (Tables * (option Item * option Item)) :=
  match op with
  | TxPut key_info item condition maps rv _ =>
      let? _ := transact_op_key_checks op indexes in
      let? existing := storing (fetch_item_in_tx (D := D) tables key_info item) in
      let? _ := eval_condition condition (default [] existing) maps rv existing in
      let? tables := storing (upsert_item_in_tx (D := D) tables key_info item) in
      let? tables := sync_after tables key_info indexes existing (Some item) system_delay in
      Ok (tables, (existing, Some item))
  | TxDelete key_info key condition maps rv _ =>
      let? _ := key_only key_info key in
      let? existing := storing (fetch_item_in_tx (D := D) tables key_info key) in
      let? _ := eval_condition condition (default [] existing) maps rv existing in
      let? tables := storing (delete_item_in_tx (D := D) tables key_info key) in
      let? tables := sync_after tables key_info indexes existing None system_delay in
      Ok (tables, (existing, None))
  | TxUpdate key_info key actions condition maps rv _ =>
      let? _ := transact_op_key_checks op indexes in
      let? existing := storing (fetch_item_in_tx (D := D) tables key_info key) in
      let? _ := eval_condition condition (default [] existing) maps rv existing in
      let? item := updated_item key_info indexes max_item_size_bytes key actions maps existing in
      if negb (is_some existing) && removes_only actions then Ok (tables, (None, None))
      else
        let? tables := storing (upsert_item_in_tx (D := D) tables key_info item) in
        let? tables := sync_after tables key_info indexes existing (Some item) system_delay in
        Ok (tables, (existing, Some item))
  | TxConditionCheck key_info key condition maps rv =>
      let? _ := key_only key_info key in
      let? existing := storing (fetch_item_in_tx (D := D) tables key_info key) in
      let? _ := eval_condition (Some condition) (default [] existing) maps rv existing in
      Ok (tables, (None, None))
  end.

(** ** The transaction *)

(** [idempotency_tokens]: by account and token, the fingerprint and when it was stored. *)
Notation Tokens := (gmap (string * string) (string * string)).

Record IdempotencyKey : Type := {
  ik_account_id : string;
  ik_token : string;
  ik_fingerprint : string
}.

(** [now] is in milliseconds. *)
Definition check_idempotency_token_in_tx (now : Z) (tokens : Tokens) (key : IdempotencyKey)
    : result StorageError Tokens :=
  let cutoff := format_timestamp (now - 10 * 60 * 1000) in
  let fresh := Ok (<[(ik_account_id key, ik_token key) := (ik_fingerprint key, format_timestamp now)]> tokens) in
  match tokens !! (ik_account_id key, ik_token key) with
  | Some (stored_fp, created_at) =>
      if text_gt created_at cutoff then
        if String.eqb stored_fp (ik_fingerprint key) then Err SE_IdempotentReplay else Err SE_IdempotentMismatch
      else fresh
  | None => fresh
  end.

Definition Outcome (A : Type) : Type := result CancellationReason A.

(** A member that is cancelled goes into the reasons, and the rest goes on. *)
Definition member {A : Type} (r : result TxnOpError A) : result StorageError (Outcome A) :=
  match r with
  | Ok x => Ok (Ok x)
  | Err (TxnCancel reason) => Ok (Err reason)
  | Err (TxnStorage e) => Err e
  end.

Definition reason_of {A : Type} (o : Outcome A) : CancellationReason :=
  match o with Ok _ => reason_none | Err r => r end.

Definition is_cancelled {A : Type} (o : Outcome A) : bool := match o with Ok _ => false | Err _ => true end.

(** [any_failed], and what the transaction then returns. *)
Definition unless_cancelled {A : Type} (outcomes : list (Outcome A)) : result StorageError unit :=
  if existsb is_cancelled outcomes then Err (canceled (map reason_of outcomes)) else Ok tt.

Fixpoint execute_ops (tables : Tables) (indexes_of : string -> list IndexMeta) (max_item_size_bytes system_delay : N)
    (ops : list (TransactWriteOp D))
    : result StorageError (Tables * list (Outcome (option Item * option Item))) :=
  match ops with
  | [] => Ok (tables, [])
  | op :: ops =>
      let indexes := indexes_of (tki_table_id (op_key_info op)) in
      let? outcome := member (execute_transact_write_op tables op indexes max_item_size_bytes system_delay) in
      let tables' := match outcome with Ok x => x.1 | Err _ => tables end in
      let? rest := execute_ops tables' indexes_of max_item_size_bytes system_delay ops in
      Ok (rest.1, (match outcome with Ok x => Ok x.2 | Err r => Err r end) :: rest.2)
  end.

(** The images of the members, once none is cancelled. *)
Definition images (outcomes : list (Outcome (option Item * option Item))) : list (option Item * option Item) :=
  map (fun o => match o with Ok x => x | Err _ => (None, None) end) outcomes.

Fixpoint capture_all (senv : nat -> StreamEnv) (s : Streams) (ops : list (TransactWriteOp D))
    (items : list (option Item * option Item)) : result StorageError Streams :=
  match ops, items with
  | op :: ops, (old, new) :: items =>
      let? s :=
        match op_stream op with
        | Some capture => write_stream_record_in_tx (senv (length ops)) s (op_key_info op) capture old new
        | None => Ok s
        end in
      capture_all senv s ops items
  | _, _ => Ok s
  end.

Fixpoint enqueue_all (env : nat -> Env) (q : Queue) (indexes_of : string -> list IndexMeta) (system_delay : N)
    (ops : list (TransactWriteOp D)) (items : list (option Item * option Item)) : result StorageError (Queue * bool) :=
  match ops, items with
  | op :: ops, (old, new) :: items =>
      if is_some old || is_some new then
        let? qn := enqueue_async_indexes (env (length ops)) q (op_key_info op)
          (indexes_of (tki_table_id (op_key_info op))) old new system_delay 0 in
        let? rest := enqueue_all env qn.1 indexes_of system_delay ops items in
        Ok (rest.1, (0 <? qn.2) || rest.2)
      else enqueue_all env q indexes_of system_delay ops items
  | _, _ => Ok (q, false)
  end.

(** The database and the tokens after the transaction, and whether the worker is
    notified.  An error keeps nothing of it. *)
Definition transact_write_items_impl (now : Z) (env : nat -> Env) (senv : nat -> StreamEnv) (db : Db) (tokens : Tokens)
    (indexes_of : string -> list IndexMeta) (max_item_size_bytes system_delay : N)
    (ops : list (TransactWriteOp D)) (idempotency : option IdempotencyKey)
    : result StorageError (Db * Tokens * bool) :=
  let? tokens :=
    match idempotency with
    | Some key => check_idempotency_token_in_tx now tokens key
    | None => Ok tokens
    end in
  let? checks := collect_results (fun op =>
    member (transact_op_key_checks op (indexes_of (tki_table_id (op_key_info op))))) ops in
  let? _ := unless_cancelled checks in
  let? executed := execute_ops (db_tables db) indexes_of max_item_size_bytes system_delay ops in
  let? _ := unless_cancelled executed.2 in
  let? streams := capture_all senv (db_streams db) ops (images executed.2) in
  let? queue := enqueue_all env (db_queue db) indexes_of system_delay ops (images executed.2) in
  Ok ({| db_tables := executed.1; db_queue := queue.1; db_streams := streams |}, tokens, queue.2).

(** ** TransactGetItems *)

Definition transact_get_items_impl (db : Db) (gets : list (TableKeyInfo * Item))
    : result StorageError (list (option Item)) :=
  let? checks := collect_results (fun get =>
    member (cancelling validation_error_reason
      (validate_key_only get.2 (tki_key_schema get.1) (tki_attribute_definitions get.1)))) gets in
  if existsb is_cancelled checks then Err (SE_TransactionCanceled (map reason_of checks))
  else collect_results (fun get => fetch_item_in_tx (D := D) (db_tables db) get.1 get.2) gets.

Definition cleanup_expired_idempotency_tokens_impl (now max_age_seconds : Z) (tokens : Tokens) : Tokens :=
  filter (fun kv => cmp kv.2.2 (format_timestamp (now - max_age_seconds * 1000)) <> Lt) tokens.
End Transactions.
