(* ===== verification/TransactRefine.v ===== *)
(** * Transactions are atomic

    TransactWriteItems against its specification: every member is decided on the tables
    as they were before the transaction, and the writes of all members happen, or none
    does. *)

From S2P Require Import Prelude BTree Types Error Decimal Number Ast Tokenizer Resolver Evaluator.
From S2P Require Import UpdateEvaluator ItemSize Storage StorageKey NumberKey KeyOrder SqlSelect Projection.
From S2P Require Import ReadPage SqliteQuery SqlWrite IndexKeys UpdateKeys SqliteIndex SqliteQueue.
From S2P Require Import SqliteStore StoreRefine Transact.

(** ** A table within a transaction *)

Section Table.
Context `{HR : Rendering} `{HB : Base64} {D : Type} `{HD : BigDecimal D} `{HP : !BigDecimalParts D}
  `{HS : Sqlite} `{HSL : !SqliteLaws} `{HM : SqliteDml} `{HML : !SqliteDmlLaws}
  `{HE : SqliteErrors} `{HT : Timestamps} `{HC : Crc32}.
Context (key_info : TableKeyInfo) (Hschema : schema_ok key_info) (indexes : list IndexMeta)
  (Hio : indexes_ok key_info indexes) (delay : N).
Implicit Types (items g : list BoundValue -> option Item) (k : list BoundValue) (tables : Tables) (q : Queue).

Notation table_name := (data_table_name (tki_table_id key_info)).
Notation holds_at := (index_holds_at key_info).
Notation image := (StoreRefine.image (D := D) key_info).

(** While a transaction is staged, the table and its synchronous indexes are at
    [items], and the queue still leads the other indexes to [g]. *)
Record mid tables q items g : Prop := {
  mid_base : exists t, tables !! table_name = Some t /\ base_holds (D := D) key_info t items;
  mid_sync : forall idx, In idx indexes -> is_synchronous idx delay = true ->
    holds_at tables idx (fun k => items k ≫= image idx);
  mid_async : forall idx, In idx indexes -> is_synchronous idx delay = false -> exists f,
    holds_at tables idx f
    /\ forall k, exists start, f k = start ≫= image idx
         /\ chain start (List.filter (row_for (D := D) key_info idx k) (q_rows q)) (g k);
  mid_rows : forall p idx, In p (q_rows q) -> In idx indexes ->
    gd_index_id (gc_index (pn_context p)) = im_index_id idx ->
    row_ok (D := D) key_info idx p /\ is_synchronous idx delay = false;
  mid_foreign : forall p, In p (q_rows q) -> gd_index_id (gc_index (pn_context p)) <> tki_table_id key_info
}.

Lemma store_mid db items : store_ok (D := D) key_info indexes delay db items ->
  mid (db_tables db) (db_queue db) items items.
Proof.
  intros Hs. pose proof Hs as [H1 H2 H3 H4 H5]. split; [done| | |done|done].
  - intros idx Hi Hsy. by apply (synchronous_settled key_info indexes delay db items idx Hs).
  - intros idx Hi _. by apply H2.
Qed.

Lemma mid_store db items : queue_ordered (db_queue db) -> mid (db_tables db) (db_queue db) items items ->
  store_ok (D := D) key_info indexes delay db items.
Proof.
  intros Hq [H1 H2 H3 H4 H5]. split; [done| |done|done|done].
  intros idx Hi. destruct (is_synchronous idx delay) eqn:Es; [|by apply H3].
  eexists. split; [by apply H2|]. intros k. exists (items k). split; [done|]. rewrite filter_none; [done|].
  intros p Hp. unfold row_for. apply andb_false_iff. left. apply String.eqb_neq. intros E.
  destruct (H4 p idx Hp Hi E). congruence.
Qed.

(** The tables of this table. *)
Definition owns (id : string) : Prop := id = tki_table_id key_info \/ In id (map im_index_id indexes).

(** A staged write. *)
Lemma mid_write tables q items g t' k old new :
  mid tables q items g -> base_holds (D := D) key_info t' (set_at k new items) -> old = items k ->
  (forall item, old = Some item \/ new = Some item -> item_key (D := D) key_info item k) ->
  (forall idx item, In idx indexes -> new = Some item -> storable (D := D) key_info idx item) ->
  exists tables', unless_empty indexes (<[table_name := t']> tables)
      (sync_indexes (D := D) (<[table_name := t']> tables) (tki_key_schema key_info)
        (tki_attribute_definitions key_info) indexes old new delay) = Ok tables'
    /\ mid tables' q (set_at k new items) g
    /\ forall id, ~ owns id -> tables' !! data_table_name id = tables !! data_table_name id.
Proof.
  intros [H1 H2 H3 H4 H5] Ht' Hold Hk Hst.
  destruct (sync_write_holds key_info Hschema indexes delay tables t' items k old new Hio H2 (fun _ => Hold) Hk Hst)
    as (tables' & -> & Hbase & Hix & Hframe).
  exists tables'. split; [done|]. split.
  - split; [eauto| | |done|done].
    + intros idx Hi Hsy. specialize (Hix idx Hi). rewrite Hsy in Hix. destruct Hix as (u & Hu & Hh).
      exists u. split; [done|]. eapply index_holds_ext; [|exact Hh]. intros k'. unfold set_at. by case_bool_decide.
    + intros idx Hi Hsy. specialize (Hix idx Hi). rewrite Hsy in Hix.
      destruct (H3 idx Hi Hsy) as (f & (u & Hu & Hh) & Hf). exists f. split; [|done]. exists u. by rewrite Hix.
  - intros id Hid. apply Hframe.
    + intros E. apply Hid. left. by apply index_table_name_inj in E.
    + intros idx Hi E. apply Hid. right. apply index_table_name_inj in E as ->. by apply in_map.
Qed.

(** A queued change. *)
Lemma mid_enqueue env tables q items g k old new n :
  mid tables q items g -> queue_ordered q -> old = g k ->
  (forall item, old = Some item \/ new = Some item -> item_key (D := D) key_info item k) ->
  is_Some (changed old new) ->
  (forall idx item, In idx indexes -> new = Some item -> storable (D := D) key_info idx item) ->
  exists q' n' ps, enqueue_async_indexes env q key_info indexes old new delay n = Ok (q', n')
    /\ queue_ordered q' /\ q_rows q' = q_rows q ++ ps /\ mid tables q' items (set_at k new g)
    /\ forall p, In p ps -> In (gd_index_id (gc_index (pn_context p))) (map im_index_id indexes).
Proof.
  intros [H1 H2 H3 H4 H5] Hq Hold Hk Hc Hst.
  destruct (enqueue_holds (D := D) key_info Hschema env delay old new k indexes q n (ixo_ids _ _ Hio) Hq Hk Hc Hst)
    as (q' & n' & ps & -> & Hq' & Hrows & Hqd).
  assert (Hps : forall p, In p ps -> exists idx, In idx indexes /\ is_synchronous idx delay = false
    /\ row_ok (D := D) key_info idx p /\ gd_index_id (gc_index (pn_context p)) = im_index_id idx).
  { intros p Hp. destruct (qd_rows _ _ _ _ _ _ _ Hqd p Hp) as (idx & Hi & Hs & Hr & _). exists idx.
    rewrite (ro_context _ _ _ Hr). done. }
  exists q', n', ps. split; [done|]. split; [done|]. split; [done|]. split.
  - split; [done|done| |..]; rewrite Hrows.
    + intros idx Hi Hsy. destruct (H3 idx Hi Hsy) as (f & Hf & Hch). exists f. split; [done|].
      eapply queued_chain; try done.
    + intros p idx [Hp|Hp]%in_app_iff Hi E; [by apply H4|]. destruct (Hps p Hp) as (idx' & Hi' & Hs & Hr & E').
      assert (idx' = idx) as -> by (apply (index_ids_inj key_info indexes); congruence || done). done.
    + intros p [Hp|Hp]%in_app_iff; [by apply H5|]. destruct (Hps p Hp) as (idx' & Hi' & _ & _ & ->).
      intros E. apply (ixo_table _ _ Hio). rewrite <- E. by apply list_elem_of_In, in_map.
  - intros p Hp. destruct (Hps p Hp) as (idx & Hi & _ & _ & ->). by apply in_map.
Qed.

(** What other tables do leaves this one. *)
Lemma mid_frame tables q tables' q' items g ps : mid tables q items g ->
  (forall id, owns id -> tables' !! data_table_name id = tables !! data_table_name id) ->
  q_rows q' = q_rows q ++ ps -> (forall p, In p ps -> ~ owns (gd_index_id (gc_index (pn_context p)))) ->
  mid tables' q' items g.
Proof.
  intros [H1 H2 H3 H4 H5] Ht Hq Hps.
  assert (Hidx : forall idx f, In idx indexes -> holds_at tables idx f -> holds_at tables' idx f).
  { intros idx f Hi (t & Hlt & Hh). exists t. split; [|done]. rewrite <- Hlt. apply Ht. right. by apply in_map. }
  split.
  - destruct H1 as (t & Hlt & Hb). exists t. split; [|done]. rewrite <- Hlt. apply Ht. by left.
  - intros idx Hi Hsy. by apply Hidx, H2.
  - intros idx Hi Hsy. destruct (H3 idx Hi Hsy) as (f & Hf & Hch). exists f. split; [by apply Hidx|].
    intros k. rewrite Hq, List.filter_app, (filter_none _ ps), app_nil_r; [apply Hch|].
    intros p Hp. unfold row_for. apply andb_false_iff. left. apply String.eqb_neq. intros E. apply (Hps p Hp).
    right. rewrite E. by apply in_map.
  - rewrite Hq. intros p idx [Hp|Hp]%in_app_iff Hi E; [by apply H4|]. exfalso. apply (Hps p Hp). right.
    rewrite E. by apply in_map.
  - rewrite Hq. intros p [Hp|Hp]%in_app_iff; [by apply H5|]. intros E. apply (Hps p Hp). by left.
Qed.
End Table.

(** ** The specification *)

Section World.
Context `{HR : Rendering} `{HB : Base64} {D : Type} `{HD : BigDecimal D} `{HP : !BigDecimalParts D}
  `{HS : Sqlite} `{HSL : !SqliteLaws} `{HM : SqliteDml} `{HML : !SqliteDmlLaws}
  `{HE : SqliteErrors} `{HT : Timestamps} `{HC : Crc32}.
Context (world : list TableKeyInfo) (indexes_of : string -> list IndexMeta) (max_item_size_bytes delay : N).
Implicit Types (op : TransactWriteOp D) (k : list BoundValue) (tables : Tables) (q : Queue).

Notation indexes key_info := (indexes_of (tki_table_id key_info)).
Notation op_id op := (tki_table_id (op_key_info op)).
Notation Images := (option Item * option Item)%type.

(** The items of every table, by table and key. *)
Definition World : Type := string -> list BoundValue -> option Item.
Implicit Types (w g : World).

Definition op_item op : Item :=
  match op with
  | TxPut _ item _ _ _ _ => item
  | TxDelete _ key _ _ _ _ | TxUpdate _ key _ _ _ _ _ | TxConditionCheck _ key _ _ _ => key
  end.

(** The item a member is about. *)
Definition target op : option (string * list BoundValue) :=
  match table_key (D := D) (op_key_info op) (op_item op) with
  | Ok ck => Some (op_id op, ck.2)
  | Err _ => None
  end.

(** What a member makes of the item it finds. *)
Definition member_effect op (old : option Item) : result TxnOpError Images :=
  match op with
  | TxPut _ item condition maps rv _ =>
      let? _ := eval_condition condition (default [] old) maps rv old in Ok (old, Some item)
  | TxDelete _ _ condition maps rv _ =>
      let? _ := eval_condition condition (default [] old) maps rv old in Ok (old, None)
  | TxUpdate key_info key actions condition maps rv _ =>
      let? _ := eval_condition condition (default [] old) maps rv old in
      let? item := updated_item key_info (indexes key_info) max_item_size_bytes key actions maps old in
      if negb (is_some old) && removes_only actions then Ok (None, None) else Ok (old, Some item)
  | TxConditionCheck _ _ condition maps rv =>
      let? _ := eval_condition (Some condition) (default [] old) maps rv old in Ok (None, None)
  end.

Definition member_spec w op : result TxnOpError Images :=
  let? _ := transact_op_key_checks op (indexes (op_key_info op)) in
  let? ck := storing (table_key (D := D) (op_key_info op) (op_item op)) in
  member_effect op (w (op_id op) ck.2).

Definition put_at (id : string) k (new : option Item) w : World :=
  fun id' => if String.eqb id' id then set_at k new (w id) else w id'.

(** The write of a member. *)
Definition write w op (im : Images) : World :=
  if is_some im.1 || is_some im.2 then
    match target op with Some (id, k) => put_at id k im.2 w | None => w end
  else w.

Fixpoint write_all w (ops : list (TransactWriteOp D)) (ims : list Images) : World :=
  match ops, ims with
  | op :: ops, im :: ims => write_all (write w op im) ops ims
  | _, _ => w
  end.

Notation Tokens := (gmap (string * string) (string * string)).

(** TransactWriteItems: every member is decided on the world before the transaction;
    any that is cancelled cancels all, with the reasons in the order of the members;
    otherwise all are written. *)
Definition transact_spec (now : Z) (senv : nat -> StreamEnv) w (streams : Streams) (tokens : Tokens)
    (ops : list (TransactWriteOp D)) (idempotency : option IdempotencyKey)
    : result StorageError (World * Streams * Tokens) :=
  let? tokens :=
    match idempotency with
    | Some key => check_idempotency_token_in_tx now tokens key
    | None => Ok tokens
    end in
  let? checks := collect_results (fun op =>
    member (transact_op_key_checks op (indexes (op_key_info op)))) ops in
  let? _ := unless_cancelled checks in
  let? outcomes := collect_results (fun op => member (member_spec w op)) ops in
  let? _ := unless_cancelled outcomes in
  let? streams := capture_all senv streams ops (images outcomes) in
  Ok (write_all w ops (images outcomes), streams, tokens).

(** What the engine has checked of a member. *)
Definition member_admissible w op : Prop :=
  match op with
  | TxPut _ item _ _ _ _ => numbers_parse (D := D) item
  | TxUpdate key_info key actions _ maps _ _ =>
      validate_no_key_updates actions key_info maps = Ok tt
      /\ forall k item, item_key (D := D) key_info key k ->
           apply_update actions (default key (w (tki_table_id key_info) k)) maps = Ok item ->
           numbers_parse (D := D) item
  | _ => True
  end.

(** The tables of the world share no table or index. *)
Record world_ok : Prop := {
  wo_schema : forall ki, In ki world -> schema_ok ki;
  wo_indexes : forall ki, In ki world -> indexes_ok ki (indexes ki);
  wo_apart : forall ki ki' id, In ki world -> In ki' world ->
    owns ki (indexes ki) id -> owns ki' (indexes ki') id -> ki = ki'
}.

Definition world_agrees (db : Db) w : Prop :=
  forall ki, In ki world -> store_ok (D := D) ki (indexes ki) delay db (w (tki_table_id ki)).

(** ** Staging *)

Definition world_mid tables q w g : Prop :=
  forall ki, In ki world ->
    mid (D := D) ki (indexes ki) delay tables q (w (tki_table_id ki)) (g (tki_table_id ki)).

Lemma world_ids ki ki' : world_ok -> In ki world -> In ki' world ->
  tki_table_id ki = tki_table_id ki' -> ki = ki'.
Proof. intros Hw H1 H2 E. eapply (wo_apart Hw); [done..|by left|left; done]. Qed.

Lemma put_at_same id k new w : put_at id k new w id = set_at k new (w id).
Proof. unfold put_at. by rewrite String.eqb_refl. Qed.

Lemma put_at_other id id' k new w : id' <> id -> put_at id k new w id' = w id'.
Proof. intros E. unfold put_at. by apply String.eqb_neq in E as ->. Qed.

(** The images of a member, as they stand in a world. *)
Definition images_ok g op (im : Images) : Prop :=
  is_some im.1 || is_some im.2 = true -> exists k,
    target op = Some (op_id op, k) /\ im.1 = g (op_id op) k
    /\ (forall item, im.1 = Some item \/ im.2 = Some item -> item_key (D := D) (op_key_info op) item k)
    /\ (forall idx item, In idx (indexes (op_key_info op)) -> im.2 = Some item ->
          storable (D := D) (op_key_info op) idx item).

Lemma world_write tables q w g ki t' k old new :
  world_ok -> In ki world -> world_mid tables q w g ->
  base_holds (D := D) ki t' (set_at k new (w (tki_table_id ki))) -> old = w (tki_table_id ki) k ->
  (forall item, old = Some item \/ new = Some item -> item_key (D := D) ki item k) ->
  (forall idx item, In idx (indexes ki) -> new = Some item -> storable (D := D) ki idx item) ->
  exists tables', sync_after (D := D) (<[data_table_name (tki_table_id ki) := t']> tables) ki (indexes ki) old new delay
      = Ok tables'
    /\ world_mid tables' q (put_at (tki_table_id ki) k new w) g.
Proof.
  intros Hw Hki Hm Ht' Hold Hk Hst.
  destruct (mid_write ki (wo_schema Hw ki Hki) (indexes ki) (wo_indexes Hw ki Hki) delay tables q _ _ t' k old new
    (Hm ki Hki) Ht' Hold Hk Hst) as (tables' & E & Hmid & Hframe).
  exists tables'. unfold sync_after. rewrite E. split; [done|]. intros ki' Hki'.
  destruct (decide (tki_table_id ki' = tki_table_id ki)) as [Eid|Nid].
  - apply world_ids in Eid as ->; [|done..]. by rewrite put_at_same.
  - rewrite put_at_other by done. apply (mid_frame ki' (indexes ki') delay tables q tables' q _ _ []).
    + by apply Hm.
    + intros id Hid. apply Hframe. intros Hid'. apply Nid. by rewrite (wo_apart Hw ki ki' id).
    + by rewrite app_nil_r.
    + by intros p [].
Qed.

Lemma mid_ext ki ix tables q (items items' g : list BoundValue -> option Item) :
  (forall k, items k = items' k) -> mid (D := D) ki ix delay tables q items g ->
  mid (D := D) ki ix delay tables q items' g.
Proof.
  intros E [H1 H2 H3 H4 H5]. split; [| |done..].
  - destruct H1 as (t & Ht & [B1 B2 B3 B4]). exists t. split; [done|]. split; [done|done| |].
    + intros k. rewrite <- E. apply B3.
    + intros k i. rewrite <- E. apply B4.
  - intros idx Hi Hsy. destruct (H2 idx Hi Hsy) as (u & Hu & Hh). exists u. split; [done|].
    eapply index_holds_ext; [|exact Hh]. intros k. cbv beta. by rewrite E.
Qed.

Lemma world_mid_ext tables q w w' g : (forall id k, w id k = w' id k) ->
  world_mid tables q w g -> world_mid tables q w' g.
Proof. intros E Hm ki Hki. eapply mid_ext; [|by apply Hm]. intros k. apply E. Qed.

Lemma cancelling_Ok {A : Type} f (r : res A) x : cancelling f r = Ok x -> r = Ok x.
Proof. destruct r as [|[]]; simpl; congruence. Qed.

(** The index keys of the items that the members write. *)
Lemma put_member_storable ki item maps condition rv stream k :
  world_ok -> In ki world -> numbers_parse (D := D) item -> item_key (D := D) ki item k ->
  transact_op_key_checks (D := D) (TxPut ki item condition maps rv stream) (indexes ki) = Ok tt ->
  forall idx i, In idx (indexes ki) -> Some item = Some i -> storable (D := D) ki idx i.
Proof.
  intros Hw Hki Hn Hk Hc idx i Hi [= <-]. simpl in Hc.
  destruct (cancelling key_type_mismatch (validate_item_keys _ _ _)) as [[]|]; [|done].
  destruct (cancelling key_type_mismatch (validate_index_key_types _ _ _)) as [[]|] eqn:E; [|done].
  apply cancelling_Ok in E. eapply typed_storable; [by apply (wo_schema Hw)|by apply (wo_indexes Hw)|done..].
Qed.

Lemma updated_member_storable ki key actions maps old item k :
  world_ok -> In ki world -> numbers_parse (D := D) item -> item_key (D := D) ki item k ->
  updated_item (D := D) ki (indexes ki) max_item_size_bytes key actions maps old = Ok item ->
  forall idx i, In idx (indexes ki) -> Some item = Some i -> storable (D := D) ki idx i.
Proof.
  intros Hw Hki Hn Hk Hu idx i Hi [= <-]. unfold updated_item in Hu.
  destruct (cancelling _ (apply_update _ _ _)) as [item'|]; [|done].
  destruct (cancelling _ (validate_transact_update_item_size _ _)) as [[]|]; [|done].
  destruct (cancelling _ (validate_index_key_types_after_update _ _ _)) as [[]|] eqn:E; [|done].
  destruct (cancelling _ (validate_index_key_not_empty _ _ _)) as [[]|]; [|done]. injection Hu as ->.
  apply cancelling_Ok in E. unfold validate_index_key_types_after_update in E.
  eapply typed_storable; [by apply (wo_schema Hw)|by apply (wo_indexes Hw)|done|done| |done].
  by destruct (validate_index_key_types _ _ _) as [[]|[]].
Qed.

Lemma updated_item_Ok ki ix key actions maps old item :
  updated_item (D := D) ki ix max_item_size_bytes key actions maps old = Ok item ->
  apply_update actions (default key old) maps = Ok item.
Proof.
  unfold updated_item. destruct (cancelling _ (apply_update _ _ _)) as [item'|] eqn:Eu; [|done].
  destruct (cancelling _ (validate_transact_update_item_size _ _)) as [[]|]; [|done].
  destruct (cancelling _ (validate_index_key_types_after_update _ _ _)) as [[]|]; [|done].
  destruct (cancelling _ (validate_index_key_not_empty _ _ _)) as [[]|]; [|done]. intros [= ->].
  by apply cancelling_Ok in Eu.
Qed.

Lemma member_stores tables q w g op t' k old new :
  world_ok -> In (op_key_info op) world -> world_mid tables q w g -> target op = Some (op_id op, k) ->
  base_holds (D := D) (op_key_info op) t' (set_at k new (w (op_id op))) -> old = w (op_id op) k ->
  (forall item, old = Some item \/ new = Some item -> item_key (D := D) (op_key_info op) item k) ->
  (forall idx item, In idx (indexes (op_key_info op)) -> new = Some item ->
     storable (D := D) (op_key_info op) idx item) ->
  exists tables', sync_after (D := D) (<[data_table_name (op_id op) := t']> tables) (op_key_info op)
      (indexes (op_key_info op)) old new delay = Ok tables'
    /\ world_mid tables' q (write w op (old, new)) g /\ images_ok w op (old, new).
Proof.
  intros Hw Hki Hm Htg Ht' Hold Hk Hst.
  destruct (world_write tables q w g (op_key_info op) t' k old new Hw Hki Hm Ht' Hold Hk Hst) as (tables' & E & Hmid).
  exists tables'. split; [done|]. split; [|by intros _; exists k].
  unfold write. cbn [fst snd]. destruct (is_some old || is_some new) eqn:Eo; [by rewrite Htg|].
  destruct old, new; try done. eapply world_mid_ext; [|exact Hmid]. intros id k'. unfold put_at.
  destruct (String.eqb_spec id (op_id op)) as [->|]; [by apply set_at_same|done].
Qed.

Definition staged tables q w g op (r : result TxnOpError (Tables * Images)) : Prop :=
  match r with
  | Ok (tables', im) =>
      member_spec w op = Ok im /\ world_mid tables' q (write w op im) g /\ images_ok w op im
  | Err e => member_spec w op = Err e
  end.

(** Each kind of member, executed on the staged tables. *)
Lemma put_staged tables q w g ki item condition maps rv stream :
  let op := TxPut ki item condition maps rv stream in
  world_ok -> In ki world -> world_mid tables q w g -> member_admissible w op ->
  staged tables q w g op (execute_transact_write_op tables op (indexes ki) max_item_size_bytes delay).
Proof.
  intros op Hw Hki Hm Hn. destruct (mid_base _ _ _ _ _ _ _ (Hm ki Hki)) as (t & Ht & Hb).
  pose proof (wo_schema Hw ki Hki) as Hschema.
  unfold staged, member_spec. subst op. cbn [op_key_info op_item execute_transact_write_op].
  destruct (transact_op_key_checks _ _) as [[]|e] eqn:Ec; [|done].
  rewrite (fetch_base ki Hschema _ t _ item Ht Hb).
  destruct (table_key ki item) as [[cols k]|e] eqn:Ek; [|done].
  destruct (table_key_Ok ki Hschema _ _ _ Ek) as (Hk & _). cbn [storing fst snd member_effect].
  destruct (eval_condition _ _ _ _ _) as [[]|e]; [|done].
  destruct (upsert_holds ki Hschema _ t _ item k Ht Hb Hk) as (t' & -> & Ht'). cbn [storing].
  destruct (member_stores tables q w g (TxPut ki item condition maps rv stream) t' k
    (w (tki_table_id ki) k) (Some item) Hw Hki Hm) as (tables' & E & Hmid & Him); [|done|done| | |].
  - unfold target. cbn [op_key_info op_item]. by rewrite Ek.
  - intros i [Hi|[= <-]]; [by apply (bh_items _ _ _ Hb)|done].
  - by eapply put_member_storable.
  - cbn [op_key_info] in E. by rewrite E.
Qed.

Lemma delete_staged tables q w g ki key condition maps rv stream :
  let op := TxDelete ki key condition maps rv stream in
  world_ok -> In ki world -> world_mid tables q w g ->
  staged tables q w g op (execute_transact_write_op tables op (indexes ki) max_item_size_bytes delay).
Proof.
  intros op Hw Hki Hm. destruct (mid_base _ _ _ _ _ _ _ (Hm ki Hki)) as (t & Ht & Hb).
  pose proof (wo_schema Hw ki Hki) as Hschema.
  unfold staged, member_spec. subst op. cbn [op_key_info op_item execute_transact_write_op transact_op_key_checks].
  destruct (key_only _ _) as [[]|e] eqn:Ec; [|done].
  rewrite (fetch_base ki Hschema _ t _ key Ht Hb).
  destruct (table_key ki key) as [[cols k]|e] eqn:Ek; [|done].
  destruct (table_key_Ok ki Hschema _ _ _ Ek) as (Hk & _). cbn [storing fst snd member_effect].
  destruct (eval_condition _ _ _ _ _) as [[]|e]; [|done].
  destruct (delete_holds ki Hschema _ t _ key k Ht Hb Hk) as (t' & -> & Ht'). cbn [storing].
  destruct (member_stores tables q w g (TxDelete ki key condition maps rv stream) t' k
    (w (tki_table_id ki) k) None Hw Hki Hm) as (tables' & E & Hmid & Him); [|done|done| |done|].
  - unfold target. cbn [op_key_info op_item]. by rewrite Ek.
  - intros i [Hi|]; [by apply (bh_items _ _ _ Hb)|done].
  - cbn [op_key_info] in E. by rewrite E.
Qed.

Lemma update_staged tables q w g ki key actions condition maps rv stream :
  let op := TxUpdate ki key actions condition maps rv stream in
  world_ok -> In ki world -> world_mid tables q w g -> member_admissible w op ->
  staged tables q w g op (execute_transact_write_op tables op (indexes ki) max_item_size_bytes delay).
Proof.
  intros op Hw Hki Hm [Hnk Hn]. destruct (mid_base _ _ _ _ _ _ _ (Hm ki Hki)) as (t & Ht & Hb).
  pose proof (wo_schema Hw ki Hki) as Hschema.
  unfold staged, member_spec. subst op. cbn [op_key_info op_item execute_transact_write_op].
  destruct (transact_op_key_checks _ _) as [[]|e] eqn:Ec; [|done].
  rewrite (fetch_base ki Hschema _ t _ key Ht Hb).
  destruct (table_key ki key) as [[cols k]|e] eqn:Ek; [|done].
  destruct (table_key_Ok ki Hschema _ _ _ Ek) as (Hk & _). cbn [storing fst snd member_effect].
  destruct (eval_condition _ _ _ _ _) as [[]|e]; [|done].
  destruct (updated_item _ _ _ _ _ _ _) as [item|e] eqn:Eu; [|done].
  pose proof (updated_item_Ok _ _ _ _ _ _ _ Eu) as Ea.
  pose proof (updated_base_key ki t _ _ _ _ _ _ Hb Hk Hnk Ea) as Hk'.
  destruct (_ && _) eqn:Er; [by split; [|split]|].
  destruct (upsert_holds ki Hschema _ t _ item k Ht Hb Hk') as (t' & -> & Ht'). cbn [storing].
  destruct (member_stores tables q w g (TxUpdate ki key actions condition maps rv stream) t' k
    (w (tki_table_id ki) k) (Some item) Hw Hki Hm) as (tables' & E & Hmid & Him); [|done|done| | |].
  - unfold target. cbn [op_key_info op_item]. by rewrite Ek.
  - intros i [Hi|[= <-]]; [by apply (bh_items _ _ _ Hb)|done].
  - eapply updated_member_storable; [done|done|by eapply Hn|done|exact Eu].
  - cbn [op_key_info] in E. by rewrite E.
Qed.

Lemma member_staged tables q w g op :
  world_ok -> In (op_key_info op) world -> world_mid tables q w g -> member_admissible w op ->
  staged tables q w g op
    (execute_transact_write_op tables op (indexes (op_key_info op)) max_item_size_bytes delay).
Proof.
  intros Hw Hki Hm Ha. destruct op as [ki item| |ki key|ki key condition maps rv].
  - by apply put_staged.
  - by apply delete_staged.
  - by apply update_staged.
  - destruct (mid_base _ _ _ _ _ _ _ (Hm ki Hki)) as (t & Ht & Hb).
    unfold staged, member_spec. cbn [op_key_info op_item execute_transact_write_op transact_op_key_checks].
    destruct (key_only _ _) as [[]|e] eqn:Ec; [|done].
    rewrite (fetch_base ki (wo_schema Hw ki Hki) _ t _ key Ht Hb).
    destruct (table_key ki key) as [[cols k]|e] eqn:Ek; [|done]. cbn [storing fst snd member_effect].
    destruct (eval_condition _ _ _ _ _) as [[]|e]; [|done]. by split; [|split].
Qed.

(** ** The members in sequence *)

Lemma item_key_target op k : item_key (D := D) (op_key_info op) (op_item op) k ->
  target op = Some (op_id op, k).
Proof. unfold item_key, target. by intros ->. Qed.

Lemma member_spec_ext w w' op : (forall id k, target op = Some (id, k) -> w id k = w' id k) ->
  member_spec w op = member_spec w' op.
Proof.
  intros E. unfold member_spec, target in *. destruct (transact_op_key_checks _ _); [|done].
  destruct (table_key (op_key_info op) (op_item op)) as [[cols k]|]; [|done]. cbn [storing fst snd] in *.
  by rewrite (E _ _ eq_refl).
Qed.

Lemma member_admissible_ext w w' op : (forall id k, target op = Some (id, k) -> w id k = w' id k) ->
  member_admissible w op -> member_admissible w' op.
Proof.
  intros E. destruct op as [| |ki key actions condition maps rv stream|]; simpl; [done|done| |done].
  intros [Hk Hn]. split; [done|]. intros k item Hkey. rewrite <- (E (tki_table_id ki) k); [by apply Hn|].
  by apply (item_key_target (TxUpdate ki key actions condition maps rv stream)).
Qed.

Lemma write_other w op im id k : target op <> Some (id, k) -> write w op im id k = w id k.
Proof.
  intros E. unfold write. destruct (_ || _); [|done]. destruct (target op) as [[id' k']|]; [|done].
  unfold put_at. destruct (String.eqb_spec id id') as [->|]; [|done]. unfold set_at.
  case_bool_decide; [congruence|done].
Qed.

(** The targets of the members are distinct. *)
Definition distinct (ops : list (TransactWriteOp D)) : Prop := NoDup (omap target ops).

Lemma distinct_cons op ops : distinct (op :: ops) ->
  distinct ops /\ forall op' id k, In op' ops -> target op' = Some (id, k) -> target op <> Some (id, k).
Proof.
  unfold distinct. simpl. destruct (target op) as [tk|]; [|done].
  intros Hd. inversion Hd as [|? ? Hn Hd']; subst. split; [done|]. intros op' id k Hin Ht [= ->]. apply Hn.
  apply list_elem_of_omap. exists op'. split; [by apply list_elem_of_In|done].
Qed.

Lemma images_ok_ext g g' op im : (forall id k, target op = Some (id, k) -> g id k = g' id k) ->
  images_ok g op im -> images_ok g' op im.
Proof.
  intros E H Hs. destruct (H Hs) as (k & Ht & Hold & Hk & Hst). exists k. rewrite <- (E _ _ Ht). done.
Qed.

Lemma ops_staged ops : forall tables q w0 w g,
  world_ok -> (forall op, In op ops -> In (op_key_info op) world) -> distinct ops ->
  (forall op id k, In op ops -> target op = Some (id, k) -> w0 id k = w id k) ->
  (forall op, In op ops -> member_admissible w0 op) -> world_mid tables q w g ->
  match execute_ops tables indexes_of max_item_size_bytes delay ops with
  | Ok (tables', outcomes) =>
      collect_results (fun op => member (member_spec w0 op)) ops = Ok outcomes
      /\ world_mid tables' q (write_all w ops (images outcomes)) g
      /\ Forall2 (images_ok w0) ops (images outcomes)
  | Err e => collect_results (fun op => member (member_spec w0 op)) ops = Err e
  end.
Proof.
  induction ops as [|op ops IH]; intros tables q w0 w g Hw Hin Hd Heq Ha Hm; [split; [done|split; [done|constructor]]|].
  apply distinct_cons in Hd as [Hd Hne]. cbn [execute_ops collect_results].
  pose proof (member_staged tables q w g op Hw (Hin op (or_introl eq_refl)) Hm
    (member_admissible_ext _ _ _ (fun id k => Heq op id k (or_introl eq_refl)) (Ha op (or_introl eq_refl)))) as Hst.
  unfold staged in Hst. rewrite (member_spec_ext w0 w op) by eauto using in_eq.
  destruct (execute_transact_write_op _ _ _ _ _) as [[tables' im]|[reason|e]]; cbn [member].
  - destruct Hst as (-> & Hm' & Him). cbn [member].
    specialize (IH tables' q w0 (write w op im) g Hw ltac:(auto with datatypes) Hd).
    cbn [fst snd]. destruct (execute_ops tables' _ _ _ ops) as [[t'' outcomes]|e'].
    + destruct IH as (-> & Hm'' & Hf); [|auto with datatypes|done|].
      { intros op' id k Hop' Ht. rewrite write_other by eauto. apply (Heq op'); auto with datatypes. }
      split; [done|]. split; [done|]. constructor; [|done]. eapply images_ok_ext; [|exact Him].
      intros id k Ht. symmetry. apply (Heq op); auto with datatypes.
    + rewrite IH; [done| |auto with datatypes|done].
      intros op' id k Hop' Ht. rewrite write_other by eauto. apply (Heq op'); auto with datatypes.
  - rewrite Hst. cbn [member]. specialize (IH tables q w0 w g Hw ltac:(auto with datatypes) Hd
      (fun op' id k H => Heq op' id k (or_intror H)) ltac:(auto with datatypes) Hm).
    destruct (execute_ops tables _ _ _ ops) as [[t'' outcomes]|e']; [|by rewrite IH].
    destruct IH as (-> & Hm'' & Hf). split; [done|]. split; [done|]. by constructor.
  - by rewrite Hst.
Qed.

(** The changes of the members, queued. *)
Lemma world_enqueue env tables q w g op old new :
  world_ok -> In (op_key_info op) world -> queue_ordered q -> world_mid tables q w g ->
  images_ok g op (old, new) -> is_some old || is_some new = true ->
  exists q' n, enqueue_async_indexes env q (op_key_info op) (indexes (op_key_info op)) old new delay 0 = Ok (q', n)
    /\ queue_ordered q' /\ world_mid tables q' w (write g op (old, new)).
Proof.
  intros Hw Hki Hq Hm Him Hs. destruct (Him Hs) as (k & Ht & Hold & Hk & Hst). set (ki := op_key_info op) in *.
  assert (is_Some (changed old new)) as Hc by (destruct old, new; by eauto).
  destruct (mid_enqueue ki (wo_schema Hw ki Hki) (indexes ki) (wo_indexes Hw ki Hki) delay env tables q _ _ k old new 0
    (Hm ki Hki) Hq Hold Hk Hc Hst) as (q' & n & ps & -> & Hq' & Hrows & Hmid & Hps).
  exists q', n. split; [done|]. split; [done|]. unfold write. cbn [fst snd]. rewrite Hs, Ht. intros ki' Hki'.
  destruct (decide (tki_table_id ki' = tki_table_id ki)) as [Eid|Nid].
  - apply world_ids in Eid as ->; [|done..]. by rewrite put_at_same.
  - rewrite put_at_other by done. eapply mid_frame; [by apply Hm|done|exact Hrows|].
    intros p Hp Hown. apply Nid. rewrite (wo_apart Hw ki' ki _ Hki' Hki Hown); [done|]. right. by apply Hps.
Qed.

Lemma ops_enqueued env ops : forall ims tables q w g,
  world_ok -> (forall op, In op ops -> In (op_key_info op) world) -> distinct ops ->
  Forall2 (images_ok g) ops ims -> queue_ordered q -> world_mid tables q w g ->
  exists q' notify, enqueue_all env q indexes_of delay ops ims = Ok (q', notify)
    /\ queue_ordered q' /\ world_mid tables q' w (write_all g ops ims).
Proof.
  induction ops as [|op ops IH]; intros ims tables q w g Hw Hin Hd Hf Hq Hm;
    inversion Hf as [|? [old new] ? ims' Him Hf']; subst; [by exists q, false|].
  apply distinct_cons in Hd as [Hd Hne]. cbn [enqueue_all write_all].
  assert (Hf'' : forall im, Forall2 (images_ok (write g op im)) ops ims').
  { intros im. clear -Hf' Hne. induction Hf' as [|op' im' ops ims' H Hf IHf]; [constructor|].
    constructor; [|apply IHf; intros; eapply Hne; [by right|done]]. eapply images_ok_ext; [|exact H]. intros id k Ht.
    symmetry. apply write_other. eapply Hne; [by left|done]. }
  destruct (is_some old || is_some new) eqn:Hs.
  - destruct (world_enqueue (env (length ops)) tables q w g op old new Hw (Hin op (or_introl eq_refl)) Hq Hm Him Hs)
      as (q' & n & -> & Hq' & Hm'). cbn [fst snd].
    destruct (IH ims' tables q' w (write g op (old, new)) Hw ltac:(auto with datatypes) Hd (Hf'' _) Hq' Hm')
      as (q'' & b & -> & Hq'' & Hm''). by eexists _, _.
  - assert (write g op (old, new) = g) as -> by (unfold write; cbn [fst snd]; by rewrite Hs).
    apply IH; auto with datatypes.
Qed.

Lemma world_agrees_mid db w : world_agrees db w -> world_mid (db_tables db) (db_queue db) w w.
Proof. intros H ki Hki. by apply store_mid, H. Qed.

End World.
