(* ===== verification/KeyRange.v ===== *)
(** * Key ranges of data files

    [KeyRangeTracker], [KeyRangeCheck] and [DataFileReader] of
    [crates/core/src/backup_format/manifest.rs]: the writer's and the reader's side
    of a key-ordered data file.  Each is a state machine fed with the items of a
    file, one call per item.  The decoder of the compressed file is a parameter. *)

From Stdlib Require Import Sorted.
From S2P Require Import Prelude BTree Types Error Decimal Number StorageKey NumberKey KeyOrder.

Record KeyRange : Type := {
  kr_first : Item;
  kr_last : Item
}.

Section Machines.
Context `{HR : Rendering} `{HB : Base64} {D : Type} `{HD : BigDecimal D}.

(** ** The writer's tracker *)

Record KeyRangeTracker : Type := {
  tr_order : KeyOrder;
  tr_first : option (HeldKey D);
  tr_latest : option (HeldKey D);
  tr_items : N
}.

Definition tracker_new (order : KeyOrder) : KeyRangeTracker :=
  {| tr_order := order; tr_first := None; tr_latest := None; tr_items := 0 |}.

Definition violation_message (self : KeyRangeTracker) (latest : HeldKey D) : string :=
  let n := (tr_items self + 1)%N in
  if (tr_items self =? 0)%N then
    "item 1 is not strictly after the previous file's last item, key " +:+
      truncated (key_json (held_to_item latest (tr_order self)))
  else "item " +:+ N_to_string n +:+ " is not strictly after item " +:+ N_to_string (n - 1).

(** On a refused key the latest key is put back, so nothing has changed. *)
Definition push_checked (self : KeyRangeTracker) (key : CheckedKey D)
    : KeyRangeTracker * fres (HeldKey D) :=
  let next :=
    match tr_latest self with
    | None => Ok (held_key_new key)
    | Some latest =>
        if bool_decide (checked_cmp (as_checked latest) key <> Lt) then
          Err (Refused (KeyOrderViolation (violation_message self latest)))
        else Ok (held_key_assign latest key)
    end in
  match next with
  | Err e => (self, Err e)
  | Ok latest =>
      ({| tr_order := tr_order self;
          tr_first := if (tr_items self =? 0)%N then Some latest else tr_first self;
          tr_latest := Some latest;
          tr_items := tr_items self + 1 |}, Ok latest)
  end.

Definition push_key (self : KeyRangeTracker) (item : Item) : KeyRangeTracker * fres (HeldKey D) :=
  match checked_key (tr_order self) item with
  | Err e => (self, Err e)
  | Ok key => push_checked self key
  end.

Definition push (self : KeyRangeTracker) (item : Item) : KeyRangeTracker * fres unit :=
  let '(self, r) := push_key self item in
  (self, let? _ := r in Ok tt).

Definition range_of (self : KeyRangeTracker) (first latest : HeldKey D) : KeyRange :=
  {| kr_first := held_to_item first (tr_order self); kr_last := held_to_item latest (tr_order self) |}.

Definition next_file (self : KeyRangeTracker) : KeyRangeTracker * option KeyRange :=
  match tr_latest self, tr_first self with
  | Some latest, Some first =>
      ({| tr_order := tr_order self; tr_first := None; tr_latest := tr_latest self; tr_items := 0 |},
       Some (range_of self first latest))
  | _, _ => (self, None)
  end.

Definition tracker_finish (self : KeyRangeTracker) : option KeyRange :=
  match tr_first self, tr_latest self with
  | Some first, Some latest => Some (range_of self first latest)
  | _, _ => None
  end.

(** ** The reader's check *)

Record KeyRangeCheck : Type := {
  rc_tracker : KeyRangeTracker;
  rc_range : result string (HeldKey D * HeldKey D)
}.

(** [FormatError::to_string]. *)
Definition error_text (e : FormatError) : string :=
  match e with
  | UnsupportedFormatVersion found supported =>
      "unsupported backup format version " +:+ N_to_string found +:+
      "; this build reads format versions 1 to " +:+ N_to_string supported
  | ChecksumMismatch subject expected computed =>
      subject +:+ " checksum mismatch: expected " +:+ debug expected +:+ ", computed " +:+ computed
  | ItemCountMismatch expected actual =>
      "item count mismatch: expected " +:+ N_to_string expected +:+ ", decoded " +:+ N_to_string actual
  | ByteCountMismatch expected actual =>
      "uncompressed byte count mismatch: expected " +:+ N_to_string expected +:+ ", decoded " +:+
      N_to_string actual
  | CompressedSizeMismatch expected actual =>
      "compressed size mismatch: expected " +:+ N_to_string expected +:+ " bytes, read " +:+
      N_to_string actual
  | InvalidArn reason => "invalid backup ARN: " +:+ reason
  | Json message => "JSON error: " +:+ message
  | LineTooLong cap =>
      "data file line exceeded the " +:+ N_to_string cap +:+
      "-byte maximum length; refusing to decompress further to bound memory"
  | InvalidDataFileKey key reason => "invalid data file key " +:+ debug key +:+ ": " +:+ reason
  | InvalidDataFileEntry key reason => "invalid data file entry " +:+ debug key +:+ ": " +:+ reason
  | KeyOrderViolation reason => "data file items break key order: " +:+ reason
  | Encode reason => "data file encode error: " +:+ reason
  | Decode reason => "data file decode error: " +:+ reason
  | UnorderableKeySchema reason => "key schema has no format-defined order: " +:+ reason
  | InvalidKey reason => "invalid key: " +:+ reason
  | InvalidManifest reason => "invalid manifest: " +:+ reason
  end.

(** The key of a recorded endpoint, or why it is none; a panic ends the check. *)
Definition endpoint (order : KeyOrder) (which : string) (key : Item)
    : fres (result string (HeldKey D)) :=
  match (let? _ := validate_key_item order key in checked_key order key) with
  | Ok k => Ok (Ok (held_key_new k))
  | Err Panicked => Err Panicked
  | Err (Refused e) =>
      let reason := match e with InvalidKey reason => reason | other => error_text other end in
      Ok (Err ("key_range " +:+ which +:+ " " +:+ truncated (key_json key) +:+
        " is not a key of this order: " +:+ reason))
  end.

Definition check_new (order : KeyOrder) (range : KeyRange) : fres KeyRangeCheck :=
  let? first := endpoint order "first" (kr_first range) in
  match first with
  | Err reason => Ok {| rc_tracker := tracker_new order; rc_range := Err reason |}
  | Ok first =>
      let? last := endpoint order "last" (kr_last range) in
      Ok {| rc_tracker := tracker_new order;
            rc_range := match last with Ok last => Ok (first, last) | Err reason => Err reason end |}
  end.

Definition check_range (range : result string (HeldKey D * HeldKey D))
    : fres (HeldKey D * HeldKey D) :=
  match range with
  | Ok r => Ok r
  | Err reason => invalid_key reason
  end.

Definition violation {A : Type} (reason : string) : fres A := Err (Refused (KeyOrderViolation reason)).

(** The comparisons with the recorded range, before the tracker takes the key. *)
Definition check_key (self : KeyRangeCheck) (item : Item) : fres (CheckedKey D) :=
  let? (first, last) := check_range (rc_range self) in
  let? key := checked_key (tr_order (rc_tracker self)) item in
  let n := (tr_items (rc_tracker self) + 1)%N in
  if (n =? 1)%N && bool_decide (checked_cmp key (as_checked first) <> Eq) then
    violation "the first item's key is not the file's key_range first"
  else if bool_decide (checked_cmp key (as_checked last) = Gt) then
    violation ("item " +:+ N_to_string n +:+ " is after the file's key_range last")
  else Ok key.

Definition check (self : KeyRangeCheck) (item : Item) : KeyRangeCheck * fres unit :=
  match check_key self item with
  | Err e => (self, Err e)
  | Ok key =>
      let '(tracker, r) := push_checked (rc_tracker self) key in
      ({| rc_tracker := tracker; rc_range := rc_range self |}, let? _ := r in Ok tt)
  end.

Definition check_finish (self : KeyRangeCheck) : fres unit :=
  let? (_, last) := check_range (rc_range self) in
  match tr_latest (rc_tracker self) with
  | None => violation "the file has a key_range and no items"
  | Some latest =>
      if bool_decide (checked_cmp (as_checked latest) (as_checked last) <> Eq) then
        violation ("the last item (item " +:+ N_to_string (tr_items (rc_tracker self)) +:+
          ") is not the file's key_range last")
      else Ok tt
  end.

(** ** The reader *)

Section Reader.
Context {R : Type} (decode_next : R -> R * fres (option Item)).

Record DataFileReader : Type := {
  rd_decoder : R;
  rd_check : option KeyRangeCheck;
  rd_ended : bool;
  rd_errored : bool;
  rd_check_failed : option string
}.

Definition reader_new (decoder : R) (check : option KeyRangeCheck) : DataFileReader :=
  {| rd_decoder := decoder; rd_check := check; rd_ended := false; rd_errored := false;
     rd_check_failed := None |}.

Definition failure_kind (e : format_fault) : string :=
  match e with
  | Refused (KeyOrderViolation _) => "key order violation"
  | _ => "invalid key"
  end.

(** The end of [next_item]: a failed check is remembered. *)
Definition checked_result (self : DataFileReader) (r : fres (option Item))
    : DataFileReader * fres (option Item) :=
  match r with
  | Ok _ => (self, r)
  | Err e =>
      ({| rd_decoder := rd_decoder self; rd_check := rd_check self; rd_ended := rd_ended self;
          rd_errored := true; rd_check_failed := Some (failure_kind e) |}, r)
  end.

Definition set_state (self : DataFileReader) (decoder : R) (check : option KeyRangeCheck)
    (ended errored : bool) : DataFileReader :=
  {| rd_decoder := decoder; rd_check := check; rd_ended := ended; rd_errored := errored;
     rd_check_failed := rd_check_failed self |}.

Definition next_item (self : DataFileReader) : DataFileReader * fres (option Item) :=
  match rd_check_failed self with
  | Some reason => (self, Err (Refused (Decode ("data file reader failed earlier: " +:+ reason))))
  | None =>
      if rd_ended self then (self, Ok None)
      else
        match decode_next (rd_decoder self) with
        | (d, Err e) => (set_state self d (rd_check self) (rd_ended self) true, Err e)
        | (d, Ok (Some item)) =>
            match rd_check self with
            | Some c =>
                let '(c, r) := check c item in
                checked_result (set_state self d (Some c) (rd_ended self) (rd_errored self))
                  (let? _ := r in Ok (Some item))
            | None => (set_state self d None (rd_ended self) (rd_errored self), Ok (Some item))
            end
        | (d, Ok None) =>
            let self := set_state self d (rd_check self) true (rd_errored self) in
            match rd_check self with
            | Some c => checked_result self (let? _ := check_finish c in Ok None)
            | None => (self, Ok None)
            end
        end
  end.

(** The iterator: the first error once, then the end. *)
Definition reader_next (self : DataFileReader) : DataFileReader * option (fres Item) :=
  if rd_errored self then (self, None)
  else
    let '(self, r) := next_item self in
    (self, match r with
           | Ok (Some item) => Some (Ok item)
           | Ok None => None
           | Err e => Some (Err e)
           end).

(** A caller that reads to the end: the items, or the first error. *)
Fixpoint drain (fuel : nat) (self : DataFileReader) : option (fres (list Item)) :=
  match fuel with
  | O => None
  | S fuel =>
      match reader_next self with
      | (_, None) => Some (Ok [])
      | (_, Some (Err e)) => Some (Err e)
      | (self, Some (Ok item)) =>
          match drain fuel self with
          | Some (Ok items) => Some (Ok (item :: items))
          | other => other
          end
      end
  end.
End Reader.
End Machines.

Arguments KeyRangeTracker D : clear implicits.
Arguments KeyRangeCheck D : clear implicits.
Arguments DataFileReader D R : clear implicits.

(** ** Ascending keys *)

Section Ascent.
Context `{HR : Rendering} `{HB : Base64} `{HBL : !Base64Laws}
  {D : Type} `{HD : BigDecimal D} `{HDL : !BigDecimalLaws D}.
Implicit Types (k l : CheckedKey D) (ks : list (CheckedKey D)).

(** [k] is the checked key of [item]. *)
Definition key_of (order : KeyOrder) (item : Item) k : Prop :=
  checked_key order item = Ok k /\ short_numbers item.

Definition is_key (order : KeyOrder) k : Prop := exists item, key_of order item k.

Definition keys_of (order : KeyOrder) (items : list Item) ks : Prop :=
  Forall2 (key_of order) items ks.

Lemma key_of_unique order item k l : key_of order item k -> key_of order item l -> k = l.
Proof. intros [Hk _] [Hl _]. congruence. Qed.

Lemma Forall2_key_unique order items ks ls : keys_of order items ks -> keys_of order items ls -> ks = ls.
Proof.
  intros Hk. revert ls. induction Hk as [|i k items ks Hik Hk IH]; intros ls Hl; inversion Hl; subst; [done|].
  f_equal; [by eapply key_of_unique|auto].
Qed.

Lemma keys_of_is_key order items ks : keys_of order items ks -> Forall (is_key order) ks.
Proof. intros H. induction H; constructor; [by eexists|done]. Qed.

Lemma is_key_shape order k : is_key order k -> shape (ck_range k) = snd <$> ko_range order.
Proof. intros (i & (rv & _ & Hv)%checked_key_view & _). by eapply view_shape. Qed.

Lemma is_key_text order k : is_key order k -> hash_key_text (ck_hash k) = Some (ck_hash_text k).
Proof. intros (i & (rv & _ & Hv)%checked_key_view & _). apply Hv. Qed.

Lemma is_key_held order k : is_key order k -> as_checked (held_key_new k) = k.
Proof. intros Hk. by apply as_checked_new, (is_key_text order). Qed.

(** Keys that compare equal are the same key. *)
Lemma is_key_eq order k l :
  is_key order k -> is_key order l -> checked_cmp k l = Eq <-> k = l.
Proof.
  intros (i & (rv & _ & Vk)%checked_key_view & Si) (j & (rw & _ & Vl)%checked_key_view & Sj).
  rewrite (checked_cmp_eq order i j k l rv rw) by done. split; [|intros <-; split; [done|]].
  - intros [Hh Hr]. destruct Vk as (_ & _ & Tk & Rk), Vl as (_ & _ & Tl & Rl).
    destruct k as [hk tk rk], l as [hl tl rl]. simpl in *. subst hl rw.
    assert (tl = tk) as -> by congruence. f_equal.
    destruct (ko_range order) as [[name ty]|]; [|by destruct Rk as [_ ->], Rl as [_ ->]].
    destruct Rk as (v & r & -> & -> & _ & _ & Vv), Rl as (w & s & [= <-] & -> & _ & _ & Vw). f_equal.
    destruct Vv; inversion Vw; congruence.
  - destruct Vk as (_ & _ & _ & Rk), Vl as (_ & _ & _ & Rl).
    destruct (ko_range order) as [[name ty]|]; [|by destruct Rk as [-> _], Rl as [-> _]].
    destruct Rk as (v & r & -> & Er & _ & _ & Vv), Rl as (w & s & -> & Es & _ & _ & Vw). f_equal.
    assert (s = r) as -> by congruence. destruct Vv; inversion Vw; congruence.
Qed.

Lemma is_key_trans order k l m :
  is_key order k -> is_key order l -> is_key order m ->
  checked_cmp k l = Lt -> checked_cmp l m = Lt -> checked_cmp k m = Lt.
Proof.
  intros Hk%is_key_shape Hl%is_key_shape Hm%is_key_shape. apply checked_cmp_trans; congruence.
Qed.

Lemma is_key_antisym order k l :
  is_key order k -> is_key order l -> checked_cmp l k = CompOpp (checked_cmp k l).
Proof. intros Hk%is_key_shape Hl%is_key_shape. apply checked_cmp_antisym. congruence. Qed.

(** The next key of an ascending sequence. *)
Definition may_follow (latest : option (CheckedKey D)) k : bool :=
  match latest with
  | None => true
  | Some l => bool_decide (checked_cmp l k = Lt)
  end.

Fixpoint ascends (latest : option (CheckedKey D)) ks : bool :=
  match ks with
  | [] => true
  | k :: ks => may_follow latest k && ascends (Some k) ks
  end.

(** The key a sequence ends with, or the one before it. *)
Fixpoint latest_of (prev : option (CheckedKey D)) ks : option (CheckedKey D) :=
  match ks with
  | [] => prev
  | k :: ks => latest_of (Some k) ks
  end.

Lemma latest_of_app prev ks ks' : latest_of prev (ks ++ ks') = latest_of (latest_of prev ks) ks'.
Proof.
  revert prev. induction ks as [|k ks IH]; intros prev; simpl; [done|]. apply IH.
Qed.

Lemma ascends_app prev ks ks' :
  ascends prev (ks ++ ks') = ascends prev ks && ascends (latest_of prev ks) ks'.
Proof.
  revert prev. induction ks as [|k ks IH]; intros prev; [done|].
  simpl. by rewrite IH, andb_assoc.
Qed.

(** Strict ascent of neighbours is strict ascent of all. *)
Lemma ascends_sorted order prev ks :
  Forall (is_key order) ks -> (forall p, prev = Some p -> is_key order p) -> ascends prev ks = true ->
  StronglySorted (fun k l => checked_cmp k l = Lt) ks /\
  (forall p, prev = Some p -> Forall (fun k => checked_cmp p k = Lt) ks).
Proof.
  intros Hks. revert prev. induction Hks as [|k ks Hk Hks IH]; intros prev Hp Ha.
  { split; [constructor|]. intros. constructor. }
  simpl in Ha. bool_split. destruct (IH (Some k)) as [Hs Hall]; [by intros p [= <-]|done|].
  specialize (Hall k eq_refl). split; [by constructor|]. intros p ->.
  specialize (Hp p eq_refl). apply bool_decide_eq_true in Ha0.
  constructor; [done|]. rewrite Forall_forall in Hall, Hks |- *.
  intros l Hl. exact (is_key_trans order p k l Hp Hk (Hks l Hl) Ha0 (Hall l Hl)).
Qed.

Lemma sorted_NoDup order ks :
  Forall (is_key order) ks -> StronglySorted (fun k l => checked_cmp k l = Lt) ks -> NoDup ks.
Proof.
  intros Hks Hs. induction Hs as [|k ks Hs IH Hall]; [constructor|].
  apply Forall_cons_iff in Hks as [Hk Hks]. constructor; [|auto].
  intros Hin%list_elem_of_In. rewrite Forall_forall in Hall. pose proof (Hall _ Hin) as Hlt.
  rewrite (proj2 (is_key_eq order k k Hk Hk) eq_refl) in Hlt. done.
Qed.

(** ** The tracker refines a sequence of keys *)

(** The state of a tracker that has closed files ending in [prev] and has taken the
    keys [file] since. *)
Record tracks (order : KeyOrder) (prev : option (CheckedKey D)) (file : list (CheckedKey D))
    (t : KeyRangeTracker D) : Prop := {
  tracks_order : tr_order t = order;
  tracks_first : tr_first t = held_key_new <$> head file;
  tracks_latest : tr_latest t = held_key_new <$> latest_of prev file;
  tracks_items : tr_items t = N.of_nat (length file);
  tracks_keys : forall k, latest_of prev file = Some k -> is_key order k
}.

Lemma tracks_new order : tracks order None [] (tracker_new order).
Proof. by split. Qed.

Lemma latest_of_snoc prev ks k : latest_of prev (ks ++ [k]) = Some k.
Proof. by rewrite latest_of_app. Qed.

(** One push: the key is taken when it follows the latest one; otherwise the tracker
    is left as it was. *)
Lemma push_checked_spec order prev file t k :
  tracks order prev file t -> is_key order k ->
  if may_follow (latest_of prev file) k then
    exists t', push_checked t k = (t', Ok (held_key_new k)) /\ tracks order prev (file ++ [k]) t'
  else exists reason, push_checked t k = (t, violation reason).
Proof.
  intros [Ho Hf Hl Hi Hk] Hkey. unfold push_checked. rewrite Hl.
  assert (forall h, h = held_key_new k ->
    tracks order prev (file ++ [k])
      {| tr_order := tr_order t; tr_first := if (tr_items t =? 0)%N then Some h else tr_first t;
         tr_latest := Some h; tr_items := tr_items t + 1 |}) as Htr.
  { intros h ->. split; simpl; [done| | | |].
    - rewrite Hi, Hf. by destruct file.
    - by rewrite latest_of_snoc.
    - rewrite Hi, length_app. simpl. lia.
    - rewrite latest_of_snoc. by intros ? [= <-]. }
  destruct (latest_of prev file) as [l|]; simpl.
  - rewrite (is_key_held order l) by auto. destruct (checked_cmp l k) eqn:E; simpl.
    + eauto.
    + rewrite held_key_assign_new. eauto.
    + eauto.
  - eauto.
Qed.

Fixpoint push_all (t : KeyRangeTracker D) (items : list Item) : KeyRangeTracker D * fres unit :=
  match items with
  | [] => (t, Ok tt)
  | item :: items =>
      match push t item with
      | (t, Ok _) => push_all t items
      | (t, Err e) => (t, Err e)
      end
  end.

Lemma push_spec order prev file t item k :
  tracks order prev file t -> key_of order item k ->
  if may_follow (latest_of prev file) k then
    exists t', push t item = (t', Ok tt) /\ tracks order prev (file ++ [k]) t'
  else exists reason, push t item = (t, violation reason).
Proof.
  intros Ht Hk. pose proof (push_checked_spec _ _ _ _ k Ht ltac:(by exists item)) as Hp.
  unfold push, push_key. rewrite (tracks_order _ _ _ _ Ht), (proj1 Hk).
  destruct (may_follow _ k).
  - destruct Hp as (t' & -> & Ht'). eauto.
  - destruct Hp as (reason & ->). by exists reason.
Qed.

(** Pushing a file succeeds exactly when its keys are valid and ascend from the
    latest key on. *)
Lemma push_all_spec order prev file t items :
  Forall short_numbers items -> tracks order prev file t ->
  (forall t', push_all t items = (t', Ok tt) ->
     exists ks, keys_of order items ks /\ ascends (latest_of prev file) ks = true /\
       tracks order prev (file ++ ks) t') /\
  (forall ks, keys_of order items ks -> ascends (latest_of prev file) ks = true ->
     exists t', push_all t items = (t', Ok tt)).
Proof.
  intros Hs. revert file t. induction Hs as [|item items Hi Hs IH]; intros file t Ht.
  { simpl. split; [|by eauto]. intros t' [= <-]. exists []. rewrite app_nil_r.
    split; [constructor|done]. }
  assert (forall k, checked_key order item = Ok k -> key_of order item k) as Hkey by done.
  split.
  - intros t'. simpl. destruct (checked_key order item) as [k|e] eqn:Ek.
    + pose proof (push_spec _ _ _ _ _ k Ht (Hkey k eq_refl)) as Hp.
      destruct (may_follow (latest_of prev file) k) eqn:Em; [|by destruct Hp as (r & ->)].
      destruct Hp as (t1 & -> & Ht1). intros Hr. destruct (IH _ _ Ht1) as [Hfw _].
      destruct (Hfw t' Hr) as (ks & Hks & Ha & Ht'). exists (k :: ks).
      rewrite latest_of_snoc in Ha. simpl. rewrite Em, Ha. split; [by constructor; auto|].
      split; [done|]. by rewrite <- app_assoc in Ht'.
    + unfold push, push_key. by rewrite (tracks_order _ _ _ _ Ht), Ek.
  - intros ks Hks Ha. inversion Hks as [|? k ? ks' Hk Hks']; subst. simpl in Ha. bool_split.
    pose proof (push_spec _ _ _ _ _ k Ht Hk) as Hp. rewrite Ha0 in Hp.
    destruct Hp as (t1 & Hp & Ht1). simpl. rewrite Hp. destruct (IH _ _ Ht1) as [_ Hbw].
    apply (Hbw ks'); [done|]. by rewrite latest_of_snoc.
Qed.

(** ** Ranges *)

(** The range recorded for a file: the keys of its first and last item, none for an
    empty file. *)
Definition records_range (order : KeyOrder) (ks : list (CheckedKey D)) (r : option KeyRange) : Prop :=
  match head ks, latest_of None ks, r with
  | Some f, Some l, Some r =>
      kr_first r = held_to_item (held_key_new f) order /\ kr_last r = held_to_item (held_key_new l) order
  | None, None, None => True
  | _, _, _ => False
  end.

Lemma latest_of_Some k ks : latest_of (Some k) ks <> None.
Proof. revert k. induction ks as [|l ks IH]; intros k; simpl; [done|apply IH]. Qed.

Lemma next_file_spec order prev file t :
  tracks order prev file t ->
  exists r, next_file t = ((next_file t).1, r) /\ records_range order file r /\
    tracks order (latest_of prev file) [] (next_file t).1.
Proof.
  intros [Ho Hf Hl Hi Hk]. unfold next_file, range_of. rewrite Hf, Hl, Ho. destruct file as [|k file]; simpl.
  - exists None. split; [by destruct (held_key_new <$> prev)|]. split; [done|].
    destruct prev; simpl; by split.
  - destruct (latest_of (Some k) file) as [l|] eqn:E.
    + simpl. eexists. split; [done|]. unfold records_range. simpl. rewrite E. split; [done|].
      split; simpl; [done..|]. intros ? [= <-]. by apply Hk.
    + exfalso. by eapply latest_of_Some.
Qed.

(** ** A whole backup *)

(** The writer of a backup: the items of each file pushed, the file closed, and its
    range kept. *)
Fixpoint write_files (t : KeyRangeTracker D) (files : list (list Item)) : fres (list (option KeyRange)) :=
  match files with
  | [] => Ok []
  | items :: files =>
      match push_all t items with
      | (_, Err e) => Err e
      | (t, Ok _) =>
          let '(t, range) := next_file t in
          let? ranges := write_files t files in
          Ok (range :: ranges)
      end
  end.

Lemma records_range_unique order ks r r' :
  records_range order ks r -> records_range order ks r' -> r = r'.
Proof.
  unfold records_range. destruct (head ks), (latest_of None ks), r as [[a b]|], r' as [[a' b']|];
    simpl; try done. intros [-> ->] [-> ->]. done.
Qed.

Lemma write_files_spec order prev t files ranges :
  Forall (Forall short_numbers) files -> tracks order prev [] t ->
  write_files t files = Ok ranges <->
  exists kss, Forall2 (keys_of order) files kss /\ ascends prev (concat kss) = true /\
    Forall2 (records_range order) kss ranges.
Proof.
  intros Hs. revert prev t ranges. induction Hs as [|items files Hi Hs IH]; intros prev t ranges Ht.
  { simpl. split.
    - intros [= <-]. exists []. repeat split; constructor.
    - intros (kss & H1 & _ & H2). inversion H1; subst. by inversion H2. }
  destruct (push_all_spec order prev [] t items Hi Ht) as [Hfw Hbw]. simpl in Hfw, Hbw. split.
  - cbn [write_files]. destruct (push_all t items) as [t1 [[]|e]]; [|done].
    destruct (Hfw t1 eq_refl) as (ks & Hks & Ha & Ht1).
    destruct (next_file_spec _ _ _ _ Ht1) as (r & Hn & Hr & Ht2). rewrite Hn.
    destruct (write_files _ files) as [rs|e] eqn:Ew; [|done]. intros [= <-].
    apply (IH _ _ _ Ht2) in Ew as (kss & H1 & H2 & H3). exists (ks :: kss).
    split; [by constructor|]. split; [|by constructor]. simpl. by rewrite ascends_app, Ha.
  - intros (kss & H1 & Ha & H2). inversion H1 as [|? ks ? kss' Hks Hkss]; subst.
    inversion H2 as [|? r ? rs Hr Hrs]; subst. simpl in Ha. rewrite ascends_app in Ha. bool_split.
    destruct (Hbw ks Hks Ha0) as [t1 Hp]. cbn [write_files]. rewrite Hp.
    destruct (Hfw t1 Hp) as (ks' & Hks' & _ & Ht1).
    assert (ks' = ks) as -> by (by eapply Forall2_key_unique).
    destruct (next_file_spec _ _ _ _ Ht1) as (r' & Hn & Hr' & Ht2). rewrite Hn.
    rewrite (proj2 (IH _ _ rs Ht2)); [|by exists kss'].
    by rewrite (records_range_unique _ _ _ _ Hr Hr').
Qed.

(** ** The check of one file *)

(** A check with recorded range from [f] to [l] that has taken the keys [file]. *)
Definition reads (order : KeyOrder) (f l : CheckedKey D) (file : list (CheckedKey D))
    (c : KeyRangeCheck D) : Prop :=
  rc_range c = Ok (held_key_new f, held_key_new l) /\ tracks order None file (rc_tracker c).

Lemma check_spec order f l file c item k :
  is_key order f -> is_key order l -> reads order f l file c -> key_of order item k ->
  (exists c', check c item = (c', Ok tt) /\ reads order f l (file ++ [k]) c' /\
     (file = [] -> k = f) /\ checked_cmp k l <> Gt /\ may_follow (latest_of None file) k = true) \/
  (exists e, check c item = (c, Err e) /\
     ((file = [] /\ k <> f) \/ checked_cmp k l = Gt \/ may_follow (latest_of None file) k = false)).
Proof.
  intros Hf Hl [Hr Ht] Hk. assert (is_key order k) as Hik by (by exists item).
  unfold check, check_key. rewrite Hr. cbn [check_range].
  rewrite (tracks_order _ _ _ _ Ht), (proj1 Hk), (tracks_items _ _ _ _ Ht).
  rewrite (is_key_held order f), (is_key_held order l) by done.
  destruct (_ && _) eqn:E1.
  { right. eexists. split; [done|]. left. apply andb_prop in E1 as [E1 E2].
    apply N.eqb_eq in E1. apply bool_decide_eq_true in E2. rewrite (is_key_eq order) in E2 by done.
    split; [|done]. destruct file; [done|simpl in E1; lia]. }
  destruct (decide (checked_cmp k l = Gt)) as [E2|E2].
  { rewrite (bool_decide_eq_true_2 _ E2). right. eexists. split; [done|]. auto. }
  rewrite (bool_decide_eq_false_2 _ E2).
  pose proof (push_checked_spec _ _ _ _ k Ht Hik) as Hp.
  destruct (may_follow (latest_of None file) k) eqn:Em.
  - left. destruct Hp as (t' & -> & Ht'). eexists. split; [done|]. split; [by split|].
    split; [|done]. intros ->. simpl in E1. apply bool_decide_eq_false in E1.
    apply (is_key_eq order); [done|done|]. by apply dec_stable.
  - right. destruct Hp as (reason & ->). destruct c as [t r]. simpl in *. subst r.
    eexists. split; [done|]. auto.
Qed.

Fixpoint check_all (c : KeyRangeCheck D) (items : list Item) : KeyRangeCheck D * fres unit :=
  match items with
  | [] => (c, Ok tt)
  | item :: items =>
      match check c item with
      | (c, Ok _) => check_all c items
      | (c, Err e) => (c, Err e)
      end
  end.

Lemma check_key_Err order f l file c item e :
  reads order f l file c -> checked_key order item = Err e -> check c item = (c, Err e).
Proof.
  intros [Hr Ht] He. unfold check, check_key. rewrite Hr. cbn [check_range].
  by rewrite (tracks_order _ _ _ _ Ht), He.
Qed.

(** What passes the check ascends, starts with [f] and stays within [l]. *)
Lemma check_all_sound order f l file c items c' :
  is_key order f -> is_key order l -> Forall short_numbers items -> reads order f l file c ->
  check_all c items = (c', Ok tt) ->
  exists ks, keys_of order items ks /\ ascends (latest_of None file) ks = true /\
    reads order f l (file ++ ks) c' /\ (file = [] -> ks = [] \/ head ks = Some f).
Proof.
  intros Hf Hl Hs. revert file c. induction Hs as [|item items Hi Hs IH]; intros file c Hc Hr.
  { injection Hr as <-. exists []. rewrite app_nil_r. split; [constructor|]. auto. }
  simpl in Hr. destruct (checked_key order item) as [k|e] eqn:Ek.
  - destruct (check_spec order f l file c item k Hf Hl Hc (conj Ek Hi))
      as [(c1 & E & Hc1 & H1 & _ & Hm)|(e & E & _)]; rewrite E in Hr; [|done].
    destruct (IH _ _ Hc1 Hr) as (ks & Hks & Ha & Hc2 & _). exists (k :: ks).
    rewrite latest_of_snoc in Ha. simpl. rewrite Hm, Ha, <- app_assoc in *.
    split; [by constructor|]. split; [done|]. split; [done|]. intros Hfile. right. by rewrite H1.
  - by rewrite (check_key_Err _ _ _ _ _ _ _ Hc Ek) in Hr.
Qed.

Lemma ascends_le_last order prev k ks l :
  Forall (is_key order) (k :: ks) -> (forall p, prev = Some p -> is_key order p) ->
  ascends prev (k :: ks) = true -> latest_of (Some k) ks = Some l -> checked_cmp k l <> Gt.
Proof.
  intros Hks Hp Ha Hl. destruct (ascends_sorted order prev (k :: ks) Hks Hp Ha) as [Hs _].
  apply Forall_cons_iff in Hks as [Hk _]. inversion Hs as [|? ? _ Hall]; subst.
  destruct ks as [|x ks _] using rev_ind; simpl in Hl.
  - injection Hl as <-. by rewrite (proj2 (is_key_eq order k k Hk Hk) eq_refl).
  - rewrite latest_of_snoc in Hl. injection Hl as <-. apply Forall_app in Hall as [_ Hall].
    apply Forall_cons_iff in Hall as [-> _]. done.
Qed.

(** Ascending keys from [f] to [l] pass the check. *)
Lemma check_all_complete order f l file c items ks :
  is_key order f -> is_key order l -> reads order f l file c ->
  keys_of order items ks -> ascends (latest_of None file) ks = true ->
  (file = [] -> ks = [] \/ head ks = Some f) -> latest_of (latest_of None file) ks = Some l ->
  exists c', check_all c items = (c', Ok tt) /\ reads order f l (file ++ ks) c'.
Proof.
  intros Hf Hl Hc Hks. revert file c Hc.
  induction Hks as [|item k items ks Hk Hks IH]; intros file c Hc Ha Hh Hlast.
  { exists c. by rewrite app_nil_r. }
  pose proof (keys_of_is_key _ _ _ Hks) as Hkeys.
  destruct (check_spec order f l file c item k Hf Hl Hc Hk) as [(c1 & E & Hc1 & _)|(e & _ & Hbad)].
  - simpl in Ha. bool_split. destruct (IH _ _ Hc1) as (c' & Hc' & Hr).
    + by rewrite latest_of_snoc.
    + by destruct file.
    + by rewrite latest_of_snoc.
    + exists c'. simpl. rewrite E. rewrite <- app_assoc in Hr. done.
  - exfalso. destruct Hbad as [[-> Hne]|[Hgt|Hm]].
    + destruct (Hh eq_refl) as [|[= <-]]; done.
    + revert Hgt. apply (ascends_le_last order (latest_of None file) k ks l); [| |done|done].
      * constructor; [by exists item|done].
      * apply (tracks_keys _ _ _ _ (proj2 Hc)).
    + simpl in Ha. by rewrite Hm in Ha.
Qed.

Lemma check_finish_spec order f l file c :
  is_key order l -> reads order f l file c ->
  check_finish c = Ok tt <-> latest_of None file = Some l.
Proof.
  intros Hl [Hr Ht]. unfold check_finish. rewrite Hr. cbn [check_range].
  rewrite (tracks_latest _ _ _ _ Ht). pose proof (tracks_keys _ _ _ _ Ht) as Hk.
  destruct (latest_of None file) as [k|]; simpl; [|done].
  rewrite (is_key_held order k), (is_key_held order l) by auto.
  case_bool_decide as E; rewrite (is_key_eq order) in E by auto; naive_solver.
Qed.

(** ** Keys as recorded *)

Lemma checked_key_ext order i j :
  (forall name ty, In (name, ty) (key_attributes order) -> bt_get name i = bt_get name j) ->
  checked_key (D := D) order i = checked_key order j.
Proof.
  intros Hag. unfold checked_key, key_values, range_value_of, value_of.
  assert (bt_get (ko_hash order).1 i = bt_get (ko_hash order).1 j) as ->.
  { destruct (ko_hash order) as [name ty] eqn:E. apply (Hag name ty). left. by rewrite E. }
  destruct (ko_range order) as [[name ty]|] eqn:E; [|done].
  assert (bt_get name i = bt_get name j) as ->; [|done].
  apply (Hag name ty). right. rewrite E. by left.
Qed.

Lemma key_item_get schema defs order item (k : CheckedKey D) rv name ty :
  resolve schema defs = Ok order -> key_view order item k rv -> In (name, ty) (key_attributes order) ->
  bt_get name (key_item order (ck_hash k) rv) = bt_get name item.
Proof.
  intros Hres (Hh & _ & _ & Hr) Hin. unfold key_item. unfold key_attributes in Hin.
  pose proof (fun n t => resolve_distinct _ _ _ n t Hres) as Hd.
  destruct (ko_range order) as [[n t]|].
  - specialize (Hd n t eq_refl). destruct Hr as (v & r & -> & _ & Hv & _).
    destruct Hin as [E|[[= -> ->]|[]]]; [|by rewrite bt_get_insert_eq].
    destruct (ko_hash order) as [h th]. injection E as -> ->. cbn [fst] in *.
    by rewrite bt_get_insert_ne, bt_get_insert_eq by done.
  - destruct Hin as [E|[]]. destruct (ko_hash order) as [h th]. injection E as -> ->. cbn [fst] in *.
    by rewrite bt_get_insert_eq.
Qed.

Lemma key_item_short schema defs order item (k : CheckedKey D) rv :
  resolve schema defs = Ok order -> key_view order item k rv -> short_numbers item ->
  short_numbers (key_item order (ck_hash k) rv).
Proof.
  intros Hres Hv Hs name n Hn.
  assert (exists ty, In (name, ty) (key_attributes order)) as [ty Hin].
  { apply bt_get_In in Hn. unfold key_item in Hn. unfold key_attributes.
    destruct (ko_hash order) as [h th] eqn:Eh, (ko_range order) as [[r tr]|], rv as [v|]; cbn [fst] in Hn.
    all: repeat (apply In_bt_insert in Hn as [[= -> _]|Hn]; [by eexists; simpl; eauto|]); by destruct Hn. }
  rewrite (key_item_get _ _ _ _ _ _ _ _ Hres Hv Hin) in Hn. by eapply Hs.
Qed.

(** The recorded form of a key is a key item of the same key. *)
Lemma endpoint_roundtrip schema defs order k which :
  resolve schema defs = Ok order -> is_key order k ->
  endpoint order which (held_to_item (held_key_new k) order) = Ok (Ok (held_key_new k)) /\
  key_of order (held_to_item (held_key_new k) order) k.
Proof.
  intros Hres (item & Hk & Hs). pose proof (checked_key_view _ _ _ Hk) as (rv & _ & Hv).
  rewrite (held_to_item_new _ _ _ _ Hv).
  assert (checked_key order (key_item order (ck_hash k) rv) = Ok k) as Hc.
  { rewrite <- Hk. apply checked_key_ext. intros name ty. by eapply key_item_get. }
  assert (validate_key_item order (key_item order (ck_hash k) rv) = Ok tt) as Hval.
  { pose proof (fun n t => key_item_get _ _ _ _ _ _ n t Hres Hv) as Hget.
    pose proof (fun n t => resolve_distinct _ _ _ n t Hres) as Hd.
    destruct Hv as (Hh & Hch & _ & Hr). unfold validate_key_item, key_attributes in *.
    assert (length (key_item order (ck_hash k) rv) = length (key_attributes order)) as Hlen.
    { unfold key_item, key_attributes. destruct (ko_range order) as [[n t]|].
      - destruct Hr as (v & r & -> & _). specialize (Hd n t eq_refl). simpl.
        destruct (cmp n (ko_hash order).1) eqn:E; [by apply cmp_eq_iff in E|done|done].
      - done. }
    unfold key_attributes in Hlen. rewrite Hlen, Nat.eqb_refl. simpl.
    destruct (ko_hash order) as [h th]. simpl in *.
    rewrite (Hget h th) by (simpl; auto). rewrite Hh, Hch.
    destruct (ko_range order) as [[n t]|]; [|done]. simpl.
    destruct Hr as (v & r & -> & _ & Hn & Hcn & _). rewrite (Hget n t) by (simpl; auto). by rewrite Hn, Hcn. }
  split; [|split; [done|by eapply key_item_short]].
  unfold endpoint. by rewrite Hval, Hc.
Qed.

(** ** Reading a file to its end *)

Section Drain.
Context {R : Type} (decode_next : R -> R * fres (option Item)).

(** The decoder yields [items] and then the end. *)
Inductive decodes : R -> list Item -> Prop :=
  | decodes_end d d' : decode_next d = (d', Ok None) -> decodes d []
  | decodes_item d d' item items :
      decode_next d = (d', Ok (Some item)) -> decodes d' items -> decodes d (item :: items).

(** A reader that has neither ended nor failed. *)
Definition open_reader (d : R) (c : KeyRangeCheck D) : DataFileReader D R :=
  {| rd_decoder := d; rd_check := Some c; rd_ended := false; rd_errored := false;
     rd_check_failed := None |}.

Lemma reader_next_open d c :
  reader_next decode_next (open_reader d c) =
    match decode_next d with
    | (d', Err e) => (set_state (open_reader d c) d' (Some c) false true, Some (Err e))
    | (d', Ok (Some item)) =>
        match check c item with
        | (c', Ok _) => (open_reader d' c', Some (Ok item))
        | (c', Err e) =>
            ((checked_result (set_state (open_reader d c) d' (Some c') false false) (Err e)).1,
             Some (Err e))
        end
    | (d', Ok None) =>
        match check_finish c with
        | Ok _ => (set_state (open_reader d c) d' (Some c) true false, None)
        | Err e =>
            ((checked_result (set_state (open_reader d c) d' (Some c) true false) (Err e)).1,
             Some (Err e))
        end
    end.
Proof.
  unfold reader_next, next_item. simpl. destruct (decode_next d) as [d' [[item|]|e]]; [| |done].
  - by destruct (check c item) as [c' [[]|e]].
  - simpl. by destruct (check_finish c) as [[]|e].
Qed.

Lemma drain_S fuel (self : DataFileReader D R) :
  drain decode_next (S fuel) self =
    match reader_next decode_next self with
    | (_, None) => Some (Ok [])
    | (_, Some (Err e)) => Some (Err e)
    | (self, Some (Ok item)) =>
        match drain decode_next fuel self with
        | Some (Ok items) => Some (Ok (item :: items))
        | other => other
        end
    end.
Proof. done. Qed.

Lemma drain_sound fuel d c items :
  drain decode_next fuel (open_reader d c) = Some (Ok items) ->
  exists c', check_all c items = (c', Ok tt) /\ check_finish c' = Ok tt.
Proof.
  revert d c items. induction fuel as [|fuel IH]; intros d c items; [done|].
  rewrite drain_S, reader_next_open. destruct (decode_next d) as [d' [[item|]|e]]; [| |done].
  - destruct (check c item) as [c1 [[]|e]] eqn:Ec; [|done].
    destruct (drain decode_next fuel (open_reader d' c1)) as [[rest|e]|] eqn:Er; try done.
    intros [= <-]. destruct (IH _ _ _ Er) as (c' & Ha & Hf). exists c'. simpl. by rewrite Ec.
  - destruct (check_finish c) as [[]|e] eqn:Ef; [|done]. intros [= <-]. by exists c.
Qed.

Lemma drain_complete d c items c' :
  decodes d items -> check_all c items = (c', Ok tt) -> check_finish c' = Ok tt ->
  drain decode_next (S (length items)) (open_reader d c) = Some (Ok items).
Proof.
  intros Hd. revert c. induction Hd as [d d' E|d d' item items E Hd IH]; intros c Ha Hf.
  - injection Ha as <-. cbn [length drain]. by rewrite reader_next_open, E, Hf.
  - simpl in Ha. destruct (check c item) as [c1 [[]|e]] eqn:Ec; [|done].
    cbn [length]. rewrite drain_S, reader_next_open, E, Ec. by rewrite (IH c1 Ha Hf).
Qed.
End Drain.

Lemma check_new_recorded schema defs order f l r :
  resolve schema defs = Ok order -> is_key order f -> is_key order l ->
  kr_first r = held_to_item (held_key_new f) order -> kr_last r = held_to_item (held_key_new l) order ->
  exists c, check_new order r = Ok c /\ reads order f l [] c.
Proof.
  intros Hres Hf Hl Ef El. unfold check_new. rewrite Ef, El.
  destruct (endpoint_roundtrip _ _ _ _ "first" Hres Hf) as [-> _].
  destruct (endpoint_roundtrip _ _ _ _ "last" Hres Hl) as [-> _].
  eexists. split; [done|]. split; [done|]. apply tracks_new.
Qed.

Lemma ascends_weaken prev k ks : ascends prev (k :: ks) = true -> ascends None (k :: ks) = true.
Proof. simpl. intros H. by bool_split. Qed.

Lemma file_reads_back schema defs order items ks range prev :
  resolve schema defs = Ok order -> keys_of order items ks -> ascends prev ks = true ->
  records_range order ks range ->
  match range with
  | None => items = []
  | Some r => exists c, check_new (D := D) order r = Ok c /\
      forall (R : Type) (decode_next : R -> R * fres (option Item)) d, decodes decode_next d items ->
        drain decode_next (S (length items)) (reader_new d (Some c)) = Some (Ok items)
  end.
Proof.
  intros Hres Hks Ha Hr. unfold records_range in Hr.
  destruct ks as [|f ks]; simpl in Hr.
  { destruct range; [done|]. by inversion Hks. }
  destruct (latest_of (Some f) ks) as [l|] eqn:El; [|done]. destruct range as [r|]; [|done].
  destruct Hr as [E1 E2]. pose proof (keys_of_is_key _ _ _ Hks) as Hkeys.
  assert (is_key order f) as Hf by (by apply Forall_cons_iff in Hkeys as [? _]).
  assert (is_key order l) as Hl.
  { apply Forall_cons_iff in Hkeys as [_ Hkeys]. revert El Hkeys.
    destruct ks as [|x ks _] using rev_ind; [by intros [= <-]|].
    rewrite latest_of_snoc. intros [= <-] [_ H]%Forall_app. by apply Forall_cons_iff in H as [? _]. }
  destruct (check_new_recorded _ _ _ _ _ _ Hres Hf Hl E1 E2) as (c & Hc & Hrd).
  exists c. split; [done|]. intros R dn d Hd.
  destruct (check_all_complete order f l [] c items (f :: ks) Hf Hl Hrd Hks) as (c' & Hall & Hrd').
  - by eapply ascends_weaken.
  - auto.
  - done.
  - apply (drain_complete _ d c items c'); [done|done|].
    by eapply (check_finish_spec order f l).
Qed.

(** The tracker accepts the files of a backup exactly when every item has a valid
    key and the keys ascend strictly, within a file and from one file to the next; it
    then records for each file the keys of its first and last item. *)
Theorem key_range_writer order files ranges :
  Forall (Forall short_numbers) files ->
  write_files (tracker_new order) files = Ok ranges <->
  exists kss, Forall2 (keys_of order) files kss /\ ascends None (concat kss) = true /\
    Forall2 (records_range order) kss ranges.
Proof. intros Hs. apply write_files_spec; [done|apply tracks_new]. Qed.

(** C24. What the writer records, the reader accepts: each file of a backup the tracker
    took is read back to its end, item by item, under the range recorded for it. *)
Theorem backup_reads_back schema defs order files ranges :
  resolve schema defs = Ok order -> Forall (Forall short_numbers) files ->
  write_files (tracker_new order) files = Ok ranges ->
  Forall2 (fun items range =>
    match range with
    | None => items = []
    | Some r => exists c, check_new (D := D) order r = Ok c /\
        forall (R : Type) (decode_next : R -> R * fres (option Item)) d, decodes decode_next d items ->
          drain decode_next (S (length items)) (reader_new d (Some c)) = Some (Ok items)
    end) files ranges.
Proof.
  intros Hres Hs Hw. apply (write_files_spec order None) in Hw as (kss & H1 & Ha & H2);
    [|done|apply tracks_new].
  clear Hs. revert ranges H2 Ha. generalize (@None (CheckedKey D)).
  induction H1 as [|items ks files kss Hks H1 IH]; intros prev ranges H2 Ha; inversion H2; subst.
  { constructor. }
  simpl in Ha. rewrite ascends_app in Ha. bool_split. constructor; [|by eapply IH].
  by eapply file_reads_back.
Qed.
End Ascent.

(** ** Witnesses *)

#[local] Existing Instance rfc4648_base64.
#[local] Existing Instance plain_rendering.

Definition two_files : list (list Item) :=
  [[order_item "-1"; order_item "9"]; [order_item "10"]].
Definition two_ranges : list (option KeyRange) :=
  [Some {| kr_first := order_item "-1"; kr_last := order_item "9" |};
   Some {| kr_first := order_item "10"; kr_last := order_item "10" |}].

Lemma two_files_short : Forall (Forall short_numbers) two_files.
Proof. repeat constructor; apply order_item_short; vm_compute; reflexivity. Qed.

Lemma key_range_writer_witness :
  exists kss, Forall2 (keys_of (D := dec) order_key) two_files kss /\ ascends None (concat kss) = true /\
    Forall2 (records_range order_key) kss two_ranges.
Proof.
  apply (key_range_writer order_key two_files two_ranges two_files_short). vm_compute. reflexivity.
Defined.

Lemma backup_reads_back_witness :
  Forall2 (fun items range =>
    match range with
    | None => items = []
    | Some r => exists c, check_new (D := dec) order_key r = Ok c /\
        forall (R : Type) (decode_next : R -> R * fres (option Item)) d, decodes decode_next d items ->
          drain decode_next (S (length items)) (reader_new d (Some c)) = Some (Ok items)
    end) two_files two_ranges.
Proof.
  apply (backup_reads_back (D := dec) order_schema order_defs order_key two_files two_ranges).
  - vm_compute. reflexivity.
  - exact two_files_short.
  - vm_compute. reflexivity.
Defined.
