(* ===== verification/Arn.v ===== *)
(** * Resource names and backup names

    [crates/core/src/arn.rs], the one parser of resource names, and the backup id,
    the backup ARN and the store keys of [crates/core/src/backup_format/layout.rs],
    with [validate_table_name_chars] of [crates/core/src/validation/mod.rs] and
    [parse_stream_arn] of [crates/storage/src/util/arn.rs]. *)

From S2P Require Import Prelude Types Error Storage StorageKey NumberKey KeyOrder.

(** ** Strings *)

(** [s.contains(c)] and [s.bytes().all(p)]. *)
Fixpoint str_has (c : ascii) (s : string) : bool :=
  match s with
  | EmptyString => false
  | String d s' => Ascii.eqb d c || str_has c s'
  end.

Fixpoint str_all (p : ascii -> bool) (s : string) : bool :=
  match s with
  | EmptyString => true
  | String d s' => p d && str_all p s'
  end.

(** [str::split_once], [splitn] and [split] with a one-byte separator. *)
Fixpoint str_split_once (c : ascii) (s : string) : option (string * string) :=
  match s with
  | EmptyString => None
  | String d s' =>
      if Ascii.eqb d c then Some ("", s')
      else match str_split_once c s' with
           | Some (a, b) => Some (String d a, b)
           | None => None
           end
  end.

Fixpoint str_splitn (n : nat) (c : ascii) (s : string) : list string :=
  match n with
  | O => []
  | S O => [s]
  | S n' =>
      match str_split_once c s with
      | Some (a, b) => a :: str_splitn n' c b
      | None => [s]
      end
  end.

Fixpoint str_split (c : ascii) (s : string) : list string :=
  match s with
  | EmptyString => [""]
  | String d s' =>
      if Ascii.eqb d c then "" :: str_split c s'
      else match str_split c s' with
           | p :: ps => String d p :: ps
           | [] => [String d ""]
           end
  end.

(** [str::strip_prefix]. *)
Fixpoint str_strip_prefix (p s : string) : option string :=
  match p, s with
  | EmptyString, _ => Some s
  | String c p', String d s' => if Ascii.eqb c d then str_strip_prefix p' s' else None
  | _, _ => None
  end.

(** [str::trim_matches] with a predicate on ASCII characters. *)
Fixpoint str_trim_start (p : ascii -> bool) (s : string) : string :=
  match s with
  | EmptyString => EmptyString
  | String c s' => if p c then str_trim_start p s' else s
  end.

Fixpoint str_trim_end (p : ascii -> bool) (s : string) : string :=
  match s with
  | EmptyString => EmptyString
  | String c s' =>
      let t := str_trim_end p s' in
      if is_empty t && p c then "" else String c t
  end.

(** ** Resource names *)

Inductive SubResource : Type :=
  | SubIndex (id : string)
  | SubStream (id : string)
  | SubBackup (id : string).

Record ArnFields : Type := {
  af_partition : string;
  af_service : string;
  af_region : string;
  af_account : string;
  af_resource : string
}.

Record TableResource : Type := {
  ta_partition : string;
  ta_service : string;
  ta_region : string;
  ta_account : string;
  ta_table : string;
  ta_sub : option SubResource
}.

Definition in_deployment (f : ArnFields) (region : string) : bool :=
  String.eqb (af_partition f) "aws" && String.eqb (af_service f) "dynamodb" &&
  String.eqb (af_region f) region.

Definition fields (arn : string) : option ArnFields :=
  match str_strip_prefix "arn:" arn with
  | None => None
  | Some rest =>
      match str_splitn 5 ":" rest with
      | [partition; service; region; account; resource] =>
          Some {| af_partition := partition; af_service := service; af_region := region;
                  af_account := account; af_resource := resource |}
      | _ => None
      end
  end.

Definition table_resource (f : ArnFields) (table : string) (sub : option SubResource) : TableResource :=
  {| ta_partition := af_partition f; ta_service := af_service f; ta_region := af_region f;
     ta_account := af_account f; ta_table := table; ta_sub := sub |}.

Definition sub_resource (kind id : string) : option SubResource :=
  if String.eqb kind "index" then Some (SubIndex id)
  else if String.eqb kind "stream" then Some (SubStream id)
  else if String.eqb kind "backup" then Some (SubBackup id)
  else None.

Definition parse (arn : string) : option TableResource :=
  match fields arn with
  | None => None
  | Some f =>
      match str_strip_prefix "table/" (af_resource f) with
      | None => None
      | Some tail =>
          match str_split "/" tail with
          | [table] => if negb (is_empty table) then Some (table_resource f table None) else None
          | [table; kind; id] =>
              if negb (is_empty table) && negb (is_empty id) then
                match sub_resource kind id with
                | Some sub => Some (table_resource f table (Some sub))
                | None => None
                end
              else None
          | _ => None
          end
      end
  end.

Definition parse_stream_arn (arn : string) : result StorageError (string * string) :=
  match parse arn with
  | Some {| ta_table := table; ta_sub := Some (SubStream label) |} => Ok (table, label)
  | _ => Err (SE_Validation ("Invalid stream ARN format: " +:+ arn))
  end.

(** ** Backup ids *)

Definition DATA_PREFIX : string := "data/".
Definition MAX_TABLE_NAME_LEN : nat := 255.
Definition BACKUP_ID_MILLIS_DIGITS : nat := 14.
Definition MAX_BACKUP_ARN_LEN : nat := 1024.

(** [format!] of an unsigned integer with a width and the [0] flag, in decimal and in
    lowercase hexadecimal. *)
Definition zero_padded (width : nat) (digits : list ascii) : string :=
  of_bytes (replicate (width - length digits) "0"%char ++ digits).

Definition hex_char (d : N) : ascii :=
  if (d <? 10)%N then ascii_of_N (48 + d) else ascii_of_N (87 + d).

Fixpoint hex_of_fuel (fuel : nat) (n : N) (acc : list ascii) : list ascii :=
  match fuel with
  | O => acc
  | S f =>
      let acc' := hex_char (n mod 16) :: acc in
      if (n <? 16)%N then acc' else hex_of_fuel f (n / 16) acc'
  end.

Definition N_to_hex (n : N) : list ascii := hex_of_fuel (S (N.to_nat (N.log2 n))) n [].

Definition data_file_key (index : N) : string :=
  DATA_PREFIX +:+ zero_padded 6 (N_to_bytes index) +:+ ".json.gz".

Definition format_backup_id (epoch_millis suffix : N) : string :=
  zero_padded BACKUP_ID_MILLIS_DIGITS (N_to_bytes epoch_millis) +:+ "-" +:+
  zero_padded 8 (N_to_hex suffix).

Definition all_digits (s : string) (n : nat) : bool := (String.length s =? n) && str_all is_digit s.

Definition is_lower_hex (b : ascii) : bool := is_digit b || in_range 97 102 b.

Definition lower_hex (s : string) (n : nat) : bool := (String.length s =? n) && str_all is_lower_hex s.

Definition is_backup_id (id : string) : bool :=
  match str_split_once "-" id with
  | Some (millis, suffix) =>
      (all_digits millis BACKUP_ID_MILLIS_DIGITS || all_digits millis (BACKUP_ID_MILLIS_DIGITS - 1)) &&
      lower_hex suffix 8
  | None => all_digits id (BACKUP_ID_MILLIS_DIGITS - 1)
  end.

(** [rsplit('/').next()]: what follows the last slash. *)
Definition after_last_slash (s : string) : string := List.last (str_split "/" s) "".

(** [str::parse::<u64>()] of a text of digits. *)
Definition parse_u64_digits (s : string) : option N :=
  let n := digits_val (as_bytes s) in
  if (n <=? usize_max)%N then Some n else None.

Definition backup_id_epoch_millis (id_or_arn : string) : option N :=
  match str_split_once "-" (after_last_slash id_or_arn) with
  | None => None
  | Some (millis, suffix) =>
      if negb (all_digits millis BACKUP_ID_MILLIS_DIGITS) || negb (lower_hex suffix 8) then None
      else parse_u64_digits millis
  end.

(** ** Backup ARNs *)

Definition is_ascii_whitespace (c : ascii) : bool :=
  let b := byte c in (b =? 32)%N || (b =? 9)%N || (b =? 10)%N || (b =? 12)%N || (b =? 13)%N.

Definition is_ascii_graphic (c : ascii) : bool := in_range 33 126 c.

Definition ascii_word (s : string) (allowed : list ascii) : bool :=
  negb (is_empty s) && str_all (fun b => is_alnum b || existsb (Ascii.eqb b) allowed) s.

Definition is_region (s : string) : bool :=
  ascii_word s ["-"%char] && str_all (fun b => negb (is_upper b)) s.

(** The texts compare as bytes: every character of the alphabet is ASCII. *)
Definition is_name_char (c : ascii) : bool :=
  is_alnum c || Ascii.eqb c "_" || Ascii.eqb c "." || Ascii.eqb c "-".

(** Whether [validate_table_name_chars] returns [Ok]. *)
Definition validate_table_name_chars (name : string) : bool := str_all is_name_char name.

Definition trim_backup_arn (arn : string) : string :=
  str_trim_end is_ascii_whitespace (str_trim_start is_ascii_whitespace arn).

Definition format_backup_arn (partition region account_id table_name backup_id : string) : string :=
  "arn:" +:+ partition +:+ ":dynamodb:" +:+ region +:+ ":" +:+ account_id +:+ ":table/" +:+
  table_name +:+ "/backup/" +:+ backup_id.

Record BackupArnParts : Type := {
  bp_arn : string;
  bp_partition : string;
  bp_region : string;
  bp_account_id : string;
  bp_table_name : string;
  bp_backup_id : string
}.

Inductive BackupArnError : Type := Arn_Invalid | Arn_Id.

(** [Display]. *)
Definition arn_error_text (e : BackupArnError) : string :=
  match e with
  | Arn_Invalid => "not a backup ARN"
  | Arn_Id => "not a backup id"
  end.

Definition check_backup_arn (arn : string) : result BackupArnError BackupArnParts :=
  let arn := trim_backup_arn arn in
  if (MAX_BACKUP_ARN_LEN <? String.length arn) || negb (str_all is_ascii_graphic arn) then Err Arn_Invalid
  else
    match fields arn with
    | None => Err Arn_Invalid
    | Some f =>
        if negb (ascii_word (af_partition f) ["-"%char]) || negb (String.eqb (af_service f) "dynamodb") ||
           negb (is_region (af_region f)) || is_empty (af_account f) ||
           negb (str_all is_digit (af_account f)) || str_has ":" (af_resource f)
        then Err Arn_Invalid
        else
          match str_split "/" (af_resource f) with
          | [table; table_name; backup; backup_id] =>
              if negb (String.eqb table "table" && String.eqb backup "backup") then Err Arn_Invalid
              else if is_empty table_name || negb (validate_table_name_chars table_name) ||
                      is_empty backup_id then Err Arn_Invalid
              else if negb (is_backup_id backup_id) then Err Arn_Id
              else Ok {| bp_arn := arn; bp_partition := af_partition f; bp_region := af_region f;
                         bp_account_id := af_account f; bp_table_name := table_name;
                         bp_backup_id := backup_id |}
          | _ => Err Arn_Invalid
          end
    end.

Definition parse_backup_arn (arn : string) : option BackupArnParts :=
  match check_backup_arn arn with Ok p => Some p | Err _ => None end.

Record BackupArn : Type := {
  ba_partition : string;
  ba_region : string;
  ba_account_id : string;
  ba_table_name : string;
  ba_backup_id : string
}.

Section BackupArns.
Context `{HR : Rendering}.

Definition check_store_prefix_table_name (table_name : string) : result FormatError unit :=
  if MAX_TABLE_NAME_LEN <? String.length table_name then
    Err (InvalidArn ("table name of " +:+ nat_to_string (String.length table_name) +:+
      " bytes is longer than " +:+ nat_to_string MAX_TABLE_NAME_LEN))
  else if str_all (fun b => Ascii.eqb b ".") table_name then
    Err (InvalidArn ("table name " +:+ debug (truncated table_name) +:+ " is only dots"))
  else Ok tt.

Definition from_parts (parts : BackupArnParts) : result FormatError BackupArn :=
  let? _ := check_store_prefix_table_name (bp_table_name parts) in
  Ok {| ba_partition := bp_partition parts; ba_region := bp_region parts;
        ba_account_id := bp_account_id parts; ba_table_name := bp_table_name parts;
        ba_backup_id := bp_backup_id parts |}.

Definition backup_arn_new (partition region account_id table_name backup_id : string)
    : result FormatError BackupArn :=
  let formatted := format_backup_arn partition region account_id table_name backup_id in
  match check_backup_arn formatted with
  | Err e =>
      Err (InvalidArn (arn_error_text e +:+ ": partition " +:+ debug (truncated partition) +:+
        ", region " +:+ debug (truncated region) +:+ ", account id " +:+ debug (truncated account_id) +:+
        ", table name " +:+ debug (truncated table_name) +:+ ", backup id " +:+
        debug (truncated backup_id)))
  | Ok parts =>
      if bool_decide ((bp_partition parts, bp_region parts, bp_account_id parts, bp_table_name parts,
                       bp_backup_id parts) <> (partition, region, account_id, table_name, backup_id)) then
        Err (InvalidArn ("a component contains a separator or surrounding whitespace: " +:+
          debug (truncated formatted)))
      else from_parts parts
  end.

Definition backup_arn_parse (arn : string) : result FormatError BackupArn :=
  let shown := debug (truncated (trim_backup_arn arn)) in
  match check_backup_arn arn with
  | Err e => Err (InvalidArn (shown +:+ ": " +:+ arn_error_text e))
  | Ok parts =>
      match from_parts parts with
      | Err (InvalidArn reason) => Err (InvalidArn (shown +:+ ": " +:+ reason))
      | other => other
      end
  end.
End BackupArns.

Definition to_arn_string (self : BackupArn) : string :=
  format_backup_arn (ba_partition self) (ba_region self) (ba_account_id self) (ba_table_name self)
    (ba_backup_id self).

Definition store_prefix (self : BackupArn) : string :=
  ba_account_id self +:+ "/" +:+ ba_table_name self +:+ "/" +:+ ba_backup_id self +:+ "/".

(** ** Splitting and joining *)

Lemma str_app_empty (b : string) : "" +:+ b = b.
Proof. done. Qed.

Lemma str_app_cons c (a b : string) : String c a +:+ b = String c (a +:+ b).
Proof. done. Qed.

Ltac str_simpl :=
  repeat match goal with
  | |- context ["" +:+ _] => rewrite str_app_empty
  | |- context [String _ _ +:+ _] => rewrite str_app_cons
  | H : context ["" +:+ _] |- _ => rewrite str_app_empty in H
  | H : context [String _ _ +:+ _] |- _ => rewrite str_app_cons in H
  end.

Lemma str_app_assoc (a b c : string) : (a +:+ b) +:+ c = a +:+ (b +:+ c).
Proof. induction a as [|d a IH]; [done|]. apply (f_equal (String d)), IH. Qed.

Lemma str_app_nil (a : string) : a +:+ "" = a.
Proof. induction a as [|d a IH]; [done|]. apply (f_equal (String d)), IH. Qed.

Lemma str_length_app (a b : string) : String.length (a +:+ b) = String.length a + String.length b.
Proof. rewrite <- !length_as_bytes, as_bytes_app. apply length_app. Qed.

Lemma substring_prefix (a b : string) : substring 0 (String.length a) (a +:+ b) = a.
Proof.
  induction a as [|c a IH]; str_simpl; [by destruct b|]. cbn [String.length substring]. by rewrite IH.
Qed.

Lemma substring_full (b : string) : substring 0 (String.length b) b = b.
Proof. rewrite <- (str_app_nil b) at 2. apply substring_prefix. Qed.

Lemma substring_suffix (a b : string) : substring (String.length a) (String.length b) (a +:+ b) = b.
Proof.
  induction a as [|c a IH]; str_simpl; [apply substring_full|]. cbn [String.length substring]. exact IH.
Qed.

Lemma substring_split n (s : string) :
  n <= String.length s -> substring 0 n s +:+ substring n (String.length s - n) s = s.
Proof.
  revert n. induction s as [|c s IH]; intros [|n] Hn; [done|simpl in Hn; lia| |].
  - cbn [String.length]. rewrite Nat.sub_0_r. apply (substring_full (String c s)).
  - cbn [substring String.length Nat.sub]. str_simpl. f_equal. apply IH. simpl in Hn. lia.
Qed.

Lemma strip_suffix_Some p s r : strip_suffix p s = Some r <-> s = r +:+ p.
Proof.
  unfold strip_suffix. split.
  - destruct (_ && _) eqn:E; [|done]. apply andb_prop in E as [E1%Nat.leb_le E2%String.eqb_eq].
    intros [= <-]. rewrite <- (substring_split (String.length s - String.length p) s) at 1 by lia.
    f_equal. rewrite <- E2. f_equal; rewrite ?E2; lia.
  - intros ->. rewrite str_length_app.
    replace (String.length r + String.length p - String.length p) with (String.length r) by lia.
    rewrite substring_suffix, substring_prefix, String.eqb_refl, (proj2 (Nat.leb_le _ _)) by lia. done.
Qed.

Lemma str_split_once_Some c s a b :
  str_split_once c s = Some (a, b) <-> s = a +:+ String c b /\ str_has c a = false.
Proof.
  revert a b. induction s as [|d s IH]; intros a b; simpl.
  { split; [done|]. intros [E _]. by destruct a. }
  destruct (Ascii.eqb_spec d c) as [->|Hne].
  - split; [intros [= <- <-]; done|]. intros [E Ha]. destruct a as [|x a]; str_simpl; [congruence|].
    injection E as <- _. simpl in Ha. by rewrite Ascii.eqb_refl in Ha.
  - split.
    + destruct (str_split_once c s) as [[a' b']|]; [|done]. intros [= <- <-].
      destruct (proj1 (IH a' b') eq_refl) as [-> Ha]. str_simpl. simpl. split; [done|].
      by apply Ascii.eqb_neq in Hne as ->.
    + intros [E Ha]. destruct a as [|x a]; str_simpl; [congruence|]. injection E as <- E.
      simpl in Ha. apply orb_false_iff in Ha as [_ Ha]. by rewrite (proj2 (IH a b) (conj E Ha)).
Qed.

Lemma str_split_once_None c s : str_split_once c s = None <-> str_has c s = false.
Proof.
  induction s as [|d s IH]; simpl; [done|]. destruct (Ascii.eqb d c); [done|]. simpl. rewrite <- IH.
  by destruct (str_split_once c s) as [[]|].
Qed.

Lemma str_strip_prefix_Some p s r : str_strip_prefix p s = Some r <-> s = p +:+ r.
Proof.
  revert s. induction p as [|c p IH]; intros s; simpl; str_simpl; [naive_solver|].
  destruct s as [|d s]; [done|]. destruct (Ascii.eqb_spec c d) as [->|Hne].
  - rewrite IH. naive_solver.
  - naive_solver.
Qed.

(** The pieces with the separator between them. *)
Fixpoint str_join (c : ascii) (ps : list string) : string :=
  match ps with
  | [] => ""
  | [p] => p
  | p :: ps => p +:+ String c (str_join c ps)
  end.

Lemma str_split_nonempty c s : str_split c s <> [].
Proof.
  destruct s as [|d s]; simpl; [done|]. destruct (Ascii.eqb d c); [done|]. by destruct (str_split c s).
Qed.

Lemma str_split_free c p : str_has c p = false -> str_split c p = [p].
Proof.
  induction p as [|d p IH]; simpl; [done|]. intros [Hd Hp]%orb_false_iff. by rewrite Hd, IH.
Qed.

Lemma str_split_app c p s :
  str_has c p = false -> str_split c (p +:+ String c s) = p :: str_split c s.
Proof.
  induction p as [|d p IH]; str_simpl; simpl; [by rewrite Ascii.eqb_refl|].
  intros [Hd Hp]%orb_false_iff. by rewrite Hd, IH.
Qed.

(** [split] gives the pieces free of the separator whose join is the text. *)
Lemma str_split_iff c s ps :
  str_split c s = ps <-> s = str_join c ps /\ ps <> [] /\ Forall (fun p => str_has c p = false) ps.
Proof.
  split.
  - intros <-. induction s as [|d s (IHj & IHn & IHf)]; simpl; [by repeat constructor|].
    destruct (Ascii.eqb_spec d c) as [->|Hne].
    + split; [|split; [done|by constructor]]. pose proof (str_split_nonempty c s).
      destruct (str_split c s); [done|]. simpl in *. str_simpl. by rewrite IHj at 1.
    + destruct (str_split c s) as [|p ps]; [done|]. apply Forall_cons_iff in IHf as [Hp Hps].
      split; [|split; [done|]].
      * rewrite IHj. destruct ps; simpl; by str_simpl.
      * constructor; [|done]. simpl. by apply Ascii.eqb_neq in Hne as ->.
  - intros (-> & Hne & Hf). induction Hf as [|p ps Hp Hf IH]; [done|].
    destruct ps as [|q ps]; [by apply str_split_free|].
    change (str_join c (p :: q :: ps)) with (p +:+ String c (str_join c (q :: ps))).
    rewrite str_split_app by done. by rewrite IH.
Qed.

Lemma str_splitn_5 c s a1 a2 a3 a4 a5 :
  str_splitn 5 c s = [a1; a2; a3; a4; a5] <->
  s = a1 +:+ String c (a2 +:+ String c (a3 +:+ String c (a4 +:+ String c a5))) /\
  str_has c a1 = false /\ str_has c a2 = false /\ str_has c a3 = false /\ str_has c a4 = false.
Proof.
  assert (forall s a b, str_split_once c s = Some (a, b) <-> s = a +:+ String c b /\ str_has c a = false)
    as H by apply str_split_once_Some.
  split.
  - cbn [str_splitn].
    destruct (str_split_once c s) as [[b1 r1]|] eqn:E1; [|done].
    destruct (str_split_once c r1) as [[b2 r2]|] eqn:E2; [|done].
    destruct (str_split_once c r2) as [[b3 r3]|] eqn:E3; [|done].
    destruct (str_split_once c r3) as [[b4 r4]|] eqn:E4; [|done].
    intros [= <- <- <- <- <-]. apply H in E1 as [-> ?], E2 as [-> ?], E3 as [-> ?], E4 as [-> ?]. done.
  - intros (-> & H1 & H2 & H3 & H4). cbn [str_splitn].
    rewrite (proj2 (H _ _ _) (conj eq_refl H1)), (proj2 (H _ _ _) (conj eq_refl H2)).
    by rewrite (proj2 (H _ _ _) (conj eq_refl H3)), (proj2 (H _ _ _) (conj eq_refl H4)).
Qed.

(** ** Resource names *)

Definition print_fields (f : ArnFields) : string :=
  "arn:" +:+ af_partition f +:+ ":" +:+ af_service f +:+ ":" +:+ af_region f +:+ ":" +:+
  af_account f +:+ ":" +:+ af_resource f.

Definition fields_wf (f : ArnFields) : Prop :=
  str_has ":" (af_partition f) = false /\ str_has ":" (af_service f) = false /\
  str_has ":" (af_region f) = false /\ str_has ":" (af_account f) = false.

Lemma fields_iff arn f : fields arn = Some f <-> arn = print_fields f /\ fields_wf f.
Proof.
  unfold fields, print_fields, fields_wf. split.
  - destruct (str_strip_prefix "arn:" arn) as [rest|] eqn:E; [|done].
    apply str_strip_prefix_Some in E as ->.
    destruct (str_splitn 5 ":" rest) as [|a1 [|a2 [|a3 [|a4 [|a5 [|]]]]]] eqn:Es; try done.
    intros [= <-]. simpl. apply str_splitn_5 in Es as (-> & ?). done.
  - intros [-> Hwf]. rewrite (proj2 (str_strip_prefix_Some "arn:" _ _) eq_refl). str_simpl.
    rewrite (proj2 (str_splitn_5 ":" _ (af_partition f) (af_service f) (af_region f) (af_account f)
      (af_resource f)) (conj eq_refl Hwf)). by destruct f.
Qed.

Definition sub_kind (s : SubResource) : string :=
  match s with
  | SubIndex _ => "index"
  | SubStream _ => "stream"
  | SubBackup _ => "backup"
  end.

Definition sub_id (s : SubResource) : string :=
  match s with
  | SubIndex id | SubStream id | SubBackup id => id
  end.

(** The ARN of a table resource. *)
Definition print_table (t : TableResource) : string :=
  "arn:" +:+ ta_partition t +:+ ":" +:+ ta_service t +:+ ":" +:+ ta_region t +:+ ":" +:+
  ta_account t +:+ ":table/" +:+ ta_table t +:+
  match ta_sub t with
  | None => ""
  | Some s => "/" +:+ sub_kind s +:+ "/" +:+ sub_id s
  end.

Definition table_wf (t : TableResource) : Prop :=
  str_has ":" (ta_partition t) = false /\ str_has ":" (ta_service t) = false /\
  str_has ":" (ta_region t) = false /\ str_has ":" (ta_account t) = false /\
  ta_table t <> "" /\ str_has "/" (ta_table t) = false /\
  match ta_sub t with
  | None => True
  | Some s => sub_id s <> "" /\ str_has "/" (sub_id s) = false
  end.

Lemma sub_resource_Some kind id s :
  sub_resource kind id = Some s <-> kind = sub_kind s /\ id = sub_id s.
Proof.
  unfold sub_resource. destruct (String.eqb_spec kind "index") as [->|]; [destruct s; naive_solver|].
  destruct (String.eqb_spec kind "stream") as [->|]; [destruct s; naive_solver|].
  destruct (String.eqb_spec kind "backup") as [->|]; destruct s; naive_solver.
Qed.

Lemma is_empty_false s : is_empty s = false <-> s <> "".
Proof. by destruct s. Qed.

Lemma segments_iff tail ps :
  (forall p, In p ps -> str_has "/" p = false) -> ps <> [] ->
  str_split "/" tail = ps <-> tail = str_join "/" ps.
Proof.
  intros Hf Hne. rewrite str_split_iff. split; [by intros (? & _)|]. intros ->.
  split; [done|]. split; [done|]. by apply List.Forall_forall.
Qed.

Lemma parse_iff arn t : parse arn = Some t <-> arn = print_table t /\ table_wf t.
Proof.
  unfold parse. split.
  - destruct (fields arn) as [f|] eqn:Ef; [|done]. apply fields_iff in Ef as [-> (W1 & W2 & W3 & W4)].
    destruct (str_strip_prefix "table/" (af_resource f)) as [tail|] eqn:Et; [|done].
    apply str_strip_prefix_Some in Et. destruct (str_split "/" tail) as [|a [|b [|c [|]]]] eqn:Es; try done.
    + destruct (is_empty a) eqn:Ea; [done|]. intros [= <-].
      apply str_split_iff in Es as (-> & _ & Hf). apply Forall_cons_iff in Hf as [Ha _].
      apply is_empty_false in Ea. unfold print_fields, print_table, table_wf. rewrite Et. simpl.
      by rewrite str_app_nil.
    + destruct (is_empty a) eqn:Ea; [done|]. destruct (is_empty c) eqn:Ec; [done|]. simpl.
      destruct (sub_resource b c) as [s|] eqn:Er; [|done]. intros [= <-].
      apply sub_resource_Some in Er as [-> ->].
      apply str_split_iff in Es as (-> & _ & Hf). rewrite !Forall_cons_iff in Hf.
      destruct Hf as (Ha & _ & Hc & _). apply is_empty_false in Ea, Ec.
      unfold print_fields, print_table, table_wf. rewrite Et. simpl. by str_simpl.
  - intros (-> & W1 & W2 & W3 & W4 & Ht & Hs & Hsub).
    set (f := {| af_partition := ta_partition t; af_service := ta_service t; af_region := ta_region t;
                 af_account := ta_account t; af_resource := "table/" +:+ ta_table t +:+
                   match ta_sub t with None => "" | Some s => "/" +:+ sub_kind s +:+ "/" +:+ sub_id s end |}).
    assert (fields (print_table t) = Some f) as ->.
    { apply fields_iff. split; [|done]. unfold print_fields, print_table, f. simpl. by str_simpl. }
    unfold f at 1. cbn [af_resource]. rewrite (proj2 (str_strip_prefix_Some "table/" _ _) eq_refl).
    apply is_empty_false in Ht. destruct t as [p sv r a table sub]. simpl in *.
    destruct sub as [s|].
    + destruct Hsub as [Hid Hids]. apply is_empty_false in Hid.
      assert (str_split "/" (table +:+ "/" +:+ sub_kind s +:+ "/" +:+ sub_id s) =
        [table; sub_kind s; sub_id s]) as ->.
      { apply segments_iff; [|done|simpl; by str_simpl].
        intros q [<-|[<-|[<-|[]]]]; [done|by destruct s|done]. }
      rewrite Ht, Hid. simpl. by rewrite (proj2 (sub_resource_Some _ _ s)).
    + rewrite str_app_nil, str_split_free by done. by rewrite Ht.
Qed.

(** The parser of resource names accepts exactly the names of tables and of their
    indexes, streams and backups, and reads back what was printed: it returns a
    resource just when the text is the ARN of that resource and no part of it holds a
    separator, so no two layers can read different resources from one text. *)
Theorem arn_parse_spec arn t : parse arn = Some t <-> arn = print_table t /\ table_wf t.
Proof. apply parse_iff. Qed.

(** ** Characters *)

Lemma str_all_impl (p q : ascii -> bool) s :
  (forall c, p c = true -> q c = true) -> str_all p s = true -> str_all q s = true.
Proof.
  intros H. induction s as [|c s IH]; simpl; [done|]. intros [Hc Hs]%andb_prop. by rewrite (H c Hc), IH.
Qed.

Lemma str_all_free (p : ascii -> bool) c s : p c = false -> str_all p s = true -> str_has c s = false.
Proof.
  intros Hc. induction s as [|d s IH]; simpl; [done|]. intros [Hd Hs]%andb_prop.
  rewrite IH by done. rewrite orb_false_r. apply Ascii.eqb_neq. intros ->. congruence.
Qed.

Lemma str_all_app p (a b : string) : str_all p (a +:+ b) = str_all p a && str_all p b.
Proof.
  induction a as [|c a IH]; str_simpl; simpl; [done|]. by rewrite IH, andb_assoc.
Qed.

(** A character of a name: a letter, a digit, [_], [.] or [-]. *)
Lemma word_char c : is_alnum c || existsb (Ascii.eqb c) ["-"%char] = true -> is_name_char c = true.
Proof. unfold is_name_char. simpl. by destruct (is_alnum c), (Ascii.eqb c "-"), (Ascii.eqb c "_"), (Ascii.eqb c "."). Qed.

Lemma in_range_iff lo hi c : in_range lo hi c = true <-> (lo <= byte c <= hi)%N.
Proof. unfold in_range. rewrite andb_true_iff, !N.leb_le. done. Qed.

Lemma digit_name c : is_digit c = true -> is_name_char c = true.
Proof. intros Hc. unfold is_name_char, is_alnum. by rewrite Hc, orb_true_r. Qed.

Lemma hex_name c : is_lower_hex c = true -> is_name_char c = true.
Proof.
  unfold is_lower_hex. intros [Hc|Hc]%orb_prop; [by apply digit_name|].
  apply in_range_iff in Hc. unfold is_name_char, is_alnum, is_alpha, is_lower.
  rewrite (proj2 (in_range_iff 97 122 c)) by lia. by rewrite orb_true_r.
Qed.

Lemma name_graphic c : is_name_char c = true -> is_ascii_graphic c = true.
Proof.
  intros Hc. apply in_range_iff. unfold is_name_char, is_alnum, is_alpha, is_upper, is_lower, is_digit in Hc.
  rewrite !orb_true_iff, !in_range_iff, !Ascii.eqb_eq in Hc.
  destruct Hc as [[[[[?|?]|?]| ->]| ->]| ->]; [lia|lia|lia|by vm_compute..].
Qed.

Lemma graphic_not_space c : is_ascii_graphic c = true -> is_ascii_whitespace c = false.
Proof.
  unfold is_ascii_graphic. rewrite in_range_iff. intros Hc. unfold is_ascii_whitespace.
  rewrite !orb_false_iff, !N.eqb_neq. lia.
Qed.

Lemma trim_graphic s : str_all is_ascii_graphic s = true -> trim_backup_arn s = s.
Proof.
  intros Hs. unfold trim_backup_arn.
  assert (str_trim_start is_ascii_whitespace s = s) as ->.
  { destruct s as [|c s]; [done|]. simpl in *. bool_split. by rewrite graphic_not_space. }
  induction s as [|c s IH]; [done|]. simpl in *. bool_split.
  rewrite IH by done. by rewrite (graphic_not_space c), andb_false_r.
Qed.

Lemma ascii_word_name s : ascii_word s ["-"%char] = true -> str_all is_name_char s = true /\ s <> "".
Proof.
  unfold ascii_word. intros [He Hs]%andb_prop. apply negb_true_iff, is_empty_false in He.
  split; [|done]. eapply str_all_impl, Hs. apply word_char.
Qed.

Lemma is_region_name s : is_region s = true -> str_all is_name_char s = true.
Proof. unfold is_region. intros [H _]%andb_prop. by apply ascii_word_name. Qed.

Lemma str_split_once_all p c s a b :
  str_split_once c s = Some (a, b) -> p c = true -> str_all p a = true -> str_all p b = true ->
  str_all p s = true.
Proof.
  intros [-> _]%str_split_once_Some Hc Ha Hb. rewrite str_all_app, Ha. simpl. by rewrite Hc, Hb.
Qed.

Lemma is_backup_id_name id : is_backup_id id = true -> str_all is_name_char id = true /\ id <> "".
Proof.
  unfold is_backup_id, all_digits, lower_hex.
  destruct (str_split_once "-" id) as [[m s]|] eqn:E; intros H.
  - apply andb_prop in H as [Hm [_ Hs]%andb_prop]. split.
    + eapply str_split_once_all; [exact E|done| |by eapply str_all_impl, Hs; apply hex_name].
      assert (str_all is_digit m = true) as Hd by (apply orb_prop in Hm as [H|H]; by apply andb_prop in H as [_ H]).
      eapply str_all_impl, Hd. apply digit_name.
    + intros ->. done.
  - apply andb_prop in H as [Hl Hd]. split; [eapply str_all_impl, Hd; apply digit_name|].
    intros ->. done.
Qed.

Lemma name_free c s : str_all is_name_char s = true -> is_name_char c = false -> str_has c s = false.
Proof. intros Hs Hc. by eapply str_all_free. Qed.

(** ** Backup ARNs *)

(** The parts of a backup ARN that [check_backup_arn] accepts. *)
Definition parts_wf (partition region account_id table_name backup_id : string) : Prop :=
  ascii_word partition ["-"%char] = true /\ is_region region = true /\
  account_id <> "" /\ str_all is_digit account_id = true /\
  table_name <> "" /\ validate_table_name_chars table_name = true /\ is_backup_id backup_id = true.

Lemma parts_wf_names p r a t b :
  parts_wf p r a t b -> Forall (fun s => str_all is_name_char s = true) [p; r; a; t; b].
Proof.
  intros (Hp & Hr & _ & Ha & _ & Ht & Hb).
  repeat constructor; [by apply ascii_word_name|by apply is_region_name| |done|by apply is_backup_id_name].
  eapply str_all_impl, Ha. apply digit_name.
Qed.

Definition backup_resource (table_name backup_id : string) : string :=
  "table/" +:+ table_name +:+ "/backup/" +:+ backup_id.

Definition backup_fields (p r a t b : string) : ArnFields :=
  {| af_partition := p; af_service := "dynamodb"; af_region := r; af_account := a;
     af_resource := backup_resource t b |}.

Lemma print_backup_fields p r a t b : print_fields (backup_fields p r a t b) = format_backup_arn p r a t b.
Proof. unfold print_fields, format_backup_arn, backup_fields, backup_resource. simpl. by str_simpl. Qed.

Lemma backup_resource_split t b :
  str_has "/" t = false -> str_has "/" b = false ->
  str_split "/" (backup_resource t b) = ["table"; t; "backup"; b].
Proof.
  intros Ht Hb. apply segments_iff; [|done|unfold backup_resource; simpl; by str_simpl].
  intros q [<-|[<-|[<-|[<-|[]]]]]; done.
Qed.

Lemma format_graphic p r a t b :
  parts_wf p r a t b -> str_all is_ascii_graphic (format_backup_arn p r a t b) = true.
Proof.
  intros Hwf%parts_wf_names. rewrite !Forall_cons_iff in Hwf. destruct Hwf as (Hp & Hr & Ha & Ht & Hb & _).
  assert (forall s, str_all is_name_char s = true -> str_all is_ascii_graphic s = true) as Hg.
  { intros s. apply str_all_impl, name_graphic. }
  unfold format_backup_arn. rewrite !str_all_app, (Hg p Hp), (Hg r Hr), (Hg a Ha), (Hg t Ht), (Hg b Hb). done.
Qed.

Lemma check_backup_arn_iff s parts :
  check_backup_arn s = Ok parts <->
  trim_backup_arn s = format_backup_arn (bp_partition parts) (bp_region parts) (bp_account_id parts)
    (bp_table_name parts) (bp_backup_id parts) /\
  bp_arn parts = trim_backup_arn s /\ String.length (trim_backup_arn s) <= MAX_BACKUP_ARN_LEN /\
  parts_wf (bp_partition parts) (bp_region parts) (bp_account_id parts) (bp_table_name parts)
    (bp_backup_id parts).
Proof.
  unfold check_backup_arn. set (arn := trim_backup_arn s). split.
  - destruct (Nat.ltb_spec MAX_BACKUP_ARN_LEN (String.length arn)) as [|Hlen]; [done|]. simpl.
    destruct (negb (str_all is_ascii_graphic arn)); [done|].
    destruct (fields arn) as [f|] eqn:Ef; [|done]. apply fields_iff in Ef as [Earn _].
    destruct (_ || _) eqn:Eg; [done|]. rewrite !orb_false_iff, !negb_false_iff in Eg.
    destruct Eg as (((((Hp & Hs) & Hr) & Hae) & Had) & _). apply String.eqb_eq in Hs.
    destruct (str_split "/" (af_resource f)) as [|x1 [|t [|x2 [|b [|]]]]] eqn:Es; try done.
    destruct (String.eqb_spec x1 "table") as [->|]; [|done].
    destruct (String.eqb_spec x2 "backup") as [->|]; [|done]. cbn [andb negb].
    destruct (_ || _) eqn:Et; [done|]. rewrite !orb_false_iff, !negb_false_iff in Et.
    destruct Et as ((Hte & Htc) & _). destruct (is_backup_id b) eqn:Eb; [|done]. intros [= <-].
    cbn [bp_arn bp_partition bp_region bp_account_id bp_table_name bp_backup_id].
    apply str_split_iff in Es as (Er & _). apply is_empty_false in Hte, Hae.
    split; [|split; [done|split; [done|by repeat split]]].
    rewrite Earn, <- print_backup_fields. unfold print_fields, backup_fields, backup_resource.
    rewrite Er, Hs. simpl. by str_simpl.
  - intros (Earn & Eb & Hlen & Hwf). destruct parts as [a0 p r a t b]. simpl in *. subst a0.
    pose proof (parts_wf_names _ _ _ _ _ Hwf) as Hn. rewrite !Forall_cons_iff in Hn.
    destruct Hn as (Np & Nr & Na & Nt & Nb & _). pose proof (format_graphic _ _ _ _ _ Hwf) as Hg.
    destruct (Nat.ltb_spec MAX_BACKUP_ARN_LEN (String.length arn)); [lia|]. simpl.
    rewrite Earn, Hg. simpl.
    assert (fields (format_backup_arn p r a t b) = Some (backup_fields p r a t b)) as ->.
    { apply fields_iff. split; [by rewrite print_backup_fields|].
      repeat split; simpl; try done; by apply name_free. }
    destruct Hwf as (Hp & Hr & Hae & Had & Hte & Htc & Hb). apply is_empty_false in Hae, Hte.
    pose proof (proj2 (is_backup_id_name b Hb)) as Hbe. apply is_empty_false in Hbe.
    cbn [af_partition af_service af_region af_account af_resource backup_fields].
    rewrite Hp, Hr, Hae, Had. cbn [negb orb].
    rewrite backup_resource_split by (by apply name_free).
    assert (str_has ":" (backup_resource t b) = false) as ->.
    { apply (str_all_free (fun c => is_name_char c || Ascii.eqb c "/")); [done|].
      unfold backup_resource. rewrite !str_all_app.
      assert (forall s, str_all is_name_char s = true ->
        str_all (fun c => is_name_char c || Ascii.eqb c "/") s = true) as Hi.
      { intros q. apply str_all_impl. by intros c ->. }
      by rewrite (Hi t Nt), (Hi b Nb). }
    cbn. by rewrite Hte, Htc, Hbe, Hb.
Qed.

(** A text is a backup ARN exactly when, with surrounding whitespace removed, it is
    the ARN printed from a partition, a region, an account, a table name and a backup
    id that each have their shape; the parts read are those. *)
Theorem backup_arn_spec s parts :
  check_backup_arn s = Ok parts <->
  trim_backup_arn s = format_backup_arn (bp_partition parts) (bp_region parts) (bp_account_id parts)
    (bp_table_name parts) (bp_backup_id parts) /\
  bp_arn parts = trim_backup_arn s /\ String.length (trim_backup_arn s) <= MAX_BACKUP_ARN_LEN /\
  parts_wf (bp_partition parts) (bp_region parts) (bp_account_id parts) (bp_table_name parts)
    (bp_backup_id parts).
Proof. apply check_backup_arn_iff. Qed.

Section ArnRoundTrip.
Context `{HR : Rendering}.

Lemma from_parts_Ok parts x :
  from_parts parts = Ok x ->
  x = {| ba_partition := bp_partition parts; ba_region := bp_region parts;
         ba_account_id := bp_account_id parts; ba_table_name := bp_table_name parts;
         ba_backup_id := bp_backup_id parts |} /\
  check_store_prefix_table_name (bp_table_name parts) = Ok tt.
Proof.
  unfold from_parts. destruct (check_store_prefix_table_name _) as [[]|]; [|done]. by intros [= <-].
Qed.

Definition arn_wf (x : BackupArn) : Prop :=
  parts_wf (ba_partition x) (ba_region x) (ba_account_id x) (ba_table_name x) (ba_backup_id x) /\
  String.length (to_arn_string x) <= MAX_BACKUP_ARN_LEN /\
  check_store_prefix_table_name (ba_table_name x) = Ok tt.

Lemma check_printed x :
  arn_wf x ->
  check_backup_arn (to_arn_string x) =
    Ok {| bp_arn := to_arn_string x; bp_partition := ba_partition x; bp_region := ba_region x;
          bp_account_id := ba_account_id x; bp_table_name := ba_table_name x;
          bp_backup_id := ba_backup_id x |}.
Proof.
  intros (Hwf & Hlen & _). apply check_backup_arn_iff. simpl.
  by rewrite (trim_graphic (to_arn_string x)) by by apply format_graphic.
Qed.

Lemma parse_printed x : arn_wf x -> backup_arn_parse (to_arn_string x) = Ok x.
Proof.
  intros Hx. unfold backup_arn_parse. rewrite (check_printed x Hx). unfold from_parts. simpl.
  destruct Hx as (_ & _ & ->). by destruct x.
Qed.

Lemma parse_wf s x : backup_arn_parse s = Ok x -> arn_wf x /\ to_arn_string x = trim_backup_arn s.
Proof.
  unfold backup_arn_parse. destruct (check_backup_arn s) as [parts|] eqn:Ec; [|done].
  destruct (from_parts parts) as [y|e] eqn:Ef; [|by destruct e; intros ?]. intros [= <-].
  apply from_parts_Ok in Ef as [-> Hc]. apply check_backup_arn_iff in Ec as (Hs & _ & Hl & Hwf).
  split; [split; [exact Hwf|split; [|exact Hc]]|by symmetry].
  unfold to_arn_string. cbn [ba_partition ba_region ba_account_id ba_table_name ba_backup_id]. by rewrite <- Hs.
Qed.

(** Building, printing and parsing a backup ARN agree: an ARN built from parts has
    those parts and parses back to itself from its text, and a parsed text prints as it
    was, whitespace around it apart. *)
Theorem backup_arn_roundtrip :
  (forall p r a t b x, backup_arn_new p r a t b = Ok x ->
     x = {| ba_partition := p; ba_region := r; ba_account_id := a; ba_table_name := t;
            ba_backup_id := b |} /\ backup_arn_parse (to_arn_string x) = Ok x) /\
  (forall s x, backup_arn_parse s = Ok x ->
     to_arn_string x = trim_backup_arn s /\ backup_arn_parse (to_arn_string x) = Ok x /\
     backup_arn_new (ba_partition x) (ba_region x) (ba_account_id x) (ba_table_name x)
       (ba_backup_id x) = Ok x).
Proof.
  split.
  - intros p r a t b x. unfold backup_arn_new.
    destruct (check_backup_arn _) as [parts|] eqn:Ec; [|done]. case_bool_decide as E; [done|].
    injection E as <- <- <- <- <-. intros [-> Hc]%from_parts_Ok. split; [done|].
    apply parse_printed. apply check_backup_arn_iff in Ec as (Hs & _ & Hl & Hwf). split; [exact Hwf|].
    split; [|exact Hc]. unfold to_arn_string.
    cbn [ba_partition ba_region ba_account_id ba_table_name ba_backup_id]. by rewrite <- Hs.
  - intros s x [Hx Hp]%parse_wf. split; [done|]. split; [by apply parse_printed|].
    unfold backup_arn_new. fold (to_arn_string x). rewrite (check_printed x Hx). simpl.
    rewrite bool_decide_eq_false_2 by (intros H; by apply H). unfold from_parts. simpl.
    destruct Hx as (_ & _ & ->). by destruct x.
Qed.

(** The last part of an ARN names the backup. *)
Lemma store_prefix_split x :
  arn_wf x -> str_split "/" (store_prefix x) = [ba_account_id x; ba_table_name x; ba_backup_id x; ""].
Proof.
  intros [Hn%parts_wf_names _]. rewrite !Forall_cons_iff in Hn. destruct Hn as (_ & _ & ? & ? & ? & _).
  apply segments_iff; [|done|unfold store_prefix; simpl; by str_simpl].
  intros q [<-|[<-|[<-|[<-|[]]]]]; try done; by apply name_free.
Qed.

(** The store prefix of a backup has exactly the three components of its account,
    table and backup id, none of them empty, a dot or two dots or holding a separator,
    and two backups share a prefix only when they agree on all three. *)
Theorem store_prefix_safe s s' x y :
  backup_arn_parse s = Ok x -> backup_arn_parse s' = Ok y ->
  (str_split "/" (store_prefix x) = [ba_account_id x; ba_table_name x; ba_backup_id x; ""] /\
   Forall (fun c => c <> "" /\ c <> "." /\ c <> ".." /\ str_has "/" c = false /\
             str_all is_ascii_graphic c = true) [ba_account_id x; ba_table_name x; ba_backup_id x]) /\
  (store_prefix x = store_prefix y ->
   ba_account_id x = ba_account_id y /\ ba_table_name x = ba_table_name y /\
   ba_backup_id x = ba_backup_id y).
Proof.
  intros [Hx _]%parse_wf [Hy _]%parse_wf. pose proof (store_prefix_split x Hx) as Sx. split.
  - split; [done|]. destruct Hx as [Hwf (_ & Hdots)]. pose proof (parts_wf_names _ _ _ _ _ Hwf) as Hn.
    rewrite !Forall_cons_iff in Hn. destruct Hn as (_ & _ & Na & Nt & Nb & _).
    destruct Hwf as (_ & _ & Ha & Had & Ht & _ & Hb). pose proof (proj2 (is_backup_id_name _ Hb)).
    assert (forall c, str_all is_name_char c = true -> str_has "/" c = false /\
      str_all is_ascii_graphic c = true) as Hc.
    { intros c Hc. split; [by apply name_free|]. eapply str_all_impl, Hc. apply name_graphic. }
    repeat constructor; try (by apply Hc); try done.
    all: intros E; rewrite E in *; done.
  - intros E. apply (f_equal (str_split "/")) in E. rewrite Sx, (store_prefix_split y Hy) in E.
    by injection E as <- <- <-.
Qed.
End ArnRoundTrip.

(** ** Backup ids *)

Lemma str_all_bytes p s : str_all p s = forallb p (as_bytes s).
Proof. induction s as [|c s IH]; simpl; [done|]. by rewrite IH. Qed.

Lemma zero_padded_spec width digits p :
  length digits <= width -> p "0"%char = true -> forallb p digits = true ->
  String.length (zero_padded width digits) = width /\ str_all p (zero_padded width digits) = true /\
  digits_val (as_bytes (zero_padded width digits)) = digits_val digits.
Proof.
  intros Hl H0 Hd. unfold zero_padded.
  rewrite <- length_as_bytes, str_all_bytes, as_bytes_of_bytes, length_app, length_replicate, forallb_app.
  split; [lia|]. split.
  - rewrite Hd, andb_true_r. generalize (width - length digits). intros n.
    induction n as [|n IH]; simpl; [done|]. by rewrite H0.
  - apply digits_val_zeros_app. generalize (width - length digits). intros n. by induction n.
Qed.

Lemma hex_char_lower d : (d < 16)%N -> is_lower_hex (hex_char d) = true.
Proof.
  intros Hd. unfold hex_char, is_lower_hex, is_digit. destruct (N.ltb_spec d 10).
  - rewrite (proj2 (in_range_iff 48 57 _)); [done|]. unfold byte. rewrite N_ascii_embedding; lia.
  - rewrite (proj2 (in_range_iff 97 102 _)); [by rewrite orb_true_r|].
    unfold byte. rewrite N_ascii_embedding; lia.
Qed.

Lemma hex_of_fuel_spec fuel n acc k :
  forallb is_lower_hex acc = true -> (n < 16 ^ N.of_nat (S k))%N ->
  forallb is_lower_hex (hex_of_fuel fuel n acc) = true /\
  length (hex_of_fuel fuel n acc) <= S k + length acc.
Proof.
  revert n acc k. induction fuel as [|fuel IH]; intros n acc k Ha Hn; simpl; [split; [done|lia]|].
  assert (forallb is_lower_hex (hex_char (n mod 16) :: acc) = true) as Ha'.
  { simpl. rewrite Ha, andb_true_r. apply hex_char_lower. by apply N.mod_lt. }
  destruct (N.ltb_spec n 16) as [|Hge]; [split; [done|simpl; lia]|].
  destruct k as [|k]; [simpl in Hn; lia|].
  destruct (IH (n / 16)%N (hex_char (n mod 16) :: acc) k Ha') as [H1 H2].
  { apply N.Div0.div_lt_upper_bound. rewrite Nat2N.inj_succ, N.pow_succ_r' in Hn. done. }
  split; [done|]. simpl in H2. lia.
Qed.

Lemma N_to_hex_spec n k :
  (n < 16 ^ N.of_nat (S k))%N ->
  forallb is_lower_hex (N_to_hex n) = true /\ length (N_to_hex n) <= S k.
Proof.
  intros Hn. destruct (hex_of_fuel_spec (S (N.to_nat (N.log2 n))) n [] k) as [H1 H2]; [done|done|].
  split; [exact H1|]. rewrite Nat.add_0_r in H2. exact H2.
Qed.

Lemma str_split_snoc c a b :
  str_has c b = false -> str_split c (a +:+ String c b) = str_split c a ++ [b].
Proof.
  intros Hb. induction a as [|d a IH]; str_simpl; cbn [str_split].
  - rewrite Ascii.eqb_refl. by rewrite str_split_free.
  - rewrite IH. destruct (Ascii.eqb d c); [done|]. pose proof (str_split_nonempty c a).
    by destruct (str_split c a).
Qed.

Lemma format_backup_id_split ms suffix :
  (ms < 10 ^ 14)%N -> (suffix < 2 ^ 32)%N ->
  exists m s, format_backup_id ms suffix = m +:+ "-" +:+ s /\
    str_split_once "-" (format_backup_id ms suffix) = Some (m, s) /\
    all_digits m BACKUP_ID_MILLIS_DIGITS = true /\ lower_hex s 8 = true /\ digits_val (as_bytes m) = ms.
Proof.
  intros Hm Hs. unfold format_backup_id. set (m := zero_padded _ _). set (s := zero_padded 8 _).
  destruct (N_to_bytes_spec ms) as (Hd & Hv & _).
  destruct (zero_padded_spec 14 (N_to_bytes ms) is_digit) as (Lm & Dm & Vm); [|done|done|].
  { apply N_to_bytes_length; [lia|]. exact Hm. }
  destruct (N_to_hex_spec suffix 7) as [Hh Hl]; [exact Hs|].
  destruct (zero_padded_spec 8 (N_to_hex suffix) is_lower_hex) as (Ls & Ds & _); [done|done|done|].
  exists m, s. split; [done|]. unfold all_digits, lower_hex.
  change (String.length m = 14) in Lm. change (String.length s = 8) in Ls.
  change (str_all is_digit m = true) in Dm. change (str_all is_lower_hex s = true) in Ds.
  rewrite Lm, Ls, Dm, Ds. split; [|split; [done|split; [done|by rewrite <- Hv]]].
  apply str_split_once_Some. split; [by str_simpl|].
  by apply (str_all_free is_digit).
Qed.

(** An id made for an instant is a backup id and tells the instant again, alone or
    at the end of an ARN. *)
Theorem backup_id_roundtrip ms suffix :
  (ms < 10 ^ 14)%N -> (suffix < 2 ^ 32)%N ->
  is_backup_id (format_backup_id ms suffix) = true /\
  backup_id_epoch_millis (format_backup_id ms suffix) = Some ms /\
  forall arn, backup_id_epoch_millis (arn +:+ "/" +:+ format_backup_id ms suffix) = Some ms.
Proof.
  intros Hm Hs. destruct (format_backup_id_split ms suffix Hm Hs) as (m & s & E & Es & Dm & Ds & Hv).
  assert (is_backup_id (format_backup_id ms suffix) = true) as Hid.
  { unfold is_backup_id. by rewrite Es, Dm, Ds. }
  assert (str_has "/" (format_backup_id ms suffix) = false) as Hf.
  { apply name_free; [|done]. by apply is_backup_id_name. }
  assert (forall x, after_last_slash x = format_backup_id ms suffix -> backup_id_epoch_millis x = Some ms)
    as Hlast.
  { intros x Hx. unfold backup_id_epoch_millis. rewrite Hx, Es, Dm, Ds. simpl. unfold parse_u64_digits.
    rewrite Hv. rewrite (proj2 (N.leb_le ms usize_max)); [done|]. unfold usize_max. lia. }
  split; [done|]. split; [|intros arn]; apply Hlast; unfold after_last_slash.
  - by rewrite str_split_free.
  - str_simpl. rewrite str_split_snoc by done. apply last_last.
Qed.

Lemma backup_id_roundtrip_witness :
  is_backup_id (format_backup_id 1489602797149 1943590332) = true /\
  backup_id_epoch_millis (format_backup_id 1489602797149 1943590332) = Some 1489602797149%N /\
  forall arn, backup_id_epoch_millis (arn +:+ "/" +:+ format_backup_id 1489602797149 1943590332) =
    Some 1489602797149%N.
Proof. apply (backup_id_roundtrip 1489602797149 1943590332); reflexivity. Defined.

#[local] Existing Instance plain_rendering.

Definition sample_arn : string :=
  "arn:aws:dynamodb:us-east-1:123456789012:table/Music/backup/01489602797149-73d8d5bc".
Definition sample_parsed : BackupArn :=
  {| ba_partition := "aws"; ba_region := "us-east-1"; ba_account_id := "123456789012";
     ba_table_name := "Music"; ba_backup_id := "01489602797149-73d8d5bc" |}.

Lemma store_prefix_safe_witness :
  (str_split "/" (store_prefix sample_parsed) = ["123456789012"; "Music"; "01489602797149-73d8d5bc"; ""] /\
   Forall (fun c => c <> "" /\ c <> "." /\ c <> ".." /\ str_has "/" c = false /\
             str_all is_ascii_graphic c = true) ["123456789012"; "Music"; "01489602797149-73d8d5bc"]) /\
  (store_prefix sample_parsed = store_prefix sample_parsed ->
   ba_account_id sample_parsed = ba_account_id sample_parsed /\
   ba_table_name sample_parsed = ba_table_name sample_parsed /\
   ba_backup_id sample_parsed = ba_backup_id sample_parsed).
Proof.
  apply (store_prefix_safe sample_arn sample_arn sample_parsed sample_parsed); vm_compute; reflexivity.
Defined.
