(* ===== verification/Manifest.v ===== *)
(** * The manifest of a backup

    [ExtenddbManifest] and [DataFileEntry] of
    [crates/core/src/backup_format/manifest.rs]: what a manifest is checked for when it
    is written and when it is read, and the reader of one of its files.  Timestamps are
    IEEE 754 values of the standard library's [SpecFloat].  The base64 decoder is a
    parameter. *)

From Stdlib Require Import SpecFloat Sorted.
From S2P Require Import Prelude BTree Types Error Decimal Number StorageKey NumberKey KeyOrder KeyRange Arn.

(** [{:?}] of an [f64]. *)
Class FloatRendering : Type := float_debug : spec_float -> string.

Inductive ItemOrder : Type := KeyOrdered | Unordered.

#[export] Instance ItemOrder_eq_dec : EqDecision ItemOrder.
Proof. solve_decision. Defined.

Record DataFileEntry : Type := {
  de_key : string;
  de_item_count : N;
  de_sha256 : string;
  de_md5 : string;
  de_bytes : N;
  de_uncompressed_bytes : N;
  de_key_range : option KeyRange
}.

(** The members of the source table that the checks look at. *)
Record SourceTableSchema : Type := {
  st_table_name : string;
  st_table_arn : string;
  st_key_schema : list KeySchemaElement;
  st_attribute_definitions : list AttributeDefinition;
  st_table_creation_date_time : spec_float;
  st_item_count : Z;
  st_table_size_bytes : Z
}.

(** The members of the manifest that the checks look at. *)
Record ExtenddbManifest : Type := {
  mf_format_version : N;
  mf_backup_arn : string;
  mf_backup_name : string;
  mf_backup_creation_date_time : spec_float;
  mf_backup_size_bytes : Z;
  mf_item_order : ItemOrder;
  mf_source_table : SourceTableSchema;
  mf_data_files : list DataFileEntry
}.

Definition CURRENT_FORMAT_VERSION : N := 1.

(** [ms as f64 / 1000.0]: binary64 has 53 bits of precision and exponents up to 1024. *)
Definition f64_of_Z (z : Z) : spec_float := binary_normalize 53 1024 z 0 false.
Definition millis_to_seconds (ms : N) : spec_float :=
  SFdiv 53 1024 (f64_of_Z (Z.of_N ms)) (f64_of_Z 1000).

Definition backup_creation_date_time (id_or_arn : string) : option spec_float :=
  millis_to_seconds <$> backup_id_epoch_millis id_or_arn.

(** [to_bits] of two values agrees when they are the same value. *)
#[export] Instance spec_float_eq_dec : EqDecision spec_float.
Proof. solve_decision. Defined.

(** [f64::is_finite], and [{}] of a value that is not. *)
Definition is_finite (x : spec_float) : bool :=
  match x with
  | S754_zero _ | S754_finite _ _ _ => true
  | _ => false
  end.

Definition non_finite_text (x : spec_float) : string :=
  match x with
  | S754_infinity false => "inf"
  | S754_infinity true => "-inf"
  | _ => "NaN"
  end.

Section Checks.
Context `{HR : Rendering} `{HF : FloatRendering} `{HB : Base64} `{HBD : Base64Decode}
  {D : Type} `{HD : BigDecimal D}.

Definition refuse {A : Type} (e : FormatError) : fres A := Err (Refused e).
Definition invalid_manifest {A : Type} (reason : string) : fres A := refuse (InvalidManifest reason).

(** [name.contains("..")]. *)
Definition has_dots (name : string) : bool :=
  list_contains_sub (as_bytes name) ["."%char; "."%char].

Definition backslash : ascii := ascii_of_N 92.

Definition validate_key (self : DataFileEntry) : fres unit :=
  let reject reason := refuse (InvalidDataFileKey (truncated (de_key self)) reason) in
  match str_strip_prefix DATA_PREFIX (de_key self) with
  | None => reject "must start with the data/ prefix"
  | Some name =>
      if is_empty name then reject "names no file under data/"
      else if str_has "/" name then reject "must hold exactly one path segment under data/"
      else if str_has backslash name then reject "must not contain a backslash"
      else if String.eqb name "." || String.eqb name ".." || has_dots name then
        reject "must not contain a path-traversal component"
      else
        match strip_suffix ".json.gz" name with
        | None => reject "must end with .json.gz"
        | Some digits =>
            if is_empty digits || negb (str_all is_digit digits) then
              reject "file stem must be all digits"
            else Ok tt
        end
  end.

Definition check_format_version (found : N) : fres unit :=
  if (1 <=? found)%N && (found <=? CURRENT_FORMAT_VERSION)%N then Ok tt
  else refuse (UnsupportedFormatVersion found CURRENT_FORMAT_VERSION).

Definition is_valid_backup_name (name : string) : bool :=
  (3 <=? String.length name) && (String.length name <=? 255) && validate_table_name_chars name.

Definition is_sha256_hex (s : string) : bool := lower_hex s 64.

Definition is_md5_base64 (s : string) : bool :=
  (String.length s =? 24) &&
  match b64_decode s with
  | Ok bytes => length bytes =? 16
  | Err _ => false
  end.

(** A function that returns [Result<_, FormatError>], run here. *)
Definition lift {A : Type} (r : result FormatError A) : fres A := map_err Refused r.

Definition validate_identity (self : ExtenddbManifest) : fres unit :=
  let table := mf_source_table self in
  let? arn := lift (backup_arn_parse (mf_backup_arn self)) in
  if negb (String.eqb (mf_backup_arn self) (to_arn_string arn)) then
    invalid_manifest ("backup_arn " +:+ shown (mf_backup_arn self) +:+ " is not in canonical form")
  else
    match backup_id_epoch_millis (ba_backup_id arn) with
    | None =>
        invalid_manifest ("backup id " +:+ debug (ba_backup_id arn) +:+
          " does not carry the backup's creation instant")
    | Some id_millis =>
        if bool_decide (mf_backup_creation_date_time self <> millis_to_seconds id_millis) then
          invalid_manifest ("backup_creation_date_time " +:+
            float_debug (mf_backup_creation_date_time self) +:+
            " does not match the instant in backup_arn (" +:+ N_to_string id_millis +:+ " ms)")
        else if negb (is_valid_backup_name (mf_backup_name self)) then
          invalid_manifest ("backup_name " +:+ shown (mf_backup_name self) +:+
            " is not 3 to 255 characters of [a-zA-Z0-9_.-]")
        else if negb (String.eqb (ba_table_name arn) (st_table_name table)) then
          invalid_manifest ("backup_arn names table " +:+ shown (ba_table_name arn) +:+
            " but source_table.table_name is " +:+ shown (st_table_name table))
        else
          let matches :=
            match parse (st_table_arn table) with
            | None => false
            | Some t =>
                bool_decide (ta_sub t = None) && String.eqb (ta_service t) "dynamodb" &&
                String.eqb (ta_partition t) (ba_partition arn) && is_region (ta_region t) &&
                String.eqb (ta_account t) (ba_account_id arn) &&
                String.eqb (ta_table t) (ba_table_name arn)
            end in
          if matches then Ok tt
          else invalid_manifest ("source_table.table_arn " +:+ shown (st_table_arn table) +:+
            " is not a table ARN in partition " +:+ truncated (ba_partition arn) +:+ " for account " +:+
            truncated (ba_account_id arn) +:+ " and table " +:+ shown (ba_table_name arn) +:+
            " named by backup_arn")
    end.

(** The position of the first RANGE element, or the length. *)
Definition first_range (schema : list KeySchemaElement) : nat :=
  default (length schema) (list_find (fun e => bool_decide (ks_key_type e = Range)) schema).

Fixpoint source_keys_loop (defs : list AttributeDefinition) (names : list string)
    (schema : list KeySchemaElement) : fres unit :=
  match schema with
  | [] => Ok tt
  | element :: rest =>
      let name := ks_attribute_name element in
      if existsb (String.eqb name) names then
        invalid_manifest ("source_table.key_schema names attribute " +:+ shown name +:+
          " more than once")
      else
        let definitions := length (List.filter (fun d => String.eqb (ad_attribute_name d) name) defs) in
        if negb (definitions =? 1) then
          invalid_manifest ("source_table key attribute " +:+ shown name +:+ " has " +:+
            nat_to_string definitions +:+ " attribute definitions, not one")
        else source_keys_loop defs (name :: names) rest
  end.

Definition validate_source_table (self : ExtenddbManifest) : fres unit :=
  let table := mf_source_table self in
  let schema := st_key_schema table in
  if (st_item_count table <? 0)%Z then
    invalid_manifest ("source_table.item_count is negative (" +:+ Z_to_string (st_item_count table) +:+ ")")
  else if (st_table_size_bytes table <? 0)%Z then
    invalid_manifest ("source_table.table_size_bytes is negative (" +:+
      Z_to_string (st_table_size_bytes table) +:+ ")")
  else if negb (is_finite (st_table_creation_date_time table)) then
    invalid_manifest ("source_table.table_creation_date_time is not a finite number (" +:+
      non_finite_text (st_table_creation_date_time table) +:+ ")")
  else if first_range schema =? 0 then
    invalid_manifest "source_table.key_schema has no HASH element before its RANGE elements"
  else if existsb (fun e => bool_decide (ks_key_type e = Hash)) (drop (first_range schema) schema) then
    invalid_manifest "source_table.key_schema lists a HASH element after a RANGE element"
  else source_keys_loop (st_attribute_definitions table) [] schema.

Definition key_order (self : ExtenddbManifest) : fres KeyOrder :=
  resolve (st_key_schema (mf_source_table self)) (st_attribute_definitions (mf_source_table self)).

Definition invalid_entry {A : Type} (entry : DataFileEntry) (reason : string) : fres A :=
  refuse (InvalidDataFileEntry (truncated (de_key entry)) reason).

(** [u64::checked_add]. *)
Definition checked_add_u64 (a b : N) : option N :=
  if (a + b <=? usize_max)%N then Some (a + b)%N else None.

(** The first loop: each entry by itself, and the sum of the sizes. *)
Fixpoint entries_loop (order : ItemOrder) (seen : list string) (total : N)
    (entries : list DataFileEntry) : fres N :=
  match entries with
  | [] => Ok total
  | entry :: rest =>
      let? _ := validate_key entry in
      if existsb (String.eqb (de_key entry)) seen then
        refuse (InvalidDataFileKey (truncated (de_key entry)) "listed more than once")
      else if bool_decide (order = Unordered) && is_some (de_key_range entry) then
        invalid_entry entry "unordered manifest entry has a key_range"
      else if negb (is_sha256_hex (de_sha256 entry)) then
        invalid_entry entry "sha256 is not 64 lowercase hex digits"
      else if negb (is_md5_base64 (de_md5 entry)) then
        invalid_entry entry "md5 is not the base64 of 16 bytes"
      else if (de_item_count entry =? 0)%N then invalid_entry entry "a data file has no items"
      else if (de_bytes entry =? 0)%N || (de_uncompressed_bytes entry =? 0)%N then
        invalid_entry entry "a file with items has zero bytes"
      else
        match checked_add_u64 total (de_bytes entry) with
        | None => invalid_manifest "data file sizes overflow"
        | Some total => entries_loop order (de_key entry :: seen) total rest
        end
  end.

(** The second loop: the ranges of a key-ordered manifest. *)
Fixpoint ranges_loop (order : KeyOrder) (previous_last : option Item) (entries : list DataFileEntry)
    : fres unit :=
  match entries with
  | [] => Ok tt
  | entry :: rest =>
      match de_key_range entry with
      | None => invalid_entry entry "key_ordered manifest entry has no key_range"
      | Some range =>
          let? _ := validate_key_item order (kr_first range) in
          let? _ := validate_key_item order (kr_last range) in
          let? c := compare order (kr_first range) (kr_last range) in
          if bool_decide (c = Gt) then
            invalid_manifest (shown (de_key entry) +:+ ": key_range first is after last")
          else
            let? follows :=
              match previous_last with
              | None => Ok true
              | Some prev =>
                  let? c := compare order prev (kr_first range) in
                  Ok (bool_decide (c = Lt))
              end in
            if negb follows then
              invalid_manifest (shown (de_key entry) +:+
                ": key_range overlaps or does not follow the previous file")
            else ranges_loop order (Some (kr_last range)) rest
      end
  end.

Definition validate_data_files (self : ExtenddbManifest) : fres unit :=
  let? total := entries_loop (mf_item_order self) [] 0 (mf_data_files self) in
  if bool_decide ((if (Z.of_N total <=? i64_max)%Z then Some (Z.of_N total) else None) <>
                  Some (mf_backup_size_bytes self)) then
    invalid_manifest ("backup_size_bytes is " +:+ Z_to_string (mf_backup_size_bytes self) +:+
      " but the data files total " +:+ N_to_string total)
  else
    match mf_item_order self with
    | KeyOrdered =>
        let? order := key_order self in
        ranges_loop order None (mf_data_files self)
    | Unordered => Ok tt
    end.

Definition validate (self : ExtenddbManifest) : fres unit :=
  let? _ := check_format_version (mf_format_version self) in
  let? _ := validate_source_table self in
  let? _ := validate_identity self in
  validate_data_files self.

(** The check the reader of one file runs, if any. *)
Definition range_check (self : ExtenddbManifest) (entry : DataFileEntry)
    : fres (option (KeyRangeCheck D)) :=
  match mf_item_order self, de_key_range entry with
  | KeyOrdered, Some range =>
      let? order := key_order self in
      let? c := check_new order range in
      Ok (Some c)
  | KeyOrdered, None => invalid_entry entry "key_ordered manifest entry has no key_range"
  | Unordered, None => Ok None
  | Unordered, Some _ => invalid_entry entry "unordered manifest entry has a key_range"
  end.

(** The reader of one file; [open] makes the decoder of an entry's bytes. *)
Definition decoder {R : Type} (open : DataFileEntry -> R) (self : DataFileEntry) : fres R :=
  let? _ := validate_key self in
  Ok (open self).

Definition reader {R : Type} (open : DataFileEntry -> R) (self : ExtenddbManifest)
    (entry : DataFileEntry) : fres (DataFileReader D R) :=
  let? check := range_check self entry in
  let? d := decoder open entry in
  Ok (reader_new d check).
End Checks.

(** ** What a restore reads *)

Section Restore.
Context `{HR : Rendering} `{HF : FloatRendering} `{HB : Base64} `{HBD : Base64Decode} `{HBL : !Base64Laws}
  {D : Type} `{HD : BigDecimal D} `{HDL : !BigDecimalLaws D}.

Lemma check_range_kept (c : KeyRangeCheck D) item : rc_range (check c item).1 = rc_range c.
Proof.
  unfold check. destruct (check_key c item); [|done]. by destruct (push_checked _ _) as [t r].
Qed.

Lemma check_all_range (c : KeyRangeCheck D) items : rc_range (check_all c items).1 = rc_range c.
Proof.
  revert c. induction items as [|item items IH]; intros c; [done|]. simpl.
  pose proof (check_range_kept c item) as E. destruct (check c item) as [c' [[]|e]]; [|done].
  simpl in E. by rewrite IH.
Qed.

Lemma endpoint_key_of order which key (h : HeldKey D) :
  endpoint order which key = Ok (Ok h) -> exists k, checked_key order key = Ok k /\ h = held_key_new k.
Proof.
  unfold endpoint. destruct (validate_key_item order key) as [[]|e]; [|by destruct e].
  destruct (checked_key order key) as [k|[e|]]; [|done|done]. intros [= <-]. eauto.
Qed.

(** A check that finishes had a range of two keys. *)
Lemma check_new_inv order range (c : KeyRangeCheck D) items c' :
  check_new order range = Ok c -> check_all c items = (c', Ok tt) -> check_finish c' = Ok tt ->
  exists f l, checked_key order (kr_first range) = Ok f /\ checked_key order (kr_last range) = Ok l /\
    reads order f l [] c.
Proof.
  intros Hn Ha Hf. pose proof (check_all_range c items) as E. rewrite Ha in E. simpl in E.
  unfold check_finish in Hf. rewrite E in Hf. unfold check_new in Hn.
  destruct (endpoint order "first" (kr_first range)) as [[f|?]|?] eqn:Ef; [| |done].
  2:{ injection Hn as <-. done. }
  simpl in Hn. destruct (endpoint order "last" (kr_last range)) as [[l|?]|?] eqn:El; [| |done].
  2:{ injection Hn as <-. done. }
  injection Hn as <-. apply endpoint_key_of in Ef as (kf & Kf & ->), El as (kl & Kl & ->).
  exists kf, kl. split; [done|]. split; [done|]. split; [done|]. apply tracks_new.
Qed.

(** A file read to its end holds ascending keys from the recorded first to the recorded last. *)
Lemma drained_keys {R : Type} (decode_next : R -> R * fres (option Item)) fuel d order range
    (c : KeyRangeCheck D) items :
  Forall short_numbers items -> short_numbers (kr_first range) -> short_numbers (kr_last range) ->
  check_new order range = Ok c -> drain decode_next fuel (reader_new d (Some c)) = Some (Ok items) ->
  exists f l ks, key_of order (kr_first range) f /\ key_of order (kr_last range) l /\
    keys_of order items (f :: ks) /\ ascends (Some f) ks = true /\ latest_of (Some f) ks = Some l.
Proof.
  intros Hs Sf Sl Hn (c' & Ha & Hf)%drain_sound.
  destruct (check_new_inv _ _ _ _ _ Hn Ha Hf) as (f & l & Kf & Kl & Hr).
  assert (is_key order f) as If by (by exists (kr_first range)).
  assert (is_key order l) as Il by (by exists (kr_last range)).
  destruct (check_all_sound order f l [] c items c' If Il Hs Hr Ha) as (ks & Hks & Has & Hr' & Hh).
  apply (check_finish_spec order f l _ _ Il Hr') in Hf. simpl in *.
  destruct ks as [|k ks]; [done|]. destruct (Hh eq_refl) as [|[= ->]]; [done|].
  exists f, l, ks. simpl in *. by repeat split.
Qed.

(** One file of the manifest, read to its end by the reader the manifest makes. *)
Definition restores {R : Type} (open : DataFileEntry -> R)
    (decode_next : R -> R * fres (option Item)) (m : ExtenddbManifest)
    (entry : DataFileEntry) (items : list Item) : Prop :=
  exists rd fuel, reader (D := D) open m entry = Ok rd /\ drain decode_next fuel rd = Some (Ok items).

Definition short_range (entry : DataFileEntry) : Prop :=
  forall r, de_key_range entry = Some r -> short_numbers (kr_first r) /\ short_numbers (kr_last r).

Lemma reader_inv {R : Type} (open : DataFileEntry -> R) m entry order rd :
  mf_item_order m = KeyOrdered -> key_order m = Ok order -> reader open m entry = Ok rd ->
  exists r (c : KeyRangeCheck D) d,
    de_key_range entry = Some r /\ check_new order r = Ok c /\ rd = reader_new d (Some c).
Proof.
  intros Ho Hk. unfold reader, range_check. rewrite Ho, Hk.
  destruct (de_key_range entry) as [r|]; [|done].
  destruct (check_new order r) as [c|e] eqn:E; [|done].
  unfold decoder. destruct (validate_key entry) as [[]|e]; [|done]. intros [= <-].
  by exists r, c, (open entry).
Qed.

Lemma ranges_loop_ascends {R : Type} (open : DataFileEntry -> R) decode_next m order prev pk entries files :
  mf_item_order m = KeyOrdered -> key_order m = Ok order ->
  Forall short_range entries -> Forall (Forall short_numbers) files ->
  ranges_loop (D := D) order prev entries = Ok tt ->
  Forall2 (restores open decode_next m) entries files ->
  match prev with None => pk = None | Some p => exists k, pk = Some k /\ checked_key order p = Ok k end ->
  exists kss, Forall2 (keys_of (D := D) order) files kss /\ ascends pk (concat kss) = true.
Proof.
  intros Ho Hk Hsr Hs Hl Hf. revert prev pk Hsr Hs Hl.
  induction Hf as [|entry items entries files (rd & fuel & Hrd & Hd) Hf IH];
    intros prev pk Hsr Hs Hl Hp; [by exists []|].
  apply Forall_cons_iff in Hsr as [Hr Hsr], Hs as [Hi Hs].
  destruct (reader_inv _ _ _ _ _ Ho Hk Hrd) as (r & c & d & Er & Hc & ->).
  destruct (Hr r Er) as [Sf Sl].
  destruct (drained_keys _ _ _ _ _ _ _ Hi Sf Sl Hc Hd) as (f & l & ks & [Kf _] & [Kl _] & Hks & Ha & Hlast).
  simpl in Hl. rewrite Er in Hl.
  destruct (validate_key_item order (kr_first r)) as [[]|]; [|done].
  destruct (validate_key_item order (kr_last r)) as [[]|]; [|done].
  rewrite (compare_checked _ _ _ _ _ Kf Kl) in Hl. case_bool_decide as Eg; [done|].
  destruct (IH (Some (kr_last r)) (Some l)) as (kss & Hkss & Hasc); [done|done| |by exists l|].
  { destruct prev as [p|]; [|by destruct Hp].
    destruct (compare order p (kr_first r)) as [cr|]; [|done]. simpl in Hl.
    by destruct (bool_decide (cr = Lt)). }
  exists ((f :: ks) :: kss). split; [by constructor|]. simpl. rewrite ascends_app, Ha, Hlast, Hasc.
  rewrite !andb_true_r. destruct prev as [p|]; [|by subst].
  destruct Hp as (k & -> & Kp). rewrite (compare_checked _ _ _ _ _ Kp Kf) in Hl. simpl in Hl |- *.
  by destruct (bool_decide _).
Qed.

(** C12. A restore from a key-ordered manifest that passes its checks reads every key
    once: the keys of all the items, file after file, are valid keys in strictly
    ascending order, so no two items of the backup have the same key. *)
Theorem restored_keys_ascend {R : Type} (open : DataFileEntry -> R) decode_next m files :
  mf_item_order m = KeyOrdered -> validate_data_files (D := D) m = Ok tt ->
  Forall short_range (mf_data_files m) -> Forall (Forall short_numbers) files ->
  Forall2 (restores open decode_next m) (mf_data_files m) files ->
  exists order ks, key_order m = Ok order /\ keys_of (D := D) order (concat files) ks /\
    StronglySorted (fun k l => checked_cmp k l = Lt) ks /\ NoDup ks.
Proof.
  intros Ho Hv Hsr Hs Hf. unfold validate_data_files in Hv. rewrite Ho in Hv.
  destruct (entries_loop _ _ _ _) as [total|]; [|done]. simpl in Hv.
  destruct (bool_decide _) in Hv; [done|].
  destruct (key_order m) as [order|] eqn:Ek; [|done]. simpl in Hv.
  destruct (ranges_loop_ascends open decode_next m order None None _ files Ho Ek Hsr Hs Hv Hf eq_refl)
    as (kss & Hkss & Ha).
  assert (keys_of order (concat files) (concat kss)) as Hk.
  { clear -Hkss. induction Hkss; simpl; [constructor|by apply Forall2_app]. }
  pose proof (keys_of_is_key _ _ _ Hk) as Hik.
  destruct (ascends_sorted order None _ Hik ltac:(done) Ha) as [Hsort _].
  exists order, (concat kss). eauto using sorted_NoDup.
Qed.
End Restore.

(** ** Data file keys *)

Lemma digits_no_dots ds : str_all is_digit ds = true -> has_dots (ds +:+ ".json.gz") = false.
Proof.
  unfold has_dots. induction ds as [|d ds IH]; [done|]. str_simpl. cbn [str_all].
  intros [Hd Hds]%andb_prop. specialize (IH Hds). unfold as_bytes in IH |- *.
  cbn [list_ascii_of_string list_contains_sub list_starts_with]. rewrite IH, orb_false_r. apply andb_false_iff. left.
  apply bool_decide_eq_false. by intros <-.
Qed.

Section Keys.
Context `{HR : Rendering} `{HF : FloatRendering} `{HB : Base64} `{HBD : Base64Decode}.

Lemma validate_key_iff entry :
  validate_key entry = Ok tt <->
  exists digits, de_key entry = DATA_PREFIX +:+ digits +:+ ".json.gz" /\
    digits <> "" /\ str_all is_digit digits = true.
Proof.
  unfold validate_key. split.
  - destruct (str_strip_prefix _ _) as [name|] eqn:E1; [|done]. apply str_strip_prefix_Some in E1 as ->.
    do 4 (match goal with |- context [if ?b then _ else _] => destruct b end; [done|]).
    destruct (strip_suffix _ _) as [ds|] eqn:E; [|done].
    apply strip_suffix_Some in E as ->. destruct (_ || _) eqn:E2; [done|].
    apply orb_false_iff in E2 as [E2%is_empty_false E3%negb_false_iff]. eauto.
  - intros (ds & -> & Hne & Hd). rewrite (proj2 (str_strip_prefix_Some _ _ _) eq_refl).
    rewrite (proj2 (strip_suffix_Some _ _ _) eq_refl), digits_no_dots by done.
    assert (str_all is_name_char (ds +:+ ".json.gz") = true) as Ha.
    { rewrite str_all_app, andb_true_iff. split; [|done].
      revert Hd. apply str_all_impl, digit_name. }
    rewrite (str_all_free is_name_char "/" _ eq_refl Ha).
    rewrite (str_all_free is_name_char backslash _ eq_refl Ha), Hd.
    destruct ds as [|d ds]; [done|]. str_simpl. simpl. simpl in Hd.
    destruct (Ascii.eqb_spec d ".") as [->|]; [done|]. done.
Qed.

Lemma data_file_key_digits n :
  exists digits, data_file_key n = DATA_PREFIX +:+ digits +:+ ".json.gz" /\
    digits <> "" /\ str_all is_digit digits = true.
Proof.
  destruct (N_to_bytes_spec n) as (Hd & _ & Hne). exists (zero_padded 6 (N_to_bytes n)).
  unfold zero_padded. rewrite str_all_bytes, as_bytes_of_bytes, forallb_app, Hd, andb_true_r.
  split; [done|]. split.
  - intros E%(f_equal as_bytes). rewrite as_bytes_of_bytes in E. by apply app_eq_nil in E as [_ E].
  - by generalize (6 - length (N_to_bytes n)); intros k; induction k.
Qed.

(** A data file key of a manifest is accepted exactly when it is [data/], one or
    more digits and [.json.gz]: it names one file directly under [data/], and
    the key the writer makes for a file is one of them. *)
Theorem validate_key_spec entry :
  (validate_key entry = Ok tt <->
   exists digits, de_key entry = DATA_PREFIX +:+ digits +:+ ".json.gz" /\
     digits <> "" /\ str_all is_digit digits = true) /\
  (forall n, de_key entry = data_file_key n -> validate_key entry = Ok tt).
Proof.
  split; [apply validate_key_iff|]. intros n E. apply validate_key_iff. rewrite E. apply data_file_key_digits.
Qed.

(** What each entry is checked for by itself. *)
Definition entry_ok (order : ItemOrder) (entry : DataFileEntry) : Prop :=
  validate_key entry = Ok tt /\ (order = Unordered -> de_key_range entry = None) /\
  is_sha256_hex (de_sha256 entry) = true /\ is_md5_base64 (de_md5 entry) = true /\
  de_item_count entry <> 0%N /\ de_bytes entry <> 0%N /\ de_uncompressed_bytes entry <> 0%N.

Definition total_bytes (entries : list DataFileEntry) : N :=
  foldr (fun e n => (de_bytes e + n)%N) 0%N entries.

Lemma existsb_eqb_In (x : string) l : existsb (String.eqb x) l = true <-> In x l.
Proof.
  rewrite existsb_exists. split; [|by exists x; rewrite String.eqb_refl].
  intros (y & Hy & ->%String.eqb_eq). done.
Qed.

Lemma entries_loop_step order seen total e entries t :
  entries_loop order seen total (e :: entries) = Ok t <->
  entry_ok order e /\ ~ In (de_key e) seen /\ (total + de_bytes e <= usize_max)%N /\
  entries_loop order (de_key e :: seen) (total + de_bytes e) entries = Ok t.
Proof.
  cbn [entries_loop]. unfold entry_ok, checked_add_u64.
  destruct (validate_key e) as [[]|]; [|naive_solver].
  destruct (existsb _ seen) eqn:E1.
  { apply existsb_eqb_In in E1. split; [done|]. by intros (_ & ? & _). }
  assert (~ In (de_key e) seen) as Hn by (rewrite <- existsb_eqb_In; congruence).
  destruct order, (de_key_range e) as [r|]; simpl;
    try (split; [done|]; intros ((_ & Hr & _) & _); by specialize (Hr eq_refl)).
  all: destruct (is_sha256_hex _); [|naive_solver]; destruct (is_md5_base64 _); [|naive_solver].
  all: destruct (N.eqb_spec (de_item_count e) 0); [naive_solver|].
  all: destruct (N.eqb_spec (de_bytes e) 0); [naive_solver|].
  all: destruct (N.eqb_spec (de_uncompressed_bytes e) 0); [naive_solver|].
  all: destruct (N.leb_spec (total + de_bytes e) usize_max); [naive_solver|].
  all: split; [done|intros (_ & _ & ? & _); lia].
Qed.

Lemma entries_loop_spec order seen total entries t :
  (total <= usize_max)%N ->
  entries_loop order seen total entries = Ok t <->
  Forall (entry_ok order) entries /\ NoDup (map de_key entries) /\
  Forall (fun e => ~ In (de_key e) seen) entries /\ t = (total + total_bytes entries)%N /\
  (t <= usize_max)%N.
Proof.
  revert seen total. induction entries as [|e entries IH]; intros seen total Ht.
  { simpl. rewrite N.add_0_r. split; [intros [= <-]|intros (_ & _ & _ & -> & _)]; [|done].
    auto using NoDup_nil_2. }
  rewrite entries_loop_step, !Forall_cons_iff. simpl. rewrite list.NoDup_cons.
  split.
  - intros (Ho & Hs & Hb & H). apply IH in H as (Hf & Hn & Hd & -> & Hm); [|done].
    rewrite Forall_forall in Hd. split; [done|]. split; [split; [|done]|].
    + intros (e' & He & Hin)%list_elem_of_In%in_map_iff. apply (Hd e' Hin). by left.
    + split; [split; [done|]|by rewrite N.add_assoc]. apply Forall_forall. intros e' Hin H.
      apply (Hd e' Hin). by right.
  - intros ((Ho & Hf) & (Hx & Hn) & (Hs & Hd) & Et & Hm). rewrite N.add_assoc in Et.
    split; [done|]. split; [done|]. split; [lia|]. apply IH; [lia|]. split; [done|]. split; [done|].
    split; [|done]. rewrite Forall_forall in Hd |- *. intros e' Hin [He|Hin']; [|by eapply Hd].
    apply Hx, list_elem_of_In, in_map_iff. eauto.
Qed.

Context {D : Type} `{HD : BigDecimal D}.

(** The data file list of a manifest passes its checks exactly when every entry is
    well formed, no two entries name the same file, the recorded size of the backup is
    the sum of the sizes of the files, without overflow, and the recorded key ranges of
    a key-ordered manifest ascend. *)
Theorem validate_data_files_spec m :
  validate_data_files (D := D) m = Ok tt <->
  Forall (entry_ok (mf_item_order m)) (mf_data_files m) /\ NoDup (map de_key (mf_data_files m)) /\
  Z.of_N (total_bytes (mf_data_files m)) = mf_backup_size_bytes m /\ (mf_backup_size_bytes m <= i64_max)%Z /\
  (mf_item_order m = KeyOrdered -> exists order, key_order m = Ok order /\
     ranges_loop (D := D) order None (mf_data_files m) = Ok tt).
Proof.
  unfold validate_data_files.
  destruct (entries_loop (mf_item_order m) [] 0 (mf_data_files m)) as [t|e] eqn:E; simpl.
  - apply entries_loop_spec in E as (Hf & Hn & _ & -> & Hm); [|done]. rewrite N.add_0_l in *.
    set (t := total_bytes _) in *. destruct (Z.leb_spec (Z.of_N t) i64_max); case_bool_decide as Hb.
    + split; [done|]. intros (_ & _ & Ht & _). by rewrite Ht in Hb.
    + injection Hb as Hb. rewrite <- Hb. destruct (mf_item_order m); [|naive_solver].
      destruct (key_order m) as [order|]; simpl; naive_solver.
    + split; [done|]. intros (_ & _ & Ht & Hi & _). lia.
    + done.
  - split; [done|]. intros (Hf & Hn & Ht & Hi & _). exfalso.
    assert (entries_loop (mf_item_order m) [] 0 (mf_data_files m) = Ok (total_bytes (mf_data_files m)))
      as Hok; [|congruence].
    apply entries_loop_spec; [done|]. split; [done|]. split; [done|].
    split; [apply Forall_forall; auto|]. split; [done|]. unfold i64_max, usize_max in *. lia.
Qed.
End Keys.

(** ** Witnesses *)

#[local] Existing Instance rfc4648_base64.
#[local] Existing Instance rfc4648_laws.
#[local] Existing Instance plain_rendering.
#[local] Instance no_float_debug : FloatRendering := fun _ => "".

Definition zero_digest : string := "AAAAAAAAAAAAAAAAAAAAAA==".
#[local] Existing Instance rfc4648_decode.

Definition example_entry (n : N) (first last : string) : DataFileEntry :=
  {| de_key := data_file_key n; de_item_count := 1;
     de_sha256 := of_bytes (replicate 64 "0"%char); de_md5 := zero_digest; de_bytes := 20;
     de_uncompressed_bytes := 30;
     de_key_range := Some {| kr_first := order_item first; kr_last := order_item last |} |}.

Definition example_manifest : ExtenddbManifest :=
  {| mf_format_version := 1; mf_backup_arn := ""; mf_backup_name := "";
     mf_backup_creation_date_time := f64_of_Z 0; mf_backup_size_bytes := 40;
     mf_item_order := KeyOrdered;
     mf_source_table := {| st_table_name := "t"; st_table_arn := ""; st_key_schema := order_schema;
       st_attribute_definitions := order_defs; st_table_creation_date_time := f64_of_Z 0;
       st_item_count := 3; st_table_size_bytes := 60 |};
     mf_data_files := [example_entry 0 "-1" "9"; example_entry 1 "10" "10"] |}.

(** A decoder that holds the items it has still to yield. *)
Definition next_of_list (l : list Item) : list Item * fres (option Item) :=
  match l with [] => ([], Ok None) | item :: l => (l, Ok (Some item)) end.

Definition example_open (entry : DataFileEntry) : list Item :=
  if String.eqb (de_key entry) (data_file_key 0) then [order_item "-1"; order_item "9"] else [order_item "10"].

Lemma example_ranges_short : Forall short_range (mf_data_files example_manifest).
Proof.
  repeat constructor; injection H as <-; apply order_item_short; vm_compute; reflexivity.
Qed.

Lemma restored_keys_ascend_witness :
  exists order ks, key_order example_manifest = Ok order /\
    keys_of (D := dec) order (concat two_files) ks /\
    StronglySorted (fun k l => checked_cmp k l = Lt) ks /\ NoDup ks.
Proof.
  apply (restored_keys_ascend (D := dec) example_open next_of_list).
  - reflexivity.
  - vm_compute. reflexivity.
  - exact example_ranges_short.
  - exact two_files_short.
  - repeat constructor; eexists _, 3; (split; [vm_compute; reflexivity|]); vm_compute; reflexivity.
Defined.
