(* ===== verification/PolicyMatcher.v ===== *)
(** * Wildcard, ARN and address matching of policies

    [crates/auth/src/policy/matcher.rs]: the wildcard matcher, with its backtracking
    loop as the code writes it, ARN patterns field by field, and CIDR membership.
    Wildcards count UTF-16 code units; an ASCII text is matched as its bytes.  The
    parsers of [std::net] addresses are written out. *)

From S2P Require Import Prelude Arn.

(** ** UTF-16 *)

Definition cont_bits (b : ascii) : N := byte b mod 64.

(** [str::chars]: the scalar values of a text. *)
Fixpoint chars_of (l : list ascii) : list N :=
  match l with
  | [] => []
  | a :: l1 =>
      let x := byte a in
      if (x <? 128)%N then x :: chars_of l1
      else match l1 with
           | [] => []
           | b :: l2 =>
               if (x <? 224)%N then ((x mod 32) * 64 + cont_bits b)%N :: chars_of l2
               else match l2 with
                    | [] => []
                    | c :: l3 =>
                        if (x <? 240)%N then
                          ((x mod 16) * 4096 + cont_bits b * 64 + cont_bits c)%N :: chars_of l3
                        else match l3 with
                             | [] => []
                             | d :: l4 =>
                                 ((x mod 8) * 262144 + cont_bits b * 4096 + cont_bits c * 64 +
                                  cont_bits d)%N :: chars_of l4
                             end
                    end
           end
  end.

Definition utf16_units (c : N) : list N :=
  if (c <? 65536)%N then [c]
  else let r := (c - 65536)%N in [(55296 + r / 1024)%N; (56320 + r mod 1024)%N].

Definition encode_utf16 (s : string) : list N := flat_map utf16_units (chars_of (as_bytes s)).

(** ** The backtracking loop *)

Section Greedy.
Context {P V : Type} (is_star : P -> bool) (fits : P -> V -> bool).

(** The loop's variables; [last_star] is [usize::MAX] before the first star. *)
Record Scan : Type := { pi : nat; vi : nat; last_star : option nat; match_from : nat }.

Fixpoint skip_stars (l : list P) : list P :=
  match l with
  | c :: l' => if is_star c then skip_stars l' else l
  | [] => []
  end.

Fixpoint greedy_loop (fuel : nat) (p : list P) (v : list V) (s : Scan) : option bool :=
  match fuel with
  | O => None
  | S fuel =>
      let backtrack :=
        match last_star s with
        | Some star =>
            greedy_loop fuel p v {| pi := star; vi := match_from s + 1; last_star := Some star;
                                  match_from := match_from s + 1 |}
        | None => Some false
        end in
      match v !! vi s with
      | None => Some (bool_decide (skip_stars (drop (pi s) p) = []))
      | Some d =>
          match p !! pi s with
          | Some c =>
              if is_star c then
                greedy_loop fuel p v {| pi := pi s + 1; vi := vi s; last_star := Some (pi s + 1);
                                      match_from := vi s |}
              else if fits c d then
                greedy_loop fuel p v {| pi := pi s + 1; vi := vi s + 1; last_star := last_star s;
                                      match_from := match_from s |}
              else backtrack
          | None => backtrack
          end
      end
  end.

(** Enough for every run: see [greedy_loop_total]. *)
Definition scan_fuel (p : list P) (v : list V) : nat :=
  S (S (length v) * S (length p + length v)).

Definition scan_start : Scan := {| pi := 0; vi := 0; last_star := None; match_from := 0 |}.

Definition scan (p : list P) (v : list V) : bool :=
  default false (greedy_loop (scan_fuel p v) p v scan_start).

(** ** What a pattern means *)

Inductive wild : list P -> list V -> Prop :=
  | wild_nil : wild [] []
  | wild_star c p v1 v2 : is_star c = true -> wild p v2 -> wild (c :: p) (v1 ++ v2)
  | wild_one c d p v : is_star c = false -> fits c d = true -> wild p v -> wild (c :: p) (d :: v).
End Greedy.

(** ** Units *)

(** The trait [Unit]. *)
Class Unit (T : Type) `{EqDecision T} : Type := {
  STAR : T;
  QUESTION : T;
  eq_folding_ascii : T -> T -> bool
}.

(** [u8]. *)
#[export] Instance Unit_u8 : Unit ascii := {
  STAR := "*"%char;
  QUESTION := "?"%char;
  eq_folding_ascii a b := Ascii.eqb (to_lower a) (to_lower b)
}.

(** [u16], where only values that are [u8] fold. *)
#[export] Instance Unit_u16 : Unit N := {
  STAR := 42%N;
  QUESTION := 63%N;
  eq_folding_ascii a b :=
    if (a <? 256)%N && (b <? 256)%N then Ascii.eqb (to_lower (ascii_of_N a)) (to_lower (ascii_of_N b))
    else (a =? b)%N
}.

Definition match_units {T : Type} `{Unit T} (p v : list T) (ignore_case : bool) : bool :=
  scan (fun c => bool_decide (c = STAR))
    (fun c d => bool_decide (c = QUESTION) ||
                (if ignore_case then eq_folding_ascii c d else bool_decide (c = d))) p v.

Definition is_ascii_text (s : string) : bool := str_all (fun c => (byte c <? 128)%N) s.

Definition wildcard_match_impl (pattern value : string) (ignore_case : bool) : bool :=
  if is_ascii_text pattern && is_ascii_text value then
    match_units (as_bytes pattern) (as_bytes value) ignore_case
  else match_units (encode_utf16 pattern) (encode_utf16 value) ignore_case.

Definition wildcard_match (pattern value : string) : bool := wildcard_match_impl pattern value false.
Definition wildcard_match_ignore_case (pattern value : string) : bool :=
  wildcard_match_impl pattern value true.

Definition arn_match (pattern value : string) : bool :=
  if String.eqb pattern "*" then true
  else
    let p_fields := str_splitn 6 ":" pattern in
    let v_fields := str_splitn 6 ":" value in
    if negb (length p_fields =? length v_fields) then false
    else forallb (fun pv => wildcard_match pv.1 pv.2) (combine p_fields v_fields).

Definition is_arn (value : string) : bool := length (str_splitn 6 ":" value) =? 6.

(** ** Addresses *)

(** [Ipv4Addr] and [Ipv6Addr] as their [u32] and [u128]. *)
Inductive IpAddr : Type := V4 (a : N) | V6 (a : N).

(** The parser of [std::net]: a reader takes the rest of the text and returns what it
    read and what is left. *)
Definition hex_digit (c : ascii) : option N :=
  let b := byte c in
  if is_digit c then Some (b - 48)%N
  else if (97 <=? b)%N && (b <=? 102)%N then Some (b - 87)%N
  else if (65 <=? b)%N && (b <=? 70)%N then Some (b - 55)%N
  else None.

Definition to_digit (radix : N) (c : ascii) : option N :=
  match hex_digit c with
  | Some d => if (d <? radix)%N then Some d else None
  | None => None
  end.

(** The digits read, as a value and a count, and the rest. *)
Fixpoint read_digits (radix : N) (result : N) (count : nat) (l : list ascii) : N * nat * list ascii :=
  match l with
  | c :: l' =>
      match to_digit radix c with
      | Some d => read_digits radix (result * radix + d) (S count) l'
      | None => (result, count, l)
      end
  | [] => (result, count, [])
  end.

Definition read_number (radix : N) (max_digits : nat) (allow_zero_prefix : bool) (limit : N)
    (l : list ascii) : option (N * list ascii) :=
  let '(result, count, rest) := read_digits radix 0 0 l in
  let has_leading_zero := bool_decide (head l = Some "0"%char) in
  if max_digits <? count then None
  else if count =? 0 then None
  else if negb allow_zero_prefix && has_leading_zero && (1 <? count) then None
  else if (result <? limit)%N then Some (result, rest) else None.

Definition read_separator {A : Type} (sep : ascii) (index : nat)
    (inner : list ascii -> option (A * list ascii)) (l : list ascii) : option (A * list ascii) :=
  if index =? 0 then inner l
  else match l with
       | c :: l' => if Ascii.eqb c sep then inner l' else None
       | [] => None
       end.

(** [n] octets from position [i], packed. *)
Fixpoint read_octets (n i : nat) (acc : N) (l : list ascii) : option (N * list ascii) :=
  match n with
  | O => Some (acc, l)
  | S n =>
      match read_separator "." i (read_number 10 3 false 256) l with
      | Some (o, rest) => read_octets n (S i) (acc * 256 + o) rest
      | None => None
      end
  end.

Definition read_ipv4_addr (l : list ascii) : option (N * list ascii) := read_octets 4 0 0 l.

(** [read_groups]: the groups read, from position [i] of [limit], whether the last two
    came from an IPv4 address, and the rest. *)
Fixpoint read_groups (left i : nat) (l : list ascii) : list N * bool * list ascii :=
  match left with
  | O => ([], false, l)
  | S left' =>
      let ipv4 := if 1 <? left then read_separator ":" i read_ipv4_addr l else None in
      match ipv4 with
      | Some (v4, rest) => ([(v4 / 65536)%N; (v4 mod 65536)%N], true, rest)
      | None =>
          match read_separator ":" i (read_number 16 4 true 65536) l with
          | Some (g, rest) =>
              let '(gs, v4, rest) := read_groups left' (S i) rest in
              (g :: gs, v4, rest)
          | None => ([], false, l)
          end
      end
  end.

Definition pack_groups (gs : list N) : N := fold_left (fun acc g => acc * 65536 + g)%N gs 0%N.

Definition read_ipv6_addr (l : list ascii) : option (N * list ascii) :=
  let '(head, head_ipv4, rest) := read_groups 8 0 l in
  if length head =? 8 then Some (pack_groups head, rest)
  else if head_ipv4 then None
  else
    match rest with
    | c1 :: c2 :: rest =>
        if Ascii.eqb c1 ":" && Ascii.eqb c2 ":" then
          let '(tail, _, rest) := read_groups (8 - (length head + 1)) 0 rest in
          Some (pack_groups (head ++ replicate (8 - length head - length tail) 0%N ++ tail), rest)
        else None
    | _ => None
    end.

Definition read_ip_addr (l : list ascii) : option (IpAddr * list ascii) :=
  match read_ipv4_addr l with
  | Some (a, rest) => Some (V4 a, rest)
  | None =>
      match read_ipv6_addr l with
      | Some (a, rest) => Some (V6 a, rest)
      | None => None
      end
  end.

(** The whole text must be read. *)
Definition parse_with {A : Type} (inner : list ascii -> option (A * list ascii)) (s : string) : option A :=
  match inner (as_bytes s) with
  | Some (a, []) => Some a
  | _ => None
  end.

Definition parse_ip (s : string) : option IpAddr := parse_with read_ip_addr s.
Definition parse_ipv6 (s : string) : option N := parse_with read_ipv6_addr s.

(** [Ipv6Addr::to_ipv4_mapped().is_some()]. *)
Definition is_ipv4_mapped (a : N) : bool := (N.shiftr a 32 =? 65535)%N.

(** [str::parse::<u32>()]. *)
Definition u32_max : N := 4294967295.
Definition parse_u32 (s : string) : option N :=
  let ds := match as_bytes s with c :: l => if Ascii.eqb c "+" then l else c :: l | [] => [] end in
  if bool_decide (ds = []) || negb (forallb is_digit ds) then None
  else let n := digits_val ds in if (n <=? u32_max)%N then Some n else None.

Fixpoint octets_loop (n : nat) (acc : N) (parts : list string) : option N :=
  match n with
  | O => match parts with [] => Some acc | _ => None end
  | S n =>
      match parts with
      | [] => None
      | part :: parts =>
          if is_empty part || negb (str_all is_digit part) then None
          else match parse_u32 part with
               | None => None
               | Some val => if (255 <? val)%N then None else octets_loop n (acc * 256 + val) parts
               end
      end
  end.

Definition parse_ipv4_decimal (s : string) : option N := octets_loop 4 0 (str_split "." s).

Definition parse_network (net_str : string) : option IpAddr :=
  if str_has ":" net_str then
    match parse_ipv6 net_str with
    | Some v6 => if is_ipv4_mapped v6 then None else Some (V6 v6)
    | None => None
    end
  else V4 <$> parse_ipv4_decimal net_str.

Definition split_cidr (cidr : string) : string * option string :=
  match str_split_once "/" cidr with
  | Some (n, p) => (n, Some p)
  | None => (cidr, None)
  end.

Definition width_of (a : IpAddr) : N := match a with V4 _ => 32 | V6 _ => 128 end.

Definition is_valid_cidr (cidr : string) : bool :=
  let '(net_str, prefix_str) := split_cidr cidr in
  match parse_network net_str with
  | None => false
  | Some net =>
      match prefix_str with
      | None => true
      | Some p =>
          match parse_u32 p with
          | Some prefix => (prefix <=? width_of net)%N
          | None => false
          end
      end
  end.

(** [MAX << (width - prefix)] at the width, or 0. *)
Definition mask_of (width prefix : N) : N :=
  if (prefix =? 0)%N then 0 else N.shiftl (N.ones width) (width - prefix) mod 2 ^ width.

Definition in_network (width ip net : N) (prefix_str : option string) : option bool :=
  let prefix := match prefix_str with Some p => parse_u32 p | None => Some width end in
  match prefix with
  | None => None
  | Some prefix =>
      if (width <? prefix)%N then None
      else
        let mask := mask_of width prefix in
        Some (N.land ip mask =? N.land net mask)%N
  end.

Definition ip_in_cidr (cidr addr : string) : option bool :=
  match parse_ip addr with
  | None => None
  | Some ip =>
      let '(net_str, prefix_str) := split_cidr cidr in
      match parse_network net_str with
      | None => None
      | Some net =>
          match ip, net with
          | V4 ip, V4 net => in_network 32 ip net prefix_str
          | V6 ip, V6 net => in_network 128 ip net prefix_str
          | _, _ => None
          end
      end
  end.

(** ** UTF-8 *)

(** [char::encode_utf8], and the texts that are a sequence of characters. *)
Definition encode_utf8_char (c : N) : list ascii :=
  map ascii_of_N
    (if c <? 128 then [c]
     else if c <? 2048 then [192 + c / 64; 128 + c mod 64]
     else if c <? 65536 then [224 + c / 4096; 128 + (c / 64) mod 64; 128 + c mod 64]
     else [240 + c / 262144; 128 + (c / 4096) mod 64; 128 + (c / 64) mod 64; 128 + c mod 64])%N.

Definition text_of_chars (s : string) (cs : list N) : Prop :=
  Forall (fun c => c < 1114112)%N cs /\ as_bytes s = flat_map encode_utf8_char cs.

Lemma byte_of_N n : (n < 256)%N -> byte (ascii_of_N n) = n.
Proof. intros Hn. unfold byte. by apply N_ascii_embedding. Qed.

Lemma cont_bits_of n : cont_bits (ascii_of_N (128 + n mod 64)) = (n mod 64)%N.
Proof.
  unfold cont_bits. pose proof (N.mod_lt n 64 ltac:(done)).
  rewrite byte_of_N by lia. rewrite N.Div0.add_mod, N.Div0.mod_mod. change (128 mod 64)%N with 0%N.
  by rewrite N.add_0_l, N.Div0.mod_mod.
Qed.

Lemma lead_bits base k b :
  (base mod k = 0)%N -> (b < k)%N -> (base + k <= 256)%N -> (byte (ascii_of_N (base + b)) mod k = b)%N.
Proof.
  intros Hm Hb Hk. rewrite byte_of_N by lia.
  rewrite N.Div0.add_mod, Hm, N.add_0_l, N.Div0.mod_mod. by apply N.mod_small.
Qed.

Lemma chars_of_cons c l :
  (c < 1114112)%N -> chars_of (encode_utf8_char c ++ l) = c :: chars_of l.
Proof.
  intros Hc. unfold encode_utf8_char.
  pose proof (N.div_mod c 64 ltac:(done)) as E1. pose proof (N.div_mod (c / 64) 64 ltac:(done)) as E2.
  pose proof (N.div_mod (c / 4096) 64 ltac:(done)) as E3.
  rewrite N.Div0.div_div in E2, E3. change (64 * 64)%N with 4096%N in E2. change (4096 * 64)%N with 262144%N in E3.
  destruct (N.ltb_spec c 128); [|destruct (N.ltb_spec c 2048); [|destruct (N.ltb_spec c 65536)]];
    cbn [map app chars_of]; rewrite ?cont_bits_of;
    set (r0 := (c mod 64)%N) in *; set (r1 := ((c / 64) mod 64)%N) in *; set (r2 := ((c / 4096) mod 64)%N) in *;
    set (q1 := (c / 64)%N) in *; set (q2 := (c / 4096)%N) in *; set (q3 := (c / 262144)%N) in *;
    clearbody r0 r1 r2 q1 q2 q3.
  - rewrite byte_of_N by lia. by rewrite (proj2 (N.ltb_lt _ _)).
  - rewrite (lead_bits 192 32), byte_of_N by done || lia.
    rewrite (proj2 (N.ltb_ge (192 + q1) 128)), (proj2 (N.ltb_lt (192 + q1) 224)) by lia. f_equal. lia.
  - rewrite (lead_bits 224 16), byte_of_N by done || lia.
    rewrite (proj2 (N.ltb_ge (224 + q2) 128)), (proj2 (N.ltb_ge (224 + q2) 224)) by lia.
    rewrite (proj2 (N.ltb_lt (224 + q2) 240)) by lia. f_equal. lia.
  - rewrite (lead_bits 240 8), byte_of_N by done || lia.
    rewrite (proj2 (N.ltb_ge (240 + q3) 128)), (proj2 (N.ltb_ge (240 + q3) 224)) by lia.
    rewrite (proj2 (N.ltb_ge (240 + q3) 240)) by lia. f_equal. lia.
Qed.

(** Decoding a text gives its characters. *)
Lemma chars_of_text s cs : text_of_chars s cs -> chars_of (as_bytes s) = cs.
Proof.
  intros [Hf ->]. induction Hf as [|c cs Hc Hf IH]; [done|]. simpl. by rewrite chars_of_cons, IH.
Qed.

(** ** The loop decides the meaning *)

Section GreedyCorrect.
Context {P V : Type} (is_star : P -> bool) (fits : P -> V -> bool).
Notation wild := (wild is_star fits).
Notation greedy_loop := (greedy_loop is_star fits).
Implicit Types (p : list P) (v : list V) (s : Scan).

Lemma wild_one_iff c p d v :
  is_star c = false -> wild (c :: p) (d :: v) <-> fits c d = true /\ wild p v.
Proof.
  intros Hc. split; [|intros [Hf Hw]; by apply wild_one].
  intros H. inversion H; subst; [congruence|done].
Qed.

Lemma wild_star_iff c p v :
  is_star c = true -> wild (c :: p) v <-> exists k, k <= length v /\ wild p (drop k v).
Proof.
  intros Hc. split.
  - intros H. inversion H as [|? ? v1 v2 _ Hw|]; subst; [|congruence].
    exists (length v1). rewrite length_app, drop_app_length. split; [lia|done].
  - intros (k & _ & Hw). rewrite <- (take_drop k v). by apply wild_star.
Qed.

Lemma wild_no_pattern v : wild [] v <-> v = [].
Proof. split; [by inversion 1|intros ->; constructor]. Qed.

(** A star takes more when it can take less. *)
Lemma wild_star_more c p v k : is_star c = true -> wild (c :: p) (drop k v) -> wild (c :: p) v.
Proof. intros Hc Hw. inversion Hw; subst; [|congruence]. rewrite <- (take_drop k v), <- H1, app_assoc. by constructor. Qed.

(** A segment without stars takes as many units as it has. *)
Lemma wild_segment seg p v :
  Forall (fun c => is_star c = false) seg -> wild (seg ++ p) v ->
  length seg <= length v /\ wild p (drop (length seg) v).
Proof.
  intros Hseg. revert v. induction Hseg as [|c seg Hc Hseg IH]; intros v Hw; simpl in *; [split; [lia|done]|].
  inversion Hw; subst; [congruence|]. destruct (IH v0) as [Hl Hw']; [done|]. simpl. split; [lia|done].
Qed.

Lemma skip_stars_spec p : skip_stars is_star p = [] <-> wild p [].
Proof.
  induction p as [|c p IH]; simpl; [split; [constructor|done]|].
  destruct (is_star c) eqn:Hc.
  - rewrite IH, wild_star_iff by done. split; [intros H; by exists 0|intros (k & _ & H); by rewrite drop_nil in H].
  - split; [done|]. intros H. inversion H; subst; [congruence].
Qed.

(** What is left to match in a state: the rest of the pattern against the rest of the
    value, or the pattern after the last star against a later suffix. *)
Definition later p v s : Prop :=
  exists star k, last_star s = Some star /\ match_from s < k <= length v /\ wild (drop star p) (drop k v).

Definition remains p v s : Prop := wild (drop (pi s) p) (drop (vi s) v) \/ later p v s.

(** Since the last star the pattern has none, and each unit of it took one. *)
Record scan_wf p v s : Prop := {
  wf_pi : pi s <= length p;
  wf_vi : vi s <= length v;
  wf_from : match_from s <= vi s;
  wf_seg : forall star, last_star s = Some star ->
    star <= pi s /\ pi s - star = vi s - match_from s /\
    Forall (fun c => is_star c = false) (take (pi s - star) (drop star p))
}.

Lemma wf_later_seg p v s star k :
  scan_wf p v s -> last_star s = Some star -> wild (drop star p) (drop k v) ->
  k + (vi s - match_from s) <= max k (length v) /\
  wild (drop (pi s) p) (drop (k + (vi s - match_from s)) v).
Proof.
  intros Hwf Hs Hw. destruct (wf_seg _ _ _ Hwf star Hs) as (Hle & Hd & Hf).
  rewrite <- (take_drop (pi s - star) (drop star p)) in Hw.
  apply wild_segment in Hw as [Hl Hw]; [|done].
  assert (length (take (pi s - star) (drop star p)) = pi s - star) as El.
  { rewrite length_take, length_drop. pose proof (wf_pi _ _ _ Hwf). lia. }
  rewrite El, !drop_drop, length_drop in *. replace (star + (pi s - star)) with (pi s) in Hw by lia.
  rewrite <- Hd. split; [lia|]. done.
Qed.

Definition at_star s : Scan :=
  {| pi := pi s + 1; vi := vi s; last_star := Some (pi s + 1); match_from := vi s |}.
Definition at_unit s : Scan :=
  {| pi := pi s + 1; vi := vi s + 1; last_star := last_star s; match_from := match_from s |}.
Definition at_back s star : Scan :=
  {| pi := star; vi := match_from s + 1; last_star := Some star; match_from := match_from s + 1 |}.

Lemma at_star_step p v s c :
  scan_wf p v s -> p !! pi s = Some c -> is_star c = true ->
  scan_wf p v (at_star s) /\ (remains p v (at_star s) <-> remains p v s).
Proof.
  intros Hwf Hp Hc. pose proof (lookup_lt_Some _ _ _ Hp) as Hlt.
  pose proof (wf_vi _ _ _ Hwf) as Hvi. split.
  { split; simpl; [lia|done|lia|]. intros star [= <-]. rewrite !Nat.sub_diag. by repeat split. }
  assert (remains p v (at_star s) <-> wild (drop (pi s) p) (drop (vi s) v)) as ->.
  { rewrite (drop_S _ _ _ Hp), wild_star_iff by done. unfold remains, later. simpl.
    rewrite Nat.add_1_r, length_drop. split.
    - intros [Hw|(star & k & [= <-] & Hk & Hw)].
      + exists 0. split; [lia|done].
      + exists (k - vi s). rewrite drop_drop. replace (vi s + (k - vi s)) with k by lia. split; [lia|done].
    - intros ([|k] & Hk & Hw); [left; by rewrite drop_0 in Hw|right].
      exists (S (pi s)), (vi s + S k). rewrite <- drop_drop. split; [done|]. split; [lia|done]. }
  unfold remains. split; [by left|]. intros [Hw|(star & k & Hs & Hk & Hw)]; [done|].
  destruct (wf_later_seg _ _ _ _ _ Hwf Hs Hw) as [_ Hw']. rewrite (drop_S _ _ _ Hp) in *.
  pose proof (wf_from _ _ _ Hwf). replace (k + (vi s - match_from s)) with (vi s + (k - match_from s)) in Hw' by lia.
  rewrite <- drop_drop in Hw'. by eapply wild_star_more.
Qed.

Lemma at_unit_step p v s c d :
  scan_wf p v s -> p !! pi s = Some c -> v !! vi s = Some d -> is_star c = false -> fits c d = true ->
  scan_wf p v (at_unit s) /\ (remains p v (at_unit s) <-> remains p v s).
Proof.
  intros Hwf Hp Hv Hc Hf. pose proof (lookup_lt_Some _ _ _ Hp). pose proof (lookup_lt_Some _ _ _ Hv).
  pose proof (wf_from _ _ _ Hwf). split.
  - split; simpl; [lia|lia|lia|]. intros star Hs. destruct (wf_seg _ _ _ Hwf star Hs) as (Hle & Hd & Hseg).
    split; [lia|]. split; [lia|]. replace (pi s + 1 - star) with (S (pi s - star)) by lia.
    rewrite (take_S_r _ _ c); [apply Forall_app; auto|].
    rewrite lookup_drop. by replace (star + (pi s - star)) with (pi s) by lia.
  - unfold remains, later. simpl. rewrite !Nat.add_1_r, (drop_S _ _ _ Hp), (drop_S _ _ _ Hv).
    by rewrite wild_one_iff by done; naive_solver.
Qed.

(** The current attempt is lost. *)
Definition stuck p v s : Prop := ~ wild (drop (pi s) p) (drop (vi s) v).

Lemma at_back_step p v s star :
  scan_wf p v s -> vi s < length v -> last_star s = Some star -> stuck p v s ->
  scan_wf p v (at_back s star) /\ (remains p v (at_back s star) <-> remains p v s).
Proof.
  intros Hwf Hv Hs Hst. pose proof (wf_from _ _ _ Hwf). pose proof (wf_pi _ _ _ Hwf).
  destruct (wf_seg _ _ _ Hwf star Hs) as (Hle & _). split.
  - split; simpl; [lia|lia|lia|]. intros ? [= <-]. rewrite !Nat.sub_diag. by repeat split.
  - unfold remains at 2. unfold stuck in Hst. split.
    + intros [Hw|(? & k & [= <-] & Hk & Hw)]; right; exists star; simpl in *.
      * exists (match_from s + 1). split; [done|]. split; [lia|done].
      * exists k. split; [done|]. split; [lia|done].
    + intros [|(star' & k & Hs' & Hk & Hw)]; [done|]. assert (star' = star) as -> by congruence.
      destruct (decide (k = match_from s + 1)) as [->|Hne]; [by left|right].
      exists star, k. simpl. split; [done|]. split; [lia|done].
Qed.

Lemma stuck_mismatch p v s c d :
  p !! pi s = Some c -> v !! vi s = Some d -> is_star c = false -> fits c d = false -> stuck p v s.
Proof.
  intros Hp Hv Hc Hf Hw. rewrite (drop_S _ _ _ Hp), (drop_S _ _ _ Hv), wild_one_iff in Hw by done.
  destruct Hw. congruence.
Qed.

Lemma stuck_end p v s d : p !! pi s = None -> v !! vi s = Some d -> stuck p v s.
Proof.
  intros Hp%lookup_ge_None Hv Hw. rewrite (drop_ge _ _ Hp), (drop_S _ _ _ Hv), wild_no_pattern in Hw. done.
Qed.

(** At the end of the value no later suffix is long enough. *)
Lemma remains_end p v s :
  scan_wf p v s -> v !! vi s = None -> remains p v s <-> skip_stars is_star (drop (pi s) p) = [].
Proof.
  intros Hwf Hv%lookup_ge_None. rewrite skip_stars_spec. unfold remains.
  rewrite (drop_ge _ _ Hv). split; [|by left]. intros [Hw|(star & k & Hs & Hk & Hw)]; [done|].
  destruct (wf_later_seg _ _ _ _ _ Hwf Hs Hw) as [Hl _]. pose proof (wf_from _ _ _ Hwf).
  pose proof (wf_vi _ _ _ Hwf). lia.
Qed.

(** Each round shortens what is left, or moves the last star's start. *)
Definition scan_measure p v s : nat :=
  (length v - match_from s) * S (length p + length v) + (length p - pi s) + (length v - vi s).

Lemma at_star_measure p v s :
  scan_wf p v s -> pi s < length p -> scan_measure p v (at_star s) < scan_measure p v s.
Proof.
  intros Hwf Hp. pose proof (wf_from _ _ _ Hwf). unfold scan_measure. simpl.
  assert ((length v - vi s) * S (length p + length v) <= (length v - match_from s) * S (length p + length v))
    by (apply Nat.mul_le_mono_r; lia). lia.
Qed.

Lemma at_back_measure p v s star :
  scan_wf p v s -> vi s < length v -> scan_measure p v (at_back s star) < scan_measure p v s.
Proof.
  intros Hwf Hv. pose proof (wf_from _ _ _ Hwf). unfold scan_measure. simpl.
  replace (length v - match_from s) with (S (length v - (match_from s + 1))) by lia.
  rewrite Nat.mul_succ_l. lia.
Qed.

Lemma answer_iff (r : option bool) (A B : Prop) :
  (exists b, r = Some b /\ (b = true <-> A)) -> (A <-> B) -> exists b, r = Some b /\ (b = true <-> B).
Proof. intros (b & E & H) HAB. exists b. by rewrite H. Qed.

Lemma greedy_loop_spec fuel p v s :
  scan_wf p v s -> scan_measure p v s < fuel ->
  exists b, greedy_loop fuel p v s = Some b /\ (b = true <-> remains p v s).
Proof.
  revert s. induction fuel as [|fuel IH]; intros s Hwf Hm; [lia|]. cbn [PolicyMatcher.greedy_loop].
  destruct (v !! vi s) as [d|] eqn:Hv.
  2:{ eexists. split; [done|]. rewrite bool_decide_eq_true. symmetry. by apply remains_end. }
  pose proof (lookup_lt_Some _ _ _ Hv) as Hlv.
  assert (forall Hst : stuck p v s, exists b,
    match last_star s with
    | Some star => greedy_loop fuel p v (at_back s star)
    | None => Some false
    end = Some b /\ (b = true <-> remains p v s)) as Hback.
  { intros Hst. destruct (last_star s) as [star|] eqn:Hs.
    - destruct (at_back_step p v s star Hwf Hlv Hs Hst) as [Hwf' Hr].
      apply (answer_iff _ _ _ (IH _ Hwf' ltac:(pose proof (at_back_measure p v s star Hwf Hlv); lia)) Hr).
    - exists false. split; [done|]. split; [done|]. unfold remains, later.
      intros [|(? & ? & ? & _)]; [done|congruence]. }
  destruct (p !! pi s) as [c|] eqn:Hp; [|by eapply Hback, stuck_end].
  pose proof (lookup_lt_Some _ _ _ Hp) as Hlp.
  destruct (is_star c) eqn:Hc; [|destruct (fits c d) eqn:Hf; [|by eapply Hback, stuck_mismatch]].
  - destruct (at_star_step p v s c Hwf Hp Hc) as [Hwf' Hr].
    apply (answer_iff _ _ _ (IH _ Hwf' ltac:(pose proof (at_star_measure p v s Hwf Hlp); lia)) Hr).
  - destruct (at_unit_step p v s c d Hwf Hp Hv Hc Hf) as [Hwf' Hr].
    apply (answer_iff _ _ _ (IH _ Hwf' ltac:(unfold scan_measure in *; simpl; lia)) Hr).
Qed.

(** The loop ends, and says whether the pattern matches. *)
Lemma scan_spec p v :
  greedy_loop (scan_fuel p v) p v scan_start <> None /\
  (scan is_star fits p v = true <-> wild p v).
Proof.
  destruct (greedy_loop_spec (scan_fuel p v) p v scan_start) as (b & E & Hb).
  - split; simpl; [lia|lia|lia|done].
  - unfold scan_measure, scan_fuel. simpl. lia.
  - unfold scan. rewrite E. split; [done|]. simpl. rewrite Hb. unfold remains, later. simpl.
    rewrite !drop_0. naive_solver.
Qed.
End GreedyCorrect.

(** ** ASCII texts are matched as UTF-16 *)

Section Renamed.
Context {P V P' V' : Type} (f : P -> P') (g : V -> V').
Context (is_star : P -> bool) (fits : P -> V -> bool) (is_star' : P' -> bool) (fits' : P' -> V' -> bool).
Hypothesis Hstar : forall c, is_star' (f c) = is_star c.
Hypothesis Hfits : forall c d, is_star c = false -> fits' (f c) (g d) = fits c d.

Lemma skip_stars_map p : skip_stars is_star' (f <$> p) = f <$> skip_stars is_star p.
Proof. induction p as [|c p IH]; simpl; [done|]. rewrite Hstar. by destruct (is_star c). Qed.

Lemma greedy_loop_map fuel p v s :
  greedy_loop is_star' fits' fuel (f <$> p) (g <$> v) s = greedy_loop is_star fits fuel p v s.
Proof.
  revert s. induction fuel as [|fuel IH]; intros s; [done|]. cbn [greedy_loop].
  rewrite !list_lookup_fmap, <- fmap_drop, skip_stars_map.
  destruct (v !! vi s) as [d|]; simpl.
  2:{ f_equal. apply bool_decide_ext. by destruct (skip_stars is_star _). }
  destruct (p !! pi s) as [c|]; simpl; rewrite ?Hstar, ?IH; [|by destruct (last_star s)].
  destruct (is_star c) eqn:E; [done|]. rewrite (Hfits c d E). destruct (fits c d); [done|]. by destruct (last_star s).
Qed.

Lemma scan_map p v : scan is_star' fits' (f <$> p) (g <$> v) = scan is_star fits p v.
Proof.
  unfold scan. by rewrite greedy_loop_map; unfold scan_fuel; rewrite !length_fmap.
Qed.
End Renamed.

Lemma chars_of_ascii l : forallb (fun c => (byte c <? 128)%N) l = true -> chars_of l = map byte l.
Proof.
  induction l as [|c l IH]; simpl; [done|]. intros [Hc Hl]%andb_prop. by rewrite Hc, IH.
Qed.

Lemma encode_utf16_ascii s : is_ascii_text s = true -> encode_utf16 s = map byte (as_bytes s).
Proof.
  unfold is_ascii_text, encode_utf16. rewrite str_all_bytes. intros H. rewrite (chars_of_ascii _ H).
  induction (as_bytes s) as [|c l IH]; [done|]. simpl in *. apply andb_prop in H as [Hc%N.ltb_lt Hl].
  rewrite (IH Hl). unfold utf16_units. by rewrite (proj2 (N.ltb_lt (byte c) 65536)) by lia.
Qed.

Lemma byte_lt c : (byte c < 256)%N.
Proof. apply N_ascii_bounded. Qed.

Lemma byte_eq_iff c d : byte c = byte d <-> c = d.
Proof. split; [|by intros ->]. intros H%(f_equal ascii_of_N). by rewrite !ascii_N_embedding in H. Qed.

Lemma match_units_ascii p v ic : match_units (T := N) (byte <$> p) (byte <$> v) ic = match_units p v ic.
Proof.
  unfold match_units. apply scan_map.
  - intros c. apply bool_decide_ext. exact (byte_eq_iff c "*").
  - intros c d _. f_equal; [apply bool_decide_ext; exact (byte_eq_iff c "?")|].
    destruct ic; [|apply bool_decide_ext, byte_eq_iff]. simpl.
    pose proof (byte_lt c). pose proof (byte_lt d). rewrite !(proj2 (N.ltb_lt _ _)) by done.
    unfold byte. by rewrite !ascii_N_embedding.
Qed.

Lemma wildcard_match_utf16 pattern value ic :
  wildcard_match_impl pattern value ic = match_units (encode_utf16 pattern) (encode_utf16 value) ic.
Proof.
  unfold wildcard_match_impl. destruct (is_ascii_text pattern && is_ascii_text value) eqn:E; [|done].
  apply andb_prop in E as [Ep Ev]. rewrite (encode_utf16_ascii _ Ep), (encode_utf16_ascii _ Ev).
  by rewrite <- match_units_ascii.
Qed.

Definition is_wild (c : N) : bool := bool_decide (c = 42%N).

(** What one unit of a pattern accepts. *)
Definition unit_fits (ignore_case : bool) (c d : N) : bool :=
  bool_decide (c = 63%N) || (if ignore_case then eq_folding_ascii c d else bool_decide (c = d)).

(** C21. The wildcard matcher ends on every pattern and value and decides the meaning of
    the pattern over UTF-16 code units: a star stands for any sequence of units, a
    question mark for one unit, and any other unit for itself, case folded for
    actions.  The byte loop of ASCII texts gives the same answer. *)
Theorem wildcard_match_spec pattern value ic :
  (greedy_loop is_wild (unit_fits ic) (scan_fuel (encode_utf16 pattern) (encode_utf16 value))
     (encode_utf16 pattern) (encode_utf16 value) scan_start <> None) /\
  (wildcard_match_impl pattern value ic = true <->
   wild is_wild (unit_fits ic) (encode_utf16 pattern) (encode_utf16 value)).
Proof.
  destruct (scan_spec is_wild (unit_fits ic) (encode_utf16 pattern) (encode_utf16 value)) as [Ht Hw].
  split; [exact Ht|]. by rewrite <- Hw, wildcard_match_utf16.
Qed.

Lemma combine_forallb {A B : Type} (f : A -> B -> bool) (l : list A) (k : list B) :
  length l = length k ->
  forallb (fun pv => f pv.1 pv.2) (combine l k) = true <-> Forall2 (fun a b => f a b = true) l k.
Proof.
  revert k. induction l as [|a l IH]; intros [|b k] Hl; try done; simpl in *.
  rewrite andb_true_iff, IH by lia. split; [intros [? ?]; by constructor|by inversion 1].
Qed.

(** An ARN pattern matches field by field, the sixth field being the whole resource. *)
Theorem arn_match_spec pattern value :
  arn_match pattern value = true <->
  pattern = "*" \/ Forall2 (fun p v => wildcard_match p v = true) (str_splitn 6 ":" pattern) (str_splitn 6 ":" value).
Proof.
  unfold arn_match. destruct (String.eqb_spec pattern "*") as [->|Hne]; [naive_solver|].
  destruct (Nat.eqb_spec (length (str_splitn 6 ":" pattern)) (length (str_splitn 6 ":" value))) as [El|El].
  - simpl. rewrite combine_forallb by done. naive_solver.
  - simpl. split; [done|]. intros [|H]; [done|]. by apply Forall2_length in H.
Qed.

(** ** Networks *)

Lemma mask_of_bit w p i :
  (p <= w)%N -> N.testbit (mask_of w p) i = (w - p <=? i)%N && (i <? w)%N.
Proof.
  intros Hp. unfold mask_of. destruct (N.eqb_spec p 0) as [->|Hp0].
  { rewrite N.bits_0. destruct (N.leb_spec (w - 0) i), (N.ltb_spec i w); try done. lia. }
  destruct (N.ltb_spec i w) as [Hi|Hi]; [|rewrite andb_false_r; by apply N.mod_pow2_bits_high].
  rewrite N.mod_pow2_bits_low, andb_true_r by done. destruct (N.leb_spec (w - p) i) as [Hl|Hl].
  - rewrite N.shiftl_spec_high' by done. apply N.ones_spec_low. lia.
  - by apply N.shiftl_spec_low.
Qed.

Lemma bit_high w a i : (a < 2 ^ w)%N -> (w <= i)%N -> N.testbit a i = false.
Proof.
  intros Ha Hi. destruct (decide (a = 0%N)) as [->|H0]; [apply N.bits_0|].
  apply N.bits_above_log2, N.log2_lt_pow2; [lia|].
  eapply N.lt_le_trans; [exact Ha|]. by apply N.pow_le_mono_r.
Qed.

(** Two addresses agree under the mask when their first [p] bits agree. *)
Lemma mask_agree w p a b :
  (p <= w)%N -> (a < 2 ^ w)%N -> (b < 2 ^ w)%N ->
  N.land a (mask_of w p) = N.land b (mask_of w p) <-> N.shiftr a (w - p) = N.shiftr b (w - p).
Proof.
  intros Hp Ha Hb. split; intros H; apply N.bits_inj; intros i.
  - rewrite !N.shiftr_spec'. destruct (N.lt_ge_cases (i + (w - p)) w) as [Hi|Hi].
    + apply (f_equal (fun n => N.testbit n (i + (w - p)))) in H.
      rewrite !N.land_spec, !mask_of_bit in H by done.
      rewrite (proj2 (N.leb_le _ _)), (proj2 (N.ltb_lt _ _)), !andb_true_r in H by lia. done.
    + by rewrite !(bit_high w) by done.
  - rewrite !N.land_spec, mask_of_bit by done. destruct (N.leb_spec (w - p) i) as [Hl|Hl].
    + apply (f_equal (fun n => N.testbit n (i - (w - p)))) in H. rewrite !N.shiftr_spec' in H.
      replace (i - (w - p) + (w - p))%N with i in H by lia. by rewrite H.
    + by rewrite !andb_false_r.
Qed.

Lemma read_number_bound radix m z limit l n rest :
  read_number radix m z limit l = Some (n, rest) -> (n < limit)%N.
Proof.
  unfold read_number. destruct (read_digits radix 0 0 l) as [[r c] rest'].
  repeat (case_match; try done). intros [= <- _]. by apply N.ltb_lt.
Qed.

Lemma read_separator_inv {A : Type} sep i (inner : list ascii -> option (A * list ascii)) l r :
  read_separator sep i inner l = Some r -> exists l', inner l' = Some r.
Proof.
  unfold read_separator. destruct (i =? 0); [eauto|]. destruct l as [|c l]; [done|].
  destruct (Ascii.eqb c sep); [eauto|done].
Qed.

(** One more digit of base [b]. *)
Lemma digit_bound a acc d b n :
  (d < b)%N -> (a < (acc * b + d + 1) * b ^ N.of_nat n)%N -> (a < (acc + 1) * b ^ N.of_nat (S n))%N.
Proof.
  intros Hd Ha. eapply N.lt_le_trans; [exact Ha|].
  rewrite Nat2N.inj_succ, N.pow_succ_r', N.mul_assoc. apply N.mul_le_mono_r. lia.
Qed.

Lemma read_octets_bound n i acc l a rest :
  read_octets n i acc l = Some (a, rest) -> (a < (acc + 1) * 256 ^ N.of_nat n)%N.
Proof.
  revert i acc l. induction n as [|n IH]; intros i acc l; simpl.
  { intros [= <- _]. change (256 ^ 0)%N with 1%N. lia. }
  destruct (read_separator _ _ _ _) as [[o rest']|] eqn:E; [|done].
  apply read_separator_inv in E as [l' E%read_number_bound]. intros Ha%IH.
  eapply (digit_bound a acc); [|exact Ha]. lia.
Qed.

Lemma read_groups_bound left i l gs b rest :
  read_groups left i l = (gs, b, rest) -> Forall (fun g => (g < 65536)%N) gs /\ length gs <= left.
Proof.
  revert i l gs b rest. induction left as [|left IH]; intros i l gs b rest; cbn [read_groups].
  { intros [= <- _ _]. split; [constructor|done]. }
  destruct (if 1 <? S left then _ else _) as [[v4 r]|] eqn:E4.
  - intros [= <- _ _]. destruct (Nat.ltb_spec 1 (S left)) as [Hl|]; [|done].
    apply read_separator_inv in E4 as [l' E4%read_octets_bound]. split; [|simpl; lia].
    constructor; [apply N.Div0.div_lt_upper_bound; exact E4|].
    constructor; [by apply N.mod_lt|constructor].
  - destruct (read_separator ":" i (read_number 16 4 true 65536) l) as [[g r]|] eqn:Eg.
    + destruct (read_groups left (S i) r) as [[gs' b'] r'] eqn:Er. intros [= <- _ _].
      destruct (IH _ _ _ _ _ Er) as [Hf Hl]. apply read_separator_inv in Eg as [l' Eg%read_number_bound].
      split; [by constructor|simpl; lia].
    + intros [= <- _ _]. split; [constructor|simpl; lia].
Qed.

Lemma pack_groups_bound gs acc :
  Forall (fun g => (g < 65536)%N) gs ->
  (fold_left (fun acc g => acc * 65536 + g)%N gs acc < (acc + 1) * 65536 ^ N.of_nat (length gs))%N.
Proof.
  intros H. revert acc. induction H as [|g gs Hg H IH]; intros acc; simpl.
  { change (65536 ^ 0)%N with 1%N. lia. }
  by eapply (digit_bound _ acc), IH.
Qed.

Lemma read_ipv6_bound l a rest : read_ipv6_addr l = Some (a, rest) -> (a < 2 ^ 128)%N.
Proof.
  unfold read_ipv6_addr, pack_groups. destruct (read_groups 8 0 l) as [[hd v4] r] eqn:Eh.
  destruct (read_groups_bound _ _ _ _ _ _ Eh) as [Hh Lh].
  destruct (Nat.eqb_spec (length hd) 8) as [E8|E8].
  - intros [= <- _]. pose proof (pack_groups_bound hd 0 Hh) as H. rewrite E8 in H. exact H.
  - destruct v4; [done|]. destruct r as [|c1 [|c2 r]]; [done|done|].
    destruct (_ && _); [|done].
    destruct (read_groups (8 - (length hd + 1)) 0 r) as [[tl b] r'] eqn:Et.
    destruct (read_groups_bound _ _ _ _ _ _ Et) as [Ht Lt]. intros [= <- _].
    set (gs := hd ++ replicate (8 - length hd - length tl) 0%N ++ tl).
    assert (Forall (fun g => (g < 65536)%N) gs) as Hgs.
    { apply Forall_app. split; [done|]. apply Forall_app. split; [|done]. by apply Forall_replicate. }
    assert (length gs = 8) as Lg by (unfold gs; rewrite !length_app, length_replicate; lia).
    pose proof (pack_groups_bound gs 0 Hgs) as H. rewrite Lg in H. exact H.
Qed.

Definition address (a : IpAddr) : N := match a with V4 n | V6 n => n end.

Lemma parse_with_inv {A : Type} (inner : list ascii -> option (A * list ascii)) s a :
  parse_with inner s = Some a -> inner (as_bytes s) = Some (a, []).
Proof. unfold parse_with. destruct (inner (as_bytes s)) as [[x [|]]|]; naive_solver. Qed.

Lemma parse_ip_bound s a : parse_ip s = Some a -> (address a < 2 ^ width_of a)%N.
Proof.
  intros H%parse_with_inv. unfold read_ip_addr in H.
  destruct (read_ipv4_addr (as_bytes s)) as [[n r]|] eqn:E4.
  - injection H as <- _. apply read_octets_bound in E4. exact E4.
  - destruct (read_ipv6_addr (as_bytes s)) as [[n r]|] eqn:E6; [|done].
    injection H as <- _. by apply read_ipv6_bound in E6.
Qed.

Lemma octets_loop_bound n acc parts a :
  octets_loop n acc parts = Some a -> (a < (acc + 1) * 256 ^ N.of_nat n)%N.
Proof.
  revert acc parts. induction n as [|n IH]; intros acc parts; simpl.
  { destruct parts; [|done]. intros [= <-]. change (256 ^ 0)%N with 1%N. lia. }
  destruct parts as [|part parts]; [done|]. destruct (_ || _); [done|].
  destruct (parse_u32 part) as [x|]; [|done]. destruct (N.ltb_spec 255 x); [done|]. intros Ha%IH.
  eapply (digit_bound a acc); [|exact Ha]. lia.
Qed.

Lemma parse_network_bound s a : parse_network s = Some a -> (address a < 2 ^ width_of a)%N.
Proof.
  unfold parse_network. destruct (str_has ":" s).
  - destruct (parse_ipv6 s) as [v6|] eqn:E; [|done]. destruct (is_ipv4_mapped v6); [done|].
    intros [= <-]. apply parse_with_inv, read_ipv6_bound in E. exact E.
  - destruct (parse_ipv4_decimal s) as [v4|] eqn:E; [|done]. intros [= <-].
    apply octets_loop_bound in E. exact E.
Qed.

(** The network and the prefix length a CIDR text names. *)
Definition network_of (cidr : string) : option (IpAddr * N) :=
  let '(net_str, prefix_str) := split_cidr cidr in
  match parse_network net_str with
  | None => None
  | Some net =>
      match (match prefix_str with Some p => parse_u32 p | None => Some (width_of net) end) with
      | Some prefix => if (prefix <=? width_of net)%N then Some (net, prefix) else None
      | None => None
      end
  end.

Definition same_family (a b : IpAddr) : bool := (width_of a =? width_of b)%N.

Lemma in_network_spec ip net prefix_str :
  (address ip < 2 ^ width_of ip)%N -> (address net < 2 ^ width_of net)%N ->
  (if same_family ip net then in_network (width_of net) (address ip) (address net) prefix_str else None) =
  match
    match (match prefix_str with Some p => parse_u32 p | None => Some (width_of net) end) with
    | Some prefix => if (prefix <=? width_of net)%N then Some (net, prefix) else None
    | None => None
    end
  with
  | Some (net, prefix) =>
      if same_family ip net then
        Some (N.shiftr (address ip) (width_of net - prefix) =?
              N.shiftr (address net) (width_of net - prefix))%N
      else None
  | None => None
  end.
Proof.
  intros Hi Hn. unfold in_network. destruct (match prefix_str with Some _ => _ | None => _ end) as [n|].
  2:{ by destruct (same_family ip net). }
  rewrite N.ltb_antisym. destruct (N.leb_spec n (width_of net)) as [Hl|Hl]; simpl; [|by destruct (same_family ip net)].
  destruct (same_family ip net) eqn:E; [|done]. apply N.eqb_eq in E. rewrite E in Hi. f_equal.
  apply eq_true_iff_eq. rewrite !N.eqb_eq. by apply mask_agree.
Qed.

(** A text accepted as a CIDR names a network, and an address of the same family is
    inside it exactly when its leading bits, as many as the prefix says, are those of
    the network.  An address of the other family, or a text that names no network,
    gives no answer, so neither the positive nor the negative operator applies. *)
Theorem ip_in_cidr_spec cidr addr :
  is_valid_cidr cidr = is_some (network_of cidr) /\
  ip_in_cidr cidr addr =
    match parse_ip addr, network_of cidr with
    | Some ip, Some (net, prefix) =>
        if same_family ip net then
          Some (N.shiftr (address ip) (width_of net - prefix) =?
                N.shiftr (address net) (width_of net - prefix))%N
        else None
    | _, _ => None
    end.
Proof.
  unfold is_valid_cidr, ip_in_cidr, network_of. destruct (split_cidr cidr) as [net_str prefix_str].
  destruct (parse_network net_str) as [net|] eqn:En; [|by destruct (parse_ip addr)].
  split.
  { destruct prefix_str as [p|]; [destruct (parse_u32 p) as [n|]|].
    - by destruct (n <=? width_of net)%N.
    - done.
    - by rewrite N.leb_refl. }
  destruct (parse_ip addr) as [ip|] eqn:Ei; [|done].
  rewrite <- in_network_spec by eauto using parse_ip_bound, parse_network_bound.
  by destruct ip, net.
Qed.

