(* ===== verification/SqliteFragment.v ===== *)
(** * Key condition fragments

    What the WHERE fragments of [crates/storage-sqlite/src/data/query.rs] select: the
    comparison of a stored column with a bound is the comparison of the values, the
    upper bound of a binary prefix is exact, and a fragment holds of a row exactly
    when the sort key condition holds of its item. *)

From S2P Require Import Prelude BTree Types Error Decimal Number Ast Tokenizer Resolver Evaluator.
From S2P Require Import KeyCondition ItemSize Storage StorageKey NumberKey KeyOrder SqlSelect SqliteQuery.
From S2P Require Import StartKey PolicyMatcher.

(** ** Prefix ranges *)

Lemma list_cmp_app_same (p a b : list ascii) : list_cmp (p ++ a) (p ++ b) = list_cmp a b.
Proof. induction p as [|c p IH]; simpl; [done|]. by rewrite cmp_refl. Qed.

Lemma list_cmp_prefix (p a : list ascii) : list_cmp (p ++ a) p <> Lt.
Proof. induction p as [|c p IH]; simpl; [by destruct a|]. by rewrite cmp_refl. Qed.

(** What lies between a prefix and its extension by [m] has the prefix. *)
Lemma between_prefix (p s m : list ascii) :
  list_cmp s p <> Lt -> list_cmp s (p ++ m) = Lt -> exists t, s = p ++ t /\ list_cmp t m = Lt.
Proof.
  revert s. induction p as [|c p IH]; intros s; simpl; [intros _ H; by exists s|].
  destruct s as [|d s]; simpl; [done|]. destruct (cmp d c) eqn:E; [|done|done].
  apply cmp_eq_iff in E as ->. intros H1 H2. destruct (IH s H1 H2) as (t & -> & Ht). by exists t.
Qed.

Definition ff : ascii := ascii_of_N 255.

Lemma byte_ff : byte ff = 255%N.
Proof. done. Qed.

Lemma byte_255 c : (byte c <? 255)%N = false -> c = ff.
Proof. intros H%N.ltb_ge. apply byte_inj. pose proof (byte_bound c). rewrite byte_ff. lia. Qed.

(** [0xFF] is the last byte: what is not below a run of them starts with it. *)
Lemma not_below_ffs n s : list_cmp s (replicate n ff) <> Lt -> exists t, s = replicate n ff ++ t.
Proof.
  revert s. induction n as [|n IH]; intros s; simpl; [by exists s|].
  destruct s as [|c s]; simpl; [done|]. destruct (cmp c ff) eqn:E; [|done|].
  - apply cmp_eq_iff in E as ->. intros H. destruct (IH s H) as [t ->]. by exists t.
  - unfold cmp, ascii_ord in E. change (N_of_ascii c) with (byte c) in E.
    change (N_of_ascii ff) with 255%N in E. apply N.compare_gt_iff in E. pose proof (byte_bound c). lia.
Qed.

Lemma bump_last_spec l :
  match bump_last l with
  | Some u => exists n c q, l = replicate n ff ++ c :: q /\ (byte c < 255)%N
                            /\ u = ascii_of_N (byte c + 1) :: q
  | None => exists n, l = replicate n ff
  end.
Proof.
  induction l as [|c l IH]; simpl; [by exists 0|]. destruct (byte c <? 255)%N eqn:E.
  - exists 0, c, l. split; [done|]. split; [by apply N.ltb_lt|done].
  - apply byte_255 in E as ->. destruct (bump_last l) as [u|].
    + destruct IH as (n & c & q & -> & Hc & ->). by exists (S n), c, q.
    + destruct IH as [n ->]. by exists (S n).
Qed.

Lemma byte_succ c : (byte c < 255)%N -> byte (ascii_of_N (byte c + 1)) = (byte c + 1)%N.
Proof. intros H. unfold byte in *. apply N_ascii_embedding. lia. Qed.

(** The range of a binary prefix is exactly the strings that have it. *)
Lemma binary_prefix_range p s :
  list_starts_with s p = true <->
  list_cmp s p <> Lt
  /\ match binary_prefix_upper_bound p with Some u => list_cmp s u = Lt | None => True end.
Proof.
  rewrite list_starts_with_iff. unfold binary_prefix_upper_bound.
  pose proof (bump_last_spec (rev p)) as Hb. destruct (bump_last (rev p)) as [u|]; simpl.
  - destruct Hb as (n & c & q & Ep & Hc & ->).
    assert (p = rev q ++ c :: replicate n ff) as ->.
    { rewrite <- (rev_involutive p), Ep, rev_app_distr. simpl. rewrite <- app_assoc. simpl. do 2 f_equal.
      clear. induction n as [|n IH]; simpl; [done|]. by rewrite IH, <- replicate_cons_app. }
    simpl. rewrite <- (app_nil_r (rev q ++ [_])), <- app_assoc. cbn [app].
    split.
    + intros [k ->]. split.
      * rewrite <- app_assoc. apply list_cmp_prefix || rewrite list_cmp_app_same.
        simpl. rewrite cmp_refl. apply list_cmp_prefix.
      * rewrite <- app_assoc, list_cmp_app_same. simpl. unfold cmp, ascii_ord.
        change (N_of_ascii c) with (byte c). change (N_of_ascii (ascii_of_N _)) with (byte (ascii_of_N (byte c + 1))).
        rewrite byte_succ by done. rewrite (proj2 (N.compare_lt_iff _ _)); [done|lia].
    + intros [H1 H2].
      destruct (between_prefix (rev q) s [ascii_of_N (byte c + 1)]) as (t & -> & Ht).
      * intros E. apply H1. eapply (cmp_lt_le_trans (A := list ascii)); [exact E|].
        unfold cmp, list_ord. rewrite list_cmp_antisym.
        pose proof (list_cmp_prefix (rev q) (c :: replicate n ff)). by destruct (list_cmp (rev q ++ _) _).
      * done.
      * rewrite list_cmp_app_same in H1, H2. destruct t as [|d t]; [done|]. simpl in H1, H2.
        assert (d = c) as ->.
        { unfold cmp, ascii_ord in H1, H2. change (N_of_ascii d) with (byte d) in *.
          change (N_of_ascii c) with (byte c) in *.
          change (N_of_ascii (ascii_of_N _)) with (byte (ascii_of_N (byte c + 1))) in H2.
          rewrite byte_succ in H2 by done. apply byte_inj.
          destruct (N.compare_spec (byte d) (byte c)) as [E|E|E]; [done|done|].
          destruct (N.compare_spec (byte d) (byte c + 1)) as [E'|E'|E']; [by destruct t|lia|done]. }
        rewrite cmp_refl in H1. destruct (not_below_ffs n t H1) as [k ->]. exists k.
        by rewrite <- app_assoc.
  - destruct Hb as [n Ep].
    assert (p = replicate n ff) as ->.
    { rewrite <- (rev_involutive p), Ep. clear. induction n as [|n IH]; simpl; [done|].
      by rewrite IH, <- replicate_cons_app. }
    split; [intros [k ->]; split; [apply list_cmp_prefix|done]|]. intros [H _]. by apply not_below_ffs.
Qed.

(** ** Text prefixes *)

Lemma cmp_of_N m n : (m < 256)%N -> (n < 256)%N -> cmp (ascii_of_N m) (ascii_of_N n) = N.compare m n.
Proof.
  intros Hm Hn. unfold cmp, ascii_ord. change (N_of_ascii ?a) with (byte a). by rewrite !byte_of_N.
Qed.

Definition MAX_CHAR : N := 1114111.

Lemma max_char_bytes : as_bytes max_char = encode_utf8_char MAX_CHAR.
Proof. vm_compute. reflexivity. Qed.

(** Every other character comes before U+10FFFF. *)
Lemma below_max_char c l : (c < MAX_CHAR)%N -> list_cmp (encode_utf8_char c ++ l) (as_bytes max_char) = Lt.
Proof.
  intros Hc. change (as_bytes max_char) with (map ascii_of_N [244; 143; 191; 191]%N).
  unfold encode_utf8_char, MAX_CHAR in *.
  pose proof (N.div_mod c 64 ltac:(done)) as E1. pose proof (N.div_mod (c / 64) 64 ltac:(done)) as E2.
  pose proof (N.div_mod (c / 4096) 64 ltac:(done)) as E3.
  pose proof (N.mod_lt c 64 ltac:(done)) as M1. pose proof (N.mod_lt (c / 64) 64 ltac:(done)) as M2.
  pose proof (N.mod_lt (c / 4096) 64 ltac:(done)) as M3.
  rewrite N.Div0.div_div in E2, E3. change (64 * 64)%N with 4096%N in E2. change (4096 * 64)%N with 262144%N in E3.
  set (r0 := (c mod 64)%N) in *; set (r1 := ((c / 64) mod 64)%N) in *; set (r2 := ((c / 4096) mod 64)%N) in *;
    set (q1 := (c / 64)%N) in *; set (q2 := (c / 4096)%N) in *; set (q3 := (c / 262144)%N) in *;
    clearbody r0 r1 r2 q1 q2 q3.
  destruct (N.ltb_spec c 128); [|destruct (N.ltb_spec c 2048); [|destruct (N.ltb_spec c 65536)]];
    cbn [map app list_cmp]; rewrite !cmp_of_N by lia.
  - by rewrite (proj2 (N.compare_lt_iff c 244)) by lia.
  - by rewrite (proj2 (N.compare_lt_iff (192 + q1) 244)) by lia.
  - by rewrite (proj2 (N.compare_lt_iff (224 + q2) 244)) by lia.
  - destruct (N.compare_spec (240 + q3) 244) as [E|E|E]; [|done|lia].
    destruct (N.compare_spec (128 + r2) 143) as [E'|E'|E']; [|done|lia].
    destruct (N.compare_spec (128 + r1) 191) as [F|F|F]; [|done|lia].
    by rewrite (proj2 (N.compare_lt_iff (128 + r0) 191)) by lia.
Qed.

(** A byte prefix of a text at a text is a prefix of characters. *)
Lemma text_split cs ps t :
  Forall (fun c => c < 1114112)%N cs -> Forall (fun c => c < 1114112)%N ps ->
  flat_map encode_utf8_char cs = flat_map encode_utf8_char ps ++ t ->
  exists rest, cs = ps ++ rest /\ t = flat_map encode_utf8_char rest.
Proof.
  intros Hcs Hps. revert cs Hcs. induction Hps as [|p ps Hp Hps IH]; intros cs Hcs E; simpl in *.
  { by exists cs. }
  destruct Hcs as [|c cs Hc Hcs]; simpl in E.
  { apply (f_equal length) in E. unfold encode_utf8_char in E. rewrite !length_app, length_map in E.
    destruct (p <? 128)%N, (p <? 2048)%N, (p <? 65536)%N; simpl in E; lia. }
  rewrite <- app_assoc in E. assert (c = p) as ->.
  { apply (f_equal chars_of) in E. rewrite !chars_of_cons in E by done. congruence. }
  apply app_inv_head in E. destruct (IH cs Hcs E) as (rest & -> & ->). by exists rest.
Qed.

Definition is_text (s : string) : Prop := exists cs, text_of_chars s cs.

(** The range of a text prefix is the texts that have it, but for those that go on
    with U+10FFFF. *)
Lemma text_prefix_range p s : is_text p -> is_text s ->
  cmp s p <> Lt /\ cmp s (p +:+ max_char) = Lt <->
  list_starts_with (as_bytes s) (as_bytes p) = true
  /\ list_starts_with (as_bytes s) (as_bytes (p +:+ max_char)) = false.
Proof.
  intros (ps & Hps & Ep) (cs & Hcs & Es). change (cmp s ?t) with (list_cmp (as_bytes s) (as_bytes t)).
  rewrite as_bytes_app. split.
  - intros [H1 H2]. destruct (between_prefix _ _ _ H1 H2) as (t & E & Ht). split.
    + apply list_starts_with_iff. eauto.
    + destruct (list_starts_with (as_bytes s) (as_bytes p ++ as_bytes max_char)) eqn:Em; [|done].
      apply list_starts_with_iff in Em as [k Ek]. rewrite E, <- app_assoc in Ek. apply app_inv_head in Ek as ->.
      by apply list_cmp_prefix in Ht.
  - intros [(t & E)%list_starts_with_iff Hm]. split; [rewrite E; apply list_cmp_prefix|].
    rewrite E, list_cmp_app_same. rewrite Es, Ep in E.
    destruct (text_split cs ps t Hcs Hps E) as (rest & -> & ->). destruct rest as [|c rest]; [done|]. simpl.
    apply Forall_app in Hcs as [_ Hr]. inversion Hr as [|? ? Hc _]; subst.
    destruct (decide (c = MAX_CHAR)) as [->|Hne]; [|apply below_max_char; unfold MAX_CHAR in *; lia].
    exfalso. assert (list_starts_with (as_bytes s) (as_bytes p ++ as_bytes max_char) = true); [|congruence].
    apply list_starts_with_iff. exists (flat_map encode_utf8_char rest).
    rewrite max_char_bytes, Es, Ep, flat_map_app. simpl. by rewrite <- !app_assoc.
Qed.

(** ** Fragments *)

Section Fragments.
Context `{HR : Rendering} {D : Type} `{HD : BigDecimal D} `{HDL : !BigDecimalLaws D}
  `{HP : !BigDecimalParts D} `{HPL : !BigDecimalPartsLaws D}.
Implicit Type maps : ExpressionMaps D.

(** A value a sort key column holds: a text, a number within the range of the
    encoding, or bytes. *)
Definition stored_value (v : AttributeValue) : Prop :=
  match v with
  | AV_S s => is_text s
  | AV_N n => exists d : D, bd_parse n = Some d /\ orderable (bd_value d)
  | AV_B _ => True
  | _ => False
  end.

Lemma stored_key_value v : stored_value v -> key_value (D := D) v.
Proof. destruct v; try done. intros (d & Hd & _). by exists d. Qed.

Lemma bound_of_discriminant v w ty x y :
  bound_of (D := D) v ty = Ok x -> bound_of (D := D) w ty = Ok y -> same_discriminant v w = true.
Proof. destruct ty, v, w; try done. Qed.

(** Columns compare as the values they store. *)
Lemma bound_cmp_val v w ty x y : stored_value v -> stored_value w ->
  bound_of (D := D) v ty = Ok x -> bound_of (D := D) w ty = Ok y -> bound_cmp x y = val_cmp (D := D) v w.
Proof.
  unfold bound_of. destruct ty, v, w; try done; simpl; intros Hv Hw Ex Ey.
  - by injection Ex as <-; injection Ey as <-.
  - destruct Hv as (d & Ed & Od), Hw as (e & Ee & Oe). rewrite Ed in *. rewrite Ee in *.
    injection Ex as <-; injection Ey as <-. simpl. by rewrite bd_cmp_value, encode_order.
  - by injection Ex as <-; injection Ey as <-.
Qed.

Lemma resolved_bound_Ok e ty maps y : resolved_bound e ty maps = Ok y ->
  exists w, bound_value maps e = Some w /\ bound_of (D := D) w ty = Ok y.
Proof.
  unfold resolved_bound, resolve_expr_to_av. destruct e; try done. simpl. unfold value_ok.
  destruct (resolve_value maps name) as [w|[]]; try done. eauto.
Qed.

(** The value goes on with U+10FFFF after the prefix. *)
Definition continues_with_max maps (sk : SortKeyCondition) (v : AttributeValue) : bool :=
  match sk with
  | SKBeginsWith _ e =>
      match bound_value maps e, v with
      | Some (AV_S p), AV_S s => list_starts_with (as_bytes s) (as_bytes (p +:+ max_char))
      | _, _ => false
      end
  | _ => false
  end.

Lemma prefix_text_fragment r col p s : is_text p -> is_text s -> row_cols r !! col = Some (BoundText s) ->
  where_true [CCmp col CGe (BoundText p); CBelowMax col p] r
  = list_starts_with (as_bytes s) (as_bytes p)
    && negb (list_starts_with (as_bytes s) (as_bytes (p +:+ max_char))).
Proof.
  intros Hp Hs Hr. unfold where_true. cbn [forallb cond_true]. rewrite Hr, andb_true_r. cbn [bound_cmp apply_op].
  apply eq_true_iff_eq. rewrite !andb_true_iff, !negb_true_iff, bool_decide_eq_true, bool_decide_eq_false.
  by apply text_prefix_range.
Qed.

Lemma prefix_bytes_fragment r col p s : row_cols r !! col = Some (BoundBlob s) ->
  where_true match binary_prefix_upper_bound p with
    | Some upper => [CCmp col CGe (BoundBlob p); CCmp col CLt (BoundBlob upper)]
    | None => [CCmp col CGe (BoundBlob p)] end r
  = list_starts_with s p.
Proof.
  intros Hr. apply eq_true_iff_eq. rewrite binary_prefix_range. unfold where_true.
  destruct (binary_prefix_upper_bound p) as [u|]; cbn [forallb cond_true]; rewrite Hr, ?andb_true_r;
    cbn [bound_cmp apply_op].
  - by rewrite andb_true_iff, negb_true_iff, bool_decide_eq_true, bool_decide_eq_false.
  - rewrite negb_true_iff, bool_decide_eq_false. tauto.
Qed.

(** The WHERE fragment of a sort key condition selects what the condition says:
    it holds of a row exactly when the condition holds of the sort key value that the
    row stores, for every operator and type, except that a [begins_with] on text
    leaves out the values that go on with U+10FFFF after the prefix. *)
Theorem fragment_selects sk col ty maps cs r v x :
  build_sk_sql_and_binds sk col ty maps = Ok cs ->
  Forall (fun e => forall w, bound_value maps e = Some w -> stored_value w) (sk_bounds sk) ->
  row_cols r !! col = Some x -> bound_of (D := D) v ty = Ok x -> stored_value v ->
  where_true cs r = sk_holds maps sk v && negb (continues_with_max maps sk v).
Proof.
  intros Hc Hb Hr Hx Hv. rewrite List.Forall_forall in Hb.
  assert (Hcmp : forall e y op, In e (sk_bounds sk) -> resolved_bound e ty maps = Ok y ->
    exists w, bound_value maps e = Some w /\ apply_op (bound_cmp x y) op = apply_op (val_cmp (D := D) v w) op).
  { intros e y op He (w & Hw & Hy)%resolved_bound_Ok. exists w. split; [done|].
    by rewrite (bound_cmp_val v w ty x y Hv (Hb e He w Hw) Hx Hy). }
  destruct sk as [path op e|path lo hi|path e]; cbn [build_sk_sql_and_binds] in Hc;
    cbn [continues_with_max negb sk_bounds In] in *; rewrite ?andb_true_r.
  - destruct (resolved_bound e ty maps) as [y|] eqn:Ey; [|done]. injection Hc as <-.
    destruct (Hcmp e y op (or_introl eq_refl) Ey) as (w & Hw & Ew).
    unfold sk_holds. rewrite Hw, <- Ew. unfold where_true. cbn [forallb cond_true]. by rewrite Hr, andb_true_r.
  - destruct (resolved_bound lo ty maps) as [l|] eqn:El; [|done].
    destruct (resolved_bound hi ty maps) as [h|] eqn:Eh; [|done]. injection Hc as <-.
    destruct (Hcmp lo l CGe (or_introl eq_refl) El) as (wl & Hwl & Ewl).
    destruct (Hcmp hi h CLe (or_intror (or_introl eq_refl)) Eh) as (wh & Hwh & Ewh).
    unfold sk_holds. rewrite Hwl, Hwh, <- Ewl, <- Ewh. unfold where_true. cbn [forallb cond_true].
    by rewrite Hr, andb_true_r.
  - destruct (resolve_expr_to_av e maps) as [w|] eqn:Ew; [|done].
    assert (Hw : bound_value maps e = Some w).
    { unfold resolve_expr_to_av in Ew. destruct e; try done. simpl. unfold value_ok.
      destruct (resolve_value maps name) as [|[]]; congruence. }
    specialize (Hb e (or_introl eq_refl) w Hw). unfold sk_holds, continues_with_max. rewrite Hw.
    unfold bound_of in Hx. destruct ty, w, v; try done; simpl in Hc, Hx.
    + injection Hc as <-. injection Hx as <-. by apply prefix_text_fragment.
    + by destruct (bd_parse n).
    + injection Hx as <-. simpl. rewrite andb_true_r, <- (prefix_bytes_fragment r col b b0 Hr).
      destruct (binary_prefix_upper_bound b); by injection Hc as <-.
Qed.
End Fragments.

(** ** A sample *)

#[local] Instance identity_rendering : Rendering := {
  truncated := fun s => s;
  debug := fun s => s;
  key_json := fun _ => "";
  parse_error := fun s => s
}.

Definition sample_row (sk : string) : Row :=
  {| row_id := 1; row_cols := {["sk_s" := BoundText sk]}; row_item := [] |}.

(** [begins_with(s, :p)] on a row whose key begins with the prefix. *)
Lemma fragment_selects_witness :
  where_true [CCmp "sk_s" CGe (BoundText "ab"); CBelowMax "sk_s" "ab"] (sample_row "abc") = true.
Proof.
  rewrite (fragment_selects (D := dec) (SKBeginsWith [PAttr "s"] (EPlaceholder "p")) "sk_s" Scalar_S
    (maps_new ∅ {["p" := AV_S "ab"]}) [CCmp "sk_s" CGe (BoundText "ab"); CBelowMax "sk_s" "ab"]
    (sample_row "abc") (AV_S "abc") (BoundText "abc")).
  - vm_compute. reflexivity.
  - vm_compute. reflexivity.
  - constructor; [|constructor]. intros w Hw. vm_compute in Hw. injection Hw as <-.
    exists [97; 98]%N. split; [|vm_compute; reflexivity]. repeat constructor.
  - reflexivity.
  - reflexivity.
  - exists [97; 98; 99]%N. split; [|vm_compute; reflexivity]. repeat constructor.
Defined.
