(* ===== verification/TableRead.v ===== *)
(** * Reading a table

    The read path over the write path: Scan and Query of [SqliteQuery], paged by the
    engine's reader of [ReadPage], give back exactly the items of the map that the
    operations of [StoreRefine] keep. *)

From Stdlib Require Import Sorted.
From S2P Require Import Prelude BTree Types Error Decimal Number Ast Tokenizer Resolver Evaluator.
From S2P Require Import UpdateEvaluator ItemSize Storage StorageKey NumberKey KeyOrder SqlSelect Projection.
From S2P Require Import ReadPage SqliteQuery SqlWrite IndexKeys UpdateKeys SqliteIndex SqliteQueue.
From S2P Require Import SqliteStore StoreRefine KeyCondition StartKey SqliteFragment.

(** ** Lists *)

(** Values that select one element each are distinct. *)
Lemma NoDup_map_single {A B : Type} `{EqDecision B} (f : A -> B) l :
  (forall x, In x l -> length (List.filter (fun y => bool_decide (f y = f x)) l) <= 1) ->
  List.NoDup (map f l).
Proof.
  induction l as [|x l IH]; intros Hl; simpl; constructor.
  - intros (y & E & Hy)%in_map_iff. specialize (Hl x (or_introl eq_refl)). simpl in Hl.
    rewrite bool_decide_eq_true_2 in Hl by done. simpl in Hl.
    assert (In y (List.filter (fun y => bool_decide (f y = f x)) l)) as Hf
      by (apply filter_In; split; [done|by apply bool_decide_eq_true_2]).
    destruct (List.filter _ l); [done|simpl in Hl; lia].
  - apply IH. intros y Hy. specialize (Hl y (or_intror Hy)). simpl in Hl.
    destruct (bool_decide (f x = f y)); simpl in Hl; lia.
Qed.

Lemma NoDup_map_filter {A B : Type} (f : A -> B) (p : A -> bool) l :
  List.NoDup (map f l) -> List.NoDup (map f (List.filter p l)).
Proof.
  induction l as [|x l IH]; simpl; [done|]. intros Hn. inversion Hn as [|? ? Hx Hn']; subst.
  destruct (p x); [|by apply IH]. simpl. constructor; [|by apply IH].
  intros (y & E & [Hy _]%filter_In)%in_map_iff. apply Hx. rewrite <- E. by apply in_map.
Qed.

(** A function that tells apart no less does. *)
Lemma NoDup_map_finer {A B C : Type} (f : A -> B) (g : A -> C) l :
  (forall x y, In x l -> In y l -> g x = g y -> f x = f y) ->
  List.NoDup (map f l) -> List.NoDup (map g l).
Proof.
  induction l as [|x l IH]; simpl; intros Hfg Hn; [constructor|].
  inversion Hn as [|? ? Hx Hn']; subst. constructor; [|apply IH; [|done]; auto].
  intros (y & E & Hy)%in_map_iff. apply Hx. rewrite (Hfg x y); auto. by apply in_map.
Qed.

(** A sorted list of elements told apart by [g], seen through [f]. *)
Lemma StronglySorted_map_strict {A B C : Type} (R : A -> A -> Prop) (S : B -> B -> Prop)
    (f : A -> B) (g : A -> C) l :
  (forall x y, In x l -> In y l -> R x y -> g x <> g y -> S (f x) (f y)) ->
  List.NoDup (map g l) -> StronglySorted R l -> StronglySorted S (map f l).
Proof.
  induction l as [|x l IH]; simpl; intros HS Hn Hs; [constructor|].
  inversion Hn as [|? ? Hx Hn']; inversion Hs as [|? ? Hs' HR]; subst. constructor; [apply IH; auto|].
  apply List.Forall_forall. intros ? (y & <- & Hy)%in_map_iff. rewrite List.Forall_forall in HR.
  apply HS; auto. intros E. apply Hx. rewrite E. by apply in_map.
Qed.

Lemma single_Permutation {A : Type} (l l' : list A) : length l <= 1 -> Permutation l l' -> l = l'.
Proof.
  destruct l as [|x [|]]; simpl; intros Hl Hp; [by symmetry; apply Permutation_nil| |lia].
  symmetry. by apply Permutation_length_1_inv.
Qed.

(** Classes numbered below [n] make up the elements whose number is below [n]. *)
Lemma classes_Permutation {A : Type} (f : A -> nat) l n :
  Permutation (concat (map (fun s => List.filter (fun x => f x =? s) l) (seq 0 n)))
    (List.filter (fun x => f x <? n) l).
Proof.
  induction n as [|n IH].
  - simpl. induction l as [|x l IHl]; simpl; done.
  - rewrite seq_S, map_app, concat_app, IH. simpl. rewrite app_nil_r. clear IH.
    induction l as [|x l IHl]; simpl; [done|].
    destruct (Nat.ltb_spec (f x) n), (Nat.eqb_spec (f x) n), (Nat.ltb_spec (f x) (S n)); try lia; simpl.
    + by rewrite IHl.
    + by rewrite <- Permutation_middle, IHl.
    + done.
Qed.

(** ** The rows of a table *)

Section Reading.
Context `{HR : Rendering} `{HB : Base64} `{HBL : !Base64Laws} {D : Type} `{HD : BigDecimal D}
  `{HDL : !BigDecimalLaws D} `{HP : !BigDecimalParts D} `{HPL : !BigDecimalPartsLaws D}
  `{HS : Sqlite} `{HSL : !SqliteLaws} `{HM : SqliteDml} `{HML : !SqliteDmlLaws}
  `{HE : SqliteErrors} `{HT : Timestamps} `{HC : Crc32}.
Context (key_info : TableKeyInfo) (Hschema : schema_ok key_info).
Implicit Types (maps : ExpressionMaps D) (items : list BoundValue -> option Item) (k : list BoundValue).

Notation base_ks := (tki_key_schema key_info).
Notation base_defs := (tki_attribute_definitions key_info).
Notation holds := (base_holds (D := D) key_info).
Notation columns := (key_columns key_info).

Lemma scan_columns_key : scan_columns (scan_info key_info) (scan_base_info key_info false) false = columns.
Proof.
  destruct (so_hash _ Hschema) as (h & rest & E & Eh & Hr).
  unfold scan_columns, scan_info, scan_base_info, key_columns, create_pk_cols, all_sort_key_info,
    range_key_elements, sk_info. rewrite E. cbn [List.find List.filter].
  rewrite (bool_decide_eq_false_2 (ks_key_type h = Range)) by (by rewrite Eh).
  destruct Hr as [->|(r & ad & -> & Er & Ed)]; cbn [List.find List.filter]; [done|].
  rewrite (bool_decide_eq_true_2 (ks_key_type r = Range)) by done. rewrite Ed. simpl. rewrite Ed.
  simpl. unfold sk_column_n. simpl. by destruct (ad_attribute_type ad).
Qed.

(** A Scan's cursor is the key of the item it was made from. *)
Lemma scan_binds_key item k : item_key (D := D) key_info item k ->
  scan_binds (D := D) (extract_key item base_ks) (scan_info key_info) (scan_base_info key_info false)
    key_info false = Ok k.
Proof.
  intros Hk. assert (item_key (D := D) key_info (extract_key item base_ks) k) as Hk'.
  { eapply item_key_ext; [|exact Hk]. intros ks Hks. rewrite extract_key_get, bool_decide_eq_true_2; [done|].
    apply list_elem_of_In, in_map, Hks. }
  revert Hk'. unfold item_key, table_key, scan_binds, scan_info, scan_base_info.
  generalize (extract_key item base_ks) as key. intros key.
  destruct base_ks as [|h rest]; [done|]. destruct (bt_get (ks_attribute_name h) key) as [v|]; [|done].
  simpl. destruct (pk_to_text v) as [t|]; [|done].
  destruct (sk_info _ _) as [[name ty]|]; simpl; [|by intros [= _ <-]]. unfold sk_bind. simpl.
  destruct (bt_get name key) as [w|]; [|done]. simpl. destruct (bound_of w ty); [|done]. by intros [= _ <-].
Qed.

Lemma base_row t items r : holds t items -> In r (tbl_rows t) ->
  exists k, length k = length columns /\ col_values columns r = map Some k /\ items k = Some (row_item r).
Proof.
  intros Hb Hr. destruct (bh_keyed _ _ _ Hb r Hr) as (k & Hl & Ek). exists k. split; [done|]. split; [done|].
  pose proof (bh_rows _ _ _ Hb k) as Ha. unfold at_key in Ha.
  assert (In (content r) (map content (List.filter (has_key columns k) (tbl_rows t)))) as Hin.
  { apply in_map, filter_In. split; [done|]. by apply bool_decide_eq_true_2. }
  rewrite Ha in Hin. destruct (items k); simpl in Hin; [|done]. destruct Hin as [[= _ <-]|[]]. done.
Qed.

Lemma base_item t items k i : holds t items -> items k = Some i ->
  exists r, In r (tbl_rows t) /\ row_item r = i /\ col_values columns r = map Some k.
Proof.
  intros Hb Hi. pose proof (bh_rows _ _ _ Hb k) as Ha. rewrite Hi in Ha. simpl in Ha. unfold at_key in Ha.
  destruct (List.filter (has_key columns k) (tbl_rows t)) as [|r l] eqn:E; [done|]. injection Ha as _ Hri _.
  assert (In r (List.filter (has_key columns k) (tbl_rows t))) as [Hr Hk]%filter_In by (rewrite E; by left).
  exists r. split; [done|]. split; [done|]. by apply bool_decide_eq_true_1 in Hk.
Qed.

Lemma base_distinct t items : holds t items -> List.NoDup (map (col_values columns) (tbl_rows t)).
Proof.
  intros Hb. apply NoDup_map_single. intros r Hr. destruct (base_row t items r Hb Hr) as (k & _ & Ek & _).
  pose proof (bh_rows _ _ _ Hb k) as Ha. apply (f_equal length) in Ha. unfold at_key in Ha.
  rewrite length_map in Ha. unfold has_key in Ha. rewrite Ek, Ha. destruct (items k); simpl; lia.
Qed.

(** Rows with the same item are the same row. *)
Lemma base_items_distinct t items : holds t items -> List.NoDup (map row_item (tbl_rows t)).
Proof.
  intros Hb. apply (NoDup_map_finer (col_values columns)); [|by eapply base_distinct].
  intros r s Hr Hs E. destruct (base_row t items r Hb Hr) as (k & _ & -> & Hi).
  destruct (base_row t items s Hb Hs) as (k' & _ & -> & Hi'). f_equal.
  apply (bh_items _ _ _ Hb) in Hi, Hi'. rewrite E in Hi. by eapply item_key_inj.
Qed.

(** So a Scan of the table can be paged, whatever its segment. *)
Lemma base_pageable t items segment total_segments : holds t items ->
  pageable (tbl_rows t) (segment_conds segment total_segments)
    (scan_columns (scan_info key_info) (scan_base_info key_info false) false)
    (fun key => scan_binds (D := D) key (scan_info key_info) (scan_base_info key_info false) key_info false)
    (fun item => extract_key item base_ks).
Proof.
  intros Hb. rewrite scan_columns_key. split.
  - intros r [Hr _]%filter_In. destruct (base_row t items r Hb Hr) as (k & _ & Ek & Hi).
    exists k. split; [|done]. apply scan_binds_key. by apply (bh_items _ _ _ Hb).
  - apply NoDup_map_filter. by eapply base_distinct.
Qed.

(** ** Scan *)

(** The segments of a Scan that [total] workers share; one reads it all without. *)
Definition scan_segments (total : option Z) : list (option Z * option Z) :=
  match total with
  | None => [(None, None)]
  | Some n => map (fun s => (Some (Z.of_nat s), Some n)) (seq 0 (Z.to_nat n))
  end.

(** Storage's Scan of a segment, as the page reader calls it. *)
Definition scan_fetch (t : Table) (seg : option Z * option Z) (cursor : option Item) (n : Z) (w : unit)
    : QueryResult * unit :=
  (scan_impl (D := D) (tbl_rows t) key_info (Some n) cursor seg.1 seg.2 false, w).

Definition segment_items (t : Table) (seg : option Z * option Z) : list Item :=
  map row_item (paged_rows (tbl_rows t) (segment_conds seg.1 seg.2) columns true).

Lemma segments_Permutation t total :
  (forall n, total = Some n -> (1 <= n)%Z /\ forall r, In r (tbl_rows t) -> (0 <= row_id r)%Z) ->
  Permutation (concat (map (segment_items t) (scan_segments total))) (map row_item (tbl_rows t)).
Proof.
  intros Hn. unfold segment_items.
  assert (forall seg, Permutation (map row_item (paged_rows (tbl_rows t) (segment_conds seg.1 seg.2) columns true))
    (map row_item (List.filter (where_true (segment_conds seg.1 seg.2)) (tbl_rows t)))) as Hp
    by (intros seg; apply Permutation_map, paged_rows_spec).
  destruct total as [n|]; simpl.
  - destruct (Hn n eq_refl) as [Hn1 Hids].
    trans (map row_item (concat (map (fun s =>
      List.filter (fun r => Z.to_nat (Z.rem (row_id r) n) =? s) (tbl_rows t)) (seq 0 (Z.to_nat n))))).
    + rewrite concat_map, !map_map. induction (seq 0 (Z.to_nat n)) as [|s l IH]; simpl; [done|].
      apply Permutation_app; [|done]. rewrite (Hp (Some (Z.of_nat s), Some n)). simpl. erewrite filter_ext_In; [done|].
      intros r Hr. unfold where_true. simpl. rewrite andb_true_r.
      pose proof (Z.rem_nonneg (row_id r) n ltac:(lia) (Hids r Hr)) as Hm. revert Hm.
      generalize (Z.rem (row_id r) n) as m. intros m Hm.
      destruct (Z.eqb_spec m (Z.of_nat s)), (Nat.eqb_spec (Z.to_nat m) s); done || lia.
    + apply Permutation_map. rewrite classes_Permutation, filter_all; [done|].
      intros r Hr. pose proof (Z.rem_bound_pos (row_id r) n (Hids r Hr) ltac:(lia)) as Hm. apply Nat.ltb_lt. revert Hm. generalize (Z.rem (row_id r) n). lia.
  - rewrite app_nil_r, (Hp (None, None)). simpl. by rewrite filter_all by (intros; done).
Qed.

(** A backend that serves items of the table, walked page by page. *)
Lemma serves_walk fetch valid after items limit post requests :
  Serves fetch (fun item => extract_key item (pr_lek_key_schema post)) valid after ->
  (forall cursor i, In i (after cursor) -> exists k, items k = Some i) ->
  (forall k i, items k = Some i -> metered i /\ exists b, passes post i = Ok b) ->
  (forall l, limit = Some l -> (1 <= l)%Z) -> valid None -> length (after None) < requests ->
  exists pages, walk (D := D) fetch requests limit post None tt = Ok pages /\ covers post (after None) pages.
Proof.
  intros Hserves Hin Hi Hl Hv Hlen. eapply (walk_covers (D := D) fetch); [exact Hserves|done| |done| |done].
  - intros cursor _. apply List.Forall_forall. intros i (k & Hk)%Hin. by apply (Hi k).
  - intros i (k & Hk)%Hin. by apply (Hi k).
Qed.

(** The items after a cursor are items of the table. *)
Lemma paged_after_items t items conds cols forward binds cursor i : holds t items ->
  In i (paged_after (tbl_rows t) conds cols forward binds cursor) -> exists k, items k = Some i.
Proof.
  intros Hb (r & <- & [Hr _]%filter_In)%in_map_iff. rewrite (proj1 (paged_rows_spec _ _ _ _)) in Hr.
  apply filter_In in Hr as [Hr _]. destruct (base_row t items r Hb Hr) as (k & _ & _ & ?). eauto.
Qed.

Lemma paged_after_None rows conds cols forward binds :
  paged_after rows conds cols forward binds None = map row_item (paged_rows rows conds cols forward).
Proof. unfold paged_after. simpl. by rewrite filter_all by (intros; done). Qed.

(** A segment's pages. *)
Lemma scan_segment_walk t items seg limit post requests :
  holds t items -> pr_lek_key_schema post = base_ks ->
  (forall k i, items k = Some i -> metered i /\ exists b, passes post i = Ok b) ->
  (forall l, limit = Some l -> (1 <= l)%Z) -> length (segment_items t seg) < requests ->
  exists pages, walk (D := D) (scan_fetch t seg) requests limit post None tt = Ok pages
    /\ covers post (segment_items t seg) pages.
Proof.
  intros Hb Hlek Hi Hl Hlen.
  pose proof (scan_serves (D := D) (tbl_rows t) key_info base_ks seg.1 seg.2 false
    (base_pageable t items seg.1 seg.2 Hb)) as Hserves.
  rewrite scan_columns_key, <- Hlek in Hserves. unfold segment_items in *.
  rewrite <- (paged_after_None _ _ _ _ (fun key => scan_binds (D := D) key (scan_info key_info)
    (scan_base_info key_info false) key_info false)) in *.
  eapply (serves_walk (scan_fetch t seg)); try done. intros cursor i. by apply paged_after_items.
Qed.

(** C15. A Scan, sequential or by parallel segments, reads the table: the client that
    follows [LastEvaluatedKey] in each segment gets its last page within one request
    more than the segment has items, the pages of a segment hold its items that pass
    the filter, projected and in order, and the segments together hold every item
    that the write operations keep in the table, once. *)
Theorem scan_reads_table t items total limit post :
  holds t items -> pr_lek_key_schema post = base_ks ->
  (forall k i, items k = Some i -> metered i /\ exists b, passes post i = Ok b) ->
  (forall l, limit = Some l -> (1 <= l)%Z) ->
  (forall n, total = Some n -> (1 <= n)%Z /\ forall r, In r (tbl_rows t) -> (0 <= row_id r)%Z) ->
  exists parts,
    Forall2 (fun seg part => forall requests, length part < requests ->
      exists pages, walk (D := D) (scan_fetch t seg) requests limit post None tt = Ok pages
        /\ covers post part pages) (scan_segments total) parts
    /\ (forall i, In i (concat parts) <-> exists k, items k = Some i)
    /\ List.NoDup (concat parts).
Proof.
  intros Hb Hlek Hi Hl Hn. exists (map (segment_items t) (scan_segments total)).
  pose proof (segments_Permutation t total Hn) as Hp. split; [|split].
  - clear Hp Hn. induction (scan_segments total) as [|seg segs IH]; simpl; constructor; [|done].
    intros requests Hlen. by apply (scan_segment_walk t items).
  - intros i. rewrite Hp, in_map_iff. split.
    + intros (r & <- & Hr). destruct (base_row t items r Hb Hr) as (k & _ & _ & ?). eauto.
    + intros (k & Hk). destruct (base_item t items k i Hb Hk) as (r & ? & <- & _). eauto.
  - eapply Permutation_NoDup; [symmetry; exact Hp|]. by eapply base_items_distinct.
Qed.

(** ** Query *)

Definition hash_name : string :=
  match base_ks with h :: _ => ks_attribute_name h | [] => "" end.

(** The key of an item, attribute by attribute. *)
Lemma item_key_parts item k : item_key (D := D) key_info item k ->
  exists v t, bt_get hash_name item = Some v /\ pk_to_text v = Ok t
    /\ match scan_info key_info with
       | Some (name, ty) => exists w b, bt_get name item = Some w /\ bound_of (D := D) w ty = Ok b
           /\ k = [BoundText t; b] /\ columns = ["pk"; sk_column ty]
       | None => k = [BoundText t] /\ columns = ["pk"]
       end.
Proof.
  unfold item_key, table_key, hash_name, scan_info. generalize columns as cols. intros cols.
  destruct base_ks as [|h rest]; [done|].
  destruct (bt_get (ks_attribute_name h) item) as [v|]; [|done]. simpl.
  destruct (pk_to_text v) as [t|] eqn:Et; [|done]. intros Hk. exists v, t. split; [done|]. split; [done|].
  destruct (sk_info _ _) as [[name ty]|]; [|by injection Hk as <- <-].
  destruct (bt_get name item) as [w|]; [|done]. cbn [ok_or_else] in Hk.
  destruct (bound_of w ty) as [b|] eqn:Eb; [|done]. injection Hk as <- <-. by exists w, b.
Qed.

Lemma all_sks_info : all_sort_key_info base_ks base_defs = option_list (scan_info key_info).
Proof.
  destruct (so_hash _ Hschema) as (h & rest & E & Eh & Hr).
  unfold scan_info, all_sort_key_info, range_key_elements, sk_info. rewrite E. cbn [List.find List.filter].
  rewrite (bool_decide_eq_false_2 (ks_key_type h = Range)) by (by rewrite Eh).
  destruct Hr as [->|(r & ad & -> & Er & Ed)]; cbn [List.find List.filter]; [done|].
  rewrite (bool_decide_eq_true_2 (ks_key_type r = Range)) by done. rewrite Ed. simpl. by rewrite Ed.
Qed.

(** What a Query with the key condition asks of an item; a text that goes on with
    U+10FFFF after the prefix of a [begins_with] is left out. *)
Definition key_matches (kc : KeyCondition) maps (item : Item) : Prop :=
  (exists v, bound_value maps (pk_value kc) = Some v /\ bt_get hash_name item = Some v)
  /\ match sk_condition kc, scan_info key_info with
     | Some sk, Some (name, _) =>
         exists v, bt_get name item = Some v
           /\ sk_holds maps sk v && negb (continues_with_max maps sk v) = true
     | _, _ => True
     end.

(** Items whose keys are of the types of the key condition's values. *)
Record key_typed (kc : KeyCondition) maps (item : Item) : Prop := {
  kt_hash : forall v w, bound_value maps (pk_value kc) = Some v -> bt_get hash_name item = Some w ->
    scalar_type v = scalar_type w;
  kt_sort : forall name ty v, scan_info key_info = Some (name, ty) -> bt_get name item = Some v ->
    stored_value (D := D) v
}.

(** A key condition for a table: one partition key value, and bounds that can be
    stored. *)
Record table_condition (kc : KeyCondition) maps : Prop := {
  tc_pk : extra_pk_conditions kc = [];
  tc_sk : extra_sk_conditions kc = [];
  tc_bounds : forall sk, sk_condition kc = Some sk ->
    Forall (fun e => forall w, bound_value maps e = Some w -> stored_value (D := D) w) (sk_bounds sk)
}.

Lemma resolve_expr_bound e maps v : resolve_expr_to_av e maps = Ok v -> bound_value maps e = Some v.
Proof.
  unfold resolve_expr_to_av, bound_value, value_ok. destruct e; try done.
  destruct (resolve_value maps name) as [|[]]; congruence.
Qed.

Lemma range_column_single name ty path maps :
  match range_column [(name, ty)] path maps with
  | Some c => Some c
  | None => (fun i => (0, i.2)) <$> Some (name, ty)
  end = Some (0, ty).
Proof.
  unfold range_column. destruct (query_attr_name path maps) as [n|]; simpl; [|done].
  by destruct (String.eqb name n).
Qed.

(** The conditions of a key condition select the rows of the items that match. *)
Lemma conditions_select t items kc maps conds r :
  holds t items -> table_condition kc maps -> query_conditions (D := D) key_info kc maps = Ok conds ->
  In r (tbl_rows t) -> key_typed kc maps (row_item r) ->
  where_true conds r = true <-> key_matches kc maps (row_item r).
Proof.
  intros Hb [Hpk Hsk Hbd] Hq Hr [Kh Ks].
  destruct (base_row t items r Hb Hr) as (k & _ & Ek & Hi). apply (bh_items _ _ _ Hb) in Hi.
  destruct (item_key_parts _ _ Hi) as (v & pt & Hv & Hpt & Hparts).
  unfold query_conditions, query_pk_text in Hq. rewrite Hpk, Hsk, all_sks_info in Hq.
  fold (scan_info key_info) in Hq.
  destruct (resolve_expr_to_av (pk_value kc) maps) as [w|] eqn:Ew; [|done]. simpl in Hq.
  destruct (pk_to_text w) as [t'|] eqn:Et; [|done]. simpl in Hq.
  apply resolve_expr_bound in Ew. unfold key_matches.
  assert (Hhash : row_cols r !! "pk" = Some (BoundText pt)).
  { destruct (scan_info key_info) as [[name ty]|].
    - destruct Hparts as (? & ? & _ & _ & -> & Ec). rewrite Ec in Ek. by injection Ek.
    - destruct Hparts as [-> Ec]. rewrite Ec in Ek. by injection Ek. }
  assert (Hpkc : cond_true r (CCmp "pk" CEq (BoundText t')) = true
    <-> exists v, bound_value maps (pk_value kc) = Some v /\ bt_get hash_name (row_item r) = Some v).
  { cbn [cond_true]. rewrite Hhash. cbn [bound_cmp apply_op]. rewrite bool_decide_eq_true, cmp_eq_iff. split.
    - intros <-. exists v. split; [|done]. rewrite Ew. f_equal. apply (pk_to_text_inj w v pt); [by apply Kh|congruence|congruence].
    - intros (x & Ex & Hx). congruence. }
  rewrite <- Hpkc. destruct (sk_condition kc) as [sk|]; cbn [mbind] in Hq.
  2:{ injection Hq as <-. unfold where_true. cbn [forallb app concat]. rewrite andb_true_r. tauto. }
  destruct (scan_info key_info) as [[name ty]|] eqn:Einfo; cbn [option_list] in Hq.
  - destruct Hparts as (x & b & Hx & Hbx & -> & Ec). rewrite Ec in Ek. injection Ek as _ Hcol.
    rewrite range_column_single in Hq.
    destruct (build_sk_sql_and_binds sk (sk_column_n 0 ty) ty maps) as [cs|] eqn:Ecs; [|done].
    injection Hq as <-. unfold where_true. cbn [forallb]. rewrite andb_true_iff, app_nil_r.
    assert (sk_column_n 0 ty = sk_column ty) as Ecol by (by destruct ty). rewrite Ecol in Ecs.
    fold (where_true cs r). rewrite (fragment_selects sk _ ty maps cs r x b) by eauto.
    split; intros [? Hm]; (split; [done|]); [eauto|]. destruct Hm as (y & Hy & Hm). congruence.
  - simpl in Hq. destruct (range_column [] (sk_path sk) maps) as [[pos ty]|] eqn:E.
    { unfold range_column in E. destruct (query_attr_name _ _); done. }
    injection Hq as <-. unfold where_true. cbn [forallb app]. rewrite andb_true_r. tauto.
Qed.

Lemma conditions_hash kc maps conds : query_conditions (D := D) key_info kc maps = Ok conds ->
  exists t rest, conds = CCmp "pk" CEq (BoundText t) :: rest.
Proof.
  unfold query_conditions. destruct (query_pk_text kc maps) as [t|]; [|done].
  destruct (match sk_condition kc with Some _ => _ | None => _ end); [|done].
  destruct (collect_results _ _); [|done]. intros [= <-]. eauto.
Qed.

Lemma query_cols_table : query_cols key_info None = option_list ((fun i => sk_column i.2) <$> scan_info key_info).
Proof.
  unfold query_cols. rewrite all_sks_info. destruct (scan_info key_info) as [[name ty]|]; [|done].
  simpl. by destruct ty.
Qed.

(** The rows of a partition are told apart by the columns of the order. *)
Lemma partition_distinct t items kc maps conds : holds t items ->
  query_conditions (D := D) key_info kc maps = Ok conds ->
  List.NoDup (map (col_values (query_cols key_info None)) (List.filter (where_true conds) (tbl_rows t))).
Proof.
  intros Hb (pt & rest & ->)%conditions_hash. apply (NoDup_map_finer (col_values columns)).
  - intros r s [Hr Cr]%filter_In [Hs Cs]%filter_In E. unfold where_true in Cr, Cs. cbn [forallb] in Cr, Cs.
    apply andb_true_iff in Cr as [Cr _], Cs as [Cs _].
    assert (Hpk : forall r, cond_true r (CCmp "pk" CEq (BoundText pt)) = true -> row_cols r !! "pk" = Some (BoundText pt)).
    { intros x. cbn [cond_true]. destruct (row_cols x !! "pk") as [b|]; [|done].
      cbn [apply_op]. intros Hx%bool_decide_eq_true_1. f_equal. by apply (cmp_eq_iff (A := BoundValue)). }
    apply Hpk in Cr, Cs.
    destruct (base_row t items r Hb Hr) as (k & _ & _ & Hi). apply (bh_items _ _ _ Hb) in Hi.
    destruct (item_key_parts _ _ Hi) as (v & pt0 & _ & _ & Hparts). rewrite query_cols_table in E.
    destruct (scan_info key_info) as [[name ty]|].
    + destruct Hparts as (? & ? & _ & _ & _ & ->). simpl in *. congruence.
    + destruct Hparts as [_ ->]. simpl. congruence.
  - apply NoDup_map_filter. by eapply base_distinct.
Qed.

(** A Query of a table with a sort key can be paged. *)
Lemma table_queryable t items kc maps conds : holds t items ->
  query_conditions (D := D) key_info kc maps = Ok conds -> is_some (scan_info key_info) = true ->
  queryable (D := D) (tbl_rows t) key_info base_ks kc maps None conds.
Proof.
  intros Hb Hq Hsk. split; [done| | |].
  - fold (scan_info key_info). by rewrite Hsk.
  - rewrite query_cols_table. by destruct (scan_info key_info).
  - split; [|by eapply partition_distinct].
    intros r [Hr _]%filter_In. destruct (base_row t items r Hb Hr) as (k & _ & Ek & Hi).
    apply (bh_items _ _ _ Hb) in Hi.
    pose proof (scan_binds_key _ _ Hi) as Hbind. unfold scan_binds in Hbind.
    destruct (item_key_parts _ _ Hi) as (_ & pt & _ & _ & Hparts).
    unfold row_addressed, query_binds. rewrite all_sks_info, query_cols_table.
    unfold scan_base_info in Hbind.
    destruct (scan_info key_info) as [[name ty]|] eqn:Einfo; [|done].
    destruct Hparts as (w & b & Hw & Hbw & -> & Ec). rewrite Ec in Ek. injection Ek as _ Ecol.
    exists [b]. split; [|simpl; by rewrite Ecol].
    destruct base_ks as [|h rest]; [done|]. destruct (bt_get _ _); [|done]. destruct (pk_to_text _); [|done].
    simpl in Hbind |- *. destruct (sk_bind _ _) as [b'|]; [|done]. by injection Hbind as _ ->.
Qed.

(** Storage's Query of the table, as the page reader calls it. *)
Definition query_fetch (t : Table) (kc : KeyCondition) maps (forward : bool) (cursor : option Item) (n : Z)
    (w : unit) : QueryResult * unit :=
  (query_impl (D := D) (tbl_rows t) key_info kc maps forward (Some n) cursor None, w).

Definition partition_items (t : Table) (conds : list Cond) (forward : bool) : list Item :=
  map row_item (paged_rows (tbl_rows t) conds (query_cols key_info None) forward).

(** A table without a sort key has one item at most for a key condition. *)
Lemma single_rows t items kc maps conds : holds t items ->
  query_conditions (D := D) key_info kc maps = Ok conds -> scan_info key_info = None ->
  length (List.filter (where_true conds) (tbl_rows t)) <= 1.
Proof.
  intros Hb Hq Hn. pose proof (partition_distinct t items kc maps conds Hb Hq) as Hd.
  rewrite query_cols_table, Hn in Hd. simpl in Hd.
  destruct (List.filter _ _) as [|r [|s l]]; simpl; [lia|lia|]. exfalso.
  inversion Hd as [|? ? Hx _]; subst. apply Hx. by left.
Qed.

Lemma single_serves t items kc maps forward conds key : holds t items ->
  query_conditions (D := D) key_info kc maps = Ok conds -> scan_info key_info = None ->
  Serves (query_fetch t kc maps forward) key (fun _ => True)
    (fun cursor => match cursor with None => partition_items t conds forward | Some _ => [] end).
Proof.
  intros Hb Hq Hn. pose proof (single_rows t items kc maps conds Hb Hq Hn) as H1.
  unfold partition_items. set (rows := paged_rows _ _ _ _).
  assert (rows = List.filter (where_true conds) (tbl_rows t)) as Erows.
  { symmetry. apply single_Permutation; [done|]. symmetry. apply paged_rows_spec. }
  split.
  - intros cursor n w _ Hz. unfold query_fetch, query_impl. rewrite Hq. fold (scan_info key_info). rewrite Hn.
    destruct cursor as [key'|]; simpl.
    { exists None, w. rewrite take_nil. split; [done|]. by destruct (Z.to_nat n). }
    destruct (sqlite_select_spec (tbl_rows t) {| st_where := conds ++ []; st_order := query_cols key_info None;
      st_forward := forward; st_limit := n + 1 |}) as (l & Hp & _ & El); [simpl; lia|].
    cbn [st_where st_limit] in *. rewrite app_nil_r in *.
    apply Permutation_sym, single_Permutation in Hp; [|done].
    unfold query_cols in El. simpl in El. rewrite El, <- Hp, <- Erows.
    replace (Z.to_nat (n + 1)) with (S (Z.to_nat n)) by lia.
    destruct (finalize_spec rows n base_ks Hz) as (lek & -> & Hlek). eauto.
  - intros cursor before item rest _ E. split; [done|]. destruct cursor; [by destruct before|].
    apply (f_equal length) in E. rewrite length_map, Erows, length_app in E. simpl in E.
    destruct rest; [done|simpl in E; lia].
Qed.

Lemma partition_walk t items kc maps forward conds limit post requests :
  holds t items -> query_conditions (D := D) key_info kc maps = Ok conds ->
  pr_lek_key_schema post = base_ks ->
  (forall k i, items k = Some i -> metered i /\ exists b, passes post i = Ok b) ->
  (forall l, limit = Some l -> (1 <= l)%Z) -> length (partition_items t conds forward) < requests ->
  exists pages, walk (D := D) (query_fetch t kc maps forward) requests limit post None tt = Ok pages
    /\ covers post (partition_items t conds forward) pages.
Proof.
  intros Hb Hq Hlek Hi Hl Hlen. destruct (scan_info key_info) as [i|] eqn:Einfo.
  - pose proof (query_serves (D := D) (tbl_rows t) key_info base_ks kc maps forward None conds
      (table_queryable t items kc maps conds Hb Hq ltac:(by rewrite Einfo))) as Hserves.
    rewrite <- Hlek in Hserves. unfold partition_items in *.
    rewrite <- (paged_after_None _ _ _ _ (query_binds (D := D) key_info None)) in *.
    eapply (serves_walk (query_fetch t kc maps forward)); try done.
    intros cursor item. by apply paged_after_items.
  - apply (serves_walk (query_fetch t kc maps forward) (fun _ => True)
      (fun cursor => match cursor with None => partition_items t conds forward | Some _ => [] end) items);
      try done; [by eapply single_serves|].
    intros [cursor|] item; [done|]. unfold partition_items.
    rewrite <- (paged_after_None _ _ _ _ (query_binds (D := D) key_info None)). by apply paged_after_items.
Qed.

(** The order of the items of a partition. *)
Definition sort_before (forward : bool) (i j : Item) : Prop :=
  match scan_info key_info with
  | Some (name, _) => exists v w, bt_get name i = Some v /\ bt_get name j = Some w
      /\ val_cmp (D := D) v w = if forward then Lt else Gt
  | None => False
  end.

Lemma partition_sorted t items kc maps conds forward : holds t items ->
  query_conditions (D := D) key_info kc maps = Ok conds ->
  (forall k i, items k = Some i -> key_typed kc maps i) ->
  StronglySorted (sort_before forward) (partition_items t conds forward).
Proof.
  intros Hb Hq Hty. unfold partition_items.
  destruct (paged_rows_spec (tbl_rows t) conds (query_cols key_info None) forward) as [Hp Hs].
  pose proof (partition_distinct t items kc maps conds Hb Hq) as Hd.
  apply (StronglySorted_map_strict _ _ _ (col_values (query_cols key_info None))) with (3 := Hs).
  2:{ eapply Permutation_NoDup; [|exact Hd]. by apply Permutation_map. }
  intros r s Hr Hr' Hle Hne. rewrite Hp in Hr, Hr'. apply filter_In in Hr as [Hr _], Hr' as [Hr' _].
  destruct (base_row t items r Hb Hr) as (k & _ & Ek & Hi), (base_row t items s Hb Hr') as (k' & _ & Ek' & Hi').
  pose proof (kt_sort _ _ _ (Hty _ _ Hi)) as Hv. pose proof (kt_sort _ _ _ (Hty _ _ Hi')) as Hw.
  destruct (item_key_parts _ _ (bh_items _ _ _ Hb _ _ Hi)) as (_ & pt & _ & _ & Hparts).
  destruct (item_key_parts _ _ (bh_items _ _ _ Hb _ _ Hi')) as (_ & pt' & _ & _ & Hparts').
  unfold row_le in Hle. unfold sort_before. rewrite query_cols_table in *.
  destruct (scan_info key_info) as [[name ty]|]; [|done].
  destruct Hparts as (v & x & Ev & Ex & -> & Ec), Hparts' as (w & y & Ew & Ey & -> & Ec').
  rewrite Ec in Ek, Ek'. injection Ek as _ Ek. injection Ek' as _ Ek'. simpl in Hle, Hne.
  rewrite Ek, Ek' in Hle, Hne. exists v, w. split; [done|]. split; [done|].
  rewrite <- (bound_cmp_val v w ty x y) by eauto.
  unfold cmp, list_ord in Hle. simpl in Hle. unfold cmp, option_ord in Hle.
  change (bound_cmp x y) with (cmp x y) in *. simpl in Hle.
  destruct (cmp x y) eqn:E; [apply cmp_eq_iff in E; congruence|by destruct forward|by destruct forward].
Qed.

(** C6. A Query reads a partition of the table: the client that follows
    [LastEvaluatedKey] gets its last page within one request more than there are
    matching items; the pages, one after the other, hold those that pass the filter,
    projected; and the items read are exactly those of the table that have the
    partition key and satisfy the sort key condition, once each and in the order of
    the sort key, ascending or descending as asked.  A [begins_with] on text leaves
    out the keys that go on with U+10FFFF after the prefix. *)
Theorem query_reads_table t items kc maps conds forward limit post :
  holds t items -> table_condition kc maps -> query_conditions (D := D) key_info kc maps = Ok conds ->
  pr_lek_key_schema post = base_ks ->
  (forall k i, items k = Some i -> key_typed kc maps i /\ metered i /\ exists b, passes post i = Ok b) ->
  (forall l, limit = Some l -> (1 <= l)%Z) ->
  exists all,
    (forall requests, length all < requests ->
       exists pages, walk (D := D) (query_fetch t kc maps forward) requests limit post None tt = Ok pages
         /\ covers post all pages)
    /\ (forall i, In i all <-> (exists k, items k = Some i) /\ key_matches kc maps i)
    /\ List.NoDup all /\ StronglySorted (sort_before forward) all.
Proof.
  intros Hb Htc Hq Hlek Hi Hl. exists (partition_items t conds forward). split; [|split; [|split]].
  - intros requests Hlen. apply (partition_walk t items); try done. intros k i Hk. by apply (Hi k).
  - intros i. unfold partition_items. rewrite (proj1 (paged_rows_spec _ _ _ _)), in_map_iff. split.
    + intros (r & <- & [Hr Hw]%filter_In). destruct (base_row t items r Hb Hr) as (k & _ & _ & Hk).
      split; [by exists k|]. apply (conditions_select t items kc maps conds r); try done. by apply (Hi k).
    + intros [[k Hk] Hm]. destruct (base_item t items k i Hb Hk) as (r & Hr & <- & _). exists r.
      split; [done|]. apply filter_In. split; [done|].
      apply (conditions_select t items kc maps conds r); try done. by apply (Hi k).
  - unfold partition_items. eapply Permutation_NoDup; [apply Permutation_map; symmetry; apply paged_rows_spec|].
    by eapply NoDup_map_filter, base_items_distinct.
  - eapply partition_sorted; [done|done|]. intros k i Hk. by apply (Hi k).
Qed.
End Reading.
