(* ===== verification/SqliteStream.v ===== *)
(** * Streams

    Reading a stream: [crates/storage-sqlite/src/stream.rs], the shards of a table and
    the records of a shard, and [crates/engine/src/streams.rs], iterators and
    GetRecords.  The [tables] rows that a read joins are an argument; a stored record
    is the record, not its JSON text. *)

From Stdlib Require Import Sorted.
From S2P Require Import Prelude BTree Types Error Decimal Number Ast Tokenizer Resolver Evaluator ItemSize.
From S2P Require Import Storage StorageKey NumberKey KeyOrder SqlSelect Projection ReadPage SqliteQuery.
From S2P Require Import SqlWrite IndexKeys UpdateKeys SqliteIndex SqliteQueue SqliteStore StoreRefine Arn.

(** ** Shards *)

Definition SHARDS_PER_STREAM : nat := 4.

(** The row of [tables] that an account and a table name select: the id of the table,
    and the label of its stream. *)
Record CatalogRow : Type := {
  cat_table_id : string;
  cat_stream_label : option string
}.

Notation Catalog := (gmap (string * string) CatalogRow).

Definition shard_id_of (table_id : string) (i : nat) : string :=
  "shardId-" +:+ table_id +:+ "-" +:+ zero_padded 16 (N_to_bytes (N.of_nat i)).

(** [INSERT INTO stream_shards]: the shard id is the primary key. *)
Definition insert_shard (s : Streams) (table_id shard_id : string) : result StorageError Streams :=
  if existsb (fun kv => existsb (String.eqb shard_id) kv.2) (map_to_list (str_shards s))
  then Err (SE_Internal "")
  else Ok {| str_seq := str_seq s;
             str_shards := <[table_id := default [] (str_shards s !! table_id) ++ [shard_id]]> (str_shards s);
             str_records := str_records s |}.

Fixpoint insert_shards (s : Streams) (table_id : string) (l : list nat) : result StorageError Streams :=
  match l with
  | [] => Ok s
  | i :: l =>
      let? s := insert_shard s table_id (shard_id_of table_id i) in
      insert_shards s table_id l
  end.

(** The label is set on the row of the table, if there is one. *)
Definition init_stream_shards (s : Streams) (catalog : Catalog) (account_id table_name table_id label : string)
    : result StorageError (Streams * Catalog) :=
  let? s := insert_shards s table_id (seq 0 SHARDS_PER_STREAM) in
  Ok (s, alter (fun row => {| cat_table_id := cat_table_id row; cat_stream_label := Some label |})
           (account_id, table_name) catalog).

Definition shard_in_stream (table_id shard_id : string) (table_label : option string) (arn_label : string) : bool :=
  bool_decide (table_label = Some arn_label).

Definition stream_does_not_exist : StorageError :=
  SE_TableNotFound "Requested resource not found: Stream does not exist".

Definition shard_not_in_stream (stream_arn : string) : StorageError :=
  SE_TableNotFound ("Requested resource not found: Stream: " +:+ stream_arn +:+ " not found.").

(** ** Records *)

Definition seq_before (a b : StreamRow) : bool :=
  bool_decide (cmp (st_sequence_number a) (st_sequence_number b) = Lt).

Fixpoint insert_row (r : StreamRow) (l : list StreamRow) : list StreamRow :=
  match l with
  | [] => [r]
  | x :: l => if seq_before x r then x :: insert_row r l else r :: x :: l
  end.

(** [ORDER BY sequence_number]. *)
Definition order_by_sequence (l : list StreamRow) : list StreamRow := foldr insert_row [] l.

(** The records of a shard after a sequence number, in order. *)
Definition shard_rows (s : Streams) (shard_id : string) (after : option string) : list StreamRow :=
  order_by_sequence
    (List.filter (fun r => String.eqb (st_shard_id r) shard_id
                   && match after with
                      | Some a => bool_decide (cmp (st_sequence_number r) a = Gt)
                      | None => true
                      end) (str_records s)).

(** Whether a table has the shard. *)
Definition has_shard (s : Streams) (table_id shard_id : string) : bool :=
  existsb (String.eqb shard_id) (default [] (str_shards s !! table_id)).

Definition get_stream_records (s : Streams) (catalog : Catalog) (account_id stream_arn shard_id : string)
    (after_sequence : option string) (limit : Z) : result StorageError (list StreamRecord * option string) :=
  let? names := parse_stream_arn stream_arn in
  match catalog !! (account_id, names.1) with
  | Some row =>
      if has_shard s (cat_table_id row) shard_id then
        if shard_in_stream (cat_table_id row) shard_id (cat_stream_label row) names.2 then
          let records := map st_record (take (Z.to_nat limit) (shard_rows s shard_id after_sequence)) in
          Ok (records, (fun r => sd_sequence_number (sr_dynamodb r)) <$> last_error records)
        else Err stream_does_not_exist
      else Err stream_does_not_exist
  | None => Err stream_does_not_exist
  end.

Definition validate_shard (s : Streams) (catalog : Catalog) (account_id stream_arn shard_id : string)
    : result StorageError unit :=
  let? names := parse_stream_arn stream_arn in
  match catalog !! (account_id, names.1) with
  | Some row =>
      if bool_decide (cat_stream_label row = Some names.2) then
        if has_shard s (cat_table_id row) shard_id then Ok tt else Err (shard_not_in_stream stream_arn)
      else Err stream_does_not_exist
  | None => Err stream_does_not_exist
  end.

Definition latest_sequence_number (s : Streams) (shard_id : string) : option string :=
  st_sequence_number <$> last_error (shard_rows s shard_id None).

(** ** Iterators *)

Inductive ShardIteratorType : Type := TrimHorizon | Latest | AtSequenceNumber | AfterSequenceNumber.

Record GetShardIteratorInput : Type := {
  gsi_stream_arn : string;
  gsi_shard_id : string;
  gsi_shard_iterator_type : ShardIteratorType;
  gsi_sequence_number : option string
}.

Record GetRecordsInput : Type := {
  gr_shard_iterator : string;
  gr_limit : option Z
}.

Record ShardIterator : Type := {
  it_shard_id : string;
  it_type : string;
  it_sequence : string;
  it_created_at : option N;
  it_stream_arn : option string
}.

Definition u128_max : N := 2 ^ 128 - 1.

(** [str::parse::<u128>()]. *)
Definition parse_u128 (s : string) : option N :=
  let l := as_bytes s in
  let ds := match l with
            | c :: l' => if Ascii.eqb c "+" then l' else l
            | [] => l
            end in
  if bool_decide (ds = []) then None
  else if forallb is_digit ds then
    if (digits_val ds <=? u128_max)%N then Some (digits_val ds) else None
  else None.

(** [std::str::from_utf8]: the table of well-formed byte sequences. *)
Definition cont (c : ascii) : bool := in_range 128 191 c.

(** What follows the first character. *)
Definition utf8_char (l : bytes) : option bytes :=
  match l with
  | [] => None
  | a :: l =>
      if (byte a <? 128)%N then Some l
      else match l with
           | [] => None
           | b :: l =>
               if in_range 194 223 a then if cont b then Some l else None
               else match l with
                    | [] => None
                    | c :: l =>
                        if in_range 224 239 a then
                          if (if (byte a =? 224)%N then in_range 160 191 b
                              else if (byte a =? 237)%N then in_range 128 159 b else cont b)
                             && cont c then Some l else None
                        else match l with
                             | [] => None
                             | d :: l =>
                                 if in_range 240 244 a
                                    && (if (byte a =? 240)%N then in_range 144 191 b
                                        else if (byte a =? 244)%N then in_range 128 143 b else cont b)
                                    && cont c && cont d then Some l else None
                             end
                    end
           end
  end.

Fixpoint utf8_chars (fuel : nat) (l : bytes) : bool :=
  match l with
  | [] => true
  | _ =>
      match fuel with
      | O => false
      | S fuel => match utf8_char l with Some l => utf8_chars fuel l | None => false end
      end
  end.

Definition utf8_valid (l : bytes) : bool := utf8_chars (length l) l.

Definition from_utf8 (b : bytes) : option string := if utf8_valid b then Some (of_bytes b) else None.

Definition SHARD_ITERATOR_EXPIRY_SECS : N := 900.
Definition SHARD_ITERATOR_EXPIRED_MESSAGE : string := "Shard iterator has expired".
Definition GET_RECORDS_MAX_LIMIT : Z := 1000.
Definition DEFAULT_SEQ_NUMBER_WIDTH : nat := 21.

Definition bar (a b : string) : string := a +:+ String "|"%char b.

Definition encode_shard_iterator `{Base64} (shard_id iter_type sequence : string) (created_at : N)
    (stream_arn : string) : string :=
  b64_encode (as_bytes (bar shard_id (bar iter_type (bar sequence (bar (N_to_string created_at) stream_arn))))).

Definition decode_shard_iterator `{Base64Decode} (encoded : string) : option ShardIterator :=
  match b64_decode encoded with
  | Err _ => None
  | Ok b =>
      token ← from_utf8 b;
      match str_splitn 5 "|" token with
      | shard_id :: iter_type :: rest =>
          Some {| it_shard_id := shard_id; it_type := iter_type;
                  it_sequence := default "" (rest !! 0);
                  it_created_at := rest !! 1 ≫= parse_usize;
                  it_stream_arn :=
                    match rest !! 2 with
                    | Some a => if String.eqb a "" then None else Some a
                    | None => None
                    end |}
      | _ => None
      end
  end.

Inductive ShardIteratorClass : Type := IterStream (arn : string) | IterExpired | IterInvalid.

Definition classify_shard_iterator `{Base64Decode} (token : string) : ShardIteratorClass :=
  match decode_shard_iterator token with
  | None => IterInvalid
  | Some it =>
      match it_stream_arn it with
      | Some arn => IterStream arn
      | None => if is_some (it_created_at it) then IterExpired else IterInvalid
      end
  end.

Definition no_stream_arn_error (it : ShardIterator) : DynamoDbError :=
  if is_some (it_created_at it) then ExpiredIteratorException SHARD_ITERATOR_EXPIRED_MESSAGE
  else ValidationException "Invalid ShardIterator".

Definition stream_constraint (member rule : string) : string :=
  "1 validation error detected: Value at '" +:+ member
  +:+ "' failed to satisfy constraint: Member must " +:+ rule.

Definition get_records_limit (limit : option Z) : result DynamoDbError Z :=
  match limit with
  | Some l =>
      if (l <? 1)%Z then
        Err (ValidationException (stream_constraint "limit" "have value greater than or equal to 1"))
      else if (GET_RECORDS_MAX_LIMIT <? l)%Z then
        Err (ValidationException
          "One or more parameter values were invalid: Limit should be less than or equal to 1000")
      else Ok l
  | None => Ok GET_RECORDS_MAX_LIMIT
  end.

Definition stream_to_dynamo (e : StorageError) : DynamoDbError :=
  match e with
  | SE_Validation msg => ValidationException msg
  | SE_TableNotFound name => ResourceNotFoundException name
  | _ => InternalServerError "Internal server error"
  end.

Definition from_storage {A : Type} (r : result StorageError A) : result DynamoDbError A :=
  match r with Ok x => Ok x | Err e => Err (stream_to_dynamo e) end.

(** Where an iterator starts: after a sequence number, or at the beginning. *)
Definition iterator_sequence (s : Streams) (input : GetShardIteratorInput) : result DynamoDbError string :=
  match gsi_shard_iterator_type input with
  | TrimHorizon => Ok ""
  | Latest => Ok (default "" (latest_sequence_number s (gsi_shard_id input)))
  | AtSequenceNumber =>
      let? raw := ok_or_else (gsi_sequence_number input)
        (ValidationException "SequenceNumber is required for AT_SEQUENCE_NUMBER iterator type") in
      let? n := ok_or_else (parse_u128 raw) (ValidationException "Invalid SequenceNumber") in
      Ok (if (0 <? n)%N then zero_padded DEFAULT_SEQ_NUMBER_WIDTH (N_to_bytes (n - 1)) else "")
  | AfterSequenceNumber =>
      ok_or_else (gsi_sequence_number input)
        (ValidationException "SequenceNumber is required for AFTER_SEQUENCE_NUMBER iterator type")
  end.

Definition handle_get_shard_iterator `{Base64} (now : N) (s : Streams) (catalog : Catalog) (account_id : string)
    (input : GetShardIteratorInput) : result DynamoDbError string :=
  let? _ := from_storage (validate_shard s catalog account_id (gsi_stream_arn input) (gsi_shard_id input)) in
  let? seq := iterator_sequence s input in
  Ok (encode_shard_iterator (gsi_shard_id input) "AFTER_SEQUENCE_NUMBER" seq now (gsi_stream_arn input)).

(** ** GetRecords *)

Definition handle_get_records `{Base64} `{Base64Decode} (now : N) (s : Streams) (catalog : Catalog)
    (account_id : string) (input : GetRecordsInput) : result DynamoDbError (list StreamRecord * string) :=
  let? it := ok_or_else (decode_shard_iterator (gr_shard_iterator input))
    (ValidationException "Invalid ShardIterator") in
  let? _ :=
    match it_created_at it with
    | Some created_at =>
        if (SHARD_ITERATOR_EXPIRY_SECS <? now - created_at)%N
        then Err (ExpiredIteratorException SHARD_ITERATOR_EXPIRED_MESSAGE) else Ok tt
    | None => Ok tt
    end in
  match it_stream_arn it with
  | None => Err (no_stream_arn_error it)
  | Some stream_arn =>
      let? limit := get_records_limit (gr_limit input) in
      let after_sequence := if String.eqb (it_sequence it) "" then None else Some (it_sequence it) in
      let? page := from_storage
        (get_stream_records s catalog account_id stream_arn (it_shard_id it) after_sequence limit) in
      let next_seq := default (it_sequence it) page.2 in
      Ok (page.1, encode_shard_iterator (it_shard_id it) "AFTER_SEQUENCE_NUMBER" next_seq now stream_arn)
  end.

(** *** The shards of a new stream *)

Definition stream_shards (table_id : string) : list string := map (shard_id_of table_id) (seq 0 SHARDS_PER_STREAM).

Lemma shard_id_inj table_id i j : i < SHARDS_PER_STREAM -> j < SHARDS_PER_STREAM ->
  shard_id_of table_id i = shard_id_of table_id j -> i = j.
Proof.
  unfold SHARDS_PER_STREAM, shard_id_of. intros Hi Hj E. do 3 apply str_app_inj in E.
  destruct i as [|[|[|[|]]]], j as [|[|[|[|]]]]; try lia; by vm_compute in E.
Qed.

Lemma stream_shards_NoDup table_id : List.NoDup (stream_shards table_id).
Proof.
  unfold stream_shards. apply NoDup_ListNoDup, NoDup_fmap_2_strong; [|apply NoDup_seq].
  intros i j Hi%elem_of_seq Hj%elem_of_seq. apply shard_id_inj; lia.
Qed.

Lemma insert_shard_Ok s table_id shard_id :
  (forall id l, str_shards s !! id = Some l -> ~ In shard_id l) ->
  insert_shard s table_id shard_id
  = Ok {| str_seq := str_seq s;
          str_shards := <[table_id := default [] (str_shards s !! table_id) ++ [shard_id]]> (str_shards s);
          str_records := str_records s |}.
Proof.
  intros Hn. unfold insert_shard. destruct (existsb _ _) eqn:E; [|done]. exfalso.
  apply existsb_exists in E as ([id l] & Hin & Hl). apply list_elem_of_In, elem_of_map_to_list in Hin.
  apply existsb_exists in Hl as (x & Hx & ->%String.eqb_eq). by apply (Hn id l).
Qed.

Lemma insert_shards_Ok table_id l : forall s known,
  List.NoDup (known ++ map (shard_id_of table_id) l) ->
  default [] (str_shards s !! table_id) = known ->
  (forall id ids i, id <> table_id -> str_shards s !! id = Some ids -> ~ In (shard_id_of table_id i) ids) ->
  (l <> [] \/ str_shards s !! table_id = Some known) ->
  exists s', insert_shards s table_id l = Ok s' /\ str_seq s' = str_seq s /\ str_records s' = str_records s
    /\ str_shards s' !! table_id = Some (known ++ map (shard_id_of table_id) l)
    /\ forall id, id <> table_id -> str_shards s' !! id = str_shards s !! id.
Proof.
  induction l as [|i l IH]; intros s known Hn Hk Ho Hne; cbn [insert_shards].
  { exists s. destruct Hne as [?|Hs]; [done|]. by rewrite app_nil_r. }
  rewrite insert_shard_Ok.
  - rewrite Hk. destruct (IH {| str_seq := str_seq s;
      str_shards := <[table_id := known ++ [shard_id_of table_id i]]> (str_shards s);
      str_records := str_records s |} (known ++ [shard_id_of table_id i])) as (s' & -> & H1 & H2 & H3 & H4).
    + by rewrite <- app_assoc.
    + cbn [str_shards]. by rewrite lookup_insert_eq.
    + cbn [str_shards]. intros id ids j Hid. rewrite lookup_insert_ne by done. by apply Ho.
    + right. cbn [str_shards]. by rewrite lookup_insert_eq.
    + exists s'. cbn [str_seq str_records str_shards] in *. rewrite <- app_assoc in H3. repeat split; try done.
      intros id Hid. rewrite H4, lookup_insert_ne by done. done.
  - intros id ids Hs Hin. destruct (decide (id = table_id)) as [->|Hid]; [|by apply (Ho id ids i)].
    rewrite Hs in Hk. simpl in Hk. subst ids. apply NoDup_remove_2 in Hn. apply Hn. apply in_or_app. by left.
Qed.

(** A table that gets a stream has four shards of its own, and its label. *)
Lemma init_stream_shards_Ok s catalog account_id table_name table_id label :
  str_shards s !! table_id = None ->
  (forall id ids i, str_shards s !! id = Some ids -> ~ In (shard_id_of table_id i) ids) ->
  exists s', init_stream_shards s catalog account_id table_name table_id label
      = Ok (s', alter (fun row => {| cat_table_id := cat_table_id row; cat_stream_label := Some label |})
                  (account_id, table_name) catalog)
    /\ str_seq s' = str_seq s /\ str_records s' = str_records s
    /\ str_shards s' !! table_id = Some (stream_shards table_id).
Proof.
  intros Hnone Ho. unfold init_stream_shards.
  destruct (insert_shards_Ok table_id (seq 0 SHARDS_PER_STREAM) s []) as (s' & -> & H1 & H2 & H3 & _).
  - apply stream_shards_NoDup.
  - by rewrite Hnone.
  - intros id ids i _. apply Ho.
  - by left.
  - exists s'. done.
Qed.

(** ** Tokens *)

Lemma utf8_char_app a b r : utf8_char a = Some r -> utf8_char (a ++ b) = Some (r ++ b).
Proof.
  unfold utf8_char. destruct a as [|c1 a]; [done|]. simpl. destruct (byte c1 <? 128)%N; [by intros [= <-]|].
  destruct a as [|c2 a]; [done|]. simpl. destruct (in_range 194 223 c1).
  { destruct (cont c2); [by intros [= <-]|done]. }
  destruct a as [|c3 a]; [done|]. simpl. destruct (in_range 224 239 c1).
  { destruct (_ && _); [by intros [= <-]|done]. }
  destruct a as [|c4 a]; [done|]. simpl. destruct (_ && _); [by intros [= <-]|done].
Qed.

Lemma utf8_chars_more n m a : utf8_chars n a = true -> n <= m -> utf8_chars m a = true.
Proof.
  revert m a. induction n as [|n IH]; intros m a Ha Hm; destruct a as [|c a]; [by destruct m|done|by destruct m|].
  destruct m as [|m]; [lia|]. cbn [utf8_chars] in *. destruct (utf8_char (c :: a)); [|done].
  apply IH; [done|lia].
Qed.

Lemma utf8_chars_app n m a b : utf8_chars n a = true -> utf8_chars m b = true -> utf8_chars (n + m) (a ++ b) = true.
Proof.
  revert a. induction n as [|n IH]; intros a Ha Hb; destruct a as [|c a]; [done|done| |].
  - eapply utf8_chars_more; [exact Hb|lia].
  - cbn [utf8_chars Nat.add app] in *. destruct (utf8_char (c :: a)) as [r|] eqn:E; [|done].
    apply (utf8_char_app _ b) in E. change (c :: a ++ b) with ((c :: a) ++ b). rewrite E. by apply IH.
Qed.

Lemma utf8_valid_app a b : utf8_valid a = true -> utf8_valid b = true -> utf8_valid (a ++ b) = true.
Proof. unfold utf8_valid. rewrite length_app. apply utf8_chars_app. Qed.

Lemma utf8_valid_cons c a : is_ascii c = true -> utf8_valid a = true -> utf8_valid (c :: a) = true.
Proof.
  intros Hc Ha. change (c :: a) with ([c] ++ a). apply utf8_valid_app; [|done].
  unfold utf8_valid, utf8_char. simpl. unfold is_ascii in Hc. by rewrite Hc.
Qed.

Lemma utf8_valid_digits l : forallb is_digit l = true -> utf8_valid l = true.
Proof.
  induction l as [|c l IH]; [done|]. simpl. intros [Hc Hl]%andb_true_iff. apply utf8_valid_cons; [|by apply IH].
  unfold is_digit in Hc. apply in_range_iff in Hc. unfold is_ascii. apply N.ltb_lt. lia.
Qed.

Lemma utf8_valid_bar a b : utf8_valid (as_bytes a) = true -> utf8_valid (as_bytes b) = true ->
  utf8_valid (as_bytes (bar a b)) = true.
Proof. intros Ha Hb. unfold bar. rewrite as_bytes_app. apply utf8_valid_app; [done|]. by apply utf8_valid_cons. Qed.

Lemma parse_usize_to_string n : (n <= usize_max)%N -> parse_usize (N_to_string n) = Some n.
Proof.
  intros Hn. unfold parse_usize, N_to_string. rewrite as_bytes_of_bytes.
  destruct (N_to_bytes_spec n) as (Hd & Hv & Hne).
  destruct (N_to_bytes n) as [|c l] eqn:E; [done|].
  assert (Ascii.eqb c "+" = false) as ->.
  { apply Ascii.eqb_neq. intros ->. simpl in Hd. done. }
  rewrite bool_decide_eq_false_2 by done. rewrite Hd, Hv. by rewrite (proj2 (N.leb_le _ _)).
Qed.

(** A token for a position of a shard of a stream. *)
Record token_ok (shard_id seq stream_arn : string) : Prop := {
  tk_shard : str_has "|" shard_id = false /\ utf8_valid (as_bytes shard_id) = true;
  tk_seq : str_has "|" seq = false /\ utf8_valid (as_bytes seq) = true;
  tk_arn : stream_arn <> "" /\ utf8_valid (as_bytes stream_arn) = true
}.

Lemma digits_no_bar l : forallb is_digit l = true -> str_has "|" (of_bytes l) = false.
Proof.
  induction l as [|c l IH]; simpl; [done|]. intros [Hc Hl]%andb_true_iff. apply orb_false_iff.
  split; [|by apply IH]. apply Ascii.eqb_neq. by intros ->.
Qed.

Section Iterators.
Context `{HB : Base64} `{HBD : Base64Decode} `{HBR : !Base64RoundTrip}.

(** What an iterator says is what it was made of. *)
Lemma decode_encode_iterator shard_id seq created_at stream_arn :
  token_ok shard_id seq stream_arn -> (created_at <= usize_max)%N ->
  decode_shard_iterator (encode_shard_iterator shard_id "AFTER_SEQUENCE_NUMBER" seq created_at stream_arn)
  = Some {| it_shard_id := shard_id; it_type := "AFTER_SEQUENCE_NUMBER"; it_sequence := seq;
            it_created_at := Some created_at; it_stream_arn := Some stream_arn |}.
Proof.
  intros [[Hs1 Hs2] [Hq1 Hq2] [Ha1 Ha2]] Hc. destruct (N_to_bytes_spec created_at) as (Hd & _ & _).
  unfold decode_shard_iterator, encode_shard_iterator. rewrite b64_decode_encode. unfold from_utf8.
  rewrite of_bytes_as_bytes.
  assert (utf8_valid (as_bytes (N_to_string created_at)) = true)
    by (unfold N_to_string; rewrite as_bytes_of_bytes; by apply utf8_valid_digits).
  rewrite (utf8_valid_bar shard_id) by (try done; repeat apply utf8_valid_bar; done). cbn [mbind option_bind].
  assert (str_splitn 5 "|" (bar shard_id (bar "AFTER_SEQUENCE_NUMBER" (bar seq (bar (N_to_string created_at) stream_arn))))
    = [shard_id; "AFTER_SEQUENCE_NUMBER"; seq; N_to_string created_at; stream_arn]) as ->.
  { apply str_splitn_5. repeat split; try done. by apply digits_no_bar. }
  simpl. rewrite parse_usize_to_string by done. by destruct (String.eqb_spec stream_arn "").
Qed.
End Iterators.

(** ** The order of records *)

Definition row_before (a b : StreamRow) : Prop := cmp (st_sequence_number a) (st_sequence_number b) = Lt.

(** Records in the order they were written, numbered up to the counter. *)
Record streams_ok (s : Streams) : Prop := {
  sr_sorted : StronglySorted row_before (str_records s);
  sr_numbers : forall r, In r (str_records s) -> exists n, (1 <= n <= str_seq s)%N
    /\ st_sequence_number r = pad21 n /\ sd_sequence_number (sr_dynamodb (st_record r)) = pad21 n
}.

Lemma pad21_zero_padded n : pad21 n = zero_padded 21 (N_to_bytes n).
Proof.
  unfold pad21, zero_padded, N_to_string. apply as_bytes_inj. rewrite as_bytes_app, !as_bytes_of_bytes.
  by rewrite <- length_as_bytes, as_bytes_of_bytes.
Qed.

(** The texts of sequence numbers sort as the numbers. *)
Lemma pad21_order m n : (m < 10 ^ 21)%N -> (n < 10 ^ 21)%N -> cmp (pad21 m) (pad21 n) = N.compare m n.
Proof.
  intros Hm Hn. rewrite !pad21_zero_padded.
  destruct (N_to_bytes_spec m) as (Dm & Vm & _), (N_to_bytes_spec n) as (Dn & Vn & _).
  destruct (zero_padded_spec 21 (N_to_bytes m) is_digit (N_to_bytes_length m 21 ltac:(lia) Hm) eq_refl Dm) as (L1 & A1 & V1).
  destruct (zero_padded_spec 21 (N_to_bytes n) is_digit (N_to_bytes_length n 21 ltac:(lia) Hn) eq_refl Dn) as (L2 & A2 & V2).
  change (cmp ?x ?y) with (list_cmp (as_bytes x) (as_bytes y)).
  rewrite digits_cmp_length; [by rewrite V1, V2, Vm, Vn|by rewrite <- str_all_bytes|by rewrite <- str_all_bytes|].
  by rewrite !length_as_bytes, L1, L2.
Qed.

Lemma insert_row_first r l : Forall (row_before r) l -> insert_row r l = r :: l.
Proof.
  destruct l as [|x l]; [done|]. intros Hr. inversion Hr as [|? ? H _]; subst. simpl.
  unfold seq_before. rewrite bool_decide_eq_false_2; [done|]. unfold row_before in H.
  intros E. rewrite cmp_antisym, E in H. done.
Qed.

Lemma order_by_sequence_id l : StronglySorted row_before l -> order_by_sequence l = l.
Proof.
  induction 1 as [|r l Hs IH Hr]; [done|]. unfold order_by_sequence in *. simpl. rewrite IH. by apply insert_row_first.
Qed.

(** The records of a shard. *)
Definition of_shard (shard_id : string) (s : Streams) : list StreamRow :=
  List.filter (fun r => String.eqb (st_shard_id r) shard_id) (str_records s).

Lemma of_shard_sorted shard_id s : streams_ok s -> StronglySorted row_before (of_shard shard_id s).
Proof. intros Hs. apply StronglySorted_List_filter, Hs. Qed.

Lemma shard_rows_all s shard_id : streams_ok s -> shard_rows s shard_id None = of_shard shard_id s.
Proof.
  intros Hs. unfold shard_rows, of_shard. rewrite (filter_ext_In _ (fun r => String.eqb (st_shard_id r) shard_id)).
  - by apply order_by_sequence_id, of_shard_sorted.
  - intros r _. by rewrite andb_true_r.
Qed.

Lemma sorted_after l1 r l2 : StronglySorted row_before (l1 ++ r :: l2) ->
  List.filter (fun x => bool_decide (cmp (st_sequence_number x) (st_sequence_number r) = Gt)) (l1 ++ r :: l2) = l2.
Proof.
  intros Hs. induction l1 as [|x l1 IH]; simpl in *; inversion Hs as [|? ? Hs' Hx]; subst.
  - rewrite bool_decide_eq_false_2 by (by rewrite cmp_refl). apply filter_all. intros x Hin.
    rewrite List.Forall_forall in Hx. specialize (Hx x Hin). unfold row_before in Hx.
    apply bool_decide_eq_true_2. by rewrite cmp_antisym, Hx.
  - rewrite bool_decide_eq_false_2; [by apply IH|]. rewrite List.Forall_forall in Hx.
    specialize (Hx r ltac:(apply in_or_app; right; by left)). unfold row_before in Hx. by rewrite Hx.
Qed.

(** What follows the first [c] records, read from the last of them. *)
Lemma shard_rows_after s shard_id c : streams_ok s -> c <= length (of_shard shard_id s) ->
  shard_rows s shard_id (st_sequence_number <$> last_error (take c (of_shard shard_id s)))
  = drop c (of_shard shard_id s).
Proof.
  intros Hs Hc. pose proof (of_shard_sorted shard_id s Hs) as Hsort.
  destruct (last_error (take c (of_shard shard_id s))) as [r|] eqn:El; simpl.
  - destruct (last_error_split _ _ El) as [l1 E].
    assert (of_shard shard_id s = l1 ++ r :: drop c (of_shard shard_id s)) as Hsplit.
    { rewrite <- (take_drop c (of_shard shard_id s)) at 1. rewrite E, <- app_assoc. done. }
    unfold shard_rows. rewrite <- filter_filter. fold (of_shard shard_id s). rewrite Hsplit in Hsort |- * at 1.
    rewrite (sorted_after l1 r) by done. apply order_by_sequence_id. clear El E Hsplit.
    induction l1 as [|x l1 IH]; simpl in Hsort; inversion Hsort; subst; [done|by apply IH].
  - apply last_error_None in El. rewrite shard_rows_all by done.
    assert (length (take c (of_shard shard_id s)) = 0) as Hz by (by rewrite El).
    rewrite length_take in Hz. assert (c = 0 \/ length (of_shard shard_id s) = 0) as [->|Hn] by lia; [done|].
    by destruct (of_shard shard_id s), c.
Qed.

(** ** Reading a shard *)

Lemma last_error_snoc {A : Type} (l : list A) x : last_error (l ++ [x]) = Some x.
Proof. induction l as [|y l IH]; [done|]. simpl. rewrite IH. by destruct (l ++ [x]) eqn:E; [destruct l|]. Qed.

Lemma last_error_app {A : Type} (l l' : list A) :
  last_error (l ++ l') = match last_error l' with Some x => Some x | None => last_error l end.
Proof.
  destruct (last_error l') as [x|] eqn:E; [|by apply last_error_None in E as ->; rewrite app_nil_r].
  destruct (last_error_split _ _ E) as [k ->]. by rewrite app_assoc, last_error_snoc.
Qed.

Section Reading.
Context `{HB : Base64} `{HBD : Base64Decode} `{HBR : !Base64RoundTrip}.
Context (catalog : Catalog) (account_id stream_arn shard_id : string).

(** The shard is one of the stream that the ARN names, in the caller's account. *)
Record served (s : Streams) : Prop := {
  sv_catalog : exists names row, parse_stream_arn stream_arn = Ok names
    /\ catalog !! (account_id, names.1) = Some row /\ cat_stream_label row = Some names.2
    /\ has_shard s (cat_table_id row) shard_id = true;
  sv_token : str_has "|" shard_id = false /\ utf8_valid (as_bytes shard_id) = true
    /\ utf8_valid (as_bytes stream_arn) = true
}.

(** The iterator after the first [c] records of the shard. *)
Definition position (s : Streams) (c : nat) : string :=
  default "" (st_sequence_number <$> last_error (take c (of_shard shard_id s))).

Definition token_at (now : N) (s : Streams) (c : nat) : string :=
  encode_shard_iterator shard_id "AFTER_SEQUENCE_NUMBER" (position s c) now stream_arn.

Lemma pad21_digits n : forallb is_digit (as_bytes (pad21 n)) = true /\ pad21 n <> "".
Proof.
  destruct (N_to_bytes_spec n) as (Hd & _ & Hne). unfold pad21, N_to_string. rewrite as_bytes_app, !as_bytes_of_bytes.
  rewrite forallb_app, Hd, digits_replicate. split; [done|]. intros E.
  apply (f_equal as_bytes) in E. rewrite as_bytes_app, !as_bytes_of_bytes in E. by apply app_eq_nil in E as [_ ?].
Qed.

Lemma position_cases s c : streams_ok s ->
  position s c = "" /\ last_error (take c (of_shard shard_id s)) = None
  \/ exists r n, last_error (take c (of_shard shard_id s)) = Some r /\ position s c = pad21 n
       /\ st_sequence_number r = pad21 n /\ sd_sequence_number (sr_dynamodb (st_record r)) = pad21 n.
Proof.
  intros Hs. unfold position. destruct (last_error (take c (of_shard shard_id s))) as [r|] eqn:El; [right|by left].
  assert (In r (str_records s)) as Hr.
  { destruct (last_error_split _ _ El) as [k E].
    assert (In r (of_shard shard_id s)) as [? _]%filter_In; [|done]. rewrite <- (take_drop c (of_shard shard_id s)), E.
    apply in_or_app. left. apply in_or_app. right. by left. }
  destruct (sr_numbers _ Hs r Hr) as (n & _ & H1 & H2). exists r, n. simpl. by rewrite H1, H2.
Qed.

Lemma position_after s c : streams_ok s ->
  (if String.eqb (position s c) "" then None else Some (position s c))
  = st_sequence_number <$> last_error (take c (of_shard shard_id s)).
Proof.
  intros Hs. destruct (position_cases s c Hs) as [[-> ->]|(r & n & -> & -> & Hr & _)]; [done|]. simpl.
  rewrite Hr. destruct (String.eqb_spec (pad21 n) ""); [|done]. by destruct (pad21_digits n).
Qed.

Lemma position_token s c : served s -> streams_ok s -> stream_arn <> "" ->
  token_ok shard_id (position s c) stream_arn.
Proof.
  intros [_ (H1 & H2 & H3)] Hs Ha. split; [done| |done].
  destruct (position_cases s c Hs) as [[-> _]|(r & n & _ & -> & _)]; [done|].
  destruct (pad21_digits n) as [Hd _]. split; [|by apply utf8_valid_digits].
  rewrite <- (of_bytes_as_bytes (pad21 n)). by apply digits_no_bar.
Qed.

Lemma served_arn s : served s -> stream_arn <> "".
Proof. intros [(names & row & Hp & _) _] ->. by vm_compute in Hp. Qed.

Lemma position_next s c n : streams_ok s ->
  default (position s c) ((fun r => sd_sequence_number (sr_dynamodb r))
    <$> last_error (map st_record (take n (drop c (of_shard shard_id s))))) = position s (c + n).
Proof.
  intros Hs. unfold position. rewrite <- take_take_drop, last_error_app.
  destruct (last_error (take n (drop c (of_shard shard_id s)))) as [r|] eqn:El.
  - destruct (last_error_split _ _ El) as [k E]. rewrite E, map_app. simpl. rewrite last_error_snoc. simpl.
    assert (In r (str_records s)) as Hr.
    { assert (In r (of_shard shard_id s)) as [? _]%filter_In; [|done].
      rewrite <- (take_drop c (of_shard shard_id s)), <- (take_drop n (drop c _)), E.
      apply in_or_app. right. apply in_or_app. left. apply in_or_app. right. by left. }
    destruct (sr_numbers _ Hs r Hr) as (m & _ & -> & ->). done.
  - apply last_error_None in El. by rewrite El.
Qed.

(** One call: the next records, and the iterator after them. *)
Lemma get_records_page now created s c limit l :
  served s -> streams_ok s -> c <= length (of_shard shard_id s) ->
  get_records_limit limit = Ok l -> (created <= usize_max)%N -> (now - created <= SHARD_ITERATOR_EXPIRY_SECS)%N ->
  handle_get_records now s catalog account_id {| gr_shard_iterator := token_at created s c; gr_limit := limit |}
  = Ok (map st_record (take (Z.to_nat l) (drop c (of_shard shard_id s))),
        token_at now s (c + Z.to_nat l)).
Proof.
  intros Hv Hs Hc Hl Hcr Hnow. pose proof (served_arn s Hv) as Harn.
  unfold handle_get_records, token_at at 1. cbn [gr_shard_iterator gr_limit].
  rewrite decode_encode_iterator by (done || by apply position_token). cbn [ok_or_else it_created_at it_stream_arn it_sequence it_shard_id].
  rewrite (proj2 (N.ltb_ge _ _)) by done. rewrite Hl, position_after by done.
  destruct (sv_catalog _ Hv) as (names & row & Hp & Hrow & Hlab & Hsh).
  unfold get_stream_records. rewrite Hp, Hrow, Hsh. unfold shard_in_stream.
  rewrite bool_decide_eq_true_2 by done. rewrite shard_rows_after by done. cbn [from_storage fst snd]. do 2 f_equal.
  unfold token_at. f_equal. by apply position_next.
Qed.

(** A consumer: GetRecords after GetRecords, each with the iterator of the one before,
    at its time and on the stream as it is then. *)
Fixpoint consume (limit : option Z) (visits : list (N * Streams)) (token : string)
    : result DynamoDbError (list StreamRecord * string) :=
  match visits with
  | [] => Ok ([], token)
  | (now, s) :: visits =>
      let? page := handle_get_records now s catalog account_id
        {| gr_shard_iterator := token; gr_limit := limit |} in
      let? rest := consume limit visits page.2 in
      Ok (page.1 ++ rest.1, rest.2)
  end.

(** A later stream: records were added. *)
Definition extends (s s' : Streams) : Prop :=
  str_shards s' = str_shards s /\ exists rows, str_records s' = str_records s ++ rows.

(** Each call within a quarter of an hour of the one before, the stream growing. *)
Fixpoint visits_ok (created : N) (s : Streams) (visits : list (N * Streams)) : Prop :=
  match visits with
  | [] => True
  | (now, s') :: visits =>
      extends s s' /\ streams_ok s' /\ (now <= usize_max)%N
      /\ (now - created <= SHARD_ITERATOR_EXPIRY_SECS)%N /\ visits_ok now s' visits
  end.

Definition last_stream (s : Streams) (visits : list (N * Streams)) : Streams :=
  fold_left (fun _ v => v.2) visits s.

Lemma extends_served s s' : extends s s' -> served s -> served s'.
Proof.
  intros [E _] [(names & row & H1 & H2 & H3 & H4) H5]. split; [|done]. exists names, row.
  unfold has_shard in *. by rewrite E.
Qed.

Lemma extends_of_shard s s' : extends s s' -> exists rows, of_shard shard_id s' = of_shard shard_id s ++ rows.
Proof. intros [_ [rows E]]. unfold of_shard. rewrite E, List.filter_app. eauto. Qed.

Lemma token_extends created s s' c : extends s s' -> c <= length (of_shard shard_id s) ->
  token_at created s' c = token_at created s c.
Proof.
  intros (rows & E)%extends_of_shard Hc. unfold token_at, position. by rewrite E, take_app_le.
Qed.

Lemma extends_refl s : extends s s.
Proof. split; [done|]. exists []. by rewrite app_nil_r. Qed.

Lemma visits_extend created s visits : visits_ok created s visits -> extends s (last_stream s visits).
Proof.
  unfold last_stream. revert created s. induction visits as [|[now s'] visits IH]; intros created s; simpl; [by intros; apply extends_refl|].
  intros ([E1 [rows E2]] & _ & _ & _ & Hok). destruct (IH now s' Hok) as [E3 [rows' E4]]. split; [congruence|].
  exists (rows ++ rows'). by rewrite E4, E2, app_assoc.
Qed.

Lemma last_stream_same s visits : (forall v, In v visits -> v.2 = s) -> last_stream s visits = s.
Proof.
  unfold last_stream. induction visits as [|v visits IH]; simpl; intros H; [done|].
  rewrite (H v (or_introl eq_refl)). apply IH. auto.
Qed.

(** A page and what is read after it. *)
Lemma page_then_rest {A : Type} (R more : list A) c n c' :
  let d := (c + n) `min` length R in
  c <= length R -> d <= c' -> c' <= length (R ++ more) ->
  take n (drop c R) ++ drop d (take c' (R ++ more)) = drop c (take c' (R ++ more)).
Proof.
  intros d Hc Hd Hc'. rewrite <- (take_drop (d - c) (drop c (take c' (R ++ more)))). rewrite drop_drop.
  replace (c + (d - c)) with d by lia. f_equal.
  rewrite !take_drop_commute, take_take. replace (c + (d - c)) with d by lia. rewrite Nat.min_l by lia.
  rewrite take_app_le by lia. f_equal. unfold d.
  destruct (Nat.le_gt_cases (c + n) (length R)); [by rewrite Nat.min_l|rewrite Nat.min_r, !take_ge by lia; done].
Qed.

(** From the first [c] records on. *)
Lemma consume_from limit l visits : get_records_limit limit = Ok l -> forall created s c,
  served s -> (created <= usize_max)%N -> c <= length (of_shard shard_id s) -> visits_ok created s visits ->
  exists c' token, consume limit visits (token_at created s c)
      = Ok (map st_record (drop c (take c' (of_shard shard_id (last_stream s visits)))), token)
    /\ c <= c' <= length (of_shard shard_id (last_stream s visits))
    /\ ((forall v, In v visits -> v.2 = s) ->
        c' = (c + Z.to_nat l * length visits) `min` length (of_shard shard_id s)).
Proof.
  intros Hl. induction visits as [|[now s'] visits IH]; intros created s c Hv Hcr Hc Hok.
  { exists c, (token_at created s c). unfold last_stream. simpl. split; [|split; [lia|intros; lia]].
    rewrite drop_ge; [done|]. rewrite length_take. lia. }
  destruct Hok as (He & Hs' & Hn & Hnow & Hok). destruct (extends_of_shard _ _ He) as (rows & Er).
  assert (c <= length (of_shard shard_id s')) as Hc' by (rewrite Er, length_app; lia).
  pose proof (extends_served _ _ He Hv) as Hv'. cbn [consume].
  rewrite <- (token_extends created s s' c He Hc), (get_records_page now created s' c limit l) by done. cbn [fst snd].
  set (d := (c + Z.to_nat l) `min` length (of_shard shard_id s')).
  assert (token_at now s' (c + Z.to_nat l) = token_at now s' d) as ->.
  { unfold token_at, position, d. do 3 f_equal.
    destruct (Nat.le_gt_cases (c + Z.to_nat l) (length (of_shard shard_id s')));
      [by rewrite Nat.min_l|rewrite Nat.min_r, !take_ge by lia; done]. }
  destruct (IH now s' d Hv' Hn ltac:(lia) Hok) as (c' & token & -> & [H1 H2] & H3).
  exists c', token. unfold last_stream in *. cbn [fold_left snd] in *. split; [|split; [lia|]].
  - cbn [fst snd]. do 2 f_equal. rewrite <- map_app. f_equal.
    destruct (extends_of_shard _ _ (visits_extend now s' visits Hok)) as (more & Em).
    unfold last_stream in Em. rewrite Em. apply page_then_rest; [done|done|]. by rewrite <- Em.
  - intros Hsame. pose proof (Hsame (now, s') (or_introl eq_refl)) as Es. simpl in Es. subst s'.
    rewrite H3 by auto with datatypes. unfold d. cbn [length]. lia.
Qed.

(** C16. A stream is delivered exactly once and in order: a consumer that starts at the
    beginning of a shard and calls GetRecords again and again with the iterator it was
    given, each time within a quarter of an hour, while writers add records, gets a
    prefix of the shard's records as they are at its last call, none skipped, none
    twice; and it has them all once its calls, on a stream that no longer grows, had
    room for them. *)
Theorem records_exactly_once limit l visits t0 s0 :
  served s0 -> streams_ok s0 -> get_records_limit limit = Ok l -> (t0 <= usize_max)%N ->
  visits_ok t0 s0 visits ->
  exists token records token',
    handle_get_shard_iterator t0 s0 catalog account_id
      {| gsi_stream_arn := stream_arn; gsi_shard_id := shard_id; gsi_shard_iterator_type := TrimHorizon;
         gsi_sequence_number := None |} = Ok token
    /\ consume limit visits token = Ok (records, token')
    /\ records `prefix_of` map st_record (of_shard shard_id (last_stream s0 visits))
    /\ ((forall v, In v visits -> v.2 = s0) -> length (of_shard shard_id s0) <= Z.to_nat l * length visits ->
        records = map st_record (of_shard shard_id s0)).
Proof.
  intros Hv Hs Hl Ht Hok. exists (token_at t0 s0 0).
  destruct (consume_from limit l visits Hl t0 s0 0 Hv Ht ltac:(lia) Hok) as (c & token' & E & Hc & Hall).
  rewrite drop_0 in E. eexists _, token'. split; [|split; [exact E|]].
  - unfold handle_get_shard_iterator. cbn [gsi_stream_arn gsi_shard_id].
    destruct (sv_catalog _ Hv) as (names & row & Hp & Hrow & Hlab & Hsh).
    unfold validate_shard. rewrite Hp, Hrow, bool_decide_eq_true_2, Hsh by done. done.
  - split.
    + exists (map st_record (drop c (of_shard shard_id (last_stream s0 visits)))).
      by rewrite <- map_app, take_drop.
    + intros Hsame Hlen. rewrite (Hall Hsame), Nat.add_0_l, Nat.min_r by done.
      rewrite last_stream_same by done. by rewrite take_ge.
Qed.

(** *** Where iterators start *)

Definition number (r : StreamRow) : N := digits_val (as_bytes (st_sequence_number r)).

(** The first number that an iterator delivers; of AFTER_SEQUENCE_NUMBER only for a
    number written as the stream writes them. *)
Definition iterator_from (s : Streams) (input : GetShardIteratorInput) : option N :=
  match gsi_shard_iterator_type input with
  | TrimHorizon => Some 0%N
  | Latest => Some (match last_error (of_shard shard_id s) with Some r => (number r + 1)%N | None => 0%N end)
  | AtSequenceNumber => gsi_sequence_number input ≫= parse_u128
  | AfterSequenceNumber =>
      raw ← gsi_sequence_number input;
      n ← parse_u128 raw;
      if String.eqb raw (pad21 n) then Some (n + 1)%N else None
  end.

Lemma pad21_number n : digits_val (as_bytes (pad21 n)) = n.
Proof.
  destruct (N_to_bytes_spec n) as (_ & Hv & _). unfold pad21, N_to_string.
  rewrite as_bytes_app, !as_bytes_of_bytes, digits_val_zeros_app by apply zeros_replicate. done.
Qed.

(** The rows after a number are those with a greater one. *)
Lemma shard_rows_number s n : streams_ok s -> (str_seq s < 10 ^ 21)%N -> (n < 10 ^ 21)%N ->
  shard_rows s shard_id (Some (pad21 n)) = List.filter (fun r => (n + 1 <=? number r)%N) (of_shard shard_id s).
Proof.
  intros Hs Hq Hn. unfold shard_rows. rewrite <- filter_filter. fold (of_shard shard_id s).
  rewrite order_by_sequence_id by (by apply StronglySorted_List_filter, of_shard_sorted).
  apply filter_ext_In. intros r [Hr _]%filter_In. destruct (sr_numbers _ Hs r Hr) as (m & Hm & E & _).
  unfold number. rewrite E, pad21_number, pad21_order by lia.
  destruct (N.leb_spec (n + 1) m); [apply bool_decide_eq_true_2|apply bool_decide_eq_false_2].
  - apply N.compare_gt_iff. lia.
  - intros Hc%N.compare_gt_iff. lia.
Qed.

Lemma shard_rows_start s : streams_ok s ->
  shard_rows s shard_id None = List.filter (fun r => (0 <=? number r)%N) (of_shard shard_id s).
Proof. intros Hs. rewrite shard_rows_all, filter_all; [done|intros; apply N.leb_le; lia|done]. Qed.

(** The text an iterator carries, for the number it starts at. *)
Lemma iterator_sequence_from s s' input from : gsi_shard_id input = shard_id ->
  streams_ok s -> extends s s' -> streams_ok s' -> (str_seq s' < 10 ^ 21)%N -> (from <= 10 ^ 21)%N ->
  iterator_from s input = Some from ->
  exists seq, iterator_sequence s input = Ok seq
    /\ str_has "|" seq = false /\ utf8_valid (as_bytes seq) = true
    /\ shard_rows s' shard_id (if String.eqb seq "" then None else Some seq)
       = List.filter (fun r => (from <=? number r)%N) (of_shard shard_id s').
Proof.
  intros Hid Hs He Hs' Hq Hfrom Hf.
  assert (Htext : forall n, (n < 10 ^ 21)%N -> str_has "|" (pad21 n) = false /\ utf8_valid (as_bytes (pad21 n)) = true
    /\ shard_rows s' shard_id (if String.eqb (pad21 n) "" then None else Some (pad21 n))
       = List.filter (fun r => (n + 1 <=? number r)%N) (of_shard shard_id s')).
  { intros n Hn. destruct (pad21_digits n) as [Hd Hne]. split; [|split; [by apply utf8_valid_digits|]].
    - rewrite <- (of_bytes_as_bytes (pad21 n)). by apply digits_no_bar.
    - destruct (String.eqb_spec (pad21 n) ""); [done|]. by apply shard_rows_number. }
  pose proof (shard_rows_start s' Hs') as Hstart.
  unfold iterator_from in Hf. unfold iterator_sequence. rewrite Hid.
  destruct (gsi_shard_iterator_type input).
  - injection Hf as <-. exists "". done.
  - injection Hf as <-. unfold latest_sequence_number. rewrite shard_rows_all by done.
    destruct (last_error (of_shard shard_id s)) as [r|] eqn:El; simpl; [|by exists ""].
    destruct (last_error_split _ _ El) as [k E].
    assert (In r (of_shard shard_id s)) as Hin by (rewrite E; apply in_or_app; right; by left).
    apply filter_In in Hin as [Hin _]. destruct (sr_numbers _ Hs r Hin) as (n & Hn & Er & _).
    assert (In r (str_records s')) as Hin' by (destruct He as [_ [rows ->]]; apply in_or_app; by left).
    destruct (sr_numbers _ Hs' r Hin') as (n' & Hn' & Er' & _).
    exists (pad21 n). rewrite <- Er. split; [done|]. unfold number at 1. rewrite Er, pad21_number.
    apply Htext. assert (n = n') as -> by (rewrite <- (pad21_number n), <- (pad21_number n'); congruence). lia.
  - destruct (gsi_sequence_number input) as [raw|]; [|done]. simpl in Hf |- *. rewrite Hf. simpl.
    eexists. split; [done|]. destruct (N.ltb_spec 0 from) as [Hpos|Hz].
    + unfold DEFAULT_SEQ_NUMBER_WIDTH. rewrite <- pad21_zero_padded.
      destruct (Htext (from - 1)%N ltac:(lia)) as (H1 & H2 & H3). rewrite N.sub_add in H3 by lia. done.
    + replace from with 0%N by lia. done.
  - destruct (gsi_sequence_number input) as [raw|]; [|done]. simpl in Hf |- *.
    destruct (parse_u128 raw) as [n|]; [|done]. simpl in Hf. destruct (String.eqb_spec raw (pad21 n)) as [->|]; [|done].
    injection Hf as <-. exists (pad21 n). split; [done|]. apply Htext. lia.
Qed.

(** C33. An iterator starts where its type says: TRIM_HORIZON at the first record, LATEST
    after the last one there was when it was asked for, AT_SEQUENCE_NUMBER at the number,
    however it is written, and AFTER_SEQUENCE_NUMBER after a number written with the
    stream's 21 digits.  The first page, on the stream as it is then, holds the records
    from there on. *)
Theorem iterator_starts t0 now s s' input from limit l :
  gsi_shard_id input = shard_id -> gsi_stream_arn input = stream_arn ->
  served s -> streams_ok s -> extends s s' -> streams_ok s' -> (str_seq s' < 10 ^ 21)%N ->
  (from <= 10 ^ 21)%N -> iterator_from s input = Some from -> get_records_limit limit = Ok l ->
  (t0 <= usize_max)%N -> (now - t0 <= SHARD_ITERATOR_EXPIRY_SECS)%N ->
  exists token next,
    handle_get_shard_iterator t0 s catalog account_id input = Ok token
    /\ handle_get_records now s' catalog account_id {| gr_shard_iterator := token; gr_limit := limit |}
       = Ok (map st_record (take (Z.to_nat l)
               (List.filter (fun r => (from <=? number r)%N) (of_shard shard_id s'))), next).
Proof.
  intros Hid Harn Hv Hs He Hs' Hq Hfr Hf Hl Ht Hnow.
  destruct (iterator_sequence_from s s' input from Hid Hs He Hs' Hq Hfr Hf) as (seq & Eseq & B1 & B2 & Hrows).
  destruct (sv_catalog _ Hv) as (names & row & Hp & Hrow & Hlab & Hsh).
  unfold handle_get_shard_iterator, validate_shard.
  rewrite Hid, Harn, Hp, Hrow, bool_decide_eq_true_2, Hsh, Eseq by done. cbn [from_storage].
  eexists _, _. split; [done|]. unfold handle_get_records. cbn [gr_shard_iterator gr_limit].
  rewrite decode_encode_iterator; [|split; [destruct (sv_token _ Hv); tauto|done|split; [by eapply served_arn|]; destruct (sv_token _ Hv); tauto]|done].
  cbn [ok_or_else it_created_at it_stream_arn it_sequence it_shard_id].
  rewrite (proj2 (N.ltb_ge _ _)) by done. rewrite Hl. unfold get_stream_records. rewrite Hp, Hrow.
  assert (has_shard s' (cat_table_id row) shard_id = true) as ->
    by (unfold has_shard in *; destruct He as [-> _]; done).
  unfold shard_in_stream. rewrite bool_decide_eq_true_2 by done. rewrite Hrows. done.
Qed.
End Reading.
