(* ===== verification/StreamReplay.v ===== *)
(** * Streams and the table

    The stream of a table tells its history: replaying the records of its shards, each
    shard in its order and the shards in any order, gives the items of the table. *)

From Stdlib Require Import Sorted.
From S2P Require Import Prelude BTree Types Error Decimal Number Ast Tokenizer Resolver Evaluator.
From S2P Require Import UpdateEvaluator ItemSize Storage StorageKey NumberKey KeyOrder SqlSelect Projection.
From S2P Require Import ReadPage SqliteQuery SqlWrite IndexKeys UpdateKeys SqliteIndex SqliteQueue.
From S2P Require Import SqliteStore StoreRefine SqliteWorker StoreModel Arn SqliteStream.

Section Replay.
Context `{HR : Rendering} `{HB : Base64} {D : Type} `{HD : BigDecimal D} `{HP : !BigDecimalParts D}
  `{HS : Sqlite} `{HSL : !SqliteLaws} `{HM : SqliteDml} `{HML : !SqliteDmlLaws}
  `{HE : SqliteErrors} `{HEL : !SqliteErrorsLaws} `{HT : Timestamps} `{HC : Crc32}
  `{HV : Returning} `{HVL : !ReturningLaws}.
Context (key_info : TableKeyInfo) (Hschema : schema_ok key_info) (indexes : list IndexMeta).
Context (shards : list string).
Implicit Types (items : list BoundValue -> option Item) (k : list BoundValue) (m : Model).

(** ** Replaying *)

(** What a record says: the key, and the item it has from then on. *)
Definition record_change (r : StreamRecord) : option (list BoundValue * option Item) :=
  match table_key (D := D) key_info (sd_keys (sr_dynamodb r)) with
  | Ok ck => Some (ck.2, match sr_event_name r with
                         | EventRemove => None
                         | _ => sd_new_image (sr_dynamodb r)
                         end)
  | Err _ => None
  end.

Definition replay_one items (r : StreamRecord) : list BoundValue -> option Item :=
  match record_change r with Some (k, i) => set_at k i items | None => items end.

Definition replay (records : list StreamRecord) : list BoundValue -> option Item :=
  fold_left replay_one records (fun _ => None).

Definition about k (r : StreamRecord) : bool :=
  match record_change r with Some (k', _) => bool_decide (k' = k) | None => false end.

Lemma replay_about k records items :
  fold_left replay_one records items k = fold_left replay_one (List.filter (about k) records) items k.
Proof.
  enough (forall items', items k = items' k ->
    fold_left replay_one records items k = fold_left replay_one (List.filter (about k) records) items' k) by eauto.
  revert items. induction records as [|r records IH]; intros items items' E; [done|]. simpl. unfold about at 1.
  destruct (record_change r) as [[k' i]|] eqn:Er; [case_bool_decide as Ek; [subst k'|]|].
  - simpl. apply IH. unfold replay_one. rewrite Er. unfold set_at. by rewrite !bool_decide_eq_true_2.
  - apply IH. unfold replay_one. rewrite Er. unfold set_at. rewrite bool_decide_eq_false_2; [done|congruence].
  - apply IH. unfold replay_one. by rewrite Er.
Qed.

(** The shard of a key. *)
Definition shard_of k : option string :=
  match head k with
  | Some (BoundText t) => shards !! N.to_nat (crc32 (as_bytes t) mod N.of_nat (length shards))
  | _ => None
  end.

(** Rows that tell the items, each in the shard of its key. *)
Record told (rows : list StreamRow) items : Prop := {
  td_replay : forall k, replay (map st_record rows) k = items k;
  td_shard : forall r, In r rows -> exists k i,
    record_change (st_record r) = Some (k, i) /\ shard_of k = Some (st_shard_id r)
}.

Lemma concat_single {A B : Type} (f : A -> list B) l x : List.NoDup l -> In x l ->
  (forall y, y <> x -> f y = []) -> concat (map f l) = f x.
Proof.
  intros Hn Hx Hf. assert (Hnone : forall l', ~ In x l' -> concat (map f l') = []).
  { induction l' as [|y l' IH]; simpl; [done|]. intros Hy. rewrite Hf, IH; [done| |]; intuition. }
  induction l as [|y l IH]; [done|]. inversion Hn as [|? ? Hy Hn']; subst. destruct Hx as [->|Hx]; simpl.
  - rewrite Hnone by done. apply app_nil_r.
  - rewrite Hf by (intros ->; done). by apply IH.
Qed.

(** Shard by shard, the records of a key come in their order. *)
Lemma replay_shards rows items s : told rows items -> List.NoDup shards ->
  (forall shard_id, In shard_id shards -> of_shard shard_id s = List.filter (fun r => String.eqb (st_shard_id r) shard_id) rows) ->
  forall k, replay (concat (map (fun shard_id => map st_record (of_shard shard_id s)) shards)) k = items k.
Proof.
  intros [Hr Hs] Hn Hof k. rewrite <- Hr. unfold replay. rewrite replay_about, (replay_about k (map st_record rows)).
  enough (List.filter (about k) (concat (map (fun shard_id => map st_record (of_shard shard_id s)) shards))
    = List.filter (about k) (map st_record rows)) as -> by done. set (f := fun shard_id => List.filter (about k) (map st_record
    (List.filter (fun r => String.eqb (st_shard_id r) shard_id) rows))).
  assert (List.filter (about k) (concat (map (fun shard_id => map st_record (of_shard shard_id s)) shards))
    = concat (map f shards)) as ->.
  { clear Hn Hs Hr. revert Hof. generalize shards as l. intros l Hof. induction l as [|sh l IH]; [done|]. simpl. rewrite List.filter_app, IH by (intros; apply Hof; by right).
    by rewrite Hof by (by left). }
  assert (Hrow : forall r, In r rows -> about k (st_record r) = true -> shard_of k = Some (st_shard_id r)).
  { intros r Hin Ha. destruct (Hs r Hin) as (k' & i & Ek & Esh). unfold about in Ha. rewrite Ek in Ha.
    by apply bool_decide_eq_true_1 in Ha as <-. }
  assert (Hnone : forall sh, shard_of k <> Some sh -> f sh = []).
  { intros sh Hne. unfold f. apply filter_none. intros x (r & <- & [Hin Hsh]%filter_In)%in_map_iff.
    destruct (about k (st_record r)) eqn:Ha; [|done]. apply String.eqb_eq in Hsh. subst. by rewrite (Hrow r) in Hne. }
  destruct (shard_of k) as [sh|] eqn:Esh.
  - rewrite (concat_single f shards sh Hn); [|..].
    + unfold f. clear -Hrow. induction rows as [|r rows IH]; [done|]. simpl.
      destruct (about k (st_record r)) eqn:Ha.
      * assert (String.eqb (st_shard_id r) sh = true) as -> by (apply String.eqb_eq; specialize (Hrow r (or_introl eq_refl) Ha); congruence).
        simpl. rewrite Ha, IH by auto with datatypes. done.
      * destruct (String.eqb (st_shard_id r) sh); simpl; rewrite ?Ha; apply IH; auto with datatypes.
    + unfold shard_of in Esh. destruct (head k) as [[t|b]|]; try done. apply list_elem_of_lookup_2 in Esh.
      by apply list_elem_of_In.
    + intros y Hy. apply Hnone. congruence.
  - transitivity (@nil StreamRecord).
    + generalize shards as l. induction l as [|sh l IH]; [done|]. simpl. rewrite Hnone by done. apply IH.
    + symmetry. apply filter_none. intros x (r & <- & Hin)%in_map_iff.
      destruct (about k (st_record r)) eqn:Ha; [|done]. by specialize (Hrow r Hin Ha).
Qed.

(** ** Writing *)

(** A capture whose records carry the new image. *)
Definition tells (capture : StreamCapture) : Prop :=
  sc_view_type capture = ViewNewImage \/ sc_view_type capture = ViewNewAndOldImages.

Lemma shard_text_key v t : pk_to_text v = Ok t -> shard_text (Some v) = t.
Proof. unfold pk_to_text. destruct v; simpl; try done; congruence. Qed.

(** A record of a change: it is added to the shard of the key, under the next number. *)
Lemma write_record senv s capture old new s' source k :
  tells capture -> str_shards s !! tki_table_id key_info = Some shards -> shards <> [] ->
  changed old new = Some source -> item_key (D := D) key_info source k ->
  write_stream_record_in_tx senv s key_info capture old new = Ok s' ->
  exists r, str_records s' = str_records s ++ [r] /\ str_seq s' = (str_seq s + 1)%N /\ str_shards s' = str_shards s
    /\ record_change (st_record r) = Some (k, new) /\ shard_of k = Some (st_shard_id r)
    /\ st_sequence_number r = pad21 (str_seq s + 1)
    /\ sd_sequence_number (sr_dynamodb (st_record r)) = pad21 (str_seq s + 1).
Proof.
  intros Hv Hsh Hne Hc Hk Hw. unfold write_stream_record_in_tx in Hw.
  assert (exists event, match old, new with
    | None, Some n => Some (EventInsert, n) | Some _, Some n => Some (EventModify, n)
    | Some o, None => Some (EventRemove, o) | None, None => None end = Some (event, source)
    /\ match event with EventRemove => new = None | _ => new = Some source end) as (event & Ee & Hev).
  { destruct old, new; simpl in Hc; try done; injection Hc as ->; eexists; (split; [reflexivity|done]). }
  rewrite Ee in Hw. destruct (validated (item_size_bytes source)) as [size|]; [|done]. cbn [mbind] in Hw.
  rewrite Hsh in Hw.
  assert (Hkey : record_change {| sr_event_id := se_event_id senv; sr_event_name := event;
      sr_event_version := "1.1"; sr_event_source := "aws:dynamodb"; sr_aws_region := sc_region capture;
      sr_dynamodb := {| sd_approximate_creation_date_time := se_now_ms senv / 1000;
        sd_keys := extract_key source (tki_key_schema key_info);
        sd_new_image := match sc_view_type capture with ViewNewImage | ViewNewAndOldImages => new | _ => None end;
        sd_old_image := match sc_view_type capture with ViewOldImage | ViewNewAndOldImages => old | _ => None end;
        sd_sequence_number := pad21 (str_seq s + 1); sd_size_bytes := Z.min (Z.of_N size) (2 ^ 63 - 1);
        sd_stream_view_type := sc_view_type capture |};
      sr_user_identity := sc_user_identity capture |} = Some (k, new)).
  { unfold record_change. cbn [sr_dynamodb sd_keys sr_event_name sd_new_image].
    assert (item_key (D := D) key_info (extract_key source (tki_key_schema key_info)) k) as Hk'.
    { eapply item_key_ext; [|exact Hk]. intros ks Hks. rewrite extract_key_get, bool_decide_eq_true_2; [done|].
      apply list_elem_of_In, in_map, Hks. }
    unfold item_key in Hk'. rewrite Hk'. cbn [snd]. destruct Hv as [-> | ->], event; by rewrite ?Hev. }
  assert (Hshard : shard_of k = shards !! N.to_nat (crc32 (as_bytes (shard_text
    (ks ← head (tki_key_schema key_info); bt_get (ks_attribute_name ks) source))) mod N.of_nat (length shards))).
  { unfold item_key, table_key in Hk. destruct (tki_key_schema key_info) as [|h rest]; [done|]. simpl.
    destruct (bt_get (ks_attribute_name h) source) as [v|]; [|done]. simpl in Hk.
    destruct (pk_to_text v) as [t|] eqn:Et; [|done]. rewrite (shard_text_key v t Et). unfold shard_of.
    assert (head k = Some (BoundText t)) as ->; [|done].
    revert Hk. generalize (key_columns key_info). intros cols.
    destruct (sk_info _ _) as [[name ty]|]; [|by intros [= _ <-]].
    destruct (bt_get name source) as [w|]; [|done]. cbn [ok_or_else].
    destruct (bound_of w ty); [|done]. by intros [= _ <-]. }
  destruct shards as [|sh0 shs] eqn:Eshs; [done|]. rewrite <- Eshs in *. rewrite <- Hshard in Hw.
  destruct (shard_of k) as [sh|]; [|done]. simpl in Hw. injection Hw as <-. eexists. cbn [str_records str_seq str_shards].
  split; [done|]. repeat split. exact Hkey.
Qed.

(** ** Histories *)

Context (s0 : Streams) (Hshards : str_shards s0 !! tki_table_id key_info = Some shards) (Hne : shards <> []).

(** The stream of a history of at most [n] changes. *)
Record history_ok (n : nat) m : Prop := {
  ho_streams : streams_ok m.2;
  ho_shards : str_shards m.2 = str_shards s0;
  ho_rows : exists rows, str_records m.2 = str_records s0 ++ rows /\ told rows m.1;
  ho_seq : (str_seq m.2 <= str_seq s0 + N.of_nat n)%N
}.

Lemma history_ok_more n n' m : history_ok n m -> n <= n' -> history_ok n' m.
Proof. intros [H1 H2 H3 H4] Hn. split; [done|done|done|lia]. Qed.

Lemma streams_ok_add s s' r : streams_ok s -> (str_seq s + 1 < 10 ^ 21)%N ->
  str_records s' = str_records s ++ [r] -> str_seq s' = (str_seq s + 1)%N ->
  st_sequence_number r = pad21 (str_seq s + 1) ->
  sd_sequence_number (sr_dynamodb (st_record r)) = pad21 (str_seq s + 1) -> streams_ok s'.
Proof.
  intros [Hsort Hnum] Hq Hr Hs H1 H2. split; rewrite Hr.
  - apply StronglySorted_snoc; [done|]. intros x Hx. destruct (Hnum x Hx) as (n & Hn & E & _).
    unfold row_before. rewrite E, H1, pad21_order by lia. apply N.compare_lt_iff. lia.
  - intros x [Hx|[<-|[]]]%in_app_iff; rewrite Hs.
    + destruct (Hnum x Hx) as (n & Hn & E). exists n. split; [lia|done].
    + exists (str_seq s + 1)%N. split; [lia|done].
Qed.

Lemma told_snoc rows r items k new : told rows items -> record_change (st_record r) = Some (k, new) ->
  shard_of k = Some (st_shard_id r) -> told (rows ++ [r]) (set_at k new items).
Proof.
  intros [H1 H2] Hc Hs. split.
  - intros k'. unfold replay. rewrite map_app, fold_left_app. simpl. fold (replay (map st_record rows)).
    unfold replay_one. rewrite Hc. unfold set_at. case_bool_decide; [done|apply H1].
  - intros x [Hx|[<-|[]]]%in_app_iff; [by apply H2|eauto].
Qed.

Lemma captured_history n m senv stream capture old new source k s' :
  history_ok n m -> (str_seq s0 + N.of_nat (S n) < 10 ^ 21)%N ->
  stream = Some capture -> tells capture -> changed old new = Some source -> item_key (D := D) key_info source k ->
  captured key_info senv m.2 stream old new = Ok s' -> history_ok (S n) (set_at k new m.1, s').
Proof.
  intros [H1 H2 (rows & H3 & H4) H5] Hq -> Ht Hc Hk Hw.
  destruct (write_record senv m.2 capture old new s' source k Ht) as (r & R1 & R2 & R3 & R4 & R5 & R6 & R7);
    [by rewrite H2|done|done|done|done|]. split; cbn [fst snd].
  - eapply streams_ok_add; [exact H1|lia|done..].
  - congruence.
  - exists (rows ++ [r]). split; [by rewrite R1, H3, app_assoc|]. by apply told_snoc.
  - lia.
Qed.

Definition op_tells (op : Op (D := D)) : Prop :=
  match op with
  | OpGet _ => True
  | OpPut _ _ _ _ stream | OpDelete _ _ _ _ stream | OpUpdate _ _ _ _ _ _ _ stream =>
      exists capture, stream = Some capture /\ tells capture
  end.

Lemma spec_history n senv delay db op m m' x :
  agrees (D := D) key_info indexes delay db m -> admissible key_info op m -> op_tells op -> history_ok n m ->
  (str_seq s0 + N.of_nat (S n) < 10 ^ 21)%N ->
  spec key_info indexes senv op m = Ok (m', x) -> history_ok (S n) m'.
Proof.
  intros [Hst _] Hadm Ht Hh Hq Hspec. destruct (sto_base _ _ _ _ _ Hst) as (t & _ & Hb).
  destruct op as [key|item ro condition maps stream|key ro condition maps stream|max key actions ro rn condition maps stream];
    simpl in Hspec.
  - destruct (get_spec key_info m key); [|done]. injection Hspec as <- _. eapply history_ok_more; [done|lia].
  - destruct Ht as (capture & Es & Ht). unfold put_spec in Hspec.
    destruct (unless_empty _ _ _); [|done]. destruct (table_key key_info item) as [[cols k]|] eqn:Ek; [|done].
    destruct (table_key_Ok key_info Hschema _ _ _ Ek) as (Hk & _). cbn [fst snd] in Hspec.
    destruct (check_old _ _ _); [|done]. destruct (captured _ _ _ _ _ _) as [s'|] eqn:Ec; [|done].
    injection Hspec as <- _. by eapply captured_history.
  - destruct Ht as (capture & Es & Ht). unfold delete_spec in Hspec.
    destruct (table_key key_info key) as [[cols k]|] eqn:Ek; [|done].
    destruct (table_key_Ok key_info Hschema _ _ _ Ek) as (Hk & _). cbn [fst snd] in Hspec.
    destruct (check_old _ _ _); [|done]. destruct (m.1 k) as [old|] eqn:Eold.
    + destruct (captured _ _ _ _ _ _) as [s'|] eqn:Ec; [|done]. injection Hspec as <- _.
      apply (captured_history n m senv stream capture (Some old) None old k s'); try done.
      by apply (bh_items _ _ _ Hb).
    + injection Hspec as <- _. eapply history_ok_more; [done|lia].
  - destruct Ht as (capture & Es & Ht). destruct Hadm as [Hnk _]. unfold update_spec in Hspec.
    destruct (unless_empty _ _ _); [|done]. destruct (table_key key_info key) as [[cols k]|] eqn:Ek; [|done].
    destruct (table_key_Ok key_info Hschema _ _ _ Ek) as (Hk & _). cbn [fst snd] in Hspec.
    destruct (check_old _ _ _); [|done].
    destruct (validated (apply_update _ _ _)) as [item|] eqn:Eu; [|done]. apply validated_Ok in Eu.
    destruct (validated (validate_update_item_size _ _ _ _)); [|done]. destruct (written_keys _ _ _); [|done].
    destruct (negb _ && _); [injection Hspec as <- _; eapply history_ok_more; [done|lia]|].
    destruct (captured _ _ _ _ _ _) as [s'|] eqn:Ec; [|done]. injection Hspec as <- _.
    apply (captured_history n m senv stream capture (m.1 k) (Some item) item k s'); try done.
    by apply (updated_key key_info indexes _ _ _ _ _ _ _ _ Hst Hk Hnk Eu).
Qed.

(** Every write of the history captures the new image. *)
Definition all_tell (events : list (Event (D := D))) : Prop :=
  Forall (fun e => match e with Request _ _ op => op_tells op | Batch _ _ _ => True end) events.

Lemma history_tells delay events : indexes_ok key_info indexes -> all_tell events -> forall n db m,
  agrees (D := D) key_info indexes delay db m -> admissible_all key_info indexes events m -> history_ok n m ->
  (str_seq s0 + N.of_nat (n + length events) < 10 ^ 21)%N ->
  history_ok (n + length events) (spec_all key_info indexes events m).1.
Proof.
  intros Hio. induction 1 as [|e events He Hev IH]; intros n db m Ha Hadm Hh Hq.
  { simpl. by rewrite Nat.add_0_r. }
  replace (n + length (e :: events)) with (S n + length events) in * by (simpl; lia).
  destruct e as [env senv op|fault now creating]; cbn [spec_all admissible_all] in *.
  - destruct Hadm as [Hop Hadm]. pose proof (run_simulates key_info Hschema indexes env senv delay op db m Hio Ha Hop) as Hsim.
    destruct (spec key_info indexes senv op m) as [[m' x]|e] eqn:Es; cbn [fst].
    + destruct (run key_info indexes env senv delay op db) as [[db' y]|]; [|done]. destruct Hsim as [Ha' _].
      eapply IH; [exact Ha'|done| |done]. eapply (spec_history n senv delay db op m); try done. lia.
    + eapply IH; [exact Ha|done| |done]. eapply history_ok_more; [done|lia].
  - destruct Hadm as [Hf Hadm]. eapply IH; [exact Ha|done| |done]. eapply history_ok_more; [done|lia].
Qed.

Lemma new_history : streams_ok s0 -> history_ok 0 (new_model s0).
Proof.
  intros Hs. split; [done|done| |simpl; lia]. exists []. split; [by rewrite app_nil_r|]. split; [done|by intros r].
Qed.

End Replay.
