(* ===== verification/StoreSample.v ===== *)
(** * A table

    A concrete table with an asynchronous index, on the list instance of SQLite: the
    theorems of the write path and of the read path at work, and what happens to an
    index whose propagation delay becomes zero while changes are queued. *)

From Stdlib Require Import Sorted.
From S2P Require Import Prelude BTree Types Error Decimal Number Ast Tokenizer Resolver Evaluator.
From S2P Require Import UpdateEvaluator ItemSize Storage StorageKey NumberKey KeyOrder SqlSelect Projection.
From S2P Require Import ReadPage KeyCondition SqliteQuery SqlWrite IndexKeys UpdateKeys SqliteIndex.
From S2P Require Import SqliteQueue SqliteStore StoreRefine SqliteWorker StoreModel StartKey SqliteFragment.
From S2P Require Import TableRead Arn SqliteStream StreamReplay Transact TransactRefine.

#[local] Existing Instance rfc4648_base64.
#[local] Existing Instance rfc4648_decode.
#[local] Existing Instance sorting_sqlite.
#[local] Existing Instance sorting_sqlite_laws.
#[local] Existing Instance list_dml.
#[local] Existing Instance list_dml_laws.

#[local] Instance text_rendering : Rendering := {
  truncated := fun s => s;
  debug := fun s => s;
  key_json := fun _ => "";
  parse_error := fun s => s
}.
#[local] Instance sqlite_errors : SqliteErrors := fun table => "no such table: " +:+ table.
#[local] Instance second_timestamps : Timestamps := fun z => N_to_string (Z.to_N z).
#[local] Instance length_crc32 : Crc32 := fun b => N.of_nat (length b).
#[local] Instance in_order : Returning := fun l => l.

#[local] Instance sqlite_errors_laws : SqliteErrorsLaws.
Proof.
  intros table. apply list_contains_sub_iff. exists [], (as_bytes (": " +:+ table)).
  unfold no_such_table, sqlite_errors. by rewrite !as_bytes_app.
Qed.

#[local] Instance in_order_laws : ReturningLaws.
Proof. by intros l. Qed.

(** Notes of users, by user and time, with an index on the folder. *)
Definition notes_schema : list KeySchemaElement :=
  [{| ks_attribute_name := "user"; ks_key_type := Hash |};
   {| ks_attribute_name := "at"; ks_key_type := Range |}].

Definition notes_defs : list AttributeDefinition :=
  [{| ad_attribute_name := "user"; ad_attribute_type := Scalar_S |};
   {| ad_attribute_name := "at"; ad_attribute_type := Scalar_S |};
   {| ad_attribute_name := "folder"; ad_attribute_type := Scalar_S |}].

Definition notes : TableKeyInfo :=
  {| tki_table_id := "notes"; tki_key_schema := notes_schema; tki_base_key_schema := notes_schema;
     tki_attribute_definitions := notes_defs |}.

Definition by_folder : IndexMeta :=
  {| im_index_id := "by_folder"; im_index_name := "by_folder"; im_index_type := "GSI";
     im_key_schema := [{| ks_attribute_name := "folder"; ks_key_type := Hash |}];
     im_projection := {| projection_type := ProjKeysOnly; non_key_attributes := None |};
     im_propagation_delay_ms := None;
     im_attribute_definitions := notes_defs |}.

Definition note (user time folder : string) : Item :=
  [("at", AV_S time); ("folder", AV_S folder); ("user", AV_S user)].

Definition sample_env (now : Z) : Env :=
  {| env_now := fun _ => now; env_random_range := fun _ low _ => low |}.
Definition sample_senv : StreamEnv := {| se_event_id := "e"; se_now_ms := 0 |}.
Definition no_streams : Streams := {| str_seq := 0; str_shards := ∅; str_records := [] |}.
Definition no_queue : Queue := {| q_rows := []; q_seq := 0 |}.
Definition no_maps : ExpressionMaps dec := maps_new ∅ ∅.

Definition put_note (now : Z) (item : Item) : Event (D := dec) :=
  Request (sample_env now) sample_senv (OpPut item true None no_maps None).

Lemma notes_schema_ok : schema_ok notes.
Proof.
  split. do 2 eexists. split; [reflexivity|]. split; [reflexivity|]. right. do 2 eexists. done.
Qed.

Lemma notes_indexes_ok : indexes_ok notes [by_folder].
Proof.
  split.
  - apply (bool_decide_unpack _). by vm_compute.
  - apply (bool_decide_unpack _). by vm_compute.
  - by intros idx [<-|[]].
  - by intros idx [<-|[]].
  - intros idx ks [<-|[]] [<-|[]]. by eexists.
Qed.

Lemma note_numbers user time folder : numbers_parse (D := dec) (note user time folder).
Proof. intros name n. unfold note. simpl. by repeat case_match. Qed.

(** Two notes, a replacement, and a batch in between. *)
Definition sample_events : list (Event (D := dec)) :=
  [put_note 100 (note "ada" "09:00" "work");
   put_note 101 (note "ada" "10:00" "home");
   Batch (fun _ => None) "106" [];
   put_note 102 (note "ada" "09:00" "play")].

Definition sample_db : Db := (run_all (D := dec) notes [by_folder] 10 sample_events
  (created_db notes [by_folder] ∅ no_queue no_streams)).1.

Lemma no_queue_ordered : queue_ordered no_queue.
Proof. split; [constructor|done]. Qed.

Lemma sample_admissible : admissible_all (D := dec) notes [by_folder] sample_events (new_model no_streams).
Proof. repeat split; try apply note_numbers. done. Qed.


Definition sample_model : Model := (spec_all (D := dec) notes [by_folder] sample_events (new_model no_streams)).1.

Lemma sample_agrees : agrees (D := dec) notes [by_folder] 10 sample_db sample_model.
Proof.
  refine (proj1 (run_all_refines (D := dec) notes notes_schema_ok [by_folder] 10 sample_events _ (new_model no_streams)
    notes_indexes_ok _ sample_admissible)).
  apply created_agrees; [apply notes_indexes_ok|apply no_queue_ordered|by intros p].
Qed.

(** The folders that the index has. *)
Definition index_folders (db : Db) : list (option AttributeValue) :=
  match db_tables db !! index_table_name "by_folder" with
  | Some t => map (fun r => bt_get "folder" (row_item r)) (tbl_rows t)
  | None => []
  end.


(** ** A delay that becomes zero

    A change is queued; with the delay at zero, the next one is applied at once and the
    queued one after it: the queue is empty, and the index has the note in both folders. *)
Lemma delay_change_stale :
  let first := (run_all (D := dec) notes [by_folder] 10 [put_note 100 (note "ada" "09:00" "work")]
    (created_db notes [by_folder] ∅ no_queue no_streams)).1 in
  let second := (run_all (D := dec) notes [by_folder] 0 [put_note 101 (note "ada" "09:00" "play")] first).1 in
  index_folders second = [Some (AV_S "play")]
  /\ exists db', drain_due (D := dec) 2 (fun _ _ => None) (fun _ => "108") (fun _ => []) second = Some (db', false)
       /\ q_rows (db_queue db') = [] /\ index_folders db' = [Some (AV_S "work"); Some (AV_S "play")].
Proof.
  split; [vm_compute; reflexivity|]. eexists. split; [vm_compute; reflexivity|].
  split; vm_compute; reflexivity.
Qed.

(** ** Reading *)

Definition read_notes : PostRead dec :=
  {| pr_filter := None; pr_projection := None; pr_maps := no_maps; pr_lek_key_schema := notes_schema;
     pr_select := None; pr_index_proj := None; pr_base_key_schema := notes_schema |}.

Definition note_key (user time : string) : list BoundValue := [BoundText user; BoundText time].

Lemma sample_items_eq : sample_model.1 =
  set_at (note_key "ada" "09:00") (Some (note "ada" "09:00" "play"))
    (set_at (note_key "ada" "10:00") (Some (note "ada" "10:00" "home"))
      (set_at (note_key "ada" "09:00") (Some (note "ada" "09:00" "work")) (fun _ => None))).
Proof. vm_compute. reflexivity. Qed.

Lemma sample_item k i : sample_model.1 k = Some i ->
  i = note "ada" "09:00" "play" \/ i = note "ada" "10:00" "home".
Proof.
  rewrite sample_items_eq. unfold set_at. repeat case_bool_decide; intros [= <-]; [by left|by right].
Qed.

Lemma sample_read k i : sample_model.1 k = Some i ->
  metered i /\ exists b, passes read_notes i = Ok b.
Proof.
  intros [->| ->]%sample_item; (split; [eexists; split; [vm_compute; reflexivity|done]|by eexists]).
Qed.

(** The table, by two workers, a page at a time. *)
Lemma scan_reads_table_witness :
  exists t parts, db_tables sample_db !! data_table_name "notes" = Some t
    /\ Forall2 (fun seg part => forall requests, length part < requests ->
         exists pages, walk (D := dec) (scan_fetch notes t seg) requests (Some 1%Z) read_notes None tt = Ok pages
           /\ covers read_notes part pages) [(Some 0%Z, Some 2%Z); (Some 1%Z, Some 2%Z)] parts
    /\ (forall i, In i (concat parts) <-> exists k, sample_model.1 k = Some i)
    /\ List.NoDup (concat parts).
Proof.
  destruct (sto_base _ _ _ _ _ (proj1 sample_agrees)) as (t & Ht & Hb). exists t.
  destruct (scan_reads_table (D := dec) notes notes_schema_ok t sample_model.1 (Some 2%Z) (Some 1%Z) read_notes Hb)
    as (parts & H1 & H2).
  - reflexivity.
  - apply sample_read.
  - intros l [= <-]. lia.
  - intros n [= <-]. split; [lia|]. vm_compute in Ht. injection Ht as <-.
    intros r [<-|[<-|[]]]; vm_compute; done.
  - exists parts. split; [exact Ht|]. split; [exact H1|exact H2].
Defined.

(** The notes of a user from half past nine on, the latest first. *)
Definition since : KeyCondition :=
  {| pk_path := [PAttr "user"]; pk_value := EPlaceholder "u"; extra_pk_conditions := [];
     sk_condition := Some (SKCompare [PAttr "at"] CGe (EPlaceholder "t")); extra_sk_conditions := [] |}.
Definition since_maps : ExpressionMaps dec := maps_new ∅ {["u" := AV_S "ada"; "t" := AV_S "09:30"]}.

Lemma sample_typed k i : sample_model.1 k = Some i -> key_typed (D := dec) notes since since_maps i.
Proof.
  intros [->| ->]%sample_item; (split; [intros v w Hv Hw; vm_compute in Hv, Hw; by simplify_eq|]);
    intros name ty v Hn Hv; vm_compute in Hn; injection Hn as <- <-; vm_compute in Hv; injection Hv as <-.
  - exists [48; 57; 58; 48; 48]%N. split; [repeat constructor|vm_compute; reflexivity].
  - exists [49; 48; 58; 48; 48]%N. split; [repeat constructor|vm_compute; reflexivity].
Qed.

Lemma query_reads_table_witness :
  exists t all, db_tables sample_db !! data_table_name "notes" = Some t
    /\ (exists pages, walk (D := dec) (query_fetch notes t since since_maps false) (S (length all)) (Some 1%Z)
          read_notes None tt = Ok pages /\ covers read_notes all pages)
    /\ all = [note "ada" "10:00" "home"].
Proof.
  destruct (sto_base _ _ _ _ _ (proj1 sample_agrees)) as (t & Ht & Hb). exists t.
  destruct (query_reads_table (D := dec) notes notes_schema_ok t sample_model.1 since since_maps
    [CCmp "pk" CEq (BoundText "ada"); CCmp "sk_s" CGe (BoundText "09:30")] false (Some 1%Z) read_notes Hb)
    as (all & Hw & Hin & Hn & _).
  - split; [done|done|]. intros sk [= <-]. constructor; [|constructor]. intros w Hw. vm_compute in Hw.
    injection Hw as <-. exists [48; 57; 58; 51; 48]%N. split; [repeat constructor|vm_compute; reflexivity].
  - vm_compute. reflexivity.
  - reflexivity.
  - intros k i Hk. split; [by apply (sample_typed k)|by apply (sample_read k)].
  - intros l [= <-]. lia.
  - exists all. split; [exact Ht|]. split; [apply Hw; lia|].
    assert (Hone : forall i, In i all <-> i = note "ada" "10:00" "home").
    { intros i. rewrite Hin. split.
      - intros [[k Hk] [_ Hm]]. destruct (sample_item k i Hk) as [->| ->]; [|done].
        vm_compute in Hm. destruct Hm as (v & [= <-] & Hv). discriminate Hv.
      - intros ->. split; [exists (note_key "ada" "10:00"); rewrite sample_items_eq; vm_compute; reflexivity|].
        split; [exists (AV_S "ada"); split; vm_compute; reflexivity|].
        vm_compute. eexists. split; reflexivity. }
    clear -Hone Hn. destruct all as [|x [|y all]].
    + exfalso. by apply (proj2 (Hone (note "ada" "10:00" "home"))).
    + by rewrite (proj1 (Hone x) (or_introl eq_refl)).
    + exfalso. inversion Hn as [|? ? Hx _]; subst. apply Hx. left.
      by rewrite (proj1 (Hone x) (or_introl eq_refl)), (proj1 (Hone y) (or_intror (or_introl eq_refl))).
Defined.

(** ** The stream *)

Definition new_stream : Streams :=
  {| str_seq := 0; str_shards := {["notes" := stream_shards "notes"]}; str_records := [] |}.

Definition capture_images : StreamCapture :=
  {| sc_view_type := ViewNewAndOldImages; sc_user_identity := None; sc_region := "us-east-1" |}.

Definition told_events : list (Event (D := dec)) :=
  [Request (sample_env 100) sample_senv (OpPut (note "ada" "09:00" "work") true None no_maps (Some capture_images));
   Request (sample_env 101) sample_senv (OpPut (note "ada" "10:00" "home") true None no_maps (Some capture_images));
   Batch (fun _ => None) "106" [];
   Request (sample_env 102) sample_senv (OpPut (note "ada" "09:00" "play") true None no_maps (Some capture_images));
   Request (sample_env 103) sample_senv (OpDelete (note "ada" "10:00" "") true None no_maps (Some capture_images))].

Definition told_db : Db := (run_all (D := dec) notes [by_folder] 10 told_events
  (created_db notes [by_folder] ∅ no_queue new_stream)).1.

Lemma new_stream_ok : streams_ok new_stream.
Proof. split; [constructor|by intros r]. Qed.


Definition notes_arn : string := "arn:aws:dynamodb:us-east-1:111111111111:table/notes/stream/2026-01-01T00:00:00.000".
Definition notes_catalog : Catalog :=
  {[("111111111111", "notes") :=
      {| cat_table_id := "notes"; cat_stream_label := Some "2026-01-01T00:00:00.000" |}]}.

(** The shard of the user, and the stream after the first note and at the end. *)
Definition ada_shard : string := shard_id_of "notes" 3.
Definition first_stream : Streams := db_streams (run_all (D := dec) notes [by_folder] 10 (take 1 told_events)
  (created_db notes [by_folder] ∅ no_queue new_stream)).1.

Lemma first_stream_ok : streams_ok first_stream.
Proof.
  split.
  - repeat constructor.
  - intros r Hr. vm_compute in Hr. destruct Hr as [<-|[]]. exists 1%N. split; [vm_compute; split; discriminate|done].
Qed.

Definition told_records := Eval vm_compute in str_records (db_streams told_db).

Lemma told_records_eq : str_records (db_streams told_db) = told_records.
Proof. vm_compute. reflexivity. Qed.

Lemma told_stream_ok : streams_ok (db_streams told_db).
Proof.
  split; rewrite told_records_eq.
  - repeat constructor.
  - intros r Hr. unfold told_records in Hr. destruct Hr as [<-|[<-|[<-|[<-|[]]]]];
      [exists 1%N|exists 2%N|exists 3%N|exists 4%N]; (split; [vm_compute; split; discriminate|done]).
Qed.

Lemma ada_served : served notes_catalog "111111111111" notes_arn ada_shard first_stream.
Proof.
  split; [|done]. exists ("notes", "2026-01-01T00:00:00.000").
  eexists. split; [vm_compute; reflexivity|]. split; [vm_compute; reflexivity|]. split; vm_compute; reflexivity.
Qed.

Lemma told_extends : extends first_stream (db_streams told_db).
Proof. split; [vm_compute; reflexivity|]. exists (drop 1 (str_records (db_streams told_db))). vm_compute. reflexivity. Qed.

(** Two records at a time, the first time when there is one. *)
Lemma records_exactly_once_witness :
  exists token records token',
    handle_get_shard_iterator 1000 first_stream notes_catalog "111111111111"
      {| gsi_stream_arn := notes_arn; gsi_shard_id := ada_shard; gsi_shard_iterator_type := TrimHorizon;
         gsi_sequence_number := None |} = Ok token
    /\ consume notes_catalog "111111111111" (Some 2%Z) [(1001%N, first_stream); (1500%N, db_streams told_db)] token
       = Ok (records, token')
    /\ records `prefix_of` map st_record (of_shard ada_shard (db_streams told_db))
    /\ length records = 3.
Proof.
  destruct (records_exactly_once notes_catalog "111111111111" notes_arn ada_shard (Some 2%Z) 2%Z
    [(1001%N, first_stream); (1500%N, db_streams told_db)] 1000%N first_stream ada_served first_stream_ok eq_refl)
    as (token & records & token' & H1 & H2 & H3 & _).
  - discriminate.
  - split; [apply extends_refl|]. split; [apply first_stream_ok|]. split; [discriminate|]. split; [discriminate|].
    split; [apply told_extends|]. split; [apply told_stream_ok|]. split; [discriminate|]. split; [discriminate|done].
  - exists token, records, token'. split; [exact H1|]. split; [exact H2|]. split; [exact H3|].
    vm_compute in H1. injection H1 as <-. vm_compute in H2. injection H2 as <- _. reflexivity.
Defined.

(** From the second record on, the number not padded. *)
Lemma iterator_starts_witness :
  exists token next,
    handle_get_shard_iterator 1000 first_stream notes_catalog "111111111111"
      {| gsi_stream_arn := notes_arn; gsi_shard_id := ada_shard; gsi_shard_iterator_type := AtSequenceNumber;
         gsi_sequence_number := Some "2" |} = Ok token
    /\ handle_get_records 1001 (db_streams told_db) notes_catalog "111111111111"
         {| gr_shard_iterator := token; gr_limit := Some 2%Z |}
       = Ok (map st_record (take 2 (drop 1 (of_shard ada_shard (db_streams told_db)))), next).
Proof.
  apply (iterator_starts notes_catalog "111111111111" notes_arn ada_shard 1000 1001 first_stream (db_streams told_db)
    {| gsi_stream_arn := notes_arn; gsi_shard_id := ada_shard; gsi_shard_iterator_type := AtSequenceNumber;
       gsi_sequence_number := Some "2" |} 2 (Some 2%Z) 2).
  - reflexivity.
  - reflexivity.
  - apply ada_served.
  - apply first_stream_ok.
  - apply told_extends.
  - apply told_stream_ok.
  - vm_compute. reflexivity.
  - vm_compute. discriminate.
  - vm_compute. reflexivity.
  - reflexivity.
  - discriminate.
  - discriminate.
Defined.

(** After the same number, not padded either: the later records are not delivered. *)
Lemma after_unpadded_skips :
  exists token next,
    handle_get_shard_iterator 1000 (db_streams told_db) notes_catalog "111111111111"
      {| gsi_stream_arn := notes_arn; gsi_shard_id := ada_shard; gsi_shard_iterator_type := AfterSequenceNumber;
         gsi_sequence_number := Some "2" |} = Ok token
    /\ handle_get_records 1001 (db_streams told_db) notes_catalog "111111111111"
         {| gr_shard_iterator := token; gr_limit := None |} = Ok ([], next)
    /\ length (of_shard ada_shard (db_streams told_db)) = 4.
Proof.
  eexists _, _. split; [vm_compute; reflexivity|]. split; vm_compute; reflexivity.
Qed.

(** ** A transaction

    A note and a new total of its user, in two tables. *)
Definition totals : TableKeyInfo :=
  let schema := [{| ks_attribute_name := "user"; ks_key_type := Hash |}] in
  {| tki_table_id := "totals"; tki_key_schema := schema; tki_base_key_schema := schema;
     tki_attribute_definitions := [{| ad_attribute_name := "user"; ad_attribute_type := Scalar_S |}] |}.

Definition both : list TableKeyInfo := [notes; totals].
Definition both_indexes (id : string) : list IndexMeta := if String.eqb id "notes" then [by_folder] else [].

Definition total : Item := [("count", AV_N "1"); ("user", AV_S "ada")].

Definition both_ops : list (TransactWriteOp dec) :=
  [TxPut notes (note "ada" "09:00" "work") None no_maps RvNone None;
   TxPut totals total (Some (EFunction "attribute_not_exists" [EPath [PAttr "user"]])) no_maps RvNone None].

Definition both_db : Db :=
  {| db_tables := created_tables notes [by_folder] (created_tables totals [] ∅); db_queue := no_queue;
     db_streams := no_streams |}.

Lemma totals_schema_ok : schema_ok totals.
Proof. split. do 2 eexists. split; [reflexivity|]. split; [reflexivity|]. by left. Qed.

Lemma both_ok : world_ok both both_indexes.
Proof.
  split.
  - intros ki [<-|[<-|[]]]; [apply notes_schema_ok|apply totals_schema_ok].
  - intros ki [<-|[<-|[]]]; [apply notes_indexes_ok|].
    split; [constructor|apply (bool_decide_unpack _); by vm_compute|by intros idx []..].
  - intros ki ki' id [<-|[<-|[]]] [<-|[<-|[]]] [H1|H1] [H2|H2]; try done;
      simpl in *; unfold both_indexes in *; simpl in *; destruct_or?; by subst.
Qed.

Lemma both_agrees : world_agrees (D := dec) both both_indexes 10 both_db (fun _ _ => None).
Proof.
  intros ki [<-|[<-|[]]].
  - apply created_store_ok; [apply notes_indexes_ok|apply no_queue_ordered|by intros p].
  - assert (db_tables both_db = created_tables totals [] (created_tables notes [by_folder] ∅)) as E
      by (vm_compute; reflexivity).
    change both_db with {| db_tables := db_tables both_db; db_queue := no_queue; db_streams := no_streams |}. rewrite E.
    apply created_store_ok; [|apply no_queue_ordered|by intros p].
    split; [constructor|apply (bool_decide_unpack _); by vm_compute|by intros idx []..].
Qed.

Definition both_after : World :=
  put_at "totals" [BoundText "ada"] (Some total)
    (put_at "notes" (note_key "ada" "09:00") (Some (note "ada" "09:00" "work")) (fun _ _ => None)).

Lemma both_spec : transact_spec (D := dec) both_indexes 409600 0 (fun _ => sample_senv) (fun _ _ => None)
  no_streams ∅ both_ops None = Ok (both_after, no_streams, ∅).
Proof. vm_compute. reflexivity. Qed.

Lemma both_admissible op : In op both_ops ->
  In (op_key_info op) both /\ member_admissible (D := dec) (fun _ _ => None) op.
Proof.
  intros [<-|[<-|[]]]; (split; [simpl; by auto|]); [apply note_numbers|].
  intros name n. unfold total. simpl. repeat case_match; try done. intros [= <-]. by eexists.
Qed.

