(* ===== verification/PolicyVariables.v ===== *)
(** * Policy documents and policy variables

    The data of a parsed policy ([crates/auth/src/policy/document.rs]), the trait
    through which a request answers for its condition keys ([ConditionContext] of
    [context.rs]), and the expansion and matching of [${key}] variables
    ([variables.rs]). *)

From S2P Require Import Prelude Arn PolicyMatcher.

(** ** Documents *)

Inductive Effect : Type := Allow_effect | Deny_effect.

#[export] Instance Effect_eq_dec : EqDecision Effect.
Proof. solve_decision. Defined.

Inductive ActionMatch : Type :=
  | Actions (patterns : list string)
  | NotActions (patterns : list string).

Inductive ResourceMatch : Type :=
  | Resources (patterns : list string)
  | NotResources (patterns : list string).

Inductive PrincipalMatch : Type :=
  | Principals (patterns : list string)
  | NotPrincipals (patterns : list string).

Inductive ConditionOperator : Type :=
  | StringEquals
  | StringNotEquals
  | StringEqualsIgnoreCase
  | StringNotEqualsIgnoreCase
  | StringLike
  | StringNotLike
  | NumericEquals
  | NumericNotEquals
  | NumericLessThan
  | NumericLessThanEquals
  | NumericGreaterThan
  | NumericGreaterThanEquals
  | DateEquals
  | DateNotEquals
  | DateLessThan
  | DateLessThanEquals
  | DateGreaterThan
  | DateGreaterThanEquals
  | Bool
  | Null
  | ArnEquals
  | ArnNotEquals
  | ArnLike
  | ArnNotLike
  | IpAddress
  | NotIpAddress
  | ForAllValues (inner : ConditionOperator)
  | ForAnyValue (inner : ConditionOperator)
  | IfExists (inner : ConditionOperator).

Record Condition : Type := {
  operator : ConditionOperator;
  key : string;
  values : list string
}.

Record Statement : Type := {
  sid : option string;
  effect : Effect;
  action_match : ActionMatch;
  resource_match : ResourceMatch;
  conditions : list Condition;
  principal_match : option PrincipalMatch
}.

Record PolicyDocument : Type := {
  version : option string;
  statements : list Statement
}.

Fixpoint base_operator (op : ConditionOperator) : ConditionOperator :=
  match op with
  | ForAllValues inner | ForAnyValue inner | IfExists inner => base_operator inner
  | other => other
  end.

Definition expands_policy_variables (self : PolicyDocument) : bool :=
  bool_decide (version self = Some "2012-10-17").

(** ** The request *)

(** The trait [ConditionContext]. *)
Record ConditionContext : Type := {
  resolve_key : string -> option (list string);
  is_multivalued_key : string -> bool;
  is_unresolvable_key : string -> bool;
  bare_negated_matches_absent_multivalued_key : string -> bool
}.

(** ** Tokens *)

Definition COLON : N := 58.

Inductive Token : Type := Star | Question | Colon | Unit_ (u : N).

#[export] Instance Token_eq_dec : EqDecision Token.
Proof. solve_decision. Defined.

Definition written (unit : N) : Token :=
  if (unit =? 42)%N then Star
  else if (unit =? 63)%N then Question
  else if (unit =? COLON)%N then Colon
  else Unit_ unit.

(** ** References *)

Inductive Reference : Type :=
  | Key (name : string) (dflt : option string)
  | Escape (c : ascii).

(** [char <= ' ']: such a character is one byte, and no byte of another character is. *)
Definition up_to_space (c : ascii) : bool := (byte c <=? 32)%N.

Definition trim_up_to_space (text : string) : string :=
  str_trim_end up_to_space (str_trim_start up_to_space text).

Definition quote : ascii := ascii_of_N 39.

(** The text inside single quotes, when there are two. *)
Definition unquote (s : string) : option string :=
  let l := as_bytes s in
  if (2 <=? length l) && bool_decide (head l = Some quote) && bool_decide (head (rev l) = Some quote)
  then Some (of_bytes (take (length l - 2) (drop 1 l)))
  else None.

Definition parse_reference (inner : string) : Reference :=
  let inner := trim_up_to_space inner in
  if String.eqb inner "*" then Escape "*"
  else if String.eqb inner "?" then Escape "?"
  else if String.eqb inner "$" then Escape "$"
  else
    match str_split_once "," inner with
    | Some (name, dflt) =>
        match unquote (trim_up_to_space dflt) with
        | Some dflt => Key (trim_up_to_space name) (Some dflt)
        | None => Key inner None
        end
    | None => Key inner None
    end.

(** ** Parts *)

Inductive Part : Type := Text (t : string) | Ref (raw : string) (r : Reference).

Definition open_brace : string := "${".

(** [rest.find("${")], as what is before and what is after. *)
Fixpoint split_open (s : string) : option (string * string) :=
  match s with
  | EmptyString => None
  | String c s' =>
      match str_strip_prefix open_brace s with
      | Some after => Some ("", after)
      | None =>
          match split_open s' with
          | Some (before, after) => Some (String c before, after)
          | None => None
          end
      end
  end.

Fixpoint parts_loop (fuel : nat) (rest : string) : list Part :=
  match fuel with
  | O => [Text rest]
  | S fuel =>
      match split_open rest with
      | None => [Text rest]
      | Some (before, after_start) =>
          Text before ::
          match str_split_once "}" after_start with
          | Some (inner, rest) =>
              Ref (open_brace +:+ inner +:+ "}") (parse_reference inner) :: parts_loop fuel rest
          | None => [Text (open_brace +:+ after_start); Text ""]
          end
      end
  end.

(** Every round takes at least the opening brace, so the length is enough. *)
Definition parts (value : string) : list Part := parts_loop (String.length value) value.

(** [value.contains("${")]. *)
Definition has_variable (value : string) : bool := is_some (split_open value).

(** ** Expansion *)

Inductive Missing : Type := Absent | Unresolvable_key.

#[export] Instance Missing_eq_dec : EqDecision Missing.
Proof. solve_decision. Defined.

Definition resolve (name : string) (dflt : option string) (context : ConditionContext)
    : result Missing string :=
  let values := resolve_key context name in
  if bool_decide (values = None) && is_unresolvable_key context name then Err Unresolvable_key
  else if is_multivalued_key context name then
    match values with
    | Some _ => Err Absent
    | None => ok_or_else dflt Absent
    end
  else
    match values with
    | Some values => Ok (default "" (head values))
    | None => ok_or_else dflt Absent
    end.

Definition literal_tokens (s : string) : list Token := map Unit_ (encode_utf16 s).
Definition written_tokens (s : string) : list Token := map written (encode_utf16 s).

(** The loop of [expand_tokens], with its two variables. *)
Fixpoint expand_loop (context : ConditionContext) (tokens : list Token) (unresolvable : bool)
    (ps : list Part) : result Missing (list Token) :=
  match ps with
  | [] => if unresolvable then Err Unresolvable_key else Ok tokens
  | Text text :: ps => expand_loop context (tokens ++ written_tokens text) unresolvable ps
  | Ref _ (Escape c) :: ps => expand_loop context (tokens ++ [Unit_ (byte c)]) unresolvable ps
  | Ref _ (Key name dflt) :: ps =>
      match resolve name dflt context with
      | Ok value => expand_loop context (tokens ++ literal_tokens value) unresolvable ps
      | Err Unresolvable_key => expand_loop context tokens true ps
      | Err Absent => Err Absent
      end
  end.

Definition expand_tokens (pattern : string) (context : ConditionContext) : result Missing (list Token) :=
  expand_loop context [] false (parts pattern).

Definition match_tokens (p : list Token) (v : list N) : bool :=
  scan (fun c => bool_decide (c = Star))
    (fun c d => bool_decide (c = Question) || bool_decide (c = Unit_ d) ||
                (bool_decide (c = Colon) && (d =? COLON)%N)) p v.

(** The tokens before the first [:] and after it. *)
Fixpoint split_colon (l : list Token) : option (list Token * list Token) :=
  match l with
  | [] => None
  | t :: l' =>
      if bool_decide (t = Colon) then Some ([], l')
      else match split_colon l' with
           | Some (a, b) => Some (t :: a, b)
           | None => None
           end
  end.

(** [n] more separators may be taken. *)
Fixpoint split_fields_loop (n : nat) (rest : list Token) : list (list Token) :=
  match n with
  | O => [rest]
  | S n =>
      match split_colon rest with
      | Some (field, rest) => field :: split_fields_loop n rest
      | None => [rest]
      end
  end.

Definition split_fields (pattern : list Token) : list (list Token) := split_fields_loop 5 pattern.

Definition arn_match_tokens (pattern : list Token) (value : string) : bool :=
  if bool_decide (pattern = [Star]) then true
  else
    let p_fields := split_fields pattern in
    let v_fields := str_splitn 6 ":" value in
    if negb (length p_fields =? length v_fields) then false
    else forallb (fun pv => match_tokens pv.1 (encode_utf16 pv.2)) (combine p_fields v_fields).

Definition resource_pattern_matches (pattern resource_arn : string) (expand : bool)
    (context : ConditionContext) : bool :=
  if negb expand || negb (has_variable pattern) then arn_match pattern resource_arn
  else match expand_tokens pattern context with
       | Ok tokens => arn_match_tokens tokens resource_arn
       | Err _ => false
       end.

Definition resource_pattern_is_unresolvable (pattern : string) (expand : bool)
    (context : ConditionContext) : bool :=
  expand && has_variable pattern &&
  match expand_tokens pattern context with
  | Err Unresolvable_key => true
  | _ => false
  end.

Definition variable_key_names (value : string) : list string :=
  flat_map (fun p => match p with Ref _ (Key name _) => [name] | _ => [] end) (parts value).

(** ** Condition values *)

Inductive ConditionValue : Type :=
  | Literal (s : string)
  | Expanded (text : string) (tokens : list Token)
  | Unresolved.

Definition text_of (self : ConditionValue) : option string :=
  match self with
  | Literal text | Expanded text _ => Some text
  | Unresolved => None
  end.

Definition wildcard_matches (self : ConditionValue) (value : string) : bool :=
  match self with
  | Literal pattern => wildcard_match pattern value
  | Expanded _ tokens => match_tokens tokens (encode_utf16 value)
  | Unresolved => false
  end.

Definition arn_matches (self : ConditionValue) (value : string) : bool :=
  match self with
  | Literal pattern => arn_match pattern value
  | Expanded _ tokens => arn_match_tokens tokens value
  | Unresolved => false
  end.

Fixpoint expand_value_loop (context : ConditionContext) (text : string) (tokens : list Token)
    (ps : list Part) : ConditionValue :=
  match ps with
  | [] => Expanded text tokens
  | Text t :: ps => expand_value_loop context (text +:+ t) (tokens ++ written_tokens t) ps
  | Ref _ (Escape c) :: ps =>
      expand_value_loop context (text +:+ String c "") (tokens ++ [Unit_ (byte c)]) ps
  | Ref _ (Key name dflt) :: ps =>
      match resolve name dflt context with
      | Ok resolved =>
          expand_value_loop context (text +:+ resolved) (tokens ++ literal_tokens resolved) ps
      | Err _ => Unresolved
      end
  end.

Definition expand_condition_value (value : string) (expand : bool) (context : ConditionContext)
    : ConditionValue :=
  if negb expand || negb (has_variable value) then Literal value
  else expand_value_loop context "" [] (parts value).

(** [text.matches(':').count()]. *)
Definition count_colons (s : string) : nat :=
  length (List.filter (fun c => Ascii.eqb c ":") (as_bytes s)).

Definition arn_value_lacks_fields (value : string) : bool :=
  has_variable value &&
  (foldr (fun p n => match p with Text t => count_colons t + n | Ref _ _ => n end) 0 (parts value) <? 5).

(** ** The parts of a text *)

Definition part_text (p : Part) : string := match p with Text t => t | Ref raw _ => raw end.
Definition join_parts (ps : list Part) : string := foldr (fun p s => part_text p +:+ s) "" ps.

Lemma split_open_Some s before after :
  split_open s = Some (before, after) ->
  s = before +:+ open_brace +:+ after /\ split_open before = None.
Proof.
  revert before. induction s as [|c s IH]; intros before; [done|]. cbn [split_open].
  destruct (str_strip_prefix open_brace (String c s)) as [a|] eqn:E.
  { apply str_strip_prefix_Some in E. intros [= <- <-]. by rewrite str_app_empty. }
  destruct (split_open s) as [[b a]|] eqn:Es; [|done]. intros [= <- <-].
  destruct (IH _ eq_refl) as [-> Hb]. str_simpl. split; [done|]. cbn [split_open].
  destruct (str_strip_prefix open_brace (String c b)) as [x|] eqn:Ex; [|by rewrite Hb].
  apply str_strip_prefix_Some in Ex. rewrite <- str_app_cons, Ex in E.
  by rewrite str_app_assoc, (proj2 (str_strip_prefix_Some _ _ _) eq_refl) in E.
Qed.

(** A reference is the text between the braces, read by [parse_reference]. *)
Definition part_ok (p : Part) : Prop :=
  match p with
  | Text _ => True
  | Ref raw r => exists inner, raw = open_brace +:+ inner +:+ "}" /\ str_has "}" inner = false /\
      r = parse_reference inner
  end.

(** A text part holds an opening brace only when no closing one follows. *)
Definition plain_text (p : Part) : Prop :=
  match p with
  | Text t => match split_open t with Some (b, a) => str_has "}" a = false | None => True end
  | Ref _ _ => True
  end.

Lemma parts_loop_spec fuel rest :
  String.length rest <= fuel ->
  join_parts (parts_loop fuel rest) = rest /\ Forall part_ok (parts_loop fuel rest) /\
  Forall plain_text (parts_loop fuel rest).
Proof.
  revert rest. induction fuel as [|fuel IH]; intros rest Hl.
  { destruct rest; [|simpl in Hl; lia]. simpl. repeat split; repeat constructor. }
  cbn [parts_loop]. destruct (split_open rest) as [[before after]|] eqn:E.
  2:{ simpl. rewrite str_app_nil. split; [done|]. split; repeat constructor. simpl. by rewrite E. }
  apply split_open_Some in E as [-> Hb].
  destruct (str_split_once "}" after) as [[inner rest]|] eqn:Ec.
  - apply str_split_once_Some in Ec as [-> Hin].
    destruct (IH rest) as (Hj & Ho & Hp).
    { rewrite <- length_as_bytes, !as_bytes_app, !length_app in Hl.
      change (length (as_bytes open_brace)) with 2 in Hl.
      change (length (as_bytes (String "}" rest))) with (S (length (as_bytes rest))) in Hl.
      rewrite (length_as_bytes rest) in Hl. lia. }
    cbn [join_parts foldr part_text]. change (foldr _ "" (parts_loop fuel rest)) with (join_parts (parts_loop fuel rest)).
    rewrite Hj, !str_app_assoc. split; [by str_simpl|]. split.
    + constructor; [done|]. constructor; [|done]. by exists inner.
    + constructor; [simpl; by rewrite Hb|]. by constructor.
  - apply str_split_once_None in Ec. cbn [join_parts foldr part_text]. rewrite str_app_nil.
    split; [done|]. split; [repeat constructor|].
    constructor; [simpl; by rewrite Hb|]. constructor; [|repeat constructor].
    cbn [plain_text]. by replace (split_open (open_brace +:+ after)) with (Some ("", after)).
Qed.

(** Splitting a policy text loses nothing: the parts, joined, are the text; every
    reference is an opening brace, a text without a closing brace, and a closing
    brace; and what is left as plain text has no reference in it. *)
Theorem parts_roundtrip value :
  join_parts (parts value) = value /\ Forall part_ok (parts value) /\ Forall plain_text (parts value).
Proof. by apply parts_loop_spec. Qed.

(** ** Tokens mean what units mean *)

Definition token_star (c : Token) : bool := bool_decide (c = Star).
Definition token_fits (c : Token) (d : N) : bool :=
  bool_decide (c = Question) || bool_decide (c = Unit_ d) || (bool_decide (c = Colon) && (d =? COLON)%N).

Lemma match_tokens_wild p v : match_tokens p v = true <-> wild token_star token_fits p v.
Proof. apply (scan_spec token_star token_fits). Qed.

Lemma written_star c : token_star (written c) = is_wild c.
Proof.
  unfold token_star, is_wild, written. destruct (N.eqb_spec c 42) as [->|Hne]; [done|].
  rewrite (bool_decide_eq_false_2 (c = 42%N)) by done. by repeat case_match.
Qed.

Lemma written_fits c d : is_wild c = false -> token_fits (written c) d = unit_fits false c d.
Proof.
  unfold is_wild, token_fits, unit_fits, written. intros Hc%bool_decide_eq_false.
  rewrite (proj2 (N.eqb_neq _ _) Hc). destruct (N.eqb_spec c 63) as [->|H63]; [done|].
  rewrite (bool_decide_eq_false_2 (c = 63%N)) by done.
  destruct (N.eqb_spec c COLON) as [->|H58]; simpl.
  - destruct (N.eqb_spec d COLON) as [->|Hd]; [done|]. symmetry. apply bool_decide_eq_false. congruence.
  - rewrite orb_false_r. apply bool_decide_ext. split; congruence.
Qed.

Lemma match_tokens_written p v :
  match_tokens (written_tokens p) (encode_utf16 v) = wildcard_match p v.
Proof.
  unfold wildcard_match. rewrite wildcard_match_utf16. unfold match_tokens, match_units, written_tokens.
  rewrite <- (list_fmap_id (encode_utf16 v)) at 1.
  apply (scan_map written id is_wild (unit_fits false) token_star token_fits).
  - exact written_star.
  - exact written_fits.
Qed.

(** ** Variables stay literal *)

Lemma wild_app {P V : Type} (star : P -> bool) (fits : P -> V -> bool) p q v :
  wild star fits (p ++ q) v <-> exists v1 v2, v = v1 ++ v2 /\ wild star fits p v1 /\ wild star fits q v2.
Proof.
  split.
  - revert v. induction p as [|c p IH]; intros v Hw; simpl in Hw.
    { exists [], v. split; [done|]. split; [constructor|done]. }
    inversion Hw as [|? ? w1 w2 Hs Hw'|? d ? w Hs Hf Hw']; subst; destruct (IH _ Hw') as (v1 & v2 & -> & H1 & H2).
    + exists (w1 ++ v1), v2. rewrite app_assoc. split; [done|]. split; [by constructor|done].
    + exists (d :: v1), v2. split; [done|]. split; [by constructor|done].
  - intros (v1 & v2 & -> & H1 & H2). induction H1; simpl; [done| |by constructor].
    rewrite <- app_assoc. by constructor.
Qed.

Lemma wild_literal us v : wild token_star token_fits (map Unit_ us) v <-> v = us.
Proof.
  split.
  - revert v. induction us as [|u us IH]; intros v Hw; simpl in Hw; inversion Hw as [|? ? ? ? Hs|? d ? w Hs Hf Hw']; subst;
      [done|done|]. rewrite (IH _ Hw'). f_equal. unfold token_fits in Hf. simpl in Hf.
    rewrite orb_false_r in Hf. apply bool_decide_eq_true in Hf. congruence.
  - intros ->. induction us as [|u us IH]; simpl; [constructor|]. constructor; [done| |done].
    unfold token_fits. by rewrite (bool_decide_eq_true_2 (Unit_ u = Unit_ u)), orb_true_r.
Qed.

Lemma split_colon_app a b :
  split_colon (a ++ b) =
    match split_colon a with
    | Some (x, y) => Some (x, y ++ b)
    | None => match split_colon b with Some (x, y) => Some (a ++ x, y) | None => None end
    end.
Proof.
  induction a as [|t a IH]; simpl; [by destruct (split_colon b) as [[]|]|].
  destruct (bool_decide (t = Colon)); [done|]. rewrite IH.
  by destruct (split_colon a) as [[]|], (split_colon b) as [[]|].
Qed.

Lemma split_colon_literal us : split_colon (map Unit_ us) = None.
Proof. induction us as [|u us IH]; simpl; [done|]. by rewrite IH. Qed.

Lemma split_fields_literal n a us b :
  length (split_fields_loop n (a ++ map Unit_ us ++ b)) = length (split_fields_loop n (a ++ b)).
Proof.
  revert a. induction n as [|n IH]; intros a; [done|]. cbn [split_fields_loop].
  rewrite !split_colon_app, split_colon_literal.
  destruct (split_colon a) as [[x y]|]; simpl; [by rewrite IH|].
  by destruct (split_colon b) as [[x y]|].
Qed.


(** ** Patterns without variables *)

Lemma encode_no_colon c :
  c <> 58%N -> (c < 1114112)%N -> forallb (fun d => negb (Ascii.eqb d ":")) (encode_utf8_char c) = true.
Proof.
  intros Hc Hlt. apply forallb_forall. intros d Hd. apply negb_true_iff, Ascii.eqb_neq. intros ->.
  unfold encode_utf8_char in Hd. apply in_map_iff in Hd as (n & Hn & Hin).
  apply (f_equal N_of_ascii) in Hn. change (N_of_ascii ":") with 58%N in Hn.
  assert (n < 256 /\ n <> 58)%N as [Hb Hne]; [|rewrite N_ascii_embedding in Hn by done; congruence].
  pose proof (N.mod_lt c 64 ltac:(done)). pose proof (N.mod_lt (c / 64) 64 ltac:(done)).
  pose proof (N.mod_lt (c / 4096) 64 ltac:(done)).
  assert (c < 2048 -> c / 64 < 32)%N by (intros; apply N.Div0.div_lt_upper_bound; lia).
  assert (c < 65536 -> c / 4096 < 16)%N by (intros; apply N.Div0.div_lt_upper_bound; lia).
  assert (c / 262144 < 8)%N by (apply N.Div0.div_lt_upper_bound; lia).
  revert Hin. generalize dependent (c mod 64)%N. generalize dependent ((c / 64) mod 64)%N.
  generalize dependent ((c / 4096) mod 64)%N. generalize dependent (c / 64)%N.
  generalize dependent (c / 4096)%N. generalize dependent (c / 262144)%N. intros.
  destruct (N.ltb_spec c 128); [|destruct (N.ltb_spec c 2048); [|destruct (N.ltb_spec c 65536)]];
    simpl in Hin; repeat destruct Hin as [<-|Hin]; try done; lia.
Qed.

Lemma text_of_chars_bytes cs : Forall (fun c => c < 1114112)%N cs ->
  text_of_chars (of_bytes (flat_map encode_utf8_char cs)) cs.
Proof. intros H. split; [done|]. by rewrite as_bytes_of_bytes. Qed.

Lemma no_colon_bytes cs :
  Forall (fun c => c < 1114112)%N cs -> ~ In 58%N cs ->
  str_has ":" (of_bytes (flat_map encode_utf8_char cs)) = false.
Proof.
  intros Hf Hn. apply (str_all_free (fun d => negb (Ascii.eqb d ":"))); [done|].
  rewrite str_all_bytes, as_bytes_of_bytes. induction Hf as [|c cs Hc Hf IH]; [done|]. simpl in *.
  rewrite forallb_app, IH by naive_solver. rewrite encode_no_colon by naive_solver. done.
Qed.

(** A [:] of the text is a [:] of its characters. *)
Lemma split_once_chars s cs :
  text_of_chars s cs ->
  (str_split_once ":" s = None /\ ~ In 58%N cs) \/
  exists sa sb a b, str_split_once ":" s = Some (sa, sb) /\ cs = a ++ 58%N :: b /\ ~ In 58%N a /\
    text_of_chars sa a /\ text_of_chars sb b.
Proof.
  intros [Hf Hb]. rewrite <- (of_bytes_as_bytes s), Hb.
  destruct (decide (58%N ∈ cs)) as [Hin|Hn].
  - right. apply list_elem_of_split_l in Hin as (a & b & -> & Ha). rewrite list_elem_of_In in Ha.
    apply Forall_app in Hf as [Fa Fb]. apply Forall_cons_iff in Fb as [_ Fb].
    exists (of_bytes (flat_map encode_utf8_char a)), (of_bytes (flat_map encode_utf8_char b)), a, b.
    split; [|split; [done|split; [done|split; by apply text_of_chars_bytes]]].
    apply str_split_once_Some. split; [|by apply no_colon_bytes].
    rewrite flat_map_app. apply as_bytes_inj.
    by rewrite as_bytes_of_bytes, as_bytes_app, as_bytes_of_bytes;
      change (as_bytes (String ":" ?x)) with (":"%char :: as_bytes x); rewrite ?as_bytes_of_bytes.
  - left. rewrite list_elem_of_In in Hn. split; [|done]. by apply str_split_once_None, no_colon_bytes.
Qed.

Lemma written_text s cs : text_of_chars s cs -> written_tokens s = flat_map (fun c => map written (utf16_units c)) cs.
Proof.
  intros H. unfold written_tokens, encode_utf16. rewrite (chars_of_text _ _ H).
  clear H. induction cs as [|c cs IH]; [done|]. simpl. by rewrite map_app, IH.
Qed.

Lemma unit_no_colon c : c <> 58%N -> split_colon (map written (utf16_units c)) = None.
Proof.
  intros Hc. unfold utf16_units.
  assert (forall u, u <> 58%N -> bool_decide (written u = Colon) = false) as Hw.
  { intros u Hu. apply bool_decide_eq_false. unfold written, COLON.
    rewrite (proj2 (N.eqb_neq u 58)) by done. by repeat case_match. }
  destruct (c <? 65536)%N; simpl; rewrite !Hw; try done.
  - generalize ((c - 65536) mod 1024)%N. intros. lia.
  - generalize ((c - 65536) / 1024)%N. intros. lia.
Qed.

Lemma split_colon_chars cs :
  ~ In 58%N cs -> split_colon (flat_map (fun c => map written (utf16_units c)) cs) = None.
Proof.
  induction cs as [|c cs IH]; [done|]. intros Hn. simpl in *.
  rewrite split_colon_app, unit_no_colon, IH by naive_solver. done.
Qed.

Lemma split_fields_written n s cs :
  text_of_chars s cs -> split_fields_loop n (written_tokens s) = map written_tokens (str_splitn (S n) ":" s).
Proof.
  revert s cs. induction n as [|n IH]; intros s cs Hs; [done|].
  cbn [split_fields_loop]. change (str_splitn (S (S n)) ":" s) with
    (match str_split_once ":" s with Some (a, b) => a :: str_splitn (S n) ":" b | None => [s] end).
  rewrite (written_text _ _ Hs). destruct (split_once_chars _ _ Hs) as [[-> Hn]|(sa & sb & a & b & -> & -> & Ha & Ta & Tb)].
  - rewrite split_colon_chars by done. simpl. by rewrite (written_text _ _ Hs).
  - rewrite flat_map_app, split_colon_app, split_colon_chars by done. simpl.
    rewrite app_nil_r. cbn [map]. rewrite <- (written_text _ _ Ta), <- (written_text _ _ Tb).
    by rewrite (IH _ _ Tb).
Qed.

Lemma written_bare_star s cs : text_of_chars s cs -> written_tokens s = [Star] <-> s = "*".
Proof.
  intros Hs. split; [|by intros ->]. rewrite (written_text _ _ Hs). intros E.
  assert (cs = [42%N]) as ->.
  { destruct cs as [|c cs]; [done|]. simpl in E. unfold utf16_units in E at 1.
    destruct (N.ltb_spec c 65536); simpl in E.
    - injection E as E1 E2. assert (c = 42%N) as ->.
      { unfold written in E1. destruct (N.eqb_spec c 42); [done|]. by repeat case_match. }
      f_equal. destruct cs as [|c' cs]; [done|]. simpl in E2. unfold utf16_units in E2 at 1.
      by destruct (c' <? 65536)%N.
    - by injection E as _ E. }
  destruct Hs as [_ Hb]. by apply as_bytes_inj.
Qed.

(** The two matchers agree.  A pattern made only of written text, expanded to tokens
    and matched by the token matcher, gives the answer the text matcher gives, for
    values and for ARNs, field rule included. *)
Theorem written_pattern_agrees pattern cs value :
  text_of_chars pattern cs ->
  match_tokens (written_tokens pattern) (encode_utf16 value) = wildcard_match pattern value /\
  arn_match_tokens (written_tokens pattern) value = arn_match pattern value.
Proof.
  intros Hp. split; [apply match_tokens_written|]. unfold arn_match_tokens, arn_match.
  destruct (String.eqb_spec pattern "*") as [->|Hne]; [done|].
  rewrite bool_decide_eq_false_2 by (by rewrite (written_bare_star _ _ Hp)).
  unfold split_fields. rewrite (split_fields_written 5 _ _ Hp), length_map.
  destruct (negb _); [done|]. generalize (str_splitn 6 ":" value). generalize (str_splitn 6 ":" pattern).
  intros ps. induction ps as [|p ps IH]; intros [|v vs]; [done|done|done|]. simpl.
  by rewrite match_tokens_written, IH.
Qed.

(** ** Witness *)

(** An ARN pattern with a letter outside ASCII. *)
Definition cafe_chars : list N :=
  map byte (as_bytes "arn:aws:dynamodb:*:*:table/caf") ++ [233%N; 42%N].

Lemma written_pattern_agrees_witness :
  match_tokens (written_tokens (of_bytes (flat_map encode_utf8_char cafe_chars)))
    (encode_utf16 "arn:aws:dynamodb:us-east-1:1:table/cafe") =
    wildcard_match (of_bytes (flat_map encode_utf8_char cafe_chars)) "arn:aws:dynamodb:us-east-1:1:table/cafe" /\
  arn_match_tokens (written_tokens (of_bytes (flat_map encode_utf8_char cafe_chars)))
    "arn:aws:dynamodb:us-east-1:1:table/cafe" =
    arn_match (of_bytes (flat_map encode_utf8_char cafe_chars)) "arn:aws:dynamodb:us-east-1:1:table/cafe".
Proof.
  apply (written_pattern_agrees _ cafe_chars). apply text_of_chars_bytes.
  repeat (constructor; [vm_compute; reflexivity|]). constructor.
Defined.
