(* ===== verification/PolicyCondition.v ===== *)
(** * Policy conditions

    [crates/auth/src/policy/condition.rs]: the operators, the three-valued outcome of a
    condition and of a statement's condition block.  Numbers are IEEE 754 binary64
    values of the standard library's [SpecFloat], read from text with correct
    rounding; the RFC 3339 parser is a parameter. *)

From Stdlib Require Import SpecFloat.
From S2P Require Import Prelude Arn PolicyMatcher PolicyVariables.

(** [OffsetDateTime::parse(s, &Rfc3339)] of the [time] crate, as
    [unix_timestamp_nanos]. *)
Class Rfc3339 : Type := rfc3339_nanos : string -> option Z.

(** ** Numbers *)

Definition f64_normalize (neg : bool) (m : Z) : spec_float :=
  binary_normalize 53 1024 (if neg then - m else m) 0 neg.

(** The value nearest to [m * 10^e], ties to even. *)
Definition decimal_to_f64 (neg : bool) (m : N) (e : Z) : spec_float :=
  if (m =? 0)%N then S754_zero neg
  else if (0 <=? e)%Z then f64_normalize neg (Z.of_N m * 10 ^ e)
  else
    let '(q, e', l) := SFdiv_core_binary 53 1024 (Z.of_N m) 0 (10 ^ (- e)) 0 in
    binary_round_aux 53 1024 neg q e' l.

Fixpoint take_digits (l : list ascii) : list ascii * list ascii :=
  match l with
  | c :: l' => if is_digit c then let '(ds, rest) := take_digits l' in (c :: ds, rest) else ([], l)
  | [] => ([], [])
  end.

(** The exponent stops growing at [0x10000]. *)
Definition exponent_val (ds : list ascii) : Z :=
  fold_left (fun e c => if (e <? 65536)%Z then 10 * e + Z.of_N (digit_val c) else e)%Z ds 0%Z.

(** The exponent after the digits: [None] when it is malformed. *)
Definition parse_exponent (l : list ascii) : option Z :=
  match l with
  | [] => Some 0%Z
  | c :: l =>
      if Ascii.eqb c "e" || Ascii.eqb c "E" then
        let '(neg, l) := match l with
          | d :: l' => if Ascii.eqb d "-" then (true, l') else if Ascii.eqb d "+" then (false, l') else (false, l)
          | [] => (false, l)
          end in
        let '(ds, rest) := take_digits l in
        if bool_decide (ds = []) || negb (bool_decide (rest = [])) then None
        else Some (if neg : bool then - exponent_val ds else exponent_val ds)%Z
      else None
  end.

Definition parse_number_text (neg : bool) (l : list ascii) : option spec_float :=
  let '(whole, rest) := take_digits l in
  let '(frac, rest) :=
    match rest with
    | c :: rest' => if Ascii.eqb c "." then take_digits rest' else ([], rest)
    | [] => ([], rest)
    end in
  if bool_decide (whole ++ frac = []) then None
  else
    match parse_exponent rest with
    | None => None
    | Some e => Some (decimal_to_f64 neg (digits_val (whole ++ frac)) (e - Z.of_nat (length frac)))
    end.

(** [str::parse::<f64>()]. *)
Definition parse_f64 (s : string) : option spec_float :=
  let '(neg, l) := match as_bytes s with
    | c :: l => if Ascii.eqb c "-" then (true, l) else if Ascii.eqb c "+" then (false, l) else (false, c :: l)
    | [] => (false, [])
    end in
  match parse_number_text neg l with
  | Some x => Some x
  | None =>
      let word := to_ascii_lowercase (of_bytes l) in
      if String.eqb word "nan" then Some S754_nan
      else if String.eqb word "inf" || String.eqb word "infinity" then Some (S754_infinity neg)
      else None
  end.

Definition is_finite_f64 (x : spec_float) : bool :=
  match x with S754_zero _ | S754_finite _ _ _ => true | _ => false end.

(** [f64 as i128]: truncation, saturating at the ends. *)
Definition i128_max : Z := (2 ^ 127 - 1)%Z.
Definition f64_to_i128 (x : spec_float) : Z :=
  match x with
  | S754_finite neg m e =>
      let n := if (0 <=? e)%Z then (Z.pos m * 2 ^ e)%Z else (Z.pos m / 2 ^ (- e))%Z in
      Z.max (- 2 ^ 127) (Z.min i128_max (if neg then - n else n))
  | S754_infinity neg => if neg then (- 2 ^ 127)%Z else i128_max
  | _ => 0%Z
  end.

Definition parse_f64_cmp (a b : string) (cmp : spec_float -> spec_float -> bool) : bool :=
  match parse_f64 a, parse_f64 b with
  | Some va, Some vb => cmp va vb
  | _, _ => false
  end.

Section Conditions.
Context `{HT : Rfc3339}.

Definition parse_epoch_millis (s : string) : option Z :=
  match (if str_has "T" s || str_has "-" s then None else parse_f64 s) with
  | Some n =>
      if negb (is_finite_f64 n) then None
      else Some (f64_to_i128 (SFmul 53 1024 n (f64_normalize false 1000)))
  | None => (fun n => Z.quot n 1000000) <$> rfc3339_nanos s
  end.

Definition compare_dates (a b : string) (cmp : Z -> Z -> bool) : bool :=
  match parse_epoch_millis a, parse_epoch_millis b with
  | Some va, Some vb => cmp va vb
  | _, _ => false
  end.

(** ** Operators *)

Definition is_negative_operator (op : ConditionOperator) : bool :=
  match op with
  | StringNotEquals | StringNotEqualsIgnoreCase | NumericNotEquals | DateNotEquals
  | StringNotLike | ArnNotEquals | ArnNotLike | NotIpAddress => true
  | _ => false
  end.

Definition is_arn_operator (op : ConditionOperator) : bool :=
  match op with
  | ArnEquals | ArnNotEquals | ArnLike | ArnNotLike => true
  | _ => false
  end.

Fixpoint operator_expands_variables (op : ConditionOperator) : bool :=
  match op with
  | ForAllValues inner | ForAnyValue inner | IfExists inner => operator_expands_variables inner
  | StringEquals | StringNotEquals | StringEqualsIgnoreCase | StringNotEqualsIgnoreCase
  | StringLike | StringNotLike => true
  | other => is_arn_operator other
  end.

Definition expands_variables (op : ConditionOperator) (version_2012 : bool) : bool :=
  version_2012 && operator_expands_variables op.

Definition unwrap_if_exists (op : ConditionOperator) : bool * ConditionOperator :=
  match op with
  | IfExists base => (true, base)
  | other => (false, other)
  end.

Definition null_holds (policy_value : string) (key_absent : bool) : bool :=
  if has_variable policy_value then negb key_absent
  else (String.eqb policy_value "true" && key_absent) || (String.eqb policy_value "false" && negb key_absent).

Definition bool_matches (context_value policy_value : string) : bool :=
  if has_variable policy_value then negb (eq_ignore_ascii_case context_value "true")
  else eq_ignore_ascii_case context_value policy_value.

Definition compare_single (op : ConditionOperator) (context_value : string) (value : ConditionValue) : bool :=
  if is_arn_operator op && negb (is_arn context_value) then false
  else
    match text_of value with
    | None => is_negative_operator op
    | Some policy_value =>
        match op with
        | StringEquals => String.eqb context_value policy_value
        | StringNotEquals => negb (String.eqb context_value policy_value)
        | StringEqualsIgnoreCase => eq_ignore_ascii_case context_value policy_value
        | StringNotEqualsIgnoreCase => negb (eq_ignore_ascii_case context_value policy_value)
        | StringLike => wildcard_matches value context_value
        | StringNotLike => negb (wildcard_matches value context_value)
        | NumericEquals => parse_f64_cmp context_value policy_value SFeqb
        | NumericNotEquals => parse_f64_cmp context_value policy_value (fun a b => negb (SFeqb a b))
        | NumericLessThan => parse_f64_cmp context_value policy_value SFltb
        | NumericLessThanEquals => parse_f64_cmp context_value policy_value SFleb
        | NumericGreaterThan => parse_f64_cmp context_value policy_value (fun a b => SFltb b a)
        | NumericGreaterThanEquals => parse_f64_cmp context_value policy_value (fun a b => SFleb b a)
        | DateEquals => compare_dates context_value policy_value Z.eqb
        | DateNotEquals => compare_dates context_value policy_value (fun a b => negb (a =? b)%Z)
        | DateLessThan => compare_dates context_value policy_value Z.ltb
        | DateLessThanEquals => compare_dates context_value policy_value Z.leb
        | DateGreaterThan => compare_dates context_value policy_value Z.gtb
        | DateGreaterThanEquals => compare_dates context_value policy_value Z.geb
        | Bool => bool_matches context_value policy_value
        | ArnEquals | ArnLike => arn_matches value context_value
        | ArnNotEquals | ArnNotLike => negb (arn_matches value context_value)
        | IpAddress => bool_decide (ip_in_cidr policy_value context_value = Some true)
        | NotIpAddress => bool_decide (ip_in_cidr policy_value context_value = Some false)
        | Null | ForAllValues _ | ForAnyValue _ | IfExists _ => false
        end
    end.

(** For each context value, all or some of the policy values. *)
Definition holds_for (op : ConditionOperator) (policy_values : list ConditionValue) (cv : string) : bool :=
  if is_negative_operator op then forallb (compare_single op cv) policy_values
  else existsb (compare_single op cv) policy_values.

Definition evaluate_single_value_condition (op : ConditionOperator) (context_values : list string)
    (policy_values : list ConditionValue) : bool :=
  forallb (holds_for op policy_values) context_values.

Definition arn_operator_sees_non_arn (op : ConditionOperator) (context_values : list string) : bool :=
  is_arn_operator op && negb (forallb is_arn context_values).

(** ** Conditions *)

Definition evaluate_condition_with (condition : Condition) (version_2012 : bool)
    (context : ConditionContext) : bool :=
  let context_values := resolve_key context (key condition) in
  let is_multivalued := is_multivalued_key context (key condition) in
  let expand := expands_variables (operator condition) version_2012 in
  let expanded_values := map (fun v => expand_condition_value v expand context) (values condition) in
  match operator condition with
  | Null =>
      let key_absent := negb (is_some context_values) in
      match head expanded_values with
      | Some value =>
          match text_of value with
          | Some v => null_holds v key_absent
          | None => false
          end
      | None => false
      end
  | ForAllValues inner =>
      let '(_, base_op) := unwrap_if_exists inner in
      match context_values with
      | None => true
      | Some vals => forallb (holds_for base_op expanded_values) vals
      end
  | ForAnyValue inner =>
      let '(absent_passes, base_op) := unwrap_if_exists inner in
      match context_values with
      | None => absent_passes
      | Some vals =>
          if arn_operator_sees_non_arn base_op vals then false
          else existsb (holds_for base_op expanded_values) vals
      end
  | IfExists inner =>
      match context_values with
      | None => true
      | Some vals =>
          if is_multivalued then false else evaluate_single_value_condition inner vals expanded_values
      end
  | other =>
      match context_values with
      | None =>
          is_negative_operator other &&
          (negb is_multivalued || bare_negated_matches_absent_multivalued_key context (key condition))
      | Some vals =>
          if is_multivalued then false else evaluate_single_value_condition other vals expanded_values
      end
  end.

Definition evaluate_condition (condition : Condition) (context : ConditionContext) : bool :=
  evaluate_condition_with condition true context.

Inductive ConditionMatch : Type := Match | NoMatch | Unresolvable.

#[export] Instance ConditionMatch_eq_dec : EqDecision ConditionMatch.
Proof. solve_decision. Defined.

Definition is_unresolvable (k : string) (context : ConditionContext) : bool :=
  negb (is_some (resolve_key context k)) && is_unresolvable_key context k.

Definition reads_unresolvable_variable (condition : Condition) (context : ConditionContext) : bool :=
  existsb (fun value => existsb (fun name => is_unresolvable name context) (variable_key_names value))
    (values condition).

Definition evaluate_condition_match (condition : Condition) (version_2012 : bool)
    (context : ConditionContext) : ConditionMatch :=
  if is_unresolvable (key condition) context ||
     (expands_variables (operator condition) version_2012 && reads_unresolvable_variable condition context)
  then Unresolvable
  else if is_arn_operator (base_operator (operator condition)) &&
          existsb arn_value_lacks_fields (values condition)
  then Unresolvable
  else if evaluate_condition_with condition version_2012 context then Match else NoMatch.

(** The loop, with its variable. *)
Fixpoint conditions_loop (any_unresolvable : bool) (version_2012 : bool) (context : ConditionContext)
    (cs : list Condition) : ConditionMatch :=
  match cs with
  | [] => if any_unresolvable then Unresolvable else Match
  | condition :: cs =>
      match evaluate_condition_match condition version_2012 context with
      | Match => conditions_loop any_unresolvable version_2012 context cs
      | NoMatch => NoMatch
      | Unresolvable => conditions_loop true version_2012 context cs
      end
  end.

Definition evaluate_statement_conditions (cs : list Condition) (version_2012 : bool)
    (context : ConditionContext) : ConditionMatch :=
  conditions_loop false version_2012 context cs.
End Conditions.

(** ** Negated operators *)

Inductive negates : ConditionOperator -> ConditionOperator -> Prop :=
  | negates_equals : negates StringNotEquals StringEquals
  | negates_ignore_case : negates StringNotEqualsIgnoreCase StringEqualsIgnoreCase
  | negates_like : negates StringNotLike StringLike
  | negates_arn_equals : negates ArnNotEquals ArnEquals
  | negates_arn_like : negates ArnNotLike ArnLike.

Section Laws.
Context `{HT : Rfc3339}.

Lemma compare_single_negates neg pos cv v :
  negates neg pos -> (is_arn_operator pos = true -> is_arn cv = true) ->
  compare_single neg cv v = negb (compare_single pos cv v).
Proof.
  intros Hn Ha. unfold compare_single.
  destruct Hn; simpl in *; try rewrite (Ha eq_refl); simpl; by destruct (text_of v).
Qed.

Lemma holds_for_negates neg pos pvs cv :
  negates neg pos -> (is_arn_operator pos = true -> is_arn cv = true) ->
  holds_for neg pvs cv = negb (holds_for pos pvs cv).
Proof.
  intros Hn Ha. unfold holds_for.
  assert (is_negative_operator neg = true /\ is_negative_operator pos = false) as [-> ->] by by destruct Hn.
  induction pvs as [|v pvs IH]; [done|]. simpl.
  by rewrite IH, (compare_single_negates neg pos), negb_orb by done.
Qed.

(** On a key with one value, or none, a negated string or ARN operator says the
    opposite of the operator it negates, whatever the values and the variables in
    them.  For the ARN operators the value of the key must be an ARN. *)
Theorem negated_operator_opposite neg pos k vals v2012 context :
  negates neg pos -> is_multivalued_key context k = false ->
  match resolve_key context k with
  | None => True
  | Some [cv] => is_arn_operator pos = true -> is_arn cv = true
  | Some _ => False
  end ->
  evaluate_condition_with {| operator := neg; key := k; values := vals |} v2012 context =
  negb (evaluate_condition_with {| operator := pos; key := k; values := vals |} v2012 context).
Proof.
  intros Hn Hm Hv. unfold evaluate_condition_with. cbn [operator key values]. rewrite Hm.
  assert (expands_variables neg v2012 = expands_variables pos v2012) as -> by by destruct Hn.
  set (pvs := map _ vals). clearbody pvs.
  destruct (resolve_key context k) as [[|cv [|]]|]; try done.
  - pose proof (holds_for_negates neg pos pvs cv Hn Hv) as E.
    destruct Hn; unfold evaluate_single_value_condition; cbn [forallb]; by rewrite E, !andb_true_r.
  - by destruct Hn.
Qed.

(** ** A statement's conditions *)

Lemma conditions_loop_NoMatch u v2012 context cs :
  conditions_loop u v2012 context cs = NoMatch <->
  exists c, In c cs /\ evaluate_condition_match c v2012 context = NoMatch.
Proof.
  revert u. induction cs as [|c cs IH]; intros u; simpl.
  { split; [by destruct u|by intros (? & [] & _)]. }
  destruct (evaluate_condition_match c v2012 context) eqn:E; rewrite ?IH.
  2:{ split; [|done]. intros _. exists c. auto. }
  all: split; [intros (x & Hx & Hn); eauto|]; intros (x & [<-|Hx] & Hn); [congruence|eauto].
Qed.

Lemma conditions_loop_Match u v2012 context cs :
  conditions_loop u v2012 context cs = Match <->
  u = false /\ forall c, In c cs -> evaluate_condition_match c v2012 context = Match.
Proof.
  revert u. induction cs as [|c cs IH]; intros u; simpl.
  { destruct u; split; [done|by intros [? _]|by intros _|done]. }
  destruct (evaluate_condition_match c v2012 context) eqn:E; rewrite ?IH.
  - split; (intros [-> H]; split; [done|]); [intros x [<-|Hx]; auto|auto].
  - split; [done|]. intros [_ H]. specialize (H c (or_introl eq_refl)). congruence.
  - split; [by intros [? _]|]. intros [_ H]. specialize (H c (or_introl eq_refl)). congruence.
Qed.

Lemma statement_NoMatch v2012 context cs :
  evaluate_statement_conditions cs v2012 context = NoMatch <->
  exists c, In c cs /\ evaluate_condition_match c v2012 context = NoMatch.
Proof. apply conditions_loop_NoMatch. Qed.

Lemma statement_Match v2012 context cs :
  evaluate_statement_conditions cs v2012 context = Match <->
  forall c, In c cs -> evaluate_condition_match c v2012 context = Match.
Proof. unfold evaluate_statement_conditions. rewrite conditions_loop_Match. naive_solver. Qed.

(** The conditions of a statement are a conjunction of three-valued outcomes, in
    any order: one that does not match decides, then one that cannot be resolved. *)
Theorem statement_conditions_spec cs cs' v2012 context :
  Permutation cs cs' ->
  evaluate_statement_conditions cs v2012 context = evaluate_statement_conditions cs' v2012 context /\
  (evaluate_statement_conditions cs v2012 context = NoMatch <->
   exists c, In c cs /\ evaluate_condition_match c v2012 context = NoMatch) /\
  (evaluate_statement_conditions cs v2012 context = Match <->
   forall c, In c cs -> evaluate_condition_match c v2012 context = Match).
Proof.
  intros Hp. split; [|split; [apply statement_NoMatch|apply statement_Match]].
  assert (forall c, In c cs <-> In c cs') as Hin.
  { intros c. split; apply Permutation_in; [done|by symmetry]. }
  pose proof (statement_NoMatch v2012 context cs) as N1. pose proof (statement_NoMatch v2012 context cs') as N2.
  pose proof (statement_Match v2012 context cs) as M1. pose proof (statement_Match v2012 context cs') as M2.
  setoid_rewrite Hin in N1. setoid_rewrite Hin in M1. rewrite <- N2 in N1. rewrite <- M2 in M1.
  by destruct (evaluate_statement_conditions cs _ _), (evaluate_statement_conditions cs' _ _); naive_solver.
Qed.

(** ** Keys that cannot be resolved *)

(** [hidden] answers as [context] does, except that it may report a key as one it cannot
    resolve. *)
Record hides (hidden context : ConditionContext) : Prop := {
  hides_multi : forall k, is_multivalued_key hidden k = is_multivalued_key context k;
  hides_bare : forall k, bare_negated_matches_absent_multivalued_key hidden k =
    bare_negated_matches_absent_multivalued_key context k;
  hides_key : forall k, is_unresolvable k hidden = false ->
    resolve_key hidden k = resolve_key context k /\ is_unresolvable k context = false
}.

Lemma resolve_unresolvable name d context :
  is_unresolvable name context = true <-> resolve name d context = Err Unresolvable_key.
Proof.
  unfold is_unresolvable, resolve. destruct (resolve_key context name) as [vs|]; simpl.
  - split; [done|]. by destruct (is_multivalued_key context name).
  - destruct (is_unresolvable_key context name); [done|]. split; [done|].
    by destruct (is_multivalued_key context name), d.
Qed.

Section Hidden.
Context (hidden context : ConditionContext) (Hh : hides hidden context).

Lemma resolve_hides name d :
  is_unresolvable name hidden = false -> resolve name d hidden = resolve name d context.
Proof.
  intros Hn. destruct (hides_key _ _ Hh name Hn) as [E Hc]. unfold resolve, is_unresolvable in *.
  rewrite (hides_multi _ _ Hh), E in *. destruct (resolve_key context name); [done|]. simpl in *.
  by rewrite Hn, Hc.
Qed.

Lemma expand_loop_flagged t ps :
  expand_loop hidden t true ps = Err Unresolvable_key \/ expand_loop hidden t true ps = Err Absent.
Proof.
  revert t. induction ps as [|[s|raw [name d|c]] ps IH]; intros t; simpl; [auto|apply IH| |apply IH].
  destruct (resolve name d hidden) as [v|[]]; auto.
Qed.

Lemma expand_loop_absent t t' u u' ps :
  expand_loop hidden t u ps = Err Absent -> expand_loop context t' u' ps = Err Absent.
Proof.
  revert t t' u u'. induction ps as [|[s|raw [name d|c]] ps IH]; intros t t' u u'; simpl.
  - by destruct u.
  - apply IH.
  - destruct (is_unresolvable name hidden) eqn:E.
    + rewrite (proj1 (resolve_unresolvable name d hidden) E). intros H.
      destruct (resolve name d context) as [v|[]]; by eauto.
    + rewrite (resolve_hides name d E). destruct (resolve name d context) as [v|[]]; by eauto.
  - apply IH.
Qed.

Lemma expand_loop_hides t u ps :
  expand_loop hidden t u ps = Err Unresolvable_key \/ expand_loop hidden t u ps = expand_loop context t u ps.
Proof.
  revert t u. induction ps as [|[s|raw [name d|c]] ps IH]; intros t u; simpl; [auto|apply IH| |apply IH].
  destruct (is_unresolvable name hidden) eqn:E.
  - rewrite (proj1 (resolve_unresolvable name d hidden) E).
    destruct (expand_loop_flagged t ps) as [|Ha]; [by left|right]. rewrite Ha.
    pose proof (fun t' u' => expand_loop_absent t t' true u' ps Ha) as H. symmetry.
    destruct (resolve name d context) as [v|[]]; by eauto.
  - rewrite (resolve_hides name d E). destruct (resolve name d context) as [v|[]]; auto.
Qed.

Lemma expand_value_hides text tokens ps :
  Forall (fun p => match p with Ref _ (Key name _) => is_unresolvable name hidden = false | _ => True end) ps ->
  expand_value_loop hidden text tokens ps = expand_value_loop context text tokens ps.
Proof.
  intros H. revert text tokens. induction H as [|[s|raw [name d|c]] ps Hp H IH]; intros text tokens; simpl;
    [done|apply IH| |apply IH].
  rewrite (resolve_hides name d Hp). by destruct (resolve name d context).
Qed.

Lemma names_resolvable value :
  existsb (fun name => is_unresolvable name hidden) (variable_key_names value) = false ->
  Forall (fun p => match p with Ref _ (Key name _) => is_unresolvable name hidden = false | _ => True end)
    (parts value).
Proof.
  unfold variable_key_names. induction (parts value) as [|[s|raw [name d|c]] ps IH]; simpl; intros H;
    constructor; try done; try by apply IH.
  - by apply orb_false_iff in H as [H _].
  - by apply orb_false_iff in H as [_ H]; apply IH.
Qed.

Lemma expand_condition_value_hides value expand :
  (expand = true -> existsb (fun name => is_unresolvable name hidden) (variable_key_names value) = false) ->
  expand_condition_value value expand hidden = expand_condition_value value expand context.
Proof.
  intros H. unfold expand_condition_value. destruct expand; [|done]. simpl.
  destruct (has_variable value); [|done]. by apply expand_value_hides, names_resolvable, H.
Qed.

Lemma reads_hides c :
  reads_unresolvable_variable c hidden = false -> reads_unresolvable_variable c context = false.
Proof.
  unfold reads_unresolvable_variable. rewrite <- !not_true_iff_false, !existsb_exists.
  intros Hn (value & Hin & (name & Hname & Hu)%existsb_exists). apply Hn. exists value. split; [done|].
  apply existsb_exists. exists name. split; [done|].
  destruct (is_unresolvable name hidden) eqn:E; [done|]. destruct (hides_key _ _ Hh name E). congruence.
Qed.

(** A condition that is resolved with a key hidden is resolved the same way without. *)
Lemma condition_match_hides c v2012 :
  evaluate_condition_match c v2012 hidden = Unresolvable \/
  evaluate_condition_match c v2012 hidden = evaluate_condition_match c v2012 context.
Proof.
  unfold evaluate_condition_match.
  destruct (is_unresolvable (key c) hidden) eqn:Ek; [by left|].
  destruct (expands_variables (operator c) v2012 && reads_unresolvable_variable c hidden) eqn:Er; [by left|].
  right. destruct (hides_key _ _ Hh _ Ek) as [Ev Ec]. rewrite Ec.
  assert (expands_variables (operator c) v2012 && reads_unresolvable_variable c context = false) as ->.
  { apply andb_false_iff. apply andb_false_iff in Er as [->|Er]; [by left|right]. by apply reads_hides. }
  cbn [orb]. destruct (is_arn_operator _ && existsb _ _); [done|].
  assert (evaluate_condition_with c v2012 hidden = evaluate_condition_with c v2012 context) as ->; [|done].
  unfold evaluate_condition_with. rewrite Ev, (hides_multi _ _ Hh), (hides_bare _ _ Hh).
  assert (map (fun v => expand_condition_value v (expands_variables (operator c) v2012) hidden) (values c) =
          map (fun v => expand_condition_value v (expands_variables (operator c) v2012) context) (values c)) as ->;
    [|done].
  apply map_ext_in. intros v Hv. apply expand_condition_value_hides. intros He. rewrite He in Er. simpl in Er.
  apply not_true_iff_false. intros Hn. apply not_true_iff_false in Er. apply Er. apply existsb_exists. eauto.
Qed.

Lemma statement_conditions_hides cs v2012 :
  evaluate_statement_conditions cs v2012 hidden = Unresolvable \/
  evaluate_statement_conditions cs v2012 hidden = evaluate_statement_conditions cs v2012 context.
Proof.
  destruct (evaluate_statement_conditions cs v2012 hidden) eqn:E; [|right|by left]; [right|]; symmetry.
  - apply statement_Match. intros c Hc. pose proof (proj1 (statement_Match _ _ _) E c Hc) as Hm.
    destruct (condition_match_hides c v2012); congruence.
  - apply statement_NoMatch in E as (c & Hc & E). apply statement_NoMatch. exists c. split; [done|].
    destruct (condition_match_hides c v2012); congruence.
Qed.

Lemma pattern_hides pattern arn expand :
  resource_pattern_is_unresolvable pattern expand hidden = false ->
  resource_pattern_matches pattern arn expand hidden = resource_pattern_matches pattern arn expand context /\
  resource_pattern_is_unresolvable pattern expand context = false.
Proof.
  unfold resource_pattern_is_unresolvable, resource_pattern_matches, expand_tokens.
  destruct expand; [|done]. destruct (has_variable pattern); [|done]. simpl.
  destruct (expand_loop_hides [] false (parts pattern)) as [E|E]; rewrite E; [done|].
  by destruct (expand_loop context [] false (parts pattern)) as [|[]].
Qed.
End Hidden.
End Laws.

(** ** Witnesses *)

#[local] Instance no_dates : Rfc3339 := fun _ => None.

(** A request by [alice], who has no other key. *)
Definition alice_context : ConditionContext :=
  {| resolve_key := fun k => if String.eqb k "aws:username" then Some ["alice"] else None;
     is_multivalued_key := fun _ => false;
     is_unresolvable_key := fun _ => false;
     bare_negated_matches_absent_multivalued_key := fun _ => false |}.

Lemma negated_operator_opposite_witness :
  evaluate_condition_with
    {| operator := StringNotLike; key := "aws:username"; values := ["a*${aws:username}"; "bob"] |} true alice_context =
  negb (evaluate_condition_with
    {| operator := StringLike; key := "aws:username"; values := ["a*${aws:username}"; "bob"] |} true alice_context).
Proof.
  apply negated_operator_opposite.
  - constructor.
  - reflexivity.
  - simpl. discriminate.
Defined.

Definition alice_conditions : list Condition :=
  [{| operator := StringEquals; key := "aws:username"; values := ["alice"] |};
   {| operator := Null; key := "aws:SourceIp"; values := ["true"] |}].

Lemma statement_conditions_spec_witness :
  evaluate_statement_conditions alice_conditions true alice_context =
    evaluate_statement_conditions (rev alice_conditions) true alice_context /\
  (evaluate_statement_conditions alice_conditions true alice_context = NoMatch <->
   exists c, In c alice_conditions /\ evaluate_condition_match c true alice_context = NoMatch) /\
  (evaluate_statement_conditions alice_conditions true alice_context = Match <->
   forall c, In c alice_conditions -> evaluate_condition_match c true alice_context = Match).
Proof. apply statement_conditions_spec. apply Permutation_rev. Defined.
