(* ===== verification/PolicyParser.v ===== *)
(** * Reading policy documents

    The parser of a policy document, from its JSON value to the types of
    [PolicyVariables] ([crates/auth/src/policy/document.rs], [validate_version] of
    [variables.rs]), and the loading of a principal's documents
    ([crates/server/src/authz_cache.rs]).  [serde_json]'s text parser and printer are
    parameters. *)

From S2P Require Import Prelude StorageKey Wire KeyOrder Arn PolicyMatcher PolicyVariables PolicyCondition.

(** [serde_json::from_str], with the text of its error, and [to_string] of a value. *)
Class JsonText : Type := {
  json_from_str : string -> result string Value;
  json_to_string : Value -> string
}.

(** [PolicyParseError(String)]. *)
Notation parsed := (result string).

(** ** JSON values *)

(** [value[key]], which is null where there is none. *)
Definition json_index (value : Value) (key : string) : Value := default VNull (json_get value key).

Definition is_null (value : Value) : bool := match value with VNull => true | _ => false end.

Definition parse_string_or_array (value : Value) : parsed (list string) :=
  match value with
  | VString s => Ok [s]
  | VArray arr => collect_results (fun v => ok_or_else (as_str v) "expected string in array") arr
  | _ => Err "expected string or array"
  end.

(** ** Operators *)

Definition base_operators : list (string * ConditionOperator) :=
  [("StringEquals", StringEquals); ("StringNotEquals", StringNotEquals);
   ("StringEqualsIgnoreCase", StringEqualsIgnoreCase);
   ("StringNotEqualsIgnoreCase", StringNotEqualsIgnoreCase);
   ("StringLike", StringLike); ("StringNotLike", StringNotLike);
   ("NumericEquals", NumericEquals); ("NumericNotEquals", NumericNotEquals);
   ("NumericLessThan", NumericLessThan); ("NumericLessThanEquals", NumericLessThanEquals);
   ("NumericGreaterThan", NumericGreaterThan); ("NumericGreaterThanEquals", NumericGreaterThanEquals);
   ("DateEquals", DateEquals); ("DateNotEquals", DateNotEquals);
   ("DateLessThan", DateLessThan); ("DateLessThanEquals", DateLessThanEquals);
   ("DateGreaterThan", DateGreaterThan); ("DateGreaterThanEquals", DateGreaterThanEquals);
   ("Bool", Bool); ("Null", Null);
   ("ArnEquals", ArnEquals); ("ArnNotEquals", ArnNotEquals); ("ArnLike", ArnLike); ("ArnNotLike", ArnNotLike);
   ("IpAddress", IpAddress); ("NotIpAddress", NotIpAddress)].

Definition parse_base_operator (name : string) : parsed ConditionOperator :=
  match List.find (fun e => String.eqb name e.1) base_operators with
  | Some (_, op) => Ok op
  | None => Err ("unknown operator: " +:+ name)
  end.

Definition parse_operator (name : string) : parsed ConditionOperator :=
  let '(set_prefix, rest) :=
    match str_strip_prefix "ForAllValues:" name with
    | Some r => (Some ForAllValues, r)
    | None =>
        match str_strip_prefix "ForAnyValue:" name with
        | Some r => (Some ForAnyValue, r)
        | None => (None, name)
        end
    end in
  let '(base_name, has_if_exists) :=
    match strip_suffix "IfExists" rest with
    | Some b => (b, true)
    | None => (rest, false)
    end in
  let? base := parse_base_operator base_name in
  let with_if_exists := if has_if_exists then IfExists base else base in
  Ok match set_prefix with
     | Some set_operator => set_operator with_if_exists
     | None => with_if_exists
     end.

(** ** Conditions *)

Definition parse_keys (op : ConditionOperator) (keys : list (string * Value)) : parsed (list Condition) :=
  collect_results (fun kv =>
    let? values := parse_string_or_array kv.2 in
    Ok {| operator := op; key := kv.1; values := values |}) keys.

Definition parse_conditions (value : Value) : parsed (list Condition) :=
  match value with
  | VNull => Ok []
  | VObject obj =>
      let? groups := collect_results (fun entry =>
        let? op := parse_operator entry.1 in
        match entry.2 with
        | VObject keys => parse_keys op keys
        | _ => Err ("condition " +:+ entry.1 +:+ " must be an object")
        end) obj in
      Ok (concat groups)
  | _ => Err "Condition must be an object"
  end.

(** ** Statements *)

(** The two-way choice the three matchers make. *)
Definition parse_either {A : Type} (value : Value) (name not_name both : string) (neither : parsed A)
    (some some_not : Value -> parsed A) : parsed A :=
  match negb (is_null (json_index value name)), negb (is_null (json_index value not_name)) with
  | true, true => Err both
  | false, false => neither
  | true, false => some (json_index value name)
  | false, true => some_not (json_index value not_name)
  end.

Definition parse_action_match (value : Value) : parsed ActionMatch :=
  parse_either value "Action" "NotAction" "statement has both Action and NotAction"
    (Err "statement has neither Action nor NotAction")
    (fun v => let? l := parse_string_or_array v in Ok (Actions l))
    (fun v => let? l := parse_string_or_array v in Ok (NotActions l)).

Definition parse_resource_match (value : Value) : parsed ResourceMatch :=
  parse_either value "Resource" "NotResource" "statement has both Resource and NotResource"
    (Err "statement has neither Resource nor NotResource")
    (fun v => let? l := parse_string_or_array v in Ok (Resources l))
    (fun v => let? l := parse_string_or_array v in Ok (NotResources l)).

Definition parse_principal_value (value : Value) : parsed (list string) :=
  match value with
  | VString s => Ok [s]
  | VObject _ =>
      match json_get value "AWS" with
      | Some aws => parse_string_or_array aws
      | None => Err "Principal object must have AWS key"
      end
  | _ => Err "invalid Principal value"
  end.

Definition parse_principal_match (value : Value) : parsed (option PrincipalMatch) :=
  parse_either value "Principal" "NotPrincipal" "statement has both Principal and NotPrincipal"
    (Ok None)
    (fun v => let? l := parse_principal_value v in Ok (Some (Principals l)))
    (fun v => let? l := parse_principal_value v in Ok (Some (NotPrincipals l))).

Definition parse_effect (value : Value) : parsed Effect :=
  match as_str (json_index value "Effect") with
  | Some s =>
      if eq_ignore_ascii_case s "Allow" then Ok Allow_effect
      else if eq_ignore_ascii_case s "Deny" then Ok Deny_effect
      else Err ("invalid Effect: " +:+ s)
  | None => Err "missing Effect"
  end.

Definition parse_statement (value : Value) : parsed Statement :=
  let sid := as_str (json_index value "Sid") in
  let? effect := parse_effect value in
  let? action_match := parse_action_match value in
  let? resource_match := parse_resource_match value in
  let? conditions := parse_conditions (json_index value "Condition") in
  let? principal_match := parse_principal_match value in
  Ok {| sid := sid; effect := effect; action_match := action_match; resource_match := resource_match;
        conditions := conditions; principal_match := principal_match |}.

Definition parse_statements (value : Value) : parsed (list Statement) :=
  match value with
  | VArray arr => collect_results parse_statement arr
  | VObject _ => let? s := parse_statement value in Ok [s]
  | _ => Err "Statement must be an object or array"
  end.

(** ** The checks on a document *)

Definition is_ip_operator (op : ConditionOperator) : bool :=
  match base_operator op with IpAddress | NotIpAddress => true | _ => false end.

Definition validate_statement_cidrs (statements : list Statement) : parsed unit :=
  for_each (fun stmt =>
    for_each (fun cond =>
      if is_ip_operator (operator cond) then
        for_each (fun v =>
          if is_valid_cidr v then Ok tt
          else Err ("malformed CIDR in condition " +:+ key cond +:+ ": " +:+ v)) (values cond)
      else Ok tt) (conditions stmt)) statements.

Definition validate_statement_sids (statements : list Statement) : parsed unit :=
  for_each (fun stmt =>
    match sid stmt with
    | Some sid =>
        if str_all is_alnum sid then Ok tt
        else Err ("invalid Sid (must be ASCII letters and digits only): " +:+ sid)
    | None => Ok tt
    end) statements.

Section Document.
Context `{HJ : JsonText}.

Definition validate_version (json : string) : parsed unit :=
  let? raw := json_from_str json in
  match json_get raw "Version" with
  | None => Ok tt
  | Some other =>
      if bool_decide (as_str other = Some "2012-10-17" \/ as_str other = Some "2008-10-17") then Ok tt
      else Err ("invalid Version (must be the string 2012-10-17 or 2008-10-17): " +:+ json_to_string other)
  end.

Definition from_json_with_size_limit (json : string) (max_bytes : N) : parsed PolicyDocument :=
  if (max_bytes <? N.of_nat (String.length json))%N then
    Err ("policy document exceeds maximum size (" +:+ N_to_string max_bytes +:+ " bytes)")
  else
    let? raw := json_from_str json in
    let version := as_str (json_index raw "Version") in
    let? statements := parse_statements (json_index raw "Statement") in
    let? _ := validate_statement_cidrs statements in
    Ok {| version := version; statements := statements |}.

Definition from_json (json : string) : parsed PolicyDocument := from_json_with_size_limit json 6144.

Definition from_json_for_write (json : string) : parsed PolicyDocument :=
  let? doc := from_json json in
  let? _ := validate_version json in
  let? _ := validate_statement_sids (statements doc) in
  Ok doc.

(** ** Loading *)

(** [OpError::Internal] of the message. *)
Definition parse_document (s : string) : result string PolicyDocument :=
  map_err (fun e => "policy parse failed: policy parse error: " +:+ e) (from_json s).

Definition parse_documents (jsons : list string) : result string (list PolicyDocument) :=
  collect_results parse_document jsons.

Definition policy_list_if_nonempty (raw : list string) : result string (option (list PolicyDocument)) :=
  match raw with
  | [] => Ok None
  | _ => let? v := parse_documents raw in Ok (Some v)
  end.
End Document.

(** ** Operator names *)

Fixpoint operator_name (op : ConditionOperator) : string :=
  match op with
  | StringEquals => "StringEquals"
  | StringNotEquals => "StringNotEquals"
  | StringEqualsIgnoreCase => "StringEqualsIgnoreCase"
  | StringNotEqualsIgnoreCase => "StringNotEqualsIgnoreCase"
  | StringLike => "StringLike"
  | StringNotLike => "StringNotLike"
  | NumericEquals => "NumericEquals"
  | NumericNotEquals => "NumericNotEquals"
  | NumericLessThan => "NumericLessThan"
  | NumericLessThanEquals => "NumericLessThanEquals"
  | NumericGreaterThan => "NumericGreaterThan"
  | NumericGreaterThanEquals => "NumericGreaterThanEquals"
  | DateEquals => "DateEquals"
  | DateNotEquals => "DateNotEquals"
  | DateLessThan => "DateLessThan"
  | DateLessThanEquals => "DateLessThanEquals"
  | DateGreaterThan => "DateGreaterThan"
  | DateGreaterThanEquals => "DateGreaterThanEquals"
  | Bool => "Bool"
  | Null => "Null"
  | ArnEquals => "ArnEquals"
  | ArnNotEquals => "ArnNotEquals"
  | ArnLike => "ArnLike"
  | ArnNotLike => "ArnNotLike"
  | IpAddress => "IpAddress"
  | NotIpAddress => "NotIpAddress"
  | ForAllValues inner => "ForAllValues:" +:+ operator_name inner
  | ForAnyValue inner => "ForAnyValue:" +:+ operator_name inner
  | IfExists inner => operator_name inner +:+ "IfExists"
  end.

(** At most one [IfExists] around a base operator, and one set operator around that. *)
Definition is_base (op : ConditionOperator) : bool :=
  match op with ForAllValues _ | ForAnyValue _ | IfExists _ => false | _ => true end.

Definition is_single (op : ConditionOperator) : bool :=
  match op with IfExists inner => is_base inner | _ => is_base op end.

Definition well_nested (op : ConditionOperator) : bool :=
  match op with ForAllValues inner | ForAnyValue inner => is_single inner | _ => is_single op end.

Lemma base_single op : is_base op = true -> is_single op = true.
Proof. by destruct op. Qed.

Lemma single_well_nested op : is_single op = true -> well_nested op = true.
Proof. by destruct op. Qed.

Lemma parse_base_operator_Ok name op :
  parse_base_operator name = Ok op -> is_base op = true /\ name = operator_name op.
Proof.
  unfold parse_base_operator. destruct (List.find _ _) as [[n o]|] eqn:E; [|done]. intros [= <-].
  apply find_some in E as [Hin ->%String.eqb_eq]. simpl in Hin.
  repeat (destruct Hin as [[= <- <-]|Hin]; [done|]). done.
Qed.

(** The operator names are read exactly: a name is accepted as an operator when it
    is that operator's canonical spelling, one set prefix at most, then a base name,
    then one [IfExists] at most. *)
Theorem parse_operator_spec name op :
  parse_operator name = Ok op <-> well_nested op = true /\ name = operator_name op.
Proof.
  split.
  - unfold parse_operator. intros H.
    destruct (match str_strip_prefix "ForAllValues:" name with Some _ => _ | None => _ end) as [pre rest] eqn:Ep.
    destruct (match strip_suffix "IfExists" rest with Some _ => _ | None => _ end) as [base ex] eqn:Ex.
    destruct (parse_base_operator base) as [a|] eqn:E; [|done]. apply parse_base_operator_Ok in E as [Hb ->].
    assert (rest = if ex then operator_name a +:+ "IfExists" else operator_name a) as ->.
    { destruct (strip_suffix "IfExists" rest) eqn:Es; inversion Ex; subst; [|done].
      by apply strip_suffix_Some in Es. }
    destruct (str_strip_prefix "ForAllValues:" name) eqn:E1; [|destruct (str_strip_prefix "ForAnyValue:" name) eqn:E2];
      inversion Ep; subst; try apply str_strip_prefix_Some in E1; try apply str_strip_prefix_Some in E2; subst.
    all: destruct ex; inv_ok; simpl; (split; [|done]); eauto using base_single, single_well_nested.
  - intros [Hw ->]. destruct op as [| | | | | | | | | | | | | | | | | | | | | | | | | |op|op|op]; try done.
    all: destruct op as [| | | | | | | | | | | | | | | | | | | | | | | | | |op|op|op]; try done.
    all: by destruct op.
Qed.

(** ** Conditions *)

(** The texts a value gives: itself, or its elements. *)
Definition texts (value : Value) (l : list string) : Prop :=
  (exists s, value = VString s /\ l = [s]) \/ value = VArray (map VString l).

Lemma collect_as_str {E : Type} (e : E) arr l :
  collect_results (fun v => ok_or_else (as_str v) e) arr = Ok l <-> arr = map VString l.
Proof.
  split.
  - revert l. induction arr as [|x arr IH]; simpl; intros l H; [by inv_ok|].
    destruct x; try done. simpl in H. case_bind H. inv_ok. simpl. by rewrite <- (IH _ eq_refl).
  - intros ->. rewrite (collect_results_map _ _ id), map_id; [done|]. by apply List.Forall_forall.
Qed.

Lemma parse_string_or_array_Ok value l : parse_string_or_array value = Ok l <-> texts value l.
Proof.
  unfold texts. destruct value as [| | |s|arr|]; simpl; try naive_solver.
  rewrite collect_as_str. naive_solver.
Qed.

Lemma parse_keys_In op keys cs c :
  parse_keys op keys = Ok cs ->
  In c cs <-> operator c = op /\ exists vals, In (key c, vals) keys /\ texts vals (values c).
Proof.
  intros Hk. rewrite (collect_results_In _ _ _ _ Hk). split.
  - intros ([k vals] & Hin & Hc). simpl in Hc. case_bind Hc. inv_ok. simpl.
    apply parse_string_or_array_Ok in E. eauto.
  - intros (<- & vals & Hin & Ht). exists (key c, vals). split; [done|]. simpl.
    apply parse_string_or_array_Ok in Ht as ->. by destruct c.
Qed.

(** A condition block that is accepted loses and adds nothing: its conditions are
    exactly the entries under the canonical names of their operators, each with the
    texts written for its key. *)
Theorem parse_conditions_spec obj cs c :
  parse_conditions (VObject obj) = Ok cs ->
  In c cs <->
  well_nested (operator c) = true /\
  exists keys vals, In (operator_name (operator c), VObject keys) obj /\ In (key c, vals) keys /\
    texts vals (values c).
Proof.
  intros Hp. cbn [parse_conditions] in Hp.
  destruct (collect_results _ obj) as [groups|] eqn:Hg; [|done]. inv_ok. rewrite in_concat. split.
  - intros (g & Hin & Hc). apply (collect_results_In _ _ _ _ Hg) in Hin as ([name keys] & Hin & Hk).
    simpl in Hk. case_bind Hk. destruct keys as [| | | | |keys]; try done.
    apply parse_operator_spec in E as [? ->].
    apply (parse_keys_In _ _ _ _ Hk) in Hc as (<- & vals & ? & ?). eauto 6.
  - intros (Hw & keys & vals & Hin & Hk & Ht).
    destruct (collect_results_Ok _ _ _ _ Hg Hin) as (g & Hr & Hgs). exists g. split; [done|].
    simpl in Hr. rewrite (proj2 (parse_operator_spec _ (operator c)) (conj Hw eq_refl)) in Hr.
    apply (parse_keys_In _ _ _ _ Hr). eauto.
Qed.

(** ** Accepted documents *)

Lemma validate_cidrs_Ok sts :
  validate_statement_cidrs sts = Ok tt <->
  forall st c v, In st sts -> In c (conditions st) -> is_ip_operator (operator c) = true -> In v (values c) ->
    is_valid_cidr v = true.
Proof.
  unfold validate_statement_cidrs. rewrite for_each_Ok. split.
  - intros H st c v Hst Hc Ho Hv. apply H in Hst. rewrite for_each_Ok in Hst. apply Hst in Hc.
    rewrite Ho, for_each_Ok in Hc. apply Hc in Hv. by destruct (is_valid_cidr v).
  - intros H st Hst. apply for_each_Ok. intros c Hc. destruct (is_ip_operator _) eqn:Ho; [|done].
    apply for_each_Ok. intros v Hv. by rewrite (H st c v).
Qed.

Lemma validate_sids_Ok sts :
  validate_statement_sids sts = Ok tt <->
  forall st s, In st sts -> sid st = Some s -> str_all is_alnum s = true.
Proof.
  unfold validate_statement_sids. rewrite for_each_Ok. split.
  - intros H st s Hst Hs. apply H in Hst. rewrite Hs in Hst. by destruct (str_all _ _).
  - intros H st Hst. destruct (sid st) as [s|] eqn:E; [|done]. by rewrite (H st s).
Qed.

Section Accepted.
Context `{HJ : JsonText} `{HT : Rfc3339}.

Lemma from_json_Ok json d :
  from_json json = Ok d <->
  (N.of_nat (String.length json) <= 6144)%N /\
  exists raw, json_from_str json = Ok raw /\ version d = as_str (json_index raw "Version") /\
    parse_statements (json_index raw "Statement") = Ok (statements d) /\
    validate_statement_cidrs (statements d) = Ok tt.
Proof.
  unfold from_json, from_json_with_size_limit.
  destruct (N.ltb_spec 6144 (N.of_nat (String.length json))) as [|Hl]; [split; [done|lia]|].
  destruct (json_from_str json) as [raw|]; [|naive_solver].
  destruct (parse_statements _) as [sts|] eqn:Es.
  2:{ split; [done|]. intros (_ & raw' & [= <-] & _ & E & _). by rewrite E in Es. }
  destruct (validate_statement_cidrs sts) as [[]|] eqn:Ev; split.
  - intros [= <-]. simpl. eauto 8.
  - intros (_ & raw' & [= <-] & Hv & E & _). rewrite E in Es. inv_ok. f_equal. destruct d. simpl in *. congruence.
  - done.
  - intros (_ & raw' & [= <-] & Hv & E & ?). rewrite E in Es. inv_ok. congruence.
Qed.

Lemma validate_version_Ok json raw :
  json_from_str json = Ok raw ->
  validate_version json = Ok tt <->
  as_str (json_index raw "Version") = Some "2012-10-17" \/
  as_str (json_index raw "Version") = Some "2008-10-17" \/ json_get raw "Version" = None.
Proof.
  intros Er. unfold validate_version. rewrite Er. unfold json_index.
  destruct (json_get raw "Version") as [other|]; simpl; [|split; auto].
  case_bool_decide as Hb; split; [intros _; tauto|done|done|].
  intros [H|[H|[=]]]; exfalso; apply Hb; auto.
Qed.

(** A document accepted for writing is one the request path accepts as the same
    document, whose version is absent or one of the two of the grammar, and whose
    statement ids are letters and digits; and every such document is accepted. *)
Theorem written_document_spec json d :
  from_json_for_write json = Ok d <->
  from_json json = Ok d /\
  (version d = Some "2012-10-17" \/ version d = Some "2008-10-17" \/
   exists raw, json_from_str json = Ok raw /\ json_get raw "Version" = None) /\
  forall st s, In st (statements d) -> sid st = Some s -> str_all is_alnum s = true.
Proof.
  rewrite <- validate_sids_Ok. unfold from_json_for_write.
  destruct (from_json json) as [d'|] eqn:Ej; [|split; [done|by intros [? _]]].
  apply from_json_Ok in Ej as (_ & raw & Er & Ev & _). pose proof (validate_version_Ok _ _ Er) as Hver.
  rewrite <- Ev in Hver. split.
  - destruct (validate_version json) as [[]|]; [|done].
    destruct (validate_statement_sids (statements d')) as [[]|] eqn:Es; [|done]. intros [= <-].
    split; [done|]. split; [|done]. destruct (proj1 Hver eq_refl) as [?|[?|?]]; eauto.
  - intros ([= ->] & Hd & ->). rewrite (proj2 Hver); [done|].
    destruct Hd as [?|[?|(raw' & Hr & ?)]]; [auto..|]. rewrite Er in Hr. inv_ok. auto.
Qed.

(** The request address is in a network of the value, and outside it. *)
Definition inside (cidr addr : string) : Prop :=
  exists ip net prefix, parse_ip addr = Some ip /\ network_of cidr = Some (net, prefix) /\
    same_family ip net = true /\
    N.shiftr (address ip) (width_of net - prefix) = N.shiftr (address net) (width_of net - prefix).

Definition outside (cidr addr : string) : Prop :=
  exists ip net prefix, parse_ip addr = Some ip /\ network_of cidr = Some (net, prefix) /\
    same_family ip net = true /\
    N.shiftr (address ip) (width_of net - prefix) <> N.shiftr (address net) (width_of net - prefix).

Lemma ip_in_cidr_inside cidr addr : ip_in_cidr cidr addr = Some true <-> inside cidr addr.
Proof.
  rewrite (proj2 (ip_in_cidr_spec cidr addr)). unfold inside.
  destruct (parse_ip addr) as [ip|], (network_of cidr) as [[net prefix]|];
    try (split; [done|by intros (? & ? & ? & ? & ? & _)]).
  destruct (same_family ip net) eqn:Ef;
    [|split; [done|intros (? & ? & ? & [= <-] & [= <- <-] & ? & _); congruence]]. split.
  - intros [= E%N.eqb_eq]. eauto 8.
  - intros (? & ? & ? & [= <-] & [= <- <-] & _ & E). by rewrite E, N.eqb_refl.
Qed.

Lemma ip_in_cidr_outside cidr addr : ip_in_cidr cidr addr = Some false <-> outside cidr addr.
Proof.
  rewrite (proj2 (ip_in_cidr_spec cidr addr)). unfold outside.
  destruct (parse_ip addr) as [ip|], (network_of cidr) as [[net prefix]|];
    try (split; [done|by intros (? & ? & ? & ? & ? & _)]).
  destruct (same_family ip net) eqn:Ef;
    [|split; [done|intros (? & ? & ? & [= <-] & [= <- <-] & ? & _); congruence]]. split.
  - intros [= E%N.eqb_neq]. eauto 8.
  - intros (? & ? & ? & [= <-] & [= <- <-] & _ & E%N.eqb_neq). by rewrite E.
Qed.

Lemma holds_for_literal op cv vals :
  holds_for op (map Literal vals) cv =
  if is_negative_operator op then forallb (fun v => compare_single op cv (Literal v)) vals
  else existsb (fun v => compare_single op cv (Literal v)) vals.
Proof.
  unfold holds_for. destruct (is_negative_operator op); induction vals as [|v vals IH]; simpl; congruence.
Qed.

Lemma accepted_networks json d st c v :
  from_json json = Ok d -> In st (statements d) -> In c (conditions st) ->
  is_ip_operator (operator c) = true -> In v (values c) -> exists network, network_of v = Some network.
Proof.
  intros (_ & raw & _ & _ & _ & Hc)%from_json_Ok Hst Hin Ho Hv.
  pose proof (proj1 (validate_cidrs_Ok _) Hc _ _ _ Hst Hin Ho Hv) as Hval.
  rewrite (proj1 (ip_in_cidr_spec v "")) in Hval. destruct (network_of v); [eauto|done].
Qed.

(** C30. In a document that is accepted, every value of an address condition names a
    network.  On a request with one address the positive condition holds exactly when
    some network contains the address, and the negated one exactly when the address is
    of the family of every network and outside it. *)
Theorem address_conditions json d st c context addr :
  from_json json = Ok d -> In st (statements d) -> In c (conditions st) ->
  is_multivalued_key context (key c) = false -> resolve_key context (key c) = Some [addr] ->
  is_ip_operator (operator c) = true ->
  (forall v, In v (values c) -> exists network, network_of v = Some network) /\
  (operator c = IpAddress ->
     evaluate_condition_with c true context = true <-> exists v, In v (values c) /\ inside v addr) /\
  (operator c = NotIpAddress ->
     evaluate_condition_with c true context = true <-> forall v, In v (values c) -> outside v addr).
Proof.
  intros Hd Hst Hc Hm Hk Hip. split; [by eauto using accepted_networks|].
  unfold evaluate_condition_with. rewrite Hm, Hk. split; intros Ho; rewrite Ho.
  all: change (map _ (values c)) with (map Literal (values c)).
  all: unfold evaluate_single_value_condition; cbn [forallb]; rewrite andb_true_r, holds_for_literal; simpl.
  - rewrite existsb_exists. setoid_rewrite bool_decide_eq_true. by setoid_rewrite ip_in_cidr_inside.
  - rewrite forallb_forall. setoid_rewrite bool_decide_eq_true. by setoid_rewrite ip_in_cidr_outside.
Qed.
End Accepted.

(** ** Witnesses *)

(** A parser that knows one document: allow reads from one network. *)
Definition example_statement : Value :=
  VObject [("Action", VString "dynamodb:GetItem");
           ("Condition", VObject [("IpAddress", VObject [("aws:SourceIp", VArray [VString "10.0.0.0/8"])])]);
           ("Effect", VString "allow"); ("Resource", VString "*"); ("Sid", VString "Office1")].

Definition example_document : Value :=
  VObject [("Statement", example_statement); ("Version", VString "2012-10-17")].

#[local] Instance example_json : JsonText := {|
  json_from_str := fun s => if String.eqb s "{...}" then Ok example_document else Err "EOF";
  json_to_string := fun _ => ""
|}.
#[local] Instance example_dates : Rfc3339 := fun _ => None.

Definition example_condition : Condition :=
  {| operator := IpAddress; key := "aws:SourceIp"; values := ["10.0.0.0/8"] |}.

Definition example_policy : PolicyDocument :=
  {| version := Some "2012-10-17";
     statements :=
       [{| sid := Some "Office1"; effect := Allow_effect; action_match := Actions ["dynamodb:GetItem"];
           resource_match := Resources ["*"]; conditions := [example_condition]; principal_match := None |}] |}.

Definition office_context : ConditionContext :=
  {| resolve_key := fun k => if String.eqb k "aws:SourceIp" then Some ["10.1.2.3"] else None;
     is_multivalued_key := fun _ => false;
     is_unresolvable_key := fun _ => false;
     bare_negated_matches_absent_multivalued_key := fun _ => false |}.

Lemma parse_conditions_spec_witness :
  In example_condition [example_condition] <->
  well_nested IpAddress = true /\
  exists keys vals,
    In ("IpAddress", VObject keys)
       [("IpAddress", VObject [("aws:SourceIp", VArray [VString "10.0.0.0/8"])])] /\
    In ("aws:SourceIp", vals) keys /\ texts vals ["10.0.0.0/8"].
Proof.
  apply (parse_conditions_spec
    [("IpAddress", VObject [("aws:SourceIp", VArray [VString "10.0.0.0/8"])])] [example_condition] example_condition).
  vm_compute. reflexivity.
Defined.

Lemma address_conditions_witness :
  from_json "{...}" = Ok example_policy /\
  (evaluate_condition_with example_condition true office_context = true <->
   exists v, In v ["10.0.0.0/8"] /\ inside v "10.1.2.3").
Proof.
  assert (from_json "{...}" = Ok example_policy) as Hd by (vm_compute; reflexivity).
  split; [exact Hd|].
  apply (address_conditions "{...}" example_policy (hd {| sid := None; effect := Deny_effect;
    action_match := Actions []; resource_match := Resources []; conditions := []; principal_match := None |}
    (statements example_policy)) example_condition office_context "10.1.2.3");
    [exact Hd|left; reflexivity|left; reflexivity|reflexivity..].
Defined.
