(* ===== verification/PolicyEvaluator.v ===== *)
(** * The authorization decision

    [crates/auth/src/policy/evaluator.rs]: which statements of a policy apply to a
    request, and the decision over identity policies, a permissions boundary and a
    session policy. *)

From S2P Require Import Prelude Arn PolicyMatcher PolicyVariables PolicyCondition.

Inductive AuthzDecision : Type := Allow | Deny.

#[export] Instance AuthzDecision_eq_dec : EqDecision AuthzDecision.
Proof. solve_decision. Defined.

Section Evaluator.
Context `{HT : Rfc3339}.

Definition action_matches (statement : Statement) (request_action : string) : bool :=
  match action_match statement with
  | Actions patterns => existsb (fun p => wildcard_match_ignore_case p request_action) patterns
  | NotActions patterns => negb (existsb (fun p => wildcard_match_ignore_case p request_action) patterns)
  end.

Definition resource_matches (policy : PolicyDocument) (statement : Statement) (request_resource : string)
    (context : ConditionContext) : bool :=
  let expand := expands_policy_variables policy in
  let any_match patterns :=
    existsb (fun p => resource_pattern_matches p request_resource expand context) patterns in
  let unresolvable patterns :=
    existsb (fun p => resource_pattern_is_unresolvable p expand context) patterns in
  let deny := bool_decide (effect statement = Deny_effect) in
  match resource_match statement with
  | Resources patterns => any_match patterns || (deny && unresolvable patterns)
  | NotResources patterns => negb (any_match patterns) && (deny || negb (unresolvable patterns))
  end.

Definition statement_conditions (policy : PolicyDocument) (statement : Statement)
    (context : ConditionContext) : ConditionMatch :=
  evaluate_statement_conditions (conditions statement) (expands_policy_variables policy) context.

Definition deny_conditions_apply (policy : PolicyDocument) (statement : Statement)
    (context : ConditionContext) : bool :=
  match statement_conditions policy statement context with
  | Match | Unresolvable => true
  | NoMatch => false
  end.

Definition allow_conditions_grant (policy : PolicyDocument) (statement : Statement)
    (context : ConditionContext) : bool :=
  match statement_conditions policy statement context with
  | Match => true
  | NoMatch | Unresolvable => false
  end.

(** One statement of the deny scan, and one of the searches for an allow. *)
Definition denies (policy : PolicyDocument) (action resource_arn : string) (context : ConditionContext)
    (stmt : Statement) : bool :=
  bool_decide (effect stmt = Deny_effect) && action_matches stmt action &&
  resource_matches policy stmt resource_arn context && deny_conditions_apply policy stmt context.

Definition allows (policy : PolicyDocument) (action resource_arn : string) (context : ConditionContext)
    (stmt : Statement) : bool :=
  bool_decide (effect stmt = Allow_effect) && action_matches stmt action &&
  resource_matches policy stmt resource_arn context && allow_conditions_grant policy stmt context.

Definition policy_denies (action resource_arn : string) (context : ConditionContext)
    (policy : PolicyDocument) : bool :=
  existsb (denies policy action resource_arn context) (statements policy).

Definition policy_allows (action resource_arn : string) (context : ConditionContext)
    (policy : PolicyDocument) : bool :=
  existsb (allows policy action resource_arn context) (statements policy).

Definition of_option {A : Type} (o : option A) : list A :=
  match o with Some a => [a] | None => [] end.

Definition evaluate_with (identity_policies : list PolicyDocument)
    (permissions_boundary session_policy : option PolicyDocument)
    (action resource_arn : string) (context : ConditionContext) : AuthzDecision :=
  let all_policies := identity_policies ++ of_option permissions_boundary ++ of_option session_policy in
  if existsb (policy_denies action resource_arn context) all_policies then Deny
  else if match permissions_boundary with
          | Some boundary => negb (policy_allows action resource_arn context boundary)
          | None => false
          end then Deny
  else if match session_policy with
          | Some session => negb (policy_allows action resource_arn context session)
          | None => false
          end then Deny
  else if existsb (policy_allows action resource_arn context) identity_policies then Allow
  else Deny.

Definition evaluate_policies := evaluate_with.

Definition explicit_deny_matches_arc (identity_policies : list PolicyDocument)
    (permissions_boundary session_policy : option PolicyDocument)
    (action resource_arn : string) (context : ConditionContext) : bool :=
  existsb (policy_denies action resource_arn context)
    (identity_policies ++ of_option permissions_boundary ++ of_option session_policy).
End Evaluator.

Section Decision.
Context `{HT : Rfc3339}.

Lemma fails_optional (f : PolicyDocument -> bool) o :
  match o with Some p => negb (f p) | None => false end = false <-> forall p, o = Some p -> f p = true.
Proof.
  destruct o as [p|]; [|naive_solver]. rewrite negb_false_iff. split; [by intros H q [= <-]|naive_solver].
Qed.

Lemma existsb_false {A : Type} (f : A -> bool) l : existsb f l = false <-> forall x, In x l -> f x = false.
Proof.
  induction l as [|x l IH]; simpl; [naive_solver|]. rewrite orb_false_iff, IH. naive_solver.
Qed.

Lemma in_policies (ids : list PolicyDocument) boundary session p :
  In p (ids ++ of_option boundary ++ of_option session) <-> In p ids \/ boundary = Some p \/ session = Some p.
Proof. rewrite !in_app_iff. destruct boundary, session; simpl; naive_solver. Qed.

Lemma decision_allow ids boundary session action arn context :
  evaluate_with ids boundary session action arn context = Allow <->
  (forall p, In p ids \/ boundary = Some p \/ session = Some p -> policy_denies action arn context p = false) /\
  (exists p, In p ids /\ policy_allows action arn context p = true) /\
  (forall p, boundary = Some p \/ session = Some p -> policy_allows action arn context p = true).
Proof.
  unfold evaluate_with.
  transitivity (existsb (policy_denies action arn context) (ids ++ of_option boundary ++ of_option session) = false /\
    existsb (policy_allows action arn context) ids = true /\
    match boundary with Some p => negb (policy_allows action arn context p) | None => false end = false /\
    match session with Some p => negb (policy_allows action arn context p) | None => false end = false).
  - destruct (existsb (policy_denies _ _ _) _); [naive_solver|].
    destruct (match boundary with Some _ => _ | None => _ end); [naive_solver|].
    destruct (match session with Some _ => _ | None => _ end); [naive_solver|].
    destruct (existsb _ ids); naive_solver.
  - rewrite existsb_false, existsb_exists, !fails_optional.
    split; intros (Hd & Ha & Hr); (split; [intros p Hp; apply Hd; by apply in_policies|]); (split; [done|]).
    + destruct Hr as [Hb Hs]. intros p [Hp|Hp]; auto.
    + split; intros p Hp; apply Hr; auto.
Qed.


(** ** Failing closed *)

Section FailClosed.
Context (hidden context : ConditionContext) (Hh : hides hidden context).

Lemma any_pattern_hides patterns arn expand :
  existsb (fun p => resource_pattern_matches p arn expand hidden) patterns = true ->
  existsb (fun p => resource_pattern_matches p arn expand context) patterns = true.
Proof.
  rewrite !existsb_exists. intros (p & Hp & Hm). exists p. split; [done|].
  destruct (resource_pattern_is_unresolvable p expand hidden) eqn:E.
  - unfold resource_pattern_is_unresolvable, resource_pattern_matches in *.
    destruct expand; [|done]. simpl in *. destruct (has_variable p); [|done]. simpl in *.
    by destruct (expand_tokens p hidden).
  - by rewrite <- (proj1 (pattern_hides _ _ Hh p arn expand E)).
Qed.

Lemma patterns_resolved patterns arn expand :
  existsb (fun p => resource_pattern_is_unresolvable p expand hidden) patterns = false ->
  existsb (fun p => resource_pattern_matches p arn expand hidden) patterns =
    existsb (fun p => resource_pattern_matches p arn expand context) patterns /\
  existsb (fun p => resource_pattern_is_unresolvable p expand context) patterns = false.
Proof.
  induction patterns as [|p ps IH]; [done|]. simpl. intros [Hp Hps]%orb_false_iff.
  destruct (pattern_hides _ _ Hh p arn expand Hp) as [-> ->], (IH Hps) as [-> ->]. done.
Qed.

Lemma resource_hides_deny policy stmt arn :
  effect stmt = Deny_effect ->
  resource_matches policy stmt arn context = true -> resource_matches policy stmt arn hidden = true.
Proof.
  intros He. unfold resource_matches. rewrite He, bool_decide_eq_true_2 by done. simpl.
  set (x := expands_policy_variables policy). destruct (resource_match stmt) as [ps|ps].
  - intros H. destruct (existsb (fun p => resource_pattern_is_unresolvable p x hidden) ps) eqn:E.
    + by rewrite orb_true_r.
    + destruct (patterns_resolved ps arn x E) as [-> Hc]. by rewrite Hc in H.
  - rewrite !andb_true_r, !negb_true_iff, <- !not_true_iff_false. intros H Hm. by apply H, any_pattern_hides.
Qed.

Lemma resource_hides_allow policy stmt arn :
  effect stmt = Allow_effect ->
  resource_matches policy stmt arn hidden = true -> resource_matches policy stmt arn context = true.
Proof.
  intros He. unfold resource_matches. rewrite He, bool_decide_eq_false_2 by done. simpl.
  set (x := expands_policy_variables policy). destruct (resource_match stmt) as [ps|ps].
  - rewrite !orb_false_r. apply any_pattern_hides.
  - rewrite !andb_true_iff, !negb_true_iff. intros [Hm Hu].
    destruct (patterns_resolved ps arn x Hu) as [Hp Hc]. by rewrite <- Hp.
Qed.

Lemma denies_hides policy action arn stmt :
  denies policy action arn context stmt = true -> denies policy action arn hidden stmt = true.
Proof.
  unfold denies, deny_conditions_apply, statement_conditions. rewrite !andb_true_iff.
  intros (((He & Ha) & Hr) & Hc). apply bool_decide_eq_true in He as He'.
  split; [split; [done|by apply resource_hides_deny]|].
  destruct (statement_conditions_hides _ _ Hh (conditions stmt) (expands_policy_variables policy)) as [->| ->];
    done.
Qed.

Lemma allows_hides policy action arn stmt :
  allows policy action arn hidden stmt = true -> allows policy action arn context stmt = true.
Proof.
  unfold allows, allow_conditions_grant, statement_conditions. rewrite !andb_true_iff.
  intros (((He & Ha) & Hr) & Hc). apply bool_decide_eq_true in He as He'.
  split; [split; [done|by apply resource_hides_allow]|].
  destruct (statement_conditions_hides _ _ Hh (conditions stmt) (expands_policy_variables policy)) as [E|E];
    rewrite E in Hc; done.
Qed.

Lemma existsb_impl {A : Type} (f g : A -> bool) l :
  (forall x, f x = true -> g x = true) -> existsb f l = true -> existsb g l = true.
Proof. rewrite !existsb_exists. naive_solver. Qed.
End FailClosed.

Lemma decision_hides hidden context ids boundary session action arn :
  hides hidden context ->
  evaluate_policies ids boundary session action arn hidden = Allow ->
  evaluate_policies ids boundary session action arn context = Allow.
Proof.
  intros Hh. unfold evaluate_policies. rewrite !decision_allow. intros (Hd & (p & Hp & Ha) & Hr). split.
  - intros q Hq. apply not_true_iff_false. intros E. specialize (Hd q Hq).
    apply (existsb_impl _ (denies q action arn hidden)) in E; [|apply (denies_hides hidden context Hh)].
    unfold policy_denies in Hd. congruence.
  - split.
    + exists p. split; [done|]. revert Ha. apply existsb_impl, (allows_hides hidden context Hh).
    + intros q Hq. generalize (Hr q Hq). apply existsb_impl, (allows_hides hidden context Hh).
Qed.

(** C4. The decision fails closed.  Take a request and a context that answers as its
    true context does, except that it reports some keys as ones it cannot resolve:
    if the request is allowed under that context, it is allowed under the true one. *)
Theorem decision_fails_closed hidden context ids boundary session action arn :
  hides hidden context ->
  evaluate_policies ids boundary session action arn hidden = Allow ->
  evaluate_policies ids boundary session action arn context = Allow.
Proof. apply decision_hides. Qed.

(** Deny wins: adding policies with denying statements only, to the identity
    policies, never turns a denied request into an allowed one. *)
Theorem deny_monotone ids extra boundary session action arn context :
  Forall (fun p => Forall (fun s => effect s = Deny_effect) (statements p)) extra ->
  evaluate_policies (ids ++ extra) boundary session action arn context = Allow ->
  evaluate_policies ids boundary session action arn context = Allow.
Proof.
  intros Hx. unfold evaluate_policies. rewrite !decision_allow. intros (Hd & (p & Hp & Ha) & Hr).
  split; [intros q [Hq|Hq]; apply Hd; [left; apply in_app_iff; auto|auto]|]. split; [|done].
  apply in_app_iff in Hp as [Hp|Hp]; [by exists p|]. exfalso.
  rewrite Forall_forall in Hx. specialize (Hx p Hp). rewrite Forall_forall in Hx.
  apply existsb_exists in Ha as (s & Hs & Ha). unfold allows in Ha. rewrite (Hx s Hs) in Ha. done.
Qed.
End Decision.

(** ** Witnesses *)

#[local] Instance no_rfc3339 : Rfc3339 := fun _ => None.

(** A request tag the service knows, and a context that cannot tell it. *)
Definition tag_key : string := "aws:RequestTag/env".

Definition true_context : ConditionContext :=
  {| resolve_key := fun k =>
       if String.eqb k tag_key then Some ["prod"] else if String.eqb k "aws:username" then Some ["alice"] else None;
     is_multivalued_key := fun _ => false;
     is_unresolvable_key := fun _ => false;
     bare_negated_matches_absent_multivalued_key := fun _ => false |}.

Definition blind_context : ConditionContext :=
  {| resolve_key := fun k => if String.eqb k "aws:username" then Some ["alice"] else None;
     is_multivalued_key := fun _ => false;
     is_unresolvable_key := String.eqb tag_key;
     bare_negated_matches_absent_multivalued_key := fun _ => false |}.

Lemma blind_hides : hides blind_context true_context.
Proof.
  split; [done|done|]. intros k. unfold is_unresolvable.
  cbn [resolve_key is_unresolvable_key blind_context true_context].
  destruct (String.eqb_spec k tag_key) as [->|Hne]; [done|].
  rewrite (proj2 (String.eqb_neq tag_key k)) by done. destruct (String.eqb k "aws:username"); done.
Qed.

Definition table_policy : PolicyDocument :=
  {| version := Some "2012-10-17";
     statements :=
       [{| sid := None; effect := Allow_effect; action_match := Actions ["dynamodb:Get*"];
           resource_match := Resources ["arn:aws:dynamodb:*:*:table/${aws:username}-*"];
           conditions := []; principal_match := None |};
        {| sid := None; effect := Deny_effect; action_match := Actions ["dynamodb:Put*"];
           resource_match := Resources ["*"];
           conditions := [{| operator := StringEquals; key := tag_key; values := ["prod"] |}];
           principal_match := None |}] |}.

Lemma decision_fails_closed_witness :
  evaluate_policies [table_policy] None None "dynamodb:GetItem"
    "arn:aws:dynamodb:us-east-1:123456789012:table/alice-orders" true_context = Allow.
Proof.
  apply (decision_fails_closed blind_context).
  - exact blind_hides.
  - vm_compute. reflexivity.
Defined.

Definition deny_policy : PolicyDocument :=
  {| version := None;
     statements := [{| sid := None; effect := Deny_effect; action_match := Actions ["dynamodb:Delete*"];
       resource_match := Resources ["*"]; conditions := []; principal_match := None |}] |}.

Lemma deny_monotone_witness :
  evaluate_policies [table_policy] None None "dynamodb:GetItem"
    "arn:aws:dynamodb:us-east-1:123456789012:table/alice-orders" true_context = Allow.
Proof.
  apply (deny_monotone [table_policy] [deny_policy]).
  - repeat constructor.
  - vm_compute. reflexivity.
Defined.
