(* ===== verification/PolicyContext.v ===== *)
(** * Request contexts of policies

    [crates/auth/src/policy/context.rs] and [context/request_tags.rs]: how a request,
    and a call of [AssumeRole], answer for their condition keys.  The clock and the
    formatting of its time are fields of the context. *)

From S2P Require Import Prelude Arn PolicyMatcher PolicyVariables PolicyCondition PolicyEvaluator CaseFold.

(** A [HashMap<String, String>] of tags. *)
Notation tag_map := (gmap string string).

(** ** Tags *)

(** The entry with the least name ([min_by] on the names). *)
Fixpoint min_entry (l : list (string * string)) : option (string * string) :=
  match l with
  | [] => None
  | e :: l' =>
      match min_entry l' with
      | None => Some e
      | Some m => if bool_decide (cmp m.1 e.1 = Lt) then Some m else Some e
      end
  end.

Definition tag_lookup (map : tag_map) (sub_key : string) (norm : string -> string) : option (list string) :=
  match map !! sub_key with
  | Some v => Some [v]
  | None =>
      let want := norm sub_key in
      (fun e => [e.2]) <$> min_entry (List.filter (fun e => String.eqb (norm e.1) want) (map_to_list map))
  end.

(** The prefix is ASCII, so a head that equals it ends at a character boundary. *)
Definition strip_prefix_ci (key prefix : string) : option string :=
  let n := String.length prefix in
  if (n <=? String.length key) && eq_ignore_ascii_case (substring 0 n key) prefix
  then Some (substring n (String.length key - n) key) else None.

Definition FAIL_CLOSED_GLOBAL_KEYS : list string := [].

Definition aws_key_is_unresolvable (key : string) : bool :=
  let folded := case_fold key in
  existsb (fun k => String.eqb (case_fold k) folded) FAIL_CLOSED_GLOBAL_KEYS.

(** ** The tags of a request *)

Inductive FoldedTag : Type := FT_Value (v : string) | FT_Ambiguous.

Notation RequestTagIndex := (gmap string FoldedTag).

(** The loop of [RequestTagIndex::new], over the tags in any order. *)
Fixpoint index_loop (by_folded_name : RequestTagIndex) (tags : list (string * string)) : RequestTagIndex :=
  match tags with
  | [] => by_folded_name
  | (name, value) :: tags =>
      let slot := case_fold name in
      index_loop
        match by_folded_name !! slot with
        | None => <[slot := FT_Value value]> by_folded_name
        | Some (FT_Value seen) =>
            if String.eqb seen value then by_folded_name else <[slot := FT_Ambiguous]> by_folded_name
        | Some FT_Ambiguous => by_folded_name
        end tags
  end.

Definition index_new (tags : tag_map) : RequestTagIndex := index_loop ∅ (map_to_list tags).

Definition from_tags (tags : option tag_map) : option RequestTagIndex :=
  match tags with
  | Some t => if bool_decide (t = ∅) then None else Some (index_new t)
  | None => None
  end.

Inductive RequestTagLookup : Type := Tag_Absent | Tag_Value (v : string) | Tag_Ambiguous.

#[export] Instance RequestTagLookup_eq_dec : EqDecision RequestTagLookup.
Proof. solve_decision. Defined.

Definition index_lookup (self : RequestTagIndex) (sub_key : string) : RequestTagLookup :=
  match self !! case_fold sub_key with
  | None => Tag_Absent
  | Some (FT_Value value) => Tag_Value value
  | Some FT_Ambiguous => Tag_Ambiguous
  end.

(** ** A request *)

Record RequestContext : Type := {
  principal_tags : tag_map;
  resource_tags : tag_map;
  leading_keys : option (list string);
  attributes : option (list string);
  select : option string;
  return_values : option string;
  return_consumed_capacity : option string;
  full_table_scan : option bool;
  enclosing_operation : option string;
  principal_arn : option string;
  principal_account : option string;
  region : option string;
  secure_transport : bool;
  principal_type : option string;
  username : option string;
  source_ip : option string;
  user_agent : option string;
  userid : option string;
  resource_account : option string;
  token_issue_time : option string;
  multi_factor_auth_present : option bool;
  current_time : string;
  epoch_time : string;
  request_tags : option RequestTagIndex;
  request_tag_keys : option (list string)
}.

Record RequestParams : Type := {
  rp_leading_keys : option (list string);
  rp_attributes : option (list string);
  rp_select : option string;
  rp_return_values : option string;
  rp_return_consumed_capacity : option string;
  rp_enclosing_operation : option string;
  rp_principal_arn : option string;
  rp_principal_account : option string;
  rp_region : option string;
  rp_secure_transport : bool;
  rp_principal_type : option string;
  rp_username : option string;
  rp_source_ip : option string;
  rp_user_agent : option string;
  rp_userid : option string;
  rp_resource_account : option string;
  rp_token_issue_time : option string;
  rp_multi_factor_auth_present : option bool;
  rp_request_tags : option tag_map;
  rp_request_tag_keys : option (list string)
}.

(** [RequestContext::build]; [now] is the pair of [request_time_strings]. *)
Definition build (principal_tags resource_tags : tag_map) (is_scan : bool) (params : RequestParams)
    (now : string * string) : RequestContext :=
  {| principal_tags := principal_tags; resource_tags := resource_tags;
     leading_keys := rp_leading_keys params; attributes := rp_attributes params;
     select := rp_select params; return_values := rp_return_values params;
     return_consumed_capacity := rp_return_consumed_capacity params;
     full_table_scan := if is_scan then Some true else None;
     enclosing_operation := rp_enclosing_operation params;
     principal_arn := rp_principal_arn params; principal_account := rp_principal_account params;
     region := rp_region params; secure_transport := rp_secure_transport params;
     principal_type := rp_principal_type params; username := rp_username params;
     source_ip := rp_source_ip params; user_agent := rp_user_agent params; userid := rp_userid params;
     resource_account := rp_resource_account params; token_issue_time := rp_token_issue_time params;
     multi_factor_auth_present := rp_multi_factor_auth_present params;
     current_time := now.1; epoch_time := now.2;
     request_tags := from_tags (rp_request_tags params);
     request_tag_keys :=
       match rp_request_tag_keys params with
       | Some [] => None
       | keys => keys
       end |}.

Definition request_tag_values (self : RequestContext) (sub_key : string) : RequestTagLookup :=
  match request_tags self with
  | None => Tag_Absent
  | Some index => index_lookup index sub_key
  end.

Definition single (o : option string) : option (list string) := (fun v => [v]) <$> o.
Definition bool_text (b : bool) : string := if b then "true" else "false".

(** The first key of a [match] on a name that is the name. *)
Fixpoint match_key {A : Type} (name : string) (arms : list (string * option A)) : option A :=
  match arms with
  | [] => None
  | (k, v) :: arms => if String.eqb name k then v else match_key name arms
  end.

Definition request_keys (self : RequestContext) : list (string * option (list string)) :=
  [("dynamodb:leadingkeys", leading_keys self);
   ("dynamodb:attributes", attributes self);
   ("dynamodb:select", single (select self));
   ("dynamodb:returnvalues", single (return_values self));
   ("dynamodb:returnconsumedcapacity", single (return_consumed_capacity self));
   ("dynamodb:fulltablescan", single (bool_text <$> full_table_scan self));
   ("dynamodb:enclosingoperation", single (enclosing_operation self));
   ("aws:principalarn", single (principal_arn self));
   ("aws:principalaccount", single (principal_account self));
   ("aws:requestedregion", single (region self));
   ("aws:securetransport", single (Some (bool_text (secure_transport self))));
   ("aws:currenttime", single (Some (current_time self)));
   ("aws:epochtime", single (Some (epoch_time self)));
   ("aws:principaltype", single (principal_type self));
   ("aws:username", single (username self));
   ("aws:sourceip", single (source_ip self));
   ("aws:useragent", single (user_agent self));
   ("aws:userid", single (userid self));
   ("aws:resourceaccount", single (resource_account self));
   ("aws:tokenissuetime", single (token_issue_time self));
   ("aws:tagkeys", request_tag_keys self);
   ("aws:multifactorauthpresent", single (bool_text <$> multi_factor_auth_present self));
   ("aws:viaawsservice", Some ["false"]);
   ("aws:principalisawsservice", Some ["false"])].

Definition request_resolve_key (self : RequestContext) (key : string) : option (list string) :=
  match strip_prefix_ci key "aws:PrincipalTag/" with
  | Some sub => tag_lookup (principal_tags self) sub case_fold
  | None =>
      match strip_prefix_ci key "aws:RequestTag/" with
      | Some sub =>
          match request_tag_values self sub with
          | Tag_Value v => Some [v]
          | Tag_Absent | Tag_Ambiguous => None
          end
      | None =>
          match strip_prefix_ci key "aws:ResourceTag/" with
          | Some sub => tag_lookup (resource_tags self) sub case_fold
          | None => match_key (case_fold key) (request_keys self)
          end
      end
  end.

Definition multivalued_names : list string :=
  ["dynamodb:leadingkeys"; "dynamodb:attributes"; "aws:tagkeys"].

Definition request_is_multivalued_key (key : string) : bool :=
  existsb (String.eqb (case_fold key)) multivalued_names.

Definition request_is_unresolvable_key (self : RequestContext) (key : string) : bool :=
  match strip_prefix_ci key "aws:RequestTag/" with
  | Some sub => bool_decide (request_tag_values self sub = Tag_Ambiguous)
  | None => aws_key_is_unresolvable key
  end.

(** [impl ConditionContext for RequestContext]. *)
Definition request_context (self : RequestContext) : ConditionContext :=
  {| resolve_key := request_resolve_key self;
     is_multivalued_key := request_is_multivalued_key;
     is_unresolvable_key := request_is_unresolvable_key self;
     bare_negated_matches_absent_multivalued_key := fun key => String.eqb (case_fold key) "aws:tagkeys" |}.

(** ** A call of [AssumeRole] *)

Record AssumeRoleContext : Type := {
  ar_principal_tags : tag_map;
  ar_external_id : option string;
  ar_session_name : option string;
  ar_principal_arn : string;
  ar_principal_account : option string;
  ar_request_tags : tag_map;
  ar_region : option string;
  ar_secure_transport : bool;
  ar_principal_type : option string;
  ar_username : option string;
  ar_source_ip : option string;
  ar_user_agent : option string;
  ar_userid : option string;
  ar_resource_account : option string;
  ar_current_time : string;
  ar_epoch_time : string
}.

Definition assume_role_keys (self : AssumeRoleContext) : list (string * option (list string)) :=
  [("sts:externalid", single (ar_external_id self));
   ("sts:rolesessionname", single (ar_session_name self));
   ("aws:principalarn", Some [ar_principal_arn self]);
   ("aws:principalaccount", single (ar_principal_account self));
   ("aws:requestedregion", single (ar_region self));
   ("aws:securetransport", single (Some (bool_text (ar_secure_transport self))));
   ("aws:currenttime", single (Some (ar_current_time self)));
   ("aws:epochtime", single (Some (ar_epoch_time self)));
   ("aws:principaltype", single (ar_principal_type self));
   ("aws:username", single (ar_username self));
   ("aws:sourceip", single (ar_source_ip self));
   ("aws:useragent", single (ar_user_agent self));
   ("aws:userid", single (ar_userid self));
   ("aws:resourceaccount", single (ar_resource_account self));
   ("aws:viaawsservice", Some ["false"]);
   ("aws:principalisawsservice", Some ["false"]);
   ("aws:tagkeys",
     if bool_decide (ar_request_tags self = ∅) then None
     else Some (map fst (map_to_list (ar_request_tags self))))].

Definition assume_role_resolve_key (self : AssumeRoleContext) (key : string) : option (list string) :=
  match strip_prefix_ci key "aws:PrincipalTag/" with
  | Some sub => tag_lookup (ar_principal_tags self) sub to_ascii_lowercase
  | None =>
      match strip_prefix_ci key "aws:RequestTag/" with
      | Some sub => tag_lookup (ar_request_tags self) sub to_ascii_lowercase
      | None => match_key (to_ascii_lowercase key) (assume_role_keys self)
      end
  end.

(** [impl ConditionContext for AssumeRoleContext]. *)
Definition assume_role_context (self : AssumeRoleContext) : ConditionContext :=
  {| resolve_key := assume_role_resolve_key self;
     is_multivalued_key := fun key => eq_ignore_ascii_case key "aws:TagKeys";
     is_unresolvable_key := aws_key_is_unresolvable;
     bare_negated_matches_absent_multivalued_key := fun _ => false |}.

(** ** The tags of a request, in any order *)

(** The values of the tags whose names fold to [slot]. *)
Definition values_of (slot : string) (tags : list (string * string)) : list string :=
  map snd (List.filter (fun e => String.eqb (case_fold e.1) slot) tags).

(** What a slot of the index tells of the values it has seen. *)
Definition tells (o : option FoldedTag) (vs : list string) : Prop :=
  match o with
  | None => vs = []
  | Some (FT_Value v) => vs <> [] /\ Forall (eq v) vs
  | Some FT_Ambiguous => exists v w, In v vs /\ In w vs /\ v <> w
  end.

Lemma tells_snoc o vs value :
  tells o vs ->
  tells match o with
        | None => Some (FT_Value value)
        | Some (FT_Value seen) => if String.eqb seen value then o else Some FT_Ambiguous
        | Some FT_Ambiguous => o
        end (vs ++ [value]).
Proof.
  destruct o as [[seen|]|]; simpl.
  - intros [Hne Hf]. destruct (String.eqb_spec seen value) as [->|Hd]; simpl.
    + split; [by destruct vs|]. apply Forall_app. auto.
    + destruct vs as [|v vs]; [done|]. apply Forall_cons_iff in Hf as [<- _].
      exists seen, value. rewrite !in_app_iff. simpl. auto.
  - intros (v & w & Hv & Hw & Hd). exists v, w. rewrite !in_app_iff. auto.
  - intros ->. split; [done|]. by repeat constructor.
Qed.

Lemma values_of_app slot l k : values_of slot (l ++ k) = values_of slot l ++ values_of slot k.
Proof. unfold values_of. by rewrite List.filter_app, map_app. Qed.

Lemma index_loop_tells idx seen tags :
  (forall slot, tells (idx !! slot) (values_of slot seen)) ->
  forall slot, tells (index_loop idx tags !! slot) (values_of slot (seen ++ tags)).
Proof.
  revert idx seen. induction tags as [|[name value] tags IH]; intros idx seen H slot.
  { by rewrite app_nil_r. }
  simpl. replace (seen ++ (name, value) :: tags) with ((seen ++ [(name, value)]) ++ tags) by by rewrite <- app_assoc.
  apply IH. clear slot. intros slot. rewrite values_of_app. unfold values_of at 2. simpl.
  destruct (String.eqb_spec (case_fold name) slot) as [<-|Hne]; simpl.
  - pose proof (tells_snoc _ _ value (H (case_fold name))) as Ht.
    destruct (idx !! case_fold name) as [[s|]|] eqn:E; [destruct (String.eqb s value)| |];
      rewrite ?lookup_insert_eq, ?E; done.
  - rewrite app_nil_r. specialize (H slot).
    destruct (idx !! case_fold name) as [[s|]|] eqn:E; [destruct (String.eqb s value)| |];
      by rewrite ?lookup_insert_ne.
Qed.

(** A slot is determined by the values it has seen, so not by their order. *)
Lemma tells_unique o p vs ws :
  (forall v, In v vs <-> In v ws) -> tells o vs -> tells p ws -> o = p.
Proof.
  intros Hin. assert (forall v w, Forall (eq v) vs -> In w ws -> w = v) as Hv.
  { intros v w Hf Hw%Hin. rewrite Forall_forall in Hf. by symmetry; apply Hf. }
  assert (forall v w, Forall (eq v) ws -> In w vs -> w = v) as Hw.
  { intros v w Hf Hw%Hin. rewrite Forall_forall in Hf. by symmetry; apply Hf. }
  assert (forall l : list string, l <> [] -> exists v, In v l) as Hex by (intros [|v l]; naive_solver).
  destruct o as [[v|]|], p as [[w|]|]; simpl; try done.
  - intros [Hn Hf] [Hm Hg]. destruct (Hex _ Hm) as [x Hx]. do 2 f_equal.
    rewrite Forall_forall in Hg. rewrite (Hg x Hx). by rewrite (Hv v x Hf Hx).
  - intros [Hn Hf] (x & y & Hx & Hy & Hd). by rewrite (Hv v x Hf Hx), (Hv v y Hf Hy) in Hd.
  - intros [Hn Hf] ->. destruct (Hex _ Hn) as [x Hx%Hin]. done.
  - intros (x & y & Hx & Hy & Hd) [Hn Hf]. by rewrite (Hw w x Hf Hx), (Hw w y Hf Hy) in Hd.
  - intros (x & y & Hx%Hin & _) ->. done.
  - intros -> [Hm _]. destruct (Hex _ Hm) as [x Hx%Hin]. done.
  - intros -> (x & y & Hx%Hin & _). done.
Qed.

Definition slot_values (tags : tag_map) (slot : string) : list string := values_of slot (map_to_list tags).

Lemma slot_values_In tags slot v :
  In v (slot_values tags slot) <-> exists name, tags !! name = Some v /\ case_fold name = slot.
Proof.
  unfold slot_values, values_of. rewrite in_map_iff. split.
  - intros ([name w] & <- & [Hin E%String.eqb_eq]%filter_In). exists name.
    apply list_elem_of_In, elem_of_map_to_list in Hin. done.
  - intros (name & Hn & E). exists (name, v). split; [done|]. apply filter_In. split; [|by apply String.eqb_eq].
    by apply list_elem_of_In, elem_of_map_to_list.
Qed.

Lemma index_new_tells tags slot : tells (index_new tags !! slot) (slot_values tags slot).
Proof.
  unfold index_new, slot_values. apply (index_loop_tells ∅ [] (map_to_list tags)).
  intros k. by rewrite lookup_empty.
Qed.

Lemma slot_present tags sub w :
  tells (Some (FT_Value w)) (slot_values tags sub) -> exists name, tags !! name = Some w /\ case_fold name = sub.
Proof.
  intros [Hne Hf]. apply slot_values_In. destruct (slot_values tags sub) as [|x l]; [done|].
  apply Forall_cons_iff in Hf as [<- _]. by left.
Qed.

Lemma index_lookup_value tags sub v :
  index_lookup (index_new tags) sub = Tag_Value v <->
  (exists name, tags !! name = Some v /\ case_fold name = case_fold sub) /\
  (forall name w, tags !! name = Some w -> case_fold name = case_fold sub -> w = v).
Proof.
  unfold index_lookup. pose proof (index_new_tells tags (case_fold sub)) as Ht.
  destruct (index_new tags !! case_fold sub) as [[w|]|].
  - pose proof (slot_present _ _ _ Ht) as Hp. destruct Ht as [_ Hf]. rewrite Forall_forall in Hf. split.
    + intros [= <-]. split; [done|]. intros name x Hx Hn. symmetry. apply Hf, slot_values_In. eauto.
    + intros [_ Hall]. destruct Hp as (name & Hn & En). by rewrite (Hall name w Hn En).
  - split; [done|]. intros [_ Hall].
    destruct Ht as (x & y & (n & Hx & Ex)%slot_values_In & (m & Hy & Ey)%slot_values_In & Hd).
    destruct Hd. by rewrite (Hall n x Hx Ex), (Hall m y Hy Ey).
  - split; [done|]. intros [Hv%slot_values_In _]. simpl in Ht. by rewrite Ht in Hv.
Qed.

Lemma index_lookup_absent tags sub :
  index_lookup (index_new tags) sub = Tag_Absent <->
  forall name w, tags !! name = Some w -> case_fold name <> case_fold sub.
Proof.
  unfold index_lookup. pose proof (index_new_tells tags (case_fold sub)) as Ht.
  destruct (index_new tags !! case_fold sub) as [[w|]|]; (split; [try done|]).
  - intros Hall. destruct (slot_present _ _ _ Ht) as (n & Hn & En). by eapply Hall in Hn.
  - intros Hall. destruct Ht as (x & _ & (n & Hn & En)%slot_values_In & _). by eapply Hall in Hn.
  - intros _ name w Hn Hs. assert (In w (slot_values tags (case_fold sub))) as Hin by (apply slot_values_In; eauto).
    simpl in Ht. by rewrite Ht in Hin.
  - done.
Qed.

Lemma values_of_permutation slot l k v :
  Permutation l k -> In v (values_of slot l) -> In v (values_of slot k).
Proof.
  intros Hp (e & He & [Hin Hf]%filter_In)%in_map_iff. apply in_map_iff. exists e. split; [done|].
  apply filter_In. split; [by eapply Permutation_in|done].
Qed.

Lemma index_loop_permutation tags l slot :
  Permutation l (map_to_list tags) -> index_loop ∅ l !! slot = index_new tags !! slot.
Proof.
  intros Hl. eapply tells_unique; [|apply (index_loop_tells ∅ [] l); intros k; by rewrite lookup_empty|
    apply index_new_tells].
  intros v. split; apply values_of_permutation; [done|by symmetry].
Qed.

(** A tag of the request has a value exactly when some tag of the request folds to
    the name asked for and all that do carry that value; it is absent when none does.
    The order in which the request's tags are visited does not matter. *)
Theorem request_tag_spec tags sub :
  (forall v, index_lookup (index_new tags) sub = Tag_Value v <->
     (exists name, tags !! name = Some v /\ case_fold name = case_fold sub) /\
     (forall name w, tags !! name = Some w -> case_fold name = case_fold sub -> w = v)) /\
  (index_lookup (index_new tags) sub = Tag_Absent <->
   forall name w, tags !! name = Some w -> case_fold name <> case_fold sub) /\
  (forall l, Permutation l (map_to_list tags) ->
     index_lookup (index_loop ∅ l) sub = index_lookup (index_new tags) sub).
Proof.
  split; [apply index_lookup_value|]. split; [apply index_lookup_absent|].
  intros l Hl. unfold index_lookup. by rewrite (index_loop_permutation tags l).
Qed.

(** ** Keys with one value *)

Definition at_most_one (o : option (list string)) : Prop := o = None \/ exists v, o = Some [v].

Lemma tag_lookup_one m sub norm : at_most_one (tag_lookup m sub norm).
Proof.
  unfold tag_lookup, at_most_one. destruct (m !! sub) as [v|]; [eauto|].
  destruct (min_entry _) as [[n v]|]; simpl; eauto.
Qed.

Lemma single_one o : at_most_one (single o).
Proof. unfold at_most_one. destruct o; simpl; eauto. Qed.

Lemma match_key_one names name arms :
  Forall (fun arm => In arm.1 names \/ at_most_one arm.2) arms ->
  existsb (String.eqb name) names = false -> at_most_one (match_key name arms).
Proof.
  intros Hf Hn. induction Hf as [|[k v] arms [Hk|Hv] Hf IH]; simpl; [by left| |]; simpl in *;
    destruct (String.eqb_spec name k) as [->|]; try done.
  exfalso. apply not_true_iff_false in Hn. apply Hn, existsb_exists. exists k. by rewrite String.eqb_refl.
Qed.

Lemma request_keys_one self : Forall (fun arm => In arm.1 multivalued_names \/ at_most_one arm.2) (request_keys self).
Proof.
  unfold request_keys. repeat (constructor; [cbn [fst snd]; first [right; apply single_one | simpl; tauto |
    right; right; by eexists]|]). constructor.
Qed.

Lemma assume_role_keys_one self :
  Forall (fun arm => In arm.1 ["aws:tagkeys"] \/ at_most_one arm.2) (assume_role_keys self).
Proof.
  unfold assume_role_keys. repeat (constructor; [cbn [fst snd]; first [right; apply single_one | simpl; tauto |
    right; right; by eexists]|]). constructor.
Qed.

(** The contexts keep the promise of the keys: a key that is not multivalued has at
    most one value, on a request and on a call of [AssumeRole]. *)
Theorem single_valued_keys req ar k :
  (is_multivalued_key (request_context req) k = false -> at_most_one (resolve_key (request_context req) k)) /\
  (is_multivalued_key (assume_role_context ar) k = false -> at_most_one (resolve_key (assume_role_context ar) k)).
Proof.
  split; simpl.
  - intros Hk. unfold request_resolve_key. destruct (strip_prefix_ci k _); [apply tag_lookup_one|].
    destruct (strip_prefix_ci k _) as [sub|].
    { destruct (request_tag_values req sub); unfold at_most_one; eauto. }
    destruct (strip_prefix_ci k _); [apply tag_lookup_one|].
    apply (match_key_one multivalued_names); [apply request_keys_one|exact Hk].
  - intros Hk. unfold assume_role_resolve_key. destruct (strip_prefix_ci k _); [apply tag_lookup_one|].
    destruct (strip_prefix_ci k _); [apply tag_lookup_one|].
    apply (match_key_one ["aws:tagkeys"]); [apply assume_role_keys_one|].
    cbn [existsb]. rewrite orb_false_r. exact Hk.
Qed.

(** ** Tags spelled in several ways *)

Definition with_request_tags (self : RequestContext) (tags : option RequestTagIndex) : RequestContext :=
  {| principal_tags := principal_tags self; resource_tags := resource_tags self;
     leading_keys := leading_keys self; attributes := attributes self; select := select self;
     return_values := return_values self; return_consumed_capacity := return_consumed_capacity self;
     full_table_scan := full_table_scan self; enclosing_operation := enclosing_operation self;
     principal_arn := principal_arn self; principal_account := principal_account self;
     region := region self; secure_transport := secure_transport self;
     principal_type := principal_type self; username := username self; source_ip := source_ip self;
     user_agent := user_agent self; userid := userid self; resource_account := resource_account self;
     token_issue_time := token_issue_time self;
     multi_factor_auth_present := multi_factor_auth_present self; current_time := current_time self;
     epoch_time := epoch_time self; request_tags := tags; request_tag_keys := request_tag_keys self |}.

(** [chosen] keeps one spelling, or more, of each name of [tags]. *)
Definition chooses (chosen tags : tag_map) : Prop :=
  (forall name v, chosen !! name = Some v -> tags !! name = Some v) /\
  (forall name v, tags !! name = Some v ->
     exists name' v', chosen !! name' = Some v' /\ case_fold name' = case_fold name).

Lemma lookup_chosen chosen tags sub :
  chooses chosen tags ->
  index_lookup (index_new tags) sub = Tag_Ambiguous \/
  index_lookup (index_new chosen) sub = index_lookup (index_new tags) sub.
Proof.
  intros [Hsub Hcov]. destruct (index_lookup (index_new tags) sub) as [|v|] eqn:E; [right|right|by left].
  - apply index_lookup_absent. intros name w Hn. by eapply (proj1 (index_lookup_absent tags sub) E), Hsub.
  - apply index_lookup_value in E as [(name & Hn & En) Hall]. apply index_lookup_value. split.
    + destruct (Hcov name v Hn) as (name' & v' & Hn' & En'). exists name'.
      rewrite (Hall name' v' (Hsub _ _ Hn') ltac:(congruence)) in Hn'. split; congruence.
    + intros n w Hw. by apply Hall, Hsub.
Qed.

Lemma request_tag_values_from self tags sub :
  request_tags self = from_tags (Some tags) -> request_tag_values self sub = index_lookup (index_new tags) sub.
Proof.
  intros E. unfold request_tag_values. rewrite E. simpl. case_bool_decide as Ht; [|done]. subst tags.
  symmetry. apply index_lookup_absent. intros name w. by rewrite lookup_empty.
Qed.

Lemma chosen_hides self tags chosen :
  request_tags self = from_tags (Some tags) -> chooses chosen tags ->
  hides (request_context self) (request_context (with_request_tags self (from_tags (Some chosen)))).
Proof.
  intros Ht Hc. set (self' := with_request_tags self _).
  assert (forall sub, request_tag_values self sub = Tag_Ambiguous \/
    request_tag_values self' sub = request_tag_values self sub) as Hv.
  { intros sub. rewrite (request_tag_values_from self tags), (request_tag_values_from self' chosen) by done.
    by apply lookup_chosen. }
  split; [done|done|]. intros k. unfold is_unresolvable. simpl.
  assert (request_is_unresolvable_key self' k = true -> request_is_unresolvable_key self k = true) as Hu.
  { unfold request_is_unresolvable_key. destruct (strip_prefix_ci k "aws:RequestTag/") as [sub|]; [|done].
    rewrite !bool_decide_eq_true. destruct (Hv sub) as [|E]; [done|]. by rewrite E. }
  assert (request_resolve_key self k = request_resolve_key self' k \/
    request_resolve_key self k = None /\ request_is_unresolvable_key self k = true) as [E|[E1 E2]].
  { unfold request_resolve_key, request_is_unresolvable_key. destruct (strip_prefix_ci k "aws:PrincipalTag/"); [by left|].
    destruct (strip_prefix_ci k "aws:RequestTag/") as [sub|]; [|by left].
    destruct (Hv sub) as [E|E]; rewrite E; [by right|by left]. }
  - rewrite E. intros Hn. split; [done|]. destruct (request_resolve_key self' k); [done|]. simpl in *.
    apply not_true_iff_false. intros H. rewrite (Hu H) in Hn. done.
  - rewrite E1, E2. done.
Qed.

Section FailClosed.
Context `{HT : Rfc3339}.

End FailClosed.

(** ** Witnesses *)

#[local] Instance no_time : Rfc3339 := fun _ => None.

Definition two_spellings : tag_map := <["Env" := "prod"]> (<["env" := "dev"]> ∅).
Definition one_spelling : tag_map := <["env" := "dev"]> ∅.

Definition alice_request : RequestContext :=
  {| principal_tags := ∅; resource_tags := ∅; leading_keys := None; attributes := None; select := None;
     return_values := None; return_consumed_capacity := None; full_table_scan := None;
     enclosing_operation := None; principal_arn := None; principal_account := None; region := None;
     secure_transport := true; principal_type := Some "User"; username := Some "alice"; source_ip := None;
     user_agent := None; userid := None; resource_account := None; token_issue_time := None;
     multi_factor_auth_present := None; current_time := ""; epoch_time := "";
     request_tags := from_tags (Some two_spellings); request_tag_keys := Some ["Env"; "env"] |}.

Lemma one_spelling_chosen : chooses one_spelling two_spellings.
Proof.
  split; intros name v; unfold one_spelling, two_spellings.
  - intros [[<- <-]|[_ H]]%lookup_insert_Some; [by vm_compute|]. by rewrite lookup_empty in H.
  - intros [[<- <-]|[_ [[<- <-]|[_ H]]%lookup_insert_Some]]%lookup_insert_Some; [| |by rewrite lookup_empty in H];
      exists "env", "dev"; by vm_compute.
Qed.

