(* ===== verification/PrincipalId.v ===== *)
(** * Principal unique identifiers

    [crates/auth/src/policy/principal_id.rs]: the ids of users and roles that the key
    [aws:userid] resolves to.  SHA-256 is a parameter; the base32 encoder is the
    loop of the source on its 32-bit buffer. *)

From S2P Require Import Prelude Types StorageKey NumberKey KeyOrder Arn.

(** [Sha256] over the concatenation of its updates; its digest has 32 bytes. *)
Class Sha256 : Type := sha256 : list ascii -> list ascii.
Class Sha256Laws `{Sha256} : Prop := sha256_length : forall m, length (sha256 m) = 32.

(** ** The encoder *)

Definition BASE32 : list ascii := as_bytes "ABCDEFGHIJKLMNOPQRSTUVWXYZ234567".
Definition BODY_LEN : nat := 17.

(** [BASE32[idx] as char]; the index has five bits. *)
Definition base32_char (idx : N) : ascii := nth (N.to_nat idx) BASE32 "A"%char.

(** The [while] loop, at most three rounds as [bits_left < 13]: the bits left, the
    text so far and whether it is complete. *)
Fixpoint emit (fuel : nat) (buffer bits_left : N) (out : list ascii) (n : nat) : N * list ascii * bool :=
  match fuel with
  | O => (bits_left, out, false)
  | S fuel =>
      if (5 <=? bits_left)%N then
        let bits_left := (bits_left - 5)%N in
        let idx := N.land (N.shiftr buffer bits_left) 31 in
        let out := out ++ [base32_char idx] in
        if length out =? n then (bits_left, out, true) else emit fuel buffer bits_left out n
      else (bits_left, out, false)
  end.

Fixpoint base32_loop (data : list ascii) (buffer bits_left : N) (out : list ascii) (n : nat) : list ascii :=
  match data with
  | [] => out
  | b :: data =>
      let buffer := N.lor (N.shiftl buffer 8 mod 2 ^ 32) (byte b) in
      let '(bits_left, out, complete) := emit 3 buffer (bits_left + 8) out n in
      if complete then out
      else base32_loop data (N.land buffer (N.shiftl 1 bits_left - 1)) bits_left out n
  end.

Definition base32_prefix (data : list ascii) (n : nat) : string := of_bytes (base32_loop data 0 0 [] n).

(** ** Identifiers *)

(** The bytes [id_body] feeds to the hash. *)
Definition id_message (parts : list string) : list ascii :=
  flat_map (fun part => as_bytes part ++ [zero]) parts.

Section Ids.
Context `{HS : Sha256}.

Definition id_body (parts : list string) : string := base32_prefix (sha256 (id_message parts)) BODY_LEN.

Definition user_unique_id (account_id user_name created_at : string) : string :=
  "AIDA" +:+ id_body ["user"; account_id; user_name; created_at].

Definition role_unique_id (account_id role_name created_at : string) : string :=
  "AROA" +:+ id_body ["role"; account_id; role_name; created_at].

Definition role_session_userid (account_id role_name session_name role_created_at : string) : string :=
  role_unique_id account_id role_name role_created_at +:+ ":" +:+ session_name.

Definition userid_for_caller_arn (caller_arn : string) (created_at : option string) : option string :=
  match str_splitn 6 ":" caller_arn with
  | [_; _; _; _; account; resource] =>
      let created_at := default "" created_at in
      match str_strip_prefix "user/" resource with
      | Some user_name => Some (user_unique_id account user_name created_at)
      | None =>
          match str_strip_prefix "assumed-role/" resource with
          | Some rest =>
              match str_split_once "/" rest with
              | Some (role, session) => Some (role_session_userid account role session created_at)
              | None => None
              end
          | None => None
          end
      end
  | _ => None
  end.
End Ids.

(** ** What the encoder computes *)

(** A byte string as a big-endian number, and the last [n] base-32 digits of a number. *)
Definition be_value (l : list ascii) : N := fold_left (fun v b => (v * 256 + byte b)%N) l 0%N.

Fixpoint digits32 (n : nat) (v : N) : list ascii :=
  match n with
  | O => []
  | S n => digits32 n (v / 32) ++ [base32_char (v mod 32)]
  end.

Lemma lor_add a b k : (b < 2 ^ k)%N -> N.lor (N.shiftl a k) b = (a * 2 ^ k + b)%N.
Proof.
  intros Hb. rewrite <- N.shiftl_mul_pow2.
  assert (N.land (N.shiftl a k) b = 0)%N as Hz.
  { rewrite <- (N.mod_small b (2 ^ k)), <- N.land_ones by done. apply N.bits_inj. intros i.
    rewrite !N.land_spec, N.bits_0. destruct (N.lt_ge_cases i k).
    - by rewrite N.shiftl_spec_low.
    - rewrite N.ones_spec_high by done. by rewrite !andb_false_r. }
  by rewrite <- N.lxor_lor, N.add_nocarry_lxor.
Qed.

(** The five bits above position [s]. *)
Lemma digit_of v k s :
  (s + 5 <= k)%N -> N.land (N.shiftr (v mod 2 ^ k) s) 31 = (v / 2 ^ s mod 32)%N.
Proof.
  intros Hs. change 31%N with (N.ones 5). change 32%N with (2 ^ 5)%N.
  rewrite <- N.shiftr_div_pow2, <- !N.land_ones. apply N.bits_inj. intros i.
  rewrite !N.land_spec, !N.shiftr_spec', N.land_spec. destruct (N.lt_ge_cases i 5).
  - rewrite (N.ones_spec_low 5 i) by done. rewrite (N.ones_spec_low k) by lia. by rewrite !andb_true_r.
  - rewrite (N.ones_spec_high 5 i) by done. by rewrite !andb_false_r.
Qed.

(** The text holds the digits of [v] above the bits that are left. *)
Definition emitted (v bits_left : N) (out : list ascii) : Prop :=
  out = digits32 (length out) (v / 2 ^ bits_left).

Lemma emitted_step v bits out :
  (5 <= bits)%N -> emitted v bits out ->
  emitted v (bits - 5) (out ++ [base32_char (v / 2 ^ (bits - 5) mod 32)]).
Proof.
  unfold emitted. intros Hb Ho. rewrite length_app, Nat.add_1_r. cbn [digits32].
  f_equal. rewrite Ho at 1. f_equal. rewrite N.Div0.div_div. f_equal.
  change 32%N with (2 ^ 5)%N. rewrite <- N.pow_add_r. f_equal. lia.
Qed.

Lemma emit_spec fuel n v k buffer bits out bits' out' complete :
  buffer = (v mod 2 ^ k)%N -> (bits <= k)%N -> emitted v bits out -> length out < n ->
  (bits < N.of_nat fuel * 5)%N ->
  emit fuel buffer bits out n = (bits', out', complete) ->
  emitted v bits' out' /\ (N.of_nat (length out') * 5 + bits' = N.of_nat (length out) * 5 + bits)%N /\
  if complete then length out' = n else (bits' < 5)%N /\ length out' < n.
Proof.
  intros Hbuf. revert bits out. induction fuel as [|fuel IH]; intros bits out Hk Ho Hn Hf; simpl; [lia|].
  destruct (N.leb_spec 5 bits) as [H5|H5]; [|by intros [= <- <- <-]].
  rewrite Hbuf, digit_of by lia. pose proof (emitted_step _ _ _ H5 Ho) as Ho'.
  set (out1 := out ++ [_]) in *. assert (length out1 = S (length out)) as Hl by (unfold out1; rewrite length_app; simpl; lia).
  destruct (Nat.eqb_spec (length out1) n) as [E|E].
  - intros [= <- <- <-]. split; [done|]. split; [lia|done].
  - rewrite <- Hbuf. intros He. apply IH in He; [|lia|done|lia|lia]. rewrite Hl in He.
    destruct He as (? & ? & ?). split; [done|]. split; [lia|done].
Qed.

Lemma be_value_app l1 l2 :
  be_value (l1 ++ l2) = (be_value l1 * 2 ^ (8 * N.of_nat (length l2)) + be_value l2)%N.
Proof.
  unfold be_value. rewrite fold_left_app. generalize (fold_left (fun v b => (v * 256 + byte b)%N) l1 0%N) as v.
  induction l2 as [|b l2 IH] using rev_ind; intros v; simpl; [lia|].
  rewrite !fold_left_app. simpl. rewrite (IH v), length_app. simpl.
  replace (8 * N.of_nat (length l2 + 1))%N with (8 * N.of_nat (length l2) + 8)%N by lia.
  rewrite N.pow_add_r. change (2 ^ 8)%N with 256%N. lia.
Qed.

Lemma be_value_bound l : (be_value l < 2 ^ (8 * N.of_nat (length l)))%N.
Proof.
  induction l as [|b l IH] using rev_ind; [done|].
  rewrite be_value_app, length_app. simpl. unfold be_value at 2. simpl. pose proof (byte_bound b).
  replace (8 * N.of_nat (length l + 1))%N with (8 * N.of_nat (length l) + 8)%N by lia.
  rewrite N.pow_add_r. change (2 ^ 8)%N with 256%N. lia.
Qed.

Lemma mod_shift v k b : (b < 256)%N -> (v mod 2 ^ k * 2 ^ 8 + b = (v * 256 + b) mod 2 ^ (k + 8))%N.
Proof.
  intros Hb. assert (0 < 2 ^ k)%N by (apply N.neq_0_lt_0, N.pow_nonzero; done).
  pose proof (N.mod_lt v (2 ^ k) ltac:(lia)). pose proof (N.div_mod v (2 ^ k) ltac:(lia)).
  rewrite N.pow_add_r. change (2 ^ 8)%N with 256%N in *.
  apply (N.mod_unique _ _ (v / 2 ^ k)); nia.
Qed.

Lemma div_shift v k b : (b < 256)%N -> ((v * 256 + b) / 2 ^ (k + 8) = v / 2 ^ k)%N.
Proof.
  intros Hb. rewrite N.pow_add_r, (N.mul_comm (2 ^ k)), <- N.Div0.div_div. change (2 ^ 8)%N with 256%N.
  f_equal. rewrite N.div_add_l by done. rewrite (N.div_small b) by done. lia.
Qed.

Lemma mask_mod v k b : (b <= k)%N -> N.land (v mod 2 ^ k) (N.shiftl 1 b - 1) = (v mod 2 ^ b)%N.
Proof.
  intros Hb. rewrite N.shiftl_1_l, <- N.pred_sub, <- N.ones_equiv, N.land_ones.
  replace k with (b + (k - b))%N by lia. rewrite N.pow_add_r, N.Div0.mod_mul_r, N.mul_comm.
  by rewrite N.Div0.mod_add, N.Div0.mod_mod.
Qed.

Lemma base32_loop_spec n rest : forall seen buffer bits out,
  let v := be_value seen in
  buffer = (v mod 2 ^ bits)%N -> (bits < 5)%N -> emitted v bits out -> length out < n ->
  (N.of_nat (length out) * 5 + bits = 8 * N.of_nat (length seen))%N ->
  (5 * N.of_nat n <= 8 * N.of_nat (length (seen ++ rest)))%N ->
  base32_loop rest buffer bits out n =
  digits32 n (be_value (seen ++ rest) / 2 ^ (8 * N.of_nat (length (seen ++ rest)) - 5 * N.of_nat n)).
Proof.
  induction rest as [|b rest IH]; intros seen buffer bits out v Hbuf H5 Ho Hn Hl Hlen; cbn [base32_loop].
  { rewrite app_nil_r in Hlen. lia. }
  pose proof (byte_bound b) as Hb.
  assert (buffer < 2 ^ bits)%N as Hs by (subst buffer; apply N.mod_lt, N.pow_nonzero; done).
  assert (2 ^ bits <= 2 ^ 4)%N by (apply N.pow_le_mono_r; lia).
  rewrite N.mod_small by (rewrite N.shiftl_mul_pow2; change (2 ^ 4)%N with 16%N in *; change (2 ^ 8)%N with 256%N; change (2 ^ 32)%N with 4294967296%N; lia).
  assert (be_value (seen ++ [b]) = v * 256 + byte b)%N as Hv
    by (rewrite be_value_app; unfold be_value at 2; simpl; unfold v; lia).
  rewrite lor_add, Hbuf, mod_shift, <- Hv by done.
  assert (emitted (be_value (seen ++ [b])) (bits + 8) out) as Ho'
    by (unfold emitted; rewrite Hv, div_shift by done; exact Ho).
  destruct (emit 3 _ _ out n) as [[bits' out'] complete] eqn:E.
  eapply (emit_spec 3 n (be_value (seen ++ [b])) (bits + 8)) in E; [|done|lia|done|done|lia].
  destruct E as (Hout & Hlen' & Hc). replace (seen ++ b :: rest) with ((seen ++ [b]) ++ rest) in * by (by rewrite <- app_assoc).
  assert (length (seen ++ [b]) = S (length seen)) as Hl1 by (rewrite length_app; simpl; lia).
  destruct complete.
  - rewrite Hout, Hc. f_equal.
    rewrite (be_value_app _ rest), (length_app _ rest).
    replace (8 * N.of_nat (length (seen ++ [b]) + length rest) - 5 * N.of_nat n)%N
      with (8 * N.of_nat (length rest) + bits')%N by lia.
    rewrite N.pow_add_r, <- N.Div0.div_div, N.div_add_l by (apply N.pow_nonzero; done).
    rewrite (N.div_small (be_value rest)) by apply be_value_bound. f_equal. lia.
  - destruct Hc as [Hc1 Hc2]. apply IH; [|done..|lia|done].
    apply mask_mod. lia.
Qed.

(** The first [n] base-32 digits of a byte string, as a number. *)
Definition leading (d : list ascii) (n : nat) : N :=
  (be_value d / 2 ^ (8 * N.of_nat (length d) - 5 * N.of_nat n))%N.

Lemma base32_prefix_digits d n :
  0 < n -> (5 * N.of_nat n <= 8 * N.of_nat (length d))%N ->
  base32_prefix d n = of_bytes (digits32 n (leading d n)).
Proof.
  intros Hn Hd. unfold base32_prefix, leading. f_equal. by apply (base32_loop_spec n d []).
Qed.

Lemma digits32_length n v : length (digits32 n v) = n.
Proof. revert v. induction n; intros v; simpl; [done|]. rewrite length_app, IHn. simpl. lia. Qed.

Lemma base32_char_inj i j : (i < 32)%N -> (j < 32)%N -> base32_char i = base32_char j -> i = j.
Proof.
  assert (all_lt 32 (fun i => all_lt 32 (fun j =>
    implb (Ascii.eqb (base32_char i) (base32_char j)) (i =? j)%N)) = true) as H by (vm_compute; reflexivity).
  intros Hi Hj E. apply (all_lt_spec _ _ i) in H; [|done]. apply (all_lt_spec _ _ j) in H; [|done].
  rewrite E, Ascii.eqb_refl in H. by apply N.eqb_eq in H.
Qed.

Lemma digits32_inj n v w :
  (v < 32 ^ N.of_nat n)%N -> (w < 32 ^ N.of_nat n)%N -> digits32 n v = digits32 n w -> v = w.
Proof.
  revert v w. induction n as [|n IH]; intros v w Hv Hw E.
  { change (32 ^ N.of_nat 0)%N with 1%N in *. lia. }
  replace (N.of_nat (S n)) with (1 + N.of_nat n)%N in * by lia. rewrite N.pow_add_r, N.pow_1_r in Hv, Hw.
  cbn [digits32] in E. apply app_inj_tail in E as [E1 E2].
  apply base32_char_inj in E2; [|by apply N.mod_lt..].
  apply IH in E1; [|by apply N.Div0.div_lt_upper_bound..].
  rewrite (N.div_mod v 32), (N.div_mod w 32) by done. by rewrite E1, E2.
Qed.

Lemma leading_bound d n :
  (5 * N.of_nat n <= 8 * N.of_nat (length d))%N -> (leading d n < 32 ^ N.of_nat n)%N.
Proof.
  intros Hd. apply N.Div0.div_lt_upper_bound. change 32%N with (2 ^ 5)%N.
  rewrite <- N.pow_mul_r, <- N.pow_add_r.
  replace (8 * N.of_nat (length d) - 5 * N.of_nat n + 5 * N.of_nat n)%N with (8 * N.of_nat (length d))%N by lia.
  apply be_value_bound.
Qed.

(** Two digests give the same text exactly when their leading bits agree. *)
Lemma base32_prefix_inj d d' n :
  0 < n -> (5 * N.of_nat n <= 8 * N.of_nat (length d))%N -> (5 * N.of_nat n <= 8 * N.of_nat (length d'))%N ->
  base32_prefix d n = base32_prefix d' n <-> leading d n = leading d' n.
Proof.
  intros Hn Hd Hd'. rewrite !base32_prefix_digits by done. split; [|congruence].
  intros E%of_bytes_inj. by apply digits32_inj in E; [|apply leading_bound..].
Qed.

(** ** What the hash sees *)

Definition nul_free (s : string) : Prop := ~ In zero (as_bytes s).

Lemma terminated_inj (a b : list ascii) z x y :
  ~ In z a -> ~ In z b -> a ++ z :: x = b ++ z :: y -> a = b /\ x = y.
Proof.
  revert b. induction a as [|c a IH]; intros [|d b] Ha Hb; simpl in *.
  - naive_solver.
  - intros [= -> _]. tauto.
  - intros [= -> _]. tauto.
  - intros [= -> E]. destruct (IH b) as [-> ->]; tauto.
Qed.

Lemma id_message_inj p q :
  Forall nul_free p -> Forall nul_free q -> id_message p = id_message q -> p = q.
Proof.
  intros Hp. revert q. unfold id_message.
  induction Hp as [|a p Ha _ IH]; intros q Hq; destruct Hq as [|b q Hb Hq]; simpl; [done|..].
  - intros E. by destruct (as_bytes b).
  - intros E. by destruct (as_bytes a).
  - rewrite <- !app_assoc. simpl. intros [Eab Epq]%terminated_inj; [|done..].
    apply as_bytes_inj in Eab as ->. f_equal. by apply IH.
Qed.

Section Principals.
Context `{HS : Sha256} `{HL : !Sha256Laws}.

Lemma id_body_eq p q :
  id_body p = id_body q <-> leading (sha256 (id_message p)) 17 = leading (sha256 (id_message q)) 17.
Proof. unfold id_body, BODY_LEN. apply base32_prefix_inj; rewrite ?sha256_length; lia. Qed.

Lemma id_body_length p : String.length (id_body p) = 17.
Proof.
  unfold id_body, BODY_LEN. rewrite base32_prefix_digits by (rewrite ?sha256_length; lia).
  by rewrite <- length_as_bytes, as_bytes_of_bytes, digits32_length.
Qed.

(** Unique ids have 21 characters.  No user's id is a role's.  Two users share an id
    only when the first 85 bits of two digests agree, and the digests are of different
    messages unless account, name and creation time are all the same, for texts
    without a NUL. *)
Theorem principal_ids_spec acct name at_ acct' name' at_' :
  Forall nul_free [acct; name; at_; acct'; name'; at_'] ->
  let m := id_message ["user"; acct; name; at_] in
  let m' := id_message ["user"; acct'; name'; at_'] in
  String.length (user_unique_id acct name at_) = 21 /\
  user_unique_id acct name at_ <> role_unique_id acct' name' at_' /\
  (user_unique_id acct name at_ = user_unique_id acct' name' at_' <->
   leading (sha256 m) 17 = leading (sha256 m') 17) /\
  (m = m' <-> acct = acct' /\ name = name' /\ at_ = at_').
Proof.
  rewrite !Forall_cons_iff. intros (? & ? & ? & ? & ? & ? & _) m m'. split.
  { unfold user_unique_id. by rewrite str_length_app, id_body_length. }
  split; [unfold user_unique_id, role_unique_id; str_simpl; intros [=]|]. split.
  - unfold user_unique_id, m, m'. rewrite <- id_body_eq. split; [apply str_app_inj|congruence].
  - split; [|naive_solver]. unfold m, m'. intros E. apply id_message_inj in E; [by injection E| |].
    all: constructor; [vm_compute; intuition discriminate|]; by repeat constructor.
Qed.
End Principals.

(** ** Witness *)

(** A digest that is not one: the message cut or padded to 32 bytes. *)
#[local] Instance padded : Sha256 := fun m => take 32 (m ++ replicate 32 zero).
#[local] Instance padded_laws : Sha256Laws.
Proof. intros m. unfold sha256, padded. rewrite length_take, length_app, length_replicate. lia. Qed.

Lemma principal_ids_spec_witness :
  user_unique_id "1" "alice" "2026" <> role_unique_id "1" "alice" "2026" /\
  String.length (user_unique_id "1" "alice" "2026") = 21.
Proof.
  assert (Forall nul_free ["1"; "alice"; "2026"; "1"; "alice"; "2026"]) as Hn
    by (repeat constructor; vm_compute; intuition discriminate).
  split; apply (principal_ids_spec "1" "alice" "2026" "1" "alice" "2026" Hn).
Defined.
