(* ===== verification/TrustPolicy.v ===== *)
(** * Trust policies

    Who may assume a role: the evaluation of a role's trust policy and its
    validation when it is written ([crates/server/src/management/assume_role.rs]).
    Both read the JSON document itself.  The catalog is a parameter. *)

From S2P Require Import Prelude Types StorageKey Wire NumberKey KeyOrder Arn.
From S2P Require Import PolicyMatcher PolicyVariables PolicyCondition PolicyParser CaseFold PolicyContext PrincipalId.

(** ** Callers *)

Definition arn_part (n : nat) (caller_arn : string) : option string := nth_error (str_splitn 6 ":" caller_arn) n.

Definition caller_principal_type (caller_arn : string) : option string :=
  match arn_part 5 caller_arn with
  | None => None
  | Some resource =>
      if is_some (str_strip_prefix "user/" resource) then Some "User"
      else if is_some (str_strip_prefix "assumed-role/" resource) then Some "AssumedRole"
      else None
  end.

Definition caller_username (caller_arn : string) : option string :=
  match arn_part 5 caller_arn with
  | None => None
  | Some resource => str_strip_prefix "user/" resource
  end.

Definition caller_account (caller_arn : string) : option string :=
  match nth_error (str_split ":" caller_arn) 4 with
  | Some s => if is_empty s then None else Some s
  | None => None
  end.

(** ** Principals and actions *)

Definition principal_entry_matches (entry caller_arn : string) : bool :=
  if String.eqb entry "*" || String.eqb entry caller_arn then true
  else
    match caller_account caller_arn with
    | Some account =>
        if String.eqb entry account then true
        else
          match str_strip_prefix "arn:aws:iam::" entry with
          | Some r => bool_decide (strip_suffix ":root" r = Some account)
          | None => false
          end
    | None => false
    end.

Definition principal_matches (principal : Value) (caller_arn : string) : bool :=
  match principal with
  | VString s => String.eqb s "*"
  | VObject _ =>
      match json_get principal "AWS" with
      | Some (VString arn) => principal_entry_matches arn caller_arn
      | Some (VArray arns) => existsb (fun a => principal_entry_matches a caller_arn) (omap as_str arns)
      | _ => false
      end
  | _ => false
  end.

Definition action_pattern_matches (pattern action : string) : bool :=
  let p := to_ascii_lowercase pattern in
  let a := to_ascii_lowercase action in
  if String.eqb p "*" then true
  else
    match strip_suffix "*" p with
    | Some prefix => is_some (str_strip_prefix prefix a)
    | None => String.eqb p a
    end.

Definition action_list (v : option Value) : option (list string) :=
  match v with
  | Some (VString s) => Some [s]
  | Some (VArray arr) => Some (omap as_str arr)
  | _ => None
  end.

(** [action_matches] of this file. *)
Definition trust_action_matches (stmt : Value) (action : string) : bool :=
  match action_list (json_get stmt "Action") with
  | Some actions => existsb (fun p => action_pattern_matches p action) actions
  | None =>
      match action_list (json_get stmt "NotAction") with
      | Some not_actions => negb (existsb (fun p => action_pattern_matches p action) not_actions)
      | None => false
      end
  end.

(** ** Conditions *)

Inductive ConditionOutcome : Type := Pass | Fail_ | Unparseable.

#[export] Instance ConditionOutcome_eq_dec : EqDecision ConditionOutcome.
Proof. solve_decision. Defined.

(** [b.to_string()] of a boolean is [bool_text b]. *)
Fixpoint normalize_condition_scalars (v : Value) : Value :=
  match v with
  | VNumber n => VString n
  | VBool b => VString (bool_text b)
  | VArray a => VArray (map normalize_condition_scalars a)
  | VObject o => VObject (map (fun kv => (kv.1, normalize_condition_scalars kv.2)) o)
  | other => other
  end.

Section Decision.
Context `{HT : Rfc3339}.

Definition evaluate_conditions (stmt : Value) (context : AssumeRoleContext) (version_2012 : bool)
    : ConditionOutcome :=
  match parse_conditions (normalize_condition_scalars (json_index stmt "Condition")) with
  | Ok conds =>
      match evaluate_statement_conditions conds version_2012 (assume_role_context context) with
      | Match => Pass
      | NoMatch => Fail_
      | Unresolvable => Unparseable
      end
  | Err _ => Unparseable
  end.

(** ** The decision *)

Definition effect_of (stmt : Value) : string :=
  match json_get stmt "Effect" with
  | Some e => default "" (as_str e)
  | None => ""
  end.

Definition deny_statement_blocks (stmt : Value) (caller_arn : string) (context : AssumeRoleContext)
    (action : string) (version_2012 : bool) : bool :=
  if negb (principal_matches (json_index stmt "Principal") caller_arn) || negb (trust_action_matches stmt action)
  then false
  else
    match evaluate_conditions stmt context version_2012 with
    | Pass | Unparseable => true
    | Fail_ => false
    end.

Definition allow_statement_grants (stmt : Value) (caller_arn : string) (context : AssumeRoleContext)
    (action : string) (version_2012 : bool) : bool :=
  if negb (principal_matches (json_index stmt "Principal") caller_arn) || negb (trust_action_matches stmt action)
  then false
  else
    match evaluate_conditions stmt context version_2012 with
    | Pass => true
    | Fail_ | Unparseable => false
    end.

Definition action_permitted (statements : list Value) (caller_arn : string) (context : AssumeRoleContext)
    (action : string) (version_2012 : bool) : bool :=
  if existsb (fun stmt => eq_ignore_ascii_case (effect_of stmt) "Deny" &&
                          deny_statement_blocks stmt caller_arn context action version_2012) statements
  then false
  else existsb (fun stmt => eq_ignore_ascii_case (effect_of stmt) "Allow" &&
                            allow_statement_grants stmt caller_arn context action version_2012) statements.

Definition requested_actions (has_session_tags : bool) : list string :=
  "sts:AssumeRole" :: (if has_session_tags then ["sts:TagSession"] else []).

Definition trust_decision_for (statements : list Value) (caller_arn : string) (context : AssumeRoleContext)
    (has_session_tags version_2012 : bool) : bool :=
  forallb (fun action => action_permitted statements caller_arn context action version_2012)
    (requested_actions has_session_tags).
End Decision.

Definition statements_vec (trust_policy : Value) : option (list Value) :=
  match json_get trust_policy "Statement" with
  | Some (VArray arr) => Some arr
  | Some (VObject o) => Some [VObject o]
  | _ => None
  end.

Definition trust_policy_is_version_2012 (trust_policy : Value) : bool :=
  match json_get trust_policy "Version" with
  | Some v => bool_decide (as_str v = Some "2012-10-17")
  | None => false
  end.

(** ** Session tags *)

Definition scalar_to_string (v : Value) : option string :=
  match v with
  | VString s => Some s
  | VNumber n => Some n
  | VBool b => Some (bool_text b)
  | _ => None
  end.

Definition value_has_entries (v : Value) : bool :=
  match v with
  | VObject o => negb (bool_decide (o = []))
  | VArray a => negb (bool_decide (a = []))
  | _ => false
  end.

Definition session_tag_pairs (session_tags : Value) : list (string * string) :=
  match session_tags with
  | VObject obj => omap (fun kv => (fun s => (kv.1, s)) <$> scalar_to_string kv.2) obj
  | VArray arr =>
      omap (fun entry =>
        k ← json_get entry "Key" ≫= as_str;
        v ← json_get entry "Value" ≫= scalar_to_string;
        Some (k, v)) arr
  | _ => []
  end.

(** [parse_session_tags]: the same entries, inserted in order. *)
Definition collect_tags (pairs : list (string * string)) : tag_map :=
  fold_left (fun map kv => <[kv.1 := kv.2]> map) pairs ∅.

Definition parse_session_tags (session_tags : option Value) : tag_map :=
  match session_tags with
  | Some tags => collect_tags (session_tag_pairs tags)
  | None => ∅
  end.

(** ** A call *)

(** What the catalog answers about a caller; an error is only logged. *)
Class CatalogStore : Type := {
  store_caller_tags : string -> string -> option (list (string * string));
  store_user_created_at : string -> string -> option (option string);
  store_role_created_at : string -> string -> option (option string)
}.

Section Call.
Context `{HT : Rfc3339} `{HS : Sha256} `{HC : CatalogStore}.

Definition fetch_caller_tags (caller_arn : string) : tag_map :=
  match arn_part 4 caller_arn, arn_part 5 caller_arn with
  | Some account_id, Some resource => default ∅ (collect_tags <$> store_caller_tags account_id resource)
  | _, _ => ∅
  end.

Definition fetch_caller_created_at (caller_arn : string) : option string :=
  match arn_part 4 caller_arn, arn_part 5 caller_arn with
  | Some account_id, Some resource =>
      let result :=
        match str_strip_prefix "user/" resource with
        | Some user_name => store_user_created_at account_id user_name
        | None =>
            match str_strip_prefix "assumed-role/" resource with
            | Some rest => store_role_created_at account_id (default "" (head (str_split "/" rest)))
            | None => Some None
            end
        end in
      default None result
  | _, _ => None
  end.

(** [now] is the pair of [request_time_strings]. *)
Definition evaluate_trust_policy (trust_policy : Value) (caller_arn : string) (external_id : option string)
    (session_name : string) (has_session_tags : bool) (request_tags : tag_map) (region : string)
    (secure_transport : bool) (source_ip user_agent : option string) (account_id : string)
    (now : string * string) : bool :=
  match statements_vec trust_policy with
  | None => false
  | Some statements =>
      let context :=
        {| ar_principal_tags := fetch_caller_tags caller_arn;
           ar_external_id := external_id;
           ar_session_name := Some session_name;
           ar_principal_arn := caller_arn;
           ar_principal_account := caller_account caller_arn;
           ar_request_tags := request_tags;
           ar_region := Some region;
           ar_secure_transport := secure_transport;
           ar_principal_type := caller_principal_type caller_arn;
           ar_username := caller_username caller_arn;
           ar_source_ip := source_ip;
           ar_user_agent := user_agent;
           ar_userid := userid_for_caller_arn caller_arn (fetch_caller_created_at caller_arn);
           ar_resource_account := Some account_id;
           ar_current_time := now.1;
           ar_epoch_time := now.2 |} in
      trust_decision_for statements caller_arn context has_session_tags (trust_policy_is_version_2012 trust_policy)
  end.
End Call.

(** ** Validation at write *)

Definition STS_TRUST_ACTIONS : list string := ["sts:assumerole"; "sts:tagsession"; "sts:setsourceidentity"].

Definition non_null (v : option Value) : option Value :=
  match v with
  | Some v => if is_null v then None else Some v
  | None => None
  end.

Definition above_latin1 (s : string) : bool := existsb (fun c => (255 <? c)%N) (chars_of (as_bytes s)).

Fixpoint json_has_char_above_latin1 (v : Value) : bool :=
  match v with
  | VString s => above_latin1 s
  | VArray a => existsb json_has_char_above_latin1 a
  | VObject o => existsb (fun kv => above_latin1 kv.1 || json_has_char_above_latin1 kv.2) o
  | _ => false
  end.

Definition is_scalar_value (x : Value) : bool := is_some (scalar_to_string x).

Definition validate_condition_values (v : Value) : parsed unit :=
  let refused := Err "condition value must be a string, number, boolean or array of those" in
  if is_scalar_value v then Ok tt
  else
    match v with
    | VArray arr => if forallb is_scalar_value arr then Ok tt else refused
    | _ => refused
    end.

Definition known_operators : list string :=
  ["StringEquals"; "StringNotEquals"; "StringEqualsIgnoreCase"; "StringNotEqualsIgnoreCase"; "StringLike";
   "StringNotLike"; "NumericEquals"; "NumericNotEquals"; "NumericLessThan"; "NumericLessThanEquals";
   "NumericGreaterThan"; "NumericGreaterThanEquals"; "DateEquals"; "DateNotEquals"; "DateLessThan";
   "DateLessThanEquals"; "DateGreaterThan"; "DateGreaterThanEquals"; "Bool"; "BinaryEquals"; "IpAddress";
   "NotIpAddress"; "ArnEquals"; "ArnLike"; "ArnNotEquals"; "ArnNotLike"; "Null"].

Definition bare_operator (name : string) : string :=
  let base :=
    match str_strip_prefix "ForAllValues:" name with
    | Some r => r
    | None => default name (str_strip_prefix "ForAnyValue:" name)
    end in
  default base (strip_suffix "IfExists" base).

Definition is_known_iam_condition_operator (name : string) : bool :=
  existsb (String.eqb (bare_operator name)) known_operators.

Definition validate_trust_condition (cond : Value) : parsed unit :=
  match cond with
  | VObject obj =>
      for_each (fun entry =>
        if negb (is_known_iam_condition_operator entry.1) then Err ("invalid Condition operator: " +:+ entry.1)
        else
          match entry.2 with
          | VObject keys_obj => for_each (fun kv => validate_condition_values kv.2) keys_obj
          | _ => Err ("Condition " +:+ entry.1 +:+ " must be an object")
          end) obj
  | _ => Err "Condition must be an object"
  end.

Definition principal_entry_strings (v : Value) : parsed (list string) :=
  match v with
  | VString s => Ok [s]
  | VArray arr => collect_results (fun a => ok_or_else (as_str a) "principal entry must be a string") arr
  | _ => Err "principal value must be a string or array of strings"
  end.

Definition validate_aws_principal_entry (entry : string) : parsed unit :=
  if String.eqb entry "*" then Ok tt
  else if str_has "*" entry then Err ("wildcard is not allowed in a principal ARN: " +:+ entry)
  else Ok tt.

Definition validate_trust_principal (principal : Value) : parsed unit :=
  match principal with
  | VString _ =>
      Err ("Principal must be an object such as {" +:+ dquote +:+ "AWS" +:+ dquote +:+ ": " +:+ dquote +:+
           "<arn>" +:+ dquote +:+ "}")
  | VObject map =>
      if bool_decide (map = []) then Err "Principal object must not be empty"
      else
        match non_null (json_get principal "AWS") with
        | Some aws =>
            let? entries := principal_entry_strings aws in
            for_each validate_aws_principal_entry entries
        | None => Ok tt
        end
  | _ => Err "invalid Principal value"
  end.

Definition validate_trust_actions (actions : Value) : parsed unit :=
  let? l :=
    match actions with
    | VString s => Ok [s]
    | VArray arr => collect_results (fun a => ok_or_else (as_str a) "Action entry must be a string") arr
    | _ => Err "Action must be a string or array of strings"
    end in
  if bool_decide (l = []) then Err "Action must not be empty"
  else
    for_each (fun a =>
      if negb (existsb (String.eqb (to_ascii_lowercase a)) STS_TRUST_ACTIONS) then
        Err ("trust policy Action must be one of sts:AssumeRole, sts:TagSession, sts:SetSourceIdentity: " +:+ a)
      else Ok tt) l.

Definition validate_trust_effect (stmt : Value) : parsed unit :=
  match json_get stmt "Effect" ≫= as_str with
  | Some e =>
      if eq_ignore_ascii_case e "Allow" || eq_ignore_ascii_case e "Deny" then Ok tt
      else Err ("invalid Effect: " +:+ e)
  | None => Err "statement is missing Effect"
  end.

Definition validate_trust_statement (stmt : Value) : parsed unit :=
  let? _ := validate_trust_effect stmt in
  if is_some (non_null (json_get stmt "NotPrincipal")) then Err "NotPrincipal is not allowed in a trust policy"
  else
    let? _ :=
      match non_null (json_get stmt "Principal") with
      | None => Err "statement is missing Principal"
      | Some p => validate_trust_principal p
      end in
    let? _ :=
      match non_null (json_get stmt "Action"), non_null (json_get stmt "NotAction") with
      | None, None => Err "statement is missing Action"
      | Some _, Some _ => Err "statement has both Action and NotAction"
      | Some a, None | None, Some a => validate_trust_actions a
      end in
    if is_some (non_null (json_get stmt "Resource")) || is_some (non_null (json_get stmt "NotResource")) then
      Err "Resource is not allowed in a trust policy"
    else
      match non_null (json_get stmt "Condition") with
      | Some cond => validate_trust_condition cond
      | None => Ok tt
      end.

Definition validate_trust_policy (trust_policy : Value) : parsed unit :=
  match statements_vec trust_policy with
  | None => Err "Trust policy must contain a Statement object or array"
  | Some statements =>
      if bool_decide (statements = []) then Err "Trust policy Statement must not be empty"
      else if json_has_char_above_latin1 trust_policy then
        Err "Trust policy must not contain a character above U+00FF"
      else
        let? _ := for_each (fun stmt =>
          match json_get stmt "Sid" ≫= as_str with
          | Some sid =>
              if str_all is_alnum sid then Ok tt
              else Err "Trust policy Sid must be ASCII letters and digits only"
          | None => Ok tt
          end) statements in
        for_each validate_trust_statement statements
  end.

(** ** Who a principal names *)

Definition names_caller (entry caller : string) : Prop :=
  entry = "*" \/ entry = caller \/
  exists account, caller_account caller = Some account /\
    (entry = account \/ entry = "arn:aws:iam::" +:+ account +:+ ":root").

(** The entries under [AWS]. *)
Definition aws_entries (principal : Value) : list string :=
  default [] (action_list (json_get principal "AWS")).

Lemma principal_entry_spec entry caller : principal_entry_matches entry caller = true <-> names_caller entry caller.
Proof.
  unfold principal_entry_matches, names_caller.
  destruct (String.eqb_spec entry "*"); [simpl; tauto|]. destruct (String.eqb_spec entry caller); [simpl; tauto|].
  cbn [orb]. destruct (caller_account caller) as [account|]; [|split; [done|intros [|[|(? & [=] & _)]]; done]].
  destruct (String.eqb_spec entry account) as [Heq|Hne]; [split; [intros _; eauto 6|done]|].
  destruct (str_strip_prefix "arn:aws:iam::" entry) as [r|] eqn:E.
  - rewrite bool_decide_eq_true, strip_suffix_Some. apply str_strip_prefix_Some in E as ->. split.
    + intros ->. eauto 6.
    + intros [|[|(? & [= <-] & [Hx|H])]]; try done. by apply str_app_inj in H.
  - split; [done|]. intros [|[|(? & [= <-] & [Hx|Hx])]]; try done. subst entry.
    by rewrite (proj2 (str_strip_prefix_Some _ _ _) eq_refl) in E.
Qed.

Lemma principal_matches_spec principal caller :
  principal_matches principal caller = true <->
  principal = VString "*" \/ exists entry, In entry (aws_entries principal) /\ names_caller entry caller.
Proof.
  unfold aws_entries. destruct principal as [| | |s| |o]; simpl.
  1-3,5: split; [done|intros [|(? & [] & _)]; done].
  - rewrite String.eqb_eq. split; [intros ->; by left|]. intros [[= ->]|(? & [] & _)]. done.
  - split.
    + intros H. right. destruct (snd <$> _) as [[| | |s|l|]|]; try done; simpl.
      * exists s. split; [by left|]. by apply principal_entry_spec.
      * apply existsb_exists in H as (a & ? & ?). exists a. split; [done|]. by apply principal_entry_spec.
    + intros [[=]|(a & Ha & Hn%principal_entry_spec)].
      destruct (snd <$> _) as [[| | |s|l|]|]; try done; simpl in Ha.
      * by destruct Ha as [->|[]].
      * apply existsb_exists. eauto.
Qed.

(** ** The decision *)

Section DecisionFacts.
Context `{HT : Rfc3339}.

(** The statement speaks of this caller and this action. *)
Definition applies (stmt : Value) (caller action : string) : Prop :=
  principal_matches (json_index stmt "Principal") caller = true /\ trust_action_matches stmt action = true.

Definition has_effect (effect : string) (stmt : Value) : Prop := eq_ignore_ascii_case (effect_of stmt) effect = true.

Lemma deny_blocks_iff stmt caller context action v2012 :
  deny_statement_blocks stmt caller context action v2012 = true <->
  applies stmt caller action /\ evaluate_conditions stmt context v2012 <> Fail_.
Proof.
  unfold deny_statement_blocks, applies.
  destruct (principal_matches _ _), (trust_action_matches _ _); simpl; try naive_solver.
  destruct (evaluate_conditions _ _ _); naive_solver.
Qed.

Lemma allow_grants_iff stmt caller context action v2012 :
  allow_statement_grants stmt caller context action v2012 = true <->
  applies stmt caller action /\ evaluate_conditions stmt context v2012 = Pass.
Proof.
  unfold allow_statement_grants, applies.
  destruct (principal_matches _ _), (trust_action_matches _ _); simpl; try naive_solver.
  destruct (evaluate_conditions _ _ _); naive_solver.
Qed.

Lemma action_permitted_iff stmts caller context action v2012 :
  action_permitted stmts caller context action v2012 = true <->
  (forall stmt, In stmt stmts -> has_effect "Deny" stmt -> applies stmt caller action ->
     evaluate_conditions stmt context v2012 = Fail_) /\
  (exists stmt, In stmt stmts /\ has_effect "Allow" stmt /\ applies stmt caller action /\
     evaluate_conditions stmt context v2012 = Pass).
Proof.
  unfold action_permitted, has_effect. destruct (existsb _ stmts) eqn:E.
  - apply existsb_exists in E as (stmt & Hin & [He [Ha Hc]%deny_blocks_iff]%andb_prop).
    split; [done|]. intros [Hd _]. exfalso. by apply Hc, Hd.
  - rewrite existsb_exists. setoid_rewrite andb_true_iff. setoid_rewrite allow_grants_iff. split.
    + intros H. split; [|naive_solver]. intros stmt Hin He Ha.
      destruct (decide (evaluate_conditions stmt context v2012 = Fail_)) as [|Hc]; [done|].
      assert (existsb (fun stmt => eq_ignore_ascii_case (effect_of stmt) "Deny" &&
        deny_statement_blocks stmt caller context action v2012) stmts = true) as Ht; [|congruence].
      apply existsb_exists. exists stmt. split; [done|]. rewrite He. by apply deny_blocks_iff.
    + naive_solver.
Qed.

(** C27. A role may be assumed exactly when, for every action the call exercises, some
    Allow names the caller and the action and its conditions hold, and every Deny that
    names them has a condition that fails.  A Deny whose conditions cannot be
    evaluated blocks, such an Allow does not grant, and the order of the statements
    does not matter. *)
Theorem trust_decision_spec stmts caller context tagged v2012 :
  (trust_decision_for stmts caller context tagged v2012 = true <->
   forall action, In action (requested_actions tagged) ->
     (forall stmt, In stmt stmts -> has_effect "Deny" stmt -> applies stmt caller action ->
        evaluate_conditions stmt context v2012 = Fail_) /\
     (exists stmt, In stmt stmts /\ has_effect "Allow" stmt /\ applies stmt caller action /\
        evaluate_conditions stmt context v2012 = Pass)) /\
  (forall stmts', Permutation stmts stmts' ->
     trust_decision_for stmts' caller context tagged v2012 = trust_decision_for stmts caller context tagged v2012).
Proof.
  assert (forall l, trust_decision_for l caller context tagged v2012 = true <->
    forall action, In action (requested_actions tagged) -> action_permitted l caller context action v2012 = true) as H
    by (intros l; apply forallb_forall).
  setoid_rewrite action_permitted_iff in H. split; [apply H|].
  intros stmts' Hp. apply eq_true_iff_eq. rewrite !H.
  assert (forall s, In s stmts <-> In s stmts') as Hin by (intros s; split; apply Permutation_in; [done|by symmetry]).
  by setoid_rewrite Hin.
Qed.
End DecisionFacts.

(** ** What validation lets through *)

Lemma collect_results_total {E A B : Type} (f : A -> result E B) l :
  (forall x, In x l -> exists y, f x = Ok y) -> exists k, collect_results f l = Ok k.
Proof.
  induction l as [|x l IH]; simpl; intros H; [by eexists|].
  destruct (H x) as [y ->]; [by left|]. destruct IH as [k ->]; [by auto|]. by eexists.
Qed.

Lemma existsb_ext_In {A : Type} (f g : A -> bool) l : (forall x, In x l -> f x = g x) -> existsb f l = existsb g l.
Proof. induction l as [|x l IH]; simpl; intros H; [done|]. rewrite (H x), IH; auto. Qed.

Lemma known_base name :
  existsb (String.eqb name) known_operators = true -> name <> "BinaryEquals" ->
  exists op, parse_base_operator name = Ok op.
Proof.
  intros (x & Hx & ->%String.eqb_eq)%existsb_exists Hne. simpl in Hx.
  repeat (destruct Hx as [<-|Hx]; [try (eexists; reflexivity); done|]). done.
Qed.

Lemma known_operator_parses name :
  is_known_iam_condition_operator name = true -> bare_operator name <> "BinaryEquals" ->
  exists op, parse_operator name = Ok op.
Proof.
  unfold is_known_iam_condition_operator. intros Hk Hne. destruct (known_base _ Hk Hne) as [op Hop].
  unfold parse_operator. unfold bare_operator in Hop.
  destruct (str_strip_prefix "ForAllValues:" name) as [r|];
    [|destruct (str_strip_prefix "ForAnyValue:" name) as [r|]]; cbn [default from_option id] in Hop;
    destruct (strip_suffix "IfExists" _) as [b|]; cbn [default from_option id] in Hop; rewrite Hop; by eexists.
Qed.

Lemma scalar_normalized v s : scalar_to_string v = Some s -> normalize_condition_scalars v = VString s.
Proof. by destruct v; intros [= <-]. Qed.

Lemma is_scalar_Some v : is_scalar_value v = true -> exists s, scalar_to_string v = Some s.
Proof. unfold is_scalar_value. destruct (scalar_to_string v); [eauto|done]. Qed.

Lemma validated_values v :
  validate_condition_values v = Ok tt -> exists l, parse_string_or_array (normalize_condition_scalars v) = Ok l.
Proof.
  unfold validate_condition_values. destruct (is_scalar_value v) eqn:Es.
  { intros _. apply is_scalar_Some in Es as (s & ->%scalar_normalized). by eexists. }
  destruct v as [| | | |arr|]; try done. destruct (forallb is_scalar_value arr) eqn:Ea; [|done]. intros _.
  rewrite forallb_forall in Ea. cbn [normalize_condition_scalars parse_string_or_array].
  apply collect_results_total. intros x (y & <- & Hy)%in_map_iff.
  apply Ea, is_scalar_Some in Hy as (s & ->%scalar_normalized). by eexists.
Qed.

Lemma validated_condition_parses obj :
  validate_trust_condition (VObject obj) = Ok tt ->
  (forall name keys, In (name, keys) obj -> bare_operator name <> "BinaryEquals") ->
  exists cs, parse_conditions (normalize_condition_scalars (VObject obj)) = Ok cs.
Proof.
  cbn [validate_trust_condition normalize_condition_scalars parse_conditions]. rewrite for_each_Ok. intros Hv Hb.
  match goal with |- context [collect_results ?f ?l] => destruct (collect_results_total f l) as [groups ->] end.
  2: by eexists.
  intros x ([name keys] & <- & Hin)%in_map_iff. specialize (Hv _ Hin). cbn [fst snd] in *.
  destruct (is_known_iam_condition_operator name) eqn:Ek; [|done]. simpl in Hv.
  destruct (known_operator_parses name) as [op ->]; [done|by eapply Hb|].
  destruct keys as [| | | | |keys]; try done. simpl. rewrite for_each_Ok in Hv.
  apply collect_results_total. intros kv ([k v] & <- & Hk)%in_map_iff. cbn [fst snd].
  apply Hv, validated_values in Hk as [l Hl]. cbn [snd] in Hl. rewrite Hl. by eexists.
Qed.

Lemma non_null_Some o v : non_null o = Some v -> o = Some v.
Proof. destruct o as [w|]; simpl; [|done]. by destruct (is_null w). Qed.

Lemma validated_statements doc stmts stmt :
  validate_trust_policy doc = Ok tt -> statements_vec doc = Some stmts -> In stmt stmts ->
  validate_trust_statement stmt = Ok tt.
Proof.
  unfold validate_trust_policy. intros H Es Hin. rewrite Es in H. destruct (bool_decide _); [done|].
  destruct (json_has_char_above_latin1 doc); [done|]. destruct (for_each _ stmts) as [[]|]; [|done].
  rewrite for_each_Ok in H. by apply H.
Qed.

(** The parts of a statement that each check looks at. *)
Lemma validated_parts stmt :
  validate_trust_statement stmt = Ok tt ->
  validate_trust_effect stmt = Ok tt /\
  (exists p, json_get stmt "Principal" = Some p /\ validate_trust_principal p = Ok tt) /\
  (exists a, validate_trust_actions a = Ok tt /\
     (json_get stmt "Action" = Some a \/
      non_null (json_get stmt "Action") = None /\ json_get stmt "NotAction" = Some a)) /\
  (forall c, non_null (json_get stmt "Condition") = Some c -> validate_trust_condition c = Ok tt).
Proof.
  unfold validate_trust_statement. intros H.
  destruct (validate_trust_effect stmt) as [[]|]; [|done].
  destruct (is_some (non_null (json_get stmt "NotPrincipal"))); [done|].
  destruct (non_null (json_get stmt "Principal")) as [p|] eqn:Ep; [|done].
  destruct (validate_trust_principal p) as [[]|] eqn:Evp; [|done].
  split; [done|]. split; [exists p; split; [by apply non_null_Some|done]|].
  destruct (non_null (json_get stmt "Action")) as [a|] eqn:Ea, (non_null (json_get stmt "NotAction")) as [b|] eqn:Eb;
    try done; destruct (validate_trust_actions _) as [[]|] eqn:Eva; try done;
    (destruct (_ || _); [done|]); (split; [eexists; split; [exact Eva|]|]).
  - left. by apply non_null_Some.
  - by intros c Ec; rewrite Ec in H.
  - right. split; [done|]. by apply non_null_Some.
  - by intros c Ec; rewrite Ec in H.
Qed.

Lemma non_null_action o : non_null o = None -> action_list o = None.
Proof. destruct o as [v|]; [|done]. by destruct v. Qed.

Lemma effect_known stmt : validate_trust_effect stmt = Ok tt -> has_effect "Allow" stmt \/ has_effect "Deny" stmt.
Proof.
  unfold validate_trust_effect, has_effect, effect_of. destruct (json_get stmt "Effect") as [e|]; simpl; [|done].
  destruct (as_str e) as [s|]; simpl; [|done]. intros H.
  destruct (eq_ignore_ascii_case s "Allow"); [by left|]. destruct (eq_ignore_ascii_case s "Deny"); [by right|done].
Qed.

Lemma action_pattern_exact p action :
  In (to_ascii_lowercase p) STS_TRUST_ACTIONS -> action_pattern_matches p action = eq_ignore_ascii_case p action.
Proof.
  unfold action_pattern_matches, eq_ignore_ascii_case. by intros [<-|[<-|[<-|[]]]].
Qed.

Lemma validated_actions a :
  validate_trust_actions a = Ok tt ->
  exists l, texts a l /\ l <> [] /\ action_list (Some a) = Some l /\
    forall action, existsb (fun p => action_pattern_matches p action) l = existsb (fun p => eq_ignore_ascii_case p action) l.
Proof.
  unfold validate_trust_actions. intros H. case_bind H. rename a0 into l.
  assert (texts a l /\ action_list (Some a) = Some l) as [Ht Hl].
  { destruct a as [| | |s|arr|]; try done; unfold texts; simpl in *; [inv_ok; eauto|].
    apply collect_as_str in E as ->. by rewrite omap_as_str; auto. }
  destruct (bool_decide_reflect (l = [])); [done|]. exists l. split; [done|]. split; [done|]. split; [done|].
  intros action. rewrite for_each_Ok in H. apply existsb_ext_In. intros p Hp. apply action_pattern_exact.
  apply H in Hp. destruct (existsb _ STS_TRUST_ACTIONS) eqn:Ee; [|done].
  by apply existsb_exists in Ee as (x & Hx & ->%String.eqb_eq).
Qed.

(** C28. What is accepted when a trust policy is written is what its evaluation
    understands.  Every statement has one of the two effects and a principal object;
    its actions are compared exactly, up to case, as no pattern is accepted; and its
    conditions parse, unless one uses [BinaryEquals], the one operator that is accepted
    and not evaluated. *)
Theorem validated_trust_policy doc stmts stmt :
  validate_trust_policy doc = Ok tt -> statements_vec doc = Some stmts -> In stmt stmts ->
  (has_effect "Allow" stmt \/ has_effect "Deny" stmt) /\
  (exists o, json_index stmt "Principal" = VObject o) /\
  (exists a l, texts a l /\ l <> [] /\
     (json_get stmt "Action" = Some a /\
      (forall action, trust_action_matches stmt action = existsb (fun p => eq_ignore_ascii_case p action) l) \/
      json_get stmt "NotAction" = Some a /\
      (forall action, trust_action_matches stmt action = negb (existsb (fun p => eq_ignore_ascii_case p action) l)))) /\
  ((forall name keys, In (name, keys) (entries (json_index stmt "Condition")) -> bare_operator name <> "BinaryEquals") ->
   exists cs, parse_conditions (normalize_condition_scalars (json_index stmt "Condition")) = Ok cs).
Proof.
  intros Hd Hs Hin.
  destruct (validated_parts _ (validated_statements _ _ _ Hd Hs Hin)) as (He & (p & Hp & Hvp) & (a & Ha & Hact) & Hc).
  split; [by apply effect_known|]. split.
  { unfold json_index. rewrite Hp. simpl. destruct p; try done. eauto. }
  split.
  { destruct (validated_actions a Ha) as (l & Ht & Hne & Hl & Hm). exists a, l. split; [done|]. split; [done|].
    destruct Hact as [Hact|[Hnone Hact]]; [left|right]; (split; [done|]); intros action;
      unfold trust_action_matches; rewrite Hact, ?(non_null_action _ Hnone), Hl; by rewrite Hm. }
  intros Hb. unfold json_index in *. destruct (json_get stmt "Condition") as [c|] eqn:Ec; [|by eexists].
  simpl in *. destruct (is_null c) eqn:En; [destruct c; try done; by eexists|].
  specialize (Hc c eq_refl). destruct c as [| | | | |obj]; try done. by apply validated_condition_parses.
Qed.

(** ** Session tags *)

Lemma tags_have_entries t : parse_session_tags (Some t) <> ∅ -> value_has_entries t = true.
Proof.
  intros H. destruct t as [| | | |arr|obj]; simpl in *; try done.
  - destruct (bool_decide_reflect (arr = [])) as [->|]; [by destruct H|done].
  - destruct (bool_decide_reflect (obj = [])) as [->|]; [by destruct H|done].
Qed.

(** A call whose session tags can satisfy a condition is granted only under an Allow
    that names the caller and [sts:TagSession]. *)
Theorem tagged_call_needs_tag_session `{HT : Rfc3339} `{HS : Sha256} `{HC : CatalogStore}
    doc caller ext name tags region secure ip agent account now :
  parse_session_tags (Some tags) <> ∅ ->
  evaluate_trust_policy doc caller ext name (value_has_entries tags) (parse_session_tags (Some tags))
    region secure ip agent account now = true ->
  exists stmts stmt, statements_vec doc = Some stmts /\ In stmt stmts /\ has_effect "Allow" stmt /\
    applies stmt caller "sts:TagSession".
Proof.
  intros Ht%tags_have_entries. rewrite Ht. unfold evaluate_trust_policy.
  destruct (statements_vec doc) as [stmts|]; [|done].
  unfold trust_decision_for. rewrite forallb_forall. intros H.
  assert (In "sts:TagSession" (requested_actions true)) as Hin by (right; by left).
  apply H, action_permitted_iff in Hin as [_ (stmt & ? & ? & ? & _)]. eauto 8.
Qed.

(** ** Witnesses *)

#[local] Instance no_rfc3339 : Rfc3339 := fun _ => None.
#[local] Instance zero_hash : Sha256 := fun _ => replicate 32 zero.
#[local] Instance empty_catalog : CatalogStore := {|
  store_caller_tags := fun _ _ => None;
  store_user_created_at := fun _ _ => Some None;
  store_role_created_at := fun _ _ => Some None
|}.

(** Users of one account may assume the role with the team as a tag. *)
Definition trust_statement : Value :=
  VObject [("Action", VArray [VString "sts:AssumeRole"; VString "sts:TagSession"]);
           ("Condition", VObject [("StringEquals", VObject [("aws:RequestTag/team", VString "blue");
                                                           ("aws:PrincipalType", VString "User")])]);
           ("Effect", VString "Allow");
           ("Principal", VObject [("AWS", VString "123456789012")])].

Definition trust_document : Value :=
  VObject [("Statement", trust_statement); ("Version", VString "2012-10-17")].

Definition team_tags : Value := VArray [VObject [("Key", VString "team"); ("Value", VString "blue")]].

Lemma validated_trust_policy_witness :
  validate_trust_policy trust_document = Ok tt /\
  exists cs, parse_conditions (normalize_condition_scalars (json_index trust_statement "Condition")) = Ok cs.
Proof.
  assert (validate_trust_policy trust_document = Ok tt) as Hv by (vm_compute; reflexivity).
  split; [exact Hv|].
  apply (validated_trust_policy trust_document [trust_statement] trust_statement);
    [exact Hv|reflexivity|left; reflexivity|].
  intros name keys [[= <- _]|[]]. vm_compute. discriminate.
Defined.

Lemma tagged_call_needs_tag_session_witness :
  exists stmts stmt, statements_vec trust_document = Some stmts /\ In stmt stmts /\ has_effect "Allow" stmt /\
    applies stmt "arn:aws:iam::123456789012:user/alice" "sts:TagSession".
Proof.
  apply (tagged_call_needs_tag_session trust_document "arn:aws:iam::123456789012:user/alice" None "s1" team_tags
    "us-east-1" true None None "123456789012" ("", "")); [vm_compute; discriminate|vm_compute; reflexivity].
Defined.
