(* ===== verification/SwrCache.v ===== *)
(** * The stale-while-revalidate cache

    [crates/cache/src/swr.rs] and [entry.rs], the cache in front of credentials, policies
    and tables: lookups with two expiries, loads shared by concurrent callers, refreshes
    in the background, and invalidations, as a machine that runs any number of callers
    and tasks one atomic step at a time.  The [moka] cache is a parameter with its
    documented laws; its [try_get_with] runs one load per key and hands the outcome to
    all who wait.  Counters for metrics are left out. *)

From S2P Require Import Prelude.

(** ** Configuration *)

(** Durations are in nanoseconds. *)
Record SwrCacheConfig : Type := {
  ttl : N;
  soft_ttl : N;
  negative_ttl : N;
  max_entries : N
}.

Inductive ConfigError : Type := ZeroTtl | ZeroMaxEntries | SoftTtlExceedsTtl | NegativeTtlExceedsTtl.

Definition validate_config (c : SwrCacheConfig) : result ConfigError unit :=
  if (ttl c =? 0)%N then Err ZeroTtl
  else if (max_entries c =? 0)%N then Err ZeroMaxEntries
  else if (ttl c <? soft_ttl c)%N then Err SoftTtlExceedsTtl
  else if (ttl c <? negative_ttl c)%N then Err NegativeTtlExceedsTtl
  else Ok tt.

(** ** Entries *)

(** An entry is shared: [en_id] is its identity, and its [refresh_in_flight] is kept by
    the machine.  [en_loaded] is the epoch in which the loader read the value; the code
    does not have it. *)
Record Entry (V : Type) : Type := {
  en_id : nat;
  en_value : option V;
  en_fetched_at : N;
  en_loaded : nat
}.
Arguments en_id {V}.
Arguments en_value {V}.
Arguments en_fetched_at {V}.
Arguments en_loaded {V}.

(** What [get] finds. *)
Inductive Found : Type := Hit | NegativeHit | StaleHit | Expired.

Definition classify {V : Type} (c : SwrCacheConfig) (now : N) (entry : Entry V) : Found :=
  let age := (now - en_fetched_at entry)%N in
  let entry_ttl := if is_some (en_value entry) then ttl c else negative_ttl c in
  if (age <? entry_ttl)%N then
    if negb (is_some (en_value entry)) then NegativeHit
    else if (age <? soft_ttl c)%N then Hit
    else StaleHit
  else Expired.

(** ** The underlying cache *)

Inductive Invalidation (K V : Type) : Type :=
  | InvalidateKey (k : K)
  | InvalidateIf (key_predicate : K -> bool)
  | InvalidateIfValue (value_predicate : option V -> bool)
  | InvalidateAll.
Arguments InvalidateKey {K V}.
Arguments InvalidateIf {K V}.
Arguments InvalidateIfValue {K V}.
Arguments InvalidateAll {K V}.

Class Moka (K V : Type) : Type := {
  moka : Type;
  moka_new : moka;
  moka_get : K -> moka -> option (Entry V);
  moka_insert : K -> Entry V -> moka -> moka;
  moka_invalidate : K -> moka -> moka;
  moka_invalidate_entries_if : (K -> Entry V -> bool) -> moka -> moka;
  moka_invalidate_all : moka -> moka;
  moka_evict : K -> moka -> moka
}.

(** What is found was inserted and not removed since; a cache may also drop an entry on
    its own, at its capacity or its age. *)
Class MokaLaws (K V : Type) `{Moka K V} : Prop := {
  moka_get_new : forall k, moka_get k moka_new = None;
  moka_get_insert : forall k k' e e' m, moka_get k' (moka_insert k e m) = Some e' ->
    (k' = k /\ e' = e) \/ (k' <> k /\ moka_get k' m = Some e');
  moka_get_invalidate : forall k k' e m, moka_get k' (moka_invalidate k m) = Some e ->
    k' <> k /\ moka_get k' m = Some e;
  moka_get_invalidate_if : forall p k e m, moka_get k (moka_invalidate_entries_if p m) = Some e ->
    p k e = false /\ moka_get k m = Some e;
  moka_get_invalidate_all : forall k m, moka_get k (moka_invalidate_all m) = None;
  moka_get_evict : forall k k' e m, moka_get k' (moka_evict k m) = Some e -> moka_get k' m = Some e
}.

(** ** The machine *)

Section Swr.
Context {K V E : Type} `{!EqDecision K} `{!Countable K} `{HM : !Moka K V}.
Context (config : SwrCacheConfig).
Implicit Types (k : K) (e : Entry V) (t : nat).

(** Where a caller or a task stands, each point before one atomic step of the code. *)
Inductive Pc : Type :=
  (* get *)
  | AtGet (k : K)
  | AtLookup (k : K) (now : N)
  | AtSpawn (k : K) (e : Entry V)
  (* load_single_flight *)
  | AtMiss (k : K)
  | AtEpoch (k : K)
  | AtTryGetWith (k : K) (epoch_before : nat)
  | AtLoad (k : K) (epoch_before : nat)
  | AtLoadResult (k : K) (epoch_before read : nat) (r : result E (option V))
  | AtWait (k : K) (epoch_before leader : nat)
  | AtInserted (k : K) (epoch_before : nat) (e : Entry V)
  | AtDrop (k : K) (e : Entry V)
  | Returned (k : K) (r : result E (option V))
  (* the task of maybe_spawn_refresh *)
  | AtRefresh (k : K) (e : Entry V) (epoch_before : nat)
  | AtRefreshResult (k : K) (e : Entry V) (epoch_before read : nat) (r : result E (option V))
  | AtIdentity (k : K) (e : Entry V) (read : nat) (v : option V)
  | AtReplace (k : K) (e : Entry V) (read : nat) (v : option V)
  | AtClear (e : Entry V)
  (* the invalidations *)
  | AtBump (i : Invalidation K V)
  | AtApply (epoch : nat) (i : Invalidation K V)
  | Finished.

(** [st_flags]: the entries whose [refresh_in_flight] is set.  [st_flights] and
    [st_outcomes]: the loads of [try_get_with] in flight by their key, and what a load
    that is over hands to those who wait.  [st_invalidations]: the invalidations that
    are complete, each with the epoch it began; the code does not have it. *)
Record St : Type := {
  st_moka : moka (K := K) (V := V);
  st_epoch : nat;
  st_now : N;
  st_flags : gset nat;
  st_next_id : nat;
  st_next_task : nat;
  st_tasks : gmap nat Pc;
  st_flights : gmap K nat;
  st_outcomes : gmap nat (result E (Entry V));
  st_invalidations : list (nat * Invalidation K V)
}.

Definition initial : St :=
  {| st_moka := moka_new; st_epoch := 0; st_now := 0; st_flags := ∅; st_next_id := 0; st_next_task := 0;
     st_tasks := ∅; st_flights := ∅; st_outcomes := ∅; st_invalidations := [] |}.

Definition set_moka (m : moka) (s : St) : St :=
  {| st_moka := m; st_epoch := st_epoch s; st_now := st_now s; st_flags := st_flags s;
     st_next_id := st_next_id s; st_next_task := st_next_task s; st_tasks := st_tasks s;
     st_flights := st_flights s; st_outcomes := st_outcomes s; st_invalidations := st_invalidations s |}.

Definition set_flags (flags : gset nat) (s : St) : St :=
  {| st_moka := st_moka s; st_epoch := st_epoch s; st_now := st_now s; st_flags := flags;
     st_next_id := st_next_id s; st_next_task := st_next_task s; st_tasks := st_tasks s;
     st_flights := st_flights s; st_outcomes := st_outcomes s; st_invalidations := st_invalidations s |}.

Definition go t (pc : Pc) (s : St) : St :=
  {| st_moka := st_moka s; st_epoch := st_epoch s; st_now := st_now s; st_flags := st_flags s;
     st_next_id := st_next_id s; st_next_task := st_next_task s; st_tasks := <[t := pc]> (st_tasks s);
     st_flights := st_flights s; st_outcomes := st_outcomes s; st_invalidations := st_invalidations s |}.

(** A new task. *)
Definition spawn (pc : Pc) (s : St) : St :=
  {| st_moka := st_moka s; st_epoch := st_epoch s; st_now := st_now s; st_flags := st_flags s;
     st_next_id := st_next_id s; st_next_task := S (st_next_task s);
     st_tasks := <[st_next_task s := pc]> (st_tasks s);
     st_flights := st_flights s; st_outcomes := st_outcomes s; st_invalidations := st_invalidations s |}.

Definition set_flights (flights : gmap K nat) (s : St) : St :=
  {| st_moka := st_moka s; st_epoch := st_epoch s; st_now := st_now s; st_flags := st_flags s;
     st_next_id := st_next_id s; st_next_task := st_next_task s; st_tasks := st_tasks s;
     st_flights := flights; st_outcomes := st_outcomes s; st_invalidations := st_invalidations s |}.

(** The load of [t] is over. *)
Definition land t k (outcome : result E (Entry V)) (s : St) : St :=
  {| st_moka := st_moka s; st_epoch := st_epoch s; st_now := st_now s; st_flags := st_flags s;
     st_next_id := st_next_id s; st_next_task := st_next_task s; st_tasks := st_tasks s;
     st_flights := delete k (st_flights s); st_outcomes := <[t := outcome]> (st_outcomes s);
     st_invalidations := st_invalidations s |}.

(** [Entry::new], and the insertion of the entry. *)
Definition new_entry (s : St) (read : nat) (value : option V) : Entry V :=
  {| en_id := st_next_id s; en_value := value; en_fetched_at := st_now s; en_loaded := read |}.

Definition insert_entry k e (s : St) : St :=
  {| st_moka := moka_insert k e (st_moka s); st_epoch := st_epoch s; st_now := st_now s; st_flags := st_flags s;
     st_next_id := S (st_next_id s); st_next_task := st_next_task s; st_tasks := st_tasks s;
     st_flights := st_flights s; st_outcomes := st_outcomes s; st_invalidations := st_invalidations s |}.

(** The lookup of [get], with [maybe_spawn_refresh] up to its compare-and-swap. *)
Definition lookup t k (now : N) (s : St) : St :=
  match moka_get k (st_moka s) with
  | Some e =>
      match classify config now e with
      | Hit | NegativeHit => go t (Returned k (Ok (en_value e))) s
      | StaleHit =>
          if decide (en_id e ∈ st_flags s) then go t (Returned k (Ok (en_value e))) s
          else go t (AtSpawn k e) (set_flags ({[en_id e]} ∪ st_flags s) s)
      | Expired => go t (AtMiss k) s
      end
  | None => go t (AtMiss k) s
  end.

(** [load_single_flight]. *)
Definition try_get_with t k (epoch_before : nat) (s : St) : St :=
  match moka_get k (st_moka s) with
  | Some e => go t (AtInserted k epoch_before e) s
  | None =>
      match st_flights s !! k with
      | Some leader => go t (AtWait k epoch_before leader) s
      | None => go t (AtLoad k epoch_before) (set_flights (<[k := t]> (st_flights s)) s)
      end
  end.

Definition finish_load t k (epoch_before read : nat) (r : result E (option V)) (s : St) : St :=
  match r with
  | Ok value =>
      let e := new_entry s read value in
      go t (AtInserted k epoch_before e) (land t k (Ok e) (insert_entry k e s))
  | Err x => go t (Returned k (Err x)) (land t k (Err x) s)
  end.

(** The task of a refresh, from what the loader returned. *)
Definition refresh_result t k e (epoch_before read : nat) (r : result E (option V)) (s : St) : St :=
  match r with
  | Ok value => if st_epoch s =? epoch_before then go t (AtIdentity k e read value) s else go t (AtClear e) s
  | Err _ => go t (AtClear e) s
  end.

Definition still_ours k e (s : St) : bool :=
  match moka_get k (st_moka s) with
  | Some cur => en_id cur =? en_id e
  | None => false
  end.

(** The entries an invalidation is about. *)
Definition covers (i : Invalidation K V) k (value : option V) : bool :=
  match i with
  | InvalidateKey k' => bool_decide (k = k')
  | InvalidateIf p => p k
  | InvalidateIfValue p => p value
  | InvalidateAll => true
  end.

Definition apply_invalidation (i : Invalidation K V) (m : moka) : moka :=
  match i with
  | InvalidateKey k => moka_invalidate k m
  | InvalidateIf p => moka_invalidate_entries_if (fun k _ => p k) m
  | InvalidateIfValue p => moka_invalidate_entries_if (fun _ e => p (en_value e)) m
  | InvalidateAll => moka_invalidate_all m
  end.

Definition bump (s : St) : St :=
  {| st_moka := st_moka s; st_epoch := S (st_epoch s); st_now := st_now s; st_flags := st_flags s;
     st_next_id := st_next_id s; st_next_task := st_next_task s; st_tasks := st_tasks s;
     st_flights := st_flights s; st_outcomes := st_outcomes s; st_invalidations := st_invalidations s |}.

Definition complete (n : nat) (i : Invalidation K V) (s : St) : St :=
  {| st_moka := apply_invalidation i (st_moka s); st_epoch := st_epoch s; st_now := st_now s;
     st_flags := st_flags s; st_next_id := st_next_id s; st_next_task := st_next_task s; st_tasks := st_tasks s;
     st_flights := st_flights s; st_outcomes := st_outcomes s;
     st_invalidations := (n, i) :: st_invalidations s |}.

(** One step of a task; none while it waits for a loader or another task. *)
Definition run_task t (pc : Pc) (s : St) : option St :=
  match pc with
  | AtGet k => Some (go t (AtLookup k (st_now s)) s)
  | AtLookup k now => Some (lookup t k now s)
  | AtSpawn k e => Some (go t (Returned k (Ok (en_value e))) (spawn (AtRefresh k e (st_epoch s)) s))
  | AtMiss k => Some (go t (AtEpoch k) (set_moka (moka_invalidate k (st_moka s)) s))
  | AtEpoch k => Some (go t (AtTryGetWith k (st_epoch s)) s)
  | AtTryGetWith k epoch_before => Some (try_get_with t k epoch_before s)
  | AtLoadResult k epoch_before read r => Some (finish_load t k epoch_before read r s)
  | AtWait k epoch_before leader =>
      match st_outcomes s !! leader with
      | Some (Ok e) => Some (go t (AtInserted k epoch_before e) s)
      | Some (Err x) => Some (go t (Returned k (Err x)) s)
      | None => None
      end
  | AtInserted k epoch_before e =>
      if st_epoch s =? epoch_before then Some (go t (Returned k (Ok (en_value e))) s)
      else Some (go t (AtDrop k e) s)
  | AtDrop k e => Some (go t (Returned k (Ok (en_value e))) (set_moka (moka_invalidate k (st_moka s)) s))
  | AtRefreshResult k e epoch_before read r => Some (refresh_result t k e epoch_before read r s)
  | AtIdentity k e read v =>
      if still_ours k e s then Some (go t (AtReplace k e read v) s) else Some (go t (AtClear e) s)
  | AtReplace k e read v => Some (go t (AtClear e) (insert_entry k (new_entry s read v) s))
  | AtClear e => Some (go t Finished (set_flags (st_flags s ∖ {[en_id e]}) s))
  | AtBump i => Some (go t (AtApply (S (st_epoch s)) i) (bump s))
  | AtApply n i => Some (go t Finished (complete n i s))
  | AtLoad _ _ | AtRefresh _ _ _ | Returned _ _ | Finished => None
  end.

(** What happens next: a call of [get] or of an invalidation, a step of a task, a loader
    that answers, time that passes, an entry that [moka] drops. *)
Inductive Label : Type :=
  | Call (k : K)
  | CallInvalidate (i : Invalidation K V)
  | Run (t : nat)
  | LoaderReturns (t : nat) (r : result E (option V))
  | Tick (d : N)
  | Evict (k : K).

Definition step (l : Label) (s : St) : option St :=
  match l with
  | Call k => Some (spawn (AtGet k) s)
  | CallInvalidate i => Some (spawn (AtBump i) s)
  | Run t => pc ← st_tasks s !! t; run_task t pc s
  | LoaderReturns t r =>
      match st_tasks s !! t with
      | Some (AtLoad k epoch_before) => Some (go t (AtLoadResult k epoch_before (st_epoch s) r) s)
      | Some (AtRefresh k e epoch_before) => Some (go t (AtRefreshResult k e epoch_before (st_epoch s) r) s)
      | _ => None
      end
  | Tick d => Some
      {| st_moka := st_moka s; st_epoch := st_epoch s; st_now := st_now s + d; st_flags := st_flags s;
         st_next_id := st_next_id s; st_next_task := st_next_task s; st_tasks := st_tasks s;
         st_flights := st_flights s; st_outcomes := st_outcomes s; st_invalidations := st_invalidations s |}
  | Evict k => Some (set_moka (moka_evict k (st_moka s)) s)
  end.

(** The states that steps lead to, each allowed where it is taken. *)
Inductive reachable (allowed : Label -> St -> Prop) : St -> Prop :=
  | reach_initial : reachable allowed initial
  | reach_step s l s' : reachable allowed s -> allowed l s -> step l s = Some s' -> reachable allowed s'.

(** ** Freshness *)

(** The value was read before an invalidation that is complete and covers it. *)
Definition stale (s : St) k e : Prop :=
  exists n i, In (n, i) (st_invalidations s) /\ en_loaded e < n /\ covers i k (en_value e) = true.

(** A load that put the entry there has still to look at the epoch, or to drop it. *)
Definition owes (pc : Pc) k e : Prop :=
  pc = AtDrop k e \/ exists epoch_before, pc = AtInserted k epoch_before e /\ epoch_before <= en_loaded e.

(** An invalidation completes between the moment a refresh compares the epoch and the
    moment it inserts what it has read. *)
Definition crosses (l : Label) (s : St) : Prop :=
  exists t n i t' k e read v, l = Run t /\ st_tasks s !! t = Some (AtApply n i)
    /\ (st_tasks s !! t' = Some (AtIdentity k e read v) \/ st_tasks s !! t' = Some (AtReplace k e read v))
    /\ covers i k v = true.

Definition not_covered (s : St) k (read : nat) (v : option V) : Prop :=
  forall n i, In (n, i) (st_invalidations s) -> covers i k v = true -> n <= read.

Definition pc_ok (s : St) (pc : Pc) : Prop :=
  match pc with
  | AtTryGetWith _ epoch_before | AtLoad _ epoch_before | AtRefresh _ _ epoch_before => epoch_before <= st_epoch s
  | AtLoadResult _ epoch_before read _ | AtRefreshResult _ _ epoch_before read _ =>
      epoch_before <= read /\ read <= st_epoch s
  | AtIdentity k _ read v | AtReplace k _ read v => not_covered s k read v
  | AtApply n _ => n <= st_epoch s
  | _ => True
  end.

Record fresh_inv (s : St) : Prop := {
  fi_epochs : forall n i, In (n, i) (st_invalidations s) -> n <= st_epoch s;
  fi_next : forall t pc, st_tasks s !! t = Some pc -> t < st_next_task s;
  fi_tasks : forall t pc, st_tasks s !! t = Some pc -> pc_ok s pc;
  fi_owed : forall k e, moka_get k (st_moka s) = Some e -> stale s k e ->
    exists t pc, st_tasks s !! t = Some pc /\ owes pc k e
}.

Lemma pc_ok_mono s s' pc : st_epoch s <= st_epoch s' -> st_invalidations s' = st_invalidations s ->
  pc_ok s pc -> pc_ok s' pc.
Proof. intros He Hi. destruct pc; simpl; unfold not_covered; rewrite ?Hi; try done; lia. Qed.

Lemma stale_same s s' k e : st_invalidations s' = st_invalidations s -> stale s' k e -> stale s k e.
Proof. unfold stale. by intros ->. Qed.

(** A task takes a step. *)
Lemma fresh_go s s' t pc pc' : fresh_inv s -> st_tasks s !! t = Some pc ->
  st_tasks s' = <[t := pc']> (st_tasks s) -> st_next_task s' = st_next_task s ->
  st_epoch s <= st_epoch s' -> st_invalidations s' = st_invalidations s -> pc_ok s' pc' ->
  (forall k e, moka_get k (st_moka s') = Some e -> stale s k e -> moka_get k (st_moka s) = Some e \/ owes pc' k e) ->
  (forall k e, owes pc k e -> moka_get k (st_moka s') = Some e -> stale s k e -> owes pc' k e) ->
  fresh_inv s'.
Proof.
  intros [H1 H2 H3 H4] Hpc Ht Hn He Hi Hok Hget Howes. split.
  - intros n i. rewrite Hi. intros Hin. specialize (H1 n i Hin). lia.
  - intros t0 pc0. rewrite Ht, Hn. intros [[<- <-]|[? ?]]%lookup_insert_Some; eauto.
  - intros t0 pc0. rewrite Ht. intros [[<- <-]|[? ?]]%lookup_insert_Some; [done|]. eapply pc_ok_mono; eauto.
  - intros k e Hg Hst%(stale_same s); [|done]. rewrite Ht. destruct (Hget k e Hg Hst) as [Hg'|Ho].
    + destruct (H4 k e Hg' Hst) as (t0 & pc0 & Ht0 & Ho). destruct (decide (t0 = t)) as [->|Hne].
      * exists t, pc'. rewrite lookup_insert_eq. split; [done|]. apply Howes; [|done..]. congruence.
      * exists t0, pc0. rewrite lookup_insert_ne by done. done.
    + exists t, pc'. by rewrite lookup_insert_eq.
Qed.

(** A task begins. *)
Lemma fresh_spawn s pc : fresh_inv s -> pc_ok s pc -> fresh_inv (spawn pc s).
Proof.
  intros [H1 H2 H3 H4] Hok. split; simpl.
  - done.
  - intros t pc0 [[<- <-]|[? Ht]]%lookup_insert_Some; [lia|]. specialize (H2 _ _ Ht). lia.
  - intros t pc0 [[<- <-]|[? Ht]]%lookup_insert_Some; [by eapply pc_ok_mono; [| |exact Hok]|].
    eapply pc_ok_mono; [| |exact (H3 _ _ Ht)]; done.
  - intros k e Hg Hst. destruct (H4 k e Hg Hst) as (t & pc0 & Ht & Ho). exists t, pc0.
    rewrite lookup_insert_ne; [done|]. specialize (H2 _ _ Ht). lia.
Qed.

Context `{HL : !MokaLaws K V}.

Lemma not_owes pc k e : match pc with AtDrop _ _ | AtInserted _ _ _ => False | _ => True end -> ~ owes pc k e.
Proof. intros Hpc [->|(? & -> & _)]; done. Qed.

(** The steps that change nothing but where the task stands, or drop entries. *)
Ltac fresh_move :=
  match goal with
  | Hinv : fresh_inv ?s, Hpc : st_tasks ?s !! ?t = Some _ |- fresh_inv _ =>
      eapply (fresh_go s _ t _ _ Hinv Hpc); [reflexivity|reflexivity|simpl; lia|reflexivity|..]
  end.

Lemma kept s k e pc : moka_get k (st_moka s) = Some e -> stale s k e -> moka_get k (st_moka s) = Some e \/ owes pc k e.
Proof. by left. Qed.

Ltac no_debt := let Ho := fresh in intros ? ? Ho _ _; by apply not_owes in Ho.

Lemma fresh_lookup t k now s : fresh_inv s -> st_tasks s !! t = Some (AtLookup k now) -> fresh_inv (lookup t k now s).
Proof.
  intros Hinv Hpc. unfold lookup.
  destruct (moka_get k (st_moka s)) as [e|]; [destruct (classify config now e); [| |case_decide|]|];
    fresh_move; try done; eauto using kept; try no_debt.
Qed.

Lemma fresh_try_get_with t k eb s : fresh_inv s -> st_tasks s !! t = Some (AtTryGetWith k eb) ->
  fresh_inv (try_get_with t k eb s).
Proof.
  intros Hinv Hpc. pose proof (fi_tasks s Hinv _ _ Hpc) as Hok. simpl in Hok. unfold try_get_with.
  destruct (moka_get k (st_moka s)); [|destruct (st_flights s !! k)];
    fresh_move; try done; eauto using kept; try no_debt.
Qed.

Lemma fresh_finish_load t k eb read r s : fresh_inv s -> st_tasks s !! t = Some (AtLoadResult k eb read r) ->
  fresh_inv (finish_load t k eb read r s).
Proof.
  intros Hinv Hpc. destruct (fi_tasks s Hinv _ _ Hpc) as [Hle _]. unfold finish_load. destruct r as [v|x].
  - fresh_move; [done| |no_debt].
    intros k' e' [[-> ->]|[_ Hg]]%moka_get_insert _; [|by left]. right. right. exists eb. split; [done|exact Hle].
  - fresh_move; try done; eauto using kept; try no_debt.
Qed.

Lemma fresh_inserted t k eb e s : fresh_inv s -> st_tasks s !! t = Some (AtInserted k eb e) ->
  fresh_inv (if st_epoch s =? eb then go t (Returned k (Ok (en_value e))) s else go t (AtDrop k e) s).
Proof.
  intros Hinv Hpc. destruct (Nat.eqb_spec (st_epoch s) eb) as [Ee|Ne]; fresh_move; try done; eauto using kept.
  - intros k' e' [?|(eb' & [= -> <- ->] & Hle)] _ (n & i & Hin & Hlt & _); [done|].
    pose proof (fi_epochs s Hinv n i Hin). lia.
  - intros k' e' [?|(eb' & [= -> <- ->] & Hle)] _ _; [done|]. by left.
Qed.

Lemma fresh_refresh_result t k e eb read r s : fresh_inv s ->
  st_tasks s !! t = Some (AtRefreshResult k e eb read r) -> fresh_inv (refresh_result t k e eb read r s).
Proof.
  intros Hinv Hpc. destruct (fi_tasks s Hinv _ _ Hpc) as [H1 H2]. unfold refresh_result.
  destruct r as [v|x]; [destruct (Nat.eqb_spec (st_epoch s) eb) as [Ee|Ne]|]; fresh_move; try done; eauto using kept;
    try no_debt.
  intros n i Hin _. pose proof (fi_epochs s Hinv n i Hin). lia.
Qed.

Lemma apply_invalidation_get i k e m : moka_get k (apply_invalidation i m) = Some e ->
  covers i k (en_value e) = false /\ moka_get k m = Some e.
Proof.
  destruct i; simpl.
  - intros [Hne Hg]%moka_get_invalidate. by rewrite bool_decide_eq_false_2.
  - by intros [? ?]%moka_get_invalidate_if.
  - by intros [? ?]%moka_get_invalidate_if.
  - by rewrite moka_get_invalidate_all.
Qed.

Lemma fresh_complete t n i s : fresh_inv s -> st_tasks s !! t = Some (AtApply n i) -> ~ crosses (Run t) s ->
  fresh_inv (go t Finished (complete n i s)).
Proof.
  intros Hinv Hpc Hx. pose proof (fi_tasks s Hinv _ _ Hpc) as Hn. destruct Hinv as [H1 H2 H3 H4]. split; simpl.
  - intros n' i' [[= <- <-]|Hin]; [done|by eapply H1].
  - intros t' pc [[<- <-]|[? ?]]%lookup_insert_Some; eauto.
  - intros t' pc [[<- <-]|[? Ht]]%lookup_insert_Some; [done|]. specialize (H3 _ _ Ht).
    assert (Hc : forall k e read v, pc = AtIdentity k e read v \/ pc = AtReplace k e read v ->
      not_covered s k read v -> not_covered (go t Finished (complete n i s)) k read v).
    { intros k e read v Hpc' Hnc n' i' [[= <- <-]|Hin] Hcov; [|by eapply Hnc].
      destruct Hx. exists t, n, i, t', k, e, read, v. split; [done|]. split; [done|]. split; [|done].
      destruct Hpc'; [left|right]; congruence. }
    destruct pc; simpl in *; eauto.
  - intros k e [Hcov Hg]%apply_invalidation_get (n' & i' & Hin & Hlt & Hcov').
    destruct Hin as [[= <- <-]|Hin]; [congruence|].
    destruct (H4 k e Hg) as (t0 & pc & Ht0 & Ho); [by exists n', i'|]. exists t0, pc.
    rewrite lookup_insert_ne; [done|]. intros <-. rewrite Hpc in Ht0. injection Ht0 as <-. by apply not_owes in Ho.
Qed.

Lemma fresh_run_task t pc s s' : fresh_inv s -> st_tasks s !! t = Some pc -> ~ crosses (Run t) s ->
  run_task t pc s = Some s' -> fresh_inv s'.
Proof.
  intros Hinv Hpc Hx Hrun. destruct pc; simpl in Hrun; try done.
  - injection Hrun as <-. fresh_move; try done; try (simpl; lia); eauto using kept; try no_debt.
  - injection Hrun as <-. by apply fresh_lookup.
  - injection Hrun as <-. pose proof (fi_next s Hinv _ _ Hpc) as Hlt.
    eapply (fresh_go (spawn (AtRefresh k e (st_epoch s)) s) _ t (AtSpawn k e) _);
      [apply fresh_spawn; [done|simpl; lia]| |reflexivity|reflexivity|simpl; lia|reflexivity|done|eauto using kept|no_debt].
    simpl. rewrite lookup_insert_ne by lia. done.
  - injection Hrun as <-. fresh_move; try done; try (simpl; lia); try no_debt. intros k' e' [_ Hg]%moka_get_invalidate _. by left.
  - injection Hrun as <-. fresh_move; try done; try (simpl; lia); eauto using kept; try no_debt.
  - injection Hrun as <-. by apply fresh_try_get_with.
  - injection Hrun as <-. by apply fresh_finish_load.
  - destruct (st_outcomes s !! leader) as [[e|x]|]; [| |done]; injection Hrun as <-;
      fresh_move; try done; try (simpl; lia); eauto using kept; try no_debt.
  - pose proof (fresh_inserted _ _ _ _ _ Hinv Hpc) as Hf. by destruct (st_epoch s =? epoch_before); injection Hrun as <-.
  - injection Hrun as <-. fresh_move; try done.
    + intros k' e' [_ Hg]%moka_get_invalidate _. by left.
    + intros k' e' [[= -> ->]|(? & ? & _)] Hg; [|done]. by apply moka_get_invalidate in Hg as [? _].
  - injection Hrun as <-. by apply fresh_refresh_result.
  - pose proof (fi_tasks s Hinv _ _ Hpc) as Hok.
    destruct (still_ours k e s); injection Hrun as <-; fresh_move; try done; try (simpl; lia); eauto using kept; try no_debt.
  - injection Hrun as <-. pose proof (fi_tasks s Hinv _ _ Hpc) as Hok. fresh_move; try done; try (simpl; lia); try no_debt.
    intros k' e' [[-> ->]|[_ Hg]]%moka_get_insert (n & i & Hin & Hlt & Hcov); [|by left].
    specialize (Hok n i Hin Hcov). simpl in Hlt. lia.
  - injection Hrun as <-. fresh_move; try done; try (simpl; lia); eauto using kept; try no_debt.
  - injection Hrun as <-. fresh_move; try done; try (simpl; lia); eauto using kept; try no_debt.
  - injection Hrun as <-. by apply fresh_complete.
Qed.

Lemma fresh_step l s s' : fresh_inv s -> ~ crosses l s -> step l s = Some s' -> fresh_inv s'.
Proof.
  intros Hinv Hx Hstep. destruct l; simpl in Hstep.
  - injection Hstep as <-. by apply fresh_spawn.
  - injection Hstep as <-. by apply fresh_spawn.
  - destruct (st_tasks s !! t) as [pc|] eqn:Hpc; [|done]. by eapply fresh_run_task.
  - destruct (st_tasks s !! t) as [pc|] eqn:Hpc; [|done]. pose proof (fi_tasks s Hinv _ _ Hpc) as Hok.
    destruct pc; try done; injection Hstep as <-; fresh_move; try done; try (simpl; lia); eauto using kept; no_debt.
  - injection Hstep as <-. destruct Hinv as [H1 H2 H3 H4]. by split.
  - injection Hstep as <-. destruct Hinv as [H1 H2 H3 H4]. split; try done.
    intros k' e Hg%moka_get_evict Hst. by apply H4.
Qed.

Lemma fresh_reachable s : reachable (fun l s => ~ crosses l s) s -> fresh_inv s.
Proof.
  induction 1 as [|s l s' _ IH Hx Hstep]; [|by eapply fresh_step].
  split; simpl; try done. intros k e. by rewrite moka_get_new.
Qed.

(** Nobody is between the insertion of what was loaded and the check of the epoch. *)
Definition settled_loads (s : St) : Prop :=
  forall t pc k e, st_tasks s !! t = Some pc -> ~ owes pc k e.

(** C9. An invalidation takes effect against every load: in every interleaving of
    callers, loads, refreshes, invalidations, evictions and time in which no
    invalidation completes inside the window of a refresh, once no load has still to
    compare its epoch, no entry of the cache has a value that was read before a
    completed invalidation that covers it. *)
Theorem invalidated_values_leave s k e :
  reachable (fun l s => ~ crosses l s) s -> settled_loads s -> moka_get k (st_moka s) = Some e -> ~ stale s k e.
Proof.
  intros Hr Hq Hg Hst. destruct (fi_owed s (fresh_reachable s Hr) k e Hg Hst) as (t & pc & Ht & Ho).
  by eapply Hq.
Qed.

(** ** Refreshes *)

(** The refresh of an entry is this caller's or task's. *)
Definition refreshes (pc : Pc) (id : nat) : Prop :=
  match pc with
  | AtSpawn _ e | AtRefresh _ e _ | AtRefreshResult _ e _ _ _ | AtIdentity _ e _ _ | AtReplace _ e _ _
  | AtClear e => en_id e = id
  | _ => False
  end.

Record flag_inv (s : St) : Prop := {
  fl_next : forall t pc, st_tasks s !! t = Some pc -> t < st_next_task s;
  fl_set : forall id, id ∈ st_flags s <-> exists t pc, st_tasks s !! t = Some pc /\ refreshes pc id;
  fl_one : forall id t t' pc pc', st_tasks s !! t = Some pc -> st_tasks s !! t' = Some pc' ->
    refreshes pc id -> refreshes pc' id -> t = t'
}.

Lemma flag_go s s' t pc pc' : flag_inv s -> st_tasks s !! t = Some pc ->
  st_tasks s' = <[t := pc']> (st_tasks s) -> st_next_task s' = st_next_task s ->
  (forall id, id ∈ st_flags s' <-> (id ∈ st_flags s /\ ~ refreshes pc id) \/ refreshes pc' id) ->
  (forall id, refreshes pc' id -> refreshes pc id \/ id ∉ st_flags s) -> flag_inv s'.
Proof.
  intros [H1 H2 H3] Hpc Ht Hn Hf Hnew. split.
  - intros t0 pc0. rewrite Ht, Hn. intros [[<- <-]|[? ?]]%lookup_insert_Some; eauto.
  - intros id. rewrite Hf, Ht. split.
    + intros [[(t0 & pc0 & Ht0 & Hr)%H2 Hno]|Hr]; [|by exists t, pc'; rewrite lookup_insert_eq].
      exists t0, pc0. rewrite lookup_insert_ne; [done|]. intros <-. congruence.
    + intros (t0 & pc0 & [[<- <-]|[Hne Ht0]]%lookup_insert_Some & Hr); [by right|]. left.
      split; [apply H2; eauto|]. intros Hr'. by destruct Hne; eapply (H3 id).
  - intros id t0 t1 pc0 pc1. rewrite Ht.
    intros [[<- <-]|[N0 Ht0]]%lookup_insert_Some [[<- <-]|[N1 Ht1]]%lookup_insert_Some Hr0 Hr1; [done| | |by eapply (H3 id)].
    + destruct (Hnew id Hr0) as [Hr|Hno]; [by eapply (H3 id)|]. destruct Hno. apply H2. eauto.
    + destruct (Hnew id Hr1) as [Hr|Hno]; [by eapply (H3 id)|]. destruct Hno. apply H2. eauto.
Qed.

Lemma flag_spawn s pc : flag_inv s -> (forall id, ~ refreshes pc id) -> flag_inv (spawn pc s).
Proof.
  intros [H1 H2 H3] Hpc. assert (Hne : forall t pc', st_tasks s !! t = Some pc' -> st_next_task s <> t)
    by (intros t pc' Ht; specialize (H1 t pc' Ht); lia). split; simpl.
  - intros t pc0 [[<- <-]|[? Ht]]%lookup_insert_Some; [lia|]. specialize (H1 _ _ Ht). lia.
  - intros id. rewrite H2. split.
    + intros (t & pc0 & Ht & Hr). exists t, pc0. rewrite lookup_insert_ne by eauto. done.
    + intros (t & pc0 & [[<- <-]|[? Ht]]%lookup_insert_Some & Hr); [by destruct (Hpc id)|eauto].
  - intros id t0 t1 pc0 pc1 [[<- <-]|[N0 Ht0]]%lookup_insert_Some [[<- <-]|[N1 Ht1]]%lookup_insert_Some Hr0 Hr1;
      [by destruct (Hpc id)..|by eapply (H3 id)].
Qed.

(** The refresh passes from the caller to the task. *)
Lemma flag_hand_over s t k e : flag_inv s -> st_tasks s !! t = Some (AtSpawn k e) ->
  flag_inv (go t (Returned k (Ok (en_value e))) (spawn (AtRefresh k e (st_epoch s)) s)).
Proof.
  intros [H1 H2 H3] Hpc. pose proof (H1 _ _ Hpc) as Hlt.
  assert (Hlook : forall t0 pc0, <[t := Returned k (Ok (en_value e))]>
      (<[st_next_task s := AtRefresh k e (st_epoch s)]> (st_tasks s)) !! t0 = Some pc0 ->
    (t0 < S (st_next_task s) /\ forall id, ~ refreshes pc0 id)
    \/ (t0 = st_next_task s /\ pc0 = AtRefresh k e (st_epoch s)) \/ (t0 <> t /\ st_tasks s !! t0 = Some pc0)).
  { intros t0 pc0 [[<- <-]|[Hn [[<- <-]|[? Ht]]%lookup_insert_Some]]%lookup_insert_Some; [|by auto|by auto].
    left. split; [lia|]. by intros id []. }
  split; simpl.
  - intros t0 pc0 [[? _]|[[-> _]|[_ Ht]]]%Hlook; [done|lia|]. specialize (H1 _ _ Ht). lia.
  - intros id. rewrite H2. split.
    + intros (t0 & pc0 & Ht & Hr). destruct (decide (t0 = t)) as [->|Hne].
      * rewrite Hpc in Ht. injection Ht as <-. exists (st_next_task s), (AtRefresh k e (st_epoch s)).
        rewrite lookup_insert_ne, lookup_insert_eq by lia. done.
      * exists t0, pc0. pose proof (H1 _ _ Ht). rewrite !lookup_insert_ne by lia. done.
    + intros (t0 & pc0 & [[_ Hno]|[[-> ->]|[_ Ht]]]%Hlook & Hr); [by destruct (Hno id)|by exists t, (AtSpawn k e)|eauto].
  - intros id t0 t1 pc0 pc1 [[_ Hno]|[[-> ->]|[N0 Ht0]]]%Hlook [[_ Hno']|[[-> ->]|[N1 Ht1]]]%Hlook Hr0 Hr1;
      try done; try (by destruct (Hno id)); try (by destruct (Hno' id)); [| |by eapply (H3 id)].
    + destruct N1. by eapply (H3 id _ _ _ (AtSpawn k e)).
    + destruct N0. by eapply (H3 id _ _ _ (AtSpawn k e)).
Qed.

Ltac flag_move :=
  match goal with
  | Hinv : flag_inv ?s, Hpc : st_tasks ?s !! ?t = Some ?pc |- flag_inv _ =>
      pose proof (fun id => proj2 (fl_set s Hinv id)) as Hset;
      assert (Hmine : forall id, refreshes pc id -> id ∈ st_flags s) by (intros id Hid; apply Hset; eauto);
      eapply (flag_go s _ t _ _ Hinv Hpc); [reflexivity|reflexivity|..]; simpl in *; intros id;
      try (destruct (decide (id ∈ st_flags s)); naive_solver);
      try match goal with e : Entry V |- _ => destruct (decide (en_id e = id)); naive_solver end
  end.

Lemma flag_run_task t pc s s' : flag_inv s -> st_tasks s !! t = Some pc ->
  run_task t pc s = Some s' -> flag_inv s'.
Proof.
  intros Hinv Hpc Hrun. destruct pc; simpl in Hrun; try done.
  - injection Hrun as <-. flag_move.
  - injection Hrun as <-. unfold lookup.
    destruct (moka_get k (st_moka s)) as [e|]; [destruct (classify config now e); [| |case_decide|]|]; flag_move; set_solver.
  - injection Hrun as <-. by apply flag_hand_over.
  - injection Hrun as <-. flag_move.
  - injection Hrun as <-. flag_move.
  - injection Hrun as <-. unfold try_get_with.
    destruct (moka_get k (st_moka s)); [|destruct (st_flights s !! k)]; flag_move.
  - injection Hrun as <-. destruct r; flag_move.
  - destruct (st_outcomes s !! leader) as [[e|x]|]; [| |done]; injection Hrun as <-; flag_move.
  - destruct (st_epoch s =? epoch_before); injection Hrun as <-; flag_move.
  - injection Hrun as <-. flag_move.
  - injection Hrun as <-. unfold refresh_result. destruct r; [destruct (st_epoch s =? epoch_before)|]; flag_move.
  - destruct (still_ours k e s); injection Hrun as <-; flag_move.
  - injection Hrun as <-. flag_move.
  - injection Hrun as <-. flag_move; set_solver.
  - injection Hrun as <-. flag_move.
  - injection Hrun as <-. flag_move.
Qed.

Lemma flag_reachable s : reachable (fun _ _ => True) s -> flag_inv s.
Proof.
  induction 1 as [|s l s' _ Hinv _ Hstep]; [split; simpl; try done; set_solver|].
  destruct l; simpl in Hstep.
  - injection Hstep as <-. apply flag_spawn; [done|]. by intros id [].
  - injection Hstep as <-. apply flag_spawn; [done|]. by intros id [].
  - destruct (st_tasks s !! t) as [pc|] eqn:Hpc; [|done]. by eapply flag_run_task.
  - destruct (st_tasks s !! t) as [pc|] eqn:Hpc; [|done]. destruct pc; try done; injection Hstep as <-; flag_move.
  - injection Hstep as <-. by destruct Hinv; split.
  - injection Hstep as <-. by destruct Hinv; split.
Qed.

(** C32. Refreshes of an entry are single-flight and are never blocked for good: in
    every reachable state the flag of an entry is set exactly when a caller or a task
    has its refresh, and at most one has it. *)
Theorem refresh_single_flight s id :
  reachable (fun _ _ => True) s ->
  (id ∈ st_flags s <-> exists t pc, st_tasks s !! t = Some pc /\ refreshes pc id)
  /\ forall t t' pc pc', st_tasks s !! t = Some pc -> st_tasks s !! t' = Some pc' ->
       refreshes pc id -> refreshes pc' id -> t = t'.
Proof. intros Hr%flag_reachable. split; [apply (fl_set s Hr)|apply (fl_one s Hr)]. Qed.
End Swr.

(** ** An instance of [moka] *)

(** It keeps all it can: entries leave when they are removed or evicted. *)
Definition map_moka (K V : Type) `{Countable K} : Moka K V := {|
  moka := gmap K (Entry V);
  moka_new := ∅;
  moka_get := fun k m => m !! k;
  moka_insert := fun k e m => <[k := e]> m;
  moka_invalidate := fun k m => delete k m;
  moka_invalidate_entries_if := fun p m => filter (fun ke => p ke.1 ke.2 = false) m;
  moka_invalidate_all := fun _ => ∅;
  moka_evict := fun k m => delete k m
|}.

Lemma map_moka_laws (K V : Type) `{Countable K} : MokaLaws K V (H := map_moka K V).
Proof.
  split; simpl.
  - intros k. apply lookup_empty.
  - intros k k' e e' m [[<- <-]|[? ?]]%lookup_insert_Some; auto.
  - intros k k' e m [? ?]%lookup_delete_Some. auto.
  - intros p k e m [? ?]%map_lookup_filter_Some. auto.
  - intros k _. apply lookup_empty.
  - intros k k' e m [_ ?]%lookup_delete_Some. auto.
Qed.

(** ** Runs *)

#[local] Existing Instance map_moka.
#[local] Existing Instance map_moka_laws.

Definition sample_config : SwrCacheConfig := {| ttl := 100; soft_ttl := 10; negative_ttl := 5; max_entries := 8 |}.

Notation sample_state := (St (K := nat) (V := nat) (E := unit)).
Notation sample_label := (Label (K := nat) (V := nat) (E := unit)).
Notation sample_step := (step (K := nat) (V := nat) (E := unit) sample_config).

Fixpoint run_labels (ls : list sample_label) (s : sample_state) : option sample_state :=
  match ls with
  | [] => Some s
  | l :: ls => s' ← sample_step l s; run_labels ls s'
  end.

Definition all_tasks (p : Pc (K := nat) (V := nat) (E := unit) -> bool) (s : sample_state) : bool :=
  forallb (fun tp => p tp.2) (map_to_list (st_tasks s)).

Lemma all_tasks_spec p s t pc : all_tasks p s = true -> st_tasks s !! t = Some pc -> p pc = true.
Proof.
  unfold all_tasks. rewrite forallb_forall. intros Ha Ht. apply (Ha (t, pc)).
  by apply list_elem_of_In, elem_of_map_to_list.
Qed.

(** No refresh is in its window, and no load has an epoch to compare. *)
Definition outside_window (pc : Pc (K := nat) (V := nat) (E := unit)) : bool :=
  match pc with AtIdentity _ _ _ _ | AtReplace _ _ _ _ => false | _ => true end.
Definition no_debts (pc : Pc (K := nat) (V := nat) (E := unit)) : bool :=
  match pc with AtInserted _ _ _ | AtDrop _ _ => false | _ => true end.

Fixpoint all_outside (ls : list sample_label) (s : sample_state) : bool :=
  match ls with
  | [] => true
  | l :: ls => all_tasks outside_window s
      && match sample_step l s with Some s' => all_outside ls s' | None => true end
  end.

Lemma run_reachable ls : forall s s', reachable sample_config (fun _ _ => True) s -> run_labels ls s = Some s' ->
  reachable sample_config (fun _ _ => True) s'.
Proof.
  induction ls as [|l ls IH]; intros s s' Hr Hrun; simpl in Hrun; [by injection Hrun as <-|].
  destruct (sample_step l s) as [s1|] eqn:E; [|done]. eapply IH; [|exact Hrun]. by eapply reach_step.
Qed.

Lemma run_reachable_outside ls : forall s s', reachable sample_config (fun l s => ~ crosses l s) s ->
  all_outside ls s = true -> run_labels ls s = Some s' -> reachable sample_config (fun l s => ~ crosses l s) s'.
Proof.
  induction ls as [|l ls IH]; intros s s' Hr Ho Hrun; simpl in *; [by injection Hrun as <-|].
  apply andb_prop in Ho as [Ho Hs]. destruct (sample_step l s) as [s1|] eqn:E; [|done].
  eapply IH; [|exact Hs|exact Hrun]. eapply reach_step; [done| |done].
  intros (t & n & i & t' & k & e & read & v & _ & _ & [Ht|Ht] & _); apply (all_tasks_spec _ _ _ _ Ho) in Ht; done.
Qed.

(** A call that loads the value [v] as task [t]. *)
Definition loading_call (t k v : nat) : list sample_label :=
  [Call k; Run t; Run t; Run t; Run t; Run t; LoaderReturns t (Ok (Some v)); Run t; Run t].
Definition invalidation_of (t k : nat) : list sample_label := [CallInvalidate (InvalidateKey k); Run t; Run t].

(** A value is loaded, invalidated and loaded again. *)
Definition loaded_twice : list sample_label := loading_call 0 7 1 ++ invalidation_of 1 7 ++ loading_call 2 7 2.

Definition end_of (ls : list sample_label) : sample_state := default initial (run_labels ls initial).

Lemma invalidated_values_leave_witness :
  exists e, moka_get (Moka := map_moka nat nat) 7 (st_moka (end_of loaded_twice)) = Some e /\ en_value e = Some 2
    /\ ~ stale (end_of loaded_twice) 7 e.
Proof.
  eexists. split; [vm_compute; reflexivity|]. split; [reflexivity|].
  apply (invalidated_values_leave sample_config).
  - eapply (run_reachable_outside loaded_twice initial); [constructor|vm_compute; reflexivity|vm_compute; reflexivity].
  - intros t pc k e Ht Ho. assert (all_tasks no_debts (end_of loaded_twice) = true) as Ha by (vm_compute; reflexivity).
    apply (all_tasks_spec _ _ _ _ Ha) in Ht. clear Ha. destruct Ho as [->|(? & -> & _)]; discriminate Ht.
  - vm_compute. reflexivity.
Defined.

(** A value is loaded and later found stale by two callers. *)
Definition stale_calls : list sample_label :=
  loading_call 0 7 1 ++ [Tick 20; Call 7; Call 7; Run 1; Run 2; Run 1; Run 2; Run 1].

Lemma refresh_single_flight_witness :
  0 ∈ st_flags (end_of stale_calls) /\ exists t pc, st_tasks (end_of stale_calls) !! t = Some pc /\ refreshes pc 0.
Proof.
  assert (0 ∈ st_flags (end_of stale_calls)) as Hin by (apply (bool_decide_unpack _); by vm_compute).
  split; [done|]. apply (refresh_single_flight sample_config); [|done].
  eapply (run_reachable stale_calls initial); [constructor|vm_compute; reflexivity].
Defined.

(** ** What remains of the races

    A refresh compares the epoch, then the identity of the entry, and then inserts.  An
    invalidation that completes before the insertion is lost: nothing is in flight any
    more, and callers get the value read before it. *)
Definition refresh_in_window : list sample_label :=
  loading_call 0 7 1 ++ [Tick 20; Call 7; Run 1; Run 1; Run 1; LoaderReturns 2 (Ok (Some 1)); Run 2; Run 2]
  ++ invalidation_of 3 7 ++ [Run 2; Run 2] ++ [Call 7; Run 4; Run 4].

Lemma refresh_window_stale :
  exists s e, run_labels refresh_in_window initial = Some s
    /\ moka_get (Moka := map_moka nat nat) 7 (st_moka s) = Some e /\ stale s 7 e
    /\ st_tasks s !! 4 = Some (Returned 7 (Ok (Some 1)))
    /\ all_tasks (fun pc => match pc with Returned _ _ | Finished => true | _ => false end) s = true.
Proof.
  eexists _, _. split; [vm_compute; reflexivity|]. split; [vm_compute; reflexivity|].
  split; [|by split; vm_compute].
  exists 1, (InvalidateKey 7). split; [by left|]. split; [simpl; lia|reflexivity].
Qed.

(** A call that begins after an invalidation is complete joins the load of a call that
    began before it, and returns the value read before it. *)
Definition joined_load : list sample_label :=
  [Call 7; Run 0; Run 0; Run 0; Run 0; Run 0; LoaderReturns 0 (Ok (Some 1))]
  ++ invalidation_of 1 7 ++ [Call 7; Run 2; Run 2; Run 2; Run 2; Run 2; Run 0; Run 2; Run 2; Run 0; Run 0].

Lemma joined_load_stale :
  exists s, run_labels joined_load initial = Some s
    /\ st_tasks s !! 2 = Some (Returned 7 (Ok (Some 1)))
    /\ st_invalidations s = [(1, InvalidateKey 7)] /\ moka_get (Moka := map_moka nat nat) 7 (st_moka s) = None.
Proof. eexists. split; [vm_compute; reflexivity|]. by repeat split; vm_compute. Qed.
