(* ===== verification/ExpressionHelpers.v ===== *)
(** * Expressions of a request

    What the request handlers share to read expressions: the placeholder maps of
    [crates/core/src/serde_helpers.rs], the reserved words of
    [crates/core/src/expression/reserved_words.rs] and the parsing helpers of
    [crates/engine/src/expression_helpers.rs]. *)

From S2P Require Import Prelude BTree Types Error Decimal Ast Tokenizer ConditionParser UpdateParser Resolver.
From S2P Require Import Projection KeyCondition StorageKey Wire.

(** ** Placeholder maps *)

Definition MAX_PLACEHOLDER_KEY_BYTES : nat := 255.

Definition is_placeholder_ident (rest : string) : bool :=
  negb (is_empty rest) && forallb (fun b => is_alnum b || Ascii.eqb b "_") (as_bytes rest).

Definition validate_placeholder_key (key : string) (prefix : ascii) (field_name : string)
    (include_size_in_too_long : bool) : result string unit :=
  if MAX_PLACEHOLDER_KEY_BYTES <? String.length key then
    Err (field_name +:+ " contains invalid key: The expression attribute map contains a key that is too long;"
         +:+ if include_size_in_too_long then " size of key: " +:+ nat_to_string (String.length key) else "")
  else if match strip_prefix_char prefix key with Some rest => is_placeholder_ident rest | None => false end
  then Ok tt
  else Err (field_name +:+ " contains invalid key: Syntax error; key: " +:+ dquote +:+ key +:+ dquote).

(** The texts of [serde]'s own errors: a value of another type than the expected one,
    and a field that is not there. *)
Class SerdeText : Type := {
  wrong_type : string -> Value -> string;
  missing_field : string -> string
}.

Section Maps.
Context `{HT : SerdeText} {T : Type}.

(** The loop over the entries; a later entry of the same key replaces the earlier. *)
Fixpoint placeholder_loop (prefix : ascii) (field_name : string) (include_size_in_too_long : bool)
    (check_value : string -> Value -> result string unit) (convert : Value -> result string T)
    (out : gmap string T) (raw : list (string * Value)) : result string (gmap string T) :=
  match raw with
  | [] => Ok out
  | (key, value) :: raw =>
      let? _ := validate_placeholder_key key prefix field_name include_size_in_too_long in
      let? _ := check_value key value in
      let? converted := convert value in
      placeholder_loop prefix field_name include_size_in_too_long check_value convert
        (<[key := converted]> out) raw
  end.

Definition deserialize_placeholder_map (prefix : ascii) (field_name : string)
    (include_size_in_too_long : bool) (check_value : string -> Value -> result string unit)
    (convert : Value -> result string T) (value : Value) : result string (option (gmap string T)) :=
  match value with
  | VNull => Ok None
  | VObject [] => Err (field_name +:+ " must not be empty")
  | VObject raw =>
      let? out := placeholder_loop prefix field_name include_size_in_too_long check_value convert ∅ raw in
      Ok (Some out)
  | _ => Err (wrong_type "a map" value)
  end.
End Maps.

Section Serde.
Context `{HD : Base64Decode} `{HE : SerdeErrors} `{HT : SerdeText}.

Definition de_string (value : Value) : result string string :=
  ok_or_else (as_str value) (wrong_type "a string" value).

Definition de_attribute_value (value : Value) : result string AttributeValue :=
  match value with
  | VObject entries => visit_map entries
  | _ => Err (invalid_type value)
  end.

Definition deserialize_expression_names : Value -> result string (option (gmap string string)) :=
  deserialize_placeholder_map "#" "ExpressionAttributeNames" true
    (fun key value =>
       if bool_decide (as_str value = Some "") then
         Err ("ExpressionAttributeNames contains invalid value: Empty attribute name for key " +:+ key)
       else Ok tt) de_string.

Definition deserialize_expression_values : Value -> result string (option (gmap string AttributeValue)) :=
  deserialize_placeholder_map ":" "ExpressionAttributeValues" false
    (fun key value =>
       match value with
       | VObject [] =>
           Err ("ExpressionAttributeValues contains invalid value: Supplied AttributeValue is empty, must contain exactly one of the supported datatypes for key "
                +:+ key)
       | _ => Ok tt
       end) de_attribute_value.
End Serde.

(** ** Reserved words *)

Definition RESERVED_WORDS : list string :=
 [
  "ABORT"; "ABSOLUTE"; "ACTION"; "ADD"; "AFTER"; "AGENT"; "AGGREGATE"; "ALL"; "ALLOCATE"; "ALTER";
   "ANALYZE"; "AND"; "ANY"; "ARCHIVE"; "ARE"; "ARRAY"; "AS"; "ASC"; "ASCII"; "ASENSITIVE";
   "ASSERTION"; "ASYMMETRIC"; "AT"; "ATOMIC"; "ATTACH"; "ATTRIBUTE"; "AUTH"; "AUTHORIZATION";
   "AUTHORIZE"; "AUTO"; "AVG"; "BACK"; "BACKUP"; "BASE"; "BATCH"; "BEFORE"; "BEGIN"; "BETWEEN";
   "BIGINT"; "BINARY"; "BIT"; "BLOB"; "BLOCK"; "BOOLEAN"; "BOTH"; "BREADTH"; "BUCKET"; "BULK";
   "BY"; "BYTE"; "CALL"; "CALLED"; "CALLING"; "CAPACITY"; "CASCADE"; "CASCADED"; "CASE"; "CAST";
   "CATALOG"; "CHAR"; "CHARACTER"; "CHECK"; "CLASS"; "CLOB"; "CLOSE"; "CLUSTER"; "CLUSTERED";
   "CLUSTERING"; "CLUSTERS"; "COALESCE"; "COLLATE"; "COLLATION"; "COLLECTION"; "COLUMN"; "COLUMNS";
   "COMBINE"; "COMMENT"; "COMMIT"; "COMPACT"; "COMPILE"; "COMPRESS"; "CONDITION"; "CONFLICT";
   "CONNECT"; "CONNECTION"; "CONSISTENCY"; "CONSISTENT"; "CONSTRAINT"; "CONSTRAINTS";
   "CONSTRUCTOR"; "CONSUMED"; "CONTINUE"; "CONVERT"; "COPY"; "CORRESPONDING"; "COUNT"; "COUNTER";
   "CREATE"; "CROSS"; "CUBE"; "CURRENT"; "CURSOR"; "CYCLE"; "DATA"; "DATABASE"; "DATE"; "DATETIME";
   "DAY"; "DEALLOCATE"; "DEC"; "DECIMAL"; "DECLARE"; "DEFAULT"; "DEFERRABLE"; "DEFERRED"; "DEFINE";
   "DEFINED"; "DEFINITION"; "DELETE"; "DELIMITED"; "DEPTH"; "DEREF"; "DESC"; "DESCRIBE";
   "DESCRIPTOR"; "DETACH"; "DETERMINISTIC"; "DIAGNOSTICS"; "DIRECTORIES"; "DISABLE"; "DISCONNECT";
   "DISTINCT"; "DISTRIBUTE"; "DO"; "DOMAIN"; "DOUBLE"; "DROP"; "DUMP"; "DURATION"; "DYNAMIC";
   "EACH"; "ELEMENT"; "ELSE"; "ELSEIF"; "EMPTY"; "ENABLE"; "END"; "EQUAL"; "EQUALS"; "ERROR";
   "ESCAPE"; "ESCAPED"; "EVAL"; "EVALUATE"; "EXCEEDED"; "EXCEPT"; "EXCEPTION"; "EXCEPTIONS";
   "EXCLUSIVE"; "EXEC"; "EXECUTE"; "EXISTS"; "EXIT"; "EXPLAIN"; "EXPLODE"; "EXPORT"; "EXPRESSION";
   "EXTENDED"; "EXTERNAL"; "EXTRACT"; "FAIL"; "FALSE"; "FAMILY"; "FETCH"; "FIELDS"; "FILE";
   "FILTER"; "FILTERING"; "FINAL"; "FINISH"; "FIRST"; "FIXED"; "FLATTERN"; "FLOAT"; "FOR"; "FORCE";
   "FOREIGN"; "FORMAT"; "FORWARD"; "FOUND"; "FREE"; "FROM"; "FULL"; "FUNCTION"; "FUNCTIONS";
   "GENERAL"; "GENERATE"; "GET"; "GLOB"; "GLOBAL"; "GO"; "GOTO"; "GRANT"; "GREATER"; "GROUP";
   "GROUPING"; "HANDLER"; "HASH"; "HAVE"; "HAVING"; "HEAP"; "HIDDEN"; "HOLD"; "HOUR"; "IDENTIFIED";
   "IDENTITY"; "IF"; "IGNORE"; "IMMEDIATE"; "IMPORT"; "IN"; "INCLUDING"; "INCLUSIVE"; "INCREMENT";
   "INCREMENTAL"; "INDEX"; "INDEXED"; "INDEXES"; "INDICATOR"; "INFINITE"; "INITIALLY"; "INLINE";
   "INNER"; "INNTER"; "INOUT"; "INPUT"; "INSENSITIVE"; "INSERT"; "INSTEAD"; "INT"; "INTEGER";
   "INTERSECT"; "INTERVAL"; "INTO"; "INVALIDATE"; "IS"; "ISOLATION"; "ITEM"; "ITEMS"; "ITERATE";
   "JOIN"; "KEY"; "KEYS"; "LAG"; "LANGUAGE"; "LARGE"; "LAST"; "LATERAL"; "LEAD"; "LEADING";
   "LEAVE"; "LEFT"; "LENGTH"; "LESS"; "LEVEL"; "LIKE"; "LIMIT"; "LIMITED"; "LINES"; "LIST"; "LOAD";
   "LOCAL"; "LOCALTIME"; "LOCALTIMESTAMP"; "LOCATION"; "LOCATOR"; "LOCK"; "LOCKS"; "LOG"; "LOGED";
   "LONG"; "LOOP"; "LOWER"; "MAP"; "MATCH"; "MATERIALIZED"; "MAX"; "MAXLEN"; "MEMBER"; "MERGE";
   "METHOD"; "METRICS"; "MIN"; "MINUS"; "MINUTE"; "MISSING"; "MOD"; "MODE"; "MODIFIES"; "MODIFY";
   "MODULE"; "MONTH"; "MULTI"; "MULTISET"; "NAME"; "NAMES"; "NATIONAL"; "NATURAL"; "NCHAR";
   "NCLOB"; "NEW"; "NEXT"; "NO"; "NONE"; "NOT"; "NULL"; "NULLIF"; "NUMBER"; "NUMERIC"; "OBJECT";
   "OF"; "OFFLINE"; "OFFSET"; "OLD"; "ON"; "ONLINE"; "ONLY"; "OPAQUE"; "OPEN"; "OPERATOR";
   "OPTION"; "OR"; "ORDER"; "ORDINALITY"; "OTHER"; "OTHERS"; "OUT"; "OUTER"; "OUTPUT"; "OVER";
   "OVERLAPS"; "OVERRIDE"; "OWNER"; "PAD"; "PARALLEL"; "PARAMETER"; "PARAMETERS"; "PARTIAL";
   "PARTITION"; "PARTITIONED"; "PARTITIONS"; "PATH"; "PERCENT"; "PERCENTILE"; "PERMISSION";
   "PERMISSIONS"; "PIPE"; "PIPELINED"; "PLAN"; "POOL"; "POSITION"; "PRECISION"; "PREPARE";
   "PRESERVE"; "PRIMARY"; "PRIOR"; "PRIVATE"; "PRIVILEGES"; "PROCEDURE"; "PROCESSED"; "PROJECT";
   "PROJECTION"; "PROPERTY"; "PROVISIONING"; "PUBLIC"; "PUT"; "QUERY"; "QUIT"; "QUORUM"; "RAISE";
   "RANDOM"; "RANGE"; "RANK"; "RAW"; "READ"; "READS"; "REAL"; "REBUILD"; "RECORD"; "RECURSIVE";
   "REDUCE"; "REF"; "REFERENCE"; "REFERENCES"; "REFERENCING"; "REGEXP"; "REGION"; "REINDEX";
   "RELATIVE"; "RELEASE"; "REMAINDER"; "RENAME"; "REPEAT"; "REPLACE"; "REQUEST"; "RESET";
   "RESIGNAL"; "RESOURCE"; "RESPONSE"; "RESTORE"; "RESTRICT"; "RESULT"; "RETURN"; "RETURNING";
   "RETURNS"; "REVERSE"; "REVOKE"; "RIGHT"; "ROLE"; "ROLES"; "ROLLBACK"; "ROLLUP"; "ROUTINE";
   "ROW"; "ROWS"; "RULE"; "RULES"; "SAMPLE"; "SATISFIES"; "SAVE"; "SAVEPOINT"; "SCAN"; "SCHEMA";
   "SCOPE"; "SCROLL"; "SEARCH"; "SECOND"; "SECTION"; "SEGMENT"; "SEGMENTS"; "SELECT"; "SELF";
   "SEMI"; "SENSITIVE"; "SEPARATE"; "SEQUENCE"; "SERIALIZABLE"; "SESSION"; "SET"; "SETS"; "SHARD";
   "SHARE"; "SHARED"; "SHORT"; "SHOW"; "SIGNAL"; "SIMILAR"; "SIZE"; "SKEWED"; "SMALLINT";
   "SNAPSHOT"; "SOME"; "SOURCE"; "SPACE"; "SPACES"; "SPARSE"; "SPECIFIC"; "SPECIFICTYPE"; "SPLIT";
   "SQL"; "SQLCODE"; "SQLERROR"; "SQLEXCEPTION"; "SQLSTATE"; "SQLWARNING"; "START"; "STATE";
   "STATIC"; "STATUS"; "STORAGE"; "STORE"; "STORED"; "STREAM"; "STRING"; "STRUCT"; "STYLE"; "SUB";
   "SUBMULTISET"; "SUBPARTITION"; "SUBSTRING"; "SUBTYPE"; "SUM"; "SUPER"; "SYMMETRIC"; "SYNONYM";
   "SYSTEM"; "TABLE"; "TABLESAMPLE"; "TEMP"; "TEMPORARY"; "TERMINATED"; "TEXT"; "THAN"; "THEN";
   "THROUGHPUT"; "TIME"; "TIMESTAMP"; "TIMEZONE"; "TINYINT"; "TO"; "TOKEN"; "TOTAL"; "TOUCH";
   "TRAILING"; "TRANSACTION"; "TRANSFORM"; "TRANSLATE"; "TRANSLATION"; "TREAT"; "TRIGGER"; "TRIM";
   "TRUE"; "TRUNCATE"; "TTL"; "TUPLE"; "TYPE"; "UNDER"; "UNDO"; "UNION"; "UNIQUE"; "UNIT";
   "UNKNOWN"; "UNLOGGED"; "UNNEST"; "UNPROCESSED"; "UNSIGNED"; "UNTIL"; "UPDATE"; "UPPER"; "URL";
   "USAGE"; "USE"; "USER"; "USERS"; "USING"; "UUID"; "VACUUM"; "VALUE"; "VALUED"; "VALUES";
   "VARCHAR"; "VARIABLE"; "VARIANCE"; "VARINT"; "VARYING"; "VIEW"; "VIEWS"; "VIRTUAL"; "VOID";
   "WAIT"; "WHEN"; "WHENEVER"; "WHERE"; "WHILE"; "WINDOW"; "WITH"; "WITHIN"; "WITHOUT"; "WORK";
   "WRAPPED"; "WRITE"; "YEAR"; "ZONE"
 ].

Definition is_reserved (word : string) : bool :=
  existsb (String.eqb (to_ascii_uppercase word)) RESERVED_WORDS.

Fixpoint validate_no_reserved_words (tokens : list Token) : res unit :=
  match tokens with
  | [] => Ok tt
  | TokIdent word :: rest =>
      if is_some (parse_usize word) || bool_decide (head rest = Some TokLParen) then
        validate_no_reserved_words rest
      else if is_reserved word then
        fail ("Invalid expression: Attribute name is a reserved keyword; reserved keyword: " +:+ word)
      else validate_no_reserved_words rest
  | _ :: rest => validate_no_reserved_words rest
  end.

(** ** Parsing *)

(** The limits that expressions are checked against. *)
Record LimitsConfig : Type := {
  max_expression_tokens : N;
  max_expression_length_bytes : nat;
  max_expression_depth : nat;
  enforce_reserved_keywords : bool
}.

Definition reserved_check (limits : LimitsConfig) (tokens : list Token) : res unit :=
  if enforce_reserved_keywords limits then validate_no_reserved_words tokens else Ok tt.

Definition tokenize_expression (input : string) (limits : LimitsConfig) : res (list Token) :=
  let? tokens := tokenize_with_limit input (max_expression_tokens limits) in
  let? _ := reserved_check limits tokens in
  Ok tokens.

Definition check_expression_size (expr : string) (kind : ExpressionKind) (limits : LimitsConfig) : res unit :=
  if max_expression_length_bytes limits <? String.length expr then
    fail ("Invalid " +:+ kind_as_str kind +:+ ": Expression size has exceeded the maximum allowed size;"
          +:+ if size_error_includes_length kind then " expression size: " +:+ nat_to_string (String.length expr)
              else "")
  else Ok tt.

(** [msg.strip_prefix(p)]. *)
Definition strip_prefix_str (p msg : string) : option string :=
  if starts_with msg p then Some (of_bytes (drop (String.length p) (as_bytes msg))) else None.

Definition prefix_expression_error (kind : ExpressionKind) (e : DynamoDbError) : DynamoDbError :=
  match e with
  | ValidationException msg =>
      match strip_prefix_str "Invalid ConditionExpression:" msg with
      | Some rest => ValidationException ("Invalid " +:+ kind_as_str kind +:+ ":" +:+ rest)
      | None =>
          match strip_prefix_str "Invalid expression:" msg with
          | Some rest => ValidationException ("Invalid " +:+ kind_as_str kind +:+ ":" +:+ rest)
          | None =>
              if starts_with msg "Invalid " || starts_with msg "1 validation" then ValidationException msg
              else ValidationException ("Invalid " +:+ kind_as_str kind +:+ ": " +:+ msg)
          end
      end
  | other => other
  end.

(** [.map_err(|e| prefix_expression_error(e, kind))]. *)
Definition prefixed {A : Type} (kind : ExpressionKind) (r : res A) : res A :=
  map_err (fun f => match f with Fail e => Fail (prefix_expression_error kind e) | other => other end) r.

Definition parse_condition_expr (expr : string) (limits : LimitsConfig) : res Expr :=
  let? _ := check_expression_size expr KCondition limits in
  prefixed KCondition
    (let? tokens := tokenize_expression expr limits in
     parse_condition_with_depth_limit tokens (max_expression_depth limits)).

Definition parse_update_expr (update_expr : string) (limits : LimitsConfig) : res (list UpdateAction) :=
  let? _ := check_expression_size update_expr KUpdate limits in
  prefixed KUpdate
    (let? tokens := tokenize_for update_expr (max_expression_tokens limits) KUpdate in
     let? _ := reserved_check limits tokens in
     parse_update_from tokens update_expr).

Definition parse_optional_condition (expr : option string) (limits : LimitsConfig) : res (option Expr) :=
  match expr with
  | Some s => if is_empty s then Ok None else let? e := parse_condition_expr s limits in Ok (Some e)
  | None => Ok None
  end.

Definition parse_optional_filter (expr : option string) (limits : LimitsConfig) : res (option Expr) :=
  prefixed KFilter (parse_optional_condition expr limits).

Definition parse_projection_expr (proj_str : string) (limits : LimitsConfig) : res (list (list PathElement)) :=
  let? _ := check_expression_size proj_str KProjection limits in
  prefixed KProjection
    (let? tokens := tokenize_for proj_str (max_expression_tokens limits) KProjection in
     let? _ := reserved_check limits tokens in
     parse_projection tokens).

Definition parse_key_condition_expr (expr : string) (limits : LimitsConfig) : res KeyCondition :=
  let? _ := check_expression_size expr KKeyCondition limits in
  prefixed KKeyCondition
    (let? tokens := tokenize_for expr (max_expression_tokens limits) KKeyCondition in
     let? _ := reserved_check limits tokens in
     parse_key_condition tokens).

(** The entries with the prefix dropped from their keys, collected. *)
Definition strip_keys {T : Type} (prefix : ascii) (m : gmap string T) : gmap string T :=
  list_to_map ((fun kv => (default kv.1 (strip_prefix_char prefix kv.1), kv.2)) <$> map_to_list m).

Definition build_expression_maps {D : Type} `{BigDecimal D} (names : option (gmap string string))
    (values : option (gmap string AttributeValue)) : ExpressionMaps D :=
  maps_new (from_option (strip_keys "#") ∅ names) (from_option (strip_keys ":") ∅ values).
