(* ===== verification/LegacyFilter.v ===== *)
(** * Legacy conditions

    [crates/engine/src/legacy_filter.rs]: [KeyConditions], [QueryFilter] and
    [ScanFilter], from before expressions, rewritten as key conditions and condition
    expressions with placeholders of their own. *)

From S2P Require Import Prelude BTree Types Error Decimal Ast Resolver KeyCondition KeyResolve.

(** [Condition] of [crates/core/src/types/query.rs]. *)
Record LegacyCondition : Type := {
  comparison_operator : string;
  attribute_value_list : list AttributeValue
}.

Inductive ConditionalOperator : Type := OpAnd | OpOr.

(** The comparisons by their names. *)
Definition legacy_comparisons : list (string * CompareOp) :=
  [("EQ", CEq); ("NE", CNe); ("LE", CLe); ("LT", CLt); ("GE", CGe); ("GT", CGt)].

Definition legacy_comparison (name : string) : option CompareOp :=
  snd <$> List.find (fun p => String.eqb p.1 name) legacy_comparisons.

(** The comparison of a sort key: [NE] is none. *)
Definition sort_comparison (name : string) : option CompareOp :=
  if String.eqb name "NE" then None else legacy_comparison name.

(** ** Key conditions *)

Section KeyConditions.
Context {D : Type} `{BigDecimal D}.
Implicit Types (cond : LegacyCondition) (values : gmap string AttributeValue)
  (conditions : gmap string LegacyCondition).

Definition desugar_sk_condition cond (range_name : string) values
    : res (SortKeyCondition * gmap string AttributeValue) :=
  let path := [PAttr range_name] in
  let operator := comparison_operator cond in
  match sort_comparison operator with
  | Some op =>
      match attribute_value_list cond with
      | [v] => Ok (SKCompare path op (EPlaceholder "_kc_sk"), <["_kc_sk" := v]> values)
      | _ => fail "Invalid number of values for comparison"
      end
  | None =>
      if String.eqb operator "BETWEEN" then
        match attribute_value_list cond with
        | [lo; hi] =>
            Ok (SKBetween path (EPlaceholder "_kc_sk_lo") (EPlaceholder "_kc_sk_hi"),
                <["_kc_sk_hi" := hi]> (<["_kc_sk_lo" := lo]> values))
        | _ => fail "BETWEEN requires exactly 2 values"
        end
      else if String.eqb operator "BEGINS_WITH" then
        match attribute_value_list cond with
        | [v] => Ok (SKBeginsWith path (EPlaceholder "_kc_sk"), <["_kc_sk" := v]> values)
        | _ => fail "BEGINS_WITH requires exactly 1 value"
        end
      else fail ("Unsupported KeyCondition operator: " +:+ operator)
  end.

(** The closure of [rename_placeholders]. *)
Definition rename_expr (expr : Expr) (own_values : gmap string AttributeValue) (prefix : string) values
    : Expr * gmap string AttributeValue :=
  match expr with
  | EPlaceholder name =>
      let new_name := prefix +:+ name in
      (EPlaceholder new_name,
       match own_values !! name with Some v => <[new_name := v]> values | None => values end)
  | other => (other, values)
  end.

Definition rename_placeholders (sk : SortKeyCondition) (own_values : gmap string AttributeValue)
    (prefix : string) values : SortKeyCondition * gmap string AttributeValue :=
  match sk with
  | SKCompare path op value =>
      let '(value, values) := rename_expr value own_values prefix values in
      (SKCompare path op value, values)
  | SKBetween path low high =>
      let '(low, values) := rename_expr low own_values prefix values in
      let '(high, values) := rename_expr high own_values prefix values in
      (SKBetween path low high, values)
  | SKBeginsWith path p =>
      let '(p, values) := rename_expr p own_values prefix values in
      (SKBeginsWith path p, values)
  end.

(** The loop over the conditioned attributes, numbered from [i]. *)
Fixpoint multipart_loop conditions (i : nat) (ordered : list string) values
    (equalities : list (list PathElement * Expr)) (non_equalities : list SortKeyCondition)
    : res (gmap string AttributeValue * list (list PathElement * Expr) * list SortKeyCondition) :=
  match ordered with
  | [] => Ok (values, equalities, non_equalities)
  | attr :: ordered =>
      match conditions !! attr with
      | None => Err Panic
      | Some cond =>
          if String.eqb (comparison_operator cond) "EQ" then
            match attribute_value_list cond with
            | [v] =>
                let placeholder := "_kc_eq" +:+ nat_to_string i in
                multipart_loop conditions (S i) ordered (<[placeholder := v]> values)
                  (equalities ++ [([PAttr attr], EPlaceholder placeholder)]) non_equalities
            | _ => fail "Query key condition must have exactly one value for EQ"
            end
          else
            let? (sk, own_values) := desugar_sk_condition cond attr ∅ in
            let '(sk, values) :=
              rename_placeholders sk own_values ("_kc_ne" +:+ nat_to_string i +:+ "_") values in
            multipart_loop conditions (S i) ordered values equalities (non_equalities ++ [sk])
      end
  end.

Definition schema_attrs (hash : bool) (key_schema : list (string * bool)) : list string :=
  map fst (List.filter (fun k => Bool.eqb k.2 hash) key_schema).

(** The attributes with a condition: those of the key schema in its order, then the
    others by name. *)
Definition ordered_attrs conditions (key_schema : list (string * bool)) : list string :=
  List.filter (fun name => is_some (conditions !! name)) (map fst key_schema)
  ++ set_of_list (List.filter (fun name => negb (existsb (fun k => String.eqb k.1 name) key_schema))
       ((map_to_list conditions).*1)).

(** The refusal of two conditions that are not equalities. *)
Definition two_non_equalities {A : Type} conditions (range_attrs : list string) : res A :=
  let conditioned := omap (fun name => position name range_attrs) ((map_to_list conditions).*1) in
  match max_position conditioned with
  | Some last =>
      match List.filter (fun attr =>
              match conditions !! attr with
              | Some c => negb (String.eqb (comparison_operator c) "EQ")
              | None => true
              end) (take last range_attrs) with
      | _ :: _ as without_eq =>
          fail ("RANGE key attributes " +:+ join ", " without_eq
                +:+ " must have equality conditions specified in the query because a condition is present on key attribute "
                +:+ default "" (range_attrs !! last))
      | [] => fail "Query key condition not supported"
      end
  | None => fail "Query key condition not supported"
  end.

Definition desugar_multipart_key_conditions conditions (key_schema : list (string * bool))
    : res (KeyCondition * ExpressionMaps D) :=
  let? (values, equalities, non_equalities) :=
    multipart_loop conditions 0 (ordered_attrs conditions key_schema) ∅ [] [] in
  if 1 <? length non_equalities then two_non_equalities conditions (schema_attrs false key_schema)
  else
    match equalities with
    | [] =>
        fail ("HASH key attributes " +:+ join ", " (schema_attrs true key_schema)
              +:+ " must have equality conditions specified in the query")
    | (path, value) :: extra =>
        Ok ({| pk_path := path; pk_value := value; extra_pk_conditions := extra;
               sk_condition := head non_equalities; extra_sk_conditions := [] |},
            maps_new ∅ values)
    end.

Definition desugar_key_conditions conditions (key_schema : list (string * bool))
    : res (KeyCondition * ExpressionMaps D) :=
  let hash_count := length (List.filter snd key_schema) in
  let range_count := length key_schema - hash_count in
  if (1 <? hash_count) || (1 <? range_count) then desugar_multipart_key_conditions conditions key_schema
  else
    match schema_attrs true key_schema with
    | [] => fail "No hash key in key schema"
    | hash_attr :: _ =>
        let missed {A} : res A := fail ("Query condition missed key schema element: " +:+ hash_attr) in
        match conditions !! hash_attr with
        | None => missed
        | Some hash_cond =>
            if negb (String.eqb (comparison_operator hash_cond) "EQ") then
              fail "Query key condition not supported"
            else
              match attribute_value_list hash_cond with
              | [v] =>
                  let values := {["_kc_pk" := v]} in
                  let range_attr := head (schema_attrs false key_schema) in
                  let? (sk, values) :=
                    match range_attr with
                    | Some range_name =>
                        match conditions !! range_name with
                        | Some range_cond =>
                            let? (sk, values) := desugar_sk_condition range_cond range_name values in
                            Ok (Some sk, values)
                        | None => Ok (None, values)
                        end
                    | None => Ok (None, values)
                    end in
                  let? _ := for_each (fun attr_name =>
                    if negb (String.eqb attr_name hash_attr) && negb (bool_decide (range_attr = Some attr_name))
                    then missed else Ok tt) ((map_to_list conditions).*1) in
                  Ok ({| pk_path := [PAttr hash_attr]; pk_value := EPlaceholder "_kc_pk";
                         extra_pk_conditions := []; sk_condition := sk; extra_sk_conditions := [] |},
                      maps_new ∅ values)
              | _ => fail "Query key condition must have exactly one value for EQ"
              end
        end
    end.

(** ** Filters *)

(** A new placeholder for a value. *)
Definition bind_value (v : AttributeValue) (st : gmap string AttributeValue * nat)
    : Expr * (gmap string AttributeValue * nat) :=
  let placeholder := "_f" +:+ nat_to_string st.2 in
  (EPlaceholder placeholder, (<[placeholder := v]> st.1, S st.2)).

Fixpoint bind_values (l : list AttributeValue) (st : gmap string AttributeValue * nat)
    : list Expr * (gmap string AttributeValue * nat) :=
  match l with
  | [] => ([], st)
  | v :: l =>
      let '(e, st) := bind_value v st in
      let '(es, st) := bind_values l st in
      (e :: es, st)
  end.

(** The operators with one operand, besides the comparisons. *)
Definition one_operand (operator : string) (path placeholder : Expr) : option Expr :=
  if String.eqb operator "BEGINS_WITH" then Some (EFunction "begins_with" [path; placeholder])
  else if String.eqb operator "CONTAINS" then Some (EFunction "contains" [path; placeholder])
  else if String.eqb operator "NOT_CONTAINS" then Some (ENot (EFunction "contains" [path; placeholder]))
  else None.

Definition desugar_one_filter_condition (path : Expr) cond (st : gmap string AttributeValue * nat)
    : res (Expr * (gmap string AttributeValue * nat)) :=
  let operator := comparison_operator cond in
  let operands := attribute_value_list cond in
  match legacy_comparison operator with
  | Some op =>
      match operands with
      | [v] => let '(p, st) := bind_value v st in Ok (ECompare path op p, st)
      | _ => fail "Invalid number of attribute values for comparison"
      end
  | None =>
      if String.eqb operator "BETWEEN" then
        match operands with
        | [lo; hi] =>
            let '(lo, st) := bind_value lo st in
            let '(hi, st) := bind_value hi st in
            Ok (EBetween path lo hi, st)
        | _ => fail "BETWEEN requires exactly 2 values"
        end
      else if is_some (one_operand operator path path) then
        match operands with
        | [v] =>
            let '(p, st) := bind_value v st in
            Ok (default path (one_operand operator path p), st)
        | _ => fail (operator +:+ " requires exactly 1 value")
        end
      else if String.eqb operator "NULL" then Ok (EFunction "attribute_not_exists" [path], st)
      else if String.eqb operator "NOT_NULL" then Ok (EFunction "attribute_exists" [path], st)
      else if String.eqb operator "IN" then
        match operands with
        | [] => fail "IN requires at least 1 value"
        | _ => let '(items, st) := bind_values operands st in Ok (EIn path items, st)
        end
      else fail ("Unsupported filter operator: " +:+ operator)
  end.

Fixpoint desugar_loop (entries : list (string * LegacyCondition)) (st : gmap string AttributeValue * nat)
    : res (list Expr * gmap string AttributeValue) :=
  match entries with
  | [] => Ok ([], st.1)
  | (attr_name, cond) :: entries =>
      let? (e, st) := desugar_one_filter_condition (EPath [PAttr attr_name]) cond st in
      let? (es, values) := desugar_loop entries st in
      Ok (e :: es, values)
  end.

Definition desugar_filter conditions (conditional_operator : ConditionalOperator)
    : res (Expr * ExpressionMaps D) :=
  let? (exprs, values) := desugar_loop (bt_of_list (map_to_list conditions)) (∅, 0) in
  match exprs with
  | [] => fail "Filter must not be empty"
  | e :: rest =>
      Ok (fold_left (match conditional_operator with OpAnd => EAnd | OpOr => EOr end) rest e,
          maps_new ∅ values)
  end.
End KeyConditions.
