(* ===== verification/QueryHandler.v ===== *)
(** * The Query handler

    [crates/engine/src/query.rs] with the helpers of [lib.rs] and [index_helpers.rs] that
    it calls: from the JSON body of the request to the page of the answer.  The catalog
    and the storage read are parameters; the report of consumed capacity is left out. *)

From S2P Require Import Prelude BTree Types Error Decimal Ast Tokenizer Resolver Evaluator Projection.
From S2P Require Import KeyCondition KeyResolve ItemSize Storage ReadPage StartKey StorageKey Wire.
From S2P Require Import ExpressionHelpers LegacyFilter.

(** ** Structures in JSON *)

(** A field of a structure that [serde] derives: its name, whether it has a default, and
    the reading of its value. *)
Record Field : Type := {
  f_name : string;
  f_default : bool;
  f_check : Value -> result string unit
}.

Definition field {A : Type} (name : string) (dflt : bool) (decode : Value -> result string A) : Field :=
  {| f_name := name; f_default := dflt; f_check := fun v => let? _ := decode v in Ok tt |}.

Section Struct.
Context `{HT : SerdeText}.

(** The fields of a structure written as an array, in the order of declaration. *)
Fixpoint seq_check (fields : list Field) (l : list Value) : result string unit :=
  match fields, l with
  | [], [] => Ok tt
  | [], _ :: _ => Err (wrong_type "fewer elements" (VArray l))
  | f :: fields, [] => if f_default f then seq_check fields [] else Err (missing_field (f_name f))
  | f :: fields, v :: l => let? _ := f_check f v in seq_check fields l
  end.

(** [serde_json] reads a structure from an object, by name, and from an array, by
    position.  The values of the fields, once all that are there can be read. *)
Definition de_struct (fields : list Field) (value : Value) : result string (string -> option Value) :=
  match value with
  | VObject entries =>
      let? _ := for_each (fun kv =>
        match List.find (fun f => String.eqb (f_name f) kv.1) fields with
        | Some f => f_check f kv.2
        | None => Ok tt
        end) entries in
      Ok (json_get value)
  | VArray l =>
      let? _ := seq_check fields l in
      Ok (fun name => i ← position name (map f_name fields); l !! i)
  | _ => Err (wrong_type "a structure" value)
  end.

Definition get_or {A : Type} (found : string -> option Value) (name : string)
    (decode : Value -> result string A) (dflt : A) : result string A :=
  match found name with Some v => decode v | None => Ok dflt end.

Definition get_required {A : Type} (found : string -> option Value) (name : string)
    (decode : Value -> result string A) : result string A :=
  match found name with Some v => decode v | None => Err (missing_field name) end.

Definition de_option {A : Type} (decode : Value -> result string A) (value : Value) : result string (option A) :=
  match value with
  | VNull => Ok None
  | _ => let? x := decode value in Ok (Some x)
  end.

Definition de_bool (value : Value) : result string bool :=
  match value with VBool b => Ok b | _ => Err (wrong_type "a boolean" value) end.

(** The integers of [serde_json] are numbers without fraction and exponent; minus zero
    is read as a float. *)
Definition de_i64 (value : Value) : result string Z :=
  match value with
  | VNumber text =>
      let '(negative, digits) :=
        match strip_prefix_char "-" text with Some d => (true, d) | None => (false, text) end in
      let n := Z.of_N (digits_val (as_bytes digits)) in
      let z := if negative : bool then (- n)%Z else n in
      if forallb is_digit (as_bytes digits) && negb (is_empty digits)
         && negb (String.eqb text "-0") && (i64_min <=? z)%Z && (z <=? i64_max)%Z
      then Ok z else Err (wrong_type "i64" value)
  | _ => Err (wrong_type "i64" value)
  end.

Definition de_vec {A : Type} (decode : Value -> result string A) (value : Value) : result string (list A) :=
  match value with
  | VArray l => collect_results decode l
  | _ => Err (wrong_type "a sequence" value)
  end.

Definition de_entries {A : Type} (decode : Value -> result string A) (value : Value)
    : result string (list (string * A)) :=
  match value with
  | VObject o => collect_results (fun kv => let? x := decode kv.2 in Ok (kv.1, x)) o
  | _ => Err (wrong_type "a map" value)
  end.

Definition de_hash_map {A : Type} (decode : Value -> result string A) (value : Value)
    : result string (gmap string A) :=
  let? l := de_entries decode value in Ok (list_to_map (rev l)).

(** An enumeration by its names. *)
Definition de_enum {A : Type} (field : string) (members : list (string * A)) (value : Value) : result string A :=
  let? s := de_string value in
  match List.find (fun m => String.eqb m.1 s) members with
  | Some m => Ok m.2
  | None =>
      Err ("1 validation error detected: Value '" +:+ s +:+ "' at '" +:+ field
           +:+ "' failed to satisfy constraint: Member must satisfy enum value set: ["
           +:+ join ", " (map fst members) +:+ "]")
  end.
End Struct.

(** ** The request *)

Inductive ReturnConsumedCapacity : Type := CapNone | CapTotal | CapIndexes.

Record QueryInput : Type := {
  qi_table_name : string;
  qi_index_name : option string;
  qi_key_condition_expression : option string;
  qi_filter_expression : option string;
  qi_projection_expression : option string;
  qi_expression_attribute_names : option (gmap string string);
  qi_expression_attribute_values : option (gmap string AttributeValue);
  qi_scan_index_forward : bool;
  qi_limit : option Z;
  qi_exclusive_start_key : option Item;
  qi_select : option Select;
  qi_consistent_read : option bool;
  qi_return_consumed_capacity : ReturnConsumedCapacity;
  qi_key_conditions : option (gmap string LegacyCondition);
  qi_query_filter : option (gmap string LegacyCondition);
  qi_attributes_to_get : option (list string);
  qi_conditional_operator : option ConditionalOperator
}.

Section Decode.
Context `{HD : Base64Decode} `{HE : SerdeErrors} `{HT : SerdeText}.

Definition de_item (value : Value) : result string Item :=
  let? l := de_entries de_attribute_value value in Ok (bt_of_list l).

Definition condition_fields : list Field :=
  [field "ComparisonOperator" false de_string;
   field "AttributeValueList" true (de_vec de_attribute_value)].

Definition de_condition (value : Value) : result string LegacyCondition :=
  let? found := de_struct condition_fields value in
  let? operator := get_required found "ComparisonOperator" de_string in
  let? operands := get_or found "AttributeValueList" (de_vec de_attribute_value) [] in
  Ok {| comparison_operator := operator; attribute_value_list := operands |}.

Definition de_select : Value -> result string Select :=
  de_enum "select" [("SPECIFIC_ATTRIBUTES", SpecificAttributes); ("COUNT", Count);
    ("ALL_ATTRIBUTES", AllAttributes); ("ALL_PROJECTED_ATTRIBUTES", AllProjectedAttributes)].

Definition de_return_consumed_capacity : Value -> result string ReturnConsumedCapacity :=
  de_enum "returnConsumedCapacity" [("INDEXES", CapIndexes); ("TOTAL", CapTotal); ("NONE", CapNone)].

Definition de_conditional_operator : Value -> result string ConditionalOperator :=
  de_enum "conditionalOperator" [("AND", OpAnd); ("OR", OpOr)].

Definition query_fields : list Field :=
  [field "TableName" false de_string;
   field "IndexName" false (de_option de_string);
   field "KeyConditionExpression" false (de_option de_string);
   field "FilterExpression" false (de_option de_string);
   field "ProjectionExpression" false (de_option de_string);
   field "ExpressionAttributeNames" true deserialize_expression_names;
   field "ExpressionAttributeValues" true deserialize_expression_values;
   field "ScanIndexForward" true de_bool;
   field "Limit" false (de_option de_i64);
   field "ExclusiveStartKey" false (de_option de_item);
   field "Select" false (de_option de_select);
   field "ConsistentRead" false (de_option de_bool);
   field "ReturnConsumedCapacity" true de_return_consumed_capacity;
   field "KeyConditions" false (de_option (de_hash_map de_condition));
   field "QueryFilter" false (de_option (de_hash_map de_condition));
   field "AttributesToGet" false (de_option (de_vec de_string));
   field "ConditionalOperator" false (de_option de_conditional_operator)].

(** [serde_json::from_value::<QueryInput>]. *)
Definition de_query_input (body : Value) : result string QueryInput :=
  let? found := de_struct query_fields body in
  let? table_name := get_required found "TableName" de_string in
  let? index_name := get_or found "IndexName" (de_option de_string) None in
  let? kce := get_or found "KeyConditionExpression" (de_option de_string) None in
  let? fe := get_or found "FilterExpression" (de_option de_string) None in
  let? pe := get_or found "ProjectionExpression" (de_option de_string) None in
  let? names := get_or found "ExpressionAttributeNames" deserialize_expression_names None in
  let? values := get_or found "ExpressionAttributeValues" deserialize_expression_values None in
  let? forward := get_or found "ScanIndexForward" de_bool true in
  let? limit := get_or found "Limit" (de_option de_i64) None in
  let? start := get_or found "ExclusiveStartKey" (de_option de_item) None in
  let? select := get_or found "Select" (de_option de_select) None in
  let? consistent := get_or found "ConsistentRead" (de_option de_bool) None in
  let? capacity := get_or found "ReturnConsumedCapacity" de_return_consumed_capacity CapNone in
  let? kc := get_or found "KeyConditions" (de_option (de_hash_map de_condition)) None in
  let? qf := get_or found "QueryFilter" (de_option (de_hash_map de_condition)) None in
  let? atg := get_or found "AttributesToGet" (de_option (de_vec de_string)) None in
  let? cond_op := get_or found "ConditionalOperator" (de_option de_conditional_operator) None in
  Ok {| qi_table_name := table_name; qi_index_name := index_name; qi_key_condition_expression := kce;
        qi_filter_expression := fe; qi_projection_expression := pe;
        qi_expression_attribute_names := names; qi_expression_attribute_values := values;
        qi_scan_index_forward := forward; qi_limit := limit; qi_exclusive_start_key := start;
        qi_select := select; qi_consistent_read := consistent; qi_return_consumed_capacity := capacity;
        qi_key_conditions := kc; qi_query_filter := qf; qi_attributes_to_get := atg;
        qi_conditional_operator := cond_op |}.
End Decode.

(** ** Helpers of the handlers *)

Inductive EnumClause : Type := Named (api_name : string) | Bare (clause : string).

Record EnumField : Type := {
  ef_json_name : string;
  ef_valid : list string;
  ef_clause : EnumClause
}.

Definition enum_error (f : EnumField) (s : string) : string :=
  match ef_clause f with
  | Named api_name =>
      "Value '" +:+ s +:+ "' at '" +:+ api_name
      +:+ "' failed to satisfy constraint: Member must satisfy enum value set: ["
      +:+ join ", " (ef_valid f) +:+ "]"
  | Bare clause => clause
  end.

Definition validate_enum_fields (body : Value) (fields : list EnumField) : res unit :=
  match body with
  | VObject _ =>
      let errors := omap (fun f =>
        s ← (json_get body (ef_json_name f) ≫= as_str);
        if existsb (String.eqb s) (ef_valid f) then None else Some (enum_error f s)) fields in
      match errors with
      | [] => Ok tt
      | _ =>
          fail (nat_to_string (length errors) +:+ " validation error"
                +:+ (if length errors =? 1 then "" else "s") +:+ " detected: " +:+ join "; " errors)
      end
  | _ => Ok tt
  end.

Definition validation_markers : list string :=
  ["validation error detected"; "may not be empty"; "contains duplicates"; "must not be empty";
   "contains invalid key"; "contains invalid value"; "Syntax error; key"; "AttributeValue is empty";
   "AttributeValue has more than one datatypes set"; "parameter values were invalid"].

Definition deserialize_error (msg : string) : DynamoDbError :=
  if existsb (fun m => list_contains_sub (as_bytes msg) (as_bytes m)) validation_markers
  then ValidationException msg
  else SerializationException ("Start of structure or map found where not expected: " +:+ msg).

(** [.map_err(storage_err_to_dynamo)]. *)
Definition from_storage {A : Type} (r : result StorageError A) : res A :=
  map_err (fun e => Fail (storage_err_to_dynamo e)) r.

(** What [describe_table] says of a vector index. *)
Record VectorIndexDescription : Type := {
  vi_active : bool;
  vi_creating : bool;
  vi_backfilling : option bool
}.

Inductive VectorIndexReadRefusal : Type := RefuseNotFound | RefuseBackfilling | RefuseNotSupported.

Definition classify_vector_index_read (vector_index : option VectorIndexDescription) : VectorIndexReadRefusal :=
  match vector_index with
  | Some vi =>
      if vi_active vi then RefuseNotSupported
      else if vi_creating vi && bool_decide (vi_backfilling vi = Some true) then RefuseBackfilling
      else RefuseNotFound
  | None => RefuseNotFound
  end.

(** The catalog as the handler reads it: the key information of a table, which carries
    the names of its vector indexes; an index by its name; and the state of a vector
    index. *)
Class QueryCatalog : Type := {
  table_key_info : string -> result StorageError TableKeyInfo;
  vector_index_names : TableKeyInfo -> list string;
  index_info_by_table_id : string -> string -> result StorageError IndexInfo;
  describe_vector_index : string -> string -> result StorageError (option VectorIndexDescription)
}.

Definition VECTOR_INDEX_QUERY_NOT_SUPPORTED : string := "Query operation not supported on this index type.".

Section Index.
Context `{HC : QueryCatalog}.

Definition classify_unresolved_index_read (table_name : string) (key_info : TableKeyInfo) (index_name : string)
    : res VectorIndexReadRefusal :=
  if negb (existsb (String.eqb index_name) (vector_index_names key_info)) then Ok RefuseNotFound
  else
    let? vi := from_storage (describe_vector_index table_name index_name) in
    Ok (classify_vector_index_read vi).

(** The index of the request, and whether it is a vector index. *)
Definition resolve_index (table_name : string) (key_info : TableKeyInfo) (index_name : option string)
    : res (option IndexInfo * bool) :=
  match index_name with
  | None => Ok (None, false)
  | Some idx_name =>
      match index_info_by_table_id (tki_table_id key_info) idx_name with
      | Ok info => if bool_decide (index_type info = Vector) then Ok (None, true) else Ok (Some info, false)
      | Err (SE_IndexNotFound name) =>
          let? refusal := classify_unresolved_index_read table_name key_info idx_name in
          match refusal with
          | RefuseNotFound => Err (Fail (storage_err_to_dynamo (SE_IndexNotFound name)))
          | RefuseBackfilling | RefuseNotSupported => Ok (None, true)
          end
      | Err e => Err (Fail (storage_err_to_dynamo e))
      end
  end.
End Index.

(** ** The key condition of a Query *)

Definition resolve_path_attr_name (path : list PathElement) (names : gmap string string) : option string :=
  match path with
  | PAttr name :: _ =>
      match strip_prefix_char "#" name with
      | Some ref_name => names !! ref_name
      | None => Some name
      end
  | _ => None
  end.

Section Handler.
Context `{HC : QueryCatalog} `{HB : Base64Decode} `{HE : SerdeErrors} `{HT : SerdeText}.
Context {D : Type} `{HD : BigDecimal D}.
Implicit Type maps : ExpressionMaps D.

Definition check_key_value_type (attribute_definitions : list AttributeDefinition) maps
    (path : list PathElement) (expr : Expr) : res unit :=
  match resolve_path_attr_name path (em_names maps), expr with
  | Some attr, EPlaceholder name =>
      match find_definition attr attribute_definitions, em_values maps !! name with
      | Some def, Some value =>
          if attr_value_matches_scalar value (ad_attribute_type def) then Ok tt
          else fail "One or more parameter values were invalid: Condition parameter type does not match schema type"
      | _, _ => Ok tt
      end
  | _, _ => Ok tt
  end.

Definition refuse_begins_with_on_number (kc : KeyCondition) (attribute_definitions : list AttributeDefinition)
    maps : res unit :=
  match sk_condition kc with
  | Some (SKBeginsWith path _) =>
      match resolve_path_attr_name path (em_names maps) with
      | Some attr =>
          if existsb (fun d => String.eqb (ad_attribute_name d) attr
                               && bool_decide (ad_attribute_type d = Scalar_N)) attribute_definitions
          then fail "Invalid KeyConditionExpression: Incorrect operand type for operator or function; operator or function: begins_with, operand type: N"
          else Ok tt
      | None => Ok tt
      end
  | _ => Ok tt
  end.

Definition defined_in (names : option (gmap string string)) (ref_name : string) : bool :=
  match names with
  | Some m => is_some (m !! ref_name) || is_some (m !! String "#" ref_name)
  | None => false
  end.

Fixpoint validate_name_refs_in_expr (names : option (gmap string string)) (expr_type : ExpressionKind)
    (expr : Expr) : res unit :=
  match expr with
  | EPath elements =>
      for_each (fun el =>
        match el with
        | PAttr name =>
            match strip_prefix_char "#" name with
            | Some ref_name =>
                if defined_in names ref_name then Ok tt
                else fail ("Invalid " +:+ kind_as_str expr_type
                           +:+ ": An expression attribute name used in the document path is not defined; attribute name: #"
                           +:+ ref_name)
            | None => Ok tt
            end
        | PIndex _ => Ok tt
        end) elements
  | ECompare l _ r | EAnd l r | EOr l r | EArithmetic l _ r =>
      let? _ := validate_name_refs_in_expr names expr_type l in
      validate_name_refs_in_expr names expr_type r
  | ENot inner => validate_name_refs_in_expr names expr_type inner
  | EBetween operand low high =>
      let? _ := validate_name_refs_in_expr names expr_type operand in
      let? _ := validate_name_refs_in_expr names expr_type low in
      validate_name_refs_in_expr names expr_type high
  | EIn operand l =>
      let? _ := validate_name_refs_in_expr names expr_type operand in
      for_each (validate_name_refs_in_expr names expr_type) l
  | EFunction _ args => for_each (validate_name_refs_in_expr names expr_type) args
  | EPlaceholder _ => Ok tt
  end.

Definition reject_empty_key_condition_expression (expr : option string) : res unit :=
  if bool_decide (expr = Some "") then
    fail "Invalid KeyConditionExpression: The expression can not be empty;"
  else Ok tt.

Definition nonempty (s : option string) : bool := match s with Some s => negb (is_empty s) | None => false end.
Definition nonempty_map {A : Type} (m : option (gmap string A)) : bool :=
  match m with Some m => negb (bool_decide (dom m = ∅)) | None => false end.

(** The checks on the parameters of the request, before any expression is parsed. *)
Definition check_parameters (input : QueryInput) : res unit :=
  let kce_present := is_some (qi_key_condition_expression input) in
  let? _ := validate_no_expression_param_mixing
    [("AttributesToGet", match qi_attributes_to_get input with Some (_ :: _) => true | _ => false end);
     ("QueryFilter", nonempty_map (qi_query_filter input));
     ("ConditionalOperator", is_some (qi_conditional_operator input));
     ("KeyConditions", nonempty_map (qi_key_conditions input) && kce_present)]
    [("ProjectionExpression", is_some (qi_projection_expression input));
     ("FilterExpression", is_some (qi_filter_expression input));
     ("KeyConditionExpression", kce_present)] in
  let? _ := reject_empty_key_condition_expression (qi_key_condition_expression input) in
  let has_kce := nonempty (qi_key_condition_expression input) in
  let has_filter := nonempty (qi_filter_expression input) in
  let? _ := validate_expression_param_usage (qi_expression_attribute_names input)
    (has_kce || has_filter || nonempty (qi_projection_expression input))
    (qi_expression_attribute_values input) (has_kce || has_filter) [] in
  validate_conditional_operator_usage (is_some (qi_conditional_operator input))
    (match qi_query_filter input with Some m => size m | None => 0 end).

(** The key condition, parsed or rewritten, and the maps of the legacy form. *)
Definition read_key_condition (limits : LimitsConfig) (key_schema : list KeySchemaElement) (input : QueryInput)
    : res (KeyCondition * option (ExpressionMaps D)) :=
  match qi_key_condition_expression input with
  | Some kce =>
      let? kc := parse_key_condition_expr kce limits in
      Ok (kc, None)
  | None =>
      match qi_key_conditions input with
      | Some kc =>
          let pairs := map (fun ks => (ks_attribute_name ks, bool_decide (ks_key_type ks = Hash))) key_schema in
          let? (kc, maps) := desugar_key_conditions kc pairs in
          Ok (kc, Some maps)
      | None =>
          fail "Either the KeyConditions or KeyConditionExpression parameter must be specified in the request."
      end
  end.

(** Every clause with its key attribute, of the type of the attribute, and the
    partition key among them. *)
Definition assign_key_condition (key_info : TableKeyInfo) maps (kc : KeyCondition) : res KeyCondition :=
  match tki_key_schema key_info with
  | [] => Err Panic
  | first :: _ =>
      let pk_attr := ks_attribute_name first in
      let multipart := is_multipart_key_schema (tki_key_schema key_info) in
      let type_definitions :=
        if multipart then
          List.filter (fun def => existsb (fun ks => String.eqb (ks_attribute_name ks) (ad_attribute_name def))
            (tki_key_schema key_info)) (tki_attribute_definitions key_info)
        else tki_attribute_definitions key_info in
      let? kc := resolve_key_schema_with (check_key_value_type type_definitions maps) kc
                   (tki_key_schema key_info) (em_names maps) in
      let? _ := refuse_begins_with_on_number kc (tki_attribute_definitions key_info) maps in
      if negb multipart
         && negb (bool_decide (resolve_path_attr_name (pk_path kc) (em_names maps) = Some pk_attr))
      then fail ("Query condition missed key schema element: " +:+ pk_attr)
      else Ok kc
  end.

(** A filter, parsed or rewritten. *)
Definition choose_filter (limits : LimitsConfig) (legacy : option (gmap string LegacyCondition))
    (conditional_operator : option ConditionalOperator) (filter_expression : option string)
    : res (option Expr * option (ExpressionMaps D)) :=
  if nonempty_map legacy then
    let? (expr, fmaps) := desugar_filter (default ∅ legacy) (default OpAnd conditional_operator) in
    Ok (Some expr, Some fmaps)
  else
    let? filter := parse_optional_filter filter_expression limits in
    Ok (filter, None).

(** The filter of a Query, whose name references are checked. *)
Definition read_filter (limits : LimitsConfig) (input : QueryInput)
    : res (option Expr * option (ExpressionMaps D)) :=
  let? (filter, maps) := choose_filter limits (qi_query_filter input) (qi_conditional_operator input)
                           (qi_filter_expression input) in
  let? _ :=
    match filter with
    | Some e => validate_name_refs_in_expr (qi_expression_attribute_names input) KFilter e
    | None => Ok tt
    end in
  Ok (filter, maps).

(** [AttributesToGet] as a projection: placeholders, and the names they stand for. *)
Definition attributes_projection (attrs : list string) : string * gmap string string :=
  let placeholders := imap (fun i attr => ("_ag" +:+ nat_to_string i, attr)) attrs in
  (join ", " (map (fun p => String "#" p.1) placeholders), list_to_map placeholders).

(** The paths of the projection, the names that [AttributesToGet] adds, and the
    projection compiled. *)
Definition read_projection (limits : LimitsConfig) (projection_expression : option string)
    (attributes_to_get : option (list string)) maps
    : res (option (list (list PathElement)) * gmap string string * option ProjNode) :=
  let '(proj_str, extra) :=
    match projection_expression, attributes_to_get with
    | Some pe, _ => (Some pe, ∅)
    | None, Some attrs => let '(s, names) := attributes_projection attrs in (Some s, names)
    | None, None => (None, ∅)
    end in
  match proj_str with
  | None => Ok (None, extra, None)
  | Some proj_str =>
      let? paths := parse_projection_expr proj_str limits in
      let? compiled := compile paths (maps_new (D := D) (extra ∪ em_names maps) ∅)
                         (is_some projection_expression) in
      Ok (Some paths, extra, Some compiled)
  end.

(** [hash_order] is the order in which a hash map walks its keys. *)
Variable hash_order : gset string -> list string.

Definition check_unused (filter : option Expr) (projection : option (list (list PathElement))) (kc : KeyCondition)
    maps : res unit :=
  let '(kc_names, kc_values) := collect_key_condition_refs kc in
  let kc_names := fold_left (fun names path => collect_path_refs path names) (default [] projection) kc_names in
  validate_unused_attributes (hash_order (dom (em_names maps))) (hash_order (dom (em_values maps)))
    (option_list filter) [] kc_names kc_values.

(** A request ready to be read from storage. *)
Record Prepared : Type := {
  qp_input : QueryInput;
  qp_key_info : TableKeyInfo;
  qp_key_condition : KeyCondition;
  qp_effective_maps : ExpressionMaps D;
  qp_combined_maps : ExpressionMaps D;
  qp_index : option IndexInfo;
  qp_post : PostRead D
}.

Definition read_shape (p : Prepared) : QueryReadShape :=
  {| qs_key_schema := tki_key_schema (qp_key_info p); qs_on_index := is_some (qp_index p);
     qs_forward := qi_scan_index_forward (qp_input p) |}.

Definition check_start_key (key_info : TableKeyInfo) (p : Prepared) : res unit :=
  match qi_exclusive_start_key (qp_input p) with
  | Some start_key =>
      let? _ := validate_query_exclusive_start_key start_key key_info (qp_index p) in
      let? _ := validate_query_start_key_bounds start_key (qp_key_condition p) (qp_effective_maps p)
                  (read_shape p) in
      validate_query_select_index_support (qi_select (qp_input p)) (qp_index p)
  | None => Ok tt
  end.

(** The key information of what is read: the index has the table's in its base. *)
Definition query_key_info (key_info : TableKeyInfo) (index_info : option IndexInfo) : TableKeyInfo :=
  match index_info with
  | Some idx =>
      {| tki_table_id := tki_table_id key_info; tki_key_schema := idx_key_schema idx;
         tki_base_key_schema := tki_key_schema key_info;
         tki_attribute_definitions := tki_attribute_definitions key_info |}
  | None => key_info
  end.

(** The request up to the read. *)
Definition prepare_query (limits : LimitsConfig) (body : Value) : res Prepared :=
  let? _ := validate_enum_fields body
    [{| ef_json_name := "ReturnConsumedCapacity"; ef_valid := ["INDEXES"; "TOTAL"; "NONE"];
        ef_clause := Named "returnConsumedCapacity" |}] in
  let? _ := validate_enum_fields body
    [{| ef_json_name := "Select";
        ef_valid := ["SPECIFIC_ATTRIBUTES"; "COUNT"; "ALL_ATTRIBUTES"; "ALL_PROJECTED_ATTRIBUTES"];
        ef_clause := Named "select" |}] in
  let? input := map_err (fun e => Fail (deserialize_error e)) (de_query_input body) in
  let? key_info := from_storage (table_key_info (qi_table_name input)) in
  let? (index_info, vector_index_named) := resolve_index (qi_table_name input) key_info (qi_index_name input) in
  let? _ :=
    if bool_decide (qi_consistent_read input = Some true)
       && (vector_index_named || match index_info with Some i => bool_decide (index_type i = Gsi) | None => false end)
    then fail "Consistent reads are not supported on global secondary indexes"
    else Ok tt in
  let? _ :=
    if is_some (qi_exclusive_start_key input) then Ok tt
    else validate_query_select_index_support (qi_select input) index_info in
  let? _ :=
    match qi_limit input with
    | Some limit =>
        if (limit <? 1)%Z then
          fail "1 validation error detected: Value at 'Limit' failed to satisfy constraint: Member must have value greater than or equal to 1"
        else Ok tt
    | None => Ok tt
    end in
  let read_info := query_key_info key_info index_info in
  let? _ := check_parameters input in
  let maps := build_expression_maps (D := D) (qi_expression_attribute_names input)
                (qi_expression_attribute_values input) in
  let? (kc, legacy_maps) := read_key_condition limits (tki_key_schema read_info) input in
  let? _ := if vector_index_named then fail VECTOR_INDEX_QUERY_NOT_SUPPORTED else Ok tt in
  let effective_maps := default maps legacy_maps in
  let? kc := assign_key_condition read_info effective_maps kc in
  let? (filter, filter_maps) := read_filter limits input in
  let? (projection, extra_proj_names, compiled) := read_projection limits (qi_projection_expression input)
    (qi_attributes_to_get input) maps in
  let? _ := check_unused filter projection kc maps in
  let? _ := validate_select_projection (qi_select input) (nonempty (qi_projection_expression input))
    (match qi_attributes_to_get input with Some (_ :: _) => true | _ => false end)
    (is_some (qi_index_name input)) true in
  let combined_maps := maps_new (D := D) (extra_proj_names ∪ em_names maps)
    (from_option em_values ∅ filter_maps ∪ (from_option em_values ∅ legacy_maps ∪ em_values maps)) in
  let? _ :=
    match filter with
    | Some f =>
        let? _ := prefixed KFilter (validate_begins_with_operands f combined_maps) in
        prefixed KFilter (validate_ordering_operand_types f combined_maps)
    | None => Ok tt
    end in
  let p := {| qp_input := input; qp_key_info := read_info; qp_key_condition := kc;
              qp_effective_maps := effective_maps; qp_combined_maps := combined_maps; qp_index := index_info;
              qp_post := {| pr_filter := filter; pr_projection := compiled; pr_maps := combined_maps;
                            pr_lek_key_schema := combined_lek_key_schema (tki_key_schema key_info) index_info;
                            pr_select := qi_select input;
                            pr_index_proj := if bool_decide (qi_select input = Some AllProjectedAttributes)
                                             then index_info else None;
                            pr_base_key_schema := tki_key_schema key_info |} |} in
  let? _ := check_start_key key_info p in
  Ok p.

(** A page that ends at the far end of the range carries no key. *)
Definition without_far_key (p : Prepared) (page : PageReadResult) : PageReadResult :=
  match pg_last_evaluated_key page with
  | Some last_key =>
      if page_ends_at_far_end last_key (qp_key_condition p) (qp_effective_maps p) (read_shape p) then
        {| pg_items := pg_items page; pg_count := pg_count page; pg_scanned_count := pg_scanned_count page;
           pg_last_evaluated_key := None; pg_evaluated_bytes := pg_evaluated_bytes page |}
      else page
  | None => page
  end.

(** [storage.query], with the state of storage. *)
Context {W : Type}.
Variable storage_query : TableKeyInfo -> KeyCondition -> ExpressionMaps D -> bool -> option Z -> option Item
  -> option string -> W -> QueryResult * W.

Definition query_page (p : Prepared) (fuel : nat) (w : W) : res PageReadResult :=
  read_page (fun cursor count w =>
      storage_query (qp_key_info p) (qp_key_condition p) (qp_combined_maps p)
        (qi_scan_index_forward (qp_input p)) (Some count) cursor (qi_index_name (qp_input p)) w)
    fuel (qi_limit (qp_input p)) (qi_exclusive_start_key (qp_input p)) (qp_post p) w.

Definition handle_query (limits : LimitsConfig) (body : Value) (fuel : nat) (w : W) : res PageReadResult :=
  let? p := prepare_query limits body in
  let? page := query_page p fuel w in
  Ok (without_far_key p page).
End Handler.
