(* ===== verification/ScanHandler.v ===== *)
(** * The Scan handler

    [crates/engine/src/scan.rs]: from the JSON body of a Scan to the page of the answer,
    with the catalog and the storage reads as parameters; the report of consumed
    capacity is left out. *)

From S2P Require Import Prelude BTree Types Error Decimal Ast Tokenizer Resolver Evaluator Projection.
From S2P Require Import KeyCondition KeyResolve ItemSize Storage ReadPage StartKey StorageKey Wire NumberKey.
From S2P Require Import ExpressionHelpers LegacyFilter QueryHandler.

Record ScanInput : Type := {
  si_table_name : string;
  si_index_name : option string;
  si_filter_expression : option string;
  si_projection_expression : option string;
  si_expression_attribute_names : option (gmap string string);
  si_expression_attribute_values : option (gmap string AttributeValue);
  si_limit : option Z;
  si_exclusive_start_key : option Item;
  si_select : option Select;
  si_segment : option Z;
  si_total_segments : option Z;
  si_consistent_read : option bool;
  si_return_consumed_capacity : ReturnConsumedCapacity;
  si_scan_filter : option (gmap string LegacyCondition);
  si_attributes_to_get : option (list string);
  si_conditional_operator : option ConditionalOperator
}.

Section Decode.
Context `{HD : Base64Decode} `{HE : SerdeErrors} `{HT : SerdeText}.

Definition scan_fields : list Field :=
  [field "TableName" false de_string;
   field "IndexName" false (de_option de_string);
   field "FilterExpression" false (de_option de_string);
   field "ProjectionExpression" false (de_option de_string);
   field "ExpressionAttributeNames" true deserialize_expression_names;
   field "ExpressionAttributeValues" true deserialize_expression_values;
   field "Limit" false (de_option de_i64);
   field "ExclusiveStartKey" false (de_option de_item);
   field "Select" false (de_option de_select);
   field "Segment" false (de_option de_i64);
   field "TotalSegments" false (de_option de_i64);
   field "ConsistentRead" false (de_option de_bool);
   field "ReturnConsumedCapacity" true de_return_consumed_capacity;
   field "ScanFilter" false (de_option (de_hash_map de_condition));
   field "AttributesToGet" false (de_option (de_vec de_string));
   field "ConditionalOperator" false (de_option de_conditional_operator)].

(** The fields of the structure, from the values that were found for them. *)
Definition scan_input_of (found : string -> option Value) : result string ScanInput :=
  let? table_name := get_required found "TableName" de_string in
  let? index_name := get_or found "IndexName" (de_option de_string) None in
  let? fe := get_or found "FilterExpression" (de_option de_string) None in
  let? pe := get_or found "ProjectionExpression" (de_option de_string) None in
  let? names := get_or found "ExpressionAttributeNames" deserialize_expression_names None in
  let? values := get_or found "ExpressionAttributeValues" deserialize_expression_values None in
  let? limit := get_or found "Limit" (de_option de_i64) None in
  let? start := get_or found "ExclusiveStartKey" (de_option de_item) None in
  let? select := get_or found "Select" (de_option de_select) None in
  let? segment := get_or found "Segment" (de_option de_i64) None in
  let? total := get_or found "TotalSegments" (de_option de_i64) None in
  let? consistent := get_or found "ConsistentRead" (de_option de_bool) None in
  let? capacity := get_or found "ReturnConsumedCapacity" de_return_consumed_capacity CapNone in
  let? sf := get_or found "ScanFilter" (de_option (de_hash_map de_condition)) None in
  let? atg := get_or found "AttributesToGet" (de_option (de_vec de_string)) None in
  let? cond_op := get_or found "ConditionalOperator" (de_option de_conditional_operator) None in
  Ok {| si_table_name := table_name; si_index_name := index_name; si_filter_expression := fe;
        si_projection_expression := pe; si_expression_attribute_names := names;
        si_expression_attribute_values := values; si_limit := limit; si_exclusive_start_key := start;
        si_select := select; si_segment := segment; si_total_segments := total;
        si_consistent_read := consistent; si_return_consumed_capacity := capacity; si_scan_filter := sf;
        si_attributes_to_get := atg; si_conditional_operator := cond_op |}.

(** [serde_json::from_value::<ScanInput>]. *)
Definition de_scan_input (body : Value) : result string ScanInput :=
  let? found := de_struct scan_fields body in scan_input_of found.
End Decode.

(** ** Checks *)

Definition VECTOR_INDEX_SCAN_NOT_SUPPORTED : string := "Scan operation not supported on this index type".
Definition VECTOR_INDEX_BACKFILLING_SCAN_PREFIX : string := "Cannot read from backfilling global secondary index: ".

Section Index.
Context `{HC : QueryCatalog}.

Definition resolve_scan_index (table_name : string) (key_info : TableKeyInfo) (index_name : option string)
    : res (option IndexInfo) :=
  match index_name with
  | None => Ok None
  | Some idx_name =>
      match index_info_by_table_id (tki_table_id key_info) idx_name with
      | Ok info =>
          if bool_decide (index_type info = Vector) then fail VECTOR_INDEX_SCAN_NOT_SUPPORTED else Ok (Some info)
      | Err (SE_IndexNotFound name) =>
          let? refusal := classify_unresolved_index_read table_name key_info idx_name in
          match refusal with
          | RefuseNotFound => Err (Fail (storage_err_to_dynamo (SE_IndexNotFound name)))
          | RefuseBackfilling => fail (VECTOR_INDEX_BACKFILLING_SCAN_PREFIX +:+ idx_name)
          | RefuseNotSupported => fail VECTOR_INDEX_SCAN_NOT_SUPPORTED
          end
      | Err e => Err (Fail (storage_err_to_dynamo e))
      end
  end.
End Index.

Definition out_of_range {A : Type} (value : Z) (name bound : string) : res A :=
  fail ("1 validation error detected: Value '" +:+ Z_to_string value +:+ "' at '" +:+ name
        +:+ "' failed to satisfy constraint: Member must have value " +:+ bound).

Definition check_segments (segment total_segments : option Z) : res unit :=
  match segment, total_segments with
  | Some _, None =>
      fail "The TotalSegments parameter is required but was not present in the request when Segment parameter is present"
  | None, Some _ =>
      fail "The Segment parameter is required but was not present in the request when parameter TotalSegments is present"
  | Some seg, Some total =>
      if (total <? 1)%Z then fail "The parameter TotalSegments should be greater than or equal to 1"
      else if (1000000 <? total)%Z then out_of_range total "totalSegments" "less than or equal to 1000000"
      else if (seg <? 0)%Z then out_of_range seg "segment" "greater than or equal to 0"
      else if (999999 <? seg)%Z then out_of_range seg "segment" "less than or equal to 999999"
      else if (total <=? seg)%Z then
        fail ("The Segment parameter is zero-based and must be less than parameter TotalSegments: Segment: "
              +:+ Z_to_string seg +:+ " is not less than TotalSegments: " +:+ Z_to_string total)
      else Ok tt
  | None, None => Ok tt
  end.

Definition check_scan_parameters (input : ScanInput) : res unit :=
  let? _ := validate_no_expression_param_mixing
    [("AttributesToGet", match si_attributes_to_get input with Some (_ :: _) => true | _ => false end);
     ("ScanFilter", nonempty_map (si_scan_filter input));
     ("ConditionalOperator", is_some (si_conditional_operator input))]
    [("ProjectionExpression", is_some (si_projection_expression input));
     ("FilterExpression", is_some (si_filter_expression input))] in
  let has_filter := nonempty (si_filter_expression input) in
  let? _ := validate_expression_param_usage (si_expression_attribute_names input)
    (nonempty (si_projection_expression input) || has_filter)
    (si_expression_attribute_values input) has_filter [KFilter] in
  validate_conditional_operator_usage (is_some (si_conditional_operator input))
    (match si_scan_filter input with Some m => size m | None => 0 end).

(** The second check of [Select], with the index and the projection at hand. *)
Definition check_scan_select (input : ScanInput) (index_info : option IndexInfo) : res unit :=
  let? _ :=
    if bool_decide (si_select input = Some AllProjectedAttributes) && negb (is_some index_info)
    then fail "ALL_PROJECTED_ATTRIBUTES can be used only when Querying using an IndexName" else Ok tt in
  if bool_decide (si_select input = Some Count)
     && (is_some (si_projection_expression input) || is_some (si_attributes_to_get input))
  then fail "Cannot specify the ProjectionExpression when Select is COUNT" else Ok tt.

Section Handler.
Context `{HC : QueryCatalog} `{HB : Base64Decode} `{HE : SerdeErrors} `{HT : SerdeText}.
Context {D : Type} `{HD : BigDecimal D}.
Implicit Type maps : ExpressionMaps D.
Variable hash_order : gset string -> list string.

Definition check_scan_unused (filter : option Expr) (projection : option (list (list PathElement))) maps : res unit :=
  let names := fold_left (fun names path => collect_path_refs path names) (default [] projection) ∅ in
  validate_unused_attributes (hash_order (dom (em_names maps))) (hash_order (dom (em_values maps)))
    (option_list filter) [] names ∅.

(** The expressions of a request, read before the table is looked up. *)
Record ScanExpressions : Type := {
  sx_filter : option Expr;
  sx_projection : option ProjNode;
  sx_maps : ExpressionMaps D
}.

Definition read_scan_expressions (limits : LimitsConfig) (input : ScanInput) : res ScanExpressions :=
  let? _ := check_scan_parameters input in
  let maps := build_expression_maps (D := D) (si_expression_attribute_names input)
                (si_expression_attribute_values input) in
  let? (filter, filter_maps) := choose_filter (D := D) limits (si_scan_filter input) (si_conditional_operator input)
                                  (si_filter_expression input) in
  let? (projection, extra_proj_names, compiled) := read_projection limits (si_projection_expression input)
    (si_attributes_to_get input) maps in
  let? _ := validate_select_projection (si_select input) (nonempty (si_projection_expression input))
    (match si_attributes_to_get input with Some (_ :: _) => true | _ => false end)
    (is_some (si_index_name input)) false in
  let? _ := check_scan_unused filter projection maps in
  Ok {| sx_filter := filter; sx_projection := compiled;
        sx_maps := maps_new (D := D) (extra_proj_names ∪ em_names maps)
                     (from_option em_values ∅ filter_maps ∪ em_values maps) |}.

(** What is read: the table or the index, once the parameters that depend on it hold. *)
Definition resolve_scan (input : ScanInput) : res (TableKeyInfo * option IndexInfo) :=
  let? key_info := from_storage (table_key_info (si_table_name input)) in
  let? index_info := resolve_scan_index (si_table_name input) key_info (si_index_name input) in
  let? _ :=
    if bool_decide (si_consistent_read input = Some true)
       && match index_info with Some i => bool_decide (index_type i = Gsi) | None => false end
    then fail "Consistent reads are not supported on global secondary indexes"
    else Ok tt in
  let? _ := validate_query_select_index_support (si_select input) index_info in
  let? _ := check_segments (si_segment input) (si_total_segments input) in
  let? _ :=
    match si_limit input with
    | Some limit =>
        if (limit <? 1)%Z then out_of_range limit "limit" "greater than or equal to 1" else Ok tt
    | None => Ok tt
    end in
  let? _ := check_scan_select input index_info in
  Ok (key_info, index_info).

Context {W : Type}.
(** [storage.scan] and [storage.scan_key_in_segment]. *)
Variable storage_scan : TableKeyInfo -> option Z -> option Item -> option Z -> option Z -> option string -> W
  -> QueryResult * W.
Variable scan_key_in_segment : TableKeyInfo -> Item -> Z -> Z -> option string -> W -> result StorageError bool.

Definition check_scan_start_key (input : ScanInput) (key_info : TableKeyInfo) (index_info : option IndexInfo) (w : W)
    : res unit :=
  match si_exclusive_start_key input with
  | None => Ok tt
  | Some start_key =>
      let? _ := validate_scan_exclusive_start_key start_key key_info index_info in
      match si_segment input, si_total_segments input with
      | Some seg, Some total =>
          let? in_segment := from_storage
            (scan_key_in_segment (query_key_info key_info index_info) start_key seg total (si_index_name input) w) in
          if in_segment : bool then Ok tt
          else
            fail ("The provided starting key is invalid: Invalid ExclusiveStartKey. Please use ExclusiveStartKey with correct Segment. TotalSegments: "
                  +:+ Z_to_string total +:+ " Segment: " +:+ Z_to_string seg)
      | _, _ => Ok tt
      end
  end.

Definition check_filter_operands (sx : ScanExpressions) : res unit :=
  match sx_filter sx with
  | Some f =>
      let? _ := prefixed KFilter (validate_begins_with_operands f (sx_maps sx)) in
      prefixed KFilter (validate_ordering_operand_types f (sx_maps sx))
  | None => Ok tt
  end.

Definition scan_post (input : ScanInput) (sx : ScanExpressions) (key_info : TableKeyInfo)
    (index_info : option IndexInfo) : PostRead D :=
  {| pr_filter := sx_filter sx; pr_projection := sx_projection sx; pr_maps := sx_maps sx;
     pr_lek_key_schema := combined_lek_key_schema (tki_key_schema key_info) index_info;
     pr_select := si_select input;
     pr_index_proj := if bool_decide (si_select input = Some AllProjectedAttributes) then index_info else None;
     pr_base_key_schema := tki_key_schema key_info |}.

Definition scan_enums : list EnumField :=
  [{| ef_json_name := "Select";
      ef_valid := ["SPECIFIC_ATTRIBUTES"; "COUNT"; "ALL_ATTRIBUTES"; "ALL_PROJECTED_ATTRIBUTES"];
      ef_clause := Named "select" |};
   {| ef_json_name := "ReturnConsumedCapacity"; ef_valid := ["INDEXES"; "TOTAL"; "NONE"];
      ef_clause := Named "returnConsumedCapacity" |}].

(** A request that passed the checks. *)
Record ScanPrepared : Type := {
  sp_input : ScanInput;
  sp_expressions : ScanExpressions;
  sp_key_info : TableKeyInfo;
  sp_index_info : option IndexInfo
}.

Definition prepare_scan (limits : LimitsConfig) (body : Value) (w : W) : res ScanPrepared :=
  let? _ := validate_enum_fields body scan_enums in
  let? input := map_err (fun e => Fail (deserialize_error e)) (de_scan_input body) in
  let? sx := read_scan_expressions limits input in
  let? (key_info, index_info) := resolve_scan input in
  let? _ := check_scan_start_key input key_info index_info w in
  let? _ := check_filter_operands sx in
  Ok {| sp_input := input; sp_expressions := sx; sp_key_info := key_info; sp_index_info := index_info |}.

Definition sp_post (p : ScanPrepared) : PostRead D :=
  scan_post (sp_input p) (sp_expressions p) (sp_key_info p) (sp_index_info p).

Definition scan_page (p : ScanPrepared) (fuel : nat) (w : W) : res PageReadResult :=
  let input := sp_input p in
  read_page (fun cursor count w =>
      storage_scan (query_key_info (sp_key_info p) (sp_index_info p)) (Some count) cursor (si_segment input)
        (si_total_segments input) (si_index_name input) w)
    fuel (si_limit input) (si_exclusive_start_key input) (sp_post p) w.

Definition handle_scan (limits : LimitsConfig) (body : Value) (fuel : nat) (w : W) : res PageReadResult :=
  let? p := prepare_scan limits body w in scan_page p fuel w.
End Handler.
