(* ===== verification/LeadingKeys.v ===== *)
(** * The leading keys of a request

    [crates/server/src/leading_keys.rs]: the partition key values that authorization
    binds to [dynamodb:LeadingKeys], read from the JSON body of a request before the
    engine decodes it. *)

From S2P Require Import Prelude BTree Types Error Decimal Number Ast Tokenizer Resolver Projection.
From S2P Require Import KeyCondition KeyResolve ItemSize Storage StorageKey Wire ExpressionHelpers.

(** [TableKeyInfo] with its indexes. *)
Record AuthzKeyInfo : Type := {
  ak_key_info : TableKeyInfo;
  ak_global_secondary_indexes : list IndexInfo;
  ak_local_secondary_indexes : list IndexInfo
}.

Record AuthzTarget : Type := {
  at_action : string;
  at_table : string;
  at_leading_keys : option (list string)
}.

#[export] Instance AuthzTarget_eq_dec : EqDecision AuthzTarget.
Proof. solve_decision. Defined.

Definition hash_attr (schema : list KeySchemaElement) : option string :=
  ks_attribute_name <$> List.find (fun e => bool_decide (ks_key_type e = Hash)) schema.

(** ** Values *)

Inductive NumberForm : Type := Normalized | DecimalForm.

(** The digits with the point [scale] places from their end, or in scientific
    notation. *)
Definition java_layout (coefficient : list ascii) (scale adjusted : Z) : list ascii :=
  if (0 <=? scale)%Z && (-6 <=? adjusted)%Z then
    let scale := Z.to_nat scale in
    if scale =? 0 then coefficient
    else if scale <? length coefficient then
      take (length coefficient - scale) coefficient ++ "."%char :: drop (length coefficient - scale) coefficient
    else "0"%char :: "."%char :: replicate (scale - length coefficient) "0"%char ++ coefficient
  else
    take 1 coefficient ++ (if bool_decide (drop 1 coefficient = []) then [] else "."%char :: drop 1 coefficient)
    ++ "E"%char :: (if (0 <=? adjusted)%Z then "+"%char :: N_to_bytes (Z.to_N adjusted)
                    else "-"%char :: N_to_bytes (Z.to_N (- adjusted))).

Definition java_decimal_string (raw : string) : option string :=
  let '(negative, rest) :=
    match strip_prefix_char "-" raw with
    | Some r => (true, as_bytes r)
    | None => (false, as_bytes (default raw (strip_prefix_char "+" raw)))
    end in
  '(mantissa, exponent) ←
    match split_once is_exp_char rest with
    | Some (m, e) => z ← parse_i64 e; Some (m, z)
    | None => Some (rest, 0%Z)
    end;
  let '(int_part, frac_part) := default (mantissa, []) (split_once is_point mantissa) in
  let coefficient :=
    match trim_start_zeros (int_part ++ frac_part) with [] => ["0"%char] | c => c end in
  let scale := (Z.of_nat (length frac_part) - exponent)%Z in
  let adjusted := (Z.of_nat (length coefficient) - 1 - scale)%Z in
  Some (of_bytes ((if negative && negb (bool_decide (coefficient = ["0"%char])) then ["-"%char] else [])
                  ++ java_layout coefficient scale adjusted)).

Definition extract_typed_value (type_val : Value) (form : NumberForm) : option string :=
  match type_val with
  | VObject ((type_tag, inner) :: _) =>
      let raw := default "" (as_str inner) in
      if String.eqb type_tag "N" then
        match validate_and_normalize_number raw with
        | Ok normalized =>
            match form with
            | Normalized => Some normalized
            | DecimalForm => java_decimal_string raw
            end
        | Err _ => None
        end
      else Some raw
  | _ => None
  end.

Definition as_object (v : Value) : option (list (string * Value)) :=
  match v with VObject o => Some o | _ => None end.

Definition as_array (v : Value) : option (list Value) :=
  match v with VArray l => Some l | _ => None end.

Definition pk_from_map (map : Value) (pk_attr : string) (form : NumberForm) : option string :=
  v ← json_get map pk_attr; extract_typed_value v form.

(** ** Query *)

Definition resolve_attr_name (path : list PathElement) (names : gmap string string) : option string :=
  match path with
  | PAttr name :: _ =>
      match strip_prefix_char "#" name with
      | Some reference => names !! reference
      | None => Some name
      end
  | _ => None
  end.

(** The later of two entries with one key stays. *)
Definition add_name (out : gmap string string) (kv : string * Value) : gmap string string :=
  match as_str kv.2 with
  | Some s => <[default kv.1 (strip_prefix_char "#" kv.1) := s]> out
  | None => out
  end.

Definition add_value (out : gmap string Value) (kv : string * Value) : gmap string Value :=
  <[default kv.1 (strip_prefix_char ":" kv.1) := kv.2]> out.

Definition names_map (input : Value) : gmap string string :=
  match json_get input "ExpressionAttributeNames" ≫= as_object with
  | Some m => fold_left add_name m ∅
  | None => ∅
  end.

Definition values_map (input : Value) : gmap string Value :=
  match json_get input "ExpressionAttributeValues" ≫= as_object with
  | Some m => fold_left add_value m ∅
  | None => ∅
  end.

Definition value_of (expr : Expr) (values : gmap string Value) : option string :=
  match expr with
  | EPlaceholder name => v ← values !! name; extract_typed_value v Normalized
  | _ => None
  end.

(** [Result::ok]. *)
Definition ok {A : Type} (r : res A) : option A := match r with Ok a => Some a | Err _ => None end.

Definition equality_pk_value (tokens : list Token) (key_schema : list KeySchemaElement) (pk_attr : string)
    (names : gmap string string) (values : gmap string Value) : option string :=
  kc ← ok (parse_key_condition tokens);
  kc ← ok (resolve_key_schema kc key_schema names);
  if bool_decide (resolve_attr_name (pk_path kc) names = Some pk_attr) then value_of (pk_value kc) values
  else None.

Definition LEGACY_SINGLE_OPERAND_OPERATORS : list string :=
  ["EQ"; "NE"; "LE"; "LT"; "GE"; "GT"; "CONTAINS"; "NOT_CONTAINS"; "BEGINS_WITH"].

(** The key schema of what is read: the index that the request names, or the table. *)
Definition queried_schema (input : Value) (key_info : AuthzKeyInfo) : option (list KeySchemaElement) :=
  match json_get input "IndexName" ≫= as_str with
  | Some index =>
      idx_key_schema <$> List.find (fun i => String.eqb (index_name i) index)
        (ak_global_secondary_indexes key_info ++ ak_local_secondary_indexes key_info)
  | None => Some (tki_key_schema (ak_key_info key_info))
  end.

(** The key of a [KeyConditionExpression]. *)
Definition expression_leading_key (kce : string) (max_tokens : N) (key_schema : list KeySchemaElement)
    (pk_attr : string) (names : gmap string string) (values : gmap string Value) : option string :=
  tokens ← ok (tokenize_with_limit kce max_tokens);
  operands ← ok (key_condition_clause_operands tokens);
  let pk_clauses :=
    List.filter (fun c => bool_decide (resolve_attr_name (kco_path c) names = Some pk_attr)) operands in
  if existsb kco_equality pk_clauses then equality_pk_value tokens key_schema pk_attr names values
  else
    match pk_clauses with
    | [clause] => value_of (kco_value clause) values
    | _ => None
    end.

(** The key of legacy [KeyConditions]. *)
Definition legacy_leading_key (conds : Value) (pk_attr : string) : option string :=
  cond ← json_get conds pk_attr;
  operator ← (json_get cond "ComparisonOperator" ≫= as_str);
  if existsb (String.eqb operator) LEGACY_SINGLE_OPERAND_OPERATORS then
    list ← (json_get cond "AttributeValueList" ≫= as_array);
    match list with
    | [v] => extract_typed_value v Normalized
    | _ => None
    end
  else None.

Definition query_leading_keys (input : Value) (key_info : AuthzKeyInfo) (max_tokens : N) : option string :=
  key_schema ← queried_schema input key_info;
  pk_attr ← hash_attr key_schema;
  match json_get input "KeyConditionExpression" ≫= as_str with
  | Some kce =>
      expression_leading_key kce max_tokens key_schema pk_attr (names_map input) (values_map input)
  | None =>
      match json_get input "KeyConditions" with
      | Some conds => legacy_leading_key conds pk_attr
      | None => None
      end
  end.

Definition single_table_leading_keys (input : Value) (operation : string) (key_info : option AuthzKeyInfo)
    (max_tokens : N) : option (list string) :=
  key_info ← key_info;
  let of_item (name : string) :=
    pk_attr ← hash_attr (tki_key_schema (ak_key_info key_info));
    map ← json_get input name;
    v ← pk_from_map map pk_attr Normalized;
    Some [v] in
  if existsb (String.eqb operation) ["GetItem"; "DeleteItem"; "UpdateItem"] then of_item "Key"
  else if String.eqb operation "PutItem" then of_item "Item"
  else if String.eqb operation "Query" then (fun v => [v]) <$> query_leading_keys input key_info max_tokens
  else None.

(** ** Batches and transactions *)

(** The members of a transaction to write: the field, its action and the field of its
    key. *)
Definition transact_members : list (string * string * string) :=
  [("Put", "PutItem", "Item"); ("Delete", "DeleteItem", "Key"); ("Update", "UpdateItem", "Key");
   ("ConditionCheck", "ConditionCheckItem", "Key")].

Definition push_unique (out : list AuthzTarget) (target : AuthzTarget) : list AuthzTarget :=
  if bool_decide (target ∈ out) then out else out ++ [target].

(** The item or the key of a write request. *)
Definition request_map (req : Value) : option Value :=
  match json_get req "PutRequest" ≫= (fun p => json_get p "Item") with
  | Some m => Some m
  | None => json_get req "DeleteRequest" ≫= (fun d => json_get d "Key")
  end.

(** The keys of the entries that have one. *)
Definition found_keys (key : Value -> option string) (entries : option (list Value)) : option (list string) :=
  match entries with
  | None => None
  | Some l => match omap key l with [] => None | keys => Some keys end
  end.

Definition batch_table_keys (operation : string) (body : Value) (pk_attr : option string) : option (list string) :=
  match pk_attr with
  | None => None
  | Some pk_attr =>
      if String.eqb operation "BatchGetItem" then
        found_keys (fun key => pk_from_map key pk_attr Normalized) (json_get body "Keys" ≫= as_array)
      else
        found_keys (fun req => request_map req ≫= (fun m => pk_from_map m pk_attr DecimalForm)) (as_array body)
  end.

Section Targets.
Variable key_info_by_table : gmap string (option AuthzKeyInfo).

Definition pk_attr_of (table : string) : option string :=
  ki ← mjoin (key_info_by_table !! table);
  hash_attr (tki_key_schema (ak_key_info ki)).

(** The target of one member of a transaction. *)
Definition member_target (op : Value) (action key_field : string) : option AuthzTarget :=
  table ← (json_get op "TableName" ≫= as_str);
  Some {| at_action := action; at_table := table;
          at_leading_keys :=
            pk ← pk_attr_of table;
            m ← json_get op key_field;
            v ← pk_from_map m pk DecimalForm;
            Some [v] |}.

(** The targets of an entry of a transaction, for the members it may have. *)
Definition entry_targets (members : list (string * string * string)) (entry : Value) : list AuthzTarget :=
  omap (fun '(sub, action, key_field) =>
    op ← json_get entry sub; member_target op action key_field) members.

Definition transact_targets (members : list (string * string * string)) (input : Value)
    : option (list AuthzTarget) :=
  items ← (json_get input "TransactItems" ≫= as_array);
  Some (fold_left push_unique (concat (map (entry_targets members) items)) []).

Definition batch_transact_targets (operation : string) (input : Value) : option (list AuthzTarget) :=
  if String.eqb operation "BatchGetItem" || String.eqb operation "BatchWriteItem" then
    items ← (json_get input "RequestItems" ≫= as_object);
    Some (map (fun '(table, body) =>
      {| at_action := operation; at_table := table;
         at_leading_keys := batch_table_keys operation body (pk_attr_of table) |}) items)
  else if String.eqb operation "TransactGetItems" then transact_targets [("Get", "GetItem", "Key")] input
  else if String.eqb operation "TransactWriteItems" then transact_targets transact_members input
  else None.
End Targets.

(** The tables that the members of a transaction name. *)
Definition entry_tables (members : list string) (entry : Value) : list string :=
  omap (fun sub => o ← json_get entry sub; t ← json_get o "TableName"; as_str t) members.

Definition transact_tables (members : list string) (input : Value) : option (list string) :=
  match json_get input "TransactItems" ≫= as_array with
  | Some items => Some (set_of_list (concat (map (entry_tables members) items)))
  | None => None
  end.

Definition batch_transact_tables (operation : string) (input : Value) : option (list string) :=
  if String.eqb operation "BatchGetItem" || String.eqb operation "BatchWriteItem" then
    match json_get input "RequestItems" ≫= as_object with
    | Some items => Some (set_of_list (map fst items))
    | None => None
    end
  else if String.eqb operation "TransactGetItems" then transact_tables ["Get"] input
  else if String.eqb operation "TransactWriteItems" then
    transact_tables ["Put"; "Delete"; "Update"; "ConditionCheck"] input
  else None.
