(* ===== verification/LeadingNumber.v ===== *)
(** * Numbers among the leading keys

    Batches and transactions give a numeric leading key in the form of Java's
    [BigDecimal.toString] ([java_decimal_string] of [LeadingKeys]).  That form keeps the
    coefficient and the scale of the number as it was written: it reads back as both,
    and two numbers have the same form only when they agree in both. *)

From S2P Require Import Prelude Types Error Decimal Number ItemSize Wire LeadingKeys.

Local Open Scope Z_scope.

(** ** The parts of the text *)

Lemma parse_exponent_text z : i32_min <= z <= i32_max ->
  parse_i32 (if 0 <=? z then "+"%char :: N_to_bytes (Z.to_N z) else "-"%char :: N_to_bytes (Z.to_N (- z))) = Some z.
Proof.
  intros Hz. unfold i32_min, i32_max in Hz. destruct (Z.leb_spec 0 z); unfold parse_i32; simpl.
  - destruct (N_to_bytes_spec (Z.to_N z)) as (Hd & Hv & Hne). rewrite bool_decide_eq_false_2, Hd, Hv by done.
    rewrite Z2N.id by lia. unfold i32_min, i32_max.
    by rewrite (proj2 (Z.leb_le _ _)), (proj2 (Z.leb_le _ _)) by lia.
  - destruct (N_to_bytes_spec (Z.to_N (- z))) as (Hd & Hv & Hne). rewrite bool_decide_eq_false_2, Hd, Hv by done.
    rewrite Z2N.id, Z.opp_involutive by lia. unfold i32_min, i32_max.
    by rewrite (proj2 (Z.leb_le _ _)), (proj2 (Z.leb_le _ _)) by lia.
Qed.

Lemma scientific (neg : bool) coefficient scale adjusted :
  forallb is_digit coefficient = true -> coefficient <> [] ->
  adjusted = Z.of_nat (length coefficient) - 1 - scale -> i32_min <= adjusted <= i32_max ->
  exists i f e, numeral ((if neg then ["-"%char] else [])
      ++ take 1 coefficient ++ (if bool_decide (drop 1 coefficient = []) then [] else "."%char :: drop 1 coefficient)
      ++ "E"%char :: (if 0 <=? adjusted then "+"%char :: N_to_bytes (Z.to_N adjusted)
                      else "-"%char :: N_to_bytes (Z.to_N (- adjusted)))) neg i f e
    /\ numeral_value neg i f e = (signed neg (digits_val coefficient), - scale).
Proof.
  intros Hd Hne Ea Hadj. destruct coefficient as [|c tail]; [done|]. cbn [take drop].
  simpl in Hd. apply andb_true_iff in Hd as [Hc Ht].
  exists [c], tail, adjusted. split.
  - exists (if neg then ["-"%char] else []), (take 1 (c :: tail) ++ (if bool_decide (tail = []) then [] else "."%char :: tail)).
    eexists. cbn [take]. rewrite <- !app_assoc. split; [reflexivity|]. split; [by destruct neg; auto|].
    split; [case_bool_decide; subst; rewrite ?app_nil_r; auto|]. split; [simpl; by rewrite Hc|]. split; [done|]. split; [done|].
    right. do 2 eexists. split; [reflexivity|]. split; [done|]. by apply parse_exponent_text.
  - unfold numeral_value. simpl. f_equal. simpl length in Ea. lia.
Qed.

(** The layout of a coefficient reads back as the coefficient at its scale. *)
Lemma java_layout_value (neg : bool) coefficient scale :
  forallb is_digit coefficient = true -> coefficient <> [] ->
  let adjusted := Z.of_nat (length coefficient) - 1 - scale in
  i32_min <= adjusted <= i32_max ->
  exists i f e, numeral ((if neg then ["-"%char] else []) ++ java_layout coefficient scale adjusted) neg i f e
    /\ numeral_value neg i f e = (signed neg (digits_val coefficient), - scale).
Proof.
  intros Hd Hne adjusted Hadj. unfold java_layout.
  assert (forall n, forallb is_digit (take n coefficient) = true /\ forallb is_digit (drop n coefficient) = true) as Htd.
  { intros n. apply andb_true_iff. by rewrite <- forallb_app, take_drop. }
  destruct (Z.leb_spec 0 scale) as [Hs|Hs], (Z.leb_spec (-6) adjusted) as [Ha|Ha]; cbn [andb];
    [destruct (Nat.eqb_spec (Z.to_nat scale) 0) as [H0|H0]; [|destruct (Nat.ltb_spec (Z.to_nat scale) (length coefficient)) as [Hl|Hl]]|..].
  - exists coefficient, [], 0. split; [apply numeral_plain; rewrite ?app_nil_r; auto|].
    unfold numeral_value. rewrite app_nil_r. f_equal. simpl. lia.
  - set (n := (length coefficient - Z.to_nat scale)%nat). exists (take n coefficient), (drop n coefficient), 0.
    split; [apply numeral_plain; [by right|apply Htd|apply Htd|by rewrite take_drop]|].
    unfold numeral_value. rewrite take_drop, length_drop. f_equal. unfold n. lia.
  - set (n := (Z.to_nat scale - length coefficient)%nat). exists ["0"%char], (replicate n "0"%char ++ coefficient), 0.
    split.
    { apply numeral_plain; [by right|done| |done]. by rewrite forallb_app, digits_replicate, Hd. }
    unfold numeral_value. rewrite app_assoc, digits_val_zeros_app.
    + rewrite length_app, length_replicate. f_equal. unfold n. lia.
    + change (zeros (["0"%char] ++ replicate n "0"%char) = true). unfold zeros. rewrite forallb_app. apply zeros_replicate.
  - by apply scientific.
  - by apply scientific.
  - by apply scientific.
Qed.

Definition coefficient_of (digits : list ascii) : list ascii :=
  match trim_start_zeros digits with [] => ["0"%char] | c => c end.

Lemma java_sign raw :
  match strip_prefix_char "-" raw with
  | Some r => (true, as_bytes r)
  | None => (false, as_bytes (default raw (strip_prefix_char "+" raw)))
  end = read_sign (as_bytes raw).
Proof.
  destruct raw as [|c r]; [done|]. unfold strip_prefix_char. change (as_bytes (String c r)) with (c :: as_bytes r).
  unfold read_sign. rewrite !(Ascii.eqb_sym c). destruct (Ascii.eqb "-" c); [done|]. by destruct (Ascii.eqb "+" c).
Qed.

Lemma java_numeral raw neg i f e : numeral (as_bytes raw) neg i f e ->
  let coefficient := coefficient_of (i ++ f) in
  let scale := Z.of_nat (length f) - e in
  java_decimal_string raw
  = Some (of_bytes ((if neg && negb (bool_decide (coefficient = ["0"%char])) then ["-"%char] else [])
      ++ java_layout coefficient scale (Z.of_nat (length coefficient) - 1 - scale))).
Proof.
  intros Hn. apply read_numeral_iff in Hn. unfold read_numeral in Hn. unfold java_decimal_string.
  rewrite java_sign. destruct (read_sign (as_bytes raw)) as [neg' rest].
  destruct (read_exp rest) as [[m e']|] eqn:Ee; [|done].
  destruct (read_mantissa m) as [[i' f']|] eqn:Em; [|done]. injection Hn as -> -> -> ->.
  assert (match split_once is_exp_char rest with
          | Some (m, e) => match parse_i64 e with Some z => Some (m, z) | None => None end
          | None => Some (rest, 0)
          end = Some (m, e)) as Hx.
  { unfold read_exp in Ee. destruct (split_once is_exp_char rest) as [[m0 t]|]; [|done].
    destruct (parse_i32 t) as [z|] eqn:Ez; [|done]. by rewrite (parse_i32_i64 _ _ Ez). }
  assert (default (m, []) (split_once is_point m) = (i, f)) as Hm.
  { unfold read_mantissa in Em. destruct (split_once is_point m) as [[i0 f0]|]; simpl in *;
      destruct (_ && _ && _); [by injection Em as -> ->|done|by injection Em as -> ->|done]. }
  change (mbind (fun '(mantissa, exponent) =>
    let '(int_part, frac_part) := default (mantissa, []) (split_once is_point mantissa) in
    let coefficient := coefficient_of (int_part ++ frac_part) in
    let scale := (Z.of_nat (length frac_part) - exponent)%Z in
    let adjusted := (Z.of_nat (length coefficient) - 1 - scale)%Z in
    Some (of_bytes ((if neg && negb (bool_decide (coefficient = ["0"%char])) then ["-"%char] else [])
                  ++ java_layout coefficient scale adjusted)))
    (match split_once is_exp_char rest with
     | Some (m, e) => match parse_i64 e with Some z => Some (m, z) | None => None end
     | None => Some (rest, 0)
     end) = Some (of_bytes ((if neg && negb (bool_decide (coefficient_of (i ++ f) = ["0"%char])) then ["-"%char] else [])
      ++ java_layout (coefficient_of (i ++ f)) (Z.of_nat (length f) - e)
           (Z.of_nat (length (coefficient_of (i ++ f))) - 1 - (Z.of_nat (length f) - e))))).
  rewrite Hx. cbn [mbind option_bind]. rewrite Hm. reflexivity.
Qed.

(** ** The value *)

Lemma coefficient_cases digits : forallb is_digit digits = true ->
  (digits_val digits = 0%N /\ coefficient_of digits = ["0"%char])
  \/ exists z1 sig z2, digits = z1 ++ sig ++ z2 /\ zeros z1 = true /\ zeros z2 = true /\ canonical sig
       /\ coefficient_of digits = sig ++ z2.
Proof.
  intros Hd. unfold coefficient_of.
  destruct (digits_split digits Hd) as [Hz|(z1 & sig & z2 & -> & Hz1 & Hz2 & Hc)].
  - left. by rewrite digits_val_zeros, trim_start_all.
  - right. exists z1, sig, z2. do 4 (split; [done|]). destruct Hc as (_ & Hne & Hl & _).
    rewrite trim_start_app; [by destruct sig|done|by destruct sig|by destruct sig].
Qed.

Lemma coefficient_spec digits : forallb is_digit digits = true ->
  forallb is_digit (coefficient_of digits) = true /\ coefficient_of digits <> []
  /\ digits_val (coefficient_of digits) = digits_val digits.
Proof.
  intros Hd. destruct (coefficient_cases digits Hd) as [[H0 ->]|(z1 & sig & z2 & -> & Hz1 & _ & Hc & ->)].
  - by rewrite H0.
  - rewrite (digits_val_zeros_app z1) by done. split; [|split; [|done]].
    + rewrite forallb_app in Hd. by apply andb_true_iff in Hd as [_ Hd].
    + destruct Hc as (_ & Hne & _). by destruct sig.
Qed.

(** The exponent of the first digit of an accepted number. *)
Lemma adjusted_range raw o neg i f e : short raw -> validate_and_normalize_number raw = Ok o ->
  numeral (as_bytes raw) neg i f e -> digits_val (i ++ f) <> 0%N \/ i32_min <= e - Z.of_nat (length f) ->
  i32_min <= Z.of_nat (length (coefficient_of (i ++ f))) - 1 - (Z.of_nat (length f) - e) <= i32_max.
Proof.
  intros Hs Ho Hn H0. pose proof (numeral_digits _ _ _ _ _ Hn) as [Hi Hf].
  pose proof (numeral_exp_bound _ _ _ _ _ Hn) as He.
  destruct (coefficient_cases (i ++ f)) as [[Hz ->]|(z1 & sig & z2 & El & Hz1 & Hz2 & Hc & ->)];
    [by rewrite forallb_app, Hi, Hf| |].
  - destruct H0 as [|H0]; [congruence|]. simpl. lia.
  - assert (dec_eq (numeral_value neg i f e)
      (signed neg (digits_val sig), e - Z.of_nat (length f) + Z.of_nat (length z2))) as Hq.
    { unfold numeral_value. rewrite El. by apply dec_eq_zeros. }
    rewrite (validate_by_value raw (numeral_value neg i f e) neg sig (e - Z.of_nat (length f) + Z.of_nat (length z2)) Hs) in Ho;
      [|by exists neg, i, f, e|done|exact Hq].
    apply format_plain_in_range in Ho; [|by destruct Hc as (_ & ? & _)].
    rewrite length_app. unfold i32_min, i32_max. lia.
Qed.

Lemma signed_coefficient neg i f : forallb is_digit (i ++ f) = true ->
  signed (neg && negb (bool_decide (coefficient_of (i ++ f) = ["0"%char]))) (digits_val (coefficient_of (i ++ f)))
  = signed neg (digits_val (i ++ f)).
Proof.
  intros Hd. destruct (coefficient_spec _ Hd) as (_ & _ & Hv). rewrite Hv.
  case_bool_decide as E; [|by destruct neg]. rewrite E in Hv. rewrite <- Hv. by destruct neg.
Qed.

Lemma decimal_form raw o d : short raw -> validate_and_normalize_number raw = Ok o -> denotes raw d ->
  d.1 <> 0 \/ i32_min <= d.2 -> exists t, java_decimal_string raw = Some t /\ denotes t d.
Proof.
  intros Hs Ho (neg & i & f & e & Hn & ->) H0. pose proof (numeral_digits _ _ _ _ _ Hn) as [Hi Hf].
  assert (forallb is_digit (i ++ f) = true) as Hd by (by rewrite forallb_app, Hi, Hf).
  rewrite (java_numeral _ _ _ _ _ Hn). eexists. split; [reflexivity|].
  destruct (coefficient_spec _ Hd) as (Hcd & Hcn & _).
  destruct (java_layout_value (neg && negb (bool_decide (coefficient_of (i ++ f) = ["0"%char]))) _ (Z.of_nat (length f) - e)
    Hcd Hcn) as (i' & f' & e' & Hn' & Hv).
  { eapply adjusted_range; [exact Hs|exact Ho|exact Hn|]. destruct H0 as [H0|H0]; [left|by right].
    intros E. apply H0. by apply signed_zero_iff. }
  do 4 eexists. rewrite as_bytes_of_bytes. split; [exact Hn'|]. rewrite Hv, signed_coefficient by done.
  unfold numeral_value. f_equal. lia.
Qed.

(** The coefficient has no zero in front. *)
Lemma coefficient_unique l k : forallb is_digit l = true -> forallb is_digit k = true ->
  digits_val l = digits_val k -> coefficient_of l = coefficient_of k.
Proof.
  intros Hl Hk E.
  destruct (coefficient_spec l Hl) as (Dl & _ & Vl), (coefficient_spec k Hk) as (Dk & _ & Vk).
  destruct (coefficient_cases l Hl) as [[H0 ->]|(z1 & sig & z2 & El & Hz1 & Hz2 & Hc & Ec)],
    (coefficient_cases k Hk) as [[H0' ->]|(z1' & sig' & z2' & El' & Hz1' & Hz2' & Hc' & Ec')]; [done| | |].
  all: assert (forall l z sig z2, digits_val l = 0%N -> l = z ++ sig ++ z2 -> zeros z = true -> ~ canonical sig) as Hpos
    by (intros l0 z s0 z0 Hval -> Hz Hcan; rewrite (digits_val_zeros_app z), digits_val_app in Hval by done;
        apply canonical_val_pos in Hcan; nia).
  - exfalso. eapply Hpos; [|exact El'|done|done]. congruence.
  - exfalso. eapply Hpos; [|exact El|done|done]. congruence.
  - apply digits_val_inj; [done|done| | |congruence].
    + rewrite Ec. destruct Hc as (_ & Hne & Hlz & _). by destruct sig.
    + rewrite Ec'. destruct Hc' as (_ & Hne & Hlz & _). by destruct sig'.
Qed.

Lemma same_form neg i f e neg' i' f' e' : forallb is_digit (i ++ f) = true -> forallb is_digit (i' ++ f') = true ->
  numeral_value neg i f e = numeral_value neg' i' f' e' ->
  coefficient_of (i ++ f) = coefficient_of (i' ++ f')
  /\ Z.of_nat (length f) - e = Z.of_nat (length f') - e'
  /\ neg && negb (bool_decide (coefficient_of (i ++ f) = ["0"%char]))
     = neg' && negb (bool_decide (coefficient_of (i' ++ f') = ["0"%char])).
Proof.
  intros Hd Hd' [= Hv He]. assert (digits_val (i ++ f) = digits_val (i' ++ f')) as E.
  { unfold signed in Hv. destruct neg, neg'; lia. }
  rewrite (coefficient_unique _ _ Hd Hd' E). split; [done|]. split; [lia|].
  case_bool_decide as Ec; [by destruct neg, neg'|]. destruct (decide (digits_val (i' ++ f') = 0%N)) as [Hz|Hz].
  - destruct Ec. destruct (coefficient_cases _ Hd') as [[_ ?]|(z1 & sig & z2 & El & Hz1 & _ & Hc & _)]; [done|].
    exfalso. rewrite El, (digits_val_zeros_app z1), digits_val_app in Hz by done.
    apply canonical_val_pos in Hc. nia.
  - rewrite E in Hv. unfold signed in Hv. destruct neg, neg'; simpl; done || (exfalso; lia).
Qed.

(** A numeric leading key of a batch or a transaction keeps its number.  The form of
    an accepted number denotes the coefficient and the scale that the number was written
    with, so its value is unchanged, and two numbers have the same form exactly when
    they agree in coefficient and scale.  A zero has to have a scale that fits. *)
Theorem decimal_form_value raw o d raw' o' d' : short raw -> validate_and_normalize_number raw = Ok o ->
  denotes raw d -> d.1 <> 0 \/ i32_min <= d.2 ->
  short raw' -> validate_and_normalize_number raw' = Ok o' -> denotes raw' d' -> d'.1 <> 0 \/ i32_min <= d'.2 ->
  (exists t, java_decimal_string raw = Some t /\ denotes t d)
  /\ (java_decimal_string raw = java_decimal_string raw' <-> d = d').
Proof.
  intros Hs Ho Hd H0 Hs' Ho' Hd' H0'. split; [by eapply decimal_form|].
  destruct (decimal_form _ _ _ Hs Ho Hd H0) as (t & Ht & Hdt), (decimal_form _ _ _ Hs' Ho' Hd' H0') as (t' & Ht' & Hdt').
  split.
  - intros E. rewrite Ht, Ht' in E. injection E as ->. by eapply denotes_unique.
  - intros <-. destruct Hd as (neg & i & f & e & Hn & ->), Hd' as (neg' & i' & f' & e' & Hn' & E).
    rewrite (java_numeral _ _ _ _ _ Hn), (java_numeral _ _ _ _ _ Hn').
    pose proof (numeral_digits _ _ _ _ _ Hn) as [Hi Hf]. pose proof (numeral_digits _ _ _ _ _ Hn') as [Hi' Hf'].
    destruct (same_form neg i f e neg' i' f' e') as (Hc & Hsc & Hsg);
      [by rewrite forallb_app, Hi, Hf|by rewrite forallb_app, Hi', Hf'|done|].
    cbv zeta. by rewrite Hsg, Hc, Hsc.
Qed.

Lemma decimal_form_value_witness :
  (exists t, java_decimal_string "+012.50e3" = Some t /\ denotes t (1250, 1))
  /\ (java_decimal_string "+012.50e3" = java_decimal_string "1.250E4" <-> (1250, 1) = (1250, 1)).
Proof.
  apply (decimal_form_value "+012.50e3" "12500" (1250, 1) "1.250E4" "12500" (1250, 1));
    try (apply read_dec_iff); try (left; done); vm_compute; reflexivity.
Defined.
