(* ===== verification/Fence.v ===== *)
(** * Leading keys and the partition that is read

    Authorization reads the partition key of a Query from the JSON body with
    [LeadingKeys]; the engine decodes, rewrites and resolves the same body with
    [QueryHandler].  They agree: on a body whose structures are objects, the key that
    the policies are evaluated with is the text of the value that storage looks up. *)

From S2P Require Import Prelude BTree Types Error Decimal Number Ast Tokenizer Resolver Evaluator Projection.
From S2P Require Import KeyCondition KeyResolve ItemSize Storage ReadPage StartKey StorageKey Wire.
From S2P Require Import ExpressionHelpers LegacyFilter QueryHandler LeadingKeys.

(** The decoder of [base64::STANDARD] accepts the canonical text of the bytes alone. *)
Class Base64Canonical `{Base64} `{Base64Decode} : Prop :=
  b64_encode_decode : forall s b, b64_decode s = Ok b -> b64_encode b = s.

(** The text of a partition key value in [dynamodb:LeadingKeys]. *)
Definition leading_text `{Base64} (v : AttributeValue) : option string :=
  match v with
  | AV_S s => Some s
  | AV_N n => ok (validate_and_normalize_number n)
  | AV_B b => Some (b64_encode b)
  | _ => None
  end.

(** The type of a key attribute. *)
Definition key_scalar (v : AttributeValue) : bool :=
  match v with AV_S _ | AV_N _ | AV_B _ => true | _ => false end.

(** ** Values *)

Section Values.
Context `{HB : Base64} `{HD : Base64Decode} `{HC : !Base64Canonical} `{HE : SerdeErrors}.

Lemma descriptor_other tag value v : String.eqb tag "S" = false -> String.eqb tag "N" = false ->
  String.eqb tag "B" = false -> from_descriptor tag value = Ok v -> key_scalar v = false.
Proof.
  intros H1 H2 H3. destruct value; simpl; rewrite H1, H2, H3;
    unfold string_set, number_set, binary_set; intros Hv; repeat case_match; simplify_eq; done.
Qed.

Lemma descriptor_text tag value v : json_short value = true ->
  from_descriptor tag value = Ok v -> key_scalar v = true ->
  extract_typed_value (VObject [(tag, value)]) Normalized = leading_text v.
Proof.
  intros Hs Hv Hk. destruct (String.eqb tag "S") eqn:E1.
  { apply String.eqb_eq in E1 as ->. destruct value; simpl in Hv; simplify_eq. done. }
  destruct (String.eqb tag "N") eqn:E2.
  { apply String.eqb_eq in E2 as ->. destruct value as [| | |text| |]; simpl in Hv; simplify_eq.
    simpl. unfold number_as_read. destruct (validate_and_normalize_number text) as [o|] eqn:En; simpl; [|by rewrite En].
    rewrite (number_idempotent text o); [done| |done]. unfold short. simpl in Hs. lia. }
  destruct (String.eqb tag "B") eqn:E3.
  - apply String.eqb_eq in E3 as ->. destruct value as [| | |text| |]; simpl in Hv; try done.
    unfold decode_base64 in Hv. destruct (b64_decode text) as [b|] eqn:Eb; [|done]. simpl in Hv. injection Hv as <-.
    simpl. by rewrite (b64_encode_decode _ _ Eb).
  - by rewrite (descriptor_other tag value v) in Hk.
Qed.

Lemma value_text jv v : json_short jv = true -> de_attribute_value jv = Ok v -> key_scalar v = true ->
  extract_typed_value jv Normalized = leading_text v.
Proof.
  intros Hs Hv Hk. destruct jv as [| | | | |[|[tag value] [|]]]; try done. simpl in Hs.
  apply andb_true_iff in Hs as [Hs _]. by apply descriptor_text.
Qed.
End Values.

(** ** Placeholder maps *)

Definition prefixed_keys {T : Type} (prefix : ascii) (m : gmap string T) : Prop :=
  forall k x, m !! k = Some x -> exists r, k = String prefix r.

Lemma strip_prefix_char_cons c r : strip_prefix_char c (String c r) = Some r.
Proof. unfold strip_prefix_char. by rewrite Ascii.eqb_refl. Qed.

Lemma strip_prefix_char_Some c s r : strip_prefix_char c s = Some r -> s = String c r.
Proof. unfold strip_prefix_char. destruct s as [|d s]; [done|]. destruct (Ascii.eqb_spec c d); naive_solver. Qed.

Lemma strip_keys_lookup {T : Type} prefix (m : gmap string T) r :
  prefixed_keys prefix m -> strip_keys prefix m !! r = m !! String prefix r.
Proof.
  intros Hm. unfold strip_keys.
  assert (forall k x, (k, x) ∈ (fun kv => (default kv.1 (strip_prefix_char prefix kv.1), kv.2)) <$> map_to_list m
    <-> m !! String prefix k = Some x) as Hin.
  { intros k x. rewrite list_elem_of_fmap. split.
    - intros ([k' x'] & [= -> ->] & Hk%elem_of_map_to_list). destruct (Hm _ _ Hk) as [q ->].
      cbn [fst snd]. by rewrite strip_prefix_char_cons.
    - intros Hk. exists (String prefix k, x). rewrite elem_of_map_to_list. split; [|done]. cbn [fst snd].
      by rewrite strip_prefix_char_cons. }
  apply option_eq. intros x. rewrite <- elem_of_list_to_map, Hin; [done|].
  assert (forall k, k ∈ (map_to_list m).*1 -> exists q, k = String prefix q) as Hq.
  { intros k ([k' x'] & -> & Hk%elem_of_map_to_list)%list_elem_of_fmap. by apply (Hm k' x'). }
  pose proof (NoDup_fst_map_to_list m) as Hn. rewrite <- list_fmap_compose.
  revert Hq Hn. generalize (map_to_list m). induction l as [|[k y] l IH]; intros Hq Hn; simpl; [constructor|].
  inversion Hn as [|? ? Hk Hn']; subst. constructor.
  - intros ([k' y'] & E & Hk')%list_elem_of_fmap. apply Hk.
    destruct (Hq k) as [q ->]; [by left|]. destruct (Hq k') as [q' ->].
    { right. apply list_elem_of_fmap. by exists (k', y'). }
    cbn [fst snd compose] in E. rewrite !strip_prefix_char_cons in E. simpl in E. subst q'.
    apply list_elem_of_fmap. by exists (String prefix q, y').
  - apply IH; [|done]. intros k' Hk'. apply Hq. by right.
Qed.

Lemma placeholder_key_prefix key prefix name b :
  validate_placeholder_key key prefix name b = Ok tt -> exists r, key = String prefix r.
Proof.
  unfold validate_placeholder_key. destruct (_ <? _); [done|].
  destruct (strip_prefix_char prefix key) as [r|] eqn:E; [|done]. apply strip_prefix_char_Some in E. eauto.
Qed.

(** The map that authorization reads and the one that the engine decodes, entry by
    entry. *)
Lemma placeholder_related {T U : Type} (R : U -> T -> Prop) (step : gmap string U -> string * Value -> gmap string U)
    prefix name b check convert :
  (forall acc r value x, convert value = Ok x ->
     exists u, step acc (String prefix r, value) = <[r := u]> acc /\ R u x) ->
  forall raw out out' acc,
  placeholder_loop (T := T) prefix name b check convert out raw = Ok out' ->
  prefixed_keys prefix out -> (forall r, option_Forall2 R (acc !! r) (out !! String prefix r)) ->
  prefixed_keys prefix out' /\ forall r, option_Forall2 R (fold_left step raw acc !! r) (out' !! String prefix r).
Proof.
  intros Hstep. induction raw as [|[key value] raw IH]; intros out out' acc; simpl; [by intros [= <-]|].
  intros Hl Hp Hr. destruct (validate_placeholder_key _ _ _ _) as [[]|] eqn:Ek; [|done].
  destruct (check key value) as [[]|]; [|done]. destruct (convert value) as [x|] eqn:Ex; [|done].
  apply placeholder_key_prefix in Ek as [r ->]. destruct (Hstep acc r value x Ex) as (u & -> & Hu).
  apply (IH _ _ _ Hl).
  - intros k y. rewrite lookup_insert_Some. intros [[<- _]|[_ Hk]]; [by exists r|by eapply Hp].
  - intros q. destruct (decide (q = r)) as [->|Hq].
    + rewrite !lookup_insert_eq. by constructor.
    + rewrite !lookup_insert_ne by congruence. apply Hr.
Qed.

Section Maps.
Context `{HB : Base64Decode} `{HE : SerdeErrors} `{HT : SerdeText}.

Lemma names_agree input jv names : json_get input "ExpressionAttributeNames" = Some jv ->
  deserialize_expression_names jv = Ok names -> names_map input = from_option (strip_keys "#") ∅ names.
Proof.
  intros Hj Hd. unfold names_map. rewrite Hj. simpl.
  unfold deserialize_expression_names, deserialize_placeholder_map in Hd.
  destruct jv as [| | | | |[|e raw]]; try done; [by injection Hd as <-|]. cbn [as_object].
  destruct (placeholder_loop _ _ _ _ _ _ _) as [out|] eqn:El; [|done]. injection Hd as <-. simpl.
  apply (placeholder_related eq add_name) with (acc := ∅) in El as [Hp Hr].
  - apply map_eq. intros r. rewrite strip_keys_lookup by done. specialize (Hr r).
    change (foldl add_name ∅ (e :: raw)) with (fold_left add_name (e :: raw) ∅) in *.
    inversion Hr as [? ? ->|]; congruence.
  - intros acc q value x Hx. unfold de_string, ok_or_else in Hx. unfold add_name. cbn [fst snd].
    destruct (as_str value) as [s|]; [|done]. injection Hx as ->. exists x. by rewrite strip_prefix_char_cons.
  - by intros ? ?.
  - intros q. rewrite !lookup_empty. constructor.
Qed.

Definition decodes (jv : Value) (v : AttributeValue) : Prop := de_attribute_value jv = Ok v.

Lemma values_agree input jv values : json_get input "ExpressionAttributeValues" = Some jv ->
  deserialize_expression_values jv = Ok values ->
  forall r, option_Forall2 decodes (values_map input !! r) (from_option (strip_keys ":") ∅ values !! r).
Proof.
  intros Hj Hd r. unfold values_map. rewrite Hj. simpl.
  unfold deserialize_expression_values, deserialize_placeholder_map in Hd.
  destruct jv as [| | | | |[|e raw]]; try done; [injection Hd as <-; simpl; rewrite !lookup_empty; constructor|].
  cbn [as_object]. destruct (placeholder_loop _ _ _ _ _ _ _) as [out|] eqn:El; [|done]. injection Hd as <-.
  apply (placeholder_related decodes add_value) with (acc := ∅) in El as [Hp Hr].
  - cbn [from_option]. rewrite strip_keys_lookup by done. apply Hr.
  - intros acc q value x Hx. exists value. unfold add_value. cbn [fst snd]. by rewrite strip_prefix_char_cons.
  - by intros ? ?.
  - intros q. rewrite !lookup_empty. constructor.
Qed.
End Maps.

(** ** What a prepared request comes from *)

Section Prepared.
Context `{HC : QueryCatalog} `{HB : Base64Decode} `{HE : SerdeErrors} `{HT : SerdeText}.
Context {D : Type} `{HD : BigDecimal D}.
Variable hash_order : gset string -> list string.

Definition request_maps (input : QueryInput) : ExpressionMaps D :=
  build_expression_maps (qi_expression_attribute_names input) (qi_expression_attribute_values input).

Record prepared_from (limits : LimitsConfig) (body : Value) (p : Prepared (D := D)) (key_info : TableKeyInfo)
    (kc : KeyCondition) (legacy filter_maps : option (ExpressionMaps D)) : Prop := {
  pf_input : de_query_input body = Ok (qp_input p);
  pf_key_info : table_key_info (qi_table_name (qp_input p)) = Ok key_info;
  pf_index : resolve_index (qi_table_name (qp_input p)) key_info (qi_index_name (qp_input p))
    = Ok (qp_index p, false);
  pf_read_info : qp_key_info p = query_key_info key_info (qp_index p);
  pf_parameters : check_parameters (qp_input p) = Ok tt;
  pf_key_condition : read_key_condition limits (tki_key_schema (qp_key_info p)) (qp_input p) = Ok (kc, legacy);
  pf_effective : qp_effective_maps p = default (request_maps (qp_input p)) legacy;
  pf_assigned : assign_key_condition (qp_key_info p) (qp_effective_maps p) kc = Ok (qp_key_condition p);
  pf_filter : exists filter, read_filter limits (qp_input p) = Ok (filter, filter_maps);
  pf_combined : em_values (qp_combined_maps p)
    = from_option em_values ∅ filter_maps
      ∪ (from_option em_values ∅ legacy ∪ em_values (request_maps (qp_input p)))
}.

Lemma map_err_Ok {A B C : Type} (f : A -> B) (r : result A C) x : map_err f r = Ok x -> r = Ok x.
Proof. destruct r; simpl; congruence. Qed.

Lemma prepare_query_inv limits body p : prepare_query hash_order limits body = Ok p ->
  exists key_info kc legacy filter_maps, prepared_from limits body p key_info kc legacy filter_maps.
Proof.
  unfold prepare_query. intros Hp.
  repeat match type of Hp with
  | match ?m with Ok _ => _ | Err _ => _ end = Ok _ =>
      let x := fresh "x" in let E := fresh "E" in destruct m as [x|] eqn:E; [|discriminate Hp]; cbv beta in Hp
  | (let '(_, _) := ?x in _) = Ok _ => destruct x
  | (let (_, _) := ?x in _) = Ok _ => destruct x
  end.
  injection Hp as <-. eexists _, _, _, _. split; cbn [qp_input qp_key_info qp_key_condition qp_effective_maps
    qp_combined_maps qp_index qp_post]; try done.
  - by apply map_err_Ok in E1.
  - by apply map_err_Ok in E2.
  - by destruct b.
  - by destruct x6.
  - by eexists.
Qed.
End Prepared.

(** ** The clause of the partition key *)

Definition partition_clause (kc : KeyCondition) : SortKeyCondition := eq_clause (pk_path kc, pk_value kc).

Lemma resolve_path_attr_Ok path names a :
  resolve_path_attr path names = Ok a -> resolve_path_attr_name path names = Some a.
Proof.
  unfold resolve_path_attr, resolve_path_attr_name. destruct path as [|[name|] path]; try done.
  destruct (strip_prefix_char "#" name) as [r|]; [|by intros [= ->]]. destruct (names !! r); [by intros [= ->]|done].
Qed.

Lemma hash_attr_elements schema : hash_attr schema = head (map ks_attribute_name (hash_key_elements schema)).
Proof.
  unfold hash_attr, hash_key_elements. induction schema as [|ks schema IH]; [done|]. simpl.
  destruct (bool_decide (ks_key_type ks = Hash)); [done|]. apply IH.
Qed.

Section Assigned.
Context (value_check : list PathElement -> Expr -> res unit).

(** Every clause that goes into the key condition has had its value checked. *)
Lemma for_each_clause_checks kc path value : for_each_clause value_check kc = Ok tt ->
  In (SKCompare path CEq value) (kc_clauses kc) -> value_check path value = Ok tt.
Proof.
  intros Hc Hin. revert Hc. unfold for_each_clause, check_pairs.
  destruct (value_check (pk_path kc) (pk_value kc)) as [[]|] eqn:E1; [|done].
  destruct (for_each _ (extra_pk_conditions kc)) as [[]|] eqn:E2; [|done].
  destruct (for_each _ (extra_sk_conditions kc)) as [[]|] eqn:E3; [|done].
  rewrite for_each_Ok in E2, E3. intros Hc. unfold kc_clauses in Hin. simpl in Hin.
  rewrite !in_app_iff, !in_map_iff in Hin. unfold eq_clause in Hin.
  destruct Hin as [[= <- <-]|[([p v] & [= <- <-] & Hi)|[Hi|([p v] & [= <- <-] & Hi)]]]; [done| | |].
  - by apply (E2 (p, v)).
  - destruct (sk_condition kc) as [sk|]; [|done]. destruct Hi as [->|[]]. done.
  - by apply (E3 (p, v)).
Qed.

Lemma single_resolved kc schema names kc' pk :
  is_multipart_key_schema schema = false -> hash_attr schema = Some pk ->
  (exists name, pk_path kc = [PAttr name]) ->
  resolve_key_schema_with value_check kc schema names = Ok kc' ->
  In (partition_clause kc') (kc_clauses kc) /\ value_check (pk_path kc') (pk_value kc') = Ok tt.
Proof.
  intros Hm Hh [name Hn]. unfold resolve_key_schema_with. rewrite Hm.
  destruct (for_each_clause value_check kc) as [[]|] eqn:Ec; [|done].
  unfold hash_attr in Hh. destruct (List.find _ schema) as [hash|]; [|done]. intros Hr.
  destruct (resolve_pk_sk_spec kc kc' (ks_attribute_name hash) names name []) as [Hp _]; [done|done|].
  assert (In (partition_clause kc') (kc_clauses kc)) as Hin by (rewrite <- Hp; by left).
  split; [done|]. by apply (for_each_clause_checks kc).
Qed.

Lemma multi_resolved kc schema names kc' pk :
  is_multipart_key_schema schema = true -> hash_attr schema = Some pk ->
  resolve_key_schema_with value_check kc schema names = Ok kc' ->
  In (partition_clause kc') (kc_clauses kc) /\ resolve_path_attr_name (pk_path kc') names = Some pk
  /\ value_check (pk_path kc') (pk_value kc') = Ok tt.
Proof.
  intros Hm Hh. unfold resolve_key_schema_with. rewrite Hm. intros Hr.
  rewrite hash_attr_elements in Hh.
  set (hash_attrs := map ks_attribute_name (hash_key_elements schema)) in *.
  set (range_attrs := map ks_attribute_name (range_key_elements schema)) in *.
  assert (1 < length hash_attrs \/ 1 < length range_attrs) as Hlen.
  { unfold hash_attrs, range_attrs. rewrite !length_map. unfold is_multipart_key_schema in Hm.
    apply orb_true_iff in Hm as [Hm|Hm]; apply Nat.ltb_lt in Hm; auto. }
  assert (hash_attrs <> []) as Hne by (by intros E; rewrite E in Hh).
  destruct (multipart_resolved value_check names hash_attrs range_attrs kc kc' Hne Hlen Hr) as (Hp & Hf & _).
  destruct hash_attrs as [|h rest] eqn:Eh; [done|]. injection Hh as ->.
  unfold hash_equalities in Hf. inversion Hf as [|? ? ? ? Hpk _]; subst. split; [rewrite <- Hp; by left|].
  split; [by apply resolve_path_attr_Ok|].
  destruct (split_clauses kc) as [all_eq non_eq] eqn:Es.
  destruct (resolve_multipart_inv value_check names (pk :: rest) range_attrs kc kc' all_eq non_eq)
    as (he & re & oe & attr & _ & _ & Hc & ->); [done..|].
  revert Hc. unfold check_placed. destruct (_ || _); [done|]. destruct (_ <? _); [done|].
  destruct (unplaced 0 (pk :: rest) (sort_placed he)) eqn:Eu; [|done].
  destruct (match max_position _ with Some _ => _ | None => _ end) as [[]|]; [|done].
  destruct (check_pairs value_check (map snd _)) as [[]|] eqn:Ep; [|done]. intros _.
  unfold check_pairs in Ep. pose proof (proj1 (for_each_Ok _ _) Ep) as Hall. pose proof (unplaced_nil 0 _ _ Eu 0) as H0.
  unfold rebuilt. destruct (sort_placed he) as [|[n [path value]] l]; [simpl in H0; exfalso; apply H0; lia|].
  cbn [map]. specialize (Hall (path, value)). simpl in Hall.
  destruct non_eq, (map snd (sort_placed re)) as [|[]]; apply Hall; by left.
Qed.
End Assigned.

(** The key schema begins with the HASH attribute [pk]. *)
Definition hash_first (schema : list KeySchemaElement) (pk : string) : Prop :=
  exists first rest, schema = first :: rest /\ ks_key_type first = Hash /\ ks_attribute_name first = pk.

Lemma hash_first_attr schema pk : hash_first schema pk -> hash_attr schema = Some pk.
Proof.
  intros (first & rest & -> & Ht & <-). unfold hash_attr. cbn [List.find]. by rewrite bool_decide_eq_true_2.
Qed.

Lemma find_filter {A : Type} (p q : A -> bool) l :
  (forall x, p x = true -> q x = true) -> List.find p (List.filter q l) = List.find p l.
Proof.
  intros Hpq. induction l as [|x l IH]; [done|]. simpl. destruct (p x) eqn:E.
  - rewrite (Hpq x E). simpl. by rewrite E.
  - destruct (q x); simpl; [by rewrite E|done].
Qed.

Section Keys.
Context {D : Type} `{HD : BigDecimal D}.
Implicit Type maps : ExpressionMaps D.

(** What is known of the partition key clause of an accepted request. *)
Record partition_assigned (key_info : TableKeyInfo) maps (kc kc' : KeyCondition) (pk : string) : Prop := {
  pa_resolved : resolve_key_schema kc (tki_key_schema key_info) (em_names maps) = Ok kc';
  pa_clause : In (partition_clause kc') (kc_clauses kc);
  pa_attr : resolve_path_attr_name (pk_path kc') (em_names maps) = Some pk;
  pa_type : forall name v def, pk_value kc' = EPlaceholder name -> em_values maps !! name = Some v ->
    find_definition pk (tki_attribute_definitions key_info) = Some def ->
    attr_value_matches_scalar v (ad_attribute_type def) = true
}.

Lemma checked_type defs maps path name v def pk :
  check_key_value_type defs maps path (EPlaceholder name) = Ok tt ->
  resolve_path_attr_name path (em_names maps) = Some pk -> em_values maps !! name = Some v ->
  find_definition pk defs = Some def -> attr_value_matches_scalar v (ad_attribute_type def) = true.
Proof.
  unfold check_key_value_type. intros Hc Ha Hv Hd. rewrite Ha, Hd, Hv in Hc.
  by destruct (attr_value_matches_scalar _ _).
Qed.

Lemma assigned key_info maps kc kc' pk : hash_first (tki_key_schema key_info) pk ->
  (exists name, pk_path kc = [PAttr name]) -> assign_key_condition key_info maps kc = Ok kc' ->
  partition_assigned key_info maps kc kc' pk.
Proof.
  intros Hf Hpath. pose proof (hash_first_attr _ _ Hf) as Hh. destruct Hf as (first & rest & Es & Ht & En).
  unfold assign_key_condition. rewrite Es in *.
  match goal with |- match resolve_key_schema_with ?c _ _ _ with _ => _ end = _ -> _ => set (chk := c) end.
  destruct (resolve_key_schema_with chk kc (first :: rest) (em_names maps)) as [kc1|] eqn:Er; [|done].
  destruct (refuse_begins_with_on_number _ _ _) as [[]|]; [|done]. intros Hk.
  assert (kc1 = kc') as -> by (by destruct (_ && _); simplify_eq).
  destruct (is_multipart_key_schema (first :: rest)) eqn:Em.
  - destruct (multi_resolved chk kc _ _ kc' pk Em Hh Er) as (Hin & Ha & Hc).
    split; [rewrite Es; by eapply resolve_key_schema_unit|done|done|].
    intros name v def Ev Hv Hd. rewrite Ev in Hc. eapply checked_type; [exact Hc|done|done|].
    unfold find_definition in *. rewrite find_filter; [done|].
    intros d Ed%String.eqb_eq. apply existsb_exists. exists first. split; [by left|].
    apply String.eqb_eq. congruence.
  - destruct (single_resolved chk kc _ _ kc' pk Em Hh Hpath Er) as [Hin Hc].
    simpl in Hk. destruct (bool_decide_reflect (resolve_path_attr_name (pk_path kc') (em_names maps)
      = Some (ks_attribute_name first))) as [Ha|]; [|done]. rewrite En in Ha.
    split; [rewrite Es; by eapply resolve_key_schema_unit|done|done|].
    intros name v def Ev Hv Hd. rewrite Ev in Hc. by eapply checked_type.
Qed.

(** ** [KeyConditionExpression] *)

Lemma prefixed_Ok {A : Type} kind (r : res A) x : prefixed kind r = Ok x -> r = Ok x.
Proof. apply map_err_Ok. Qed.

Lemma key_condition_tokens kce limits kc : parse_key_condition_expr kce limits = Ok kc ->
  exists tokens, tokenize_with_limit kce (max_expression_tokens limits) = Ok tokens
    /\ parse_key_condition tokens = Ok kc.
Proof.
  unfold parse_key_condition_expr. destruct (check_expression_size _ _ _) as [[]|]; [|done].
  intros Hk%prefixed_Ok. destruct (tokenize_for _ _ _) as [tokens|] eqn:Et; [|done].
  destruct (reserved_check _ _) as [[]|]; [|done]. exists tokens. split; [by eapply tokenizers_agree|done].
Qed.

(** Authorization finds the clause that the engine assigns to the partition key. *)
Lemma expression_key key_info maps kc kc' pk kce limits values :
  hash_first (tki_key_schema key_info) pk -> parse_key_condition_expr kce limits = Ok kc ->
  partition_assigned key_info maps kc kc' pk ->
  expression_leading_key kce (max_expression_tokens limits) (tki_key_schema key_info) pk (em_names maps) values
  = value_of (pk_value kc') values.
Proof.
  intros Hf (tokens & Ht & Hp)%key_condition_tokens [Hr Hc Ha _]. unfold expression_leading_key. rewrite Ht. simpl.
  destruct (parsed_equality tokens kc (pk_path kc') (pk_value kc') Hp Hc) as (cs & Hcs & Hin).
  unfold key_condition_clause_operands. rewrite Hcs. simpl.
  match goal with |- (if existsb ?f ?l then _ else _) = _ => assert (existsb f l = true) as -> end.
  { apply existsb_exists. exists {| kco_path := pk_path kc'; kco_value := pk_value kc'; kco_equality := true |}.
    split; [|done]. apply filter_In. split; [|by apply bool_decide_eq_true_2].
    apply list_elem_of_In, list_elem_of_omap. exists (RawEq (pk_path kc') (pk_value kc')).
    split; [by apply list_elem_of_In|done]. }
  unfold equality_pk_value. rewrite Hp. simpl. rewrite Hr. simpl.
  by rewrite bool_decide_eq_true_2.
Qed.
End Keys.

(** ** Legacy [KeyConditions] *)

Section Legacy.
Context {D : Type} `{HD : BigDecimal D}.
Implicit Type conditions : gmap string LegacyCondition.

(** The equality is the one that the conditions have on its attribute. *)
Definition equality_of conditions (values : gmap string AttributeValue) (path : list PathElement) (value : Expr)
    : Prop :=
  exists attr cond v name, path = [PAttr attr] /\ value = EPlaceholder name
    /\ conditions !! attr = Some cond /\ comparison_operator cond = "EQ" /\ attribute_value_list cond = [v]
    /\ values !! name = Some v /\ String.get 1 name = Some "k"%char.

Lemma sort_comparison_eq name : sort_comparison name = Some CEq -> name = "EQ".
Proof.
  unfold sort_comparison, legacy_comparison, legacy_comparisons. cbn [List.find fst snd].
  destruct (String.eqb_spec name "NE"); [done|].
  destruct (String.eqb_spec "EQ" name) as [<-|]; [done|]. simpl.
  repeat (case_match; try done).
Qed.

Lemma sk_condition_values cond range_name values sk values' :
  desugar_sk_condition cond range_name values = Ok (sk, values') ->
  values' !! "_kc_pk" = values !! "_kc_pk"
  /\ (forall path value, sk = SKCompare path CEq value ->
        path = [PAttr range_name] /\ comparison_operator cond = "EQ"
        /\ exists v, attribute_value_list cond = [v] /\ value = EPlaceholder "_kc_sk" /\ values' !! "_kc_sk" = Some v).
Proof.
  unfold desugar_sk_condition. destruct (sort_comparison (comparison_operator cond)) as [op|] eqn:Eop.
  - destruct (attribute_value_list cond) as [|v [|]]; try done. intros [= <- <-]. split; [by rewrite lookup_insert_ne|].
    intros path value [= <- -> <-]. split; [done|]. split; [by apply sort_comparison_eq|].
    exists v. by rewrite lookup_insert_eq.
  - destruct (String.eqb _ "BETWEEN"); [|destruct (String.eqb _ "BEGINS_WITH"); [|done]].
    + destruct (attribute_value_list cond) as [|lo [|hi [|]]]; try done. intros [= <- <-].
      split; [by rewrite !lookup_insert_ne|done].
    + destruct (attribute_value_list cond) as [|v [|]]; try done. intros [= <- <-].
      split; [by rewrite lookup_insert_ne|done].
Qed.

Lemma rename_placeholders_spec sk own prefix values :
  (forall k, (forall name, k <> prefix +:+ name) ->
     (rename_placeholders sk own prefix values).2 !! k = values !! k)
  /\ ((forall path value, sk <> SKCompare path CEq value) ->
      forall path value, (rename_placeholders sk own prefix values).1 <> SKCompare path CEq value).
Proof.
  assert (forall e values k, (forall name, k <> prefix +:+ name) -> (rename_expr e own prefix values).2 !! k = values !! k)
    as Hr.
  { intros e vs k Hk. destruct e; try done. simpl. destruct (own !! name); [|done].
    by rewrite lookup_insert_ne. }
  destruct sk as [path op value|path low high|path p]; simpl; (split; [intros k Hk|intros Hne path' value']).
  - specialize (Hr value values k Hk). by destruct (rename_expr value own prefix values).
  - destruct (rename_expr value own prefix values). simpl. intros [= -> -> ->]. by apply (Hne path' value).
  - pose proof (Hr low values k Hk) as H1. destruct (rename_expr low own prefix values) as [low' vs]. simpl in *.
    specialize (Hr high vs k Hk). destruct (rename_expr high own prefix vs). simpl in *. congruence.
  - destruct (rename_expr low own prefix values) as [low' vs]. by destruct (rename_expr high own prefix vs).
  - specialize (Hr p values k Hk). by destruct (rename_expr p own prefix values).
  - by destruct (rename_expr p own prefix values).
Qed.

Lemma nat_to_string_inj m n : nat_to_string m = nat_to_string n -> m = n.
Proof.
  unfold nat_to_string, N_to_string. intros E%(f_equal as_bytes). rewrite !as_bytes_of_bytes in E.
  apply N_to_bytes_inj in E. lia.
Qed.

Lemma eq_not_ne n i name : "_kc_eq" +:+ nat_to_string n <> ("_kc_ne" +:+ nat_to_string i +:+ "_") +:+ name.
Proof. intros E%(f_equal (String.get 4)). cbv in E. discriminate E. Qed.

Lemma multipart_loop_spec conditions ordered : forall i values equalities non_equalities values' eqs' ns',
  multipart_loop conditions i ordered values equalities non_equalities = Ok (values', eqs', ns') ->
  (forall path value, In (path, value) equalities -> exists attr cond v j, j < i /\ path = [PAttr attr]
     /\ value = EPlaceholder ("_kc_eq" +:+ nat_to_string j) /\ conditions !! attr = Some cond
     /\ comparison_operator cond = "EQ" /\ attribute_value_list cond = [v]
     /\ values !! ("_kc_eq" +:+ nat_to_string j) = Some v) ->
  (forall path value, ~ In (SKCompare path CEq value) non_equalities) ->
  (forall path value, In (path, value) eqs' -> equality_of conditions values' path value)
  /\ (forall path value, ~ In (SKCompare path CEq value) ns').
Proof.
  induction ordered as [|attr ordered IH]; intros i values eqs ns values' eqs' ns' Hl Hi Hn; simpl in Hl.
  { injection Hl as <- <- <-. split; [|done]. intros path value Hin.
    destruct (Hi path value Hin) as (a & c & v & j & _ & H1 & H2 & H3 & H4 & H5 & H6).
    by exists a, c, v, ("_kc_eq" +:+ nat_to_string j). }
  destruct (conditions !! attr) as [cond|] eqn:Ec; [|done].
  destruct (String.eqb_spec (comparison_operator cond) "EQ") as [Eo|Eo].
  - destruct (attribute_value_list cond) as [|v [|]] eqn:Ev; try done.
    apply (IH _ _ _ _ _ _ _ Hl); [|done]. intros path value [Hin|[[= <- <-]|[]]]%in_app_iff.
    + destruct (Hi path value Hin) as (a & c & w & j & Hj & H1 & H2 & H3 & H4 & H5 & H6).
      exists a, c, w, j. repeat (split; [done || lia|]). rewrite lookup_insert_ne; [done|].
      intros E%(inj (String.append "_kc_eq"))%nat_to_string_inj. lia.
    + exists attr, cond, v, i. rewrite lookup_insert_eq. repeat split; done || lia.
  - destruct (desugar_sk_condition cond attr ∅) as [[sk own]|] eqn:Es; [|done].
    match type of Hl with context [rename_placeholders sk own ?p values] =>
      destruct (rename_placeholders_spec sk own p values) as [H1 H2];
      destruct (rename_placeholders sk own p values) as [sk' values1] eqn:Er end.
    cbn [fst snd] in *. apply (IH _ _ _ _ _ _ _ Hl).
    + intros path value Hin. destruct (Hi path value Hin) as (a & c & w & j & Hj & G). exists a, c, w, j.
      split; [lia|]. rewrite H1; [done|]. apply eq_not_ne.
    + intros path value [Hin|[->|[]]]%in_app_iff; [by apply (Hn path value)|]. apply (H2) with path value; [|done].
      intros path' value' ->. destruct (sk_condition_values _ _ _ _ _ Es) as [_ H].
      by destruct (H path' value' eq_refl) as (_ & H' & _).
Qed.

Lemma desugared_equality conditions schema kc maps path value :
  desugar_key_conditions (D := D) conditions schema = Ok (kc, maps) ->
  In (SKCompare path CEq value) (kc_clauses kc) -> equality_of conditions (em_values maps) path value.
Proof.
  unfold desugar_key_conditions. destruct (_ || _).
  - unfold desugar_multipart_key_conditions.
    destruct (multipart_loop conditions 0 _ ∅ [] []) as [[[values eqs] ns]|] eqn:El; [|done].
    apply multipart_loop_spec in El as [He Hn]; [|done|by intros ? ? []].
    destruct (1 <? length ns).
    { unfold two_non_equalities. repeat case_match; done. }
    destruct eqs as [|[p0 v0] extra]; [done|]. intros [= <- <-]. unfold kc_clauses, eq_clause. simpl.
    rewrite !in_app_iff, in_map_iff. intros [[= <- <-]|[([p v] & [= <- <-] & Hi)|[Hi|[]]]].
    + apply He. by left.
    + apply He. by right.
    + destruct ns as [|n ns]; [done|]. destruct Hi as [->|[]]. destruct (Hn path value). by left.
  - destruct (schema_attrs true schema) as [|hash _]; [done|].
    destruct (conditions !! hash) as [hc|] eqn:Eh; [|done].
    destruct (String.eqb_spec (comparison_operator hc) "EQ") as [Eo|]; [|done].
    destruct (attribute_value_list hc) as [|v [|]] eqn:Ev; try done. simpl.
    match goal with |- match ?m with Ok _ => _ | Err _ => _ end = _ -> _ => destruct m as [[sk values]|] eqn:Er end;
      [|done].
    destruct (for_each _ _) as [[]|]; [|done]. intros [= <- <-]. unfold kc_clauses, eq_clause. simpl.
    assert (values !! "_kc_pk" = Some v /\ (forall p e, sk = Some (SKCompare p CEq e) ->
      equality_of conditions values p e)) as [Hpk Hsk].
    { destruct (head (schema_attrs false schema)) as [range|];
        [destruct (conditions !! range) as [rc|] eqn:Ec; [destruct (desugar_sk_condition rc range _) as [[sk' vs]|] eqn:Es|]|];
        simplify_eq; try (split; [by rewrite lookup_singleton_eq|done]).
      destruct (sk_condition_values _ _ _ _ _ Es) as [-> H]. split; [by rewrite lookup_singleton_eq|].
      intros p e [= ->]. destruct (H p e eq_refl) as (-> & Hop & w & Hw & -> & Hl). by exists range, rc, w, "_kc_sk". }
    rewrite in_app_iff. intros [[= <- <-]|[Hi|[]]]; [by exists hash, hc, v, "_kc_pk"|].
    destruct sk as [sk|]; [|done]. destruct Hi as [->|[]]. by apply Hsk.
Qed.

Lemma desugared_names conditions schema kc maps :
  desugar_key_conditions (D := D) conditions schema = Ok (kc, maps) -> em_names maps = ∅.
Proof.
  unfold desugar_key_conditions, desugar_multipart_key_conditions, two_non_equalities.
  intros H. repeat (case_match; simplify_eq); done.
Qed.

(** The values of a rewritten filter have names of their own. *)
Definition filter_name (k : string) : Prop := exists n, k = "_f" +:+ nat_to_string n.

Lemma bind_value_other v st k : ~ filter_name k -> (bind_value v st).2.1 !! k = st.1 !! k.
Proof. intros Hk. simpl. rewrite lookup_insert_ne; [done|]. intros <-. apply Hk. by eexists. Qed.

Lemma bind_values_other l : forall st k, ~ filter_name k -> (bind_values l st).2.1 !! k = st.1 !! k.
Proof.
  induction l as [|v l IH]; intros st k Hk; [done|]. simpl.
  match goal with |- context [bind_values l ?st'] => pose proof (IH st' k Hk) as H; destruct (bind_values l st') end.
  cbn [fst snd] in *. rewrite H. by apply (bind_value_other v).
Qed.

Lemma filter_condition_other path cond st e st' k : ~ filter_name k ->
  desugar_one_filter_condition path cond st = Ok (e, st') -> st'.1 !! k = st.1 !! k.
Proof.
  intros Hk. unfold desugar_one_filter_condition. destruct (legacy_comparison _) as [op|].
  { destruct (attribute_value_list cond) as [|v [|]]; try done. intros [= <- <-]. by apply (bind_value_other v). }
  destruct (String.eqb _ "BETWEEN").
  { destruct (attribute_value_list cond) as [|lo [|hi [|]]]; try done. intros [= <- <-].
    etransitivity; [by apply (bind_value_other hi (bind_value lo st).2)|by apply (bind_value_other lo)]. }
  destruct (is_some _).
  { destruct (attribute_value_list cond) as [|v [|]]; try done. intros [= <- <-]. by apply (bind_value_other v). }
  destruct (String.eqb _ "NULL"); [by intros [= <- <-]|]. destruct (String.eqb _ "NOT_NULL"); [by intros [= <- <-]|].
  destruct (String.eqb _ "IN"); [|done].
  pose proof (bind_values_other (attribute_value_list cond) st k Hk) as H.
  destruct (attribute_value_list cond) as [|v l]; [done|].
  destruct (bind_values (v :: l) st) as [items st'']. by intros [= <- <-].
Qed.

Lemma desugar_filter_other conditions op e maps k : ~ filter_name k ->
  desugar_filter (D := D) conditions op = Ok (e, maps) -> em_values maps !! k = None.
Proof.
  intros Hk. unfold desugar_filter.
  assert (forall entries st es values, desugar_loop entries st = Ok (es, values) -> values !! k = st.1 !! k) as H.
  { induction entries as [|[a c] entries IH]; intros st es values; simpl; [by intros [= <- <-]|].
    destruct (desugar_one_filter_condition _ c st) as [[e1 st1]|] eqn:E1; [|done].
    destruct (desugar_loop entries st1) as [[es1 vs1]|] eqn:E2; [|done]. intros [= <- <-].
    rewrite (IH _ _ _ E2). by eapply filter_condition_other. }
  destruct (desugar_loop _ _) as [[es values]|] eqn:E; [|done]. destruct es; [done|]. intros [= <- <-].
  simpl. by rewrite (H _ _ _ _ E).
Qed.

Lemma key_name_other k : String.get 1 k = Some "k"%char -> ~ filter_name k.
Proof. intros Hk [n ->]. cbv in Hk. discriminate Hk. Qed.
End Legacy.

(** ** Bodies *)

Definition is_object (v : Value) : bool := match v with VObject _ => true | _ => false end.

(** The structures of the request are written as objects. *)
Definition object_form (body : Value) : bool :=
  is_object body
  && match json_get body "KeyConditions" with
     | Some (VObject conds) => forallb (fun kv => is_object kv.2) conds
     | _ => true
     end.

(** A [serde_json] map has each key once. *)
Fixpoint json_unique (v : Value) : bool :=
  match v with
  | VArray l => forallb json_unique l
  | VObject o => bool_decide (NoDup (map fst o)) && forallb (fun kv => json_unique kv.2) o
  | _ => true
  end.

Lemma json_get_In body key v : json_get body key = Some v -> exists o, body = VObject o /\ In (key, v) o.
Proof.
  destruct body as [| | | | |o]; try done. simpl.
  destruct (List.find _ o) as [[k w]|] eqn:E; [|done]. apply find_some in E as [Hi Hk].
  apply String.eqb_eq in Hk. simpl in Hk. subst k. intros [= ->]. by exists o.
Qed.

Lemma json_get_short body key v : json_short body = true -> json_get body key = Some v -> json_short v = true.
Proof.
  intros Hs (o & -> & Hi)%json_get_In. simpl in Hs. rewrite forallb_forall in Hs. exact (Hs _ Hi).
Qed.

Lemma json_get_unique body key v : json_unique body = true -> json_get body key = Some v -> json_unique v = true.
Proof.
  intros Hs (o & -> & Hi)%json_get_In. simpl in Hs. apply andb_true_iff in Hs as [_ Hs].
  rewrite forallb_forall in Hs. exact (Hs _ Hi).
Qed.

Lemma json_get_unique_In o key v : json_unique (VObject o) = true -> In (key, v) o ->
  json_get (VObject o) key = Some v.
Proof.
  intros Hu Hi. simpl in Hu. apply andb_true_iff in Hu as [Hn%bool_decide_eq_true_1 _]. simpl.
  induction o as [|[k w] o IH]; [done|]. simpl in *. inversion Hn as [|? ? Hk Hn']; subst.
  destruct Hi as [[= -> ->]|Hi]; [by rewrite String.eqb_refl|].
  destruct (String.eqb_spec k key) as [->|]; [|by apply IH]. destruct Hk.
  apply list_elem_of_In, in_map_iff. by exists (key, v).
Qed.

Lemma values_map_short body r jv : json_short body = true -> values_map body !! r = Some jv -> json_short jv = true.
Proof.
  intros Hs. unfold values_map. destruct (json_get body "ExpressionAttributeValues") as [v|] eqn:E; [|done].
  apply (json_get_short _ _ _ Hs) in E. destruct v as [| | | | |o]; try done. simpl in E |- *.
  assert (forall o acc, forallb (fun kv : string * Value => json_short kv.2) o = true ->
    map_Forall (fun _ v => json_short v = true) acc ->
    map_Forall (fun _ v => json_short v = true) (fold_left add_value o acc)) as H.
  { clear. induction o as [|[k v] o IH]; intros acc Ho Ha; [done|]. simpl in *. apply andb_true_iff in Ho as [Hv Ho].
    apply IH; [done|]. unfold add_value. by apply map_Forall_insert_2. }
  apply (H o ∅ E (map_Forall_empty _)).
Qed.

Section Decoded.
Context `{HB : Base64Decode} `{HE : SerdeErrors} `{HT : SerdeText}.

Lemma option_string body name x : get_or (json_get body) name (de_option de_string) None = Ok x ->
  json_get body name ≫= as_str = x.
Proof.
  unfold get_or. destruct (json_get body name) as [v|]; simpl; [|by intros [= <-]].
  destruct v; simpl; unfold de_string, ok_or_else; simpl; congruence.
Qed.

(** What decoding makes of the fields that authorization reads. *)
Record decoded (body : Value) (input : QueryInput) : Prop := {
  de_index : json_get body "IndexName" ≫= as_str = qi_index_name input;
  de_kce : json_get body "KeyConditionExpression" ≫= as_str = qi_key_condition_expression input;
  de_names : names_map body = from_option (strip_keys "#") ∅ (qi_expression_attribute_names input);
  de_values : forall r, option_Forall2 decodes (values_map body !! r)
    (from_option (strip_keys ":") ∅ (qi_expression_attribute_values input) !! r);
  de_conditions : forall conds, qi_key_conditions input = Some conds ->
    exists jv, json_get body "KeyConditions" = Some jv /\ de_hash_map de_condition jv = Ok conds
}.

Lemma de_query_input_decoded body input : is_object body = true -> de_query_input body = Ok input ->
  decoded body input.
Proof.
  intros Ho. unfold de_query_input. destruct body as [| | | | |o]; try done. clear Ho.
  unfold de_struct. cbv beta iota. destruct (for_each _ o) as [[]|]; [|done]. intros Hp.
  set (body := VObject o) in *.
  repeat match type of Hp with
  | match ?m with Ok _ => _ | Err _ => _ end = Ok _ =>
      let x := fresh "x" in let E := fresh "E" in destruct m as [x|] eqn:E; [|discriminate Hp]; cbv beta in Hp
  end.
  injection Hp as <-. split; cbn [qi_index_name qi_key_condition_expression qi_expression_attribute_names
    qi_expression_attribute_values qi_key_conditions].
  - by apply option_string.
  - by apply option_string.
  - unfold get_or in E4. destruct (json_get body "ExpressionAttributeNames") as [jv|] eqn:Ej.
    + by eapply names_agree.
    + injection E4 as <-. unfold names_map. by rewrite Ej.
  - unfold get_or in E5. destruct (json_get body "ExpressionAttributeValues") as [jv|] eqn:Ej.
    + by eapply values_agree.
    + injection E5 as <-. intros r. unfold values_map. rewrite Ej. simpl. rewrite !lookup_empty. constructor.
  - intros conds ->. unfold get_or in E12. destruct (json_get body "KeyConditions") as [jv|] eqn:Ej; [|done].
    exists jv. split; [done|]. unfold de_option in E12.
    destruct jv; try discriminate E12; destruct (de_hash_map de_condition _); congruence.
Qed.

(** The operands of a condition that is written as an object. *)
Lemma de_condition_object c cond v : is_object c = true -> de_condition c = Ok cond ->
  comparison_operator cond = "EQ" -> attribute_value_list cond = [v] ->
  exists jv, json_get c "ComparisonOperator" ≫= as_str = Some "EQ"
    /\ json_get c "AttributeValueList" = Some (VArray [jv]) /\ de_attribute_value jv = Ok v.
Proof.
  intros Ho Hc Hop Hv. destruct c as [| | | | |o]; try done. unfold de_condition, de_struct in Hc.
  destruct (for_each _ o) as [[]|]; [|done]. set (c := VObject o) in *.
  unfold get_required, get_or in Hc.
  destruct (json_get c "ComparisonOperator") as [jo|]; [|done].
  destruct (de_string jo) as [operator|] eqn:Eo; [|done].
  destruct (json_get c "AttributeValueList") as [jl|].
  - destruct (de_vec de_attribute_value jl) as [operands|] eqn:El; [|done]. injection Hc as <-. simpl in Hop, Hv.
    subst operator operands. unfold de_vec in El. destruct jl as [| | | |l|]; try done.
    destruct l as [|jv [|jw l]]; simpl in El; [done| |].
    + destruct (de_attribute_value jv) as [w|] eqn:Ew; [|done]. simpl in El. exists jv.
      split; [|split; [done|congruence]]. simpl. unfold de_string, ok_or_else in Eo. destruct (as_str jo); congruence.
    + destruct (de_attribute_value jv); [|done]. destruct (de_attribute_value jw); [|done].
      destruct (collect_results _ l); [|done]. done.
  - injection Hc as <-. done.
Qed.

Lemma legacy_key body conds attr cond v jv :
  object_form body = true -> json_unique body = true ->
  json_get body "KeyConditions" = Some jv -> de_hash_map de_condition jv = Ok conds ->
  conds !! attr = Some cond -> comparison_operator cond = "EQ" -> attribute_value_list cond = [v] ->
  exists value, legacy_leading_key jv attr = extract_typed_value value Normalized
    /\ de_attribute_value value = Ok v /\ (json_short body = true -> json_short value = true).
Proof.
  intros Hof Hu Hj Hd Ha Hop Hv. unfold object_form in Hof. apply andb_true_iff in Hof as [_ Hof]. rewrite Hj in Hof.
  pose proof (json_get_unique _ _ _ Hu Hj) as Hu'.
  unfold de_hash_map, de_entries in Hd. destruct jv as [| | | | |o]; try done.
  destruct (collect_results _ o) as [l|] eqn:El; [|done]. injection Hd as <-.
  apply elem_of_list_to_map_2, list_elem_of_In, in_rev in Ha.
  apply (proj1 (collect_results_In _ _ _ _ El)) in Ha as ([a c] & Hi & Hc). simpl in Hc.
  destruct (de_condition c) as [cond'|] eqn:Ec; [|done]. injection Hc as -> ->.
  rewrite forallb_forall in Hof. specialize (Hof _ Hi). simpl in Hof.
  destruct (de_condition_object c cond v Hof Ec Hop Hv) as (value & H1 & H2 & H3).
  pose proof (json_get_unique_In _ _ _ Hu' Hi) as Hg. exists value. split; [|split; [done|]].
  - unfold legacy_leading_key. rewrite Hg. cbn [mbind option_bind]. rewrite H1. cbn [mbind option_bind].
    rewrite H2. done.
  - intros Hs. apply (json_get_short _ _ _ Hs) in Hj. apply (json_get_short _ _ _ Hj) in Hg.
    apply (json_get_short _ _ _ Hg) in H2. simpl in H2. by apply andb_true_iff in H2 as [H2 _].
Qed.
End Decoded.

(** ** Agreement *)

Section Agreement.
Context `{HC : QueryCatalog} `{HB : Base64} `{HD : Base64Decode} `{HL : !Base64Canonical} `{HE : SerdeErrors}
  `{HT : SerdeText} {D : Type} `{HN : BigDecimal D}.
Variable hash_order : gset string -> list string.

(** Authorization and the engine have the same description of the table. *)
Definition same_snapshot (ki : AuthzKeyInfo) (table : string) : Prop :=
  table_key_info table = Ok (ak_key_info ki)
  /\ forall name info, index_info_by_table_id (tki_table_id (ak_key_info ki)) name = Ok info ->
       idx_key_schema <$> List.find (fun i => String.eqb (index_name i) name)
         (ak_global_secondary_indexes ki ++ ak_local_secondary_indexes ki) = Some (idx_key_schema info).

Lemma snapshot_schema limits body (p : Prepared (D := D)) ki key_info kc legacy fm :
  prepared_from limits body p key_info kc legacy fm -> decoded body (qp_input p) ->
  same_snapshot ki (qi_table_name (qp_input p)) ->
  queried_schema body ki = Some (tki_key_schema (qp_key_info p)).
Proof.
  intros Hp Hd [Ht Hi]. rewrite (pf_key_info _ _ _ _ _ _ _ Hp) in Ht. injection Ht as ->.
  pose proof (pf_index _ _ _ _ _ _ _ Hp) as Hx. unfold queried_schema. rewrite (de_index _ _ Hd).
  rewrite (pf_read_info _ _ _ _ _ _ _ Hp). unfold resolve_index in Hx.
  destruct (qi_index_name (qp_input p)) as [name|].
  - destruct (index_info_by_table_id _ name) as [info|e] eqn:Ei.
    + rewrite (Hi _ _ Ei). destruct (bool_decide _); [done|]. by injection Hx as <-.
    + exfalso. destruct e; try done. destruct (classify_unresolved_index_read _ _ _) as [[]|]; done.
  - by injection Hx as <-.
Qed.

Lemma scalar_key v ty : attr_value_matches_scalar v ty = true -> key_scalar v = true.
Proof. by destruct v, ty. Qed.

(** A [QueryFilter] has no place beside a [KeyConditionExpression]. *)
Lemma expression_without_filter limits (input : QueryInput) kce filter fm :
  qi_key_condition_expression input = Some kce -> check_parameters input = Ok tt ->
  read_filter (D := D) limits input = Ok (filter, fm) -> fm = None.
Proof.
  intros Hk. unfold check_parameters, read_filter, choose_filter. rewrite Hk.
  destruct (validate_no_expression_param_mixing _ _) as [[]|] eqn:Em; [|done]. intros _.
  revert Em. unfold validate_no_expression_param_mixing. cbn [existsb snd is_some].
  destruct (nonempty_map (qi_query_filter input)).
  { rewrite !orb_true_r. done. }
  intros _. destruct (parse_optional_filter _ _) as [f|]; [|done]. cbv beta iota.
  destruct (match f with Some _ => _ | None => _ end); [|done]. congruence.
Qed.

Lemma bound_placeholder (maps : ExpressionMaps D) e v : bound_value maps e = Some v ->
  exists name, e = EPlaceholder name /\ em_values maps !! name = Some v.
Proof.
  unfold bound_value, value_ok, resolve_value. destruct e; try done. intros H. exists name. split; [done|].
  destruct (em_values maps !! name); [by injection H as ->|done].
Qed.

Section Request.
Context (limits : LimitsConfig) (body : Value) (p : Prepared (D := D)) (key_info : TableKeyInfo)
  (kc : KeyCondition) (legacy fm : option (ExpressionMaps D)).
Context (Hp : prepared_from limits body p key_info kc legacy fm).
Context (Hdec : decoded body (qp_input p)) (Hshort : json_short body = true).
Context (pk : string) (def : AttributeDefinition) (v : AttributeValue).
Context (Hfirst : hash_first (tki_key_schema (qp_key_info p)) pk).
Context (Hdef : find_definition pk (tki_attribute_definitions (qp_key_info p)) = Some def).
Context (Hbound : bound_value (qp_combined_maps p) (pk_value (qp_key_condition p)) = Some v).

Lemma expression_agrees kce : qi_key_condition_expression (qp_input p) = Some kce ->
  expression_leading_key kce (max_expression_tokens limits) (tki_key_schema (qp_key_info p)) pk (names_map body)
    (values_map body) = leading_text v
  /\ attr_value_matches_scalar v (ad_attribute_type def) = true.
Proof.
  intros Hk. destruct (bound_placeholder _ _ _ Hbound) as (name & En & Hv).
  pose proof (pf_key_condition _ _ _ _ _ _ _ Hp) as Hr. unfold read_key_condition in Hr. rewrite Hk in Hr.
  destruct (parse_key_condition_expr kce limits) as [kc0|] eqn:Ep; [|done]. injection Hr as -> <-.
  destruct (pf_filter _ _ _ _ _ _ _ Hp) as [filter Hf].
  apply (expression_without_filter _ _ kce) in Hf as ->; [|done|by apply (pf_parameters _ _ _ _ _ _ _ Hp)].
  pose proof (pf_effective _ _ _ _ _ _ _ Hp) as He. simpl in He.
  rewrite (pf_combined _ _ _ _ _ _ _ Hp) in Hv. simpl in Hv. rewrite !(left_id ∅ _) in Hv.
  pose proof (pf_assigned _ _ _ _ _ _ _ Hp) as Ha. rewrite He in Ha.
  destruct (key_condition_tokens _ _ _ Ep) as (tokens & _ & Ht).
  apply (assigned _ _ _ _ pk) in Ha; [|done|by apply (parsed_path tokens kc (partition_clause kc)); [|left]].
  rewrite (de_names _ _ Hdec).
  rewrite (expression_key _ _ _ _ _ _ limits _ Hfirst Ep Ha), En.
  pose proof (de_values _ _ Hdec name) as Hvals. unfold request_maps in Hv. simpl in Hv. rewrite Hv in Hvals.
  inversion Hvals as [jv ? Hjv Ej|]; subst. unfold value_of. rewrite <- Ej. simpl.
  assert (attr_value_matches_scalar v (ad_attribute_type def) = true) as Ht' by (eapply (pa_type _ _ _ _ _ Ha); eauto).
  split; [|done]. apply value_text; [by eapply values_map_short|done|by eapply scalar_key].
Qed.

Lemma legacy_agrees : object_form body = true -> json_unique body = true ->
  qi_key_condition_expression (qp_input p) = None ->
  exists jv, json_get body "KeyConditions" = Some jv /\ legacy_leading_key jv pk = leading_text v
    /\ attr_value_matches_scalar v (ad_attribute_type def) = true.
Proof.
  intros Ho Hu Hk. destruct (bound_placeholder _ _ _ Hbound) as (name & En & Hv).
  pose proof (pf_key_condition _ _ _ _ _ _ _ Hp) as Hr. unfold read_key_condition in Hr. rewrite Hk in Hr.
  destruct (qi_key_conditions (qp_input p)) as [conds|] eqn:Ec; [|done].
  destruct (desugar_key_conditions conds _) as [[kc0 lmaps]|] eqn:Ed; [|done]. injection Hr as -> <-.
  pose proof (pf_effective _ _ _ _ _ _ _ Hp) as He. simpl in He.
  pose proof (pf_assigned _ _ _ _ _ _ _ Hp) as Ha. rewrite He in Ha.
  apply (assigned _ _ _ _ pk) in Ha; [|done|].
  2:{ destruct (desugared_equality _ _ _ _ (pk_path kc) (pk_value kc) Ed) as (a & _ & _ & _ & -> & _); [by left|].
      by exists a. }
  destruct (desugared_equality _ _ _ _ _ _ Ed (pa_clause _ _ _ _ _ Ha))
    as (a & cond & w & name' & Epath & En' & Hcond & Hop & Hw & Hval & Hname).
  cbn [fst snd] in Epath, En'. rewrite En in En'. injection En' as <-.
  assert (w = v) as ->.
  { rewrite (pf_combined _ _ _ _ _ _ _ Hp) in Hv. simpl in Hv. rewrite lookup_union_r in Hv.
    - rewrite (lookup_union_Some_l _ _ _ w) in Hv by done. congruence.
    - destruct (pf_filter _ _ _ _ _ _ _ Hp) as [filter Hf]. unfold read_filter, choose_filter in Hf.
      destruct (nonempty_map _).
      + destruct (desugar_filter _ _) as [[e fmaps]|] eqn:Edf; [|done]. cbv beta iota in Hf.
        destruct (validate_name_refs_in_expr _ _ e) as [[]|]; [|done]. injection Hf as _ <-. simpl.
        eapply desugar_filter_other; [|exact Edf]. by apply key_name_other.
      + destruct (parse_optional_filter _ _) as [f|]; [|done]. cbv beta iota in Hf.
        destruct (match f with Some _ => _ | None => _ end); [|done]. injection Hf as _ <-. apply lookup_empty. }
  assert (a = pk) as ->.
  { pose proof (pa_attr _ _ _ _ _ Ha) as Hat. rewrite Epath in Hat. unfold resolve_path_attr_name in Hat.
    assert (em_names lmaps = ∅) as Hem by (by eapply desugared_names).
    rewrite Hem in Hat. destruct (strip_prefix_char "#" a); [by rewrite lookup_empty in Hat|by injection Hat]. }
  destruct (de_conditions _ _ Hdec conds Ec) as (jv & Hj & Hh). exists jv. split; [done|].
  destruct (legacy_key body conds pk cond v jv Ho Hu Hj Hh Hcond Hop Hw) as (value & -> & Hvv & Hs).
  assert (attr_value_matches_scalar v (ad_attribute_type def) = true) as Ht' by (eapply (pa_type _ _ _ _ _ Ha); eauto).
  split; [|done]. apply value_text; [by apply Hs|done|by eapply scalar_key].
Qed.
End Request.

Lemma query_agreement limits body (p : Prepared (D := D)) ki pk def v :
  object_form body = true -> json_unique body = true -> json_short body = true ->
  prepare_query hash_order limits body = Ok p ->
  same_snapshot ki (qi_table_name (qp_input p)) ->
  hash_first (tki_key_schema (qp_key_info p)) pk ->
  find_definition pk (tki_attribute_definitions (qp_key_info p)) = Some def ->
  bound_value (qp_combined_maps p) (pk_value (qp_key_condition p)) = Some v ->
  query_leading_keys body ki (max_expression_tokens limits) = leading_text v
  /\ attr_value_matches_scalar v (ad_attribute_type def) = true.
Proof.
  intros Ho Hu Hs (key_info & kc & legacy & fm & Hp)%prepare_query_inv Hsnap Hf Hd Hb.
  assert (is_object body = true) as Hobj by (by apply andb_true_iff in Ho as [? _]).
  pose proof (de_query_input_decoded _ _ Hobj (pf_input _ _ _ _ _ _ _ Hp)) as Hdec.
  unfold query_leading_keys. rewrite (snapshot_schema _ _ _ _ _ _ _ _ Hp Hdec Hsnap). cbn [mbind option_bind].
  rewrite (hash_first_attr _ _ Hf). cbn [mbind option_bind].
  rewrite (de_kce _ _ Hdec). destruct (qi_key_condition_expression (qp_input p)) as [kce|] eqn:Ek.
  - by eapply expression_agrees.
  - destruct (legacy_agrees _ _ _ _ _ _ _ Hp Hdec Hs _ _ _ Hf Hd Hb Ho Hu Ek) as (jv & -> & H). done.
Qed.

End Agreement.

(** ** Requests for one item *)

Lemma bt_get_extend_NoDup (k : string) (l : list (string * AttributeValue)) : forall m, NoDup (map fst l) ->
  bt_get k (bt_extend m l) = match List.find (fun kv => String.eqb kv.1 k) l with
                             | Some kv => Some kv.2
                             | None => bt_get k m
                             end.
Proof.
  induction l as [|[k' v'] l IH]; intros m Hn; [done|]. simpl in *. inversion Hn as [|? ? Hk Hn']; subst.
  rewrite IH by done. destruct (String.eqb_spec k' k) as [->|Hne].
  - destruct (List.find _ l) as [kv|] eqn:Ef; [|by rewrite bt_get_insert_eq].
    apply find_some in Ef as [Hi Hkv]. apply String.eqb_eq in Hkv. destruct Hk.
    apply list_elem_of_In, in_map_iff. by exists kv.
  - destruct (List.find _ l) as [kv|]; [done|]. by rewrite bt_get_insert_ne.
Qed.

Section OneItem.
Context `{HB : Base64} `{HD : Base64Decode} `{HC : !Base64Canonical} `{HE : SerdeErrors} `{HT : SerdeText}.

(** The attribute that authorization looks up and the one that the engine decodes. *)
Lemma entries_find o l name : collect_results (fun kv => let? x := de_attribute_value kv.2 in Ok (kv.1, x)) o = Ok l ->
  map fst l = map fst o
  /\ option_Forall2 (fun jv v => de_attribute_value jv = Ok v)
       (snd <$> List.find (fun kv => String.eqb kv.1 name) o) (snd <$> List.find (fun kv => String.eqb kv.1 name) l).
Proof.
  revert l. induction o as [|[k jv] o IH]; intros l; simpl; [intros [= <-]; split; [done|constructor]|].
  destruct (de_attribute_value jv) as [v|] eqn:Ev; [|done]. simpl.
  destruct (collect_results _ o) as [l'|]; [|done]. intros [= <-]. destruct (IH l' eq_refl) as [H1 H2]. simpl.
  split; [by rewrite H1|]. destruct (String.eqb k name); [by constructor|done].
Qed.

Lemma item_key_agreement jv item pk : json_unique jv = true -> json_short jv = true -> de_item jv = Ok item ->
  (forall v, bt_get pk item = Some v -> key_scalar v = true) ->
  pk_from_map jv pk Normalized = match bt_get pk item with Some v => leading_text v | None => None end.
Proof.
  intros Hu Hs Hd Hk. unfold de_item, de_entries in Hd. destruct jv as [| | | | |o]; try done.
  destruct (collect_results _ o) as [l|] eqn:El; [|done]. injection Hd as <-.
  destruct (entries_find o l pk El) as [Hf H2].
  assert (NoDup (map fst l)) as Hn.
  { rewrite Hf. simpl in Hu. apply andb_true_iff in Hu as [Hu _]. by apply bool_decide_eq_true_1 in Hu. }
  unfold bt_of_list in *. rewrite bt_get_extend_NoDup in * by done. unfold pk_from_map. cbn [json_get].
  assert (forall v, snd <$> List.find (fun kv => String.eqb kv.1 pk) o = Some v -> json_short v = true) as Hsh.
  { intros v Hv. by apply (json_get_short (VObject o) pk). }
  destruct (List.find _ o) as [[ko jv]|], (List.find _ l) as [[kl v]|]; simpl in *; try (by inversion H2).
  inversion H2; subst. apply value_text; [by apply Hsh|done|by apply Hk].
Qed.

(** For an operation on one item, the leading key that authorization reads from the
    [Key], or from the [Item] of a PutItem, is the text of the partition key of the item
    that the engine decodes from it, and is absent when the item has none. *)
Theorem item_leading_key body ki field op jv item pk n :
  In (op, field) [("GetItem", "Key"); ("DeleteItem", "Key"); ("UpdateItem", "Key"); ("PutItem", "Item")] ->
  json_unique body = true -> json_short body = true ->
  json_get body field = Some jv -> de_item jv = Ok item ->
  hash_attr (tki_key_schema (ak_key_info ki)) = Some pk ->
  (forall v, bt_get pk item = Some v -> key_scalar v = true) ->
  single_table_leading_keys body op (Some ki) n
  = match bt_get pk item with Some v => (fun text => [text]) <$> leading_text v | None => None end.
Proof.
  intros Hop Hu Hs Hj Hd Hh Hk.
  pose proof (item_key_agreement jv item pk (json_get_unique _ _ _ Hu Hj) (json_get_short _ _ _ Hs Hj) Hd Hk) as Ha.
  unfold single_table_leading_keys.
  destruct Hop as [[= <- <-]|[[= <- <-]|[[= <- <-]|[[= <- <-]|[]]]]]; cbn [mbind option_bind]; rewrite Hh, Hj;
    cbn [mbind option_bind existsb String.eqb]; rewrite Ha; by destruct (bt_get pk item) as [v|]; [destruct (leading_text v)|].
Qed.
End OneItem.
