(* ===== verification/FencedQuery.v ===== *)
(** * Queries behind a fence

    The composition of authorization, the Query handler and SQLite: a policy that
    allows only some leading keys, the body from which the leading key is read, and the
    rows that the accepted request returns.  The rows are those of the allowed
    partitions. *)

From S2P Require Import Prelude BTree Types Error Decimal Number Ast Tokenizer Resolver Evaluator Projection.
From S2P Require Import KeyCondition KeyResolve ItemSize Storage ReadPage StartKey StorageKey Wire NumberKey.
From S2P Require Import KeyOrder SqlSelect SqliteQuery SqlWrite IndexKeys SqliteIndex SqliteQueue SqliteStore StoreRefine SqliteWorker TableRead.
From S2P Require Import ExpressionHelpers LegacyFilter QueryHandler LeadingKeys Fence.
From S2P Require Import Arn PolicyMatcher PolicyVariables PolicyCondition PolicyEvaluator CaseFold PolicyContext.

(** ** What a page is made of *)

Section Pages.
Context {D : Type} `{HD : BigDecimal D} {W : Type} (fetch : option Item -> Z -> W -> QueryResult * W)
  (post : PostRead D) (P : Item -> Prop).

(** The items and the key come from items that have [P]. *)
Definition made_of (items : list Item) (key : option Item) : Prop :=
  Forall (fun x => exists i, P i /\ x = projected post i) items
  /\ forall k, key = Some k -> exists i, P i /\ k = extract_key i (pr_lek_key_schema post).

Definition page_made_of (page : PageReadResult) : Prop :=
  made_of (default [] (pg_items page)) (pg_last_evaluated_key page).

Notation acc_made_of acc := (made_of (acc_result_items acc) (acc_last_processed_key acc)).

Lemma finish_made_of acc more : acc_made_of acc -> page_made_of (finish post acc more).
Proof.
  intros [Hi Hk]. unfold page_made_of, finish. simpl. destruct (is_count post), more; split; simpl; done.
Qed.

Lemma push_made_of acc acc' item : P item -> acc_made_of acc -> push post acc item = Ok (Evaluated acc') ->
  acc_made_of acc'.
Proof.
  intros Hp [Hi Hk]. unfold push. destruct (item_size_bytes item) as [n|]; [|done].
  destruct (_ && _); [done|]. destruct (passes post item) as [[]|]; [| |done]; intros [= <-]; simpl.
  - split; [|intros k [= <-]; by exists item]. destruct (is_count post); [done|].
    apply Forall_app. split; [done|]. constructor; [by exists item|constructor].
  - split; [done|]. intros k [= <-]. by exists item.
Qed.

Lemma push_items_made_of limit items : forall acc r, Forall P items -> acc_made_of acc ->
  push_items limit post acc items = Ok r ->
  match r with inl page => page_made_of page | inr acc => acc_made_of acc end.
Proof.
  induction items as [|item items IH]; intros acc r Hp Ha; simpl; [by intros [= <-]|].
  inversion Hp as [|? ? Hi Hp']; subst.
  destruct (limit_reached limit acc); [intros [= <-]; by apply finish_made_of|].
  destruct (push post acc item) as [[acc'|]|] eqn:Ep; [| |done].
  - apply IH; [done|]. by eapply push_made_of.
  - intros [= <-]. by apply finish_made_of.
Qed.

Hypothesis Hfetch : forall cursor n w items lek w', (1 <= n)%Z ->
  fetch cursor n w = (Ok (items, lek), w') -> Forall P items.

Lemma read_page_made_of fuel limit start w page :
  read_page fetch fuel limit start post w = Ok page -> page_made_of page.
Proof.
  unfold read_page. assert (acc_made_of acc_new) as Ha by (by split).
  revert start w Ha. generalize acc_new as acc. induction fuel as [|fuel IH]; intros acc cursor w Ha; simpl; [done|].
  destruct (fetch cursor (chunk_want limit acc) w) as [[[items lek]|e] w'] eqn:Ef; [|done].
  apply Hfetch in Ef; [|by apply chunk_want_bounds].
  destruct (push_items limit post acc items) as [r|] eqn:Ep; [|done].
  apply push_items_made_of in Ep; [|done|done]. destruct r as [r|acc']; [by intros [= <-]|].
  destruct (limit_reached limit acc'); [intros [= <-]; by apply finish_made_of|].
  destruct (_ <=? _)%N; [intros [= <-]; by apply finish_made_of|].
  destruct (is_some lek); simpl; [|intros [= <-]; by apply finish_made_of].
  destruct (_ || _); [done|]. by apply IH.
Qed.
End Pages.

(** ** The rows of a partition *)

Section Rows.
Context `{HR : Rendering} `{HB : Base64} `{HBL : !Base64Laws} {D : Type} `{HD : BigDecimal D}
  `{HDL : !BigDecimalLaws D} `{HP : !BigDecimalParts D} `{HPL : !BigDecimalPartsLaws D}
  `{HS : Sqlite} `{HSL : !SqliteLaws} `{HM : SqliteDml} `{HML : !SqliteDmlLaws}
  `{HE : SqliteErrors} `{HT : Timestamps} `{HC : Crc32}.
Context (key_info : TableKeyInfo) (Hschema : schema_ok key_info).
Implicit Type maps : ExpressionMaps D.

(** Every row of an answer satisfies the key condition, whatever the cursor. *)
Lemma query_impl_rows rows kc maps forward n cursor out lek : (1 <= n)%Z ->
  query_impl rows key_info kc maps forward (Some n) cursor None = Ok (out, lek) ->
  exists conds, query_conditions key_info kc maps = Ok conds
    /\ forall i, In i out -> exists r, In r rows /\ row_item r = i /\ where_true conds r = true.
Proof.
  intros Hn. unfold query_impl. destruct (query_conditions key_info kc maps) as [conds|]; [|done]. intros Hq.
  exists conds. split; [done|]. destruct (_ && _); [by injection Hq as <- <-|].
  destruct (match cursor with Some _ => _ | None => _ end) as [cur|]; [|done].
  match type of Hq with context [sqlite_select rows ?st] =>
    destruct (sqlite_select_spec rows st) as (l & Hp & _ & El); [cbn [st_limit]; lia|]; rewrite El in Hq;
    cbn [st_where] in Hp end.
  injection Hq as <- _. intros i (r & <- & Hr)%in_map_iff. exists r.
  apply In_take, In_take in Hr. rename Hr into Hl.
  eapply Permutation_in in Hl; [|exact Hp]. apply filter_In in Hl as [Hl Hw]. split; [done|]. split; [done|].
  unfold where_true in *. rewrite forallb_app in Hw. by apply andb_true_iff in Hw as [Hw _].
Qed.

(** An item of the table in the partition of [v]. *)
Definition in_partition (items : list BoundValue -> option Item) (v : AttributeValue) (i : Item) : Prop :=
  (exists k, items k = Some i) /\ bt_get (hash_name key_info) i = Some v.

Lemma query_impl_partition t items kc maps forward n cursor out lek :
  base_holds (D := D) key_info t items -> extra_pk_conditions kc = [] ->
  (forall k i v w, items k = Some i -> bt_get (hash_name key_info) i = Some w ->
     bound_value maps (pk_value kc) = Some v -> scalar_type v = scalar_type w) ->
  (1 <= n)%Z -> query_impl (tbl_rows t) key_info kc maps forward (Some n) cursor None = Ok (out, lek) ->
  exists v, bound_value maps (pk_value kc) = Some v /\ Forall (in_partition items v) out.
Proof.
  intros Hb Hx Hty Hn (conds & Hq & Hout)%query_impl_rows; [|done].
  unfold query_conditions, query_pk_text in Hq. rewrite Hx in Hq.
  destruct (resolve_expr_to_av (pk_value kc) maps) as [v|] eqn:Ev; [|done]. simpl in Hq.
  destruct (pk_to_text v) as [text|] eqn:Et; [|done].
  match type of Hq with match ?m with Ok _ => _ | Err _ => _ end = _ => destruct m as [sk|]; [|done] end.
  match type of Hq with match ?m with Ok _ => _ | Err _ => _ end = _ => destruct m as [extra|]; [|done] end.
  injection Hq as <-. apply resolve_expr_bound in Ev. exists v. split; [done|].
  apply List.Forall_forall. intros i Hi. destruct (Hout i Hi) as (r & Hr & <- & Hw).
  destruct (base_row key_info t items r Hb Hr) as (k & _ & Ek & Hk).
  destruct (item_key_parts key_info _ _ (bh_items _ _ _ Hb _ _ Hk)) as (w & t' & Hbt & Ht' & Hparts).
  split; [by exists k|]. rewrite Hbt. f_equal. symmetry.
  apply (pk_to_text_inj v w text); [by eapply Hty|done|]. rewrite Ht'. f_equal.
  assert (row_cols r !! "pk" = Some (BoundText t')) as Hcol.
  { destruct (scan_info key_info) as [[name ty]|].
    - destruct Hparts as (? & ? & _ & _ & -> & Ec). rewrite Ec in Ek. by injection Ek.
    - destruct Hparts as [-> Ec]. rewrite Ec in Ek. by injection Ek. }
  unfold where_true in Hw. cbn [forallb] in Hw. apply andb_true_iff in Hw as [Hw _].
  cbn [cond_true] in Hw. rewrite Hcol in Hw. cbn [bound_cmp apply_op] in Hw.
  apply bool_decide_eq_true_1 in Hw. apply cmp_eq_iff in Hw. done.
Qed.
End Rows.

(** ** The fence *)

(** The statement applies to the leading keys that are [allowed] alone: one of its
    conditions is [ForAllValues:StringEquals] on them, with the allowed keys for
    values, after the policy's variables have been replaced. *)
Definition fences (allowed : string -> Prop) (context : ConditionContext) (policy : PolicyDocument)
    (stmt : Statement) : Prop :=
  exists c, In c (conditions stmt) /\ operator c = ForAllValues StringEquals /\ key c = "dynamodb:LeadingKeys"
    /\ forall value text, In value (values c) ->
         text_of (expand_condition_value value
           (expands_variables (operator c) (expands_policy_variables policy)) context) = Some text ->
         allowed text.

Section Policies.
Context `{HT : Rfc3339}.

Lemma fenced_statement allowed context policy stmt action arn text :
  fences allowed context policy stmt -> allows policy action arn context stmt = true ->
  resolve_key context "dynamodb:LeadingKeys" = Some [text] -> allowed text.
Proof.
  intros (c & Hc & Hop & Hkey & Hall) Ha Hr. unfold allows in Ha. apply andb_true_iff in Ha as [_ Ha].
  unfold allow_conditions_grant, statement_conditions in Ha.
  destruct (evaluate_statement_conditions _ _ _) eqn:E; try done.
  pose proof (proj1 (statement_Match _ _ _) E c Hc) as Hm. unfold evaluate_condition_match in Hm.
  destruct (_ || _); [done|]. destruct (_ && _); [done|].
  destruct (evaluate_condition_with c _ context) eqn:Ee; [|done].
  unfold evaluate_condition_with in Ee. rewrite Hkey, Hop, Hr in Ee. cbn [unwrap_if_exists forallb] in Ee.
  rewrite andb_true_r in Ee. unfold holds_for in Ee. cbn [is_negative_operator] in Ee.
  apply existsb_exists in Ee as (cv & (value & <- & Hv)%in_map_iff & Hcmp).
  unfold compare_single in Hcmp. cbn [is_arn_operator andb] in Hcmp.
  destruct (text_of _) as [t|] eqn:Et; [|done]. apply String.eqb_eq in Hcmp as ->.
  eapply Hall; [exact Hv|]. by rewrite Hop.
Qed.

Lemma fenced_decision allowed ids boundary session action arn context text :
  evaluate_policies ids boundary session action arn context = Allow ->
  (forall policy stmt, In policy ids -> In stmt (statements policy) -> effect stmt = Allow_effect ->
     fences allowed context policy stmt) ->
  resolve_key context "dynamodb:LeadingKeys" = Some [text] -> allowed text.
Proof.
  intros (_ & (policy & Hp & Ha) & _)%decision_allow Hf Hr.
  apply existsb_exists in Ha as (stmt & Hs & Ha).
  apply (fenced_statement allowed context policy stmt action arn); [|done|done]. apply Hf; [done|done|].
  unfold allows in Ha. destruct (bool_decide_reflect (effect stmt = Allow_effect)); done.
Qed.
End Policies.

Lemma leading_keys_resolve self : resolve_key (request_context self) "dynamodb:LeadingKeys" = leading_keys self.
Proof. reflexivity. Qed.

(** ** Authorization, handler and storage *)

Lemma same_scalar v w ty : attr_value_matches_scalar v ty = true -> attr_value_matches_scalar w ty = true ->
  scalar_type v = scalar_type w.
Proof. by destruct v, w, ty. Qed.

Section Fenced.
Context `{HR : Rendering} `{HB : Base64} `{HBL : !Base64Laws} `{HBD : Base64Decode} `{HBC : !Base64Canonical}
  {D : Type} `{HD : BigDecimal D} `{HDL : !BigDecimalLaws D} `{HP : !BigDecimalParts D}
  `{HPL : !BigDecimalPartsLaws D} `{HS : Sqlite} `{HSL : !SqliteLaws} `{HM : SqliteDml} `{HML : !SqliteDmlLaws}
  `{HE : SqliteErrors} `{HT : Timestamps} `{HC : Crc32} `{HF : Rfc3339}
  `{HCat : QueryCatalog} `{HSE : SerdeErrors} `{HST : SerdeText}.
Context (hash_order : gset string -> list string) {W : Type}.
Variable storage_query : TableKeyInfo -> KeyCondition -> ExpressionMaps D -> bool -> option Z -> option Item
  -> option string -> W -> QueryResult * W.

(** The table: its description in the catalog, its rows, and the items they hold. *)
Context (ki : AuthzKeyInfo) (def : AttributeDefinition) (t : Table) (items : list BoundValue -> option Item).
Notation key_info := (ak_key_info ki).
Notation pk := (hash_name key_info).

(** Storage reads the data table, whose key attributes have the type that the table
    declares. *)
Record table_stored : Prop := {
  ts_schema : schema_ok key_info;
  ts_definition : find_definition pk (tki_attribute_definitions key_info) = Some def;
  ts_holds : base_holds (D := D) key_info t items;
  ts_keys : forall k i v, items k = Some i -> bt_get pk i = Some v ->
    attr_value_matches_scalar v (ad_attribute_type def) = true /\ is_Some (leading_text v);
  ts_query : forall kc maps forward n cursor w,
    storage_query key_info kc maps forward (Some n) cursor None w
    = (query_impl (tbl_rows t) key_info kc maps forward (Some n) cursor None, w)
}.

Lemma stored_hash_first : schema_ok key_info -> hash_first (tki_key_schema key_info) pk.
Proof.
  intros [(h & rest & E & Eh & _)]. exists h, rest. split; [done|]. split; [done|]. unfold hash_name. by rewrite E.
Qed.

End Fenced.
