(* ===== verification/FenceSample.v ===== *)
(** * A fenced table

    The notes of [StoreSample] behind a policy that leaves each user their own
    partition: the theorems of [Fence] and [FencedQuery] at work, and three requests
    that get past the fence, each outside of one of their hypotheses. *)

From S2P Require Import Prelude BTree Types Error Decimal Number Ast Tokenizer Resolver Evaluator Projection.
From S2P Require Import KeyCondition KeyResolve ItemSize Storage ReadPage StartKey StorageKey Wire NumberKey.
From S2P Require Import KeyOrder SqlSelect SqliteQuery SqlWrite IndexKeys SqliteIndex SqliteQueue SqliteStore.
From S2P Require Import StoreRefine SqliteWorker StoreModel TableRead StoreSample.
From S2P Require Import ExpressionHelpers LegacyFilter QueryHandler LeadingKeys Fence FencedQuery.
From S2P Require Import Arn PolicyMatcher PolicyVariables PolicyCondition PolicyEvaluator CaseFold PolicyContext.

#[local] Existing Instance rfc4648_base64.
#[local] Existing Instance sorting_sqlite.
#[local] Existing Instance sorting_sqlite_laws.
#[local] Existing Instance list_dml.
#[local] Existing Instance list_dml_laws.
#[local] Existing Instance text_rendering.
#[local] Existing Instance sqlite_errors.
#[local] Existing Instance second_timestamps.
#[local] Existing Instance length_crc32.

(** The decoder that refuses bits after the last byte. *)
#[local] Instance strict_decode : Base64Decode := fun s =>
  match rfc4648_decode s with
  | Ok b => if String.eqb (b64_encode b) s then Ok b else Err "Invalid last symbol"
  | Err e => Err e
  end.

#[local] Instance strict_canonical : Base64Canonical.
Proof.
  intros s b. unfold b64_decode, strict_decode. destruct (rfc4648_decode s) as [b'|]; [|done].
  destruct (String.eqb_spec (b64_encode b') s); congruence.
Qed.

#[local] Instance short_errors : SerdeErrors := {|
  rendered_per_level := fun s => s;
  invalid_type := fun _ => "invalid type"
|}.
#[local] Instance short_texts : SerdeText := {|
  wrong_type := fun expected _ => "expected " +:+ expected;
  missing_field := fun name => "missing field " +:+ name
|}.
#[local] Instance no_clock : Rfc3339 := fun _ => None.

(** The index that storage has of the notes. *)
Definition folder_index : IndexInfo :=
  {| index_name := "by_folder"; index_id := "by_folder"; index_type := Gsi;
     idx_key_schema := [{| ks_attribute_name := "folder"; ks_key_type := Hash |}];
     idx_projection := {| projection_type := ProjKeysOnly; non_key_attributes := None |} |}.

#[local] Instance notes_query_catalog : QueryCatalog := {|
  table_key_info := fun name => if String.eqb name "notes" then Ok notes else Err (SE_TableNotFound name);
  vector_index_names := fun _ => [];
  index_info_by_table_id := fun _ name =>
    if String.eqb name "by_folder" then Ok folder_index else Err (SE_IndexNotFound name);
  describe_vector_index := fun _ _ => Ok None
|}.

Definition notes_authz : AuthzKeyInfo :=
  {| ak_key_info := notes; ak_global_secondary_indexes := [folder_index]; ak_local_secondary_indexes := [] |}.

Definition sample_limits : LimitsConfig :=
  {| max_expression_tokens := 300; max_expression_length_bytes := 4096; max_expression_depth := 32;
     enforce_reserved_keywords := true |}.

Definition sorted_names (s : gset string) : list string := set_of_list (elements s).

Definition text (s : string) : Value := VObject [("S", VString s)].

(** [user = :u AND at >= :t]. *)
Definition since_body (user time : string) : Value :=
  VObject [("TableName", VString "notes");
    ("KeyConditionExpression", VString "#u = :u AND #t >= :t");
    ("ExpressionAttributeNames", VObject [("#u", VString "user"); ("#t", VString "at")]);
    ("ExpressionAttributeValues", VObject [(":u", text user); (":t", text time)])].

(** The same with [KeyConditions]; [written] is how a condition is written. *)
Definition legacy_body (written : string -> Value -> Value) (user : string) : Value :=
  VObject [("TableName", VString "notes");
    ("KeyConditions", VObject [("user", written "EQ" (text user))])].

Definition as_fields (operator : string) (operand : Value) : Value :=
  VObject [("ComparisonOperator", VString operator); ("AttributeValueList", VArray [operand])].
Definition as_sequence (operator : string) (operand : Value) : Value :=
  VArray [VString operator; VArray [operand]].

Lemma notes_snapshot : same_snapshot notes_authz "notes".
Proof.
  split; [done|]. intros name info. simpl. destruct (String.eqb_spec name "by_folder") as [->|]; [|done].
  by intros [= <-].
Qed.

Lemma notes_hash_first : hash_first notes_schema "user".
Proof. by do 2 eexists. Qed.

(** The two requests, prepared. *)
Definition since_prepared : option (Prepared (D := dec)) :=
  Eval vm_compute in ok (prepare_query sorted_names sample_limits (since_body "ada" "09:30")).
Definition legacy_prepared : option (Prepared (D := dec)) :=
  Eval vm_compute in ok (prepare_query sorted_names sample_limits (legacy_body as_fields "ada")).

Lemma since_prepares : ok (prepare_query (D := dec) sorted_names sample_limits (since_body "ada" "09:30")) = since_prepared.
Proof. vm_compute. reflexivity. Qed.

Lemma legacy_prepares :
  ok (prepare_query (D := dec) sorted_names sample_limits (legacy_body as_fields "ada")) = legacy_prepared.
Proof. vm_compute. reflexivity. Qed.

Lemma ok_Some {A : Type} (r : res A) x : ok r = Some x -> r = Ok x.
Proof. destruct r; simpl; congruence. Qed.


(** ** A policy *)

(** Each user queries the partition with their name. *)
Definition own_notes : PolicyDocument :=
  {| version := Some "2012-10-17";
     statements :=
       [{| sid := None; effect := Allow_effect; action_match := Actions ["dynamodb:Query"];
           resource_match := Resources ["arn:aws:dynamodb:*:*:table/notes*"];
           conditions := [{| operator := ForAllValues StringEquals; key := "dynamodb:LeadingKeys";
                             values := ["${aws:username}"] |}];
           principal_match := None |}] |}.

Definition notes_table_arn : string := "arn:aws:dynamodb:us-east-1:111111111111:table/notes".

(** The context of a request: who asks, and the leading keys of the body. *)
Definition asked_by (user : string) (ki : AuthzKeyInfo) (body : Value) : RequestContext :=
  {| principal_tags := ∅; resource_tags := ∅;
     leading_keys := single_table_leading_keys body "Query" (Some ki) (max_expression_tokens sample_limits);
     attributes := None; select := None; return_values := None; return_consumed_capacity := None;
     full_table_scan := None; enclosing_operation := None; principal_arn := None; principal_account := None;
     region := None; secure_transport := true; principal_type := Some "User"; username := Some user;
     source_ip := None; user_agent := None; userid := None; resource_account := None; token_issue_time := None;
     multi_factor_auth_present := None; current_time := ""; epoch_time := "";
     request_tags := None; request_tag_keys := None |}.

Definition decision (user : string) (ki : AuthzKeyInfo) (body : Value) : AuthzDecision :=
  evaluate_policies [own_notes] None None "dynamodb:Query" notes_table_arn (request_context (asked_by user ki body)).

Definition query_rows (rows : list Row) (ki : TableKeyInfo) (kc : KeyCondition) (maps : ExpressionMaps dec)
    (forward : bool) (limit : option Z) (cursor : option Item) (index : option string) (w : unit)
    : QueryResult * unit :=
  (query_impl rows ki kc maps forward limit cursor (if is_some index then Some false else None), w).

Definition answer (rows : list Row) (body : Value) : res PageReadResult :=
  handle_query sorted_names (query_rows rows) sample_limits body 3 tt.

Lemma notes_stored t : base_holds (D := dec) notes t sample_model.1 ->
  table_stored (query_rows (tbl_rows t)) notes_authz {| ad_attribute_name := "user"; ad_attribute_type := Scalar_S |}
    t sample_model.1.
Proof.
  intros Hb. split.
  - exact notes_schema_ok.
  - reflexivity.
  - exact Hb.
  - intros k i v [->| ->]%sample_item Hv; vm_compute in Hv; injection Hv as <-; (split; [done|by eexists]).
  - reflexivity.
Qed.

Lemma own_notes_fences policy stmt : In policy [own_notes] -> In stmt (statements policy) ->
  fences (eq "ada") (request_context (asked_by "ada" notes_authz (since_body "ada" "09:30"))) policy stmt.
Proof.
  intros [<-|[]] [<-|[]]. eexists. split; [by left|]. split; [reflexivity|]. split; [reflexivity|].
  intros value text [<-|[]] Ht. vm_compute in Ht. by injection Ht.
Qed.


(** ** Past the fence *)

Definition notes_rows : list Row :=
  Eval vm_compute in match db_tables sample_db !! data_table_name "notes" with Some t => tbl_rows t | None => [] end.

(** Another user is refused. *)
Lemma other_user_denied : decision "eve" notes_authz (since_body "ada" "09:30") = Deny.
Proof. vm_compute. reflexivity. Qed.

(** [serde] reads a condition that is written as an array, and authorization does not:
    the leading keys are absent, [ForAllValues] holds of none, and the engine answers
    with the items of a partition outside of the fence. *)
Lemma array_condition_unfenced :
  decision "eve" notes_authz (legacy_body as_fields "ada") = Deny
  /\ decision "eve" notes_authz (legacy_body as_sequence "ada") = Allow
  /\ pg_items <$> ok (answer notes_rows (legacy_body as_sequence "ada"))
     = Some (Some [note "ada" "09:00" "play"; note "ada" "10:00" "home"]).
Proof. split; [|split]; vm_compute; reflexivity. Qed.

(** An index that authorization's description does not have yet. *)
Definition older_authz : AuthzKeyInfo :=
  {| ak_key_info := notes; ak_global_secondary_indexes := []; ak_local_secondary_indexes := [] |}.

Definition folder_body : Value :=
  VObject [("TableName", VString "notes"); ("IndexName", VString "by_folder");
    ("KeyConditionExpression", VString "folder = :f");
    ("ExpressionAttributeValues", VObject [(":f", text "home")])].

Lemma stale_index_unfenced :
  decision "eve" notes_authz folder_body = Deny /\ decision "eve" older_authz folder_body = Allow
  /\ is_some (ok (prepare_query (D := dec) sorted_names sample_limits folder_body)) = true.
Proof. split; [|split]; vm_compute; reflexivity. Qed.

(** A third equality is taken for a part of a composite partition key that the table
    does not have: storage looks up the encoding of both. *)
Definition three_body : Value :=
  VObject [("TableName", VString "notes");
    ("KeyConditionExpression", VString "#u = :u AND #x = :x AND #t = :t");
    ("ExpressionAttributeNames", VObject [("#u", VString "user"); ("#x", VString "x"); ("#t", VString "at")]);
    ("ExpressionAttributeValues", VObject [(":u", text "eve"); (":x", text "y"); (":t", text "09:00")])].

Definition encoded_row : Row :=
  {| row_id := 1; row_cols := {["pk" := BoundText "3:eve,1:y,"; "sk_s" := BoundText "09:00"]};
     row_item := note "3:eve,1:y," "09:00" "work" |}.

Lemma three_equalities_unfenced :
  query_leading_keys three_body notes_authz 300 = Some "eve"
  /\ decision "eve" notes_authz three_body = Allow
  /\ pg_items <$> ok (answer [encoded_row] three_body) = Some (Some [note "3:eve,1:y," "09:00" "work"]).
Proof. split; [|split]; vm_compute; reflexivity. Qed.
