(* ===== verification/ScanClient.v ===== *)
(** * A client of Scan

    A client that follows the keys of the pages at the level of the API: it sends the
    body of a Scan, adds the [LastEvaluatedKey] of each answer to the body of the next
    request, and stops at the answer that has none.  The requests are decoded and checked
    by the handler each time, and together they read the table, or a segment of it. *)

From S2P Require Import Prelude BTree Types Error Decimal Number Ast Tokenizer Resolver Evaluator Projection.
From S2P Require Import KeyCondition KeyResolve ItemSize Storage ReadPage StartKey StorageKey Wire NumberKey.
From S2P Require Import KeyOrder SqlSelect SqliteQuery SqlWrite IndexKeys SqliteIndex SqliteQueue SqliteStore.
From S2P Require Import StoreRefine SqliteWorker TableRead ExpressionHelpers LegacyFilter QueryHandler FencedQuery.
From S2P Require Import ScanHandler.

(** ** The next request *)

Definition item_value `{Base64} (item : Item) : Value := VObject (map (fun kv => (kv.1, to_value kv.2)) item).

(** The body with a start key; the first body has none. *)
Definition with_start_key `{Base64} (body : Value) (start : option Item) : Value :=
  match start, body with
  | Some key, VObject o => VObject (("ExclusiveStartKey", item_value key) :: o)
  | _, _ => body
  end.

Fixpoint client `{Base64} (handle : Value -> res PageReadResult) (body : Value) (requests : nat) (start : option Item)
    : res (list PageReadResult) :=
  match requests with
  | O => Err OutOfFuel
  | S requests =>
      let? page := handle (with_start_key body start) in
      match pg_last_evaluated_key page with
      | None => Ok [page]
      | Some key =>
          let? rest := client handle body requests (Some key) in
          Ok (page :: rest)
      end
  end.

Definition set_start (input : ScanInput) (start : option Item) : ScanInput :=
  {| si_table_name := si_table_name input; si_index_name := si_index_name input;
     si_filter_expression := si_filter_expression input;
     si_projection_expression := si_projection_expression input;
     si_expression_attribute_names := si_expression_attribute_names input;
     si_expression_attribute_values := si_expression_attribute_values input;
     si_limit := si_limit input; si_exclusive_start_key := start; si_select := si_select input;
     si_segment := si_segment input; si_total_segments := si_total_segments input;
     si_consistent_read := si_consistent_read input;
     si_return_consumed_capacity := si_return_consumed_capacity input; si_scan_filter := si_scan_filter input;
     si_attributes_to_get := si_attributes_to_get input;
     si_conditional_operator := si_conditional_operator input |}.

Section Bodies.
Context `{HB : Base64} `{HD : Base64Decode} `{HR : !Base64RoundTrip} `{HE : SerdeErrors} `{HT : SerdeText}.

(** A key that was read is written as a document that reads as the key. *)
Lemma item_value_reads (item : Item) : bt_sorted item = true ->
  (forall name v, In (name, v) item -> wire_wf v = true) -> de_item (item_value item) = Ok item.
Proof.
  intros Hs Hw. unfold de_item, de_entries, item_value.
  assert (collect_results (fun kv => let? x := de_attribute_value kv.2 in Ok (kv.1, x))
    (map (fun kv => (kv.1, to_value kv.2)) item) = Ok item) as ->; [|by rewrite bt_of_list_sorted].
  clear Hs. induction item as [|[name v] item IH]; [done|]. simpl.
  assert (de_attribute_value (to_value v) = Ok v) as ->.
  { pose proof (written_reads v (Hw name v (or_introl eq_refl))) as H. by destruct v. }
  rewrite IH; [done|]. intros n x Hin. apply (Hw n x). by right.
Qed.

Lemma scan_input_start found found' jv key input :
  (forall name, name <> "ExclusiveStartKey" -> found' name = found name) ->
  found' "ExclusiveStartKey" = Some jv -> de_option de_item jv = Ok (Some key) ->
  scan_input_of found = Ok input -> scan_input_of found' = Ok (set_start input (Some key)).
Proof.
  intros Hsame Hstart Hjv. unfold scan_input_of, get_required, get_or. rewrite Hstart, Hjv, !Hsame by done.
  intros Hp.
  repeat match type of Hp with
  | match ?m with Ok _ => _ | Err _ => _ end = Ok _ =>
      let x := fresh "x" in let E := fresh "E" in destruct m as [x|] eqn:E; [|discriminate Hp]; cbv beta in Hp
  end.
  by injection Hp as <-.
Qed.

Lemma with_start_get body o key name : body = VObject o ->
  json_get (with_start_key body (Some key)) name
  = if String.eqb "ExclusiveStartKey" name then Some (item_value key) else json_get body name.
Proof.
  intros ->. unfold with_start_key, json_get. cbn [List.find fst].
  by destruct (String.eqb "ExclusiveStartKey" name).
Qed.

Lemma with_start_decodes body o key input : body = VObject o -> de_scan_input body = Ok input ->
  de_item (item_value key) = Ok key ->
  de_scan_input (with_start_key body (Some key)) = Ok (set_start input (Some key)).
Proof.
  intros Hb Hd Hk. pose proof (with_start_get body o key) as Hget. subst body. cbn [with_start_key] in Hget |- *.
  assert (de_option de_item (item_value key) = Ok (Some key)) as Ho
    by (unfold de_option, item_value in *; cbv iota; by rewrite Hk).
  unfold de_scan_input, de_struct in Hd |- *. destruct (for_each _ o) as [[]|] eqn:Ef; [|done].
  cbn [for_each fst snd]. rewrite Ef.
  assert (List.find (fun f => String.eqb (f_name f) "ExclusiveStartKey") scan_fields
    = Some (field "ExclusiveStartKey" false (de_option de_item))) as -> by reflexivity.
  cbn [field f_check]. rewrite Ho. eapply scan_input_start; [| |exact Ho|exact Hd].
  - intros name Hn. rewrite (Hget name eq_refl). by destruct (String.eqb_spec "ExclusiveStartKey" name).
  - by rewrite (Hget _ eq_refl).
Qed.

Lemma with_start_enums body o key : body = VObject o ->
  validate_enum_fields (with_start_key body (Some key)) scan_enums = validate_enum_fields body scan_enums.
Proof. intros ->. reflexivity. Qed.
End Bodies.

(** ** The table behind the handler *)

Section Client.
Context `{HR : Rendering} `{HB : Base64} `{HBL : !Base64Laws} `{HBD : Base64Decode} `{HBR : !Base64RoundTrip}
  {D : Type} `{HD : BigDecimal D} `{HDL : !BigDecimalLaws D} `{HP : !BigDecimalParts D}
  `{HPL : !BigDecimalPartsLaws D} `{HS : Sqlite} `{HSL : !SqliteLaws} `{HM : SqliteDml} `{HML : !SqliteDmlLaws}
  `{HE : SqliteErrors} `{HT : Timestamps} `{HC : Crc32}.
Context `{HQ : QueryCatalog} `{HSE : SerdeErrors} `{HST : SerdeText}.
Context (hash_order : gset string -> list string) (limits : LimitsConfig).
Context (key_info : TableKeyInfo) (Hschema : schema_ok key_info).
Implicit Type p : ScanPrepared (D := D).

Notation base_ks := (tki_key_schema key_info).
Notation base_defs := (tki_attribute_definitions key_info).
Notation columns := (key_columns key_info).

(** SQLite's reads of the rows of the table, as the handler calls them. *)
Definition table_scan (t : Table) (info : TableKeyInfo) (limit : option Z) (cursor : option Item)
    (segment total_segments : option Z) (index_name : option string) (w : unit) : QueryResult * unit :=
  (scan_impl (D := D) (tbl_rows t) info limit cursor segment total_segments (is_some index_name), w).

Definition table_key_in_segment (t : Table) (info : TableKeyInfo) (key : Item) (segment total_segments : Z)
    (index_name : option string) (w : unit) : result StorageError bool :=
  scan_key_in_segment_impl (D := D) (tbl_rows t) info key segment total_segments (is_some index_name).

Notation prepare t body := (prepare_scan (D := D) hash_order (table_key_in_segment t) limits body tt).
Notation handle t :=
  (fun body => handle_scan (D := D) hash_order (table_scan t) (table_key_in_segment t) limits body page_fuel tt).

Lemma column_equal r col b : cond_true r (CCmp col CEq b) = true -> row_cols r !! col = Some b.
Proof.
  simpl. destruct (row_cols r !! col) as [x|]; [|done]. intros Hc%bool_decide_eq_true_1.
  by apply cmp_eq_iff in Hc as ->.
Qed.

Lemma same_key_row t items r r' k : base_holds (D := D) key_info t items -> In r (tbl_rows t) -> In r' (tbl_rows t) ->
  col_values columns r = map Some k -> col_values columns r' = map Some k -> r = r'.
Proof.
  intros Hb Hr Hr' E E'. pose proof (base_distinct key_info t items Hb) as Hn.
  revert E E' Hn Hr Hr'. generalize columns as cols. intros cols E E'. induction (tbl_rows t) as [|x l IH]; simpl; [done|]. intros Hn. inversion Hn as [|? ? Hx Hl]; subst.
  intros [<-|Hr] [<-|Hr']; [done| | |by apply IH]; exfalso; apply Hx.
  - rewrite E, <- E'. by apply in_map.
  - rewrite E', <- E. by apply in_map.
Qed.

(** The remainder of SQLite and the one of the membership check agree on a segment. *)
Lemma segment_residue id total seg : (1 <= total)%Z -> (0 <= seg)%Z ->
  Z.rem id total = seg -> Z.modulo id total = seg.
Proof.
  intros Ht Hs E. destruct (Z.le_gt_cases 0 id) as [Hid|Hid]; [by rewrite <- E, Z.rem_mod_nonneg by lia|].
  pose proof (Z.rem_nonpos id total ltac:(lia) ltac:(lia)) as Hn. assert (seg = 0%Z) as Hz by lia.
  rewrite Hz in *. apply Z.mod_divide; [lia|]. apply Z.rem_divide; [lia|done].
Qed.

(** The row of a key is in the segment that its item was read from. *)
Lemma key_in_own_segment t items r seg total : base_holds (D := D) key_info t items -> In r (tbl_rows t) ->
  (1 <= total)%Z -> (0 <= seg)%Z -> where_true [CRowid total seg] r = true ->
  scan_key_in_segment_impl (D := D) (tbl_rows t) key_info (extract_key (row_item r) base_ks) seg total false = Ok true.
Proof.
  intros Hb Hr Ht Hseg Hw. destruct (base_row key_info t items r Hb Hr) as (k & _ & Ek & Hi).
  apply (bh_items _ _ _ Hb) in Hi.
  assert (item_key (D := D) key_info (extract_key (row_item r) base_ks) k) as Hk.
  { eapply item_key_ext; [|exact Hi]. intros ks Hks. rewrite extract_key_get, bool_decide_eq_true_2; [done|].
    apply list_elem_of_In, in_map, Hks. }
  assert (forall conds, (forall r', where_true conds r' = true -> col_values columns r' = map Some k) ->
    match List.find (where_true conds) (tbl_rows t) with
    | Some r => Ok (Z.modulo (row_id r) total =? seg)%Z
    | None => Ok (E := StorageError) true
    end = Ok true) as Hfind.
  { intros conds Hc. destruct (List.find _ _) as [r'|] eqn:Ef; [|done]. apply find_some in Ef as [Hr' Hw'%Hc].
    rewrite <- (same_key_row t items r r' k Hb Hr Hr' Ek Hw'). f_equal. apply Z.eqb_eq, segment_residue; [done|done|].
    unfold where_true in Hw. simpl in Hw. rewrite andb_true_r in Hw. by apply Z.eqb_eq. }
  destruct (item_key_parts key_info _ _ Hk) as (v & pt & Hv & Hpt & Hparts).
  clear Hk. revert Hv Hparts. generalize (extract_key (row_item r) base_ks) as key. intros key Hv Hparts.
  destruct (so_hash _ Hschema) as (h & rest & E & _). unfold hash_name in Hv. rewrite E in Hv.
  unfold scan_key_in_segment_impl. fold (scan_info key_info). rewrite E at 1. rewrite Hv. cbn [ok_or_else]. rewrite Hpt.
  destruct (scan_info key_info) as [[name ty]|].
  - destruct Hparts as (x & b & Hx & Hbx & Hkk & Hcols). cbn [fst snd]. rewrite Hx, Hbx. cbn [app].
    apply Hfind. intros r'. rewrite Hcols, Hkk.
    intros [H1%column_equal [H2%column_equal _]%andb_true_iff]%andb_true_iff. simpl. by rewrite H1, H2.
  - destruct Hparts as [Hkk Hcols]. cbn [app]. apply Hfind. intros r'. rewrite Hcols, Hkk.
    intros [H1%column_equal _]%andb_true_iff. simpl. by rewrite H1.
Qed.

(** ** The requests *)

Definition in_segment (input : ScanInput) (r : Row) : Prop :=
  where_true (segment_conds (si_segment input) (si_total_segments input)) r = true.

Lemma scan_impl_rows t input n cursor out lek : (1 <= n)%Z ->
  scan_impl (D := D) (tbl_rows t) key_info (Some n) cursor (si_segment input) (si_total_segments input) false
    = Ok (out, lek) ->
  Forall (fun i => exists r, In r (tbl_rows t) /\ row_item r = i /\ in_segment input r) out.
Proof.
  intros Hn Hq. unfold scan_impl in Hq. destruct (match cursor with Some _ => _ | None => _ end) as [cur|]; [|done].
  match type of Hq with context [sqlite_select (tbl_rows t) ?st] =>
    destruct (sqlite_select_spec (tbl_rows t) st) as (l & Hp & _ & El); [cbn [st_limit]; lia|]; rewrite El in Hq;
    cbn [st_where] in Hp end.
  injection Hq as <- _. apply List.Forall_forall. intros i (r & <- & Hr)%in_map_iff. exists r.
  apply In_take, In_take in Hr. eapply Permutation_in in Hr; [|exact Hp]. apply filter_In in Hr as [Hr Hw].
  split; [done|]. split; [done|]. unfold in_segment, where_true in *. rewrite forallb_app in Hw.
  by apply andb_true_iff in Hw as [Hw _].
Qed.

(** What the handler checked of a request. *)
Record prepared (body : Value) (p : ScanPrepared (D := D)) : Prop := {
  pr_enums : validate_enum_fields body scan_enums = Ok tt;
  pr_decoded : de_scan_input body = Ok (sp_input p);
  pr_expressions : read_scan_expressions hash_order limits (sp_input p) = Ok (sp_expressions p);
  pr_resolved : resolve_scan (sp_input p) = Ok (sp_key_info p, sp_index_info p);
  pr_operands : check_filter_operands (sp_expressions p) = Ok tt
}.

Lemma prepare_inv t body p : prepare t body = Ok p -> prepared body p.
Proof.
  unfold prepare_scan. intros Hp. destruct (validate_enum_fields body scan_enums) as [[]|] eqn:E1; [|done].
  destruct (de_scan_input body) as [input|] eqn:E2; [|done]. cbn [map_err] in Hp.
  destruct (read_scan_expressions hash_order limits input) as [sx|] eqn:E3; [|done].
  destruct (resolve_scan input) as [[ki ii]|] eqn:E4; [|done].
  destruct (check_scan_start_key _ _ _ _ _) as [|]; [|done].
  destruct (check_filter_operands sx) as [[]|] eqn:E6; [|done]. by injection Hp as <-.
Qed.

(** The parameters of a Scan of the table that was accepted. *)
Lemma resolve_scan_table input ki index : resolve_scan input = Ok (ki, index) -> si_index_name input = None ->
  index = None /\ check_segments (si_segment input) (si_total_segments input) = Ok tt
  /\ forall l, si_limit input = Some l -> (1 <= l)%Z.
Proof.
  unfold resolve_scan. intros Hp Hn. rewrite Hn in Hp. destruct (from_storage _) as [info|]; [|done].
  cbn [resolve_scan_index] in Hp. match type of Hp with context [if ?b then fail ?m else Ok tt] => destruct b; [done|] end.
  destruct (validate_query_select_index_support _ _) as [|]; [|done].
  destruct (check_segments _ _) as [[]|]; [|done].
  destruct (si_limit input) as [l|].
  - destruct (Z.ltb_spec l 1); [done|]. destruct (check_scan_select _ _) as [|]; [|done].
    injection Hp as _ <-. split; [done|]. split; [done|]. by intros ? [= <-].
  - destruct (check_scan_select _ _) as [|]; [|done]. by injection Hp as _ <-.
Qed.

Lemma check_segments_bounds seg total : check_segments (Some seg) (Some total) = Ok tt ->
  (0 <= seg < total)%Z /\ (1 <= total)%Z.
Proof.
  unfold check_segments. destruct (Z.ltb_spec total 1); [done|]. destruct (Z.ltb_spec 1000000 total); [done|].
  destruct (Z.ltb_spec seg 0); [done|]. destruct (Z.ltb_spec 999999 seg); [done|].
  destruct (Z.leb_spec total seg); [done|]. lia.
Qed.

(** An item with a key that a request can carry: of the types of the schema, and read
    back as it is written. *)
Definition key_storable (i : Item) : Prop :=
  forall ks, In ks base_ks -> exists v d, bt_get (ks_attribute_name ks) i = Some v
    /\ find_definition (ks_attribute_name ks) base_defs = Some d
    /\ attr_value_matches_scalar v (ad_attribute_type d) = true /\ wire_wf v = true.

Lemma storable_key_of_schema i : key_storable i -> key_of_schema base_ks base_defs (extract_key i base_ks).
Proof.
  intros Hk. split.
  - intros name. rewrite extract_key_get. case_bool_decide as Hin; [|split; [by intros []|done]].
    split; [done|]. intros _. apply list_elem_of_In, in_map_iff in Hin as (ks & <- & Hks).
    destruct (Hk ks Hks) as (v & ? & -> & _). eauto.
  - intros ks v Hks Hv. destruct (Hk ks Hks) as (w & d & Hw & Hd & Hm & _). exists d. split; [done|].
    rewrite extract_key_get, Hw in Hv. case_bool_decide; [|done]. by injection Hv as <-.
Qed.

Lemma storable_key_reads i : key_storable i ->
  de_item (item_value (extract_key i base_ks)) = Ok (extract_key i base_ks).
Proof.
  intros Hk. apply item_value_reads; [apply extract_key_sorted|]. intros name v Hin.
  apply In_bt_get in Hin; [|apply extract_key_sorted]. rewrite extract_key_get in Hin.
  case_bool_decide as Hn; [|done]. apply list_elem_of_In, in_map_iff in Hn as (ks & <- & Hks).
  destruct (Hk ks Hks) as (w & d & Hw & _ & _ & Hwf). congruence.
Qed.

(** A start key that the pages of the request give. *)
Definition page_key (t : Table) (input : ScanInput) (start : option Item) : Prop :=
  forall key, start = Some key -> exists r, In r (tbl_rows t) /\ in_segment input r
    /\ key = extract_key (row_item r) base_ks.

Definition restart (p : ScanPrepared (D := D)) (start : option Item) : ScanPrepared :=
  {| sp_input := match start with Some _ => set_start (sp_input p) start | None => sp_input p end;
     sp_expressions := sp_expressions p; sp_key_info := sp_key_info p; sp_index_info := sp_index_info p |}.

Context (t : Table) (items : list BoundValue -> option Item).
Hypothesis Hbase : base_holds (D := D) key_info t items.
Hypothesis Hnames : NoDup (key_names base_ks).
Hypothesis Hkeys : forall k i, items k = Some i -> key_storable i.

Lemma page_key_accepted input key : page_key t input (Some key) -> si_index_name input = None ->
  check_segments (si_segment input) (si_total_segments input) = Ok tt ->
  de_item (item_value key) = Ok key
  /\ check_scan_start_key (table_key_in_segment t) (set_start input (Some key)) key_info None tt = Ok tt.
Proof.
  intros Hk Hn Hs. destruct (Hk key eq_refl) as (r & Hr & Hw & ->).
  destruct (base_row key_info t items r Hbase Hr) as (k & _ & _ & Hi%Hkeys).
  split; [by apply storable_key_reads|]. unfold check_scan_start_key. cbn [set_start si_exclusive_start_key].
  assert (validate_scan_exclusive_start_key (extract_key (row_item r) base_ks) key_info None = Ok tt) as ->
    by (apply check_start_key_Ok; [apply extract_key_sorted|done|by apply storable_key_of_schema]).
  cbn [set_start si_segment si_total_segments si_index_name]. rewrite Hn. unfold in_segment in Hw.
  destruct (si_segment input) as [seg|], (si_total_segments input) as [total|]; try done.
  apply check_segments_bounds in Hs. unfold table_key_in_segment. cbn [query_key_info is_some].
  erewrite (key_in_own_segment t items r seg total Hbase); [done|done|lia|lia|done].
Qed.

(** The next request is accepted as the first was. *)
Lemma prepare_next body o p start : body = VObject o -> prepare t body = Ok p -> sp_key_info p = key_info ->
  si_index_name (sp_input p) = None -> page_key t (sp_input p) start ->
  prepare t (with_start_key body start) = Ok (restart p start).
Proof.
  intros Ho Hp Hki Hn Hk. destruct start as [key|]; [|by destruct p].
  destruct (prepare_inv t body p Hp) as [E1 E2 E3 E4 E5].
  destruct (resolve_scan_table _ _ _ E4 Hn) as (Hii & Hs & _).
  destruct (page_key_accepted _ _ Hk Hn Hs) as [Hd Hc].
  unfold prepare_scan. rewrite (with_start_enums body o key Ho), E1, (with_start_decodes body o key _ Ho E2 Hd).
  cbn [map_err].
  assert (read_scan_expressions (D := D) hash_order limits (set_start (sp_input p) (Some key))
    = read_scan_expressions hash_order limits (sp_input p)) as -> by reflexivity.
  assert (resolve_scan (set_start (sp_input p) (Some key)) = resolve_scan (sp_input p)) as -> by reflexivity.
  rewrite E3, E4, Hki, Hii, Hc, E5. unfold restart. by rewrite Hki, Hii.
Qed.

Notation seg p := (si_segment (sp_input p), si_total_segments (sp_input p)).

Lemma handle_next body o p start : body = VObject o -> prepare t body = Ok p -> sp_key_info p = key_info ->
  si_index_name (sp_input p) = None -> si_exclusive_start_key (sp_input p) = None ->
  page_key t (sp_input p) start ->
  handle t (with_start_key body start)
  = read_page (D := D) (scan_fetch key_info t (seg p)) page_fuel (si_limit (sp_input p)) start (sp_post p) tt.
Proof.
  intros Ho Hp Hki Hn Hst Hk. unfold handle_scan. rewrite (prepare_next body o p start) by done.
  destruct (resolve_scan_table _ _ _ (pr_resolved _ _ (prepare_inv _ _ _ Hp)) Hn) as (Hii & _).
  destruct start as [key|]; unfold scan_page, sp_post, restart;
    cbn [sp_input sp_key_info sp_index_info sp_expressions set_start si_index_name si_segment si_total_segments
         si_limit si_exclusive_start_key]; rewrite Hki, Hii, Hn; [done|]. by rewrite Hst.
Qed.

(** The client of the API is the client of the page reader. *)
Lemma client_walk body o p : body = VObject o -> prepare t body = Ok p -> sp_key_info p = key_info ->
  si_index_name (sp_input p) = None -> si_exclusive_start_key (sp_input p) = None ->
  forall requests start, page_key t (sp_input p) start ->
  client (handle t) body requests start
  = walk (D := D) (scan_fetch key_info t (seg p)) requests (si_limit (sp_input p)) (sp_post p) start tt.
Proof.
  intros Ho Hp Hki Hn Hst. induction requests as [|requests IH]; intros start Hk; [done|]. cbn [client walk].
  rewrite (handle_next body o p start) by done.
  destruct (read_page _ _ _ _ _ _) as [page|] eqn:Er; [|done].
  destruct (pg_last_evaluated_key page) as [key|] eqn:El; [|done]. rewrite IH; [done|].
  apply (read_page_made_of _ _ (fun i => exists r, In r (tbl_rows t) /\ row_item r = i /\ in_segment (sp_input p) r))
    in Er.
  - intros ? [= <-]. destruct Er as [_ Hl]. destruct (Hl key El) as (i & (r & Hr & <- & Hw) & ->).
    exists r. split; [done|]. split; [done|]. unfold sp_post, scan_post. cbn [pr_lek_key_schema].
    destruct (resolve_scan_table _ _ _ (pr_resolved _ _ (prepare_inv _ _ _ Hp)) Hn) as (-> & _). by rewrite Hki.
  - intros cursor n w out lek w' Hn'. unfold scan_fetch. intros [= Hq _]. by eapply scan_impl_rows.
Qed.

End Client.
