(* ===== verification/ScanSample.v ===== *)
(** * A scanned table

    The notes of [StoreSample] read by a client of the API: a Scan with a filter and a
    limit, in one of two segments, followed from page to page. *)

From S2P Require Import Prelude BTree Types Error Decimal Number Ast Tokenizer Resolver Evaluator Projection.
From S2P Require Import KeyCondition KeyResolve ItemSize Storage ReadPage StartKey StorageKey Wire NumberKey.
From S2P Require Import KeyOrder SqlSelect SqliteQuery SqlWrite IndexKeys SqliteIndex SqliteQueue SqliteStore.
From S2P Require Import StoreRefine SqliteWorker StoreModel TableRead StoreSample.
From S2P Require Import ExpressionHelpers LegacyFilter QueryHandler LeadingKeys FenceSample ScanHandler ScanClient.

#[local] Existing Instance rfc4648_base64.
#[local] Existing Instance rfc4648_decode.
#[local] Existing Instance rfc4648_round_trip.
#[local] Existing Instance sorting_sqlite.
#[local] Existing Instance sorting_sqlite_laws.
#[local] Existing Instance list_dml.
#[local] Existing Instance list_dml_laws.
#[local] Existing Instance text_rendering.
#[local] Existing Instance sqlite_errors.
#[local] Existing Instance second_timestamps.
#[local] Existing Instance length_crc32.
#[local] Existing Instance short_errors.
#[local] Existing Instance short_texts.
#[local] Existing Instance notes_query_catalog.

(** [folder <> :f], a note at a time. *)
Definition scan_body (segments : list (string * Value)) : Value :=
  VObject ([("TableName", VString "notes"); ("Limit", VNumber "1");
    ("FilterExpression", VString "folder <> :f");
    ("ExpressionAttributeValues", VObject [(":f", text "home")])] ++ segments).

Definition second_of_two : list (string * Value) := [("Segment", VNumber "1"); ("TotalSegments", VNumber "2")].

Definition sample_table : Table :=
  Eval vm_compute in default {| tbl_key := []; tbl_rows := [] |} (db_tables sample_db !! data_table_name "notes").

Lemma sample_table_holds : base_holds (D := dec) notes sample_table sample_model.1.
Proof.
  destruct (sto_base _ _ _ _ _ (proj1 sample_agrees)) as (t & Ht & Hb).
  assert (t = sample_table) as <-; [|done]. vm_compute in Ht. injection Ht as <-. reflexivity.
Qed.

Definition scan_prepared (segments : list (string * Value)) : res (ScanPrepared (D := dec)) :=
  prepare_scan sorted_names (table_key_in_segment (D := dec) sample_table) sample_limits (scan_body segments) tt.
Definition half_prepared : option (ScanPrepared (D := dec)) := Eval vm_compute in ok (scan_prepared second_of_two).

Lemma half_prepares : ok (scan_prepared second_of_two) = half_prepared.
Proof. vm_compute. reflexivity. Qed.

Lemma notes_storable k i : sample_model.1 k = Some i -> key_storable notes i.
Proof.
  intros [->| ->]%sample_item ks [<-|[<-|[]]]; (do 2 eexists; repeat split; vm_compute; reflexivity).
Qed.

Lemma notes_names : NoDup (key_names notes_schema).
Proof. apply (bool_decide_unpack _). by vm_compute. Qed.

Definition scan_notes (body : Value) : res PageReadResult :=
  handle_scan (D := dec) sorted_names (table_scan (D := dec) sample_table) (table_key_in_segment (D := dec) sample_table)
    sample_limits body page_fuel tt.


(** Without segments: the note that passes the filter, the other one, and the end. *)
Lemma scan_notes_pages :
  (map pg_items <$> ok (client scan_notes (scan_body []) 3 None))
  = Some [Some [note "ada" "09:00" "play"]; Some []; Some []].
Proof. vm_compute. reflexivity. Qed.
